(* ===== verification/_CoqProject ===== *)
-Q . S2P
Prelude.v
BigIntSpec.v
Ast.v
Types.v
Layouts.v
Eval.v
Pt.v
TypeNames.v
SymTable.v
Casts.v
Names.v
Resolver.v
Literals.v
Operators.v
Access.v
Calls.v
Methods.v
Resolve.v
Statements.v
Declarations.v
Functions.v
Contracts.v
Orders.v
Files.v
Imports.v
Typed.v
CastFacts.v
ResolverFacts.v
Specs.v
OperatorsFacts.v
AccessFacts.v
LiteralFacts.v
CallsFacts.v
MethodsFacts.v
ResolveFacts.v
StatementRules.v
Flow.v
StatementFacts.v
BodyFacts.v
Nesting.v
DeclarationRules.v
DeclarationFacts.v
VariableFacts.v
ContractFacts.v
Resolution.v
ExternalFacts.v
Llvm.v
GenBinary.v
GenCore.v
LlvmSem.v
CoreFacts.v
LinkedLayout.v
IrTypes.v
IrValues.v
Ir.v
Dce.v
DomTree.v
Mem2Reg.v
Machine.v
MFunction.v
Liveness.v
LiveRanges.v
Spiller.v
RegAlloc.v
OlaPasses.v
PassFacts.v
LowerCtx.v
LowerInst.v
LowerCall.v
LowerMem.v
Lower.v
Asm.v
LowerFacts.v
CompileFacts.v
LowerSem.v
LowerCallFacts.v
LowerMemFacts.v
