(* ===== verification/Prelude.v ===== *)
(** * The Ola compiler in Rocq

    This library models the compiler [olac] (a Rust workspace: the crate
    [ola-lang] under src/src/ and the parser [ola-parser] under
    src/ola-parser/) and proves what its parts promise.  The compiler turns an
    Ola contract into assembly for the Ola virtual machine in these steps.

    - The parser (a lalrpop grammar) gives a parse tree.
    - The semantic analysis (src/src/sema/) resolves names and types, checks
      the program and gives a namespace with resolved functions.
    - The IR generation (src/src/irgen/) emits LLVM IR through the inkwell
      bindings.
    - The back end (src/src/codegen/) reads LLVM IR as text into its own IR,
      simplifies it, selects Ola instructions, allocates registers and prints
      assembly.

    The library covers the semantic analysis from the parse tree of the files
    to the namespace, the library functions of the IR generation, and the back
    end from its IR to the assembly.

    ** Conventions

    A definition is a translation of the Rust function of the same name; the
    comment above it names the file and the function.  A function that can
    panic returns a [comp] (below): [Ret], [Panic], or [OutOfFuel], which only
    the model has.  A function that also reports diagnostics and can fail
    returns a [sema] (Ast.v), and the functions that resolve expressions, which
    share the namespace, the symbol table, the context and the diagnostics
    through mutable references, run in the state monad [R] of Resolver.v, where
    what was done before a failure stays done.  A [BigInt] and an integer of a
    machine width are a [Z], with the range checks and the wrap-around of the
    code written out; indices into tables are [nat] or [Z]; a hash map is a
    [gmap], and where the code iterates over a hash map in an order that can
    matter the order is a parameter; a [Vec] is a list.  A failed assertion, an
    index out of range, [unwrap] of nothing, [unreachable!] and [todo!] are
    [Panic].

    ** Front end: data

    - Ast.v: types, expressions, statements, declarations, the namespace, the
      diagnostics (sema/ast.rs, sema/diagnostics.rs).  Pt.v: the parse tree
      (ola-parser/src/program.rs), and Module ParseDepth its depth.
    - BigIntSpec.v: the interface to the num-bigint crate as a class with the
      documented laws; an instance on [Z] shows that they can be met.
    - Types.v, Layouts.v, TypeNames.v: operations on types, sizes, storage
      slots, struct layouts, printed names (sema/types.rs).
    - SymTable.v, Names.v: scopes of a function body (sema/symtable.rs), the
      marks on variables (Module Usage, sema/unused_variable.rs), the
      symbols of a file and the core library (sema/namespace.rs, corelib.rs).
    - Eval.v: evaluation and folding of constants, overflow checks
      (sema/eval.rs).

    ** Front end: the resolution of expressions (sema/expression/)

    Casts.v (mod.rs, integers.rs), Resolver.v (the monad, type names,
    namespace.rs), Literals.v (literals.rs, strings.rs), Operators.v
    (arithmetic.rs, assign.rs, resolve_expression.rs), Access.v (variable.rs,
    member_access.rs, subscript.rs, slice.rs, constructor.rs, literals.rs),
    Calls.v and Methods.v (function_call.rs, corelib.rs), tied together by
    Resolve.v.  The functions of the files take the recursion as an argument,
    as they would call [expression] and [resolve_type].

    Typed.v says when a resolved expression is well typed, against a class
    [Constants] of the variables that are constant.  Specs.v is a small program
    logic for the monad: [spec m Q] says that [m] comes to an end, that a result
    satisfies [Q], that a failure has added a diagnostic, and that the tables,
    the scopes and the context are as before up to the marks for read and
    assigned variables; its rules are the hint database [spec] and the tactics
    [spec_step] and [spec_go].  CastFacts.v, ResolverFacts.v, OperatorsFacts.v,
    AccessFacts.v, LiteralFacts.v, CallsFacts.v and MethodsFacts.v give one such
    rule for each function, ResolveFacts.v the theorems about [expression]: it
    terminates, its results are well typed, its failures are reported, and it
    changes nothing else.

    ** Front end: statements

    Statements.v models sema/statements.rs: one definition per form of
    statement, all taking the recursion as an argument, and the body of a
    function.  StatementRules.v has the rules for the functions that statements
    call, StatementFacts.v one for each form: the scopes and the context are
    restored, failures are reported.  Flow.v defines when the end of a resolved
    statement can be reached and when a loop ends; BodyFacts.v concludes for
    bodies: they are well typed, what is reported unreachable is, and a body
    that must return does.

    ** Front end: declarations, contracts and files

    - Declarations.v (sema/types.rs), Functions.v (sema/functions.rs,
      variables.rs), Contracts.v (contracts.rs,
      external_functions.rs), Imports.v (sema/mod.rs).  They change the
      namespace in the monad [N] of Declarations.v.  Orders.v has the orders
      that Rust derives and [sort] with [dedup].
    - Files.v has lines and columns (sema/file.rs) and, in Module FileResolver
      (file_resolver.rs), the import paths over a class [FileSystem].
    - Nesting.v: when the computation of struct offsets ends.
      DeclarationRules.v, DeclarationFacts.v, VariableFacts.v, ContractFacts.v
      and Resolution.v carry [wf_ns] (ResolverFacts.v), which the theorems on
      expressions and bodies assume, from the empty namespace through all
      declarations to a contract whose bodies are resolved.  ExternalFacts.v
      shows that the functions a contract calls are found, all of them and no
      others.

    ** IR generation (irgen/)

    Llvm.v has the part of LLVM IR that the generator emits and the calls of the
    inkwell builder, as a state monad over the module.  GenBinary.v
    (irgen/binary.rs) has the LLVM types of the types of the language and the
    helpers, GenCore.v (irgen/corelib.rs) the functions that every module has:
    allocation, copying, comparisons and the arithmetic that prophets help with.
    LlvmSem.v interprets the functions on words of the field, with what the
    prophets answer as a parameter; CoreFacts.v shows for every answer which
    results the library functions accept and return.

    ** Back end: the IR (codegen/core/ir/)

    - LinkedLayout.v: the doubly linked layouts of machine functions (Module
      Layout) and of IR functions (Module IrLayout), and the list of lists that
      they stand for (Module LayoutSpec): every operation refines the one on
      lists.
    - IrTypes.v: the type table with interning, sizes, alignments, struct
      layouts.  IrValues.v: constants, names, attributes, the escaping of
      strings.  Ir.v: instructions, the arenas with the map of users, functions
      and the builder, folding of constants.
    - Dce.v: dead code and, in Module Sccp, constant branches
      (core/pass/transform/).  DomTree.v: the dominator tree
      (core/pass/analysis/).  Mem2Reg.v: the promotion of stack slots
      (core/pass/transform/).

    ** Back end: machine code

    - Machine.v, MFunction.v: registers, instructions, users, slots, spills and
      reloads (codegen/register, instruction, function, isa/ola).
    - LowerCtx.v, LowerInst.v, LowerCall.v, LowerMem.v, Lower.v: instruction
      selection (codegen/lower, isa/ola/lower), in a state monad over the
      lowering context.  LowerFacts.v and CompileFacts.v show that the selected
      code is well formed, LowerSem.v that the code of integer expressions and
      branches computes what the IR means on a machine whose field and bit
      operations are parameters, LowerCallFacts.v and LowerMemFacts.v that
      arguments and aggregates arrive, and where they do not.
    - Liveness.v, LiveRanges.v, Spiller.v, RegAlloc.v: the analysis and the
      linear scan (codegen/pass/).
    - OlaPasses.v, PassFacts.v: phi elimination, the peepholes, slot
      elimination, prologue and epilogue (codegen/isa/ola/pass/).
    - Asm.v: the passes (Module Pipeline) in a row over a module, and the printed
      assembly with its prophets (codegen/lower/mod.rs, codegen/isa/ola/asm).

    ** Theorems

    The numbered theorems (C1, C2, ...) are the properties; each has a closed
    witness at a concrete input where it has hypotheses.  By group: typing,
    error reporting, framing and termination of the resolution of expressions
    (ResolveFacts.v), of statements and bodies (StatementFacts.v, BodyFacts.v)
    and of contracts (Resolution.v, ExternalFacts.v); conversions (CastFacts.v),
    literals (LiteralFacts.v), constants (Eval.v), sizes and layouts of types
    (Types.v, Layouts.v), positions and orders (Files.v, Orders.v); refinement
    of the linked layouts (LinkedLayout.v); the library functions for every
    answer of the prophets (CoreFacts.v); exactness of the users map and of
    replacements, dead code, promotion of slots and the numbering of blocks
    (Ir.v, Dce.v, Mem2Reg.v, DomTree.v); correctness
    of instruction selection (LowerSem.v, CompileFacts.v, LowerCallFacts.v,
    LowerMemFacts.v); liveness, live ranges and allocation (Liveness.v,
    LiveRanges.v, RegAlloc.v); the machine passes (PassFacts.v).
    Theorems that show a defect of the code say so in their comment.

    ** Fuel

    Recursion that is not structural runs on fuel, and theorems say which is
    enough: [type_fuel] (user types refer to earlier ones) and [search_fuel]
    (each struct is visited once) for types; [eval_fuel] (constants
    refer to earlier constants) for constants; the depth of the parse tree for
    expressions, statements and type names; the number of blocks for the
    dominator tree; the size of the arenas for walks over uses, blocks and work
    lists.  Where a loop of the code need not end, a theorem
    says that no fuel is enough.

    ** Parameters

    num-bigint (class [NumBigInt]); Keccak-256 and the order of iteration over
    a hash map of call arguments in the resolution of calls; the simple paths
    of petgraph and the order of a hash map in the search for recursive structs
    (classes [Petgraph] and [HashOrder] of Declarations.v); the file system and
    the parser (Files.v, Imports.v); the constant folding of the LLVM builder and
    the renaming of functions (class [Inkwell] of Llvm.v); the iteration orders of the hash
    sets and maps of the passes; the field and bit operations of the Ola
    machine in LowerSem.v.

    ** Not modelled

    - The lexer and the grammar: generated by lalrpop, or tables for it.
    - The IR generation of expressions, statements, storage accesses and the
      ABI encoding.
    - The parser of LLVM IR: its combinators are those of the nom crate.
    - The excerpt of a source line in an error message, the command line, the
      JSON form of the ABI, dumps for humans (dot, Display of IR and machine
      instructions). *)
From stdpp Require Export prelude gmap strings list fin_maps fin_sets pretty.

(** * Computations

    A Rust function that can panic (an index out of range, an [unwrap] of
    [None], [unreachable!], an arithmetic overflow under overflow checks), and
    whose model recurses on fuel, returns a [comp].  [Panic] is a panic of the
    program; [OutOfFuel] is an artefact of the model, and every theorem about
    a fuelled function says which fuel is enough. *)
Inductive comp (A : Type) : Type :=
  | Ret (a : A)
  | Panic
  | OutOfFuel.
Arguments Ret {_} _.
Arguments Panic {_}.
Arguments OutOfFuel {_}.

#[export] Instance comp_ret : MRet comp := λ A a, Ret a.
#[export] Instance comp_bind : MBind comp := λ A B f m,
  match m with Ret a => f a | Panic => Panic | OutOfFuel => OutOfFuel end.

(** [o.unwrap()], [map[&k]], [vec[i]]: panics when there is nothing. *)
Definition unwrap {A} (o : option A) : comp A :=
  match o with Some a => Ret a | None => Panic end.

(** [assert!(b)] *)
Definition assert_c (b : bool) : comp unit := if b then Ret tt else Panic.

(** A loop over a sequence that threads a state and may panic. *)
Fixpoint foldM {A B} (f : A → B → comp A) (a : A) (l : list B) : comp A :=
  match l with
  | [] => Ret a
  | b :: l => f a b ≫= λ a', foldM f a' l
  end.

(** [iter().map(..).collect()] of a closure that may panic. *)
Fixpoint mapM_c {A B} (f : A → comp B) (l : list A) : comp (list B) :=
  match l with
  | [] => Ret []
  | a :: l => f a ≫= λ b, mapM_c f l ≫= λ bs, Ret (b :: bs)
  end.

Lemma bind_Ret {A B} (m : comp A) (f : A → comp B) b :
  m ≫= f = Ret b ↔ ∃ a, m = Ret a ∧ f a = Ret b.
Proof. destruct m; naive_solver. Qed.

Lemma unwrap_Ret {A} (o : option A) a : unwrap o = Ret a ↔ o = Some a.
Proof. destruct o; naive_solver. Qed.

Lemma unwrap_no_fuel {A} (o : option A) : unwrap o ≠ OutOfFuel.
Proof. by destruct o. Qed.

Lemma bind_no_fuel {A B} (m : comp A) (f : A → comp B) :
  m ≠ OutOfFuel → (∀ a, m = Ret a → f a ≠ OutOfFuel) → m ≫= f ≠ OutOfFuel.
Proof. destruct m; naive_solver. Qed.

(** Inverts every [_ ≫= _ = Ret _] of the context, and the lookups under it. *)
Ltac comp_inv :=
  repeat match goal with
  | H : mbind _ _ = Ret _ |- _ =>
      apply bind_Ret in H as (? & ? & ?)
  | H : unwrap _ = Ret _ |- _ => apply unwrap_Ret in H
  | H : Ret _ = Ret _ |- _ => progress simplify_eq
  | H : Panic = Ret _ |- _ => discriminate H
  | H : OutOfFuel = Ret _ |- _ => discriminate H
  | H : assert_c ?b = Ret _ |- _ =>
      destruct b eqn:?; cbn in H; [try clear H | discriminate H]
  end.

Section Loops.
Context {A B : Type}.

Lemma foldM_app (f : A → B → comp A) a l1 l2 :
  foldM f a (l1 ++ l2) = foldM f a l1 ≫= λ a', foldM f a' l2.
Proof.
  revert a. induction l1 as [|b l1 IH]; intros a; [done|]. cbn.
  destruct (f a b); cbn; auto.
Qed.

(** The rule for loops: an invariant preserved by the body holds at the end. *)
Lemma foldM_inv (P : A → Prop) (f : A → B → comp A) l a r :
  (∀ a b a', b ∈ l → P a → f a b = Ret a' → P a') →
  P a → foldM f a l = Ret r → P r.
Proof.
  revert a. induction l as [|b l IH]; cbn; intros a Hf Ha H.
  - by comp_inv.
  - comp_inv. eapply IH; [|eapply (Hf a b); [by left|exact Ha|done]|done].
    intros; eapply Hf; eauto. by right.
Qed.

(** The same with the elements already seen, and a body that establishes a
    fact about the element it handles which later steps keep. *)
Lemma foldM_each (P : A → Prop) (Q : B → A → Prop) (f : A → B → comp A) l a r :
  (∀ a b a', b ∈ l → P a → f a b = Ret a' → P a' ∧ Q b a' ∧ ∀ c, Q c a → Q c a') →
  P a → foldM f a l = Ret r →
  P r ∧ (∀ b, b ∈ l → Q b r) ∧ (∀ c, Q c a → Q c r).
Proof.
  revert a. induction l as [|b l IH]; cbn; intros a Hf Ha H.
  - comp_inv. split_and!; [done|set_solver|done].
  - comp_inv.
    match goal with H0 : f a b = Ret _ |- _ =>
      edestruct (Hf a b) as (Ha' & Hb & Hk); [by left|done|exact H0|] end.
    edestruct IH as (Hr & Hl & Hc); [|exact Ha'|done|].
    { intros; eapply Hf; eauto. by right. }
    split_and!; [done| |auto].
    intros c [->|?]%elem_of_cons; auto.
Qed.

(** A loop returns when every step from a state satisfying the invariant does. *)
Lemma foldM_total (P : A → Prop) (f : A → B → comp A) l a :
  (∀ a b, b ∈ l → P a → ∃ a', f a b = Ret a' ∧ P a') →
  P a → ∃ r, foldM f a l = Ret r ∧ P r.
Proof.
  revert a. induction l as [|b l IH]; cbn; intros a Hf Ha; [eauto|].
  edestruct (Hf a b) as (a' & -> & Ha'); [by left|done|]. cbn.
  apply IH; [|done]. intros; apply Hf; [by right|done].
Qed.

Lemma foldM_no_fuel (f : A → B → comp A) l a :
  (∀ a b, b ∈ l → f a b ≠ OutOfFuel) → foldM f a l ≠ OutOfFuel.
Proof.
  revert a. induction l as [|b l IH]; cbn; intros a Hf; [done|].
  apply bind_no_fuel; [apply Hf; by left|]. intros a' _.
  apply IH. intros; apply Hf. by right.
Qed.

Lemma mapM_c_Forall2 (f : A → comp B) l k :
  mapM_c f l = Ret k ↔ Forall2 (λ a b, f a = Ret b) l k.
Proof.
  split.
  - revert k. induction l as [|a l IH]; cbn; intros k H; comp_inv; [constructor|].
    constructor; auto.
  - induction 1 as [|a b l k Hf _ IH]; [done|]. cbn. by rewrite Hf; cbn; rewrite IH.
Qed.
End Loops.

(** [m] does not run out of fuel, a result satisfies [P], and when [S] holds
    it does not panic. *)
Definition yields {A} (S : Prop) (m : comp A) (P : A → Prop) : Prop :=
  match m with Ret a => P a | Panic => ¬ S | OutOfFuel => False end.

Lemma yields_bind {A B} S (m : comp A) (f : A → comp B) P Q :
  yields S m P → (∀ a, P a → yields S (f a) Q) → yields S (m ≫= f) Q.
Proof. destruct m; cbn; auto. Qed.

Lemma yields_mono {A} S (m : comp A) (P Q : A → Prop) :
  yields S m P → (∀ a, P a → Q a) → yields S m Q.
Proof. destruct m; cbn; auto. Qed.

(** * Machine integers

    Values of the Rust integer types are [Z] in their range.  The checked
    operations panic outside it (overflow checks on). *)
Definition u32_max : Z := 4294967295.
Definition in_u32 (z : Z) : bool := ((0 <=? z) && (z <=? u32_max))%Z.
Definition u32 (z : Z) : comp Z := if in_u32 z then Ret z else Panic.
Definition in_u64 (z : Z) : bool := ((0 <=? z) && (z <? 2 ^ 64))%Z.
Definition in_i32 (z : Z) : bool := ((- 2 ^ 31 <=? z) && (z <? 2 ^ 31))%Z.
Definition i32 (z : Z) : comp Z := if in_i32 z then Ret z else Panic.

Lemma u32_Ret z z' : u32 z = Ret z' ↔ z' = z ∧ (0 ≤ z ≤ u32_max)%Z.
Proof.
  unfold u32, in_u32. destruct (_ && _) eqn:E; rewrite ?andb_true_iff, ?andb_false_iff in E.
  - split; [intros [= ->]; lia|by intros [-> _]].
  - split; [done|lia].
Qed.

Lemma u32_in z : (0 ≤ z ≤ u32_max)%Z → u32 z = Ret z.
Proof. intros ?. by apply u32_Ret. Qed.

Lemma u32_no_fuel z : u32 z ≠ OutOfFuel.
Proof. unfold u32. by destruct (in_u32 z). Qed.

(** [usize] of a 64-bit host. *)
Definition usize (z : Z) : comp Z := if in_u64 z then Ret z else Panic.

Lemma usize_Ret z z' : usize z = Ret z' ↔ z' = z ∧ (0 ≤ z < 2 ^ 64)%Z.
Proof.
  unfold usize, in_u64. destruct (_ && _) eqn:E; rewrite ?andb_true_iff, ?andb_false_iff in E.
  - split; [intros [= ->]; lia|by intros [-> _]].
  - split; [done|lia].
Qed.

Create HintDb ola.
#[export] Hint Resolve unwrap_no_fuel u32_no_fuel : ola.

(** * Lists *)

(** [dim[..dim.len() - 1]] *)
Definition but_last {A} (l : list A) : list A := take (length l - 1) l.

Lemma but_last_snoc {A} (l : list A) x : but_last (l ++ [x]) = l.
Proof.
  unfold but_last. rewrite length_app; cbn.
  replace (length l + 1 - 1)%nat with (length l) by lia. by rewrite take_app_length.
Qed.

Definition zproduct (l : list Z) : Z := foldr Z.mul 1%Z l.
Definition zsum (l : list Z) : Z := foldr Z.add 0%Z l.

Lemma zproduct_app l k : zproduct (l ++ k) = (zproduct l * zproduct k)%Z.
Proof. induction l as [|x l IH]; cbn [app foldr zproduct]; unfold zproduct in *; cbn; lia. Qed.

Lemma zproduct_nonneg l : Forall (λ z, 0 ≤ z)%Z l → (0 ≤ zproduct l)%Z.
Proof. induction 1; cbn; unfold zproduct in *; lia. Qed.

Lemma zsum_nonneg l : Forall (λ z, 0 ≤ z)%Z l → (0 ≤ zsum l)%Z.
Proof. induction 1; cbn; unfold zsum in *; lia. Qed.


(** * Alignment

    [(offset + align - 1) & !(align - 1)], as both the IR data layout and the
    stack slots compute it, and the rounding they do with it. *)
Definition align_up (o a : Z) : Z := Z.land (o + a - 1) (Z.lnot (a - 1)).
Definition round_to (o a : Z) : Z := if (o mod a =? 0)%Z then o else align_up o a.

Lemma ldiff_add_land x m : (Z.ldiff x m + Z.land x m = x)%Z.
Proof.
  rewrite <-Z.add_lor_land, Z.lor_ldiff_and.
  by rewrite (Z.land_comm x m), Z.land_assoc, Z.land_ldiff, Z.land_0_l, Z.add_0_r.
Qed.

Lemma align_up_bounds o a : (0 ≤ o)%Z → (1 ≤ a)%Z → (o ≤ align_up o a ≤ o + a - 1)%Z.
Proof.
  intros Ho Ha. unfold align_up. rewrite <-Z.ldiff_land.
  pose proof (ldiff_add_land (o + a - 1) (a - 1)).
  pose proof (ldiff_add_land (a - 1) (o + a - 1)) as H1.
  rewrite (Z.land_comm (a - 1)) in H1.
  assert (0 ≤ Z.land (o + a - 1) (a - 1))%Z by (apply Z.land_nonneg; lia).
  assert (0 ≤ Z.ldiff (a - 1) (o + a - 1))%Z by (apply Z.ldiff_nonneg; lia). lia.
Qed.

Lemma align_up_pow2 o n : (0 ≤ n)%Z → (2 ^ n | align_up o (2 ^ n))%Z.
Proof.
  intros Hn. unfold align_up. rewrite <-Z.ldiff_land.
  replace (2 ^ n - 1)%Z with (Z.ones n) by (rewrite Z.ones_equiv; lia).
  rewrite Z.ldiff_ones_r, Z.shiftl_mul_pow2 by done. apply Z.divide_factor_r.
Qed.

Lemma round_to_bounds o a : (0 ≤ o)%Z → (1 ≤ a)%Z → (o ≤ round_to o a ≤ o + a - 1)%Z.
Proof.
  intros Ho Ha. unfold round_to. case_match; [lia|]. by apply align_up_bounds.
Qed.

Lemma round_to_pow2 o n : (0 ≤ n)%Z → (2 ^ n | round_to o (2 ^ n))%Z.
Proof.
  intros Hn. unfold round_to. destruct (_ =? 0)%Z eqn:E.
  - apply Z.eqb_eq in E. apply Z.mod_divide; [|done].
    pose proof (Z.pow_pos_nonneg 2 n). lia.
  - by apply align_up_pow2.
Qed.

(** The least multiple that is not below. *)
Lemma round_to_least o n m :
  (0 ≤ o)%Z → (0 ≤ n)%Z → (o ≤ m)%Z → (2 ^ n | m)%Z → (round_to o (2 ^ n) ≤ m)%Z.
Proof.
  intros Ho Hn Hm [k ->]. pose proof (Z.pow_pos_nonneg 2 n ltac:(lia) Hn) as Hp.
  destruct (round_to_pow2 o n Hn) as [j Hj].
  pose proof (round_to_bounds o (2 ^ n) Ho ltac:(lia)) as Hb. rewrite Hj in *.
  assert (j < k + 1)%Z by (apply (Z.mul_lt_mono_pos_r (2 ^ n)); lia).
  apply Z.mul_le_mono_nonneg_r; lia.
Qed.
