(* ===== verification/BigIntSpec.v ===== *)
(** What the compiler relies on of the [num-bigint] and [num-traits] crates.

    A [BigInt] is an integer, so its value is a [Z]; ring operations and order
    are those of the integers.  The operations whose result the mathematics
    leaves open (rounding of division, two's complement view of negative
    numbers, bit length, narrowing) are operations of an interface, with the
    behaviour that the crates document as its laws.  The instance at the end
    shows that the laws can be met and makes the definitions executable. *)
From S2P Require Import Prelude.
#[local] Open Scope Z_scope.

(** ** Digits of a radix *)

(** The value of the digit a letter or a figure stands for. *)
Definition digit_of (c : Ascii.ascii) : option Z :=
  let n := Z.of_nat (Ascii.nat_of_ascii c) in
  if (48 <=? n) && (n <=? 57) then Some (n - 48)
  else if (97 <=? n) && (n <=? 122) then Some (n - 87)
  else if (65 <=? n) && (n <=? 90) then Some (n - 55)
  else None.
Definition digit (radix : Z) (c : Ascii.ascii) : option Z :=
  d ← digit_of c; if d <? radix then Some d else None.
Fixpoint digits_from (radix acc : Z) (s : list Ascii.ascii) : option Z :=
  match s with [] => Some acc | c :: s => d ← digit radix c; digits_from radix (acc * radix + d) s end.
(** A number written with at least one digit and nothing else. *)
Definition digits_value (radix : Z) (s : list Ascii.ascii) : option Z :=
  match s with [] => None | _ => digits_from radix 0 s end.

Class NumBigInt : Type := {
  bi_div : Z → Z → Z;
  bi_rem : Z → Z → Z;
  bi_and : Z → Z → Z;
  bi_or : Z → Z → Z;
  bi_xor : Z → Z → Z;
  bi_not : Z → Z;
  bi_shl : Z → Z → Z;
  bi_shr : Z → Z → Z;
  bi_pow : Z → Z → Z;
  bi_bits : Z → Z;
  bi_to_u16 : Z → option Z;
  bi_to_u64 : Z → option Z;
  bi_from_str_radix : list Ascii.ascii → Z → option Z;
  (** Division rounds towards zero; the remainder has the dividend's sign. *)
  bi_div_spec a b : b ≠ 0 → bi_div a b = Z.quot a b;
  bi_rem_spec a b : b ≠ 0 → bi_rem a b = Z.rem a b;
  (** Bitwise operations act on the infinite two's complement expansion. *)
  bi_and_spec a b : bi_and a b = Z.land a b;
  bi_or_spec a b : bi_or a b = Z.lor a b;
  bi_xor_spec a b : bi_xor a b = Z.lxor a b;
  bi_not_spec a : bi_not a = - a - 1;
  bi_shl_spec a n : 0 ≤ n → bi_shl a n = a * 2 ^ n;
  bi_shr_spec a n : 0 ≤ n → bi_shr a n = a / 2 ^ n;
  bi_pow_spec a n : 0 ≤ n → bi_pow a n = a ^ n;
  (** The fewest bits that express the magnitude. *)
  bi_bits_spec a n : 0 ≤ n → bi_bits a ≤ n ↔ Z.abs a < 2 ^ n;
  bi_bits_nonneg a : 0 ≤ bi_bits a;
  (** Narrowing succeeds exactly on the values of the target type. *)
  bi_to_u16_spec a : bi_to_u16 a = if decide (0 ≤ a < 2 ^ 16) then Some a else None;
  bi_to_u64_spec a : bi_to_u64 a = if decide (0 ≤ a < 2 ^ 64) then Some a else None;
  (** Digits are read as the number they write. *)
  bi_from_str_radix_spec s r v : digits_value r s = Some v → bi_from_str_radix s r = Some v;
}.

(** Bit length of the magnitude. *)
Definition z_bits (a : Z) : Z :=
  if decide (a = 0)%Z then 0 else Z.log2 (Z.abs a) + 1.

Lemma z_bits_spec a n : 0 ≤ n → z_bits a ≤ n ↔ Z.abs a < 2 ^ n.
Proof.
  intros Hn. unfold z_bits. case_decide as Ha; [subst; cbn; lia|].
  pose proof (Z.log2_lt_pow2 (Z.abs a) n ltac:(lia)). lia.
Qed.

Lemma z_bits_nonneg a : 0 ≤ z_bits a.
Proof. unfold z_bits. case_decide; [lia|]. pose proof (Z.log2_nonneg (Z.abs a)). lia. Qed.

#[export, refine] Instance ZBigInt : NumBigInt := {|
  bi_div := Z.quot; bi_rem := Z.rem; bi_and := Z.land; bi_or := Z.lor; bi_xor := Z.lxor;
  bi_not := Z.lnot; bi_shl := Z.shiftl; bi_shr := Z.shiftr; bi_pow := Z.pow;
  bi_bits := z_bits;
  bi_to_u16 a := if decide (0 ≤ a < 2 ^ 16) then Some a else None;
  bi_to_u64 a := if decide (0 ≤ a < 2 ^ 64) then Some a else None;
  bi_from_str_radix s r := digits_value r s;
|}.
Proof.
  all: intros; cbn; first
    [ done | by apply Z.shiftl_mul_pow2 | by apply Z.shiftr_div_pow2
    | by apply z_bits_spec | apply z_bits_nonneg | unfold Z.lnot; lia ].
Defined.

Lemma bi_bits_gt `{NumBigInt} a n : 0 ≤ n → n < bi_bits a ↔ 2 ^ n ≤ Z.abs a.
Proof. intros Hn. pose proof (bi_bits_spec a n Hn). lia. Qed.
