(* ===== verification/Ast.v ===== *)
(** The resolved syntax tree of the compiler's front end (src/src/sema/ast.rs):
    types, expressions and the parts of the namespace which the modelled
    passes read.  A Rust [BigInt], and a fixed-width integer in its range, is a
    [Z]; an index into a table of the namespace is a [nat]; a hash map is a
    [gmap]. *)
From S2P Require Import Prelude.
#[local] Set Warnings "-register-all".

(* [ola-parser/src/program.rs | pub enum Loc | Loc] *)
Inductive Loc : Set :=
  | Builtin
  | CommandLine
  | Implicit_
  | IRgen
  | File_ (file_no start end_ : nat).

#[export] Instance Loc_eq_dec : EqDecision Loc.
Proof. solve_decision. Defined.

Record Identifier : Set := { id_loc : Loc; id_name : string }.

(** * Diagnostics *)

(* [ola-parser/src/diagnostics.rs | pub enum Level | Level] *)
Inductive Level : Set := Debug_ | Info_ | Warning_ | Error_.

(* [ola-parser/src/diagnostics.rs | pub enum ErrorType | ErrorType] *)
Inductive ErrorType : Set :=
  | ET_None | ET_ParserError | ET_SyntaxError | ET_DeclarationError
  | ET_CastError | ET_TypeError | ET_Warning.

(* [ola-parser/src/diagnostics.rs | pub struct Note | Note] *)
Record Note : Set := { note_loc : Loc; note_message : string }.

(* [ola-parser/src/diagnostics.rs | pub struct Diagnostic | Diagnostic] *)
Record Diagnostic : Set := mkDiagnostic {
  diag_loc : Loc;
  diag_level : Level;
  diag_ty : ErrorType;
  diag_message : string;
  diag_notes : list Note;
}.

Module Diag.
(* [ola-parser/src/diagnostics.rs | pub fn error( | Diagnostic::error] *)
Definition error (loc : Loc) (message : string) : Diagnostic :=
  mkDiagnostic loc Error_ ET_SyntaxError message [].
(* [ola-parser/src/diagnostics.rs | pub fn cast_error( | Diagnostic::cast_error] *)
Definition cast_error (loc : Loc) (message : string) : Diagnostic :=
  mkDiagnostic loc Error_ ET_CastError message [].
(* [ola-parser/src/diagnostics.rs | pub fn decl_error( | Diagnostic::decl_error] *)
Definition decl_error (loc : Loc) (message : string) : Diagnostic :=
  mkDiagnostic loc Error_ ET_DeclarationError message [].
(* [ola-parser/src/diagnostics.rs | pub fn type_error( | Diagnostic::type_error] *)
Definition type_error (loc : Loc) (message : string) : Diagnostic :=
  mkDiagnostic loc Error_ ET_TypeError message [].
(* [ola-parser/src/diagnostics.rs | pub fn cast_error_with_note( | Diagnostic::cast_error_with_note] *)
Definition cast_error_with_note (loc : Loc) (message : string) (nloc : Loc) (note : string) : Diagnostic :=
  mkDiagnostic loc Error_ ET_CastError message [{| note_loc := nloc; note_message := note |}].
(* [ola-parser/src/diagnostics.rs | pub fn warning_with_note( | Diagnostic::warning_with_note] *)
Definition warning_with_note (loc : Loc) (message : string) (nloc : Loc) (note : string) : Diagnostic :=
  mkDiagnostic loc Warning_ ET_Warning message [{| note_loc := nloc; note_message := note |}].
(* [ola-parser/src/diagnostics.rs | pub fn warning_with_notes( | Diagnostic::warning_with_notes] *)
Definition warning_with_notes (loc : Loc) (message : string) (notes : list Note) : Diagnostic :=
  mkDiagnostic loc Warning_ ET_Warning message notes.
(* [ola-parser/src/diagnostics.rs | pub fn warning( | Diagnostic::warning] *)
Definition warning (loc : Loc) (message : string) : Diagnostic :=
  mkDiagnostic loc Warning_ ET_Warning message [].
(* [ola-parser/src/diagnostics.rs | pub fn error_with_note( | Diagnostic::error_with_note] *)
Definition error_with_note (loc : Loc) (message : string) (nloc : Loc) (note : string) : Diagnostic :=
  mkDiagnostic loc Error_ ET_None message [{| note_loc := nloc; note_message := note |}].
(* [ola-parser/src/diagnostics.rs | pub fn error_with_notes( | Diagnostic::error_with_notes] *)
Definition error_with_notes (loc : Loc) (message : string) (notes : list Note) : Diagnostic :=
  mkDiagnostic loc Error_ ET_None message notes.
End Diag.

#[export] Instance Level_eq_dec : EqDecision Level.
Proof. solve_decision. Defined.

(* [sema/diagnostics.rs | pub struct Diagnostics | Diagnostics] *)
Record Diagnostics : Set := mkDiagnostics {
  contents : list Diagnostic;
  has_error : bool;
}.

Definition is_error_level (l : Level) : bool :=
  match l with Error_ => true | _ => false end.

Module Diags.
Definition empty : Diagnostics := mkDiagnostics [] false.
(* [sema/diagnostics.rs | pub fn any_errors | Diagnostics::any_errors] *)
Definition any_errors (d : Diagnostics) : bool := has_error d.
(* [sema/diagnostics.rs | pub fn push | Diagnostics::push] *)
Definition push (d : Diagnostics) (x : Diagnostic) : Diagnostics :=
  mkDiagnostics (contents d ++ [x])
    (if is_error_level (diag_level x) then true else has_error d).
(* [sema/diagnostics.rs | pub fn extend( | Diagnostics::extend] *)
Definition extend (d e : Diagnostics) : Diagnostics :=
  mkDiagnostics (contents d ++ contents e) (has_error d || has_error e).
(** [m.ty != ErrorType::CastError] *)
Definition is_cast_error (x : Diagnostic) : bool := match diag_ty x with ET_CastError => true | _ => false end.
(* [sema/diagnostics.rs | pub fn extend_non_casting | Diagnostics::extend_non_casting] *)
Definition extend_non_casting (d other : Diagnostics) : bool * Diagnostics :=
  let others := filter (λ x, is_cast_error x = false) (contents other) in
  match others with
  | [] => (false, d)
  | _ => (true, mkDiagnostics (contents d ++ others)
                  (has_error d || existsb (λ m, is_error_level (diag_level m)) others))
  end.
(* [sema/diagnostics.rs | pub fn append | Diagnostics::append] *)
Definition append (d : Diagnostics) (l : list Diagnostic) : Diagnostics :=
  mkDiagnostics (contents d ++ l) (has_error d || existsb (λ m, is_error_level (diag_level m)) l).
(* [sema/diagnostics.rs | pub fn count_warnings | Diagnostics::count_warnings] *)
Definition count_warnings (d : Diagnostics) : nat :=
  length (filter (λ x, diag_level x = Warning_) (contents d)).
End Diags.

(** * Types *)

(* [sema/ast.rs | pub enum ArrayLength | ArrayLength] *)
Inductive ArrayLength : Set :=
  | Fixed (n : Z)
  | Dynamic
  | AnyFixed.

#[export] Instance ArrayLength_eq_dec : EqDecision ArrayLength.
Proof. solve_decision. Defined.

(* [sema/ast.rs | pub fn array_length | ArrayLength::array_length] *)
Definition dim_length (d : ArrayLength) : option Z :=
  match d with Fixed len => Some len | _ => None end.

Module Ty.
(* [sema/ast.rs | pub enum Type | Type] *)
Inductive ty : Set :=
  | Bool
  | Uint (bits : Z)
  | Address
  | Hash
  | Field
  | DynamicBytes
  | String_
  | Array (elem : ty) (dims : list ArrayLength)
  | Enum (n : nat)
  | Struct (n : nat)
  | Mapping (key : ty) (key_name : option Identifier)
            (value : ty) (value_name : option Identifier)
  | Contract (n : nat)
  | Ref (t : ty)
  | StorageRef (t : ty)
  | Function_ (params returns : list ty)
  | ExternalFunction (params returns : list ty)
  | UserType (n : nat)
  | Void
  | Unreachable
  | Slice (t : ty)
  | Unresolved
  | BufferPointer.

(** Induction that reaches the types inside a function type. *)
Definition leaf (t : ty) : Prop :=
  match t with
  | Array _ _ | Mapping _ _ _ _ | Ref _ | StorageRef _ | Slice _
  | Function_ _ _ | ExternalFunction _ _ => False
  | _ => True
  end.

Section ind.
Context (P : ty → Prop).
Context (H0 : ∀ t, leaf t → P t).
Context (HArray : ∀ t d, P t → P (Array t d)).
Context (HMapping : ∀ k kn v vn, P k → P v → P (Mapping k kn v vn)).
Context (HRef : ∀ t, P t → P (Ref t)).
Context (HStorageRef : ∀ t, P t → P (StorageRef t)).
Context (HSlice : ∀ t, P t → P (Slice t)).
Context (HFunction : ∀ p r, Forall P p → Forall P r → P (Function_ p r)).
Context (HExternal : ∀ p r, Forall P p → Forall P r → P (ExternalFunction p r)).

Fixpoint ty_rect' (t : ty) : P t :=
  let all := fix all (l : list ty) : Forall P l :=
    match l with
    | [] => Forall_nil_2 P
    | x :: l => Forall_cons_2 P x l (ty_rect' x) (all l)
    end in
  match t with
  | Array t d => HArray t d (ty_rect' t)
  | Mapping k kn v vn => HMapping k kn v vn (ty_rect' k) (ty_rect' v)
  | Ref t => HRef t (ty_rect' t)
  | StorageRef t => HStorageRef t (ty_rect' t)
  | Slice t => HSlice t (ty_rect' t)
  | Function_ p r => HFunction p r (all p) (all r)
  | ExternalFunction p r => HExternal p r (all p) (all r)
  | t => H0 t I
  end.
End ind.

(** Type equality as the code derives it, except for mappings, whose
    [PartialEq] ([impl PartialEq for Mapping]) ignores the key and value names. *)
(* [sema/ast.rs | impl PartialEq for Mapping | impl PartialEq for Mapping] *)
Fixpoint eqb (a b : ty) : bool :=
  let eqbs := fix eqbs (l k : list ty) : bool :=
    match l, k with
    | [], [] => true
    | x :: l, y :: k => eqb x y && eqbs l k
    | _, _ => false
    end in
  match a, b with
  | Bool, Bool | Address, Address | Hash, Hash | Field, Field
  | DynamicBytes, DynamicBytes | String_, String_ | Void, Void
  | Unreachable, Unreachable | Unresolved, Unresolved
  | BufferPointer, BufferPointer => true
  | Uint n, Uint m => bool_decide (n = m)
  | Array s d, Array t e => eqb s t && bool_decide (d = e)
  | Enum n, Enum m | Struct n, Struct m | Contract n, Contract m
  | UserType n, UserType m => bool_decide (n = m)
  | Mapping k _ v _, Mapping k' _ v' _ => eqb k k' && eqb v v'
  | Ref s, Ref t | StorageRef s, StorageRef t | Slice s, Slice t => eqb s t
  | Function_ p r, Function_ p' r' => eqbs p p' && eqbs r r'
  | ExternalFunction p r, ExternalFunction p' r' => eqbs p p' && eqbs r r'
  | _, _ => false
  end.

(** The names erased: what [eqb] compares. *)
Fixpoint erase (t : ty) : ty :=
  match t with
  | Array t d => Array (erase t) d
  | Mapping k _ v _ => Mapping (erase k) None (erase v) None
  | Ref t => Ref (erase t)
  | StorageRef t => StorageRef (erase t)
  | Slice t => Slice (erase t)
  | Function_ p r => Function_ (map erase p) (map erase r)
  | ExternalFunction p r => ExternalFunction (map erase p) (map erase r)
  | t => t
  end.

Lemma eqbs_spec l k :
  Forall (λ a, ∀ b, eqb a b = true ↔ erase a = erase b) l →
  (fix eqbs (l k : list ty) : bool :=
    match l, k with
    | [], [] => true
    | x :: l, y :: k => eqb x y && eqbs l k
    | _, _ => false
    end) l k = true ↔ map erase l = map erase k.
Proof.
  intros Hl. revert k. induction Hl as [|a l Ha _ IH]; intros [|b k]; cbn; try (split; discriminate); [done|].
  rewrite andb_true_iff, Ha, IH. split; [intros [-> ->]; done|intros [=]; auto].
Qed.

Lemma eqb_spec a b : eqb a b = true ↔ erase a = erase b.
Proof.
  revert b. induction a as [a Ha| | | | | |p r Hp Hr|p r Hp Hr] using ty_rect'; intros b.
  { destruct a; try done; destruct b; cbn; try (split; discriminate); try (by split);
      rewrite bool_decide_eq_true; (split; [by intros ->|by intros [= ->]]). }
  all: destruct b; cbn [eqb erase]; try (split; discriminate).
  all: rewrite ?andb_true_iff, ?bool_decide_eq_true, ?eqbs_spec by done.
  all: repeat match goal with IH : ∀ b, eqb _ b = true ↔ _ |- _ => rewrite IH; clear IH end.
  all: (split; [intros; destruct_and?; congruence|intros [=]; auto]).
Qed.
End Ty.
Export Ty (ty).

#[export] Instance ty_equiv : Equiv ty := λ a b, Ty.eqb a b = true.
#[export] Instance ty_equivalence : Equivalence (≡@{ty}).
Proof.
  split.
  - intros a. by apply Ty.eqb_spec.
  - intros a b H. apply Ty.eqb_spec in H. by apply Ty.eqb_spec.
  - intros a b c H1%Ty.eqb_spec H2%Ty.eqb_spec. apply Ty.eqb_spec. congruence.
Qed.
#[export] Instance ty_equiv_dec : RelDecision (≡@{ty}).
Proof. intros a b. unfold equiv, ty_equiv. apply _. Defined.

(** * Expressions *)

(* [sema/ast.rs | pub enum StringLocation | StringLocation] *)
Inductive StringLocation (T : Set) : Set :=
  | CompileTime (v : list Z)
  | RunTime (e : T).
Arguments CompileTime {_} _.
Arguments RunTime {_} _.

(* [sema/ast.rs | pub enum LibFunc | LibFunc] *)
Inductive LibFunc : Set :=
  | U32Sqrt | ArrayPush | ArrayPop | ArrayLength_ | ArraySort | Assert
  | AbiDecode | AbiEncode | AbiEncodeWithSignature | PoseidonHash | FieldsConcat
  | Print_ | BlockNumber | BlockTimestamp | SequenceAddress | TransactionVersion
  | ChainId | OriginAddress | Nonce | SignatureLength | Signature
  | TransactionHash | CallerAddress | CodeAddress | CurrentAddress | CheckECDSA
  | GetSelector.

(* [sema/ast.rs | pub enum CallTy | CallTy] *)
Inductive CallTy : Set := Regular | Delegate | Static.

(* [sema/ast.rs | pub struct CallArgs | CallArgs] *)
Record CallArgs (E : Set) : Set := mkCallArgs {
  gas : option E; value_ : option E; address_ : option E
}.

Module Ex.
(* [sema/ast.rs | pub enum Expression | Expression] *)
Inductive expression : Set :=
  | BoolLiteral (loc : Loc) (value : bool)
  | BytesLiteral (loc : Loc) (t : ty) (value : list Z)
  | NumberLiteral (loc : Loc) (t : ty) (value : Z)
  | StructLiteral (loc : Loc) (t : ty) (values : list expression)
  | AddressLiteral (loc : Loc) (t : ty) (value : list Z)
  | HashLiteral (loc : Loc) (t : ty) (value : list Z)
  | ArrayLiteral (loc : Loc) (t : ty) (dimensions : list Z) (values : list expression)
  | ConstArrayLiteral (loc : Loc) (t : ty) (dimensions : list Z) (values : list expression)
  | Add (loc : Loc) (t : ty) (left right : expression)
  | Subtract (loc : Loc) (t : ty) (left right : expression)
  | Multiply (loc : Loc) (t : ty) (left right : expression)
  | Divide (loc : Loc) (t : ty) (left right : expression)
  | Modulo (loc : Loc) (t : ty) (left right : expression)
  | Power (loc : Loc) (t : ty) (base exp : expression)
  | BitwiseOr (loc : Loc) (t : ty) (left right : expression)
  | BitwiseAnd (loc : Loc) (t : ty) (left right : expression)
  | BitwiseXor (loc : Loc) (t : ty) (left right : expression)
  | ShiftLeft (loc : Loc) (t : ty) (left right : expression)
  | ShiftRight (loc : Loc) (t : ty) (left right : expression)
  | Variable_ (loc : Loc) (t : ty) (var_no : nat)
  | ConstantVariable (loc : Loc) (t : ty) (contract_no : option nat) (var_no : nat)
  | StorageVariable (loc : Loc) (t : ty) (contract_no : nat) (var_no : nat)
  | Load (loc : Loc) (t : ty) (expr : expression)
  | GetRef (loc : Loc) (t : ty) (expr : expression)
  | StorageLoad (loc : Loc) (t : ty) (expr : expression)
  | ZeroExt (loc : Loc) (to : ty) (expr : expression)
  | Trunc (loc : Loc) (to : ty) (expr : expression)
  | Cast (loc : Loc) (to : ty) (expr : expression)
  | BytesCast (loc : Loc) (from to : ty) (expr : expression)
  | Increment (loc : Loc) (t : ty) (expr : expression)
  | Decrement (loc : Loc) (t : ty) (expr : expression)
  | Assign (loc : Loc) (t : ty) (left right : expression)
  | More (loc : Loc) (left right : expression)
  | Less (loc : Loc) (left right : expression)
  | MoreEqual (loc : Loc) (left right : expression)
  | LessEqual (loc : Loc) (left right : expression)
  | Equal (loc : Loc) (left right : expression)
  | NotEqual (loc : Loc) (left right : expression)
  | Not (loc : Loc) (expr : expression)
  | BitwiseNot (loc : Loc) (t : ty) (expr : expression)
  | ConditionalOperator (loc : Loc) (t : ty) (cond true_option false_option : expression)
  | Subscript (loc : Loc) (t : ty) (array_ty : ty) (array index : expression)
  | ArraySlice (loc : Loc) (t : ty) (array_ty : ty) (array : expression)
               (start end_ : option expression)
  | StructMember (loc : Loc) (t : ty) (expr : expression) (field : nat)
  | AllocDynamicBytes (loc : Loc) (t : ty) (len : expression) (init : option (list Z))
  | StorageArrayLength (loc : Loc) (t : ty) (array : expression) (elem_ty : ty)
  | StringCompare (loc : Loc) (left right : StringLocation expression)
  | StringConcat (loc : Loc) (t : ty) (left right : StringLocation expression)
  | Or (loc : Loc) (left right : expression)
  | And (loc : Loc) (left right : expression)
  | Function_ (loc : Loc) (t : ty) (function_no : nat) (signature : option string)
  | ExternalFunction (loc : Loc) (t : ty) (address : expression) (function_no : nat)
  | FunctionCall (loc : Loc) (returns : list ty) (function : expression)
                 (args : list expression)
  | ExternalFunctionCall (loc : Loc) (returns : list ty) (function : expression)
                         (args : list expression) (call_args : CallArgs expression)
  | ExternalFunctionCallRaw (loc : Loc) (t : CallTy) (address args : expression)
                            (call_args : CallArgs expression)
  | LibFunction (loc : Loc) (tys : list ty) (kind : LibFunc) (args : list expression)
  | List_ (loc : Loc) (l : list expression).

(* [sema/ast.rs | impl CodeLocation for Expression | impl CodeLocation for Expression] *)
Definition loc (e : expression) : Loc :=
  match e with
  | BoolLiteral l _ | BytesLiteral l _ _ | NumberLiteral l _ _ | AddressLiteral l _ _
  | HashLiteral l _ _ | StructLiteral l _ _ | ArrayLiteral l _ _ _
  | ConstArrayLiteral l _ _ _ | Add l _ _ _ | Subtract l _ _ _ | Multiply l _ _ _
  | Divide l _ _ _ | Modulo l _ _ _ | Power l _ _ _ | BitwiseOr l _ _ _
  | BitwiseAnd l _ _ _ | BitwiseXor l _ _ _ | ShiftLeft l _ _ _ | ShiftRight l _ _ _
  | Variable_ l _ _ | ConstantVariable l _ _ _ | StorageVariable l _ _ _ | Load l _ _
  | GetRef l _ _ | StorageLoad l _ _ | ZeroExt l _ _ | Trunc l _ _ | Cast l _ _
  | BytesCast l _ _ _ | More l _ _ | Less l _ _ | MoreEqual l _ _ | LessEqual l _ _
  | Equal l _ _ | NotEqual l _ _ | Not l _ | BitwiseNot l _ _
  | ConditionalOperator l _ _ _ _ | Subscript l _ _ _ _ | ArraySlice l _ _ _ _ _
  | StructMember l _ _ _ | Or l _ _ | AllocDynamicBytes l _ _ _
  | StorageArrayLength l _ _ _ | StringCompare l _ _ | StringConcat l _ _ _
  | Function_ l _ _ _ | ExternalFunction l _ _ _ | FunctionCall l _ _ _
  | ExternalFunctionCall l _ _ _ _ | ExternalFunctionCallRaw l _ _ _ _
  | Increment l _ _ | Decrement l _ _ | LibFunction l _ _ _ | Assign l _ _ _
  | List_ l _ | And l _ _ => l
  end.

(** [assert_eq!(returns.len(), 1); returns[0].clone()] *)
Definition single {A} (l : list A) : comp A :=
  match l with [a] => Ret a | _ => Panic end.

(* [sema/expression/retrieve_type.rs | impl RetrieveType for Expression | impl RetrieveType for Expression] *)
Fixpoint ty_of (e : expression) : comp ty :=
  match e with
  | BoolLiteral _ _ | More _ _ _ | Less _ _ _ | MoreEqual _ _ _ | LessEqual _ _ _
  | Equal _ _ _ | Or _ _ _ | And _ _ _ | NotEqual _ _ _ | Not _ _
  | StringCompare _ _ _ => Ret Ty.Bool
  | StringConcat _ t _ _ | BytesLiteral _ t _ | NumberLiteral _ t _ | AddressLiteral _ t _
  | HashLiteral _ t _ | StructLiteral _ t _ | ArrayLiteral _ t _ _
  | ConstArrayLiteral _ t _ _ | Add _ t _ _ | Subtract _ t _ _ | Multiply _ t _ _
  | Divide _ t _ _ | Modulo _ t _ _ | Power _ t _ _ | BitwiseOr _ t _ _
  | BitwiseAnd _ t _ _ | BitwiseXor _ t _ _ | ShiftLeft _ t _ _ | ShiftRight _ t _ _
  | Variable_ _ t _ | ConstantVariable _ t _ _ | StorageVariable _ t _ _ | Load _ t _
  | GetRef _ t _ | StorageLoad _ t _ | BitwiseNot _ t _ | ConditionalOperator _ t _ _ _
  | StructMember _ t _ _ | AllocDynamicBytes _ t _ _ | Increment _ t _ | Decrement _ t _
  | Assign _ t _ _ => Ret t
  | Subscript _ t _ _ _ => Ret t
  | ArraySlice _ _ _ _ _ _ => Ret Ty.DynamicBytes
  | ZeroExt _ to _ | Trunc _ to _ | Cast _ to _ | BytesCast _ _ to _ => Ret to
  | StorageArrayLength _ t _ _ => Ret t
  | ExternalFunctionCallRaw _ _ _ _ _ => Ret Ty.DynamicBytes
  | LibFunction _ returns _ _ | FunctionCall _ returns _ _
  | ExternalFunctionCall _ returns _ _ _ => single returns
  | List_ _ list => match list with [e] => ty_of e | _ => Panic end
  | Function_ _ t _ _ | ExternalFunction _ t _ _ => Ret t
  end.
End Ex.
Export Ex (expression).

(** * Namespace *)

(* [sema/ast.rs | pub struct Parameter | Parameter] *)
Record ParameterDecl : Set := mkParameter {
  p_loc : Loc;
  p_id : option Identifier;
  p_ty : ty;
  p_ty_loc : option Loc;
  infinite_size : bool;
  recursive : bool;
}.

(* [sema/ast.rs | pub fn name_as_str | Parameter::name_as_str] *)
Definition name_as_str (p : ParameterDecl) : string :=
  match p_id p with Some name => id_name name | None => "" end.

(* [sema/ast.rs | pub struct EnumDecl | EnumDecl] *)
Record EnumDecl : Set := mkEnumDecl {
  enum_name : string;
  enum_contract : option string;
  enum_loc : Loc;
  enum_ty : ty;
  enum_values : list (string * Loc);
}.

(* [sema/ast.rs | pub struct StructDecl | StructDecl] *)
Record StructDecl : Set := mkStructDecl {
  struct_name : string;
  struct_loc : Loc;
  struct_contract : option string;
  fields : list ParameterDecl;
  offsets : list Z;
  storage_offsets : list Z;
}.

(* [sema/ast.rs | pub struct UserTypeDecl | UserTypeDecl] *)
Record UserTypeDecl : Set := mkUserTypeDecl {
  ut_loc : Loc; ut_name : string; ut_ty : ty; ut_contract : option string;
}.

(* [sema/ast.rs | pub struct Variable | Variable] *)
Record VariableDecl : Set := mkVariable {
  v_name : string; v_loc : Loc; v_ty : ty; v_constant : bool;
  initializer : option expression; v_assigned : bool; v_read : bool;
}.

(** * Symbol tables (src/src/sema/symtable.rs): the data *)

(* [ola-parser/src/program.rs | pub enum StorageLocation] *)
Inductive StorageLocation : Set := Memory (l : Loc) | Storage_ (l : Loc).
(* [ola-parser/src/program.rs | pub enum ContractTy] *)
Inductive ContractTy : Set := ContractTy_ (l : Loc) | Interface (l : Loc) | Library (l : Loc).

Module Sym.
(* [sema/symtable.rs | pub enum VariableUsage] *)
Inductive VariableUsage : Set :=
  | Parameter_ | ReturnVariable | AnonymousReturnVariable | LocalVariable | DestructureVariable.
(* [sema/symtable.rs | pub enum VariableInitializer] *)
Inductive VariableInitializer : Set := Ola (e : option expression).
(* [sema/symtable.rs | pub struct Variable | Variable] *)
Record Variable_ : Set := mkVar {
  id : Identifier; vty : ty; pos : nat; slice : bool; assigned : bool; read : bool;
  usage_type : VariableUsage; init : VariableInitializer; storage_location : option StorageLocation;
}.
(** An [IndexMap] is the list of its entries, in order of insertion. *)
(* [sema/symtable.rs | pub struct Symtable] *)
Record Symtable : Set := mkSymtable {
  vars : list (nat * Variable_);
  names : list (gmap string nat);
  arguments : list (option nat);
  returns : list nat;
}.
End Sym.

(** * Statements *)

Module St.
(* [sema/ast.rs | pub enum DestructureField] *)
Inductive DestructureField : Set :=
  | DNone
  | DExpression (e : expression)
  | DVariableDecl (pos : nat) (p : ParameterDecl).

(* [sema/ast.rs | pub enum Statement] *)
Inductive Statement : Set :=
  | Block (loc : Loc) (statements : list Statement)
  | VariableDecl_ (loc : Loc) (pos : nat) (p : ParameterDecl) (init : option expression)
  | If (loc : Loc) (reachable : bool) (cond : expression) (then_ else_ : list Statement)
  | While (loc : Loc) (reachable : bool) (cond : expression) (body : list Statement)
  | For (loc : Loc) (reachable : bool) (init : list Statement) (cond next : option expression) (body : list Statement)
  | DoWhile (loc : Loc) (reachable : bool) (body : list Statement) (cond : expression)
  | Delete (loc : Loc) (t : ty) (e : expression)
  | Destructure (loc : Loc) (fields : list DestructureField) (e : expression)
  | Expression_ (loc : Loc) (reachable : bool) (e : expression)
  | Continue (loc : Loc)
  | Break (loc : Loc)
  | Return_ (loc : Loc) (e : option expression).

(* [sema/ast.rs | pub fn reachable] *)
Fixpoint reachable (s : Statement) : bool :=
  match s with
  | Block _ statements => forallb reachable statements
  | VariableDecl_ _ _ _ _ | Delete _ _ _ | Destructure _ _ _ => true
  | Continue _ | Break _ | Return_ _ _ => false
  | If _ r _ _ _ | While _ r _ _ | DoWhile _ r _ _ | Expression_ _ r _ | For _ r _ _ _ _ => r
  end.
End St.

(** * Declarations and the namespace *)

(* [sema/ast.rs | pub struct Function] *)
Record Function : Set := mkFunction {
  f_loc : Loc; f_name : string; f_contract_no : option nat; f_signature : string;
  f_params : list ParameterDecl; f_returns : list ParameterDecl; f_selector : option (list Z);
  has_body : bool; f_body : list St.Statement; f_symtable : Sym.Symtable; mangled_name : string;
}.

(* [sema/ast.rs | pub enum Symbol] *)
Inductive Symbol : Set :=
  | SEnum (l : Loc) (n : nat)
  | SFunction (l : list (Loc * nat))
  | SVariable (l : Loc) (contract_no : option nat) (n : nat)
  | SStruct (l : Loc) (n : nat)
  | SContract (l : Loc) (n : nat)
  | SImport (l : Loc) (n : nat)
  | SUserType (l : Loc) (n : nat).

(** A path of a Unix system: whether it starts at the root, and its components. *)
Record Path : Set := mkPath { rooted : bool; parts : list string }.
#[export] Instance Path_eq_dec : EqDecision Path.
Proof. solve_decision. Defined.
#[export] Instance Path_countable : Countable Path.
Proof. by apply (inj_countable' (λ p, (rooted p, parts p)) (λ x, mkPath x.1 x.2)); intros []. Defined.

#[export] Instance Symbol_eq_dec : EqDecision Symbol.
Proof. solve_decision. Defined.

(* [sema/ast.rs | pub struct File] *)
Record File : Set := mkFile { path : Path; line_starts : list nat; cache_no : option nat }.

(* [sema/ast.rs | pub struct Layout] *)
Record Layout : Set := mkLayout { l_slot : Z; l_contract_no : nat; l_var_no : nat; l_ty : ty }.

(** A [BTreeMap] is the list of its entries, in order of the keys. *)
(* [sema/ast.rs | pub struct Contract | Contract] *)
Record Contract : Set := mkContract {
  c_loc : Loc; c_name : string; c_ty : ContractTy; c_layout : list Layout; c_fixed_layout_size : Z;
  c_functions : list nat; all_functions : list (nat * Z); variables : list VariableDecl;
  c_initializer : option nat; c_code : list Z; instantiable : bool; dispatch_no : nat;
}.

(* [sema/ast.rs | pub fn is_interface] *)
Definition is_interface (c : Contract) : bool := match c_ty c with Interface _ => true | _ => false end.
(* [sema/ast.rs | pub fn is_library] *)
Definition is_library (c : Contract) : bool := match c_ty c with Library _ => true | _ => false end.

Definition symbol_key : Type := nat * option nat * string.

(* [sema/ast.rs | pub struct Namespace | Namespace] *)
Record Namespace : Type := mkNamespace {
  files : list File;
  enums : list EnumDecl;
  structs : list StructDecl;
  contracts : list Contract;
  user_types : list UserTypeDecl;
  functions : list Function;
  constants : list VariableDecl;
  diagnostics : Diagnostics;
  function_symbols : gmap symbol_key Symbol;
  variable_symbols : gmap symbol_key Symbol;
  next_id : nat;
  called_lib_functions : list string;
}.

(* [sema/namespace.rs | pub fn new] *)
Definition empty_ns : Namespace := mkNamespace [] [] [] [] [] [] [] Diags.empty ∅ ∅ 0 [].

Definition set_diagnostics (d : Diagnostics) (ns : Namespace) : Namespace :=
  mkNamespace (files ns) (enums ns) (structs ns) (contracts ns) (user_types ns) (functions ns) (constants ns) d
    (function_symbols ns) (variable_symbols ns) (next_id ns) (called_lib_functions ns).
Definition set_structs (s : list StructDecl) (ns : Namespace) : Namespace :=
  mkNamespace (files ns) (enums ns) s (contracts ns) (user_types ns) (functions ns) (constants ns) (diagnostics ns)
    (function_symbols ns) (variable_symbols ns) (next_id ns) (called_lib_functions ns).
Definition set_user_types (s : list UserTypeDecl) (ns : Namespace) : Namespace :=
  mkNamespace (files ns) (enums ns) (structs ns) (contracts ns) s (functions ns) (constants ns) (diagnostics ns)
    (function_symbols ns) (variable_symbols ns) (next_id ns) (called_lib_functions ns).
Definition set_enums (s : list EnumDecl) (ns : Namespace) : Namespace :=
  mkNamespace (files ns) s (structs ns) (contracts ns) (user_types ns) (functions ns) (constants ns) (diagnostics ns)
    (function_symbols ns) (variable_symbols ns) (next_id ns) (called_lib_functions ns).
Definition set_next_id (n : nat) (ns : Namespace) : Namespace :=
  mkNamespace (files ns) (enums ns) (structs ns) (contracts ns) (user_types ns) (functions ns) (constants ns)
    (diagnostics ns) (function_symbols ns) (variable_symbols ns) n (called_lib_functions ns).
Definition set_contracts (c : list Contract) (ns : Namespace) : Namespace :=
  mkNamespace (files ns) (enums ns) (structs ns) c (user_types ns) (functions ns) (constants ns) (diagnostics ns)
    (function_symbols ns) (variable_symbols ns) (next_id ns) (called_lib_functions ns).
Definition set_functions (f : list Function) (ns : Namespace) : Namespace :=
  mkNamespace (files ns) (enums ns) (structs ns) (contracts ns) (user_types ns) f (constants ns) (diagnostics ns)
    (function_symbols ns) (variable_symbols ns) (next_id ns) (called_lib_functions ns).
Definition set_constants (c : list VariableDecl) (ns : Namespace) : Namespace :=
  mkNamespace (files ns) (enums ns) (structs ns) (contracts ns) (user_types ns) (functions ns) c (diagnostics ns)
    (function_symbols ns) (variable_symbols ns) (next_id ns) (called_lib_functions ns).
Definition set_symbols (f v : gmap symbol_key Symbol) (ns : Namespace) : Namespace :=
  mkNamespace (files ns) (enums ns) (structs ns) (contracts ns) (user_types ns) (functions ns) (constants ns)
    (diagnostics ns) f v (next_id ns) (called_lib_functions ns).
Definition set_called_lib_functions (l : list string) (ns : Namespace) : Namespace :=
  mkNamespace (files ns) (enums ns) (structs ns) (contracts ns) (user_types ns) (functions ns) (constants ns)
    (diagnostics ns) (function_symbols ns) (variable_symbols ns) (next_id ns) l.

(** [ns.diagnostics.push(d)] *)
Definition push_diag (d : Diagnostic) (ns : Namespace) : Namespace :=
  set_diagnostics (Diags.push (diagnostics ns) d) ns.

(** "Contract.name", or "name" outside a contract. *)
(* [sema/ast.rs | impl fmt::Display for EnumDecl | impl Display for EnumDecl] *)
Definition show_enum (e : EnumDecl) : string :=
  match enum_contract e with
  | Some c => c +:+ "." +:+ enum_name e
  | None => enum_name e
  end.
(* [sema/ast.rs | impl fmt::Display for StructDecl | impl Display for StructDecl] *)
Definition show_struct (s : StructDecl) : string :=
  match struct_contract s with
  | Some c => c +:+ "." +:+ struct_name s
  | None => struct_name s
  end.
(* [sema/ast.rs | impl fmt::Display for UserTypeDecl | impl Display for UserTypeDecl] *)
Definition show_user_type (u : UserTypeDecl) : string :=
  match ut_contract u with
  | Some c => c +:+ "." +:+ ut_name u
  | None => ut_name u
  end.

(** * Fallible passes

    A function [.., diagnostics: &mut Diagnostics) -> Result<T, ()>]: [None] is
    [Err(())], and the diagnostics pushed so far are kept on every path. *)
Definition sema (A : Type) : Type := Diagnostics → comp (option A * Diagnostics).
#[export] Instance sema_ret : MRet sema := λ A a d, Ret (Some a, d).
#[export] Instance sema_bind : MBind sema := λ A B f m d,
  r ← m d; match r.1 with Some a => f a r.2 | None => Ret (None, r.2) end.
(** [return Err(())] *)
Definition sema_err {A} : sema A := λ d, Ret (None, d).
(** [diagnostics.push(x); Err(())] *)
Definition sema_fail {A} (x : Diagnostic) : sema A := λ d, Ret (None, Diags.push d x).
(** A call that may panic but reports no diagnostic. *)
Definition sema_lift {A} (m : comp A) : sema A := λ d, a ← m; Ret (Some a, d).

Lemma sema_bind_Some {A B} (m : sema A) (f : A → sema B) d b d' :
  (m ≫= f) d = Ret (Some b, d') ↔ ∃ a d1, m d = Ret (Some a, d1) ∧ f a d1 = Ret (Some b, d').
Proof.
  unfold mbind, sema_bind. rewrite bind_Ret. split.
  - intros ([[a|] d1] & Hm & Hf); cbn in *; naive_solver.
  - intros (a & d1 & Hm & Hf). by exists (Some a, d1).
Qed.

Lemma sema_bind_run {A B} (m : sema A) (f : A → sema B) d a d1 :
  m d = Ret (Some a, d1) → (m ≫= f) d = f a d1.
Proof. intros Hm. unfold mbind, sema_bind. by rewrite Hm. Qed.
