(* ===== verification/Types.v ===== *)
(** Operations on types (src/src/sema/types.rs): classification, array
    peeling, sizes in memory and in storage, the guarded searches through
    struct fields, printing, and the computation of struct layouts. *)
From S2P Require Import Prelude BigIntSpec Ast.
#[local] Set Warnings "-register-all".
#[local] Open Scope Z_scope.

(** [ns.structs[n]], [ns.user_types[n]], [ns.enums[n]] *)
Definition get_struct (ns : Namespace) (n : nat) : comp StructDecl := unwrap (structs ns !! n).
Definition get_user_type (ns : Namespace) (n : nat) : comp ty :=
  ut ← unwrap (user_types ns !! n); Ret (ut_ty ut).
Definition get_enum (ns : Namespace) (n : nat) : comp EnumDecl := unwrap (enums ns !! n).

(** * Classification *)

(* [sema/ast.rs | pub fn get_type_size] *)
Definition get_type_size (t : ty) : comp Z :=
  match t with
  | Ty.Uint n => Ret n
  | Ty.Field => Ret 64
  | Ty.Bool => Ret 1
  | _ => Panic
  end.

(* [sema/ast.rs | pub fn unwrap_user_type] *)
Definition unwrap_user_type (t : ty) (ns : Namespace) : comp ty :=
  match t with
  | Ty.UserType type_no => get_user_type ns type_no
  | _ => Ret t
  end.

(* [sema/types.rs | pub fn is_primitive] *)
Fixpoint is_primitive (t : ty) : bool :=
  match t with
  | Ty.Bool => true
  | Ty.Address | Ty.Contract _ | Ty.Hash => false
  | Ty.Uint _ => true
  | Ty.Field => true
  | Ty.Ref r => is_primitive r
  | Ty.StorageRef r => is_primitive r
  | _ => false
  end.

(* [sema/types.rs | pub fn elem_ty] *)
Definition elem_ty (t : ty) : comp ty :=
  match t with Ty.Array t _ => Ret t | _ => Panic end.

Definition is_dynamic_dim (d : ArrayLength) : bool := bool_decide (d = Dynamic).

(* [sema/types.rs | pub fn is_fixed_reference_type] *)
Definition is_fixed_reference_type (t : ty) : comp bool :=
  match t with
  | Ty.Bool | Ty.Address | Ty.Hash | Ty.Field | Ty.Uint _ | Ty.Enum _ => Ret false
  | Ty.Struct _ => Ret true
  | Ty.Array _ dims => Ret (negb (existsb is_dynamic_dim dims))
  | Ty.Contract _ | Ty.DynamicBytes | Ty.String_ | Ty.Mapping _ _ _ _ | Ty.Slice _
  | Ty.Unresolved | Ty.Ref _ | Ty.Function_ _ _ | Ty.StorageRef _ => Ret false
  | _ => Panic
  end.

(** The array patterns [Type::Array(ty, dim) if dim.len() > 1] and [== 1]. *)

(* [sema/types.rs | pub fn array_elem] *)
Definition array_elem (t : ty) : comp ty :=
  match t with
  | Ty.Array t dim =>
      if (1 <? length dim)%nat then Ret (Ty.Array t (but_last dim))
      else if (length dim =? 1)%nat then Ret t
      else Panic
  | Ty.DynamicBytes => Ret (Ty.Uint 32)
  | Ty.String_ => Ret (Ty.Uint 32)
  | _ => Panic
  end.

(* [sema/types.rs | pub fn storage_array_elem] *)
Fixpoint storage_array_elem (t : ty) : comp ty :=
  match t with
  | Ty.Mapping _ _ value _ => Ret (Ty.StorageRef value)
  | Ty.DynamicBytes | Ty.String_ => Ret (Ty.Uint 32)
  | Ty.Array t dim =>
      if (1 <? length dim)%nat then Ret (Ty.StorageRef (Ty.Array t (but_last dim)))
      else if (length dim =? 1)%nat then Ret (Ty.StorageRef t)
      else Panic
  | Ty.StorageRef t => storage_array_elem t
  | _ => Panic
  end.

(* [sema/types.rs | pub fn array_length] *)
Fixpoint array_length (t : ty) : comp (option Z) :=
  match t with
  | Ty.StorageRef t => array_length t
  | Ty.Ref t => array_length t
  | Ty.Array _ dim => d ← unwrap (last dim); Ret (dim_length d)
  | Ty.String_ | Ty.DynamicBytes => Ret None
  | _ => Panic
  end.

(* [sema/types.rs | pub fn array_deref] *)
Fixpoint array_deref (t : ty) : comp ty :=
  match t with
  | Ty.String_ | Ty.DynamicBytes => Ret (Ty.Ref (Ty.Uint 32))
  | Ty.Ref t => array_deref t
  | Ty.Array t dim =>
      if (1 <? length dim)%nat then Ret (Ty.Ref (Ty.Array t (but_last dim)))
      else if (length dim =? 1)%nat then Ret (Ty.Ref t)
      else Panic
  | Ty.Slice t => Ret (Ty.Ref t)
  | _ => Panic
  end.

(* [sema/types.rs | pub fn can_have_data_location] *)
Definition can_have_data_location (t : ty) : bool :=
  match t with
  | Ty.Array _ _ | Ty.Struct _ | Ty.Mapping _ _ _ _ | Ty.String_ | Ty.DynamicBytes => true
  | _ => false
  end.

(* [sema/types.rs | pub fn is_contract_storage] *)
Definition is_contract_storage (t : ty) : bool :=
  match t with Ty.StorageRef _ => true | _ => false end.

(* [sema/types.rs | pub fn is_dynamic_memory] *)
Fixpoint is_dynamic_memory (t : ty) : bool :=
  match t with
  | Ty.String_ | Ty.DynamicBytes | Ty.Slice _ => true
  | Ty.Array _ dim => bool_decide (last dim = Some Dynamic)
  | Ty.Ref t => is_dynamic_memory t
  | _ => false
  end.

(* [sema/types.rs | pub fn is_storage_bytes] *)
Definition is_storage_bytes (t : ty) : bool :=
  match t with Ty.StorageRef Ty.DynamicBytes => true | _ => false end.

(* [sema/types.rs | pub fn is_mapping] *)
Fixpoint is_mapping (t : ty) : bool :=
  match t with
  | Ty.Mapping _ _ _ _ => true
  | Ty.StorageRef t => is_mapping t
  | _ => false
  end.

(* [sema/types.rs | pub fn is_address] *)
Definition is_address (t : ty) : bool :=
  match t with Ty.Address | Ty.Contract _ => true | _ => false end.

(* [sema/types.rs | pub fn deref_any] *)
Definition deref_any (t : ty) : ty :=
  match t with Ty.StorageRef r => r | Ty.Ref r => r | _ => t end.

(* [sema/types.rs | pub fn deref_into] *)
Definition deref_into (t : ty) : ty :=
  match t with Ty.StorageRef r => r | Ty.Ref r => r | _ => t end.

(* [sema/types.rs | pub fn deref_memory] *)
Definition deref_memory (t : ty) : ty :=
  match t with Ty.Ref r => r | _ => t end.

(** * Operations that follow the tables of the namespace

    These recurse through user types and struct fields, so they take fuel;
    [type_fuel] below is enough for one type. *)

(* [sema/types.rs | pub fn is_integer] *)
Fixpoint is_integer (fuel : nat) (ns : Namespace) (t : ty) : comp bool :=
  match fuel with O => OutOfFuel | S fuel =>
  match t with
  | Ty.Uint _ => Ret true
  | Ty.Field => Ret true
  | Ty.Ref r => is_integer fuel ns r
  | Ty.StorageRef r => is_integer fuel ns r
  | Ty.UserType user => u ← get_user_type ns user; is_integer fuel ns u
  | _ => Ret false
  end end.

(* [sema/types.rs | pub fn is_reference_type] *)
Fixpoint is_reference_type (fuel : nat) (ns : Namespace) (t : ty) : comp bool :=
  match fuel with O => OutOfFuel | S fuel =>
  match t with
  | Ty.Bool | Ty.Address | Ty.Hash | Ty.Field | Ty.Uint _ | Ty.Enum _ => Ret false
  | Ty.Struct _ | Ty.Array _ _ | Ty.DynamicBytes | Ty.String_ | Ty.Mapping _ _ _ _ => Ret true
  | Ty.Contract _ => Ret false
  | Ty.Ref r => is_reference_type fuel ns r
  | Ty.StorageRef r => is_reference_type fuel ns r
  | Ty.Function_ _ _ => Ret false
  | Ty.UserType no => u ← get_user_type ns no; is_reference_type fuel ns u
  | _ => Ret false
  end end.

(** [Vec::any] on a test that may panic: stops at the first hit. *)
Fixpoint anyM {A} (f : A → comp bool) (l : list A) : comp bool :=
  match l with
  | [] => Ret false
  | a :: l => b ← f a; if b : bool then Ret true else anyM f l
  end.

(* [sema/types.rs | pub fn is_recursive] *)
Fixpoint is_recursive (fuel : nat) (ns : Namespace) (t : ty) : comp bool :=
  match fuel with O => OutOfFuel | S fuel =>
  match t with
  | Ty.Struct n => s ← get_struct ns n; Ret (existsb recursive (fields s))
  | Ty.Mapping key _ value _ =>
      b ← is_recursive fuel ns key; if b : bool then Ret true else is_recursive fuel ns value
  | Ty.Array t _ | Ty.Ref t | Ty.Slice t | Ty.StorageRef t => is_recursive fuel ns t
  | Ty.UserType no => u ← get_user_type ns no; is_recursive fuel ns u
  | _ => Ret false
  end end.

(* [sema/types.rs | pub fn user_struct_no] *)
Fixpoint user_struct_no (fuel : nat) (ns : Namespace) (t : ty) : comp (gset nat) :=
  match fuel with O => OutOfFuel | S fuel =>
  match t with
  | Ty.Struct n => Ret {[ n ]}
  | Ty.Mapping key _ value _ =>
      result ← user_struct_no fuel ns key;
      v ← user_struct_no fuel ns value;
      Ret (result ∪ v)
  | Ty.Array t _ | Ty.Ref t | Ty.Slice t | Ty.StorageRef t => user_struct_no fuel ns t
  | Ty.UserType no => u ← get_user_type ns no; user_struct_no fuel ns u
  | _ => Ret ∅
  end end.

(* [sema/types.rs | pub fn bits] *)
Fixpoint bits (fuel : nat) (ns : Namespace) (t : ty) : comp Z :=
  match fuel with O => OutOfFuel | S fuel =>
  match t with
  | Ty.Address | Ty.Contract _ | Ty.Hash => Ret 256
  | Ty.Bool => Ret 1
  | Ty.Field => bits fuel ns (Ty.Uint 32)
  | Ty.Uint n => Ret n
  | Ty.Ref t => bits fuel ns t
  | Ty.StorageRef _ => bits fuel ns (Ty.Uint 32)
  | Ty.Enum n => e ← get_enum ns n; bits fuel ns (enum_ty e)
  | _ => Panic
  end end.

(** [dims.iter().map(..).product()], where a dynamic dimension counts as one
    pointer and an [AnyFixed] one is [unreachable!]. *)
Definition dim_factor (d : ArrayLength) : comp Z :=
  match d with Fixed n => Ret n | Dynamic => Ret 1 | AnyFixed => Panic end.
Definition dims_product (dims : list ArrayLength) : comp Z :=
  l ← mapM_c dim_factor dims; Ret (zproduct l).

(** [guarded_recursion]: a struct already visited is not entered again; the
    set of visited structs is threaded through the whole search. *)
(* [sema/types.rs | fn guarded_recursion] *)
Definition guarded_recursion {O} (t : ty) (visited : gset nat) (bail : O)
    (f : gset nat → comp (O * gset nat)) : comp (O * gset nat) :=
  match t with
  | Ty.Struct n =>
      if decide (n ∈ visited) then Ret (bail, visited) else f ({[ n ]} ∪ visited)
  | _ => f visited
  end.

(* [sema/types.rs | pub fn type_size_of_internal] *)
Fixpoint type_size_of_internal (fuel : nat) (ns : Namespace) (t : ty)
    (visited : gset nat) : comp (Z * gset nat) :=
  match fuel with O => OutOfFuel | S fuel =>
  guarded_recursion t visited 0 (λ visited,
    match t with
    | Ty.Enum _ | Ty.Bool | Ty.Field => Ret (1, visited)
    | Ty.Contract _ | Ty.Address | Ty.Hash => Ret (1, visited)
    | Ty.Uint b => if decide (b = 32) then Ret (1, visited) else Panic
    | Ty.Array _ dims => p ← dims_product dims; Ret (p, visited)
    | Ty.Struct n => s ← get_struct ns n; Ret (Z.of_nat (length (fields s)), visited)
    | Ty.String_ | Ty.DynamicBytes | Ty.Ref _ | Ty.Slice _ | Ty.StorageRef _ => Ret (1, visited)
    | Ty.Unresolved => Ret (0, visited)
    | Ty.UserType no => u ← get_user_type ns no; type_size_of_internal fuel ns u visited
    | _ => Panic
    end) end.

(* [sema/types.rs | pub fn type_size_of( | Type::type_size_of] *)
Definition type_size_of (fuel : nat) (ns : Namespace) (t : ty) : comp Z :=
  r ← type_size_of_internal fuel ns t ∅; Ret r.1.

(* [sema/types.rs | pub fn memory_size_of_internal] *)
Fixpoint memory_size_of_internal (fuel : nat) (ns : Namespace) (t : ty)
    (visited : gset nat) : comp (Z * gset nat) :=
  match fuel with O => OutOfFuel | S fuel =>
  guarded_recursion t visited 0 (λ visited,
    match t with
    | Ty.Enum _ | Ty.Bool | Ty.Field => Ret (1, visited)
    | Ty.Contract _ | Ty.Address | Ty.Hash => Ret (4, visited)
    | Ty.Uint b => if decide (b = 32) then Ret (1, visited) else Panic
    | Ty.Array t dims =>
        r ← memory_size_of_internal fuel ns t visited;
        p ← dims_product dims;
        Ret (r.1 * p, r.2)
    | Ty.Struct n => s ← get_struct ns n; Ret (Z.of_nat (length (fields s)), visited)
    | Ty.String_ | Ty.DynamicBytes | Ty.Ref _ | Ty.Slice _ | Ty.StorageRef _ => Ret (1, visited)
    | Ty.Unresolved => Ret (0, visited)
    | Ty.UserType no => u ← get_user_type ns no; memory_size_of_internal fuel ns u visited
    | _ => Panic
    end) end.

(* [sema/types.rs | pub fn memory_size_of( | Type::memory_size_of] *)
Definition memory_size_of (fuel : nat) (ns : Namespace) (t : ty) : comp Z :=
  r ← memory_size_of_internal fuel ns t ∅; Ret r.1.

(** [iter().max().unwrap()] *)
Definition max_unwrap (l : list Z) : comp Z :=
  match l with [] => Panic | x :: l => Ret (foldl Z.max x l) end.

(* [sema/types.rs | pub fn struct_elem_alignment] *)
Fixpoint struct_elem_alignment (fuel : nat) (ns : Namespace) (t : ty) : comp Z :=
  match fuel with O => OutOfFuel | S fuel =>
  match t with
  | Ty.Bool | Ty.Contract _ | Ty.Address | Ty.Enum _ | Ty.Field => Ret 1
  | Ty.Uint b => if decide (b = 32) then Ret 1 else Panic
  | Ty.Array t dims =>
      if existsb is_dynamic_dim dims then Ret 1 else struct_elem_alignment fuel ns t
  | Ty.Struct n =>
      s ← get_struct ns n;
      l ← mapM_c (λ d, struct_elem_alignment fuel ns (p_ty d)) (fields s);
      max_unwrap l
  | Ty.String_ | Ty.DynamicBytes | Ty.Ref _ | Ty.StorageRef _ => Ret 1
  | Ty.UserType no => u ← get_user_type ns no; struct_elem_alignment fuel ns u
  | _ => Panic
  end end.

(* [sema/types.rs | pub fn storage_size] *)
Fixpoint storage_size (fuel : nat) (ns : Namespace) (t : ty) : comp Z :=
  match fuel with O => OutOfFuel | S fuel =>
  match t with
  | Ty.Array t dims =>
      s ← storage_size fuel ns t;
      p ← dims_product dims;
      Ret (s * p)
  | Ty.Struct n => s ← get_struct ns n; Ret (default 0 (last (offsets s)))
  | Ty.String_ | Ty.DynamicBytes => Ret 1
  | Ty.Ref t | Ty.StorageRef t => storage_size fuel ns t
  | Ty.UserType no => u ← get_user_type ns no; storage_size fuel ns u
  | _ => memory_size_of fuel ns t
  end end.

(* [sema/types.rs | pub fn fits_in_memory] *)
Definition fits_in_memory (fuel : nat) (ns : Namespace) (t : ty) : comp bool :=
  m ← memory_size_of fuel ns t; Ret (m <? 65535).

(* [sema/types.rs | pub fn align_of] *)
Fixpoint align_of (fuel : nat) (ns : Namespace) (t : ty) : comp Z :=
  match fuel with O => OutOfFuel | S fuel =>
  match t with
  | Ty.Struct n =>
      s ← get_struct ns n;
      l ← mapM_c (λ f, if recursive f then Ret 1 else align_of fuel ns (p_ty f)) (fields s);
      max_unwrap l
  | _ => Ret 1
  end end.

(* [sema/types.rs | pub fn storage_slots] *)
Fixpoint storage_slots (fuel : nat) (ns : Namespace) (t : ty) : comp Z :=
  match fuel with O => OutOfFuel | S fuel =>
  match t with
  | Ty.StorageRef r | Ty.Ref r => storage_slots fuel ns r
  | Ty.Struct no =>
      s ← get_struct ns no;
      l ← mapM_c (λ f, storage_slots fuel ns (p_ty f))
            (List.filter (λ f, negb (infinite_size f)) (fields s));
      Ret (zsum l)
  | Ty.Array t dims =>
      s ← storage_slots fuel ns t;
      p ← dims_product dims;
      Ret (s * p)
  | _ => Ret 1
  end end.

(** * Searches through struct fields *)

(** [fields.iter().any(|f| f.ty.search(ns, structs_visited))] *)
Fixpoint anyS {A S} (f : A → S → comp (bool * S)) (l : list A) (s : S) : comp (bool * S) :=
  match l with
  | [] => Ret (false, s)
  | a :: l => r ← f a s; if (r.1 : bool) then Ret (true, r.2) else anyS f l r.2
  end.

(* [sema/types.rs | fn is_dynamic_internal] *)
Fixpoint is_dynamic_internal (fuel : nat) (ns : Namespace) (t : ty)
    (visited : gset nat) : comp (bool * gset nat) :=
  match fuel with O => OutOfFuel | S fuel =>
  guarded_recursion t visited false (λ visited,
    match t with
    | Ty.String_ | Ty.DynamicBytes => Ret (true, visited)
    | Ty.Ref r => is_dynamic_internal fuel ns r visited
    | Ty.Array t dim =>
        if existsb is_dynamic_dim dim then Ret (true, visited)
        else is_dynamic_internal fuel ns t visited
    | Ty.Struct n =>
        s ← get_struct ns n;
        anyS (λ f, is_dynamic_internal fuel ns (p_ty f)) (fields s) visited
    | Ty.StorageRef r => is_dynamic_internal fuel ns r visited
    | Ty.Slice _ => Ret (true, visited)
    | _ => Ret (false, visited)
    end) end.

(* [sema/types.rs | pub fn is_dynamic( | Type::is_dynamic] *)
Definition is_dynamic (fuel : nat) (ns : Namespace) (t : ty) : comp bool :=
  r ← is_dynamic_internal fuel ns t ∅; Ret r.1.

(* [sema/types.rs | fn contains_mapping_internal] *)
Fixpoint contains_mapping_internal (fuel : nat) (ns : Namespace) (t : ty)
    (visited : gset nat) : comp (bool * gset nat) :=
  match fuel with O => OutOfFuel | S fuel =>
  guarded_recursion t visited false (λ visited,
    match t with
    | Ty.Mapping _ _ _ _ => Ret (true, visited)
    | Ty.Array t _ => contains_mapping_internal fuel ns t visited
    | Ty.Struct no =>
        s ← get_struct ns no;
        anyS (λ f, contains_mapping_internal fuel ns (p_ty f)) (fields s) visited
    | Ty.StorageRef r | Ty.Ref r => contains_mapping_internal fuel ns r visited
    | _ => Ret (false, visited)
    end) end.

(* [sema/types.rs | pub fn contains_mapping( | Type::contains_mapping] *)
Definition contains_mapping (fuel : nat) (ns : Namespace) (t : ty) : comp bool :=
  r ← contains_mapping_internal fuel ns t ∅; Ret r.1.

(** What the searches look for, declaratively: the components of a type are
    the types below references and arrays, and the fields of structs. *)
Inductive component (ns : Namespace) : ty → ty → Prop :=
  | comp_ref r : component ns (Ty.Ref r) r
  | comp_storage_ref r : component ns (Ty.StorageRef r) r
  | comp_array t d : component ns (Ty.Array t d) t
  | comp_field n s f :
      structs ns !! n = Some s → f ∈ fields s → component ns (Ty.Struct n) (p_ty f).

(** Some type reachable through components satisfies [hit]. *)
Definition reaches (ns : Namespace) (hit : ty → bool) (t : ty) : Prop :=
  ∃ u, rtc (component ns) t u ∧ hit u = true.

Definition dynamic_hit (t : ty) : bool :=
  match t with
  | Ty.String_ | Ty.DynamicBytes | Ty.Slice _ => true
  | Ty.Array _ dim => existsb is_dynamic_dim dim
  | _ => false
  end.

Definition mapping_hit (t : ty) : bool :=
  match t with Ty.Mapping _ _ _ _ => true | _ => false end.

(** The guarded depth-first search that both functions are instances of. *)
Fixpoint search (hit : ty → bool) (fuel : nat) (ns : Namespace) (t : ty)
    (visited : gset nat) : comp (bool * gset nat) :=
  match fuel with O => OutOfFuel | S fuel =>
  guarded_recursion t visited false (λ visited,
    if hit t then Ret (true, visited) else
    match t with
    | Ty.Ref r | Ty.StorageRef r | Ty.Array r _ => search hit fuel ns r visited
    | Ty.Struct n =>
        s ← get_struct ns n; anyS (λ f, search hit fuel ns (p_ty f)) (fields s) visited
    | _ => Ret (false, visited)
    end) end.

Lemma anyS_ext {A S} (f g : A → S → comp (bool * S)) l s :
  (∀ a s, f a s = g a s) → anyS f l s = anyS g l s.
Proof.
  intros Hfg. revert s. induction l as [|a l IH]; intros s; cbn; [done|].
  rewrite Hfg. destruct (g a s) as [[[] s']| |]; cbn; auto.
Qed.

Lemma is_dynamic_search fuel ns t v :
  is_dynamic_internal fuel ns t v = search dynamic_hit fuel ns t v.
Proof.
  revert t v. induction fuel as [|fuel IH]; intros t v; [done|].
  destruct t; cbn; rewrite ?IH; try done.
  case_decide; [done|]. destruct (get_struct ns n); cbn; [|done..].
  apply anyS_ext. auto.
Qed.

Lemma contains_mapping_search fuel ns t v :
  contains_mapping_internal fuel ns t v = search mapping_hit fuel ns t v.
Proof.
  revert t v. induction fuel as [|fuel IH]; intros t v; [done|].
  destruct t; cbn; rewrite ?IH; try done.
  case_decide; [done|]. destruct (get_struct ns n); cbn; [|done..].
  apply anyS_ext. auto.
Qed.

Section Search.
Context (hit : ty → bool) (ns : Namespace).
(** A struct is never itself what is searched for. *)
Context (Hstruct : ∀ n, hit (Ty.Struct n) = false).

(** A hit found is a hit reachable. *)
Lemma search_sound fuel t v v' :
  search hit fuel ns t v = Ret (true, v') → reaches ns hit t.
Proof.
  revert t v v'. induction fuel as [|fuel IH]; intros t v v' H; [done|].
  assert (Hany : ∀ l v v', anyS (λ f, search hit fuel ns (p_ty f)) l v = Ret (true, v') →
    ∃ f, f ∈ l ∧ reaches ns hit (p_ty f)).
  { clear H. induction l as [|f l IHl]; cbn; intros w w' H; comp_inv.
    destruct x as [[] w1]; cbn in *.
    - exists f. split; [by left|]. eapply IH; eauto.
    - edestruct IHl as (g & ? & ?); [done|]. exists g. split; [by right|done]. }
  assert (Hstep : ∀ u, component ns t u → reaches ns hit u → reaches ns hit t).
  { intros u Htu (w & Huw & Hw). exists w. split; [by eapply rtc_l|done]. }
  cbn in H. destruct t; cbn in H;
    try (destruct (hit _) eqn:Hh; [eexists; by split|]); try (by comp_inv);
    try (apply IH in H; eapply Hstep; [constructor|done]).
  case_decide; [by comp_inv|]. rewrite ?Hstruct in H. comp_inv.
  unfold get_struct in *. comp_inv.
  edestruct Hany as (f & Hf & ?); [done|]. eapply Hstep; [by econstructor|done].
Qed.

(** [t] can be explored without a hit, the structs met belonging to [v]. *)
Inductive covered (v : gset nat) : ty → Prop :=
  | cov_struct n : n ∈ v → covered v (Ty.Struct n)
  | cov_other t :
      hit t = false → (∀ n, t ≠ Ty.Struct n) →
      (∀ u, component ns t u → covered v u) → covered v t.

(** The fields of every struct of [w] are covered by [v]. *)
Definition closed (w v : gset nat) : Prop :=
  ∀ n s f, n ∈ w → structs ns !! n = Some s → f ∈ fields s → covered v (p_ty f).

Lemma covered_mono v w t : v ⊆ w → covered v t → covered w t.
Proof.
  intros Hvw. induction 1 as [n Hn|t Hh Hn _ IH]; [constructor; set_solver|].
  by constructor 2.
Qed.

Lemma closed_mono w v v' : v ⊆ v' → closed w v → closed w v'.
Proof. intros ? Hc n s f ???. eapply covered_mono; [done|]. by eapply Hc. Qed.

(** A search that finds nothing has covered its type, and the fields of every
    struct it entered. *)
Lemma search_false fuel t v v' :
  search hit fuel ns t v = Ret (false, v') →
  v ⊆ v' ∧ covered v' t ∧ closed (v' ∖ v) v'.
Proof.
  revert t v v'. induction fuel as [|fuel IH]; intros t v v' H; [done|].
  assert (Hany : ∀ l v v', anyS (λ f, search hit fuel ns (p_ty f)) l v = Ret (false, v') →
    v ⊆ v' ∧ (∀ f, f ∈ l → covered v' (p_ty f)) ∧ closed (v' ∖ v) v').
  { clear H. induction l as [|f l IHl]; cbn; intros w w' H; comp_inv.
    { split_and!; [done|set_solver|]. intros n; set_solver. }
    destruct x as [[] w1]; cbn in *; [by comp_inv|].
    edestruct IH as (H1 & H2 & H3); [done|]. edestruct IHl as (H4 & H5 & H6); [done|].
    split_and!; [set_solver| |].
    - intros g [->|?]%elem_of_cons; [by eapply covered_mono|auto].
    - intros n s g Hn. destruct (decide (n ∈ w1)).
      + intros. eapply covered_mono; [done|]. eapply H3; eauto. set_solver.
      + apply H6. set_solver. }
  assert (Hsame : closed (v ∖ v) v) by (intros n ???; set_solver).
  cbn in H. destruct t; cbn in H;
    try (destruct (hit _) eqn:Hh; [by comp_inv|]);
    try (comp_inv; split_and!; [done|constructor 2; [done|done|inversion 1]|done]);
    try (edestruct IH as (H1 & H2 & H3); [done|]; split_and!; [done| |done];
         constructor 2; [done|done|inversion 1; by subst]).
  case_decide; [comp_inv; split_and!; [done|by constructor|done]|].
  rewrite ?Hstruct in H. comp_inv. unfold get_struct in *. comp_inv.
  edestruct Hany as (Hsub & Hflds & Hcl); [done|]. split_and!; [set_solver|constructor; set_solver|].
  intros m s f Hm Hs Hf. destruct (decide (m = n)) as [->|].
  - simplify_eq. auto.
  - eapply Hcl; eauto. set_solver.
Qed.

Lemma covered_no_hit v t u :
  closed v v → covered v t → rtc (component ns) t u → hit u = false.
Proof.
  intros Hcl Ht Hr. induction Hr as [t|t w u Hs Hr IH].
  - destruct Ht; [apply Hstruct|done].
  - apply IH. destruct Ht as [n Hn|t Hh Hn Ht]; [|by apply Ht].
    inversion Hs; subst. by eapply Hcl.
Qed.

Lemma search_correct fuel t b v' :
  search hit fuel ns t ∅ = Ret (b, v') → (b = true ↔ reaches ns hit t).
Proof.
  intros H. destruct b.
  - split; [intros _|done]. by eapply search_sound.
  - split; [done|]. intros (u & Hr & Hu). exfalso.
    apply search_false in H as (_ & Hc & Hcl).
    assert (hit u = false); [|congruence].
    eapply covered_no_hit; [|done|done]. by rewrite difference_empty_L in Hcl.
Qed.
End Search.

(** Termination: a call either peels a type constructor or enters a struct for
    the first time. *)
Fixpoint depth (t : ty) : nat :=
  match t with
  | Ty.Ref r | Ty.StorageRef r | Ty.Array r _ => S (depth r)
  | _ => 0
  end.

(** The deepest field type of the namespace. *)
Definition ns_depth (ns : Namespace) : nat :=
  max_list (s ← structs ns; (depth ∘ p_ty) <$> fields s).

Definition search_fuel (ns : Namespace) (t : ty) : nat :=
  S (depth t + length (structs ns) * S (ns_depth ns)).

(** Every struct that the type reaches is in the table. *)
Definition refs_ok (ns : Namespace) (t : ty) : Prop :=
  ∀ n, rtc (component ns) t (Ty.Struct n) → is_Some (structs ns !! n).

Lemma refs_ok_component ns t u : refs_ok ns t → component ns t u → refs_ok ns u.
Proof. intros Ht Htu n Hn. apply Ht. by eapply rtc_l. Qed.

Lemma ns_depth_field ns n s f :
  structs ns !! n = Some s → f ∈ fields s → (depth (p_ty f) ≤ ns_depth ns)%nat.
Proof.
  intros Hs Hf. unfold ns_depth. apply max_list_elem_of_le.
  apply list_elem_of_bind. exists s. split.
  - apply list_elem_of_fmap. by exists f.
  - by eapply list_elem_of_lookup_2.
Qed.

Definition unvisited (ns : Namespace) (v : gset nat) : nat :=
  size (set_seq 0 (length (structs ns)) ∖ v).

Lemma unvisited_mono ns v w : v ⊆ w → (unvisited ns w ≤ unvisited ns v)%nat.
Proof. intros ?. apply subseteq_size. set_solver. Qed.

Lemma unvisited_enter ns v n :
  is_Some (structs ns !! n) → n ∉ v → (unvisited ns ({[n]} ∪ v) < unvisited ns v)%nat.
Proof.
  intros Hn Hv. apply subset_size. split; [set_solver|]. intros H.
  specialize (H n). rewrite !elem_of_difference, elem_of_union, elem_of_singleton in H.
  apply lookup_lt_is_Some in Hn. assert (n ∈ (set_seq 0 (length (structs ns)) : gset nat)).
  { apply elem_of_set_seq. lia. }
  tauto.
Qed.

Lemma anyS_mono {A} (f : A → gset nat → comp (bool * gset nat)) l v b v' :
  (∀ a v b v', f a v = Ret (b, v') → v ⊆ v') →
  anyS f l v = Ret (b, v') → v ⊆ v'.
Proof.
  intros Hf. revert v. induction l as [|a l IH]; cbn; intros v H; comp_inv; [done|].
  destruct x as [[] w]; cbn in *; comp_inv.
  - by eapply Hf.
  - etrans; [by eapply Hf|by apply IH].
Qed.

Lemma search_mono hit ns fuel t v b v' :
  search hit fuel ns t v = Ret (b, v') → v ⊆ v'.
Proof.
  revert t v b v'. induction fuel as [|fuel IH]; intros t v b v' H; [done|].
  destruct t; cbn in H; repeat case_match; comp_inv; try done; eauto.
  - set_solver.
  - match goal with Hx : anyS _ _ _ = _ |- _ => eapply anyS_mono in Hx; [set_solver|intros; by eapply IH] end.
Qed.

Lemma search_total hit ns fuel t v :
  refs_ok ns t → (depth t + unvisited ns v * S (ns_depth ns) < fuel)%nat →
  ∃ r, search hit fuel ns t v = Ret r.
Proof.
  revert t v. induction fuel as [|fuel IH]; intros t v Hok Hf; [lia|].
  assert (Hrec : ∀ u, component ns t u → depth t = S (depth u) →
    ∃ r, search hit fuel ns u v = Ret r).
  { intros u Hu Hd. apply IH; [by eapply refs_ok_component|lia]. }
  destruct t; cbn; try (case_match; [by eexists|]); try (by eexists);
    try (apply Hrec; [constructor|done]).
  case_match; [by eexists|].
    destruct (Hok n) as [s Hs]; [done|]. unfold get_struct. rewrite Hs. cbn.
    assert (Hflds : ∀ l w, {[n]} ∪ v ⊆ w → (∀ f, f ∈ l → f ∈ fields s) →
      ∃ r, anyS (λ f, search hit fuel ns (p_ty f)) l w = Ret r).
    { induction l as [|f l IHl]; intros w Hw Hl; cbn; [by eexists|].
      assert (Hf' : f ∈ fields s) by (apply Hl; by left).
      destruct (IH (p_ty f) w) as [[b w'] Hr].
      - eapply refs_ok_component; [done|by econstructor].
      - assert (unvisited ns w < unvisited ns v)%nat.
        { eapply Nat.le_lt_trans; [by apply unvisited_mono|].
          apply unvisited_enter; [by eexists|done]. }
        pose proof (ns_depth_field ns n s f Hs Hf'). cbn in Hf. nia.
      - rewrite Hr. cbn. destruct b; [by eexists|]. apply IHl; [|intros; apply Hl; by right].
        etrans; [done|]. by eapply search_mono. }
    by apply Hflds.
Qed.

Lemma search_top hit ns fuel t :
  (∀ n, hit (Ty.Struct n) = false) →
  refs_ok ns t → (search_fuel ns t ≤ fuel)%nat →
  ∃ b v, search hit fuel ns t ∅ = Ret (b, v) ∧ (b = true ↔ reaches ns hit t).
Proof.
  intros Hh Hok Hf. destruct (search_total hit ns fuel t ∅) as [[b v] Hr].
  - done.
  - unfold search_fuel, unvisited in *. rewrite difference_empty_L, size_set_seq. lia.
  - exists b, v. split; [done|]. by eapply search_correct.
Qed.

(** On types whose structs are all declared, recursive ones included,
    Type::is_dynamic terminates and answers true exactly when a string,
    dynamic bytes, a slice or an array of dynamic length can be reached
    through references, array elements and struct fields. *)
Theorem is_dynamic_correct ns t fuel :
  refs_ok ns t → (search_fuel ns t ≤ fuel)%nat →
  ∃ b, is_dynamic fuel ns t = Ret b ∧ (b = true ↔ reaches ns dynamic_hit t).
Proof.
  intros Hok Hf. destruct (search_top dynamic_hit ns fuel t) as (b & v & Hr & Hb); [done..|].
  exists b. unfold is_dynamic. by rewrite is_dynamic_search, Hr.
Qed.

(** On types whose structs are all declared, recursive ones included,
    Type::contains_mapping terminates and answers true exactly when a mapping
    can be reached through references, array elements and struct fields. *)
Theorem contains_mapping_correct ns t fuel :
  refs_ok ns t → (search_fuel ns t ≤ fuel)%nat →
  ∃ b, contains_mapping fuel ns t = Ret b ∧ (b = true ↔ reaches ns mapping_hit t).
Proof.
  intros Hok Hf. destruct (search_top mapping_hit ns fuel t) as (b & v & Hr & Hb); [done..|].
  exists b. unfold contains_mapping. by rewrite contains_mapping_search, Hr.
Qed.

(** A list type: [struct List { List ref next; string name; }]. *)
Definition list_ns : Namespace :=
  set_structs [mkStructDecl "List" Builtin None
    [mkParameter Builtin None (Ty.Ref (Ty.Struct 0)) None false true;
     mkParameter Builtin None Ty.String_ None false false] [] []] empty_ns.

Lemma list_ns_ok : refs_ok list_ns (Ty.Struct 0).
Proof.
  assert (H : ∀ s t, rtc (component list_ns) s t →
    s = Ty.Struct 0 ∨ s = Ty.Ref (Ty.Struct 0) ∨ s = Ty.String_ →
    t = Ty.Struct 0 ∨ t = Ty.Ref (Ty.Struct 0) ∨ t = Ty.String_).
  { induction 1 as [s|s u t Hc _ IH]; intros Hi; [exact Hi|]. apply IH.
    destruct Hi as [->|[->| ->]]; inversion Hc as [| | |? sd f Hl Hf]; subst; [|tauto].
    cbn in Hl. injection Hl as <-. cbn in Hf. set_solver. }
  intros n Hn. apply H in Hn as [Hn|[Hn|Hn]]; [|discriminate Hn..|by left]. injection Hn as ->. by eexists.
Qed.

Lemma is_dynamic_correct_witness :
  ∃ b, is_dynamic 100 list_ns (Ty.Struct 0) = Ret b
    ∧ (b = true ↔ reaches list_ns dynamic_hit (Ty.Struct 0)).
Proof. apply is_dynamic_correct; [apply list_ns_ok|apply Nat.leb_le; vm_compute; reflexivity]. Defined.

Lemma contains_mapping_correct_witness :
  ∃ b, contains_mapping 100 list_ns (Ty.Struct 0) = Ret b
    ∧ (b = true ↔ reaches list_ns mapping_hit (Ty.Struct 0)).
Proof. apply contains_mapping_correct; [apply list_ns_ok|apply Nat.leb_le; vm_compute; reflexivity]. Defined.

(** * Fuel that is enough

    The operations on one type peel constructors and follow user types, each
    of which is declared in terms of earlier ones. *)

Fixpoint height (t : ty) : nat :=
  match t with
  | Ty.Ref r | Ty.StorageRef r | Ty.Array r _ | Ty.Slice r => S (height r)
  | Ty.Mapping k _ v _ => S (Nat.max (height k) (height v))
  | _ => 1
  end.
(** The user types that peeling meets. *)
Fixpoint user_types_in (t : ty) : list nat :=
  match t with
  | Ty.Ref r | Ty.StorageRef r | Ty.Array r _ | Ty.Slice r => user_types_in r
  | Ty.Mapping k _ v _ => user_types_in k ++ user_types_in v
  | Ty.UserType n => [n]
  | _ => []
  end.
Definition user_height (ns : Namespace) : nat := max_list (height ∘ ut_ty <$> user_types ns).
Definition type_fuel (ns : Namespace) (t : ty) : nat :=
  S (S (height t + length (user_types ns) * S (user_height ns))).

(** User types are made of earlier ones, enums of integers. *)
Record declared (ns : Namespace) : Prop := {
  d_user : ∀ n u m, user_types ns !! n = Some u → m ∈ user_types_in (ut_ty u) → (m < n)%nat;
  d_enum : ∀ n e, enums ns !! n = Some e → ∃ b, enum_ty e = Ty.Uint b;
}.

Lemma user_height_bound ns n u : user_types ns !! n = Some u → (height (ut_ty u) ≤ user_height ns)%nat.
Proof.
  intros H. apply max_list_elem_of_le. apply list_elem_of_fmap. exists u. split; [done|]. by eapply list_elem_of_lookup_2.
Qed.

(** A test of a type that peels it. *)
Definition peels {A} (ns : Namespace) (f : nat → ty → comp A) : Prop :=
  ∀ fuel t,
    (∀ r, (∃ d, t = Ty.Array r d) ∨ t = Ty.Ref r ∨ t = Ty.StorageRef r ∨ t = Ty.Slice r
          ∨ (∃ k kn vn, t = Ty.Mapping k kn r vn ∨ t = Ty.Mapping r kn k vn) → f fuel r ≠ OutOfFuel) →
    (∀ n u, t = Ty.UserType n → user_types ns !! n = Some u → f fuel (ut_ty u) ≠ OutOfFuel) →
    (1 ≤ fuel)%nat → f (S fuel) t ≠ OutOfFuel.

Lemma peels_no_fuel {A} ns (f : nat → ty → comp A) :
  declared ns → peels ns f → ∀ t, f (type_fuel ns t) t ≠ OutOfFuel.
Proof.
  intros Hd Hp.
  assert (H : ∀ fuel k t, (∀ m, m ∈ user_types_in t → is_Some (user_types ns !! m) → m < k)%nat →
    (height t + k * S (user_height ns) + 1 < fuel)%nat → f fuel t ≠ OutOfFuel).
  { induction fuel as [|fuel IH]; intros k t Hk Hf; [lia|]. apply Hp; [| |destruct t; cbn in Hf; lia].
    - intros r Hr. apply (IH k); destruct Hr as [[d ->]|[->|[->|[->|(x & kn & vn & [->| ->])]]]];
        cbn in *; try (by intros m Hm; apply Hk); try lia; intros m Hm; apply Hk; apply elem_of_app; tauto.
    - intros n u -> Hu. assert (n < k)%nat by (apply Hk; [by left|by eexists]).
      apply (IH n); [intros m Hm _; by apply (d_user _ Hd n u)|]. pose proof (user_height_bound _ _ _ Hu).
      cbn in Hf. nia. }
  intros t. apply (H _ (length (user_types ns))); [|unfold type_fuel; lia].
  intros m _. by apply lookup_lt_is_Some.
Qed.

Lemma get_user_type_no_fuel {A} ns n (f : ty → comp A) :
  (∀ u, user_types ns !! n = Some u → f (ut_ty u) ≠ OutOfFuel) → get_user_type ns n ≫= f ≠ OutOfFuel.
Proof. unfold get_user_type. destruct (user_types ns !! n) as [u|] eqn:E; cbn; naive_solver. Qed.

Lemma is_integer_no_fuel ns t : declared ns → is_integer (type_fuel ns t) ns t ≠ OutOfFuel.
Proof.
  intros Hd. apply (peels_no_fuel ns (λ fuel t, is_integer fuel ns t) Hd).
  intros fuel u Hr Hu Hf. destruct u; cbn; try done; [apply Hr; naive_solver..|].
  apply get_user_type_no_fuel. naive_solver.
Qed.
Lemma is_reference_type_no_fuel ns t : declared ns → is_reference_type (type_fuel ns t) ns t ≠ OutOfFuel.
Proof.
  intros Hd. apply (peels_no_fuel ns (λ fuel t, is_reference_type fuel ns t) Hd).
  intros fuel u Hr Hu Hf. destruct u; cbn; try done; [apply Hr; naive_solver..|].
  apply get_user_type_no_fuel. naive_solver.
Qed.
Lemma is_recursive_no_fuel ns t : declared ns → is_recursive (type_fuel ns t) ns t ≠ OutOfFuel.
Proof.
  intros Hd. apply (peels_no_fuel ns (λ fuel t, is_recursive fuel ns t) Hd).
  intros fuel u Hr Hu Hf. destruct u; cbn; try done; try (apply Hr; naive_solver).
  - unfold get_struct. by destruct (structs ns !! n).
  - apply bind_no_fuel; [apply Hr; naive_solver|]. intros [] _; [done|]. apply Hr. naive_solver.
  - apply get_user_type_no_fuel. naive_solver.
Qed.
Lemma bits_no_fuel ns t : declared ns → bits (type_fuel ns t) ns t ≠ OutOfFuel.
Proof.
  intros Hd. apply (peels_no_fuel ns (λ fuel t, bits fuel ns t) Hd).
  intros [|fuel] u Hr Hu Hf; [lia|]. destruct u; try done; try (apply Hr; naive_solver).
  cbn. apply bind_no_fuel; [unfold get_enum; by destruct (enums ns !! n)|].
  intros e He%unwrap_Ret. by destruct (d_enum _ Hd n e He) as [b ->].
Qed.

(** The guarded searches end on all types. *)
Lemma search_no_fuel hit ns fuel t v :
  (depth t + unvisited ns v * S (ns_depth ns) < fuel)%nat → search hit fuel ns t v ≠ OutOfFuel.
Proof.
  revert t v. induction fuel as [|fuel IH]; intros t v Hf; [lia|].
  destruct t; cbn; try (case_match; try done; try (apply IH; cbn in Hf; lia)). case_match; [done|].
  destruct (structs ns !! n) as [s|] eqn:Hs; unfold get_struct; rewrite Hs; [|done]. cbn.
  assert (Hflds : ∀ l w, {[n]} ∪ v ⊆ w → (∀ f, f ∈ l → f ∈ fields s) →
    anyS (λ f, search hit fuel ns (p_ty f)) l w ≠ OutOfFuel).
  { induction l as [|f l IHl]; intros w Hw Hl; cbn; [done|]. assert (Hf' : f ∈ fields s) by (apply Hl; by left).
    apply bind_no_fuel.
    - apply IH. assert (unvisited ns w < unvisited ns v)%nat.
      { eapply Nat.le_lt_trans; [by apply unvisited_mono|]. apply unvisited_enter; [by eexists|done]. }
      pose proof (ns_depth_field ns n s f Hs Hf'). cbn in Hf. nia.
    - intros [b w'] Hr. cbn. destruct b; [done|]. apply IHl; [|intros; apply Hl; by right].
      etrans; [done|]. by eapply search_mono. }
  by apply Hflds.
Qed.
Lemma is_dynamic_no_fuel ns t : is_dynamic (search_fuel ns t) ns t ≠ OutOfFuel.
Proof.
  unfold is_dynamic. rewrite is_dynamic_search. apply bind_no_fuel; [|done].
  apply search_no_fuel. unfold search_fuel, unvisited. rewrite difference_empty_L, size_set_seq. lia.
Qed.
Lemma contains_mapping_no_fuel ns t : contains_mapping (search_fuel ns t) ns t ≠ OutOfFuel.
Proof.
  unfold contains_mapping. rewrite contains_mapping_search. apply bind_no_fuel; [|done].
  apply search_no_fuel. unfold search_fuel, unvisited. rewrite difference_empty_L, size_set_seq. lia.
Qed.

Lemma mapM_no_fuel {A B} (f : A → comp B) l : (∀ a, f a ≠ OutOfFuel) → mapM_c f l ≠ OutOfFuel.
Proof. intros Hf. induction l as [|a l IH]; [done|]. cbn. repeat (apply bind_no_fuel; [done|intros ? _]). done. Qed.
Lemma dims_product_no_fuel dims : dims_product dims ≠ OutOfFuel.
Proof. apply bind_no_fuel; [|done]. apply mapM_no_fuel. by intros []. Qed.
(** The size in memory of a struct is the number of its fields, whatever they are. *)
Lemma fits_in_memory_no_fuel ns t : declared ns → fits_in_memory (type_fuel ns t) ns t ≠ OutOfFuel.
Proof.
  intros Hd. unfold fits_in_memory, memory_size_of. do 2 (apply bind_no_fuel; [|done]).
  apply (peels_no_fuel ns (λ fuel t, memory_size_of_internal fuel ns t ∅) Hd).
  intros fuel u Hr Hu Hf. destruct u; cbn; try done; try (by case_match).
  - apply bind_no_fuel; [apply Hr; naive_solver|]. intros ? _. apply bind_no_fuel; [apply dims_product_no_fuel|done].
  - unfold get_struct. case_decide; [done|]. by destruct (structs ns !! n).
  - apply get_user_type_no_fuel. naive_solver.
Qed.
