(* ===== verification/Layouts.v ===== *)
(** Struct layouts (the end of src/src/sema/types.rs): the offsets of struct
    fields in memory and in storage, computed by iteration until nothing
    changes; and the checks on enum and struct declarations. *)
From S2P Require Import Prelude BigIntSpec Ast Types.
#[local] Open Scope Z_scope.

Section Offsets.
Context {BI : NumBigInt}.
(** Fuel of the type operations called. *)
Context (fuel : nat).

(** [if remainder > 0 { offset += alignment - remainder }] *)
Definition round_to (offset alignment : Z) : Z :=
  let remainder := bi_rem offset alignment in
  if 0 <? remainder then offset + (alignment - remainder) else offset.

(** The body of the loop over the fields, in memory. *)
(* [sema/types.rs | 467-481 | struct_offsets] *)
Definition memory_step (ns : Namespace) (acc : list Z * Z * Z) (field : ParameterDecl)
    : comp (list Z * Z * Z) :=
  let '(offs, offset, largest_alignment) := acc in
  alignment ← align_of fuel ns (p_ty field);
  let largest_alignment := Z.max alignment largest_alignment in
  let offset := round_to offset alignment in
  let offs := offs ++ [offset] in
  if recursive field then Ret (offs, offset, largest_alignment)
  else sz ← storage_size fuel ns (p_ty field); Ret (offs, offset + sz, largest_alignment).

(* [sema/types.rs | 462-492 | struct_offsets] *)
Definition memory_offsets (ns : Namespace) (fs : list ParameterDecl) : comp (list Z) :=
  r ← foldM (memory_step ns) ([], 0, 0) fs;
  let '(offs, offset, largest_alignment) := r in
  let offset := if 1 <? largest_alignment then round_to offset largest_alignment else offset in
  Ret (offs ++ [offset]).

(** The body of the loop over the fields, in storage: a field of infinite
    size has no entry. *)
(* [sema/types.rs | 503-516 | struct_offsets] *)
Definition storage_step (ns : Namespace) (acc : list Z * Z * Z) (field : ParameterDecl)
    : comp (list Z * Z * Z) :=
  let '(offs, offset, largest_alignment) := acc in
  if infinite_size field then Ret acc
  else
    let alignment := 1 in
    let largest_alignment := Z.max alignment largest_alignment in
    let offset := round_to offset alignment in
    let offs := offs ++ [offset] in
    sz ← storage_slots fuel ns (p_ty field);
    Ret (offs, offset + sz, largest_alignment).

(* [sema/types.rs | 499-526 | struct_offsets] *)
Definition storage_offsets_of (ns : Namespace) (fs : list ParameterDecl) : comp (list Z) :=
  r ← foldM (storage_step ns) ([], 0, 0) fs;
  let '(offs, offset, largest_alignment) := r in
  let offset := if 1 <? largest_alignment then round_to offset largest_alignment else offset in
  Ret (offs ++ [offset]).

Definition with_offsets (o : list Z) (s : StructDecl) : StructDecl :=
  mkStructDecl (struct_name s) (struct_loc s) (struct_contract s) (fields s) o (storage_offsets s).
Definition with_storage_offsets (o : list Z) (s : StructDecl) : StructDecl :=
  mkStructDecl (struct_name s) (struct_loc s) (struct_contract s) (fields s) (offsets s) o.

(** [if ns.structs[struct_no].offsets != offsets { .. ; changes = true }] *)
(* [sema/types.rs | 494-497 | struct_offsets] *)
Definition store_offsets (struct_no : nat) (o : list Z) (st : Namespace * bool)
    : comp (Namespace * bool) :=
  let '(ns, changes) := st in
  s ← get_struct ns struct_no;
  if decide (offsets s = o) then Ret (ns, changes)
  else Ret (set_structs (<[ struct_no := with_offsets o s ]> (structs ns)) ns, true).

(* [sema/types.rs | 528-531 | struct_offsets] *)
Definition store_storage_offsets (struct_no : nat) (o : list Z) (st : Namespace * bool)
    : comp (Namespace * bool) :=
  let '(ns, changes) := st in
  s ← get_struct ns struct_no;
  if decide (storage_offsets s = o) then Ret (ns, changes)
  else Ret (set_structs (<[ struct_no := with_storage_offsets o s ]> (structs ns)) ns, true).

(** One struct of one pass. *)
(* [sema/types.rs | 461-532 | struct_offsets] *)
Definition struct_step (st : Namespace * bool) (struct_no : nat) : comp (Namespace * bool) :=
  s ← get_struct st.1 struct_no;
  o ← memory_offsets st.1 (fields s);
  st ← store_offsets struct_no o st;
  s ← get_struct st.1 struct_no;
  o ← storage_offsets_of st.1 (fields s);
  store_storage_offsets struct_no o st.

Definition struct_pass (ns : Namespace) : comp (Namespace * bool) :=
  foldM struct_step (ns, false) (seq 0 (length (structs ns))).

(* [sema/types.rs | fn struct_offsets] *)
Fixpoint struct_offsets (passes : nat) (ns : Namespace) : comp Namespace :=
  match passes with O => OutOfFuel | S passes =>
  r ← struct_pass ns;
  if (r.2 : bool) then struct_offsets passes r.1 else Ret r.1
  end.

(** ** Alignment never matters: every type is aligned to one slot. *)

Lemma foldl_max_ones l : Forall (λ z, z = 1) l → foldl Z.max 1 l = 1.
Proof. induction 1 as [|z l -> _ IH]; [done|]. by cbn. Qed.

Lemma align_of_one f ns t a : align_of f ns t = Ret a → a = 1.
Proof.
  revert t a. induction f as [|f IH]; intros t a H; [done|].
  destruct t; cbn in H; comp_inv; try done.
  match goal with Hm : mapM_c _ _ = Ret ?l |- _ =>
    apply mapM_c_Forall2 in Hm; assert (Hl : Forall (λ z, z = 1) l) end.
  { eapply Forall2_Forall_r; [done|]. apply Forall_forall. intros p _ z Hp. cbn in Hp.
    destruct (recursive p); [by comp_inv|]. by eapply IH. }
  match goal with Hm : max_unwrap ?l = Ret _ |- _ => destruct l as [|z l']; [done|] end.
  cbn in *. comp_inv. inversion Hl; subst. by apply foldl_max_ones.
Qed.

Lemma round_to_one z : round_to z 1 = z.
Proof. unfold round_to. rewrite bi_rem_spec by lia. by rewrite Z.rem_1_r. Qed.

(** ** What the loops compute: prefix sums *)

Fixpoint prefix_sums (acc : Z) (l : list Z) : list Z :=
  match l with [] => [acc] | z :: l => acc :: prefix_sums (acc + z) l end.

(** The size a field adds to its struct in memory. *)
Definition field_size (ns : Namespace) (f : ParameterDecl) : comp Z :=
  if recursive f then Ret 0 else storage_size fuel ns (p_ty f).

Definition field_slots (ns : Namespace) (f : ParameterDecl) : comp Z :=
  storage_slots fuel ns (p_ty f).

Lemma memory_fold ns fs offs o la r :
  la ≤ 1 →
  foldM (memory_step ns) (offs, o, la) fs = Ret r →
  ∃ sizes la', Forall2 (λ f z, field_size ns f = Ret z) fs sizes ∧ la' ≤ 1 ∧
    r.2 = la' ∧ r.1.1 ++ [r.1.2] = offs ++ prefix_sums o sizes.
Proof.
  revert offs o la. induction fs as [|f fs IH]; intros offs o la Hla H; cbn in H; comp_inv.
  { exists [], la. split_and!; [constructor|done|done|done]. }
  match goal with Ha : align_of _ _ _ = Ret _ |- _ => apply align_of_one in Ha; subst end.
  rewrite round_to_one in *.
  assert (∃ z, field_size ns f = Ret z ∧ x = (offs ++ [o], o + z, Z.max 1 la)) as (z & Hz & ->).
  { unfold field_size. destruct (recursive f); comp_inv; eexists; (split; [done|]); [|done].
    by rewrite Z.add_0_r. }
  edestruct IH as (sizes & la' & Hs & Hla' & Hr2 & Hr); [|done|]; [lia|].
  exists (z :: sizes), la'. split_and!; [by constructor|done|done|].
  rewrite Hr, <- (assoc_L (++)). done.
Qed.

Lemma memory_offsets_spec ns fs offs :
  memory_offsets ns fs = Ret offs →
  ∃ sizes, Forall2 (λ f z, field_size ns f = Ret z) fs sizes ∧ offs = prefix_sums 0 sizes.
Proof.
  unfold memory_offsets. intros H. comp_inv.
  match goal with Hf : foldM _ _ _ = _ |- _ =>
    apply memory_fold in Hf as (sizes & la' & Hs & Hla & Hr2 & Hr); [|lia] end.
  destruct x as [[os o] la]. cbn in *. subst. comp_inv.
  replace (1 <? la') with false by lia. eauto.
Qed.

Lemma storage_fold ns fs offs o la r :
  la ≤ 1 →
  foldM (storage_step ns) (offs, o, la) fs = Ret r →
  ∃ sizes la', Forall2 (λ f z, field_slots ns f = Ret z)
                 (List.filter (λ f, negb (infinite_size f)) fs) sizes ∧ la' ≤ 1 ∧
    r.2 = la' ∧ r.1.1 ++ [r.1.2] = offs ++ prefix_sums o sizes.
Proof.
  revert offs o la. induction fs as [|f fs IH]; intros offs o la Hla H; cbn in H; comp_inv.
  { exists [], la. split_and!; [constructor|done|done|done]. }
  cbn. destruct (infinite_size f); cbn; comp_inv; [by eapply IH|].
  rewrite round_to_one in *.
  edestruct IH as (sizes & la' & Hs & Hla' & Hr2 & Hr); [|done|]; [lia|].
  eexists (_ :: sizes), la'. split_and!; [by constructor|done|done|].
  rewrite Hr, <- (assoc_L (++)). done.
Qed.

Lemma storage_offsets_spec ns fs offs :
  storage_offsets_of ns fs = Ret offs →
  ∃ sizes, Forall2 (λ f z, field_slots ns f = Ret z)
             (List.filter (λ f, negb (infinite_size f)) fs) sizes ∧
           offs = prefix_sums 0 sizes.
Proof.
  unfold storage_offsets_of. intros H. comp_inv.
  match goal with Hf : foldM _ _ _ = _ |- _ =>
    apply storage_fold in Hf as (sizes & la' & Hs & Hla & Hr2 & Hr); [|lia] end.
  destruct x as [[os o] la]. cbn in *. subst. comp_inv.
  replace (1 <? la') with false by lia. eauto.
Qed.

Lemma prefix_sums_last acc l : last (prefix_sums acc l) = Some (acc + zsum l).
Proof.
  revert acc. induction l as [|z l IH]; intros acc; cbn -[last].
  - cbn. by rewrite Z.add_0_r.
  - rewrite last_cons, IH. f_equal. unfold zsum; cbn. lia.
Qed.

Lemma prefix_sums_lookup acc l k :
  (k ≤ length l)%nat → prefix_sums acc l !! k = Some (acc + zsum (take k l)).
Proof.
  revert acc k. induction l as [|z l IH]; intros acc [|k]; cbn; intros Hk;
    try lia; try (by rewrite Z.add_0_r).
  rewrite IH by lia. f_equal. unfold zsum; cbn. lia.
Qed.

(** ** The fixed point *)

(** A struct whose recorded offsets are what the loop would compute. *)
Definition consistent (ns : Namespace) (i : nat) : Prop :=
  ∀ s, structs ns !! i = Some s →
    memory_offsets ns (fields s) = Ret (offsets s) ∧
    storage_offsets_of ns (fields s) = Ret (storage_offsets s).

Lemma store_offsets_unchanged i o st st' :
  store_offsets i o st = Ret st' → st'.2 = false →
  st' = st ∧ ∀ s, structs st.1 !! i = Some s → offsets s = o.
Proof.
  destruct st as [ns b]. unfold store_offsets, get_struct. intros H Hf. cbn in H. comp_inv.
  case_decide; comp_inv; try done. split; [done|]. intros s Hs. cbn in Hs. by simplify_eq.
Qed.

Lemma store_storage_offsets_unchanged i o st st' :
  store_storage_offsets i o st = Ret st' → st'.2 = false →
  st' = st ∧ ∀ s, structs st.1 !! i = Some s → storage_offsets s = o.
Proof.
  destruct st as [ns b]. unfold store_storage_offsets, get_struct. intros H Hf. cbn in H. comp_inv.
  case_decide; comp_inv; try done. split; [done|]. intros s Hs. cbn in Hs. by simplify_eq.
Qed.

Lemma struct_step_unchanged st i st' :
  struct_step st i = Ret st' → st'.2 = false → st' = st ∧ consistent st.1 i.
Proof.
  unfold struct_step. intros H Hf. comp_inv.
  match goal with H1 : store_offsets _ _ _ = _, H2 : store_storage_offsets _ _ _ = _ |- _ =>
    apply store_storage_offsets_unchanged in H2 as [-> Hs2]; [|done];
    apply store_offsets_unchanged in H1 as [-> Hs1]; [|done] end.
  split; [done|]. unfold get_struct in *. comp_inv. intros s Hs. rewrite (Hs1 s Hs), (Hs2 s Hs). by simplify_eq.
Qed.

Lemma struct_pass_unchanged ns ns' :
  struct_pass ns = Ret (ns', false) → ns' = ns ∧ ∀ i, consistent ns i.
Proof.
  unfold struct_pass. intros H.
  edestruct (foldM_each (λ st, st.2 = false → st.1 = ns)
    (λ i st, st.2 = false → consistent ns i) struct_step) as (Hns & Hall & _);
    [| |exact H|].
  2: done.
  - intros st i st' _ Hst Hstep. split_and!.
    + intros Hf. destruct (struct_step_unchanged _ _ _ Hstep Hf) as [-> _]. auto.
    + intros Hf. destruct (struct_step_unchanged _ _ _ Hstep Hf) as [-> Hc].
      by rewrite <-(Hst Hf).
    + intros j Hj Hf. destruct (struct_step_unchanged _ _ _ Hstep Hf) as [-> _]. auto.
  - cbn in Hns. split; [auto|]. intros i.
    destruct (decide (i < length (structs ns))%nat) as [Hi|Hi].
    + apply Hall; [|done]. apply elem_of_seq. lia.
    + intros s Hs. apply lookup_lt_Some in Hs. lia.
Qed.

(** C39: When the iteration that computes struct offsets stops, the offsets of
    every struct are the prefix sums of its fields' sizes in memory, its
    storage offsets are the prefix sums of the slots of its finite fields, and
    the size of the struct type is the sum of its fields' sizes. *)
Theorem struct_offsets_layout passes ns ns' :
  struct_offsets passes ns = Ret ns' →
  ∀ i s, structs ns' !! i = Some s →
    ∃ sizes slots,
      Forall2 (λ f z, field_size ns' f = Ret z) (fields s) sizes ∧
      Forall2 (λ f z, field_slots ns' f = Ret z)
        (List.filter (λ f, negb (infinite_size f)) (fields s)) slots ∧
      offsets s = prefix_sums 0 sizes ∧
      storage_offsets s = prefix_sums 0 slots ∧
      storage_size (S fuel) ns' (Ty.Struct i) = Ret (zsum sizes).
Proof.
  revert ns. induction passes as [|passes IH]; intros ns H i s Hs; [done|].
  cbn in H. comp_inv. destruct x as [ns1 []]; cbn in *; [by eapply IH|]. comp_inv.
  match goal with Hp : struct_pass _ = _ |- _ =>
    apply struct_pass_unchanged in Hp as [-> Hc] end.
  destruct (Hc i s Hs) as [Hm Hst].
  destruct (memory_offsets_spec _ _ _ Hm) as (sizes & Hsz & Ho).
  destruct (storage_offsets_spec _ _ _ Hst) as (slots & Hsl & Hso).
  exists sizes, slots. split_and!; try done.
  cbn. unfold get_struct. rewrite Hs. cbn. by rewrite Ho, prefix_sums_last.
Qed.
End Offsets.

(** [struct Pair { field a; u32[3] b; }] *)
Definition pair_ns : Namespace :=
  set_structs [mkStructDecl "Pair" Builtin None
    [mkParameter Builtin None Ty.Field None false false;
     mkParameter Builtin None (Ty.Array (Ty.Uint 32) [Fixed 3]) None false false] [] []] empty_ns.

Lemma struct_offsets_layout_witness :
  ∃ ns', struct_offsets 5 3 pair_ns = Ret ns'
  ∧ ∀ i s, structs ns' !! i = Some s →
      ∃ sizes slots,
        Forall2 (λ f z, field_size 5 ns' f = Ret z) (fields s) sizes ∧
        Forall2 (λ f z, field_slots 5 ns' f = Ret z)
          (List.filter (λ f, negb (infinite_size f)) (fields s)) slots ∧
        offsets s = prefix_sums 0 sizes ∧
        storage_offsets s = prefix_sums 0 slots ∧
        storage_size 6 ns' (Ty.Struct i) = Ret (zsum sizes).
Proof. eexists. split; [vm_compute; reflexivity|]. by apply (struct_offsets_layout 5 3 pair_ns). Defined.
