(* ===== verification/Eval.v ===== *)
(** Compile-time evaluation of constant expressions (src/src/sema/eval.rs):
    [eval_const_number], used where the language requires a constant, and
    [eval_constants_in_expression] / [check_term_for_constant_overflow], which
    fold literals to report overflows. *)
From S2P Require Import Prelude BigIntSpec Ast Types.
#[local] Open Scope Z_scope.

(* [sema/expression/mod.rs | pub const FIELD_ORDER | FIELD_ORDER] *)
Definition FIELD_ORDER : Z := 18446744069414584321.

Section Eval.
Context {BI : NumBigInt}.

(** * [eval_const_number] *)

(** Exponentiation by repeated multiplication:
    [while e.sign() == Sign::Plus { res *= b; e -= 1 }]. *)
(* [sema/eval.rs | 106-109 | eval_const_number] *)
Fixpoint power_loop (n : nat) (b res e : Z) : comp Z :=
  match n with O => OutOfFuel | S n =>
  if 0 <? e then power_loop n b (res * b) (e - 1) else Ret res end.

(* [sema/eval.rs | 91-113 | eval_const_number] *)
Definition eval_power (loc : Loc) (b e : Z) : sema (Loc * Z) :=
  if e <? 0 then
    sema_fail (Diag.error loc "power cannot take negative number as exponent")
  else if e =? 0 then mret (loc, 1)
  else res ← sema_lift (power_loop (Z.to_nat e) b b (e - 1)); mret (loc, res).

(* [sema/eval.rs | 114-128 | eval_const_number] *)
Definition eval_shift_left (loc : Loc) (l r : Z) : sema (Loc * Z) :=
  match bi_to_u64 r with
  | Some n => mret (loc, bi_shl l n)
  | None => sema_fail (Diag.error loc ("cannot left shift by " +:+ pretty r))
  end.

(* [sema/eval.rs | 129-143 | eval_const_number] *)
Definition eval_shift_right (loc : Loc) (l r : Z) : sema (Loc * Z) :=
  match bi_to_u64 r with
  | Some n => mret (loc, bi_shr l n)
  | None => sema_fail (Diag.error loc ("right left shift by " +:+ pretty r))
  end.

(** The initializer of a constant variable: of a contract, or global. *)
(* [sema/eval.rs | 155-181 | eval_const_number] *)
Definition constant_initializer (ns : Namespace) (contract_no : option nat) (var_no : nat)
    : comp (option expression) :=
  match contract_no with
  | Some c =>
      contract ← unwrap (contracts ns !! c);
      var ← unwrap (variables contract !! var_no);
      Ret (initializer var)
  | None => var ← unwrap (constants ns !! var_no); Ret (initializer var)
  end.

(* [sema/eval.rs | pub fn eval_const_number] *)
Fixpoint eval_const_number (fuel : nat) (expr : expression) (ns : Namespace)
    : sema (Loc * Z) :=
  match fuel with O => λ _, OutOfFuel | S fuel =>
  let eval e := eval_const_number fuel e ns in
  match expr with
  | Ex.Add loc _ el er =>
      l ← eval el; r ← eval er; mret (loc, l.2 + r.2)
  | Ex.Subtract loc _ el er =>
      l ← eval el; r ← eval er; mret (loc, l.2 - r.2)
  | Ex.Multiply loc _ el er =>
      l ← eval el; r ← eval er; mret (loc, l.2 * r.2)
  | Ex.Divide loc _ el er =>
      divisor ← eval er;
      if decide (divisor.2 = 0) then sema_fail (Diag.error loc "divide by zero")
      else l ← eval el; mret (loc, bi_div l.2 divisor.2)
  | Ex.Modulo loc _ el er =>
      divisor ← eval er;
      if decide (divisor.2 = 0) then sema_fail (Diag.error loc "divide by zero")
      else l ← eval el; mret (loc, bi_rem l.2 divisor.2)
  | Ex.BitwiseAnd loc _ el er =>
      l ← eval el; r ← eval er; mret (loc, bi_and l.2 r.2)
  | Ex.BitwiseOr loc _ el er =>
      l ← eval el; r ← eval er; mret (loc, bi_or l.2 r.2)
  | Ex.BitwiseXor loc _ el er =>
      l ← eval el; r ← eval er; mret (loc, bi_xor l.2 r.2)
  | Ex.Power loc _ base exp =>
      b ← eval base; e ← eval exp; eval_power loc b.2 e.2
  | Ex.ShiftLeft loc _ el er =>
      l ← eval el; r ← eval er; eval_shift_left loc l.2 r.2
  | Ex.ShiftRight loc _ el er =>
      l ← eval el; r ← eval er; eval_shift_right loc l.2 r.2
  | Ex.NumberLiteral loc _ value => mret (loc, value)
  | Ex.ZeroExt loc _ e => v ← eval e; mret (loc, v.2)
  | Ex.Cast loc _ e => v ← eval e; mret (loc, v.2)
  | Ex.Not loc n => v ← eval n; mret (loc, bi_not v.2)
  | Ex.BitwiseNot loc _ e => v ← eval e; mret (loc, bi_not v.2)
  | Ex.ConstantVariable _ _ contract_no var_no =>
      init ← sema_lift (constant_initializer ns contract_no var_no);
      match init with
      | Some init => eval init
      | None => sema_err
      end
  | _ => sema_fail (Diag.error (Ex.loc expr)
                      "expression not allowed in constant number expression")
  end end.

(** * Overflow checks *)

(* [sema/eval.rs | fn overflow_check] *)
Definition overflow_check (result : Z) (t : ty) (loc : Loc) : comp (option Diagnostic) :=
  if result <? 0 then Ret (Some (Diag.error loc "negative value not allowed"))
  else match t with
  | Ty.Uint bits =>
      if bits <? bi_bits result then
        size ← get_type_size t;
        Ret (Some (Diag.error loc
          ("value " +:+ pretty result +:+ " does not fit into type u" +:+ pretty size +:+ ".")))
      else Ret None
  | Ty.Field =>
      v ← unwrap (bi_to_u64 result);
      if FIELD_ORDER <? v then
        Ret (Some (Diag.error loc
          ("value " +:+ pretty result +:+
           " exceeded the maximum range that field can represent.")))
      else Ret None
  | _ => Ret None
  end.

(** The result of folding: the literal, whether to keep recursing, and the
    namespace with the diagnostics pushed. *)
Definition folded : Type := option expression * bool * Namespace.

(** [if let (Some(NumberLiteral { value: left }), Some(NumberLiteral { value: right }))] *)
Definition both_literals (left right : option expression) : option (Z * (Loc * Z)) :=
  match left, right with
  | Some (Ex.NumberLiteral _ _ l), Some (Ex.NumberLiteral rloc _ r) => Some (l, (rloc, r))
  | _, _ => None
  end.

(** The arms whose operation is total. *)
(* [sema/eval.rs | 245-270 | eval_constants_in_expression] *)
Definition fold_total (op : Z → Z → Z) (loc : Loc) (t : ty)
    (left right : option expression) (ns : Namespace) : comp folded :=
  match both_literals left right with
  | Some (l, (_, r)) => Ret (Some (Ex.NumberLiteral loc t (op l r)), true, ns)
  | None => Ret (None, true, ns)
  end.

(* [sema/eval.rs | 271-297 | eval_constants_in_expression] *)
Definition fold_subtract := fold_total Z.sub.
(* [sema/eval.rs | 298-323 | eval_constants_in_expression] *)
Definition fold_multiply := fold_total Z.mul.
(* [sema/eval.rs | 506-531 | eval_constants_in_expression] *)
Definition fold_bitwise_and := fold_total bi_and.
(* [sema/eval.rs | 532-557 | eval_constants_in_expression] *)
Definition fold_bitwise_or := fold_total bi_or.
(* [sema/eval.rs | 558-583 | eval_constants_in_expression] *)
Definition fold_bitwise_xor := fold_total bi_xor.

(* [sema/eval.rs | 324-356 | eval_constants_in_expression] *)
Definition fold_divide (loc : Loc) (t : ty)
    (left right : option expression) (ns : Namespace) : comp folded :=
  match both_literals left right with
  | Some (l, (_, r)) =>
      if decide (r = 0) then
        Ret (None, false, push_diag (Diag.error loc "divide by zero") ns)
      else Ret (Some (Ex.NumberLiteral loc t (bi_div l r)), true, ns)
  | None => Ret (None, true, ns)
  end.

(* [sema/eval.rs | 357-388 | eval_constants_in_expression] *)
Definition fold_modulo (loc : Loc) (t : ty)
    (left right : option expression) (ns : Namespace) : comp folded :=
  match both_literals left right with
  | Some (l, (_, r)) =>
      if decide (r = 0) then
        Ret (None, false, push_diag (Diag.error loc "divide by zero") ns)
      else Ret (Some (Ex.NumberLiteral loc t (bi_rem l r)), true, ns)
  | None => Ret (None, true, ns)
  end.

(* [sema/eval.rs | 389-421 | eval_constants_in_expression] *)
Definition fold_power (loc : Loc) (t : ty)
    (base exp : option expression) (ns : Namespace) : comp folded :=
  match both_literals base exp with
  | Some (l, (right_loc, r)) =>
      o ← overflow_check r (Ty.Uint 16) right_loc;
      match o with
      | Some _ =>
          Ret (None, false, push_diag (Diag.error right_loc
                              ("power by " +:+ pretty r +:+ " is not possible")) ns)
      | None =>
          e ← unwrap (bi_to_u16 r);
          Ret (Some (Ex.NumberLiteral loc t (bi_pow l e)), true, ns)
      end
  | None => Ret (None, true, ns)
  end.

(* [sema/eval.rs | 422-467 | eval_constants_in_expression] *)
Definition fold_shift_left (loc : Loc) (t : ty)
    (left right : option expression) (ns : Namespace) : comp folded :=
  match both_literals left right with
  | Some (l, (right_loc, r)) =>
      o ← overflow_check r (Ty.Uint 64) right_loc;
      match o with
      | Some _ =>
          Ret (None, false, push_diag (Diag.error right_loc
                              ("left shift by " +:+ pretty r +:+ " is not possible")) ns)
      | None =>
          let ns :=
            if bi_bits l <=? r then
              push_diag (Diag.warning right_loc
                ("left shift by " +:+ pretty r +:+ " may overflow the final result")) ns
            else ns in
          n ← unwrap (bi_to_u64 r);
          Ret (Some (Ex.NumberLiteral loc t (bi_shl l n)), true, ns)
      end
  | None => Ret (None, true, ns)
  end.

(* [sema/eval.rs | 468-505 | eval_constants_in_expression] *)
Definition fold_shift_right (loc : Loc) (t : ty)
    (left right : option expression) (ns : Namespace) : comp folded :=
  match both_literals left right with
  | Some (l, (right_loc, r)) =>
      o ← overflow_check r (Ty.Uint 64) right_loc;
      match o with
      | Some _ =>
          Ret (None, false, push_diag (Diag.error right_loc
                              ("right shift by " +:+ pretty r +:+ " is not possible")) ns)
      | None =>
          n ← unwrap (bi_to_u64 r);
          Ret (Some (Ex.NumberLiteral loc t (bi_shr l n)), true, ns)
      end
  | None => Ret (None, true, ns)
  end.

(* [sema/eval.rs | 584-599 | eval_constants_in_expression] *)
Definition fold_zero_ext (loc : Loc) (to : ty) (expr : option expression) (ns : Namespace)
    : comp folded :=
  match expr with
  | Some (Ex.NumberLiteral _ _ value) => Ret (Some (Ex.NumberLiteral loc to value), true, ns)
  | _ => Ret (None, true, ns)
  end.

(* [sema/eval.rs | fn eval_constants_in_expression] *)
Fixpoint eval_constants_in_expression (expr : expression) (ns : Namespace) : comp folded :=
  (** [left] and [right] are folded in turn; only the flag of this level is returned. *)
  let binary (arm : option expression → option expression → Namespace → comp folded)
             el er :=
    l ← eval_constants_in_expression el ns;
    r ← eval_constants_in_expression er l.2;
    arm l.1.1 r.1.1 r.2 in
  match expr with
  | Ex.Add loc t el er => binary (fold_total Z.add loc t) el er
  | Ex.Subtract loc t el er => binary (fold_subtract loc t) el er
  | Ex.Multiply loc t el er => binary (fold_multiply loc t) el er
  | Ex.Divide loc t el er => binary (fold_divide loc t) el er
  | Ex.Modulo loc t el er => binary (fold_modulo loc t) el er
  | Ex.Power loc t base exp => binary (fold_power loc t) base exp
  | Ex.ShiftLeft loc t el er => binary (fold_shift_left loc t) el er
  | Ex.ShiftRight loc t el er => binary (fold_shift_right loc t) el er
  | Ex.BitwiseAnd loc t el er => binary (fold_bitwise_and loc t) el er
  | Ex.BitwiseOr loc t el er => binary (fold_bitwise_or loc t) el er
  | Ex.BitwiseXor loc t el er => binary (fold_bitwise_xor loc t) el er
  | Ex.ZeroExt loc to e =>
      r ← eval_constants_in_expression e ns;
      fold_zero_ext loc to r.1.1 r.2
  | Ex.NumberLiteral _ _ _ => Ret (Some expr, true, ns)
  | _ => Ret (None, true, ns)
  end.

(* [sema/eval.rs | pub(super) fn check_term_for_constant_overflow] *)
Definition check_term_for_constant_overflow (expr : expression) (ns : Namespace)
    : comp (bool * Namespace) :=
  match expr with
  | Ex.Add _ _ _ _ | Ex.Subtract _ _ _ _ | Ex.Multiply _ _ _ _ | Ex.Divide _ _ _ _
  | Ex.Modulo _ _ _ _ | Ex.Power _ _ _ _ | Ex.ShiftLeft _ _ _ _ | Ex.ShiftRight _ _ _ _
  | Ex.BitwiseAnd _ _ _ _ | Ex.BitwiseOr _ _ _ _ | Ex.BitwiseXor _ _ _ _
  | Ex.NumberLiteral _ _ _ =>
      r ← eval_constants_in_expression expr ns;
      match r with
      | (Some (Ex.NumberLiteral loc t result), _, ns) =>
          o ← overflow_check result t loc;
          match o with
          | Some diagnostic => Ret (false, push_diag diagnostic ns)
          | None => Ret (false, ns)
          end
      | (None, false, ns) => Ret (false, ns)
      | (_, _, ns) => Ret (true, ns)
      end
  | _ => Ret (true, ns)
  end.

(** * Reference semantics of constant expressions *)

Inductive const_value (ns : Namespace) : expression → Z → Prop :=
  | cv_literal loc t v : const_value ns (Ex.NumberLiteral loc t v) v
  | cv_add loc t el er l r :
      const_value ns el l → const_value ns er r → const_value ns (Ex.Add loc t el er) (l + r)
  | cv_subtract loc t el er l r :
      const_value ns el l → const_value ns er r → const_value ns (Ex.Subtract loc t el er) (l - r)
  | cv_multiply loc t el er l r :
      const_value ns el l → const_value ns er r → const_value ns (Ex.Multiply loc t el er) (l * r)
  | cv_divide loc t el er l r :
      const_value ns el l → const_value ns er r → r ≠ 0 →
      const_value ns (Ex.Divide loc t el er) (Z.quot l r)
  | cv_modulo loc t el er l r :
      const_value ns el l → const_value ns er r → r ≠ 0 →
      const_value ns (Ex.Modulo loc t el er) (Z.rem l r)
  | cv_and loc t el er l r :
      const_value ns el l → const_value ns er r →
      const_value ns (Ex.BitwiseAnd loc t el er) (Z.land l r)
  | cv_or loc t el er l r :
      const_value ns el l → const_value ns er r →
      const_value ns (Ex.BitwiseOr loc t el er) (Z.lor l r)
  | cv_xor loc t el er l r :
      const_value ns el l → const_value ns er r →
      const_value ns (Ex.BitwiseXor loc t el er) (Z.lxor l r)
  | cv_power loc t eb ee b e :
      const_value ns eb b → const_value ns ee e → 0 ≤ e →
      const_value ns (Ex.Power loc t eb ee) (b ^ e)
  | cv_shift_left loc t el er l r :
      const_value ns el l → const_value ns er r → 0 ≤ r < 2 ^ 64 →
      const_value ns (Ex.ShiftLeft loc t el er) (l * 2 ^ r)
  | cv_shift_right loc t el er l r :
      const_value ns el l → const_value ns er r → 0 ≤ r < 2 ^ 64 →
      const_value ns (Ex.ShiftRight loc t el er) (l / 2 ^ r)
  | cv_zero_ext loc t e v : const_value ns e v → const_value ns (Ex.ZeroExt loc t e) v
  | cv_cast loc t e v : const_value ns e v → const_value ns (Ex.Cast loc t e) v
  | cv_not loc e v : const_value ns e v → const_value ns (Ex.Not loc e) (- v - 1)
  | cv_bitwise_not loc t e v :
      const_value ns e v → const_value ns (Ex.BitwiseNot loc t e) (- v - 1)
  | cv_constant loc t c n init v :
      constant_initializer ns c n = Ret (Some init) → const_value ns init v →
      const_value ns (Ex.ConstantVariable loc t c n) v.

(** The multiplication loop computes the power. *)
Lemma power_loop_pow n b res e :
  0 ≤ e < Z.of_nat n → power_loop n b res e = Ret (res * b ^ e).
Proof.
  revert res e. induction n as [|n IH]; intros res e He; cbn; [lia|].
  case_match eqn:Hlt.
  - apply Z.ltb_lt in Hlt. rewrite IH by lia. f_equal.
    replace e with (Z.succ (e - 1)) at 2 by lia. rewrite Z.pow_succ_r by lia. ring.
  - apply Z.ltb_ge in Hlt. replace e with 0 by lia. by rewrite Z.mul_1_r.
Qed.

Lemma eval_power_spec loc b e d :
  0 ≤ e → eval_power loc b e d = Ret (Some (loc, b ^ e), d).
Proof.
  intros He. unfold eval_power. destruct (e <? 0) eqn:?; [lia|].
  destruct (e =? 0) eqn:?; [by replace e with 0 by lia|].
  erewrite sema_bind_run; [done|]. unfold sema_lift.
  rewrite power_loop_pow by lia. cbn. do 3 f_equal.
  replace e with (Z.succ (e - 1)) at 2 by lia. by rewrite Z.pow_succ_r by lia.
Qed.

Lemma eval_power_neg loc b e d x d' :
  eval_power loc b e d = Ret (Some x, d') → 0 ≤ e.
Proof. unfold eval_power. destruct (e <? 0) eqn:?; [done|lia]. Qed.

(** Inverts a successful [sema] computation. *)
Ltac sema_inv :=
  repeat match goal with
  | H : (_ ≫= _) _ = Ret (Some _, _) |- _ =>
      apply sema_bind_Some in H as (? & ? & ? & ?)
  | H : mret _ _ = Ret (Some _, _) |- _ =>
      unfold mret, sema_ret in H; simplify_eq
  | H : sema_fail _ _ = Ret (Some _, _) |- _ => discriminate H
  | H : sema_err _ = Ret (Some _, _) |- _ => discriminate H
  | H : sema_lift _ _ = Ret (Some _, _) |- _ => unfold sema_lift in H; comp_inv
  end.

(** What is computed is the value of the reference semantics, and a success
    reports nothing. *)
Lemma eval_const_number_sound fuel e ns d l v d' :
  eval_const_number fuel e ns d = Ret (Some (l, v), d') → const_value ns e v ∧ d' = d.
Proof.
  revert e d l v d'. induction fuel as [|fuel IH]; intros e d l v d' H; [done|].
  assert (IH' : ∀ e d x d', eval_const_number fuel e ns d = Ret (Some x, d') →
    const_value ns e x.2 ∧ d' = d) by (intros ?? [??] ??; by eapply IH).
  destruct e; cbn in H; sema_inv;
    repeat match goal with
    | H : eval_const_number _ _ _ _ = Ret (Some _, _) |- _ => apply IH' in H as [? ->]
    end; try (split; [by constructor|done]).
  all: repeat (case_decide; sema_inv;
    repeat match goal with
    | H : eval_const_number _ _ _ _ = Ret (Some _, _) |- _ => apply IH' in H as [? ->]
    end).
  - split; [|done]. rewrite bi_div_spec by done. by constructor.
  - split; [|done]. rewrite bi_rem_spec by done. by constructor.
  - match goal with H : eval_power _ _ _ _ = _ |- _ =>
      pose proof (eval_power_neg _ _ _ _ _ _ H) as He; rewrite eval_power_spec in H by done end.
    simplify_eq. split; [by constructor|done].
  - split; [|done]. rewrite bi_or_spec. by constructor.
  - split; [|done]. rewrite bi_and_spec. by constructor.
  - split; [|done]. rewrite bi_xor_spec. by constructor.
  - unfold eval_shift_left in *. rewrite bi_to_u64_spec in *. case_decide; sema_inv.
    split; [|done]. rewrite bi_shl_spec by lia. by constructor.
  - unfold eval_shift_right in *. rewrite bi_to_u64_spec in *. case_decide; sema_inv.
    split; [|done]. rewrite bi_shr_spec by lia. by constructor.
  - destruct x as [init|]; sema_inv. apply IH' in H0 as [Hv ->]. split; [|done].
    by econstructor.
  - split; [|done]. rewrite bi_not_spec. by constructor.
  - split; [|done]. rewrite bi_not_spec. by constructor.
Qed.

(** [e] evaluates to [v] with every fuel from some point on, reporting nothing. *)
Definition computes (ns : Namespace) (e : expression) (v : Z) : Prop :=
  ∃ n, ∀ fuel d, (n ≤ fuel)%nat → ∃ l, eval_const_number fuel e ns d = Ret (Some (l, v), d).

(** The same of a continuation: its result, whatever the fuel above [n]. *)
Definition runs (m : nat → sema (Loc * Z)) (r : Loc * Z) : Prop :=
  ∃ n, ∀ fuel d, (n ≤ fuel)%nat → m fuel d = Ret (Some r, d).

Lemma computes_step ns e l v :
  runs (λ fuel, eval_const_number (S fuel) e ns) (l, v) → computes ns e v.
Proof.
  intros [n Hn]. exists (S n). intros [|fuel] d Hle; [lia|]. exists l. apply Hn. lia.
Qed.

Lemma runs_ret r : runs (λ _, mret r) r.
Proof. by exists 0%nat. Qed.

Lemma runs_bind ns e v r (f : nat → Loc * Z → sema (Loc * Z)) :
  computes ns e v → (∀ l, runs (λ fuel, f fuel (l, v)) r) →
  (∀ l l' fuel, f fuel (l, v) = f fuel (l', v)) →
  runs (λ fuel, eval_const_number fuel e ns ≫= f fuel) r.
Proof.
  intros [n Hn] Hf Hl. destruct (Hf Builtin) as [m Hm]. exists (n `max` m)%nat.
  intros fuel d Hle. destruct (Hn fuel d) as [l Hr]; [lia|].
  rewrite (sema_bind_run _ _ _ _ _ Hr), (Hl l Builtin). apply Hm. lia.
Qed.

Lemma runs_direct (m : sema (Loc * Z)) r : (∀ d, m d = Ret (Some r, d)) → runs (λ _, m) r.
Proof. intros Hm. exists 0%nat. intros; apply Hm. Qed.

(** Every value of the reference semantics is computed, given enough fuel. *)
Lemma eval_const_number_complete ns e v : const_value ns e v → computes ns e v.
Proof.
  induction 1;
    match goal with
    | |- computes _ (Ex.ConstantVariable _ _ _ _) _ => idtac
    | _ => apply (computes_step _ _ loc); cbn [eval_const_number]
    end.
  all: repeat (eapply runs_bind; [eassumption|intros ?|done]; cbn [snd];
               try (destruct (decide (r = 0)) as [|_]; [done|])).
  all: apply runs_direct || idtac.
  all: try (intros d; rewrite ?bi_and_spec, ?bi_or_spec, ?bi_xor_spec, ?bi_not_spec,
             ?bi_div_spec, ?bi_rem_spec by done; done).
  - intros d. by apply eval_power_spec.
  - intros d. unfold eval_shift_left. rewrite bi_to_u64_spec, decide_True by done.
    by rewrite bi_shl_spec by lia.
  - intros d. unfold eval_shift_right. rewrite bi_to_u64_spec, decide_True by done.
    by rewrite bi_shr_spec by lia.
  - destruct IHconst_value as [m Hm]. exists (S m). intros [|fuel] d Hle; [lia|].
    destruct (Hm fuel d) as [l Hl]; [lia|]. exists l. cbn [eval_const_number].
    erewrite sema_bind_run; [|unfold sema_lift; by rewrite H]. done.
Qed.

(** C26: Evaluation of a constant expression to a number is sound and complete
    for the mathematical value of the expression: whatever it returns is the
    value, with the diagnostics unchanged, and every expression that has a
    value is evaluated to it with enough fuel. *)
Theorem eval_const_number_correct ns e :
  (∀ fuel d l v d', eval_const_number fuel e ns d = Ret (Some (l, v), d') →
    const_value ns e v ∧ d' = d) ∧
  (∀ v, const_value ns e v →
    ∃ n, ∀ fuel d, (n ≤ fuel)%nat →
      ∃ l, eval_const_number fuel e ns d = Ret (Some (l, v), d)).
Proof.
  split; [intros; by eapply eval_const_number_sound|apply eval_const_number_complete].
Qed.

(** ** Errors *)

(** The constant variables that the evaluation of an expression reads. *)
Fixpoint const_refs (e : expression) : list (option nat * nat) :=
  match e with
  | Ex.Add _ _ l r | Ex.Subtract _ _ l r | Ex.Multiply _ _ l r | Ex.Divide _ _ l r | Ex.Modulo _ _ l r
  | Ex.Power _ _ l r | Ex.BitwiseOr _ _ l r | Ex.BitwiseAnd _ _ l r | Ex.BitwiseXor _ _ l r
  | Ex.ShiftLeft _ _ l r | Ex.ShiftRight _ _ l r => const_refs l ++ const_refs r
  | Ex.ZeroExt _ _ e | Ex.Not _ e | Ex.BitwiseNot _ _ e | Ex.Cast _ _ e => const_refs e
  | Ex.ConstantVariable _ _ c n => [(c, n)]
  | _ => []
  end.

(** A variable of a contract that is constant, or a global one. *)
Definition constant_at (ns : Namespace) (contract_no : option nat) (var_no : nat) : Prop :=
  match contract_no with
  | Some c => ∃ k v, contracts ns !! c = Some k ∧ variables k !! var_no = Some v ∧ v_constant v = true
  | None => True
  end.

(** Every constant variable has its initializer ("we should have errored about
    this already"), made of constants. *)
Record initialized (ns : Namespace) : Prop := {
  i_has c n : constant_at ns c n → constant_initializer ns c n ≠ Ret None;
  i_refs c n e : constant_at ns c n → constant_initializer ns c n = Ret (Some e) →
    ∀ x, x ∈ const_refs e → constant_at ns x.1 x.2;
}.

Lemma push_error_has_error d x : diag_level x = Error_ → has_error (Diags.push d x) = true.
Proof. unfold Diags.push. by intros ->. Qed.

Lemma sema_bind_None {A B} (m : sema A) (f : A → sema B) d d' :
  (m ≫= f) d = Ret (None, d') →
  m d = Ret (None, d') ∨ ∃ a d1, m d = Ret (Some a, d1) ∧ f a d1 = Ret (None, d').
Proof.
  unfold mbind, sema_bind. rewrite bind_Ret. intros ([[a|] d1] & Hm & Hf); cbn in *.
  - right. by exists a, d1.
  - left. by simplify_eq.
Qed.

Ltac sema_none :=
  repeat match goal with
  | H : (_ ≫= _) _ = Ret (None, _) |- _ =>
      apply sema_bind_None in H as [H|(? & ? & ? & H)]
  | H : mret _ _ = Ret (None, _) |- _ => discriminate H
  | H : sema_fail _ _ = Ret (None, _) |- _ =>
      unfold sema_fail in H; simplify_eq
  | H : sema_lift _ _ = Ret (None, _) |- _ => unfold sema_lift in H; comp_inv
  end.

Ltac eval_part IH Hr := eapply IH; [|eassumption]; intros; apply Hr; cbn; set_solver.

(** When evaluation of a constant expression gives no number, an error
    diagnostic has been recorded, provided every constant variable has its
    initializer. *)
Theorem eval_const_number_error fuel e ns d d' :
  initialized ns → (∀ x, x ∈ const_refs e → constant_at ns x.1 x.2) →
  eval_const_number fuel e ns d = Ret (None, d') → Diags.any_errors d' = true.
Proof.
  intros Hinit. revert e d. induction fuel as [|fuel IH]; intros e d Hr H; [done|].
  destruct e; cbn in H; sema_none; try (eval_part IH Hr); try (by apply push_error_has_error).
  all: repeat (case_decide; sema_none); try (eval_part IH Hr); try (by apply push_error_has_error).
  - unfold eval_power in H. repeat (case_match; sema_none). by apply push_error_has_error.
  - unfold eval_shift_left in H. repeat (case_match; sema_none). by apply push_error_has_error.
  - unfold eval_shift_right in H. repeat (case_match; sema_none). by apply push_error_has_error.
  - assert (Hc : constant_at ns contract_no var_no) by (apply (Hr (contract_no, var_no)); by left).
    case_match; subst; unfold sema_lift in *; comp_inv; [eapply IH; [|done]; by eapply i_refs|exfalso; by eapply i_has].
Qed.

(** ** Folding *)

Lemma overflow_check_uint v n loc :
  0 ≤ n → overflow_check v (Ty.Uint n) loc = Ret None ↔ 0 ≤ v < 2 ^ n.
Proof.
  intros Hn. unfold overflow_check. cbn.
  pose proof (bi_bits_spec v n Hn). pose proof (bi_bits_gt v n Hn).
  destruct (v <? 0) eqn:?; [split; [done|lia]|].
  destruct (n <? bi_bits v) eqn:?; cbn; (split; [|try done]); intros; try done; lia.
Qed.

(** The flag of a list tells whether it has an error. *)
Definition is_error (x : Diagnostic) : bool := is_error_level (diag_level x).
Definition counted (d : Diagnostics) : Prop := has_error d = existsb is_error (contents d).
(** More diagnostics at the end. *)
Definition grown (d d' : Diagnostics) : Prop := contents d `prefix_of` contents d' ∧ (counted d → counted d').
#[global] Instance grown_pre : PreOrder grown.
Proof. split; [by intros d; split|]. intros d1 d2 d3 [? ?] [? ?]. split; [by etrans|auto]. Qed.
Lemma grown_push d x : grown d (Diags.push d x).
Proof.
  split; cbn; [by eexists|]. unfold counted. cbn. rewrite existsb_app. intros <-. cbn. unfold is_error.
  by destruct (is_error_level _), (has_error d).
Qed.
Lemma grown_extend d e : counted e → grown d (Diags.extend d e).
Proof. intros He. split; cbn; [by eexists|]. unfold counted in *. cbn. rewrite existsb_app. by intros <-; rewrite <-He. Qed.
Lemma grown_non_casting d e : grown d (Diags.extend_non_casting d e).2.
Proof.
  unfold Diags.extend_non_casting. destruct (filter _ _) as [|x l]; [done|]. split; [by eexists|].
  unfold counted. cbn. rewrite existsb_app. by intros <-.
Qed.

(** The namespace after folding differs in its diagnostics only, with more of them. *)
Definition same_tables (ns ns' : Namespace) : Prop :=
  set_diagnostics Diags.empty ns = set_diagnostics Diags.empty ns' ∧ grown (diagnostics ns) (diagnostics ns').

#[export] Instance same_tables_pre : PreOrder same_tables.
Proof. unfold same_tables. split; [by intros ?|]. intros ??? [-> ?] [-> ?]. split; [done|by etrans]. Qed.

Lemma same_tables_push d ns : same_tables ns (push_diag d ns).
Proof. split; [done|apply grown_push]. Qed.

Lemma const_value_tables ns ns' e v :
  same_tables ns ns' → const_value ns' e v → const_value ns e v.
Proof.
  intros [Hs _]. pose proof (f_equal contracts Hs) as Hc. pose proof (f_equal constants Hs) as Hk. cbn in Hc, Hk.
  induction 1; try (by constructor).
  eapply cv_constant; [|done]. unfold constant_initializer in *. by rewrite Hc, Hk.
Qed.

(** The outcome of folding [e] from [ns]. *)
Definition fold_ok (ns : Namespace) (e : expression) (r : folded) : Prop :=
  same_tables ns r.2 ∧
  (∀ e', r.1.1 = Some e' → r.1.2 = true ∧
    ∃ t v, e' = Ex.NumberLiteral (Ex.loc e) t v ∧ Ex.ty_of e = Ret t ∧ const_value ns e v) ∧
  (r.1.2 = false → Diags.any_errors (diagnostics r.2) = true).

Lemma both_literals_Some left right l rloc r :
  both_literals left right = Some (l, (rloc, r)) →
  ∃ ll lt rt, left = Some (Ex.NumberLiteral ll lt l) ∧ right = Some (Ex.NumberLiteral rloc rt r).
Proof. destruct left as [[]|], right as [[]|]; cbn; naive_solver. Qed.

Lemma fold_ok_none ns ns' e : same_tables ns ns' → fold_ok ns e (None, true, ns').
Proof. by intros; split. Qed.

Lemma fold_ok_err ns ns' e d :
  same_tables ns ns' → diag_level d = Error_ → fold_ok ns e (None, false, push_diag d ns').
Proof.
  intros Hs Hd. split_and!; [etrans; [exact Hs|apply same_tables_push]|done|]. intros _. by apply push_error_has_error.
Qed.

(** Folding never panics: the narrowing conversions are guarded by the
    overflow check of their target width. *)
Lemma binary_ok ns e el er arm :
  (∀ ns, ∃ r, eval_constants_in_expression el ns = Ret r ∧ fold_ok ns el r) →
  (∀ ns, ∃ r, eval_constants_in_expression er ns = Ret r ∧ fold_ok ns er r) →
  (∀ left right ns', same_tables ns ns' →
    (both_literals left right = None ∧ arm left right ns' = Ret (None, true, ns')) ∨
    ∃ l rloc r, both_literals left right = Some (l, (rloc, r)) ∧
      (const_value ns el l → const_value ns er r →
       ∃ x, arm left right ns' = Ret x ∧ fold_ok ns e x)) →
  ∃ r, (l ← eval_constants_in_expression el ns;
        r ← eval_constants_in_expression er l.2;
        arm l.1.1 r.1.1 r.2) = Ret r ∧ fold_ok ns e r.
Proof.
  intros Hl Hr Harm. destruct (Hl ns) as ([[l lb] ns1] & -> & Hlt & Hlv & _). cbn in *.
  destruct (Hr ns1) as ([[r rb] ns2] & -> & Hrt & Hrv & _). cbn in *.
  assert (same_tables ns ns2) by (by etrans).
  destruct (Harm l r ns2) as [[_ ->]|(lv & rloc & rv & Hb & Hx)]; [done| |].
  - eexists. split; [done|]. by apply fold_ok_none.
  - apply both_literals_Some in Hb as (ll & lt & rt & -> & ->).
    destruct (Hlv _ eq_refl) as (_ & ? & ? & [= -> <- <-] & _ & ?).
    destruct (Hrv _ eq_refl) as (_ & ? & ? & [= -> <- <-] & _ & ?).
    apply Hx; [done|]. by apply (const_value_tables ns ns1).
Qed.

Lemma fold_ok_literal ns ns' e loc t v :
  same_tables ns ns' → Ex.ty_of e = Ret t ∧ Ex.loc e = loc → const_value ns e v →
  fold_ok ns e (Some (Ex.NumberLiteral loc t v), true, ns').
Proof. intros ? [? <-] ?. split_and!; [done| |done]. cbn. intros ? [= <-]. eauto 10. Qed.

(** Closes the arm of an operator: the literals are destructed, and a result
    with both is a literal of the operator's type. *)
Ltac fold_arm :=
  match goal with |- context [both_literals ?l ?r] =>
    destruct (both_literals l r) as [[lv [rloc rv]]|] eqn:?; [right|by left] end;
  eexists _, _, _; split; [done|]; intros Hl Hr.

Ltac fold_lit := eexists; split; [done|]; apply fold_ok_literal; [done|done|].

Lemma overflow_check_uint_cases v n loc :
  0 ≤ n → (0 ≤ v < 2 ^ n ∧ overflow_check v (Ty.Uint n) loc = Ret None) ∨
          (¬ (0 ≤ v < 2 ^ n) ∧
           ∃ d, overflow_check v (Ty.Uint n) loc = Ret (Some d) ∧ diag_level d = Error_).
Proof.
  intros Hn. pose proof (overflow_check_uint v n loc Hn) as Hc.
  destruct (decide (0 ≤ v < 2 ^ n)) as [Hv|Hv]; [left; split; [done|by apply Hc]|].
  right. split; [done|]. unfold overflow_check in *. cbn in *.
  repeat case_match; cbn in *; try (by eexists). exfalso. by apply Hv, Hc.
Qed.

Lemma eval_constants_ok e ns :
  ∃ r, eval_constants_in_expression e ns = Ret r ∧ fold_ok ns e r.
Proof.
  revert ns. induction e; intros ns; cbn [eval_constants_in_expression];
    try (eexists; split; [done|]; by apply fold_ok_none).
  { eexists; split; [done|]. apply fold_ok_literal; [done|done|constructor]. }
  all: try (apply binary_ok; [done|done|]; intros le re ns' Hs;
    unfold fold_subtract, fold_multiply, fold_bitwise_and, fold_bitwise_or,
      fold_bitwise_xor, fold_total, fold_divide, fold_modulo, fold_power,
      fold_shift_left, fold_shift_right; fold_arm).
  - fold_lit. by constructor.
  - fold_lit. by constructor.
  - fold_lit. by constructor.
  - case_decide; [eexists; split; [done|by apply fold_ok_err]|].
    fold_lit. rewrite bi_div_spec by done. by constructor.
  - case_decide; [eexists; split; [done|by apply fold_ok_err]|].
    fold_lit. rewrite bi_rem_spec by done. by constructor.
  - destruct (overflow_check_uint_cases rv 16 rloc) as [[Hv ->]|(_ & d & -> & _)]; [done| |];
      cbn; [|eexists; split; [done|by apply fold_ok_err]].
    rewrite bi_to_u16_spec, decide_True by done. cbn. fold_lit.
    rewrite bi_pow_spec by lia. constructor; [done|done|lia].
  - fold_lit. rewrite bi_or_spec. by constructor.
  - fold_lit. rewrite bi_and_spec. by constructor.
  - fold_lit. rewrite bi_xor_spec. by constructor.
  - destruct (overflow_check_uint_cases rv 64 rloc) as [[Hv ->]|(_ & d & -> & _)]; [done| |];
      cbn; [|eexists; split; [done|by apply fold_ok_err]].
    rewrite bi_to_u64_spec, decide_True by done. cbn.
    rewrite bi_shl_spec by lia. eexists; split; [done|].
    apply fold_ok_literal; [case_match; [etrans; [exact Hs|apply same_tables_push]|done]|done|by constructor].
  - destruct (overflow_check_uint_cases rv 64 rloc) as [[Hv ->]|(_ & d & -> & _)]; [done| |];
      cbn; [|eexists; split; [done|by apply fold_ok_err]].
    rewrite bi_to_u64_spec, decide_True by done. cbn.
    rewrite bi_shr_spec by lia. fold_lit. by constructor.
  - destruct (IHe ns) as ([[o b] ns1] & -> & Hs & Hv & _). cbn in *.
    assert (fold_ok ns (Ex.ZeroExt loc to e) (None, true, ns1)) by (by apply fold_ok_none).
    destruct o as [x|]; cbn; [|by eexists].
    destruct (Hv x eq_refl) as (_ & ? & v & -> & _ & ?). cbn. fold_lit. by constructor.
Qed.

(** C27: Constant folding of an expression always returns; when it folds, the
    result is a literal of the expression's own location and type whose value
    is the one eval_const_number computes, and when it reports failure it
    gives no literal and an error has been recorded. *)
Theorem eval_constants_in_expression_correct e ns :
  ∃ o b ns', eval_constants_in_expression e ns = Ret (o, b, ns') ∧
    (∀ e', o = Some e' →
      b = true ∧ ∃ t v, e' = Ex.NumberLiteral (Ex.loc e) t v ∧ Ex.ty_of e = Ret t ∧
        ∃ n, ∀ fuel d, (n ≤ fuel)%nat →
          ∃ l, eval_const_number fuel e ns d = Ret (Some (l, v), d)) ∧
    (b = false → o = None ∧ Diags.any_errors (diagnostics ns') = true).
Proof.
  destruct (eval_constants_ok e ns) as ([[o b] ns'] & Hr & _ & Hv & Hb). cbn in *.
  exists o, b, ns'. split_and!; [done| |].
  - intros e' He. destruct (Hv e' He) as (? & t & v & ? & ? & Hc).
    split; [done|]. exists t, v. split_and!; [done|done|].
    by apply eval_const_number_complete.
  - intros Hf. split; [|auto]. destruct o as [x|]; [|done].
    destruct (Hv x eq_refl) as [? _]. congruence.
Qed.

(** The expressions which [check_term_for_constant_overflow] folds. *)
Definition foldable (e : expression) : bool :=
  match e with
  | Ex.Add _ _ _ _ | Ex.Subtract _ _ _ _ | Ex.Multiply _ _ _ _ | Ex.Divide _ _ _ _
  | Ex.Modulo _ _ _ _ | Ex.Power _ _ _ _ | Ex.ShiftLeft _ _ _ _ | Ex.ShiftRight _ _ _ _
  | Ex.BitwiseAnd _ _ _ _ | Ex.BitwiseOr _ _ _ _ | Ex.BitwiseXor _ _ _ _
  | Ex.NumberLiteral _ _ _ => true
  | _ => false
  end.

Lemma check_term_folds e ns loc t v b ns1 :
  foldable e = true →
  eval_constants_in_expression e ns = Ret (Some (Ex.NumberLiteral loc t v), b, ns1) →
  check_term_for_constant_overflow e ns =
    (o ← overflow_check v t loc;
     match o with
     | Some diagnostic => Ret (false, push_diag diagnostic ns1)
     | None => Ret (false, ns1)
     end).
Proof. intros Hf Hr. unfold check_term_for_constant_overflow. rewrite Hr. by destruct e. Qed.

Lemma overflow_check_loc v n loc d :
  overflow_check v (Ty.Uint n) loc = Ret (Some d) → diag_loc d = loc ∧ diag_level d = Error_.
Proof. unfold overflow_check. cbn. repeat case_match; intros; by simplify_eq. Qed.

(** Checking a foldable unsigned expression evaluates it to its mathematical
    value; the namespace gets an error at the expression's location exactly
    when the value is not in range of the type's bits, and is otherwise left
    as folding left it. *)
Theorem check_term_reports_overflow e ns bits e' b ns1 :
  foldable e = true → 0 ≤ bits → Ex.ty_of e = Ret (Ty.Uint bits) →
  eval_constants_in_expression e ns = Ret (Some e', b, ns1) →
  ∃ v ns2, const_value ns e v ∧
    check_term_for_constant_overflow e ns = Ret (false, ns2) ∧
    (0 ≤ v < 2 ^ bits → ns2 = ns1) ∧
    (¬ (0 ≤ v < 2 ^ bits) →
      ∃ d, ns2 = push_diag d ns1 ∧ diag_level d = Error_ ∧ diag_loc d = Ex.loc e).
Proof.
  intros Hf Hn Ht Hr. destruct (eval_constants_ok e ns) as (r & Hr' & _ & Hv & _).
  rewrite Hr in Hr'. simplify_eq. destruct (Hv e' eq_refl) as (_ & t & v & -> & Ht' & Hc).
  rewrite Ht in Ht'. simplify_eq. exists v.
  rewrite (check_term_folds _ _ _ _ _ _ _ Hf Hr).
  destruct (overflow_check_uint_cases v bits (Ex.loc e) Hn) as [[? ->]|(? & d & Hd & ?)].
  - eexists. split_and!; [done|done|done|done].
  - rewrite Hd. apply overflow_check_loc in Hd as [? ?].
    eexists. split_and!; [done|done|done|]. intros _. by exists d.
Qed.

(** Checking a field literal: negative values and values above the field order
    are reported and leave the rest alone, the values from 0 up to the order
    itself are accepted, and 2^64 or more panics. *)
Theorem field_literal_overflow loc v ns :
  check_term_for_constant_overflow (Ex.NumberLiteral loc Ty.Field v) ns =
    if 2 ^ 64 <=? v then Panic
    else if (v <? 0) || (FIELD_ORDER <? v) then
      (o ← overflow_check v Ty.Field loc; d ← unwrap o; Ret (false, push_diag d ns))
    else Ret (false, ns).
Proof.
  cbn. unfold overflow_check, FIELD_ORDER.
  destruct (Z.ltb_spec v 0) as [Hn|Hn]; cbn.
  - by rewrite (proj2 (Z.leb_gt _ _)) by lia.
  - rewrite bi_to_u64_spec. destruct (Z.leb_spec (2 ^ 64) v).
    + by rewrite decide_False by lia.
    + rewrite decide_True by lia. cbn. by destruct (_ <? v).
Qed.
End Eval.

(** ** Examples *)

Definition lit (v : Z) : expression := Ex.NumberLiteral Builtin (Ty.Uint 32) v.

(** [2 ** 5 - 3] *)
Definition twenty_nine : expression :=
  Ex.Subtract Builtin (Ty.Uint 32) (Ex.Power Builtin (Ty.Uint 32) (lit 2) (lit 5)) (lit 3).

Lemma eval_const_number_correct_witness :
  (∀ fuel d l v d', eval_const_number fuel twenty_nine empty_ns d = Ret (Some (l, v), d') →
     const_value empty_ns twenty_nine v ∧ d' = d)
  ∧ (∀ v, const_value empty_ns twenty_nine v →
     ∃ n, ∀ fuel d, (n ≤ fuel)%nat →
        ∃ l, eval_const_number fuel twenty_nine empty_ns d = Ret (Some (l, v), d)).
Proof. exact (eval_const_number_correct empty_ns twenty_nine). Defined.

(** [1 / 0] *)
Lemma eval_const_number_error_witness :
  ∃ d', eval_const_number 5 (Ex.Divide Builtin (Ty.Uint 32) (lit 1) (lit 0)) empty_ns Diags.empty
    = Ret (None, d') ∧ Diags.any_errors d' = true.
Proof.
  eexists. split; [vm_compute; reflexivity|].
  eapply (eval_const_number_error 5 (Ex.Divide Builtin (Ty.Uint 32) (lit 1) (lit 0)) empty_ns Diags.empty);
    [| |vm_compute; reflexivity].
  - split; intros [c|] n; [intros (k & v & Hk & _); by destruct c|by destruct n|
      intros e (k & v & Hk & _); by destruct c|by destruct n].
  - intros x Hx. inversion Hx.
Defined.

Lemma eval_constants_in_expression_correct_witness :
  ∃ o b ns', eval_constants_in_expression twenty_nine empty_ns = Ret (o, b, ns') ∧
      (∀ e', o = Some e' →
        b = true ∧ ∃ t v, e' = Ex.NumberLiteral (Ex.loc twenty_nine) t v
          ∧ Ex.ty_of twenty_nine = Ret t ∧
          ∃ n, ∀ fuel d, (n ≤ fuel)%nat →
            ∃ l, eval_const_number fuel twenty_nine empty_ns d = Ret (Some (l, v), d)) ∧
      (b = false → o = None ∧ Diags.any_errors (diagnostics ns') = true).
Proof. exact (eval_constants_in_expression_correct twenty_nine empty_ns). Defined.

Lemma check_term_reports_overflow_witness :
  let e := Ex.Subtract Builtin (Ty.Uint 32) (lit 3) (lit 5) in
  ∃ v ns2, const_value empty_ns e v ∧
      check_term_for_constant_overflow e empty_ns = Ret (false, ns2) ∧
      (0 ≤ v < 2 ^ 32 → ns2 = empty_ns) ∧
      (¬ (0 ≤ v < 2 ^ 32) →
        ∃ d, ns2 = push_diag d empty_ns ∧ diag_level d = Error_ ∧ diag_loc d = Ex.loc e).
Proof.
  eapply (check_term_reports_overflow _ empty_ns 32); [reflexivity|lia|reflexivity|].
  vm_compute. reflexivity.
Defined.

Lemma field_literal_overflow_witness :
  check_term_for_constant_overflow (Ex.NumberLiteral Builtin Ty.Field FIELD_ORDER) empty_ns
  = Ret (false, empty_ns)
  ∧ check_term_for_constant_overflow (Ex.NumberLiteral Builtin Ty.Field (2 ^ 64)) empty_ns = Panic.
Proof.
  split; [exact (field_literal_overflow Builtin FIELD_ORDER empty_ns)
         |exact (field_literal_overflow Builtin (2 ^ 64) empty_ns)].
Defined.
