(* ===== verification/Pt.v ===== *)
(** The parse tree (src/ola-parser/src/program.rs): what the parser hands to
    the resolution of names and types. *)
From S2P Require Import Prelude Ast.
#[local] Set Warnings "-register-all".

Module Pt.

(** ** Locations *)

(* [ola-parser/src/program.rs | pub fn begin_range] *)
Definition begin_range (l : Loc) : Loc :=
  match l with File_ f s _ => File_ f s s | l => l end.
(* [ola-parser/src/program.rs | pub fn end_range] *)
Definition end_range (l : Loc) : Loc :=
  match l with File_ f _ e => File_ f e e | l => l end.
(* [ola-parser/src/program.rs | pub fn file_no] *)
Definition file_no (l : Loc) : comp nat := match l with File_ f _ _ => Ret f | _ => Panic end.
(* [ola-parser/src/program.rs | pub fn try_file_no] *)
Definition try_file_no (l : Loc) : option nat := match l with File_ f _ _ => Some f | _ => None end.
(* [ola-parser/src/program.rs | pub fn start] *)
Definition start (l : Loc) : comp nat := match l with File_ _ s _ => Ret s | _ => Panic end.
(* [ola-parser/src/program.rs | pub fn end] *)
Definition end_ (l : Loc) : comp nat := match l with File_ _ _ e => Ret e | _ => Panic end.
(* [ola-parser/src/program.rs | pub fn use_end_from] *)
Definition use_end_from (l other : Loc) : comp Loc :=
  match l, other with File_ f s _, File_ _ _ e => Ret (File_ f s e) | _, _ => Panic end.
(* [ola-parser/src/program.rs | pub fn use_start_from] *)
Definition use_start_from (l other : Loc) : comp Loc :=
  match l, other with File_ f _ e, File_ _ s _ => Ret (File_ f s e) | _, _ => Panic end.

(* [ola-parser/src/program.rs | pub struct IdentifierPath] *)
Record IdentifierPath : Set := { ip_loc : Loc; identifiers : list Identifier }.
(* [ola-parser/src/program.rs | pub struct StringLiteral] *)
Record StringLiteral_ : Set := { sl_loc : Loc; sl_string : string }.

(** ** Expressions, types and statements *)

(* [ola-parser/src/program.rs | pub enum Expression] *)
Inductive Expression : Set :=
  | Increment (l : Loc) (e : Expression)
  | Decrement (l : Loc) (e : Expression)
  | New (l : Loc) (e : Expression)
  | ArraySubscript (l : Loc) (e : Expression) (index : option Expression)
  | ArraySlice (l : Loc) (e : Expression) (from to_ : option Expression)
  | Parenthesis (l : Loc) (e : Expression)
  | MemberAccess (l : Loc) (e : Expression) (id : Identifier)
  | FunctionCall (l : Loc) (e : Expression) (args : list Expression)
  | FunctionCallBlock (l : Loc) (e : Expression) (block : Statement)
  | NamedFunctionCall (l : Loc) (e : Expression) (args : list NamedArgument)
  | Not (l : Loc) (e : Expression)
  | BitwiseNot (l : Loc) (e : Expression)
  | Delete (l : Loc) (e : Expression)
  | Power (l : Loc) (a b : Expression)
  | Multiply (l : Loc) (a b : Expression)
  | Divide (l : Loc) (a b : Expression)
  | Modulo (l : Loc) (a b : Expression)
  | Add (l : Loc) (a b : Expression)
  | Subtract (l : Loc) (a b : Expression)
  | ShiftLeft (l : Loc) (a b : Expression)
  | ShiftRight (l : Loc) (a b : Expression)
  | BitwiseAnd (l : Loc) (a b : Expression)
  | BitwiseXor (l : Loc) (a b : Expression)
  | BitwiseOr (l : Loc) (a b : Expression)
  | Less (l : Loc) (a b : Expression)
  | More (l : Loc) (a b : Expression)
  | LessEqual (l : Loc) (a b : Expression)
  | MoreEqual (l : Loc) (a b : Expression)
  | Equal (l : Loc) (a b : Expression)
  | NotEqual (l : Loc) (a b : Expression)
  | And (l : Loc) (a b : Expression)
  | Or (l : Loc) (a b : Expression)
  | ConditionalOperator (l : Loc) (c a b : Expression)
  | Assign (l : Loc) (a b : Expression)
  | AssignOr (l : Loc) (a b : Expression)
  | AssignAnd (l : Loc) (a b : Expression)
  | AssignXor (l : Loc) (a b : Expression)
  | AssignShiftLeft (l : Loc) (a b : Expression)
  | AssignShiftRight (l : Loc) (a b : Expression)
  | AssignAdd (l : Loc) (a b : Expression)
  | AssignSubtract (l : Loc) (a b : Expression)
  | AssignMultiply (l : Loc) (a b : Expression)
  | AssignDivide (l : Loc) (a b : Expression)
  | AssignModulo (l : Loc) (a b : Expression)
  | BoolLiteral (l : Loc) (b : bool)
  | NumberLiteral (l : Loc) (s : string)
  | HexNumberLiteral (l : Loc) (s : string)
  | FieldsLiteral (l : Loc) (s : string)
  | StringLiteral (v : list StringLiteral_)
  | AddressLiteral (l : Loc) (s : string)
  | HashLiteral (l : Loc) (s : string)
  | Type_ (l : Loc) (t : PtType)
  | Variable_ (id : Identifier)
  | List_ (l : Loc) (ps : list (Loc * option Parameter_))
  | ArrayLiteral (l : Loc) (es : list Expression)
(* [ola-parser/src/program.rs | pub enum Type | Type] *)
with PtType : Set :=
  | TBool
  | TUint (n : Z)
  | TAddress
  | TString
  | TField
  | THash
  | TDynamicBytes
  | TMapping (l : Loc) (key : Expression) (key_name : option Identifier)
             (value : Expression) (value_name : option Identifier)
(* [ola-parser/src/program.rs | pub struct NamedArgument] *)
with NamedArgument : Set :=
  | mkNamedArgument (l : Loc) (name : Identifier) (expr : Expression)
(* [ola-parser/src/program.rs | pub struct Parameter] *)
with Parameter_ : Set :=
  | mkParameter (l : Loc) (t : Expression) (name : option Identifier)
(* [ola-parser/src/program.rs | pub struct VariableDeclaration] *)
with VariableDeclaration : Set :=
  | mkVariableDeclaration (l : Loc) (t : Expression) (storage : option StorageLocation) (name : option Identifier)
(* [ola-parser/src/program.rs | pub enum Statement] *)
with Statement : Set :=
  | Block (l : Loc) (statements : list Statement)
  | Args (l : Loc) (args : list NamedArgument)
  | If (l : Loc) (c : Expression) (then_ : Statement) (else_ : option Statement)
  | While (l : Loc) (c : Expression) (body : Statement)
  | Expression_ (l : Loc) (e : Expression)
  | VariableDefinition (l : Loc) (d : VariableDeclaration) (init : option Expression)
  | For (l : Loc) (init : option Statement) (cond next : option Expression) (body : option Statement)
  | DoWhile (l : Loc) (body : Statement) (c : Expression)
  | Continue (l : Loc)
  | Break (l : Loc)
  | Error_ (l : Loc)
  | Return_ (l : Loc) (e : option Expression).

Definition na_loc (a : NamedArgument) : Loc := match a with mkNamedArgument l _ _ => l end.
Definition na_name (a : NamedArgument) : Identifier := match a with mkNamedArgument _ n _ => n end.
Definition na_expr (a : NamedArgument) : Expression := match a with mkNamedArgument _ _ e => e end.
Definition pa_ty (p : Parameter_) : Expression := match p with mkParameter _ t _ => t end.
Definition pa_name (p : Parameter_) : option Identifier := match p with mkParameter _ _ n => n end.

(* [ola-parser/src/program.rs | impl CodeLocation for Expression] *)
Definition loc (e : Expression) : comp Loc :=
  match e with
  | Increment l _ | Decrement l _ | New l _ | Delete l _ | Parenthesis l _ | ArraySubscript l _ _
  | ArraySlice l _ _ _ | MemberAccess l _ _ | FunctionCall l _ _ | FunctionCallBlock l _ _
  | NamedFunctionCall l _ _ | Not l _ | BitwiseNot l _ | Power l _ _ | Multiply l _ _ | Divide l _ _
  | Modulo l _ _ | Add l _ _ | Subtract l _ _ | ShiftLeft l _ _ | ShiftRight l _ _ | BitwiseAnd l _ _
  | BitwiseXor l _ _ | BitwiseOr l _ _ | Less l _ _ | More l _ _ | LessEqual l _ _ | MoreEqual l _ _
  | Equal l _ _ | NotEqual l _ _ | And l _ _ | Or l _ _ | ConditionalOperator l _ _ _ | Assign l _ _
  | AssignOr l _ _ | AssignAnd l _ _ | AssignXor l _ _ | AssignShiftLeft l _ _ | AssignShiftRight l _ _
  | AssignAdd l _ _ | AssignSubtract l _ _ | AssignMultiply l _ _ | AssignDivide l _ _ | AssignModulo l _ _
  | BoolLiteral l _ | NumberLiteral l _ | HexNumberLiteral l _ | FieldsLiteral l _ | ArrayLiteral l _
  | List_ l _ | Type_ l _ | AddressLiteral l _ | HashLiteral l _ => Ret l
  | Variable_ id => Ret (id_loc id)
  | StringLiteral v => s ← unwrap (head v); Ret (sl_loc s)
  end.

(* [ola-parser/src/program.rs | impl CodeLocation for Statement] *)
Definition st_loc (s : Statement) : Loc :=
  match s with
  | Block l _ | Args l _ | If l _ _ _ | While l _ _ | Expression_ l _ | VariableDefinition l _ _
  | For l _ _ _ _ | DoWhile l _ _ | Continue l | Break l | Error_ l | Return_ l _ => l
  end.

(* [ola-parser/src/program.rs | pub fn remove_parenthesis] *)
Definition remove_parenthesis (e : Expression) : Expression :=
  match e with Parenthesis _ e => e | e => e end.

(** ** Declarations *)

(* [ola-parser/src/program.rs | pub enum Import] *)
Inductive Import : Set :=
  | Plain (s : StringLiteral_) (l : Loc)
  | GlobalSymbol (s : StringLiteral_) (id : Identifier) (l : Loc).
(* [ola-parser/src/program.rs | pub struct StructDefinition] *)
Record StructDefinition : Set := { sd_loc : Loc; sd_name : option Identifier; sd_fields : list VariableDeclaration }.
(* [ola-parser/src/program.rs | pub struct EnumDefinition] *)
Record EnumDefinition : Set := { ed_loc : Loc; ed_name : option Identifier; ed_values : list (option Identifier) }.
(* [ola-parser/src/program.rs | pub enum VariableAttribute] *)
Inductive VariableAttribute : Set := Constant (l : Loc) | Mutable (l : Loc).
(* [ola-parser/src/program.rs | pub struct VariableDefinition] *)
Record VariableDefinition_ : Set := {
  vd_loc : Loc; vd_ty : Expression; vd_attrs : list VariableAttribute; vd_name : option Identifier;
  vd_initializer : option Expression;
}.
(* [ola-parser/src/program.rs | pub struct TypeDefinition] *)
Record TypeDefinition : Set := { td_loc : Loc; td_name : Identifier; td_ty : Expression }.
(* [ola-parser/src/program.rs | pub struct FunctionDefinition] *)
Record FunctionDefinition : Set := {
  fd_loc : Loc; fd_name : option Identifier; fd_name_loc : Loc; fd_params : list (Loc * option Parameter_);
  fd_returns : list (Loc * option Parameter_); fd_body : option Statement;
}.
(* [ola-parser/src/program.rs | pub enum ContractPart] *)
Inductive ContractPart : Set :=
  | PStruct (d : StructDefinition)
  | PEnum (d : EnumDefinition)
  | PVariable (d : VariableDefinition_)
  | PFunction (d : FunctionDefinition)
  | PType (d : TypeDefinition)
  | StraySemicolon (l : Loc).
(* [ola-parser/src/program.rs | pub struct ContractDefinition] *)
Record ContractDefinition : Set := {
  cd_loc : Loc; cd_ty : ContractTy; cd_name : option Identifier; cd_parts : list ContractPart;
}.
(* [ola-parser/src/program.rs | pub enum SourceUnitPart] *)
Inductive SourceUnitPart : Set :=
  | PContract (d : ContractDefinition)
  | PImport (i : Import).
(* [ola-parser/src/program.rs | 113-114 | SourceUnit] *)
Definition SourceUnit : Set := list SourceUnitPart.

(** The resolved type of a type keyword. *)
(* [sema/ast.rs | impl From<&program::Type> for Type] *)
Definition type_from (t : PtType) : comp ty :=
  match t with
  | TBool => Ret Ty.Bool
  | TAddress => Ret Ty.Address
  | TUint n => Ret (Ty.Uint n)
  | TString => Ret Ty.String_
  | TMapping _ _ _ _ _ => Panic
  | TDynamicBytes => Ret Ty.DynamicBytes
  | TField => Ret Ty.Field
  | THash => Ret Ty.Hash
  end.
End Pt.

(** The depth of a parse tree, the measure of the resolution of expressions
    and type names. *)
Module ParseDepth.

(** Of the statements only a block of call arguments is looked into. *)
Fixpoint depth (e : Pt.Expression) : nat :=
  let opt (o : option Pt.Expression) := match o with Some e => depth e | None => O end in
  match e with
  | Pt.Increment _ e | Pt.Decrement _ e | Pt.New _ e | Pt.Parenthesis _ e | Pt.MemberAccess _ e _ | Pt.Not _ e
  | Pt.BitwiseNot _ e | Pt.Delete _ e => S (depth e)
  | Pt.ArraySubscript _ e index => S (depth e `max` opt index)
  | Pt.ArraySlice _ e from to_ => S (depth e `max` (opt from `max` opt to_))
  | Pt.FunctionCall _ e args => S (depth e `max` max_list (depth <$> args))
  | Pt.FunctionCallBlock _ e block => S (depth e `max` depth_statement block)
  | Pt.NamedFunctionCall _ e args => S (depth e `max` max_list (depth_named <$> args))
  | Pt.Power _ a b | Pt.Multiply _ a b | Pt.Divide _ a b | Pt.Modulo _ a b | Pt.Add _ a b | Pt.Subtract _ a b
  | Pt.ShiftLeft _ a b | Pt.ShiftRight _ a b | Pt.BitwiseAnd _ a b | Pt.BitwiseXor _ a b | Pt.BitwiseOr _ a b
  | Pt.Less _ a b | Pt.More _ a b | Pt.LessEqual _ a b | Pt.MoreEqual _ a b | Pt.Equal _ a b | Pt.NotEqual _ a b
  | Pt.And _ a b | Pt.Or _ a b | Pt.Assign _ a b | Pt.AssignOr _ a b | Pt.AssignAnd _ a b | Pt.AssignXor _ a b
  | Pt.AssignShiftLeft _ a b | Pt.AssignShiftRight _ a b | Pt.AssignAdd _ a b | Pt.AssignSubtract _ a b
  | Pt.AssignMultiply _ a b | Pt.AssignDivide _ a b | Pt.AssignModulo _ a b => S (depth a `max` depth b)
  | Pt.ConditionalOperator _ c a b => S (depth c `max` (depth a `max` depth b))
  | Pt.ArrayLiteral _ es => S (max_list (depth <$> es))
  | Pt.Type_ _ t => S (depth_type t)
  | Pt.List_ _ ps => S (max_list ((λ p, match p.2 with Some p => depth_parameter p | None => O end) <$> ps))
  | _ => 1
  end
with depth_type (t : Pt.PtType) : nat :=
  match t with Pt.TMapping _ key _ value _ => depth key `max` depth value | _ => O end
with depth_named (a : Pt.NamedArgument) : nat := match a with Pt.mkNamedArgument _ _ e => depth e end
with depth_parameter (p : Pt.Parameter_) : nat := match p with Pt.mkParameter _ t _ => depth t end
with depth_statement (s : Pt.Statement) : nat :=
  match s with Pt.Args _ args => max_list (depth_named <$> args) | _ => O end.

Lemma max_list_le {A} (f : A → nat) l n : (max_list (f <$> l) ≤ n)%nat ↔ ∀ a, a ∈ l → (f a ≤ n)%nat.
Proof.
  split.
  - intros H a Ha. etrans; [|exact H]. apply max_list_elem_of_le. apply list_elem_of_fmap. by eexists.
  - induction l as [|a l IH]; intros H; cbn; [lia|]. apply Nat.max_lub; [apply H; by left|].
    apply IH. intros; apply H. by right.
Qed.
Lemma depth_remove_parenthesis e : (depth (Pt.remove_parenthesis e) ≤ depth e)%nat.
Proof. destruct e; cbn; lia. Qed.

(** The deepest of the expressions that a statement resolves. *)
Definition opt_depth (o : option Pt.Expression) : nat := match o with Some e => depth e | None => O end.
Fixpoint statement_depth (s : Pt.Statement) : nat :=
  let opt (o : option Pt.Statement) := match o with Some s => statement_depth s | None => O end in
  match s with
  | Pt.Block _ l => max_list (statement_depth <$> l)
  | Pt.If _ c a b => depth c `max` (statement_depth a `max` opt b)
  | Pt.While _ c body | Pt.DoWhile _ body c => depth c `max` statement_depth body
  | Pt.Expression_ _ e => depth e
  | Pt.VariableDefinition _ (Pt.mkVariableDeclaration _ t _ _) init => depth t `max` opt_depth init
  | Pt.For _ init c next body => opt init `max` (opt_depth c `max` (opt_depth next `max` opt body))
  | Pt.Return_ _ e => opt_depth e
  | _ => O
  end.
Lemma opt_depth_le o e n : (opt_depth o ≤ n)%nat → o = Some e → (depth e ≤ n)%nat.
Proof. by intros H ->. Qed.

(** Induction on the statements inside a statement. *)
Section StatementInduction.
Context (P : Pt.Statement → Prop).
Context (HBlock : ∀ l ss, Forall P ss → P (Pt.Block l ss)).
Context (HIf : ∀ l c a b, P a → (∀ s, b = Some s → P s) → P (Pt.If l c a b)).
Context (HWhile : ∀ l c b, P b → P (Pt.While l c b)) (HDoWhile : ∀ l b c, P b → P (Pt.DoWhile l b c)).
Context (HFor : ∀ l init c next b, (∀ s, init = Some s → P s) → (∀ s, b = Some s → P s) → P (Pt.For l init c next b)).
Context (Hleaf : ∀ s,
  match s with Pt.Block _ _ | Pt.If _ _ _ _ | Pt.While _ _ _ | Pt.DoWhile _ _ _ | Pt.For _ _ _ _ _ => False | _ => True end →
  P s).

Fixpoint pt_statement_ind (s : Pt.Statement) : P s.
Proof.
  assert (opt : ∀ o s, o = Some s → match o with Some s => P s | None => True end → P s) by by intros ? ? ->.
  destruct s as [l ss| |l c a b|l c b| | |l init c next b|l b c| | | |]; try by apply Hleaf.
  - apply HBlock. induction ss as [|s ss IH]; constructor; [apply pt_statement_ind|exact IH].
  - apply HIf; [apply pt_statement_ind|]. intros s Hs. apply (opt _ _ Hs). destruct b; [apply pt_statement_ind|exact I].
  - apply HWhile, pt_statement_ind.
  - apply HFor; intros s Hs; apply (opt _ _ Hs); [destruct init|destruct b]; (apply pt_statement_ind || exact I).
  - apply HDoWhile, pt_statement_ind.
Qed.
End StatementInduction.
End ParseDepth.
