(* ===== verification/TypeNames.v ===== *)
(** The printed names of types (src/src/sema/types.rs): for messages and for
    function signatures. *)
From S2P Require Import Prelude BigIntSpec Ast Types.
#[local] Set Warnings "-register-all".

(** [l.join(sep)] *)
Fixpoint join (sep : string) (l : list string) : string :=
  match l with
  | [] => ""
  | [s] => s
  | s :: l => s +:+ sep +:+ join sep l
  end.

Definition name_of (n : option Identifier) : string :=
  match n with Some n => id_name n | None => "" end.
Definition space_before (n : option Identifier) : string := match n with Some _ => " " | None => "" end.

Definition dims_to_string (dims : list ArrayLength) : string :=
  foldr (λ d s, (match d with Fixed len => "[" +:+ pretty len +:+ "]" | _ => "[]" end) +:+ s) "" dims.

(* [sema/types.rs | pub fn to_string] *)
Fixpoint to_string (ns : Namespace) (t : ty) : comp string :=
  let each := fix each (l : list ty) : comp (list string) :=
    match l with
    | [] => Ret []
    | t :: l => s ← to_string ns t; ss ← each l; Ret (s :: ss)
    end in
  match t with
  | Ty.Bool => Ret "bool"
  | Ty.Hash => Ret "hash"
  | Ty.Field => Ret "field"
  | Ty.Address => Ret "address"
  | Ty.Uint n => Ret ("u" +:+ pretty n)
  | Ty.String_ => Ret "string"
  | Ty.DynamicBytes => Ret "fields"
  | Ty.Enum n => e ← get_enum ns n; Ret ("enum " +:+ show_enum e)
  | Ty.Struct n => s ← get_struct ns n; Ret ("struct " +:+ show_struct s)
  | Ty.Array t len => s ← to_string ns t; Ret (s +:+ dims_to_string len)
  | Ty.Mapping key key_name value value_name =>
      k ← to_string ns key;
      v ← to_string ns value;
      Ret ("mapping(" +:+ k +:+ space_before key_name +:+ name_of key_name +:+ " => " +:+ v
           +:+ space_before value_name +:+ name_of value_name +:+ ")")
  | Ty.ExternalFunction params returns | Ty.Function_ params returns =>
      ps ← each params;
      let s := "fn(" +:+ join "," ps +:+ ") " in
      match returns with
      | [] => Ret s
      | _ => rs ← each returns; Ret (s +:+ " returns (" +:+ join "," rs +:+ ")")
      end
  | Ty.Contract n => c ← unwrap (contracts ns !! n); Ret ("contract " +:+ c_name c)
  | Ty.UserType n => u ← unwrap (user_types ns !! n); Ret ("usertype " +:+ show_user_type u)
  | Ty.Ref r => to_string ns r
  | Ty.StorageRef t => s ← to_string ns t; Ret (s +:+ " storage")
  | Ty.Void => Ret "void"
  | Ty.Unreachable => Ret "unreachable"
  | Ty.Slice t => s ← to_string ns t; Ret (s +:+ " slice")
  | Ty.Unresolved => Ret "unresolved"
  | Ty.BufferPointer => Ret "buffer_pointer"
  end.

(** The printing of a type never runs out of fuel: it has none. *)
Lemma to_string_no_fuel ns t : to_string ns t ≠ OutOfFuel.
Proof.
  assert (Hf : ∀ A (o : option A), unwrap o ≠ OutOfFuel) by (by intros A []).
  assert (Hall : ∀ l, Forall (λ t, to_string ns t ≠ OutOfFuel) l →
    (fix each (l : list ty) : comp (list string) :=
      match l with [] => Ret [] | t :: l => s ← to_string ns t; ss ← each l; Ret (s :: ss) end) l ≠ OutOfFuel).
  { induction 1 as [|u l Hu _ IH]; [done|]. apply bind_no_fuel; [done|]. intros s _.
    apply bind_no_fuel; [done|]. done. }
  induction t as [u Hu| | | | | |p r Hp Hr|p r Hp Hr] using Ty.ty_rect'; cbn [to_string];
    repeat (apply bind_no_fuel; [auto|intros]); try done.
  { destruct u; try done; repeat (apply bind_no_fuel; [apply Hf|intros]); done. }
  all: destruct r; [done|]; apply bind_no_fuel; [exact (Hall _ Hr)|done].
Qed.

(* [sema/types.rs | pub fn to_signature_string] *)
Fixpoint to_signature_string (fuel : nat) (say_tuple : bool) (ns : Namespace) (t : ty) : comp string :=
  match fuel with O => OutOfFuel | S fuel =>
  match t with
  | Ty.Bool => Ret "bool"
  | Ty.Hash => Ret "hash"
  | Ty.Field => Ret "field"
  | Ty.Contract _ | Ty.Address => Ret "address"
  | Ty.Uint n => Ret ("u" +:+ pretty n)
  | Ty.String_ => Ret "string"
  | Ty.DynamicBytes => Ret "fields"
  | Ty.Enum n => e ← get_enum ns n; to_signature_string fuel say_tuple ns (enum_ty e)
  | Ty.Array t len => s ← to_signature_string fuel say_tuple ns t; Ret (s +:+ dims_to_string len)
  | Ty.Ref r => to_string ns r
  | Ty.StorageRef r => to_string ns r
  | Ty.Struct n =>
      if say_tuple then Ret "tuple"
      else s ← get_struct ns n;
           l ← foldM (λ acc f, x ← to_signature_string fuel say_tuple ns (p_ty f); Ret (acc ++ [x])) [] (fields s);
           Ret ("(" +:+ join "," l +:+ ")")
  | Ty.Function_ _ _ => Ret "fn"
  | Ty.UserType n => u ← get_user_type ns n; to_signature_string fuel say_tuple ns u
  | Ty.Unresolved => Ret "unresolved"
  | Ty.Slice t => s ← to_string ns t; Ret (s +:+ " slice")
  | _ => Panic
  end end.

(* [sema/namespace.rs | pub fn signature] *)
Definition signature (fuel : nat) (ns : Namespace) (name : string) (params : list ParameterDecl) : comp string :=
  l ← foldM (λ acc p, x ← to_signature_string fuel false ns (p_ty p); Ret (acc ++ [x])) [] params;
  Ret (name +:+ "(" +:+ join "," l +:+ ")").
