(* ===== verification/SymTable.v ===== *)
(** The symbol table of a function body (src/src/sema/symtable.rs): variables,
    nested scopes of names, and the counters of the enclosing loops. *)
From S2P Require Import Prelude BigIntSpec Ast Types.
#[local] Set Warnings "-register-all".
#[local] Arguments but_last : simpl never.

Module SymTable.
Import Sym.

(** ** Index maps *)

Section IndexMap.
Context {V : Type}.

Fixpoint im_get (k : nat) (l : list (nat * V)) : option V :=
  match l with [] => None | (j, v) :: l => if decide (j = k) then Some v else im_get k l end.
Fixpoint im_insert (k : nat) (v : V) (l : list (nat * V)) : list (nat * V) :=
  match l with
  | [] => [(k, v)]
  | (j, w) :: l => if decide (j = k) then (k, v) :: l else (j, w) :: im_insert k v l
  end.
(** [get_mut(k)], and a change through the reference. *)
Fixpoint im_update (k : nat) (f : V → V) (l : list (nat * V)) : list (nat * V) :=
  match l with
  | [] => []
  | (j, w) :: l => if decide (j = k) then (j, f w) :: l else (j, w) :: im_update k f l
  end.

Lemma im_get_insert k v l : im_get k (im_insert k v l) = Some v.
Proof.
  induction l as [|[j w] l IH]; cbn; [by rewrite decide_True|].
  case_decide; cbn; [by rewrite decide_True|]. by rewrite decide_False.
Qed.
Lemma im_get_insert_ne k j v l : k ≠ j → im_get j (im_insert k v l) = im_get j l.
Proof.
  intros Hne. induction l as [|[i w] l IH]; cbn; [by rewrite decide_False|].
  repeat (case_decide; cbn); naive_solver.
Qed.
Lemma im_get_update k f l : im_get k (im_update k f l) = f <$> im_get k l.
Proof.
  induction l as [|[j w] l IH]; cbn; [done|]. case_decide; cbn; [by rewrite decide_True|]. by rewrite decide_False.
Qed.
Lemma im_get_update_ne k j f l : k ≠ j → im_get j (im_update k f l) = im_get j l.
Proof.
  intros Hne. induction l as [|[i w] l IH]; cbn; [done|]. repeat (case_decide; cbn); naive_solver.
Qed.
End IndexMap.

(** ** Variables *)

(* [sema/symtable.rs | pub fn has_initializer] *)
Definition has_initializer (i : VariableInitializer) : bool :=
  match i with Ola e => bool_decide (is_Some e) end.

(* [sema/symtable.rs | pub fn is_reference] *)
Definition is_reference (v : Variable_) : bool :=
  match storage_location v, init v with
  | Some (Memory _ | Storage_ _), Ola (Some e) =>
      match e with
      | Ex.AllocDynamicBytes _ _ _ _ | Ex.ArrayLiteral _ _ _ _ | Ex.StructLiteral _ _ _ => false
      | _ => true
      end
  | _, _ => false
  end.

(** ** The table *)

(* [sema/symtable.rs | impl Symtable >> pub fn new() | new] *)
Definition new : Symtable := mkSymtable [] [∅] [] [].

Definition set_vars (v : list (nat * Variable_)) (s : Symtable) : Symtable :=
  mkSymtable v (names s) (arguments s) (returns s).
Definition set_names (n : list (gmap string nat)) (s : Symtable) : Symtable :=
  mkSymtable (vars s) n (arguments s) (returns s).
Definition set_arguments (a : list (option nat)) (s : Symtable) : Symtable :=
  mkSymtable (vars s) (names s) a (returns s).
Definition set_returns (r : list nat) (s : Symtable) : Symtable :=
  mkSymtable (vars s) (names s) (arguments s) r.

Fixpoint find_pos (l : list (gmap string nat)) (name : string) : option nat :=
  match l with
  | [] => None
  | scope :: l => match scope !! name with Some n => Some n | None => find_pos l name end
  end.

(* [sema/symtable.rs | pub fn find] *)
Definition find (s : Symtable) (name : string) : option Variable_ :=
  match find_pos (names s) name with Some n => im_get n (vars s) | None => None end.

(** [self.names.last_mut().unwrap().0.insert(name, pos)] *)
Fixpoint insert_last_scope (name : string) (p : nat) (l : list (gmap string nat)) : option (list (gmap string nat)) :=
  match l with
  | [] => None
  | [scope] => Some [<[name := p]> scope]
  | scope :: l => l ← insert_last_scope name p l; Some (scope :: l)
  end.

(* [sema/symtable.rs | pub fn add] *)
Definition add (s : Symtable) (ns : Namespace) (i : Identifier) (t : ty) (initializer : VariableInitializer)
    (usage : VariableUsage) (sl : option StorageLocation) : comp (option nat * Symtable * Namespace) :=
  let p := next_id ns in
  let ns := set_next_id (S p) ns in
  let s := set_vars (im_insert p (mkVar i t p false false false usage initializer sl) (vars s)) s in
  if decide (id_name i = "") then Ret (Some p, s, ns)
  else
    match find s (id_name i) with
    | Some prev =>
        Ret (None, s,
             push_diag (Diag.error_with_note (id_loc i) (id_name i +:+ " is already declared") (id_loc (id prev))
                          "location of previous declaration") ns)
    | None => n ← unwrap (insert_last_scope (id_name i) p (names s)); Ret (Some p, set_names n s, ns)
    end.

(* [sema/symtable.rs | pub fn exclusive_add] *)
Definition exclusive_add (s : Symtable) (ns : Namespace) (i : Identifier) (t : ty) (initializer : VariableInitializer)
    (usage : VariableUsage) (sl : option StorageLocation) : comp (option nat * Symtable * Namespace) :=
  match find s (id_name i) with
  | Some var =>
      Ret (None, s,
           push_diag (mkDiagnostic (id_loc i) Error_ ET_DeclarationError
                        ("variable name '" +:+ id_name i +:+ "' already used in this scope")
                        [{| note_loc := id_loc (id var); note_message := "found previous declaration here" |}]) ns)
  | None => add s ns i t initializer usage sl
  end.

(* [sema/symtable.rs | impl Symtable >> pub fn new_scope] *)
Definition new_scope (s : Symtable) : Symtable := set_names (names s ++ [∅]) s.
(* [sema/symtable.rs | impl Symtable >> pub fn leave_scope] *)
Definition leave_scope (s : Symtable) : Symtable := set_names (but_last (names s)) s.
(* [sema/symtable.rs | pub fn get_name] *)
Definition get_name (s : Symtable) (p : nat) : comp string :=
  v ← unwrap (im_get p (vars s)); Ret (id_name (id v)).

(** ** Loops *)

(* [sema/symtable.rs | pub struct LoopScope] *)
Record LoopScope := { no_breaks : nat; no_continues : nat }.
(** The innermost loop first. *)
(* [sema/symtable.rs | pub struct LoopScopes] *)
Definition LoopScopes : Type := list LoopScope.
(* [sema/symtable.rs | impl LoopScopes >> pub fn new_scope] *)
Definition loop_enter (l : LoopScopes) : LoopScopes := {| no_breaks := 0; no_continues := 0 |} :: l.
(* [sema/symtable.rs | impl LoopScopes >> pub fn leave_scope] *)
Definition loop_leave (l : LoopScopes) : comp (LoopScope * LoopScopes) :=
  match l with s :: l => Ret (s, l) | [] => Panic end.
(* [sema/symtable.rs | pub fn do_break] *)
Definition do_break (l : LoopScopes) : bool * LoopScopes :=
  match l with
  | s :: l => (true, {| no_breaks := S (no_breaks s); no_continues := no_continues s |} :: l)
  | [] => (false, [])
  end.
(* [sema/symtable.rs | pub fn do_continue] *)
Definition do_continue (l : LoopScopes) : bool * LoopScopes :=
  match l with
  | s :: l => (true, {| no_breaks := no_breaks s; no_continues := S (no_continues s) |} :: l)
  | [] => (false, [])
  end.

(** ** Scoping *)

(** A new variable is a number of its own; a name is in one scope only, and
    stands for a variable of that name. *)
Record sym_ok (ns : Namespace) (s : Symtable) : Prop := {
  so_vars : ∀ k v, im_get k (vars s) = Some v → (k < next_id ns)%nat ∧ pos v = k;
  so_names : ∀ i sc n k, names s !! i = Some sc → sc !! n = Some k →
    ∃ v, im_get k (vars s) = Some v ∧ id_name (id v) = n;
  so_apart : ∀ i j sc sc' n, names s !! i = Some sc → names s !! j = Some sc' →
    is_Some (sc !! n) → is_Some (sc' !! n) → i = j;
  so_some : names s ≠ [];
}.

Lemma find_pos_Some l n k : find_pos l n = Some k → ∃ i sc, l !! i = Some sc ∧ sc !! n = Some k.
Proof.
  induction l as [|sc l IH]; cbn; [done|]. destruct (sc !! n) as [k'|] eqn:E.
  - intros [= ->]. by exists 0%nat, sc.
  - intros (i & sc' & Hi & Hk)%IH. by exists (S i), sc'.
Qed.
Lemma find_pos_None l n : find_pos l n = None ↔ ∀ i sc, l !! i = Some sc → sc !! n = None.
Proof.
  induction l as [|sc l IH]; cbn; [done|]. split.
  - intros H [|i] sc' Hi; cbn in Hi; [by simplify_eq; destruct (sc' !! n)|].
    destruct (sc !! n); [done|]. by eapply (proj1 IH).
  - intros H. rewrite (H 0%nat sc eq_refl). apply IH. intros i sc' Hi. by apply (H (S i)).
Qed.
Lemma find_pos_app l k n :
  find_pos (l ++ k) n = match find_pos l n with Some p => Some p | None => find_pos k n end.
Proof. induction l as [|sc l IH]; cbn; [done|]. by destruct (sc !! n). Qed.

Lemma insert_last_scope_snoc n p l sc : insert_last_scope n p (l ++ [sc]) = Some (l ++ [<[n := p]> sc]).
Proof.
  induction l as [|sc' l IH]; cbn; [done|]. rewrite IH. cbn. by destruct l.
Qed.

Lemma sym_ok_find ns s n : sym_ok ns s → find s n = None → find_pos (names s) n = None.
Proof.
  intros Hok. unfold find. destruct (find_pos (names s) n) as [k|] eqn:E; [|done].
  apply find_pos_Some in E as (i & sc & Hi & Hk).
  destruct (so_names _ _ Hok _ _ _ _ Hi Hk) as (v & -> & _). done.
Qed.

(** The names below the scope that is open. *)
Definition outer (s : Symtable) : list (gmap string nat) := but_last (names s).

Lemma sym_ok_new_var ns s p v :
  sym_ok ns s → p = next_id ns → pos v = p →
  sym_ok (set_next_id (S p) ns) (set_vars (im_insert p v (vars s)) s)
  ∧ ∀ n, find (set_vars (im_insert p v (vars s)) s) n = find s n.
Proof.
  intros Hok -> Hp.
  assert (Hold : ∀ k w, im_get k (vars s) = Some w → im_get k (im_insert (next_id ns) v (vars s)) = Some w).
  { intros k w Hk. rewrite im_get_insert_ne; [done|]. apply (so_vars _ _ Hok) in Hk. lia. }
  split; [|].
  - destruct Hok as [Hv Hn Ha Hs]. split; cbn; [|naive_solver|done|done].
    intros k w. destruct (decide (next_id ns = k)) as [<-|Hne].
    + rewrite im_get_insert. intros [= <-]. split; [lia|done].
    + rewrite im_get_insert_ne by done. intros [? ?]%Hv. split; [lia|done].
  - intros n. unfold find. cbn. destruct (find_pos (names s) n) as [k|] eqn:E; [|done].
    apply find_pos_Some in E as (i & sc & Hi & Hk).
    destruct (so_names _ _ Hok _ _ _ _ Hi Hk) as (w & Hw & _). rewrite Hw. by apply Hold.
Qed.

(** What a declaration says of its variable. *)
Definition decl : Type := Identifier * ty * VariableInitializer * VariableUsage * option StorageLocation.
Definition decl_of (v : Variable_) : decl := (id v, vty v, init v, usage_type v, storage_location v).
Definition decl_name (d : decl) : string := id_name d.1.1.1.1.

(** Declarations and blocks, in the order in which they are resolved. *)
Inductive sop :=
  | Decl (d : decl)
  | Scope (l : list sop).

Fixpoint run_op (o : sop) (s : Symtable) (ns : Namespace) : comp (Symtable * Namespace) :=
  match o with
  | Decl (i, t, e, u, sl) => '(_, s, ns) ← add s ns i t e u sl; Ret (s, ns)
  | Scope l =>
      '(s, ns) ← foldM (λ '(s, ns) o, run_op o s ns) (new_scope s, ns) l;
      Ret (leave_scope s, ns)
  end.
Definition run_ops (l : list sop) (s : Symtable) (ns : Namespace) : comp (Symtable * Namespace) :=
  foldM (λ '(s, ns) o, run_op o s ns) (s, ns) l.

(** The declaration that a name stands for after [l]: the first one, unless the
    name was visible before. *)
Definition first_decl (n : string) (l : list sop) : option decl :=
  head (omap (λ o, match o with
                   | Decl d => if decide (decl_name d = n ∧ n ≠ "") then Some d else None
                   | Scope _ => None
                   end) l).

(** The result of operations in the open scope: names may have been added to
    it, nothing else; what was visible stays visible. *)
Record scoped (s : Symtable) (ns : Namespace) (s' : Symtable) (ns' : Namespace) (l : list sop) : Prop := {
  sc_ok : sym_ok ns' s';
  sc_len : length (names s') = length (names s);
  sc_outer : outer s' = outer s;
  sc_find : ∀ n, decl_of <$> find s' n = match find s n with Some v => Some (decl_of v) | None => first_decl n l end;
  sc_old : ∀ n v, find s n = Some v → find s' n = Some v;
  sc_diags : ∃ ds, contents (diagnostics ns') = contents (diagnostics ns) ++ ds
                   ∧ Forall (λ x, diag_level x = Error_) ds;
}.

Lemma scoped_refl s ns : sym_ok ns s → scoped s ns s ns [].
Proof.
  intros Hok. split; try done. exists []. by rewrite app_nil_r.
Qed.

Lemma first_decl_cons n o l :
  first_decl n (o :: l) = match first_decl n [o] with Some d => Some d | None => first_decl n l end.
Proof. unfold first_decl. cbn. destruct o as [d|k]; cbn; [|done]. by case_decide. Qed.

Lemma scoped_trans s ns o s1 ns1 l s2 ns2 :
  scoped s ns s1 ns1 [o] → scoped s1 ns1 s2 ns2 l → scoped s ns s2 ns2 (o :: l).
Proof.
  intros [Hok1 Hl1 Ho1 Hf1 Hold1 (d1 & Hd1 & He1)] [Hok2 Hl2 Ho2 Hf2 Hold2 (d2 & Hd2 & He2)].
  split; [done|congruence|congruence| |naive_solver|].
  - intros n. rewrite Hf2, first_decl_cons. specialize (Hf1 n). destruct (find s n) as [v|] eqn:E.
    + by rewrite (Hold1 n v E).
    + destruct (find s1 n) as [v|] eqn:E1; cbn in Hf1; by rewrite <-Hf1.
  - exists (d1 ++ d2). rewrite Hd2, Hd1, app_assoc. split; [done|]. by apply Forall_app.
Qed.

Lemma names_snoc ns s : sym_ok ns s → ∃ l sc, names s = l ++ [sc].
Proof.
  intros Hok. destruct (names s) as [|sc l _] eqn:E using rev_ind; [by destruct (so_some _ _ Hok)|]. by exists l, sc.
Qed.

(** Names outside the open scope, and names other than the new one. *)
Lemma insert_name_ok ns s l sc n p v :
  sym_ok ns s → names s = l ++ [sc] → find s n = None → im_get p (vars s) = Some v → id_name (id v) = n →
  sym_ok ns (set_names (l ++ [<[n := p]> sc]) s)
  ∧ find (set_names (l ++ [<[n := p]> sc]) s) n = Some v
  ∧ ∀ m, m ≠ n → find (set_names (l ++ [<[n := p]> sc]) s) m = find s m.
Proof.
  intros Hok Hl Hf Hp Hn. pose proof (sym_ok_find _ _ _ Hok Hf) as Hnone.
  assert (Hat : ∀ i sc', (l ++ [<[n := p]> sc]) !! i = Some sc' →
    ∃ sc0, names s !! i = Some sc0 ∧ (sc' = sc0 ∨ (sc' = <[n := p]> sc0 ∧ i = length l))).
  { intros i sc'. rewrite Hl, lookup_snoc_Some. intros [[Hi H]|[-> <-]].
    - exists sc'. rewrite lookup_app_l by done. by split; [|left].
    - exists sc. split; [by apply list_lookup_middle|by right]. }
  pose proof (proj1 (find_pos_None _ _) Hnone) as Hno. split; [split|split].
  - apply (so_vars _ _ Hok).
  - intros i sc' m k Hi Hk. cbn in Hi. destruct (Hat _ _ Hi) as (sc0 & H0 & [->|[-> _]]).
    + by apply (so_names _ _ Hok i sc0).
    + destruct (decide (n = m)) as [<-|Hne].
      * rewrite lookup_insert_eq in Hk. injection Hk as <-. eauto.
      * rewrite lookup_insert_ne in Hk by done. by apply (so_names _ _ Hok i sc0).
  - intros i j sc1 sc2 m Hi Hj H1 H2. cbn in Hi, Hj.
    destruct (Hat _ _ Hi) as (sc01 & Hi0 & [->|[-> Hil]]), (Hat _ _ Hj) as (sc02 & Hj0 & [->|[-> Hjl]]).
    + by apply (so_apart _ _ Hok i j sc01 sc02 m).
    + destruct (decide (n = m)) as [<-|Hne]; [by rewrite (Hno i sc01 Hi0) in H1; destruct H1|].
      rewrite lookup_insert_ne in H2 by done. by apply (so_apart _ _ Hok i j sc01 sc02 m).
    + destruct (decide (n = m)) as [<-|Hne]; [by rewrite (Hno j sc02 Hj0) in H2; destruct H2|].
      rewrite lookup_insert_ne in H1 by done. by apply (so_apart _ _ Hok i j sc01 sc02 m).
    + congruence.
  - cbn. by destruct l.
  - unfold find. cbn. rewrite Hl, find_pos_app in Hnone. destruct (find_pos l n) eqn:E; [done|].
    rewrite find_pos_app, E. cbn. by rewrite lookup_insert_eq.
  - intros m Hm. unfold find. cbn. rewrite Hl, !find_pos_app. cbn. by rewrite lookup_insert_ne.
Qed.

Lemma declare_scoped s ns d : sym_ok ns s → ∃ s' ns', run_op (Decl d) s ns = Ret (s', ns') ∧ scoped s ns s' ns' [Decl d].
Proof.
  intros Hok. destruct d as [[[[i t] e] u] sl]. cbn [run_op]. unfold add.
  destruct (sym_ok_new_var ns s (next_id ns) (mkVar i t (next_id ns) false false false u e sl) Hok eq_refl eq_refl) as [Hok1 Hf1].
  set (s1 := set_vars _ s) in *. set (ns1 := set_next_id _ ns) in *.
  assert (Hnil : ∃ ds, contents (diagnostics ns1) = contents (diagnostics ns) ++ ds ∧ Forall (λ x, diag_level x = Error_) ds).
  { exists []. by rewrite app_nil_r. }
  destruct (decide (id_name i = "")) as [He|He].
  { exists s1, ns1. split; [done|]. split; [done..| | |exact Hnil].
    - intros n. rewrite Hf1. destruct (find s n); [done|]. unfold first_decl. cbn. rewrite decide_False; [done|].
      cbn. naive_solver.
    - intros n v. by rewrite Hf1. }
  destruct (find s1 (id_name i)) as [prev|] eqn:E.
  { eexists s1, _. split; [done|]. split; [by destruct Hok1; split|done|done| |intros n v; by rewrite Hf1|].
    - intros n. rewrite Hf1. destruct (find s n) eqn:En; [done|]. unfold first_decl. cbn.
      rewrite decide_False; [done|]. intros [Hn _]. unfold decl_name in Hn. cbn in Hn. by rewrite Hf1, Hn, En in E.
    - cbn. eexists. split; [done|]. by constructor. }
  destruct (names_snoc _ _ Hok1) as (l & sc & Hl). rewrite Hl, insert_last_scope_snoc. cbn.
  destruct (insert_name_ok ns1 s1 l sc (id_name i) (next_id ns) (mkVar i t (next_id ns) false false false u e sl) Hok1 Hl E)
    as (Hok2 & Hf2 & Hf3); [by cbn; rewrite im_get_insert|done|].
  assert (Hns : names s = l ++ [sc]) by done.
  eexists _, ns1. split; [done|]. split; [exact Hok2| | | | |exact Hnil].
  - cbn. rewrite Hns, !length_app. done.
  - unfold outer, set_names. cbn [names]. by rewrite Hns, !but_last_snoc.
  - intros n. destruct (decide (n = id_name i)) as [->|Hn].
    + rewrite Hf2. rewrite Hf1 in E. rewrite E. unfold first_decl. cbn. by rewrite decide_True.
    + rewrite Hf3, Hf1 by done. destruct (find s n); [done|]. unfold first_decl. cbn. rewrite decide_False; [done|].
      cbn. naive_solver.
  - intros n v Hv. destruct (decide (n = id_name i)) as [->|Hn]; [by rewrite Hf1, Hv in E|]. by rewrite Hf3, Hf1.
Qed.

Lemma new_scope_ok ns s : sym_ok ns s → sym_ok ns (new_scope s).
Proof.
  intros Hok. assert (Hat : ∀ i sc, (names s ++ [∅]) !! i = Some sc → names s !! i = Some sc ∨ sc = ∅).
  { intros i sc. rewrite lookup_snoc_Some. naive_solver. }
  split; cbn.
  - apply (so_vars _ _ Hok).
  - intros i sc n k [Hi| ->]%Hat Hk; [by apply (so_names _ _ Hok i sc)|done].
  - intros i j sc sc' n [Hi| ->]%Hat [Hj| ->]%Hat H1 H2; [by apply (so_apart _ _ Hok i j sc sc' n)| | |];
      by rewrite lookup_empty in *; destruct H1, H2.
  - by destruct (names s).
Qed.

Lemma leave_sym_ok ns s l sc : sym_ok ns s → names s = l ++ [sc] → l ≠ [] → sym_ok ns (leave_scope s).
Proof.
  intros [Hv Hns Ha _] Hl Hne. split; cbn; rewrite ?Hl, ?but_last_snoc.
  - exact Hv.
  - intros i sc' n p Hi. apply (Hns i). rewrite Hl. by apply lookup_app_l_Some.
  - intros i j sc1 sc2 n Hi Hj. apply Ha; rewrite Hl; by apply lookup_app_l_Some.
  - done.
Qed.

(** Leaving a scope brings back the names that were there. *)
Lemma leave_scope_ok ns s ns' s' l :
  sym_ok ns s → scoped (new_scope s) ns s' ns' l → scoped s ns (leave_scope s') ns' [Scope l].
Proof.
  intros Hok [Hok' Hlen Houter _ Hold Hd]. unfold outer in Houter. cbn in Houter. rewrite but_last_snoc in Houter.
  destruct (names_snoc _ _ Hok') as (k & sc & Hk). rewrite Hk, but_last_snoc in Houter. subst k.
  assert (Hn : names (leave_scope s') = names s) by (cbn; by rewrite Hk, but_last_snoc).
  assert (Hsame : ∀ n v, find s n = Some v → find (leave_scope s') n = Some v).
  { intros n v Hv. assert (Hv' : find (new_scope s) n = Some v).
    { unfold find in *. cbn. rewrite find_pos_app. by destruct (find_pos (names s) n). }
    apply Hold in Hv'. revert Hv Hv'. unfold find at 1 2. rewrite Hk, find_pos_app.
    unfold find. rewrite Hn. cbn. by destruct (find_pos (names s) n). }
  assert (Hnone : ∀ n, find s n = None → find (leave_scope s') n = None).
  { intros n Hf. apply (sym_ok_find _ _ _ Hok) in Hf. unfold find. by rewrite Hn, Hf. }
  split.
  - by apply (leave_sym_ok _ _ _ _ Hok' Hk), (so_some _ _ Hok).
  - by rewrite Hn.
  - unfold outer. by rewrite Hn.
  - intros n. destruct (find s n) as [v|] eqn:E; [by rewrite (Hsame n v E)|]. by rewrite (Hnone n E).
  - exact Hsame.
  - exact Hd.
Qed.

Lemma sop_induction (P : sop → Prop) :
  (∀ d, P (Decl d)) → (∀ l, Forall P l → P (Scope l)) → ∀ o, P o.
Proof.
  intros Hd Hs. fix IH 1. intros [d|l]; [apply Hd|]. apply Hs.
  induction l as [|o l IHl]; constructor; [apply IH|exact IHl].
Qed.

Lemma run_ops_scoped l :
  Forall (λ o, ∀ s ns, sym_ok ns s → ∃ s' ns', run_op o s ns = Ret (s', ns') ∧ scoped s ns s' ns' [o]) l →
  ∀ s ns, sym_ok ns s → ∃ s' ns', run_ops l s ns = Ret (s', ns') ∧ scoped s ns s' ns' l.
Proof.
  induction 1 as [|o l Ho _ IH]; intros s ns Hok; unfold run_ops; cbn [foldM].
  { exists s, ns. split; [done|]. by apply scoped_refl. }
  destruct (Ho s ns Hok) as (s1 & ns1 & -> & H1). cbn [mbind comp_bind].
  destruct (IH s1 ns1 (sc_ok _ _ _ _ _ H1)) as (s2 & ns2 & H2 & H3). exists s2, ns2. split; [exact H2|].
  by eapply scoped_trans.
Qed.

Lemma run_op_scoped o s ns : sym_ok ns s → ∃ s' ns', run_op o s ns = Ret (s', ns') ∧ scoped s ns s' ns' [o].
Proof.
  revert s ns. induction o as [d|l IH] using sop_induction; intros s ns Hok; [by apply declare_scoped|].
  destruct (run_ops_scoped l IH (new_scope s) ns (new_scope_ok _ _ Hok)) as (s' & ns' & H & Hs).
  exists (leave_scope s'), ns'. split; [|by apply leave_scope_ok].
  unfold run_ops in H. cbn [run_op]. by rewrite H.
Qed.

(** After any sequence of declarations and nested blocks in a symbol table, a
    name stands for the variable it stood for before if it was visible, and
    otherwise for the first declaration of it in the sequence that is not
    inside a block; leaving a block makes every name stand for what it stood
    for at the block's start. *)
Theorem block_scoping l s ns :
  sym_ok ns s →
  ∃ s' ns', run_ops l s ns = Ret (s', ns') ∧ sym_ok ns' s'
    ∧ (∀ n, decl_of <$> find s' n = match find s n with Some v => Some (decl_of v) | None => first_decl n l end)
    ∧ (∀ n v, find s n = Some v → find s' n = Some v)
    ∧ outer s' = outer s ∧ length (names s') = length (names s)
    ∧ ∃ ds, contents (diagnostics ns') = contents (diagnostics ns) ++ ds ∧ Forall (λ x, diag_level x = Error_) ds.
Proof.
  intros Hok. destruct (run_ops_scoped l) with (s := s) (ns := ns) as (s' & ns' & H & Hs); [|done|].
  - apply Forall_forall. intros o _ s1 ns1. apply run_op_scoped.
  - exists s', ns'. split_and!; [done|apply Hs..].
Qed.

(** ** Witness: [u32 x; { u32 y; u32 x; } u32 y;] *)

Definition u32_decl (n : string) (k : nat) : decl :=
  ({| id_loc := File_ 0 k (k + 1); id_name := n |}, Ty.Uint 32, Ola None, LocalVariable, None).
Definition block_ops : list sop :=
  [Decl (u32_decl "x" 0); Scope [Decl (u32_decl "y" 10); Decl (u32_decl "x" 20)]; Decl (u32_decl "y" 30)].

Lemma new_ok ns : sym_ok ns new.
Proof. split; cbn; try done. - intros [|i] sc n k; cbn; [by intros [= <-]|done]. - intros [|i] [|j] ? ? ? ?; done. Qed.

Lemma block_scoping_witness :
  ∃ s' ns', run_ops block_ops new empty_ns = Ret (s', ns')
    ∧ decl_of <$> find s' "y" = Some (u32_decl "y" 30) ∧ decl_of <$> find s' "x" = Some (u32_decl "x" 0)
    ∧ length (contents (diagnostics ns')) = 1%nat.
Proof.
  destruct (block_scoping block_ops new empty_ns (new_ok empty_ns)) as (s' & ns' & H & _ & Hf & _).
  exists s', ns'. split; [exact H|]. split; [rewrite Hf; reflexivity|]. split; [rewrite Hf; reflexivity|].
  vm_compute in H. injection H as <- <-. reflexivity.
Defined.
End SymTable.

(** Which variables are read and assigned (src/src/sema/unused_variable.rs):
    marks in the symbol table and in the namespace, and the warnings about
    variables without them. *)
Module Usage.
Import Sym SymTable.

(** [(&mut Namespace, &mut Symtable)] *)
Definition tables : Type := Namespace * Symtable.

(** ** Marks *)

Definition mark_assigned (v : Variable_) : Variable_ :=
  mkVar (id v) (vty v) (pos v) (slice v) true (read v) (usage_type v) (init v) (storage_location v).
Definition mark_read (v : Variable_) : Variable_ :=
  mkVar (id v) (vty v) (pos v) (slice v) (assigned v) true (usage_type v) (init v) (storage_location v).
Definition decl_assigned (v : VariableDecl) : VariableDecl :=
  mkVariable (v_name v) (v_loc v) (v_ty v) (v_constant v) (initializer v) true (v_read v).
Definition decl_read (v : VariableDecl) : VariableDecl :=
  mkVariable (v_name v) (v_loc v) (v_ty v) (v_constant v) (initializer v) (v_assigned v) true.

(** [let var = symtable.vars.get_mut(var_no).unwrap(); ..] *)
Definition update_var (f : Variable_ → Variable_) (p : nat) (t : tables) : comp tables :=
  _ ← unwrap (im_get p (vars t.2));
  Ret (t.1, set_vars (im_update p f (vars t.2)) t.2).
Definition with_variables (v : list VariableDecl) (c : Contract) : Contract :=
  mkContract (c_loc c) (c_name c) (c_ty c) (c_layout c) (c_fixed_layout_size c) (c_functions c) (all_functions c) v
    (c_initializer c) (c_code c) (instantiable c) (dispatch_no c).
(** [ns.contracts[contract_no].variables[var_no].. = true] *)
Definition update_contract_var (f : VariableDecl → VariableDecl) (contract_no var_no : nat) (ns : Namespace)
    : comp Namespace :=
  c ← unwrap (contracts ns !! contract_no);
  v ← unwrap (variables c !! var_no);
  Ret (set_contracts (<[contract_no := with_variables (<[var_no := f v]> (variables c)) c]> (contracts ns)) ns).
(** [ns.constants[var_no].read = true] *)
Definition update_constant (f : VariableDecl → VariableDecl) (var_no : nat) (ns : Namespace) : comp Namespace :=
  v ← unwrap (constants ns !! var_no); Ret (set_constants (<[var_no := f v]> (constants ns)) ns).

Definition in_ns (m : Namespace → comp Namespace) (t : tables) : comp tables := ns ← m t.1; Ret (ns, t.2).

Definition each (f : expression → tables → comp tables) (l : list expression) (t : tables) : comp tables :=
  foldM (λ t e, f e t) t l.
Definition each_opt (f : expression → tables → comp tables) (o : option expression) (t : tables) : comp tables :=
  match o with Some e => f e t | None => Ret t end.

(** ** Expressions *)

(** The bodies of [check_function_call] for its calls, which the other
    functions reach with the expression they were given. *)
(* [sema/unused_variable.rs | fn check_call_args] *)
Definition check_call_args (used : expression → tables → comp tables) (c : CallArgs expression) (t : tables) : comp tables :=
  match c with mkCallArgs _ gas value _ => t ← each_opt used gas t; each_opt used value t end.
(* [sema/unused_variable.rs | 195-205 | check_function_call] *)
Definition on_call (used call : expression → tables → comp tables) (function : expression) (args : list expression)
    (t : tables) : comp tables :=
  t ← each used args t; call function t.
(* [sema/unused_variable.rs | 207-219 | check_function_call] *)
Definition on_external_call (used call : expression → tables → comp tables) (function : expression)
    (args : list expression) (c : CallArgs expression) (t : tables) : comp tables :=
  t ← each used args t; t ← check_call_args used c t; call function t.

(* [sema/unused_variable.rs | pub fn assigned_variable] *)
Fixpoint assigned_variable (e : expression) (t : tables) : comp tables :=
  match e with
  | Ex.StorageVariable _ _ contract_no var_no => in_ns (update_contract_var decl_assigned contract_no var_no) t
  | Ex.Variable_ _ _ var_no => update_var mark_assigned var_no t
  | Ex.StructMember _ _ e _ => assigned_variable e t
  | Ex.Subscript _ _ _ array index =>
      a ← Ex.ty_of array;
      t ← (if is_contract_storage a then subscript_variable array t else assigned_variable array t);
      used_variable index t
  | Ex.StorageLoad _ _ e | Ex.Load _ _ e | Ex.Trunc _ _ e | Ex.Cast _ _ e => assigned_variable e t
  | _ => Ret t
  end
(* [sema/unused_variable.rs | fn subscript_variable] *)
with subscript_variable (e : expression) (t : tables) : comp tables :=
  match e with
  | Ex.StorageVariable _ _ contract_no var_no => in_ns (update_contract_var decl_assigned contract_no var_no) t
  | Ex.Variable_ _ _ var_no => update_var mark_read var_no t
  | Ex.StructMember _ _ e _ => subscript_variable e t
  | Ex.Subscript _ _ _ array index => t ← subscript_variable array t; subscript_variable index t
  | Ex.FunctionCall _ _ function args => on_call used_variable check_function_call function args t
  | Ex.ExternalFunctionCall _ _ function args c =>
      on_external_call used_variable check_function_call function args c t
  | _ => Ret t
  end
(* [sema/unused_variable.rs | pub fn used_variable] *)
with used_variable (e : expression) (t : tables) : comp tables :=
  match e with
  | Ex.StorageVariable _ _ contract_no var_no => in_ns (update_contract_var decl_read contract_no var_no) t
  | Ex.Variable_ _ _ var_no => update_var mark_read var_no t
  | Ex.ConstantVariable _ _ (Some contract_no) var_no => in_ns (update_contract_var decl_read contract_no var_no) t
  | Ex.ConstantVariable _ _ None var_no => in_ns (update_constant decl_read var_no) t
  | Ex.StructMember _ _ e _ => used_variable e t
  | Ex.Subscript _ _ _ array index => t ← used_variable array t; used_variable index t
  | Ex.ArraySlice _ _ _ array start end_ =>
      t ← used_variable array t;
      t ← match start with Some s => used_variable s t | None => Ret t end;
      match end_ with Some s => used_variable s t | None => Ret t end
  | Ex.LibFunction _ _ ArrayLength_ args =>
      match args with a :: _ => t ← assigned_variable a t; used_variable a t | [] => Panic end
  | Ex.LibFunction _ _ (ArrayPush | ArrayPop) args =>
      match args with a :: _ => t ← used_variable a t; assigned_variable a t | [] => Panic end
  | Ex.StorageArrayLength _ _ array _ => t ← assigned_variable array t; used_variable array t
  | Ex.StorageLoad _ _ e | Ex.Load _ _ e | Ex.ZeroExt _ _ e | Ex.Trunc _ _ e | Ex.Cast _ _ e => used_variable e t
  | Ex.FunctionCall _ _ function args => on_call used_variable check_function_call function args t
  | _ => Ret t
  end
(* [sema/unused_variable.rs | pub fn check_function_call] *)
with check_function_call (e : expression) (t : tables) : comp tables :=
  match e with
  | Ex.Load _ _ e | Ex.StorageLoad _ _ e => used_variable e t
  | Ex.Variable_ _ _ var_no => update_var mark_read var_no t
  | Ex.FunctionCall _ _ function args => on_call used_variable check_function_call function args t
  | Ex.ExternalFunctionCall _ _ function args c =>
      on_external_call used_variable check_function_call function args c t
  | Ex.ExternalFunctionCallRaw _ _ address args c =>
      t ← used_variable args t; t ← used_variable address t; check_call_args used_variable c t
  | Ex.LibFunction _ _ ArrayPush args =>
      match args with
      | a :: args =>
          t ← assigned_variable a t;
          match args with b :: _ => used_variable b t | [] => Ret t end
      | [] => Panic
      end
  | Ex.LibFunction _ _ _ args => each used_variable args t
  | Ex.ExternalFunction _ _ address _ => used_variable address t
  | _ => Ret t
  end.

(* [sema/unused_variable.rs | pub fn check_var_usage_expression] *)
Definition check_var_usage_expression (left right : expression) (t : tables) : comp tables :=
  t ← used_variable left t; used_variable right t.

(** ** Warnings *)

(* [sema/unused_variable.rs | pub fn emit_warning_local_variable] *)
Definition emit_warning_local_variable (fuel : nat) (v : Variable_) (ns : Namespace) : comp (option Diagnostic) :=
  let l := id_loc (id v) in
  let n := id_name (id v) in
  match usage_type v with
  | Parameter_ =>
      r ← is_reference_type fuel ns (vty v);
      Ret (if (negb (read v) && negb r) || (negb (read v) && negb (assigned v) && r)
           then Some (Diag.warning l ("function parameter '" +:+ n +:+ "' is unused"))
           else None)
  | ReturnVariable =>
      Ret (if assigned v then None
           else if is_contract_storage (vty v)
           then Some (Diag.error l ("storage reference '" +:+ n +:+ "' must be assigned a value"))
           else Some (Diag.warning l ("return variable '" +:+ n +:+ "' has never been assigned")))
  | LocalVariable =>
      Ret (if negb (assigned v) && negb (read v)
           then Some (Diag.warning l ("local variable '" +:+ n +:+ "' is unused"))
           else if (has_initializer (init v) || assigned v) && negb (read v) && negb (is_reference v)
           then Some (Diag.warning l ("local variable '" +:+ n +:+ "' has been assigned, but never read"))
           else None)
  | DestructureVariable =>
      Ret (if read v then None
           else Some (Diag.warning l ("destructure variable '" +:+ n +:+ "' has never been used")))
  | AnonymousReturnVariable => Ret None
  end.

(* [sema/unused_variable.rs | fn emit_warning_contract_variables] *)
Definition emit_warning_contract_variables (v : VariableDecl) : option Diagnostic :=
  if v_assigned v && negb (v_read v)
  then Some (Diag.warning (v_loc v) ("storage variable '" +:+ v_name v +:+ "' has been assigned, but never read"))
  else if negb (v_assigned v) && negb (v_read v)
  then Some (Diag.warning (v_loc v) ("storage variable '" +:+ v_name v +:+ "' has never been used"))
  else None.

Definition push_opt (d : Diagnostics) (o : option Diagnostic) : Diagnostics :=
  match o with Some x => Diags.push d x | None => d end.

(* [sema/unused_variable.rs | pub fn check_unused_namespace_variables] *)
Definition check_unused_namespace_variables (ns : Namespace) : Namespace :=
  let d := foldl (λ d c, foldl (λ d v, push_opt d (emit_warning_contract_variables v)) d (variables c))
             (diagnostics ns) (contracts ns) in
  let d := foldl (λ d v, if v_read v then d
                         else Diags.push d (Diag.warning (v_loc v)
                                ("global constant '" +:+ v_name v +:+ "' has never been used"))) d (constants ns) in
  set_diagnostics d ns.
End Usage.
