(* ===== verification/Casts.v ===== *)
(** Conversion of a resolved expression to a type (src/src/sema/expression/mod.rs)
    and the common type of two operands (integers.rs). *)
From S2P Require Import Prelude BigIntSpec Ast Types TypeNames.
#[local] Set Warnings "-register-all".
#[local] Open Scope Z_scope.

Module Casts.

(** What type a resolution looks for. *)
(* [sema/expression/mod.rs | pub enum ResolveTo] *)
Inductive ResolveTo : Set := Unknown | Integer | Discard | To (t : ty).

Definition resolve_to_eqb (a b : ResolveTo) : bool :=
  match a, b with
  | Unknown, Unknown | Integer, Integer | Discard, Discard => true
  | To s, To t => Ty.eqb s t
  | _, _ => false
  end.

(* [sema/expression/mod.rs | pub struct ExprContext] *)
Record ExprContext : Set := mkContext {
  file_no : nat; contract_no : option nat; function_no : option nat; constant : bool; lvalue : bool;
}.

(* [sema/expression/mod.rs | pub fn tys] *)
Definition tys (e : expression) : comp (list ty) :=
  match e with
  | Ex.LibFunction _ returns _ _ | Ex.FunctionCall _ returns _ _ => Ret returns
  | Ex.List_ _ l => foldM (λ acc e, t ← Ex.ty_of e; Ret (acc ++ [t])) [] l
  | Ex.ExternalFunctionCallRaw _ _ _ _ _ => Ret [Ty.DynamicBytes]
  | _ => t ← Ex.ty_of e; Ret [t]
  end.

(** [format!("..{}..{}..", from.to_string(ns), to.to_string(ns))] *)
Definition two_types (ns : Namespace) (a : string) (from : ty) (b : string) (to_ : ty) (c : string) : comp string :=
  f ← to_string ns from; t ← to_string ns to_; Ret (a +:+ f +:+ b +:+ t +:+ c).
Definition cast_failure {A} (loc : Loc) (message : comp string) : sema A :=
  m ← sema_lift message; sema_fail (Diag.cast_error loc m).
Definition not_possible {A} (ns : Namespace) (loc : Loc) (from to_ : ty) : sema A :=
  cast_failure loc (two_types ns "conversion from " from " to " to_ " not possible").

(** ** cast *)

(* [sema/expression/mod.rs | 314-322 | cast_types] *)
Definition dims_match (from_dim to_dim : list ArrayLength) : bool :=
  bool_decide (length from_dim = length to_dim)
  && forallb (λ '(f, t), bool_decide (f = t) || match f, t with Fixed _, AnyFixed => true | _, _ => false end)
       (zip from_dim to_dim).

(* [sema/expression/mod.rs | fn cast_types] *)
Definition cast_types (ns : Namespace) (self : expression) (loc : Loc) (from to_ : ty) : sema expression :=
  match from, to_ with
  | Ty.Address, Ty.Ref Ty.Address => mret (Ex.GetRef loc (Ty.Ref from) self)
  | Ty.Uint _, Ty.Enum _ =>
      cast_failure loc (two_types ns "implicit conversion from " from " to " to_ " not allowed")
  | Ty.Enum _, Ty.Uint _ =>
      cast_failure loc (two_types ns "implicit conversion from " from " to " to_ " not allowed")
  | Ty.Uint from_len, Ty.Uint to_len =>
      match from_len ?= to_len with
      | Gt => cast_failure loc (two_types ns "implicit conversion would truncate from " from " to " to_ "")
      | Lt => mret (Ex.ZeroExt loc to_ self)
      | Eq => mret (Ex.Cast loc to_ self)
      end
  | Ty.Uint 32, Ty.Field => mret self
  | Ty.Field, Ty.DynamicBytes | Ty.DynamicBytes, Ty.Field => mret (Ex.BytesCast loc from to_ self)
  | Ty.Hash, Ty.Address | Ty.Address, Ty.Hash => mret (Ex.Cast loc to_ self)
  | Ty.Uint 32, Ty.Address => mret (Ex.Cast loc to_ self)
  | Ty.Hash, Ty.DynamicBytes | Ty.Address, Ty.DynamicBytes => mret (Ex.Cast loc to_ self)
  | Ty.Array from_elem from_dim, Ty.Array to_elem to_dim =>
      if Ty.eqb from_elem to_elem && dims_match from_dim to_dim then mret self
      else not_possible ns loc from to_
  | (Ty.DynamicBytes | Ty.Field), Ty.Slice Ty.Field => mret (Ex.Cast loc to_ self)
  | Ty.String_, Ty.DynamicBytes | Ty.DynamicBytes, Ty.String_ => mret (Ex.Cast loc to_ self)
  | Ty.Address, Ty.Contract _ | Ty.Contract _, Ty.Address => mret (Ex.Cast loc to_ self)
  | _, _ => not_possible ns loc from to_
  end.

(** The conversions that depend on the expression: literals. *)
(* [sema/expression/mod.rs | 129-219 | cast] *)
Definition cast_literal (ns : Namespace) (self : expression) (loc : Loc) (from to_ : ty) : option (sema expression) :=
  match self, to_ with
  | Ex.NumberLiteral _ _ value, Ty.Uint to_len =>
      Some (if bi_bits value >=? to_len
            then cast_failure loc (two_types ns "implicit conversion would truncate from '" from "' to '" to_ "'")
            else mret (Ex.NumberLiteral loc (Ty.Uint to_len) value))
  | Ex.NumberLiteral _ _ value, Ty.Field =>
      Some (if negb (Ty.eqb from (Ty.Uint 32))
            then cast_failure loc (two_types ns "type " from " cannot be converted to type '" to_ "'")
            else mret (Ex.NumberLiteral loc Ty.Field value))
  | Ex.NumberLiteral _ _ value, Ty.Address =>
      if Ty.eqb from (Ty.Uint 32) then Some (mret (Ex.AddressLiteral loc Ty.Address [0; 0; 0; value])) else None
  | Ex.NumberLiteral _ _ value, Ty.Hash =>
      if Ty.eqb from (Ty.Uint 32) then Some (mret (Ex.HashLiteral loc Ty.Hash [0; 0; 0; value])) else None
  | Ex.ArrayLiteral _ _ _ _, Ty.Array to_ty to_dims =>
      match from with
      | Ty.Array from_ty from_dims =>
          if Ty.eqb from_ty to_ty && bool_decide (length from_dims = length to_dims)
             && bool_decide (length from_dims = 1%nat) && bool_decide (last to_dims = Some Dynamic)
          then Some (mret (Ex.Cast loc to_ self))
          else None
      | _ => None
      end
  | _, _ => None
  end.

(** The element of a storage string or storage bytes. *)
Definition storage_byte (self : expression) : bool :=
  match self with Ex.Subscript _ _ array_ty _ _ => is_storage_bytes array_ty | _ => false end.

(** [cast], where [from] is the type of the expression: a dereferenced
    expression has the type under the reference. *)
(* [sema/expression/mod.rs | pub(crate) fn cast] *)
Fixpoint cast_from (ns : Namespace) (loc : Loc) (to_ : ty) (from : ty) (self : expression) : sema expression :=
  if Ty.eqb from to_ then mret self
  else if Ty.eqb from Ty.Unresolved || Ty.eqb to_ Ty.Unresolved then mret self
  else
    match from with
    | Ty.Ref r =>
        fixed ← sema_lift (is_fixed_reference_type r);
        if (fixed : bool) then
          if Ty.eqb r to_ then mret self else not_possible ns loc from to_
        else cast_from ns loc to_ r (Ex.Load loc r self)
    | Ty.StorageRef r =>
        if storage_byte self then mret self
        else cast_from ns loc to_ r (Ex.StorageLoad loc r self)
    | _ =>
        match cast_literal ns self loc from to_ with
        | Some m => m
        | None => cast_types ns self loc from to_
        end
    end.
Definition cast (ns : Namespace) (self : expression) (loc : Loc) (to_ : ty) : sema expression :=
  from ← sema_lift (Ex.ty_of self); cast_from ns loc to_ from self.

(** ** The type of two operands *)

(** [match l { Type::Ref(ty) => ty, Type::StorageRef(ty) => ty, _ => l }] *)
Definition strip (t : ty) : ty := match t with Ty.Ref t | Ty.StorageRef t => t | t => t end.

(* [sema/expression/integers.rs | pub(super) fn type_bits] *)
Fixpoint type_bits (ns : Namespace) (l_loc : Loc) (l : ty) : sema Z :=
  match l with
  | Ty.Uint n => mret n
  | Ty.Field => mret 64
  | Ty.Enum n =>
      e ← sema_lift (get_enum ns n);
      sema_fail (Diag.error l_loc ("type enum " +:+ show_enum e +:+ " not allowed"))
  | Ty.Struct no =>
      s ← sema_lift (get_struct ns no);
      sema_fail (Diag.error l_loc ("type struct " +:+ struct_name s +:+ " not allowed"))
  | Ty.Array _ _ =>
      s ← sema_lift (to_string ns l);
      sema_fail (Diag.error l_loc ("type array " +:+ s +:+ " not allowed"))
  | Ty.Ref n => type_bits ns l_loc n
  | Ty.StorageRef n => type_bits ns l_loc n
  | _ =>
      s ← sema_lift (to_string ns l);
      sema_fail (Diag.error l_loc ("expression of type " +:+ s +:+ " not allowed"))
  end.

(* [sema/expression/integers.rs | pub fn coerce_number] *)
Definition coerce_number (ns : Namespace) (l : ty) (l_loc : Loc) (r : ty) (r_loc : Loc) : sema ty :=
  let l := strip l in
  let r := strip r in
  let numbers :=
    left_len ← type_bits ns l_loc l;
    right_len ← type_bits ns r_loc r;
    mret (Ty.Uint (Z.max left_len right_len)) in
  match l, r with
  | Ty.Contract a, Ty.Contract b => if decide (a = b) then mret (Ty.Contract a) else numbers
  | Ty.Address, Ty.Address => mret Ty.Address
  | Ty.Hash, Ty.Hash => mret Ty.Hash
  | Ty.Field, Ty.Uint _ => mret l
  | Ty.Uint _, Ty.Field => mret r
  | Ty.Field, Ty.Field => mret Ty.Field
  | _, _ => numbers
  end.

(* [sema/expression/integers.rs | pub(super) fn coerce] *)
Definition coerce (ns : Namespace) (l : ty) (l_loc : Loc) (r : ty) (r_loc : Loc) : sema ty :=
  let l := strip l in
  let r := strip r in
  if Ty.eqb l r then mret l else coerce_number ns l l_loc r r_loc.

(* [sema/expression/integers.rs | pub fn bigint_to_expression] *)
Definition bigint_to_expression (ns : Namespace) (loc : Loc) (n : Z) (resolve_to : ResolveTo) : sema expression :=
  let smallest :=
    if 256 <? bi_bits n then sema_fail (Diag.error loc (pretty n +:+ " is too large"))
    else mret (Ex.NumberLiteral loc (Ty.Uint 32) n) in
  match resolve_to with
  | To t =>
      if Ty.eqb t Ty.Unresolved then smallest
      else
        i ← sema_lift (is_integer (type_fuel ns t) ns t);
        if (i : bool) then mret (Ex.NumberLiteral loc t n)
        else s ← sema_lift (to_string ns t);
             sema_fail (Diag.cast_error loc ("expected '" +:+ s +:+ "', found integer"))
  | _ => smallest
  end.
End Casts.
