(* ===== verification/Names.v ===== *)
(** The names of a source file (src/src/sema/namespace.rs) and of the core
    library (corelib.rs): what a name stands for, and the diagnostics about
    names that clash. *)
From S2P Require Import Prelude BigIntSpec Ast Types TypeNames Pt.
#[local] Set Warnings "-register-all".

(** * The core library *)

Module Corelib.
(* [sema/corelib.rs | pub struct Prototype] *)
Record Prototype := {
  libfunc : LibFunc; namespace : option string; name : string; params : list ty; ret : list ty;
}.
Definition proto (f : LibFunc) (n : option string) (s : string) (p r : list ty) : Prototype :=
  {| libfunc := f; namespace := n; name := s; params := p; ret := r |}.

(* [sema/corelib.rs | 24-207 | LIB_FUNCTIONS] *)
Definition LIB_FUNCTIONS : list Prototype := [
  proto U32Sqrt None "u32_sqrt" [Ty.Uint 32] [Ty.Uint 32];
  proto ArraySort None "u32_array_sort" [Ty.Array (Ty.Uint 32) [Dynamic]] [Ty.Array (Ty.Uint 32) [Dynamic]];
  proto Assert None "assert" [Ty.Bool] [Ty.Void];
  proto Assert None "assert" [Ty.Bool; Ty.String_] [Ty.Void];
  proto Print_ None "print" [Ty.Unresolved] [];
  proto PoseidonHash None "poseidon_hash" [Ty.DynamicBytes] [Ty.Hash];
  proto AbiEncode (Some "abi") "encode" [] [];
  proto FieldsConcat None "fields_concat" [Ty.DynamicBytes; Ty.DynamicBytes] [Ty.DynamicBytes];
  proto AbiDecode (Some "abi") "decode" [Ty.DynamicBytes] [];
  proto AbiEncodeWithSignature (Some "abi") "encodeWithSignature" [Ty.String_] [];
  proto BlockNumber None "block_number" [] [Ty.Uint 32];
  proto BlockTimestamp None "block_timestamp" [] [Ty.Uint 32];
  proto SequenceAddress None "sequence_address" [] [Ty.Address];
  proto TransactionVersion None "tx_version" [] [Ty.Uint 32];
  proto ChainId None "chain_id" [] [Ty.Uint 32];
  proto CallerAddress None "caller_address" [] [Ty.Address];
  proto Nonce None "nonce" [] [Ty.Uint 32];
  proto SignatureLength None "signature_length" [] [Ty.Uint 32];
  proto Signature None "signature" [] [Ty.DynamicBytes];
  proto TransactionHash None "tx_hash" [] [Ty.Hash];
  proto OriginAddress None "origin_address" [] [Ty.Address];
  proto CodeAddress None "code_address" [] [Ty.Address];
  proto CurrentAddress None "current_address" [] [Ty.Address];
  proto GetSelector None "get_selector" [Ty.String_] [Ty.Uint 32];
  proto CheckECDSA None "check_ecdsa" [Ty.Hash; Ty.DynamicBytes; Ty.DynamicBytes] [Ty.Bool]
].
(* [sema/corelib.rs | 209-210 | LIB_VARIABLE] *)
Definition LIB_VARIABLE : list Prototype := [].
(* [sema/corelib.rs | 212-213 | LIB_METHODS] *)
Definition LIB_METHODS : list Prototype := [].

(* [sema/corelib.rs | pub fn is_lib_func_call] *)
Definition is_lib_func_call (ns : option string) (fname : string) : bool :=
  existsb (λ p, bool_decide (name p = fname) && bool_decide (namespace p = ns)) LIB_FUNCTIONS.
(* [sema/corelib.rs | pub fn lib_namespace] *)
Definition lib_namespace (ns : string) : bool :=
  existsb (λ p, bool_decide (namespace p = Some ns)) LIB_VARIABLE.
Definition reserves (fname : string) (p : Prototype) : bool :=
  (bool_decide (name p = fname) && bool_decide (namespace p = None)) || bool_decide (namespace p = Some fname).
(* [sema/corelib.rs | pub fn is_reserved] *)
Definition is_reserved (fname : string) : bool :=
  bool_decide (fname = "type") || bool_decide (fname = "super")
  || existsb (reserves fname) LIB_FUNCTIONS || existsb (reserves fname) LIB_VARIABLE.
End Corelib.

(** * The namespace *)

Module Names.
Import Corelib.

Definition variable_at (ns : Namespace) (file_no : nat) (contract_no : option nat) (n : string) : option Symbol :=
  variable_symbols ns !! (file_no, contract_no, n).
Definition function_at (ns : Namespace) (file_no : nat) (contract_no : option nat) (n : string) : option Symbol :=
  function_symbols ns !! (file_no, contract_no, n).
Definition or_else {A} (a b : option A) : option A := match a with Some x => Some x | None => b end.

(** The location of a symbol, and what the messages call it. *)
(* [sema/ast.rs | impl CodeLocation for Symbol] *)
Definition symbol_loc (s : Symbol) : comp Loc :=
  match s with
  | SEnum l _ | SVariable l _ _ | SStruct l _ | SContract l _ | SImport l _ | SUserType l _ => Ret l
  | SFunction items => i ← unwrap (head items); Ret i.1
  end.

(* [sema/namespace.rs | 71-120 | add_symbol] *)
Definition already_defined (s : Symbol) : comp string :=
  match s with
  | SContract _ _ => Ret "a contract name"
  | SEnum _ _ => Ret "an enum"
  | SStruct _ _ => Ret "a struct"
  | SVariable _ _ _ => Ret "a contract variable"
  | SImport _ _ => Ret "an import"
  | SUserType _ _ => Ret "an user type"
  | SFunction _ => Panic
  end.

Definition note_at (message : string) (p : Loc * nat) : Note := {| note_loc := p.1; note_message := message |}.

(** A warning when the name is defined outside the contract. *)
(* [sema/namespace.rs | 125-208 | add_symbol] *)
Definition warn_outside (ns : Namespace) (file_no : nat) (i : Identifier) : comp Namespace :=
  let n := id_name i in
  let ns := match function_at ns file_no None n with
            | Some (SFunction v) =>
                push_diag (Diag.warning_with_notes (id_loc i) (n +:+ " is already defined as a function")
                             (map (note_at "location of previous definition") v)) ns
            | _ => ns
            end in
  match variable_at ns file_no None n with
  | Some s =>
      what ← already_defined s;
      l ← symbol_loc s;
      Ret (push_diag (Diag.warning_with_note (id_loc i) (n +:+ " is already defined as " +:+ what) l
                        "location of previous definition") ns)
  | None => Ret ns
  end.

(* [sema/namespace.rs | pub fn add_symbol] *)
Definition add_symbol (ns : Namespace) (file_no : nat) (contract_no : option nat) (i : Identifier) (symbol : Symbol)
    : comp (bool * Namespace) :=
  let n := id_name i in
  if is_reserved n then
    Ret (false, push_diag (Diag.error (id_loc i) ("'" +:+ n +:+ "' shadows name of a builtin")) ns)
  else
    match function_at ns file_no contract_no n with
    | Some (SFunction v) =>
        Ret (false, push_diag (Diag.error_with_notes (id_loc i) (n +:+ " is already defined as a function")
                                 (map (note_at "location of previous definition") v)) ns)
    | _ =>
        match variable_at ns file_no contract_no n with
        | Some s =>
            what ← already_defined s;
            l ← symbol_loc s;
            Ret (false, push_diag (Diag.error_with_note (id_loc i) (n +:+ " is already defined as " +:+ what) l
                                     "location of previous definition") ns)
        | None =>
            ns ← match contract_no with Some _ => warn_outside ns file_no i | None => Ret ns end;
            let k := (file_no, contract_no, n) in
            Ret (true, match symbol with
                       | SFunction _ => set_symbols (<[k := symbol]> (function_symbols ns)) (variable_symbols ns) ns
                       | _ => set_symbols (function_symbols ns) (<[k := symbol]> (variable_symbols ns)) ns
                       end)
        end
    end.

(* [sema/namespace.rs | pub fn resolve_enum] *)
Definition resolve_enum (ns : Namespace) (file_no : nat) (contract_no : option nat) (i : Identifier) : option nat :=
  match variable_at ns file_no contract_no (id_name i) with
  | Some (SEnum _ n) => Some n
  | _ =>
      match contract_no, variable_at ns file_no None (id_name i) with
      | Some _, Some (SEnum _ n) => Some n
      | _, _ => None
      end
  end.

(* [sema/namespace.rs | pub fn resolve_contract] *)
Definition resolve_contract (ns : Namespace) (file_no : nat) (i : Identifier) : option nat :=
  match variable_at ns file_no None (id_name i) with Some (SContract _ n) => Some n | _ => None end.

(* [sema/namespace.rs | pub fn wrong_symbol] *)
Definition wrong_symbol (s : option Symbol) (i : Identifier) : Diagnostic :=
  let n := id_name i in
  Diag.decl_error (id_loc i)
    match s with
    | None => "'" +:+ n +:+ "' not found"
    | Some (SEnum _ _) => "'" +:+ n +:+ "' is an enum"
    | Some (SStruct _ _) => "'" +:+ n +:+ "' is a struct"
    | Some (SFunction _) => "'" +:+ n +:+ "' is a function"
    | Some (SContract _ _) => "'" +:+ n +:+ "' is a contract"
    | Some (SImport _ _) => "'" +:+ n +:+ "' is an import"
    | Some (SUserType _ _) => "'" +:+ n +:+ "' is an user type"
    | Some (SVariable _ _ _) => "'" +:+ n +:+ "' is a contract variable"
    end.

(* [sema/namespace.rs | pub fn resolve_var] *)
Definition resolve_var (ns : Namespace) (file_no : nat) (contract_no : option nat) (i : Identifier)
    (function_first : bool) : option Symbol :=
  let n := id_name i in
  let func := or_else (function_at ns file_no contract_no n) (function_at ns file_no None n) in
  let var := or_else (variable_at ns file_no contract_no n) (variable_at ns file_no None n) in
  if function_first then or_else func var else or_else var func.

(* [sema/namespace.rs | pub fn check_shadowing] *)
Definition check_shadowing (ns : Namespace) (file_no : nat) (contract_no : option nat) (i : Identifier) : Namespace :=
  let n := id_name i in
  let warn what l note :=
    push_diag (Diag.warning_with_note (id_loc i) ("declaration of '" +:+ n +:+ "' shadows " +:+ what) l note) ns in
  if is_reserved n then
    push_diag (Diag.warning (id_loc i) ("'" +:+ n +:+ "' shadows name of a corelib")) ns
  else
    match or_else (variable_at ns file_no contract_no n)
            (or_else (function_at ns file_no contract_no n)
               (or_else (variable_at ns file_no None n) (function_at ns file_no None n))) with
    | Some (SEnum l _) => warn "enum definition" l "previous definition of enum"
    | Some (SStruct l _) => warn "struct definition" l "previous definition of struct"
    | Some (SFunction v) =>
        push_diag (Diag.warning_with_notes (id_loc i) ("declaration of '" +:+ n +:+ "' shadows function")
                     (map (note_at "previous declaration of function") v)) ns
    | Some (SVariable l _ _) => warn "state variable" l "previous declaration of state variable"
    | Some (SContract l _) => warn "contract name" l "previous declaration of contract name"
    | Some (SUserType l _) => warn "type" l "previous declaration of type"
    | Some (SImport l _) => warn "import" l "previous declaration of import"
    | None => ns
    end.

(** [resolve_namespace]: the leading names can be imports. *)
Fixpoint skip_imports (ns : Namespace) (import_file_no : nat) (contract_no : option nat) (names : list Identifier)
    : nat * option nat * list Identifier :=
  match names with
  | n :: rest =>
      match variable_at ns import_file_no None (id_name n) with
      | Some (SImport _ f) => skip_imports ns f None rest
      | _ => (import_file_no, contract_no, names)
      end
  | [] => (import_file_no, contract_no, names)
  end.

(* [sema/namespace.rs | fn resolve_namespace] *)
Definition resolve_namespace (ns : Namespace) (names : list Identifier) (file_no : nat) (contract_no : option nat)
    (i : Identifier) : sema (option Symbol) :=
  let '(import_file_no, contract_no, names) := skip_imports ns file_no contract_no names in
  let fail_at (n : Identifier) what := sema_fail (Diag.decl_error (id_loc n) ("'" +:+ id_name n +:+ "' " +:+ what)) in
  contract_no ← (match names with
                 | [] => mret contract_no
                 | c :: rest =>
                     match or_else (variable_at ns import_file_no None (id_name c))
                             (function_at ns import_file_no None (id_name c)) with
                     | None => fail_at c "not found"
                     | Some (SContract _ n) =>
                         match rest with
                         | [] => mret (Some n)
                         | x :: _ => sema_fail (Diag.decl_error (id_loc i) ("'" +:+ id_name x +:+ "' not found"))
                         end
                     | Some (SFunction _) => fail_at c "is a function"
                     | Some (SVariable _ _ _) => fail_at c "is a contract variable"
                     | Some (SStruct _ _) => fail_at c "is a struct"
                     | Some (SEnum _ _) => fail_at c "is an enum variable"
                     | Some (SUserType _ _) => fail_at c "is an user type"
                     | Some (SImport _ _) => sema_lift Panic
                     end
                 end : sema (option nat));
  let n := id_name i in
  let s := or_else (variable_at ns import_file_no contract_no n) (function_at ns import_file_no contract_no n) in
  mret (match contract_no with
        | Some _ =>
            or_else (or_else s (variable_at ns import_file_no None n)) (function_at ns import_file_no None n)
        | None => s
        end).

(** A path of names, outermost first. *)
Fixpoint path_names (e : Pt.Expression) (acc : list Identifier) : Pt.Expression * list Identifier :=
  match e with
  | Pt.MemberAccess _ member name => path_names member (name :: acc)
  | e => (e, acc)
  end.

(* [sema/namespace.rs | pub fn expr_to_identifier_path] *)
Definition expr_to_identifier_path (e : Pt.Expression) : comp (option Pt.IdentifierPath) :=
  l ← Pt.loc e;
  match path_names e [] with
  | (Pt.Variable_ i, names) => Ret (Some {| Pt.ip_loc := l; Pt.identifiers := i :: names |})
  | _ => Ret None
  end.

(* [sema/expression/function_call.rs | pub fn available_functions] *)
Definition available_functions (ns : Namespace) (n : string) (contract_no : option nat) : comp (list nat) :=
  match contract_no with
  | None => Ret []
  | Some c =>
      c ← unwrap (contracts ns !! c);
      foldM (λ acc k, f ← unwrap (functions ns !! k);
                      Ret (if bool_decide (f_name f = n) && has_body f then acc ++ [k] else acc))
        [] (all_functions c).*1
  end.
End Names.
