(* ===== verification/Resolver.v ===== *)
(** The resolution of expressions: what the functions of
    src/src/sema/expression/ thread through each other, the overflow check of
    constant terms (ast.rs, eval.rs), and the resolution of type names
    (namespace.rs). *)
From S2P Require Import Prelude BigIntSpec Ast Types Eval Pt TypeNames SymTable Casts Names.
#[local] Set Warnings "-register-all".

Module Resolver.
Import Casts Names.

(** * The state of a resolution

    [(context: &mut ExprContext, ns: &mut Namespace, symtable: &mut Symtable,
    diagnostics: &mut Diagnostics)]; a function returns [Result<T, ()>], and
    what it did to the four stays done when it returns [Err(())]. *)
Record state : Type := mkState {
  st_ns : Namespace;
  st_sym : Sym.Symtable;
  st_ctx : ExprContext;
  st_diags : Diagnostics;
}.

Definition R (A : Type) : Type := state → comp (option A * state).
#[export] Instance R_ret : MRet R := λ A a s, Ret (Some a, s).
#[export] Instance R_bind : MBind R := λ A B f m s,
  r ← m s; match r.1 with Some a => f a r.2 | None => Ret (None, r.2) end.

Definition with_diags (d : Diagnostics) (s : state) : state := mkState (st_ns s) (st_sym s) (st_ctx s) d.
Definition with_ns (n : Namespace) (s : state) : state := mkState n (st_sym s) (st_ctx s) (st_diags s).

Definition get_ns : R Namespace := λ s, Ret (Some (st_ns s), s).
Definition get_ctx : R ExprContext := λ s, Ret (Some (st_ctx s), s).
Definition get_sym : R Sym.Symtable := λ s, Ret (Some (st_sym s), s).

(** [return Err(())] *)
Definition err {A} : R A := λ s, Ret (None, s).
(** [diagnostics.push(d)] *)
Definition push (d : Diagnostic) : R unit := λ s, Ret (Some tt, with_diags (Diags.push (st_diags s) d) s).
(** [diagnostics.push(d); return Err(())] *)
Definition fail {A} (d : Diagnostic) : R A := λ s, Ret (None, with_diags (Diags.push (st_diags s) d) s).
(** [diagnostics.extend(e)] *)
Definition extend (e : Diagnostics) : R unit := λ s, Ret (Some tt, with_diags (Diags.extend (st_diags s) e) s).
(** [diagnostics.extend_non_casting(&e)] *)
Definition extend_non_casting (e : Diagnostics) : R bool := λ s,
  let r := Diags.extend_non_casting (st_diags s) e in Ret (Some r.1, with_diags r.2 s).

(** A call that touches none of the four, only the diagnostics, only the
    namespace, or the two tables. *)
Definition lift {A} (m : comp A) : R A := λ s, a ← m; Ret (Some a, s).
Definition of_sema {A} (m : Namespace → sema A) : R A := λ s,
  r ← m (st_ns s) (st_diags s); Ret (r.1, with_diags r.2 s).
Definition read_ns {A} (f : Namespace → comp A) : R A := λ s, a ← f (st_ns s); Ret (Some a, s).
Definition modify_ns (f : Namespace → comp Namespace) : R unit := λ s, n ← f (st_ns s); Ret (Some tt, with_ns n s).
Definition use (f : Usage.tables → comp Usage.tables) : R unit := λ s,
  t ← f (st_ns s, st_sym s); Ret (Some tt, mkState t.1 t.2 (st_ctx s) (st_diags s)).

(** The [Result] of a call that the caller looks at. *)
Definition try {A} (m : R A) : R (option A) := λ s, r ← m s; Ret (Some r.1, r.2).
(** A call with diagnostics of its own: its result, and those. *)
Definition sink {A} (d : Diagnostics) (m : R A) : R (option A * Diagnostics) := λ s,
  r ← m (with_diags d s); Ret (Some (r.1, st_diags r.2), with_diags (st_diags s) r.2).
(** [context.lvalue = true], restored on every way out ([scopeguard]). *)
Definition set_lvalue (b : bool) (c : ExprContext) : ExprContext :=
  mkContext (file_no c) (contract_no c) (function_no c) (constant c) b.
Definition with_ctx (c : ExprContext) (s : state) : state := mkState (st_ns s) (st_sym s) c (st_diags s).
Definition as_lvalue {A} (m : R A) : R A := λ s,
  r ← m (with_ctx (set_lvalue true (st_ctx s)) s);
  Ret (r.1, with_ctx (set_lvalue (lvalue (st_ctx s)) (st_ctx r.2)) r.2).
(** A call with a context and a symbol table of its own. *)
Definition in_frame {A} (c : ExprContext) (t : Sym.Symtable) (m : R A) : R A := λ s,
  r ← m (mkState (st_ns s) t c (st_diags s));
  Ret (r.1, mkState (st_ns r.2) (st_sym s) (st_ctx s) (st_diags r.2)).

(** Loops. *)
Fixpoint mapR {A B} (f : A → R B) (l : list A) : R (list B) :=
  match l with [] => mret [] | a :: l => b ← f a; bs ← mapR f l; mret (b :: bs) end.
Fixpoint foldR {A B} (f : B → A → R B) (b : B) (l : list A) : R B :=
  match l with [] => mret b | a :: l => b ← f b a; foldR f b l end.

(** ** What every function uses *)

Definition ty_of (e : expression) : R ty := lift (Ex.ty_of e).
Definition pt_loc (e : Pt.Expression) : R Loc := lift (Pt.loc e).
Definition show (t : ty) : R string := read_ns (λ ns, to_string ns t).

Section Core.
Context {BI : NumBigInt}.

Definition cast (e : expression) (loc : Loc) (t : ty) : R expression := of_sema (λ ns, Casts.cast ns e loc t).
Definition coerce (l : ty) (l_loc : Loc) (r : ty) (r_loc : Loc) : R ty :=
  of_sema (λ ns, Casts.coerce ns l l_loc r r_loc).
Definition coerce_number (l : ty) (l_loc : Loc) (r : ty) (r_loc : Loc) : R ty :=
  of_sema (λ ns, Casts.coerce_number ns l l_loc r r_loc).
Definition type_bits (t : ty) (loc : Loc) : R Z := of_sema (λ ns, Casts.type_bits ns loc t).
Definition bits (t : ty) : R Z := read_ns (λ ns, Types.bits (type_fuel ns t) ns t).
Definition used (e : expression) : R unit := use (Usage.used_variable e).
Definition assigned (e : expression) : R unit := use (Usage.assigned_variable e).

(** ** The overflow check of the constant terms of an expression *)

(* [sema/ast.rs | impl Recurse for CallArgs] *)
Definition recurse_call_args {T} (rec : expression → T → comp T) (c : CallArgs expression) (t : T) : comp T :=
  match c with
  | mkCallArgs _ gas value _ =>
      t ← match gas with Some e => rec e t | None => Ret t end;
      match value with Some e => rec e t | None => Ret t end
  end.

(* [sema/ast.rs | impl Recurse for Expression] *)
Fixpoint recurse_with {T} (f : expression → T → comp (bool * T)) (e : expression) (t : T) : comp T :=
  let all l t := foldM (λ t e, recurse_with f e t) t l in
  let string_arg (s : StringLocation expression) t :=
    match s with RunTime e => recurse_with f e t | CompileTime _ => Ret t end in
  r ← f e t;
  let '(b, t) := (r : bool * T) in
  if negb b then Ret t
  else
    match e with
    | Ex.StructLiteral _ _ values | Ex.ArrayLiteral _ _ _ values | Ex.ConstArrayLiteral _ _ _ values => all values t
    | Ex.Load _ _ e | Ex.StorageLoad _ _ e | Ex.ZeroExt _ _ e | Ex.Trunc _ _ e | Ex.Cast _ _ e | Ex.BytesCast _ _ _ e
    | Ex.Increment _ _ e | Ex.Decrement _ _ e | Ex.StructMember _ _ e _ | Ex.Not _ e | Ex.BitwiseNot _ _ e =>
        recurse_with f e t
    | Ex.Add _ _ l r | Ex.Subtract _ _ l r | Ex.Multiply _ _ l r | Ex.Divide _ _ l r | Ex.Modulo _ _ l r
    | Ex.Power _ _ l r | Ex.BitwiseOr _ _ l r | Ex.BitwiseAnd _ _ l r | Ex.BitwiseXor _ _ l r
    | Ex.ShiftLeft _ _ l r | Ex.ShiftRight _ _ l r | Ex.Assign _ _ l r | Ex.More _ l r | Ex.Less _ l r
    | Ex.MoreEqual _ l r | Ex.LessEqual _ l r | Ex.Equal _ l r | Ex.NotEqual _ l r | Ex.Or _ l r | Ex.And _ l r
    | Ex.Subscript _ _ _ l r => t ← recurse_with f l t; recurse_with f r t
    | Ex.ConditionalOperator _ _ c l r => t ← recurse_with f c t; t ← recurse_with f l t; recurse_with f r t
    | Ex.AllocDynamicBytes _ _ e _ | Ex.StorageArrayLength _ _ e _ => recurse_with f e t
    | Ex.StringCompare _ l r | Ex.StringConcat _ _ l r => t ← string_arg l t; string_arg r t
    | Ex.FunctionCall _ _ function args => t ← recurse_with f function t; all args t
    | Ex.ExternalFunctionCallRaw _ _ address args c =>
        t ← recurse_with f args t; t ← recurse_with f address t; recurse_call_args (recurse_with f) c t
    | Ex.LibFunction _ _ _ l | Ex.List_ _ l => all l t
    | _ => Ret t
    end.

Definition recurse : expression → Namespace → comp Namespace := recurse_with check_term_for_constant_overflow.

(** [e.recurse(ns, check_term_for_constant_overflow)] *)
Definition check_overflow (e : expression) : R unit := modify_ns (recurse e).

(** ** How deep the evaluation of a constant goes

    An expression goes one level down at each node, and from a constant
    variable to its initializer. *)
Fixpoint expr_height (e : expression) : nat :=
  match e with
  | Ex.Add _ _ l r | Ex.Subtract _ _ l r | Ex.Multiply _ _ l r | Ex.Divide _ _ l r | Ex.Modulo _ _ l r
  | Ex.Power _ _ l r | Ex.BitwiseOr _ _ l r | Ex.BitwiseAnd _ _ l r | Ex.BitwiseXor _ _ l r
  | Ex.ShiftLeft _ _ l r | Ex.ShiftRight _ _ l r => S (Nat.max (expr_height l) (expr_height r))
  | Ex.ZeroExt _ _ e | Ex.Not _ e | Ex.BitwiseNot _ _ e | Ex.Cast _ _ e => S (expr_height e)
  | _ => 1
  end.
Definition init_height (v : VariableDecl) : nat :=
  match initializer v with Some e => expr_height e | None => 0 end.
Definition all_constants (ns : Namespace) : list VariableDecl := constants ns ++ concat (variables <$> contracts ns).
Definition eval_fuel (ns : Namespace) (e : expression) : nat :=
  S (expr_height e + length (all_constants ns) * S (max_list (init_height <$> all_constants ns))).

(** * Type names *)

Section Step.
(** The resolution of the parts. *)
Context (rec : Pt.Expression → ResolveTo → R expression).
Context (rec_type : nat → option nat → Pt.Expression → R ty).

Definition ArrayDimension : Set := option (Loc * Z).

(* [sema/namespace.rs | fn resolve_array_dimension] *)
Definition resolve_array_dimension (file : nat) (contract : option nat) (function : option nat) (e : Pt.Expression)
    : R ArrayDimension :=
  size_expr ← in_frame (mkContext file contract function true false) SymTable.SymTable.new (rec e (To (Ty.Uint 32)));
  t ← ty_of size_expr;
  match t with
  | Ty.Uint _ => n ← of_sema (λ ns, eval_const_number (eval_fuel ns size_expr) size_expr ns); mret (Some n)
  | _ => l ← pt_loc e; fail (Diag.decl_error l "expression is not a number")
  end.

(** [foo[2] foo.baz.bar]: the names before the last, the last name or the
    type, the dimensions. *)
(* [sema/namespace.rs | pub fn expr_to_type] *)
Fixpoint expr_to_type (file : nat) (contract : option nat) (e : Pt.Expression) (dimensions : list ArrayDimension)
    : R (list Identifier * Pt.Expression * list ArrayDimension) :=
  let unexpected (e : Pt.Expression) :=
    l ← pt_loc e; fail (Diag.decl_error l "expression found where type expected") in
  match e with
  | Pt.ArraySubscript _ r None => expr_to_type file contract r (dimensions ++ [None])
  | Pt.ArraySubscript _ r (Some index) =>
      d ← resolve_array_dimension file contract None index;
      expr_to_type file contract r (dimensions ++ [d])
  | Pt.Variable_ _ | Pt.Type_ _ _ => mret ([], e, dimensions)
  | Pt.MemberAccess _ namespace i =>
      match path_names namespace [] with
      | (Pt.Variable_ n, names) => mret (n :: names, Pt.Variable_ i, dimensions)
      | _ => unexpected namespace
      end
  | _ => unexpected e
  end.

(* [sema/namespace.rs | let resolve_dimensions = >> Ok(dimensions) | resolve_type] *)
Definition resolve_dimension (d : ArrayDimension) : R ArrayLength :=
  match d with
  | None => mret Dynamic
  | Some (l, n) =>
      if (n =? 0)%Z then fail (Diag.decl_error l "zero size array not permitted")
      else if (n <? 0)%Z then fail (Diag.decl_error l "negative size of array declared")
      else if (u32_max <? n)%Z
      then fail (Diag.decl_error l ("array dimension of " +:+ pretty n +:+ " exceeds the maximum of 4294967295 on ola"))
      else mret (Fixed n)
  end.
(** Innermost dimension first. *)
Definition resolve_dimensions (l : list ArrayDimension) : R (list ArrayLength) := mapR resolve_dimension (reverse l).

Definition array_of (t : ty) (dimensions : list ArrayDimension) : R ty :=
  match dimensions with [] => mret t | _ => d ← resolve_dimensions dimensions; mret (Ty.Array t d) end.

(* [sema/namespace.rs | let ty = match ty { >> Type::from(ty) | resolve_type] *)
Definition resolve_type_keyword (file : nat) (contract : option nat) (t : Pt.PtType) : R ty :=
  match t with
  | Pt.TMapping _ key key_name value value_name =>
      key_ty ← rec_type file contract key;
      value_ty ← rec_type file contract value;
      let fail_key what := l ← pt_loc key; fail (Diag.decl_error l ("key of mapping cannot be " +:+ what)) in
      match key_ty with
      | Ty.Mapping _ _ _ _ => fail_key "another mapping type"
      | Ty.Struct _ => fail_key "struct type"
      | Ty.Array _ _ => fail_key "array type"
      | _ => mret (Ty.Mapping key_ty key_name value_ty value_name)
      end
  | t => lift (Pt.type_from t)
  end.

(* [sema/namespace.rs | pub fn resolve_type] *)
Definition resolve_type (file : nat) (contract : option nat) (e : Pt.Expression) : R ty :=
  '(namespace, e, dimensions) ← expr_to_type file contract e [];
  match e with
  | Pt.Type_ _ t =>
      _ ← lift (assert_c (bool_decide (namespace = [])));
      t ← resolve_type_keyword file contract t;
      array_of t dimensions
  | Pt.Variable_ i =>
      let wrong what := fail (Diag.decl_error (id_loc i) ("'" +:+ id_name i +:+ "' is " +:+ what)) in
      s ← of_sema (λ ns, resolve_namespace ns namespace file contract i);
      match s with
      | None => fail (Diag.decl_error (id_loc i) ("type '" +:+ id_name i +:+ "' not found"))
      | Some (SEnum _ n) => array_of (Ty.Enum n) dimensions
      | Some (SStruct _ n) => array_of (Ty.Struct n) dimensions
      | Some (SContract _ n) => array_of (Ty.Contract n) dimensions
      | Some (SFunction _) => wrong "a function"
      | Some (SVariable _ _ _) => wrong "a contract variable"
      | Some (SImport _ _) => wrong "an import variable"
      | Some (SUserType _ n) => mret (Ty.UserType n)
      end
  | _ => lift Panic
  end.
End Step.
End Core.
End Resolver.
