(* ===== verification/Literals.v ===== *)
(** Literals (src/src/sema/expression/literals.rs) and the escapes of string
    literals (strings.rs). *)
From Stdlib Require Import Ascii.
From S2P Require Import Prelude BigIntSpec Ast Types Eval Pt TypeNames SymTable Casts Names Resolver.
#[local] Set Warnings "-register-all".

Module Literals.
Import Casts Names Resolver.

(** ** The text of a literal

    A Rust string is its bytes in UTF-8; [char_indices] yields each character
    with the offset of its first byte. *)
Definition bytes : Type := list Ascii.ascii.
Definition bytes_of (s : string) : bytes := String.list_ascii_of_string s.
Definition byte_value (c : Ascii.ascii) : Z := Z.of_nat (Ascii.nat_of_ascii c).

(** A character: the offset of its first byte, its code point and its bytes. *)
Record char : Type := mkChar { offset : nat; code : Z; encoded : bytes }.

Definition continuation (c : Ascii.ascii) : Z := Z.land (byte_value c) 63.
Fixpoint char_indices (i : nat) (s : bytes) : list char :=
  match s with
  | [] => []
  | a :: s =>
      let v := byte_value a in
      if (v <? 128)%Z then mkChar i v [a] :: char_indices (S i) s
      else if (v <? 224)%Z then
        match s with
        | b :: s => mkChar i (Z.land v 31 * 64 + continuation b) [a; b] :: char_indices (2 + i) s
        | [] => []
        end
      else if (v <? 240)%Z then
        match s with
        | b :: c :: s =>
            mkChar i ((Z.land v 15 * 64 + continuation b) * 64 + continuation c) [a; b; c] :: char_indices (3 + i) s
        | _ => []
        end
      else
        match s with
        | b :: c :: d :: s =>
            mkChar i (((Z.land v 7 * 64 + continuation b) * 64 + continuation c) * 64 + continuation d) [a; b; c; d]
              :: char_indices (4 + i) s
        | _ => []
        end
  end.

(** [s.trim_end_matches(pat)] *)
Fixpoint strip_prefix (p s : bytes) : option bytes :=
  match p, s with
  | [], _ => Some s
  | a :: p, b :: s => if Ascii.eqb a b then strip_prefix p s else None
  | _, [] => None
  end.
Fixpoint trim_start (n : nat) (p s : bytes) : bytes :=
  match n with
  | O => s
  | S n => match strip_prefix p s with Some s => trim_start n p s | None => s end
  end.
Definition trim_end_matches (pat : string) (s : bytes) : bytes :=
  reverse (trim_start (length s) (reverse (bytes_of pat)) (reverse s)).

(** [s.chunks(n)] *)
Fixpoint chunks_fuel (fuel n : nat) (s : bytes) : list bytes :=
  match fuel, s with
  | S fuel, _ :: _ => take n s :: chunks_fuel fuel n (drop n s)
  | _, _ => []
  end.
Definition chunks (n : nat) (s : bytes) : list bytes := chunks_fuel (length s) n s.

(** [u64::from_str_radix(s, 16)]: one plus sign is allowed. *)
Definition from_str_radix_u64 (s : bytes) : option Z :=
  v ← digits_value 16 (match s with c :: rest => if Ascii.eqb c "+"%char then rest else s | [] => [] end);
  if in_u64 v then Some v else None.

(** ** Strings *)

(** [char::from_u32] *)
Definition char_from_u32 (c : Z) : option Z :=
  if ((c <? 55296) || (57343 <? c) && (c <=? 1114111))%Z then Some c else None.

(** The digits of an escape, or the offset after the character that is not
    one; [None] is the greatest offset. *)
(* [sema/expression/strings.rs | pub(super) fn get_digits] *)
Fixpoint get_digits (n : nat) (acc : Z) (input : list char) : (Z + option nat) * list char :=
  match n with
  | O => (inl acc, input)
  | S n =>
      match input with
      | ch :: rest =>
          match (match encoded ch with [c] => digit 16 c | _ => None end) with
          | Some v => get_digits n (Z.shiftl acc 4 + v)%Z rest
          | None => match rest with ch :: rest => (inr (Some (offset ch)), rest) | [] => (inr None, []) end
          end
      | [] => (inr None, [])
      end
  end.

Section Unescape.
Context (literal : bytes) (start file : nat).

(** [start + std::cmp::min(literal.len(), offset)] *)
Definition up_to (offset : option nat) : nat :=
  start + match offset with Some i => Nat.min (length literal) i | None => length literal end.

Definition lit (c : Ascii.ascii) : Z := byte_value c.
Definition escape_error (i e : nat) (message : string) : Diagnostic := Diag.error (File_ file i e) message.

(** One escape: the characters it stands for, what is reported, the rest. *)
(* [sema/expression/strings.rs | 23-77 | unescape] *)
Definition escape (ch : char) (rest : list char) : list Z * option Diagnostic * list char :=
  let i := offset ch in
  match encoded ch with
  | ["010"%char] => ([], None, rest)
  | ["\"%char] => ([byte_value "\"], None, rest)
  | ["'"%char] => ([byte_value "'"], None, rest)
  | ["034"%char] => ([34%Z], None, rest)
  | ["b"%char] => ([8%Z], None, rest)
  | ["f"%char] => ([12%Z], None, rest)
  | ["n"%char] => ([10%Z], None, rest)
  | ["r"%char] => ([13%Z], None, rest)
  | ["t"%char] => ([9%Z], None, rest)
  | ["v"%char] => ([11%Z], None, rest)
  | ["x"%char] =>
      match get_digits 2 0 rest with
      | (inl v, rest) => ([v], None, rest)
      | (inr off, rest) =>
          ([], Some (escape_error (start + i) (up_to off) "\x escape should be followed by two hex digits"), rest)
      end
  | ["u"%char] =>
      match get_digits 4 0 rest with
      | (inl v, rest) =>
          match char_from_u32 v with
          | Some c => ([c], None, rest)
          | None => ([], Some (escape_error (start + i) (start + i + 6) "Found an invalid unicode character"), rest)
          end
      | (inr off, rest) =>
          ([], Some (escape_error (start + i) (up_to off) "\u escape should be followed by four hex digits"), rest)
      end
  | e =>
      ([], Some (escape_error (start + i) (start + i + length e)
                   ("unknown escape character '" +:+ String.string_of_list_ascii e +:+ "'")), rest)
  end.

(** Every turn takes a character away. *)
(* [sema/expression/strings.rs | pub(crate) fn unescape] *)
Fixpoint unescape_loop (fuel : nat) (s : list Z) (chars : list char) (d : Diagnostics) : comp (list Z * Diagnostics) :=
  match fuel with O => OutOfFuel | S fuel =>
  match chars with
  | [] => Ret (s, d)
  | ch :: rest =>
      if bool_decide (encoded ch = ["\"%char]) then
        match rest with
        | [] => Panic
        | ch :: rest =>
            let '(cs, report, rest) := escape ch rest in
            unescape_loop fuel (s ++ cs) rest (match report with Some x => Diags.push d x | None => d end)
        end
      else unescape_loop fuel (s ++ [code ch]) rest d
  end
  end.
End Unescape.

Definition unescape (literal : bytes) (start file : nat) (d : Diagnostics) : comp (list Z * Diagnostics) :=
  unescape_loop literal start file (S (length literal)) [] (char_indices 0 literal) d.

(* [sema/expression/literals.rs | pub(super) fn string_literal] *)
Definition string_literal (v : list Pt.StringLiteral_) (file : nat) : R expression := λ s,
  first ← unwrap (head v);
  '(result, l, d) ← foldM (λ '(result, l, d) (x : Pt.StringLiteral_),
                       start ← Pt.start (Pt.sl_loc x);
                       '(cs, d) ← unescape (bytes_of (Pt.sl_string x)) start file d;
                       l ← Pt.use_end_from l (Pt.sl_loc x);
                       Ret (result ++ cs, l, d))
                     ([], Pt.sl_loc first, st_diags s) v;
  Ret (Some (Ex.AllocDynamicBytes l Ty.String_ (Ex.NumberLiteral l (Ty.Uint 32) (Z.of_nat (length result)))
               (Some result)), with_diags d s).

(** ** Numbers *)

Section Numbers.
Context {BI : NumBigInt}.

(** Sixteen hexadecimal digits for each field element. *)
Fixpoint field_chunks (out_of_range : Z → Diagnostic) (l : list bytes) : R (list Z) :=
  match l with
  | [] => mret []
  | chunk :: l =>
      v ← lift (unwrap (from_str_radix_u64 chunk));
      if (FIELD_ORDER <? v)%Z then fail (out_of_range v)
      else vs ← field_chunks out_of_range l; mret (v :: vs)
  end.

(** An address and a hash are 64 digits, four field elements. *)
Definition four_fields (loc : Loc) (what : string) (s : bytes) : R (list Z) :=
  let text := String.string_of_list_ascii s in
  if negb (existsb (Ascii.eqb "_") s) && bool_decide (length s = 64%nat) then
    field_chunks (λ _, Diag.error loc (what +:+ " literal " +:+ text +:+ " out of range")) (chunks 16 s)
  else
    fail (Diag.error loc (what +:+ " literal " +:+ text +:+ " incorrect length of " +:+ pretty (length s))).

(* [sema/expression/literals.rs | pub(super) fn address_literal] *)
Definition address_literal (loc : Loc) (address : string) : R expression :=
  v ← four_fields loc "address" (trim_end_matches "address" (bytes_of address));
  mret (Ex.AddressLiteral loc Ty.Address v).
(* [sema/expression/literals.rs | pub(super) fn hash_literal] *)
Definition hash_literal (loc : Loc) (hash : string) : R expression :=
  v ← four_fields loc "hash" (trim_end_matches "hash" (bytes_of hash));
  mret (Ex.HashLiteral loc Ty.Hash v).
(* [sema/expression/literals.rs | pub(super) fn fields_literal] *)
Definition fields_literal (loc : Loc) (n : string) : R expression :=
  let s := trim_end_matches "fields" (bytes_of n) in
  v ← field_chunks (λ v, Diag.error loc ("fields literal " +:+ pretty v +:+ " out of range")) (chunks 16 s);
  mret (Ex.AllocDynamicBytes loc Ty.DynamicBytes (Ex.NumberLiteral loc (Ty.Uint 32) (Z.of_nat (length v))) (Some v)).

(* [sema/expression/literals.rs | pub(super) fn number_literal] *)
Definition number_literal (loc : Loc) (integer : string) (r : ResolveTo) : R expression :=
  n ← lift (unwrap (bi_from_str_radix (bytes_of integer) 10));
  of_sema (λ ns, bigint_to_expression ns loc n r).
(* [sema/expression/literals.rs | pub(super) fn hex_number_literal] *)
Definition hex_number_literal (loc : Loc) (n : string) (r : ResolveTo) : R expression :=
  n ← lift (unwrap (bi_from_str_radix (bytes_of n) 16));
  of_sema (λ ns, bigint_to_expression ns loc n r).
End Numbers.
End Literals.
