(* ===== verification/Operators.v ===== *)
(** Operators and assignments: src/src/sema/expression/arithmetic.rs and
    assign.rs, and the comparisons and logical operators of
    resolve_expression.rs. *)
From S2P Require Import Prelude BigIntSpec Ast Types Eval Pt TypeNames SymTable Casts Names Resolver.
#[local] Set Warnings "-register-all".
#[local] Open Scope Z_scope.

Module Operators.
Import Casts Names Resolver.

(** What an operator combines: its operands, converted to their common type. *)
Definition binary_node : Type := Loc → ty → expression → expression → expression.

Definition field_not_allowed {A} (loc : Loc) : R A := fail (Diag.error loc "operator is not allowed on type field").

Definition is_zero_literal (e : expression) : bool :=
  match e with Ex.NumberLiteral _ _ value => value =? 0 | _ => false end.

(** [matches!(ty, Type::Uint(_) | Type::Field)] *)
Definition is_number (t : ty) : bool := match t with Ty.Uint _ | Ty.Field => true | _ => false end.
Definition is_uint (t : ty) : bool := match t with Ty.Uint _ => true | _ => false end.
Definition is_ref (t : ty) : bool := match t with Ty.Ref _ => true | _ => false end.

Definition constant_name (contract_no : option nat) (var_no : nat) (ns : Namespace) : comp string :=
  match contract_no with
  | Some c =>
      contract ← unwrap (contracts ns !! c);
      v ← unwrap (variables contract !! var_no);
      Ret (v_name v)
  | None => v ← unwrap (constants ns !! var_no); Ret (v_name v)
  end.
Definition assign_to_constant {A} (loc : Loc) (contract_no : option nat) (var_no : nat) : R A :=
  n ← read_ns (constant_name contract_no var_no);
  fail (Diag.error loc ("cannot assign to constant '" +:+ n +:+ "'")).
Definition incorrect_variable {A} (var : expression) (var_no : nat) (var_ty : ty) : R A :=
  s ← get_sym;
  n ← lift (SymTable.SymTable.get_name s var_no);
  t ← show var_ty;
  fail (Diag.error (Ex.loc var) ("variable '" +:+ n +:+ "' of incorrect type " +:+ t)).
Definition incorrect_type {A} (var : expression) (t : ty) : R A :=
  t ← show t; fail (Diag.error (Ex.loc var) ("assigning to incorrect type " +:+ t)).

Section Operators.
Context {BI : NumBigInt}.
Context (rec : Pt.Expression → ResolveTo → R expression).

(** ** Arithmetic *)

(** Both operands, and their number type. *)
Definition resolve_operands (l r : Pt.Expression) (to_l to_r : ResolveTo) : R (expression * expression) :=
  left ← rec l to_l;
  right ← rec r to_r;
  mret (left, right).
Definition number_type (l r : Pt.Expression) (left right : expression) : R ty :=
  _ ← use (Usage.check_var_usage_expression left right);
  lt ← ty_of left;
  l_loc ← pt_loc l;
  rt ← ty_of right;
  r_loc ← pt_loc r;
  coerce_number lt l_loc rt r_loc.
Definition cast_operands (node : binary_node) (loc : Loc) (l r : Pt.Expression) (t : ty) (left right : expression)
    : R expression :=
  l_loc ← pt_loc l;
  left ← cast left l_loc t;
  r_loc ← pt_loc r;
  right ← cast right r_loc t;
  mret (node loc t left right).

(* [sema/expression/arithmetic.rs | pub(super) fn subtract] *)
Definition subtract (loc : Loc) (l r : Pt.Expression) (to_ : ResolveTo) : R expression :=
  '(le, re) ← resolve_operands l r to_ to_;
  t ← number_type l r le re;
  cast_operands Ex.Subtract loc l r t le re.

(** An operator that field elements do not have. *)
Definition no_field_operator (node : binary_node) (check : expression → R unit)
    (loc : Loc) (l r : Pt.Expression) (to_ : ResolveTo) : R expression :=
  '(le, re) ← resolve_operands l r to_ to_;
  _ ← check re;
  t ← number_type l r le re;
  if Ty.eqb t Ty.Field then field_not_allowed loc else cast_operands node loc l r t le re.

(* [sema/expression/arithmetic.rs | pub(super) fn bitwise_or] *)
Definition bitwise_or := no_field_operator Ex.BitwiseOr (λ _, mret tt).
(* [sema/expression/arithmetic.rs | pub(super) fn bitwise_and] *)
Definition bitwise_and := no_field_operator Ex.BitwiseAnd (λ _, mret tt).
(* [sema/expression/arithmetic.rs | pub(super) fn bitwise_xor] *)
Definition bitwise_xor := no_field_operator Ex.BitwiseXor (λ _, mret tt).

Definition not_zero (loc : Loc) (what : string) (e : expression) : R unit :=
  if is_zero_literal e then fail (Diag.error loc (what +:+ " by zero is not allowed.")) else mret tt.
(* [sema/expression/arithmetic.rs | pub(super) fn divide] *)
Definition divide (loc : Loc) := no_field_operator Ex.Divide (not_zero loc "Division") loc.
(* [sema/expression/arithmetic.rs | pub(super) fn modulo] *)
Definition modulo (loc : Loc) := no_field_operator Ex.Modulo (not_zero loc "Modulo") loc.

(* [sema/expression/arithmetic.rs | pub(super) fn cast_shift_arg] *)
Definition cast_shift_arg (loc : Loc) (e : expression) (from_width : Z) (t : ty) : R expression :=
  to_width ← bits t;
  mret (if from_width =? to_width then e
        else if from_width <? to_width then Ex.ZeroExt loc t e
        else Ex.Trunc loc t e).

(** The widths of the operands of a shift: the left one is checked only. *)
Definition shift_widths (l r : Pt.Expression) (left right : expression) : R Z :=
  _ ← use (Usage.check_var_usage_expression left right);
  lt ← ty_of left;
  l_loc ← pt_loc l;
  _ ← type_bits lt l_loc;
  rt ← ty_of right;
  r_loc ← pt_loc r;
  type_bits rt r_loc.

(* [sema/expression/arithmetic.rs | pub(super) fn shift_left] *)
Definition shift_left (loc : Loc) (l r : Pt.Expression) (to_ : ResolveTo) : R expression :=
  '(le, re) ← resolve_operands l r to_ Unknown;
  right_length ← shift_widths l r le re;
  lt ← ty_of le;
  let left_type := deref_any lt in
  if Ty.eqb left_type Ty.Field then field_not_allowed loc
  else
    le ← cast le loc left_type;
    re ← cast_shift_arg loc re right_length left_type;
    mret (Ex.ShiftLeft loc left_type le re).

(* [sema/expression/arithmetic.rs | pub(super) fn shift_right] *)
Definition shift_right (loc : Loc) (l r : Pt.Expression) (to_ : ResolveTo) : R expression :=
  '(le, re) ← resolve_operands l r to_ Unknown;
  right_length ← shift_widths l r le re;
  left_type ← ty_of le;
  if Ty.eqb left_type Ty.Field then field_not_allowed loc
  else
    re ← cast_shift_arg loc re right_length left_type;
    mret (Ex.ShiftRight loc left_type le re).

(** Twice the width of the operands, at most 256: a [u16] product. *)
Definition wide_type (t : ty) : R ty :=
  b ← bits t;
  b2 ← lift (if b * 2 <? 65536 then Ret (b * 2) else Panic);
  mret (Ty.Uint (Z.min 256 b2)).

Definition is_unknown (r : ResolveTo) : bool := match r with Unknown => true | _ => false end.

(** The second call is for a type. *)
(* [sema/expression/arithmetic.rs | pub(super) fn multiply] *)
Definition multiply (loc : Loc) (l r : Pt.Expression) (to_ : ResolveTo) : R expression :=
  let once to_ (k : ty → expression → expression → R expression) :=
    '(le, re) ← resolve_operands l r to_ to_;
    t ← number_type l r le re;
    k t le re in
  let finish t left right := cast_operands Ex.Multiply loc l r t left right in
  once to_ (λ t left right,
    if is_unknown to_ then wide ← wide_type t; once (To wide) finish
    else finish t left right).

(* [sema/expression/arithmetic.rs | pub(super) fn power] *)
Definition power (loc : Loc) (b e : Pt.Expression) (to_ : ResolveTo) : R expression :=
  base ← rec b to_;
  base ← if is_unknown to_ then rec b (To (Ty.Uint 256)) else mret base;
  exp ← rec e to_;
  t ← number_type b e base exp;
  if Ty.eqb t Ty.Field then field_not_allowed loc else cast_operands Ex.Power loc b e t base exp.

(* [sema/expression/arithmetic.rs | pub(super) fn addition] *)
Definition addition (loc : Loc) (l r : Pt.Expression) (to_ : ResolveTo) : R expression :=
  '(le, re) ← resolve_operands l r to_ to_;
  t ← number_type l r le re;
  '(le, re) ← (if is_unknown to_
               then wide ← wide_type t; resolve_operands l r (To wide) (To wide)
               else mret (le, re));
  cast_operands Ex.Add loc l r t le re.

(** ** Comparisons *)

(** [cast] to the type under the reference. *)
Definition cast_deref (e : expression) (t : ty) : R expression := cast e (Ex.loc e) (deref_any t).
Definition string_like (t : ty) : bool := match t with Ty.String_ | Ty.DynamicBytes => true | _ => false end.
Definition is_string (t : ty) : bool := match t with Ty.String_ => true | _ => false end.

(* [sema/expression/arithmetic.rs | pub(super) fn is_string_equal] *)
Definition is_string_equal (loc : Loc) (left : expression) (left_type : ty) (right : expression) (right_type : ty)
    : R (option expression) :=
  let against (v : list Z) e t := c ← cast_deref e t; mret (Some (Ex.StringCompare loc (RunTime c) (CompileTime v))) in
  let strings :=
    if is_string (deref_any left_type) && is_string (deref_any right_type)
    then a ← cast_deref left left_type; b ← cast_deref right right_type;
         mret (Some (Ex.StringCompare loc (RunTime a) (RunTime b)))
    else mret None in
  let right_literal :=
    match right with
    | Ex.BytesLiteral _ _ v => if string_like (deref_any left_type) then against v left left_type else strings
    | _ => strings
    end in
  match left with
  | Ex.BytesLiteral _ _ v => if string_like (deref_any right_type) then against v right right_type else right_literal
  | _ => right_literal
  end.

(** Both operands as integers, a string comparison if they are strings. *)
Definition compare_operands (loc : Loc) (l r : Pt.Expression)
    : R (expression * expression * ty * ty * option expression) :=
  left ← rec l Integer;
  right ← rec r Integer;
  _ ← use (Usage.check_var_usage_expression left right);
  lt ← ty_of left;
  rt ← ty_of right;
  s ← is_string_equal loc left lt right rt;
  mret (left, right, lt, rt, s).
Definition common_type (l r : Pt.Expression) (lt rt : ty) : R ty :=
  l_loc ← pt_loc l; r_loc ← pt_loc r; coerce lt l_loc rt r_loc.

(* [sema/expression/arithmetic.rs | pub(super) fn equal] *)
Definition equal (loc : Loc) (l r : Pt.Expression) : R expression :=
  '(_, _, lt, rt, s) ← compare_operands loc l r;
  match s with
  | Some e => mret e
  | None =>
      t ← common_type l r lt rt;
      left ← rec l (To t);
      right ← rec r (To t);
      left ← cast left (Ex.loc left) t;
      right ← cast right (Ex.loc right) t;
      mret (Ex.Equal loc left right)
  end.

(* [sema/expression/arithmetic.rs | pub(super) fn not_equal] *)
Definition not_equal (loc : Loc) (l r : Pt.Expression) : R expression :=
  '(le, re, lt, rt, s) ← compare_operands loc l r;
  match s with
  | Some e => mret (Ex.Not loc e)
  | None =>
      t ← common_type l r lt rt;
      cast_operands (λ loc _ a b, Ex.NotEqual loc a b) loc l r t le re
  end.

(* [sema/expression/resolve_expression.rs | program::Expression::More(loc, l, r) >> program::Expression::Equal(loc | expression] *)
Definition ordering (node : Loc → expression → expression → expression) (loc : Loc) (l r : Pt.Expression)
    : R expression :=
  no_field_operator (λ loc _ left right, node loc left right) (λ _, mret tt) loc l r Integer.

(* [sema/expression/resolve_expression.rs | program::Expression::Not(loc, e) => >> program::Expression::BitwiseNot(loc | expression] *)
Definition logical_not (loc : Loc) (e : Pt.Expression) (to_ : ResolveTo) : R expression :=
  expr ← rec e to_;
  _ ← used expr;
  t ← ty_of expr;
  if Ty.eqb t Ty.Field then field_not_allowed loc
  else c ← cast expr loc Ty.Bool; mret (Ex.Not loc c).

(* [sema/expression/resolve_expression.rs | program::Expression::BitwiseNot(loc, e) => >> program::Expression::ConditionalOperator | expression] *)
Definition bitwise_not (loc : Loc) (e : Pt.Expression) (to_ : ResolveTo) : R expression :=
  expr ← rec e to_;
  _ ← used expr;
  t ← ty_of expr;
  if Ty.eqb t Ty.Field then field_not_allowed loc
  else _ ← type_bits t loc; mret (Ex.BitwiseNot loc t expr).

(* [sema/expression/resolve_expression.rs | program::Expression::Or(loc, left, right) >> program::Expression::Type(loc | expression] *)
Definition logical (node : Loc → expression → expression → expression) (loc : Loc) (l r : Pt.Expression)
    : R expression :=
  left ← rec l (To Ty.Bool);
  left ← cast left loc Ty.Bool;
  right ← rec r (To Ty.Bool);
  right ← cast right loc Ty.Bool;
  _ ← use (Usage.check_var_usage_expression left right);
  mret (node loc left right).

(* [sema/expression/resolve_expression.rs | program::Expression::ConditionalOperator(loc, c, l, r) >> // decrement/increment | expression] *)
Definition conditional (loc : Loc) (c l r : Pt.Expression) (to_ : ResolveTo) : R expression :=
  left ← rec l to_;
  right ← rec r to_;
  _ ← use (Usage.check_var_usage_expression left right);
  cond ← rec c to_;
  _ ← used cond;
  c_loc ← pt_loc c;
  cond ← cast cond c_loc Ty.Bool;
  lt ← ty_of left;
  rt ← ty_of right;
  t ← common_type l r lt rt;
  cast_operands (λ loc t left right, Ex.ConditionalOperator loc t cond left right) loc l r t left right.

(** ** Increment and decrement *)

(** Through a reference. *)
(* [sema/expression/arithmetic.rs | 670-698 | incr_decr] *)
Definition modify_place (op : expression → ty → expression) (var : expression) (var_ty : ty) : R expression :=
  match var_ty with
  | Ty.Ref r => if is_number r then mret (op var r) else incorrect_type var r
  | Ty.StorageRef r => if is_uint r then mret (op var r) else incorrect_type var r
  | _ => fail (Diag.error (Ex.loc var) "expression is not modifiable")
  end.

(* [sema/expression/arithmetic.rs | pub(super) fn incr_decr] *)
Definition incr_decr (v : Pt.Expression) (op : expression → ty → expression) : R expression :=
  as_lvalue (
    var ← rec v Unknown;
    _ ← used var;
    var_ty ← ty_of var;
    match var with
    | Ex.ConstantVariable loc _ contract_no var_no => assign_to_constant loc contract_no var_no
    | Ex.Variable_ _ t var_no => if is_number t then mret (op var t) else incorrect_variable var var_no var_ty
    | _ => modify_place op var var_ty
    end).

(** ** Assignments *)

(** Through a reference; a reference to a reference is loaded first. *)
(* [sema/expression/assign.rs | 98-126 | assign_single] *)
Definition assign_place (loc : Loc) (var : expression) (var_ty : ty) (cast_val : ty → R expression) : R expression :=
  match var_ty with
  | Ty.Ref (Ty.Ref r) =>
      l ← cast var loc (Ty.Ref r);
      v ← cast_val (deref_memory (Ty.Ref r));
      mret (Ex.Assign loc (deref_memory (Ty.Ref r)) l v)
  | Ty.Ref r => v ← cast_val r; mret (Ex.Assign loc r var v)
  | Ty.StorageRef r => v ← cast_val r; mret (Ex.Assign loc var_ty var v)
  | _ => fail (Diag.error (Ex.loc var) "expression is not assignable")
  end.

(* [sema/expression/assign.rs | pub(super) fn assign_single] *)
Definition assign_single (loc : Loc) (left right : Pt.Expression) : R expression :=
  as_lvalue (
    var ← rec left Unknown;
    _ ← assigned var;
    var_ty ← ty_of var;
    val ← rec right (To (deref_any var_ty));
    _ ← check_overflow val;
    _ ← used val;
    let cast_val t := r_loc ← pt_loc right; cast val r_loc t in
    match var with
    | Ex.ConstantVariable loc _ contract_no var_no => assign_to_constant loc contract_no var_no
    | Ex.StorageVariable loc t _ _ => v ← cast_val (deref_any t); mret (Ex.Assign loc (deref_any t) var v)
    | Ex.Variable_ _ t _ => v ← cast_val t; mret (Ex.Assign loc t var v)
    | _ => assign_place loc var var_ty cast_val
    end).

(** The operator of a compound assignment. *)
Inductive assign_op : Set :=
  | OpAdd | OpSubtract | OpMultiply | OpOr | OpAnd | OpXor | OpShiftLeft | OpShiftRight | OpDivide | OpModulo.
Definition is_shift (o : assign_op) : bool := match o with OpShiftLeft | OpShiftRight => true | _ => false end.
Definition allowed_on_field (o : assign_op) : bool :=
  match o with OpAdd | OpSubtract | OpMultiply => true | _ => false end.

(** The value that a compound assignment stores. *)
(* [sema/expression/assign.rs | let op = >> match &var { | assign_expr] *)
Definition assign_value (o : assign_op) (loc : Loc) (left right : Pt.Expression) (set : expression) (set_type : ty)
    (assign : expression) (t : ty) : R expression :=
  set ← (if is_shift o then
           left_length ← type_bits t loc;
           l_loc ← pt_loc left;
           right_length ← type_bits set_type l_loc;
           mret (if left_length =? right_length then set
                 else if right_length <? left_length then Ex.ZeroExt loc t set
                 else Ex.Trunc loc t set)
         else r_loc ← pt_loc right; cast set r_loc t);
  match o with
  | OpAdd => mret (Ex.Add loc t assign set)
  | OpSubtract => mret (Ex.Subtract loc t assign set)
  | OpMultiply => mret (Ex.Multiply loc t assign set)
  | OpOr => mret (Ex.BitwiseOr loc t assign set)
  | OpAnd => mret (Ex.BitwiseAnd loc t assign set)
  | OpXor => mret (Ex.BitwiseXor loc t assign set)
  | OpShiftLeft => mret (Ex.ShiftLeft loc t assign set)
  | OpShiftRight => mret (Ex.ShiftRight loc t assign set)
  | OpDivide => _ ← not_zero loc "Division" set; mret (Ex.Divide loc t assign set)
  | OpModulo => _ ← not_zero loc "Modulo" set; mret (Ex.Modulo loc t assign set)
  end.

(* [sema/expression/assign.rs | 356-416 | assign_expr] *)
Definition store_place (loc : Loc) (var : expression) (var_ty : ty) (op : expression → ty → R expression)
    : R expression :=
  match var_ty with
  | Ty.Ref r =>
      if is_number r then c ← cast var loc r; v ← op c r; mret (Ex.Assign loc r var v)
      else
        match r with
        | Ty.Ref (Ty.Uint n) =>
            l ← cast var loc r;
            c ← cast var loc (Ty.Uint n);
            v ← op c (Ty.Uint n);
            mret (Ex.Assign loc (Ty.Uint n) l v)
        | _ => incorrect_type var r
        end
  | Ty.StorageRef r =>
      if is_uint r then c ← cast var loc r; v ← op c r; mret (Ex.Assign loc r var v)
      else incorrect_type var r
  | _ => fail (Diag.error (Ex.loc var) "expression is not assignable")
  end.

(* [sema/expression/assign.rs | 306-355 | assign_expr] *)
Definition store_through (loc : Loc) (var : expression) (var_ty : ty) (op : expression → ty → R expression)
    : R expression :=
  match var with
  | Ex.ConstantVariable loc _ contract_no var_no => assign_to_constant loc contract_no var_no
  | Ex.Variable_ _ _ var_no =>
      if is_number var_ty then v ← op var var_ty; mret (Ex.Assign loc Ty.Void var v)
      else incorrect_variable var var_no var_ty
  | _ => store_place loc var var_ty op
  end.

(* [sema/expression/assign.rs | pub(super) fn assign_expr >> let op = | assign_expr] *)
Definition assign_expr (o : assign_op) (loc : Loc) (left right : Pt.Expression) : R expression :=
  as_lvalue (
    var ← rec left Unknown;
    _ ← assigned var;
    var_ty ← ty_of var;
    if negb (allowed_on_field o) && Ty.eqb var_ty Ty.Field then field_not_allowed (Ex.loc var)
    else
      set ← rec right (if is_shift o then Unknown else To (deref_any var_ty));
      _ ← used set;
      set_type ← ty_of set;
      store_through loc var var_ty (assign_value o loc left right set set_type)).
End Operators.
End Operators.
