(* ===== verification/Access.v ===== *)
(** What an expression refers to: variables (src/src/sema/expression/variable.rs),
    members (member_access.rs), array elements and slices (subscript.rs,
    slice.rs), and the values put together from parts: struct and array
    literals (literals.rs) and new arrays (constructor.rs). *)
From S2P Require Import Prelude BigIntSpec Ast Types Eval Pt TypeNames SymTable Casts Names Resolver.
From S2P Require Import Operators.
#[local] Set Warnings "-register-all".

Module Access.
Import Casts Names Resolver Operators.

Definition is_function_type (r : ResolveTo) : bool := match r with To (Ty.Function_ _ _) => true | _ => false end.

(** A sequence with the position of each element. *)
Fixpoint find_at {A} (p : A → bool) (i : nat) (l : list A) : option (nat * A) :=
  match l with [] => None | a :: l => if p a then Some (i, a) else find_at p (S i) l end.
Definition find {A} (p : A → bool) (l : list A) : option (nat * A) := find_at p 0 l.

Section Access.
Context {BI : NumBigInt}.
Context (rec : Pt.Expression → ResolveTo → R expression).
Context (rec_type : nat → option nat → Pt.Expression → R ty).

(** ** Variables *)

Definition fn_type (f : Function) : ty := Ty.Function_ (p_ty <$> f_params f) (p_ty <$> f_returns f).

(* [sema/expression/variable.rs | pub(super) fn variable] *)
Definition variable (i : Identifier) (to_ : ResolveTo) : R expression :=
  let n := id_name i in
  let l := id_loc i in
  s ← get_sym;
  ctx ← get_ctx;
  match SymTable.SymTable.find s n with
  | Some v =>
      if constant ctx then fail (Diag.error l ("cannot read variable '" +:+ n +:+ "' in constant expression"))
      else mret (Ex.Variable_ l (Sym.vty v) (Sym.pos v))
  | None =>
      ns ← get_ns;
      match resolve_var ns (file_no ctx) (contract_no ctx) i (is_function_type to_) with
      | Some (SVariable _ (Some c) var_no) =>
          contract ← lift (unwrap (contracts ns !! c));
          var ← lift (unwrap (variables contract !! var_no));
          if v_constant var then mret (Ex.ConstantVariable l (v_ty var) (Some c) var_no)
          else if constant ctx
          then fail (Diag.error l ("cannot read contract variable '" +:+ n +:+ "' in constant expression"))
          else mret (Ex.StorageVariable l (Ty.StorageRef (v_ty var)) c var_no)
      | Some (SVariable _ None var_no) =>
          var ← lift (unwrap (constants ns !! var_no));
          mret (Ex.ConstantVariable l (v_ty var) None var_no)
      | Some (SFunction _) =>
          fns ← lift (available_functions ns n (contract_no ctx));
          fs ← mapR (λ k, f ← lift (unwrap (functions ns !! k)); mret (Ex.Function_ l (fn_type f) k None)) fns;
          match fs with
          | [e] => mret e
          | _ => fail (Diag.error l ("function '" +:+ n +:+ "' is overloaded"))
          end
      | sym => fail (wrong_symbol sym i)
      end
  end.

(** ** Array elements *)

(** An index: an unsigned integer of 32 bits is asked for. *)
Definition unsigned_index (what : string) (loc : Loc) (e : Pt.Expression) (check_first : bool) : R expression :=
  index ← rec e (To (Ty.Uint 32));
  t ← ty_of index;
  _ ← if check_first then check_overflow index else mret tt;
  if is_uint (deref_any t) then
    _ ← if check_first then mret tt else check_overflow index;
    cast index (Ex.loc index) (deref_any t)
  else
    s ← show t;
    fail (Diag.error loc (what +:+ " must be an unsigned integer, not '" +:+ s +:+ "'")).

(** The array in memory: loaded, unless it is in place. *)
Definition memory_array (array : expression) (array_ty : ty) : R expression :=
  fixed ← lift (is_fixed_reference_type (deref_memory array_ty));
  cast array (Ex.loc array) (if (fixed : bool) then array_ty else deref_any array_ty).
Definition is_array_like (t : ty) : bool :=
  match t with Ty.Array _ _ | Ty.Slice _ | Ty.DynamicBytes | Ty.String_ => true | _ => false end.
Definition not_an_array {A} (array : expression) : R A := fail (Diag.error (Ex.loc array) "expression is not an array").

(* [sema/expression/subscript.rs | fn mapping_subscript] *)
Definition mapping_subscript (loc : Loc) (mapping : expression) (index : Pt.Expression) : R expression :=
  t ← ty_of mapping;
  elem_ty ← lift (storage_array_elem t);
  match deref_any t with
  | Ty.Mapping key _ _ _ =>
      i ← rec index (To key);
      l ← pt_loc index;
      i ← cast i l key;
      mret (Ex.Subscript loc elem_ty t mapping i)
  | _ => lift Panic
  end.

(* [sema/expression/subscript.rs | pub(super) fn array_subscript] *)
Definition array_subscript (loc : Loc) (array index : Pt.Expression) : R expression :=
  array ← rec array Unknown;
  array_ty ← ty_of array;
  if is_mapping array_ty then mapping_subscript loc array index
  else
    index ← unsigned_index "array subscript" loc index true;
    if is_array_like (deref_any array_ty) then
      if is_contract_storage array_ty then
        elem_ty ← lift (storage_array_elem array_ty);
        mret (Ex.Subscript loc elem_ty array_ty array index)
      else
        elem_ty ← lift (array_deref array_ty);
        array ← memory_array array array_ty;
        mret (Ex.Subscript loc elem_ty array_ty array index)
    else not_an_array array.

Definition optional {A B} (f : A → R B) (o : option A) : R (option B) :=
  match o with Some a => b ← f a; mret (Some b) | None => mret None end.

(* [sema/expression/slice.rs | pub(super) fn array_slice] *)
Definition array_slice (loc : Loc) (array : Pt.Expression) (from to_ : option Pt.Expression) : R expression :=
  array ← rec array Unknown;
  array_ty ← ty_of array;
  if is_mapping array_ty then fail (Diag.error loc "The slice operation cannot be applied to mapping types.")
  else
    from ← optional (λ e, unsigned_index "array slice" loc e false) from;
    to_ ← optional (λ e, unsigned_index "array slice" loc e false) to_;
    if is_array_like (deref_any array_ty) then
      if is_contract_storage array_ty
      then fail (Diag.error loc "The slice operation cannot be applied to storage var.")
      else
        elem_ty ← lift (array_deref array_ty);
        array ← memory_array array array_ty;
        mret (Ex.ArraySlice loc elem_ty array_ty array from to_)
    else not_an_array array.

(** ** Members *)

(** The names of a path, outermost last: the deepest is the first. *)
Fixpoint enum_path (e : Pt.Expression) (acc : list Identifier) : option (list Identifier) :=
  match e with
  | Pt.MemberAccess _ member name => enum_path member (name :: acc)
  | Pt.Variable_ name => Some (name :: acc)
  | _ => None
  end.
(** The leading names can be imports. *)
Fixpoint drop_imports (ns : Namespace) (file : nat) (names : list Identifier) : nat * list Identifier :=
  match names with
  | n :: rest =>
      match variable_at ns file None (id_name n) with
      | Some (SImport _ import_file) => drop_imports ns import_file rest
      | _ => (file, names)
      end
  | [] => (file, [])
  end.

(* [sema/expression/member_access.rs | fn enum_value] *)
Definition enum_value (loc : Loc) (e : Pt.Expression) (i : Identifier) (file : nat) (contract : option nat)
    (ns : Namespace) : R (option expression) :=
  match enum_path e [] with
  | None => mret None
  | Some names =>
      let '(file, names) := drop_imports ns file names in
      match names with
      | [] => mret None
      | first :: rest =>
          let '(contract, names) := match resolve_contract ns file first with
                                    | Some no => (Some no, rest)
                                    | None => (contract, names)
                                    end in
          match names with
          | [name] =>
              match resolve_enum ns file contract name with
              | None => mret None
              | Some n =>
                  decl ← lift (get_enum ns n);
                  match find (λ v, bool_decide (v.1 = id_name i)) (enum_values decl) with
                  | Some (val, _) => mret (Some (Ex.NumberLiteral loc (Ty.Enum n) (Z.of_nat val)))
                  | None =>
                      fail (Diag.error (id_loc i)
                              ("enum " +:+ show_enum decl +:+ " does not have value " +:+ id_name i))
                  end
              end
          | _ => mret None
          end
      end
  end.

(* [sema/expression/member_access.rs | fn contract_constant] *)
Definition contract_constant (loc : Loc) (e : Pt.Expression) (i : Identifier) (file : nat) (to_ : ResolveTo)
    : R (option expression) :=
  match e with
  | Pt.Variable_ namespace =>
      s ← get_sym;
      ns ← get_ns;
      match SymTable.SymTable.find s (id_name namespace), resolve_contract ns file namespace with
      | None, Some contract_no =>
          c ← lift (unwrap (contracts ns !! contract_no));
          match find (λ v, bool_decide (v_name v = id_name i)) (variables c) with
          | Some (var_no, var) =>
              if v_constant var then
                _ ← modify_ns (Usage.update_contract_var Usage.decl_read contract_no var_no);
                mret (Some (Ex.ConstantVariable loc (v_ty var) (Some contract_no) var_no))
              else if is_function_type to_ then mret None
              else
                fail (Diag.error loc ("need instance of contract '" +:+ c_name c +:+ "' to get variable value '"
                                      +:+ v_name var +:+ "'"))
          | None => mret None
          end
      | _, _ => mret None
      end
  | _ => mret None
  end.

(** A field by its name. *)
Definition struct_field (n : nat) (show_name : StructDecl → string) (i : Identifier) : R (nat * ParameterDecl) :=
  s ← read_ns (λ ns, get_struct ns n);
  match find (λ f, bool_decide (id_name i = name_as_str f)) (fields s) with
  | Some x => mret x
  | None =>
      fail (Diag.error (id_loc i)
              ("struct '" +:+ show_name s +:+ "' does not have a field called '" +:+ id_name i +:+ "'"))
  end.

Definition lib_length (loc : Loc) (e : expression) : expression := Ex.LibFunction loc [Ty.Uint 32] ArrayLength_ [e].

(** The members of a type that is no struct in memory. *)
(* [sema/expression/member_access.rs | 106-200 | member_access] *)
Definition builtin_member (loc : Loc) (i : Identifier) (e : expression) (t : ty) : R expression :=
  let not_found := fail (Diag.error loc ("'" +:+ id_name i +:+ "' not found")) in
  let is_length := bool_decide (id_name i = "length") in
  match t with
  | Ty.Array _ dim =>
      if is_length then
        d ← lift (unwrap (last dim));
        match d with
        | Dynamic => mret (lib_length loc e)
        | Fixed n =>
            _ ← assigned e;
            _ ← used e;
            of_sema (λ ns, bigint_to_expression ns loc n (To (Ty.Uint 32)))
        | AnyFixed => lift Panic
        end
      else not_found
  | Ty.String_ | Ty.DynamicBytes | Ty.Slice _ => if is_length then mret (lib_length loc e) else not_found
  | Ty.StorageRef (Ty.Struct n) =>
      '(k, f) ← struct_field n struct_name i;
      mret (Ex.StructMember (id_loc i) (Ty.StorageRef (p_ty f)) e k)
  | Ty.StorageRef (Ty.Array _ _ | Ty.DynamicBytes | Ty.String_) =>
      if is_length then
        et ← ty_of e;
        elem ← lift (storage_array_elem et);
        mret (Ex.StorageArrayLength (id_loc i) (Ty.Uint 32) e (deref_into elem))
      else not_found
  | _ => not_found
  end.

(* [sema/expression/member_access.rs | pub(super) fn member_access] *)
Definition member_access (loc : Loc) (e : Pt.Expression) (i : Identifier) (to_ : ResolveTo) : R expression :=
  let resolved :=
    ctx ← get_ctx;
    ns ← get_ns;
    v ← enum_value loc e i (file_no ctx) (contract_no ctx) ns;
    match v with
    | Some x => mret x
    | None =>
        c ← contract_constant loc e i (file_no ctx) to_;
        match c with
        | Some x => mret x
        | None =>
            expr ← rec e to_;
            t ← ty_of expr;
            match deref_memory t with
            | Ty.Struct n =>
                '(k, f) ← struct_field n show_struct i;
                mret (Ex.StructMember (id_loc i) (Ty.Ref (p_ty f)) expr k)
            | _ =>
                match t with
                | Ty.Ref r => builtin_member loc i (Ex.Load loc t expr) r
                | _ => builtin_member loc i expr t
                end
            end
        end
    end in
  match e with
  | Pt.Variable_ namespace =>
      if Corelib.lib_namespace (id_name namespace) then
        fail (Diag.error (id_loc namespace)
                ("builtin '" +:+ id_name namespace +:+ "." +:+ id_name i +:+ "' does not exist"))
      else resolved
  | _ => resolved
  end.

(** ** New arrays *)

(* [sema/expression/constructor.rs | pub fn new] *)
Definition new (loc : Loc) (e : Pt.Expression) (args : list Pt.Expression) : R expression :=
  let e := match Pt.remove_parenthesis e with Pt.New _ t => t | _ => e end in
  ctx ← get_ctx;
  t ← rec_type (file_no ctx) (contract_no ctx) e;
  _ ← (match t with
       | Ty.Array elem dim =>
           match last dim with
           | Some (Fixed _) =>
               s ← show elem; fail (Diag.error loc ("new cannot allocate fixed array type '" +:+ s +:+ "'"))
           | _ => mret tt
           end
       | Ty.String_ | Ty.DynamicBytes => mret tt
       | _ => s ← show t; fail (Diag.error loc ("new cannot allocate type '" +:+ s +:+ "'"))
       end : R unit);
  match args with
  | [arg] =>
      size_loc ← pt_loc arg;
      size ← rec arg (To (Ty.Uint 32));
      _ ← used size;
      size_ty ← ty_of size;
      if is_uint (deref_any size_ty) then
        size ← cast size size_loc (Ty.Uint 32);
        mret (Ex.AllocDynamicBytes loc t size None)
      else fail (Diag.error (Ex.loc size) "new dynamic array should have an unsigned length argument")
  | _ => fail (Diag.error loc "new dynamic array should have a single length argument")
  end.

(** ** Struct literals *)

Definition wrong_field_count {A} (loc : Loc) (s : StructDecl) (n : nat) : R A :=
  fail (Diag.error loc ("struct '" +:+ struct_name s +:+ "' has " +:+ pretty (length (fields s)) +:+ " fields, not "
                        +:+ pretty n)).

(* [sema/expression/literals.rs | pub(super) fn struct_literal] *)
Definition struct_literal (loc : Loc) (n : nat) (args : list Pt.Expression) : R expression :=
  s ← read_ns (λ ns, get_struct ns n);
  if decide (length args = length (fields s)) then
    values ← mapR (λ '(a, f), e ← rec a (To (p_ty f)); _ ← used e; cast e loc (p_ty f)) (zip args (fields s));
    mret (Ex.StructLiteral loc (Ty.Struct n) values)
  else wrong_field_count loc s (length args).

(* [sema/expression/literals.rs | pub(super) fn named_struct_literal] *)
Definition named_struct_literal (loc : Loc) (n : nat) (args : list Pt.NamedArgument) : R expression :=
  s ← read_ns (λ ns, get_struct ns n);
  if decide (length args = length (fields s)) then
    values ← foldR (λ values a,
        let name := Pt.na_name a in
        match find (λ f, bool_decide (id_name <$> p_id f = Some (id_name name))) (fields s) with
        | Some (i, f) =>
            e ← rec (Pt.na_expr a) (To (p_ty f));
            _ ← used e;
            v ← cast e loc (p_ty f);
            mret (<[i := v]> values)
        | None =>
            fail (Diag.error (id_loc name)
                    ("struct '" +:+ struct_name s +:+ "' has no field '" +:+ id_name name +:+ "'"))
        end)
      (replicate (length args) (Ex.BoolLiteral Implicit_ false)) args;
    mret (Ex.StructLiteral loc (Ty.Struct n) values)
  else wrong_field_count loc s (length args).

(** ** Array literals *)

Definition is_array_literal (e : Pt.Expression) : bool := match e with Pt.ArrayLiteral _ _ => true | _ => false end.

(** The dimensions of a nested literal, innermost first, and its elements in
    order. *)
(* [sema/expression/literals.rs | pub(super) fn check_subarrays] *)
Fixpoint check_subarrays (e : Pt.Expression) : R (list nat * list Pt.Expression) :=
  match e with
  | Pt.ArrayLiteral _ ((Pt.ArrayLiteral _ first as sub) :: others) =>
      '(dims, flat) ← check_subarrays sub;
      '(_, flat) ← foldR (λ '(i, flat) e,
          match e with
          | Pt.ArrayLiteral l other =>
              if decide (length other = length first) then
                '(_, more) ← check_subarrays e; mret (S i, flat ++ more)
              else
                fail (Diag.error l ("array elements should be identical, sub array " +:+ pretty (i + 1)%nat +:+ " has "
                                    +:+ pretty (length other) +:+ " elements rather than " +:+ pretty (length first)))
          | _ =>
              l ← pt_loc e;
              fail (Diag.error l ("array element " +:+ pretty (i + 1)%nat +:+ " should also be an array"))
          end) (1%nat, flat) others;
      mret (dims ++ [S (length others)], flat)
  | Pt.ArrayLiteral _ exprs =>
      _ ← foldR (λ i e,
          match e with
          | Pt.ArrayLiteral l _ =>
              fail (Diag.error l ("array elements should be of the type, element " +:+ pretty (i + 1)%nat
                                  +:+ " is unexpected array"))
          | _ => mret (S i)
          end) 1%nat (tail exprs);
      mret ([length exprs], exprs)
  | _ => lift Panic
  end.

(** [len() as u32] *)
Definition as_u32 (n : nat) : Z := Z.of_nat n `mod` 2 ^ 32.

(** An array of slices of slices: each element is an array of its own. *)
(* [sema/expression/literals.rs | 340-402 | array_literal] *)
Definition array_of_slices (loc : Loc) (exprs : list Pt.Expression) (slice : ty) : R expression :=
  '(res, has_errors) ← foldR (λ '(res, has_errors) e,
      r ← try (rec e (To (Ty.Array slice [Dynamic])));
      match r with
      | None => mret (res, true)
      | Some e =>
          t ← ty_of e;
          let report message := _ ← push (Diag.error (Ex.loc e) message); mret (res ++ [e], true) in
          match t with
          | Ty.Array elem dims =>
              if Ty.eqb elem slice && bool_decide (length dims = 1%nat) then mret (res ++ [e], has_errors)
              else
                a ← show elem;
                b ← show slice;
                report ("type " +:+ a +:+ " found where array " +:+ b +:+ " expected")
          | _ => a ← show t; report ("type " +:+ a +:+ " found where array of slices expected")
          end
      end) ([], false) exprs;
  if (has_errors : bool) then err
  else
    mret (Ex.ArrayLiteral loc (Ty.Array slice [Fixed (Z.of_nat (length exprs))]) [as_u32 (length exprs)] res).

(* [sema/expression/literals.rs | pub(super) fn array_literal] *)
Definition array_literal (loc : Loc) (exprs : list Pt.Expression) (to_ : ResolveTo) : R expression :=
  match to_ with
  | To (Ty.Slice (Ty.Slice s)) => array_of_slices loc exprs (Ty.Slice s)
  | _ =>
      let to_ := match to_ with To (Ty.Array elem_ty _) => To elem_ty | _ => to_ end in
      '(dimensions, flattened) ← check_subarrays (Pt.ArrayLiteral loc exprs);
      match flattened with
      | [] => fail (Diag.error loc "array requires at least one element")
      | first :: others =>
          first ← rec first to_;
          '(first, t) ← (match to_ with
                         | To t => c ← cast first (Ex.loc first) t; mret (c, t)
                         | _ => t ← ty_of first; mret (first, t)
                         end : R (expression * ty));
          _ ← used first;
          rest ← mapR (λ e,
              other ← rec e (To t);
              _ ← used other;
              ot ← ty_of other;
              if Ty.eqb ot t then mret other else l ← pt_loc e; cast other l t) others;
          ctx ← get_ctx;
          let dims := as_u32 <$> dimensions in
          let node := if constant ctx then Ex.ConstArrayLiteral else Ex.ArrayLiteral in
          mret (node loc (Ty.Array t (Fixed <$> dims)) dims (first :: rest))
      end
  end.
End Access.
End Access.
