(* ===== verification/Calls.v ===== *)
(** Calls: src/src/sema/expression/function_call.rs, and the resolution of
    calls to the core library (src/src/sema/corelib.rs). *)
From S2P Require Import Prelude BigIntSpec Ast Types Eval Pt TypeNames SymTable Casts Names Resolver.
From S2P Require Import Literals Operators Access.
#[local] Set Warnings "-register-all".

Module Calls.
Import Casts Names Resolver Literals Operators Access.

(* [sema/expression/function_call.rs | pub(crate) fn function_returns] *)
Definition function_returns (f : Function) (to_ : ResolveTo) : list ty :=
  match f_returns f, to_ with
  | [], _ | _, Discard => [Ty.Void]
  | l, _ => p_ty <$> l
  end.
(* [sema/expression/function_call.rs | pub(crate) fn function_type] *)
Definition function_type (f : Function) (external : bool) (to_ : ResolveTo) : ty :=
  let params := p_ty <$> f_params f in
  let returns := function_returns f to_ in
  if external then Ty.ExternalFunction params returns else Ty.Function_ params returns.

Definition is_discard (r : ResolveTo) : bool := match r with Discard => true | _ => false end.
Definition fixed_last (dim : list ArrayLength) : bool := match last dim with Some (Fixed _) => true | _ => false end.

Section Calls.
Context {BI : NumBigInt}.
(** [Keccak::v256] of the [tiny-keccak] crate: the bytes of the hash. *)
Context (keccak256 : bytes → list Z).
(** The order in which a [HashMap] of call arguments is visited. *)
Context (hash_order : list Pt.NamedArgument → list Pt.NamedArgument).
Context (rec : Pt.Expression → ResolveTo → R expression).
Context (rec_type : nat → option nat → Pt.Expression → R ty).

Definition get_function (n : nat) : R Function := read_ns (λ ns, unwrap (functions ns !! n)).
Definition resolve_to_type (t : option ty) : ResolveTo := match t with Some t => To t | None => Unknown end.

(** An argument that must have a type: with the position of the argument for
    what the conversion reports, or of the resolved expression. *)
Definition typed_argument (e : Pt.Expression) (t : ty) : R expression :=
  x ← rec e (To t); l ← pt_loc e; cast x l t.
(* [sema/expression/function_call.rs | fn evaluate_argument] *)
Definition evaluate_argument (e : Pt.Expression) (t : ty) : R expression :=
  x ← rec e (To t); cast x (Ex.loc x) t.

(** The arguments of a candidate, what they report collected in [errors]. *)
Definition evaluate_arguments (errors : Diagnostics) (l : list (Pt.Expression * ty))
    : R (list expression * bool * Diagnostics) :=
  foldR (λ '(cast_args, matches, errors) '(e, t),
    '(x, errors) ← sink errors (evaluate_argument e t);
    mret (match x with
          | Some x => (cast_args ++ [x], matches, errors)
          | None => (cast_args, false, errors)
          end)) ([], true, errors) l.

(** All arguments are resolved, and whether one failed is known at the end. *)
Definition resolve_all (args : list Pt.Expression) : R bool :=
  foldR (λ acc e, r ← try (rec e Unknown); mret (acc || negb (bool_decide (is_Some r)))) false args.

Definition internal_call (loc : Loc) (n : nat) (to_ : ResolveTo) (cast_args : list expression) : R expression :=
  f ← get_function n;
  mret (Ex.FunctionCall loc (function_returns f to_) (Ex.Function_ loc (function_type f false to_) n None) cast_args).

(** ** Functions of the contract *)

Definition expects (what : string) (expected provided : nat) : string :=
  what +:+ " expects " +:+ pretty expected +:+ " arguments, " +:+ pretty provided +:+ " provided".

(** The candidates in turn: the call, or what was wrong with all of them. *)
(* [sema/expression/function_call.rs | for function_no in &function_nos { >> match name_matches { | function_call_pos_args] *)
Fixpoint try_positional (loc : Loc) (args : list Pt.Expression) (to_ : ResolveTo) (many : bool) (nos : list nat)
    (errors : Diagnostics) : R (expression + Diagnostics) :=
  match nos with
  | [] => mret (inr errors)
  | n :: nos =>
      f ← get_function n;
      if decide (length (f_params f) = length args) then
        '(cast_args, matches, errors) ← evaluate_arguments errors (zip args (p_ty <$> f_params f));
        if (matches : bool) then x ← internal_call loc n to_ cast_args; mret (inl x)
        else
          stop ← if many then extend_non_casting errors else mret false;
          if (stop : bool) then err else try_positional loc args to_ many nos errors
      else
        try_positional loc args to_ many nos
          (Diags.push errors (Diag.error loc (expects "fn" (length (f_params f)) (length args))))
  end.

Definition no_candidate {A} (loc id_loc : Loc) (count : nat) (errors : Diagnostics) (unknown overloaded : string) : R A :=
  match count with
  | O => fail (Diag.error id_loc unknown)
  | 1 => _ ← extend errors; err
  | _ => fail (Diag.error loc overloaded)
  end.

(* [sema/expression/function_call.rs | pub fn function_call_pos_args] *)
Definition function_call_pos_args (loc : Loc) (i : Identifier) (args : list Pt.Expression) (function_nos : list nat)
    (to_ : ResolveTo) : R expression :=
  ctx ← get_ctx;
  if constant ctx then fail (Diag.error loc "cannot call function in constant expression")
  else
    failed ← resolve_all args;
    if (failed : bool) then err
    else
      r ← try_positional loc args to_ (1 <? length function_nos)%nat function_nos Diags.empty;
      match r with
      | inl x => mret x
      | inr errors =>
          no_candidate loc (id_loc i) (length function_nos) errors
            ("unknown fn or type with name '" +:+ id_name i +:+ "'")
            "cannot find overloaded fn which matches signature"
      end.

(** The last argument of a name. *)
Fixpoint named_argument (n : string) (l : list (string * Pt.Expression)) : option Pt.Expression :=
  match l with
  | [] => None
  | (m, e) :: l => if decide (n = m) then Some e else named_argument n l
  end.
Definition collect_named (args : list Pt.NamedArgument) : R (list (string * Pt.Expression)) :=
  foldR (λ arguments a,
    let name := Pt.na_name a in
    _ ← (match named_argument (id_name name) arguments with
         | Some _ =>
             _ ← push (Diag.error (id_loc name) ("duplicate argument with name '" +:+ id_name name +:+ "'"));
             _ ← try (rec (Pt.na_expr a) Unknown); mret tt
         | None => mret tt
         end : R unit);
    mret ((id_name name, Pt.na_expr a) :: arguments)) [] args.

(** The arguments in the order of the parameters. *)
Definition named_arguments (loc : Loc) (i : Identifier) (arguments : list (string * Pt.Expression))
    (params : list ParameterDecl) (matches : bool) (errors : Diagnostics) : R (list expression * bool * Diagnostics) :=
  foldR (λ '(cast_args, matches, errors) p,
    match p_id p with
    | None => mret (cast_args, matches, errors)
    | Some _ =>
        match named_argument (name_as_str p) arguments with
        | None =>
            _ ← push (Diag.cast_error loc ("missing argument '" +:+ name_as_str p +:+ "' to function '" +:+ id_name i +:+ "'"));
            mret (cast_args, false, errors)
        | Some e =>
            '(x, errors) ← sink errors (evaluate_argument e (p_ty p));
            mret (match x with
                  | Some x => (cast_args ++ [x], matches, errors)
                  | None => (cast_args, false, errors)
                  end)
        end
    end) ([], matches, errors) params.

Definition is_unnamed (p : ParameterDecl) : bool := match p_id p with None => true | _ => false end.
(** Why a function cannot be called with named arguments, before they are resolved. *)
Definition named_mismatch (loc : Loc) (f : Function) (provided : nat) : option Diagnostic :=
  let unnamed := length (filter (λ p, is_unnamed p = true) (f_params f)) in
  if (0 <? unnamed)%nat then
    Some (Diag.cast_error_with_note loc
            ("function cannot be called with named arguments as " +:+ pretty unnamed
             +:+ " of its parameters do not have names") (f_loc f) ("definition of " +:+ f_name f))
  else if decide (length (f_params f) = provided) then None
  else Some (Diag.cast_error loc (expects "function" (length (f_params f)) provided)).

Fixpoint try_named (loc : Loc) (i : Identifier) (arguments : list (string * Pt.Expression)) (provided : nat)
    (to_ : ResolveTo) (nos : list nat) (errors : Diagnostics) : R (expression + Diagnostics) :=
  match nos with
  | [] => mret (inr errors)
  | n :: nos =>
      f ← get_function n;
      let '(ok, errors) := match named_mismatch loc f provided with
                           | Some d => (false, Diags.push errors d)
                           | None => (true, errors)
                           end in
      '(cast_args, matches, errors) ← named_arguments loc i arguments (f_params f) ok errors;
      if (matches : bool) then x ← internal_call loc n to_ cast_args; mret (inl x)
      else
        stop ← extend_non_casting errors;
        if (stop : bool) then err else try_named loc i arguments provided to_ nos errors
  end.

(* [sema/expression/function_call.rs | fn function_call_named_args] *)
Definition function_call_named_args (loc : Loc) (i : Identifier) (args : list Pt.NamedArgument)
    (function_nos : list nat) (to_ : ResolveTo) : R expression :=
  arguments ← collect_named args;
  r ← try_named loc i arguments (length args) to_ function_nos Diags.empty;
  match r with
  | inl x => mret x
  | inr errors =>
      no_candidate loc (id_loc i) (length function_nos) errors
        ("unknown function or type '" +:+ id_name i +:+ "'")
        "cannot find overloaded function which matches signature"
  end.

(** ** The core library *)

(** Four bytes, most significant first. *)
Definition from_bytes_be (l : list Z) : Z := foldl (λ acc b, acc * 256 + b)%Z 0%Z l.

(* [sema/corelib.rs | pub fn function_selector] *)
Definition function_selector (loc : Loc) (signature : Pt.Expression) : R expression :=
  match signature with
  | Pt.StringLiteral v =>
      s ← lift (unwrap (head v));
      mret (Ex.NumberLiteral loc (Ty.Uint 32) (from_bytes_be (take 4 (keccak256 (bytes_of (Pt.sl_string s))))))
  | _ => fail (Diag.error loc "function signature must be a string literal")
  end.

Definition push_lib_function (n : string) : R unit :=
  modify_ns (λ ns, Ret (set_called_lib_functions (called_lib_functions ns ++ [n]) ns)).

(** The arguments of a library function, for the parameters that it has. *)
Definition lib_arguments (convert : bool) (args : list Pt.Expression) (params : list ty) (errors : Diagnostics)
    : R (list expression * bool * Diagnostics) :=
  foldR (λ '(cast_args, matches, errors) '(i, e),
    let t := params !! i in
    '(x, errors) ← sink errors (rec e (resolve_to_type t));
    match x, t with
    | None, _ => mret (cast_args, false, errors)
    | Some x, None => mret (cast_args, matches, errors)
    | Some x, Some t =>
        if convert then
          '(c, errors) ← sink errors (cast x (Ex.loc x) t);
          mret (match c with
                | Some c => (cast_args ++ [c], matches, errors)
                | None => (cast_args, false, errors)
                end)
        else mret (cast_args ++ [x], matches, errors)
    end) ([], true, errors) (imap pair args).

Definition constant_call (loc : Loc) (p : Corelib.Prototype) : Diagnostic :=
  Diag.cast_error loc ("cannot call function '" +:+ Corelib.name p +:+ "' in constant expression").
Definition builtin_expects (loc : Loc) (p : Corelib.Prototype) (provided : nat) : Diagnostic :=
  Diag.cast_error loc
    ("builtin function '" +:+ Corelib.name p +:+ "' expects " +:+ pretty (length (Corelib.params p))
     +:+ " arguments, " +:+ pretty provided +:+ " provided").
Definition push_if (b : bool) (d : Diagnostics) (x : Diagnostic) : Diagnostics := if b then Diags.push d x else d.

Fixpoint try_lib (loc : Loc) (n : string) (args : list Pt.Expression) (many : bool) (funcs : list Corelib.Prototype)
    (errors : Diagnostics) : R (expression + Diagnostics) :=
  match funcs with
  | [] => mret (inr errors)
  | p :: funcs =>
      ctx ← get_ctx;
      let wrong_count := negb (length (Corelib.params p) =? length args)%nat in
      let errors := push_if (constant ctx) errors (constant_call loc p) in
      let errors := push_if wrong_count errors (builtin_expects loc p (length args)) in
      '(cast_args, matches, errors) ← lib_arguments true args (Corelib.params p) errors;
      if (matches : bool) && negb (constant ctx) && negb wrong_count then
        _ ← push_lib_function n;
        cast_args ← (if decide (n = "get_selector") then
                       signature ← lift (unwrap (head args));
                       selector ← function_selector loc signature;
                       mret (selector :: cast_args)
                     else mret cast_args);
        mret (inl (Ex.LibFunction loc (Corelib.ret p) (Corelib.libfunc p) cast_args))
      else
        stop ← if many then extend_non_casting errors else mret false;
        if (stop : bool) then err else try_lib loc n args many funcs errors
  end.

(* [sema/corelib.rs | pub fn resolve_call] *)
Definition resolve_call (loc : Loc) (namespace : option string) (n : string) (args : list Pt.Expression) : R expression :=
  let funcs := filter (λ p, Corelib.name p = n ∧ Corelib.namespace p = namespace) Corelib.LIB_FUNCTIONS in
  r ← try_lib loc n args (1 <? length funcs)%nat funcs Diags.empty;
  match r with
  | inl x => mret x
  | inr errors =>
      match funcs with
      | [_] => _ ← extend errors; err
      | _ => fail (Diag.error loc "cannot find overloaded function which matches signature")
      end
  end.

Definition not_abi (t : string) : string :=
  "Invalid type '" +:+ t +:+ "': mappings and recursive types cannot be abi decoded or encoded".
Definition abi_excluded (t : ty) : R bool :=
  if is_mapping t then mret true else read_ns (λ ns, is_recursive (type_fuel ns t) ns t).

(** A type to decode: one that cannot be decoded is reported. *)
Definition decode_check (l : Loc) (t : ty) (broken : bool) : R bool :=
  bad ← abi_excluded t;
  if (bad : bool) then s ← show t; _ ← push (Diag.error l (not_abi s)); mret true else mret broken.
Definition decode_parameter (ctx : ExprContext) (l : Loc) (p : Pt.Parameter_) (broken : bool) : R (ty * bool) :=
  t ← rec_type (file_no ctx) (contract_no ctx) (Pt.pa_ty p);
  broken ← (match Pt.pa_name p with
            | Some name =>
                _ ← push (Diag.error (id_loc name) ("unexpected identifier '" +:+ id_name name +:+ "' in type"));
                mret true
            | None => mret broken
            end : R bool);
  broken ← decode_check l t broken;
  mret (t, broken).

(** The types to decode: a list of types, or one type. *)
(* [sema/corelib.rs | let mut tys = Vec::new(); >> return if broken { | resolve_namespace_call] *)
Definition decode_types (loc : Loc) (e : Pt.Expression) : R (list ty * bool) :=
  ctx ← get_ctx;
  match e with
  | Pt.List_ _ ps =>
      foldR (λ '(tys, broken) '(l, param),
        match param with
        | Some p => '(t, broken) ← decode_parameter ctx l p broken; mret (tys ++ [t], broken)
        | None => _ ← push (Diag.error l "missing type"); mret (tys, true)
        end) ([], false) ps
  | _ =>
      t ← rec_type (file_no ctx) (contract_no ctx) (Pt.remove_parenthesis e);
      broken ← decode_check loc t false;
      mret ([t], broken)
  end.

Definition is_bytes_literal (e : expression) : bool := match e with Ex.BytesLiteral _ _ _ => true | _ => false end.
(* [sema/corelib.rs | for arg in args_iter { >> Ok(Expression::LibFunction { | resolve_namespace_call] *)
Definition encode_argument (e : Pt.Expression) : R expression :=
  x ← rec e Unknown;
  t ← ty_of x;
  bad ← abi_excluded t;
  l ← pt_loc e;
  if (bad : bool) then s ← show t; fail (Diag.error l (not_abi s))
  else
    x ← cast x l (deref_any t);
    if is_bytes_literal x then cast x l Ty.String_ else mret x.

(* [sema/corelib.rs | pub(super) fn resolve_namespace_call] *)
Definition resolve_namespace_call (loc : Loc) (namespace n : string) (args : list Pt.Expression) : R expression :=
  if negb (bool_decide (namespace = "abi")) then resolve_call loc (Some namespace) n args
  else if bool_decide (n = "decode") then
    match args with
    | [data; types] =>
        data ← typed_argument data Ty.DynamicBytes;
        '(tys, broken) ← decode_types loc types;
        if (broken : bool) then err else mret (Ex.LibFunction loc tys AbiDecode [data])
    | _ => fail (Diag.error loc (expects "function" 2 (length args)))
    end
  else if bool_decide (n = "encode") then
    l ← mapR encode_argument args; mret (Ex.LibFunction loc [Ty.DynamicBytes] AbiEncode l)
  else if bool_decide (n = "encodeWithSignature") then
    match args with
    | [] => fail (Diag.error loc "function requires one 'string' signature argument")
    | signature :: args =>
        selector ← try (function_selector loc signature);
        selector ← lift (unwrap selector);
        l ← mapR encode_argument args;
        mret (Ex.LibFunction loc [Ty.DynamicBytes] AbiEncodeWithSignature (selector :: l))
    end
  else lift Panic.

Fixpoint try_lib_method (e : expression) (i : Identifier) (args : list Pt.Expression) (many : bool)
    (funcs : list Corelib.Prototype) (errors : Diagnostics) : R (expression + Diagnostics) :=
  match funcs with
  | [] => mret (inr errors)
  | p :: funcs =>
      ctx ← get_ctx;
      let wrong_count := negb (length (Corelib.params p) =? length args)%nat in
      _ ← (if constant ctx then push (constant_call (id_loc i) p) else mret tt);
      let errors := push_if wrong_count errors (builtin_expects (id_loc i) p (length args)) in
      '(cast_args, matches, errors) ← lib_arguments false args (Corelib.params p) errors;
      if (matches : bool) && negb (constant ctx) && negb wrong_count then
        let returns := match Corelib.ret p with [] => [Ty.Void] | l => l end in
        mret (inl (Ex.LibFunction (id_loc i) returns (Corelib.libfunc p) (e :: cast_args)))
      else
        stop ← if many then extend_non_casting errors else mret false;
        if (stop : bool) then err else try_lib_method e i args many funcs errors
  end.

(* [sema/corelib.rs | pub fn resolve_method_call] *)
Definition resolve_method_call (e : expression) (i : Identifier) (args : list Pt.Expression) : R (option expression) :=
  let funcs := filter (λ p, Corelib.name p = id_name i) Corelib.LIB_METHODS in
  r ← try_lib_method e i args (1 <? length funcs)%nat funcs Diags.empty;
  match r with
  | inl x => mret (Some x)
  | inr errors =>
      match funcs with
      | [] => mret None
      | [_] => _ ← extend errors; err
      | _ => fail (Diag.error (id_loc i) "cannot find overloaded function which matches signature")
      end
  end.
End Calls.
End Calls.
