(* ===== verification/Methods.v ===== *)
(** Calls of methods, of other contracts and of any callable expression
    (src/src/sema/expression/function_call.rs). *)
From S2P Require Import Prelude BigIntSpec Ast Types Eval Pt TypeNames SymTable Casts Names Resolver.
From S2P Require Import Literals Operators Access Calls.
#[local] Set Warnings "-register-all".

Module Methods.
Import Casts Names Resolver Literals Operators Access Calls.

Definition no_call_args : CallArgs expression := mkCallArgs _ None None None.

Section Methods.
Context {BI : NumBigInt}.
Context (keccak256 : bytes → list Z).
Context (hash_order : list Pt.NamedArgument → list Pt.NamedArgument).
Context (rec : Pt.Expression → ResolveTo → R expression).
Context (rec_type : nat → option nat → Pt.Expression → R ty).

(** ** Call arguments: [{gas: 1, value: 2}] *)

Fixpoint unique_names (seen : list Pt.NamedArgument) (l : list Pt.NamedArgument) : R unit :=
  match l with
  | [] => mret tt
  | a :: l =>
      match find (λ b, bool_decide (id_name (Pt.na_name b) = id_name (Pt.na_name a))) seen with
      | Some (_, prev) =>
          let n := id_name (Pt.na_name a) in
          fail (Diag.error_with_note (Pt.na_loc a) ("'" +:+ n +:+ "' specified multiple times") (Pt.na_loc prev)
                  ("location of previous declaration of '" +:+ n +:+ "'"))
      | None => unique_names (a :: seen) l
      end
  end.

(* [sema/expression/function_call.rs | pub(super) fn parse_call_args] *)
Definition parse_call_args (call_args : list Pt.NamedArgument) : R (CallArgs expression) :=
  _ ← unique_names [] call_args;
  foldR (λ res a,
    let n := id_name (Pt.na_name a) in
    if bool_decide (n = "value") then
      v ← typed_argument rec (Pt.na_expr a) (Ty.Uint 32); mret (mkCallArgs _ (gas _ res) (Some v) (address_ _ res))
    else if bool_decide (n = "gas") then
      g ← typed_argument rec (Pt.na_expr a) (Ty.Uint 32); mret (mkCallArgs _ (Some g) (value_ _ res) (address_ _ res))
    else fail (Diag.error (Pt.na_loc a) ("'" +:+ n +:+ "' not a valid call parameter")))
  no_call_args (hash_order call_args).

(* [sema/expression/function_call.rs | pub fn collect_call_args] *)
Fixpoint collect_call_args (e : Pt.Expression) (named : list Pt.NamedArgument) (l : option Loc)
    : R (Pt.Expression * list Pt.NamedArgument * option Loc) :=
  match e with
  | Pt.FunctionCallBlock _ e block =>
      match block with
      | Pt.Args bl args =>
          l ← (match l with
               | Some (File_ file start _) => n ← lift (Pt.end_ bl); mret (Some (File_ file start n))
               | _ => mret (Some bl)
               end : R (option Loc));
          collect_call_args e (named ++ args) l
      | Pt.Block bl [] => fail (Diag.error bl "missing call arguments")
      | _ =>
          fail (Diag.error (Pt.st_loc block)
                  "code block found where list of call arguments expected, like '{gas: 5000}'")
      end
  | _ => mret (e, named, l)
  end.

(** ** Calls of another contract *)

(* [sema/expression/function_call.rs | fn preprocess_contract_call] *)
Definition preprocess_contract_call (call_args : list Pt.NamedArgument) (contract_no : nat) (func : Identifier)
    : R (CallArgs expression * list nat) :=
  c ← parse_call_args call_args;
  names ← read_ns (λ ns,
    contract ← unwrap (contracts ns !! contract_no);
    foldM (λ acc k, f ← unwrap (functions ns !! k);
                    Ret (if bool_decide (id_name func = f_name f) then acc ++ [k] else acc))
      [] (all_functions contract).*1);
  mret (c, names).

(* [sema/expression/function_call.rs | fn contract_call_match] *)
Definition contract_call_match (loc : Loc) (n : nat) (call_args : CallArgs expression) (cast_args : list expression)
    (var_expr : expression) (to_ : ResolveTo) : R expression :=
  f ← get_function n;
  no ← lift (unwrap (f_contract_no f));
  address ← cast var_expr (Ex.loc var_expr) (Ty.Contract no);
  mret (Ex.ExternalFunctionCall loc (function_returns f to_)
          (Ex.ExternalFunction loc (function_type f true to_) address n) cast_args call_args).

Definition add_note (n : Note) (d : Diagnostic) : Diagnostic :=
  mkDiagnostic (diag_loc d) (diag_level d) (diag_ty d) (diag_message d) (diag_notes d ++ [n]).
Definition candidate_note (f : Function) : Note := {| note_loc := f_loc f; note_message := "candidate function" |}.

(** One candidate: the call, or what is wrong with it. *)
(* [sema/expression/function_call.rs | let mut candidate_diagnostics = >> match resolved_calls.len() { | contract_call_pos_args] *)
Definition contract_candidate (loc : Loc) (args : list Pt.Expression) (call_args : CallArgs expression)
    (var_expr : expression) (to_ : ResolveTo) (only : bool) (n : nat) : R (expression + Diagnostics) :=
  f ← get_function n;
  '(cast_args, d) ←
    (if decide (length (f_params f) = length args) then
       '(cast_args, _, d) ← evaluate_arguments rec Diags.empty (zip args (p_ty <$> f_params f)); mret (cast_args, d)
     else
       mret ([], Diags.push Diags.empty
                   (Diag.error loc (expects "function" (length (f_params f)) (length args)))));
  if Diags.any_errors d then
    f ← get_function n;
    mret (inr (if only then d
               else Diags.push (mkDiagnostics (add_note (candidate_note f) <$> contents d) (has_error d))
                      (Diag.error loc "cannot find overloaded function which matches signature")))
  else
    '(r, d) ← sink d (contract_call_match loc n call_args cast_args var_expr to_);
    mret (match r with Some x => inl x | None => inr d end).

(* [sema/expression/function_call.rs | fn contract_call_pos_args] *)
Definition contract_call_pos_args (loc : Loc) (contract_no : nat) (func : Identifier) (var_expr : expression)
    (args : list Pt.Expression) (call_args : list Pt.NamedArgument) (to_ : ResolveTo) : R (option expression) :=
  '(call_args, name_matches) ← preprocess_contract_call call_args contract_no func;
  failed ← resolve_all rec args;
  if (failed : bool) then err
  else
    '(resolved, d) ← foldR (λ '(resolved, d) n,
        r ← contract_candidate loc args call_args var_expr to_ (length name_matches =? 1)%nat n;
        mret (match r with
              | inl x => (resolved ++ [(n, x)], d)
              | inr e => (resolved, Diags.extend d e)
              end)) ([], Diags.empty) name_matches;
    match resolved with
    | [] =>
        _ ← extend d;
        match name_matches with
        | [] => fail (Diag.error (id_loc func) ("unknown function '" +:+ id_name func +:+ "'"))
        | _ => err
        end
    | [(_, x)] => mret (Some x)
    | _ =>
        _ ← extend d;
        notes ← mapR (λ '(n, _), f ← get_function n; mret (candidate_note f)) resolved;
        fail (Diag.error_with_notes loc "function call can be resolved to multiple functions" notes)
    end.

(** ** Methods *)

(* [sema/expression/function_call.rs | fn try_namespace] *)
Definition try_namespace (loc : Loc) (var : Pt.Expression) (func : Identifier) (args : list Pt.Expression)
    (call_args_loc : option Loc) (to_ : ResolveTo) : R (option expression) :=
  match var with
  | Pt.Variable_ namespace =>
      if Corelib.is_lib_func_call (Some (id_name namespace)) (id_name func) then
        match call_args_loc with
        | Some l => fail (Diag.error l "call arguments not allowed on builtins")
        | None =>
            x ← resolve_namespace_call keccak256 rec rec_type loc (id_name namespace) (id_name func) args;
            mret (Some x)
        end
      else
        ctx ← get_ctx;
        ns ← get_ns;
        match resolve_contract ns (file_no ctx) namespace with
        | None => mret None
        | Some c =>
            contract ← lift (unwrap (contracts ns !! c));
            if is_library contract then
              match call_args_loc with
              | Some l => fail (Diag.error l "call arguments not allowed on library calls")
              | None =>
                  fns ← lift (available_functions ns (id_name func) (Some c));
                  x ← function_call_pos_args rec loc func args fns to_;
                  mret (Some x)
              end
            else mret None
        end
  | _ => mret None
  end.

Definition too_many_for_push {A} (func : Identifier) : R A :=
  fail (Diag.error (id_loc func) "method 'push()' takes at most 1 argument").
Definition pop_takes_none {A} (func : Identifier) : R A :=
  fail (Diag.error (id_loc func) "method 'pop()' does not take any arguments").

(** [push] on storage: with a value it returns nothing, without one the new element. *)
Definition storage_push (var_expr : expression) (func : Identifier) (args : list Pt.Expression) (elem : ty)
    (ret_ty : R ty) : R (option expression) :=
  '(more, t) ← (match args with
                | [a] => x ← typed_argument rec a elem; mret ([x], Ty.Void)
                | [] => t ← ret_ty; mret ([], t)
                | _ => too_many_for_push func
                end : R (list expression * ty));
  mret (Some (Ex.LibFunction (id_loc func) [t] ArrayPush (var_expr :: more))).
Definition storage_pop (var_expr : expression) (func : Identifier) (args : list Pt.Expression) (t : R ty)
    : R (option expression) :=
  match args with
  | [] => t ← t; mret (Some (Ex.LibFunction (id_loc func) [t] ArrayPop [var_expr]))
  | _ => pop_takes_none func
  end.

(* [sema/expression/function_call.rs | fn try_storage_reference] *)
Definition try_storage_reference (var_expr : expression) (func : Identifier) (args : list Pt.Expression)
    (to_ : ResolveTo) : R (option expression) :=
  let named n := bool_decide (id_name func = n) in
  t ← ty_of var_expr;
  match t with
  | Ty.StorageRef ((Ty.Array _ dim) as t) =>
      if named "push" then
        if fixed_last dim then fail (Diag.error (id_loc func) "method 'push()' not allowed on fixed length array")
        else
          elem ← lift (array_elem t);
          storage_push var_expr func args elem
            (r ← read_ns (λ ns, is_reference_type (type_fuel ns elem) ns elem);
             mret (if (r : bool) then Ty.StorageRef elem else elem))
      else if named "pop" then
        if fixed_last dim then fail (Diag.error (id_loc func) "method 'pop()' not allowed on fixed length array")
        else
          storage_pop var_expr func args
            (s ← lift (storage_array_elem t); mret (if is_discard to_ then Ty.Void else deref_any s))
      else mret None
  | Ty.StorageRef Ty.DynamicBytes =>
      if named "push" then storage_push var_expr func args (Ty.Uint 32) (mret (Ty.Uint 32))
      else if named "pop" then storage_pop var_expr func args (mret (Ty.Uint 32))
      else mret None
  | _ => mret None
  end.

(* [sema/expression/function_call.rs | Type::Array(..) | Type::DynamicBytes if var_ty.is_dynamic(ns) => { >> Type::Array(..) if func.name == | try_type_method] *)
Definition dynamic_array_method (loc : Loc) (func : Identifier) (args : list Pt.Expression) (var_expr : expression)
    (var_ty : ty) : R (option expression) :=
  let named n := bool_decide (id_name func = n) in
  if named "push" then
    elem ← lift (array_elem var_ty);
    match args with
    | [] => mret (Some (Ex.LibFunction loc [elem] ArrayPush [var_expr]))
    | [a] => v ← typed_argument rec a elem; mret (Some (Ex.LibFunction loc [elem] ArrayPush [var_expr; v]))
    | _ => too_many_for_push func
    end
  else if named "pop" then
    match args with
    | [] =>
        match var_ty with
        | Ty.Array elem _ => mret (Some (Ex.LibFunction loc [elem] ArrayPop [var_expr]))
        | _ => lift Panic
        end
    | _ => pop_takes_none func
    end
  else if named "concat" && negb (length args =? 2)%nat then
    fail (Diag.error (id_loc func) "method 'concat()' takes exactly 1 argument")
  else mret None.

Definition call_type (n : string) : option CallTy :=
  if bool_decide (n = "call") then Some Regular
  else if bool_decide (n = "delegatecall") then Some Delegate
  else if bool_decide (n = "staticcall") then Some Static
  else None.
Definition is_regular (t : CallTy) : bool := match t with Regular => true | _ => false end.
Definition is_delegate (t : CallTy) : bool := match t with Delegate => true | _ => false end.

(** The data of a raw call: bytes, or a value of a fixed size. *)
Definition raw_call_data (e : Pt.Expression) : R expression :=
  x ← rec e (To Ty.DynamicBytes);
  t ← ty_of x;
  ok ← (match deref_any t with
        | Ty.DynamicBytes => mret true
        | Ty.Array _ _ | Ty.Struct _ => d ← read_ns (λ ns, is_dynamic (search_fuel ns t) ns t); mret (negb d)
        | _ => mret false
        end : R bool);
  if (ok : bool) then cast x (Ex.loc x) (deref_any t)
  else s ← show t; fail (Diag.error (Ex.loc x) ("'" +:+ s +:+ "' is not fixed length type")).

(* [sema/expression/function_call.rs | let ty = match func.name.as_str() { >> _ => (), | try_type_method] *)
Definition address_call (loc : Loc) (func : Identifier) (args : list Pt.Expression) (call_args : list Pt.NamedArgument)
    (var_expr : expression) (t : CallTy) : R (option expression) :=
  c ← parse_call_args call_args;
  if negb (is_regular t) && bool_decide (is_Some (value_ _ c)) then
    fail (Diag.error loc ("'" +:+ id_name func +:+ "' cannot have value specified"))
  else
    _ ← (if is_delegate t && bool_decide (is_Some (gas _ c))
         then push (Diag.warning loc "'gas' specified on 'delegatecall' will be ignored") else mret tt);
    match args with
    | [a] =>
        data ← raw_call_data a;
        address ← cast var_expr (Ex.loc var_expr) Ty.Address;
        mret (Some (Ex.ExternalFunctionCallRaw loc t address data c))
    | _ =>
        fail (Diag.error loc ("'" +:+ id_name func +:+ "' expects 1 argument, " +:+ pretty (length args) +:+ " provided"))
    end.

(* [sema/expression/function_call.rs | fn try_type_method] *)
Definition try_type_method (loc : Loc) (func : Identifier) (args : list Pt.Expression)
    (call_args : list Pt.NamedArgument) (var_expr : expression) (to_ : ResolveTo) : R (option expression) :=
  let n := id_name func in
  var_ty ← ty_of var_expr;
  match deref_any var_ty with
  | Ty.Array _ _ =>
      dynamic ← read_ns (λ ns, is_dynamic (search_fuel ns var_ty) ns var_ty);
      if (dynamic : bool) then dynamic_array_method loc func args var_expr var_ty
      else if bool_decide (n = "push") || bool_decide (n = "pop") then
        fail (Diag.error (id_loc func) ("method " +:+ n +:+ "() is not available for fixed length arrays"))
      else mret None
  | Ty.DynamicBytes =>
      dynamic ← read_ns (λ ns, is_dynamic (search_fuel ns var_ty) ns var_ty);
      if (dynamic : bool) then dynamic_array_method loc func args var_expr var_ty else mret None
  | Ty.Contract no => contract_call_pos_args loc no func var_expr args call_args to_
  | Ty.Address =>
      match call_type n with
      | Some t => address_call loc func args call_args var_expr t
      | None => mret None
      end
  | _ => mret None
  end.

(* [sema/expression/function_call.rs | pub(super) fn method_call_pos_args] *)
Definition method_call_pos_args (loc : Loc) (var : Pt.Expression) (func : Identifier) (args : list Pt.Expression)
    (call_args : list Pt.NamedArgument) (call_args_loc : option Loc) (to_ : ResolveTo) : R expression :=
  r ← try_namespace loc var func args call_args_loc to_;
  match r with
  | Some x => mret x
  | None =>
      var_expr ← rec var Unknown;
      r ← resolve_method_call rec var_expr func args;
      match r with
      | Some x => mret x
      | None =>
          r ← try_storage_reference var_expr func args to_;
          match r with
          | Some x => mret x
          | None =>
              r ← try_type_method loc func args call_args var_expr to_;
              match r with
              | Some x => mret x
              | None => fail (Diag.error (id_loc func) ("method '" +:+ id_name func +:+ "' does not exist"))
              end
          end
      end
  end.

(** ** Any callable expression *)

Definition no_constant_call {A} (loc : Loc) (m : R A) : R A :=
  ctx ← get_ctx;
  if constant ctx then fail (Diag.error loc "cannot call function in constant expression") else m.

(* [sema/expression/function_call.rs | pub fn function_call_expr] *)
Definition function_call_expr (loc : Loc) (e : Pt.Expression) (args : list Pt.Expression) (to_ : ResolveTo)
    : R expression :=
  '(e, call_args, call_args_loc) ← collect_call_args e [] None;
  match Pt.remove_parenthesis e with
  | Pt.MemberAccess _ member func =>
      no_constant_call loc (method_call_pos_args loc member func args call_args call_args_loc to_)
  | Pt.Variable_ i =>
      if Corelib.is_lib_func_call None (id_name i) then
        x ← resolve_call keccak256 rec (id_loc i) None (id_name i) args;
        ts ← lift (tys x);
        if (1 <? length ts)%nat then
          fail (Diag.error loc ("core lib function '" +:+ id_name i +:+ "' returns more than one value"))
        else mret x
      else
        no_constant_call loc
          (ctx ← get_ctx;
           fns ← read_ns (λ ns, available_functions ns (id_name i) (contract_no ctx));
           function_call_pos_args rec loc i args fns to_)
  | _ => fail (Diag.error loc "expression is not a function")
  end.

(* [sema/expression/function_call.rs | pub fn named_function_call_expr] *)
Definition named_function_call_expr (loc : Loc) (e : Pt.Expression) (args : list Pt.NamedArgument) (to_ : ResolveTo)
    : R expression :=
  '(e, _, call_args_loc) ← collect_call_args e [] None;
  match e with
  | Pt.Variable_ i =>
      match call_args_loc with
      | Some l => fail (Diag.error l "call arguments not permitted for internal calls")
      | None =>
          ctx ← get_ctx;
          fns ← read_ns (λ ns, available_functions ns (id_name i) (contract_no ctx));
          function_call_named_args rec loc i args fns to_
      end
  | Pt.ArraySubscript _ _ _ => l ← pt_loc e; fail (Diag.error l "unexpected array type")
  | _ => l ← pt_loc e; fail (Diag.error l "expression not expected here")
  end.

(** A type in the place of a function: its errors are not reported. *)
Definition quiet_type (e : Pt.Expression) : R (option ty) :=
  ctx ← get_ctx;
  '(t, _) ← sink Diags.empty (rec_type (file_no ctx) (contract_no ctx) e);
  mret t.

(* [sema/expression/function_call.rs | pub fn named_call_expr] *)
Definition named_call_expr (loc : Loc) (e : Pt.Expression) (args : list Pt.NamedArgument) (is_destructible : bool)
    (to_ : ResolveTo) : R expression :=
  t ← quiet_type e;
  match t with
  | Some (Ty.Struct n) => named_struct_literal rec loc n args
  | Some _ => fail (Diag.error loc "struct or function expected")
  | None =>
      no_constant_call loc
        (x ← named_function_call_expr loc e args to_;
         _ ← use (Usage.check_function_call x);
         ts ← lift (tys x);
         if (1 <? length ts)%nat && negb is_destructible then
           fail (Diag.error loc "destucturing statement needed for function that returns multiple values")
         else mret x)
  end.

Definition is_new (e : Pt.Expression) : bool := match e with Pt.New _ _ => true | _ => false end.

(* [sema/expression/function_call.rs | pub fn call_expr] *)
Definition call_expr (loc : Loc) (e : Pt.Expression) (args : list Pt.Expression) (to_ : ResolveTo) : R expression :=
  let e := Pt.remove_parenthesis e in
  t ← quiet_type e;
  match t with
  | Some (Ty.Struct n) => struct_literal rec loc n args
  | Some t =>
      match args with
      | [] => fail (Diag.error loc "missing argument to cast")
      | [a] => x ← rec a Unknown; cast x loc t
      | _ => fail (Diag.error loc "too many arguments to cast")
      end
  | None =>
      x ← (match Pt.remove_parenthesis e with
           | Pt.New _ t => new rec rec_type loc t args
           | Pt.FunctionCallBlock l callee _ =>
               if is_new (Pt.remove_parenthesis callee) then new rec rec_type l e args
               else function_call_expr loc e args to_
           | _ => function_call_expr loc e args to_
           end : R expression);
      _ ← use (Usage.check_function_call x);
      mret x
  end.
End Methods.
End Methods.
