(* ===== verification/Resolve.v ===== *)
(** The resolution of an expression (src/src/sema/expression/resolve_expression.rs):
    every form of the parse tree, by the functions of its own file, tied
    together with the resolution of type names. *)
From S2P Require Import Prelude BigIntSpec Ast Types Eval Pt TypeNames SymTable Casts Names Resolver.
From S2P Require Import Literals Operators Access Calls Methods.
#[local] Set Warnings "-register-all".

Module Resolve.
Import Casts Names Resolver Literals Operators Access Calls Methods.

Section Resolve.
Context {BI : NumBigInt}.
Context (keccak256 : bytes → list Z).
Context (hash_order : list Pt.NamedArgument → list Pt.NamedArgument).

Section Step.
Context (rec : Pt.Expression → ResolveTo → R expression).
Context (rec_type : nat → option nat → Pt.Expression → R ty).

(** [if context.constant { error } ..] *)
Definition not_constant {A} (loc : Loc) (what : string) (m : R A) : R A :=
  ctx ← get_ctx; if constant ctx then fail (Diag.error loc what) else m.

Definition compound (o : assign_op) (loc : Loc) (var e : Pt.Expression) : R expression :=
  not_constant loc "assignment not allowed in constant context"
    (x ← assign_expr rec o loc var e; _ ← check_overflow x; mret x).

(* [sema/expression/resolve_expression.rs | program::Expression::New(loc, call) => { >> program::Expression::Delete(loc | expression] *)
Definition new_expression (loc : Loc) (call : Pt.Expression) : R expression :=
  not_constant loc "new not allowed in constant expression"
    match Pt.remove_parenthesis call with
    | Pt.FunctionCall _ t args =>
        x ← new rec rec_type loc t args; _ ← use (Usage.check_function_call x); mret x
    | Pt.Variable_ i => fail (Diag.error loc ("missing constructor arguments to " +:+ id_name i))
    | e => l ← pt_loc e; fail (Diag.error l "type with arguments expected")
    end.

(* [sema/expression/resolve_expression.rs | pub fn expression] *)
Definition expression_step (e : Pt.Expression) (to_ : ResolveTo) : R expression :=
  match e with
  | Pt.Parenthesis _ e => rec e to_
  | Pt.ArrayLiteral loc exprs => x ← array_literal rec loc exprs to_; _ ← used x; mret x
  | Pt.BoolLiteral loc v => mret (Ex.BoolLiteral loc v)
  | Pt.StringLiteral v => ctx ← get_ctx; string_literal v (file_no ctx)
  | Pt.NumberLiteral loc integer => number_literal loc integer to_
  | Pt.HexNumberLiteral loc n => hex_number_literal loc n to_
  | Pt.FieldsLiteral loc n => fields_literal loc n
  | Pt.AddressLiteral loc address => address_literal loc address
  | Pt.HashLiteral loc hash => hash_literal loc hash
  | Pt.Variable_ i => variable i to_
  | Pt.Add loc l r => addition rec loc l r to_
  | Pt.Subtract loc l r => subtract rec loc l r to_
  | Pt.BitwiseOr loc l r => bitwise_or rec loc l r to_
  | Pt.BitwiseAnd loc l r => bitwise_and rec loc l r to_
  | Pt.BitwiseXor loc l r => bitwise_xor rec loc l r to_
  | Pt.ShiftLeft loc l r => shift_left rec loc l r to_
  | Pt.ShiftRight loc l r => shift_right rec loc l r to_
  | Pt.Multiply loc l r => multiply rec loc l r to_
  | Pt.Divide loc l r => divide rec loc l r to_
  | Pt.Modulo loc l r => modulo rec loc l r to_
  | Pt.Power loc b e => power rec loc b e to_
  | Pt.More loc l r => ordering rec Ex.More loc l r
  | Pt.Less loc l r => ordering rec Ex.Less loc l r
  | Pt.MoreEqual loc l r => ordering rec Ex.MoreEqual loc l r
  | Pt.LessEqual loc l r => ordering rec Ex.LessEqual loc l r
  | Pt.Equal loc l r => equal rec loc l r
  | Pt.NotEqual loc l r => not_equal rec loc l r
  | Pt.Not loc e => logical_not rec loc e to_
  | Pt.BitwiseNot loc e => bitwise_not rec loc e to_
  | Pt.ConditionalOperator loc c l r => conditional rec loc c l r to_
  | Pt.Increment loc v =>
      not_constant loc "operator not allowed in constant context" (incr_decr rec v (λ e t, Ex.Increment loc t e))
  | Pt.Decrement loc v =>
      not_constant loc "operator not allowed in constant context" (incr_decr rec v (λ e t, Ex.Decrement loc t e))
  | Pt.Assign loc v e => not_constant loc "assignment not allowed in constant context" (assign_single rec loc v e)
  | Pt.AssignAdd loc v e => compound OpAdd loc v e
  | Pt.AssignSubtract loc v e => compound OpSubtract loc v e
  | Pt.AssignMultiply loc v e => compound OpMultiply loc v e
  | Pt.AssignDivide loc v e => compound OpDivide loc v e
  | Pt.AssignModulo loc v e => compound OpModulo loc v e
  | Pt.AssignOr loc v e => compound OpOr loc v e
  | Pt.AssignAnd loc v e => compound OpAnd loc v e
  | Pt.AssignXor loc v e => compound OpXor loc v e
  | Pt.AssignShiftLeft loc v e => compound OpShiftLeft loc v e
  | Pt.AssignShiftRight loc v e => compound OpShiftRight loc v e
  | Pt.NamedFunctionCall loc t args => named_call_expr rec rec_type loc t args false to_
  | Pt.New loc call => new_expression loc call
  | Pt.Delete loc _ => fail (Diag.error loc "delete not allowed in expression")
  | Pt.FunctionCall loc t args => call_expr keccak256 hash_order rec rec_type loc t args to_
  | Pt.ArraySubscript loc _ None => fail (Diag.error loc "expected expression before ']' token")
  | Pt.ArraySlice loc array from to_ => array_slice rec loc array from to_
  | Pt.ArraySubscript loc array (Some index) => array_subscript rec loc array index
  | Pt.MemberAccess loc e i => member_access rec loc (Pt.remove_parenthesis e) i to_
  | Pt.Or loc l r => logical rec Ex.Or loc l r
  | Pt.And loc l r => logical rec Ex.And loc l r
  | Pt.Type_ loc _ => fail (Diag.error loc "type not expected")
  | Pt.List_ loc _ => fail (Diag.error loc "lists only permitted in destructure statements")
  | Pt.FunctionCallBlock loc _ _ => fail (Diag.error loc "unexpect block encountered")
  end.
End Step.

(** The recursion goes down the parse tree. *)
Fixpoint expression (fuel : nat) (e : Pt.Expression) (to_ : ResolveTo) : R Ex.expression :=
  match fuel with O => λ _, OutOfFuel | S fuel =>
  expression_step (expression fuel) (resolve_type_fuel fuel) e to_
  end
with resolve_type_fuel (fuel : nat) (file : nat) (contract : option nat) (e : Pt.Expression) : R ty :=
  match fuel with O => λ _, OutOfFuel | S fuel =>
  resolve_type (expression fuel) (resolve_type_fuel fuel) file contract e
  end.
End Resolve.
End Resolve.
