(* ===== verification/Statements.v ===== *)
(** Statements (src/src/sema/statements.rs): variable declarations, control
    flow with what can be reached, destructuring, returns, and the body of a
    function. *)
From S2P Require Import Prelude BigIntSpec Ast Types Eval Pt TypeNames SymTable Casts Names Resolver.
From S2P Require Import Literals Operators Access Calls Methods.
#[local] Set Warnings "-register-all".

Module Statements.
Import Casts Names Resolver Literals Operators Access Calls Methods.

(** ** The tables that statements change *)

Definition modify_sym (f : Sym.Symtable → Sym.Symtable) : R unit := λ s,
  Ret (Some tt, mkState (st_ns s) (f (st_sym s)) (st_ctx s) (st_diags s)).
(** [symtable.add(..)] *)
Definition add_variable (i : Identifier) (t : ty) (init : option expression) (usage : Sym.VariableUsage)
    (storage : option StorageLocation) : R (option nat) := λ s,
  r ← SymTable.SymTable.add (st_sym s) (st_ns s) i t (Sym.Ola init) usage storage;
  let '(pos, sym, ns) := r in Ret (Some pos, mkState ns sym (st_ctx s) (st_diags s)).
(** [ns.check_shadowing(file_no, contract_no, name)] *)
Definition check_shadowing (i : Identifier) : R unit :=
  ctx ← get_ctx; modify_ns (λ ns, Ret (Names.check_shadowing ns (file_no ctx) (contract_no ctx) i)).
(** [ns.diagnostics.push(d)] *)
Definition push_ns (d : Diagnostic) : R unit := modify_ns (λ ns, Ret (push_diag d ns)).
Definition fail_ns {A} (d : Diagnostic) : R A := _ ← push_ns d; err.

Definition set_assigned (v : Sym.Variable_) : Sym.Variable_ :=
  Sym.mkVar (Sym.id v) (Sym.vty v) (Sym.pos v) (Sym.slice v) true (Sym.read v) (Sym.usage_type v) (Sym.init v)
    (Sym.storage_location v).

(** What is between [symtable.new_scope()] and [symtable.leave_scope()]. *)
Definition in_scope {A} (m : R A) : R A :=
  _ ← modify_sym SymTable.SymTable.new_scope; a ← m; _ ← modify_sym SymTable.SymTable.leave_scope; mret a.

(* [ola-parser/src/program.rs | impl CodeLocation for StorageLocation] *)
Definition storage_loc (s : StorageLocation) : Loc := match s with Memory l | Storage_ l => l end.
(* [ola-parser/src/program.rs | pub const fn as_str(&self) -> &'static str | StorageLocation::as_str] *)
Definition storage_str (s : StorageLocation) : string := match s with Memory _ => "memory" | Storage_ _ => "storage" end.

(* [sema/ast.rs | impl OptionalCodeLocation for DestructureField] *)
Definition field_loc (f : St.DestructureField) : option Loc :=
  match f with St.DNone => None | St.DExpression e => Some (Ex.loc e) | St.DVariableDecl _ p => Some (p_loc p) end.

(** The return types of a call, without those that stand for no value. *)
Definition real_types (l : list ty) : list ty :=
  match l with [t] => if Ty.eqb t Ty.Unreachable || Ty.eqb t Ty.Void then [] else l | _ => l end.

(* [sema/statements.rs | pub fn parameter_list_to_expr_list] *)
Definition parameter_list_to_expr_list (e : Pt.Expression) : R (list Pt.Expression) :=
  match e with
  | Pt.List_ _ v =>
      '(l, broken) ← foldR (λ '(l, broken) '(loc, p),
          match p with
          | None => _ ← push (Diag.error loc "stray comma"); mret (l, true)
          | Some (Pt.mkParameter _ t None) => mret (l ++ [t], broken)
          | Some (Pt.mkParameter _ _ (Some name)) =>
              _ ← push (Diag.error (id_loc name) "single value expected"); mret (l, true)
          end) ([], false) v;
      if (broken : bool) then err else mret l
  | Pt.Parenthesis _ e => mret [e]
  | e => mret [e]
  end.

Section Statements.
Context {BI : NumBigInt}.
Context (keccak256 : bytes → list Z).
Context (hash_order : list Pt.NamedArgument → list Pt.NamedArgument).
Context (rec : Pt.Expression → ResolveTo → R expression).
Context (rec_type : nat → option nat → Pt.Expression → R ty).

Definition call_expr := Methods.call_expr keccak256 hash_order rec rec_type.
Definition named_call_expr := Methods.named_call_expr rec rec_type.

(** ** Variable declarations *)

(* [sema/statements.rs | fn resolve_var_decl_ty] *)
Definition resolve_var_decl_ty (t : Pt.Expression) (storage : option StorageLocation) : R (ty * Loc) :=
  loc_ty ← pt_loc t;
  ctx ← get_ctx;
  var_ty ← rec_type (file_no ctx) (contract_no ctx) t;
  '(var_ty, loc_ty) ← (match storage with
      | None => mret (var_ty, loc_ty)
      | Some s =>
          if can_have_data_location var_ty then
            match s with
            | Storage_ l => loc_ty ← lift (Pt.use_end_from loc_ty l); mret (Ty.StorageRef var_ty, loc_ty)
            | Memory _ => mret (var_ty, loc_ty)
            end
          else
            fail (Diag.error (storage_loc s)
                    ("data location '" +:+ storage_str s +:+ "' only allowed for array, struct or mapping type"))
      end : R (ty * Loc));
  mapping ← read_ns (λ ns, contains_mapping (search_fuel ns var_ty) ns var_ty);
  if (mapping : bool) && negb (is_contract_storage var_ty) then
    l ← pt_loc t; fail (Diag.error l "mapping only allowed in storage")
  else
    fits ← (if is_contract_storage var_ty then mret true
            else read_ns (λ ns, fits_in_memory (type_fuel ns var_ty) ns var_ty));
    if (fits : bool) then mret (var_ty, loc_ty)
    else l ← pt_loc t; fail (Diag.error l "type is too large to fit into memory").

Definition declared_parameter (loc : Loc) (name : Identifier) (t : ty) (t_loc : Loc) : ParameterDecl :=
  mkParameter loc (Some name) t (Some t_loc) false false.

(* [sema/statements.rs | program::Statement::VariableDefinition(loc, decl, initializer) => { >> program::Statement::Block { | statement] *)
Definition variable_definition (loc : Loc) (d : Pt.VariableDeclaration) (initializer : option Pt.Expression)
    : R (list St.Statement) :=
  let 'Pt.mkVariableDeclaration d_loc t storage name := d in
  '(var_ty, ty_loc) ← resolve_var_decl_ty t storage;
  init ← optional (λ e,
      x ← rec e (To var_ty);
      _ ← check_overflow x;
      _ ← used x;
      cast x (Ex.loc x) var_ty) initializer;
  name ← lift (unwrap name);
  pos ← add_variable name var_ty init Sym.LocalVariable storage;
  match pos with
  | Some pos =>
      _ ← check_shadowing name;
      mret [St.VariableDecl_ loc pos (declared_parameter d_loc name var_ty ty_loc) init]
  | None => mret []
  end.

(** ** Returns *)

(** The number of values, as asked for and as given. *)
Definition check_return_count (loc : Loc) (expected given : nat) : R unit :=
  if (0 <? expected)%nat && (given =? 0)%nat then
    fail (Diag.error loc ("missing return value, " +:+ pretty expected +:+ " return values expected"))
  else if (expected =? 0)%nat && (0 <? given)%nat then fail (Diag.error loc "function has no return values")
  else if (expected =? given)%nat then mret tt
  else
    fail (Diag.error loc ("incorrect number of return values, expected " +:+ pretty expected +:+ " but got "
                          +:+ pretty given)).
Definition return_types : R (list ty) :=
  ctx ← get_ctx;
  n ← lift (unwrap (function_no ctx));
  f ← get_function n;
  mret (p_ty <$> f_returns f).

(** A value of a type, to see whether it could be converted. *)
Definition check_cast (loc : Loc) (i : nat) (from t : ty) : R unit :=
  _ ← cast (Ex.Variable_ loc from i) loc t; mret tt.
Definition check_casts (loc : Loc) (l : list (ty * ty)) : R unit :=
  _ ← mapR (λ '(i, (from, t)), check_cast loc i from t) (imap pair l); mret tt.

(** A call whose values are returned. *)
(* [sema/statements.rs | let mut expr_return_tys = expr_returns.tys(); >> Ok(expr_returns) | return_with_values] *)
Definition returned_call (loc : Loc) (expected : list ty) (x : expression) : R expression :=
  tys ← lift (tys x);
  let given := real_types tys in
  _ ← check_return_count loc (length expected) (length given);
  _ ← check_casts (Ex.loc x) (zip given expected);
  mret x.

(* [sema/statements.rs | let returns = parameter_list_to_expr_list(returns, diagnostics)?; >> let mut expr_return_tys | return_with_values] *)
Definition returned_list (loc : Loc) (expected : list ty) (returns : Pt.Expression) : R expression :=
  l ← parameter_list_to_expr_list returns;
  _ ← check_return_count loc (length expected) (length l);
  exprs ← mapR (λ '(e, t),
      x ← rec e (To t);
      x ← cast x loc t;
      _ ← used x;
      mret x) (zip l expected);
  mret (match exprs with [x] => x | _ => Ex.List_ loc exprs end).

(* [sema/statements.rs | fn return_with_values] *)
Fixpoint return_with_values (returns : Pt.Expression) (loc : Loc) : R expression :=
  expected ← return_types;
  match Pt.remove_parenthesis returns with
  | Pt.FunctionCall l t args => x ← call_expr l t args Unknown; _ ← used x; returned_call loc expected x
  | Pt.NamedFunctionCall l t args =>
      x ← named_call_expr l t args true Unknown; _ ← used x; returned_call loc expected x
  | Pt.ConditionalOperator l c a b =>
      c ← rec c (To Ty.Bool);
      _ ← used c;
      a_loc ← pt_loc a;
      x ← return_with_values a a_loc;
      _ ← used x;
      b_loc ← pt_loc b;
      y ← return_with_values b b_loc;
      _ ← used y;
      mret (Ex.ConditionalOperator l Ty.Unreachable c x y)
  | _ => returned_list loc expected returns
  end.

(** ** Destructuring assignments *)

Definition cannot_destructure (loc : Loc) (l r : nat) : Diagnostic :=
  Diag.error loc ("destructuring assignment has " +:+ pretty l +:+ " elements on the left and " +:+ pretty r
                  +:+ " on the right").

(* [sema/statements.rs | let mut right_tys = expr.tys(); >> Ok(expr) | destructure_values] *)
Definition destructured (loc : Loc) (left_tys : list (option ty)) (fields : list St.DestructureField) (x : expression)
    : R expression :=
  tys ← lift (tys x);
  let right_tys := real_types tys in
  if (length left_tys =? length right_tys)%nat then
    _ ← mapR (λ '(i, field),
        left_ty ← lift (unwrap (left_tys !! i));
        match left_ty with
        | Some t =>
            l ← lift (unwrap (field_loc field));
            from ← lift (unwrap (right_tys !! i));
            check_cast l i from (deref_memory t)
        | None => mret tt
        end) (imap pair fields);
    mret x
  else fail (cannot_destructure loc (length left_tys) (length right_tys)).

(* [sema/statements.rs | let mut list = Vec::new(); >> let mut right_tys = expr.tys(); | destructure_values] *)
Definition destructured_list (loc : Loc) (left_tys : list (option ty)) (e : Pt.Expression) : R expression :=
  exprs ← parameter_list_to_expr_list e;
  if (length exprs =? length left_tys)%nat then
    l ← mapR (λ '(e, t),
        x ← rec e (resolve_to_type t);
        xt ← ty_of x;
        match xt with
        | Ty.Void | Ty.Unreachable => fail (Diag.error (Ex.loc x) "function does not return a value")
        | _ => _ ← used x; mret x
        end) (zip exprs left_tys);
    mret (Ex.List_ loc l)
  else fail (cannot_destructure loc (length left_tys) (length exprs)).

(* [sema/statements.rs | fn destructure_values] *)
Fixpoint destructure_values (loc : Loc) (e : Pt.Expression) (left_tys : list (option ty))
    (fields : list St.DestructureField) : R expression :=
  match Pt.remove_parenthesis e with
  | Pt.FunctionCall l t args =>
      x ← function_call_expr keccak256 hash_order rec rec_type l t args Unknown;
      _ ← use (Usage.check_function_call x);
      destructured loc left_tys fields x
  | Pt.NamedFunctionCall l t args =>
      x ← named_function_call_expr rec l t args Unknown;
      _ ← use (Usage.check_function_call x);
      destructured loc left_tys fields x
  | Pt.ConditionalOperator l c a b =>
      c ← rec c (To Ty.Bool);
      _ ← used c;
      a_loc ← pt_loc a;
      x ← destructure_values a_loc a left_tys fields;
      _ ← used x;
      b_loc ← pt_loc b;
      y ← destructure_values b_loc b left_tys fields;
      _ ← used y;
      mret (Ex.ConditionalOperator l Ty.Unreachable c x y)
  | _ => x ← destructured_list loc left_tys e; destructured loc left_tys fields x
  end.

(** A place on the left: not a constant, and behind a reference. *)
(* [sema/statements.rs | match &e { >> assigned_variable(ns, &e, symtable); | destructure] *)
Definition check_place (loc : Loc) (x : expression) : R unit :=
  let constant_name n : R unit := fail (Diag.error loc ("cannot assign to constant '" +:+ n +:+ "'")) in
  match x with
  | Ex.ConstantVariable _ _ (Some c) n =>
      name ← read_ns (λ ns, k ← unwrap (contracts ns !! c); v ← unwrap (variables k !! n); Ret (v_name v));
      constant_name name
  | Ex.ConstantVariable _ _ None n =>
      name ← read_ns (λ ns, v ← unwrap (constants ns !! n); Ret (v_name v));
      constant_name name
  | Ex.Variable_ _ _ _ => mret tt
  | _ =>
      t ← ty_of x;
      match t with
      | Ty.Ref _ | Ty.StorageRef _ => mret tt
      | _ => fail (Diag.error loc "expression is not assignable")
      end
  end.

(** One field on the left: the types and fields there are with it. *)
(* [sema/statements.rs | for (_, param) in vars { >> let expr = destructure_values( | destructure] *)
Definition destructure_field (acc : list (option ty) * list St.DestructureField) (p : option Pt.Parameter_)
    : R (list (option ty) * list St.DestructureField) :=
  let '(left_tys, fields) := acc in
  match p with
  | None => mret (left_tys ++ [None], fields ++ [St.DNone])
  | Some (Pt.mkParameter loc t None) =>
      x ← rec t Unknown;
      _ ← check_place loc x;
      _ ← assigned x;
      xt ← ty_of x;
      mret (left_tys ++ [Some xt], fields ++ [St.DExpression x])
  | Some (Pt.mkParameter loc t (Some name)) =>
      '(vt, ty_loc) ← resolve_var_decl_ty t None;
      pos ← add_variable name vt None Sym.DestructureVariable None;
      match pos with
      | Some pos =>
          _ ← check_shadowing name;
          mret (left_tys ++ [Some vt], fields ++ [St.DVariableDecl pos (declared_parameter loc name vt ty_loc)])
      | None => mret (left_tys, fields)
      end
  end.

(* [sema/statements.rs | fn destructure( | destructure] *)
Definition destructure (loc : Loc) (vars : list (Loc * option Pt.Parameter_)) (e : Pt.Expression) : R St.Statement :=
  as_lvalue
    ('(left_tys, fields) ← foldR (λ acc v, destructure_field acc v.2) ([], []) vars;
     x ← destructure_values loc e left_tys fields;
     mret (St.Destructure loc fields x)).

(** ** Statements

    A statement gives the resolved statements, whether the next one can be
    reached, and the enclosing loops with their breaks and continues counted. *)

Definition outcome : Type := list St.Statement * bool * SymTable.SymTable.LoopScopes.

(** A condition. *)
Definition condition (e : Pt.Expression) : R expression :=
  x ← rec e (To Ty.Bool); _ ← used x; cast x (Ex.loc x) Ty.Bool.

(* [sema/statements.rs | program::Statement::Break(loc) => { >> program::Statement::While( | statement] *)
Definition jump (loc : Loc) (what : string) (stmt : St.Statement)
    (count : SymTable.SymTable.LoopScopes → bool * SymTable.SymTable.LoopScopes)
    (loops : SymTable.SymTable.LoopScopes) : R outcome :=
  let '(inside, loops) := count loops in
  if (inside : bool) then mret ([stmt], false, loops)
  else fail (Diag.error loc (what +:+ " statement not in loop")).

(* [sema/statements.rs | program::Expression::Delete(_, expr) => { >> program::Expression::FunctionCall(loc, ty, args) => { | statement] *)
Definition delete_statement (loc : Loc) (e : Pt.Expression) : R St.Statement :=
  x ← rec e Unknown;
  _ ← used x;
  t ← ty_of x;
  match t with
  | Ty.StorageRef r =>
      if is_mapping t then fail_ns (Diag.error loc "'delete' cannot be applied to mapping type")
      else mret (St.Delete loc r x)
  | _ => fail_ns (Diag.error loc "argument to 'delete' should be storage reference")
  end.

(* [sema/statements.rs | program::Statement::Expression(loc, expr) => { >> program::Statement::Error(_) | statement] *)
Definition expression_statement (loc : Loc) (e : Pt.Expression) : R (list St.Statement * bool) :=
  let resolved (m : R expression) : R (list St.Statement * bool) :=
    x ← m;
    tys ← lift (tys x);
    let reachable := match tys with [t] => negb (Ty.eqb t Ty.Unreachable) | _ => true end in
    mret ([St.Expression_ loc reachable x], reachable) in
  match e with
  | Pt.Delete _ e => s ← delete_statement loc e; mret ([s], true)
  | Pt.FunctionCall l t args => resolved (x ← call_expr l t args Discard; _ ← check_overflow x; mret x)
  | Pt.NamedFunctionCall l t args => resolved (x ← named_call_expr l t args true Discard; _ ← check_overflow x; mret x)
  | Pt.Assign _ (Pt.List_ _ vars) e => s ← destructure loc vars e; mret ([s], true)
  | e => resolved (rec e Unknown)
  end.

(* [sema/statements.rs | program::Statement::Return(loc, None) => { >> program::Statement::Expression(loc, expr) => { | statement] *)
Definition return_statement (loc : Loc) (returns : option Pt.Expression) : R St.Statement :=
  match returns with
  | None =>
      expected ← return_types;
      s ← get_sym;
      if (length (Sym.returns s) =? length expected)%nat then mret (St.Return_ loc None)
      else
        fail_ns (Diag.error loc ("missing return value, " +:+ pretty (length expected) +:+ " return values expected"))
  | Some e =>
      x ← return_with_values e loc;
      _ ← check_overflow x;
      s ← get_sym;
      _ ← mapR (λ k, use (Usage.update_var set_assigned k)) (Sym.returns s);
      mret (St.Return_ loc (Some x))
  end.

(* [sema/statements.rs | fn statement( | statement] *)
Fixpoint statement (s : Pt.Statement) (loops : SymTable.SymTable.LoopScopes) : R outcome :=
  let optional_statement (o : option Pt.Statement) loops : R outcome :=
    match o with Some s => statement s loops | None => mret ([], true, loops) end in
  match s with
  | Pt.VariableDefinition loc d init => l ← variable_definition loc d init; mret (l, true, loops)
  | Pt.Block loc statements =>
      '(l, reachable, _, loops) ← in_scope (foldR (λ '(l, reachable, reported, loops) s,
          let unreachable := negb reachable && negb reported in
          _ ← (if unreachable then push_ns (Diag.error (Pt.st_loc s) "unreachable statement") else mret tt);
          '(l1, reachable, loops) ← statement s loops;
          mret (l ++ l1, reachable, reported || unreachable, loops)) ([], true, false, loops) statements);
      mret ([St.Block loc l], reachable, loops)
  | Pt.Break loc => jump loc "break" (St.Break loc) SymTable.SymTable.do_break loops
  | Pt.Continue loc => jump loc "continue" (St.Continue loc) SymTable.SymTable.do_continue loops
  | Pt.While loc c body =>
      c ← condition c;
      '(l, _, loops) ← in_scope (statement body (SymTable.SymTable.loop_enter loops));
      '(_, loops) ← lift (SymTable.SymTable.loop_leave loops);
      mret ([St.While loc true c l], true, loops)
  | Pt.DoWhile loc body c =>
      c ← condition c;
      '(l, _, loops) ← in_scope (statement body (SymTable.SymTable.loop_enter loops));
      '(_, loops) ← lift (SymTable.SymTable.loop_leave loops);
      mret ([St.DoWhile loc true l c], true, loops)
  | Pt.If loc c then_ else_ =>
      c ← condition c;
      '(l1, r1, loops) ← in_scope (statement then_ loops);
      '(l2, r2, loops) ← (match else_ with
          | Some s => in_scope (statement s loops)
          | None => mret ([], true, loops)
          end : R outcome);
      let reachable := r1 || r2 in
      mret ([St.If loc reachable c l1 l2], reachable, loops)
  | Pt.Args loc _ => fail_ns (Diag.error loc "expected code block, not list of named arguments")
  | Pt.For loc init None next body => in_scope
     ('(init, _, loops) ← optional_statement init loops;
      '(body, _, loops) ← optional_statement body (SymTable.SymTable.loop_enter loops);
      '(control, loops) ← lift (SymTable.SymTable.loop_leave loops);
      let reachable := (0 <? SymTable.SymTable.no_breaks control)%nat in
      next ← optional (λ e, rec e (To Ty.Bool)) next;
      mret ([St.For loc reachable init None next body], reachable, loops))
  | Pt.For loc init (Some c) next body => in_scope
     ('(init, _, loops) ← optional_statement init loops;
      x ← rec c (To Ty.Bool);
      l ← pt_loc c;
      c ← cast x l Ty.Bool;
      '(body, reachable, loops) ← optional_statement body (SymTable.SymTable.loop_enter loops);
      '(control, loops) ← lift (SymTable.SymTable.loop_leave loops);
      next ← (if reachable || (0 <? SymTable.SymTable.no_continues control)%nat
              then optional (λ e, rec e (To Ty.Bool)) next else mret None);
      mret ([St.For loc true init (Some c) next body], true, loops))
  | Pt.Return_ loc returns => s ← return_statement loc returns; mret ([s], false, loops)
  | Pt.Expression_ loc e => '(l, reachable) ← expression_statement loc e; mret (l, reachable, loops)
  | Pt.Error_ _ => lift Panic
  end.

(** ** Function bodies *)

(** A parameter: a variable unless it has no name. *)
(* [sema/statements.rs | for (i, p) in def.params.iter().enumerate() { >> // a function with no return values | resolve_function_body] *)
Definition add_parameter (params : list ParameterDecl) (x : nat * (Loc * option Pt.Parameter_)) : R unit :=
  let '(i, (_, p)) := x in
  p ← lift (unwrap p);
  match Pt.pa_name p with
  | Some name =>
      param ← lift (unwrap (params !! i));
      pos ← add_variable name (p_ty param) None Sym.Parameter_ None;
      match pos with
      | Some k =>
          _ ← check_shadowing name;
          modify_sym (λ s, SymTable.SymTable.set_arguments (Sym.arguments s ++ [Some k]) s)
      | None => mret tt
      end
  | None => modify_sym (λ s, SymTable.SymTable.set_arguments (Sym.arguments s ++ [None]) s)
  end.

Definition add_return (k : nat) : R unit := modify_sym (λ s, SymTable.SymTable.set_returns (Sym.returns s ++ [k]) s).
(** A return value: a named one makes the return statement optional, one
    without a name in storage asks for it. *)
(* [sema/statements.rs | for (i, p) in def.returns.iter().enumerate() { >> let body = match def.body { | resolve_function_body] *)
Definition add_returns (returns : list ParameterDecl) (return_required : bool)
    (x : nat * (Loc * option Pt.Parameter_)) : R bool :=
  let '(i, (loc, p)) := x in
  ret ← lift (unwrap (returns !! i));
  p ← lift (unwrap p);
  match Pt.pa_name p with
  | Some name =>
      pos ← add_variable name (p_ty ret) None Sym.ReturnVariable None;
      _ ← (match pos with Some k => _ ← check_shadowing name; add_return k | None => mret tt end : R unit);
      mret false
  | None =>
      pos ← add_variable {| id_loc := loc; id_name := "" |} (p_ty ret) None Sym.AnonymousReturnVariable None;
      k ← lift (unwrap pos);
      _ ← add_return k;
      mret (return_required || is_contract_storage (p_ty ret))
  end.

Definition set_body (body : list St.Statement) (sym : Sym.Symtable) (f : Function) : Function :=
  mkFunction (f_loc f) (f_name f) (f_contract_no f) (f_signature f) (f_params f) (f_returns f) (f_selector f)
    (has_body f) body sym (mangled_name f).
Definition missing_storage_return (p : ParameterDecl) : option Diagnostic :=
  match p_id p with
  | None =>
      if is_contract_storage (p_ty p)
      then Some (Diag.error (p_loc p) "storage reference must be given value with a return statement")
      else None
  | Some _ => None
  end.

(** The parameters, the return values and the body, with a context and tables
    of their own. *)
Definition body_of (d : Pt.FunctionDefinition) (f : Function) : R (option (list St.Statement * bool * bool)) :=
  _ ← foldR (λ _ x, add_parameter (f_params f) x) tt (imap pair (Pt.fd_params d));
  return_required ← foldR (λ b x, add_returns (f_returns f) b x) false (imap pair (Pt.fd_returns d));
  match Pt.fd_body d with
  | None => mret None
  | Some body => '(l, reachable, _) ← statement body []; mret (Some (l, reachable, return_required))
  end.

(* [sema/statements.rs | pub fn resolve_function_body] *)
Definition resolve_function_body (d : Pt.FunctionDefinition) (file_no : nat) (contract_no : option nat)
    (function_no : nat) (ns : Namespace) : comp (bool * Namespace) :=
  f ← unwrap (functions ns !! function_no);
  '(r, s) ← body_of d f (mkState ns SymTable.SymTable.new (mkContext file_no contract_no (Some function_no) false false)
                           Diags.empty);
  match r with
  | Some None => Ret (true, st_ns s)
  | None => Ret (false, set_diagnostics (Diags.extend (diagnostics (st_ns s)) (st_diags s)) (st_ns s))
  | Some (Some (body, reachable, return_required)) =>
      let ns := set_diagnostics (Diags.extend (diagnostics (st_ns s)) (st_diags s)) (st_ns s) in
      f ← unwrap (functions ns !! function_no);
      let ns := if (reachable && return_required : bool)
                then foldl (λ ns d, push_diag d ns) ns (omap missing_storage_return (f_returns f)) else ns in
      Ret (true, set_functions (<[function_no := set_body body (st_sym s) f]> (functions ns)) ns)
  end.
End Statements.
End Statements.
