(* ===== verification/Declarations.v ===== *)
(** The declarations of types (src/src/sema/types.rs): the contracts, enums,
    structs and user types of a source file, the fields of the structs, and
    the search for structs that contain themselves. *)
From S2P Require Import Prelude BigIntSpec Ast Types Layouts Pt TypeNames SymTable Casts Names Resolver.
#[local] Set Warnings "-register-all".

Module Declarations.
Import Names.

(** * What declares

    [fn f(.., ns: &mut Namespace) -> A]: a declaration changes the namespace and
    reports in it. *)
Definition N (A : Type) : Type := Namespace → comp (A * Namespace).
#[export] Instance N_ret : MRet N := λ A a ns, Ret (a, ns).
#[export] Instance N_bind : MBind N := λ A B f m ns, r ← m ns; f r.1 r.2.

Definition get : N Namespace := λ ns, Ret (ns, ns).
Definition nlift {A} (m : comp A) : N A := λ ns, a ← m; Ret (a, ns).
Definition modify (f : Namespace → Namespace) : N unit := λ ns, Ret (tt, f ns).
Definition update (f : Namespace → comp Namespace) : N unit := λ ns, ns ← f ns; Ret (tt, ns).
(** [ns.diagnostics.push(d)], [ns.diagnostics.extend(d)] *)
Definition report (d : Diagnostic) : N unit := modify (push_diag d).
Definition report_all (d : Diagnostics) : N unit := modify (λ ns, set_diagnostics (Diags.extend (diagnostics ns) d) ns).
(** [for a in l { .. }] *)
Fixpoint foldN {A B} (f : B → A → N B) (b : B) (l : list A) : N B :=
  match l with [] => mret b | a :: l => b ← f b a; foldN f b l end.

Definition add_symbol (file : nat) (contract : option nat) (i : Identifier) (s : Symbol) : N bool :=
  λ ns, Names.add_symbol ns file contract i s.

(** A call with diagnostics, a symbol table and a context of its own: the
    result and the diagnostics. *)
Definition run {A} (c : Casts.ExprContext) (t : Sym.Symtable) (d : Diagnostics) (m : Resolver.R A)
    : N (option A * Sym.Symtable * Diagnostics) := λ ns,
  r ← m (Resolver.mkState ns t c d); Ret ((r.1, Resolver.st_sym r.2, Resolver.st_diags r.2), Resolver.st_ns r.2).

(** ** Hash sets

    The order in which the elements of a [HashSet] are visited. *)
Class HashOrder := {
  visit {A} `{Countable A} : gset A → list A;
  visit_perm {A} `{Countable A} (X : gset A) : visit X ≡ₚ elements X;
}.

(** ** The graph library (petgraph)

    An edge goes from a struct to a struct and has the number of the field. *)
Definition edge : Set := nat * nat * nat.
Fixpoint is_path (es : list edge) (p : list nat) : Prop :=
  match p with
  | a :: (b :: _) as p => (∃ w, (a, b, w) ∈ es) ∧ is_path es p
  | _ => True
  end.
Class Petgraph := {
  Graph : Type;
  from_edges : list edge → Graph;
  node_count : Graph → nat;
  edges_connecting : Graph → nat → nat → list nat;
  all_simple_paths : Graph → nat → nat → nat → option nat → list (list nat);
  tarjan_scc : Graph → list (list nat);
  edges_connecting_spec es a b w : w ∈ edges_connecting (from_edges es) a b ↔ (a, b, w) ∈ es;
  simple_paths_spec es a b lo hi p :
    p ∈ all_simple_paths (from_edges es) a b lo hi → is_path es p ∧ head p = Some a ∧ last p = Some b;
}.

Section Types.
(** [ns.resolve_type(file_no, contract_no, ty, diagnostics)] *)
Context (rec_type : nat → option nat → Pt.Expression → Resolver.R ty).

Definition resolve_type (file : nat) (contract : option nat) (e : Pt.Expression) (d : Diagnostics)
    : N (option ty * Diagnostics) :=
  '(t, _, d) ← run (Casts.mkContext file contract None false false) SymTable.SymTable.new d (rec_type file contract e);
  mret (t, d).

(** * Enums, structs and user types *)

Definition contract_name (contract : option nat) : N (option string) :=
  match contract with
  | None => mret None
  | Some c => ns ← get; k ← nlift (unwrap (contracts ns !! c)); mret (Some (c_name k))
  end.

Definition elementary (t : ty) : bool :=
  match t with Ty.Address | Ty.Uint _ | Ty.Bool | Ty.Hash | Ty.Field => true | _ => false end.

(* [sema/types.rs | fn type_decl( | type_decl] *)
Definition type_decl (def : Pt.TypeDefinition) (file : nat) (contract : option nat) : N unit :=
  '(t, d) ← resolve_type file contract (Pt.td_ty def) Diags.empty;
  match t with
  | None => report_all d
  | Some t =>
      t ← (if elementary t then mret t
           else
             ns ← get;
             l ← nlift (Pt.loc (Pt.td_ty def));
             s ← nlift (to_string ns t);
             _ ← report (Diag.error l ("'" +:+ s +:+ "' is not an elementary value type"));
             mret Ty.Unresolved);
      ns ← get;
      let name := Pt.td_name def in
      ok ← add_symbol file contract name (SUserType (id_loc name) (length (user_types ns)));
      if (ok : bool) then
        c ← contract_name contract;
        modify (λ ns, set_user_types (user_types ns ++ [{| ut_loc := Pt.td_loc def; ut_name := id_name name;
                                                           ut_ty := t; ut_contract := c |}]) ns)
      else mret tt
  end.

(** The value of the entry with a key in an [IndexMap]. *)
Definition entry (entries : list (string * Loc)) (n : string) : option Loc :=
  snd <$> find (λ x, bool_decide (x.1 = n)) entries.

(* [sema/types.rs | 407-423 | enum_decl] *)
Definition enum_value (acc : list (string * Loc) * bool) (e : option Identifier) : N (list (string * Loc) * bool) :=
  let '(entries, valid) := acc in
  e ← nlift (unwrap e);
  match entry entries (id_name e) with
  | Some prev =>
      _ ← report (Diag.error_with_note (id_loc e) ("duplicate enum value " +:+ id_name e) prev
                    "location of previous definition");
      mret (entries, false)
  | None => mret (entries ++ [(id_name e, id_loc e)], valid)
  end.

(* [sema/types.rs | fn enum_decl( | enum_decl] *)
Definition enum_decl (def : Pt.EnumDefinition) (file : nat) (contract : option nat) : N bool :=
  name ← nlift (unwrap (Pt.ed_name def));
  let n := length (Pt.ed_values def) in
  valid ← (if (n =? 0)%nat then
             _ ← report (Diag.error (id_loc name) ("enum '" +:+ id_name name +:+ "' has no fields")); mret false
           else if (256 <? n)%nat then
             _ ← report (Diag.error (id_loc name) ("enum '" +:+ id_name name +:+ "' has " +:+ pretty n
                                        +:+ " fields, which is more than the 256 limit")); mret false
           else mret true);
  '(entries, valid) ← foldN enum_value ([], valid) (Pt.ed_values def);
  c ← contract_name contract;
  ns ← get;
  let pos := length (enums ns) in
  _ ← modify (λ ns, set_enums (enums ns ++ [mkEnumDecl (id_name name) c (Pt.ed_loc def) (Ty.Uint 32) entries]) ns);
  ok ← add_symbol file contract name (SEnum (id_loc name) pos);
  mret (if (ok : bool) then valid else false).

Definition storage_location_loc (s : StorageLocation) : Loc := match s with Memory l | Storage_ l => l end.
Definition show_storage_location (s : StorageLocation) : string :=
  match s with Memory _ => "memory" | Storage_ _ => "storage" end.

(** A field of a struct: one whose type cannot be resolved has no type, a
    second one with the same name is left out. *)
(* [sema/types.rs | 298-346 | struct_decl] *)
Definition struct_field (struct_name : string) (file : nat) (contract : option nat) (fields : list ParameterDecl)
    (field : Pt.VariableDeclaration) : N (list ParameterDecl) :=
  let 'Pt.mkVariableDeclaration loc t storage name := field in
  '(t', d) ← resolve_type file contract t Diags.empty;
  ty ← match t' with Some ty => mret ty | None => _ ← report_all d; mret Ty.Unresolved end;
  name ← nlift (unwrap name);
  match find (λ f, bool_decide (id_name <$> p_id f = Some (id_name name))) fields with
  | Some other =>
      _ ← report (Diag.error_with_note (id_loc name)
                    ("struct '" +:+ struct_name +:+ "' has duplicate struct field '" +:+ id_name name +:+ "'")
                    (p_loc other) ("location of previous declaration of '" +:+ name_as_str other +:+ "'"));
      mret fields
  | None =>
      _ ← match storage with
          | Some s => report (Diag.error (storage_location_loc s)
                        ("storage location '" +:+ show_storage_location s +:+ "' not allowed for struct field"))
          | None => mret tt
          end;
      ty_loc ← nlift (Pt.loc t);
      mret (fields ++ [mkParameter loc (Some {| id_loc := id_loc name; id_name := id_name name |}) ty (Some ty_loc)
                         false false])
  end.

(* [sema/types.rs | pub fn struct_decl( | struct_decl] *)
Definition struct_decl (def : Pt.StructDefinition) (file : nat) (contract : option nat) : N (list ParameterDecl) :=
  name ← nlift (unwrap (Pt.sd_name def));
  fields ← foldN (struct_field (id_name name) file contract) [] (Pt.sd_fields def);
  match fields with
  | [] => _ ← report (Diag.error (id_loc name) ("struct definition for '" +:+ id_name name +:+ "' has no fields"));
          mret []
  | _ => mret fields
  end.

(** * Contracts *)

(** [str::to_ascii_lowercase] *)
Definition lowercase (c : Ascii.ascii) : Ascii.ascii :=
  let n := Ascii.nat_of_ascii c in if ((65 <=? n) && (n <=? 90))%nat then Ascii.ascii_of_nat (n + 32) else c.
Fixpoint to_ascii_lowercase (s : string) : string :=
  match s with EmptyString => EmptyString | String.String c s => String.String (lowercase c) (to_ascii_lowercase s) end.

(* [sema/types.rs | fn is_windows_reserved] *)
Definition is_windows_reserved (name : string) : bool :=
  existsb (String.eqb (to_ascii_lowercase name))
    ["con"; "prn"; "aux"; "nul"; "com1"; "com2"; "com3"; "com4"; "com5"; "com6"; "com7"; "com8"; "com9"; "lpt1";
     "lpt2"; "lpt3"; "lpt4"; "lpt5"; "lpt6"; "lpt7"; "lpt8"; "lpt9"].

(** [Contract::new] *)
(* [sema/contracts.rs | pub fn new] *)
Definition new_contract (name : string) (t : ContractTy) (loc : Loc) : Contract :=
  mkContract loc name t [] 0 [] [] [] None [] (match t with ContractTy_ _ => true | _ => false end) 0.

(** A struct whose fields are resolved later. *)
(* [sema/types.rs | struct ResolveStructFields] *)
Record ResolveStructFields : Set := { rs_struct_no : nat; rs_pt : Pt.StructDefinition; rs_contract : option nat }.

(* [sema/types.rs | 242-279 | resolve_contract] *)
Definition resolve_part (contract_name : string) (file contract_no : nat) (acc : list ResolveStructFields * bool)
    (part : Pt.ContractPart) : N (list ResolveStructFields * bool) :=
  let '(delay, broken) := acc in
  match part with
  | Pt.PEnum e => ok ← enum_decl e file (Some contract_no); mret (delay, broken || negb ok)
  | Pt.PStruct pt =>
      ns ← get;
      let struct_no := length (structs ns) in
      name ← nlift (unwrap (Pt.sd_name pt));
      ok ← add_symbol file (Some contract_no) name (SStruct (id_loc name) struct_no);
      if (ok : bool) then
        _ ← modify (λ ns, set_structs (structs ns ++ [mkStructDecl (id_name name) (id_loc name) (Some contract_name)
                                                         [] [] []]) ns);
        mret (delay ++ [{| rs_struct_no := struct_no; rs_pt := pt; rs_contract := Some contract_no |}], broken)
      else mret (delay, true)
  | Pt.PType d => _ ← type_decl d file (Some contract_no); mret (delay, broken)
  | _ => mret (delay, broken)
  end.

(* [sema/types.rs | fn resolve_contract] *)
Definition resolve_contract (def : Pt.ContractDefinition) (file : nat) (delay : list ResolveStructFields)
    : N (list ResolveStructFields * bool) :=
  ns ← get;
  let contract_no := length (contracts ns) in
  name ← nlift (unwrap (Pt.cd_name def));
  _ ← modify (λ ns, set_contracts (contracts ns ++ [new_contract (id_name name) (Pt.cd_ty def) (Pt.cd_loc def)]) ns);
  ok ← add_symbol file None name (SContract (Pt.cd_loc def) contract_no);
  _ ← (if is_windows_reserved (id_name name) then
         report (Diag.error (id_loc name) ("contract name '" +:+ id_name name +:+ "' is reserved file name on Windows"))
       else mret tt);
  foldN (resolve_part (id_name name) file contract_no) (delay, negb ok) (Pt.cd_parts def).

(* [sema/types.rs | pub fn resolve_typenames] *)
Definition resolve_typenames (s : Pt.SourceUnit) (file : nat) : N (list ResolveStructFields) :=
  foldN (λ delay part,
    match part with
    | Pt.PContract def => '(delay, _) ← resolve_contract def file delay; mret delay
    | _ => mret delay
    end) [] s.
End Types.

(** * Structs that contain themselves *)

Section Recursion.
Context {HO : HashOrder} {PG : Petgraph}.

(** The edges that the fields of the structs ask for; a search visits each once. *)
Definition field_structs (ns : Namespace) (f : ParameterDecl) : gset nat :=
  match user_struct_no (type_fuel ns (p_ty f)) ns (p_ty f) with Ret s => s | _ => ∅ end.
Definition struct_edges (ns : Namespace) (n : nat) (s : StructDecl) : gset edge :=
  ⋃ imap (λ k f, set_map (λ m, (n, m, k)) (field_structs ns f)) (fields s).
Definition all_edges (ns : Namespace) : gset edge := ⋃ imap (struct_edges ns) (structs ns).

(* [sema/types.rs | fn collect_struct_edges] *)
Fixpoint collect_struct_edges (fuel : nat) (ns : Namespace) (no : nat) (edges : gset edge) : comp (gset edge) :=
  match fuel with O => OutOfFuel | S fuel =>
  s ← get_struct ns no;
  foldM (λ edges '(field_no, field),
    reached ← user_struct_no (type_fuel ns (p_ty field)) ns (p_ty field);
    foldM (λ edges reaching,
      if decide ((no, reaching, field_no) ∈ edges) then Ret edges
      else collect_struct_edges fuel ns reaching ({[ (no, reaching, field_no) ]} ∪ edges)) edges (visit reached))
    edges (imap pair (fields s))
  end.

(** [nodes.windows(2)] *)
Fixpoint windows {A} (l : list A) : list (A * A) :=
  match l with a :: (b :: _) as l => (a, b) :: windows l | _ => [] end.

Definition mark_field (f : ParameterDecl → ParameterDecl) (struct_no field_no : nat) (ns : Namespace) : comp Namespace :=
  s ← get_struct ns struct_no;
  p ← unwrap (fields s !! field_no);
  Ret (set_structs (<[struct_no := mkStructDecl (struct_name s) (struct_loc s) (struct_contract s)
                                     (<[field_no := f p]> (fields s)) (offsets s) (storage_offsets s)]> (structs ns)) ns).
Definition mark_infinite (p : ParameterDecl) : ParameterDecl :=
  mkParameter (p_loc p) (p_id p) (p_ty p) (p_ty_loc p) true (recursive p).
Definition mark_recursive (p : ParameterDecl) : ParameterDecl :=
  mkParameter (p_loc p) (p_id p) (p_ty p) (p_ty_loc p) (infinite_size p) true.

Definition is_struct (t : ty) : bool := match t with Ty.Struct _ => true | _ => false end.

(* [sema/types.rs | fn check_infinite_struct_size] *)
Definition check_infinite_struct_size (g : Graph) (nodes : list nat) (ns : Namespace) : comp Namespace :=
  '(infinite_size, offenders) ← foldM (λ '(infinite_size, offenders) '(a, b),
      '(infinite_edge, offenders) ← foldM (λ '(infinite_edge, offenders) w,
          s ← get_struct ns a;
          f ← unwrap (fields s !! w);
          Ret (if is_struct (p_ty f) then (true, {[ (a, w) ]} ∪ offenders) else (infinite_edge, offenders)))
        (false, offenders) (edges_connecting g a b);
      Ret (infinite_size && infinite_edge, offenders)) (true, ∅ : gset (nat * nat)) (windows nodes);
  if (infinite_size : bool)
  then foldM (λ ns '(struct_no, field_no), mark_field mark_infinite struct_no field_no ns) ns (visit offenders)
  else Ret ns.

(* [sema/types.rs | fn check_recursive_struct_field] *)
Definition check_recursive_struct_field (node : nat) (g : Graph) (ns : Namespace) : comp Namespace :=
  foldM (λ ns n,
    foldM (λ ns path,
      foldM (λ ns '(a, b),
        foldM (λ ns w,
          ns ← mark_field mark_recursive a w ns;
          s ← get_struct ns b;
          if existsb infinite_size (fields s) then mark_field mark_infinite a w ns else Ret ns)
          ns (edges_connecting g a b)) ns (windows path))
      ns (all_simple_paths g n node 0 None)) ns (seq 0 (length (structs ns))).

(** [Itertools::dedup]: of equal neighbours one is kept. *)
Fixpoint dedup (l : list nat) : list nat :=
  match l with
  | a :: (b :: _) as l => if decide (a = b) then dedup l else a :: dedup l
  | l => l
  end.

(* [sema/types.rs | 180-192 | find_struct_recursion] *)
Definition report_infinite (ns : Namespace) (s : StructDecl) : Namespace :=
  let notes := (λ f, {| note_loc := p_loc f; note_message := "recursive field '" +:+ name_as_str f +:+ "'" |})
                 <$> List.filter infinite_size (fields s) in
  match notes with
  | [] => ns
  | _ => push_diag (Diag.error_with_notes (struct_loc s) ("struct '" +:+ struct_name s +:+ "' has infinite size") notes) ns
  end.

(* [sema/types.rs | fn find_struct_recursion] *)
Definition find_struct_recursion (ns : Namespace) : comp Namespace :=
  edges ← foldM (λ edges n, collect_struct_edges (S (size (all_edges ns))) ns n edges) ∅ (seq 0 (length (structs ns)));
  let g := from_edges (visit edges) in
  ns ← foldM (λ ns n,
    match head (all_simple_paths g n n 0 (Some (node_count g))) with
    | Some cycle => ns ← check_infinite_struct_size g cycle ns; check_recursive_struct_field n g ns
    | None => Ret ns
    end) ns (dedup (concat (tarjan_scc g)));
  Ret (foldl report_infinite ns (structs ns)).

(** * The fields of the structs of a file *)

(** Enough for what follows the fields of structs that do not contain
    themselves: how high the types of the namespace are, for each struct and
    each user type on the way. *)
Definition types_height (ns : Namespace) (l : list ty) : nat :=
  max_list (height <$> (l ++ concat ((λ s, p_ty <$> fields s) <$> structs ns) ++ (ut_ty <$> user_types ns))).
Definition nesting_fuel (ns : Namespace) (l : list ty) : nat :=
  2 + (1 + length (structs ns) + length (user_types ns)) * S (types_height ns l).

Context {BI : NumBigInt}.
Context (rec_type : nat → option nat → Pt.Expression → Resolver.R ty).

Definition store_fields (file : nat) (x : ResolveStructFields) : N unit :=
  l ← struct_decl rec_type (rs_pt x) file (rs_contract x);
  update (λ ns,
    s ← get_struct ns (rs_struct_no x);
    Ret (set_structs (<[rs_struct_no x := mkStructDecl (struct_name s) (struct_loc s) (struct_contract s) l (offsets s)
                                            (storage_offsets s)]> (structs ns)) ns)).

(* [sema/types.rs | pub fn resolve_fields( | resolve_fields] *)
Definition resolve_fields (delay : list ResolveStructFields) (file : nat) : N unit :=
  _ ← foldN (λ _ x, store_fields file x) tt delay;
  _ ← update find_struct_recursion;
  update (λ ns, struct_offsets (nesting_fuel ns []) (2 + length (structs ns) + length (user_types ns)) ns).
End Recursion.
End Declarations.
