(* ===== verification/Functions.v ===== *)
(** The declarations of functions (src/src/sema/functions.rs, Function::new of
    ast.rs) and of variables (variables.rs). *)
From S2P Require Import Prelude BigIntSpec Ast Types Pt TypeNames SymTable Casts Names Resolver Declarations.
#[local] Set Warnings "-register-all".

Module Functions.
Import Casts Names Resolver Declarations.

(** * Signatures and mangled names *)

(** [s.replace(pat, by)] for a pattern that is not empty; [skip] characters
    belong to the match before. *)
Fixpoint replace_from (skip : nat) (pat by_ s : string) : string :=
  match s with
  | EmptyString => EmptyString
  | String.String c s' =>
      match skip with
      | S skip => replace_from skip pat by_ s'
      | O => if String.prefix pat s then by_ +:+ replace_from (String.length pat - 1) pat by_ s'
             else String.String c (replace_from 0 pat by_ s')
      end
  end.
Definition replace : string → string → string → string := replace_from 0.

(* [sema/ast.rs | 256-262 | Function::new] *)
Definition mangle (signature : string) : string :=
  replace "]" "" (replace "[" "Array" (replace "[]" "Array" (replace "," "_" (replace ")" "" (replace "(" "_" signature))))).

(* [sema/ast.rs | 246-278 | Function::new] *)
Definition new_function (loc : Loc) (name : string) (contract_no : option nat) (params returns : list ParameterDecl)
    (ns : Namespace) : comp Function :=
  signature ← signature (nesting_fuel ns (p_ty <$> params)) ns name params;
  Ret (mkFunction loc name contract_no signature params returns None false [] SymTable.SymTable.new (mangle signature)).

Definition set_has_body (b : bool) (f : Function) : Function :=
  mkFunction (f_loc f) (f_name f) (f_contract_no f) (f_signature f) (f_params f) (f_returns f) (f_selector f) b
    (f_body f) (f_symtable f) (mangled_name f).

Definition with_functions (l : list nat) (c : Contract) : Contract :=
  mkContract (c_loc c) (c_name c) (c_ty c) (c_layout c) (c_fixed_layout_size c) l (all_functions c) (variables c)
    (c_initializer c) (c_code c) (instantiable c) (dispatch_no c).
Definition with_all_functions (l : list (nat * Z)) (c : Contract) : Contract :=
  mkContract (c_loc c) (c_name c) (c_ty c) (c_layout c) (c_fixed_layout_size c) (c_functions c) l (variables c)
    (c_initializer c) (c_code c) (instantiable c) (dispatch_no c).
Definition update_contract (c : nat) (f : Contract → Contract) : N unit := update (λ ns,
  k ← unwrap (contracts ns !! c); Ret (set_contracts (<[c := f k]> (contracts ns)) ns)).

Section Functions.
Context (rec_type : nat → option nat → Pt.Expression → Resolver.R ty).

(** * Functions *)

(** [resolve_params] and [resolve_returns] differ in one message. *)
(* [sema/functions.rs | 165-191 | resolve_params] *)
Definition resolve_parameter (missing : string) (file : nat) (contract : option nat)
    (acc : list ParameterDecl * bool * Diagnostics) (x : Loc * option Pt.Parameter_)
    : N (list ParameterDecl * bool * Diagnostics) :=
  let '(params, success, d) := acc in
  let '(loc, p) := x in
  match p with
  | None => mret (params, false, Diags.push d (Diag.error loc missing))
  | Some p =>
      ty_loc ← nlift (Pt.loc (Pt.pa_ty p));
      '(t, d) ← resolve_type rec_type file contract (Pt.pa_ty p) d;
      match t with
      | Some t => mret (params ++ [mkParameter loc (Pt.pa_name p) t (Some ty_loc) false false], success, d)
      | None => mret (params, false, d)
      end
  end.
(* [sema/functions.rs | pub fn resolve_params] *)
Definition resolve_params (l : list (Loc * option Pt.Parameter_)) (file : nat) (contract : option nat)
    (d : Diagnostics) : N (list ParameterDecl * bool * Diagnostics) :=
  foldN (resolve_parameter "missing parameter type" file contract) ([], true, d) l.
(* [sema/functions.rs | pub fn resolve_returns] *)
Definition resolve_returns (l : list (Loc * option Pt.Parameter_)) (file : nat) (contract : option nat)
    (d : Diagnostics) : N (list ParameterDecl * bool * Diagnostics) :=
  foldN (resolve_parameter "missing return type" file contract) ([], true, d) l.

(* [sema/functions.rs | 55-71 | contract_function] *)
Definition check_body (contract_no : nat) (func : Pt.FunctionDefinition) : N bool :=
  ns ← get;
  c ← nlift (unwrap (contracts ns !! contract_no));
  if is_interface c then
    match Pt.fd_body func with
    | Some _ => _ ← report (Diag.error (Pt.fd_loc func) "function in an interface cannot have a body"); mret false
    | None => mret true
    end
  else if is_library c then
    match Pt.fd_body func with
    | None => _ ← report (Diag.error (Pt.fd_loc func) "function in a library must have a body"); mret false
    | Some _ => mret true
    end
  else mret true.

(** The first function of the contract with the signature. *)
(* [sema/functions.rs | 113-121 | contract_function] *)
Fixpoint find_signature (ns : Namespace) (l : list nat) (signature : string) : comp (option nat) :=
  match l with
  | [] => Ret None
  | k :: l => f ← unwrap (functions ns !! k);
              if bool_decide (f_signature f = signature) then Ret (Some k) else find_signature ns l signature
  end.

(* [sema/functions.rs | 132-151 | contract_function] *)
Definition add_function (func : Pt.FunctionDefinition) (id : Identifier) (file contract_no : nat) (f : Function)
    : N nat :=
  ns ← get;
  let func_no := length (functions ns) in
  _ ← modify (λ ns, set_functions (functions ns ++ [f]) ns);
  _ ← update_contract contract_no (λ c, with_functions (c_functions c ++ [func_no]) c);
  let k := (file, Some contract_no, id_name id) in
  match function_symbols ns !! k with
  | Some (SFunction v) =>
      _ ← modify (λ ns, set_symbols (<[k := SFunction (v ++ [(Pt.fd_loc func, func_no)])]> (function_symbols ns))
                          (variable_symbols ns) ns);
      mret func_no
  | _ => _ ← add_symbol file (Some contract_no) id (SFunction [(id_loc id, func_no)]); mret func_no
  end.

(* [sema/functions.rs | pub fn contract_function] *)
Definition contract_function (func : Pt.FunctionDefinition) (file contract_no : nat) : N (option nat) :=
  let fail message := _ ← report (Diag.error (Pt.fd_loc func) message); mret None in
  match Pt.fd_name func with
  | None => fail "function must have a name"
  | Some id =>
      ns ← get;
      c ← nlift (unwrap (contracts ns !! contract_no));
      if bool_decide (id_name id = c_name c) then fail "function cannot have same name as the contract"
      else
        '(params, params_success, d) ← resolve_params (Pt.fd_params func) file (Some contract_no) Diags.empty;
        '(returns, returns_success, d) ← resolve_returns (Pt.fd_returns func) file (Some contract_no) d;
        _ ← report_all d;
        success ← check_body contract_no func;
        if negb (success && returns_success && params_success) then mret None
        else
          ns ← get;
          f ← nlift (new_function (Pt.fd_loc func) (id_name id) (Some contract_no) params returns ns);
          let f := set_has_body (match Pt.fd_body func with Some _ => true | None => false end) f in
          c ← nlift (unwrap (contracts ns !! contract_no));
          previous ← nlift (find_signature ns (all_functions c).*1 (f_signature f));
          match previous with
          | Some k =>
              p ← nlift (unwrap (functions ns !! k));
              _ ← report (Diag.error_with_note (Pt.fd_loc func) "overloaded fn with this signature already exist"
                            (f_loc p) "location of previous definition");
              mret None
          | None => n ← add_function func id file contract_no f; mret (Some n)
          end
  end.
End Functions.

(** * Variables *)

(* [sema/variables.rs | pub struct DelayedResolveInitializer] *)
Record DelayedResolveInitializer : Set := {
  di_var_no : nat; di_contract_no : nat; di_initializer : Pt.Expression;
}.

Section Variables.
Context {BI : NumBigInt}.
Context (rec : Pt.Expression → ResolveTo → Resolver.R expression).
Context (rec_type : nat → option nat → Pt.Expression → Resolver.R ty).

(* [sema/variables.rs | 67-75 | variable_decl] *)
Definition constant_attribute (constant : bool) (attr : Pt.VariableAttribute) : N bool :=
  match attr with
  | Pt.Constant l =>
      _ ← (if constant then report (Diag.error l "duplicate constant attribute") else mret tt); mret true
  | Pt.Mutable _ => mret constant
  end.

(* [ola-parser/src/program.rs | impl fmt::Display for ContractTy | impl fmt::Display for ContractTy] *)
Definition show_contract_ty (t : ContractTy) : string :=
  match t with ContractTy_ _ => "contract" | Interface _ => "interface" | Library _ => "library" end.

(** Interfaces have no variables, libraries only constant ones; without a
    contract a variable must be constant. *)
(* [sema/variables.rs | 78-104 | variable_decl] *)
Definition variable_allowed (contract : option Pt.ContractDefinition) (def : Pt.VariableDefinition_) (constant : bool)
    : N bool :=
  match contract with
  | Some contract =>
      let t := Pt.cd_ty contract in
      if match t with Interface _ => true | Library _ => negb constant | ContractTy_ _ => false end then
        match Pt.cd_name contract, Pt.vd_name def with
        | Some c, Some v =>
            _ ← report (Diag.error (Pt.vd_loc def) (show_contract_ty t +:+ " '" +:+ id_name c
                          +:+ "' is not allowed to have contract variable '" +:+ id_name v +:+ "'"));
            mret false
        | _, _ => mret false
        end
      else mret true
  | None =>
      if constant then mret true
      else l ← nlift (Pt.loc (Pt.vd_ty def)); _ ← report (Diag.error l "global variable must be constant"); mret false
  end.

(** An initializer, converted to the type of its variable. *)
Definition resolve_initializer (e : Pt.Expression) (loc : Resolver.R Loc) (t : ty) : Resolver.R expression :=
  x ← rec e (To t);
  l ← loc;
  x ← Resolver.cast x l t;
  _ ← Resolver.check_overflow x;
  mret x.

(** The value of a constant; its diagnostics are kept when there is none. *)
(* [sema/variables.rs | 106-152 | variable_decl] *)
Definition constant_value (def : Pt.VariableDefinition_) (file : nat) (contract_no : option nat) (t : ty)
    (symtable : Sym.Symtable) : N (option expression * Sym.Symtable) :=
  match Pt.vd_initializer def with
  | None => _ ← report (Diag.decl_error (Pt.vd_loc def) "missing initializer for constant"); mret (None, symtable)
  | Some e =>
      '(r, symtable, d) ← run (mkContext file contract_no None true false) symtable Diags.empty
                            (resolve_initializer e (mret (Pt.vd_loc def)) t);
      match r with
      | Some x => mret (Some x, symtable)
      | None => _ ← report_all d; mret (None, symtable)
      end
  end.

(* [sema/variables.rs | 154-186 | variable_decl] *)
Definition add_variable (contract_no : option nat) (v : VariableDecl) (init : option Pt.Expression)
    : N (nat * option DelayedResolveInitializer) :=
  ns ← get;
  match contract_no with
  | Some c =>
      k ← nlift (unwrap (contracts ns !! c));
      let var_no := length (variables k) in
      _ ← update_contract c (λ k, Usage.with_variables (variables k ++ [v]) k);
      mret (var_no, if v_constant v then None
                    else (λ e, {| di_var_no := var_no; di_contract_no := c; di_initializer := e |}) <$> init)
  | None =>
      _ ← modify (λ ns, set_constants (constants ns ++ [v]) ns);
      mret (length (constants ns), None)
  end.

(* [sema/variables.rs | pub fn variable_decl] *)
Definition variable_decl (contract : option Pt.ContractDefinition) (def : Pt.VariableDefinition_) (file : nat)
    (contract_no : option nat) (symtable : Sym.Symtable) : N (option DelayedResolveInitializer * Sym.Symtable) :=
  '(t, d) ← resolve_type rec_type file contract_no (Pt.vd_ty def) Diags.empty;
  match t with
  | None => _ ← report_all d; mret (None, symtable)
  | Some t =>
      constant ← foldN constant_attribute false (Pt.vd_attrs def);
      ok ← variable_allowed contract def constant;
      if negb ok then mret (None, symtable)
      else
        '(value, symtable) ← (if (constant : bool) then constant_value def file contract_no t symtable
                              else mret (None, symtable));
        name ← nlift (unwrap (Pt.vd_name def));
        let assigned := match Pt.vd_initializer def with Some _ => true | None => false end in
        '(var_no, delayed) ← add_variable contract_no
                               (mkVariable (id_name name) (Pt.vd_loc def) t constant value assigned true)
                               (Pt.vd_initializer def);
        _ ← add_symbol file contract_no name (SVariable (Pt.vd_loc def) contract_no var_no);
        mret (delayed, symtable)
  end.

Definition opt_to_list {A} (o : option A) : list A := match o with Some a => [a] | None => [] end.

(* [sema/variables.rs | pub fn contract_variables] *)
Definition contract_variables (def : Pt.ContractDefinition) (file contract_no : nat) : N (list DelayedResolveInitializer) :=
  '(delayed, _) ← foldN (λ '(delayed, symtable) part,
    match part with
    | Pt.PVariable s =>
        '(d, symtable) ← variable_decl (Some def) s file (Some contract_no) symtable;
        mret (delayed ++ opt_to_list d, symtable)
    | _ => mret (delayed, symtable)
    end) ([], SymTable.SymTable.new) (Pt.cd_parts def);
  mret delayed.

Definition set_initializer (e : expression) (v : VariableDecl) : VariableDecl :=
  mkVariable (v_name v) (v_loc v) (v_ty v) (v_constant v) (Some e) (v_assigned v) (v_read v).

(* [sema/variables.rs | 206-236 | resolve_initializers] *)
Definition delayed_initializer (file : nat) (acc : Sym.Symtable * Diagnostics) (x : DelayedResolveInitializer)
    : N (Sym.Symtable * Diagnostics) :=
  let '(symtable, d) := acc in
  let c := di_contract_no x in
  ns ← get;
  k ← nlift (unwrap (contracts ns !! c));
  v ← nlift (unwrap (variables k !! di_var_no x));
  '(r, symtable, d) ← run (mkContext file (Some c) None false false) symtable d
                        (resolve_initializer (di_initializer x) (pt_loc (di_initializer x)) (v_ty v));
  _ ← (match r with
       | Some e => update (Usage.update_contract_var (set_initializer e) c (di_var_no x))
       | None => mret tt
       end : N unit);
  mret (symtable, d).

(* [sema/variables.rs | pub fn resolve_initializers] *)
Definition resolve_initializers (l : list DelayedResolveInitializer) (file : nat) : N unit :=
  '(_, d) ← foldN (delayed_initializer file) (SymTable.SymTable.new, Diags.empty) l;
  report_all d.
End Variables.
End Functions.
