(* ===== verification/Contracts.v ===== *)
(** The resolution of the contracts of a file (src/src/sema/contracts.rs):
    first all declarations, then the initialisers of the variables, then the
    bodies of the functions. *)
From S2P Require Import Prelude BigIntSpec Ast Types Pt TypeNames SymTable Casts Names Resolver Literals.
From S2P Require Import Statements Declarations Functions.
#[local] Set Warnings "-register-all".

Module Contracts.
Import Casts Names Resolver Declarations Functions Literals Statements.

Section Contracts.
Context {BI : NumBigInt}.
Context (keccak256 : bytes → list Z).
Context (hash_order : list Pt.NamedArgument → list Pt.NamedArgument).
Context (rec : Pt.Expression → ResolveTo → R Ex.expression).
Context (rec_type : nat → option nat → Pt.Expression → R ty).

(* [sema/contracts.rs | struct DelayedResolveFunction] *)
Record DelayedResolveFunction : Set := {
  df_function_no : nat; df_contract_no : nat; df_function : Pt.FunctionDefinition;
}.
(* [sema/contracts.rs | struct ResolveLater] *)
Record ResolveLater : Set := mkResolveLater {
  function_bodies : list DelayedResolveFunction; initializers : list DelayedResolveInitializer;
}.

(** A function of a contract: its body is resolved later. *)
(* [sema/contracts.rs | 102-116 | resolve_declarations] *)
Definition declare_function (file contract_no : nat) (acc : list DelayedResolveFunction * list nat)
    (part : Pt.ContractPart) : N (list DelayedResolveFunction * list nat) :=
  let '(bodies, no_bodies) := acc in
  match part with
  | Pt.PFunction f =>
      n ← contract_function rec_type f file contract_no;
      match n, Pt.fd_body f with
      | None, _ => mret (bodies, no_bodies)
      | Some n, Some _ =>
          mret (bodies ++ [{| df_function_no := n; df_contract_no := contract_no; df_function := f |}], no_bodies)
      | Some n, None => mret (bodies, no_bodies ++ [n])
      end
  | _ => mret (bodies, no_bodies)
  end.

(* [sema/contracts.rs | fn resolve_declarations] *)
Definition resolve_declarations (def : Pt.ContractDefinition) (file contract_no : nat) (delayed : ResolveLater)
    : N ResolveLater :=
  i ← contract_variables rec rec_type def file contract_no;
  '(bodies, no_bodies) ← foldN (declare_function file contract_no) (function_bodies delayed, []) (Pt.cd_parts def);
  _ ← match Pt.cd_ty def, no_bodies with
      | ContractTy_ loc, _ :: _ =>
          ns ← get;
          notes ← nlift (mapM_c (λ n, f ← unwrap (functions ns !! n);
                    Ret {| note_loc := f_loc f;
                           note_message := "location of function '" +:+ f_name f +:+ "' with no body" |}) no_bodies);
          report (Diag.error_with_notes loc ("contract should be marked 'abstract contract' since it has "
                    +:+ pretty (length notes) +:+ " functions with no body") notes)
      | _, _ => mret tt
      end;
  mret (mkResolveLater bodies (initializers delayed ++ i)).

(** [BTreeMap::insert] *)
Fixpoint btree_insert (k : nat) (v : Z) (l : list (nat * Z)) : list (nat * Z) :=
  match l with
  | [] => [(k, v)]
  | (j, w) :: l => if (k <? j)%nat then (k, v) :: (j, w) :: l
                   else if decide (k = j) then (k, v) :: l
                   else (j, w) :: btree_insert k v l
  end.
Definition usize_max : Z := 2 ^ 64 - 1.

(** The functions of a contract that are called later. *)
(* [sema/contracts.rs | 49-53 | resolve] *)
Definition add_all_functions (contract_no : nat) : N unit :=
  ns ← get;
  c ← nlift (unwrap (contracts ns !! contract_no));
  foldN (λ _ n, update_contract contract_no (λ c, with_all_functions (btree_insert n usize_max (all_functions c)) c))
    tt (c_functions c).

(** The warnings about the variables of a function. *)
(* [sema/contracts.rs | 161-165 | resolve_bodies] *)
Definition warn_unused (function_no : nat) : N unit :=
  ns ← get;
  f ← nlift (unwrap (functions ns !! function_no));
  foldN (λ _ x,
    ns ← get;
    w ← nlift (Usage.emit_warning_local_variable (type_fuel ns (Sym.vty x.2)) x.2 ns);
    match w with Some w => report w | None => mret tt end) tt (Sym.vars (f_symtable f)).

(* [sema/contracts.rs | 150-167 | resolve_bodies] *)
Definition resolve_body (file : nat) (broken : bool) (x : DelayedResolveFunction) : N bool :=
  ok ← resolve_function_body keccak256 hash_order rec rec_type (df_function x) file (Some (df_contract_no x))
         (df_function_no x);
  if negb ok then mret true
  else
    ns ← get;
    if Diags.any_errors (diagnostics ns) then mret broken
    else _ ← warn_unused (df_function_no x); mret broken.

(* [sema/contracts.rs | fn resolve_bodies] *)
Definition resolve_bodies (bodies : list DelayedResolveFunction) (file : nat) : N bool :=
  foldN (resolve_body file) false bodies.

(* [sema/contracts.rs | pub fn resolve( | resolve] *)
Definition resolve (contracts : list (nat * Pt.ContractDefinition)) (file : nat) : N unit :=
  delayed ← foldN (λ delayed '(contract_no, def), resolve_declarations def file contract_no delayed)
              (mkResolveLater [] []) contracts;
  _ ← foldN (λ _ x, add_all_functions x.1) tt contracts;
  _ ← resolve_initializers rec (initializers delayed) file;
  _ ← resolve_bodies (function_bodies delayed) file;
  mret tt.
End Contracts.
End Contracts.

(** The functions a contract calls, directly or through others
    (src/src/sema/external_functions.rs): what is compiled into the contract. *)
Module Externals.
Import Declarations Functions Contracts.

(** An [IndexSet] is the list of its elements, in order of insertion. *)
(* [sema/external_functions.rs | struct CallList] *)
Definition CallList : Set := list nat.
Definition index_insert (n : nat) (l : CallList) : CallList := if decide (n ∈ l) then l else l ++ [n].

(* [sema/external_functions.rs | fn check_expression] *)
Definition check_expression (e : expression) (l : CallList) : comp (bool * CallList) :=
  match e with
  | Ex.Function_ _ _ function_no _ => Ret (true, index_insert function_no l)
  | Ex.LibFunction _ _ GetSelector _ => Ret (false, l)
  | _ => Ret (true, l)
  end.
Definition calls_of (e : expression) (l : CallList) : comp CallList := Resolver.recurse_with check_expression e l.
Definition opt_calls (e : option expression) (l : CallList) : comp CallList :=
  match e with Some e => calls_of e l | None => Ret l end.

(* [sema/external_functions.rs | fn check_statement] *)
Definition check_statement (s : St.Statement) (l : CallList) : comp (bool * CallList) :=
  l ← match s with
      | St.VariableDecl_ _ _ _ e => opt_calls e l
      | St.If _ _ cond _ _ => calls_of cond l
      | St.For _ _ _ cond _ _ => opt_calls cond l
      | St.DoWhile _ _ _ cond | St.While _ _ cond _ => calls_of cond l
      | St.Expression_ _ _ e =>
          l ← (match e with Ex.Function_ _ _ _ _ => Ret l | _ => calls_of e l end); calls_of e l
      | St.Delete _ _ e => calls_of e l
      | St.Destructure _ fields e =>
          l ← calls_of e l;
          foldM (λ l f, match f with St.DExpression e => calls_of e l | _ => Ret l end) l fields
      | St.Return_ _ e => opt_calls e l
      | St.Block _ _ | St.Break _ | St.Continue _ => Ret l
      end;
  Ret (true, l).

(* [sema/ast.rs | impl Recurse for Statement] *)
Fixpoint recurse_statement {T} (f : St.Statement → T → comp (bool * T)) (s : St.Statement) (t : T) : comp T :=
  let all l t := foldM (λ t s, recurse_statement f s t) t l in
  r ← f s t;
  let '(b, t) := (r : bool * T) in
  if negb b then Ret t
  else
    match s with
    | St.Block _ l => all l t
    | St.If _ _ _ then_ else_ => t ← all then_ t; all else_ t
    | St.For _ _ init _ _ body => t ← all init t; all body t
    | St.While _ _ _ body => all body t
    | St.DoWhile _ _ body _ => all body t
    | _ => Ret t
    end.

Definition body_calls (body : list St.Statement) (l : CallList) : comp CallList :=
  foldM (λ l s, recurse_statement check_statement s l) l body.
Definition function_calls (ns : Namespace) (l : CallList) (n : nat) : comp CallList :=
  f ← unwrap (functions ns !! n); body_calls (f_body f) l.

(** The function is added to those of the contract. *)
(* [sema/external_functions.rs | 45-51 | add_external_functions] *)
Definition add_called (ns : Namespace) (l : list (nat * Z)) (n : nat) : comp (list (nat * Z)) :=
  f ← unwrap (functions ns !! n);
  Ret (if decide (f_loc f = Builtin) then l else btree_insert n usize_max l).

(** One round: the calls of the listed functions; those that are not yet
    functions of the contract are listed next. *)
(* [sema/external_functions.rs | 33-62 | add_external_functions] *)
Fixpoint close_calls (fuel : nat) (ns : Namespace) (l : CallList) (all : list (nat * Z)) : comp (list (nat * Z)) :=
  match fuel with O => OutOfFuel | S fuel =>
  match l with
  | [] => Ret all
  | _ =>
      new ← foldM (function_calls ns) [] l;
      all ← foldM (add_called ns) all l;
      close_calls fuel ns (foldl (λ l n, if decide (n ∈ all.*1) then l else index_insert n l) [] new) all
  end end.

(* [sema/external_functions.rs | pub fn add_external_functions] *)
Definition add_external_functions (contract_no : nat) : N unit := λ ns,
  c ← unwrap (contracts ns !! contract_no);
  l ← foldM (λ l v, opt_calls (initializer v) l) [] (variables c);
  l ← foldM (function_calls ns) l (all_functions c).*1;
  all ← close_calls (S (S (length (functions ns)))) ns l (all_functions c);
  update_contract contract_no (with_all_functions all) ns.
End Externals.
