(* ===== verification/Orders.v ===== *)
(** The order in which diagnostics are given (src/src/sema/diagnostics.rs): the
    order that Rust derives for the types of ola-parser/src/diagnostics.rs,
    field by field, and the sorting of a list without repetitions. *)
From S2P Require Import Prelude Ast.
From stdpp Require Import sorting.

Module Orders.

(** ** Derived orders *)

(** [#[derive(Ord)]]: the order and what makes it a total order that agrees
    with equality. *)
Class Ord (A : Type) := cmp : A → A → comparison.
Class OrdLaws (A : Type) `{Ord A} := {
  cmp_eq (x y : A) : cmp x y = Eq ↔ x = y;
  cmp_opp (x y : A) : cmp y x = CompOpp (cmp x y);
  cmp_trans (x y z : A) : cmp x y = Lt → cmp y z = Lt → cmp x z = Lt;
}.

(** The first difference decides. *)
Definition and_then (c d : comparison) : comparison := match c with Eq => d | _ => c end.

Section Laws.
Context {A : Type} `{OrdLaws A}.
Lemma cmp_refl (x : A) : cmp x x = Eq.
Proof. by apply cmp_eq. Qed.
Lemma cmp_gt (x y : A) : cmp x y = Gt ↔ cmp y x = Lt.
Proof. rewrite (cmp_opp x y). by destruct (cmp x y). Qed.
Lemma cmp_cases (x y : A) : (cmp x y = Eq ∧ x = y) ∨ cmp x y = Lt ∨ cmp x y = Gt.
Proof. destruct (cmp x y) eqn:E; [left; split; [done|by apply cmp_eq]|auto..]. Qed.
End Laws.

#[export] Instance nat_ord : Ord nat := Nat.compare.
#[export] Instance nat_laws : OrdLaws nat.
Proof.
  unfold cmp, nat_ord. split; intros.
  - apply Nat.compare_eq_iff.
  - apply Nat.compare_antisym.
  - rewrite Nat.compare_lt_iff in *. lia.
Qed.

(** Tuples and structs. *)
#[export] Instance prod_ord {A B} `{Ord A, Ord B} : Ord (A * B) := λ x y, and_then (cmp x.1 y.1) (cmp x.2 y.2).
Lemma prod_cmp {A B} `{Ord A, Ord B} (x y : A * B) : cmp x y = and_then (cmp x.1 y.1) (cmp x.2 y.2).
Proof. done. Qed.
#[export] Instance prod_laws {A B} `{OrdLaws A, OrdLaws B} : OrdLaws (A * B).
Proof.
  split; intros *; rewrite !prod_cmp; unfold and_then.
  - destruct x as [a b], y as [a' b']. cbn. destruct (cmp_cases a a') as [[-> ->]|[E|E]].
    + rewrite cmp_eq. naive_solver.
    + rewrite E. split; [done|]. intros [= -> ->]. by rewrite cmp_refl in E.
    + rewrite E. split; [done|]. intros [= -> ->]. by rewrite cmp_refl in E.
  - destruct x as [a b], y as [a' b']. cbn. rewrite (cmp_opp a a'). destruct (cmp a a'); cbn; [apply cmp_opp|done..].
  - destruct x as [a b], y as [a' b'], z as [a'' b'']. cbn.
    destruct (cmp_cases a a') as [[E <-]|[E|E]]; rewrite E; [| |done].
    + destruct (cmp a a''); [apply cmp_trans|done..].
    + intros _. destruct (cmp_cases a' a'') as [[E' <-]|[E'|E']]; rewrite E'; [by rewrite E| |done].
      by rewrite (cmp_trans a a' a'').
Qed.

(** Vectors and strings. *)
Fixpoint list_cmp {A} `{Ord A} (l k : list A) : comparison :=
  match l, k with
  | [], [] => Eq
  | [], _ :: _ => Lt
  | _ :: _, [] => Gt
  | x :: l, y :: k => and_then (cmp x y) (list_cmp l k)
  end.
#[export] Instance list_ord {A} `{Ord A} : Ord (list A) := list_cmp.
#[export] Instance list_laws {A} `{OrdLaws A} : OrdLaws (list A).
Proof.
  split; change (@cmp (list A) list_ord) with (@list_cmp A _); unfold list_cmp, and_then; fold (@list_cmp A _).
  - intros l. induction l as [|x l IH]; intros [|y k]; cbn; try done. destruct (cmp_cases x y) as [[-> ->]|[E|E]].
    + cbn. rewrite IH. naive_solver.
    + rewrite E. split; [done|]. intros [= -> ->]. by rewrite cmp_refl in E.
    + rewrite E. split; [done|]. intros [= -> ->]. by rewrite cmp_refl in E.
  - intros l. induction l as [|x l IH]; intros [|y k]; cbn; try done. rewrite (cmp_opp x y). destruct (cmp x y); cbn; [apply IH|done..].
  - intros l. induction l as [|x l IH]; intros [|y k] [|z m]; cbn; try done.
    destruct (cmp_cases x y) as [[E <-]|[E|E]]; rewrite E; cbn; [| |done].
    + destruct (cmp x z); [apply IH|done..].
    + intros _. destruct (cmp_cases y z) as [[E' <-]|[E'|E']]; rewrite E'; cbn; [by rewrite E| |done].
      by rewrite (cmp_trans x y z).
Qed.

(** An order through the fields of a type. *)
Definition by_key {A B} (f : A → B) `{Ord B} : Ord A := λ x y, cmp (f x) (f y).
Lemma by_key_laws {A B} (f : A → B) `{!Inj (=) (=) f} `{OrdLaws B} : @OrdLaws A (by_key f).
Proof.
  split; unfold cmp, by_key; intros.
  - rewrite cmp_eq. split; [apply (inj f)|by intros ->].
  - apply cmp_opp.
  - by eapply cmp_trans.
Qed.

(** ** Diagnostics *)

#[export] Instance string_ord : Ord string := by_key (λ s, Ascii.nat_of_ascii <$> String.list_ascii_of_string s).
#[export] Instance string_laws : OrdLaws string.
Proof.
  apply by_key_laws; [|apply _]. intros s t E. apply list_fmap_eq_inj in E.
  - by rewrite <-(String.string_of_list_ascii_of_string s), E, String.string_of_list_ascii_of_string.
  - intros a b Hab. by rewrite <-(Ascii.ascii_nat_embedding a), Hab, Ascii.ascii_nat_embedding.
Qed.
(** The variants of an enum in the order of their declaration. *)
Definition loc_key (l : Loc) : nat * (nat * (nat * nat)) :=
  match l with
  | Builtin => (0, (0, (0, 0)))
  | CommandLine => (1, (0, (0, 0)))
  | Implicit_ => (2, (0, (0, 0)))
  | IRgen => (3, (0, (0, 0)))
  | File_ n s e => (4, (n, (s, e)))
  end%nat.
#[export] Instance loc_ord : Ord Loc := by_key loc_key.
#[export] Instance loc_laws : OrdLaws Loc.
Proof. apply by_key_laws; [|apply _]. intros [] []; cbn; congruence. Qed.
Definition level_key (l : Level) : nat := match l with Debug_ => 0 | Info_ => 1 | Warning_ => 2 | Error_ => 3 end%nat.
#[export] Instance level_ord : Ord Level := by_key level_key.
#[export] Instance level_laws : OrdLaws Level.
Proof. apply by_key_laws; [|apply _]. intros [] []; cbn; congruence. Qed.
Definition error_type_key (t : ErrorType) : nat :=
  match t with
  | ET_None => 0 | ET_ParserError => 1 | ET_SyntaxError => 2 | ET_DeclarationError => 3
  | ET_CastError => 4 | ET_TypeError => 5 | ET_Warning => 6
  end%nat.
#[export] Instance error_type_ord : Ord ErrorType := by_key error_type_key.
#[export] Instance error_type_laws : OrdLaws ErrorType.
Proof. apply by_key_laws; [|apply _]. intros [] []; cbn; congruence. Qed.
#[export] Instance note_ord : Ord Note := by_key (λ n, (note_loc n, note_message n)).
#[export] Instance note_laws : OrdLaws Note.
Proof. apply by_key_laws; [|apply _]. intros [] []; cbn; congruence. Qed.
Definition diagnostic_key (d : Diagnostic) : Loc * (Level * (ErrorType * (string * list Note))) :=
  (diag_loc d, (diag_level d, (diag_ty d, (diag_message d, diag_notes d)))).
#[export] Instance diagnostic_ord : Ord Diagnostic := by_key diagnostic_key.
#[export] Instance diagnostic_laws : OrdLaws Diagnostic.
Proof. apply by_key_laws; [|apply _]. intros [] []; unfold diagnostic_key; cbn; congruence. Qed.

(** ** Sorting *)

Section Sort.
Context {A : Type} `{OrdLaws A} `{EqDecision A}.
Definition le (x y : A) : Prop := cmp x y ≠ Gt.
Definition lt (x y : A) : Prop := cmp x y = Lt.
#[export] Instance comparison_eq_dec : EqDecision comparison.
Proof. solve_decision. Defined.
#[export] Instance le_dec x y : Decision (le x y) := _.
#[export] Instance le_total : Total le.
Proof. intros x y. unfold le. rewrite (cmp_opp x y). destruct (cmp x y); auto. Qed.
Lemma le_lt_eq x y : le x y ↔ lt x y ∨ x = y.
Proof.
  unfold le, lt. destruct (cmp_cases x y) as [[E <-]|[E|E]]; rewrite E; split; try done; auto.
  intros [|<-]; [done|]. by rewrite cmp_refl in E.
Qed.
#[export] Instance lt_trans : Transitive lt.
Proof. intros x y z. apply cmp_trans. Qed.
#[export] Instance lt_irreflexive : Irreflexive lt.
Proof. intros x Hx. unfold lt in Hx. by rewrite cmp_refl in Hx. Qed.
#[export] Instance le_trans : Transitive le.
Proof. intros x y z. rewrite !le_lt_eq. intros [?|<-] [?|<-]; auto. left. by etrans. Qed.
#[export] Instance lt_anti_symm : AntiSymm (=) lt.
Proof. intros x y Hx Hy. destruct (lt_irreflexive x). by trans y. Qed.

(** [Vec::dedup]: of equal neighbours one is kept. *)
Fixpoint dedup (l : list A) : list A :=
  match l with
  | [] => []
  | x :: l => match dedup l with
              | (y :: _) as k => if decide (x = y) then k else x :: k
              | [] => [x]
              end
  end.
Lemma elem_of_dedup l x : x ∈ dedup l ↔ x ∈ l.
Proof.
  induction l as [|y l IH]; [done|]. cbn. rewrite elem_of_cons, <-IH.
  destruct (dedup l) as [|z k]; [set_solver|]. case_decide as E; [|by rewrite !elem_of_cons].
  rewrite E, !elem_of_cons. naive_solver.
Qed.
Lemma dedup_sorted l : StronglySorted le l → StronglySorted lt (dedup l).
Proof.
  induction 1 as [|x l Hl IH Hx]; [constructor|]. cbn.
  assert (Hd : Forall (le x) (dedup l)) by (rewrite Forall_forall in Hx |- *; intros y Hy; apply Hx; by rewrite elem_of_dedup in Hy).
  destruct (dedup l) as [|y k]; [by repeat constructor|]. case_decide as E; [done|]. constructor; [done|].
  apply Forall_cons in Hd as [Hxy%le_lt_eq _]. destruct Hxy as [Hxy|]; [|done]. constructor; [done|].
  apply StronglySorted_inv in IH as [_ Hk]. eapply Forall_impl; [exact Hk|]. intros z Hz. by trans y.
Qed.
Lemma sorted_unique l k : StronglySorted lt l → StronglySorted lt k → (∀ x, x ∈ l ↔ x ∈ k) → l = k.
Proof.
  assert (Hn : ∀ l, StronglySorted lt l → NoDup l).
  { induction 1 as [|x m Hm IH Hx]; constructor; [|done]. rewrite Forall_forall in Hx. intros Hin. by apply (lt_irreflexive x), Hx. }
  intros Hl Hk Hx. apply (StronglySorted_unique lt); [done..|]. apply NoDup_Permutation; auto.
Qed.
End Sort.

#[export] Instance error_type_eq_dec : EqDecision ErrorType.
Proof. solve_decision. Defined.
#[export] Instance note_eq_dec : EqDecision Note.
Proof. solve_decision. Defined.
#[export] Instance diagnostic_eq_dec : EqDecision Diagnostic.
Proof. solve_decision. Defined.

(** [sort] is stable merge sort. *)
(* [sema/diagnostics.rs | pub fn sort_and_dedup] *)
Definition sort_and_dedup (d : Diagnostics) : Diagnostics :=
  mkDiagnostics (dedup (merge_sort le (contents d))) (has_error d).

(** The diagnostics that are shown are strictly ordered by location, level,
    type, message and notes, and are the diagnostics that were given, each
    once; there is only one such list. *)
Theorem sort_and_dedup_correct d k :
  StronglySorted lt (contents (sort_and_dedup d)) ∧ (∀ x, x ∈ contents (sort_and_dedup d) ↔ x ∈ contents d)
  ∧ (contents (sort_and_dedup d) = k ↔ StronglySorted lt k ∧ ∀ x, x ∈ k ↔ x ∈ contents d).
Proof.
  assert (Hs : StronglySorted lt (contents (sort_and_dedup d))).
  { apply dedup_sorted, StronglySorted_merge_sort; apply _. }
  assert (Hx : ∀ x, x ∈ contents (sort_and_dedup d) ↔ x ∈ contents d).
  { intros x. cbn. rewrite elem_of_dedup. by rewrite merge_sort_Permutation. }
  split_and!; [done..|]. split; [by intros <-|]. intros [Hk Hin]. apply sorted_unique; [done..|]. intros x. by rewrite Hx, Hin.
Qed.
End Orders.
