(* ===== verification/Files.v ===== *)
(** Lines and columns of source files (src/src/sema/file.rs). *)
From S2P Require Import Prelude Ast TypeNames.
#[local] Set Warnings "-register-all".

Module Files.
Definition newline : Ascii.ascii := Ascii.ascii_of_nat 10.
(** The offsets of the bytes of a text that are newlines, each plus one.  A
    newline is one byte in UTF-8, and no byte of a longer character is one. *)
Fixpoint line_starts_from (ind : nat) (contents : string) : list nat :=
  match contents with
  | EmptyString => []
  | String.String c s =>
      let l := line_starts_from (S ind) s in if decide (c = newline) then S ind :: l else l
  end.
(* [sema/file.rs | pub fn new] *)
Definition new_file (path : Path) (contents : string) (cache_no : nat) : File :=
  mkFile path (line_starts_from 0 contents) (Some cache_no).

(** [partition_point]: how many elements satisfy the test, those being a
    prefix: the library halves the interval.  The test is monotone on the
    sorted line starts. *)
Fixpoint partition_point {A} (p : A → bool) (l : list A) : nat :=
  match l with a :: l => if p a then S (partition_point p l) else O | [] => O end.

(** [usize] subtraction: a panic below zero. *)
Definition minus (a b : nat) : comp nat := if (b <=? a)%nat then Ret (a - b)%nat else Panic.

(* [sema/file.rs | pub fn offset_to_line_column] *)
Definition offset_to_line_column (f : File) (loc : nat) : comp (nat * nat) :=
  let line_no := partition_point (λ s, s <=? loc)%nat (line_starts f) in
  col_no ← (if (0 <? line_no)%nat then s ← unwrap (line_starts f !! (line_no - 1)%nat); minus loc s else Ret loc);
  Ret (line_no, col_no).

(* [sema/file.rs | pub fn get_offset] *)
Definition get_offset (f : File) (line_no column_no : nat) : comp nat :=
  if (line_no =? 0)%nat then Ret column_no
  else s ← unwrap (line_starts f !! (line_no - 1)%nat); Ret (s + column_no)%nat.

(** [path.display()] *)
Definition show_path (p : Path) : string := (if rooted p then "/" else "") +:+ join "/" (parts p).

(* [sema/file.rs | pub fn loc_to_string(&self, start: usize | File::loc_to_string] *)
Definition file_loc_to_string (f : File) (start end_ : nat) : comp string :=
  '(from_line, from_column) ← offset_to_line_column f start;
  '(to_line, to_column) ← offset_to_line_column f end_;
  let at_ (l c : nat) := pretty (l + 1)%nat +:+ ":" +:+ pretty (c + 1)%nat in
  let from := show_path (path f) +:+ ":" +:+ at_ from_line from_column in
  Ret (if (from_line =? to_line)%nat && (from_column =? to_column)%nat then from
       else if (from_line =? to_line)%nat then from +:+ "-" +:+ pretty (to_column + 1)%nat
       else from +:+ "-" +:+ at_ to_line to_column).

(* [sema/file.rs | pub fn loc_to_string(&self, loc | Namespace::loc_to_string] *)
Definition loc_to_string (ns : Namespace) (l : Loc) : comp string :=
  match l with
  | File_ file_no start end_ => f ← unwrap (files ns !! file_no); file_loc_to_string f start end_
  | Builtin => Ret "builtin"
  | IRgen => Ret "codegen"
  | Implicit_ => Ret "implicit"
  | CommandLine => Ret "commandline"
  end.

(** The position of the first element that satisfies a test. *)
Fixpoint position {A} (p : A → bool) (l : list A) : option nat :=
  match l with [] => None | a :: l => if p a then Some O else S <$> position p l end.
(* [sema/file.rs | pub fn top_file_no] *)
Definition top_file_no (ns : Namespace) : comp nat :=
  unwrap (position (λ f, match cache_no f with Some _ => true | None => false end) (files ns)).

(** ** The position of a byte, counted from the start of the text *)

Fixpoint walk (s : string) (loc line col : nat) : nat * nat :=
  match loc with
  | O => (line, col)
  | S loc' =>
      match s with
      | EmptyString => (line, col + loc)%nat
      | String.String c s => if decide (c = newline) then walk s loc' (S line) 0 else walk s loc' line (S col)
      end
  end.

Lemma partition_point_bound {A} (p : A → bool) l : (partition_point p l ≤ length l)%nat.
Proof. induction l as [|a l IH]; cbn; [lia|]. destruct (p a); lia. Qed.
Lemma line_starts_later s ind : Forall (λ x, ind < x)%nat (line_starts_from ind s).
Proof.
  revert ind. induction s as [|c s IH]; intros ind; cbn; [constructor|].
  assert (H : Forall (λ x, ind < x)%nat (line_starts_from (S ind) s)) by (eapply Forall_impl; [apply IH|]; cbn; lia).
  case_decide; [constructor; [lia|done]|done].
Qed.
Lemma none_before s ind : partition_point (λ x, x <=? ind)%nat (line_starts_from ind s) = 0%nat.
Proof.
  destruct (line_starts_from ind s) as [|x l] eqn:E; [done|]. pose proof (line_starts_later s ind) as H.
  rewrite E in H. apply Forall_cons in H as [H _]. cbn. by destruct (Nat.leb_spec x ind); [lia|].
Qed.
(** The search in the line starts, from any point of the text on. *)
Lemma walk_starts s : ∀ ind loc line col,
  let starts := line_starts_from ind s in
  let k := partition_point (λ x, x <=? ind + loc)%nat starts in
  walk s loc line col =
    ((line + k)%nat, match k with O => (col + loc)%nat | S k => (ind + loc - default 0%nat (starts !! k))%nat end).
Proof.
  induction s as [|c s IH]; intros ind loc line col.
  { cbn. destruct loc; cbn; f_equal; lia. }
  destruct loc as [|loc].
  { cbv zeta. rewrite Nat.add_0_r, none_before. cbn. f_equal; lia. }
  cbn [walk line_starts_from]. cbv zeta. specialize (IH (S ind) loc). cbv zeta in IH.
  assert (Hl : (S ind + loc = ind + S loc)%nat) by lia. rewrite Hl in IH.
  case_decide as Hc.
  - rewrite IH. cbn [partition_point].
    assert ((S ind <=? ind + S loc)%nat = true) as -> by (apply Nat.leb_le; lia).
    set (k := partition_point _ _). destruct k as [|k]; cbn; f_equal; lia.
  - rewrite IH. destruct (partition_point _ _); f_equal; lia.
Qed.

(** The line and the column of a byte of a source file are those that counting
    newlines from the start of the text gives, for every offset, and the
    offset of that line and column is the byte again: neither computation
    panics. *)
Theorem positions_correct p s n loc :
  offset_to_line_column (new_file p s n) loc = Ret (walk s loc 0 0)
  ∧ get_offset (new_file p s n) (walk s loc 0 0).1 (walk s loc 0 0).2 = Ret loc.
Proof.
  pose proof (walk_starts s 0 loc 0 0) as Hw. cbv zeta in Hw. cbn [Nat.add] in Hw. rewrite Hw.
  unfold offset_to_line_column, get_offset. cbn [fst snd new_file line_starts].
  pose proof (partition_point_bound (λ x, x <=? loc)%nat (line_starts_from 0 s)) as Hb.
  assert (Hk : ∀ k x, partition_point (λ x, x <=? loc)%nat (line_starts_from 0 s) = S k →
    line_starts_from 0 s !! k = Some x → (x ≤ loc)%nat).
  { clear. generalize (line_starts_from 0 s). intros l. induction l as [|a l IH]; cbn; [done|].
    destruct (Nat.leb_spec a loc); [|done]. intros [|k] x [= Hk]; cbn.
    - by intros [= <-].
    - by apply IH. }
  destruct (partition_point _ _) as [|k] eqn:E; [done|]. cbn. rewrite Nat.sub_0_r.
  destruct (line_starts_from 0 s !! k) as [x|] eqn:Hx; [|apply lookup_ge_None in Hx; lia].
  specialize (Hk k x eq_refl Hx). cbn. unfold minus. destruct (Nat.leb_spec x loc); [|lia]. cbn.
  split; [done|]. f_equal. lia.
Qed.
Example first_lines : offset_to_line_column (new_file (mkPath false ["a.ola"]) ("ab" +:+ String.String newline "cd") 0) 4 = Ret (1, 1)%nat.
Proof. reflexivity. Qed.
End Files.

(** Where imported files are found, and what is read (src/src/file_resolver.rs).
    A file is looked for below the directories of the import paths. *)
Module FileResolver.
Import Files.

(** * Paths (std::path) *)

(** The parts of a text between separators. *)
Fixpoint split (sep : Ascii.ascii) (s : string) : list string :=
  match s with
  | EmptyString => [EmptyString]
  | String.String c s =>
      if decide (c = sep) then EmptyString :: split sep s
      else match split sep s with x :: l => String.String c x :: l | [] => [String.String c EmptyString] end
  end.
Definition slash : Ascii.ascii := Ascii.ascii_of_nat 47.
(** [PathBuf::from(s)]: repeated separators and the component "." count for
    nothing, except for a "." at the start of a relative path. *)
Definition path_of (s : string) : Path :=
  let r := match s with String.String c _ => bool_decide (c = slash) | EmptyString => false end in
  let l := List.filter (λ x, negb (bool_decide (x = ""))) (split slash s) in
  mkPath r match l with
           | x :: l' => let rest := List.filter (λ x, negb (bool_decide (x = "."))) l' in
                        if r && bool_decide (x = ".") then rest else x :: rest
           | [] => []
           end.
(** [p.join(q)] *)
Definition path_join (p q : Path) : Path :=
  if rooted q then q else mkPath (rooted p) (parts p ++ parts q).
(** [p.parent()] *)
Definition parent (p : Path) : option Path :=
  match parts p with [] => None | _ => Some (mkPath (rooted p) (but_last (parts p))) end.
(** [p.iter()] *)
Definition path_iter (p : Path) : list string := (if rooted p then ["/"] else []) ++ parts p.

(** * The resolver *)

(** What the file system answers: [canonicalize] fails or gives the absolute
    path, reading a file gives an error's message or the contents. *)
Class FileSystem := {
  canonicalize : Path → option Path;
  read : Path → string + string;
}.

(* [file_resolver.rs | pub struct FileResolver] *)
Record FileResolver : Type := mkFileResolver {
  import_paths : list (option string * Path);
  cached_paths : gmap Path nat;
  contents_of : list string;
}.
(* [file_resolver.rs | pub struct ResolvedFile] *)
Record ResolvedFile : Set := mkResolvedFile { full_path : Path; import_no : nat; base : Path }.

(* [file_resolver.rs | pub fn new()] *)
Definition new : FileResolver := mkFileResolver [] ∅ [].

Section FileSystem.
Context {FS : FileSystem}.

(* [file_resolver.rs | pub fn add_import_path] *)
Definition add_import_path (p : Path) (r : FileResolver) : option FileResolver :=
  p ← canonicalize p; Some (mkFileResolver (import_paths r ++ [(None, p)]) (cached_paths r) (contents_of r)).
(* [file_resolver.rs | pub fn add_import_map] *)
Definition add_import_map (map : string) (p : Path) (r : FileResolver) : option FileResolver :=
  if existsb (λ x, bool_decide (x.1 = Some map)) (import_paths r) then None
  else p ← canonicalize p; Some (mkFileResolver (import_paths r ++ [(Some map, p)]) (cached_paths r) (contents_of r)).

(* [file_resolver.rs | pub fn set_file_contents] *)
Definition set_file_contents (p : string) (contents : string) (r : FileResolver) : FileResolver :=
  mkFileResolver (import_paths r) (<[path_of p := length (contents_of r)]> (cached_paths r)) (contents_of r ++ [contents]).

(* [file_resolver.rs | pub fn get_file_contents_and_number] *)
Definition get_file_contents_and_number (p : Path) (r : FileResolver) : comp (string * nat) :=
  n ← unwrap (cached_paths r !! p); s ← unwrap (contents_of r !! n); Ret (s, n).

(* [file_resolver.rs | fn load_file] *)
Definition load_file (p : Path) (r : FileResolver) : string + FileResolver :=
  match cached_paths r !! p with
  | Some _ => inr r
  | None =>
      match read p with
      | inl message => inl message
      | inr contents =>
          inr (mkFileResolver (import_paths r) (<[p := length (contents_of r)]> (cached_paths r))
                 (contents_of r ++ [contents]))
      end
  end.

(** A file that was found is read. *)
(* [file_resolver.rs | 144-154 | resolve_file] *)
Definition found (p : Path) (import_no : nat) (r : FileResolver) : comp ((string + ResolvedFile) * FileResolver) :=
  match load_file p r with
  | inl message => Ret (inl message, r)
  | inr r => b ← unwrap (parent p); Ret (inr (mkResolvedFile p import_no b), r)
  end.
(** The same, with the directory looked for first. *)
(* [file_resolver.rs | 220-230 | resolve_file] *)
Definition found_below (p : Path) (import_no : nat) (r : FileResolver) : comp ((string + ResolvedFile) * FileResolver) :=
  b ← unwrap (parent p);
  match load_file p r with
  | inl message => Ret (inl message, r)
  | inr r => Ret (inr (mkResolvedFile p import_no b), r)
  end.
(** Without import paths it must be in the cache, under its own name. *)
(* [file_resolver.rs | 199-212 | resolve_file] *)
Definition cached (p : Path) (r : FileResolver) : comp ((string + ResolvedFile) * FileResolver) :=
  b ← unwrap (parent p); Ret (inr (mkResolvedFile p 0 b), r).

(** The first import path that has the file. *)
Definition first_found {A} (found : Path → nat → A) (candidates : list (nat * option Path)) : option A :=
  (λ x, found x.2 x.1) <$> head (omap (λ x, (λ p, (x.1, p)) <$> x.2) candidates).

(** The import maps whose name is the first component. *)
(* [file_resolver.rs | 134-159 | resolve_file] *)
Definition mapped (r : FileResolver) (p : Path) : list (nat * option Path) :=
  match path_iter p with
  | [] => []
  | first :: rest =>
      imap (λ n x, (n, match x with
                       | (Some m, q) => if decide (first = m) then canonicalize (path_join q (mkPath false rest)) else None
                       | (None, _) => None
                       end)) (import_paths r)
  end.
(* [file_resolver.rs | 214-233 | resolve_file] *)
Definition searched (r : FileResolver) (start : nat) (p : Path) : list (nat * option Path) :=
  (λ i, let n := ((i + start) mod length (import_paths r))%nat in
        (n, match import_paths r !! n with Some (None, q) => canonicalize (path_join q p) | _ => None end))
    <$> seq 0 (length (import_paths r)).

(* [file_resolver.rs | pub fn resolve_file] *)
Definition resolve_file (from : option ResolvedFile) (filename : string) (r : FileResolver)
    : comp ((string + ResolvedFile) * FileResolver) :=
  let p := path_of filename in
  let search start :=
    match import_paths r with
    | [] => cached p r
    | _ => match first_found (λ q n, found_below q n r) (searched r start p) with
           | Some c => c
           | None => Ret (inl ("file not found '" +:+ filename +:+ "'"), r)
           end
    end in
  match first_found (λ q n, found q n r) (mapped r p) with
  | Some c => c
  | None =>
      match from with
      | None => search 0%nat
      | Some f =>
          match import_paths r with
          | [] => cached (path_join (base f) p) r
          | _ => match canonicalize (path_join (base f) p) with
                 | Some q => found q 0 r
                 | None => search (import_no f)
                 end
          end
      end
  end.
End FileSystem.
End FileResolver.
