(* ===== verification/Imports.v ===== *)
(** A source file and its imports (src/src/sema/mod.rs): the passes over a
    file in their order, and the names an import brings. *)
From S2P Require Import Prelude BigIntSpec Ast Types Layouts Pt SymTable Casts Names Resolver Literals.
From S2P Require Import Statements Declarations Functions Contracts Orders Files.
#[local] Set Warnings "-register-all".

Module Imports.
Import Casts Names Resolver Declarations Functions Contracts Externals Literals Files FileResolver.

(** The parser: a list of diagnostics or the parts of the file. *)
Class Parser := parse : string → nat → list Diagnostic + Pt.SourceUnit.

Section Imports.
Context {BI : NumBigInt} {HO : HashOrder} {PG : Petgraph} {FS : FileSystem} {PA : Parser}.
Context (keccak256 : bytes → list Z).
Context (hash_order : list Pt.NamedArgument → list Pt.NamedArgument).
(** The resolution of expressions and types, and the order of a hash map of symbols. *)
Context (rec : Pt.Expression → ResolveTo → R Ex.expression).
Context (rec_type : nat → option nat → Pt.Expression → R ty).
Context (symbol_order : list (symbol_key * Symbol) → list (symbol_key * Symbol)).

(** [&mut FileResolver] besides the namespace. *)
Definition M (A : Type) : Type := FileResolver → N (A * FileResolver).
#[export] Instance M_ret : MRet M := λ A a r, mret (a, r).
#[export] Instance M_bind : MBind M := λ A B f m r, '(a, r) ← m r; f a r.
Definition in_ns {A} (m : N A) : M A := λ r, a ← m; mret (a, r).
Fixpoint foldI {A B} (f : B → A → M B) (b : B) (l : list A) : M B :=
  match l with [] => mret b | a :: l => b ← f b a; foldI f b l end.

(** * Imports *)

(** The symbols that an import copies: those of the file, and of the functions
    only those outside contracts. *)
Definition exports (file : nat) (l : list (symbol_key * Symbol)) : list (symbol_key * Symbol) :=
  List.filter (λ x, (x.1.1.1 =? file)%nat) (symbol_order l).
Definition global (x : symbol_key * Symbol) : bool := match x.1.1.2 with None => true | Some _ => false end.

(** One symbol: nothing happens when the file has it already. *)
(* [sema/mod.rs | 172-189 | resolve_import] *)
Definition import_symbol (table : Namespace → gmap symbol_key Symbol) (file : nat) (loc : Loc)
    (x : symbol_key * Symbol) : N unit :=
  let '((_, contract_no, name), symbol) := x in
  ns ← get;
  if bool_decide (table ns !! (file, contract_no, name) = Some symbol) then mret tt
  else _ ← add_symbol file contract_no {| id_loc := loc; id_name := name |} symbol; mret tt.

(* [sema/mod.rs | 158-218 | resolve_import] *)
Definition import_all (file import_file : nat) (loc : Loc) : N unit :=
  ns ← get;
  _ ← foldN (λ _ x, import_symbol variable_symbols file loc x) tt (exports import_file (map_to_list (variable_symbols ns)));
  ns ← get;
  foldN (λ _ x, import_symbol function_symbols file loc x) tt
    (List.filter global (exports import_file (map_to_list (function_symbols ns)))).

Definition import_filename (i : Pt.Import) : Pt.StringLiteral_ :=
  match i with Pt.Plain f _ => f | Pt.GlobalSymbol f _ _ => f end.

Section File.
(** The resolution of an imported file. *)
Context (sema_file : ResolvedFile → M unit).

(** The number of the imported file in the namespace; nothing after an error. *)
(* [sema/mod.rs | 123-155 | resolve_import] *)
Definition import_file_no (from : option ResolvedFile) (filename : Pt.StringLiteral_) : M (option nat) :=
  ns ← in_ns get;
  match position (λ f, bool_decide (cache_no f = None) && bool_decide (path f = path_of (Pt.sl_string filename))) (files ns) with
  | Some n => mret (Some n)
  | None =>
      x ← (λ r, nlift (resolve_file from (Pt.sl_string filename) r));
      match (x : string + ResolvedFile) with
      | inl message => _ ← in_ns (report (Diag.error (Pt.sl_loc filename) message)); mret None
      | inr file =>
          go ← (if existsb (λ f, bool_decide (path f = full_path file)) (files ns) then mret true
                else _ ← sema_file file; ns ← in_ns get; mret (negb (Diags.any_errors (diagnostics ns))));
          if (go : bool) then
            ns ← in_ns get;
            n ← in_ns (nlift (unwrap (position (λ f, bool_decide (path f = full_path file)) (files ns))));
            mret (Some n)
          else mret None
      end
  end.

(* [sema/mod.rs | fn resolve_import( | resolve_import] *)
Definition resolve_import (import : Pt.Import) (from : option ResolvedFile) (file : nat) : M unit :=
  let filename := import_filename import in
  if bool_decide (Pt.sl_string filename = "") then
    in_ns (report (Diag.error (Pt.sl_loc filename) "import path empty"))
  else
    n ← import_file_no from filename;
    match n with
    | None => mret tt
    | Some n =>
        match import with
        | Pt.Plain _ _ => in_ns (import_all file n (Pt.sl_loc filename))
        | Pt.GlobalSymbol _ symbol _ =>
            _ ← in_ns (add_symbol file None symbol (SImport (id_loc symbol) n)); mret tt
        end
    end.
End File.

(** * A file *)

Definition contract_definitions (pt : Pt.SourceUnit) : list Pt.ContractDefinition :=
  omap (λ p, match p with Pt.PContract d => Some d | _ => None end) pt.
Definition import_directives (pt : Pt.SourceUnit) : list Pt.Import :=
  omap (λ p, match p with Pt.PImport i => Some i | _ => None end) pt.

(* [sema/mod.rs | fn sema_file( | sema_file] *)
Fixpoint sema_file (fuel : nat) (file : ResolvedFile) : M unit :=
  match fuel with O => λ _ _, OutOfFuel | S fuel =>
  ns ← in_ns get;
  let file_no := length (files ns) in
  '(source_code, file_cache_no) ← (λ r, x ← nlift (get_file_contents_and_number (full_path file) r); mret (x, r));
  _ ← in_ns (modify (λ ns, mkNamespace (files ns ++ [new_file (full_path file) source_code file_cache_no]) (enums ns)
        (structs ns) (contracts ns) (user_types ns) (functions ns) (constants ns) (diagnostics ns)
        (function_symbols ns) (variable_symbols ns) (next_id ns) (called_lib_functions ns)));
  match parse source_code file_no with
  | inl errors => in_ns (modify (λ ns, set_diagnostics (Diags.append (diagnostics ns) errors) ns))
  | inr pt =>
      let defs := contract_definitions pt in
      let contracts_to_resolve := imap (λ no d, ((no + length (contracts ns))%nat, d)) defs in
      fields ← in_ns (resolve_typenames rec_type pt file_no);
      _ ← foldI (λ _ i, resolve_import (sema_file fuel) i (Some file) file_no) tt (import_directives pt);
      _ ← in_ns (resolve_fields rec_type fields file_no);
      _ ← in_ns (Contracts.resolve keccak256 hash_order rec rec_type contracts_to_resolve file_no);
      ns ← in_ns get;
      if Diags.any_errors (diagnostics ns) then mret tt
      else in_ns (foldN (λ _ n, add_external_functions n) tt (seq 0 (length (contracts ns))))
  end end.

(* [sema/mod.rs | pub fn sema( | sema] *)
Definition sema (fuel : nat) (file : ResolvedFile) : M unit :=
  _ ← sema_file fuel file;
  in_ns (modify (λ ns, if Diags.any_errors (diagnostics ns) then ns else Usage.check_unused_namespace_variables ns)).

(* [lib.rs | pub fn parse_and_resolve] *)
Definition parse_and_resolve (fuel : nat) (filename : string)
    : FileResolver → comp Namespace := λ r,
  '(x, r) ← resolve_file None filename r;
  '(_, _, ns) ← (match x with
    | inl message => report (mkDiagnostic CommandLine Error_ ET_ParserError message []) empty_ns ≫= λ x, Ret (tt, r, x.2)
    | inr file => sema fuel file r empty_ns
    end);
  Ret (set_diagnostics (Orders.sort_and_dedup (diagnostics ns)) ns).
End Imports.
End Imports.
