(* ===== verification/Typed.v ===== *)
(** When a resolved expression is well typed: every operator has operands of
    its own type, every condition is a boolean, every index is an integer,
    every argument has the type of its parameter. *)
From S2P Require Import Prelude BigIntSpec Ast Types TypeNames Casts.
#[local] Set Warnings "-register-all".

Module Typed.
Import Casts.

(** ** The parts of an expression *)

Definition opt_list {A} (o : option A) : list A := match o with Some a => [a] | None => [] end.
Definition call_args_list (c : CallArgs expression) : list expression :=
  match c with mkCallArgs _ g v a => opt_list g ++ opt_list v ++ opt_list a end.
Definition string_list (s : StringLocation expression) : list expression :=
  match s with RunTime e => [e] | CompileTime _ => [] end.

Definition children (e : expression) : list expression :=
  match e with
  | Ex.StructLiteral _ _ l | Ex.ArrayLiteral _ _ _ l | Ex.ConstArrayLiteral _ _ _ l | Ex.LibFunction _ _ _ l
  | Ex.List_ _ l => l
  | Ex.Add _ _ l r | Ex.Subtract _ _ l r | Ex.Multiply _ _ l r | Ex.Divide _ _ l r | Ex.Modulo _ _ l r
  | Ex.Power _ _ l r | Ex.BitwiseOr _ _ l r | Ex.BitwiseAnd _ _ l r | Ex.BitwiseXor _ _ l r | Ex.ShiftLeft _ _ l r
  | Ex.ShiftRight _ _ l r | Ex.Assign _ _ l r | Ex.More _ l r | Ex.Less _ l r | Ex.MoreEqual _ l r
  | Ex.LessEqual _ l r | Ex.Equal _ l r | Ex.NotEqual _ l r | Ex.Or _ l r | Ex.And _ l r | Ex.Subscript _ _ _ l r =>
      [l; r]
  | Ex.Load _ _ e | Ex.GetRef _ _ e | Ex.StorageLoad _ _ e | Ex.ZeroExt _ _ e | Ex.Trunc _ _ e | Ex.Cast _ _ e
  | Ex.BytesCast _ _ _ e | Ex.Increment _ _ e | Ex.Decrement _ _ e | Ex.Not _ e | Ex.BitwiseNot _ _ e
  | Ex.StructMember _ _ e _ | Ex.AllocDynamicBytes _ _ e _ | Ex.StorageArrayLength _ _ e _
  | Ex.ExternalFunction _ _ e _ => [e]
  | Ex.ConditionalOperator _ _ c l r => [c; l; r]
  | Ex.ArraySlice _ _ _ a s e => a :: opt_list s ++ opt_list e
  | Ex.StringCompare _ l r | Ex.StringConcat _ _ l r => string_list l ++ string_list r
  | Ex.FunctionCall _ _ f args => f :: args
  | Ex.ExternalFunctionCall _ _ f args c => f :: args ++ call_args_list c
  | Ex.ExternalFunctionCallRaw _ _ address args c => address :: args :: call_args_list c
  | _ => []
  end.

Section Induction.
Context (P : expression → Prop) (H : ∀ e, Forall P (children e) → P e).

Fixpoint expr_ind (e : expression) {struct e} : P e.
Proof.
  pose (all := fix all (l : list expression) : Forall P l :=
    match l with [] => Forall_nil_2 P | x :: l => Forall_cons_2 P x l (expr_ind x) (all l) end).
  apply H. destruct e; cbn [children];
    repeat match goal with
      | |- Forall _ [] => apply Forall_nil_2
      | |- Forall _ (_ :: _) => apply Forall_cons_2; [apply expr_ind|]
      | |- Forall _ (_ ++ _) => apply Forall_app_2
      | |- Forall _ (opt_list ?o) => destruct o; cbn
      | |- Forall _ (string_list ?o) => destruct o; cbn
      | |- Forall _ (call_args_list ?c) => destruct c; cbn
      | |- Forall _ ?l => is_var l; apply all
      end.
Defined.
End Induction.

(** ** Types that fit *)

(** A value of type [t'] where [t] is asked for: the same type; one of the
    two is not known; an aggregate in place, for its value; a [u32] for a field
    element; an array with fixed dimensions where the length is open. *)
Definition fits (t' t : ty) : bool :=
  Ty.eqb t' t || Ty.eqb t' Ty.Unresolved || Ty.eqb t Ty.Unresolved
  || match t', t with
     | Ty.Ref r, _ => Ty.eqb r t && match is_fixed_reference_type r with Ret b => b | _ => false end
     | Ty.Uint 32, Ty.Field => true
     | Ty.Array e d, Ty.Array e' d' => Ty.eqb e e' && dims_match d d'
     | _, _ => false
     end.
Definition has_ty (e : expression) (t : ty) : Prop := ∃ t', Ex.ty_of e = Ret t' ∧ fits t' t = true.
(** The type of what can be stored where an expression stands: in a variable,
    or through a reference. *)
Definition refers_to (e : expression) (t : ty) : Prop := ∃ t', Ex.ty_of e = Ret t' ∧ (t' = t ∨ deref_any t' = t).

Definition number (t : ty) : bool := match t with Ty.Uint _ | Ty.Field => true | _ => false end.
Definition is_slice (t : ty) : bool := match t with Ty.Slice _ => true | _ => false end.

(** The variables that are constant: of a contract, or global. *)
Class Constants : Type := is_constant : option nat → nat → Prop.

(** What an expression asks of its parts. *)
Definition node_ok `{CS : Constants} (e : expression) : Prop :=
  match e with
  | Ex.ConstantVariable _ _ c n => is_constant c n
  | Ex.Add _ t l r | Ex.Subtract _ t l r | Ex.Multiply _ t l r | Ex.Divide _ t l r | Ex.Modulo _ t l r
  | Ex.Power _ t l r | Ex.BitwiseOr _ t l r | Ex.BitwiseAnd _ t l r | Ex.BitwiseXor _ t l r => has_ty l t ∧ has_ty r t
  | Ex.ShiftLeft _ t l _ | Ex.ShiftRight _ t l _ => has_ty l t
  | Ex.More _ l r | Ex.Less _ l r | Ex.MoreEqual _ l r | Ex.LessEqual _ l r | Ex.Equal _ l r | Ex.NotEqual _ l r =>
      ∃ t, has_ty l t ∧ has_ty r t
  | Ex.Or _ l r | Ex.And _ l r => has_ty l Ty.Bool ∧ has_ty r Ty.Bool
  | Ex.Not _ e => has_ty e Ty.Bool
  | Ex.BitwiseNot _ t e => Ex.ty_of e = Ret t
  | Ex.ConditionalOperator _ t c l r => has_ty c Ty.Bool ∧ has_ty l t ∧ has_ty r t
  | Ex.Increment _ t e | Ex.Decrement _ t e => number t = true ∧ refers_to e t
  | Ex.Assign _ _ l r => ∃ t, refers_to l t ∧ has_ty r t
  | Ex.Subscript _ t array_ty _ i =>
      (is_storage_bytes array_ty = true → t = Ty.Uint 32)
      ∧ match deref_any array_ty with Ty.Mapping key _ _ _ => has_ty i key | _ => ∃ n, has_ty i (Ty.Uint n) end
  | Ex.ArraySlice _ _ _ _ s e => ∀ i, i ∈ opt_list s ++ opt_list e → ∃ n, has_ty i (Ty.Uint n)
  | Ex.AllocDynamicBytes _ _ len _ => has_ty len (Ty.Uint 32)
  | Ex.ArrayLiteral _ t _ l | Ex.ConstArrayLiteral _ t _ l =>
      match t with Ty.Array elem _ => is_slice elem = true ∨ Forall (λ e, has_ty e elem) l | _ => True end
  | Ex.FunctionCall _ _ (Ex.Function_ _ (Ty.Function_ params _) _ _) args => Forall2 has_ty args params
  | _ => True
  end.

Inductive typed `{CS : Constants} (e : expression) : Prop :=
  | typed_intro : node_ok e → (∀ c, c ∈ children e → typed c) → typed e.
End Typed.
