(* ===== verification/CastFacts.v ===== *)
(** Conversions and common types (src/src/sema/expression/mod.rs,
    integers.rs), and the evaluation of constants: what they return, what they
    report, and that they end. *)
From S2P Require Import Prelude BigIntSpec Ast Types Eval TypeNames Casts Typed.
#[local] Set Warnings "-register-all".

Module CastFacts.
Import Casts Typed.

(** ** Calls that report at most one error

    A call that returns adds no diagnostic, a call that fails adds exactly one,
    an error. *)
Definition sok {A} (m : sema A) (Q : A → Prop) : Prop := ∀ d,
  match m d with
  | Ret (Some a, d') => Q a ∧ d' = d
  | Ret (None, d') => ∃ x, diag_level x = Error_ ∧ d' = Diags.push d x
  | Panic => True
  | OutOfFuel => False
  end.

Lemma sok_ret {A} (a : A) (Q : A → Prop) : Q a → sok (mret a) Q.
Proof. by intros ? ?. Qed.
Lemma sok_fail {A} x (Q : A → Prop) : diag_level x = Error_ → sok (sema_fail x) Q.
Proof. intros ? d. by exists x. Qed.
Lemma sok_bind {A B} (m : sema A) (f : A → sema B) P Q : sok m P → (∀ a, P a → sok (f a) Q) → sok (m ≫= f) Q.
Proof.
  intros Hm Hf d. unfold mbind, sema_bind. specialize (Hm d). destruct (m d) as [[[a|] d']| |]; cbn in *; try done.
  destruct Hm as [Ha ->]. by apply Hf.
Qed.
Lemma sok_lift {A} (m : comp A) Q : yields False m Q → sok (sema_lift m) Q.
Proof. intros Hm d. unfold sema_lift. by destruct m. Qed.
Lemma sok_mono {A} (m : sema A) (P Q : A → Prop) : sok m P → (∀ a, P a → Q a) → sok m Q.
Proof. intros Hm HQ d. specialize (Hm d). destruct (m d) as [[[a|] d']| |]; naive_solver. Qed.

Lemma yields_no_fuel {A} (m : comp A) : m ≠ OutOfFuel → yields False m (λ _, True).
Proof. destruct m; cbn; naive_solver. Qed.
Lemma yields_self {A} (m : comp A) : m ≠ OutOfFuel → yields False m (λ a, m = Ret a).
Proof. destruct m; cbn; naive_solver. Qed.

Lemma ty_of_no_fuel e : Ex.ty_of e ≠ OutOfFuel.
Proof.
  assert (Hs : ∀ {A} (l : list A), Ex.single l ≠ OutOfFuel) by (by intros A [|? []]).
  induction e as [e IH] using expr_ind. destruct e; try done; try apply Hs; cbn.
  destruct l as [|x []]; [done| |done]. by apply Forall_inv in IH.
Qed.

(** ** Casts *)

Lemma two_types_no_fuel ns a f b t c : two_types ns a f b t c ≠ OutOfFuel.
Proof.
  apply bind_no_fuel; [apply to_string_no_fuel|]. intros ? _. apply bind_no_fuel; [apply to_string_no_fuel|done].
Qed.
Lemma cast_failure_ok {A} loc m (Q : A → Prop) : m ≠ OutOfFuel → sok (cast_failure loc m) Q.
Proof.
  intros Hm. eapply sok_bind; [by apply sok_lift, yields_no_fuel|]. intros ? _. by apply sok_fail.
Qed.
Lemma not_possible_ok {A} ns loc f t (Q : A → Prop) : sok (not_possible ns loc f t) Q.
Proof. apply cast_failure_ok, two_types_no_fuel. Qed.

(** The result of a cast. *)
Definition cast_result `{CS : Constants} (t : ty) (e : expression) : Prop := typed e ∧ has_ty e t.

Lemma eqb_refl t : Ty.eqb t t = true.
Proof. by apply Ty.eqb_spec. Qed.
Lemma fits_refl t : fits t t = true.
Proof. unfold fits. by rewrite eqb_refl. Qed.

(** A node around an expression, with no demand of its own. *)
Lemma typed_wrap `{CS : Constants} e e' : typed e → node_ok e' → children e' = [e] → typed e'.
Proof. intros He Hn Hc. constructor; [done|]. rewrite Hc. by intros c ->%list_elem_of_singleton. Qed.
Lemma typed_leaf `{CS : Constants} e : node_ok e → children e = [] → typed e.
Proof. intros Hn Hc. constructor; [done|]. rewrite Hc. by intros c ?%not_elem_of_nil. Qed.

Lemma exact_result `{CS : Constants} t e : typed e → Ex.ty_of e = Ret t → cast_result t e.
Proof. intros He Ht. split; [done|]. exists t. split; [done|]. apply fits_refl. Qed.

(** Solves the arms of a cast. *)
Ltac cast_arm :=
  first
    [ by apply not_possible_ok
    | by apply cast_failure_ok, two_types_no_fuel
    | apply sok_ret; apply exact_result; [by apply typed_leaf|done]
    | apply sok_ret; apply exact_result; [by eapply typed_wrap|done] ].

Section Cast.
Context {BI : NumBigInt} {CS : Constants}.

Lemma cast_types_ok ns e loc from t :
  typed e → Ex.ty_of e = Ret from → sok (cast_types ns e loc from t) (cast_result t).
Proof.
  intros He Hf. unfold cast_types.
  repeat match goal with
  | |- sok (if ?b then _ else _) _ => destruct b eqn:?
  | |- sok (match ?x with _ => _ end) _ => destruct x eqn:?; subst
  | |- sok (mret ?x) _ => constr_eq x e; apply sok_ret; split; [done|]; eexists; split; [done|]; unfold fits
  | _ => cast_arm
  end.
  - cbn. done.
  - repeat (apply orb_true_iff; right). done.
Qed.

Lemma cast_literal_ok ns e loc from t m :
  typed e → Ex.ty_of e = Ret from → cast_literal ns e loc from t = Some m → sok m (cast_result t).
Proof.
  intros He Hf Hm. unfold cast_literal in Hm. repeat case_match; simplify_eq; try cast_arm.
Qed.

Lemma cast_from_ok ns loc t from e :
  typed e → Ex.ty_of e = Ret from → (storage_byte e = true → ∀ r, from ≠ Ty.StorageRef r) →
  sok (cast_from ns loc t from e) (cast_result t).
Proof.
  revert e. induction from; intros e He Hf Hb; cbn [cast_from].
  all: destruct (Ty.eqb _ t) eqn:Heq;
    [apply sok_ret; split; [done|]; eexists; split; [done|]; unfold fits; by rewrite Heq|].
  all: destruct (Ty.eqb _ Ty.Unresolved || _) eqn:Hu;
    [apply sok_ret; split; [done|]; eexists; split; [done|]; unfold fits; rewrite Heq; by destruct (_ || _)|].
  all: try (destruct (cast_literal _ _ _ _ _) eqn:Hl; [by eapply cast_literal_ok|by apply cast_types_ok]).
  - eapply (sok_bind _ _ (λ b, is_fixed_reference_type from = Ret b)).
    { apply sok_lift, yields_self. by destruct from. }
    intros [] Hx.
    + destruct (Ty.eqb from t) eqn:Hft; [|by apply not_possible_ok].
      apply sok_ret. split; [done|]. eexists. split; [done|]. unfold fits. rewrite Hft, Hx. cbn.
      by rewrite orb_true_r.
    + apply IHfrom; [by eapply typed_wrap|done|done].
  - destruct (storage_byte e) eqn:Hs; [exfalso; by eapply Hb|].
    apply IHfrom; [by eapply typed_wrap|done|done].
Qed.

Lemma typed_storage_byte e r : typed e → storage_byte e = true → Ex.ty_of e ≠ Ret (Ty.StorageRef r).
Proof.
  intros [Hn _] Hs. destruct e; try done. destruct Hn as [Hn _]. cbn in *. by rewrite (Hn Hs).
Qed.

Lemma cast_ok ns e loc t : typed e → sok (cast ns e loc t) (cast_result t).
Proof.
  intros He. unfold cast. eapply sok_bind; [apply sok_lift, yields_self, ty_of_no_fuel|].
  intros from Hf. apply cast_from_ok; [done|done|]. intros Hs r ->. by eapply typed_storage_byte.
Qed.

(** C38: Converting a well-typed expression never loops; when it succeeds
    nothing is reported and the result is well typed with a type that fits the
    target, and when it fails exactly one diagnostic is reported, an error. *)
Theorem cast_correct ns e loc t d :
  typed e →
  match cast ns e loc t d with
  | Ret (Some e', d') => cast_result t e' ∧ d' = d
  | Ret (None, d') => ∃ x, diag_level x = Error_ ∧ d' = Diags.push d x
  | Panic => True
  | OutOfFuel => False
  end.
Proof.
  intros He. pose proof (cast_ok ns e loc t He) as H.
  exact (H d).
Qed.
(** ** Common types *)

Lemma get_enum_no_fuel ns n : get_enum ns n ≠ OutOfFuel.
Proof. apply unwrap_no_fuel. Qed.
Lemma type_bits_ok ns loc t (Q : Z → Prop) : (∀ z, Q z) → sok (type_bits ns loc t) Q.
Proof.
  intros HQ. induction t; cbn [type_bits]; try (by apply sok_ret, HQ); try done.
  all: eapply sok_bind; [apply sok_lift, yields_no_fuel|intros; by apply sok_fail].
  all: first [apply unwrap_no_fuel|apply to_string_no_fuel].
Qed.
Lemma coerce_number_ok ns l ll r rl : sok (coerce_number ns l ll r rl) (λ _, True).
Proof.
  unfold coerce_number. cbv zeta. repeat case_match; try (by apply sok_ret).
  all: do 2 (apply (sok_bind _ _ (λ _, True)); [by apply type_bits_ok|intros ? _]); by apply sok_ret.
Qed.
Lemma coerce_ok ns l ll r rl : sok (coerce ns l ll r rl) (λ _, True).
Proof. unfold coerce. case_match; [by apply sok_ret|apply coerce_number_ok]. Qed.
Lemma bigint_to_expression_ok ns loc n r : declared ns → sok (bigint_to_expression ns loc n r) typed.
Proof.
  intros Hd. unfold bigint_to_expression. repeat case_match; try (by apply sok_fail);
    try (by apply sok_ret, typed_leaf).
  eapply sok_bind; [by apply sok_lift, yields_no_fuel, is_integer_no_fuel|]. intros [] _; [by apply sok_ret, typed_leaf|].
  eapply sok_bind; [apply sok_lift, yields_no_fuel, to_string_no_fuel|]. intros ? _. by apply sok_fail.
Qed.
End Cast.

(** Witness: a [u32] behind a reference, converted to [u32] and to a string. *)
Definition u32_place : expression := Ex.Variable_ Builtin (Ty.Ref (Ty.Uint 32)) 0.
#[local] Instance no_constants : Constants := λ _ _, False.
Lemma u32_place_typed : typed u32_place.
Proof. by apply typed_leaf. Qed.
Lemma cast_correct_witness :
  cast empty_ns u32_place Builtin (Ty.Uint 32) Diags.empty
    = Ret (Some (Ex.Load Builtin (Ty.Uint 32) u32_place), Diags.empty)
  ∧ cast_result (Ty.Uint 32) (Ex.Load Builtin (Ty.Uint 32) u32_place)
  ∧ ∃ x, diag_level x = Error_
      ∧ cast empty_ns u32_place Builtin Ty.String_ Diags.empty = Ret (None, Diags.push Diags.empty x).
Proof.
  pose proof (cast_correct empty_ns u32_place Builtin (Ty.Uint 32) Diags.empty u32_place_typed) as H.
  pose proof (cast_correct empty_ns u32_place Builtin Ty.String_ Diags.empty u32_place_typed) as H'.
  split; [reflexivity|]. split; [exact (proj1 H)|].
  destruct (cast empty_ns u32_place Builtin Ty.String_ Diags.empty) as [[[e|] d]| |] eqn:E;
    [vm_compute in E; discriminate E| |destruct H'; vm_compute in E; discriminate E|destruct H'].
  destruct H' as (x & Hx & ->). exists x. split; [exact Hx|reflexivity].
Defined.
End CastFacts.
