(* ===== verification/ResolverFacts.v ===== *)
(** What a resolution leaves alone: the tables of the namespace apart from
    marks and diagnostics, the scopes, the context.  The rules for its calls,
    with which the operations are shown to end, to report what fails and to
    give well-typed expressions. *)
From S2P Require Import Prelude BigIntSpec Ast Types Eval Pt TypeNames SymTable Casts Names Resolver.
From S2P Require Import Typed CastFacts.
#[local] Set Warnings "-register-all".

Module ResolverFacts.
Import Casts Names Resolver Typed CastFacts.

(** ** Constants *)

(** Constants are defined in terms of constants that come before them. *)
Definition ordered `{CS : Constants} (ns : Namespace) : Prop := ∃ rank : option nat * nat → nat,
  ∀ c n e, is_constant c n → constant_initializer ns c n = Ret (Some e) →
    (rank (c, n) < length (all_constants ns))%nat
    ∧ ∀ x, x ∈ const_refs e → (∃ i, constant_initializer ns x.1 x.2 = Ret (Some i)) → (rank x < rank (c, n))%nat.

(** Whether all constants have a value: one whose value could not be resolved
    has none, and its evaluation fails with nothing more to report. *)
Class Strict : Type := strict : bool.
(** How many diagnostics a failure adds, at least. *)
Definition gain `{ST : Strict} : nat := Nat.b2n strict.
Lemma gain_cases `{ST : Strict} : (gain = 0 ∨ gain = 1)%nat.
Proof. unfold gain. destruct strict; auto. Qed.

(** What the declarations establish before an expression is resolved. *)
Record wf_ns `{CS : Constants, ST : Strict} (ns : Namespace) : Prop := {
  wf_declared : declared ns;
  wf_constants c n : constant_at ns c n → is_constant c n;
  wf_initialized c n : strict = true → is_constant c n → constant_initializer ns c n ≠ Ret None;
  wf_closed c n e : is_constant c n → constant_initializer ns c n = Ret (Some e) →
    ∀ x, x ∈ const_refs e → is_constant x.1 x.2;
  wf_ordered : ordered ns;
}.

(** A well-typed expression reads constants only. *)
Lemma typed_refs `{CS : Constants} e : typed e → ∀ x, x ∈ const_refs e → is_constant x.1 x.2.
Proof.
  induction e as [e IH] using expr_ind. intros [Hn Hc] x Hx.
  assert (Hsub : ∀ c, c ∈ children e → x ∈ const_refs c → is_constant x.1 x.2).
  { intros c Hin. by apply (proj1 (Forall_forall _ _) IH c Hin), Hc. }
  destruct e; cbn in Hx; try (by inversion Hx); try (apply elem_of_app in Hx as [Hx|Hx]);
    try (eapply Hsub; [|exact Hx]; cbn; set_solver).
  apply list_elem_of_singleton in Hx as ->. exact Hn.
Qed.

Lemma init_height_bound ns c n e :
  constant_initializer ns c n = Ret (Some e) →
  (expr_height e ≤ max_list (init_height <$> all_constants ns))%nat.
Proof.
  intros H. assert (∃ v, v ∈ all_constants ns ∧ initializer v = Some e) as (v & Hv & He).
  { unfold all_constants. destruct c as [c|]; cbn in H; comp_inv.
    - eexists. split; [|done]. apply elem_of_app. right. apply list_elem_of_In, in_concat.
      eexists. split; [apply list_elem_of_In, list_elem_of_fmap; eexists; split; [done|]|apply list_elem_of_In];
        by eapply list_elem_of_lookup_2.
    - eexists. split; [|done]. apply elem_of_app. left. by eapply list_elem_of_lookup_2. }
  apply max_list_elem_of_le. apply list_elem_of_fmap. exists v. unfold init_height. by rewrite He.
Qed.

Section Eval.
Context {BI : NumBigInt} {CS : Constants}.

Context {ST : Strict}.

(** The evaluation reports at most once, and does when it fails on constants
    that have a value. *)
Definition evals {A} (m : sema A) (Q : A → Prop) : Prop := ∀ d,
  match m d with
  | Ret (Some a, d') => Q a ∧ d' = d
  | Ret (None, d') => (∃ x, diag_level x = Error_ ∧ d' = Diags.push d x) ∨ (gain = 0%nat ∧ d' = d)
  | Panic => True
  | OutOfFuel => False
  end.
Lemma evals_sok {A} (m : sema A) Q : sok m Q → evals m Q.
Proof. intros Hm d. specialize (Hm d). destruct (m d) as [[[a|] d']| |]; auto. Qed.
Lemma evals_ret {A} (a : A) (Q : A → Prop) : Q a → evals (mret a) Q.
Proof. intros HQ. by apply evals_sok, sok_ret. Qed.
Lemma evals_fail {A} d (Q : A → Prop) : diag_level d = Error_ → evals (sema_fail d) Q.
Proof. intros Hd. by apply evals_sok, sok_fail. Qed.
Lemma evals_bind {A B} (m : sema A) (f : A → sema B) P Q :
  evals m P → (∀ a, P a → evals (f a) Q) → evals (m ≫= f) Q.
Proof.
  intros Hm Hf d. unfold mbind, sema_bind. specialize (Hm d). destruct (m d) as [[[a|] d']| |]; cbn; try done.
  destruct Hm as [Ha ->]. by apply Hf.
Qed.

Lemma eval_power_ok loc b e : sok (eval_power loc b e) (λ _, True).
Proof.
  unfold eval_power. repeat case_match; [by apply sok_fail|by apply sok_ret|].
  apply (sok_bind _ _ (λ _, True)); [|by intros; apply sok_ret]. apply sok_lift, yields_no_fuel.
  assert (0 ≤ e)%Z by lia. rewrite (power_loop_pow _ b b (e - 1)) by lia. done.
Qed.

Lemma eval_ok ns rank fuel k e :
  (∀ c n, strict = true → is_constant c n → constant_initializer ns c n ≠ Ret None) →
  (∀ c n e, is_constant c n → constant_initializer ns c n = Ret (Some e) →
    ∀ x, x ∈ const_refs e → is_constant x.1 x.2) →
  (∀ c n e, is_constant c n → constant_initializer ns c n = Ret (Some e) → ∀ x, x ∈ const_refs e →
    (∃ i, constant_initializer ns x.1 x.2 = Ret (Some i)) → (rank x < rank (c, n))%nat) →
  (∀ x, x ∈ const_refs e → is_constant x.1 x.2) →
  (∀ x, x ∈ const_refs e → (∃ i, constant_initializer ns x.1 x.2 = Ret (Some i)) → (rank x < k)%nat) →
  (expr_height e + k * S (max_list (init_height <$> all_constants ns)) < fuel)%nat →
  evals (eval_const_number fuel e ns) (λ _, True).
Proof.
  intros Hi Hcl Hr. revert k e. induction fuel as [|fuel IH]; intros k e Hc Hk Hf; [lia|].
  assert (Hsub : ∀ x, (∀ y, y ∈ const_refs x → y ∈ const_refs e) → (expr_height x < expr_height e)%nat →
    evals (eval_const_number fuel x ns) (λ _, True)).
  { intros x Hx Hh. apply (IH k); [| |lia]; intros y Hy; [by apply Hc, Hx|by apply Hk, Hx]. }
  destruct e; cbn [eval_const_number]; try (by apply evals_fail); try (by apply evals_ret).
  all: try (cbn in Hsub; repeat (apply (evals_bind _ _ (λ _, True));
    [apply Hsub; [set_solver|lia]|intros ? _]); try (by apply evals_ret)).
  - case_decide; [by apply evals_fail|]. apply (evals_bind _ _ (λ _, True)); [apply Hsub; [set_solver|lia]|].
    intros; by apply evals_ret.
  - case_decide; [by apply evals_fail|]. apply (evals_bind _ _ (λ _, True)); [apply Hsub; [set_solver|lia]|].
    intros; by apply evals_ret.
  - apply evals_sok, eval_power_ok.
  - unfold eval_shift_left. case_match; [by apply evals_ret|by apply evals_fail].
  - unfold eval_shift_right. case_match; [by apply evals_ret|by apply evals_fail].
  - rename contract_no0 into c. apply (evals_bind _ _ (λ o, constant_initializer ns c var_no = Ret o)).
    { apply evals_sok, sok_lift, yields_self. unfold constant_initializer.
      destruct c; repeat (apply bind_no_fuel; [apply unwrap_no_fuel|intros ? _]); done. }
    assert (Hcn : is_constant c var_no) by (apply (Hc (c, var_no)); by left).
    intros [i|] Hx.
    2: { intros d. right. split; [|done]. unfold gain. destruct strict eqn:Hs; [|done]. exfalso. by eapply Hi. }
    assert (rank (c, var_no) < k)%nat by (apply Hk; [by left|by eexists]).
    pose proof (init_height_bound _ _ _ _ Hx). apply (IH (rank (c, var_no))).
    + by eapply Hcl.
    + intros x Hin. by eapply Hr.
    + cbn in Hf. nia.
Qed.

Lemma eval_const_ok ns e : wf_ns ns → typed e → evals (eval_const_number (eval_fuel ns e) e ns) (λ _, True).
Proof.
  intros [_ _ Hi Hcl (rank & Hr)] He. apply (eval_ok ns rank _ (length (all_constants ns))); [done|done| |by apply typed_refs| |].
  - intros c n x Hc Hx. by apply Hr.
  - intros [c n] Hc%(typed_refs _ He) [i Hx]. by apply (Hr c n i).
  - unfold eval_fuel. lia.
Qed.
End Eval.

(** ** The tables without their marks *)

Definition unmark_decl (v : VariableDecl) : VariableDecl :=
  mkVariable (v_name v) (v_loc v) (v_ty v) (v_constant v) (initializer v) false false.
Definition unmark_contract (c : Contract) : Contract := Usage.with_variables (unmark_decl <$> variables c) c.
Definition unmarked (ns : Namespace) : Namespace :=
  mkNamespace (files ns) (enums ns) (structs ns) (unmark_contract <$> contracts ns) (user_types ns) (functions ns)
    (unmark_decl <$> constants ns) Diags.empty (function_symbols ns) (variable_symbols ns) (next_id ns) [].
Definition unmark_var (v : Sym.Variable_) : Sym.Variable_ :=
  Sym.mkVar (Sym.id v) (Sym.vty v) (Sym.pos v) (Sym.slice v) false false (Sym.usage_type v) (Sym.init v)
    (Sym.storage_location v).
Definition unmarked_sym (t : Sym.Symtable) : Sym.Symtable :=
  Sym.mkSymtable (prod_map id unmark_var <$> Sym.vars t) (Sym.names t) (Sym.arguments t) (Sym.returns t).

Definition same_static (t t' : Usage.tables) : Prop :=
  unmarked t.1 = unmarked t'.1 ∧ unmarked_sym t.2 = unmarked_sym t'.2 ∧ grown (diagnostics t.1) (diagnostics t'.1).
#[export] Instance same_static_pre : PreOrder same_static.
Proof.
  unfold same_static. split; [by intros ?|]. intros ??? (-> & -> & ?) (-> & -> & ?). split_and!; [done..|by etrans].
Qed.

Lemma constant_initializer_unmarked ns c n :
  constant_initializer (unmarked ns) c n = constant_initializer ns c n.
Proof.
  destruct c as [c|]; cbn.
  - rewrite list_lookup_fmap. destruct (contracts ns !! c) as [k|]; cbn; [|done].
    rewrite list_lookup_fmap. by destruct (variables k !! n).
  - rewrite list_lookup_fmap. by destruct (constants ns !! n).
Qed.
Lemma all_constants_unmarked ns : all_constants (unmarked ns) = unmark_decl <$> all_constants ns.
Proof.
  unfold all_constants. cbn. rewrite fmap_app. f_equal.
  induction (contracts ns) as [|c l IH]; [done|]. cbn. by rewrite fmap_app, IH.
Qed.
Lemma constant_at_unmarked ns c n : constant_at (unmarked ns) c n ↔ constant_at ns c n.
Proof.
  destruct c as [c|]; cbn; [|done]. rewrite list_lookup_fmap. split.
  - intros (k & v & Hk & Hv & Hc). destruct (contracts ns !! c) as [k'|]; [|done]. cbn in Hk. simplify_eq. cbn in Hv.
    rewrite list_lookup_fmap in Hv. destruct (variables k' !! n) as [v'|] eqn:Hv'; [|done]. cbn in Hv. simplify_eq.
    by exists k', v'.
  - intros (k & v & -> & Hv & Hc). exists (unmark_contract k), (unmark_decl v). cbn. by rewrite list_lookup_fmap, Hv.
Qed.
Lemma wf_ns_unmarked `{CS : Constants, ST : Strict} ns : wf_ns (unmarked ns) ↔ wf_ns ns.
Proof.
  assert (Hf : ∀ ns ns', user_types ns = user_types ns' → enums ns = enums ns' →
    (∀ c n, constant_initializer ns c n = constant_initializer ns' c n) →
    (∀ c n, constant_at ns c n ↔ constant_at ns' c n) →
    length (all_constants ns) = length (all_constants ns') → wf_ns ns → wf_ns ns').
  { intros n1 n2 Hu He Hc Ha Hl [[Hd1 Hd2] Hk Hi Hcl (rank & Hr)]. split.
    - split; [by rewrite <-Hu|by rewrite <-He].
    - intros c n. rewrite <-Ha. apply Hk.
    - intros c n. rewrite <-Hc. apply Hi.
    - intros c n e. rewrite <-Hc. apply Hcl.
    - exists rank. intros c n e Hcn. rewrite <-Hc, <-Hl. intros Hin0. destruct (Hr c n e Hcn Hin0) as [Hb Hx].
      split; [exact Hb|]. intros x Hin. rewrite <-Hc. by apply Hx. }
  split; apply Hf; try done; intros; rewrite ?constant_initializer_unmarked, ?all_constants_unmarked, ?length_fmap, ?constant_at_unmarked; done.
Qed.
Lemma wf_ns_same `{CS : Constants, ST : Strict} ns ns' : unmarked ns = unmarked ns' → wf_ns ns → wf_ns ns'.
Proof. intros H. by rewrite <-(wf_ns_unmarked ns), H, wf_ns_unmarked. Qed.

Definition marks (m : Usage.tables → comp Usage.tables) : Prop := ∀ t, yields False (m t) (same_static t).

Lemma marks_ret : marks Ret.
Proof. by intros t. Qed.
Lemma marks_bind m f : marks m → marks f → marks (λ t, m t ≫= f).
Proof.
  intros Hm Hf t. eapply yields_bind; [apply Hm|]. intros t' Ht. eapply yields_mono; [apply Hf|].
  intros t'' Ht'. by etrans.
Qed.
Lemma marks_panic : marks (λ _, Panic).
Proof. intros t. cbn. naive_solver. Qed.

Lemma im_update_unmark k f l :
  (∀ v, unmark_var (f v) = unmark_var v) →
  prod_map id unmark_var <$> SymTable.SymTable.im_update k f l = prod_map id unmark_var <$> l.
Proof.
  intros Hf. induction l as [|[j v] l IH]; [done|]. cbn.
  destruct (decide _); cbn; [unfold prod_map; cbn; by rewrite Hf|by rewrite IH].
Qed.
Lemma update_var_marks f k : (∀ v, unmark_var (f v) = unmark_var v) → marks (Usage.update_var f k).
Proof.
  intros Hf t. unfold Usage.update_var. destruct (SymTable.SymTable.im_get k _); cbn; [|naive_solver].
  split_and!; [done| |done]. unfold unmarked_sym. cbn. by rewrite im_update_unmark.
Qed.
Lemma fmap_insert_same {A B} (f : A → B) (l : list A) i x y :
  l !! i = Some x → f y = f x → f <$> <[i := y]> l = f <$> l.
Proof. intros Hl Hf. rewrite list_fmap_insert, Hf. apply list_insert_id. by rewrite list_lookup_fmap, Hl. Qed.
Lemma update_contract_marks f c n :
  (∀ v, unmark_decl (f v) = unmark_decl v) → marks (Usage.in_ns (Usage.update_contract_var f c n)).
Proof.
  intros Hf t. unfold Usage.in_ns, Usage.update_contract_var.
  destruct (contracts t.1 !! c) as [k|] eqn:Hk; cbn; [|naive_solver].
  destruct (variables k !! n) as [v|] eqn:Hv; cbn; [|naive_solver].
  split_and!; [|done..]. unfold unmarked. cbn. f_equal. symmetry. eapply fmap_insert_same; [done|].
  unfold unmark_contract, Usage.with_variables. cbn. f_equal. by eapply fmap_insert_same.
Qed.
Lemma update_constant_marks f n :
  (∀ v, unmark_decl (f v) = unmark_decl v) → marks (Usage.in_ns (Usage.update_constant f n)).
Proof.
  intros Hf t. unfold Usage.in_ns, Usage.update_constant.
  destruct (constants t.1 !! n) as [v|] eqn:Hv; cbn; [|naive_solver].
  split_and!; [|done..]. unfold unmarked. cbn. f_equal. symmetry. by eapply fmap_insert_same.
Qed.
Lemma each_marks f l : Forall (λ e, marks (f e)) l → marks (Usage.each f l).
Proof.
  unfold Usage.each. induction 1 as [|e l He _ IH]; [apply marks_ret|]. cbn. by apply marks_bind.
Qed.
#[local] Hint Resolve marks_ret marks_bind marks_panic update_var_marks update_contract_marks update_constant_marks : ola.

Definition marks_all (e : expression) : Prop :=
  marks (Usage.assigned_variable e) ∧ marks (Usage.subscript_variable e)
  ∧ marks (Usage.used_variable e) ∧ marks (Usage.check_function_call e).

Lemma yields_marks m t t' : marks m → same_static t t' → yields False (m t') (same_static t).
Proof. intros Hm Ht. eapply yields_mono; [apply Hm|]. intros ? ?. by etrans. Qed.
Lemma marks_step m f t t' :
  marks m → same_static t t' → (∀ u, same_static t u → yields False (f u) (same_static t)) →
  yields False (m t' ≫= f) (same_static t).
Proof. intros Hm Ht Hf. eapply yields_bind; [by apply yields_marks|]. intros. by apply Hf. Qed.

Lemma each_opt_marks f o : Forall (λ e, marks (f e)) (opt_list o) → marks (Usage.each_opt f o).
Proof. destruct o; cbn; [by intros ?%Forall_inv|auto with ola]. Qed.
Lemma check_call_args_marks f c : Forall (λ e, marks (f e)) (call_args_list c) → marks (Usage.check_call_args f c).
Proof.
  destruct c as [g v a]. cbn. rewrite !Forall_app. intros (Hg & Hv & _) t. unfold Usage.check_call_args.
  eapply marks_step; [by apply each_opt_marks|done|]. intros u Hu. apply yields_marks; [by apply each_opt_marks|done].
Qed.

Ltac marks_parts :=
  repeat match goal with
  | H : Forall _ (opt_list (Some _)) |- _ => cbn in H
  | H : Forall _ (_ :: _) |- _ => pose proof (Forall_inv H) as (? & ? & ? & ?); apply Forall_inv_tail in H
  | H : Forall _ (_ ++ _) |- _ => apply Forall_app in H as [? H]
  end.
Ltac marks_go :=
  marks_parts;
  repeat match goal with
  | |- yields _ (Ret _) _ => cbn; assumption || reflexivity
  | |- same_static _ _ => assumption || reflexivity
  | |- ¬ False => naive_solver
  | |- yields _ Panic _ => cbn; naive_solver
  | |- yields _ (?m _ ≫= _) _ => eapply marks_step; [|eassumption || reflexivity|intros ? ?]
  | |- yields _ (Ex.ty_of ?e ≫= _) _ => eapply yields_bind; [apply yields_no_fuel, ty_of_no_fuel|intros ? _]
  | |- yields _ (match ?x with _ => _ end _ ≫= _) _ => destruct x
  | |- yields _ (match ?x with _ => _ end ≫= _) _ => destruct x
  | |- yields _ (match ?x with _ => _ end) _ => destruct x
  | |- yields _ (_ _) _ => apply yields_marks; [|eassumption || reflexivity]
  end.

Lemma on_call_marks used call f args :
  Forall (λ e, marks (used e)) args → marks (call f) → marks (Usage.on_call used call f args).
Proof.
  intros Ha Hc t. eapply marks_step; [by apply each_marks|done|]. intros u Hu. by apply yields_marks.
Qed.
Lemma on_external_call_marks used call f args c :
  Forall (λ e, marks (used e)) args → Forall (λ e, marks (used e)) (call_args_list c) → marks (call f) →
  marks (Usage.on_external_call used call f args c).
Proof.
  intros Ha Hca Hc t. eapply marks_step; [by apply each_marks|done|]. intros u Hu.
  eapply marks_step; [by apply check_call_args_marks|done|]. intros ? ?. by apply yields_marks.
Qed.

Ltac marks_leaf :=
  marks_parts;
  first
    [ assumption
    | apply marks_ret
    | apply update_var_marks; by intros []
    | apply update_contract_marks; by intros []
    | apply update_constant_marks; by intros []
    | apply each_marks; eapply Forall_impl; [eassumption|by intros ? (?&?&?&?)]
    | apply check_call_args_marks; eapply Forall_impl; [eassumption|by intros ? (?&?&?&?)]
    | apply on_call_marks; [eapply Forall_impl; [eassumption|by intros ? (?&?&?&?)]|assumption]
    | apply on_external_call_marks;
        [eapply Forall_impl; [eassumption|by intros ? (?&?&?&?)]
        |eapply Forall_impl; [eassumption|by intros ? (?&?&?&?)]|assumption] ].

Lemma usage_marks e : marks_all e.
Proof.
  induction e as [e IH] using expr_ind. split_and!; intros t; destruct e; cbn in IH |- *; marks_go.
  all: marks_leaf.
Qed.

(** The overflow check only reports. *)
(** What a visit of the parts of an expression does when each step keeps a
    relation. *)
Section Visit.
Context {T : Type} (f : expression → T → comp (bool * T)) (K : T → T → Prop) {HK : PreOrder K}.
Context (Hf : ∀ e t, yields False (f e t) (λ r, K t r.2)).

Definition visits (e : expression) : Prop := ∀ t, yields False (recurse_with f e t) (K t).
Lemma visits_all l t t' :
  Forall visits l → K t t' → yields False (foldM (λ t e, recurse_with f e t) t' l) (K t).
Proof.
  intros Hl. revert t'. induction Hl as [|e l He _ IH]; intros t' Hs; [done|]. cbn.
  eapply yields_bind; [apply He|]. intros n Hn. apply IH. by etrans.
Qed.
Lemma visit_step e g t t' :
  visits e → K t t' → (∀ n, K t n → yields False (g n) (K t)) → yields False (recurse_with f e t' ≫= g) (K t).
Proof. intros He Hs Hg. eapply yields_bind; [apply He|]. intros n Hn. apply Hg. by etrans. Qed.

Lemma recurse_visits e : visits e.
Proof.
  induction e as [e IH] using expr_ind. intros t.
  assert (Hlast : ∀ x n, visits x → K t n → yields False (recurse_with f x n) (K t)).
  { intros x n Hx Hn. eapply yields_mono; [apply Hx|]. intros ? ?. by etrans. }
  pose proof (Hf e t) as Hc.
  destruct e; cbn [recurse_with]; (eapply yields_bind; [exact Hc|]); intros [[] n] Hn; cbn [negb snd] in *; try exact Hn.
  all: cbn in IH; repeat match goal with
    | H : Forall _ (_ :: _) |- _ => pose proof (Forall_inv H); apply Forall_inv_tail in H
    | H : Forall _ (_ ++ _) |- _ => apply Forall_app in H as [? ?]
    | H : Forall _ (opt_list (Some _)) |- _ => cbn in H
    | H : Forall _ (string_list (RunTime _)) |- _ => cbn in H
    | |- yields _ (Ret _) _ => cbn; assumption
    | |- yields _ (recurse_call_args _ ?c _) _ => destruct c as [? ? ?]; cbn [recurse_call_args call_args_list] in *
    | |- yields _ (recurse_with _ _ _ ≫= _) _ => eapply visit_step; [assumption|assumption|intros ? ?]
    | |- yields _ (recurse_with _ _ _) _ => by apply Hlast
    | |- yields _ (foldM _ _ _) _ => by apply visits_all
    | |- yields _ (match ?x with _ => _ end ≫= _) _ => destruct x; cbn [mbind comp_bind]
    | |- yields _ (match ?x with _ => _ end) _ => destruct x
    | |- yields _ _ _ => progress cbn in *
    end.
Qed.
End Visit.

Section Recurse.
Context {BI : NumBigInt}.

Lemma overflow_check_no_fuel v t loc : overflow_check v t loc ≠ OutOfFuel.
Proof.
  unfold overflow_check. repeat case_match; try done; (apply bind_no_fuel; [by try apply unwrap_no_fuel|]);
    intros ? _; by try case_match.
Qed.
Lemma check_term_ok e ns : yields False (check_term_for_constant_overflow e ns) (λ r, same_tables ns r.2).
Proof.
  assert (H : yields False
    (r ← eval_constants_in_expression e ns;
     match r with
     | (Some (Ex.NumberLiteral loc t result), _, ns) =>
         o ← overflow_check result t loc;
         match o with
         | Some diagnostic => Ret (false, push_diag diagnostic ns)
         | None => Ret (false, ns)
         end
     | (None, false, ns) => Ret (false, ns)
     | (_, _, ns) => Ret (true, ns)
     end) (λ r, same_tables ns r.2)).
  { destruct (eval_constants_ok e ns) as ([[o b] ns1] & -> & Hs & _). cbn in *.
    destruct o as [x|]; [|by destruct b]. destruct x; try done.
    eapply yields_bind; [apply yields_no_fuel, overflow_check_no_fuel|]. intros [d|] _; cbn; [|exact Hs].
    etrans; [exact Hs|apply same_tables_push]. }
  unfold check_term_for_constant_overflow. destruct e; try exact H; by cbn.
Qed.

Definition recurse_ok (e : expression) : Prop := ∀ ns, yields False (recurse e ns) (same_tables ns).
Lemma recurse_correct e : recurse_ok e.
Proof. exact (recurse_visits check_term_for_constant_overflow same_tables check_term_ok e). Qed.
End Recurse.
End ResolverFacts.
