(* ===== verification/Specs.v ===== *)
(** The rules of the resolution of expressions: a call ends, what fails is
    reported, the tables and the context stay what they are. *)
From S2P Require Import Prelude BigIntSpec Ast Types Eval Pt TypeNames SymTable Casts Names Resolver.
From S2P Require Import Typed CastFacts ResolverFacts.
#[local] Set Warnings "-register-all".

Module Specs.
Import Casts Names Resolver Typed CastFacts ResolverFacts.

(** Counting with the least gain of a failure. *)
Ltac glia :=
  let H := fresh "Hgain" in
  destruct gain_cases as [H|H]; rewrite ?H in *;
  repeat match goal with K : context [gain] |- _ => lazymatch K with H => fail | _ => rewrite H in K end end; cbn in *; lia.

Section Rules.
Context {CS : Constants} {ST : Strict}.

(** ** States that a call can leave *)

Definition count (s : state) : nat := length (contents (st_diags s)).

(** The tables differ in their marks, the diagnostics have more at their end. *)
Record later (s s' : state) : Prop := {
  l_tables : same_static (st_ns s, st_sym s) (st_ns s', st_sym s');
  l_ctx : st_ctx s = st_ctx s';
  l_diags : grown (st_diags s) (st_diags s');
}.
#[global] Instance later_pre : PreOrder later.
Proof.
  split; [by intros s; split|]. intros s s1 s2 [? ? ?] [? ? ?].
  split; [by etrans|congruence|by etrans].
Qed.
Lemma later_count s s' : later s s' → (count s ≤ count s')%nat.
Proof. intros H. unfold count. by apply prefix_length, l_diags. Qed.
Lemma later_wf s s' : later s s' → wf_ns (st_ns s) → wf_ns (st_ns s').
Proof. intros [[Hn _] _ _]. by apply wf_ns_same. Qed.
Lemma later_diags s d : grown (st_diags s) d → later s (with_diags d s).
Proof. by intros Hd; split. Qed.

(** ** Calls

    From a state with sound declarations: the call ends; a result satisfies
    [Q]; a failure leaves at least [n] diagnostics and what a failure gains,
    where at least [n] have been reported before. *)
Definition ok {A} (n : nat) (m : R A) (s : state) (Q : A → state → Prop) : Prop :=
  wf_ns (st_ns s) → (n ≤ count s)%nat →
  match m s with
  | Ret (Some a, s') => later s s' ∧ Q a s'
  | Ret (None, s') => later s s' ∧ (n + gain ≤ count s')%nat
  | Panic => True
  | OutOfFuel => False
  end.
Definition spec {A} (m : R A) (Q : A → Prop) : Prop := ∀ n s, ok n m s (λ a _, Q a).

Lemma ok_return {A} n (a : A) s (Q : A → state → Prop) : Q a s → ok n (mret a) s Q.
Proof. by intros HQ Hw Hn. Qed.
Lemma ok_seq {A B} n (m : R A) (f : A → R B) s P Q :
  (∀ k, ok k m s P) → (∀ a s', later s s' → P a s' → ok n (f a) s' Q) → ok n (m ≫= f) s Q.
Proof.
  intros Hm Hf Hw Hn. unfold mbind, R_bind. specialize (Hm (count s) Hw ltac:(done)).
  destruct (m s) as [[[a|] s1]| |]; cbn in *; try done.
  - destruct Hm as [Hl Ha]. specialize (Hf a s1 Hl Ha (later_wf _ _ Hl Hw)). pose proof (later_count _ _ Hl).
    specialize (Hf ltac:(glia)). destruct (f a s1) as [[[b|] s2]| |]; try done.
    all: destruct Hf; split; [by etrans|done].
  - destruct Hm. split; [done|glia].
Qed.
Lemma ok_mono {A} n (m : R A) s (P Q : A → state → Prop) :
  ok n m s P → (∀ a s', later s s' → P a s' → Q a s') → ok n m s Q.
Proof.
  intros Hm HQ Hw Hn. specialize (Hm Hw Hn). destruct (m s) as [[[a|] s1]| |]; try done.
  destruct Hm. split; auto.
Qed.
Lemma ok_bound {A} n (m : R A) s Q : ((n ≤ count s)%nat → ok n m s Q) → ok n m s Q.
Proof. intros H Hw Hn. by apply H. Qed.
Lemma ok_err {A} n s (Q : A → state → Prop) : (n + gain ≤ count s)%nat → ok n err s Q.
Proof. intros H Hw Hn. by split. Qed.
Lemma ok_fail {A} n d s (Q : A → state → Prop) : ok n (fail d) s Q.
Proof.
  intros Hw Hn. split; [apply later_diags, grown_push|]. unfold count in *. cbn. rewrite length_app. cbn. glia.
Qed.
Lemma ok_report n d s Q : (∀ s', count s' = S (count s) → Q tt s') → ok n (push d) s Q.
Proof.
  intros HQ Hw Hn. split; [apply later_diags, grown_push|]. apply HQ. unfold count. cbn. rewrite length_app. cbn. glia.
Qed.
Lemma ok_extend n e s Q :
  counted e → (∀ s', (count s' = count s + length (contents e))%nat → Q tt s') → ok n (extend e) s Q.
Proof. intros He HQ Hw Hn. split; [by apply later_diags, grown_extend|]. apply HQ. unfold count. cbn. by rewrite length_app. Qed.
Lemma ok_extend_non_casting n e s :
  ok n (extend_non_casting e) s (λ b s', b = true → (count s + gain ≤ count s')%nat).
Proof.
  intros Hw Hn. unfold extend_non_casting. cbn. split; [apply later_diags, grown_non_casting|].
  unfold Diags.extend_non_casting. destruct (filter _ _) as [|x l]; cbn; [done|]. intros _. unfold count. cbn.
  rewrite length_app. cbn. glia.
Qed.
Lemma ok_try {A} n (m : R A) s Q :
  spec m Q → ok n (try m) s (λ o s', match o with Some a => Q a | None => (count s + gain ≤ count s')%nat end).
Proof.
  intros Hm Hw Hn. unfold try. specialize (Hm (count s) s Hw ltac:(done)).
  by destruct (m s) as [[[a|] s1]| |].
Qed.

(** ** Calls whose result does not depend on the state *)

Lemma spec_ok {A} n (m : R A) s Q : spec m Q → ok n m s (λ a _, Q a).
Proof. intros H. apply H. Qed.
Lemma spec_ret {A} (a : A) (Q : A → Prop) : Q a → spec (mret a) Q.
Proof. intros HQ n s. by apply ok_return. Qed.
Lemma spec_bind {A B} (m : R A) (f : A → R B) P Q : spec m P → (∀ a, P a → spec (f a) Q) → spec (m ≫= f) Q.
Proof. intros Hm Hf n s. eapply ok_seq; [intros k; apply Hm|]. intros a s' _ Ha. by apply Hf. Qed.
Lemma spec_mono {A} (m : R A) (P Q : A → Prop) : spec m P → (∀ a, P a → Q a) → spec m Q.
Proof. intros Hm HQ n s. eapply ok_mono; [apply Hm|]. auto. Qed.
Lemma spec_fail {A} d (Q : A → Prop) : spec (fail d) Q.
Proof. intros n s. apply ok_fail. Qed.
Lemma spec_push d : spec (push d) (λ _, True).
Proof. intros n s. by apply ok_report. Qed.
Lemma spec_extend_then {A} e (Q : A → Prop) : counted e → contents e ≠ [] → spec (_ ← extend e; err) Q.
Proof.
  intros Hc He n s. intros Hw Hn. cbn. split; [by apply later_diags, grown_extend|]. unfold count in *. cbn. rewrite length_app.
  destruct (contents e); [done|]. cbn. glia.
Qed.
Lemma spec_lift {A} (m : comp A) Q : yields False m Q → spec (lift m) Q.
Proof. intros Hm n s Hw Hn. unfold lift. by destruct m. Qed.
Lemma spec_read_ns {A} (f : Namespace → comp A) Q : (∀ ns, wf_ns ns → yields False (f ns) Q) → spec (read_ns f) Q.
Proof. intros Hf n s Hw Hn. unfold read_ns. specialize (Hf _ Hw). by destruct (f (st_ns s)). Qed.
Lemma spec_get_ns : spec get_ns wf_ns.
Proof. by intros n s Hw Hn. Qed.
Lemma spec_get_ctx : spec get_ctx (λ _, True).
Proof. by intros n s Hw Hn. Qed.
Lemma spec_get_sym : spec get_sym (λ _, True).
Proof. by intros n s Hw Hn. Qed.
Lemma spec_of_evals {A} (m : Namespace → sema A) Q : (∀ ns, wf_ns ns → evals (m ns) Q) → spec (of_sema m) Q.
Proof.
  intros Hm n s Hw Hn. unfold of_sema. specialize (Hm _ Hw (st_diags s)).
  destruct (m _ _) as [[[a|] d]| |]; cbn; try done.
  - destruct Hm as [Ha ->]. split; [|done]. by destruct s.
  - destruct Hm as [(x & _ & ->)|[Hg ->]].
    + split; [apply later_diags, grown_push|]. unfold count in *. cbn. rewrite length_app. cbn. glia.
    + split; [by destruct s|]. unfold count in *. cbn. glia.
Qed.
Lemma spec_of_sema {A} (m : Namespace → sema A) Q : (∀ ns, wf_ns ns → sok (m ns) Q) → spec (of_sema m) Q.
Proof. intros Hm. apply spec_of_evals. intros ns Hw. by apply evals_sok, Hm. Qed.
Lemma spec_use f : marks f → spec (use f) (λ _, True).
Proof.
  intros Hf n s Hw Hn. unfold use. specialize (Hf (st_ns s, st_sym s)).
  destruct (f _) as [[ns t]| |]; cbn in *; try done.
Qed.
Lemma spec_modify_ns f :
  (∀ ns, yields False (f ns) (λ ns', unmarked ns = unmarked ns' ∧ grown (diagnostics ns) (diagnostics ns'))) →
  spec (modify_ns f) (λ _, True).
Proof.
  intros Hf n s Hw Hn. unfold modify_ns. specialize (Hf (st_ns s)).
  destruct (f _) as [ns| |]; cbn in *; try done. destruct Hf as [Hu Hg]. split; [|done]. split; [|done..]. by split_and!.
Qed.
Lemma spec_as_lvalue {A} (m : R A) Q : spec m Q → spec (as_lvalue m) Q.
Proof.
  intros Hm n s Hw Hn. unfold as_lvalue. specialize (Hm n (with_ctx (set_lvalue true (st_ctx s)) s) Hw Hn).
  destruct (m _) as [[[a|] s1]| |]; cbn in *; try done.
  all: destruct Hm as [[? Hc ?] ?]; (split; [split; try done|done]); cbn in *; rewrite <-Hc; by destruct (st_ctx s).
Qed.
Lemma spec_in_frame {A} c t (m : R A) Q : spec m Q → spec (in_frame c t m) Q.
Proof.
  intros Hm n s Hw Hn. unfold in_frame. specialize (Hm n (mkState (st_ns s) t c (st_diags s)) Hw Hn).
  destruct (m _) as [[[a|] s1]| |]; cbn in *; try done.
  all: destruct Hm as [[(? & ? & ?) ? ?] ?]; (split; [by split|done]).
Qed.

(** Diagnostics collected apart: a failure leaves one more. *)
Definition sunk {A} (d : Diagnostics) (Q : A → Prop) (r : option A * Diagnostics) : Prop :=
  grown d r.2 ∧ match r.1 with Some a => Q a | None => (length (contents d) + gain ≤ length (contents r.2))%nat end.
Lemma spec_sink {A} d (m : R A) Q : spec m Q → spec (sink d m) (sunk d Q).
Proof.
  intros Hm n s Hw Hn. unfold sink. specialize (Hm (length (contents d)) (with_diags d s) Hw ltac:(done)).
  destruct (m _) as [[[a|] s1]| |]; cbn in *; try done.
  all: destruct Hm as [[[? ?] ? ?] HQ]; unfold count in *; cbn in *; by split.
Qed.

(** ** Loops *)

Lemma spec_mapR {A B} (f : A → R B) (P : A → B → Prop) l :
  Forall (λ a, spec (f a) (P a)) l → spec (mapR f l) (Forall2 P l).
Proof.
  induction 1 as [|a l Ha _ IH]; [by apply spec_ret|]. cbn.
  eapply spec_bind; [exact Ha|]. intros b Hb. eapply spec_bind; [exact IH|]. intros bs Hbs. apply spec_ret. by constructor.
Qed.
Lemma spec_mapR_all {A B} (f : A → R B) (P : B → Prop) l :
  (∀ a, a ∈ l → spec (f a) P) → spec (mapR f l) (Forall P).
Proof.
  intros Hf. eapply spec_mono; [apply (spec_mapR f (λ _, P)), Forall_forall, Hf|]. clear Hf. intros k Hk.
  induction Hk; by constructor.
Qed.
Lemma ok_foldR {A B} (f : B → A → R B) (I : B → state → Prop) l b s n :
  I b s → (∀ b a s k, a ∈ l → I b s → ok k (f b a) s I) → ok n (foldR f b l) s I.
Proof.
  revert b s n. induction l as [|a l IH]; intros b s n Hb Hf; [by apply ok_return|]. cbn.
  eapply ok_seq; [intros k; apply Hf; [by left|done]|]. intros b' s' _ Hb'. apply IH; [done|].
  intros; apply Hf; [by right|done].
Qed.
Lemma spec_foldR {A B} (f : B → A → R B) (I : B → Prop) l b :
  I b → (∀ b a, a ∈ l → I b → spec (f b a) I) → spec (foldR f b l) I.
Proof.
  intros Hb Hf n s. apply ok_foldR; [done|]. intros. by apply Hf.
Qed.

Lemma elem_of_seen {A} seen (a : A) l : seen ++ [a] `prefix_of` l → a ∈ l.
Proof. intros H. eapply elem_of_prefix; [|done]. apply elem_of_app. right. by left. Qed.
(** A loop whose invariant speaks of the elements that it has seen. *)
Lemma ok_foldR_seen {A B} (f : B → A → R B) (I : list A → B → state → Prop) l b s n :
  I [] b s → (∀ seen a b s k, seen ++ [a] `prefix_of` l → I seen b s → ok k (f b a) s (I (seen ++ [a]))) →
  ok n (foldR f b l) s (I l).
Proof.
  intros Hb Hf. assert (H : ∀ l' seen b s n, l = seen ++ l' → I seen b s → ok n (foldR f b l') s (I l)).
  { clear b s n Hb. induction l' as [|a l' IH]; intros seen b s n -> Hb.
    - rewrite app_nil_r. by apply ok_return.
    - cbn. eapply ok_seq; [intros k; apply Hf; [|done]; exists l'; by rewrite <-app_assoc|].
      intros b' s' _ Hb'. apply IH with (seen ++ [a]); [by rewrite <-app_assoc|done]. }
  by apply H with [].
Qed.

(** A flag that is set when something has been reported since [c] diagnostics. *)
Definition flagged (c : nat) (b : bool) (s : state) : Prop := (c ≤ count s)%nat ∧ (b = true → (c + gain ≤ count s)%nat).
Lemma flagged_later c b s s' : later s s' → flagged c b s → flagged c b s'.
Proof. intros Hl [Hc Hb]. apply later_count in Hl. split; [glia|]. intros Ht. specialize (Hb Ht). glia. Qed.
Lemma flagged_grown c b s s' : flagged c b s → (count s + gain ≤ count s')%nat → flagged c true s'.
Proof. intros [Hc _] Hg. split; [glia|]. intros _. glia. Qed.
Lemma flagged_start s : flagged (count s) false s.
Proof. by split. Qed.
Lemma ok_report_flag {A} n d (r : A) s (Q : A → state → Prop) c b :
  flagged c b s → (∀ s', flagged c true s' → Q r s') → ok n (_ ← push d; mret r) s Q.
Proof.
  intros Hf HQ. eapply ok_seq; [intros k; apply (ok_report k d s (λ _ s', count s' = S (count s))); auto|].
  intros [] s' _ Hs. apply ok_return, HQ. eapply flagged_grown; [exact Hf|]. cbn in Hs. glia.
Qed.
Lemma ok_spec {A B} n (m : R A) (f : A → R B) s P Q :
  spec m P → (∀ a s', later s s' → P a → ok n (f a) s' Q) → ok n (m ≫= f) s Q.
Proof. intros Hm. eapply ok_seq. intros k. apply Hm. Qed.

(** ** What every function uses *)

Lemma typed_all l node : Forall typed l → node_ok node → children node = l → typed node.
Proof. intros Hl Hn Hc. constructor; [done|]. rewrite Hc. by apply Forall_forall. Qed.

Definition resolves (rec : Pt.Expression → ResolveTo → R expression) (e : Pt.Expression) : Prop :=
  ∀ to_, spec (rec e to_) typed.

Lemma spec_ty_of e : spec (ty_of e) (λ t, Ex.ty_of e = Ret t).
Proof. apply spec_lift, yields_self, ty_of_no_fuel. Qed.
Lemma pt_loc_no_fuel e : Pt.loc e ≠ OutOfFuel.
Proof. destruct e; try done. apply bind_no_fuel; [apply unwrap_no_fuel|done]. Qed.
Lemma spec_pt_loc e : spec (pt_loc e) (λ _, True).
Proof. apply spec_lift, yields_no_fuel, pt_loc_no_fuel. Qed.
Lemma spec_show t : spec (show t) (λ _, True).
Proof. apply spec_read_ns. intros ns _. apply yields_no_fuel, to_string_no_fuel. Qed.
Lemma spec_unwrap {A} (o : option A) : spec (lift (unwrap o)) (λ a, o = Some a).
Proof. apply spec_lift. destruct o; cbn; naive_solver. Qed.
Lemma spec_panic {A} (Q : A → Prop) : spec (lift Panic) Q.
Proof. apply spec_lift. cbn. naive_solver. Qed.
Lemma spec_lift_self {A} (m : comp A) : m ≠ OutOfFuel → spec (lift m) (λ a, m = Ret a).
Proof. intros Hm. by apply spec_lift, yields_self. Qed.
Lemma spec_read_any {A} (f : Namespace → comp A) : (∀ ns, wf_ns ns → f ns ≠ OutOfFuel) → spec (read_ns f) (λ _, True).
Proof. intros Hf. apply spec_read_ns. intros ns Hw. by apply yields_no_fuel, Hf. Qed.

Section Core.
Context {BI : NumBigInt}.

Lemma spec_cast e loc t : typed e → spec (cast e loc t) (cast_result t).
Proof. intros He. apply spec_of_sema. intros ns _. by apply cast_ok. Qed.
Lemma spec_coerce l ll r rl : spec (coerce l ll r rl) (λ _, True).
Proof. apply spec_of_sema. intros ns _. apply coerce_ok. Qed.
Lemma spec_coerce_number l ll r rl : spec (coerce_number l ll r rl) (λ _, True).
Proof. apply spec_of_sema. intros ns _. apply coerce_number_ok. Qed.
Lemma spec_type_bits t l : spec (type_bits t l) (λ _, True).
Proof. apply spec_of_sema. intros ns _. by apply type_bits_ok. Qed.
Lemma spec_bits t : spec (bits t) (λ _, True).
Proof. apply spec_read_any. intros ns Hw. by apply bits_no_fuel, wf_declared. Qed.
Lemma spec_used e : spec (used e) (λ _, True).
Proof. apply spec_use. apply usage_marks. Qed.
Lemma spec_assigned e : spec (assigned e) (λ _, True).
Proof. apply spec_use. apply usage_marks. Qed.
Lemma spec_use_call e : spec (use (Usage.check_function_call e)) (λ _, True).
Proof. apply spec_use. apply usage_marks. Qed.
Lemma spec_use_both l r : spec (use (Usage.check_var_usage_expression l r)) (λ _, True).
Proof. apply spec_use. apply marks_bind; apply usage_marks. Qed.
Lemma spec_check_overflow e : spec (check_overflow e) (λ _, True).
Proof.
  apply spec_modify_ns. intros ns. eapply yields_mono; [apply recurse_correct|].
  intros ns' [H Hd]. split; [|done]. unfold unmarked. by destruct ns, ns'; cbn in *; simplify_eq.
Qed.
Lemma spec_bigint loc n r : spec (of_sema (λ ns, bigint_to_expression ns loc n r)) typed.
Proof. apply spec_of_sema. intros ns Hw. by apply bigint_to_expression_ok, wf_declared. Qed.
Lemma spec_eval e : typed e → spec (of_sema (λ ns, eval_const_number (eval_fuel ns e) e ns)) (λ _, True).
Proof. intros He. apply spec_of_evals. intros ns Hw. by apply eval_const_ok. Qed.
End Core.
End Rules.

Create HintDb spec.
#[export] Hint Resolve spec_fail spec_ty_of spec_pt_loc spec_show spec_unwrap spec_panic spec_cast spec_coerce
  spec_coerce_number spec_type_bits spec_bits spec_used spec_assigned spec_use_call spec_use_both spec_check_overflow
  spec_bigint spec_eval spec_get_ns spec_get_ctx spec_get_sym spec_push : spec.

#[export] Hint Extern 1 (spec (_ ?e _) _) => match goal with H : resolves _ e |- _ => exact (H _) end : spec.

(** One step of a call: a node around well-typed parts is checked at the end. *)
Ltac spec_leaf := solve [eauto 3 with spec].
Ltac spec_step :=
  lazymatch goal with
  | |- spec (mret _) _ => apply spec_ret; cbv beta
  | |- spec (_ ≫= _) _ => eapply spec_bind; [spec_leaf|]; intros; cbv beta in *
  | |- spec (if ?b then _ else _) _ => destruct b eqn:?
  | |- spec (match ?x with _ => _ end) _ => destruct x eqn:?; simplify_eq/=
  | |- spec (as_lvalue _) _ => apply spec_as_lvalue
  | |- spec _ _ => spec_leaf
  end.
Ltac spec_go := repeat spec_step.

Lemma typed_children `{CS : Constants} e : typed e → ∀ c, c ∈ children e → typed c.
Proof. by destruct 1. Qed.

(** Proves that a node is well typed from its parts. *)
Ltac cast_results := repeat match goal with H : cast_result _ _ |- _ => destruct H end.
Ltac typed_go :=
  cast_results; constructor; [cbn; try done; eauto 6
               |cbn; intros ?; rewrite ?elem_of_cons, ?elem_of_nil; naive_solver].
End Specs.
