(* ===== verification/OperatorsFacts.v ===== *)
(** Operators and assignments give well-typed expressions. *)
From S2P Require Import Prelude BigIntSpec Ast Types Eval Pt TypeNames SymTable Casts Names Resolver.
From S2P Require Import Operators Typed CastFacts ResolverFacts Specs.
#[local] Set Warnings "-register-all".

Module OperatorsFacts.
Import Casts Names Resolver Operators Typed CastFacts ResolverFacts Specs.

Section Facts.
Context {BI : NumBigInt} {CS : Constants} {ST : Strict}.
Context (rec : Pt.Expression → ResolveTo → R expression).

Definition both_typed (p : expression * expression) : Prop := typed p.1 ∧ typed p.2.

Lemma resolve_operands_ok l r a b :
  resolves rec l → resolves rec r → spec (resolve_operands rec l r a b) both_typed.
Proof.
  intros Hl Hr. eapply spec_bind; [apply Hl|]. intros x Hx. eapply spec_bind; [apply Hr|]. intros y Hy. by apply spec_ret.
Qed.
Lemma number_type_ok l r x y : spec (number_type l r x y) (λ _, True).
Proof. unfold number_type. spec_go. Qed.

(** A node with two operands of its type. *)
Definition binary_typed (node : binary_node) : Prop := ∀ loc t l r,
  typed l → typed r → has_ty l t → has_ty r t → typed (node loc t l r).
Lemma cast_operands_ok node loc l r t x y :
  binary_typed node → typed x → typed y → spec (cast_operands node loc l r t x y) typed.
Proof.
  intros Hn Hx Hy. unfold cast_operands. spec_go. cast_results. by apply Hn.
Qed.
#[local] Hint Resolve resolve_operands_ok number_type_ok cast_operands_ok : spec.

Ltac pair_go := match goal with H : both_typed ?p |- _ => destruct p, H; cbn [fst snd] in * end.
Ltac binary_node := intros ????????; typed_go.

Section Operands.
Context (l r : Pt.Expression) (Hl : resolves rec l) (Hr : resolves rec r).

Lemma subtract_ok loc to_ : spec (subtract rec loc l r to_) typed.
Proof.
  unfold subtract. spec_step. pair_go. spec_step. apply cast_operands_ok; [binary_node|done..].
Qed.

Lemma no_field_operator_ok node check loc to_ :
  binary_typed node → (∀ e, spec (check e) (λ _, True)) → spec (no_field_operator rec node check loc l r to_) typed.
Proof.
  intros Hn Hc. unfold no_field_operator. spec_step. pair_go. eapply spec_bind; [apply Hc|]. intros.
  spec_step. spec_step; [apply spec_fail|by apply cast_operands_ok].
Qed.
Lemma not_zero_ok loc what e : spec (not_zero loc what e) (λ _, True).
Proof. unfold not_zero. by spec_go. Qed.

Lemma bitwise_or_ok loc to_ : spec (bitwise_or rec loc l r to_) typed.
Proof. apply no_field_operator_ok; [binary_node|]. intros. by apply spec_ret. Qed.
Lemma bitwise_and_ok loc to_ : spec (bitwise_and rec loc l r to_) typed.
Proof. apply no_field_operator_ok; [binary_node|]. intros. by apply spec_ret. Qed.
Lemma bitwise_xor_ok loc to_ : spec (bitwise_xor rec loc l r to_) typed.
Proof. apply no_field_operator_ok; [binary_node|]. intros. by apply spec_ret. Qed.
Lemma divide_ok loc to_ : spec (divide rec loc l r to_) typed.
Proof. apply no_field_operator_ok; [binary_node|apply not_zero_ok]. Qed.
Lemma modulo_ok loc to_ : spec (modulo rec loc l r to_) typed.
Proof. apply no_field_operator_ok; [binary_node|apply not_zero_ok]. Qed.
Lemma ordering_ok node loc :
  (∀ loc a b t, typed a → typed b → has_ty a t → has_ty b t → typed (node loc a b)) → spec (ordering rec node loc l r) typed.
Proof.
  intros Hn. apply no_field_operator_ok; [|intros; by apply spec_ret]. intros ?? a b ????. by eapply Hn.
Qed.

Lemma cast_shift_arg_ok loc e w t : typed e → spec (cast_shift_arg loc e w t) typed.
Proof. intros He. unfold cast_shift_arg. spec_step. spec_step. repeat case_match; [done|by eapply typed_wrap..]. Qed.
Lemma shift_widths_ok x y : spec (shift_widths l r x y) (λ _, True).
Proof. unfold shift_widths. spec_go. Qed.
#[local] Hint Resolve cast_shift_arg_ok shift_widths_ok : spec.

Lemma shift_left_ok loc to_ : spec (shift_left rec loc l r to_) typed.
Proof.
  unfold shift_left. spec_step. pair_go. spec_go. all: try apply spec_fail. typed_go.
Qed.
Lemma shift_right_ok loc to_ : spec (shift_right rec loc l r to_) typed.
Proof.
  unfold shift_right. spec_step. pair_go. spec_go. all: try apply spec_fail. constructor.
  - cbn. eexists. split; [done|]. apply fits_refl.
  - cbn. intros ?. rewrite ?elem_of_cons, elem_of_nil. naive_solver.
Qed.

Lemma wide_type_ok t : spec (wide_type t) (λ _, True).
Proof.
  unfold wide_type. spec_step. eapply spec_bind; [apply spec_lift, yields_no_fuel; by case_match|]. intros. by spec_go.
Qed.
#[local] Hint Resolve wide_type_ok : spec.

Lemma multiply_ok loc to_ : spec (multiply rec loc l r to_) typed.
Proof.
  unfold multiply. spec_step. pair_go. spec_step. spec_step.
  - spec_step. spec_step. pair_go. spec_step. apply cast_operands_ok; [binary_node|done..].
  - apply cast_operands_ok; [binary_node|done..].
Qed.
Lemma power_ok loc to_ : spec (power rec loc l r to_) typed.
Proof.
  unfold power. spec_step. eapply (spec_bind _ _ typed); [by spec_go|]. intros. spec_step. spec_step.
  spec_step; [apply spec_fail|]. apply cast_operands_ok; [binary_node|done..].
Qed.
Lemma addition_ok loc to_ : spec (addition rec loc l r to_) typed.
Proof.
  unfold addition. spec_step. pair_go. spec_step.
  eapply (spec_bind _ _ both_typed); [spec_step; [spec_step; spec_leaf|by apply spec_ret]|].
  intros [] []. apply cast_operands_ok; [binary_node|done..].
Qed.

(** A comparison of strings, if there is one. *)
Definition comparison (o : option expression) : Prop :=
  match o with Some e => typed e ∧ Ex.ty_of e = Ret Ty.Bool | None => True end.
Lemma is_string_equal_ok loc x lt y rt : typed x → typed y → spec (is_string_equal loc x lt y rt) comparison.
Proof.
  intros Hx Hy. unfold is_string_equal, cast_deref.
  assert (Ha : ∀ v e t, typed e →
    spec (c ← cast e (Ex.loc e) (deref_any t); mret (Some (Ex.StringCompare loc (RunTime c) (CompileTime v)))) comparison).
  { intros v e t He. spec_go. cast_results. split; [|done]. by eapply typed_wrap. }
  assert (Hs : spec (if is_string (deref_any lt) && is_string (deref_any rt)
    then a ← cast x (Ex.loc x) (deref_any lt); b ← cast y (Ex.loc y) (deref_any rt);
         mret (Some (Ex.StringCompare loc (RunTime a) (RunTime b)))
    else mret None) comparison).
  { spec_go; [|done]. split; [typed_go|done]. }
  destruct x, y; try exact Hs; repeat case_match; try exact Hs; by apply Ha.
Qed.

Definition compared (p : expression * expression * ty * ty * option expression) : Prop :=
  let '(x, y, _, _, s) := p in typed x ∧ typed y ∧ comparison s.
Lemma compare_operands_ok loc : spec (compare_operands rec loc l r) compared.
Proof.
  unfold compare_operands. do 5 spec_step. eapply spec_bind; [by apply is_string_equal_ok|]. intros s Hs. by apply spec_ret.
Qed.
Lemma common_type_ok lt rt : spec (common_type l r lt rt) (λ _, True).
Proof. unfold common_type. spec_go. Qed.
#[local] Hint Resolve compare_operands_ok common_type_ok : spec.

Lemma equal_ok loc : spec (equal rec loc l r) typed.
Proof.
  unfold equal. spec_step. destruct a as [[[[x y] lt] rt] [e|]]; destruct H as (? & ? & Hc); [apply spec_ret, Hc|].
  spec_go. typed_go.
Qed.
Lemma not_equal_ok loc : spec (not_equal rec loc l r) typed.
Proof.
  unfold not_equal. spec_step. destruct a as [[[[x y] lt] rt] [e|]]; destruct H as (? & ? & He).
  - apply spec_ret. destruct He. eapply typed_wrap; [done| |done]. by eexists.
  - spec_step. apply cast_operands_ok; [|done..]. intros ????????. typed_go.
Qed.

Lemma logical_ok node loc :
  (∀ loc a b, typed a → typed b → has_ty a Ty.Bool → has_ty b Ty.Bool → typed (node loc a b)) →
  spec (logical rec node loc l r) typed.
Proof. intros Hn. unfold logical. spec_go. cast_results. by apply Hn. Qed.
Lemma conditional_ok c loc to_ : resolves rec c → spec (conditional rec loc c l r to_) typed.
Proof.
  intros Hc. unfold conditional. do 10 spec_step. cast_results. apply cast_operands_ok; [|done..].
  intros ????????. typed_go.
Qed.
End Operands.

Lemma logical_not_ok loc e to_ : resolves rec e → spec (logical_not rec loc e to_) typed.
Proof. intros He. unfold logical_not. spec_go; typed_go. Qed.
Lemma bitwise_not_ok loc e to_ : resolves rec e → spec (bitwise_not rec loc e to_) typed.
Proof. intros He. unfold bitwise_not. spec_go; typed_go. Qed.

(** ** Assignments *)

Lemma constant_name_ok c n : spec (read_ns (constant_name c n)) (λ _, True).
Proof.
  apply spec_read_any. intros ns _. unfold constant_name.
  destruct c; repeat (apply bind_no_fuel; [apply unwrap_no_fuel|intros ? _]); done.
Qed.
#[local] Hint Resolve constant_name_ok : spec.
Lemma assign_to_constant_ok {A} loc c n (Q : A → Prop) : spec (assign_to_constant loc c n) Q.
Proof. unfold assign_to_constant. spec_go. Qed.
Lemma incorrect_variable_ok {A} var n t (Q : A → Prop) : spec (incorrect_variable var n t) Q.
Proof.
  unfold incorrect_variable. spec_step. eapply spec_bind.
  { apply spec_lift_self. unfold SymTable.SymTable.get_name. apply bind_no_fuel; [apply unwrap_no_fuel|done]. }
  intros. spec_go.
Qed.
Lemma incorrect_type_ok {A} var t (Q : A → Prop) : spec (incorrect_type var t) Q.
Proof. unfold incorrect_type. spec_go. Qed.
#[local] Hint Resolve assign_to_constant_ok incorrect_variable_ok incorrect_type_ok : spec.

Lemma refers_deref e t : Ex.ty_of e = Ret t → refers_to e (deref_any t).
Proof. eexists. split; [done|by right]. Qed.
Lemma refers_same e t : Ex.ty_of e = Ret t → refers_to e t.
Proof. eexists. split; [done|by left]. Qed.
Lemma refers_ref e t : Ex.ty_of e = Ret (Ty.Ref t) → refers_to e t.
Proof. apply (refers_deref e (Ty.Ref t)). Qed.
Lemma refers_storage e t : Ex.ty_of e = Ret (Ty.StorageRef t) → refers_to e t.
Proof. apply (refers_deref e (Ty.StorageRef t)). Qed.
#[local] Hint Resolve refers_same refers_ref refers_storage : core.

Lemma incr_decr_ok v op :
  (∀ e t, typed e → number t = true → refers_to e t → typed (op e t)) → resolves rec v → spec (incr_decr rec v op) typed.
Proof.
  intros Hop Hv. unfold incr_decr. apply spec_as_lvalue. do 3 spec_step.
  assert (Hd : spec (modify_place op a a1) typed).
  { unfold modify_place. spec_go; apply Hop; eauto. by destruct t. }
  destruct a; try exact Hd; cbn in *; simplify_eq; spec_go. apply Hop; eauto.
Qed.

Lemma eqb_Ref t : Ty.eqb (Ty.Ref t) t = false.
Proof.
  destruct (Ty.eqb _ _) eqn:H; [|done]. apply Ty.eqb_spec in H. exfalso. induction t; cbn in H; try done.
  apply IHt. cbn in *. congruence.
Qed.
(** A reference to a reference is loaded. *)
Lemma spec_cast_ref e loc t :
  Ex.ty_of e = Ret (Ty.Ref (Ty.Ref t)) → spec (cast e loc (Ty.Ref t)) (λ x, x = Ex.Load loc (Ty.Ref t) e).
Proof.
  intros He. apply spec_of_sema. intros ns _ d. unfold Casts.cast. rewrite He.
  change ((sema_lift (Ret (Ty.Ref (Ty.Ref t))) ≫= λ from, cast_from ns loc (Ty.Ref t) from e) d)
    with (cast_from ns loc (Ty.Ref t) (Ty.Ref (Ty.Ref t)) e d).
  cbn [cast_from]. rewrite eqb_Ref. cbn. by rewrite eqb_refl.
Qed.

(** A node that stores a value where [e] refers to. *)
Lemma assign_node loc u e t v : typed e → refers_to e t → cast_result t v → typed (Ex.Assign loc u e v).
Proof. intros He Ht Hv. typed_go. Qed.

Lemma assign_place_ok loc var var_ty f :
  typed var → Ex.ty_of var = Ret var_ty → (∀ t, spec (f t) (cast_result t)) → spec (assign_place loc var var_ty f) typed.
Proof.
  intros Hv Ht Hf.
  assert (Hs : ∀ r u, refers_to var r → spec (v ← f r; mret (Ex.Assign loc u var v)) typed).
  { intros r u Hr. eapply spec_bind; [apply Hf|]. intros. by eapply spec_ret, assign_node. }
  destruct var_ty; try apply spec_fail; [|apply Hs; eauto].
  destruct var_ty; try (apply Hs; eauto). cbn [assign_place].
  eapply spec_bind; [by apply spec_cast_ref|]. intros ? ->. eapply spec_bind; [apply Hf|]. intros.
  apply spec_ret. eapply assign_node; [by eapply typed_wrap|by apply refers_ref|done].
Qed.
Lemma assign_single_ok loc l r : resolves rec l → resolves rec r → spec (assign_single rec loc l r) typed.
Proof.
  intros Hl Hr. unfold assign_single. apply spec_as_lvalue. do 6 spec_step. rename a into var, a1 into var_ty, a2 into val.
  assert (Hv : ∀ t, spec (r_loc ← pt_loc r; cast val r_loc t) (cast_result t)) by (intros; spec_go).
  assert (Hd : spec (assign_place loc var var_ty (λ t, r_loc ← pt_loc r; cast val r_loc t)) typed)
    by (by apply assign_place_ok).
  assert (Hs : ∀ t u loc, refers_to var t →
    spec (v ← (r_loc ← pt_loc r; cast val r_loc t); mret (Ex.Assign loc u var v)) typed).
  { intros t u loc' Ht. eapply spec_bind; [apply Hv|]. intros. by eapply spec_ret, assign_node. }
  destruct var; try exact Hd; [by apply Hs, refers_same|spec_leaf|]. by apply Hs, refers_deref.
Qed.

(** ** Compound assignments *)

Lemma assign_value_ok o loc l r set set_type x t :
  typed set → typed x → has_ty x t → spec (assign_value o loc l r set set_type x t) (λ v, typed v ∧ Ex.ty_of v = Ret t).
Proof.
  intros Hs Hx Ht. unfold assign_value. eapply (spec_bind _ _ (λ v, typed v ∧ (is_shift o = false → has_ty v t))).
  - destruct (is_shift o) eqn:?; spec_go.
    + split; [|done]. destruct (_ =? _)%Z; [done|]. destruct (_ <? _)%Z; by apply (typed_wrap set).
    + eapply spec_mono; [by apply spec_cast|]. intros v [? ?]. by split.
  - intros v [Hv Hvt]. destruct o; cbn in Hvt; try specialize (Hvt eq_refl).
    all: try (eapply spec_bind; [apply not_zero_ok|]; intros).
    all: apply spec_ret; split; [typed_go|done].
Qed.

Lemma assign_exact loc u e t v : typed e → refers_to e t → typed v ∧ Ex.ty_of v = Ret t → typed (Ex.Assign loc u e v).
Proof. intros He Ht [Hv Hvt]. eapply assign_node; [done..|]. by apply exact_result. Qed.
Lemma has_ty_exact e t : Ex.ty_of e = Ret t → has_ty e t.
Proof. intros H. exists t. split; [done|apply fits_refl]. Qed.

Section Store.
Context (loc : Loc) (var : expression) (op : expression → ty → R expression).
Context (Hop : ∀ x t, typed x → has_ty x t → spec (op x t) (λ v, typed v ∧ Ex.ty_of v = Ret t)).
Context (Hv : typed var).

Lemma store_value u r : refers_to var r →
  spec (c ← cast var loc r; v ← op c r; mret (Ex.Assign loc u var v)) typed.
Proof.
  intros Hr. spec_step. cast_results. eapply spec_bind; [by apply Hop|]. intros. by eapply spec_ret, assign_exact.
Qed.
Lemma store_place_ok var_ty : Ex.ty_of var = Ret var_ty → spec (store_place loc var var_ty op) typed.
Proof.
  intros Ht. unfold store_place. destruct var_ty; try spec_leaf.
  - spec_step; [by apply store_value, refers_ref|].
    destruct var_ty; try spec_leaf. destruct var_ty; try spec_leaf.
    eapply spec_bind; [by apply spec_cast_ref|]. intros ? ->. spec_step. cast_results.
    eapply spec_bind; [by apply Hop|]. intros. apply spec_ret. eapply assign_exact; [|by apply refers_ref|done].
    by apply (typed_wrap var).
  - spec_step; [by apply store_value, refers_storage|spec_leaf].
Qed.
Lemma store_through_ok var_ty : Ex.ty_of var = Ret var_ty → spec (store_through loc var var_ty op) typed.
Proof.
  intros Ht. pose proof (store_place_ok _ Ht) as Hd. destruct var; try exact Hd; [|spec_leaf].
  cbn [store_through]. spec_step; [|spec_leaf]. eapply spec_bind; [by apply Hop, has_ty_exact|]. intros.
  eapply spec_ret, assign_exact; [done|by apply refers_same|done].
Qed.
End Store.

Lemma assign_expr_ok o loc l r : resolves rec l → resolves rec r → spec (assign_expr rec o loc l r) typed.
Proof.
  intros Hl Hr. unfold assign_expr. apply spec_as_lvalue. do 4 spec_step; [spec_leaf|]. do 3 spec_step.
  apply store_through_ok; [|done|done]. intros. by apply assign_value_ok.
Qed.
End Facts.
End OperatorsFacts.
