(* ===== verification/AccessFacts.v ===== *)
(** Variables, members, elements and composed values are resolved to
    well-typed expressions. *)
From S2P Require Import Prelude BigIntSpec Ast Types Eval Pt TypeNames SymTable Casts Names Resolver.
From S2P Require Import Literals Operators Access Typed CastFacts ResolverFacts Specs.
#[local] Set Warnings "-register-all".

Module AccessFacts.
Import ParseDepth Casts Names Resolver Operators Access Typed CastFacts ResolverFacts Specs.

Lemma bind_unwrap_no_fuel {A B} (o : option A) (f : A → comp B) : (∀ a, f a ≠ OutOfFuel) → unwrap o ≫= f ≠ OutOfFuel.
Proof. intros Hf. apply bind_no_fuel; [apply unwrap_no_fuel|]. intros a _. apply Hf. Qed.

Lemma is_fixed_no_fuel t : is_fixed_reference_type t ≠ OutOfFuel.
Proof. by destruct t. Qed.
Lemma array_elem_no_fuel t : array_elem t ≠ OutOfFuel.
Proof. destruct t; try done. cbn. by repeat case_match. Qed.
Lemma storage_array_elem_no_fuel t : storage_array_elem t ≠ OutOfFuel.
Proof. induction t; try done. cbn. by repeat case_match. Qed.
Lemma array_deref_no_fuel t : array_deref t ≠ OutOfFuel.
Proof. induction t; try done. cbn. by repeat case_match. Qed.
Lemma get_struct_no_fuel ns n : get_struct ns n ≠ OutOfFuel.
Proof. apply unwrap_no_fuel. Qed.

Lemma available_functions_no_fuel ns n c : available_functions ns n c ≠ OutOfFuel.
Proof.
  destruct c as [c|]; [|done]. apply bind_unwrap_no_fuel. intros k. apply foldM_no_fuel. intros a b _.
  by apply bind_unwrap_no_fuel.
Qed.

Section Facts.
Context {BI : NumBigInt} {CS : Constants} {ST : Strict}.
Context (rec : Pt.Expression → ResolveTo → R expression).
Context (rec_type : nat → option nat → Pt.Expression → R ty).

Lemma spec_is_fixed t : spec (lift (is_fixed_reference_type t)) (λ _, True).
Proof. apply spec_lift, yields_no_fuel, is_fixed_no_fuel. Qed.
Lemma spec_storage_array_elem t : spec (lift (storage_array_elem t)) (λ r, storage_array_elem t = Ret r).
Proof. apply spec_lift_self, storage_array_elem_no_fuel. Qed.
Lemma spec_array_deref t : spec (lift (array_deref t)) (λ _, True).
Proof. apply spec_lift, yields_no_fuel, array_deref_no_fuel. Qed.
Lemma spec_array_elem t : spec (lift (array_elem t)) (λ _, True).
Proof. apply spec_lift, yields_no_fuel, array_elem_no_fuel. Qed.
Lemma spec_get_struct n : spec (read_ns (λ ns, get_struct ns n)) (λ _, True).
Proof. apply spec_read_any. intros. apply get_struct_no_fuel. Qed.
Lemma spec_available ns n c : spec (lift (available_functions ns n c)) (λ _, True).
Proof. apply spec_lift, yields_no_fuel, available_functions_no_fuel. Qed.
#[local] Hint Resolve spec_is_fixed spec_storage_array_elem spec_array_deref spec_array_elem spec_get_struct
  spec_available : spec.

(** ** Variables *)

Lemma typed_constant ns loc t c n k v :
  wf_ns ns → contracts ns !! c = Some k → variables k !! n = Some v → v_constant v = true →
  typed (Ex.ConstantVariable loc t (Some c) n).
Proof. intros Hw Hk Hv Hc. apply typed_leaf; [|done]. apply (wf_constants _ Hw). by exists k, v. Qed.
Lemma typed_global ns loc t n : wf_ns ns → typed (Ex.ConstantVariable loc t None n).
Proof. intros Hw. apply typed_leaf; [|done]. by apply (wf_constants _ Hw). Qed.

Lemma variable_ok i to_ : spec (variable i to_) typed.
Proof.
  unfold variable. do 2 spec_step. destruct (SymTable.SymTable.find _ _); [spec_go; by apply typed_leaf|].
  eapply spec_bind; [apply spec_get_ns|]. intros ns Hw. destruct (resolve_var _ _ _ _ _) as [[]|]; try spec_leaf.
  - spec_step. eapply spec_bind.
    { eapply (spec_mapR _ (λ _, typed)), Forall_forall. intros. spec_go. by apply typed_leaf. }
    intros fs Hfs. destruct fs as [|e []]; try spec_leaf. apply spec_ret. by inversion Hfs; subst.
  - destruct contract_no0 as [c|]; [|spec_step; apply spec_ret; eapply typed_global; eassumption].
    eapply spec_bind; [apply spec_unwrap|]. intros k Hk. eapply spec_bind; [apply spec_unwrap|]. intros v Hv.
    destruct (v_constant v) eqn:Hc; [apply spec_ret; exact (typed_constant ns _ _ _ _ _ _ Hw Hk Hv Hc)|]. spec_step; [spec_leaf|].
    apply spec_ret. by apply typed_leaf.
Qed.

(** ** Elements *)

(** A loaded index has an unsigned type. *)
Definition index_ok (e : expression) : Prop := typed e ∧ ∃ n, has_ty e (Ty.Uint n).
Lemma unsigned_index_ok what loc e b : resolves rec e → spec (unsigned_index rec what loc e b) index_ok.
Proof.
  intros He. unfold unsigned_index. do 2 spec_step. eapply (spec_bind _ _ (λ _, True)); [destruct b; by spec_go|]. intros.
  spec_step; [|spec_go]. eapply (spec_bind _ _ (λ _, True)); [destruct b; by spec_go|]. intros.
  eapply spec_mono; [by apply spec_cast|]. intros x [? ?]. split; [done|]. destruct (deref_any a0); try done. eauto.
Qed.
Lemma memory_array_ok a t : typed a → spec (memory_array a t) typed.
Proof. intros Ha. unfold memory_array. spec_step. eapply spec_mono; [by apply spec_cast|]. by intros ? []. Qed.
#[local] Hint Resolve unsigned_index_ok memory_array_ok : spec.

Lemma subscript_node loc t array_ty a i :
  typed a → typed i → (is_storage_bytes array_ty = true → t = Ty.Uint 32) →
  match deref_any array_ty with Ty.Mapping key _ _ _ => has_ty i key | _ => ∃ n, has_ty i (Ty.Uint n) end →
  typed (Ex.Subscript loc t array_ty a i).
Proof.
  intros Ha Hi Hb Hk. constructor; [done|]. cbn. intros c. rewrite !elem_of_cons, elem_of_nil. naive_solver.
Qed.
Lemma storage_bytes_elem t elem : storage_array_elem t = Ret elem → is_storage_bytes t = true → elem = Ty.Uint 32.
Proof. destruct t; try discriminate. cbn. destruct t; try discriminate. cbn. congruence. Qed.
Lemma storage_bytes_contract t : is_storage_bytes t = true → is_contract_storage t = true.
Proof. by destruct t. Qed.
Lemma mapping_subscript_ok loc m index : typed m → resolves rec index → spec (mapping_subscript rec loc m index) typed.
Proof.
  intros Hm Hi. unfold mapping_subscript. do 2 spec_step. destruct (deref_any a) eqn:Hd; try spec_leaf.
  do 3 spec_step. cast_results. apply spec_ret, subscript_node; [done|done| |by rewrite Hd].
  intros Hb. destruct a; try done. by destruct a.
Qed.
Lemma array_subscript_ok loc array index :
  resolves rec array → resolves rec index → spec (array_subscript rec loc array index) typed.
Proof.
  intros Ha Hi. unfold array_subscript. do 2 spec_step. spec_step; [by apply mapping_subscript_ok|]. spec_step.
  destruct H1 as [Hi1 Hi2]. spec_step; [|spec_leaf].
  assert (Hm : match deref_any a0 with Ty.Mapping key _ _ _ => has_ty a1 key | _ => ∃ n, has_ty a1 (Ty.Uint n) end)
    by (destruct (deref_any a0); first [exact Hi2|discriminate]).
  spec_step.
  - spec_step. apply spec_ret, subscript_node; [exact H|exact Hi1| |exact Hm].
    intros Hb. by eapply storage_bytes_elem.
  - do 2 spec_step. apply spec_ret, subscript_node; [assumption|exact Hi1| |exact Hm].
    intros Hb. apply storage_bytes_contract in Hb. congruence.
Qed.

Lemma optional_ok {A} (f : A → R expression) o :
  (∀ a, o = Some a → spec (f a) index_ok) → spec (optional f o) (λ r, ∀ i, i ∈ opt_list r → index_ok i).
Proof.
  intros Hf. destruct o as [a|]; cbn; [|apply spec_ret; intros i Hi; inversion Hi].
  eapply spec_bind; [by apply Hf|]. intros b Hb. apply spec_ret.
  by intros i ->%list_elem_of_singleton.
Qed.
Lemma array_slice_ok loc array from to_ :
  resolves rec array → (∀ e, from = Some e → resolves rec e) → (∀ e, to_ = Some e → resolves rec e) →
  spec (array_slice rec loc array from to_) typed.
Proof.
  intros Ha Hf Ht. unfold array_slice. do 2 spec_step. spec_step; [spec_leaf|].
  eapply spec_bind; [apply optional_ok; intros; by apply unsigned_index_ok, Hf|]. intros s Hs.
  eapply spec_bind; [apply optional_ok; intros; by apply unsigned_index_ok, Ht|]. intros e He.
  spec_step; [|spec_leaf]. spec_step; [spec_leaf|]. do 2 spec_step. apply spec_ret. constructor.
  - cbn. intros i [?|?]%elem_of_app; [by apply Hs|by apply He].
  - cbn. intros c. rewrite elem_of_cons, elem_of_app. intros [->|[?|?]]; [done|by apply Hs|by apply He].
Qed.

(** ** Members *)

Definition typed_option (o : option expression) : Prop := match o with Some e => typed e | None => True end.

Lemma find_lookup {A} (p : A → bool) l i a : find p l = Some (i, a) → l !! i = Some a.
Proof.
  assert (H : ∀ n, find_at p n l = Some (i, a) → (n ≤ i)%nat ∧ l !! (i - n)%nat = Some a).
  { induction l as [|x l IH]; intros n Hf; [done|]. cbn in Hf. destruct (p x).
    - simplify_eq. by rewrite Nat.sub_diag.
    - destruct (IH _ Hf) as [Hn Hl]. split; [lia|]. by replace (i - n)%nat with (S (i - S n)) by lia. }
  intros Hf. destruct (H 0%nat Hf) as [_ Hl]. by rewrite Nat.sub_0_r in Hl.
Qed.
Lemma enum_value_ok loc e i file contract ns : spec (enum_value loc e i file contract ns) typed_option.
Proof.
  unfold enum_value. destruct (enum_path e []) as [l|]; [|by apply spec_ret].
  destruct (drop_imports ns file l) as [f [|n rest]]; [by apply spec_ret|].
  destruct (match resolve_contract ns f n with Some no => _ | None => _ end) as [c [|name []]]; try by apply spec_ret.
  destruct (resolve_enum ns f c name); [|by apply spec_ret]. spec_step. spec_step; [|spec_leaf].
  destruct p. apply spec_ret. by apply typed_leaf.
Qed.
Lemma decl_read_marks c n ns :
  yields False (Usage.update_contract_var Usage.decl_read c n ns)
    (λ ns', unmarked ns = unmarked ns' ∧ grown (diagnostics ns) (diagnostics ns')).
Proof.
  pose proof (update_contract_marks Usage.decl_read c n ltac:(by intros []) (ns, SymTable.SymTable.new)) as H.
  unfold Usage.in_ns in H. cbn [fst snd] in H. destruct (Usage.update_contract_var _ _ _ _); [destruct H as (? & _ & ?); by split|exact H|exact H].
Qed.
Lemma contract_constant_ok loc e i file to_ : spec (contract_constant loc e i file to_) typed_option.
Proof.
  destruct e; try by apply spec_ret. cbn. spec_step. eapply spec_bind; [apply spec_get_ns|]. intros ns Hw.
  destruct (SymTable.SymTable.find _ _); [by apply spec_ret|].
  destruct (resolve_contract _ _ _) as [c|]; [|by apply spec_ret]. eapply spec_bind; [apply spec_unwrap|]. intros k Hk.
  destruct (find _ _) as [[m v]|] eqn:Hf; [|by apply spec_ret]. apply find_lookup in Hf.
  destruct (v_constant v) eqn:Hc; [|spec_step; [by apply spec_ret|spec_leaf]].
  eapply spec_bind; [apply spec_modify_ns, decl_read_marks|]. intros. apply spec_ret. exact (typed_constant ns _ _ _ _ _ _ Hw Hk Hf Hc).
Qed.
Lemma struct_field_ok n f i : spec (struct_field n f i) (λ _, True).
Proof. unfold struct_field. by spec_go. Qed.
#[local] Hint Resolve enum_value_ok contract_constant_ok struct_field_ok : spec.

Lemma builtin_member_ok loc i e t : typed e → spec (builtin_member loc i e t) typed.
Proof.
  intros He. assert (Hl : spec (mret (lib_length loc e)) typed) by (apply spec_ret; typed_go).
  assert (Hs : spec (et ← ty_of e; elem ← lift (storage_array_elem et);
      mret (Ex.StorageArrayLength (id_loc i) (Ty.Uint 32) e (deref_into elem))) typed)
    by (do 2 spec_step; apply spec_ret; typed_go).
  unfold builtin_member. destruct t as [| | | | | | | | | | | | |t| | | | | | | |]; try spec_leaf;
    try (spec_step; [assumption|spec_leaf]).
  - spec_step; [|spec_leaf]. spec_step. destruct a; [|exact Hl|spec_leaf]. do 3 spec_step.
  - destruct t; try spec_leaf; try (spec_step; [assumption|spec_leaf]).
    eapply spec_bind; [apply struct_field_ok|]. intros [k f] _. apply spec_ret. typed_go.
Qed.
#[local] Hint Resolve builtin_member_ok : spec.

Lemma member_access_ok loc e i to_ : resolves rec e → spec (member_access rec loc e i to_) typed.
Proof.
  intros He. unfold member_access. set (m := ctx ← get_ctx; _).
  assert (Hm : spec m typed).
  { subst m. do 2 spec_step. eapply spec_bind; [apply enum_value_ok|]. intros [x|] Hx; [by apply spec_ret|].
    eapply spec_bind; [apply contract_constant_ok|]. intros [y|] Hy; [by apply spec_ret|]. do 2 spec_step.
    assert (Hb : spec (match a2 with
      | Ty.Ref r => builtin_member loc i (Ex.Load loc a2 a1) r | _ => builtin_member loc i a1 a2 end) typed).
    { destruct a2; apply builtin_member_ok; try assumption. typed_go. }
    destruct (deref_memory a2); try exact Hb.
    eapply spec_bind; [apply struct_field_ok|]. intros [k f] _. apply spec_ret. typed_go. }
  destruct e; exact Hm.
Qed.

(** ** New arrays *)

Lemma new_array_ok loc e args :
  (∀ f c, spec (rec_type f c (match Pt.remove_parenthesis e with Pt.New _ t => t | _ => e end)) (λ _, True)) →
  Forall (resolves rec) args → spec (new rec rec_type loc e args) typed.
Proof.
  intros Ht Ha. unfold new. spec_step. eapply spec_bind; [apply Ht|]. intros t _.
  eapply (spec_bind _ _ (λ _, True)).
  { destruct t; try (spec_step; spec_leaf); try by apply spec_ret. spec_step; [|by apply spec_ret]. by spec_go. }
  intros _ _. destruct args as [|x []]; try spec_leaf. apply Forall_inv in Ha. do 4 spec_step.
  spec_step; [|spec_leaf]. spec_step. cast_results. apply spec_ret. typed_go.
Qed.

(** ** Struct literals *)

Lemma struct_literal_ok loc n args : Forall (resolves rec) args → spec (struct_literal rec loc n args) typed.
Proof.
  intros Ha. unfold struct_literal. spec_step. spec_step; [|spec_leaf].
  eapply spec_bind.
  { apply (spec_mapR_all _ typed). intros [x f] Hx%elem_of_zip_l. pose proof (proj1 (Forall_forall _ _) Ha x Hx).
    do 2 spec_step. eapply spec_mono; [by apply spec_cast|]. by intros ? []. }
  intros values Hv. apply spec_ret. by eapply typed_all.
Qed.
Lemma named_struct_literal_ok loc n args :
  (∀ a, a ∈ args → resolves rec (Pt.na_expr a)) → spec (named_struct_literal rec loc n args) typed.
Proof.
  intros Ha. unfold named_struct_literal. spec_step. spec_step; [|spec_leaf]. eapply (spec_bind _ _ (Forall typed)).
  { apply spec_foldR.
    - apply Forall_replicate. by apply typed_leaf.
    - intros values x Hx Hv. pose proof (Ha x Hx). destruct (find _ _) as [[i f]|]; [|spec_leaf].
      do 3 spec_step. cast_results. apply spec_ret. by apply Forall_insert. }
  intros values Hv. apply spec_ret. by eapply typed_all.
Qed.

(** ** Array literals *)

Lemma typed_cast e loc t : typed e → spec (cast e loc t) typed.
Proof. intros. eapply spec_mono; [by apply spec_cast|]. by intros ? []. Qed.

Definition elements_in (k : nat) (r : list nat * list Pt.Expression) : Prop := ∀ e, e ∈ r.2 → (depth e ≤ k)%nat.
Lemma elements_in_S k r : elements_in k r → elements_in (S k) r.
Proof. intros H e He. specialize (H e He). lia. Qed.

Lemma check_subarrays_ok k l es :
  (max_list (depth <$> es) ≤ k)%nat → spec (check_subarrays (Pt.ArrayLiteral l es)) (elements_in k).
Proof.
  revert l es. induction k as [|k IH]; intros l es Hk; pose proof (proj1 (max_list_le _ _ _) Hk) as Hes.
  - destruct es as [|e es]; [apply spec_bind with (λ _, True); [by apply spec_ret|intros; apply spec_ret; intros x Hx; inversion Hx]|].
    exfalso. specialize (Hes e ltac:(by left)). destruct e; cbn in Hes; lia.
  - assert (Hflat : spec (_ ← foldR (λ i e,
          match e with
          | Pt.ArrayLiteral l _ =>
              fail (Diag.error l ("array elements should be of the type, element " +:+ pretty (i + 1)%nat
                                  +:+ " is unexpected array"))
          | _ => mret (S i)
          end) 1%nat (tail es); mret ([length es], es)) (elements_in (S k))).
    { eapply (spec_bind _ _ (λ _, True)); [|by intros; apply spec_ret].
      apply spec_foldR; [done|]. intros i e _ _. destruct e; try by apply spec_ret. spec_leaf. }
    destruct es as [|e others]; [exact Hflat|]. destruct e; try exact Hflat. clear Hflat.
    assert (Hsub : ∀ l es, (depth (Pt.ArrayLiteral l es) ≤ S k)%nat →
      spec (check_subarrays (Pt.ArrayLiteral l es)) (elements_in (S k))).
    { intros l' es' Hd. eapply spec_mono; [apply IH; cbn in Hd; lia|apply elements_in_S]. }
    eapply spec_bind; [apply (Hsub l0 es), Hes; by left|]. intros [dims flat] Hd.
    eapply (spec_bind _ _ (λ r, elements_in (S k) (dims, r.2))); [|intros [? ?] ?; by apply spec_ret].
    apply spec_foldR; [done|]. intros [i fl] e He Hf. assert (Hde : (depth e ≤ S k)%nat) by (apply Hes; by right).
    destruct e; try (spec_step; spec_leaf). spec_step; [|spec_leaf].
    eapply spec_bind; [by apply (Hsub l1 es0)|]. intros [ds more] Hm. apply spec_ret.
    intros x [?|?]%elem_of_app; [by apply Hf|by apply Hm].
Qed.

Section Literals.
Context (k : nat) (Hrec : ∀ e, (depth e ≤ k)%nat → resolves rec e).

(** A failed element is reported. *)
Lemma array_of_slices_ok loc exprs s :
  (∀ e, e ∈ exprs → (depth e ≤ k)%nat) → spec (array_of_slices rec loc exprs (Ty.Slice s)) typed.
Proof.
  intros He n st. apply ok_bound. intros Hn. unfold array_of_slices.
  eapply (ok_seq n _ _ st (λ r s', Forall typed r.1 ∧ flagged (count st) r.2 s')).
  - intros j. apply ok_foldR; [split; [done|apply flagged_start]|]. intros [res b] e st1 j1 Hin [Hres Hb]. cbn in Hres, Hb.
    eapply ok_seq; [intros j2; apply ok_try, (Hrec e (He e Hin))|]. intros [x|] st2 H2 Hx.
    2: { apply ok_return. split; [done|]. by eapply flagged_grown. }
    eapply ok_spec; [apply spec_ty_of|]. intros t st3 H3 _.
    assert (Hf : flagged (count st) b st3) by (eapply flagged_later; [exact H3|]; eapply flagged_later; [exact H2|exact Hb]).
    assert (Hx' : Forall typed (res ++ [x])) by (apply Forall_app; auto).
    assert (Hr : ∀ t' d st', flagged (count st) b st' →
      ok j1 (a ← show t'; _ ← push (d a); mret (res ++ [x], true)) st'
        (λ r s', Forall typed r.1 ∧ flagged (count st) r.2 s')).
    { intros t' d st' Hs. eapply ok_spec; [apply spec_show|]. intros a st4 H4 _.
      eapply ok_report_flag; [by eapply flagged_later|]. by intros s' Hs'. }
    destruct t; try exact (Hr _ _ _ Hf). destruct (_ && _); [by apply ok_return|].
    eapply ok_spec; [apply spec_show|]. intros a st4 H4 _. eapply (Hr _ (λ b0, _)), flagged_later; eauto.
  - intros [res b] st1 H1 [Hres [_ Hb]]. cbn in Hres, Hb. destruct b; [apply ok_err; specialize (Hb eq_refl); lia|].
    apply ok_return. apply (typed_all res); [done| |done]. by left.
Qed.

Lemma array_literal_ok loc exprs to_ :
  (depth (Pt.ArrayLiteral loc exprs) ≤ S k)%nat → spec (array_literal rec loc exprs to_) typed.
Proof.
  intros Hd. assert (Hk : (max_list (depth <$> exprs) ≤ k)%nat) by (cbn in Hd; lia). clear Hd.
  assert (H : ∀ to_, spec
    ('(dimensions, flattened) ← check_subarrays (Pt.ArrayLiteral loc exprs);
      match flattened with
      | [] => fail (Diag.error loc "array requires at least one element")
      | first :: others =>
          first ← rec first to_;
          '(first, t) ← (match to_ with
                         | To t => c ← cast first (Ex.loc first) t; mret (c, t)
                         | _ => t ← ty_of first; mret (first, t)
                         end : R (expression * ty));
          _ ← used first;
          rest ← mapR (λ e,
              other ← rec e (To t);
              _ ← used other;
              ot ← ty_of other;
              if Ty.eqb ot t then mret other else l ← pt_loc e; cast other l t) others;
          ctx ← get_ctx;
          let dims := as_u32 <$> dimensions in
          let node := if constant ctx then Ex.ConstArrayLiteral else Ex.ArrayLiteral in
          mret (node loc (Ty.Array t (Fixed <$> dims)) dims (first :: rest))
      end) typed).
  { clear to_. intros to_. eapply spec_bind; [by apply check_subarrays_ok|]. intros [dims [|first others]] He; [spec_leaf|].
    eapply spec_bind; [apply Hrec, He; by left|]. intros x Hx.
    eapply (spec_bind _ _ (λ r, cast_result r.2 r.1)).
    { destruct to_; spec_go. all: first [assumption|apply exact_result; assumption]. }
    intros [y t] [Hy Ht]. spec_step. eapply spec_bind; [apply (spec_mapR_all _ (cast_result t))|].
    { intros e Hin. eapply spec_bind; [apply Hrec, He; by right|]. intros z Hz. do 2 spec_step.
      spec_step; [|by spec_go]. apply spec_ret. split; [done|]. exists a1. split; [done|]. unfold fits. by rewrite Heqb. }
    intros rest Hrest. spec_step. apply spec_ret.
    assert (Forall typed (y :: rest) ∧ Forall (λ e, has_ty e t) (y :: rest)) as [Hall Hty].
    { split; constructor; try done; (eapply Forall_impl; [exact Hrest|by intros ? []]). }
    destruct (constant a0); (eapply typed_all; [exact Hall|by right|done]). }
  destruct to_ as [| | |t]; try exact (H _). destruct t; try exact (H _). destruct t; try exact (H _).
  apply array_of_slices_ok. by apply max_list_le.
Qed.
End Literals.
End Facts.
End AccessFacts.
