(* ===== verification/LiteralFacts.v ===== *)
(** Literals: the escapes of a string come to an end, an address and a hash
    are four field elements, every literal is well typed. *)
From Stdlib Require Import Ascii.
From S2P Require Import Prelude BigIntSpec Ast Types Eval Pt TypeNames SymTable Casts Names Resolver Literals.
From S2P Require Import Typed CastFacts ResolverFacts Specs.
#[local] Set Warnings "-register-all".

Module LiteralFacts.
Import Casts Names Resolver Literals Typed CastFacts ResolverFacts Specs.

(** ** Strings *)

Lemma char_indices_length i s : (length (char_indices i s) ≤ length s)%nat.
Proof.
  revert i. induction s as [s IH] using (induction_ltof1 _ (@length _)); unfold ltof in IH. intros i.
  assert (Hs : ∀ n t x, (length t < length s)%nat → (length (x :: char_indices n t) ≤ S (length t))%nat).
  { intros n t x Ht. cbn. specialize (IH t Ht n). lia. }
  destruct s as [|a s]; [done|]. cbn [char_indices]. repeat case_match; subst; try (cbn; lia);
    (etrans; [apply Hs; cbn; lia|cbn; lia]).
Qed.
Lemma get_digits_length n acc input : (length (get_digits n acc input).2 ≤ length input)%nat.
Proof.
  revert acc input. induction n as [|n IH]; intros acc input; [done|]. cbn. destruct input as [|ch rest]; [done|].
  destruct (match encoded ch with [c] => digit 16 c | _ => None end) as [v|].
  - etrans; [apply IH|]. cbn. lia.
  - destruct rest; cbn; lia.
Qed.
Lemma escape_length lit start file ch rest :
  (length (escape lit start file ch rest).2 ≤ length rest)%nat.
Proof.
  pose proof (get_digits_length 2 0 rest). pose proof (get_digits_length 4 0 rest).
  unfold escape. repeat case_match; simplify_eq/=; lia.
Qed.
Lemma escape_error_level lit start file ch rest d :
  (escape lit start file ch rest).1.2 = Some d → diag_level d = Error_.
Proof. unfold escape. repeat case_match; intros [= <-]; done. Qed.

Lemma unescape_loop_ok lit start file fuel s chars d :
  (length chars < fuel)%nat → yields False (unescape_loop lit start file fuel s chars d) (λ r, grown d r.2).
Proof.
  revert s chars d. induction fuel as [|fuel IH]; intros s chars d Hf; [lia|]. cbn.
  destruct chars as [|ch rest]; [done|]. cbn in Hf. case_bool_decide; [|apply IH; lia].
  destruct rest as [|c rest]; [cbn; naive_solver|]. pose proof (escape_length lit start file c rest) as Hl.
  destruct (escape lit start file c rest) as [[cs o] rest']. cbn in *.
  eapply yields_mono; [apply IH; lia|]. intros r Hr. destruct o; [|done]. by etrans; [apply grown_push|].
Qed.
Lemma unescape_ok lit start file d : yields False (unescape lit start file d) (λ r, grown d r.2).
Proof. apply unescape_loop_ok. pose proof (char_indices_length 0 lit). lia. Qed.

Lemma start_no_fuel l : Pt.start l ≠ OutOfFuel.
Proof. by destruct l. Qed.
Lemma use_end_no_fuel l m : Pt.use_end_from l m ≠ OutOfFuel.
Proof. by destruct l, m. Qed.

(** The characters of all parts, the range from the first to the last. *)
Lemma string_parts_ok file v r :
  yields False (foldM (λ '(result, l, d) (x : Pt.StringLiteral_),
                       start ← Pt.start (Pt.sl_loc x);
                       '(cs, d) ← unescape (bytes_of (Pt.sl_string x)) start file d;
                       l ← Pt.use_end_from l (Pt.sl_loc x);
                       Ret (result ++ cs, l, d)) r v) (λ r', grown r.2 r'.2).
Proof.
  revert r. induction v as [|x v IH]; intros [[res l] d]; [done|]. cbn.
  eapply (yields_bind _ _ _ (λ r', grown d r'.2)).
  - eapply yields_bind; [apply yields_no_fuel, start_no_fuel|]. intros st _.
    eapply yields_bind; [apply unescape_ok|]. intros [cs d'] Hd. cbn in Hd.
    eapply yields_bind; [apply yields_no_fuel, use_end_no_fuel|]. done.
  - intros [[res' l'] d'] Hd. eapply yields_mono; [apply IH|]. cbn in *. intros ? ?. by etrans.
Qed.

Lemma string_literal_ok `{CS : Constants, ST : Strict} v file : spec (string_literal v file) typed.
Proof.
  intros n s Hw Hn. unfold string_literal. destruct (unwrap (head v)) as [x| |] eqn:Hv; [|done|by destruct v].
  cbn [mbind comp_bind]. pose proof (string_parts_ok file v ([], Pt.sl_loc x, st_diags s)) as H.
  destruct (foldM _ _ _) as [[[res l] d]| |]; cbn in *; [|done|done].
  split; [by apply later_diags|]. constructor.
  - cbn. eexists. split; [done|]. reflexivity.
  - cbn. intros c ->%list_elem_of_singleton. by apply typed_leaf.
Qed.

(** ** Digits *)

Definition is_digit (r : Z) (c : Ascii.ascii) : Prop := is_Some (digit r c).

Lemma digit_bound r c d : digit r c = Some d → (0 ≤ d < r)%Z.
Proof.
  unfold digit, digit_of. intros H. repeat case_match; simplify_option_eq; case_match; simplify_eq; lia.
Qed.
Lemma digits_from_app r acc a b :
  digits_from r acc (a ++ b) = (v ← digits_from r acc a; digits_from r v b).
Proof.
  revert acc. induction a as [|c a IH]; intros acc; [done|]. cbn. destruct (digit r c) as [d|]; [|done]. apply IH.
Qed.
Lemma digits_from_value r acc s :
  (0 ≤ r)%Z → Forall (is_digit r) s →
  ∃ v, digits_from r 0 s = Some v ∧ (0 ≤ v < r ^ Z.of_nat (length s))%Z
       ∧ digits_from r acc s = Some (acc * r ^ Z.of_nat (length s) + v)%Z.
Proof.
  intros Hr Hs. revert acc. induction s as [|c s IH] using rev_ind; intros acc.
  { exists 0%Z. cbn. split_and!; [done|lia|lia|f_equal; lia]. }
  apply Forall_app in Hs as [Hs [[d Hd] _]%Forall_cons]. pose proof (digit_bound _ _ _ Hd) as Hb.
  destruct (IH Hs acc) as (v & Hv & Hvb & Ha). exists (v * r + d)%Z.
  rewrite !digits_from_app, Hv, Ha. cbn. rewrite Hd. cbn. rewrite length_app, Nat2Z.inj_add, Z.pow_add_r by lia.
  cbn. change (Z.pow_pos r 1) with (r ^ 1)%Z. rewrite Z.pow_1_r. split_and!; [done|nia|nia|f_equal; ring].
Qed.
Lemma digits_value_from r s : s ≠ [] → digits_value r s = digits_from r 0 s.
Proof. by destruct s. Qed.

(** Sixteen hexadecimal digits are one [u64]. *)
Lemma hex_not_plus s : Forall (is_digit 16) s →
  match s with c :: rest => if Ascii.eqb c "+"%char then rest else s | [] => [] end = s.
Proof.
  destruct s as [|c s]; [done|]. intros [[d Hd] _]%Forall_cons.
  destruct (Ascii.eqb_spec c "+"%char) as [->|]; [discriminate|done].
Qed.
Lemma from_str_radix_hex s :
  Forall (is_digit 16) s → (0 < length s ≤ 16)%nat → from_str_radix_u64 s = digits_from 16 0 s.
Proof.
  intros Hs Hl. unfold from_str_radix_u64. rewrite hex_not_plus by done.
  rewrite digits_value_from by (destruct s; cbn in *; [lia|done]).
  destruct (digits_from_value 16 0 s ltac:(lia) Hs) as (v & -> & [? Hv] & _). cbn.
  assert (16 ^ Z.of_nat (length s) ≤ 16 ^ 16)%Z by (apply Z.pow_le_mono_r; lia).
  unfold in_u64. replace (v <? 2 ^ 64)%Z with true by (symmetry; apply Z.ltb_lt; lia).
  by replace (0 <=? v)%Z with true by (symmetry; apply Z.leb_le; lia).
Qed.

(** ** Addresses and hashes *)

(** The four field elements of a number of 256 bits, the greatest first. *)
Definition limbs (n : Z) : list Z :=
  [n / 2 ^ 192; (n / 2 ^ 128) mod 2 ^ 64; (n / 2 ^ 64) mod 2 ^ 64; n mod 2 ^ 64]%Z.
Definition in_field (v : Z) : bool := (v <=? FIELD_ORDER)%Z.

Lemma field_chunks_values out l vs s :
  (∀ c, c ∈ l → Forall (is_digit 16) c ∧ (0 < length c ≤ 16)%nat) → mapM (digits_from 16 0) l = Some vs →
  field_chunks out l s
  = Ret (match list_find (λ v, FIELD_ORDER < v)%Z vs with
         | None => (Some vs, s)
         | Some (_, v) => (None, with_diags (Diags.push (st_diags s) (out v)) s)
         end).
Proof.
  revert vs. induction l as [|c l IH]; intros vs Hl Hv; cbn in Hv; [by inversion Hv|].
  destruct (digits_from 16 0 c) as [v|] eqn:Hd; [|done]. destruct (mapM _ l) as [ws|]; [|done].
  injection Hv as <-.
  destruct (Hl c ltac:(by left)) as [Hc Hcl]. cbn [field_chunks]. unfold mbind at 1, R_bind at 1, lift.
  rewrite from_str_radix_hex, Hd by done. cbn [unwrap mbind comp_bind fst snd list_find].
  specialize (IH ws (λ c Hc, Hl c ltac:(by right)) eq_refl).
  destruct (Z.ltb_spec FIELD_ORDER v); [by rewrite decide_True by done|rewrite decide_False by lia].
  unfold mbind, R_bind. cbn [fst snd]. rewrite IH. cbn. destruct (list_find _ ws) as [[i x]|]; done.
Qed.

Lemma split_at {A} n (s : list A) : (n ≤ length s)%nat → ∃ a b, s = a ++ b ∧ length a = n.
Proof. intros Hn. exists (take n s), (drop n s). rewrite take_drop, length_take. split; [done|lia]. Qed.
Lemma chunks_fuel_app f n a s :
  length a = n → (0 < n)%nat → chunks_fuel (S f) n (a ++ s) = a :: chunks_fuel f n s.
Proof.
  intros <- Hn. destruct a as [|x a]; [cbn in Hn; lia|]. cbn. by rewrite take_app_length, drop_app_length.
Qed.
Lemma chunks_four s : length s = 64%nat →
  ∃ a b c d, s = a ++ b ++ c ++ d ∧ chunks 16 s = [a; b; c; d]
             ∧ length a = 16%nat ∧ length b = 16%nat ∧ length c = 16%nat ∧ length d = 16%nat.
Proof.
  intros Hs. destruct (split_at 16 s ltac:(lia)) as (a & s1 & -> & Ha). rewrite length_app in Hs.
  destruct (split_at 16 s1 ltac:(lia)) as (b & s2 & -> & Hb). rewrite length_app in Hs.
  destruct (split_at 16 s2 ltac:(lia)) as (c & d & -> & Hc). rewrite length_app in Hs.
  exists a, b, c, d. split_and!; try lia; try reflexivity. unfold chunks. rewrite !length_app.
  replace (length a + (length b + (length c + length d)))%nat with (S (S (S (S 60)))) by lia.
  rewrite !(chunks_fuel_app _ 16) by lia. pose proof (chunks_fuel_app 60 16 d [] ltac:(lia) ltac:(lia)) as Hl. rewrite app_nil_r in Hl. by rewrite Hl.
Qed.
Lemma limbs_of_chunks a b c d :
  (0 ≤ b < 2 ^ 64 → 0 ≤ c < 2 ^ 64 → 0 ≤ d < 2 ^ 64 →
   limbs (((a * 2 ^ 64 + b) * 2 ^ 64 + c) * 2 ^ 64 + d) = [a; b; c; d])%Z.
Proof.
  intros Hb Hc Hd. unfold limbs. set (B := (2 ^ 64)%Z) in *. assert (0 < B)%Z by done.
  assert (Hq : ∀ x y, (0 ≤ y < B → (x * B + y) / B = x)%Z) by (intros; symmetry; by apply Z.div_unique_pos with y; [lia|ring]).
  assert (Hm : ∀ x y, (0 ≤ y < B → (x * B + y) mod B = y)%Z) by (intros x ? ?; symmetry; by apply Z.mod_unique_pos with x; [lia|ring]).
  assert (H2 : ∀ x, (x / 2 ^ 128 = x / B / B)%Z) by (intros; rewrite Z.div_div by lia; done).
  assert (H3 : ∀ x, (x / 2 ^ 192 = x / B / B / B)%Z) by (intros; rewrite !Z.div_div by lia; done).
  rewrite H3, H2, !Hm, !Hq, !Hm by done. done.
Qed.

(** The keyword at the end of a literal goes, the digits stay. *)
Lemma strip_prefix_app p s : strip_prefix p (p ++ s) = Some s.
Proof. induction p as [|c p IH]; [by destruct s|]. cbn. by rewrite Ascii.eqb_refl. Qed.
Lemma strip_prefix_other x p s : x ∉ s → strip_prefix (x :: p) s = None.
Proof.
  destruct s as [|y s]; [done|]. intros Hx. cbn. destruct (Ascii.eqb_spec x y) as [->|]; [|done]. exfalso. apply Hx. by left.
Qed.
Lemma trim_keyword pat x p s :
  reverse (bytes_of pat) = x :: p → x ∉ s → trim_end_matches pat (s ++ bytes_of pat) = s.
Proof.
  intros Hp Hx. unfold trim_end_matches. rewrite reverse_app, Hp, length_app.
  assert (length (bytes_of pat) = S (length p)) as -> by (rewrite <-length_reverse, Hp; done).
  rewrite Nat.add_succ_r. cbn [trim_start]. rewrite strip_prefix_app.
  assert (x ∉ reverse s) by (by rewrite elem_of_reverse).
  destruct (length s + length p)%nat; cbn [trim_start]; [|rewrite strip_prefix_other by done]; apply reverse_involutive.
Qed.

Lemma word_value x : Forall (is_digit 16) x → length x = 16%nat →
  ∃ v, (0 ≤ v < 2 ^ 64)%Z ∧ ∀ acc, digits_from 16 acc x = Some (acc * 2 ^ 64 + v)%Z.
Proof.
  intros Hx Hlx. destruct (digits_from_value 16 0 x ltac:(lia) Hx) as (v & Hv & Hvb & _). rewrite Hlx in Hvb.
  exists v. split; [exact Hvb|]. intros acc. destruct (digits_from_value 16 acc x ltac:(lia) Hx) as (w & Hw & _ & ->).
  rewrite Hlx. by simplify_eq.
Qed.
Lemma range_search {A} (a b : A) vs :
  match list_find (λ v, FIELD_ORDER < v)%Z vs with None => a | Some (_, _) => b end = if forallb in_field vs then a else b.
Proof.
  induction vs as [|v vs IH]; [done|]. cbn. unfold in_field at 1. destruct (Z.leb_spec v FIELD_ORDER).
  - rewrite decide_False by lia. cbn. rewrite <-IH. by destruct (list_find _ vs) as [[]|].
  - by rewrite decide_True by lia.
Qed.

(** What a literal of four field elements resolves to, from its digits. *)
Lemma four_fields_correct loc what s st :
  Forall (is_digit 16) s → length s = 64%nat →
  ∃ n, digits_value 16 s = Some n ∧ (0 ≤ n < 2 ^ 256)%Z
    ∧ four_fields loc what s st
      = Ret (if forallb in_field (limbs n) then (Some (limbs n), st)
             else (None, with_diags (Diags.push (st_diags st)
                    (Diag.error loc (what +:+ " literal " +:+ String.string_of_list_ascii s +:+ " out of range"))) st)).
Proof.
  intros Hs Hl. destruct (digits_from_value 16 0 s ltac:(lia) Hs) as (n & Hn & Hb & _). rewrite Hl in Hb.
  exists n. split; [by rewrite digits_value_from by (by destruct s)|]. split; [exact Hb|].
  unfold four_fields. replace (existsb (Ascii.eqb "_") s) with false.
  2: { symmetry. apply not_true_iff_false. intros (c & Hc & He)%existsb_exists. apply Ascii.eqb_eq in He as <-.
       apply list_elem_of_In in Hc. destruct (proj1 (Forall_forall _ _) Hs _ Hc) as [? ?]. discriminate. }
  rewrite bool_decide_true by done. cbn [negb andb].
  destruct (chunks_four s Hl) as (a & b & c & d & -> & -> & Ha & Hlb & Hc & Hd).
  rewrite !Forall_app in Hs. destruct Hs as (Hsa & Hsb & Hsc & Hsd).
  destruct (word_value a) as (va & Hva & Ea), (word_value b) as (vb & Hvb & Eb), (word_value c) as (vc & Hvc & Ec),
    (word_value d) as (vd & Hvd & Ed); try assumption.
  rewrite !digits_from_app, Ea in Hn. cbn in Hn. rewrite !digits_from_app, Eb in Hn. cbn in Hn.
  rewrite !digits_from_app, Ec in Hn. cbn in Hn. rewrite Ed in Hn. injection Hn as <-.
  rewrite (field_chunks_values _ _ [va; vb; vc; vd]).
  - rewrite range_search. change (0 * 2 ^ 64 + va)%Z with va. by rewrite limbs_of_chunks.
  - intros x. rewrite !elem_of_cons, elem_of_nil. intros Hx.
    repeat (destruct Hx as [->|Hx]; [split; [assumption|lia]|]). done.
  - cbn. rewrite Ea. cbn. rewrite Eb. cbn. rewrite Ec. cbn. by rewrite Ed.
Qed.

(** An address literal of 64 hexadecimal digits is resolved to the four 64-bit
    limbs of the number that the digits write, the greatest first, when every
    limb is at most the order of the field, and is reported as an error
    otherwise. *)
Theorem address_literal_correct loc text digits st :
  bytes_of text = digits ++ bytes_of "address" → Forall (is_digit 16) digits → length digits = 64%nat →
  ∃ n, digits_value 16 digits = Some n ∧ (0 ≤ n < 2 ^ 256)%Z
    ∧ (forallb in_field (limbs n) = true → address_literal loc text st = Ret (Some (Ex.AddressLiteral loc Ty.Address (limbs n)), st))
    ∧ (forallb in_field (limbs n) = false → ∃ d, diag_level d = Error_
        ∧ address_literal loc text st = Ret (None, with_diags (Diags.push (st_diags st) d) st)).
Proof.
  intros Ht Hd Hl. destruct (four_fields_correct loc "address" digits st Hd Hl) as (n & Hn & Hb & Hf).
  exists n. split; [done|]. split; [done|]. unfold address_literal. rewrite Ht.
  rewrite (trim_keyword _ "s"%char (reverse (bytes_of "addres"))); [|done|].
  2: { intros Hin. by destruct (proj1 (Forall_forall _ _) Hd _ Hin). }
  unfold mbind, R_bind. rewrite Hf. split; intros ->; [reflexivity|].
  eexists. split; cycle 1; reflexivity.
Qed.

(** The order of the field is the greatest element. *)
Definition all_orders : string :=
  "ffffffff00000001ffffffff00000001ffffffff00000001ffffffff00000001".
Definition empty_state : state :=
  mkState empty_ns SymTable.SymTable.new (mkContext 0 None None false false) Diags.empty.
Lemma address_literal_correct_witness :
  ∃ n, digits_value 16 (bytes_of all_orders) = Some n ∧ (0 ≤ n < 2 ^ 256)%Z
    ∧ (forallb in_field (limbs n) = true →
       address_literal Builtin (all_orders +:+ "address") empty_state
       = Ret (Some (Ex.AddressLiteral Builtin Ty.Address (limbs n)), empty_state))
    ∧ (forallb in_field (limbs n) = false → ∃ d, diag_level d = Error_
        ∧ address_literal Builtin (all_orders +:+ "address") empty_state
          = Ret (None, with_diags (Diags.push (st_diags empty_state) d) empty_state)).
Proof.
  apply (address_literal_correct Builtin (all_orders +:+ "address") (bytes_of all_orders) empty_state).
  - reflexivity.
  - repeat constructor; by eexists.
  - reflexivity.
Defined.

(** ** Types *)

Lemma field_chunks_ok `{CS : Constants, ST : Strict} out l : spec (field_chunks out l) (λ _, True).
Proof.
  induction l as [|c l IH]; [by apply spec_ret|]. cbn. spec_step. spec_step; [spec_leaf|].
  eapply spec_bind; [exact IH|]. intros. by apply spec_ret.
Qed.
Lemma four_fields_ok `{CS : Constants, ST : Strict} loc what s : spec (four_fields loc what s) (λ _, True).
Proof. unfold four_fields. spec_step; [apply field_chunks_ok|spec_leaf]. Qed.
Lemma address_literal_ok `{CS : Constants, ST : Strict} loc s : spec (address_literal loc s) typed.
Proof. eapply spec_bind; [apply four_fields_ok|]. intros. apply spec_ret. by apply typed_leaf. Qed.
Lemma hash_literal_ok `{CS : Constants, ST : Strict} loc s : spec (hash_literal loc s) typed.
Proof. eapply spec_bind; [apply four_fields_ok|]. intros. apply spec_ret. by apply typed_leaf. Qed.
Lemma alloc_bytes_typed `{CS : Constants} loc t n v : typed (Ex.AllocDynamicBytes loc t (Ex.NumberLiteral loc (Ty.Uint 32) n) v).
Proof.
  constructor; cbn; [eexists; split; [done|reflexivity]|]. intros c ->%list_elem_of_singleton. by apply typed_leaf.
Qed.
Lemma fields_literal_ok `{CS : Constants, ST : Strict} loc s : spec (fields_literal loc s) typed.
Proof. eapply spec_bind; [apply field_chunks_ok|]. intros. apply spec_ret, alloc_bytes_typed. Qed.

Section Numbers.
Context {BI : NumBigInt} {CS : Constants} {ST : Strict}.
Lemma number_literal_ok loc s r : spec (number_literal loc s r) typed.
Proof. unfold number_literal. spec_go. Qed.
Lemma hex_number_literal_ok loc s r : spec (hex_number_literal loc s r) typed.
Proof. unfold hex_number_literal. spec_go. Qed.
End Numbers.
End LiteralFacts.
