(* ===== verification/CallsFacts.v ===== *)
(** Calls of functions and of the core library: every argument has the type of
    its parameter, a call that fails says why. *)
From S2P Require Import Prelude BigIntSpec Ast Types Eval Pt TypeNames SymTable Casts Names Resolver.
From S2P Require Import Literals Operators Access Calls Typed CastFacts ResolverFacts Specs AccessFacts.
#[local] Set Warnings "-register-all".

Module CallsFacts.
Import ParseDepth Casts Names Resolver Literals Operators Access Calls Typed CastFacts ResolverFacts Specs AccessFacts.

Lemma later_functions s s' : later s s' → functions (st_ns s) = functions (st_ns s').
Proof. intros [[H _] _ _]. cbn in H. by injection H. Qed.

(** The diagnostics of a list. *)
Abbreviation size d := (length (contents d)).
Lemma grown_size d d' : grown d d' → (size d ≤ size d')%nat.
Proof. intros [H _]. by apply prefix_length. Qed.

(** Candidates that have been tried, [k] of them, each with something to
    report: in the list of the candidates or in the list of the call. *)
Definition tried `{CS : Constants, ST : Strict} (d : Diagnostics) (c k : nat) (r : expression + Diagnostics) (s : state) : Prop :=
  match r with
  | inl x => typed x
  | inr e => grown d e ∧ (c + size d + k * gain ≤ count s + size e)%nat
  end.

Section Facts.
Context {BI : NumBigInt} {CS : Constants} {ST : Strict}.
Context (keccak256 : bytes → list Z).
Context (hash_order : list Pt.NamedArgument → list Pt.NamedArgument).
Context (rec : Pt.Expression → ResolveTo → R expression).
Context (rec_type : nat → option nat → Pt.Expression → R ty).
Context (k : nat) (Hrec : ∀ e, (depth e ≤ k)%nat → resolves rec e).
Context (Htype : ∀ file c e, (depth e ≤ k)%nat → spec (rec_type file c e) (λ _, True)).

Lemma ok_get_function n m s :
  ok m (get_function n) s (λ f s', s' = s ∧ functions (st_ns s) !! n = Some f).
Proof.
  intros Hw Hn. unfold get_function, read_ns. destruct (functions (st_ns s) !! n) eqn:Hf; cbn; [|done].
  done.
Qed.
Lemma spec_get_function n : spec (get_function n) (λ _, True).
Proof. intros m s. eapply ok_mono; [apply ok_get_function|]. done. Qed.

Lemma typed_argument_ok e t : (depth e ≤ k)%nat → spec (typed_argument rec e t) (cast_result t).
Proof. intros He. unfold typed_argument. pose proof (Hrec e He). spec_go. Qed.
Lemma evaluate_argument_ok e t : (depth e ≤ k)%nat → spec (evaluate_argument rec e t) (cast_result t).
Proof. intros He. unfold evaluate_argument. pose proof (Hrec e He). spec_go. Qed.

(** Arguments that fit their parameters, or more to report. *)
Definition evaluated (d : Diagnostics) (ts : list ty) (r : list expression * bool * Diagnostics) : Prop :=
  let '(args, matches, d') := r in
  Forall typed args ∧ grown d d' ∧ if matches : bool then Forall2 has_ty args ts else (size d + gain ≤ size d')%nat.

Lemma evaluate_arguments_ok d l :
  (∀ x, x ∈ l → (depth x.1 ≤ k)%nat) → spec (evaluate_arguments rec d l) (evaluated d l.*2).
Proof.
  intros Hl n s. apply (ok_foldR_seen _ (λ seen r _, evaluated d seen.*2 r)); [by split_and!|].
  intros seen [e t] [[args matches] d1] s1 j Hin (Ha & Hd & Hm).
  assert (He : (depth e ≤ k)%nat) by (apply elem_of_seen in Hin; by apply (Hl (e, t))).
  eapply ok_spec; [by apply spec_sink, evaluate_argument_ok|].
  intros [x d2] s2 _ [Hg Hx]. cbn in Hg, Hx. apply ok_return. pose proof (grown_size _ _ Hd). pose proof (grown_size _ _ Hg).
  rewrite fmap_app. destruct x as [x|]; cbn; [destruct Hx|].
  - split_and!; [apply Forall_app; auto|by etrans|]. destruct matches; [|glia]. apply Forall2_app; auto.
  - split_and!; [done|by etrans|glia].
Qed.

Lemma resolve_all_ok args s n :
  (∀ e, e ∈ args → (depth e ≤ k)%nat) → ok n (resolve_all rec args) s (flagged (count s)).
Proof.
  intros Ha. apply ok_foldR; [apply flagged_start|]. intros b e st j He Hb.
  eapply ok_seq; [intros j1; apply ok_try, (Hrec e (Ha e He))|]. intros r st1 H1 Hr. apply ok_return.
  destruct r; cbn; [rewrite orb_false_r; by eapply flagged_later|rewrite orb_true_r; by eapply flagged_grown].
Qed.

Lemma internal_call_ok loc n to_ args f s m :
  functions (st_ns s) !! n = Some f → Forall typed args → Forall2 has_ty args (p_ty <$> f_params f) →
  ok m (internal_call loc n to_ args) s (λ x _, typed x).
Proof.
  intros Hf Ha Ht. unfold internal_call. eapply ok_seq; [intros j; apply ok_get_function|].
  intros g s' _ [-> Hg]. simplify_eq. apply ok_return. constructor; [exact Ht|]. cbn.
  intros c [->|Hc]%elem_of_cons; [by apply typed_leaf|]. by apply (proj1 (Forall_forall _ _) Ha).
Qed.

(** ** Candidates *)

Lemma tried_weaken d c j d' c' j' r s :
  grown d d' → (c + size d + j * gain ≤ c' + size d' + j' * gain)%nat → tried d' c' j' r s → tried d c j r s.
Proof. intros Hd Hc. destruct r as [x|e]; [done|]. intros [He Hs]. split; [by etrans|glia]. Qed.

(** What went wrong with a candidate can end the search. *)
Lemma ok_stop {A} n (many : bool) errors (m : R A) s Q :
  (∀ s', later s s' → ok n m s' Q) →
  ok n (stop ← (if many then extend_non_casting errors else mret false); if (stop : bool) then err else m) s Q.
Proof.
  intros Hm. apply ok_bound. intros Hn.
  eapply (ok_seq _ _ _ _ (λ b s', b = true → (count s + gain ≤ count s')%nat)).
  { intros j. destruct many; [apply ok_extend_non_casting|by apply ok_return]. }
  intros [] s' Hl Hb; [apply ok_err; specialize (Hb eq_refl); glia|]. by apply Hm.
Qed.
Lemma ok_stop_always {A} n errors (m : R A) s Q :
  (∀ s', later s s' → ok n m s' Q) →
  ok n (stop ← extend_non_casting errors; if (stop : bool) then err else m) s Q.
Proof. apply (ok_stop n true). Qed.

Lemma try_positional_ok loc args to_ many nos d s n :
  (∀ e, e ∈ args → (depth e ≤ k)%nat) →
  ok n (try_positional rec loc args to_ many nos d) s (tried d (count s) (length nos)).
Proof.
  intros Ha. revert d s n. induction nos as [|no nos IH]; intros d s n; [apply ok_return; split; [done|cbn; glia]|].
  cbn [try_positional]. eapply ok_seq; [intros j; apply ok_get_function|]. intros f s1 H1 [-> Hf].
  assert (Hnext : ∀ d' s', grown d d' → later s s' → (size d + gain ≤ size d')%nat →
    ok n (try_positional rec loc args to_ many nos d') s' (tried d (count s) (S (length nos)))).
  { intros d' s' Hd Hs Hl. eapply ok_mono; [apply IH|]. intros r s2 _. apply tried_weaken; [done|].
    apply later_count in Hs. glia. }
  destruct (decide _) as [Hlen|].
  - eapply ok_spec; [apply evaluate_arguments_ok; intros [x t] Hx; by eapply Ha, elem_of_zip_l|].
    intros [[cast_args matches] d1] s2 H2 (Hc & Hd & Hm). destruct matches.
    + eapply ok_seq; [intros j; apply (internal_call_ok loc no to_ cast_args f)|intros; by apply ok_return].
      * by rewrite <-(later_functions _ _ H2).
      * done.
      * rewrite snd_zip in Hm by (rewrite length_fmap; glia). done.
    + apply ok_stop. intros s3 H3. apply Hnext; [done|by etrans|done].
  - apply Hnext; [apply grown_push|done|cbn; rewrite length_app; cbn; glia].
Qed.

Lemma no_candidate_ok {A} loc id_loc c errors u o n s (Q : A → state → Prop) :
  counted errors → (c = 1 → n + gain ≤ count s + size errors)%nat → ok n (no_candidate loc id_loc c errors u o) s Q.
Proof.
  intros He Hc. destruct c as [|[|c]]; [apply ok_fail| |apply ok_fail]. cbn.
  eapply ok_seq; [intros j; apply (ok_extend _ _ _ (λ _ s', (count s' = count s + size errors)%nat)); auto|].
  intros [] s' _ Hs. apply ok_err. rewrite Hs. by apply Hc.
Qed.

Lemma function_call_pos_args_ok loc i args nos to_ :
  (∀ e, e ∈ args → (depth e ≤ k)%nat) → spec (function_call_pos_args rec loc i args nos to_) typed.
Proof.
  intros Ha n s. unfold function_call_pos_args. eapply ok_spec; [apply spec_get_ctx|]. intros ctx s1 H1 _.
  destruct (constant ctx); [apply ok_fail|]. apply ok_bound. intros Hn.
  eapply ok_seq; [intros j; by apply resolve_all_ok|]. intros failed s2 H2 [_ Hf].
  destruct failed; [apply ok_err; specialize (Hf eq_refl); glia|].
  eapply ok_seq; [intros j; by apply try_positional_ok|]. intros [x|e] s3 H3 Hr; [by apply ok_return|].
  destruct Hr as [Hg Hs]. apply no_candidate_ok; [by apply Hg|]. intros Hc. apply later_count in H2. cbn in Hs. glia.
Qed.

(** ** Named arguments *)

Definition exprs_in (l : list (string * Pt.Expression)) : Prop := ∀ x, x ∈ l → (depth x.2 ≤ k)%nat.
Definition named_in (args : list Pt.NamedArgument) : Prop := ∀ a, a ∈ args → (depth (Pt.na_expr a) ≤ k)%nat.

Lemma named_argument_in n l e : named_argument n l = Some e → exprs_in l → (depth e ≤ k)%nat.
Proof.
  induction l as [|[m x] l IH]; [done|]. cbn. intros H Hl. destruct (decide (n = m)).
  - simplify_eq. by apply (Hl (m, e) (list_elem_of_here _ _)).
  - apply IH; [done|]. intros y Hy. apply Hl. by right.
Qed.
Lemma collect_named_ok args : named_in args → spec (collect_named rec args) exprs_in.
Proof.
  intros Ha. apply spec_foldR; [intros x Hx; inversion Hx|]. intros l a Hin Hl.
  eapply (spec_bind _ _ (λ _, True)).
  - destruct (named_argument _ _); [|by apply spec_ret]. spec_step.
    eapply (spec_bind _ _ (λ _, True)); [|intros; by apply spec_ret]. intros n s.
    eapply ok_mono; [apply ok_try, (Hrec _ (Ha a Hin))|]. done.
  - intros _ _. apply spec_ret. intros x [->|Hx]%elem_of_cons; [by apply Ha|by apply Hl].
Qed.

(** Named arguments that fit, or more to report, in either list. *)
Definition evaluated_named (d : Diagnostics) (c : nat) (ts : list ty) (r : list expression * bool * Diagnostics)
    (s : state) : Prop :=
  let '(args, matches, d') := r in
  Forall typed args ∧ grown d d' ∧ if matches : bool then Forall2 has_ty args ts else (c + size d + gain ≤ count s + size d')%nat.

Lemma named_arguments_ok loc i arguments params d c s n (matches : bool) d1 :
  exprs_in arguments → (c ≤ count s)%nat → grown d d1 →
  (if matches then ∀ p, p ∈ params → is_unnamed p = false else (size d + gain ≤ size d1)%nat) →
  ok n (named_arguments rec loc i arguments params matches d1) s (evaluated_named d c (p_ty <$> params)).
Proof.
  intros Hl Hc Hd Hm. unfold named_arguments. eapply ok_mono.
  { apply (ok_foldR_seen _ (λ seen r s, (c ≤ count s)%nat ∧ evaluated_named d c (p_ty <$> seen) r s
      ∧ (r.1.2 = true → ∀ p, p ∈ params → is_unnamed p = false))).
    - cbn. destruct matches; (split_and!; [done|constructor|done| |]); [constructor|done|glia|done].
    - intros seen p [[args m] d2] s1 j Hin (Hc1 & (Ha & Hg & Hma) & Hu). cbn in Hu. apply elem_of_seen in Hin.
      destruct (p_id p) as [id|] eqn:Hp.
      2: { apply ok_return. cbn. split_and!; [done|done|done| |done]. destruct m; [|done]. specialize (Hu eq_refl p Hin).
           unfold is_unnamed in Hu. by rewrite Hp in Hu. }
      destruct (named_argument _ _) as [e|] eqn:He.
      + pose proof (named_argument_in _ _ _ He Hl). eapply ok_spec; [by apply spec_sink, evaluate_argument_ok|].
        intros [x d3] s2 H2 [Hg3 Hx]. cbn in Hg3, Hx. apply ok_return. apply later_count in H2.
        pose proof (grown_size _ _ Hg). pose proof (grown_size _ _ Hg3). split; [glia|]. rewrite fmap_app. destruct x as [x|]; cbn; [destruct Hx|].
        * split_and!; [apply Forall_app; auto|by etrans| |done]. destruct m; [|glia]. apply Forall2_app; auto.
        * split_and!; [done|by etrans|glia|done].
      + eapply ok_seq; [intros j2; apply (ok_report _ _ _ (λ _ s', count s' = S (count s1))); auto|].
        intros [] s2 _ Hs2. cbn in Hs2. apply ok_return. cbn. pose proof (grown_size _ _ Hg). split_and!; try done; try glia. }
  cbn. intros r s' _ (_ & H & _). exact H.
Qed.

Lemma named_mismatch_none loc f n : named_mismatch loc f n = None → ∀ p, p ∈ f_params f → is_unnamed p = false.
Proof.
  unfold named_mismatch. destruct (Nat.ltb_spec 0 (length (filter (λ p, is_unnamed p = true) (f_params f)))); [done|].
  intros _ p Hp. apply not_true_iff_false. intros Hu.
  assert (p ∈ filter (λ p, is_unnamed p = true) (f_params f)) as Hin by by apply list_elem_of_filter.
  destruct (filter _ _); [inversion Hin|cbn in *; glia].
Qed.

Lemma try_named_ok loc i arguments provided to_ nos d s n :
  exprs_in arguments → ok n (try_named rec loc i arguments provided to_ nos d) s (tried d (count s) (length nos)).
Proof.
  intros Hl. revert d s n. induction nos as [|no nos IH]; intros d s n; [apply ok_return; split; [done|cbn; glia]|].
  cbn [try_named]. eapply ok_seq; [intros j; apply ok_get_function|]. intros f s1 H1 [-> Hf].
  assert (H : ∀ (m : bool) d1, grown d d1 →
    (if m then ∀ p, p ∈ f_params f → is_unnamed p = false else (size d + gain ≤ size d1)%nat) →
    ok n ('(cast_args, matches, errors) ← named_arguments rec loc i arguments (f_params f) m d1;
      if (matches : bool) then x ← internal_call loc no to_ cast_args; mret (inl x)
      else
        stop ← extend_non_casting errors;
        if (stop : bool) then err else try_named rec loc i arguments provided to_ nos errors)
      s (tried d (count s) (S (length nos)))).
  { intros m d1 Hg Hm. eapply ok_seq; [intros j; by apply named_arguments_ok|].
    intros [[args matches] d2] s2 H2 (Ha & Hd & Hs). destruct matches.
    - eapply ok_seq; [intros j; apply (internal_call_ok loc no to_ args f); [by rewrite <-(later_functions _ _ H2)|done..]|].
      intros; by apply ok_return.
    - apply ok_stop_always. intros s3 H3. eapply ok_mono; [apply IH|]. intros r s4 _. apply tried_weaken; [done|].
      apply later_count in H3. glia. }
  destruct (named_mismatch _ _ _) as [x|] eqn:Hm; apply H; [apply grown_push| |done|by eapply named_mismatch_none].
  cbn. rewrite length_app. cbn. glia.
Qed.
Lemma function_call_named_args_ok loc i args nos to_ :
  named_in args → spec (function_call_named_args rec loc i args nos to_) typed.
Proof.
  intros Ha n s. apply ok_bound. intros Hn. unfold function_call_named_args.
  eapply ok_spec; [by apply collect_named_ok|]. intros arguments s1 H1 Hl.
  eapply ok_seq; [intros j; by apply try_named_ok|]. intros [x|e] s2 H2 Hr; [by apply ok_return|].
  destruct Hr as [Hg Hs]. apply no_candidate_ok; [by apply Hg|]. intros Hc. apply later_count in H1. cbn in Hs. glia.
Qed.

(** ** The core library *)

Lemma function_selector_ok loc e : spec (function_selector keccak256 loc e) typed.
Proof. destruct e; try spec_leaf. cbn. spec_step. apply spec_ret. by apply typed_leaf. Qed.
Lemma push_lib_function_ok n : spec (push_lib_function n) (λ _, True).
Proof. apply spec_modify_ns. by intros []; split. Qed.

(** Arguments of a library function, or more to report. *)
Definition collected (d : Diagnostics) (r : list expression * bool * Diagnostics) : Prop :=
  let '(args, matches, d') := r in Forall typed args ∧ grown d d' ∧ (matches = false → (size d + gain ≤ size d')%nat).

Lemma lib_arguments_ok convert args params d :
  (∀ e, e ∈ args → (depth e ≤ k)%nat) → spec (lib_arguments rec convert args params d) (collected d).
Proof.
  intros Ha. unfold lib_arguments. apply spec_foldR; [by split_and!|].
  intros [[l m] d1] [i e] Hin (Hl & Hd & Hm). assert (He : (depth e ≤ k)%nat).
  { apply Ha. apply elem_of_lookup_imap in Hin as (j & x & ? & Hx). simplify_eq. by eapply list_elem_of_lookup_2. }
  eapply spec_bind; [apply spec_sink, (Hrec e He)|]. intros [x d2] [Hg Hx]. cbn in Hg, Hx.
  pose proof (grown_size _ _ Hd). pose proof (grown_size _ _ Hg). assert (grown d d2) by by etrans.
  assert (Hkeep : m = false → (size d + gain ≤ size d2)%nat) by (intros Hf; specialize (Hm Hf); glia).
  destruct x as [x|]; [|apply spec_ret; split_and!; [done|done|glia]].
  destruct (params !! i) as [t|]; [|by apply spec_ret].
  destruct convert; [|apply spec_ret; split_and!; [apply Forall_app; auto|done|done]].
  eapply spec_bind; [by apply spec_sink, spec_cast|]. intros [c d3] [Hg3 Hc]. cbn in Hg3, Hc.
  pose proof (grown_size _ _ Hg3). apply spec_ret. destruct c as [c|]; cbn.
  - destruct Hc. split_and!; [apply Forall_app; auto|by etrans|intros Hf; specialize (Hkeep Hf); glia].
  - split_and!; [done|by etrans|glia].
Qed.

Lemma push_if_grown b d x : grown d (push_if b d x).
Proof. destruct b; [apply grown_push|done]. Qed.
Lemma push_if_size (b : bool) d x : size (push_if b d x) = (size d + Nat.b2n b)%nat.
Proof. destruct b; cbn; [by rewrite length_app|glia]. Qed.

(** A candidate of the library fails for one of three reasons, each reported. *)
Lemma lib_failure d (m c w : bool) d1 x y (d2 : Diagnostics) :
  d1 = push_if w (push_if c d x) y → grown d1 d2 → (m = false → (size d1 + gain ≤ size d2)%nat) →
  m && negb c && negb w = false → grown d d2 ∧ (size d + gain ≤ size d2)%nat.
Proof.
  intros -> Hg Hm Hb. pose proof (grown_size _ _ Hg) as Hs. rewrite !push_if_size in *. split.
  - etrans; [|exact Hg]. etrans; apply push_if_grown.
  - destruct m, c, w; cbn in *; try done; try glia; specialize (Hm eq_refl); glia.
Qed.

Lemma try_lib_ok loc name args many funcs d s n :
  (∀ e, e ∈ args → (depth e ≤ k)%nat) →
  ok n (try_lib keccak256 rec loc name args many funcs d) s (tried d (count s) (length funcs)).
Proof.
  intros Ha. revert d s n. induction funcs as [|p funcs IH]; intros d s n; [apply ok_return; split; [done|cbn; glia]|].
  cbn [try_lib]. eapply ok_spec; [apply spec_get_ctx|]. intros ctx s1 H1 _.
  eapply ok_spec; [by apply lib_arguments_ok|]. intros [[cast_args matches] d2] s2 H2 (Hc & Hd & Hm).
  destruct (_ && _ && _) eqn:Hb.
  - eapply ok_spec; [apply push_lib_function_ok|]. intros _ s3 H3 _.
    eapply (ok_spec _ _ _ _ (Forall typed)); [|intros; apply ok_return; by eapply typed_all].
    destruct (decide _); [|by apply spec_ret]. spec_step. eapply spec_bind; [apply function_selector_ok|].
    intros x Hx. apply spec_ret. by constructor.
  - edestruct lib_failure as [Hg Hs]; [reflexivity|exact Hd|exact Hm|exact Hb|].
    apply ok_stop. intros s3 H3. eapply ok_mono; [apply IH|]. intros r s4 _. apply tried_weaken; [done|].
    apply later_count in H1, H2, H3. cbn. glia.
Qed.
Lemma resolve_call_ok loc ns name args :
  (∀ e, e ∈ args → (depth e ≤ k)%nat) → spec (resolve_call keccak256 rec loc ns name args) typed.
Proof.
  intros Ha n s. apply ok_bound. intros Hn. unfold resolve_call.
  eapply ok_seq; [intros j; by apply try_lib_ok|]. intros [x|e] s2 H2 Hr; [by apply ok_return|].
  destruct Hr as [Hg Hs]. destruct (filter _ _) as [|p []]; [apply ok_fail| |apply ok_fail].
  apply (no_candidate_ok loc loc 1 e ""%string ""%string); [by apply Hg|]. intros _. cbn in Hs. glia.
Qed.

(** ** Encoding *)

Lemma abi_excluded_ok t : spec (abi_excluded t) (λ _, True).
Proof.
  unfold abi_excluded. spec_step; [by apply spec_ret|]. apply spec_read_any. intros ns Hw. by apply is_recursive_no_fuel, wf_declared.
Qed.
#[local] Hint Resolve abi_excluded_ok : spec.

Lemma decode_check_ok l t c b s n : flagged c b s → ok n (decode_check l t b) s (flagged c).
Proof.
  intros Hb. unfold decode_check. eapply ok_spec; [apply abi_excluded_ok|]. intros [] s1 H1 _.
  - eapply ok_spec; [apply spec_show|]. intros x s2 H2 _.
    eapply ok_report_flag; [eapply flagged_later; [exact H2|]; by eapply flagged_later|]. done.
  - apply ok_return. by eapply flagged_later.
Qed.
Lemma decode_parameter_ok ctx l p c b s n :
  (depth (Pt.pa_ty p) ≤ k)%nat → flagged c b s →
  ok n (decode_parameter rec_type ctx l p b) s (λ r s', flagged c r.2 s').
Proof.
  intros Hp Hb. unfold decode_parameter. eapply ok_spec; [by apply Htype|]. intros t s1 H1 _.
  pose proof (flagged_later _ _ _ _ H1 Hb) as Hb1.
  eapply (ok_seq _ _ _ _ (flagged c)).
  { intros j. destruct (Pt.pa_name p); [by eapply ok_report_flag|by apply ok_return]. }
  intros b1 s2 H2 Hb2. eapply ok_seq; [intros j; by apply decode_check_ok|]. intros b3 s3 H3 Hb3. by apply ok_return.
Qed.
Lemma decode_types_ok loc e s n :
  (depth e ≤ k)%nat → ok n (decode_types rec_type loc e) s (λ r s', flagged (count s) r.2 s').
Proof.
  intros He. unfold decode_types. eapply ok_spec; [apply spec_get_ctx|]. intros ctx s1 H1 _.
  pose proof (flagged_later _ _ _ _ H1 (flagged_start s)) as Hf.
  assert (Hone : ok n (t ← rec_type (file_no ctx) (contract_no ctx) (Pt.remove_parenthesis e);
      broken ← decode_check loc t false; mret ([t], broken)) s1 (λ r s', flagged (count s) r.2 s')).
  { eapply ok_spec; [apply Htype; etrans; [apply depth_remove_parenthesis|done]|]. intros t s2 H2 _.
    eapply ok_seq; [intros j; apply decode_check_ok; by eapply flagged_later|]. intros b s3 H3 Hb. by apply ok_return. }
  destruct e; try exact Hone. apply (ok_foldR _ (λ r s', flagged (count s) r.2 s')); [done|].
  intros [tys b] [pl [p|]] s2 j Hin Hb; cbn in Hb.
  - eapply ok_seq; [intros i; apply decode_parameter_ok; [|exact Hb]|intros [t b1] s3 H3 Hb3; by apply ok_return].
    cbn in He. assert (Hm : (max_list ((λ p, match p.2 with Some p => depth_parameter p | None => O end) <$> ps) ≤ k)%nat) by glia.
    rewrite max_list_le in Hm. specialize (Hm _ Hin). by destruct p.
  - by eapply ok_report_flag.
Qed.

Lemma encode_argument_ok e : (depth e ≤ k)%nat → spec (encode_argument rec e) typed.
Proof.
  intros He. pose proof (Hrec e He). unfold encode_argument. do 4 spec_step. spec_step; [by spec_go|].
  eapply spec_bind; [by apply typed_cast|]. intros x Hx. spec_step; [by apply typed_cast|by apply spec_ret].
Qed.
Lemma encode_arguments_ok args :
  (∀ e, e ∈ args → (depth e ≤ k)%nat) → spec (mapR (encode_argument rec) args) (Forall typed).
Proof. intros Ha. apply spec_mapR_all. intros e He. by apply encode_argument_ok, Ha. Qed.

Lemma resolve_namespace_call_ok loc ns name args :
  (∀ e, e ∈ args → (depth e ≤ k)%nat) →
  spec (resolve_namespace_call keccak256 rec rec_type loc ns name args) typed.
Proof.
  intros Ha. unfold resolve_namespace_call. spec_step; [by apply resolve_call_ok|]. spec_step.
  - destruct args as [|data [|types []]]; try spec_leaf.
    eapply spec_bind; [apply typed_argument_ok, Ha; by left|]. intros x [Hx _] n s. apply ok_bound. intros Hn.
    eapply ok_seq; [intros j; apply decode_types_ok, Ha; right; by left|]. intros [tys b] s1 H1 [_ Hb].
    destruct b; [apply ok_err; specialize (Hb eq_refl); glia|apply ok_return; typed_go].
  - spec_step.
    + eapply spec_bind; [by apply encode_arguments_ok|]. intros l Hl. apply spec_ret. by eapply typed_all.
    + spec_step; [|spec_leaf]. destruct args as [|sig args]; [spec_leaf|]. intros n s.
      eapply ok_seq; [intros j; apply ok_try, function_selector_ok|]. intros o s1 H1 Ho.
      eapply ok_spec; [apply spec_unwrap|]. intros x s2 H2 ->.
      eapply ok_spec; [apply encode_arguments_ok; intros e He; apply Ha; by right|]. intros l s3 H3 Hl.
      apply ok_return. eapply (typed_all (x :: l)); [by constructor|done|done].
Qed.

(** ** Methods of the library *)

Lemma try_lib_method_ok e i args many funcs d s n :
  typed e → (∀ e, e ∈ args → (depth e ≤ k)%nat) →
  ok n (try_lib_method rec e i args many funcs d) s (tried d (count s) (length funcs)).
Proof.
  intros He Ha. revert d s n. induction funcs as [|p funcs IH]; intros d s n; [apply ok_return; split; [done|cbn; glia]|].
  cbn [try_lib_method]. eapply ok_spec; [apply spec_get_ctx|]. intros ctx s1 H1 _.
  eapply (ok_seq _ _ _ _ (λ _ s', (count s1 + Nat.b2n (constant ctx) ≤ count s')%nat)).
  { intros j. destruct (constant ctx); [apply ok_report; cbn; glia|apply ok_return; cbn; glia]. }
  intros _ s2 H2 Hs2. eapply ok_spec; [by apply lib_arguments_ok|]. intros [[cast_args matches] d2] s3 H3 (Hc & Hd & Hm).
  destruct (_ && _ && _) eqn:Hb.
  - apply ok_return. eapply (typed_all (e :: cast_args)); [by constructor|done|done].
  - apply ok_stop. intros s4 H4. eapply ok_mono; [apply IH|]. intros r s5 _.
    pose proof (grown_size _ _ Hd) as Hg. rewrite push_if_size in *. apply later_count in H1, H3, H4.
    apply tried_weaken; [etrans; [apply push_if_grown|exact Hd]|]. cbn.
    destruct matches, (constant ctx), (negb (length (Corelib.params p) =? length args)%nat); cbn in *; try done; try glia;
      specialize (Hm eq_refl); glia.
Qed.
Lemma resolve_method_call_ok e i args :
  typed e → (∀ e, e ∈ args → (depth e ≤ k)%nat) → spec (resolve_method_call rec e i args) typed_option.
Proof.
  intros He Ha n s. apply ok_bound. intros Hn. unfold resolve_method_call.
  eapply ok_seq; [intros j; by apply try_lib_method_ok|]. intros [x|d] s2 H2 Hr; [by apply ok_return|].
  destruct Hr as [Hg Hs]. destruct (filter _ _) as [|p []]; [by apply ok_return| |apply ok_fail].
  apply (no_candidate_ok (id_loc i) (id_loc i) 1 d ""%string ""%string); [by apply Hg|]. intros _. cbn in Hs. glia.
Qed.
End Facts.
End CallsFacts.
