(* ===== verification/MethodsFacts.v ===== *)
(** Methods, calls of other contracts, and any callable expression. *)
From S2P Require Import Prelude BigIntSpec Ast Types Eval Pt TypeNames SymTable Casts Names Resolver.
From S2P Require Import Literals Operators Access Calls Methods Typed CastFacts ResolverFacts Specs.
From S2P Require Import AccessFacts CallsFacts.
#[local] Set Warnings "-register-all".

Module MethodsFacts.
Import ParseDepth Casts Names Resolver Literals Operators Access Calls Methods Typed CastFacts ResolverFacts Specs.
Import AccessFacts CallsFacts.

Section Facts.
Context {BI : NumBigInt} {CS : Constants} {ST : Strict}.
Context (keccak256 : bytes → list Z).
Context (hash_order : list Pt.NamedArgument → list Pt.NamedArgument).
Context (Hhash : ∀ l, hash_order l ≡ₚ l).
Context (rec : Pt.Expression → ResolveTo → R expression).
Context (rec_type : nat → option nat → Pt.Expression → R ty).
Context (k : nat) (Hrec : ∀ e, (depth e ≤ k)%nat → resolves rec e).
Context (Htype : ∀ file c e, (depth e ≤ k)%nat → spec (rec_type file c e) (λ _, True)).

(** ** Call arguments *)

Definition call_args_typed (c : CallArgs expression) : Prop := Forall typed (call_args_list c).

Lemma unique_names_ok seen l : spec (unique_names seen l) (λ _, True).
Proof.
  revert seen. induction l as [|a l IH]; intros seen; [by apply spec_ret|]. cbn.
  destruct (find _ _) as [[i p]|]; [spec_leaf|apply IH].
Qed.
Lemma parse_call_args_ok args : named_in k args → spec (parse_call_args hash_order rec args) call_args_typed.
Proof.
  intros Ha. eapply spec_bind; [apply unique_names_ok|]. intros _ _. apply spec_foldR; [constructor|].
  intros [g v a] x Hx Hc. assert (He : (depth (Pt.na_expr x) ≤ k)%nat) by (apply Ha; by rewrite <-Hhash).
  unfold call_args_typed in *. cbn in Hc. rewrite !Forall_app in Hc. destruct Hc as (Hg & Hv & Had).
  spec_step; [|spec_step; [|spec_leaf]];
    (eapply spec_bind; [by apply (typed_argument_ok rec k)|]; intros y [Hy _]; apply spec_ret; cbn;
     repeat first [assumption|constructor; [assumption|]|apply Forall_app; split]).
Qed.

Lemma end_no_fuel l : Pt.end_ l ≠ OutOfFuel.
Proof. by destruct l. Qed.
Definition callee_in (n : nat) (r : Pt.Expression * list Pt.NamedArgument * option Loc) : Prop :=
  (depth r.1.1 ≤ n)%nat ∧ named_in k r.1.2.
Lemma collect_call_args_ok e named l :
  (depth e ≤ k)%nat → named_in k named → spec (collect_call_args e named l) (callee_in (depth e)).
Proof.
  remember (depth e) as n eqn:Hn. assert (Hd : (depth e ≤ n)%nat) by lia. clear Hn.
  revert e named l Hd. induction n as [|n IH]; intros e named l Hd Hk Hn.
  { destruct e; cbn in Hd; lia. }
  assert (Hstop : spec (mret (e, named, l)) (callee_in (S n))) by by apply spec_ret.
  destruct e; try exact Hstop. cbn in Hd. destruct block; try spec_leaf; cbn.
  - destruct statements; spec_leaf.
  - cbn in Hd. eapply (spec_bind _ _ (λ _, True)).
    { repeat case_match; try by apply spec_ret. eapply spec_bind; [apply spec_lift, yields_no_fuel, end_no_fuel|].
      intros. by apply spec_ret. }
    intros o _. eapply spec_mono; [apply IH; [lia|lia|]|].
    + intros a [Ha|Ha]%elem_of_app; [by apply Hn|].
      assert (Hm : (max_list (depth_named <$> args) ≤ n)%nat) by lia. rewrite max_list_le in Hm. specialize (Hm a Ha).
      destruct a; cbn in *; lia.
    + intros r [Hr1 Hr2]. split; [lia|done].
Qed.

(** ** Calls of another contract *)

Lemma preprocess_contract_call_ok args c func :
  named_in k args → spec (preprocess_contract_call hash_order rec args c func) (λ r, call_args_typed r.1).
Proof.
  intros Ha. eapply spec_bind; [by apply parse_call_args_ok|]. intros x Hx. eapply spec_bind; [|intros; by apply spec_ret].
  apply spec_read_any. intros ns _. apply bind_unwrap_no_fuel. intros ct. apply foldM_no_fuel. intros acc f _.
  by apply bind_unwrap_no_fuel.
Qed.
Lemma contract_call_match_ok loc n c args var to_ :
  call_args_typed c → Forall typed args → typed var → spec (contract_call_match loc n c args var to_) typed.
Proof.
  intros Hc Ha Hv. unfold contract_call_match. eapply spec_bind; [apply spec_get_function|]. intros f _.
  do 2 spec_step. cast_results. apply spec_ret.
  eapply (typed_all (_ :: args ++ call_args_list c)); [|done|done].
  constructor; [typed_go|by apply Forall_app].
Qed.

Lemma any_errors_size d : counted d → Diags.any_errors d = true → (0 < size d)%nat.
Proof. unfold counted, Diags.any_errors. intros -> H. destruct (contents d); [done|cbn; lia]. Qed.
Lemma add_note_counted n d : counted d → counted (mkDiagnostics (add_note n <$> contents d) (has_error d)).
Proof.
  unfold counted. cbn. intros ->. induction (contents d) as [|x l IH]; [done|]. cbn. by rewrite IH.
Qed.

(** A candidate is called, or has something to report. *)
Definition candidate (r : expression + Diagnostics) : Prop :=
  match r with inl x => typed x | inr d => counted d ∧ (gain ≤ size d)%nat end.
Lemma contract_candidate_ok loc args c var to_ only n :
  (∀ e, e ∈ args → (depth e ≤ k)%nat) → call_args_typed c → typed var →
  spec (contract_candidate rec loc args c var to_ only n) candidate.
Proof.
  intros Ha Hc Hv. unfold contract_candidate. eapply spec_bind; [apply spec_get_function|]. intros f _.
  eapply (spec_bind _ _ (λ r, Forall typed r.1 ∧ counted r.2)).
  { destruct (decide _).
    - eapply spec_bind; [eapply (evaluate_arguments_ok rec k Hrec)|].
      + intros [x t] Hx. by eapply Ha, elem_of_zip_l.
      + intros [[l m] d] (Hl & [_ Hd] & _). apply spec_ret. split; [done|]. by apply Hd.
    - apply spec_ret. split; [constructor|done]. }
  intros [l d] [Hl Hd]. cbn in Hl, Hd. spec_step.
  - eapply spec_bind; [apply spec_get_function|]. intros g _. apply spec_ret. pose proof (any_errors_size d Hd Heqb).
    destruct only; [split; [done|glia]|]. split; [apply grown_push, add_note_counted, Hd|]. cbn. rewrite length_app. cbn. glia.
  - eapply spec_bind; [by apply spec_sink, contract_call_match_ok|]. intros [r d'] [Hg Hr]. cbn in Hg, Hr.
    apply spec_ret. destruct r as [x|]; [done|]. split; [by apply Hg|glia].
Qed.

Definition candidates (n : nat) (r : list (nat * expression) * Diagnostics) : Prop :=
  Forall (λ x, typed x.2) r.1 ∧ counted r.2 ∧ (n * gain ≤ length r.1 * gain + size r.2)%nat.
Lemma contract_call_pos_args_ok loc c func var args call_args to_ :
  (∀ e, e ∈ args → (depth e ≤ k)%nat) → named_in k call_args → typed var →
  spec (contract_call_pos_args hash_order rec loc c func var args call_args to_) typed_option.
Proof.
  intros Ha Hn Hv n s. apply ok_bound. intros Hc. unfold contract_call_pos_args.
  eapply ok_spec; [by apply preprocess_contract_call_ok|]. intros [ca names] s1 H1 Hca. cbn in Hca.
  eapply ok_seq; [intros j; by eapply resolve_all_ok|]. intros failed s2 H2 [_ Hf].
  apply later_count in H1 as Hc1. destruct failed; [apply ok_err; specialize (Hf eq_refl); glia|]. clear Hf.
  eapply (ok_seq _ _ _ _ (λ r _, candidates (length names) r)).
  { intros j. apply (ok_foldR_seen _ (λ seen r _, candidates (length seen) r)); [by split_and!; [constructor| |cbn; glia]|].
    intros seen m [resolved d] s3 j2 _ (Hr & Hd & Hl). cbn in Hr, Hd, Hl.
    eapply ok_spec; [by apply contract_candidate_ok|]. intros [x|e] s4 _ Hx; apply ok_return; unfold candidates; cbn;
      rewrite !length_app; cbn.
    - split_and!; [apply Forall_app; auto|done|glia].
    - destruct Hx as [He Hs]. split_and!; [done|by apply grown_extend|glia]. }
  intros [resolved d] s3 H3 (Hr & Hd & Hl). cbn in Hr, Hd, Hl. apply later_count in H2, H3. destruct resolved as [|[m x] [|y l]].
  - eapply ok_seq; [intros j; apply (ok_extend _ _ _ (λ _ s', (count s' = count s3 + size d)%nat)); auto|].
    intros [] s4 _ Hs. cbn in Hs, Hl. destruct names; [apply ok_fail|apply ok_err; cbn in Hl; glia].
  - apply ok_return. by inversion Hr.
  - eapply ok_seq; [intros j; apply (ok_extend _ _ _ (λ _ s', True)); auto|]. intros _ s4 _ _.
    eapply ok_spec; [eapply (spec_mapR_all _ (λ _, True)); intros [? ?] _; eapply spec_bind; [apply spec_get_function|]; intros; by apply spec_ret|].
    intros. apply ok_fail.
Qed.

(** ** Methods *)

Lemma spec_some (m : R expression) : spec m typed → spec (x ← m; mret (Some x)) typed_option.
Proof. intros Hm. eapply spec_bind; [exact Hm|]. intros x Hx. by apply spec_ret. Qed.

Lemma try_namespace_ok loc var func args cl to_ :
  (∀ e, e ∈ args → (depth e ≤ k)%nat) →
  spec (try_namespace keccak256 rec rec_type loc var func args cl to_) typed_option.
Proof.
  intros Ha. destruct var; try by apply spec_ret. unfold try_namespace. spec_step.
  - destruct cl; [spec_leaf|]. apply spec_some. by eapply resolve_namespace_call_ok.
  - do 2 spec_step. destruct (resolve_contract _ _ _) as [c|]; [|by apply spec_ret].
    eapply spec_bind; [apply spec_unwrap|]. intros ct _. destruct (is_library ct); [|by apply spec_ret].
    destruct cl; [spec_leaf|]. eapply spec_bind; [apply spec_available|]. intros fns _. apply spec_some.
    by eapply function_call_pos_args_ok.
Qed.

Lemma storage_push_ok var func args elem r :
  (∀ e, e ∈ args → (depth e ≤ k)%nat) → typed var → spec r (λ _, True) →
  spec (storage_push rec var func args elem r) typed_option.
Proof.
  intros Ha Hv Hr. unfold storage_push. eapply (spec_bind _ _ (λ r, Forall typed r.1)).
  - destruct args as [|a []]; [|eapply spec_bind; [eapply (typed_argument_ok rec k Hrec), Ha; by left|]|spec_leaf].
    + eapply spec_bind; [exact Hr|]. intros. apply spec_ret. constructor.
    + intros x [Hx _]. apply spec_ret. constructor; [exact Hx|constructor].
  - intros [more t] Hm. apply spec_ret. eapply (typed_all (var :: more)); [by constructor|done|done].
Qed.
Lemma storage_pop_ok var func args t :
  typed var → spec t (λ _, True) → spec (storage_pop var func args t) typed_option.
Proof.
  intros Hv Ht. destruct args; [|spec_leaf]. eapply spec_bind; [exact Ht|]. intros. apply spec_ret. typed_go.
Qed.
Lemma try_storage_reference_ok var func args to_ :
  (∀ e, e ∈ args → (depth e ≤ k)%nat) → typed var → spec (try_storage_reference rec var func args to_) typed_option.
Proof.
  intros Ha Hv. unfold try_storage_reference. spec_step.
  destruct a as [| | | | | | | | | | | | |t| | | | | | | |]; try by apply spec_ret. destruct t; try by apply spec_ret.
  - spec_step; [|spec_step; [by apply storage_pop_ok; [|apply spec_ret]|by apply spec_ret]].
    apply storage_push_ok; [done|done|by apply spec_ret].
  - spec_step.
    + spec_step; [spec_leaf|]. eapply spec_bind; [apply spec_array_elem|]. intros elem _.
      apply storage_push_ok; [done|done|]. eapply spec_bind; [apply spec_read_any; intros; by apply is_reference_type_no_fuel, wf_declared|].
      intros. by apply spec_ret.
    + spec_step; [|by apply spec_ret]. spec_step; [spec_leaf|]. apply storage_pop_ok; [done|].
      eapply spec_bind; [apply spec_storage_array_elem|]. intros. by apply spec_ret.
Qed.

Lemma dynamic_array_method_ok loc func args var t :
  (∀ e, e ∈ args → (depth e ≤ k)%nat) → typed var → spec (dynamic_array_method rec loc func args var t) typed_option.
Proof.
  intros Ha Hv. unfold dynamic_array_method. spec_step.
  - eapply spec_bind; [apply spec_array_elem|]. intros elem _. destruct args as [|a []]; [apply spec_ret; typed_go| |spec_leaf].
    eapply spec_bind; [eapply (typed_argument_ok rec k Hrec), Ha; by left|]. intros x Hx. apply spec_ret. typed_go.
  - spec_step.
    + destruct args; [|spec_leaf]. destruct t; try spec_leaf. apply spec_ret. typed_go.
    + spec_step; [spec_leaf|by apply spec_ret].
Qed.
Lemma is_dynamic_ok t : spec (read_ns (λ ns, is_dynamic (search_fuel ns t) ns t)) (λ _, True).
Proof. apply spec_read_any. intros. apply is_dynamic_no_fuel. Qed.
#[local] Hint Resolve is_dynamic_ok : spec.
Lemma raw_call_data_ok e : (depth e ≤ k)%nat → spec (raw_call_data rec e) typed.
Proof.
  intros He. pose proof (Hrec e He). unfold raw_call_data. do 2 spec_step. eapply (spec_bind _ _ (λ _, True)).
  { destruct (deref_any _); try (by apply spec_ret); spec_step; by apply spec_ret. }
  intros ok _. spec_step; [by apply typed_cast|by spec_go].
Qed.
Lemma address_call_ok loc func args ca var t :
  (∀ e, e ∈ args → (depth e ≤ k)%nat) → named_in k ca → typed var →
  spec (address_call hash_order rec loc func args ca var t) typed_option.
Proof.
  intros Ha Hn Hv. eapply spec_bind; [by apply parse_call_args_ok|]. intros c Hc. spec_step; [spec_leaf|].
  eapply (spec_bind _ _ (λ _, True)); [spec_step; [spec_leaf|by apply spec_ret]|]. intros _ _.
  destruct args as [|a []]; try spec_leaf. eapply spec_bind; [apply raw_call_data_ok, Ha; by left|]. intros x Hx.
  spec_step. cast_results. apply spec_ret. eapply (typed_all (_ :: _ :: call_args_list c)); [|done|done].
  by repeat (constructor; [assumption|]).
Qed.
Lemma try_type_method_ok loc func args ca var to_ :
  (∀ e, e ∈ args → (depth e ≤ k)%nat) → named_in k ca → typed var →
  spec (try_type_method hash_order rec loc func args ca var to_) typed_option.
Proof.
  intros Ha Hn Hv. unfold try_type_method. spec_step. destruct (deref_any a); try by apply spec_ret.
  - destruct (call_type _); [by apply address_call_ok|by apply spec_ret].
  - spec_step. spec_step; [by apply dynamic_array_method_ok|by apply spec_ret].
  - spec_step. spec_step; [by apply dynamic_array_method_ok|]. spec_step; [spec_leaf|by apply spec_ret].
  - by apply contract_call_pos_args_ok.
Qed.
Lemma method_call_pos_args_ok loc var func args ca cl to_ :
  (depth var ≤ k)%nat → (∀ e, e ∈ args → (depth e ≤ k)%nat) → named_in k ca →
  spec (method_call_pos_args keccak256 hash_order rec rec_type loc var func args ca cl to_) typed.
Proof.
  intros Hd Ha Hn. unfold method_call_pos_args. eapply spec_bind; [by apply try_namespace_ok|].
  intros [x|] Hx; [by apply spec_ret|]. eapply spec_bind; [apply (Hrec var Hd)|]. intros v Hv.
  eapply spec_bind; [by eapply resolve_method_call_ok|]. intros [x|] Hx1; [by apply spec_ret|].
  eapply spec_bind; [by apply try_storage_reference_ok|]. intros [x|] Hx2; [by apply spec_ret|].
  eapply spec_bind; [by apply try_type_method_ok|]. intros [x|] Hx3; [by apply spec_ret|spec_leaf].
Qed.

(** ** Any callable expression *)

Lemma no_constant_call_ok {A} loc (m : R A) Q : spec m Q → spec (no_constant_call loc m) Q.
Proof. intros Hm. unfold no_constant_call. spec_step. spec_step; [spec_leaf|done]. Qed.
Lemma available_ok n : spec (ctx ← get_ctx; read_ns (λ ns, available_functions ns n (contract_no ctx))) (λ _, True).
Proof. spec_step. apply spec_read_any. intros. apply available_functions_no_fuel. Qed.
Lemma tys_no_fuel e : tys e ≠ OutOfFuel.
Proof.
  destruct e; try done; try (apply bind_no_fuel; [apply ty_of_no_fuel|done]). apply foldM_no_fuel.
  intros acc x _. apply bind_no_fuel; [apply ty_of_no_fuel|done].
Qed.
Lemma spec_tys e : spec (lift (tys e)) (λ _, True).
Proof. apply spec_lift, yields_no_fuel, tys_no_fuel. Qed.
#[local] Hint Resolve spec_tys : spec.

Lemma function_call_expr_ok loc e args to_ :
  (depth e ≤ k)%nat → (∀ e, e ∈ args → (depth e ≤ k)%nat) →
  spec (function_call_expr keccak256 hash_order rec rec_type loc e args to_) typed.
Proof.
  intros He Ha. eapply spec_bind; [apply collect_call_args_ok; [done|intros x Hx; inversion Hx]|].
  intros [[f ca] cl] [Hf Hn]. cbn in Hf, Hn. pose proof (depth_remove_parenthesis f).
  destruct (Pt.remove_parenthesis f) eqn:Hp; try spec_leaf.
  - apply no_constant_call_ok, method_call_pos_args_ok; [cbn in *; lia|done|done].
  - spec_step.
    + eapply spec_bind; [by eapply resolve_call_ok|]. intros x Hx. spec_step. spec_step; [spec_leaf|by apply spec_ret].
    + apply no_constant_call_ok. spec_step. eapply spec_bind; [apply spec_read_any; intros; apply available_functions_no_fuel|].
      intros fns _. by eapply function_call_pos_args_ok.
Qed.
Lemma named_function_call_expr_ok loc e args to_ :
  (depth e ≤ k)%nat → named_in k args → spec (named_function_call_expr rec loc e args to_) typed.
Proof.
  intros He Ha. eapply spec_bind; [apply collect_call_args_ok; [done|intros x Hx; inversion Hx]|].
  intros [[f ca] cl] _. destruct f; try by spec_go. destruct cl; [spec_leaf|]. spec_step.
  eapply spec_bind; [apply spec_read_any; intros; apply available_functions_no_fuel|].
  intros fns _. by eapply function_call_named_args_ok.
Qed.
Lemma quiet_type_ok e : (depth e ≤ k)%nat → spec (quiet_type rec_type e) (λ _, True).
Proof.
  intros He. unfold quiet_type. spec_step. eapply spec_bind; [by apply spec_sink, Htype|]. intros [t d] _. by apply spec_ret.
Qed.
Lemma named_call_expr_ok loc e args b to_ :
  (depth e ≤ k)%nat → named_in k args → spec (named_call_expr rec rec_type loc e args b to_) typed.
Proof.
  intros He Ha. eapply spec_bind; [by apply quiet_type_ok|]. intros [t|] _.
  - destruct t; try spec_leaf. apply named_struct_literal_ok. intros a Hin. by apply Hrec, Ha.
  - apply no_constant_call_ok. eapply spec_bind; [by apply named_function_call_expr_ok|]. intros x Hx.
    do 2 spec_step. spec_step; [spec_leaf|by apply spec_ret].
Qed.
Lemma new_here_ok loc e args :
  (depth e ≤ k)%nat → (∀ e, e ∈ args → (depth e ≤ k)%nat) → spec (new rec rec_type loc e args) typed.
Proof.
  intros He Ha. apply new_array_ok; [|apply Forall_forall; intros; by apply Hrec, Ha].
  intros f c. apply Htype. pose proof (depth_remove_parenthesis e). destruct (Pt.remove_parenthesis e) eqn:Hp; cbn in *; lia.
Qed.
Lemma call_expr_ok loc e args to_ :
  (depth e ≤ k)%nat → (∀ e, e ∈ args → (depth e ≤ k)%nat) →
  spec (call_expr keccak256 hash_order rec rec_type loc e args to_) typed.
Proof.
  intros He Ha. unfold call_expr. pose proof (depth_remove_parenthesis e) as Hf.
  set (f := Pt.remove_parenthesis e) in *. assert (depth f ≤ k)%nat by lia.
  assert (Hc : spec (function_call_expr keccak256 hash_order rec rec_type loc f args to_) typed) by by apply function_call_expr_ok.
  eapply spec_bind; [by apply quiet_type_ok|]. intros [t|] _.
  - assert (Hcast : spec (match args with
      | [] => fail (Diag.error loc "missing argument to cast")
      | [a] => x ← rec a Unknown; cast x loc t
      | _ => fail (Diag.error loc "too many arguments to cast")
      end) typed).
    { destruct args as [|a []]; try spec_leaf. pose proof (Hrec a (Ha a ltac:(by left))). spec_step. by apply typed_cast. }
    destruct t; try exact Hcast. apply struct_literal_ok, Forall_forall. intros; by apply Hrec, Ha.
  - eapply (spec_bind _ _ typed); [|intros x Hx; spec_step; by apply spec_ret].
    pose proof (depth_remove_parenthesis f). destruct (Pt.remove_parenthesis f) eqn:Hp; try exact Hc.
    + apply new_here_ok; [cbn in *; lia|done].
    + destruct (is_new _); [by apply new_here_ok|exact Hc].
Qed.
End Facts.
End MethodsFacts.
