(* ===== verification/ResolveFacts.v ===== *)
(** The resolution of an expression and of a type name: it comes to an end, it
    gives a well-typed expression or reports why not, and it leaves the tables,
    the scopes and the context as they are. *)
From S2P Require Import Prelude BigIntSpec Ast Types Eval Pt TypeNames SymTable Casts Names Resolver.
From S2P Require Import Literals Operators Access Calls Methods Resolve Typed CastFacts ResolverFacts.
From S2P Require Import Specs OperatorsFacts AccessFacts LiteralFacts CallsFacts MethodsFacts.
#[local] Set Warnings "-register-all".

Module ResolveFacts.
Import ParseDepth Casts Names Resolver Literals Operators Access Calls Methods Resolve Typed CastFacts ResolverFacts.
Import Specs OperatorsFacts AccessFacts LiteralFacts CallsFacts MethodsFacts.

Section Facts.
Context {BI : NumBigInt} {CS : Constants} {ST : Strict}.
Context (keccak256 : bytes → list Z).
Context (hash_order : list Pt.NamedArgument → list Pt.NamedArgument).
Context (Hhash : ∀ l, hash_order l ≡ₚ l).

Section Step.
Context (rec : Pt.Expression → ResolveTo → R Ex.expression).
Context (rec_type : nat → option nat → Pt.Expression → R ty).
Context (k : nat) (Hrec : ∀ e, (depth e ≤ k)%nat → resolves rec e).
Context (Htype : ∀ file c e, (depth e ≤ k)%nat → spec (rec_type file c e) (λ _, True)).

(** ** Type names *)

Lemma resolve_array_dimension_ok file c f e :
  (depth e ≤ k)%nat → spec (resolve_array_dimension rec file c f e) (λ _, True).
Proof.
  intros He. unfold resolve_array_dimension. eapply spec_bind; [by apply spec_in_frame, (Hrec e He)|]. intros x Hx.
  spec_step. destruct a; by spec_go.
Qed.

(** What is left of a type name: a keyword, or a name. *)
Definition type_head (n : nat) (r : list Identifier * Pt.Expression * list ArrayDimension) : Prop :=
  (depth r.1.2 ≤ n)%nat.
Lemma expr_to_type_ok file c e dims :
  (depth e ≤ S k)%nat → spec (expr_to_type rec file c e dims) (type_head (S k)).
Proof.
  assert (H : ∀ n e dims, (depth e ≤ n)%nat → (n ≤ S k)%nat → spec (expr_to_type rec file c e dims) (type_head (S k))).
  { clear e dims. induction n as [|n IH]; intros e dims He Hn; [destruct e; cbn in He; lia|].
    assert (Hbad : spec (l ← pt_loc e; fail (Diag.decl_error l "expression found where type expected")) (type_head (S k)))
      by by spec_go.
    assert (Hgood : spec (mret ([], e, dims)) (type_head (S k))) by (apply spec_ret; unfold type_head; cbn; lia).
    destruct e; try exact Hbad; try exact Hgood; cbn in He |- *.
    - destruct index as [index|]; [|apply IH; lia].
      eapply spec_bind; [apply resolve_array_dimension_ok; lia|]. intros d _. apply IH; lia.
    - destruct (path_names _ _) as [[] ?]; try (by spec_go). apply spec_ret. unfold type_head. cbn. lia. }
  intros He. by apply (H (S k)).
Qed.
Lemma resolve_dimension_ok d : spec (resolve_dimension d) (λ _, True).
Proof. destruct d as [[l n]|]; [|by apply spec_ret]. cbn. repeat (spec_step; [spec_leaf|]). by apply spec_ret. Qed.
Lemma array_of_ok t dims : spec (array_of t dims) (λ _, True).
Proof.
  destruct dims; [by apply spec_ret|]. eapply (spec_bind _ _ (λ _, True)); [|intros; by apply spec_ret].
  eapply spec_mono; [apply (spec_mapR_all _ (λ _, True)); intros; apply resolve_dimension_ok|done].
Qed.
Lemma resolve_type_keyword_ok file c t :
  (depth_type t ≤ k)%nat → spec (resolve_type_keyword rec_type file c t) (λ _, True).
Proof.
  intros Ht. destruct t; try (apply spec_lift, yields_no_fuel; done). cbn in *.
  eapply spec_bind; [apply Htype; lia|]. intros kt _. eapply spec_bind; [apply Htype; lia|]. intros vt _.
  destruct kt; by spec_go.
Qed.
Lemma resolve_namespace_ok ns names file c i : sok (resolve_namespace ns names file c i) (λ _, True).
Proof.
  unfold resolve_namespace. destruct (skip_imports _ _ _ _) as [[f ct] rest].
  eapply (sok_bind _ _ (λ _, True)); [|intros; by apply sok_ret].
  repeat case_match; try (by apply sok_ret); try (by apply sok_fail). apply sok_lift. cbn. naive_solver.
Qed.
Lemma resolve_type_ok file c e :
  (depth e ≤ S k)%nat → spec (resolve_type rec rec_type file c e) (λ _, True).
Proof.
  intros He. eapply spec_bind; [by apply expr_to_type_ok|]. intros [[ns h] dims] Hh. unfold type_head in Hh. cbn in Hh.
  destruct h; try spec_leaf.
  - eapply spec_bind; [apply spec_lift, yields_no_fuel; by case_bool_decide|]. intros _ _. cbn in Hh.
    eapply spec_bind; [apply resolve_type_keyword_ok; lia|]. intros t1 _. apply array_of_ok.
  - eapply spec_bind; [apply spec_of_sema; intros; apply resolve_namespace_ok|]. intros s _.
    repeat case_match; try spec_leaf; try apply array_of_ok; try by apply spec_ret.
Qed.

(** ** Expressions *)

Lemma not_constant_ok {A} loc what (m : R A) Q : spec m Q → spec (not_constant loc what m) Q.
Proof. intros Hm. unfold not_constant. spec_step. spec_step; [spec_leaf|done]. Qed.
Lemma compound_ok o loc l r : resolves rec l → resolves rec r → spec (compound rec o loc l r) typed.
Proof.
  intros Hl Hr. apply not_constant_ok. eapply spec_bind; [by apply assign_expr_ok|]. intros x Hx.
  spec_step. by apply spec_ret.
Qed.
Lemma new_expression_ok loc e : (depth e ≤ k)%nat → spec (new_expression rec rec_type loc e) typed.
Proof.
  intros He. apply not_constant_ok. pose proof (depth_remove_parenthesis e).
  destruct (Pt.remove_parenthesis e) eqn:Hp; try (by spec_go). cbn in *.
  eapply spec_bind; [eapply (new_here_ok rec rec_type k); [done|done|lia|]|intros x Hx; spec_step; by apply spec_ret].
  assert (Hm : (max_list (depth <$> args) ≤ k)%nat) by lia. by rewrite max_list_le in Hm.
Qed.

Lemma args_in args n : (max_list (depth <$> args) ≤ n)%nat → ∀ e, e ∈ args → (depth e ≤ n)%nat.
Proof. apply max_list_le. Qed.
Lemma named_args_in args n : (max_list (depth_named <$> args) ≤ n)%nat → named_in n args.
Proof. intros H a Ha. pose proof (proj1 (max_list_le _ _ _) H a Ha). by destruct a. Qed.
Ltac ordering_node := intros ? ? ? t ? ? ? ?; constructor; [by exists t|cbn; intros ?; rewrite !elem_of_cons, elem_of_nil; naive_solver].
(** The lemma about the function that resolves a node. *)
Ltac head_of m := lazymatch m with ?f _ => head_of f | _ => m end.
Ltac node_rule :=
  lazymatch goal with |- spec ?m _ =>
    let f := head_of m in
    lazymatch f with
    | @bitwise_or => apply bitwise_or_ok
    | @bitwise_and => apply bitwise_and_ok
    | @bitwise_xor => apply bitwise_xor_ok
    | @subtract => apply subtract_ok
    | @addition => apply addition_ok
    | @multiply => apply multiply_ok
    | @divide => apply divide_ok
    | @modulo => apply modulo_ok
    | @power => apply power_ok
    | @shift_left => apply shift_left_ok
    | @shift_right => apply shift_right_ok
    | @equal => apply equal_ok
    | @not_equal => apply not_equal_ok
    | @conditional => apply conditional_ok
    | @logical_not => apply logical_not_ok
    | @bitwise_not => apply bitwise_not_ok
    | @compound => apply compound_ok
    | @number_literal => apply number_literal_ok
    | @hex_number_literal => apply hex_number_literal_ok
    | @fields_literal => apply fields_literal_ok
    | @address_literal => apply address_literal_ok
    | @hash_literal => apply hash_literal_ok
    | @variable => apply variable_ok
    end
  end.
Lemma expression_step_ok e to_ :
  (depth e ≤ S k)%nat → spec (expression_step keccak256 hash_order rec rec_type e to_) typed.
Proof.
  intros He. destruct e; cbn [expression_step]; try spec_leaf.
  all: cbn in He; try node_rule; try (apply Hrec; lia).
  - apply not_constant_ok, incr_decr_ok; [|apply Hrec; lia]. intros x t ???. typed_go.
  - apply not_constant_ok, incr_decr_ok; [|apply Hrec; lia]. intros x t ???. typed_go.
  - apply new_expression_ok. lia.
  - destruct index; [|spec_leaf]. apply array_subscript_ok; apply Hrec; lia.
  - apply array_slice_ok; [apply Hrec; lia|..]; intros x ->; apply Hrec; lia.
  - apply (member_access_ok rec rec_type), Hrec. etrans; [apply depth_remove_parenthesis|lia].
  - apply (call_expr_ok keccak256 hash_order Hhash rec rec_type k); [done|done|lia|]. apply args_in. lia.
  - apply (named_call_expr_ok rec rec_type k); [done|done|lia|]. apply named_args_in. lia.
  - apply ordering_ok; [apply Hrec; lia..|ordering_node].
  - apply ordering_ok; [apply Hrec; lia..|ordering_node].
  - apply ordering_ok; [apply Hrec; lia..|ordering_node].
  - apply ordering_ok; [apply Hrec; lia..|ordering_node].
  - apply logical_ok; [apply Hrec; lia..|]. intros ???????. typed_go.
  - apply logical_ok; [apply Hrec; lia..|]. intros ???????. typed_go.
  - apply not_constant_ok, assign_single_ok; apply Hrec; lia.
  - apply spec_ret. by apply typed_leaf.
  - spec_step. apply string_literal_ok.
  - eapply spec_bind; [apply (array_literal_ok rec k); [done|cbn; lia]|]. intros x Hx. spec_step. by apply spec_ret.
Qed.
End Step.

(** The fuel is the depth of the parse tree. *)
Lemma expression_ok fuel :
  (∀ e, (depth e ≤ fuel)%nat → resolves (expression keccak256 hash_order fuel) e)
  ∧ (∀ file c e, (depth e ≤ fuel)%nat → spec (resolve_type_fuel keccak256 hash_order fuel file c e) (λ _, True)).
Proof.
  induction fuel as [|fuel [IHe IHt]].
  - split; [intros e He|intros file c e He]; exfalso; destruct e; cbn in He; lia.
  - split; [intros e He to_|intros file c e He]; cbn.
    + by apply (expression_step_ok _ _ fuel).
    + by apply (resolve_type_ok _ _ fuel).
Qed.

End Facts.

(** What the declarations establish: the constants are those that the
    namespace declares. *)
Definition constants_of (ns : Namespace) : Constants := constant_at ns.
Definition sound_ns (ns : Namespace) : Prop := @wf_ns (constants_of ns) true ns.
Definition typed_in (ns : Namespace) (e : Ex.expression) : Prop := @typed (constants_of ns) e.

Section Theorems.
Context {BI : NumBigInt}.
Context (keccak256 : bytes → list Z).
Context (hash_order : list Pt.NamedArgument → list Pt.NamedArgument).
Context (Hhash : ∀ l, hash_order l ≡ₚ l).

Lemma expression_outcome fuel e to_ s n :
  sound_ns (st_ns s) → (depth e ≤ fuel)%nat → (n ≤ count s)%nat →
  match expression keccak256 hash_order fuel e to_ s with
  | Ret (Some x, s') => later s s' ∧ typed_in (st_ns s) x
  | Ret (None, s') => later s s' ∧ (n + 1 ≤ count s')%nat
  | Panic => True
  | OutOfFuel => False
  end.
Proof.
  intros Hw He Hn. exact (proj1 (@expression_ok _ (constants_of (st_ns s)) true keccak256 _ Hhash fuel) e He to_ n s Hw Hn).
Qed.



(** C31: The resolution of an expression, whether it succeeds or fails, leaves
    the namespace and the symbol table as they are apart from the marks for
    read and assigned variables, restores the context, adds diagnostics only
    at the end, and keeps the error flag in step with them. *)
Theorem expression_keeps fuel e to_ s r s' :
  sound_ns (st_ns s) → (depth e ≤ fuel)%nat →
  expression keccak256 hash_order fuel e to_ s = Ret (r, s') →
  unmarked (st_ns s) = unmarked (st_ns s') ∧ unmarked_sym (st_sym s) = unmarked_sym (st_sym s') ∧ st_ctx s = st_ctx s'
  ∧ contents (st_diags s) `prefix_of` contents (st_diags s') ∧ (counted (st_diags s) → counted (st_diags s')).
Proof.
  intros Hw He H. pose proof (expression_outcome fuel e to_ s 0 Hw He ltac:(lia)) as Ho. rewrite H in Ho.
  assert (later s s') as [(? & ? & ?) ? [? ?]] by (by destruct r; destruct Ho). done.
Qed.

(** C7: The resolution of an expression and of a type name come to an end: a
    recursion as deep as the parse tree is enough, the evaluation of array
    lengths through constants included. *)
Theorem expression_terminates fuel e s :
  sound_ns (st_ns s) → (depth e ≤ fuel)%nat →
  (∀ to_, expression keccak256 hash_order fuel e to_ s ≠ OutOfFuel)
  ∧ ∀ file c, resolve_type_fuel keccak256 hash_order fuel file c e s ≠ OutOfFuel.
Proof.
  intros Hw He. split; intros *.
  - pose proof (expression_outcome fuel e to_ s 0 Hw He ltac:(lia)) as Ho. by intros Hf; rewrite Hf in Ho.
  - pose proof (proj2 (@expression_ok _ (constants_of (st_ns s)) true keccak256 _ Hhash fuel) file c e He 0%nat s Hw ltac:(lia)) as Ho.
    by intros Hf; rewrite Hf in Ho.
Qed.
End Theorems.

(** ** A contract with a constant, a state variable and a local variable *)

Definition name (n : string) : Identifier := {| id_loc := Builtin; id_name := n |}.
Definition var (n : string) : Pt.Expression := Pt.Variable_ (name n).
Definition limit : VariableDecl :=
  mkVariable "LIMIT" Builtin (Ty.Uint 32) true (Some (Ex.NumberLiteral Builtin (Ty.Uint 32) 3)) false false.
Definition total : VariableDecl := mkVariable "total" Builtin (Ty.Uint 32) false None false false.
Definition counter : Contract :=
  mkContract Builtin "Counter" (ContractTy_ Builtin) [] 0 [] [] [limit; total] None [] true 0.
Definition counter_ns : Namespace :=
  mkNamespace [] [] [] [counter] [] [] [] Diags.empty ∅
    {[ (0%nat, Some 0%nat, "LIMIT"%string) := SVariable Builtin (Some 0%nat) 0;
       (0%nat, Some 0%nat, "total"%string) := SVariable Builtin (Some 0%nat) 1 ]} 1 [].
Definition local_x : Sym.Variable_ :=
  Sym.mkVar (name "x") (Ty.Uint 32) 0 false true false Sym.LocalVariable (Sym.Ola None) None.
Definition counter_sym : Sym.Symtable := Sym.mkSymtable [(0%nat, local_x)] [{["x"%string := 0%nat]}] [] [].
Definition counter_state : state := mkState counter_ns counter_sym (mkContext 0 (Some 0%nat) None false false) Diags.empty.

Lemma counter_sound : sound_ns counter_ns.
Proof.
  assert (Hat : ∀ c n, constant_at counter_ns (Some c) n → c = 0%nat ∧ n = 0%nat).
  { intros [|c] n (k & v & Hk & Hv & Hc); [|by destruct c]. injection Hk as <-.
    destruct n as [|[|n]]; [done|injection Hv as <-; done|by destruct n]. }
  split; [| done | | |].
  - split; intros [|n]; done.
  - intros [c|] n _; [intros [-> ->]%Hat; done|by destruct n].
  - intros [c|] n e; [intros [-> ->]%Hat [= <-] x Hx; inversion Hx|by destruct n].
  - exists (λ _, 0%nat). intros [c|] n e; [|by destruct n]. intros [-> ->]%Hat [= <-]. split; [cbn; lia|].
    intros x Hx. inversion Hx.
Qed.

Definition no_hash (b : bytes) : list Z := [].
Definition same_order (l : list Pt.NamedArgument) : list Pt.NamedArgument := l.
Lemma same_order_permutation l : same_order l ≡ₚ l.
Proof. done. Qed.
Definition resolve_here (e : Pt.Expression) : comp (option Ex.expression * state) :=
  expression no_hash same_order (depth e) e Unknown counter_state.

(** [x + LIMIT * 2 < total] *)
Definition comparison_tree : Pt.Expression :=
  Pt.Less Builtin
    (Pt.Add Builtin (var "x") (Pt.Multiply Builtin (var "LIMIT") (Pt.NumberLiteral Builtin "2"))) (var "total").
(** [x = y] *)
Definition unknown_tree : Pt.Expression := Pt.Assign Builtin (var "x") (var "y").

Lemma expression_keeps_witness :
  ∃ r s', resolve_here comparison_tree = Ret (r, s') ∧ unmarked counter_ns = unmarked (st_ns s').
Proof.
  destruct (resolve_here comparison_tree) as [[r s']| |] eqn:H; [|vm_compute in H; discriminate H..].
  exists r, s'. split; [reflexivity|].
  apply (expression_keeps no_hash same_order same_order_permutation _ _ _ counter_state r s' counter_sound (le_n _) H).
Defined.
Lemma expression_terminates_witness :
  resolve_type_fuel no_hash same_order 1 0 None (Pt.Type_ Builtin Pt.TBool) counter_state ≠ OutOfFuel.
Proof.
  exact (proj2 (expression_terminates no_hash same_order same_order_permutation 1 (Pt.Type_ Builtin Pt.TBool)
    counter_state counter_sound (le_n _)) 0%nat None).
Defined.
End ResolveFacts.
