(* ===== verification/StatementRules.v ===== *)
(** The rules of the resolution of statements: besides what expressions do,
    variables are added, scopes are opened and left, and reports go to the
    namespace as well. *)
From S2P Require Import Prelude BigIntSpec Ast Types Eval Pt TypeNames SymTable Casts Names Resolver.
From S2P Require Import Statements Typed CastFacts ResolverFacts Specs.
#[local] Set Warnings "-register-all".
#[local] Arguments but_last : simpl never.

Module StatementRules.
Import Sym SymTable Casts Names Resolver Typed CastFacts ResolverFacts Specs Statements.

(** The namespace without its marks, its reports and its next variable number. *)
Definition frozen (ns : Namespace) : Namespace := set_next_id 0 (unmarked ns).

(** What holds whether or not a statement is resolved. *)
Record kept (s s' : state) : Prop := {
  k_ns : frozen (st_ns s) = frozen (st_ns s');
  k_ctx : st_ctx s = st_ctx s';
  k_diags : grown (st_diags s) (st_diags s');
  k_reports : grown (diagnostics (st_ns s)) (diagnostics (st_ns s'));
}.
#[export] Instance kept_pre : PreOrder kept.
Proof.
  split; [by intros s; split|]. intros s s1 s2 [? ? ? ?] [? ? ? ?]. split; [congruence|congruence|by etrans|by etrans].
Qed.

(** What holds of the names and of the variables when it is: the scopes around
    the open one are the same, a visible name stands for the same variable, a
    variable keeps its declaration. *)
Definition kept_vars (s s' : Symtable) : Prop :=
  ∀ k v, im_get k (vars s) = Some v → ∃ v', im_get k (vars s') = Some v' ∧ unmark_var v = unmark_var v'.
Record kept_names (s s' : Symtable) : Prop := {
  k_outer : outer s = outer s';
  k_find : ∀ n k, find_pos (names s) n = Some k → find_pos (names s') n = Some k;
  k_vars : kept_vars s s';
}.
#[export] Instance kept_vars_pre : PreOrder kept_vars.
Proof.
  split; [intros t k v; eauto|]. intros t t1 t2 Hv Hv' k v (v1 & H1 & ->)%Hv. by apply Hv'.
Qed.
#[export] Instance kept_names_pre : PreOrder kept_names.
Proof.
  split; [by intros t; split|]. intros t t1 t2 [? ? ?] [? ? ?]. split; [congruence|auto|by etrans].
Qed.

Lemma kept_same t t' : names t = names t' → vars t = vars t' → kept_names t t'.
Proof. intros Hn Hv. split; [unfold outer; by rewrite Hn|by rewrite Hn|intros k v; rewrite Hv; eauto]. Qed.

Definition total (s : state) : nat := count s + length (contents (diagnostics (st_ns s))).
Definition names_ok (s : state) : Prop := sym_ok (st_ns s) (st_sym s).

Lemma kept_total s s' : kept s s' → (total s ≤ total s')%nat.
Proof. intros [_ _ [Hd _] [Hr _]]. unfold total, count. apply prefix_length in Hd, Hr. lia. Qed.

(** ** Marks keep the names *)

Lemma unmarked_names t t' : unmarked_sym t = unmarked_sym t' → names t = names t'.
Proof. intros H. exact (f_equal names H). Qed.
Lemma im_get_unmark k (l : list (nat * Variable_)) :
  im_get k (prod_map (λ j, j) unmark_var <$> l) = unmark_var <$> im_get k l.
Proof. induction l as [|[j v] l IH]; cbn; [done|]. by case_decide. Qed.
Lemma unmarked_get t t' k :
  unmarked_sym t = unmarked_sym t' → unmark_var <$> im_get k (vars t) = unmark_var <$> im_get k (vars t').
Proof. intros H. rewrite <-!im_get_unmark. exact (f_equal (λ t, im_get k (vars t)) H). Qed.
Lemma unmarked_var t t' k v :
  unmarked_sym t = unmarked_sym t' → im_get k (vars t) = Some v →
  ∃ v', im_get k (vars t') = Some v' ∧ unmark_var v = unmark_var v'.
Proof.
  intros H Hv. pose proof (unmarked_get _ _ k H) as Hk. rewrite Hv in Hk. cbn in Hk.
  destruct (im_get k (vars t')) as [v'|]; [|done]. exists v'. split; [done|]. by apply Some_inj.
Qed.
Lemma unmarked_kept t t' : unmarked_sym t = unmarked_sym t' → kept_names t t'.
Proof.
  intros H. split; [|by rewrite (unmarked_names t t')|intros k v; by apply unmarked_var].
  unfold outer. by rewrite (unmarked_names t t').
Qed.
Lemma unmarked_sym_ok ns ns' t t' :
  next_id ns = next_id ns' → unmarked_sym t = unmarked_sym t' → sym_ok ns t → sym_ok ns' t'.
Proof.
  intros Hn Ht [Hv Hs Ha He]. pose proof (unmarked_names _ _ Ht) as Hnames. split; rewrite <-?Hnames; [| |exact Ha|exact He].
  - intros k v' Hv'. destruct (unmarked_var t' t k v' (eq_sym Ht) Hv') as (v & Hg & Hu).
    destruct (Hv k v Hg). rewrite <-Hn. split; [done|]. apply (f_equal pos) in Hu. cbn in Hu. congruence.
  - intros i sc n k Hi Hk. destruct (Hs i sc n k Hi Hk) as (v & Hg & Hid).
    destruct (unmarked_var t t' k v Ht Hg) as (v' & Hg' & Hu). exists v'. split; [done|].
    apply (f_equal id) in Hu. cbn in Hu. congruence.
Qed.
Lemma later_kept s s' : later s s' → kept s s'.
Proof. intros [(Hn & _ & Hr) Hc Hd]. split; [|done..]. cbn in Hn. unfold frozen. by rewrite Hn. Qed.
Lemma later_names_ok s s' : later s s' → names_ok s → names_ok s'.
Proof. intros [(Hn & Ht & _) _ _]. apply unmarked_sym_ok; [exact (f_equal next_id Hn)|done]. Qed.

Section Rules.
Context {CS : Constants} {ST : Strict}.

Lemma frozen_wf ns ns' : frozen ns = frozen ns' → wf_ns ns → wf_ns ns'.
Proof.
  intros H Hw. apply wf_ns_unmarked. apply wf_ns_unmarked in Hw.
  assert (Hn : ∀ n k, wf_ns n → wf_ns (set_next_id k n)) by (intros [] k [H1 H2 H3 H4 H5]; constructor; [destruct H1; by split|exact H2|exact H3|exact H4|exact H5]).
  apply (Hn _ 0%nat) in Hw. fold (frozen ns) in Hw. rewrite H in Hw.
  apply (Hn _ (next_id (unmarked ns'))) in Hw. unfold frozen in Hw. by destruct (unmarked ns').
Qed.
Lemma kept_wf s s' : kept s s' → wf_ns (st_ns s) → wf_ns (st_ns s').
Proof. intros [Hn _ _ _]. by apply frozen_wf. Qed.

(** ** Calls *)

Definition runs {A} (n : nat) (m : R A) (s : state) (Q : A → state → Prop) : Prop :=
  wf_ns (st_ns s) → names_ok s → (n ≤ total s)%nat →
  match m s with
  | Ret (Some a, s') => (kept s s' ∧ kept_names (st_sym s) (st_sym s') ∧ names_ok s') ∧ Q a s'
  | Ret (None, s') => kept s s' ∧ (n + gain ≤ total s')%nat
  | Panic => True
  | OutOfFuel => False
  end.

Lemma runs_return {A} n (a : A) s (Q : A → state → Prop) : Q a s → runs n (mret a) s Q.
Proof. by intros HQ Hw Ho Hn. Qed.
Lemma runs_seq {A B} n (m : R A) (f : A → R B) s P Q :
  (∀ k, runs k m s P) → (∀ a s', kept_names (st_sym s) (st_sym s') → P a s' → ∀ k, runs k (f a) s' Q) →
  runs n (m ≫= f) s Q.
Proof.
  intros Hm Hf Hw Ho Hn. unfold mbind, R_bind. specialize (Hm (total s) Hw Ho ltac:(done)).
  destruct (m s) as [[[a|] s1]| |]; cbn in *; try done.
  - destruct Hm as [(Hk & Hs & Ho1) Ha]. pose proof (kept_total _ _ Hk).
    specialize (Hf a s1 Hs Ha n (kept_wf _ _ Hk Hw) Ho1 ltac:(glia)).
    destruct (f a s1) as [[[b|] s2]| |]; try done.
    + destruct Hf as [(? & ? & ?) ?]. split; [|done]. split_and!; [by etrans|by etrans|done].
    + destruct Hf. split; [by etrans|done].
  - destruct Hm. split; [done|glia].
Qed.
Lemma runs_mono {A} n (m : R A) s (P Q : A → state → Prop) :
  runs n m s P → (∀ a s', kept_names (st_sym s) (st_sym s') → P a s' → Q a s') → runs n m s Q.
Proof.
  intros Hm HQ Hw Ho Hn. specialize (Hm Hw Ho Hn). destruct (m s) as [[[a|] s1]| |]; try done.
  destruct Hm as [(? & ? & ?) ?]. split; [done|auto].
Qed.
(** What expressions are resolved with. *)
Lemma runs_spec {A} n (m : R A) s P : spec m P → runs n m s (λ a _, P a).
Proof.
  intros Hm Hw Ho Hn. specialize (Hm (n - length (contents (diagnostics (st_ns s))))%nat s Hw).
  unfold total in *. specialize (Hm ltac:(glia)).
  destruct (m s) as [[[a|] s1]| |]; try done; destruct Hm as [Hl HQ].
  - split; [|done]. split_and!; [by apply later_kept|apply unmarked_kept, Hl|by eapply later_names_ok].
  - split; [by apply later_kept|]. destruct Hl as [(_ & _ & [Hr _]) _ _]. apply prefix_length in Hr. cbn in Hr. glia.
Qed.
Lemma runs_then {A B} n (m : R A) (f : A → R B) s P Q :
  spec m P → (∀ a s', kept_names (st_sym s) (st_sym s') → P a → ∀ k, runs k (f a) s' Q) → runs n (m ≫= f) s Q.
Proof. intros Hm. apply runs_seq. intros k. by apply runs_spec. Qed.

Lemma runs_report n d s : runs n (push_ns d) s (λ _ s', total s < total s')%nat.
Proof.
  intros Hw Ho Hn. split.
  - split_and!; [|done|by destruct Ho; split]. split; [done..|]. apply grown_push.
  - unfold total, count. cbn. rewrite length_app. cbn. glia.
Qed.
Lemma runs_fail_ns {A} n d s (Q : A → state → Prop) : runs n (fail_ns d) s Q.
Proof.
  intros Hw Ho Hn. split; [split; [done..|apply grown_push]|].
  unfold total, count in *. cbn. rewrite length_app. cbn. glia.
Qed.
Lemma runs_modify_sym n f s Q :
  kept_names (st_sym s) (f (st_sym s)) → (sym_ok (st_ns s) (st_sym s) → sym_ok (st_ns s) (f (st_sym s))) →
  (∀ s', st_sym s' = f (st_sym s) → Q tt s') → runs n (modify_sym f) s Q.
Proof. intros Hf Ho HQ Hw Hs Hn. split; [|by apply HQ]. split_and!; [by split|done|by apply Ho]. Qed.
Lemma runs_as_lvalue {A} n (m : R A) s (Q : A → state → Prop) :
  (∀ s k, runs k m s Q) → (∀ a s s', st_sym s = st_sym s' → Q a s → Q a s') → runs n (as_lvalue m) s Q.
Proof.
  intros Hm HQ Hw Ho Hn. unfold as_lvalue. specialize (Hm (with_ctx (set_lvalue true (st_ctx s)) s) n Hw Ho Hn).
  destruct (m _) as [[[a|] s1]| |]; cbn in *; try done.
  - destruct Hm as [(Hk & ? & ?) Hq]. destruct Hk as [? Hc ? ?]. split; [|by apply HQ with s1].
    split_and!; [|done..]. split; try done. cbn in *. rewrite <-Hc. by destruct (st_ctx s).
  - destruct Hm as [[? Hc ? ?] ?]. split; [|done]. split; try done. cbn in *. rewrite <-Hc. by destruct (st_ctx s).
Qed.

Lemma runs_foldR {A B} (f : B → A → R B) (I : B → state → Prop) l b s n :
  I b s → (∀ b a s k, a ∈ l → I b s → runs k (f b a) s I) → runs n (foldR f b l) s I.
Proof.
  revert b s n. induction l as [|a l IH]; intros b s n Hb Hf; [by apply runs_return|]. cbn.
  eapply runs_seq; [intros k; apply Hf; [by left|done]|]. intros b' s' _ Hb' k. apply IH; [done|].
  intros; apply Hf; [by right|done].
Qed.

(** ** A new variable *)

Definition declared_as (s : Symtable) (k : nat) (t : ty) : Prop := ∃ v, im_get k (vars s) = Some v ∧ vty v = t.
Lemma declared_kept s s' k t : kept_vars s s' → declared_as s k t → declared_as s' k t.
Proof.
  intros Hk (v & Hv & <-). destruct (Hk _ _ Hv) as (v' & Hv' & Hu). exists v'. split; [done|].
  by apply (f_equal vty) in Hu.
Qed.

Lemma runs_add_variable n i t e u sl s :
  runs n (add_variable i t e u sl) s
    (λ o s', match o with Some k => declared_as (st_sym s') k t | None => (total s < total s')%nat end).
Proof.
  intros Hw Ho Hn. unfold add_variable, add.
  destruct (sym_ok_new_var _ _ _ (mkVar i t (next_id (st_ns s)) false false false u (Ola e) sl) Ho eq_refl eq_refl) as [Hok1 _].
  set (v := mkVar _ _ _ _ _ _ _ _ _) in *. set (s1 := set_vars _ (st_sym s)) in *. set (ns1 := set_next_id _ (st_ns s)) in *.
  assert (Hvars : kept_names (st_sym s) s1).
  { split; [done..|]. intros k w Hk. exists w. split; [|done]. cbn. rewrite im_get_insert_ne; [done|].
    apply (so_vars _ _ Ho) in Hk. glia. }
  assert (Hv : im_get (next_id (st_ns s)) (vars s1) = Some v) by (cbn; by rewrite im_get_insert).
  destruct (decide (id_name i = "")); cbn [mbind comp_bind].
  { split; [|by exists v]. split_and!; [by split|done|done]. }
  destruct (SymTable.find s1 (id_name i)) as [prev|] eqn:E; cbn [mbind comp_bind].
  { split.
    - split_and!; [|exact Hvars|by destruct Hok1; split]. split; cbn; [done|done|done|apply grown_push].
    - unfold total, count. cbn. rewrite length_app. cbn. glia. }
  destruct (names_snoc _ _ Hok1) as (l & sc & Hl). rewrite Hl, insert_last_scope_snoc. cbn [unwrap mbind comp_bind].
  destruct (insert_name_ok ns1 s1 l sc (id_name i) (next_id (st_ns s)) v Hok1 Hl E Hv eq_refl) as (Hok2 & _ & _).
  split; [|by exists v]. split_and!; [by split| |exact Hok2].
  pose proof (sym_ok_find _ _ _ Hok1 E) as Hnone. cbn in Hl. change (names s1) with (names (st_sym s)) in Hnone.
  split; [|cbn; rewrite Hl in *|by apply Hvars].
  - change (but_last (names s1) = but_last (l ++ [<[id_name i := next_id (st_ns s)]> sc])).
    cbn in Hl |- *. by rewrite Hl, !but_last_snoc.
  - intros m k. rewrite !find_pos_app in *. destruct (find_pos l m); [done|]. cbn.
    destruct (decide (m = id_name i)) as [->|Hne]; [|by rewrite lookup_insert_ne].
    destruct (find_pos l (id_name i)); [done|]. cbn in Hnone. by destruct (sc !! id_name i).
Qed.

(** Leaving a scope brings back the names that were there. *)
Lemma runs_in_scope {A} n (m : R A) s (Q : A → state → Prop) :
  (∀ s k, runs k m s Q) → (∀ a s s', vars (st_sym s) = vars (st_sym s') → Q a s → Q a s') →
  runs n (in_scope m) s (λ a s', Q a s' ∧ names (st_sym s') = names (st_sym s)).
Proof.
  intros Hm HQ Hw Ho Hn. unfold in_scope, modify_sym. cbn.
  specialize (Hm (mkState (st_ns s) (new_scope (st_sym s)) (st_ctx s) (st_diags s)) n Hw (new_scope_ok _ _ Ho) Hn).
  unfold mbind, R_bind. cbn. destruct (m _) as [[[a|] s1]| |]; cbn in *; try done;
    [|destruct Hm as [[? ? ? ?] ?]; split; [by split|done]].
  destruct Hm as [(Hk & [Hout Hfind Hvars] & Hs) Ha]. unfold outer in Hout. cbn in Hout. rewrite but_last_snoc in Hout.
  assert (Hnames : names (leave_scope (st_sym s1)) = names (st_sym s)) by (cbn; by rewrite <-Hout).
  split; [|split; [by apply HQ with s1|done]].
  destruct Hk as [? ? ? ?]. split_and!; [by split|split|].
  - unfold outer. by rewrite Hnames.
  - by rewrite Hnames.
  - exact Hvars.
  - destruct (names_snoc _ _ Hs) as (l & sc & Hl). apply (leave_sym_ok _ _ _ _ Hs Hl).
    rewrite Hl, but_last_snoc in Hout. rewrite <-Hout. apply (so_some _ _ Ho).
Qed.
End Rules.
End StatementRules.
