(* ===== verification/Flow.v ===== *)
(** What can be reached (src/src/sema/statements.rs): executions of resolved
    statements, whatever the conditions are, and what the flags of the
    resolution say of them. *)
From S2P Require Import Prelude BigIntSpec Ast Types Eval Pt TypeNames SymTable Casts Names Resolver.
From S2P Require Import Literals Operators Access Calls Methods Statements.
#[local] Set Warnings "-register-all".

Module Flow.
Import SymTable.SymTable ParseDepth Casts Names Resolver Literals Operators Access Calls Methods Statements.

(** ** Executions

    How an execution of a statement can end. A call that never returns has no
    end; a condition can have either value. *)
Inductive ending : Set := Normal | Broke | Continued | Returned.

(** The ending of a loop's body after which the next turn comes. *)
Definition again (o : ending) : bool := match o with Normal | Continued => true | _ => false end.
(** What a body makes of its loop when no other turn comes. *)
Definition loop_end (o : ending) : option ending :=
  match o with Broke => Some Normal | Returned => Some Returned | _ => None end.

Inductive ends : St.Statement → ending → Prop :=
  | e_block loc l o : list_ends l o → ends (St.Block loc l) o
  | e_variable loc k p i : ends (St.VariableDecl_ loc k p i) Normal
  | e_delete loc t e : ends (St.Delete loc t e) Normal
  | e_destructure loc fs e : ends (St.Destructure loc fs e) Normal
  | e_expression loc r e : tys e ≠ Ret [Ty.Unreachable] → ends (St.Expression_ loc r e) Normal
  | e_break loc : ends (St.Break loc) Broke
  | e_continue loc : ends (St.Continue loc) Continued
  | e_return loc e : ends (St.Return_ loc e) Returned
  | e_then loc r c a b o : list_ends a o → ends (St.If loc r c a b) o
  | e_else loc r c a b o : list_ends b o → ends (St.If loc r c a b) o
  | e_while_done loc r c body : ends (St.While loc r c body) Normal
  | e_while_again loc r c body o o' :
      list_ends body o → again o = true → ends (St.While loc r c body) o' → ends (St.While loc r c body) o'
  | e_while_left loc r c body o o' :
      list_ends body o → loop_end o = Some o' → ends (St.While loc r c body) o'
  | e_do_done loc r body c o : list_ends body o → again o = true → ends (St.DoWhile loc r body c) Normal
  | e_do_again loc r body c o o' :
      list_ends body o → again o = true → ends (St.DoWhile loc r body c) o' → ends (St.DoWhile loc r body c) o'
  | e_do_left loc r body c o o' : list_ends body o → loop_end o = Some o' → ends (St.DoWhile loc r body c) o'
  | e_for_init loc r init c next body o :
      list_ends init o → o ≠ Normal → ends (St.For loc r init c next body) o
  | e_for loc r init c next body o :
      list_ends init Normal → turns (is_Some c) body o → ends (St.For loc r init c next body) o
(** The turns of a [for], which only a condition can end. *)
with turns : Prop → list St.Statement → ending → Prop :=
  | t_done (c : Prop) body : c → turns c body Normal
  | t_again c body o o' : list_ends body o → again o = true → turns c body o' → turns c body o'
  | t_left c body o o' : list_ends body o → loop_end o = Some o' → turns c body o'
with list_ends : list St.Statement → ending → Prop :=
  | l_nil : list_ends [] Normal
  | l_next x l o : ends x Normal → list_ends l o → list_ends (x :: l) o
  | l_stop x l o : ends x o → o ≠ Normal → list_ends (x :: l) o.

Lemma list_ends_app l l' o :
  list_ends (l ++ l') o → (list_ends l o ∧ o ≠ Normal) ∨ (list_ends l Normal ∧ list_ends l' o).
Proof.
  induction l as [|x l IH]; cbn; [right; split; [constructor|done]|]. inversion 1; subst.
  - destruct IH as [[? ?]|[? ?]]; [done|left|right]; (split; [by apply l_next|done]).
  - left. split; [by apply l_stop|done].
Qed.
Lemma list_ends_one x o : list_ends [x] o → ends x o.
Proof. inversion 1 as [|? ? ? Hx Hl|]; subst; [|done]. by inversion Hl; subst. Qed.

(** How a loop can be left. *)
Definition left_by (body : list St.Statement) (o : ending) : Prop := o = Normal ∨ (o = Returned ∧ list_ends body Returned).
Lemma loop_end_left body o o' : list_ends body o → loop_end o = Some o' → left_by body o'.
Proof. intros Hb. destruct o; intros [= <-]; [by left|by right]. Qed.
Lemma while_ends loc r c body o : ends (St.While loc r c body) o → left_by body o.
Proof.
  remember (St.While loc r c body) as x eqn:Hx. induction 1; simplify_eq; try (by left); try (by auto); by eapply loop_end_left.
Qed.
Lemma do_while_ends loc r body c o : ends (St.DoWhile loc r body c) o → left_by body o.
Proof.
  remember (St.DoWhile loc r body c) as x eqn:Hx. induction 1; simplify_eq; try (by left); try (by auto); by eapply loop_end_left.
Qed.
(** Without a condition, a break or a return. *)
Lemma turns_ends c body o :
  turns c body o → (o = Normal ∧ (c ∨ list_ends body Broke)) ∨ (o = Returned ∧ list_ends body Returned).
Proof.
  induction 1 as [| |? ? o o' Hb Ho]; [by auto|by auto|]. destruct o; cbn in Ho; simplify_eq; auto.
Qed.

(** ** Results of calls, whatever the state *)

Definition gives {A} (m : R A) (Q : A → Prop) : Prop := ∀ s a s', m s = Ret (Some a, s') → Q a.

Lemma gives_ret {A} (a : A) (Q : A → Prop) : Q a → gives (mret a) Q.
Proof. by intros HQ s b s' [= <- _]. Qed.
Lemma gives_bind {A B} (m : R A) (f : A → R B) P Q : gives m P → (∀ a, P a → gives (f a) Q) → gives (m ≫= f) Q.
Proof.
  intros Hm Hf s b s' H. unfold mbind, R_bind in H. destruct (m s) as [[[a|] s1]| |] eqn:E; cbn in H; try done.
  by eapply Hf, H; eapply Hm.
Qed.
Lemma gives_any {A B} (m : R A) (f : A → R B) Q : (∀ a, gives (f a) Q) → gives (m ≫= f) Q.
Proof. intros Hf. apply (gives_bind _ _ (λ _, True)); [done|auto]. Qed.
Lemma gives_mono {A} (m : R A) (P Q : A → Prop) : gives m P → (∀ a, P a → Q a) → gives m Q.
Proof. intros Hm HQ s a s' H. by eapply HQ, Hm. Qed.
Lemma gives_lift {A} (m : comp A) : gives (lift m) (λ a, m = Ret a).
Proof. intros s a s'. unfold lift. destruct m; cbn; by intros [= -> _]. Qed.
Lemma gives_in_scope {A} (m : R A) Q : gives m Q → gives (in_scope m) Q.
Proof.
  intros Hm. apply gives_any. intros _. apply (gives_bind _ _ Q); [done|]. intros a Ha. apply gives_any. intros _.
  by apply gives_ret.
Qed.
Lemma gives_err {A} Q : gives (err : R A) Q.
Proof. by intros s a s'. Qed.
Lemma gives_fail {A} d Q : gives (fail (A := A) d) Q.
Proof. by intros s a s'. Qed.
Lemma gives_fail_ns {A} d Q : gives (fail_ns (A := A) d) Q.
Proof. apply gives_any. intros _. apply gives_err. Qed.
Lemma gives_foldR {A B} (f : B → A → R B) (I : B → Prop) l b :
  I b → (∀ b a, a ∈ l → I b → gives (f b a) I) → gives (foldR f b l) I.
Proof.
  revert b. induction l as [|a l IH]; intros b Hb Hf; [by apply gives_ret|]. cbn.
  eapply gives_bind; [apply Hf; [by left|done]|]. intros b' Hb'. apply IH; [done|]. intros. apply Hf; [by right|done].
Qed.

Lemma gives_as_lvalue {A} (m : R A) Q : gives m Q → gives (as_lvalue m) Q.
Proof.
  intros Hm s a s'. unfold as_lvalue. destruct (m _) as [[[b|] s1]| |] eqn:E; cbn; try done. intros [= -> _].
  by eapply Hm.
Qed.

(** ** The loops around a statement *)

(** Only the innermost loop is counted for. *)
Definition counted_in (a b : LoopScopes) : Prop :=
  match a, b with
  | [], [] => True
  | x :: a, y :: b => a = b ∧ (no_breaks x ≤ no_breaks y)%nat ∧ (no_continues x ≤ no_continues y)%nat
  | _, _ => False
  end.
#[export] Instance counted_in_pre : PreOrder counted_in.
Proof.
  split; [by intros [|]|]. intros [|x a] [|y b] [|z c]; try done. cbn. intros (-> & ? & ?) (-> & ? & ?). split_and!; lia || done.
Qed.
Definition breaks (l : LoopScopes) : nat := match l with s :: _ => no_breaks s | [] => 0 end.
Definition continues (l : LoopScopes) : nat := match l with s :: _ => no_continues s | [] => 0 end.

(** What the resolution says of the executions of a list of statements: it is
    done only if the next statement can be reached; it is left by a break or a
    continue only if the loop counts it. *)
Record flows (l : list St.Statement) (reachable : bool) (loops loops' : LoopScopes) : Prop := {
  fl_loops : counted_in loops loops';
  fl_normal : list_ends l Normal → reachable = true;
  fl_break : list_ends l Broke → (breaks loops < breaks loops')%nat;
  fl_continue : list_ends l Continued → (continues loops < continues loops')%nat;
}.
Definition flows_from (loops : LoopScopes) (o : outcome) : Prop := flows o.1.1 o.1.2 loops o.2.

Lemma counted_breaks a b : counted_in a b → (breaks a ≤ breaks b)%nat.
Proof. destruct a, b; cbn; naive_solver. Qed.
Lemma counted_continues a b : counted_in a b → (continues a ≤ continues b)%nat.
Proof. destruct a, b; cbn; naive_solver. Qed.
Lemma flows_simple x loops : (∀ o, ends x o → o = Normal) → flows [x] true loops loops.
Proof.
  intros Hx. split; [done|done|..]; intros H%list_ends_one; by apply Hx in H.
Qed.
Lemma flows_nil loops : flows [] true loops loops.
Proof. split; [done|done|..]; inversion 1. Qed.
(** The body of a loop leaves the loops as they were, but for its own. *)
Lemma flows_inner l r loops loops' :
  flows l r (loop_enter loops) loops' → ∃ x, loops' = x :: loops
    ∧ (list_ends l Broke → 0 < no_breaks x)%nat ∧ (list_ends l Continued → 0 < no_continues x)%nat.
Proof. intros [Hl _ Hb Hc]. destruct loops' as [|x loops']; [done|]. destruct Hl as [<- _]. by exists x. Qed.
Lemma flows_app l r loops loops1 l' r' loops2 :
  flows l r loops loops1 → flows l' r' loops1 loops2 → flows (l ++ l') r' loops loops2.
Proof.
  intros [Hc1 Hn1 Hb1 Ht1] [Hc2 Hn2 Hb2 Ht2]. pose proof (counted_breaks _ _ Hc1). pose proof (counted_breaks _ _ Hc2).
  pose proof (counted_continues _ _ Hc1). pose proof (counted_continues _ _ Hc2).
  split; [by etrans| |..]; intros [[H' ?]|[? H']]%list_ends_app; try done; try (by apply Hn2).
  - specialize (Hb1 H'). lia.
  - specialize (Hb2 H'). lia.
  - specialize (Ht1 H'). lia.
  - specialize (Ht2 H'). lia.
Qed.

Section Flows.
Context {BI : NumBigInt}.
Context (keccak256 : bytes → list Z).
Context (hash_order : list Pt.NamedArgument → list Pt.NamedArgument).
Context (rec : Pt.Expression → ResolveTo → R expression).
Context (rec_type : nat → option nat → Pt.Expression → R ty).

#[local] Abbreviation statement x l := (statement keccak256 hash_order rec rec_type x l).
Definition flow_ok (x : Pt.Statement) : Prop := ∀ loops, gives (statement x loops) (flows_from loops).

Lemma variable_flow loc d init loops :
  gives (variable_definition rec rec_type loc d init) (λ l, flows l true loops loops).
Proof.
  destruct d as [d_loc t sl name]. apply gives_any. intros [vt vl]. do 3 (apply gives_any; intros ?).
  destruct a1; [|apply gives_ret, flows_nil]. apply gives_any. intros _.
  apply gives_ret, flows_simple. by inversion 1.
Qed.
Lemma jump_flow loc what x o count loops :
  (∀ o', ends x o' → o' = o) → o ≠ Normal →
  (let '(b, loops') := count loops in b = true →
    counted_in loops loops' ∧ (o = Broke → breaks loops < breaks loops')%nat
    ∧ (o = Continued → continues loops < continues loops')%nat) →
  gives (jump loc what x count loops) (flows_from loops).
Proof.
  intros Hx Ho Hc. unfold jump. destruct (count loops) as [[] loops']; [|apply gives_fail]. apply gives_ret.
  destruct Hc as (Hl & Hb & Ht); [done|]. split; [exact Hl|..]; cbn; intros H%list_ends_one%Hx; subst; by auto.
Qed.
Lemma expression_flow loc e loops :
  gives (expression_statement keccak256 hash_order rec rec_type loc e) (λ r, flows r.1 r.2 loops loops).
Proof.
  assert (Hexpr : ∀ m : R expression, gives (x ← m; tys ← lift (tys x);
    let reachable := match tys with [t] => negb (Ty.eqb t Ty.Unreachable) | _ => true end in
    mret ([St.Expression_ loc reachable x], reachable)) (λ r, flows r.1 r.2 loops loops)).
  { intros m. apply gives_any. intros x. eapply gives_bind; [apply gives_lift|]. intros l Hl. apply gives_ret.
    split; [done|..]; intros H%list_ends_one; inversion H as [| | | |? ? ? Hn| | | | | | | | | | | | |]; subst. cbn.
    rewrite Hl in Hn. destruct l as [|t [|]]; [done| |done]. apply negb_true_iff.
    destruct (Ty.eqb t Ty.Unreachable) eqn:Ht; [|done]. apply Ty.eqb_spec in Ht. by destruct t. }
  assert (Hone : ∀ m : R St.Statement, gives m (λ x, ∀ o, ends x o → o = Normal) →
    gives (x ← m; mret ([x], true)) (λ r, flows r.1 r.2 loops loops)).
  { intros m Hm. eapply gives_bind; [exact Hm|]. intros x Hx. by apply gives_ret, flows_simple. }
  destruct e; try apply Hexpr.
  - apply Hone. do 3 (apply gives_any; intros ?). destruct a1; try apply gives_fail_ns.
    case_match; [apply gives_fail_ns|]. apply gives_ret. by inversion 1.
  - destruct e1; try apply Hexpr. apply Hone. apply gives_as_lvalue. apply gives_any. intros [? ?].
    apply gives_any. intros ?. apply gives_ret. by inversion 1.
Qed.

Lemma loop_flow c body loops (build : expression → list St.Statement → St.Statement) :
  flow_ok body → (∀ e l o, ends (build e l) o → left_by l o) →
  gives (c ← condition rec c;
         '(l, _, loops) ← in_scope (statement body (loop_enter loops));
         '(_, loops) ← lift (loop_leave loops);
         mret ([build c l], true, loops)) (flows_from loops).
Proof.
  intros Hbody Hends. apply gives_any. intros e. eapply gives_bind; [apply gives_in_scope, Hbody|].
  intros [[l r] loops1] Hl. destruct (flows_inner _ _ _ _ Hl) as (y & Hy & _). cbn in Hy. subst.
  eapply gives_bind; [apply gives_lift|]. intros [? ?] [= <- <-]. apply gives_ret.
  split; [done|done|..]; cbn; intros H%list_ends_one%Hends; destruct H as [|[]]; done.
Qed.
Lemma block_flow loc ss : Forall flow_ok ss → flow_ok (Pt.Block loc ss).
Proof.
  intros Hss loops. cbn [Statements.statement]. rewrite Forall_forall in Hss.
  eapply (gives_bind _ _ (λ r, flows r.1.1.1 r.1.1.2 loops r.2)).
  - apply gives_in_scope, gives_foldR; [apply flows_nil|]. intros [[[l r] rep] loops1] x Hin Hl. apply gives_any. intros _.
    eapply gives_bind; [by apply Hss|]. intros [[l1 r1] loops2] H1. apply gives_ret. by eapply flows_app.
  - intros [[[l r] rep] loops1] [Hc Hn Hb Ht]. apply gives_ret. cbn in *.
    split; [done|..]; cbn; intros H%list_ends_one; inversion H; subst; auto.
Qed.
Lemma if_flow loc c a b : flow_ok a → (∀ x, b = Some x → flow_ok x) → flow_ok (Pt.If loc c a b).
Proof.
  intros Ha Hb loops. cbn [Statements.statement]. apply gives_any. intros e.
  eapply gives_bind; [by apply gives_in_scope, Ha|]. intros [[l1 r1] loops1] H1.
  eapply (gives_bind _ _ (flows_from loops1)).
  { destruct b as [x|]; [by apply gives_in_scope, Hb|]. apply gives_ret, flows_nil. }
  intros [[l2 r2] loops2] H2. apply gives_ret. destruct H1 as [Hc1 Hn1 Hb1 Ht1], H2 as [Hc2 Hn2 Hb2 Ht2]. cbn in *.
  pose proof (counted_breaks _ _ Hc1). pose proof (counted_breaks _ _ Hc2).
  pose proof (counted_continues _ _ Hc1). pose proof (counted_continues _ _ Hc2).
  split; cbn; [by etrans|..]; intros He%list_ends_one; inversion He; subst; rewrite ?orb_true_iff; auto.
  - specialize (Hb1 ltac:(done)). lia.
  - specialize (Hb2 ltac:(done)). lia.
  - specialize (Ht1 ltac:(done)). lia.
  - specialize (Ht2 ltac:(done)). lia.
Qed.
Lemma optional_flow o loops :
  (∀ x, o = Some x → flow_ok x) →
  gives (match o with Some x => statement x loops | None => mret ([], true, loops) end) (flows_from loops).
Proof. intros Ho. destruct o as [x|]; [by apply Ho|]. apply gives_ret, flows_nil. Qed.
Lemma for_flows loc r init c next body loops loops1 r1 :
  flows init r1 loops loops1 → (is_Some c ∨ list_ends body Broke → r = true) →
  flows [St.For loc r init c next body] r loops loops1.
Proof.
  intros [Hc Hn Hb Ht] Hr. split; [exact Hc|..]; cbn; intros He%list_ends_one.
  all: inversion He as [| | | | | | | | | | | | | | | |? ? ? ? ? ? ? Hi Ho|? ? ? ? ? ? ? Hi Htu]; subst; auto.
  all: destruct (turns_ends _ _ _ Htu) as [[? ?]|[? ?]]; auto; done.
Qed.
Lemma for_flow loc init c next body :
  (∀ x, init = Some x → flow_ok x) → (∀ x, body = Some x → flow_ok x) → flow_ok (Pt.For loc init c next body).
Proof.
  intros Hi Hb loops. destruct c as [c|]; cbn [Statements.statement]; apply gives_in_scope.
  all: eapply gives_bind; [by apply optional_flow|]; intros [[l1 r1] loops1] H1; cbn in H1.
  - do 3 (apply gives_any; intros ?). eapply gives_bind; [by apply optional_flow|]. intros [[l2 r2] loops2] H2.
    destruct (flows_inner _ _ _ _ H2) as (y & Hy & _). cbn in Hy. subst.
    eapply gives_bind; [apply gives_lift|]. intros [ctl loops3] [= <- <-]. apply gives_any. intros ?. apply gives_ret.
    by eapply for_flows.
  - eapply gives_bind; [by apply optional_flow|]. intros [[l2 r2] loops2] H2.
    destruct (flows_inner _ _ _ _ H2) as (y & Hy & Hbr & _). cbn in Hy, Hbr. subst.
    eapply gives_bind; [apply gives_lift|]. intros [ctl loops3] [= <- <-]. apply gives_any. intros ?. apply gives_ret.
    eapply for_flows; [exact H1|]. intros [[? ?]|?%Hbr]; [done|]. by apply Nat.ltb_lt.
Qed.
Lemma statement_flow x : flow_ok x.
Proof.
  induction x as [l ss IH|l c a b IHa IHb|l c b IH|l b c IH|l i c nx b IHi IHb|x Hx] using pt_statement_ind; intros loops.
  - by apply block_flow.
  - by apply if_flow.
  - apply (loop_flow c b loops (St.While l true)); [exact IH|apply while_ends].
  - apply (loop_flow c b loops (λ e l', St.DoWhile l true l' e)); [exact IH|intros ??; apply do_while_ends].
  - by apply for_flow.
  - destruct x; try done; cbn [Statements.statement]; try apply gives_fail_ns.
    + eapply gives_bind; [apply (expression_flow _ _ loops)|]. intros [l' r] Hl. by apply gives_ret.
    + eapply gives_bind; [apply (variable_flow _ _ _ loops)|]. intros l' Hl. by apply gives_ret.
    + apply (jump_flow _ _ _ Continued); [by inversion 1|done|]. destruct loops; cbn; [done|]. intros _.
      split_and!; [done|lia|lia|done|lia].
    + apply (jump_flow _ _ _ Broke); [by inversion 1|done|]. destruct loops; cbn; [done|]. intros _.
      split_and!; [done|lia|lia|lia|done].
    + apply (gives_bind _ _ (λ y, ∀ o, ends y o → o = Returned)).
      { destruct e as [e|]; repeat (apply gives_any; intros ?); [apply gives_ret; by inversion 1|].
        case_match; [apply gives_ret; by inversion 1|apply gives_fail_ns]. }
      intros y Hy. apply gives_ret. split; [done|..]; cbn; intros He%list_ends_one%Hy; done.
Qed.

(** The update of a loop is left out only if no turn can reach it. *)
Lemma for_update loc init c e body loops :
  gives (statement (Pt.For loc init (Some c) (Some e) body) loops)
    (λ o, ∃ i x y l, o.1.1 = [St.For loc true i (Some x) y l] ∧ (y = None → ∀ o, list_ends l o → again o = false)).
Proof.
  cbn [Statements.statement]. apply gives_in_scope, gives_any. intros [[l1 r1] loops1]. do 3 (apply gives_any; intros ?).
  eapply gives_bind; [apply (optional_flow body (loop_enter loops1)); intros; apply statement_flow|].
  intros [[l2 r2] loops2] H2. destruct (flows_inner _ _ _ _ H2) as (y & Hy & _ & Hct). cbn in Hy, Hct. subst.
  eapply gives_bind; [apply gives_lift|]. intros [ctl loops3] [= <- <-].
  eapply (gives_bind _ _ (λ z, z = None → r2 = false ∧ no_continues y = 0%nat)).
  - destruct (r2 || (0 <? no_continues y)%nat) eqn:Hz; [apply gives_any; intros ?; by apply gives_ret|].
    apply gives_ret. intros _. apply orb_false_iff in Hz as [-> Hz%Nat.ltb_ge]. split; [done|lia].
  - intros z Hz. apply gives_ret. do 4 eexists. split; [done|]. intros [-> Hno]%Hz o Ho. destruct o; try done.
    + by apply (fl_normal _ _ _ _ H2) in Ho.
    + apply Hct in Ho. lia.
Qed.

(** ** The body of a function *)

Definition unnamed (x : Loc * option Pt.Parameter_) : Prop := ∀ q, x.2 = Some q → Pt.pa_name q = None.
Lemma add_returns_required rets l j b :
  Forall unnamed l → (b = true ∨ ∃ i p, (i < length l)%nat ∧ rets !! (j + i)%nat = Some p ∧ is_contract_storage (p_ty p) = true) →
  gives (foldR (λ b x, add_returns rets b x) b (imap (λ i, pair (j + i)%nat) l)) (λ b, b = true).
Proof.
  revert j b. induction l as [|[loc p] l IH]; intros j b Hl Hb.
  - apply gives_ret. destruct Hb as [->|(i & ? & Hi & _)]; [done|cbn in Hi; lia].
  - apply Forall_cons in Hl as [Hx Hl]. cbn [imap foldR]. rewrite Nat.add_0_r.
    eapply (gives_bind _ _ (λ b', b' = true ∨ ∃ i p, (i < length l)%nat ∧ rets !! (S j + i)%nat = Some p
      ∧ is_contract_storage (p_ty p) = true)).
    + cbn. eapply gives_bind; [apply gives_lift|]. intros ret Hret. eapply gives_bind; [apply gives_lift|]. intros q Hq.
      destruct p as [q'|]; [|done]. injection Hq as ->. rewrite (Hx q eq_refl).
      do 3 (apply gives_any; intros ?). apply gives_ret. destruct Hb as [->|(i & r & Hi & Hr & Hs)]; [by left|].
      destruct i as [|i]; [|right; exists i, r; cbn in Hi; rewrite <-plus_n_Sm in Hr; split_and!; [lia|done|done]].
      rewrite Nat.add_0_r in Hr. rewrite Hr in Hret. injection Hret as ->. left. by rewrite Hs, orb_true_r.
    + intros b' Hb'. erewrite imap_ext; [by apply (IH (S j))|]. intros i x _. cbn. f_equal. lia.
Qed.
(** What is known of the body that is resolved for [d]. *)
Definition body_flows (d : Pt.FunctionDefinition) (f : Function) (r : option (list St.Statement * bool * bool)) : Prop :=
  match r with
  | Some (l, reachable, required) =>
      (∀ o, list_ends l o → o = Normal ∨ o = Returned) ∧ (list_ends l Normal → reachable = true)
      ∧ (Forall unnamed (Pt.fd_returns d) →
         (∃ i p, (i < length (Pt.fd_returns d))%nat ∧ f_returns f !! i = Some p ∧ is_contract_storage (p_ty p) = true) →
         required = true)
  | None => Pt.fd_body d = None
  end.
Lemma body_of_flows d f : gives (body_of keccak256 hash_order rec rec_type d f) (body_flows d f).
Proof.
  apply gives_any. intros _. eapply (gives_bind _ _ (λ required,
    Forall unnamed (Pt.fd_returns d) →
    (∃ i p, (i < length (Pt.fd_returns d))%nat ∧ f_returns f !! i = Some p ∧ is_contract_storage (p_ty p) = true) →
    required = true)).
  { intros s b s' H Hn Hs. revert H. apply (add_returns_required _ _ 0); [done|by right]. }
  intros required Hreq. destruct (Pt.fd_body d) as [b|] eqn:Hb; [|by apply gives_ret].
  eapply gives_bind; [apply statement_flow|]. intros [[l r] loops] [Hc Hn Hbr Hct]. apply gives_ret. cbn in *.
  split_and!; [|done|done]. destruct loops; [|done]. cbn in *. intros [] Ho; [by left| | |by right].
  - specialize (Hbr Ho). lia.
  - specialize (Hct Ho). lia.
Qed.

(** C32: When the resolution of a statement says that what follows cannot be
    reached, no execution of the resolved statements gets there; and an
    execution that leaves them with a break or a continue has been counted by
    the enclosing loop. *)
Theorem unreachable_is_never_reached x loops s l r loops' s' :
  statement x loops s = Ret (Some (l, r, loops'), s') →
  (r = false → ¬ list_ends l Normal)
  ∧ (list_ends l Broke → (breaks loops < breaks loops')%nat)
  ∧ (list_ends l Continued → (continues loops < continues loops')%nat).
Proof.
  intros H. apply statement_flow in H as [_ Hn Hb Hc]. cbn in *. split_and!; [|done|done].
  intros -> Ho. by apply Hn in Ho.
Qed.

(** The update expression of a for loop with a condition is left out of the
    resolved loop only if no execution of the body can come to it, neither at
    the body's end nor by a continue. *)
Theorem for_update_needed loc init c e body loops s o s' :
  statement (Pt.For loc init (Some c) (Some e) body) loops s = Ret (Some o, s') →
  ∃ i x y l, o.1.1 = [St.For loc true i (Some x) y l] ∧ (y = None → ∀ o, list_ends l o → again o = false).
Proof. apply for_update. Qed.
End Flows.
End Flow.
