(* ===== verification/StatementFacts.v ===== *)
(** The resolution of statements and of function bodies: it comes to an end,
    what fails is reported, what is resolved is well typed, names are visible
    where their scope says. *)
From S2P Require Import Prelude BigIntSpec Ast Types Eval Pt TypeNames SymTable Casts Names Resolver.
From S2P Require Import Literals Operators Access Calls Methods Resolve Statements Typed CastFacts.
From S2P Require Import ResolverFacts Specs OperatorsFacts AccessFacts LiteralFacts CallsFacts.
From S2P Require Import MethodsFacts ResolveFacts StatementRules.
#[local] Set Warnings "-register-all".

Module StatementFacts.
Import ParseDepth Casts Names Resolver Literals Operators Access Calls Methods Resolve Typed CastFacts ResolverFacts.
Import Specs Statements OperatorsFacts AccessFacts LiteralFacts CallsFacts MethodsFacts ResolveFacts StatementRules.

(** ** Well-typed statements *)

Section Good.
Context {CS : Constants}.

(** The values of a return statement or of a destructuring assignment: a
    well-typed expression, or a choice between such values. *)
Inductive given : Ex.expression → Prop :=
  | given_typed e : typed e → given e
  | given_choice l c x y : typed c → given x → given y → given (Ex.ConditionalOperator l Ty.Unreachable c x y).

Definition condition_ok (c : Ex.expression) : Prop := cast_result Ty.Bool c.
Definition if_some {A} (P : A → Prop) (o : option A) : Prop := ∀ a, o = Some a → P a.

Definition field_ok (s : Sym.Symtable) (f : St.DestructureField) : Prop :=
  match f with
  | St.DNone => True
  | St.DExpression e => typed e
  | St.DVariableDecl k p => declared_as s k (p_ty p)
  end.

Fixpoint good (s : Sym.Symtable) (x : St.Statement) : Prop :=
  let all := foldr (λ x P, good s x ∧ P) True in
  match x with
  | St.Block _ l => all l
  | St.VariableDecl_ _ k p init => declared_as s k (p_ty p) ∧ if_some (cast_result (p_ty p)) init
  | St.If _ _ c a b => condition_ok c ∧ all a ∧ all b
  | St.While _ _ c body | St.DoWhile _ _ body c => condition_ok c ∧ all body
  | St.For _ _ init c next body => all init ∧ if_some condition_ok c ∧ if_some typed next ∧ all body
  | St.Delete _ t e => typed e ∧ Ex.ty_of e = Ret (Ty.StorageRef t) ∧ is_mapping t = false
  | St.Destructure _ fields e => Forall (field_ok s) fields ∧ given e
  | St.Expression_ _ r e => typed e ∧ ∃ l, tys e = Ret l ∧ (r = false ↔ l = [Ty.Unreachable])
  | St.Continue _ | St.Break _ => True
  | St.Return_ _ e => if_some given e
  end.
Definition all_good (s : Sym.Symtable) : list St.Statement → Prop := Forall (good s).
Lemma all_good_eq s l : foldr (λ x P, good s x ∧ P) True l ↔ all_good s l.
Proof.
  unfold all_good. induction l as [|x l IH]; cbn; [by split|]. by rewrite Forall_cons, IH.
Qed.
End Good.

(** Induction on the statements inside a resolved statement. *)
Section Induction.
Context (P : St.Statement → Prop).
Definition inside (x : St.Statement) : list St.Statement :=
  match x with
  | St.Block _ l | St.While _ _ _ l | St.DoWhile _ _ l _ => l
  | St.If _ _ _ a b | St.For _ _ a _ _ b => a ++ b
  | _ => []
  end.
Context (H : ∀ x, Forall P (inside x) → P x).

Fixpoint st_ind (x : St.Statement) : P x.
Proof.
  pose (all := fix all (l : list St.Statement) : Forall P l :=
    match l with [] => Forall_nil_2 P | x :: l => Forall_cons_2 P x l (st_ind x) (all l) end).
  apply H. destruct x; cbn; try apply Forall_nil_2; try apply Forall_app_2; apply all.
Qed.
End Induction.

Section Kept.
Context {CS : Constants}.
Context (s s' : Sym.Symtable) (Hk : kept_vars s s').

Lemma field_kept f : field_ok s f → field_ok s' f.
Proof. destruct f; cbn; try done. by apply declared_kept. Qed.
Lemma good_kept x : good s x → good s' x.
Proof.
  induction x as [x IH] using st_ind. destruct x; cbn in *; rewrite ?all_good_eq; unfold all_good in *; try tauto.
  - intros Hl. rewrite Forall_forall in *. naive_solver.
  - intros [? ?]. split; [by eapply declared_kept|done].
  - apply Forall_app in IH as [Ha Hb]. rewrite !Forall_forall in *. naive_solver.
  - rewrite !Forall_forall in *. naive_solver.
  - apply Forall_app in IH as [Ha Hb]. rewrite !Forall_forall in *. naive_solver.
  - rewrite !Forall_forall in *. naive_solver.
  - intros [Hf ?]. split; [|done]. eapply Forall_impl; [exact Hf|]. apply field_kept.
Qed.
Lemma all_good_kept l : all_good s l → all_good s' l.
Proof. intros Hl. eapply Forall_impl; [exact Hl|]. apply good_kept. Qed.
End Kept.

Section Facts.
Context {BI : NumBigInt} {CS : Constants} {ST : Strict}.
Context (keccak256 : bytes → list Z).
Context (hash_order : list Pt.NamedArgument → list Pt.NamedArgument).
Context (Hhash : ∀ l, hash_order l ≡ₚ l).
Context (rec : Pt.Expression → ResolveTo → R Ex.expression).
Context (rec_type : nat → option nat → Pt.Expression → R ty).
Context (k : nat) (Hrec : ∀ e, (depth e ≤ k)%nat → resolves rec e).
Context (Htype : ∀ file c e, (depth e ≤ k)%nat → spec (rec_type file c e) (λ _, True)).

(** ** What is resolved without new variables *)

Lemma optional_spec {A B} (f : A → R B) o P :
  (∀ a, o = Some a → spec (f a) P) → spec (optional f o) (if_some P).
Proof.
  intros Hf. destruct o as [a|]; cbn; [|by apply spec_ret]. eapply spec_bind; [by apply Hf|]. intros b Hb.
  apply spec_ret. by intros ? [= <-].
Qed.
Lemma resolve_var_decl_ty_ok t sl : (depth t ≤ k)%nat → spec (resolve_var_decl_ty rec_type t sl) (λ _, True).
Proof.
  intros Ht. unfold resolve_var_decl_ty. do 2 spec_step. eapply spec_bind; [by apply Htype|]. intros v _.
  eapply (spec_bind _ _ (λ _, True)).
  { destruct sl as [sl|]; [|by apply spec_ret]. destruct (can_have_data_location v); [|apply spec_fail].
    destruct sl; [by apply spec_ret|]. eapply spec_bind; [|intros; by apply spec_ret].
    apply spec_lift, yields_no_fuel, use_end_no_fuel. }
  intros [v' l1] _. eapply spec_bind; [apply spec_read_any; intros; apply contains_mapping_no_fuel|].
  intros b _. spec_step; [spec_go|]. eapply (spec_bind _ _ (λ _, True)).
  { spec_step; [by apply spec_ret|]. apply spec_read_any. intros ns Hw. by apply fits_in_memory_no_fuel, wf_declared. }
  intros fits _. spec_step; [by apply spec_ret|]. by spec_go.
Qed.
Lemma check_cast_ok loc i from t : spec (check_cast loc i from t) (λ _, True).
Proof. eapply spec_bind; [by apply spec_cast, typed_leaf|]. intros. by apply spec_ret. Qed.
Lemma check_casts_ok loc l : spec (check_casts loc l) (λ _, True).
Proof.
  eapply spec_bind; [|intros; by apply spec_ret]. apply (spec_mapR_all _ (λ _, True)).
  intros [i [from t]] _. apply check_cast_ok.
Qed.
Lemma parameter_list_ok e n :
  (depth e ≤ n)%nat → spec (parameter_list_to_expr_list e) (Forall (λ e, depth e ≤ n)%nat).
Proof.
  intros He. destruct e; cbn in He; try (apply spec_ret; by repeat constructor).
  - apply spec_ret. repeat constructor. lia.
  - cbn. assert (Hd : (max_list ((λ p : Loc * option Pt.Parameter_, match p.2 with Some p => depth_parameter p | None => 0 end) <$> ps) ≤ n)%nat) by lia.
    rewrite max_list_le in Hd.
    intros m s. apply ok_bound. intros Hm.
    eapply (ok_seq _ _ _ _ (λ r s', Forall (λ e, depth e ≤ n)%nat r.1 ∧ flagged (count s) r.2 s')).
    + intros j. apply ok_foldR; [split; [by constructor|apply flagged_start]|].
      intros [es b] [loc p] s1 j1 Hin [Hl Hf]. specialize (Hd _ Hin). cbn in Hd, Hl.
      destruct p as [[l1 t [i|]]|]; cbn in Hd; try (eapply ok_report_flag; [exact Hf|by split]).
      apply ok_return. split; [|exact Hf]. apply Forall_app. by repeat constructor.
    + intros [es []] s' _ [Hl [_ Hf]]; [|by apply ok_return]. apply ok_err. specialize (Hf eq_refl). lia.
Qed.

(** ** Returns *)

Lemma check_return_count_ok loc n m : spec (check_return_count loc n m) (λ _, True).
Proof. unfold check_return_count. by spec_go. Qed.
Lemma return_types_ok : spec return_types (λ _, True).
Proof.
  unfold return_types. spec_step. eapply spec_bind; [apply spec_unwrap|]. intros n _.
  eapply (spec_bind _ _ (λ _, True)); [apply spec_read_any; intros; apply unwrap_no_fuel|intros; by apply spec_ret].
Qed.
Lemma spec_tys_eq e : spec (lift (tys e)) (λ l, tys e = Ret l).
Proof. apply spec_lift_self, tys_no_fuel. Qed.
Lemma returned_call_ok loc ts x : typed x → spec (returned_call loc ts x) typed.
Proof.
  intros Hx. eapply spec_bind; [apply spec_tys|]. intros l _. eapply spec_bind; [apply check_return_count_ok|].
  intros _ _. eapply spec_bind; [apply check_casts_ok|]. intros _ _. by apply spec_ret.
Qed.
Lemma typed_list loc l : Forall typed l → typed (Ex.List_ loc l).
Proof. intros Hl. by apply (typed_all l). Qed.
Lemma returned_list_ok loc ts e : (depth e ≤ k)%nat → spec (returned_list rec loc ts e) typed.
Proof.
  intros He. eapply spec_bind; [by apply (parameter_list_ok e k)|]. intros l Hl. rewrite Forall_forall in Hl.
  eapply spec_bind; [apply check_return_count_ok|]. intros _ _. eapply (spec_bind _ _ (Forall typed)).
  - apply spec_mapR_all. intros [a t] Ha%elem_of_zip_l. eapply spec_bind; [by apply Hrec, Hl|]. intros x Hx.
    eapply spec_bind; [by apply spec_cast|]. intros y [Hy _]. spec_step. by apply spec_ret.
  - intros xs Hxs. apply spec_ret. destruct xs as [|x [|y xs]]; [by apply typed_list| |by apply typed_list].
    by apply Forall_inv in Hxs.
Qed.
(** A choice between two values. *)
Lemma choice_ok l c a b (m m' : Loc → R Ex.expression) :
  resolves rec c → (∀ loc, spec (m loc) given) → (∀ loc, spec (m' loc) given) →
  spec (c ← rec c (To Ty.Bool);
        _ ← used c;
        a_loc ← pt_loc a; x ← m a_loc; _ ← used x;
        b_loc ← pt_loc b; y ← m' b_loc; _ ← used y;
        mret (Ex.ConditionalOperator l Ty.Unreachable c x y)) given.
Proof.
  intros Hc Hm Hm'. eapply spec_bind; [apply Hc|]. intros c1 Hc1. do 2 spec_step. eapply spec_bind; [apply Hm|].
  intros x Hx. do 2 spec_step. eapply spec_bind; [apply Hm'|]. intros y Hy. spec_step. apply spec_ret.
  by apply given_choice.
Qed.
Lemma resolves_call l t args to_ :
  (depth (Pt.FunctionCall l t args) ≤ k)%nat →
  spec (Statements.call_expr keccak256 hash_order rec rec_type l t args to_) typed.
Proof.
  intros He. cbn in He. eapply (call_expr_ok keccak256 hash_order Hhash rec rec_type k); [done|done|lia|].
  apply args_in. lia.
Qed.
Lemma resolves_named l t args b to_ :
  (depth (Pt.NamedFunctionCall l t args) ≤ k)%nat → spec (Statements.named_call_expr rec rec_type l t args b to_) typed.
Proof.
  intros He. cbn in He. eapply (named_call_expr_ok rec rec_type k); [done|done|lia|].
  apply named_args_in. lia.
Qed.
Lemma then_given {A} (m : R A) (f : A → R Ex.expression) P :
  spec m P → (∀ a, P a → spec (f a) typed) → spec (m ≫= f) given.
Proof. intros Hm Hf. eapply spec_bind; [exact Hm|]. intros a Ha. eapply spec_mono; [by apply Hf|]. apply given_typed. Qed.

Lemma return_with_values_ok e loc :
  (depth e ≤ k)%nat → spec (return_with_values keccak256 hash_order rec rec_type e loc) given.
Proof.
  assert (H : ∀ n e loc, (depth e ≤ n)%nat → (n ≤ k)%nat →
    spec (return_with_values keccak256 hash_order rec rec_type e loc) given).
  { clear e loc. induction n as [|n IH]; intros e loc He Hn; [destruct e; cbn in He; lia|].
    assert (Hlist : ∀ ts, spec (returned_list rec loc ts e) given).
    { intros ts. eapply spec_mono; [apply returned_list_ok; lia|]. apply given_typed. }
    destruct e; cbn [return_with_values]; (eapply spec_bind; [apply return_types_ok|]); intros ts _;
      cbn [Pt.remove_parenthesis]; try exact (Hlist ts).
    1: destruct e; try exact (Hlist ts).
    all: cbn in He.
    all: first [apply choice_ok; [apply Hrec; lia|intros; apply IH; lia..]
               |eapply then_given; [apply resolves_call; cbn; lia|]; intros x Hx; spec_step; by apply returned_call_ok
               |eapply then_given; [apply resolves_named; cbn; lia|]; intros x Hx; spec_step; by apply returned_call_ok]. }
  intros He. by apply (H k).
Qed.

(** ** Destructuring assignments *)

Lemma destructured_ok loc ts fields x P : P x → spec (destructured loc ts fields x) P.
Proof.
  intros Hx. eapply spec_bind; [apply spec_tys|]. intros l _. cbv zeta. spec_step; [|apply spec_fail].
  eapply (spec_bind _ _ (Forall (λ _, True))); [|intros; by apply spec_ret]. apply spec_mapR_all.
  intros [i f] _. eapply spec_bind; [apply spec_unwrap|]. intros [t|] _; [|by apply spec_ret].
  do 2 (eapply spec_bind; [apply spec_unwrap|]; intros ? _). apply check_cast_ok.
Qed.
Lemma destructured_list_ok loc ts e : (depth e ≤ k)%nat → spec (destructured_list rec loc ts e) typed.
Proof.
  intros He. eapply spec_bind; [by apply (parameter_list_ok e k)|]. intros l Hl. rewrite Forall_forall in Hl.
  spec_step; [|apply spec_fail]. eapply (spec_bind _ _ (Forall typed)); [|intros; by apply spec_ret, typed_list].
  apply spec_mapR_all. intros [a t] Ha%elem_of_zip_l. eapply spec_bind; [by apply Hrec, Hl|]. intros x Hx.
  eapply spec_bind; [apply spec_ty_of|]. intros xt _. destruct xt; try apply spec_fail; spec_step; by apply spec_ret.
Qed.
Lemma destructured_call loc ts fields (m : R Ex.expression) :
  spec m typed →
  spec (x ← m; _ ← use (Usage.check_function_call x); destructured loc ts fields x) given.
Proof. intros Hm. eapply spec_bind; [exact Hm|]. intros x Hx. spec_step. by apply destructured_ok, given_typed. Qed.
Lemma destructures_call l t args to_ :
  (depth (Pt.FunctionCall l t args) ≤ k)%nat →
  spec (function_call_expr keccak256 hash_order rec rec_type l t args to_) typed.
Proof.
  intros He. cbn in He. eapply (function_call_expr_ok keccak256 hash_order Hhash rec rec_type k); [done|done|lia|].
  apply args_in. lia.
Qed.
Lemma destructures_named l t args to_ :
  (depth (Pt.NamedFunctionCall l t args) ≤ k)%nat → spec (named_function_call_expr rec l t args to_) typed.
Proof.
  intros He. cbn in He. eapply (named_function_call_expr_ok rec k); [done|lia|]. apply named_args_in. lia.
Qed.
Lemma destructure_values_ok e loc ts fields :
  (depth e ≤ k)%nat → spec (destructure_values keccak256 hash_order rec rec_type loc e ts fields) given.
Proof.
  assert (H : ∀ n e loc, (depth e ≤ n)%nat → (n ≤ k)%nat →
    spec (destructure_values keccak256 hash_order rec rec_type loc e ts fields) given).
  { clear e loc. induction n as [|n IH]; intros e loc He Hn; [destruct e; cbn in He; lia|].
    assert (Hlist : spec (x ← destructured_list rec loc ts e; destructured loc ts fields x) given).
    { eapply spec_bind; [apply destructured_list_ok; lia|]. intros x Hx. by apply destructured_ok, given_typed. }
    destruct e; cbn [destructure_values Pt.remove_parenthesis]; try exact Hlist.
    1: destruct e; try exact Hlist.
    all: cbn in He.
    all: first [apply choice_ok; [apply Hrec; lia|intros; apply IH; lia..]
               |apply destructured_call; apply destructures_call; cbn; lia
               |apply destructured_call; apply destructures_named; cbn; lia]. }
  intros He. by apply (H k).
Qed.
Lemma check_place_ok loc x : spec (check_place loc x) (λ _, True).
Proof.
  assert (Hname : ∀ f : Namespace → comp string, (∀ ns, f ns ≠ OutOfFuel) → spec (name ← read_ns f;
    fail (A := unit) (Diag.error loc ("cannot assign to constant '" +:+ name +:+ "'"))) (λ _, True)).
  { intros f Hf. eapply (spec_bind _ _ (λ _, True)); [by apply spec_read_any|intros; apply spec_fail]. }
  destruct x; try (eapply spec_bind; [apply spec_ty_of|]; intros xt _; destruct xt; try apply spec_fail; by apply spec_ret);
    [by apply spec_ret|].
  destruct contract_no0; apply Hname; intros; repeat (apply bind_unwrap_no_fuel; intros); done.
Qed.

(** ** Declarations *)

Lemma shadowing_warns ns f c i :
  Names.check_shadowing ns f c i = ns ∨ ∃ d, Names.check_shadowing ns f c i = push_diag d ns.
Proof.
  unfold Names.check_shadowing. destruct (Corelib.is_reserved _); [by right; eexists|].
  destruct (or_else _ _) as [[]|]; by (left + right; eexists).
Qed.
Lemma check_shadowing_ok i : spec (check_shadowing i) (λ _, True).
Proof.
  unfold check_shadowing. spec_step. apply spec_modify_ns. intros ns. cbn [yields].
  destruct (shadowing_warns ns (file_no a) (contract_no a) i) as [->|[d ->]]; (split; [reflexivity|]); [reflexivity|].
  apply grown_push.
Qed.
Lemma variable_definition_ok loc d init s n :
  (statement_depth (Pt.VariableDefinition loc d init) ≤ k)%nat →
  runs n (variable_definition rec rec_type loc d init) s (λ l s', all_good (st_sym s') l).
Proof.
  destruct d as [d_loc t sl name]. cbn. intros Hd.
  eapply runs_then; [apply resolve_var_decl_ty_ok; lia|]. intros [vt vl] s1 _ _ k1.
  eapply runs_then.
  { apply (optional_spec _ _ (cast_result vt)). intros e ->. cbn in Hd. eapply spec_bind; [apply Hrec; lia|].
    intros x Hx. do 2 spec_step. by apply spec_cast. }
  intros x s2 _ Hx k2. eapply runs_then; [apply spec_unwrap|]. intros i s3 _ _ k3.
  eapply runs_seq; [intros; apply runs_add_variable|]. intros [p|] s4 _ Hp k4; [|by apply runs_return; constructor].
  eapply runs_then; [apply check_shadowing_ok|]. intros _ s5 Hk _ k5. apply runs_return, Forall_singleton.
  split; [by eapply declared_kept, Hp; apply k_vars|exact Hx].
Qed.

Lemma destructure_field_ok acc p s n :
  (∀ x, p = Some x → depth_parameter x ≤ k)%nat → Forall (field_ok (st_sym s)) acc.2 →
  runs n (destructure_field rec rec_type acc p) s (λ r s', Forall (field_ok (st_sym s')) r.2).
Proof.
  intros Hd Hf. destruct acc as [ts fs]. cbn in Hf.
  assert (Hkeep : ∀ s', kept_names (st_sym s) (st_sym s') → Forall (field_ok (st_sym s')) fs).
  { intros s' Hk. eapply Forall_impl; [exact Hf|]. intros f. by apply field_kept, k_vars. }
  destruct p as [[l t [i|]]|]; cbn.
  - specialize (Hd _ eq_refl). cbn in Hd. eapply runs_then; [by apply resolve_var_decl_ty_ok|].
    intros [vt vl] s1 Hk1 _ k1. eapply runs_seq; [intros; apply runs_add_variable|]. intros [q|] s2 Hk2 Hq k2.
    + eapply runs_then; [apply check_shadowing_ok|]. intros _ s3 Hk3 _ k3. apply runs_return, Forall_app. split.
      * apply Hkeep. by do 2 (etrans; [eassumption|]).
      * apply Forall_singleton. by eapply declared_kept, Hq; apply k_vars.
    + apply runs_return, Hkeep. by etrans.
  - specialize (Hd _ eq_refl). cbn in Hd. eapply runs_then; [by apply Hrec|]. intros x s1 Hk1 Hx k1.
    eapply runs_then; [apply check_place_ok|]. intros _ s2 Hk2 _ k2.
    eapply runs_then; [apply spec_assigned|]. intros _ s3 Hk3 _ k3.
    eapply runs_then; [apply spec_ty_of|]. intros xt s4 Hk4 _ k4. apply runs_return, Forall_app. split; [|by apply Forall_singleton].
    apply Hkeep. by do 3 (etrans; [eassumption|]).
  - apply runs_return, Forall_app. split; [done|]. by apply Forall_singleton.
Qed.
Lemma destructure_ok loc l vars e s n :
  (depth (Pt.List_ l vars) ≤ k)%nat → (depth e ≤ k)%nat →
  runs n (destructure keccak256 hash_order rec rec_type loc vars e) s (λ x s', good (st_sym s') x).
Proof.
  intros Hv He. apply runs_as_lvalue; [|intros a s1 s2 ->; done]. clear s n. intros s n.
  eapply (runs_seq _ _ _ _ (λ r s', Forall (field_ok (st_sym s')) r.2)).
  - intros j. apply runs_foldR; [by constructor|]. intros acc [lv p] s1 j1 Hin Hacc.
    apply destructure_field_ok; [|done]. cbn. intros x ->. cbn in Hv.
    assert (Hle : (max_list ((λ p : Loc * option Pt.Parameter_,
      match p.2 with Some p => depth_parameter p | None => 0 end) <$> vars) ≤ k)%nat) by lia.
    by apply (proj1 (max_list_le _ _ _) Hle (lv, Some x)).
  - intros [ts fs] s1 _ Hfs j. eapply runs_then; [by apply destructure_values_ok|]. intros x s2 Hk2 Hx j2.
    apply runs_return. split; [|exact Hx]. eapply Forall_impl; [exact Hfs|]. intros f. by apply field_kept, k_vars.
Qed.

(** ** Statements *)

Definition one (x : St.Statement) (s : state) : Prop := good (st_sym s) x.
Definition all (l : list St.Statement) (s : state) : Prop := all_good (st_sym s) l.
Lemma all_one x s : good (st_sym s) x → all [x] s.
Proof. intros Hx. by apply Forall_singleton. Qed.

Lemma condition_spec c : (depth c ≤ k)%nat → spec (condition rec c) condition_ok.
Proof. intros Hc. eapply spec_bind; [by apply Hrec|]. intros x Hx. spec_step. by apply spec_cast. Qed.
Lemma delete_statement_ok loc e s n :
  (depth e ≤ k)%nat → runs n (delete_statement rec loc e) s one.
Proof.
  intros He. eapply runs_then; [by apply Hrec|]. intros x s1 _ Hx j1. eapply runs_then; [apply spec_used|].
  intros _ s2 _ _ j2. eapply runs_then; [apply spec_ty_of|]. intros t s3 _ Ht j3.
  destruct t; try apply runs_fail_ns. destruct (is_mapping _) eqn:Hm; [apply runs_fail_ns|].
  by apply runs_return.
Qed.
Lemma expression_statement_ok loc e s n :
  (depth e ≤ k)%nat →
  runs n (expression_statement keccak256 hash_order rec rec_type loc e) s (λ r s', all r.1 s').
Proof.
  intros He.
  assert (Hexpr : ∀ m : R Ex.expression, spec m typed → runs n (x ← m; tys ← lift (tys x);
    let reachable := match tys with [t] => negb (Ty.eqb t Ty.Unreachable) | _ => true end in
    mret ([St.Expression_ loc reachable x], reachable)) s (λ r s', all r.1 s')).
  { intros m Hm. eapply runs_then; [exact Hm|]. intros x s1 _ Hx j1. eapply runs_then; [apply spec_tys_eq|].
    intros l s2 _ Hl j2. apply runs_return, all_one. split; [done|]. exists l. split; [done|].
    destruct l as [|t [|]]; [done| |done]. rewrite negb_false_iff. split; [intros H%Ty.eqb_spec; by destruct t|].
    intros [= ->]. apply eqb_refl. }
  assert (Hone : ∀ m : R St.Statement, (∀ j, runs j m s one) → runs n (x ← m; mret ([x], true)) s (λ r s', all r.1 s')).
  { intros m Hm. eapply runs_seq; [exact Hm|]. intros x s1 _ Hx j. by apply runs_return, all_one. }
  destruct e; try (apply Hexpr, Hrec; exact He); cbn in He.
  - apply Hexpr. eapply spec_bind; [apply resolves_call; cbn; lia|]. intros x Hx. spec_step. by apply spec_ret.
  - apply Hexpr. eapply spec_bind; [apply resolves_named; cbn; lia|]. intros x Hx. spec_step. by apply spec_ret.
  - apply Hone. intros j. apply delete_statement_ok. lia.
  - destruct e1; try (apply Hexpr, Hrec; cbn in He |- *; lia). apply Hone. intros j.
    apply (destructure_ok loc l0); cbn in He |- *; lia.
Qed.
Lemma assigned_returns_ok l : spec (mapR (λ j, use (Usage.update_var set_assigned j)) l) (λ _, True).
Proof.
  eapply spec_mono; [apply (spec_mapR_all _ (λ _, True))|done]. intros j _. apply spec_use, update_var_marks. by intros [].
Qed.
Lemma return_statement_ok loc e s n :
  (opt_depth e ≤ k)%nat → runs n (return_statement keccak256 hash_order rec rec_type loc e) s one.
Proof.
  intros He. destruct e as [e|]; cbn.
  - eapply runs_then; [by apply return_with_values_ok|]. intros x s1 _ Hx j1.
    eapply runs_then; [apply spec_check_overflow|]. intros _ s2 _ _ j2.
    eapply runs_then; [apply spec_get_sym|]. intros t s3 _ _ j3.
    eapply runs_then; [apply assigned_returns_ok|]. intros _ s4 _ _ j4. apply runs_return. by intros ? [= <-].
  - eapply runs_then; [apply return_types_ok|]. intros ts s1 _ _ j1.
    eapply runs_then; [apply spec_get_sym|]. intros t s2 _ _ j2. destruct (_ =? _)%nat; [|apply runs_fail_ns].
    by apply runs_return.
Qed.

#[local] Abbreviation statement s l := (statement keccak256 hash_order rec rec_type s l).
Definition resolved_in (o : outcome) (s : state) : Prop := all o.1.1 s.
Definition resolves_statement (x : Pt.Statement) : Prop :=
  (statement_depth x ≤ k)%nat → ∀ loops s n, runs n (statement x loops) s resolved_in.
Lemma all_kept l s s' : kept_names (st_sym s) (st_sym s') → all l s → all l s'.
Proof. intros Hk. by apply all_good_kept, k_vars. Qed.
Lemma in_scope_ok (m : R outcome) s n :
  (∀ s j, runs j m s resolved_in) → runs n (in_scope m) s resolved_in.
Proof.
  intros Hm. eapply runs_mono; [apply (runs_in_scope _ _ _ resolved_in); [exact Hm|]|by intros ??? []].
  intros o s1 s2 Hv. apply all_good_kept. intros j v. rewrite Hv. eauto.
Qed.
Lemma loop_leave_ok loops : spec (lift (SymTable.SymTable.loop_leave loops)) (λ _, True).
Proof. apply spec_lift. destruct loops; cbn; naive_solver. Qed.
Lemma jump_ok loc what x count loops s n : one x s → runs n (jump loc what x count loops) s resolved_in.
Proof.
  intros Hx. unfold jump. destruct (count loops) as [[] loops1].
  - apply runs_return. by apply all_one.
  - apply (runs_mono _ _ _ (λ _ _, False)); [|done]. apply (runs_spec _ _ _ (λ _, False)), spec_fail.
Qed.
Lemma optional_statement_ok o loops s n :
  (∀ x, o = Some x → resolves_statement x) →
  (match o with Some x => statement_depth x | None => 0 end ≤ k)%nat →
  runs n (match o with Some x => statement x loops | None => mret ([], true, loops) end) s resolved_in.
Proof. intros Ho Hd. destruct o as [x|]; [by apply Ho|]. apply runs_return. constructor. Qed.

(** A loop around a body, with a condition checked before. *)
Lemma loop_ok c (build : Ex.expression → list St.Statement → St.Statement) body loops s n :
  (depth c ≤ k)%nat → (∀ s j l, runs j (statement body l) s resolved_in) →
  (∀ c l s, condition_ok c → all l s → one (build c l) s) →
  runs n (c ← condition rec c;
          '(l, _, loops) ← in_scope (statement body (SymTable.SymTable.loop_enter loops));
          '(_, loops) ← lift (SymTable.SymTable.loop_leave loops);
          mret ([build c l], true, loops)) s resolved_in.
Proof.
  intros Hc Hbody Hbuild. eapply runs_then; [by apply condition_spec|]. intros x s1 _ Hx j1.
  eapply runs_seq; [intros j; by apply in_scope_ok|]. intros [[l r] loops1] s2 _ Hl j2.
  eapply runs_then; [apply loop_leave_ok|]. intros [? loops2] s3 Hk3 _ j3. apply runs_return, all_one, Hbuild; [done|].
  by eapply all_kept.
Qed.
Lemma block_ok loc ss loops s n :
  Forall resolves_statement ss → (statement_depth (Pt.Block loc ss) ≤ k)%nat →
  runs n (statement (Pt.Block loc ss) loops) s
    (λ o s', resolved_in o s' ∧ Sym.names (st_sym s') = Sym.names (st_sym s)).
Proof.
  intros Hss Hd. cbn in Hd. rewrite Forall_forall in Hss. cbn [Statements.statement].
  eapply (runs_seq _ _ _ _ (λ r s', all r.1.1.1 s' ∧ Sym.names (st_sym s') = Sym.names (st_sym s))).
  - intros j. apply (runs_in_scope _ _ _ (λ r s, all r.1.1.1 s)).
    + clear s n j. intros s n. apply runs_foldR; [constructor|].
      intros [[[l r] rep] loops1] x s1 j Hin Hl. cbn in Hl.
      assert (Hdx : (statement_depth x ≤ k)%nat) by by apply (proj1 (max_list_le _ _ _) Hd).
      eapply (runs_seq _ _ _ _ (λ _ _, True)).
      { intros j1. destruct (_ && _); [eapply runs_mono; [apply runs_report|done]|by apply runs_return]. }
      intros _ s2 Hk2 _ j2. eapply runs_seq; [intros j1; by apply (Hss x Hin Hdx)|].
      intros [[l1 r1] loops2] s3 Hk3 Hl1 j3. apply runs_return, Forall_app. split; [|exact Hl1].
      eapply all_kept; [|eapply all_kept; [|exact Hl]]; done.
    + intros o s1 s2 Hv. apply all_good_kept. intros j1 v. rewrite Hv. eauto.
  - intros [[[l r] rep] loops1] s1 _ [Hl Hn] j. apply runs_return. split; [|exact Hn]. apply all_one. by apply all_good_eq.
Qed.
Lemma if_ok loc c a b loops s n :
  resolves_statement a → (∀ x, b = Some x → resolves_statement x) →
  (statement_depth (Pt.If loc c a b) ≤ k)%nat → runs n (statement (Pt.If loc c a b) loops) s resolved_in.
Proof.
  intros Ha Hb Hd. cbn in Hd. cbn [Statements.statement].
  eapply runs_then; [apply condition_spec; lia|]. intros x s1 _ Hx j1.
  eapply runs_seq; [intros j; apply in_scope_ok; intros; apply Ha; lia|]. intros [[l1 r1] loops1] s2 _ Hl1 j2.
  eapply (runs_seq _ _ _ _ resolved_in).
  - intros j. destruct b as [x'|]; [|apply runs_return; constructor]. apply in_scope_ok. intros. apply Hb; [done|lia].
  - intros [[l2 r2] loops2] s3 Hk3 Hl2 j3. apply runs_return, all_one. split; [exact Hx|]. rewrite !all_good_eq.
    split; [by eapply all_kept|exact Hl2].
Qed.
Lemma next_ok next : (opt_depth next ≤ k)%nat → spec (optional (λ e, rec e (To Ty.Bool)) next) (if_some typed).
Proof. intros Hn. apply optional_spec. intros e ->. by apply Hrec. Qed.
Lemma for_ok loc init c next body loops s n :
  (∀ x, init = Some x → resolves_statement x) → (∀ x, body = Some x → resolves_statement x) →
  (statement_depth (Pt.For loc init c next body) ≤ k)%nat →
  runs n (statement (Pt.For loc init c next body) loops) s resolved_in.
Proof.
  intros Hi Hb Hd. cbn in Hd. destruct c as [c|]; cbn in Hd; cbn [Statements.statement]; apply in_scope_ok; clear s n; intros s n.
  - eapply runs_seq; [intros j; apply optional_statement_ok; [done|lia]|]. intros [[l1 r1] loops1] s1 _ Hl1 j1.
    eapply runs_then; [apply Hrec; lia|]. intros x s2 Hk2 Hx j2.
    eapply runs_then; [apply spec_pt_loc|]. intros lc s3 Hk3 _ j3.
    eapply runs_then; [by apply spec_cast|]. intros y s4 Hk4 Hy j4.
    eapply runs_seq; [intros j; apply optional_statement_ok; [done|lia]|]. intros [[l2 r2] loops2] s5 Hk5 Hl2 j5.
    eapply runs_then; [apply loop_leave_ok|]. intros [ctl loops3] s6 Hk6 _ j6.
    eapply (runs_then _ _ _ _ (if_some typed)).
    { destruct (_ || _); [apply next_ok; lia|]. by apply spec_ret. }
    intros z s7 Hk7 Hz j7. apply runs_return, all_one. cbn. rewrite !all_good_eq.
    split_and!; [|by intros ? [= <-]|exact Hz|by do 2 (eapply all_kept; [eassumption|])].
    by do 6 (eapply all_kept; [eassumption|]).
  - eapply runs_seq; [intros j; apply optional_statement_ok; [done|lia]|]. intros [[l1 r1] loops1] s1 _ Hl1 j1.
    eapply runs_seq; [intros j; apply optional_statement_ok; [done|lia]|]. intros [[l2 r2] loops2] s2 Hk2 Hl2 j2.
    eapply runs_then; [apply loop_leave_ok|]. intros [ctl loops3] s3 Hk3 _ j3.
    eapply runs_then; [apply next_ok; lia|]. intros z s4 Hk4 Hz j4. apply runs_return, all_one. cbn. rewrite !all_good_eq.
    split_and!; [by do 3 (eapply all_kept; [eassumption|])|done|exact Hz|by do 2 (eapply all_kept; [eassumption|])].
Qed.
Lemma statement_ok x : resolves_statement x.
Proof.
  induction x as [l ss IH|l c a b IHa IHb|l c b IH|l b c IH|l i c nx b IHi IHb|x Hx] using pt_statement_ind; intros Hd loops s n.
  - eapply runs_mono; [by apply block_ok|by intros ??? []].
  - by apply if_ok.
  - cbn in Hd. apply (loop_ok c (St.While l true)); [lia|intros; apply IH; lia|].
    intros. split; [done|]. by apply all_good_eq.
  - cbn in Hd. apply (loop_ok c (λ c l', St.DoWhile l true l' c)); [lia|intros; apply IH; lia|].
    intros. split; [done|]. by apply all_good_eq.
  - by apply for_ok.
  - destruct x; try done; cbn [Statements.statement]; try apply runs_fail_ns.
    + eapply runs_seq; [intros; by apply expression_statement_ok|]. intros [l' r] s1 _ Hl j. by apply runs_return.
    + eapply runs_seq; [intros; by apply variable_definition_ok|]. intros l' s1 _ Hl j. by apply runs_return.
    + by apply jump_ok.
    + by apply jump_ok.
    + eapply runs_seq; [intros; by apply return_statement_ok|]. intros y s1 _ Hy j. by apply runs_return, all_one.
Qed.
Lemma block_names loc ss :
  (statement_depth (Pt.Block loc ss) ≤ k)%nat → ∀ loops s n,
  runs n (statement (Pt.Block loc ss) loops) s (λ _ s', Sym.names (st_sym s') = Sym.names (st_sym s)).
Proof.
  intros Hd loops s n. eapply runs_mono; [apply block_ok; [|exact Hd]|by intros ??? []].
  apply Forall_forall. intros x _. apply statement_ok.
Qed.

(** ** The body of a function *)

Lemma set_arguments_runs n a s : runs n (modify_sym (λ s, SymTable.SymTable.set_arguments (Sym.arguments s ++ [a]) s)) s (λ _ _, True).
Proof. apply runs_modify_sym; [by apply kept_same|by intros []; split|done]. Qed.
Lemma add_return_runs n j s : runs n (add_return j) s (λ _ _, True).
Proof. apply runs_modify_sym; [by apply kept_same|by intros []; split|done]. Qed.
Lemma add_parameter_runs ps x s n : runs n (add_parameter ps x) s (λ _ _, True).
Proof.
  destruct x as [i [l p]]. cbn. eapply runs_then; [apply spec_unwrap|]. intros q s1 _ _ j1.
  destruct (Pt.pa_name q) as [name|]; [|apply set_arguments_runs].
  eapply runs_then; [apply spec_unwrap|]. intros d s2 _ _ j2.
  eapply runs_seq; [intros; apply runs_add_variable|]. intros [v|] s3 _ _ j3; [|by apply runs_return].
  eapply runs_then; [apply check_shadowing_ok|]. intros _ s4 _ _ j4. apply set_arguments_runs.
Qed.
Lemma add_returns_runs rs b x s n : runs n (add_returns rs b x) s (λ _ _, True).
Proof.
  destruct x as [i [l p]]. cbn. eapply runs_then; [apply spec_unwrap|]. intros q s1 _ _ j1.
  eapply runs_then; [apply spec_unwrap|]. intros r s2 _ _ j2.
  destruct (Pt.pa_name r) as [name|]; (eapply runs_seq; [intros; apply runs_add_variable|]); intros v s3 _ _ j3.
  - eapply (runs_seq _ _ _ _ (λ _ _, True)); [|intros; by apply runs_return]. intros j.
    destruct v as [v|]; [|by apply runs_return]. eapply runs_then; [apply check_shadowing_ok|]. intros. apply add_return_runs.
  - eapply runs_then; [apply spec_unwrap|]. intros v' s4 _ _ j4.
    eapply runs_seq; [intros; apply add_return_runs|]. intros. by apply runs_return.
Qed.
Definition body_good (d : Pt.FunctionDefinition) (r : option (list St.Statement * bool * bool)) (s : state) : Prop :=
  match r with Some (l, _, _) => all l s | None => Pt.fd_body d = None end.
Lemma body_of_ok d f s n :
  (match Pt.fd_body d with Some b => statement_depth b | None => 0 end ≤ k)%nat →
  runs n (body_of keccak256 hash_order rec rec_type d f) s (body_good d).
Proof.
  intros Hd. unfold body_of. eapply (runs_seq _ _ _ _ (λ _ _, True)).
  { intros j. apply runs_foldR; [done|]. intros. apply add_parameter_runs. }
  intros _ s1 _ _ j1. eapply (runs_seq _ _ _ _ (λ _ _, True)).
  { intros j. apply runs_foldR; [done|]. intros. apply add_returns_runs. }
  intros req s2 _ _ j2. destruct (Pt.fd_body d) as [b|] eqn:Hb; [|by apply runs_return].
  eapply runs_seq; [intros; by apply (statement_ok b Hd)|]. intros [[l r] loops] s3 _ Hl j3. by apply runs_return.
Qed.
End Facts.
End StatementFacts.
