(* ===== verification/BodyFacts.v ===== *)
(** The resolution of function bodies with expressions and types as they are
    resolved: it comes to an end, a failure is reported in the namespace, a
    body that is kept is well typed, and it ends with a return where one is
    needed. *)
From S2P Require Import Prelude BigIntSpec Ast Types Eval Pt TypeNames SymTable Casts Names Resolver.
From S2P Require Import Literals Resolve Statements Typed CastFacts ResolverFacts Specs ResolveFacts.
From S2P Require Import StatementRules Flow StatementFacts.
#[local] Set Warnings "-register-all".

Module BodyFacts.
Import ParseDepth Casts Names Resolver Literals Resolve Typed ResolverFacts Specs ResolveFacts Statements StatementRules.
Import Flow StatementFacts.

Definition definition_depth (d : Pt.FunctionDefinition) : nat :=
  match Pt.fd_body d with Some b => statement_depth b | None => 0 end.

Section Theorems.
Context {BI : NumBigInt}.
Context (keccak256 : bytes → list Z).
Context (hash_order : list Pt.NamedArgument → list Pt.NamedArgument).
Context (Hhash : ∀ l, hash_order l ≡ₚ l).

(** The body of function [n], resolved by [expression] and [resolve_type]. *)
Definition function_body (fuel : nat) (d : Pt.FunctionDefinition) (file : nat) (c : option nat) (n : nat)
    (ns : Namespace) : comp (bool * Namespace) :=
  resolve_function_body keccak256 hash_order (expression keccak256 hash_order fuel)
    (resolve_type_fuel keccak256 hash_order fuel) d file c n ns.

(** A statement, resolved the same way. *)
Definition resolve_statement (fuel : nat) (x : Pt.Statement) (loops : SymTable.SymTable.LoopScopes) : R outcome :=
  statement keccak256 hash_order (expression keccak256 hash_order fuel) (resolve_type_fuel keccak256 hash_order fuel)
    x loops.

Lemma frozen_set_functions fs ns ns' :
  frozen ns = frozen ns' → frozen (set_functions fs ns) = frozen (set_functions fs ns').
Proof. intros H. exact (f_equal (set_functions fs) H). Qed.
Lemma report_storage_returns (l : list ParameterDecl) ns :
  let ns' := foldl (λ ns d, push_diag d ns) ns (omap missing_storage_return l) in
  frozen ns = frozen ns' ∧ contents (diagnostics ns') = contents (diagnostics ns) ++ omap missing_storage_return l.
Proof.
  cbn. generalize (omap missing_storage_return l). clear l. intros l. revert ns.
  induction l as [|x l IH]; intros ns; cbn; [by rewrite app_nil_r|].
  destruct (IH (push_diag x ns)) as [<- ->]. split; [done|]. cbn. by rewrite <-app_assoc.
Qed.

(** A body ends at its end or with a return; where it can reach its end, the
    return values that need a return statement are reported. *)
Definition reported_ends (d : Pt.FunctionDefinition) (f : Function) (l : list St.Statement) (ns' : Namespace) : Prop :=
  (∀ o, list_ends l o → o = Normal ∨ o = Returned)
  ∧ (Forall unnamed (Pt.fd_returns d) → list_ends l Normal → ∀ i p x, (i < length (Pt.fd_returns d))%nat →
     f_returns f !! i = Some p → missing_storage_return p = Some x → x ∈ contents (diagnostics ns')).
Lemma missing_is_storage p x : missing_storage_return p = Some x → is_contract_storage (p_ty p) = true.
Proof. unfold missing_storage_return. by destruct (p_id p), (is_contract_storage _). Qed.

(** What the resolution of a body does to the namespace, where constants may be
    without a value or not. *)
Definition body_outcome `{ST : Strict} (d : Pt.FunctionDefinition) (n : nat) (ns : Namespace)
    (r : comp (bool * Namespace)) : Prop :=
  match r with
  | Ret (b, ns') =>
      grown (diagnostics ns) (diagnostics ns')
      ∧ if b then (frozen ns = frozen ns' ∧ Pt.fd_body d = None)
                  ∨ ∃ f l t, functions ns !! n = Some f ∧ @all_good (constants_of ns) t l ∧ reported_ends d f l ns'
                      ∧ frozen (set_functions (<[n := set_body l t f]> (functions ns)) ns) = frozen ns'
        else frozen ns = frozen ns' ∧ (length (contents (diagnostics ns)) + gain ≤ length (contents (diagnostics ns')))%nat
  | Panic => True
  | OutOfFuel => False
  end.
Lemma report_grown (l : list ParameterDecl) ns :
  grown (diagnostics ns) (diagnostics (foldl (λ ns d, push_diag d ns) ns (omap missing_storage_return l))).
Proof.
  generalize (omap missing_storage_return l). clear l. intros l. revert ns. induction l as [|x l IH]; intros ns; [done|].
  cbn. etrans; [|apply IH]. apply grown_push.
Qed.
Lemma function_body_outcome `{ST : Strict} fuel d file c n ns :
  @wf_ns (constants_of ns) ST ns → (definition_depth d ≤ fuel)%nat →
  body_outcome d n ns (function_body fuel d file c n ns).
Proof.
  intros Hw Hd. unfold function_body, resolve_function_body.
  destruct (functions ns !! n) as [f|] eqn:Hf; cbn [unwrap mbind comp_bind]; [|done].
  pose (s := mkState ns SymTable.SymTable.new (mkContext file c (Some n) false false) Diags.empty).
  destruct (@expression_ok _ (constants_of ns) ST keccak256 _ Hhash fuel) as [He Ht].
  pose proof (@body_of_ok _ (constants_of ns) ST keccak256 hash_order Hhash _ _ fuel He Ht d f s
    (length (contents (diagnostics ns))) Hd Hw (SymTable.SymTable.new_ok ns) ltac:(unfold total; cbn; lia)) as Hr.
  fold s. assert (Hext : ∀ s', kept s s' →
    grown (diagnostics ns) (Diags.extend (diagnostics (st_ns s')) (st_diags s'))).
  { intros s' [_ _ [_ Hg] Hr']. etrans; [exact Hr'|]. by apply grown_extend, Hg. }
  destruct (body_of _ _ _ _ _ _ s) as [[[[[[l r] req]|]|] s']| |] eqn:Hb; cbn in Hr |- *; try done.
  - destruct Hr as [(Hk & _ & _) Hl]. specialize (Hext _ Hk). destruct Hk as [Hk _ _ _]. cbn in Hk.
    assert (Hfun : functions (st_ns s') = functions ns) by exact (f_equal functions (eq_sym Hk)).
    rewrite Hfun, Hf. cbn [unwrap mbind comp_bind].
    set (ns1 := set_diagnostics _ (st_ns s')). set (ns2 := if r && req then _ else ns1).
    assert (H2 : frozen ns = frozen ns2 ∧ grown (diagnostics ns) (diagnostics ns2)).
    { subst ns2. destruct (r && req); [|by split].
      split; [|etrans; [exact Hext|apply (report_grown (f_returns f) ns1)]].
      etrans; [exact Hk|]. apply (report_storage_returns (f_returns f) ns1). }
    destruct H2 as [Hfr Hp]. split; [exact Hp|]. right. exists f, l, (st_sym s'). split_and!; [done|exact Hl| |].
    { apply body_of_flows in Hb as (Hends & Hreach & Hreq). split; [exact Hends|]. intros Hun Hnormal i p x Hi Hpi Hx.
      assert (r && req = true) as Hrr.
      { rewrite (Hreach Hnormal). apply Hreq; [done|]. exists i, p. by eauto using missing_is_storage. }
      change (x ∈ contents (diagnostics ns2)). subst ns2. rewrite Hrr,  (proj2 (report_storage_returns (f_returns f) ns1)).
      apply elem_of_app. right. apply list_elem_of_omap. exists p. split; [by eapply list_elem_of_lookup_2|done]. }
    assert (Hfun2 : functions ns2 = functions ns) by exact (f_equal functions (eq_sym Hfr)). rewrite Hfun2.
    by apply frozen_set_functions.
  - destruct Hr as [([Hk _ _ Hg] & _ & _) Hno]. by split; [|left].
  - destruct Hr as [Hk Hc]. split; [by apply Hext|]. split; [apply Hk|]. unfold total, count in Hc. cbn.
    rewrite length_app. glia.
Qed.

(** C4: When the body of a function is resolved, the function keeps its
    declaration and has statements that are well typed: conditions are
    booleans, an initialiser has the type of its variable, the variables that
    are declared stand in the function's symbol table with their types, delete
    is applied to storage other than mappings; all other functions and all
    other declarations are what they were. *)
Theorem function_body_typed fuel d file c n ns ns' b :
  sound_ns ns → (definition_depth d ≤ fuel)%nat → Pt.fd_body d = Some b →
  function_body fuel d file c n ns = Ret (true, ns') →
  ∃ f l t, functions ns !! n = Some f ∧ @all_good (constants_of ns) t l
    ∧ functions ns' = <[n := set_body l t f]> (functions ns) ∧ frozen (set_functions (functions ns) ns') = frozen ns.
Proof.
  intros Hw Hd Hb H. pose proof (function_body_outcome (ST := true) fuel d file c n ns Hw Hd) as Ho. rewrite H in Ho.
  destruct Ho as [_ [[_ Hno]|(f & l & t & Hf & Hl & _ & Hfr)]]; [by rewrite Hb in Hno|].
  exists f, l, t. split_and!; [done|done|exact (eq_sym (f_equal functions Hfr))|].
  apply (frozen_set_functions (functions ns)) in Hfr. rewrite <-Hfr. by destruct ns.
Qed.


(** The resolution of a function body comes to an end: the depth of its
    deepest expression is enough for the recursion, whatever the statements
    are. *)
Theorem function_body_terminates fuel d file c n ns :
  sound_ns ns → (definition_depth d ≤ fuel)%nat → function_body fuel d file c n ns ≠ OutOfFuel.
Proof.
  intros Hw Hd H. pose proof (function_body_outcome (ST := true) fuel d file c n ns Hw Hd) as Ho. by rewrite H in Ho.
Qed.


(** C33: Resolving a statement keeps the symbol table sound: the scopes around
    the open one are untouched, a visible name stands for the variable it
    stood for, a variable keeps its declaration; after a block the names are
    those before it. *)
Theorem statement_scopes fuel x loops s o s' :
  sound_ns (st_ns s) → names_ok s → (statement_depth x ≤ fuel)%nat →
  resolve_statement fuel x loops s = Ret (Some o, s') →
  names_ok s' ∧ kept_names (st_sym s) (st_sym s')
  ∧ ((∃ l ss, x = Pt.Block l ss) → Sym.names (st_sym s') = Sym.names (st_sym s)).
Proof.
  intros Hw Hn Hd H. unfold resolve_statement in H. destruct (@expression_ok _ (constants_of (st_ns s)) true keccak256 _ Hhash fuel) as [He Ht].
  pose proof (@statement_ok _ (constants_of (st_ns s)) true keccak256 hash_order Hhash _ _ fuel He Ht x Hd loops s 0 Hw Hn ltac:(lia)) as Hr.
  rewrite H in Hr. destruct Hr as [(_ & Hk & Ho) _]. split_and!; [done|done|]. intros (l & ss & ->).
  pose proof (@block_names _ (constants_of (st_ns s)) true keccak256 hash_order Hhash _ _ fuel He Ht l ss Hd loops s 0 Hw Hn ltac:(lia)) as Hr.
  rewrite H in Hr. apply Hr.
Qed.
End Theorems.

(** ** A contract with two functions

    [fn count(u32 n) -> (u32) { u32 i = 0;
       for (; i < n; i++) { if (i == LIMIT) { return i; } } return i + total; }]
    and [fn table() { }], whose return value is a mapping in storage. *)

Definition u32_type : Pt.Expression := Pt.Type_ Builtin (Pt.TUint 32).
Definition count_loop : Pt.Statement :=
  Pt.For Builtin None (Some (Pt.Less Builtin (var "i") (var "n"))) (Some (Pt.Increment Builtin (var "i")))
    (Some (Pt.Block Builtin
       [Pt.If Builtin (Pt.Equal Builtin (var "i") (var "LIMIT")) (Pt.Block Builtin [Pt.Return_ Builtin (Some (var "i"))]) None])).
Definition count_body : Pt.Statement :=
  Pt.Block Builtin
    [Pt.VariableDefinition Builtin (Pt.mkVariableDeclaration Builtin u32_type None (Some (name "i")))
       (Some (Pt.NumberLiteral Builtin "0"));
     count_loop; Pt.Return_ Builtin (Some (Pt.Add Builtin (var "i") (var "total")))].
Definition count_def : Pt.FunctionDefinition := {|
  Pt.fd_loc := Builtin; Pt.fd_name := Some (name "count"); Pt.fd_name_loc := Builtin;
  Pt.fd_params := [(Builtin, Some (Pt.mkParameter Builtin u32_type (Some (name "n"))))];
  Pt.fd_returns := [(Builtin, Some (Pt.mkParameter Builtin u32_type None))]; Pt.fd_body := Some count_body |}.
Definition mapping_type : ty := Ty.Mapping (Ty.Uint 32) None (Ty.Uint 32) None.
Definition table_def : Pt.FunctionDefinition := {|
  Pt.fd_loc := Builtin; Pt.fd_name := Some (name "table"); Pt.fd_name_loc := Builtin; Pt.fd_params := [];
  Pt.fd_returns := [(Builtin, Some (Pt.mkParameter Builtin
    (Pt.Type_ Builtin (Pt.TMapping Builtin u32_type None u32_type None)) None))];
  Pt.fd_body := Some (Pt.Block Builtin []) |}.
Definition unnamed_parameter (t : ty) : ParameterDecl := mkParameter Builtin None t (Some Builtin) false false.
Definition counting_function (n : string) (ps rs : list ParameterDecl) : Function :=
  mkFunction Builtin n (Some 0%nat) n ps rs None true [] SymTable.SymTable.new n.
Definition counting_ns : Namespace :=
  set_functions
    [counting_function "count" [declared_parameter Builtin (name "n") (Ty.Uint 32) Builtin] [unnamed_parameter (Ty.Uint 32)];
     counting_function "table" [] [unnamed_parameter (Ty.StorageRef mapping_type)]] counter_ns.
Lemma counting_sound : sound_ns counting_ns.
Proof. destruct counter_sound as [[Hu He] Hk Hi Hc Ho]. split; [by split|exact Hk|exact Hi|exact Hc|exact Ho]. Qed.
Definition body_here (d : Pt.FunctionDefinition) (n : nat) : comp (bool * Namespace) :=
  function_body no_hash same_order (definition_depth d) d 0 (Some 0%nat) n counting_ns.
(** The same with an unknown variable in the place of the result. *)
Definition broken_def : Pt.FunctionDefinition := {|
  Pt.fd_loc := Builtin; Pt.fd_name := Some (name "count"); Pt.fd_name_loc := Builtin;
  Pt.fd_params := Pt.fd_params count_def; Pt.fd_returns := Pt.fd_returns count_def;
  Pt.fd_body := Some (Pt.Return_ Builtin (Some (var "j"))) |}.

Lemma function_body_typed_witness :
  ∃ ns' f l t, body_here count_def 0 = Ret (true, ns') ∧ @all_good (constants_of counting_ns) t l
    ∧ functions ns' !! 0%nat = Some (set_body l t f) ∧ length l = 1%nat.
Proof.
  destruct (body_here count_def 0) as [[[] ns']| |] eqn:H; [|vm_compute in H; discriminate H..].
  destruct (function_body_typed no_hash same_order same_order_permutation _ count_def _ _ _ counting_ns ns' count_body
    counting_sound (le_n _) eq_refl H) as (f & l & t & Hf & Hl & Hns & _).
  exists ns', f, l, t. split; [reflexivity|]. split; [exact Hl|]. split; [rewrite Hns; reflexivity|].
  apply (f_equal (λ fs, f_body <$> head fs)) in Hns. vm_compute in H. injection H as <-. cbn in Hns. by injection Hns as <-.
Defined.
Lemma function_body_terminates_witness : body_here table_def 1 ≠ OutOfFuel.
Proof.
  exact (function_body_terminates no_hash same_order same_order_permutation _ table_def 0 (Some 0%nat) 1 counting_ns
    counting_sound (le_n _)).
Defined.
Definition resolve_statement_here (x : Pt.Statement) : comp (option outcome * state) :=
  resolve_statement no_hash same_order (statement_depth x) x [] counter_state.
Lemma counter_names_ok : names_ok counter_state.
Proof.
  split; cbn.
  - intros k v Hk. destruct k as [|k]; [injection Hk as <-; split; [lia|done]|done].
  - intros [|i] sc n k Hsc; [|done]. injection Hsc as <-. intros [<- <-]%lookup_singleton_Some. by exists local_x.
  - intros [|i] [|j] sc sc' n; done.
  - done.
Qed.
Definition scoped_tree : Pt.Statement :=
  Pt.Block Builtin [Pt.VariableDefinition Builtin (Pt.mkVariableDeclaration Builtin u32_type None (Some (name "y"))) None].
Lemma statement_scopes_witness :
  ∃ o s', resolve_statement_here scoped_tree = Ret (Some o, s') ∧ Sym.names (st_sym s') = Sym.names counter_sym
    ∧ length (Sym.vars (st_sym s')) = 2%nat.
Proof.
  destruct (resolve_statement_here scoped_tree) as [[[o|] s']| |] eqn:H; [|vm_compute in H; discriminate H..].
  exists o, s'. split; [reflexivity|]. split.
  - apply (statement_scopes no_hash same_order same_order_permutation _ scoped_tree [] counter_state o s' counter_sound
      counter_names_ok (le_n _) H). by eexists _, _.
  - vm_compute in H. injection H as _ <-. reflexivity.
Defined.
(** [for (; x < LIMIT; x++) { break; }] *)
Definition left_at_once : Pt.Statement :=
  Pt.For Builtin None (Some (Pt.Less Builtin (var "x") (var "LIMIT"))) (Some (Pt.Increment Builtin (var "x")))
    (Some (Pt.Block Builtin [Pt.Break Builtin])).
Lemma for_update_needed_witness :
  ∃ o s', resolve_statement_here left_at_once = Ret (Some o, s')
    ∧ ∃ x l, o.1.1 = [St.For Builtin true [] (Some x) None l] ∧ ∀ o, list_ends l o → again o = false.
Proof.
  destruct (resolve_statement_here left_at_once) as [[[o|] s']| |] eqn:H; [|vm_compute in H; discriminate H..].
  exists o, s'. split; [reflexivity|].
  unfold resolve_statement_here, resolve_statement, left_at_once in H.
  destruct (for_update_needed no_hash same_order _ _ _ _ _ _ _ _ _ _ _ H) as (i & x & y & l & Hl & Hy).
  vm_compute in H. injection H as <- _. cbn in Hl. injection Hl as <- <- <- <-. eexists _, _. split; [reflexivity|].
  by apply Hy.
Defined.
(** A number as the condition of a returned value is resolved as it is. *)
Definition returns_here (e : option Pt.Expression) : comp (bool * Namespace) :=
  body_here {| Pt.fd_loc := Builtin; Pt.fd_name := Some (name "count"); Pt.fd_name_loc := Builtin;
               Pt.fd_params := Pt.fd_params count_def; Pt.fd_returns := Pt.fd_returns count_def;
               Pt.fd_body := Some (Pt.Return_ Builtin e) |} 0.
Definition number_condition : Pt.Expression :=
  Pt.ConditionalOperator Builtin (var "n") (Pt.NumberLiteral Builtin "1") (Pt.NumberLiteral Builtin "2").
Lemma number_as_condition :
  ∃ ns' c x y, returns_here (Some number_condition) = Ret (true, ns') ∧ contents (diagnostics ns') = []
    ∧ f_body <$> functions ns' !! 0%nat = Some [St.Return_ Builtin (Some (Ex.ConditionalOperator Builtin Ty.Unreachable c x y))]
    ∧ Ex.ty_of c = Ret (Ty.Uint 32).
Proof.
  destruct (returns_here (Some number_condition)) as [[b ns']| |] eqn:H; [|vm_compute in H; discriminate H..].
  vm_compute in H. injection H as <- <-. do 4 eexists. split_and!; reflexivity.
Qed.
(** [return;] in a function with a return value *)
Lemma missing_value_accepted : ∃ ns', returns_here None = Ret (true, ns') ∧ contents (diagnostics ns') = [].
Proof.
  destruct (returns_here None) as [[b ns']| |] eqn:H; [|vm_compute in H; discriminate H..].
  vm_compute in H. injection H as <- <-. eexists. split; reflexivity.
Qed.

(** [for (;;) { }] *)
Lemma unreachable_is_never_reached_witness :
  ∃ l loops s', resolve_statement_here (Pt.For Builtin None None None None) = Ret (Some (l, false, loops), s')
    ∧ ¬ list_ends l Normal.
Proof.
  destruct (resolve_statement_here (Pt.For Builtin None None None None)) as [[[[[l []] loops]|] s']| |] eqn:H;
    [vm_compute in H; discriminate H| |vm_compute in H; discriminate H..].
  exists l, loops, s'. split; [reflexivity|]. unfold resolve_statement_here, resolve_statement in H.
  by apply (unreachable_is_never_reached no_hash same_order _ _ _ _ _ _ _ _ _ H).
Defined.
End BodyFacts.
