(* ===== verification/Nesting.v ===== *)
(** Structs that do not contain themselves: signatures and layouts come to an
    end on them, and on others they need not. *)
From S2P Require Import Prelude BigIntSpec Ast Types Layouts TypeNames Declarations.
#[local] Set Warnings "-register-all".

Module Nesting.
Import Declarations.

(** The structs (on the left) and the user types (on the right) that the
    signature and the layout of a type ask for; a mapping takes one slot,
    whatever its values are. *)
Fixpoint mentions (t : ty) : list (nat + nat) :=
  match t with
  | Ty.Array t _ | Ty.Ref t | Ty.StorageRef t => mentions t
  | Ty.Struct n => [inl n]
  | Ty.UserType n => [inr n]
  | _ => []
  end.
(** What is declared under a number, with the types it is made of. *)
Definition made_of (ns : Namespace) (x : nat + nat) : option (list ty) :=
  match x with
  | inl n => (λ s, p_ty <$> fields s) <$> structs ns !! n
  | inr n => (λ u, [ut_ty u]) <$> user_types ns !! n
  end.
(** No struct contains itself, neither in place nor through an array. *)
Definition nested (ns : Namespace) : Prop := ∃ rank : nat + nat → nat, ∀ x l, made_of ns x = Some l →
  (rank x < length (structs ns) + length (user_types ns))%nat
  ∧ ∀ t y, t ∈ l → y ∈ mentions t → is_Some (made_of ns y) → (rank y < rank x)%nat.

Definition types_of (ns : Namespace) : list StructDecl * list UserTypeDecl * list EnumDecl :=
  (structs ns, user_types ns, enums ns).
Lemma made_of_types ns ns' x : types_of ns = types_of ns' → made_of ns x = made_of ns' x.
Proof. intros [= Hs Hu _]. destruct x; cbn; by rewrite ?Hs, ?Hu. Qed.
Lemma nested_types ns ns' : types_of ns = types_of ns' → nested ns → nested ns'.
Proof.
  intros H (rank & Hr). exists rank. intros x l. rewrite <-(made_of_types _ _ x H). intros Hx.
  destruct (Hr x l Hx) as [Hb Hy]. split; [by injection H as <- <- _|].
  intros t y Ht Hin. rewrite <-(made_of_types _ _ y H). by apply (Hy t).
Qed.

Section Fuel.
Context {A : Type} (ns : Namespace) (f : nat → ty → comp A) (Hn : nested ns).

(** A recursion that goes from a type to its element, its fields, what it
    stands for. *)
Definition follows : Prop := ∀ fuel t,
  (∀ r, (∃ d, t = Ty.Array r d) ∨ t = Ty.Ref r ∨ t = Ty.StorageRef r → f fuel r ≠ OutOfFuel) →
  (∀ x l r, mentions t = [x] → made_of ns x = Some l → r ∈ l → f fuel r ≠ OutOfFuel) →
  (1 ≤ fuel)%nat → f (S fuel) t ≠ OutOfFuel.

Lemma made_of_height l x k r : made_of ns x = Some k → r ∈ k → (height r ≤ types_height ns l)%nat.
Proof.
  intros Hx Hr. apply max_list_elem_of_le, list_elem_of_fmap. exists r. split; [done|]. apply elem_of_app. right.
  apply elem_of_app. destruct x as [n|n]; cbn in Hx.
  - left. destruct (structs ns !! n) as [s|] eqn:E; [|done]. injection Hx as <-. apply list_elem_of_In, in_concat.
    exists (p_ty <$> fields s). split; [|by apply list_elem_of_In].
    apply list_elem_of_In, list_elem_of_fmap. exists s. split; [done|]. by eapply list_elem_of_lookup_2.
  - right. destruct (user_types ns !! n) as [u|] eqn:E; [|done]. injection Hx as <-.
    apply list_elem_of_singleton in Hr as ->. apply list_elem_of_fmap. exists u. split; [done|].
    by eapply list_elem_of_lookup_2.
Qed.

Lemma follows_no_fuel l t : follows → (height t ≤ types_height ns l)%nat → f (nesting_fuel ns l) t ≠ OutOfFuel.
Proof.
  intros Hf Ht. destruct Hn as (rank & Hr).
  assert (H : ∀ fuel k t, (∀ x, x ∈ mentions t → is_Some (made_of ns x) → rank x < k)%nat →
    (height t + k * S (types_height ns l) + 1 < fuel)%nat → f fuel t ≠ OutOfFuel).
  { clear t Ht. induction fuel as [|fuel IH]; intros k t Hk Hlt; [lia|]. apply Hf; [| |destruct t; cbn in Hlt; lia].
    - intros r Hrt. apply (IH k); destruct Hrt as [[d ->]|[->| ->]]; cbn in *; (lia || by intros x Hx; apply Hk).
    - intros x m r Hx Hm Hin. assert (rank x < k)%nat by (apply Hk; [rewrite Hx; by left|by eexists]).
      apply (IH (rank x)).
      + intros y Hy Hs. by apply (proj2 (Hr x m Hm) r y).
      + pose proof (made_of_height l x m r Hm Hin). destruct t; cbn in Hx, Hlt; try done; nia. }
  apply (H _ (length (structs ns) + length (user_types ns))%nat).
  - intros x _ [k Hx]. by apply (Hr x k).
  - unfold nesting_fuel. nia.
Qed.
End Fuel.

Lemma get_user_type_follows {A} ns n (f : ty → comp A) :
  (∀ l r, made_of ns (inr n) = Some l → r ∈ l → f r ≠ OutOfFuel) → get_user_type ns n ≫= f ≠ OutOfFuel.
Proof.
  intros H. unfold get_user_type. cbn in H. destruct (user_types ns !! n) as [u|]; cbn; [|done].
  eapply H; [done|]. by apply list_elem_of_singleton.
Qed.
Lemma foldM_in_no_fuel {A B} (f : A → B → comp A) l a : (∀ a b, b ∈ l → f a b ≠ OutOfFuel) → foldM f a l ≠ OutOfFuel.
Proof.
  revert a. induction l as [|b l IH]; intros a H; [done|]. cbn. apply bind_no_fuel; [apply H; by left|].
  intros a' _. apply IH. intros; apply H. by right.
Qed.
Lemma mapM_in_no_fuel {A B} (f : A → comp B) l : (∀ a, a ∈ l → f a ≠ OutOfFuel) → mapM_c f l ≠ OutOfFuel.
Proof.
  induction l as [|a l IH]; intros H; [done|]. cbn. apply bind_no_fuel; [apply H; by left|]. intros b _.
  apply bind_no_fuel; [apply IH; intros; apply H; by right|done].
Qed.
Lemma get_struct_follows {A} ns n (f : StructDecl → comp A) :
  (∀ s, structs ns !! n = Some s → f s ≠ OutOfFuel) → get_struct ns n ≫= f ≠ OutOfFuel.
Proof. unfold get_struct. destruct (structs ns !! n) as [s|]; cbn; naive_solver. Qed.
Lemma field_made_of ns n s p : structs ns !! n = Some s → p ∈ fields s →
  made_of ns (inl n) = Some (p_ty <$> fields s) ∧ p_ty p ∈ p_ty <$> fields s.
Proof. intros Hs Hp. cbn. rewrite Hs. split; [done|]. apply list_elem_of_fmap. by eexists. Qed.

(** ** Signatures *)

Lemma signature_follows say_tuple ns : declared ns → follows ns (λ fuel t, to_signature_string fuel say_tuple ns t).
Proof.
  intros Hd fuel t Hr Hx Hf. destruct t; cbn [to_signature_string]; try done; try apply to_string_no_fuel.
  - apply bind_no_fuel; [apply Hr; eauto|done].
  - unfold get_enum. destruct (enums ns !! n) as [e|] eqn:E; cbn; [|done].
    destruct (d_enum _ Hd n e E) as [b ->]. by destruct fuel; [lia|].
  - destruct say_tuple; [done|]. apply get_struct_follows. intros s Hs. apply bind_no_fuel; [|done].
    apply foldM_in_no_fuel. intros acc p Hp. destruct (field_made_of _ _ _ _ Hs Hp) as [Hm Hin].
    apply bind_no_fuel; [by eapply Hx|done].
  - apply get_user_type_follows. intros l r Hl Hin. by eapply Hx.
  - apply bind_no_fuel; [apply to_string_no_fuel|done].
Qed.
Lemma signature_no_fuel ns name params :
  nested ns → declared ns → signature (nesting_fuel ns (p_ty <$> params)) ns name params ≠ OutOfFuel.
Proof.
  intros Hn Hd. apply bind_no_fuel; [|done]. apply foldM_in_no_fuel. intros acc p Hp. apply bind_no_fuel; [|done].
  apply (follows_no_fuel ns (λ fuel t, to_signature_string fuel false ns t) Hn); [by apply signature_follows|].
  apply max_list_elem_of_le, list_elem_of_fmap. exists (p_ty p). split; [done|]. apply elem_of_app. left.
  apply list_elem_of_fmap. by eexists.
Qed.

(** ** Layouts *)

Section Offsets.
Context {BI : NumBigInt}.

Lemma align_follows ns : follows ns (λ fuel t, align_of fuel ns t).
Proof.
  intros fuel t _ Hx _. destruct t; cbn; try done. apply get_struct_follows. intros s Hs. apply bind_no_fuel.
  - apply mapM_in_no_fuel. intros p Hp. destruct (recursive p); [done|].
    destruct (field_made_of _ _ _ _ Hs Hp) as [Hm Hin]. by eapply Hx.
  - intros [|z l] _; done.
Qed.
Lemma slots_follows ns : follows ns (λ fuel t, storage_slots fuel ns t).
Proof.
  intros fuel t Hr Hx _. destruct t; cbn; try done; try (apply Hr; eauto).
  - apply bind_no_fuel; [apply Hr; eauto|]. intros z _. apply bind_no_fuel; [apply dims_product_no_fuel|done].
  - apply get_struct_follows. intros s Hs. apply bind_no_fuel; [|done].
    apply mapM_in_no_fuel. intros p Hp. apply list_elem_of_In, filter_In in Hp as [Hp%list_elem_of_In _].
    destruct (field_made_of _ _ _ _ Hs Hp) as [Hm Hin]. by eapply Hx.
Qed.
Lemma size_follows ns : follows ns (λ fuel t, storage_size fuel ns t).
Proof.
  intros fuel t Hr Hx Hf. destruct t; cbn; try done; try (apply Hr; eauto).
  all: try (unfold memory_size_of; destruct fuel as [|fuel]; [lia|]; cbn; by try case_match).
  - apply bind_no_fuel; [apply Hr; eauto|]. intros z _. apply bind_no_fuel; [apply dims_product_no_fuel|done].
  - apply get_struct_follows. done.
  - apply get_user_type_follows. intros l r Hl Hin. by eapply Hx.
Qed.

(** *** What the layout of a type depends on *)

Definition same_shape (ns ns' : Namespace) : Prop :=
  fields <$> structs ns = fields <$> structs ns' ∧ user_types ns = user_types ns'.
#[local] Instance same_shape_equiv : Equivalence same_shape.
Proof. unfold same_shape. split; [by intros ?|by intros ?? [-> ->]|by intros ??? [-> ->] [-> ->]]. Qed.

Lemma shape_struct ns ns' n : same_shape ns ns' → fields <$> structs ns !! n = fields <$> structs ns' !! n.
Proof. intros [H _]. by rewrite <-!list_lookup_fmap, H. Qed.
Lemma shape_fields {A} ns ns' n (f f' : StructDecl → comp A) :
  same_shape ns ns' → (∀ s s', fields s = fields s' → f s = f' s') → get_struct ns n ≫= f = get_struct ns' n ≫= f'.
Proof.
  intros H Hf. pose proof (shape_struct _ _ n H) as E. unfold get_struct.
  destruct (structs ns !! n), (structs ns' !! n); try done. apply Hf. by injection E.
Qed.
Lemma mapM_ext {A B} (f g : A → comp B) l : (∀ a, f a = g a) → mapM_c f l = mapM_c g l.
Proof. intros H. induction l as [|a l IH]; [done|]. cbn. by rewrite H, IH. Qed.
Lemma foldM_ext {A B} (f g : A → B → comp A) l a : (∀ a b, b ∈ l → f a b = g a b) → foldM f a l = foldM g a l.
Proof.
  revert a. induction l as [|b l IH]; intros a H; [done|]. cbn. rewrite H by by left.
  destruct (g a b); try done. cbn. apply IH. intros; apply H. by right.
Qed.
Lemma align_shape fuel ns ns' t : same_shape ns ns' → align_of fuel ns t = align_of fuel ns' t.
Proof.
  intros H. revert t. induction fuel as [|fuel IH]; intros t; [done|]. destruct t; try done. cbn.
  apply shape_fields; [done|]. intros s s' ->. by erewrite mapM_ext by (intros p; by rewrite IH).
Qed.
Lemma slots_shape fuel ns ns' t : same_shape ns ns' → storage_slots fuel ns t = storage_slots fuel ns' t.
Proof.
  intros H. revert t. induction fuel as [|fuel IH]; intros t; [done|]. destruct t; cbn; rewrite ?IH; try done.
  apply shape_fields; [done|]. intros s s' ->. by erewrite mapM_ext by (intros p; by rewrite IH).
Qed.
Lemma memory_size_shape fuel ns ns' t v :
  same_shape ns ns' → memory_size_of_internal fuel ns t v = memory_size_of_internal fuel ns' t v.
Proof.
  intros H. revert t v. induction fuel as [|fuel IH]; intros t v; [done|]. destruct t; cbn; rewrite ?IH; try done.
  - case_decide; [done|]. apply shape_fields; [done|]. by intros s s' ->.
  - unfold get_user_type. destruct H as [_ <-]. destruct (user_types ns !! n); [|done]. apply IH.
Qed.

Section Ranked.
Context (rank : nat + nat → nat) (ns0 : Namespace).
Context (Hrank : ∀ x l, made_of ns0 x = Some l →
  (rank x < length (structs ns0) + length (user_types ns0))%nat
  ∧ ∀ t y, t ∈ l → y ∈ mentions t → is_Some (made_of ns0 y) → (rank y < rank x)%nat).

Lemma shape_made_of ns ns' x : same_shape ns ns' → made_of ns x = made_of ns' x.
Proof.
  intros H. destruct x as [n|n]; cbn; [|by destruct H as [_ ->]].
  pose proof (shape_struct _ _ n H) as E. destruct (structs ns !! n), (structs ns' !! n); try done. cbn in *.
  by injection E as ->.
Qed.
(** The offsets of the structs of a rank below [k] are the same. *)
Definition agree (k : nat) (ns ns' : Namespace) : Prop :=
  same_shape ns ns' ∧ ∀ n, (rank (inl n) < k)%nat → offsets <$> structs ns !! n = offsets <$> structs ns' !! n.
Definition below (k : nat) (t : ty) : Prop := ∀ x, x ∈ mentions t → is_Some (made_of ns0 x) → (rank x < k)%nat.

Lemma size_agree fuel k ns ns' t :
  same_shape ns0 ns → agree k ns ns' → below k t → storage_size fuel ns t = storage_size fuel ns' t.
Proof.
  intros H0 [Hs Ho]. revert k t Ho. induction fuel as [|fuel IH]; intros k t Ho Hb; [done|].
  assert (Hm : memory_size_of fuel ns t = memory_size_of fuel ns' t) by (unfold memory_size_of; by rewrite (memory_size_shape _ _ _ _ _ Hs)).
  destruct t; cbn; try done; try (by rewrite (IH k)); try (by apply (IH k)).
  - unfold get_struct. pose proof (shape_struct _ _ n Hs) as E.
    destruct (structs ns !! n) as [s|] eqn:Hn, (structs ns' !! n) as [s'|] eqn:Hn'; try done. cbn.
    assert (Hk : (rank (inl n) < k)%nat).
    { apply Hb; [by left|]. rewrite (shape_made_of _ _ _ H0). cbn. rewrite Hn. by eexists. }
    specialize (Ho n Hk). rewrite Hn, Hn' in Ho. by injection Ho as ->.
  - unfold get_user_type. destruct Hs as [Hs Hu]. rewrite <-Hu.
    destruct (user_types ns !! n) as [u|] eqn:Hn; [|done]. cbn.
    assert (Hmade : made_of ns0 (inr n) = Some [ut_ty u]) by (rewrite (shape_made_of _ _ _ H0); cbn; by rewrite Hn).
    apply (IH (rank (inr n))).
    + intros m Hlt. apply Ho. assert (rank (inr n) < k)%nat by (apply Hb; [by left|by eexists]). lia.
    + intros x Hx Hsome. eapply Hrank; [done|by left|done..].
Qed.
Lemma memory_offsets_agree fuel k ns ns' fs :
  same_shape ns0 ns → agree k ns ns' → (∀ p, p ∈ fs → below k (p_ty p)) →
  memory_offsets fuel ns fs = memory_offsets fuel ns' fs.
Proof.
  intros H0 Ha Hb. unfold memory_offsets. f_equal. apply foldM_ext. intros [[offs o] la] p Hp. unfold memory_step.
  rewrite (align_shape _ ns ns') by apply Ha. by rewrite (size_agree fuel k ns ns') by auto.
Qed.
Lemma storage_offsets_shape fuel ns ns' fs :
  same_shape ns ns' → storage_offsets_of fuel ns fs = storage_offsets_of fuel ns' fs.
Proof.
  intros H. unfold storage_offsets_of. f_equal. apply foldM_ext. intros [[offs o] la] p _. unfold storage_step.
  by rewrite (slots_shape _ ns ns').
Qed.

(** *** One pass settles one more rank *)

Context (fuel : nat).
Definition settled (ns : Namespace) (n : nat) : Prop := ∀ s, structs ns !! n = Some s →
  memory_offsets fuel ns (fields s) = Ret (offsets s) ∧ storage_offsets_of fuel ns (fields s) = Ret (storage_offsets s).

Lemma fields_below ns n s p :
  same_shape ns0 ns → structs ns !! n = Some s → p ∈ fields s → below (rank (inl n)) (p_ty p).
Proof.
  intros H0 Hs Hp x Hx Hsome. pose proof (shape_struct _ _ n H0) as E. rewrite Hs in E.
  destruct (structs ns0 !! n) as [s0|] eqn:Hs0; [|done]. injection E as E. rewrite <-E in Hp.
  destruct (field_made_of _ _ _ _ Hs0 Hp) as [Hm Hin]. by eapply Hrank.
Qed.
Lemma settled_agree ns ns' n :
  same_shape ns0 ns → agree (rank (inl n)) ns ns' → structs ns !! n = structs ns' !! n → settled ns n → settled ns' n.
Proof.
  intros H0 Ha Hn Hset s Hs. rewrite <-Hn in Hs. destruct (Hset s Hs) as [Hm Hst].
  rewrite <-(storage_offsets_shape _ ns ns') by apply Ha. split; [|done]. rewrite <-Hm. symmetry.
  eapply memory_offsets_agree; [done|exact Ha|]. intros p. by eapply fields_below.
Qed.

(** What a step makes of the namespace: the offsets of its struct, computed. *)
Definition stepped (ns ns' : Namespace) (i : nat) : Prop :=
  same_shape ns ns' ∧ (∀ n, n ≠ i → structs ns !! n = structs ns' !! n) ∧ settled ns' i.

Lemma shape_insert ns i s s' :
  structs ns !! i = Some s → fields s = fields s' → same_shape ns (set_structs (<[i := s']> (structs ns)) ns).
Proof.
  intros Hs Hf. split; [|done]. cbn. rewrite list_fmap_insert, <-Hf. symmetry. apply list_insert_id.
  by rewrite list_lookup_fmap, Hs.
Qed.
Lemma agree_insert ns i s s' k :
  structs ns !! i = Some s → fields s = fields s' → (k ≤ rank (inl i))%nat →
  agree k ns (set_structs (<[i := s']> (structs ns)) ns).
Proof.
  intros Hs Hf Hk. split; [by eapply shape_insert|]. intros n Hn. cbn. rewrite list_lookup_insert_ne; [done|].
  intros ->. lia.
Qed.
Lemma store_done (g : list Z → StructDecl → StructDecl) (get : StructDecl → list Z) ns ch i s o :
  structs ns !! i = Some s → fields (g o s) = fields s → get (g o s) = o → (get s = o → g o s = s) →
  ∃ ch', (if decide (get s = o) then Ret (ns, ch) else Ret (set_structs (<[i := g o s]> (structs ns)) ns, true))
         = Ret (set_structs (<[i := g o s]> (structs ns)) ns, ch') ∧ (get s = o → ch' = ch).
Proof.
  intros Hs Hf Hg Hid. case_decide as E; [|by eexists].
  exists ch. split; [|done]. rewrite Hid by done. rewrite list_insert_id by done. by destruct ns.
Qed.

Lemma struct_step_stepped ns ch i ns' ch' :
  same_shape ns0 ns → struct_step fuel (ns, ch) i = Ret (ns', ch') →
  stepped ns ns' i ∧ (settled ns i → ns' = ns ∧ ch' = ch).
Proof.
  intros H0 H. unfold struct_step in H. cbn [fst] in H. unfold get_struct in H.
  destruct (structs ns !! i) as [s|] eqn:Hs; [|done]. cbn [unwrap mbind comp_bind] in H.
  destruct (memory_offsets fuel ns (fields s)) as [o| |] eqn:Ho; [|done..]. cbn [mbind comp_bind] in H.
  unfold store_offsets, store_storage_offsets, get_struct in H. rewrite Hs in H. cbn [unwrap mbind comp_bind] in H.
  destruct (store_done with_offsets offsets ns ch i s o Hs eq_refl eq_refl) as (c1 & E1 & Hc1); [by destruct s; cbn; intros ->|].
  rewrite E1 in H. cbn [mbind comp_bind fst] in H. clear E1. set (ns1 := set_structs _ ns) in *.
  assert (Hs1 : structs ns1 !! i = Some (with_offsets o s)) by (cbn; by rewrite list_lookup_insert_eq by (by eapply lookup_lt_Some)).
  assert (H1 : same_shape ns ns1) by by eapply shape_insert.
  rewrite Hs1 in H. cbn [unwrap mbind comp_bind] in H.
  destruct (storage_offsets_of fuel ns1 (fields (with_offsets o s))) as [o'| |] eqn:Ho'; [|done..].
  cbn [mbind comp_bind] in H.
  destruct (store_done with_storage_offsets storage_offsets ns1 c1 i _ o' Hs1 eq_refl eq_refl) as (c2 & E2 & Hc2);
    [by destruct s; cbn; intros ->|].
  rewrite E2 in H. clear E2. set (s2 := with_storage_offsets o' (with_offsets o s)) in *.
  assert (Hns' : set_structs (<[i := s2]> (structs ns1)) ns1 = set_structs (<[i := s2]> (structs ns)) ns).
  { unfold ns1, set_structs. cbn. by rewrite list_insert_insert_eq. }
  rewrite Hns' in H. injection H as <- <-. assert (Hi : structs (set_structs (<[i := s2]> (structs ns)) ns) !! i = Some s2).
  { cbn. by rewrite list_lookup_insert_eq by (by eapply lookup_lt_Some). }
  split; [split_and!|].
  - by eapply shape_insert.
  - intros n Hne. cbn. by rewrite list_lookup_insert_ne.
  - intros s' Hs'. rewrite Hi in Hs'. injection Hs' as <-. cbn [s2 with_storage_offsets with_offsets fields offsets storage_offsets].
    split.
    + rewrite <-Ho. symmetry. eapply (memory_offsets_agree fuel (rank (inl i))); [done|by eapply agree_insert|].
      intros p. by eapply fields_below.
    + rewrite <-Ho'. symmetry. apply storage_offsets_shape. etrans; [symmetry; exact H1|]. by eapply shape_insert.
  - intros Hset. destruct (Hset s Hs) as [Hm Hst]. rewrite Hm in Ho. injection Ho as Ho.
    cbn [with_offsets fields] in Ho'. rewrite <-(storage_offsets_shape _ _ _ _ H1), Hst in Ho'. injection Ho' as Ho'.
    assert (s2 = s) as ->.
    { unfold s2, with_storage_offsets, with_offsets. cbn. rewrite <-Ho, <-Ho'. by destruct s. }
    split; [|by rewrite Hc2 by (cbn; done); apply Hc1]. unfold set_structs. rewrite list_insert_id by done. by destruct ns.
Qed.

(** The structs of the ranks below [k] are settled, and those of rank [k]
    among the first [j]. *)
Definition settled_to (k j : nat) (ns : Namespace) : Prop :=
  same_shape ns0 ns ∧ ∀ n, (rank (inl n) < k)%nat ∨ (rank (inl n) = k ∧ n < j)%nat → settled ns n.

Lemma settled_step k j ns ch ns' ch' :
  settled_to k j ns → struct_step fuel (ns, ch) j = Ret (ns', ch') → settled_to k (S j) ns'.
Proof.
  intros [H0 Hk] H. destruct (struct_step_stepped _ _ _ _ _ H0 H) as [(Hs & Hne & Hj) Hsame].
  destruct (decide (rank (inl j) < k)%nat) as [Hlt|Hge].
  { destruct (Hsame (Hk j (or_introl Hlt))) as [-> _]. split; [done|]. intros n [Hn|[Hn Hj']]; [by apply Hk; left|].
    assert (n ≠ j) by (intros ->; lia). apply Hk. right. lia. }
  split; [by etrans|]. intros n Hn. destruct (decide (n = j)) as [->|Hnj]; [done|].
  eapply settled_agree; [exact H0| |by apply Hne|apply Hk; lia].
  split; [done|]. intros m Hm. rewrite Hne; [done|]. intros ->. lia.
Qed.
Lemma struct_step_no_fuel ns ch i :
  nested ns → fuel = nesting_fuel ns [] → struct_step fuel (ns, ch) i ≠ OutOfFuel.
Proof.
  intros Hn ->. unfold struct_step. cbn [fst]. apply get_struct_follows. intros s Hs.
  assert (Hf : ∀ p, p ∈ fields s → (height (p_ty p) ≤ types_height ns [])%nat).
  { intros p Hp. destruct (field_made_of _ _ _ _ Hs Hp) as [Hm Hin]. by eapply made_of_height. }
  assert (Hslots : ∀ ns', same_shape ns ns' → storage_offsets_of (nesting_fuel ns []) ns' (fields s) ≠ OutOfFuel).
  { intros ns' H'. rewrite <-(storage_offsets_shape _ _ _ _ H'). apply bind_no_fuel; [|by intros [[??]?]].
    apply foldM_in_no_fuel. intros [[offs o] la] p Hp. unfold storage_step. destruct (infinite_size p); [done|].
    apply bind_no_fuel; [|done]. by apply (follows_no_fuel ns (λ f t, storage_slots f ns t) Hn _ _ (slots_follows ns)), Hf. }
  apply bind_no_fuel.
  { apply bind_no_fuel; [|by intros [[??]?]]. apply foldM_in_no_fuel. intros [[offs o] la] p Hp. unfold memory_step.
    apply bind_no_fuel; [by apply (follows_no_fuel ns (λ f t, align_of f ns t) Hn _ _ (align_follows ns)), Hf|].
    intros a _. destruct (recursive p); [done|]. apply bind_no_fuel; [|done].
    by apply (follows_no_fuel ns (λ f t, storage_size f ns t) Hn _ _ (size_follows ns)), Hf. }
  intros o _. assert (Eg : get_struct ns i = Ret s) by (unfold get_struct; by rewrite Hs).
  unfold store_offsets. rewrite Eg. cbn [mbind comp_bind].
  destruct (store_done with_offsets offsets ns ch i s o Hs eq_refl eq_refl) as (c & -> & _); [by destruct s; cbn; intros ->|].
  cbn [mbind comp_bind fst]. apply get_struct_follows. intros s1 Hs1. cbn in Hs1.
  rewrite list_lookup_insert_eq in Hs1 by (by eapply lookup_lt_Some). injection Hs1 as <-. apply bind_no_fuel.
  - apply (Hslots (set_structs _ ns)). by eapply shape_insert.
  - intros o' _. unfold store_storage_offsets. apply get_struct_follows. intros s2 _. by case_decide.
Qed.
End Ranked.

Lemma shape_fuel ns ns' : same_shape ns ns' → nesting_fuel ns [] = nesting_fuel ns' [].
Proof.
  intros [Hs Hu]. unfold nesting_fuel, types_height. rewrite Hu.
  assert (length (structs ns) = length (structs ns')) as -> by (apply (f_equal length) in Hs; by rewrite !length_fmap in Hs).
  apply (f_equal (fmap (fmap p_ty))) in Hs. rewrite <-!list_fmap_compose in Hs.
  change ((λ s, p_ty <$> fields s) <$> structs ns = (λ s, p_ty <$> fields s) <$> structs ns') in Hs. by rewrite Hs.
Qed.
Lemma shape_nested ns ns' : same_shape ns ns' → nested ns → nested ns'.
Proof.
  intros H (rank & Hr). exists rank. intros x l. rewrite <-(shape_made_of _ _ _ H). intros Hx.
  destruct (Hr x l Hx) as [Hb Hy]. split.
  - destruct H as [H <-]. apply (f_equal length) in H. rewrite !length_fmap in H. by rewrite <-H.
  - intros t y Ht Hin. rewrite <-(shape_made_of _ _ _ H). by apply (Hy t).
Qed.

(** A pass, started with the structs below a rank settled, settles one more. *)
Lemma struct_pass_settles rank ns0 ns k :
  (∀ x l, made_of ns0 x = Some l →
    (rank x < length (structs ns0) + length (user_types ns0))%nat
    ∧ ∀ t y, t ∈ l → y ∈ mentions t → is_Some (made_of ns0 y) → (rank y < rank x)%nat) →
  nested ns0 → settled_to rank ns0 (nesting_fuel ns0 []) k 0 ns →
  match struct_pass (nesting_fuel ns0 []) ns with
  | Ret (ns', _) => settled_to rank ns0 (nesting_fuel ns0 []) (S k) 0 ns'
  | Panic => True
  | OutOfFuel => False
  end.
Proof.
  intros Hrank Hn Hset. unfold struct_pass. remember (nesting_fuel ns0 []) as fuel eqn:Hfuel.
  assert (H : ∀ m j ns ch, (j + m = length (structs ns0))%nat → settled_to rank ns0 fuel k j ns →
    match foldM (struct_step fuel) (ns, ch) (seq j m) with
    | Ret (ns', _) => settled_to rank ns0 fuel k (length (structs ns0)) ns' | Panic => True | OutOfFuel => False end).
  { clear ns Hset. induction m as [|m IH]; intros j ns ch Hj Hset; cbn; [by assert (length (structs ns0) = j) as -> by lia|].
    pose proof (struct_step_no_fuel fuel ns ch j (shape_nested _ _ (proj1 Hset) Hn)
      (eq_trans Hfuel (shape_fuel _ _ (proj1 Hset)))) as Hf.
    destruct (struct_step fuel (ns, ch) j) as [[ns' ch']| |] eqn:E; [|done..].
    cbn [mbind comp_bind]. apply IH; [lia|]. by eapply settled_step. }
  specialize (H (length (structs ns)) 0%nat ns false). assert (Hl : length (structs ns) = length (structs ns0)).
  { destruct Hset as [[Hs _] _]. apply (f_equal length) in Hs. by rewrite !length_fmap in Hs. }
  specialize (H ltac:(lia) Hset). destruct (foldM _ _ _) as [[ns' ch]| |]; try done.
  destruct H as [H0 Hk]. split; [done|]. intros n Hlt.
  destruct (decide (n < length (structs ns0))%nat) as [Hb|Hb]; [apply Hk; lia|].
  intros s Hs. exfalso. apply lookup_lt_Some in Hs. destruct H0 as [H0 _]. apply (f_equal length) in H0.
  rewrite !length_fmap in H0. lia.
Qed.
(** When all structs are settled a pass changes nothing. *)
Lemma struct_pass_settled rank ns0 ns k :
  (∀ x l, made_of ns0 x = Some l →
    (rank x < length (structs ns0) + length (user_types ns0))%nat
    ∧ ∀ t y, t ∈ l → y ∈ mentions t → is_Some (made_of ns0 y) → (rank y < rank x)%nat) →
  settled_to rank ns0 (nesting_fuel ns0 []) k 0 ns → (length (structs ns0) + length (user_types ns0) ≤ k)%nat →
  ∀ r, struct_pass (nesting_fuel ns0 []) ns = Ret r → r = (ns, false).
Proof.
  intros Hrank [H0 Hk] Hle. unfold struct_pass. generalize (seq 0 (length (structs ns))) as l.
  induction l as [|i l IH]; intros r H; [by injection H|]. cbn in H.
  destruct (struct_step _ _ i) as [[ns' ch']| |] eqn:E; [|done..].
  destruct (struct_step_stepped rank ns0 Hrank _ _ _ _ _ _ H0 E) as [_ Hsame].
  destruct Hsame as [-> ->]; [|by apply IH]. intros s Hs. apply (Hk i); [|done]. left.
  pose proof (shape_struct _ _ i H0) as E0. rewrite Hs in E0. destruct (structs ns0 !! i) as [s0|] eqn:Hs0; [|done].
  destruct (Hrank (inl i) (p_ty <$> fields s0)) as [Hr _]; [cbn; by rewrite Hs0|]. lia.
Qed.

(** C37: The computation of the offsets of all struct fields, which repeats
    until nothing changes, comes to an end when no struct contains itself:
    every pass settles the offsets of the structs of one more level. *)
Theorem struct_offsets_terminates ns :
  nested ns → struct_offsets (nesting_fuel ns []) (2 + length (structs ns) + length (user_types ns)) ns ≠ OutOfFuel.
Proof.
  intros Hn. pose proof Hn as (rank & Hrank). set (N := (length (structs ns) + length (user_types ns))%nat) in *.
  assert (H : ∀ p k ns1, settled_to rank ns (nesting_fuel ns []) k 0 ns1 → (N < k + p)%nat → (k ≤ N)%nat →
    struct_offsets (nesting_fuel ns []) p ns1 ≠ OutOfFuel).
  { induction p as [|p IH]; intros k ns1 Hk Hlt Hle; [lia|]. cbn.
    pose proof (struct_pass_settles rank ns ns1 k Hrank Hn Hk) as Hp.
    pose proof (struct_pass_settled rank ns ns1 k Hrank Hk) as Hd.
    destruct (struct_pass _ ns1) as [[ns2 []]| |]; try done. cbn.
    destruct (decide (k = N)) as [->|Hne]; [by specialize (Hd ltac:(lia) _ eq_refl)|]. apply (IH (S k)); [done|lia..]. }
  apply (H _ 0%nat); [|lia..]. split; [done|]. intros n [?|[_ ?]]; lia.
Qed.
End Offsets.

(** [struct Point { u32 x; u32[2] y; } struct Line { Point[2] ends; hash h; }] *)
Definition field_of (n : string) (t : ty) : ParameterDecl :=
  mkParameter Builtin (Some {| id_loc := Builtin; id_name := n |}) t (Some Builtin) false false.
Definition struct_of (n : string) (l : list ParameterDecl) : StructDecl := mkStructDecl n Builtin (Some "C") l [] [].
Definition line_ns : Namespace :=
  set_structs
    [struct_of "Point" [field_of "x" (Ty.Uint 32); field_of "y" (Ty.Array (Ty.Uint 32) [Fixed 2])];
     struct_of "Line" [field_of "ends" (Ty.Array (Ty.Struct 0) [Fixed 2]); field_of "hash" Ty.Hash]] empty_ns.
Lemma line_nested : nested line_ns.
Proof.
  exists (λ x, match x with inl n => n | inr _ => 0%nat end). intros [[|[|n]]|n] l Hx; cbn in Hx; try done; injection Hx as <-.
  - split; [cbn; lia|]. intros t y Ht Hy _. exfalso.
    repeat (apply elem_of_cons in Ht as [->|Ht]; [by inversion Hy|]). by inversion Ht.
  - split; [cbn; lia|]. intros t y Ht Hy _.
    apply elem_of_cons in Ht as [->|Ht]; [apply list_elem_of_singleton in Hy as ->; lia|].
    apply list_elem_of_singleton in Ht as ->. by inversion Hy.
Qed.
Lemma struct_offsets_terminates_witness :
  struct_offsets (nesting_fuel line_ns []) 4 line_ns ≠ OutOfFuel
  ∧ ∃ ns', struct_offsets (nesting_fuel line_ns []) 4 line_ns = Ret ns' ∧ (offsets <$> structs ns' !! 1%nat) = Some [0; 6; 10]%Z.
Proof.
  split; [exact (struct_offsets_terminates line_ns line_nested)|]. eexists. split; [vm_compute; reflexivity|reflexivity].
Defined.

(** [struct Tree { Tree[] children; }]: the field is recursive and its size is finite. *)
Definition tree : StructDecl :=
  struct_of "Tree" [mkParameter Builtin None (Ty.Array (Ty.Struct 0) [Dynamic]) None false true].
Definition tree_ns : Namespace := set_structs [tree] empty_ns.

Section Diverges.
Context {BI : NumBigInt}.

Lemma tree_slots fuel : storage_slots fuel tree_ns (Ty.Struct 0) = OutOfFuel.
Proof.
  induction fuel as [fuel IH] using lt_wf_ind. destruct fuel as [|[|fuel]]; try done.
  cbn. cbn in IH. by rewrite (IH fuel) by lia.
Qed.
Lemma tree_memory_offsets fuel : memory_offsets (S fuel) tree_ns (fields tree) = Ret [0; 0]%Z.
Proof.
  unfold memory_offsets, memory_step. cbn [foldM fields tree struct_of p_ty align_of mbind comp_bind]. by rewrite round_to_one.
Qed.
(** For a struct with a dynamic array of itself, which the check for recursive
    structs accepts as finite, the computation of the storage slots never
    ends, whatever the depth it is given. *)
Theorem recursive_array_never_laid_out fuel passes : struct_offsets fuel passes tree_ns = OutOfFuel.
Proof.
  destruct passes as [|passes]; [done|]. cbn [struct_offsets]. destruct fuel as [|fuel]; [done|].
  unfold struct_pass. cbn [tree_ns structs set_structs length seq foldM mbind comp_bind]. unfold struct_step at 1.
  cbn [fst]. assert (Hg : get_struct tree_ns 0 = Ret tree) by done. rewrite Hg. cbn [mbind comp_bind].
  rewrite tree_memory_offsets. cbn [mbind comp_bind]. unfold store_offsets. rewrite Hg. cbn [mbind comp_bind].
  case_decide as E; [done|]. cbn [mbind comp_bind fst]. unfold get_struct at 1. cbn.
  unfold storage_offsets_of, storage_step. cbn [foldM fields with_offsets tree struct_of infinite_size p_ty].
  set (ns := set_structs _ _). assert (Hs : same_shape tree_ns ns) by (by split).
  assert (H : storage_slots fuel ns (Ty.Struct 0) = OutOfFuel) by (by rewrite <-(slots_shape _ _ _ _ Hs), tree_slots).
  by rewrite H.
Qed.
End Diverges.

(** [struct Empty { } struct Outer { Empty e; }]: the first is reported when
    its fields are resolved, the layout then panics. *)
Definition empty_struct_ns : Namespace := set_structs [struct_of "Empty" []; struct_of "Outer" [field_of "e" (Ty.Struct 0)]] empty_ns.
Lemma empty_struct_panics : struct_offsets (nesting_fuel empty_struct_ns []) 4 empty_struct_ns = Panic.
Proof. vm_compute. reflexivity. Qed.
End Nesting.
