(* ===== verification/DeclarationRules.v ===== *)
(** The rules of declarations: what they keep of the namespace, and that it
    stays fit for the resolution of expressions. *)
From S2P Require Import Prelude BigIntSpec Ast Types Eval Pt TypeNames SymTable Casts Names Resolver.
From S2P Require Import Declarations Typed CastFacts ResolverFacts Specs ResolveFacts StatementRules.
From S2P Require Import StatementFacts Nesting.
#[local] Set Warnings "-register-all".

Module DeclarationRules.
Import Casts Names Typed CastFacts ResolverFacts Specs ResolveFacts StatementRules StatementFacts Declarations Nesting.

(** ** The part of the namespace that the resolution of expressions depends on *)

Definition core (ns : Namespace) :=
  (types_of ns, (λ c, unmark_decl <$> variables c) <$> contracts ns, unmark_decl <$> constants ns).

Lemma core_frozen ns ns' : frozen ns = frozen ns' → core ns = core ns'.
Proof.
  intros H. unfold core, types_of. f_equal; [f_equal; [f_equal; [f_equal|]|]|].
  - exact (f_equal structs H).
  - exact (f_equal user_types H).
  - exact (f_equal enums H).
  - apply (f_equal (λ n, variables <$> contracts n)) in H. cbn in H. by rewrite <-!list_fmap_compose in H.
  - exact (f_equal constants H).
Qed.
Lemma core_unmarked ns ns' : unmarked ns = unmarked ns' → core ns = core ns'.
Proof. intros H. apply core_frozen. unfold frozen. by rewrite H. Qed.

(** A variable of a contract. *)
Definition variable_of (ns : Namespace) (c n : nat) : option VariableDecl := k ← contracts ns !! c; variables k !! n.
Lemma variable_of_core ns ns' c n :
  core ns = core ns' → unmark_decl <$> variable_of ns c n = unmark_decl <$> variable_of ns' c n.
Proof.
  intros [= _ _ _ H _]. apply (f_equal (λ l, l !! c)) in H. rewrite !list_lookup_fmap in H. unfold variable_of.
  destruct (contracts ns !! c) as [k|], (contracts ns' !! c) as [k'|]; cbn in H; try done. injection H as H.
  apply (f_equal (λ l, l !! n)) in H. by rewrite !list_lookup_fmap in H.
Qed.
Lemma constants_core ns ns' n : core ns = core ns' → unmark_decl <$> constants ns !! n = unmark_decl <$> constants ns' !! n.
Proof. intros [= _ _ _ _ H]. apply (f_equal (λ l, l !! n)) in H. by rewrite !list_lookup_fmap in H. Qed.

Lemma constant_at_of ns c n : constant_at ns (Some c) n ↔ ∃ v, variable_of ns c n = Some v ∧ v_constant v = true.
Proof.
  unfold variable_of. split.
  - intros (k & v & Hk & Hv & Hc). exists v. by rewrite Hk.
  - intros (v & Hv & Hc). destruct (contracts ns !! c) as [k|] eqn:E; [|done]. by exists k, v.
Qed.
Lemma initializer_of ns c n :
  constant_initializer ns c n =
    v ← unwrap (match c with Some c => variable_of ns c n | None => constants ns !! n end); Ret (initializer v).
Proof. unfold variable_of. destruct c as [c|]; cbn; [|done]. by destruct (contracts ns !! c). Qed.

Lemma constant_at_core ns ns' c n : core ns = core ns' → constant_at ns c n → constant_at ns' c n.
Proof.
  intros H. destruct c as [c|]; [|done]. rewrite !constant_at_of. intros (v & Hv & Hc).
  pose proof (variable_of_core _ _ c n H) as E. rewrite Hv in E. destruct (variable_of ns' c n) as [v'|]; [|done].
  exists v'. split; [done|]. apply Some_inj in E. apply (f_equal v_constant) in E. cbn in E. congruence.
Qed.
Lemma initializer_core ns ns' c n : core ns = core ns' → constant_initializer ns c n = constant_initializer ns' c n.
Proof.
  intros H. rewrite !initializer_of.
  assert (E : unmark_decl <$> (match c with Some c => variable_of ns c n | None => constants ns !! n end)
    = unmark_decl <$> (match c with Some c => variable_of ns' c n | None => constants ns' !! n end)).
  { destruct c; [by apply variable_of_core|by apply constants_core]. }
  destruct (match c with Some _ => _ | None => _ end) as [v|], (match c with Some _ => _ | None => _ end) as [v'|];
    try done; cbn in *. apply Some_inj, (f_equal initializer) in E. cbn in E. by rewrite E.
Qed.
Lemma all_constants_core ns ns' : core ns = core ns' → length (Resolver.all_constants ns) = length (Resolver.all_constants ns').
Proof.
  intros [= _ _ _ Hc Hk]. unfold Resolver.all_constants. rewrite !length_app. f_equal.
  - apply (f_equal length) in Hk. by rewrite !length_fmap in Hk.
  - apply (f_equal (λ l, length (concat l))) in Hc.
    clear Hk. revert Hc. generalize (contracts ns') as l'. generalize (contracts ns) as l.
    assert (Hl : ∀ l : list Contract, length (concat ((λ c, unmark_decl <$> variables c) <$> l)) = length (concat (variables <$> l))).
    { induction l as [|c l IH]; [done|]. cbn. by rewrite !length_app, length_fmap, IH. }
    intros l l'. by rewrite !Hl.
Qed.

(** The constants of a namespace are what they are in terms of the core. *)
Lemma wf_core ns ns' (s s' : bool) :
  core ns = core ns' → (s' = true → s = true) → @wf_ns (constants_of ns) s ns → @wf_ns (constants_of ns') s' ns'.
Proof.
  intros H Hs [[Hd1 Hd2] _ Hi Hcl (rank & Hr)]. pose proof (eq_sym H) as H'. split.
  - injection H as _ Hu He _ _. split; [by rewrite <-Hu|by rewrite <-He].
  - done.
  - intros c n Hst Hc. rewrite <-(initializer_core _ _ c n H). apply Hi; [by apply Hs|by apply (constant_at_core ns')].
  - intros c n e Hc. rewrite <-(initializer_core _ _ c n H). intros He x Hx. apply (constant_at_core ns); [done|].
    eapply Hcl; [|done..]. by apply (constant_at_core ns').
  - exists rank. intros c n e Hc. rewrite <-(initializer_core _ _ c n H), <-(all_constants_core _ _ H). intros He.
    destruct (Hr c n e) as [Hb Hx]; [by apply (constant_at_core ns')|done|]. split; [done|].
    intros x Hin. rewrite <-(initializer_core _ _ _ _ H). by apply Hx.
Qed.

(** More constants, defined in terms of those there were, whose number is
    that of all variables. *)
Definition constant_bool (ns : Namespace) (x : option nat * nat) : bool :=
  match x.1 with Some c => match variable_of ns c x.2 with Some v => v_constant v | None => false end | None => true end.
Lemma constant_bool_spec ns x : constant_bool ns x = true ↔ constant_at ns x.1 x.2.
Proof.
  destruct x as [[c|] n]; [|done].
  change (constant_bool ns (Some c, n) = true ↔ constant_at ns (Some c) n). rewrite constant_at_of. unfold constant_bool. cbn.
  destruct (variable_of ns c n) as [v|]; split; [by exists v|by intros (? & [= ->] & ?)|done|by intros (? & ? & _)].
Qed.
Lemma wf_more ns ns' (s s' : bool) :
  user_types ns = user_types ns' → enums ns = enums ns' → (s' = true → s = true) →
  (∀ c n, constant_at ns c n → constant_at ns' c n ∧ constant_initializer ns' c n = constant_initializer ns c n) →
  (∀ c n, constant_at ns' c n → ¬ constant_at ns c n →
    (s' = true → constant_initializer ns' c n ≠ Ret None)
    ∧ (∀ e, constant_initializer ns' c n = Ret (Some e) → ∀ x, x ∈ const_refs e → constant_at ns x.1 x.2)
    ∧ (length (Resolver.all_constants ns) < length (Resolver.all_constants ns'))%nat) →
  (length (Resolver.all_constants ns) ≤ length (Resolver.all_constants ns'))%nat →
  @wf_ns (constants_of ns) s ns → @wf_ns (constants_of ns') s' ns'.
Proof.
  intros Hu He Hs Hold Hnew Hlen [[Hd1 Hd2] _ Hi Hcl (rank & Hr)].
  assert (Hcase : ∀ c n, constant_at ns c n ∨ ¬ constant_at ns c n).
  { intros c n. pose proof (constant_bool_spec ns (c, n)) as H. cbn in H. rewrite <-H. destruct (constant_bool _ _); auto. }
  split.
  - split; [by rewrite <-Hu|by rewrite <-He].
  - done.
  - intros c n Hst Hc. destruct (Hcase c n) as [Ho|Hno]; [|by apply (Hnew c n)].
    destruct (Hold c n Ho) as [_ ->]. apply Hi; [by apply Hs|done].
  - intros c n e Hc Hce x Hx. apply Hold. destruct (Hcase c n) as [Ho|Hno]; [|by destruct (Hnew c n) as (_ & H & _); eauto].
    destruct (Hold c n Ho) as [_ E]. rewrite E in Hce. by eapply Hcl.
  - exists (λ x, if constant_bool ns x then rank x else length (Resolver.all_constants ns)).
    assert (Hrank : ∀ x, constant_at ns x.1 x.2 → constant_bool ns x = true) by (intros x; apply constant_bool_spec).
    intros c n e Hc Hce. destruct (Hcase c n) as [Ho|Hno].
    + rewrite (Hrank (c, n) Ho). destruct (Hold c n Ho) as [_ E]. rewrite E in Hce.
      destruct (Hr c n e Ho Hce) as [Hb Hx]. split; [lia|]. intros x Hin Hsome.
      assert (Hox : constant_at ns x.1 x.2) by by eapply Hcl. rewrite (Hrank x Hox).
      destruct (Hold _ _ Hox) as [_ Ex]. rewrite Ex in Hsome. by apply Hx.
    + destruct (Hnew c n Hc Hno) as (_ & Hrefs & Hlt).
      assert (constant_bool ns (c, n) = false) as -> by (apply not_true_is_false; by rewrite constant_bool_spec).
      split; [done|]. intros x Hin [i Hx]. pose proof (Hrefs e Hce x Hin) as Hox. rewrite (Hrank x Hox).
      destruct (Hold _ _ Hox) as [_ Ex]. rewrite Ex in Hx. destruct x as [c' n']. by apply (Hr c' n' i).
Qed.

Lemma typed_mono (CS CS' : Constants) e : (∀ c n, CS c n → CS' c n) → @typed CS e → @typed CS' e.
Proof.
  intros H. induction e as [e IH] using expr_ind. intros [Hn Hc]. constructor.
  - destruct e; try exact Hn. by apply H.
  - intros c Hin. rewrite Forall_forall in IH. by apply IH, Hc.
Qed.

(** ** Namespaces in which expressions can be resolved

    As long as nothing has been reported all constants have a value; a
    variable's initialiser is well typed and has the variable's type. *)
Definition quiet (ns : Namespace) : bool := bool_decide (contents (diagnostics ns) = []).
Definition values_ok (ns : Namespace) : Prop := ∀ c n v e,
  variable_of ns c n = Some v → initializer v = Some e → @cast_result (constants_of ns) (v_ty v) e.
Record inv (ns : Namespace) : Prop := {
  i_wf : @wf_ns (constants_of ns) (quiet ns) ns;
  i_counted : counted (diagnostics ns);
  i_values : values_ok ns;
}.

Lemma quiet_grown ns ns' : grown (diagnostics ns) (diagnostics ns') → quiet ns' = true → quiet ns = true.
Proof.
  unfold quiet. intros [[l Hl] _] H%bool_decide_eq_true. apply bool_decide_eq_true. rewrite H in Hl.
  by destruct (contents (diagnostics ns)).
Qed.
Lemma cast_result_mono (CS CS' : Constants) t e :
  (∀ c n, CS c n → CS' c n) → @cast_result CS t e → @cast_result CS' t e.
Proof. intros H [Ht Hf]. split; [exact (typed_mono CS CS' e H Ht)|exact Hf]. Qed.
Lemma inv_core ns ns' : core ns = core ns' → grown (diagnostics ns) (diagnostics ns') → inv ns → inv ns'.
Proof.
  intros Hc Hg [Hw Hk Hv]. split; [|by apply Hg|].
  - apply (wf_core ns _ (quiet ns)); [done| |done]. by eapply quiet_grown.
  - intros c n v' e Hv' He. pose proof (variable_of_core _ _ c n Hc) as E. rewrite Hv' in E.
    destruct (variable_of ns c n) as [v|] eqn:Hold; [|done]. apply Some_inj in E.
    assert (v_ty v = v_ty v') as <- by exact (f_equal v_ty E).
   apply (cast_result_mono (constants_of ns)).
    + intros. by eapply constant_at_core.
    + apply (Hv c n v e Hold). assert (initializer v = initializer v') by exact (f_equal initializer E). congruence.
Qed.

(** A variable stays declared as it is, a constant keeps its value. *)
Definition same_variable (v v' : VariableDecl) : Prop :=
  v_ty v = v_ty v' ∧ v_constant v = v_constant v' ∧ (v_constant v = true → initializer v = initializer v').
Record keeps (ns ns' : Namespace) : Prop := {
  ke_diags : grown (diagnostics ns) (diagnostics ns');
  ke_functions : functions ns `prefix_of` functions ns';
  ke_variables c n v : variable_of ns c n = Some v → ∃ v', variable_of ns' c n = Some v' ∧ same_variable v v';
  ke_types : types_of ns = types_of ns';
}.
#[export] Instance keeps_pre : PreOrder keeps.
Proof.
  split.
  - intros ns. split; [done..| |done]. intros c n v Hv. exists v. by split_and!.
  - intros ns ns1 ns2 [Hd Hf Hv Ht] [Hd' Hf' Hv' Ht']. split; [by etrans|by etrans| |congruence].
    intros c n v (v1 & H1 & Ht1 & Hc1 & Hi1)%Hv. destruct (Hv' c n v1 H1) as (v2 & H2 & Ht2 & Hc2 & Hi2).
    exists v2. split; [done|]. split_and!; [congruence|congruence|]. intros Hc. rewrite Hi1 by done. apply Hi2. congruence.
Qed.
Lemma keeps_quiet ns ns' : keeps ns ns' → quiet ns' = true → quiet ns = true.
Proof. intros [Hg _ _ _]. by apply quiet_grown. Qed.
Lemma keeps_core ns ns' :
  core ns = core ns' → grown (diagnostics ns) (diagnostics ns') → functions ns `prefix_of` functions ns' → keeps ns ns'.
Proof.
  intros Hc Hg Hf. split; [done|done| |exact (f_equal (λ x, x.1.1) Hc)]. intros c n v Hv. pose proof (variable_of_core _ _ c n Hc) as E.
  rewrite Hv in E. destruct (variable_of ns' c n) as [v'|]; [|done]. exists v'. split; [done|].
  apply Some_inj in E. destruct v, v'. cbn in E. injection E as -> -> -> -> ->. by split_and!.
Qed.
Lemma keeps_constant ns ns' c n : keeps ns ns' → constant_at ns c n → constant_at ns' c n.
Proof.
  intros [_ _ Hv _]. destruct c as [c|]; [|done]. rewrite !constant_at_of. intros (v & (v' & ? & _ & ? & _)%Hv & Hc).
  exists v'. split; [done|]. congruence.
Qed.
Lemma keeps_nested ns ns' : keeps ns ns' → nested ns' → nested ns.
Proof. intros [_ _ _ Ht]. by apply nested_types. Qed.

(** ** Calls of declarations

    A call keeps the invariant; it runs out of fuel only where a struct
    contains itself. *)
Definition goes {A} (m : N A) (ns : Namespace) (Q : A → Namespace → Prop) : Prop :=
  inv ns → match m ns with
           | Ret (a, ns') => inv ns' ∧ keeps ns ns' ∧ Q a ns'
           | Panic => True
           | OutOfFuel => ¬ nested ns
           end.

Lemma goes_ret {A} (a : A) ns (Q : A → Namespace → Prop) : Q a ns → goes (mret a) ns Q.
Proof. by intros HQ Hi. Qed.
Lemma goes_bind {A B} (m : N A) (f : A → N B) ns P Q :
  goes m ns P → (∀ a ns', keeps ns ns' → P a ns' → goes (f a) ns' Q) → goes (m ≫= f) ns Q.
Proof.
  intros Hm Hf Hi. unfold mbind, N_bind. specialize (Hm Hi). destruct (m ns) as [[a ns1]| |]; cbn; [|done..].
  destruct Hm as (Hi1 & Hk1 & Ha). specialize (Hf a ns1 Hk1 Ha Hi1).
  destruct (f a ns1) as [[b ns2]| |]; [|done|intros Hn; by apply Hf, (nested_types ns), Hn; apply Hk1].
  destruct Hf as (Hi2 & Hk2 & Hb). split_and!; [done|by etrans|done].
Qed.
Lemma goes_mono {A} (m : N A) ns (P Q : A → Namespace → Prop) :
  goes m ns P → (∀ a ns', keeps ns ns' → P a ns' → Q a ns') → goes m ns Q.
Proof.
  intros Hm HQ Hi. specialize (Hm Hi). destruct (m ns) as [[a ns1]| |]; [|done..].
  destruct Hm as (? & ? & ?). auto.
Qed.
Lemma goes_inv {A} (m : N A) ns Q : (inv ns → goes m ns Q) → goes m ns Q.
Proof. intros H Hi. by apply H. Qed.
Lemma goes_get ns (Q : Namespace → Namespace → Prop) : Q ns ns → goes get ns Q.
Proof. by intros HQ Hi. Qed.
Lemma goes_nlift {A} (m : comp A) ns Q : m ≠ OutOfFuel → (∀ a, m = Ret a → Q a ns) → goes (nlift m) ns Q.
Proof. intros Hm HQ Hi. unfold nlift. destruct m; cbn; [|done..]. by split_and!; [| |apply HQ]. Qed.
(** What changes neither types nor variables. *)
Lemma goes_core {A} (m : comp (A * Namespace)) ns Q :
  (m = OutOfFuel → ¬ nested ns) →
  (∀ a ns', m = Ret (a, ns') → core ns = core ns' ∧ grown (diagnostics ns) (diagnostics ns')
     ∧ functions ns `prefix_of` functions ns' ∧ Q a ns') →
  goes (λ _, m) ns Q.
Proof.
  intros Hm HQ Hi. destruct m as [[a ns']| |]; [|done|by apply Hm]. destruct (HQ a ns' eq_refl) as (Hc & Hg & Hf & Ha).
  split_and!; [by eapply inv_core|by apply keeps_core|done].
Qed.
Lemma goes_eq {A} (m : N A) ns Q : goes (λ _, m ns) ns Q → goes m ns Q.
Proof. done. Qed.
Lemma push_not_quiet d ns : quiet (push_diag d ns) = false.
Proof. unfold quiet. apply bool_decide_eq_false. cbn. by destruct (contents (diagnostics ns)). Qed.
Lemma goes_report d ns (Q : unit → Namespace → Prop) : (∀ ns', quiet ns' = false → keeps ns ns' → Q tt ns') → goes (report d) ns Q.
Proof.
  intros HQ Hi. assert (Hk : keeps ns (push_diag d ns)) by (apply keeps_core; [done|apply grown_push|done]).
  cbn. split_and!; [by apply (inv_core ns); [|apply grown_push|]|done|]. apply HQ; [apply push_not_quiet|done].
Qed.
(** A loop, with what holds after a part of the list. *)
Lemma goes_fold_prefix {A B} (f : B → A → N B) (I : list A → B → Namespace → Prop) l b ns :
  I [] b ns →
  (∀ before a after b ns', l = before ++ a :: after → keeps ns ns' → I before b ns' → goes (f b a) ns' (I (before ++ [a]))) →
  goes (foldN f b l) ns (I l).
Proof.
  intros Hb Hf. cut (∀ after before b ns', l = before ++ after → keeps ns ns' → I before b ns' → goes (foldN f b after) ns' (I l)).
  { intros H. by apply (H l [] b ns). }
  clear b Hb. induction after as [|a after IH]; intros before b ns' -> Hk Hb.
  - rewrite app_nil_r. by apply goes_ret.
  - cbn. eapply goes_bind; [by apply (Hf before a after)|]. intros b' ns1 Hk1 Hb'. apply (IH (before ++ [a])).
    + by rewrite <-app_assoc.
    + by etrans.
    + done.
Qed.
Lemma goes_foldN {A B} (f : B → A → N B) (I : B → Namespace → Prop) l b ns :
  I b ns → (∀ b a ns', a ∈ l → keeps ns ns' → I b ns' → goes (f b a) ns' I) → goes (foldN f b l) ns I.
Proof.
  intros Hb Hf. apply (goes_fold_prefix f (λ _, I)); [done|]. intros before a after b' ns' -> Hk Hb'.
  apply Hf; [|done..]. apply elem_of_app. right. by left.
Qed.
End DeclarationRules.
