(* ===== verification/DeclarationFacts.v ===== *)
(** The declarations of functions and variables: they come to an end, what
    fails is reported, constants get a value of their type, and the namespace
    stays fit for what is resolved next. *)
From S2P Require Import Prelude BigIntSpec Ast Types Eval Pt TypeNames SymTable Casts Names Resolver.
From S2P Require Import Literals Resolve Declarations Functions Typed CastFacts ResolverFacts Specs.
From S2P Require Import ResolveFacts StatementFacts Nesting DeclarationRules.
#[local] Set Warnings "-register-all".

Module DeclarationFacts.
Import ParseDepth Casts Names Resolver Literals Resolve Typed CastFacts ResolverFacts Specs ResolveFacts StatementFacts.
Import Declarations Functions Nesting DeclarationRules.

(** ** Symbols *)

Definition only_symbols (ns ns' : Namespace) : Prop :=
  core ns = core ns' ∧ functions ns = functions ns' ∧ c_functions <$> contracts ns = c_functions <$> contracts ns'
  ∧ grown (diagnostics ns) (diagnostics ns').
#[export] Instance only_symbols_pre : PreOrder only_symbols.
Proof.
  unfold only_symbols. split; [by intros ns|]. intros ??? (-> & -> & -> & ?) (-> & -> & -> & ?). split_and!; [done..|by etrans].
Qed.
Lemma only_symbols_push ns d : only_symbols ns (push_diag d ns).
Proof. split_and!; [done..|apply grown_push]. Qed.

Lemma warn_outside_symbols ns file i : yields False (warn_outside ns file i) (only_symbols ns).
Proof.
  unfold warn_outside.
  set (ns1 := match function_at ns file None (id_name i) with Some (SFunction _) => _ | _ => _ end).
  assert (H1 : only_symbols ns ns1).
  { unfold ns1. destruct (function_at _ _ _ _) as [[]|]; try done. apply only_symbols_push. }
  destruct (variable_at ns1 file None (id_name i)) as [s|]; [|exact H1].
  assert (Hl : already_defined s ≠ OutOfFuel) by (by destruct s).
  eapply yields_bind; [by apply yields_no_fuel|]. intros what _.
  assert (Hs : symbol_loc s ≠ OutOfFuel) by (destruct s; try done; cbn; by destruct l).
  eapply yields_bind; [by apply yields_no_fuel|]. intros l _. cbn. etrans; [exact H1|apply only_symbols_push].
Qed.
Lemma add_symbol_symbols ns file c i s :
  yields False (Names.add_symbol ns file c i s) (λ r, only_symbols ns r.2 ∧ (r.1 = false → quiet r.2 = false)).
Proof.
  unfold Names.add_symbol. destruct (Corelib.is_reserved _).
  { split; [apply only_symbols_push|intros _; apply push_not_quiet]. }
  assert (Hvar : yields False
    (match variable_at ns file c (id_name i) with
     | Some s =>
         what ← already_defined s; l ← symbol_loc s;
         Ret (false, push_diag (Diag.error_with_note (id_loc i) (id_name i +:+ " is already defined as " +:+ what) l
                                  "location of previous definition") ns)
     | None =>
         ns ← match c with Some _ => warn_outside ns file i | None => Ret ns end;
         let k := (file, c, id_name i) in
         Ret (true, match s with
                    | SFunction _ => set_symbols (<[k := s]> (function_symbols ns)) (variable_symbols ns) ns
                    | _ => set_symbols (function_symbols ns) (<[k := s]> (variable_symbols ns)) ns
                    end)
     end) (λ r, only_symbols ns r.2 ∧ (r.1 = false → quiet r.2 = false))).
  { destruct (variable_at _ _ _ _) as [s'|].
    - assert (Hl : already_defined s' ≠ OutOfFuel) by (by destruct s').
      eapply yields_bind; [by apply yields_no_fuel|]. intros what _.
      assert (Hs : symbol_loc s' ≠ OutOfFuel) by (destruct s'; try done; cbn; by destruct l).
      eapply yields_bind; [by apply yields_no_fuel|]. intros l _. cbn.
      split; [apply only_symbols_push|intros _; apply push_not_quiet].
    - eapply (yields_bind _ _ _ (only_symbols ns)).
      { destruct c; [apply warn_outside_symbols|by cbn]. }
      intros ns1 (Hc & Hf & Hk & Hg). cbn. split; [|done]. by destruct s. }
  destruct (function_at ns file c (id_name i)) as [[]|]; try exact Hvar.
  split; [apply only_symbols_push|intros _; apply push_not_quiet].
Qed.
Lemma add_symbol_goes file c i s ns :
  goes (add_symbol file c i s) ns (λ b ns', only_symbols ns ns' ∧ (b = false → quiet ns' = false)).
Proof.
  apply goes_eq. pose proof (add_symbol_symbols ns file c i s) as H. apply goes_core.
  - unfold add_symbol. intros E. by rewrite E in H.
  - unfold add_symbol. intros b ns' E. rewrite E in H. destruct H as [(Hc & Hf & Hk & Hg) Hq].
    split_and!; [done|done|by rewrite Hf|done|done].
Qed.
(** ** A resolution with diagnostics of its own *)

Definition same_declarations (ns ns' : Namespace) : Prop := core ns = core ns' ∧ functions ns = functions ns'
  ∧ c_functions <$> contracts ns = c_functions <$> contracts ns'.
#[export] Instance same_declarations_pre : PreOrder same_declarations.
Proof. unfold same_declarations. split; [by intros ns|]. by intros ??? (-> & -> & ->) (-> & -> & ->). Qed.
Lemma report_all_goes d ns :
  counted d → goes (report_all d) ns (λ _ ns', same_declarations ns ns' ∧ (contents d ≠ [] → quiet ns' = false)).
Proof.
  intros Hd. apply goes_eq, goes_core; [done|]. intros [] ns' [= <-].
  assert (Hg : grown (diagnostics ns) (Diags.extend (diagnostics ns) d)) by by apply grown_extend.
  split_and!; [done|done|done|done|]. intros Hne. apply bool_decide_eq_false. cbn.
  destruct (contents (diagnostics ns)), (contents d); done.
Qed.
Lemma run_goes {A} c t d (m : R A) ns (P : A → Prop) :
  @spec (constants_of ns) (quiet ns) A m P →
  goes (run c t d m) ns (λ '(o, _, d') ns', same_declarations ns ns' ∧ grown d d'
    ∧ match o with Some a => P a | None => quiet ns' = true → contents d' ≠ [] end).
Proof.
  intros Hm Hi. unfold run. specialize (Hm (length (contents d)) (mkState ns t c d) (i_wf _ Hi) ltac:(done)).
  assert (Hl : ∀ s', later (mkState ns t c d) s' → inv (st_ns s') ∧ keeps ns (st_ns s') ∧ same_declarations ns (st_ns s')
    ∧ grown d (st_diags s')).
  { intros s' [(Hn & _ & Hg) _ Hd]. cbn in Hn, Hg, Hd. pose proof (core_unmarked _ _ Hn) as Hc.
    assert (Hf : functions ns = functions (st_ns s')) by exact (f_equal functions Hn).
    split_and!; [by eapply inv_core|apply keeps_core; [done|done|by rewrite Hf]| |done]. split_and!; [done|done|].
    apply (f_equal (λ n, c_functions <$> contracts n)) in Hn. cbn in Hn. by rewrite <-!list_fmap_compose in Hn. }
  destruct (m _) as [[[a|] s']| |]; [| |exact I|by destruct Hm];
    destruct Hm as [Hs Ha]; destruct (Hl _ Hs) as (Hi' & Hk & Hsame & Hd).
  - split_and!; assumption.
  - split_and!; [exact Hi'|exact Hk|exact Hsame|exact Hd|]. intros Hq. unfold Specs.count, gain, strict in Ha. cbn in Ha.
    rewrite (keeps_quiet _ _ Hk Hq) in Ha. intros E. cbn [fst snd] in E. rewrite E in Ha. cbn in Ha. lia.
Qed.

(** The depth of a parse tree that a declaration looks into. *)
Definition parameters_depth (l : list (Loc * option Pt.Parameter_)) : nat :=
  max_list ((λ x, match x.2 with Some p => depth (Pt.pa_ty p) | None => 0%nat end) <$> l).
Definition signature_depth (f : Pt.FunctionDefinition) : nat :=
  parameters_depth (Pt.fd_params f) `max` parameters_depth (Pt.fd_returns f).
Definition variable_depth (v : Pt.VariableDefinition_) : nat :=
  depth (Pt.vd_ty v) `max` opt_depth (Pt.vd_initializer v).

Section Facts.
Context {BI : NumBigInt}.
Context (keccak256 : bytes → list Z).
Context (hash_order : list Pt.NamedArgument → list Pt.NamedArgument).
Context (Hhash : ∀ l, hash_order l ≡ₚ l).
Context (fuel : nat).
#[local] Abbreviation rec := (expression keccak256 hash_order fuel).
#[local] Abbreviation rec_type := (resolve_type_fuel keccak256 hash_order fuel).


Lemma resolve_type_goes file c e d ns :
  (depth e ≤ fuel)%nat →
  goes (resolve_type rec_type file c e d) ns (λ '(o, d') ns', same_declarations ns ns' ∧ grown d d'
    ∧ (o = None → quiet ns' = true → contents d' ≠ [])).
Proof.
  intros He. unfold resolve_type. eapply goes_bind.
  - apply run_goes. exact (proj2 (@expression_ok _ (constants_of ns) (quiet ns) keccak256 _ Hhash fuel) file c e He).
  - intros [[o t] d'] ns' Hk (Hs & Hg & Ho). apply goes_ret. split_and!; [done|done|]. by intros ->.
Qed.

(** ** Parameters *)

Definition parameter_of (x : Loc * option Pt.Parameter_) (p : ParameterDecl) : Prop :=
  ∃ q, x.2 = Some q ∧ p_loc p = x.1 ∧ p_id p = Pt.pa_name q.
Definition parameters_ok (ns : Namespace) (d : Diagnostics) (before : list (Loc * option Pt.Parameter_))
    (acc : list ParameterDecl * bool * Diagnostics) (ns' : Namespace) : Prop :=
  let '(params, success, d') := acc in
  same_declarations ns ns' ∧ grown d d' ∧ (success = false → quiet ns' = true → contents d' ≠ [])
  ∧ (success = true → Forall2 parameter_of before params).

Lemma grown_not_empty d d' : grown d d' → contents d ≠ [] → contents d' ≠ [].
Proof. intros [[l ->] _]. by destruct (contents d). Qed.

Lemma resolve_parameters_goes missing file c l d ns :
  (parameters_depth l ≤ fuel)%nat →
  goes (foldN (resolve_parameter rec_type missing file c) ([], true, d) l) ns (parameters_ok ns d l).
Proof.
  intros Hd. apply (goes_fold_prefix _ (parameters_ok ns d)); [by split_and!|].
  intros before [loc o] after [[params success] d1] ns1 -> Hk (Hs & Hg & Hf & Ht). cbn.
  destruct o as [p|].
  - eapply goes_bind; [by apply (goes_nlift _ _ (λ _ ns2, ns2 = ns1)); [apply pt_loc_no_fuel|]|]. intros ty_loc ns2 _ ->.
    assert (Hp : (depth (Pt.pa_ty p) ≤ fuel)%nat).
    { etrans; [|exact Hd]. apply max_list_elem_of_le, list_elem_of_fmap. exists (loc, Some p). split; [done|].
      apply elem_of_app. right. by left. }
    eapply goes_bind; [by apply resolve_type_goes|]. intros [[t|] d2] ns3 Hk3 (Hs3 & Hg3 & Hn3); apply goes_ret; cbn.
    + split_and!; [by etrans|by etrans| |].
      * intros Hsu Hq. eapply grown_not_empty; [done|]. apply Hf; [done|]. by eapply keeps_quiet.
      * intros Hsu. apply Forall2_app; [by apply Ht|]. constructor; [|constructor]. by exists p.
    + split_and!; [by etrans|by etrans| |done]. intros _ Hq. by apply Hn3.
  - apply goes_ret. cbn. split_and!; [done|etrans; [exact Hg|apply grown_push]| |done].
    intros _ _. by destruct (contents d1).
Qed.

(** ** Functions *)

Lemma goes_unwrap {A} (o : option A) ns Q : (∀ a, o = Some a → Q a ns) → goes (nlift (unwrap o)) ns Q.
Proof. intros HQ. apply goes_nlift; [by destruct o|]. intros a H. apply HQ. by destruct o; [injection H as ->|]. Qed.
Lemma same_declarations_report d ns ns' : same_declarations ns ns' → same_declarations ns (push_diag d ns').
Proof. intros (? & ? & ?). by split_and!. Qed.
Lemma report_goes d ns :
  goes (report d) ns (λ _ ns', quiet ns' = false ∧ same_declarations ns ns').
Proof.
  intros Hi. cbn. split_and!; [by apply (inv_core ns); [|apply grown_push|]|by apply keeps_core; [|apply grown_push|]
    |by apply push_not_quiet|done..].
Qed.

Lemma check_body_goes c func ns :
  goes (check_body c func) ns (λ b ns', same_declarations ns ns' ∧ (b = false → quiet ns' = false)).
Proof.
  unfold check_body. eapply goes_bind; [by apply (goes_get ns (λ n n', n = ns ∧ n' = ns))|]. intros ? ? _ [-> ->].
  eapply goes_bind; [by apply (goes_unwrap _ ns (λ _ n, n = ns))|]. intros k ? _ ->.
  assert (Hreport : ∀ d, goes (_ ← report d; mret false) ns (λ b ns', same_declarations ns ns' ∧ (b = false → quiet ns' = false))).
  { intros d. eapply goes_bind; [apply report_goes|]. intros [] ns' _ [Hq Hs]. by apply goes_ret. }
  destruct (is_interface k); [|destruct (is_library k)]; try (destruct (Pt.fd_body func)); by try apply goes_ret.
Qed.

Lemma new_function_no_fuel loc n c params returns ns :
  inv ns → new_function loc n c params returns ns = OutOfFuel → ¬ nested ns.
Proof.
  intros Hi H Hn. unfold new_function in H. revert H. apply bind_no_fuel; [|done].
  apply signature_no_fuel; [done|apply Hi].
Qed.
Lemma new_function_goes loc n c params returns ns :
  inv ns → goes (nlift (new_function loc n c params returns ns)) ns (λ f ns', ns' = ns ∧ f_loc f = loc ∧ f_name f = n
    ∧ f_contract_no f = c ∧ f_params f = params ∧ f_returns f = returns ∧ f_body f = []).
Proof.
  intros Hi _. unfold nlift. pose proof (new_function_no_fuel loc n c params returns ns Hi) as Hf.
  destruct (new_function _ _ _ _ _ _) as [f| |] eqn:E; cbn; [|done|by apply Hf].
  split; [done|]. split; [reflexivity|]. unfold new_function in E. destruct (signature _ _ _ _) as [x| |]; [|done..].
  injection E as <-. by split_and!.
Qed.
Lemma find_signature_no_fuel ns l x : find_signature ns l x ≠ OutOfFuel.
Proof.
  induction l as [|k l IH]; [done|]. cbn. apply bind_no_fuel; [apply unwrap_no_fuel|]. intros f _. by case_bool_decide.
Qed.

(** What is declared for a function. *)
Definition declares (func : Pt.FunctionDefinition) (c : nat) (f : Function) : Prop :=
  f_loc f = Pt.fd_loc func ∧ Some (f_name f) = id_name <$> Pt.fd_name func ∧ f_contract_no f = Some c
  ∧ Forall2 parameter_of (Pt.fd_params func) (f_params f) ∧ Forall2 parameter_of (Pt.fd_returns func) (f_returns f)
  ∧ (has_body f = true ↔ is_Some (Pt.fd_body func)).
(** The new function of the namespace and of the contract. *)
Definition function_added (c : nat) (f : Function) (n : nat) (ns ns' : Namespace) : Prop :=
  n = length (functions ns) ∧ functions ns' = functions ns ++ [f] ∧ core ns = core ns'
  ∧ (c_functions <$> contracts ns') = alter (λ l, l ++ [n]) c (c_functions <$> contracts ns).

Lemma modify_goes f ns (Q : unit → Namespace → Prop) :
  core ns = core (f ns) → grown (diagnostics ns) (diagnostics (f ns)) → functions ns `prefix_of` functions (f ns) →
  Q tt (f ns) → goes (modify f) ns Q.
Proof. intros Hc Hg Hf HQ. apply goes_eq, goes_core; [done|]. by intros [] ns' [= <-]. Qed.
Definition contract_changed (c : nat) (g : Contract → Contract) (ns ns' : Namespace) : Prop :=
  core ns = core ns' ∧ functions ns' = functions ns
  ∧ c_functions <$> contracts ns' = c_functions <$> alter g c (contracts ns).
Lemma update_contract_goes c g ns :
  (∀ k, variables (g k) = variables k) → goes (update_contract c g) ns (λ _ ns', contract_changed c g ns ns').
Proof.
  intros Hg. unfold update_contract, update. apply goes_eq. destruct (contracts ns !! c) as [k|] eqn:E; [|done].
  cbn. apply goes_core; [done|]. intros [] ns' [= <-].
  assert (Hc : core ns = core (set_contracts (<[c:=g k]> (contracts ns)) ns)).
  { unfold core. cbn. f_equal. f_equal. symmetry. rewrite list_fmap_insert, Hg. apply list_insert_id.
    by rewrite list_lookup_fmap, E. }
  split_and!; [exact Hc|reflexivity|done|]. split_and!; [exact Hc|done|]. cbn. f_equal.
  apply list_eq. intros m. destruct (decide (m = c)) as [->|Hne].
  - by rewrite list_lookup_alter_eq, list_lookup_insert_eq, E by (by eapply lookup_lt_Some).
  - by rewrite list_lookup_alter_ne, list_lookup_insert_ne.
Qed.

Lemma add_function_goes func i file c f ns :
  goes (add_function func i file c f) ns (λ n ns', function_added c f n ns ns').
Proof.
  unfold add_function. eapply goes_bind; [by apply (goes_get ns (λ n n', n = ns ∧ n' = ns))|]. intros ? ? _ [-> ->].
  cbv zeta. eapply goes_bind.
  { apply (modify_goes _ ns (λ _ ns', ns' = set_functions (functions ns ++ [f]) ns)); [done|reflexivity|by exists [f]|done]. }
  intros [] ns1 _ ->. eapply goes_bind; [by apply update_contract_goes|]. intros [] ns2 _ (Hc2 & Hf2 & Hcf2). cbn in Hf2, Hcf2.
  assert (Hadd : ∀ ns3, core ns2 = core ns3 → functions ns3 = functions ns2 →
    c_functions <$> contracts ns3 = c_functions <$> contracts ns2 → function_added c f (length (functions ns)) ns ns3).
  { intros ns3 Hc3 Hf3 Hcf3. split_and!; [done|by rewrite Hf3, Hf2|by rewrite <-Hc3, <-Hc2|].
    rewrite Hcf3, Hcf2. apply list_eq. intros m. rewrite list_lookup_fmap. destruct (decide (m = c)) as [->|Hne].
    - rewrite !list_lookup_alter_eq, list_lookup_fmap. by destruct (contracts ns !! c).
    - by rewrite !list_lookup_alter_ne, list_lookup_fmap. }
  assert (Hsym : goes (_ ← add_symbol file (Some c) i (SFunction [(id_loc i, length (functions ns))]); mret (length (functions ns)))
    ns2 (λ n ns', function_added c f n ns ns')).
  { eapply goes_bind; [apply add_symbol_goes|]. intros b ns3 _ [(Hc3 & Hf3 & Hcf3 & _) _]. apply goes_ret. by apply Hadd. }
  destruct (function_symbols ns !! _) as [[]|]; try exact Hsym. eapply goes_bind.
  { by apply (modify_goes _ ns2 (λ _ ns', function_added c f (length (functions ns)) ns ns')); [| | |apply Hadd]. }
  intros [] ns3 _ H3. by apply goes_ret.
Qed.

(** A function of a contract is declared, or something is reported. *)
Lemma contract_function_goes func file c ns :
  (signature_depth func ≤ fuel)%nat →
  goes (contract_function rec_type func file c) ns (λ o ns',
    match o with
    | None => quiet ns' = false ∧ functions ns' = functions ns ∧ core ns = core ns'
              ∧ c_functions <$> contracts ns = c_functions <$> contracts ns'
    | Some n => ∃ f, declares func c f ∧ f_body f = [] ∧ function_added c f n ns ns'
    end).
Proof.
  intros Hd. set (Q := λ (o : option nat) ns', match o with None => _ | Some n => _ end).
  assert (Hfail : ∀ d ns1, same_declarations ns ns1 → goes (_ ← report d; mret None) ns1 Q).
  { intros d ns1 Hs1. eapply goes_bind; [apply report_goes|]. intros [] ns2 _ [Hq Hs2]. apply goes_ret. cbn.
    assert (same_declarations ns ns2) as (? & ? & ?) by (by etrans). by split_and!. }
  unfold contract_function. destruct (Pt.fd_name func) as [i|] eqn:Hi; [|by apply Hfail].
  eapply goes_bind; [by apply (goes_get ns (λ n n', n = ns ∧ n' = ns))|]. intros ? ? _ [-> ->].
  eapply goes_bind; [by apply (goes_unwrap _ ns (λ _ n, n = ns))|]. intros k ? _ ->.
  destruct (bool_decide _); [by apply Hfail|].
  eapply goes_bind; [apply resolve_parameters_goes; unfold signature_depth in Hd; lia|].
  intros [[params s1] d1] ns1 Hk1 (Hs1 & Hg1 & Hn1 & Hp1).
  eapply goes_bind; [apply resolve_parameters_goes; unfold signature_depth in Hd; lia|].
  intros [[returns s2] d2] ns2 Hk2 (Hs2 & Hg2 & Hn2 & Hp2).
  assert (Hs : same_declarations ns ns2) by (by etrans).
  eapply goes_bind; [apply report_all_goes; by apply Hg2, Hg1|]. intros [] ns3 Hk3 [Hs3 Hq3].
  eapply goes_bind; [apply check_body_goes|]. intros s3 ns4 Hk4 [Hs4 Hq4].
  assert (Hall : same_declarations ns ns4) by (by do 2 (etrans; [done|])).
  assert (Hquiet : quiet ns4 = true → contents d2 = []).
  { intros Hq. destruct (contents d2) eqn:E; [done|]. pose proof (keeps_quiet _ _ Hk4 Hq). by rewrite Hq3 in *. }
  assert (Hq2 : quiet ns4 = true → quiet ns2 = true) by (intros; by eapply keeps_quiet, keeps_quiet).
  destruct (s3 && s2 && s1) eqn:Hsuccess; cbn [negb].
  2: { apply goes_ret. destruct Hall as (? & ? & ?). split_and!; [|done..]. destruct (quiet ns4) eqn:Hq; [|done].
    specialize (Hquiet eq_refl). specialize (Hq2 eq_refl).
    destruct s3; [|by discriminate Hq4]. destruct s2; [|by destruct (Hn2 eq_refl Hq2)].
    destruct s1; [|]; [done|]. exfalso. apply (grown_not_empty _ _ Hg2); [|done]. apply Hn1; [done|].
    by eapply keeps_quiet. }
  apply andb_prop in Hsuccess as [[-> ->]%andb_prop ->].
  apply goes_inv. intros Hi4.
  eapply goes_bind; [by apply (goes_get ns4 (λ n n', n = ns4 ∧ n' = ns4))|]. intros ? ? _ [-> ->].
  eapply goes_bind; [apply (new_function_goes _ _ _ _ _ ns4 Hi4)|]. intros f ? _ [-> Hf]. cbv zeta.
  eapply goes_bind; [by apply (goes_unwrap _ ns4 (λ _ n, n = ns4))|]. intros k' ? _ ->.
  eapply goes_bind; [by apply (goes_nlift _ ns4 (λ _ n, n = ns4)); [apply find_signature_no_fuel|]|]. intros [n|] ? _ ->.
  - eapply goes_bind; [by apply (goes_unwrap _ ns4 (λ _ n, n = ns4))|]. intros p ? _ ->. by apply Hfail.
  - eapply goes_bind; [apply add_function_goes|]. intros n ns5 _ (-> & Hf5 & Hc5 & Hcf5). apply goes_ret.
    destruct Hall as (Hc & Hfs & Hcf). exists (set_has_body (match Pt.fd_body func with Some _ => true | None => false end) f).
    destruct Hf as (H1 & H2 & H3 & H4 & H5 & H6). split; [|split; [done|]].
    + split_and!; cbn; [done|by rewrite H2, Hi|done|rewrite H4; by apply Hp1|rewrite H5; by apply Hp2|].
      destruct (Pt.fd_body func); (split; [|by intros []]); naive_solver.
    + split_and!; [by rewrite Hfs|by rewrite Hf5, Hfs|by rewrite Hc|by rewrite Hcf5, Hcf].
Qed.
End Facts.
End DeclarationFacts.
