(* ===== verification/VariableFacts.v ===== *)
(** The variables of contracts: constants get their values as they are
    declared, the other initialisers are resolved later. *)
From S2P Require Import Prelude BigIntSpec Ast Types Eval Pt TypeNames SymTable Casts Names Resolver.
From S2P Require Import Literals Resolve Declarations Functions Typed CastFacts ResolverFacts Specs.
From S2P Require Import ResolveFacts StatementFacts Nesting DeclarationRules DeclarationFacts.
#[local] Set Warnings "-register-all".

Module VariableFacts.
Import ParseDepth Casts Names Resolver Literals Resolve Typed CastFacts ResolverFacts Specs ResolveFacts StatementFacts.
Import Declarations Functions Nesting DeclarationRules DeclarationFacts.

(** ** A new variable *)

Definition push_variable (v : VariableDecl) (k : Contract) : Contract := Usage.with_variables (variables k ++ [v]) k.

Section Change.
(** A namespace with another contract in the place of one. *)
Context (ns : Namespace) (c : nat) (k k' : Contract) (Hk : contracts ns !! c = Some k).
#[local] Abbreviation ns' := (set_contracts (<[c := k']> (contracts ns)) ns).

Lemma variable_of_change a n :
  variable_of ns' a n = if decide (a = c) then variables k' !! n else variable_of ns a n.
Proof.
  unfold variable_of. cbn. case_decide as E; [subst a|by rewrite list_lookup_insert_ne].
  by rewrite list_lookup_insert_eq by (by eapply lookup_lt_Some).
Qed.
Lemma variable_of_here n : variable_of ns c n = variables k !! n.
Proof. unfold variable_of. by rewrite Hk. Qed.
Lemma all_constants_change :
  (length (Resolver.all_constants ns') + length (variables k) = length (Resolver.all_constants ns) + length (variables k'))%nat.
Proof.
  unfold Resolver.all_constants. cbn. rewrite !length_app.
  assert (H : (length (concat (variables <$> <[c := k']> (contracts ns))) + length (variables k)
    = length (concat (variables <$> contracts ns)) + length (variables k'))%nat); [|lia].
  revert c Hk. induction (contracts ns) as [|x l IH]; intros [|i] E; cbn in E; try done.
  - injection E as ->. cbn. rewrite !length_app. lia.
  - specialize (IH i E). cbn. rewrite !length_app, <-!Nat.add_assoc. f_equal. exact IH.
Qed.

(** Variables that are as they were, apart from initialisers that are not
    those of constants; and one more. *)
Context (Hold : ∀ n v, variables k !! n = Some v → ∃ v', variables k' !! n = Some v' ∧ same_variable v v').
Context (Hnew : ∀ n v', variables k' !! n = Some v' → variables k !! n = None → v_constant v' = true →
  (initializer v' = None → quiet ns = false)
  ∧ (∀ e, initializer v' = Some e → ∀ x, x ∈ const_refs e → constant_at ns x.1 x.2)
  ∧ (length (variables k) < length (variables k'))%nat).
Context (Hvalues : ∀ n v' e, variables k' !! n = Some v' → initializer v' = Some e →
  @cast_result (constants_of ns) (v_ty v') e ∨ variables k !! n = Some v').
Context (Hlen : (length (variables k) ≤ length (variables k'))%nat).

Lemma variable_kept a n v : variable_of ns a n = Some v → ∃ v', variable_of ns' a n = Some v' ∧ same_variable v v'.
Proof.
  rewrite variable_of_change. case_decide as E; [subst a; rewrite variable_of_here; apply Hold|].
  intros H. exists v. split; [done|]. by split_and!.
Qed.
Lemma change_keeps : keeps ns ns'.
Proof. split; [reflexivity|reflexivity|exact variable_kept|reflexivity]. Qed.
Lemma constant_kept a n : constant_at ns a n → constant_at ns' a n ∧ constant_initializer ns' a n = constant_initializer ns a n.
Proof.
  intros H. split; [by apply (keeps_constant ns), H; apply change_keeps|]. rewrite !initializer_of.
  destruct a as [a|]; [|done]. apply constant_at_of in H as (v & Hv & Hc).
  destruct (variable_kept a n v Hv) as (v' & Hv' & _ & _ & Hi). rewrite Hv, Hv'. cbn. by rewrite Hi.
Qed.
Lemma change_inv : inv ns → inv ns'.
Proof.
  intros [Hw Hc Hv]. split; [|exact Hc|].
  - apply (wf_more ns _ (quiet ns)); try done.
    + apply constant_kept.
    + intros [a|] n Hat Hno; [|done]. apply constant_at_of in Hat as (v' & Hv' & Hc').
      rewrite variable_of_change in Hv'. case_decide as E; [subst a|by destruct Hno; apply constant_at_of; exists v'].
      destruct (variables k !! n) as [v|] eqn:Hvn.
      { destruct (Hold n v Hvn) as (w & Hw' & _ & E & _). simplify_eq. destruct Hno. apply constant_at_of. exists v.
        rewrite variable_of_here. split; [done|congruence]. }
      destruct (Hnew n v' Hv' Hvn Hc') as (Hi & Hr & Hl).
      assert (Hinit : constant_initializer ns' (Some c) n = Ret (initializer v')).
      { rewrite initializer_of, variable_of_change, decide_True by done. by rewrite Hv'. }
      rewrite Hinit. split_and!; [|by intros e [= He]; apply Hr|pose proof all_constants_change; lia].
      intros Hq [= E]. specialize (Hi E). by change (quiet ns') with (quiet ns) in Hq; rewrite Hi in Hq.
    + pose proof all_constants_change. lia.
  - intros a n v' e Hv' He. apply (cast_result_mono (constants_of ns) (constants_of ns')).
    { intros a' n'. exact (keeps_constant _ _ a' n' change_keeps). }
    rewrite variable_of_change in Hv'. case_decide as E; [subst a|by apply (Hv a n)].
    destruct (Hvalues n v' e Hv' He) as [H|H]; [done|]. apply (Hv c n); [by rewrite variable_of_here|done].
Qed.
End Change.

Section Facts.
Context {BI : NumBigInt}.
Context (keccak256 : bytes → list Z).
Context (hash_order : list Pt.NamedArgument → list Pt.NamedArgument).
Context (Hhash : ∀ l, hash_order l ≡ₚ l).
Context (fuel : nat).
#[local] Abbreviation rec := (expression keccak256 hash_order fuel).
#[local] Abbreviation rec_type := (resolve_type_fuel keccak256 hash_order fuel).

Lemma resolve_initializer_spec {CS : Constants} {ST : Strict} e loc t :
  (depth e ≤ fuel)%nat → spec loc (λ _, True) → spec (resolve_initializer rec e loc t) (cast_result t).
Proof.
  intros He Hl. unfold resolve_initializer.
  eapply spec_bind; [exact (proj1 (expression_ok keccak256 hash_order Hhash fuel) e He (To t))|]. intros x Hx.
  eapply spec_bind; [exact Hl|]. intros l _. spec_step. spec_step. by apply spec_ret.
Qed.

(** A call with diagnostics of its own that are then reported. *)
Lemma constant_value_goes def file c t symtable ns :
  (opt_depth (Pt.vd_initializer def) ≤ fuel)%nat →
  goes (constant_value rec def file c t symtable) ns (λ '(o, _) ns', same_declarations ns ns'
    ∧ match o with Some x => @cast_result (constants_of ns) t x | None => quiet ns' = false end).
Proof.
  intros Hd. unfold constant_value. destruct (Pt.vd_initializer def) as [e|].
  - eapply goes_bind; [apply run_goes, resolve_initializer_spec; [exact Hd|by apply spec_ret]|].
    intros [[[x|] sy] d] ns1 Hk1 (Hs1 & Hg1 & Hx).
    + by apply goes_ret.
    + eapply goes_bind; [apply report_all_goes; by apply Hg1|]. intros [] ns2 Hk2 [Hs2 Hq2]. apply goes_ret.
      split; [by etrans|]. apply not_true_is_false. intros Hq.
      assert (quiet ns2 = false) by by apply Hq2, Hx, (keeps_quiet _ _ Hk2). congruence.
  - eapply goes_bind; [apply report_goes|]. intros [] ns1 _ [Hq Hs]. by apply goes_ret.
Qed.

Lemma constant_attributes_goes l ns : goes (foldN constant_attribute false l) ns (λ _ ns', same_declarations ns ns').
Proof.
  apply goes_foldN; [done|]. intros b a ns1 _ _ Hs. destruct a as [l'|l']; cbn.
  - destruct b; [|by apply goes_ret]. eapply goes_bind; [apply report_goes|]. intros [] ns2 _ [_ Hs2]. apply goes_ret. by etrans.
  - by apply goes_ret.
Qed.
Lemma variable_allowed_goes d def constant ns :
  goes (variable_allowed (Some d) def constant) ns (λ b ns', same_declarations ns ns'
    ∧ (b = false → is_Some (Pt.cd_name d) → is_Some (Pt.vd_name def) → quiet ns' = false)).
Proof.
  cbn. destruct (match Pt.cd_ty d with Interface _ => _ | _ => _ end); [|by apply goes_ret].
  destruct (Pt.cd_name d) as [c|], (Pt.vd_name def) as [v|]; try (apply goes_ret; split; [done|]; intros _ [??] [??]; done).
  eapply goes_bind; [apply report_goes|]. intros [] ns1 _ [Hq Hs]. by apply goes_ret.
Qed.

(** A variable whose initialiser is resolved later. *)
Definition delayed_ok (ns : Namespace) (x : DelayedResolveInitializer) : Prop :=
  (depth (di_initializer x) ≤ fuel)%nat
  ∧ ∃ v, variable_of ns (di_contract_no x) (di_var_no x) = Some v ∧ v_constant v = false.
Lemma delayed_keeps ns ns' x : keeps ns ns' → delayed_ok ns x → delayed_ok ns' x.
Proof.
  intros Hk [Hd (v & Hv & Hc)]. split; [done|]. destruct (ke_variables _ _ Hk _ _ _ Hv) as (v' & Hv' & _ & Hc' & _).
  exists v'. split; [done|congruence].
Qed.

(** The functions are left alone. *)
Definition same_functions (ns ns' : Namespace) : Prop :=
  functions ns = functions ns' ∧ c_functions <$> contracts ns = c_functions <$> contracts ns'.
#[local] Instance same_functions_pre : PreOrder same_functions.
Proof. unfold same_functions. split; [by intros ns|]. by intros ??? (-> & ->) (-> & ->). Qed.
Lemma same_declarations_functions ns ns' : same_declarations ns ns' → same_functions ns ns'.
Proof. by intros (_ & ? & ?). Qed.

Lemma add_variable_goes c v init ns :
  (opt_depth init ≤ fuel)%nat →
  (∀ e, initializer v = Some e → @cast_result (constants_of ns) (v_ty v) e) →
  (v_constant v = true → initializer v = None → quiet ns = false) →
  goes (add_variable (Some c) v init) ns (λ '(_, o) ns', same_functions ns ns' ∧ ∀ x, o = Some x → delayed_ok ns' x).
Proof.
  intros Hd Hv Hc. unfold add_variable.
  eapply goes_bind; [by apply (goes_get ns (λ n n', n = ns ∧ n' = ns))|]. intros ? ? _ [-> ->].
  eapply goes_bind; [by apply (goes_unwrap _ ns (λ k n, n = ns ∧ contracts ns !! c = Some k))|]. intros k ? _ [-> Hk].
  cbv zeta. eapply goes_bind.
  { apply goes_eq. unfold update_contract, update. rewrite Hk. cbn [unwrap mbind comp_bind].
    set (ns' := set_contracts _ ns).
    assert (Hlook : ∀ n w, (variables k ++ [v]) !! n = Some w → variables k !! n = None → n = length (variables k) ∧ w = v).
    { intros n w Hw Hn. apply lookup_ge_None in Hn. rewrite lookup_app_r in Hw by done.
      apply list_lookup_singleton_Some in Hw as [? ->]. split; [lia|done]. }
    intros Hi. split; [|split].
    - eapply change_inv; [exact Hk|..|exact Hi]; cbn.
      + intros n w Hw. exists w. split; [by apply lookup_app_l_Some|by split_and!].
      + intros n w Hw Hn Hwc. destruct (Hlook n w Hw Hn) as [-> ->]. split_and!; [by apply Hc| |rewrite length_app; cbn; lia].
        intros e He. exact (@typed_refs (constants_of ns) e (proj1 (Hv e He))).
      + intros n w e Hw He. destruct (variables k !! n) as [w'|] eqn:Hn.
        * right. by rewrite (lookup_app_l_Some _ _ _ _ Hn) in Hw.
        * left. destruct (Hlook n w Hw Hn) as [-> ->]. by apply Hv.
      + rewrite length_app. lia.
    - eapply change_keeps; [exact Hk|]. cbn. intros n w Hw. exists w. split; [by apply lookup_app_l_Some|by split_and!].
    - instantiate (1 := λ _ ns1, same_functions ns ns1
        ∧ variable_of ns1 c (length (variables k)) = Some v). split.
      + split; [done|]. cbn. rewrite list_fmap_insert. symmetry. apply list_insert_id. by rewrite list_lookup_fmap, Hk.
      + unfold ns'. rewrite (variable_of_change ns c k) by done. rewrite decide_True by done. cbn. by apply list_lookup_middle. }
  intros [] ns1 _ [Hs Hvar]. apply goes_ret. split; [done|]. intros x Hx.
  destruct (v_constant v) eqn:Hvc; [done|]. destruct init as [e|]; [|done]. injection Hx as <-. split; [exact Hd|].
  by exists v.
Qed.

(** What a variable declaration leaves: the functions as they are, and an
    initialiser for later. *)
Definition declares_variable (ns : Namespace) (o : option DelayedResolveInitializer) (ns' : Namespace) : Prop :=
  same_functions ns ns' ∧ ∀ x, o = Some x → delayed_ok ns' x.
Lemma variable_decl_goes d def file c symtable ns :
  (variable_depth def ≤ fuel)%nat →
  goes (variable_decl rec rec_type (Some d) def file (Some c) symtable) ns (λ '(o, _) ns', declares_variable ns o ns').
Proof.
  unfold variable_depth. intros Hd. unfold variable_decl.
  eapply goes_bind; [apply (resolve_type_goes _ _ Hhash); lia|]. intros [[t|] d1] ns1 Hk1 (Hs1 & Hg1 & _).
  2: { eapply goes_bind; [apply report_all_goes; by apply Hg1|]. intros [] ns2 _ [Hs2 _]. apply goes_ret.
    split; [|done]. apply same_declarations_functions. etrans; [exact Hs1|exact Hs2]. }
  eapply goes_bind; [apply constant_attributes_goes|]. intros constant ns2 Hk2 Hs2.
  eapply goes_bind; [apply variable_allowed_goes|]. intros ok ns3 Hk3 [Hs3 _].
  assert (Hs13 : same_functions ns ns3).
  { apply same_declarations_functions. etrans; [exact Hs1|]. etrans; [exact Hs2|exact Hs3]. }
  destruct ok; cbn [negb]; [|by apply goes_ret].
  eapply goes_bind.
  { instantiate (1 := λ '(o, _) ns', same_declarations ns3 ns' ∧ (constant = true → o = None → quiet ns' = false)
      ∧ ∀ e, o = Some e → @cast_result (constants_of ns3) t e).
    destruct constant; [|by apply goes_ret; split_and!]. eapply goes_mono; [apply constant_value_goes; lia|].
    intros [[x|] sy] ns' _ [Hs Hx]; (split_and!; [done|done|]); [by intros e [= <-]|done]. }
  intros [o sy] ns4 Hk4 (Hs4 & Hq4 & Ho4).
  eapply goes_bind; [by apply (goes_unwrap _ ns4 (λ _ n, n = ns4))|]. intros name ? _ ->. cbv zeta.
  eapply goes_bind.
  { apply add_variable_goes; [lia| |done]. cbn. intros e He. apply (cast_result_mono (constants_of ns3) (constants_of ns4)).
    - intros a n. exact (constant_at_core _ _ a n (proj1 Hs4)).
    - by apply Ho4. }
  intros [n delayed] ns5 Hk5 [Hs5 Hd5]. eapply goes_bind; [apply add_symbol_goes|].
  intros b ns6 Hk6 [(Hc6 & Hf6 & Hcf6 & _) _]. apply goes_ret. split.
  - etrans; [exact Hs13|]. etrans; [eapply same_declarations_functions; exact Hs4|]. etrans; [exact Hs5|]. by split.
  - intros x Hx. eapply delayed_keeps; [exact Hk6|]. by apply Hd5.
Qed.

Lemma contract_variables_goes def file c ns :
  (∀ v, Pt.PVariable v ∈ Pt.cd_parts def → (variable_depth v ≤ fuel)%nat) →
  goes (contract_variables rec rec_type def file c) ns (λ l ns', same_functions ns ns' ∧ Forall (delayed_ok ns') l).
Proof.
  intros Hd. unfold contract_variables. eapply goes_bind.
  { apply (goes_foldN _ (λ '(l, _) ns', same_functions ns ns' ∧ Forall (delayed_ok ns') l)); [by split|].
    intros [l sy] part ns1 Hin _ [Hs Hl]. destruct part; try (by apply goes_ret).
    eapply goes_bind; [by apply variable_decl_goes, Hd|]. intros [o sy'] ns2 Hk2 [Hs2 Ho]. apply goes_ret.
    split; [by etrans|]. apply Forall_app. split.
    - eapply Forall_impl; [exact Hl|]. intros x. by apply delayed_keeps.
    - destruct o as [x|]; cbn; [|done]. apply Forall_singleton. by apply Ho. }
  intros [l sy] ns1 _ H. by apply goes_ret.
Qed.

(** ** The other initialisers *)

Lemma set_initializer_goes c n e v ns :
  variable_of ns c n = Some v → v_constant v = false → @cast_result (constants_of ns) (v_ty v) e →
  goes (update (Usage.update_contract_var (set_initializer e) c n)) ns (λ _ ns', same_functions ns ns').
Proof.
  intros Hv Hc He. apply goes_eq. unfold update, Usage.update_contract_var.
  unfold variable_of in Hv. destruct (contracts ns !! c) as [k|] eqn:Hk; [|done]. cbn in Hv |- *. rewrite Hv. cbn.
  assert (Hlook : ∀ m w, <[n:=set_initializer e v]> (variables k) !! m = Some w →
    (m = n ∧ w = set_initializer e v) ∨ (m ≠ n ∧ variables k !! m = Some w)).
  { intros m w Hw. destruct (decide (m = n)) as [->|Hne]; [left|right; by rewrite list_lookup_insert_ne in Hw].
    rewrite list_lookup_insert_eq in Hw by (by eapply lookup_lt_Some). by simplify_eq. }
  assert (Hold : ∀ m w, variables k !! m = Some w → ∃ w', <[n:=set_initializer e v]> (variables k) !! m = Some w' ∧ same_variable w w').
  { intros m w Hw. destruct (decide (m = n)) as [->|Hne].
    - exists (set_initializer e v). rewrite list_lookup_insert_eq by (by eapply lookup_lt_Some). simplify_eq.
      split; [done|]. split_and!; [done..|]. cbn. congruence.
    - exists w. rewrite list_lookup_insert_ne by done. split; [done|by split_and!]. }
  intros Hi. split; [|split].
  - eapply change_inv; [exact Hk|..|exact Hi]; cbn; [exact Hold| | |by rewrite length_insert].
    + intros m w Hw Hm _. destruct (Hlook m w Hw) as [[-> _]|[_ H]]; congruence.
    + intros m w x Hw Hx. destruct (Hlook m w Hw) as [[-> ->]|[_ H]]; [left|by right]. cbn in Hx. by injection Hx as <-.
  - by eapply change_keeps.
  - split; [done|]. cbn. rewrite list_fmap_insert. symmetry. apply list_insert_id. by rewrite list_lookup_fmap, Hk.
Qed.

Lemma delayed_initializer_goes file sy d x ns :
  delayed_ok ns x →
  goes (delayed_initializer rec file (sy, d) x) ns (λ '(_, d') ns', same_functions ns ns' ∧ grown d d').
Proof.
  intros [He (v & Hv & Hc)]. unfold delayed_initializer. cbv zeta.
  eapply goes_bind; [by apply (goes_get ns (λ n n', n = ns ∧ n' = ns))|]. intros ? ? _ [-> ->].
  eapply goes_bind; [by apply (goes_unwrap _ ns (λ k n, n = ns ∧ contracts ns !! di_contract_no x = Some k))|].
  intros k ? _ [-> Hk].
  eapply goes_bind; [by apply (goes_unwrap _ ns (λ w n, n = ns ∧ variables k !! di_var_no x = Some w))|]. intros w ? _ [-> Hw].
  assert (w = v) as -> by (unfold variable_of in Hv; rewrite Hk in Hv; cbn in Hv; congruence).
  eapply goes_bind; [apply run_goes, resolve_initializer_spec; [exact He|by apply spec_pt_loc]|].
  intros [[[e|] sy'] d'] ns1 Hk1 (Hs1 & Hg1 & Hx).
  - destruct (ke_variables _ _ Hk1 _ _ _ Hv) as (v' & Hv' & Ht & Hc' & _).
    eapply goes_bind.
    { apply (set_initializer_goes _ _ _ v'); [exact Hv'|congruence|]. rewrite <-Ht.
      apply (cast_result_mono (constants_of ns) (constants_of ns1)); [|exact Hx]. intros a n. exact (constant_at_core _ _ a n (proj1 Hs1)). }
    intros [] ns2 _ Hs2. apply goes_ret. split; [|exact Hg1]. etrans; [apply same_declarations_functions; exact Hs1|exact Hs2].
  - eapply goes_bind; [by apply (goes_ret tt ns1 (λ _ n, n = ns1))|]. intros [] ? _ ->. apply goes_ret.
    split; [by apply same_declarations_functions|exact Hg1].
Qed.
Lemma resolve_initializers_goes l file ns :
  Forall (delayed_ok ns) l → goes (resolve_initializers rec l file) ns (λ _ ns', same_functions ns ns').
Proof.
  intros Hl. unfold resolve_initializers. eapply goes_bind.
  { apply (goes_foldN _ (λ '(_, d) ns', same_functions ns ns' ∧ counted d)); [by split|].
    intros [sy d] x ns1 Hin Hk1 [Hs1 Hd]. eapply goes_mono; [apply delayed_initializer_goes|].
    - eapply delayed_keeps; [exact Hk1|]. by eapply Forall_forall in Hl.
    - intros [sy' d'] ns2 _ [Hs2 Hg]. split; [by etrans|by apply Hg]. }
  intros [sy d] ns1 _ [Hs1 Hd]. eapply goes_mono; [by apply report_all_goes|]. intros [] ns2 _ [Hs2 _].
  etrans; [exact Hs1|]. by apply same_declarations_functions.
Qed.
End Facts.
End VariableFacts.
