(* ===== verification/ContractFacts.v ===== *)
(** The contracts of a file: every function with a body is declared and its
    body is resolved, or something is reported; the constants have values of
    their types; the resolution ends unless a struct contains itself. *)
From S2P Require Import Prelude BigIntSpec Ast Types Eval Pt TypeNames SymTable Casts Names Resolver.
From S2P Require Import Literals Resolve Statements Declarations Functions Contracts Typed CastFacts.
From S2P Require Import ResolverFacts Specs ResolveFacts StatementRules StatementFacts BodyFacts Nesting.
From S2P Require Import DeclarationRules DeclarationFacts VariableFacts.
#[local] Set Warnings "-register-all".

Module ContractFacts.
Import ParseDepth Casts Names Resolver Literals Resolve Statements Typed CastFacts ResolverFacts Specs ResolveFacts.
Import StatementRules StatementFacts BodyFacts Declarations Functions Contracts Nesting DeclarationRules.
Import DeclarationFacts VariableFacts.

(** The depth of a contract. *)
Definition part_depth (p : Pt.ContractPart) : nat :=
  match p with
  | Pt.PVariable v => variable_depth v
  | Pt.PFunction f => signature_depth f `max` definition_depth f
  | _ => 0%nat
  end.
Definition contract_depth (d : Pt.ContractDefinition) : nat := max_list (part_depth <$> Pt.cd_parts d).
Definition contracts_depth (l : list (nat * Pt.ContractDefinition)) : nat := max_list ((λ x, contract_depth x.2) <$> l).

(** The statements of a function are well typed. *)
Definition body_typed (ns : Namespace) (f : Function) : Prop := @all_good (constants_of ns) (f_symtable f) (f_body f).

Lemma good_mono (CS CS' : Constants) s x : (∀ c n, CS c n → CS' c n) → @good CS s x → @good CS' s x.
Proof.
  intros H. assert (Ht : ∀ e, @typed CS e → @typed CS' e) by (intros e; by apply typed_mono).
  assert (Hc : ∀ t e, @cast_result CS t e → @cast_result CS' t e) by (intros t e; by apply cast_result_mono).
  assert (Hg : ∀ e, @given CS e → @given CS' e).
  { induction 1; [by apply given_typed, Ht|by apply given_choice; [apply Ht|..]]. }
  assert (Hall : ∀ l, Forall (λ x, @good CS s x → @good CS' s x) l → @all_good CS s l → @all_good CS' s l).
  { clear x. intros l Hl Hx. unfold all_good in *. induction Hl as [|x l Hx0 _ IH]; [constructor|].
    apply Forall_cons in Hx as [Hx Hxs]. constructor; [by apply Hx0|by apply IH]. }
  assert (Ho : ∀ (P P' : Ex.expression → Prop) o, (∀ e, P e → P' e) → if_some P o → if_some P' o) by (intros P P' o HP Hs e He; by apply HP, Hs).
  induction x as [x IH] using st_ind. destruct x; cbn [good inside] in *; rewrite ?all_good_eq; try apply Forall_app in IH as [IHa IHb].
  - by apply Hall.
  - intros [Hd Hi]. split; [exact Hd|]. eapply Ho; [|exact Hi]. apply Hc.
  - intros (H1 & H2 & H3). split_and!; [by apply Hc|by apply Hall..].
  - intros (H1 & H2). split; [by apply Hc|by apply Hall].
  - intros (H1 & H2 & H3 & H4). split_and!; [by apply Hall|by eapply Ho; [apply Hc|]|by eapply Ho; [apply Ht|]|by apply Hall].
  - intros (H1 & H2). split; [by apply Hc|by apply Hall].
  - intros (H1 & H2 & H3). split_and!; [by apply Ht|exact H2|exact H3].
  - intros [Hf He]. split; [|by apply Hg]. eapply Forall_impl; [exact Hf|]. intros [|y|k p]; [done|apply Ht|done].
  - intros [H1 H2]. split; [by apply Ht|exact H2].
  - done.
  - done.
  - intros Hr. eapply Ho; [|exact Hr]. apply Hg.
Qed.
Lemma body_typed_mono ns ns' f : (∀ c n, constant_at ns c n → constant_at ns' c n) → body_typed ns f → body_typed ns' f.
Proof.
  intros H Hb. eapply Forall_impl; [exact Hb|]. intros x. exact (good_mono (constants_of ns) (constants_of ns') _ x H).
Qed.

(** ** Bodies *)

(** The declaration of a function without its body. *)
Definition heading (f : Function) : Function := set_body [] SymTable.SymTable.new f.
Lemma heading_declares func c f f' : heading f = heading f' → declares func c f → declares func c f'.
Proof. destruct f, f'. unfold declares. cbn. by intros [= -> -> -> -> -> -> -> -> ->]. Qed.

(** What the resolution of one body changes: that function, nothing else. *)
Record resolves_body (n : nat) (ns ns' : Namespace) : Prop := {
  rb_core : core ns = core ns';
  rb_diags : grown (diagnostics ns) (diagnostics ns');
  rb_others m : m ≠ n → functions ns' !! m = functions ns !! m;
  rb_heading f : functions ns !! n = Some f → ∃ f', functions ns' !! n = Some f' ∧ heading f = heading f';
}.

Section Facts.
Context {BI : NumBigInt}.
Context (keccak256 : bytes → list Z).
Context (hash_order : list Pt.NamedArgument → list Pt.NamedArgument).
Context (Hhash : ∀ l, hash_order l ≡ₚ l).
Context (fuel : nat).
#[local] Abbreviation rec := (expression keccak256 hash_order fuel).
#[local] Abbreviation rec_type := (resolve_type_fuel keccak256 hash_order fuel).

Lemma core_set_functions fs ns : core (set_functions fs ns) = core ns.
Proof. done. Qed.

(** The statements of a function are what the resolution of its body gives. *)
Definition resolved (d : Pt.FunctionDefinition) (file : nat) (c : option nat) (n : nat) (f : Function) : Prop :=
  ∃ ns ns', inv ns ∧ function_body keccak256 hash_order fuel d file c n ns = Ret (true, ns') ∧ functions ns' !! n = Some f.
Definition body_done (d : Pt.FunctionDefinition) (file : nat) (c : option nat) (n : nat) (ns ns' : Namespace) : Prop :=
  is_Some (Pt.fd_body d) → quiet ns' = true →
  ∃ f, functions ns' !! n = Some f ∧ body_typed ns f ∧ resolved d file c n f.

Lemma function_body_step d file c n ns :
  inv ns → (definition_depth d ≤ fuel)%nat →
  match function_body keccak256 hash_order fuel d file c n ns with
  | Ret (b, ns') => resolves_body n ns ns' ∧ body_done d file c n ns ns'
  | Panic => True
  | OutOfFuel => False
  end.
Proof.
  intros Hi Hd. pose proof Hi as [Hw _ _].
  pose proof (@function_body_outcome _ keccak256 hash_order Hhash (quiet ns) fuel d file c n ns Hw Hd) as H.
  destruct (function_body _ _ _ _ _ _ _ _) as [[b ns']| |] eqn:Heq; [|done..]. destruct H as [Hg H].
  assert (Hsame : frozen ns = frozen ns' → resolves_body n ns ns').
  { intros Hf. assert (E : functions ns = functions ns') by exact (f_equal functions Hf).
    split; [by apply core_frozen|done|by rewrite E|]. intros f Hn. exists f. by rewrite <-E. }
  destruct b; [destruct H as [[Hf Hno]|(f & l & t & Hn & Hl & _ & Hf)]|destruct H as [Hf Hc]].
  - split; [by apply Hsame|]. intros [? ?]. congruence.
  - assert (E : functions ns' = <[n := set_body l t f]> (functions ns)) by exact (eq_sym (f_equal functions Hf)).
    assert (Hlook : functions ns' !! n = Some (set_body l t f)) by (rewrite E; apply list_lookup_insert_eq; by eapply lookup_lt_Some).
    split; [split|].
    + rewrite <-(core_set_functions (<[n := set_body l t f]> (functions ns)) ns). by apply core_frozen.
    + done.
    + intros m Hm. by rewrite E, list_lookup_insert_ne.
    + intros f0 Hf0. exists (set_body l t f). split; [done|]. assert (f0 = f) as -> by congruence. by destruct f.
    + intros _ _. exists (set_body l t f). split_and!; [done|done|]. by exists ns, ns'.
  - split; [by apply Hsame|]. intros _ Hq. exfalso. pose proof (quiet_grown _ _ Hg Hq) as Hq0.
    unfold gain, strict in Hc. rewrite Hq0 in Hc. apply bool_decide_eq_true in Hq. rewrite Hq in Hc. cbn in Hc. lia.
Qed.
Lemma warn_unused_goes n ns :
  goes (warn_unused n) ns (λ _ ns', functions ns' = functions ns ∧ core ns = core ns').
Proof.
  unfold warn_unused. eapply goes_bind; [by apply (goes_get ns (λ n n', n = ns ∧ n' = ns))|]. intros ? ? _ [-> ->].
  eapply goes_bind; [by apply (goes_unwrap _ ns (λ _ n, n = ns))|]. intros f ? _ ->.
  apply (goes_foldN _ (λ _ ns', functions ns' = functions ns ∧ core ns = core ns')); [done|].
  intros [] [k v] ns1 _ _ [Hf Hc]. apply goes_inv. intros Hi.
  eapply goes_bind; [by apply (goes_get ns1 (λ n n', n = ns1 ∧ n' = ns1))|]. intros ? ? _ [-> ->].
  eapply goes_bind.
  { apply (goes_nlift _ ns1 (λ _ n, n = ns1)); [|done]. unfold Usage.emit_warning_local_variable. cbn [snd].
    destruct (Sym.usage_type v); try done. apply bind_no_fuel; [|done]. apply is_reference_type_no_fuel, Hi. }
  intros [w|] ? _ ->; [|by apply goes_ret].
  eapply goes_mono; [apply report_goes|]. intros [] ns2 _ [_ (Hc2 & Hf2 & _)]. split; [congruence|by rewrite Hc].
Qed.

(** What a loop over bodies changes: the functions of these bodies. *)
Record resolves (ns : Namespace) (bodies : list nat) (ns' : Namespace) : Prop := {
  rs_core : core ns = core ns';
  rs_diags : grown (diagnostics ns) (diagnostics ns');
  rs_others m : m ∉ bodies → functions ns' !! m = functions ns !! m;
  rs_heading m f : functions ns !! m = Some f → ∃ f', functions ns' !! m = Some f' ∧ heading f = heading f';
}.
Lemma resolve_body_step file b x ns :
  inv ns → (definition_depth (df_function x) ≤ fuel)%nat →
  match resolve_body keccak256 hash_order rec rec_type file b x ns with
  | Ret (_, ns') => inv ns' ∧ resolves ns [df_function_no x] ns'
      ∧ body_done (df_function x) file (Some (df_contract_no x)) (df_function_no x) ns ns'
  | Panic => True
  | OutOfFuel => ¬ nested ns
  end.
Proof.
  intros Hi Hd. unfold resolve_body, mbind, N_bind.
  pose proof (function_body_step (df_function x) file (Some (df_contract_no x)) (df_function_no x) ns Hi Hd) as H.
  unfold function_body in H. destruct (resolve_function_body _ _ _ _ _ _ _ _ _) as [[ok ns1]| |]; cbn; [|done..].
  destruct H as [Hr Hb]. pose proof (inv_core _ _ (rb_core _ _ _ Hr) (rb_diags _ _ _ Hr) Hi) as Hi1.
  assert (Hall : resolves ns [df_function_no x] ns1).
  { destruct Hr as [H1 H2 H3 H4]. split; [done|done|intros m Hm; apply H3; set_solver|]. intros m f Hf.
    destruct (decide (m = df_function_no x)) as [->|Hne]; [by apply H4|]. exists f. by rewrite H3. }
  destruct ok; cbn [negb]; [|by split_and!]. cbn. destruct (Diags.any_errors _); [by split_and!|].
  pose proof (warn_unused_goes (df_function_no x) ns1 Hi1) as Hu.
  destruct (warn_unused _ ns1) as [[[] ns2]| |]; cbn; [|done| ].
  2: { intros Hn. apply Hu. apply (nested_types ns); [|done]. exact (f_equal (λ c, c.1.1) (rb_core _ _ _ Hr)). }
  destruct Hu as (Hi2 & Hk2 & Hf2 & Hc2). split; [done|]. split.
  - destruct Hall as [H1 H2 H3 H4]. split; [by rewrite H1|etrans; [exact H2|apply Hk2]|by rewrite Hf2|by rewrite Hf2].
  - intros Hs Hq. rewrite Hf2. apply Hb; [done|]. by eapply keeps_quiet.
Qed.

Lemma body_typed_core ns ns' f : core ns = core ns' → body_typed ns f → body_typed ns' f.
Proof. intros Hc. apply body_typed_mono. intros c n. by apply constant_at_core. Qed.
Lemma resolve_bodies_all file l b ns :
  inv ns → Forall (λ x, definition_depth (df_function x) ≤ fuel)%nat l → NoDup (df_function_no <$> l) →
  match foldN (resolve_body keccak256 hash_order rec rec_type file) b l ns with
  | Ret (_, ns') => inv ns' ∧ resolves ns (df_function_no <$> l) ns'
      ∧ Forall (λ x, body_done (df_function x) file (Some (df_contract_no x)) (df_function_no x) ns' ns') l
  | Panic => True
  | OutOfFuel => ¬ nested ns
  end.
Proof.
  revert b ns. induction l as [|x l IH]; intros b ns Hi Hd Hn.
  { cbn. split_and!; [done| |done]. split; [done..|]. intros m f Hf. by exists f. }
  apply Forall_cons in Hd as [Hx Hd]. apply NoDup_cons in Hn as [Hxl Hn]. cbn [foldN]. unfold mbind, N_bind.
  pose proof (resolve_body_step file b x ns Hi Hx) as H. destruct (resolve_body _ _ _ _ _ _ _ ns) as [[b1 ns1]| |]; cbn; [|done..].
  destruct H as (Hi1 & [Hc Hg Ho Hh] & Hb). specialize (IH b1 ns1 Hi1 Hd Hn).
  destruct (foldN _ b1 l ns1) as [[b2 ns2]| |]; [|done|].
  2: { intros H. apply IH. by apply (nested_types ns); [exact (f_equal (λ c, c.1.1) Hc)|]. }
  destruct IH as (Hi2 & [Hc2 Hg2 Ho2 Hh2] & Hb2). split; [done|]. split; [split|constructor; [|done]].
  - by rewrite Hc.
  - by etrans.
  - intros m Hm. cbn in Hm. rewrite Ho2, Ho by set_solver. done.
  - intros m f (f1 & Hf1 & E1)%Hh. destruct (Hh2 m f1 Hf1) as (f2 & Hf2 & E2). exists f2. split; [done|congruence].
  - intros Hs Hq. destruct (Hb Hs (quiet_grown _ _ Hg2 Hq)) as (f & Hf & Ht & Hres). exists f.
    rewrite Ho2 by done. split_and!; [done| |done]. apply (body_typed_core ns); [|done]. by rewrite Hc.
Qed.
End Facts.
End ContractFacts.
