(* ===== verification/Resolution.v ===== *)
(** The resolution of the contracts of a file as a whole: declarations, then
    initialisers, then bodies. *)
From S2P Require Import Prelude BigIntSpec Ast Types Eval Pt TypeNames SymTable Casts Names Resolver.
From S2P Require Import Literals Resolve Statements Declarations Functions Contracts Typed CastFacts.
From S2P Require Import ResolverFacts Specs ResolveFacts StatementRules StatementFacts BodyFacts Nesting.
From S2P Require Import DeclarationRules DeclarationFacts VariableFacts ContractFacts.
#[local] Set Warnings "-register-all".

Module Resolution.
Import ParseDepth Casts Names Resolver Literals Resolve Statements Typed CastFacts ResolverFacts Specs ResolveFacts.
Import StatementRules StatementFacts BodyFacts Declarations Functions Contracts Nesting DeclarationRules.
Import DeclarationFacts VariableFacts ContractFacts.

(** The functions of the parts of a contract, with the contract. *)
Definition part_function (c : nat) (p : Pt.ContractPart) : option (nat * Pt.FunctionDefinition) :=
  match p with Pt.PFunction f => Some (c, f) | _ => None end.
Definition functions_of (c : nat) (parts : list Pt.ContractPart) : list (nat * Pt.FunctionDefinition) :=
  omap (part_function c) parts.
Definition all_functions_of (l : list (nat * Pt.ContractDefinition)) : list (nat * Pt.FunctionDefinition) :=
  l ≫= λ x, functions_of x.1 (Pt.cd_parts x.2).

(** The functions that are declared and whose bodies wait. *)
Record waiting (defs : list (nat * Pt.FunctionDefinition)) (bodies : list DelayedResolveFunction) (ns : Namespace) : Prop := {
  w_nodup : NoDup (df_function_no <$> bodies);
  w_each x : x ∈ bodies → (df_contract_no x, df_function x) ∈ defs
    ∧ ∃ f, functions ns !! df_function_no x = Some f ∧ declares (df_function x) (df_contract_no x) f;
  w_all c d : (c, d) ∈ defs → is_Some (Pt.fd_body d) → quiet ns = true →
    ∃ x, x ∈ bodies ∧ df_contract_no x = c ∧ df_function x = d;
}.
Lemma waiting_keeps defs bodies ns ns' : keeps ns ns' → waiting defs bodies ns → waiting defs bodies ns'.
Proof.
  intros Hk [Hn He Ha]. split; [done| |].
  - intros x (Hd & f & Hf & Hx)%He. split; [done|]. exists f. split; [|done]. eapply prefix_lookup_Some; [exact Hf|apply Hk].
  - intros c d Hd Hb Hq. apply Ha; [done..|]. by eapply keeps_quiet.
Qed.
Lemma waiting_skip defs e bodies ns : (∀ c d, (c, d) ∈ e → is_Some (Pt.fd_body d) → quiet ns = false) →
  waiting defs bodies ns → waiting (defs ++ e) bodies ns.
Proof.
  intros H [Hn He Ha]. split; [done| |].
  - intros x (Hd & Hx)%He. split; [|done]. apply elem_of_app. by left.
  - intros c d [Hd|Hd]%elem_of_app Hb Hq; [by apply Ha|]. rewrite (H c d) in Hq; done.
Qed.
Lemma waiting_add defs bodies ns x f :
  functions ns !! df_function_no x = Some f → declares (df_function x) (df_contract_no x) f →
  df_function_no x ∉ df_function_no <$> bodies →
  waiting defs bodies ns → waiting (defs ++ [(df_contract_no x, df_function x)]) (bodies ++ [x]) ns.
Proof.
  intros Hf Hx Hno [Hn He Ha]. split.
  - rewrite fmap_app. apply NoDup_app. split_and!; [done| |apply NoDup_singleton]. set_solver.
  - intros y [Hy|Hy]%elem_of_app; [apply He in Hy as [Hd Hy]|apply list_elem_of_singleton in Hy as ->].
    + split; [|done]. apply elem_of_app. by left.
    + split; [|by exists f]. apply elem_of_app. right. by left.
  - intros c d [Hd|[= -> ->]%list_elem_of_singleton]%elem_of_app Hb Hq.
    + destruct (Ha c d Hd Hb Hq) as (y & Hy & ?). exists y. split; [|done]. apply elem_of_app. by left.
    + exists x. split; [|done]. apply elem_of_app. right. by left.
Qed.

Section Facts.
Context {BI : NumBigInt}.
Context (keccak256 : bytes → list Z).
Context (hash_order : list Pt.NamedArgument → list Pt.NamedArgument).
Context (Hhash : ∀ l, hash_order l ≡ₚ l).
Context (fuel : nat).
#[local] Abbreviation rec := (expression keccak256 hash_order fuel).
#[local] Abbreviation rec_type := (resolve_type_fuel keccak256 hash_order fuel).

Lemma declare_function_goes file c defs part bodies no_bodies ns :
  (part_depth part ≤ fuel)%nat → waiting defs bodies ns →
  goes (declare_function rec_type file c (bodies, no_bodies) part) ns
    (λ acc ns', waiting (defs ++ functions_of c [part]) acc.1 ns').
Proof.
  intros Hd Hw. unfold functions_of. destruct part; cbn [declare_function omap list_omap part_function option_bind];
    try (apply goes_ret; by rewrite app_nil_r).
  cbn [part_depth] in Hd. eapply goes_bind; [apply (contract_function_goes keccak256 hash_order Hhash fuel); lia|].
  intros o ns1 Hk Ho. apply (waiting_keeps _ _ _ _ Hk) in Hw as Hw1. destruct o as [n|].
  - destruct Ho as (f & Hf & _ & -> & Hfs & _). destruct (Pt.fd_body _) as [b|] eqn:Hb.
    + apply goes_ret. cbn [fst]. eapply (waiting_add _ _ _ {| df_function_no := _; df_contract_no := _; df_function := _ |} f);
        cbn [df_function_no df_contract_no df_function]; [by rewrite Hfs, list_lookup_middle|exact Hf| |exact Hw1].
      intros (x & Hx & Hin)%list_elem_of_fmap. destruct (w_each _ _ _ Hw x Hin) as (_ & f' & Hf' & _).
      apply lookup_lt_Some in Hf'. lia.
    + apply goes_ret. apply waiting_skip; [|exact Hw1]. intros c' d' [= -> ->]%list_elem_of_singleton [b E]. congruence.
  - destruct Ho as (Hq & _). apply goes_ret. by apply waiting_skip.
Qed.

Lemma resolve_declarations_goes file defs c def delayed ns :
  (contract_depth def ≤ fuel)%nat → waiting defs (function_bodies delayed) ns →
  Forall (delayed_ok fuel ns) (initializers delayed) →
  goes (resolve_declarations rec rec_type def file c delayed) ns (λ l ns',
    waiting (defs ++ functions_of c (Pt.cd_parts def)) (function_bodies l) ns' ∧ Forall (delayed_ok fuel ns') (initializers l)).
Proof.
  intros Hd Hw Hi. assert (Hpart : ∀ p, p ∈ Pt.cd_parts def → (part_depth p ≤ fuel)%nat).
  { intros p Hp. etrans; [|exact Hd]. by apply max_list_elem_of_le, list_elem_of_fmap_2. }
  unfold resolve_declarations. eapply goes_bind.
  { apply (contract_variables_goes keccak256 hash_order Hhash fuel). intros v Hv. exact (Hpart _ Hv). }
  intros inits ns1 Hk1 [_ Hi1]. eapply goes_bind.
  { apply (goes_fold_prefix _ (λ before acc ns', waiting (defs ++ functions_of c before) acc.1 ns')).
    { cbn. rewrite app_nil_r. by eapply waiting_keeps. }
    intros before p after [bodies no_bodies] ns2 E _ Hw2. unfold functions_of. rewrite omap_app, app_assoc.
    apply declare_function_goes; [|exact Hw2]. apply Hpart. rewrite E. apply elem_of_app. right. by left. }
  intros [bodies no_bodies] ns2 Hk2 Hw2. eapply goes_bind.
  { instantiate (1 := λ _ _, True). destruct (Pt.cd_ty def), no_bodies; try (by apply goes_ret).
    eapply goes_bind; [by apply (goes_get ns2 (λ n n', n = ns2 ∧ n' = ns2))|]. intros ? ? _ [-> ->].
    eapply goes_bind; [apply (goes_nlift _ ns2 (λ _ _, True)); [|done]|intros; by apply goes_report].
    apply Types.mapM_no_fuel. intros m. by destruct (functions ns2 !! m). }
  intros [] ns3 Hk3 _. apply goes_ret. cbn. split; [by eapply waiting_keeps|].
  assert (keeps ns1 ns3) by by etrans. apply Forall_app. split; (eapply Forall_impl; [eassumption|]); intros x; apply delayed_keeps.
  - by etrans.
  - done.
Qed.

Lemma add_all_functions_goes c ns : goes (add_all_functions c) ns (λ _ _, True).
Proof.
  unfold add_all_functions. eapply goes_bind; [by apply (goes_get ns (λ n n', n = ns ∧ n' = ns))|]. intros ? ? _ [-> ->].
  eapply goes_bind; [by apply (goes_unwrap _ ns (λ _ n, n = ns))|]. intros k ? _ ->.
  apply goes_foldN; [done|]. intros [] n ns1 _ _ _. eapply goes_mono; [by apply update_contract_goes|]. done.
Qed.

(** ** All contracts of a file *)

Lemma declarations_all_goes l file ns :
  (contracts_depth l ≤ fuel)%nat →
  goes (foldN (λ delayed '(contract_no, def), resolve_declarations rec rec_type def file contract_no delayed)
          (mkResolveLater [] []) l) ns
    (λ x ns', waiting (all_functions_of l) (function_bodies x) ns' ∧ Forall (delayed_ok fuel ns') (initializers x)).
Proof.
  intros Hd. apply (goes_fold_prefix _ (λ before x ns', waiting (all_functions_of before) (function_bodies x) ns'
    ∧ Forall (delayed_ok fuel ns') (initializers x))).
  { split; [|done]. split; [constructor|intros x Hx; by apply elem_of_nil in Hx|intros c d Hx; by apply elem_of_nil in Hx]. }
  intros before [c def] after x ns1 -> _ [Hw Hi]. unfold all_functions_of. rewrite bind_app.
  cbn [mbind list_bind fst snd]. rewrite app_nil_r. apply resolve_declarations_goes; [|done|done].
  etrans; [|exact Hd]. apply max_list_elem_of_le, list_elem_of_fmap. exists (c, def). split; [done|].
  apply elem_of_app. right. by left.
Qed.

Lemma all_functions_in l c d :
  (c, d) ∈ all_functions_of l ↔ ∃ def, (c, def) ∈ l ∧ Pt.PFunction d ∈ Pt.cd_parts def.
Proof.
  unfold all_functions_of, functions_of. split.
  - intros ([c' def] & Hp & Hx)%list_elem_of_bind. apply list_elem_of_omap in Hp as (p & Hp & E). cbn in *.
    destruct p; try done. injection E as -> ->. by exists def.
  - intros (def & Hx & Hp). apply list_elem_of_bind. exists (c, def). split; [|done].
    apply list_elem_of_omap. by eexists.
Qed.
Lemma all_functions_depth l c d :
  (contracts_depth l ≤ fuel)%nat → (c, d) ∈ all_functions_of l → (definition_depth d ≤ fuel)%nat.
Proof.
  intros Hd (def & Hx & Hp)%all_functions_in.
  assert (H1 : (contract_depth def ≤ contracts_depth l)%nat).
  { apply max_list_elem_of_le, list_elem_of_fmap. by exists (c, def). }
  assert (H2 : (part_depth (Pt.PFunction d) ≤ contract_depth def)%nat).
  { by apply max_list_elem_of_le, list_elem_of_fmap_2. }
  cbn in H2. lia.
Qed.

(** What is left when all contracts of a file are resolved. *)
Definition functions_done (l : list (nat * Pt.ContractDefinition)) (file : nat) (ns : Namespace) : Prop :=
  ∀ c def d, (c, def) ∈ l → Pt.PFunction d ∈ Pt.cd_parts def → is_Some (Pt.fd_body d) →
  ∃ n f, functions ns !! n = Some f ∧ declares d c f ∧ body_typed ns f ∧ resolved keccak256 hash_order fuel d file (Some c) n f.

Lemma declared_goes l file ns :
  (contracts_depth l ≤ fuel)%nat →
  goes (delayed ← foldN (λ delayed '(contract_no, def), resolve_declarations rec rec_type def file contract_no delayed)
          (mkResolveLater [] []) l;
        _ ← foldN (λ _ x, add_all_functions x.1) tt l;
        _ ← resolve_initializers rec (initializers delayed) file;
        mret (function_bodies delayed)) ns (λ bodies, waiting (all_functions_of l) bodies).
Proof.
  intros Hd. eapply goes_bind; [by apply declarations_all_goes|]. intros x ns1 _ [Hw Hi].
  eapply goes_bind.
  { apply (goes_foldN _ (λ _ ns', keeps ns1 ns')); [done|]. intros [] y ns2 _ Hk _.
    eapply goes_mono; [apply add_all_functions_goes|]. intros [] ns3 Hk3 _. by etrans. }
  intros [] ns2 _ Hk2. eapply goes_bind.
  { apply (resolve_initializers_goes keccak256 hash_order Hhash fuel). eapply Forall_impl; [exact Hi|]. intros y. by apply delayed_keeps. }
  intros [] ns3 Hk3 _. apply goes_ret. eapply waiting_keeps; [|exact Hw]. by etrans.
Qed.
Lemma waiting_done l file bodies ns ns' :
  waiting (all_functions_of l) bodies ns → resolves ns (df_function_no <$> bodies) ns' →
  Forall (λ x, body_done keccak256 hash_order fuel (df_function x) file (Some (df_contract_no x)) (df_function_no x) ns' ns') bodies →
  quiet ns' = true → functions_done l file ns'.
Proof.
  intros [_ He Ha] Hr Hb Hq c def d Hx Hp Hs.
  destruct (Ha c d) as (x & Hxb & <- & <-); [by apply all_functions_in; eauto|done|by eapply quiet_grown, Hq; apply Hr|].
  destruct (He x Hxb) as (_ & f & Hf & Hdec). destruct (rs_heading _ _ _ Hr _ _ Hf) as (f' & Hf' & Hh).
  rewrite Forall_forall in Hb. destruct (Hb x Hxb Hs Hq) as (f2 & Hf2 & Ht & Hres).
  assert (f2 = f') as -> by congruence.
  exists (df_function_no x), f'. split; [done|]. split; [exact (heading_declares _ _ _ _ Hh Hdec)|by split].
Qed.
Lemma contracts_outcome l file ns :
  inv ns → (contracts_depth l ≤ fuel)%nat →
  match Contracts.resolve keccak256 hash_order rec rec_type l file ns with
  | Ret (_, ns') => inv ns' ∧ grown (diagnostics ns) (diagnostics ns') ∧ (quiet ns' = true → functions_done l file ns')
  | Panic => True
  | OutOfFuel => ¬ nested ns
  end.
Proof.
  intros Hi Hd. pose proof (declared_goes l file ns Hd Hi) as H. unfold Contracts.resolve, mbind, N_bind in *.
  destruct (foldN _ (mkResolveLater [] []) l ns) as [[x ns1]| |]; cbn in *; [|done..].
  destruct (foldN _ tt l ns1) as [[[] ns2]| |]; cbn in *; [|done..].
  destruct (resolve_initializers _ _ _ ns2) as [[[] ns3]| |]; cbn in *; [|done..].
  destruct H as (Hi3 & Hk3 & Hw). unfold resolve_bodies.
  assert (Hdepth : Forall (λ x, definition_depth (df_function x) ≤ fuel)%nat (function_bodies x)).
  { apply Forall_forall. intros y Hy. destruct (w_each _ _ _ Hw y Hy) as [Hin _]. by eapply all_functions_depth. }
  pose proof (resolve_bodies_all keccak256 hash_order Hhash fuel file (function_bodies x) false ns3 Hi3 Hdepth (w_nodup _ _ _ Hw)) as H.
  destruct (foldN _ false _ ns3) as [[b ns4]| |]; cbn; [|done|].
  - destruct H as (Hi4 & Hr & Hb). split_and!; [done|etrans; [apply Hk3|apply Hr]|]. exact (waiting_done _ _ _ ns3 _ Hw Hr Hb).
  - intros Hn. apply H. eapply nested_types; [apply Hk3|done].
Qed.

(** C35: The resolution of the contracts of a file comes to an end, the
    signatures, the initialisers and the bodies included, when no struct
    contains itself. *)
Theorem contracts_terminate l file ns :
  inv ns → (contracts_depth l ≤ fuel)%nat → nested ns →
  Contracts.resolve keccak256 hash_order rec rec_type l file ns ≠ OutOfFuel.
Proof.
  intros Hi Hd Hn H. pose proof (contracts_outcome l file ns Hi Hd) as Ho. rewrite H in Ho. by apply Ho.
Qed.
End Facts.

(** ** A contract with a constant, a variable with an initialiser and two functions

    [contract Counter { u32 const LIMIT = 3; u32 total = LIMIT + 2; fn count ... }] *)
Definition limit_part : Pt.ContractPart :=
  Pt.PVariable {| Pt.vd_loc := Builtin; Pt.vd_ty := u32_type; Pt.vd_attrs := [Pt.Constant Builtin];
    Pt.vd_name := Some (name "LIMIT"); Pt.vd_initializer := Some (Pt.NumberLiteral Builtin "3") |}.
Definition total_part : Pt.ContractPart :=
  Pt.PVariable {| Pt.vd_loc := Builtin; Pt.vd_ty := u32_type; Pt.vd_attrs := []; Pt.vd_name := Some (name "total");
    Pt.vd_initializer := Some (Pt.Add Builtin (var "LIMIT") (Pt.NumberLiteral Builtin "2")) |}.
Definition counter_def : Pt.ContractDefinition := {|
  Pt.cd_loc := Builtin; Pt.cd_ty := ContractTy_ Builtin; Pt.cd_name := Some (name "Counter");
  Pt.cd_parts := [limit_part; total_part; Pt.PFunction count_def] |}.
Definition new_counter : Contract := mkContract Builtin "Counter" (ContractTy_ Builtin) [] 0 [] [] [] None [] true 0.
Definition new_counter_ns : Namespace :=
  mkNamespace [] [] [] [new_counter] [] [] [] Diags.empty ∅ ∅ 1 [].
Definition counter_here : comp (unit * Namespace) :=
  let fuel := contracts_depth [(0%nat, counter_def)] in
  Contracts.resolve no_hash same_order (expression no_hash same_order fuel)
    (resolve_type_fuel no_hash same_order fuel) [(0%nat, counter_def)] 0 new_counter_ns.
Lemma new_counter_inv : inv new_counter_ns.
Proof.
  assert (Hno : ∀ c n, variable_of new_counter_ns c n = None) by (by intros [|c] n).
  assert (Hc : ∀ c n, ¬ constant_at new_counter_ns (Some c) n) by (intros c n (v & Hv & _)%constant_at_of; by rewrite Hno in Hv).
  split; [split| |].
  - split; by intros n.
  - done.
  - intros [c|] n _ H; [by apply Hc in H|by destruct n].
  - intros [c|] n e H; [by apply Hc in H|by destruct n].
  - exists (λ _, 0%nat). intros [c|] n e H; [by apply Hc in H|by destruct n].
  - done.
  - intros c n v e Hv. by rewrite Hno in Hv.
Qed.
Lemma new_counter_nested : nested new_counter_ns.
Proof. exists (λ _, 0%nat). intros [n|n] l Hx; by destruct n. Qed.

Lemma contracts_terminate_witness : counter_here ≠ OutOfFuel.
Proof.
  exact (contracts_terminate no_hash same_order same_order_permutation _ [(0%nat, counter_def)] 0 new_counter_ns new_counter_inv
    (le_n _) new_counter_nested).
Defined.
End Resolution.
