(* ===== verification/ExternalFacts.v ===== *)
(** The functions that are compiled into a contract (external_functions.rs):
    exactly those that its own functions and its initialisers lead to. *)
From S2P Require Import Prelude BigIntSpec Ast Types Pt Casts Names Resolver Declarations Functions.
From S2P Require Import Contracts Typed CastFacts ResolverFacts StatementFacts.
#[local] Set Warnings "-register-all".

Module ExternalFacts.
Import Ex Typed Declarations Functions Contracts Externals CastFacts StatementFacts.

(** ** What a visit adds to a list of calls *)

Definition inserts (new l : CallList) : CallList := foldl (λ l n, index_insert n l) l new.
Lemma elem_of_index_insert n l x : x ∈ index_insert n l ↔ x = n ∨ x ∈ l.
Proof. unfold index_insert. case_decide; set_solver. Qed.
Lemma elem_of_inserts new l x : x ∈ inserts new l ↔ x ∈ new ∨ x ∈ l.
Proof.
  revert l. induction new as [|n new IH]; intros l; cbn; [set_solver|].
  unfold inserts in IH. rewrite IH, elem_of_index_insert. set_solver.
Qed.
Lemma inserts_app new new' l : inserts new' (inserts new l) = inserts (new ++ new') l.
Proof. unfold inserts. by rewrite foldl_app. Qed.

(** A visit adds the same calls to every list. *)
Definition adds (f : CallList → comp CallList) : Prop := ∃ new, ∀ l, f l = Ret (inserts new l).
Lemma adds_ret : adds Ret.
Proof. by exists []. Qed.
Lemma adds_bind f g : adds f → adds g → adds (λ l, l ← f l; g l).
Proof. intros [n Hf] [n' Hg]. exists (n ++ n'). intros l. by rewrite Hf; cbn; rewrite Hg, inserts_app. Qed.
Lemma adds_fold {A} (f : A → CallList → comp CallList) l : (∀ a, a ∈ l → adds (f a)) → adds (λ c, foldM (λ c a, f a c) c l).
Proof.
  induction l as [|a l IH]; intros H; [apply adds_ret|]. cbn. apply (adds_bind (f a)); [apply H; by left|].
  apply IH. intros b Hb. apply H. by right.
Qed.
Lemma adds_opt {A} (f : A → CallList → comp CallList) (o : option A) :
  (∀ a, o = Some a → adds (f a)) → adds (λ l, match o with Some a => f a l | None => Ret l end).
Proof. intros H. destruct o; [by apply H|apply adds_ret]. Qed.
Lemma adds_ext f g : (∀ l, f l = g l) → adds f → adds g.
Proof. intros H [n Hf]. exists n. intros l. by rewrite <-H. Qed.

Ltac adds_step :=
  match goal with
  | |- adds (λ l, Ret l) => apply adds_ret
  | |- adds (λ l, mbind _ (Ret l)) => cbn [mbind comp_bind]
  | |- adds (λ l, mbind _ _) => eapply adds_bind
  | |- adds (λ l, foldM _ l _) => apply adds_fold
  | |- adds (λ l, match ?x with _ => _ end) => destruct x
  | |- _ => assumption
  end.
Ltac split_forall :=
  cbn [string_list opt_list app] in *;
  repeat match goal with
  | H : Forall _ (_ :: _) |- _ => pose proof (Forall_inv H); apply Forall_inv_tail in H
  | H : Forall _ (_ ++ _) |- _ => apply Forall_app in H as [? ?]
  end.
Lemma expression_adds e : adds (calls_of e).
Proof.
  unfold calls_of. induction e as [e IH] using expr_ind.
  destruct e; cbn [children] in IH; split_forall.
  all: try (exists []; reflexivity).
  all: try (eexists [_]; intros; reflexivity).
  all: cbn [Resolver.recurse_with check_expression mbind comp_bind negb].
  all: try (match goal with k : LibFunc |- _ => destruct k end; cbn [mbind comp_bind negb]).
  all: try (exists []; reflexivity).
  all: repeat adds_step; try (by apply Forall_forall).
  all: try match goal with
    | |- adds (Resolver.recurse_call_args _ ?c) => destruct c; cbn [call_args_list] in *; unfold Resolver.recurse_call_args
    end.
  all: repeat adds_step; split_forall; try assumption.
Qed.

Lemma check_statement_adds x : ∃ new, ∀ l, check_statement x l = Ret (true, inserts new l).
Proof.
  assert (H : ∀ f, adds f → ∃ new, ∀ l, (l ← f l; Ret (true, l)) = Ret (true, inserts new l)).
  { intros f [new Hf]. exists new. intros l. by rewrite Hf. }
  pose proof expression_adds as He.
  assert (Ho : ∀ o, adds (opt_calls o)) by (intros o; by apply (adds_opt calls_of)).
  unfold check_statement. destruct x; apply H; try done; try apply adds_ret.
  - apply adds_bind; [done|]. apply (adds_fold (λ f l, match f with St.DExpression e => calls_of e l | _ => Ret l end)).
    intros [] _; [apply adds_ret|apply He|apply adds_ret].
  - apply adds_bind; [|done]. destruct e; apply adds_ret || apply He.
Qed.
Definition visit_inside (x : St.Statement) (l : CallList) : comp CallList :=
  let all k l := foldM (λ l x, recurse_statement check_statement x l) l k in
  match x with
  | St.Block _ k | St.While _ _ _ k | St.DoWhile _ _ k _ => all k l
  | St.If _ _ _ a b | St.For _ _ a _ _ b => l ← all a l; all b l
  | _ => Ret l
  end.
Lemma statement_adds x : adds (recurse_statement check_statement x).
Proof.
  induction x as [x IH] using st_ind. destruct (check_statement_adds x) as [new Hc].
  assert (Hall : ∀ l, Forall (λ x, adds (recurse_statement check_statement x)) l →
    adds (λ c, foldM (λ c x, recurse_statement check_statement x c) c l)).
  { intros l Hl. apply adds_fold. by apply Forall_forall. }
  assert (Hin : adds (visit_inside x)).
  { destruct x; cbn [inside] in IH; try apply Forall_app in IH as [IHa IHb]; try apply adds_ret; try (by apply Hall).
    all: apply adds_bind; by apply Hall. }
  destruct Hin as [n' Hg]. exists (new ++ n'). intros l. rewrite <-inserts_app, <-Hg.
  destruct x; cbn [recurse_statement]; rewrite Hc; reflexivity.
Qed.
Lemma body_adds b : adds (body_calls b).
Proof. apply (adds_fold (recurse_statement check_statement)). intros x _. apply statement_adds. Qed.

(** ** What a function calls *)

Definition calls (ns : Namespace) (m n : nat) : Prop :=
  ∃ f l, functions ns !! m = Some f ∧ body_calls (f_body f) [] = Ret l ∧ n ∈ l.
(** The functions that are compiled into a contract: its own ones, those that
    an initialiser calls, and those that these call. *)
Inductive compiled (ns : Namespace) (k : Contract) : nat → Prop :=
  | c_own n : n ∈ (all_functions k).*1 → compiled ns k n
  | c_initializer v e l n : v ∈ variables k → initializer v = Some e → calls_of e [] = Ret l → n ∈ l → compiled ns k n
  | c_call m n : compiled ns k m → calls ns m n → compiled ns k n.

Lemma adds_elem f : adds f → ∃ l0, f [] = Ret l0 ∧ ∀ l, ∃ l', f l = Ret l' ∧ ∀ n, n ∈ l' ↔ n ∈ l0 ∨ n ∈ l.
Proof.
  intros [new Hf]. exists (inserts new []). split; [done|]. intros l. exists (inserts new l). split; [done|].
  intros n. rewrite !elem_of_inserts. set_solver.
Qed.
Lemma function_calls_elem ns l m :
  match function_calls ns l m with
  | Ret l' => ∀ n, n ∈ l' ↔ n ∈ l ∨ calls ns m n
  | Panic => functions ns !! m = None
  | OutOfFuel => False
  end.
Proof.
  unfold function_calls. destruct (functions ns !! m) as [f|] eqn:Hf; [|done]. cbn.
  destruct (adds_elem _ (body_adds (f_body f))) as (l0 & H0 & H). destruct (H l) as (l' & -> & Hl').
  intros n. rewrite Hl'. unfold calls. split.
  - intros [?|?]; [right; by exists f, l0|by left].
  - intros [?|(f' & l1 & Hf' & H1 & Hn)]; [by right|left]. congruence.
Qed.
Lemma functions_calls_elem ns ms l :
  match foldM (function_calls ns) l ms with
  | Ret l' => (∀ n, n ∈ l' ↔ n ∈ l ∨ ∃ m, m ∈ ms ∧ calls ns m n) ∧ Forall (λ m, m < length (functions ns))%nat ms
  | Panic => True
  | OutOfFuel => False
  end.
Proof.
  revert l. induction ms as [|m ms IH]; intros l; [cbn; split; [set_solver|done]|].
  cbn. pose proof (function_calls_elem ns l m) as Hm. destruct (function_calls ns l m) as [l1| |] eqn:E; cbn; [|done..].
  specialize (IH l1). destruct (foldM _ l1 ms) as [l2| |]; [|done..]. destruct IH as [IH Hms]. split.
  - intros n. rewrite IH, Hm. setoid_rewrite elem_of_cons. naive_solver.
  - constructor; [|done]. unfold function_calls in E. destruct (functions ns !! m) eqn:Hf; [|done]. by eapply lookup_lt_Some.
Qed.
Lemma initializers_calls_elem vs l :
  ∃ l', foldM (λ l v, opt_calls (initializer v) l) l vs = Ret l'
    ∧ ∀ n, n ∈ l' ↔ n ∈ l ∨ ∃ v e k, v ∈ vs ∧ initializer v = Some e ∧ calls_of e [] = Ret k ∧ n ∈ k.
Proof.
  revert l. induction vs as [|v vs IH]; intros l; [exists l; split; [done|set_solver]|]. cbn.
  assert (H : ∃ l1, opt_calls (initializer v) l = Ret l1
    ∧ ∀ n, n ∈ l1 ↔ n ∈ l ∨ ∃ e k, initializer v = Some e ∧ calls_of e [] = Ret k ∧ n ∈ k).
  { destruct (initializer v) as [e|]; cbn; [|exists l; split; [done|naive_solver]].
    destruct (adds_elem _ (expression_adds e)) as (k & Hk & H). destruct (H l) as (l1 & -> & H1). exists l1. split; [done|].
    intros n. rewrite H1. split; [intros [?|?]; [right; by exists e, k|by left]|].
    intros [?|(e' & k' & [= <-] & Hk' & ?)]; [by right|left; congruence]. }
  destruct H as (l1 & -> & H1). cbn. destruct (IH l1) as (l2 & -> & H2). exists l2. split; [done|].
  intros n. rewrite H2, H1. split.
  - intros [[?|(e & k & ? & ? & ?)]|(w & e & k & ? & ?)]; [by left|right; exists v, e, k; split; [by left|done]|].
    right. exists w, e, k. split; [by right|done].
  - intros [?|(w & e & k & [->|Hw]%elem_of_cons & Hk)]; [by left; left|left; right; by exists e, k|].
    right. by exists w, e, k.
Qed.

(** ** The loop *)

Definition no_builtin (ns : Namespace) : Prop := ∀ n f, functions ns !! n = Some f → f_loc f ≠ Builtin.
Lemma btree_insert_keys n v l x : x ∈ (btree_insert n v l).*1 ↔ x = n ∨ x ∈ l.*1.
Proof.
  induction l as [|[j w] l IH]; [cbn; by rewrite elem_of_cons|]. cbn [btree_insert].
  destruct (Nat.ltb_spec n j); [by rewrite !fmap_cons, !elem_of_cons|].
  case_decide as E; rewrite !fmap_cons, !elem_of_cons; cbn [fst]; [rewrite <-E|rewrite IH]; naive_solver.
Qed.
Lemma add_called_keys ns l all :
  no_builtin ns →
  match foldM (add_called ns) all l with
  | Ret all' => ∀ x, x ∈ all'.*1 ↔ x ∈ all.*1 ∨ x ∈ l
  | Panic => True
  | OutOfFuel => False
  end.
Proof.
  intros Hb. revert all. induction l as [|n l IH]; intros all; [cbn; set_solver|].
  assert (Ha : add_called ns all n = Panic ∨ add_called ns all n = Ret (btree_insert n usize_max all)).
  { unfold add_called. destruct (functions ns !! n) as [f|] eqn:Hf; [right|by left]. cbn.
    by rewrite decide_False by by eapply Hb. }
  cbn [foldM]. destruct Ha as [->| ->]; cbn [mbind comp_bind]; [done|].
  specialize (IH (btree_insert n usize_max all)). destruct (foldM _ _ l) as [all'| |]; [|done..].
  intros x. rewrite IH, btree_insert_keys, elem_of_cons. naive_solver.
Qed.
(** The calls that are not listed yet. *)
Definition unlisted (all : list (nat * Z)) (new : CallList) : CallList :=
  foldl (λ l n, if decide (n ∈ all.*1) then l else index_insert n l) [] new.
Lemma elem_of_unlisted all new x : x ∈ unlisted all new ↔ x ∈ new ∧ x ∉ all.*1.
Proof.
  unfold unlisted. assert (H : ∀ l, x ∈ foldl (λ l n, if decide (n ∈ all.*1) then l else index_insert n l) l new
    ↔ x ∈ l ∨ (x ∈ new ∧ x ∉ all.*1)).
  { induction new as [|n new IH]; intros l; cbn; [set_solver|]. rewrite IH, elem_of_cons. case_decide.
    - naive_solver.
    - rewrite elem_of_index_insert. naive_solver. }
  rewrite H. set_solver.
Qed.

Lemma close_calls_closed fuel ns k l all :
  no_builtin ns → (∀ n, n ∈ all.*1 ∨ n ∈ l → compiled ns k n) →
  (∀ m n, m ∈ all.*1 → calls ns m n → n ∈ all.*1 ∨ n ∈ l) →
  ∀ all', close_calls fuel ns l all = Ret all' →
  (∀ n, n ∈ all'.*1 → compiled ns k n) ∧ (∀ n, n ∈ all.*1 ∨ n ∈ l → n ∈ all'.*1)
  ∧ (∀ m n, m ∈ all'.*1 → calls ns m n → n ∈ all'.*1).
Proof.
  intros Hb. revert l all. induction fuel as [|fuel IH]; intros l all Hs Hc all' H; [done|]. cbn in H.
  destruct l as [|a l]; [injection H as <-; split_and!; [by auto|set_solver|set_solver]|].
  set (k0 := a :: l) in *.
  pose proof (functions_calls_elem ns k0 []) as Hn. destruct (foldM (function_calls ns) [] k0) as [new| |]; [|done..].
  destruct Hn as [Hn _]. cbn [mbind comp_bind] in H.
  pose proof (add_called_keys ns k0 all Hb) as Ha. destruct (foldM (add_called ns) all k0) as [all1| |]; [|done..].
  cbn [mbind comp_bind] in H. change (foldl _ [] new) with (unlisted all1 new) in H.
  destruct (IH (unlisted all1 new) all1) with all' as (H1 & H2 & H3); [| |done|].
  - intros n [Hx|[Hx _]%elem_of_unlisted]; [by apply Hs, Ha|]. apply Hn in Hx as [Hx|(m & Hm & Hx)]; [by apply elem_of_nil in Hx|].
    eapply c_call; [|exact Hx]. apply Hs. by right.
  - intros m n Hm Hx. destruct (decide (n ∈ all1.*1)); [by left|]. right. apply elem_of_unlisted. split; [|done].
    apply Ha in Hm as [Hm|Hm]; [|apply Hn; right; by exists m]. destruct (Hc m n Hm Hx) as [?|?]; exfalso; set_solver.
  - split_and!; [done| |done]. intros n Hx. apply H2. left. by apply Ha.
Qed.

Definition left_over (ns : Namespace) (all : list (nat * Z)) : nat :=
  size (list_to_set (seq 0 (length (functions ns))) ∖ list_to_set all.*1 : gset nat).
Lemma left_over_mono ns all all' : (∀ x, x ∈ all.*1 → x ∈ all'.*1) → (left_over ns all' ≤ left_over ns all)%nat.
Proof. intros H. apply subseteq_size. set_solver. Qed.
Lemma left_over_less ns all all' n :
  (∀ x, x ∈ all.*1 → x ∈ all'.*1) → n ∈ all'.*1 → n ∉ all.*1 → (n < length (functions ns))%nat →
  (left_over ns all' < left_over ns all)%nat.
Proof.
  intros H Hn Hno Hlt. apply subset_size. split; [set_solver|]. intros Hsub.
  assert (Hin : n ∈ (list_to_set (seq 0 (length (functions ns))) ∖ list_to_set all.*1 : gset nat)).
  { apply elem_of_difference. rewrite !elem_of_list_to_set, elem_of_seq. split; [lia|done]. }
  apply Hsub, elem_of_difference in Hin as [_ Hin]. apply Hin. by apply elem_of_list_to_set.
Qed.
Lemma left_over_bound ns all : (left_over ns all ≤ length (functions ns))%nat.
Proof.
  unfold left_over. etrans; [apply subseteq_size, (subseteq_difference_l _ _ _ (reflexivity _))|].
  rewrite size_list_to_set by apply NoDup_seq. by rewrite length_seq.
Qed.

(** One round. *)
Lemma close_calls_round fuel ns a l all :
  no_builtin ns → close_calls (S fuel) ns (a :: l) all = OutOfFuel →
  ∃ all1 new, (∀ x, x ∈ all1.*1 ↔ x ∈ all.*1 ∨ x ∈ a :: l) ∧ Forall (λ m, m < length (functions ns))%nat (a :: l)
    ∧ close_calls fuel ns (unlisted all1 new) all1 = OutOfFuel.
Proof.
  intros Hb H. cbn [close_calls] in H.
  pose proof (functions_calls_elem ns (a :: l) []) as Hn. destruct (foldM (function_calls ns) [] _) as [new| |]; [|done..].
  pose proof (add_called_keys ns (a :: l) all Hb) as Ha. destruct (foldM (add_called ns) all _) as [all1| |]; [|done..].
  exists all1, new. split; [done|]. split; [apply Hn|exact H].
Qed.
Lemma close_calls_ends fuel ns l all :
  no_builtin ns → (∀ x, x ∈ l → x ∉ all.*1) → (left_over ns all < fuel)%nat → close_calls fuel ns l all ≠ OutOfFuel.
Proof.
  intros Hb. revert l all. induction fuel as [|fuel IH]; intros l all Hl Hlt H; [lia|]. destruct l as [|a l]; [done|].
  apply close_calls_round in H as (all1 & new & Ha & Hr & H); [|done]. revert H. apply IH.
  - intros x [_ Hx]%elem_of_unlisted. done.
  - enough (left_over ns all1 < left_over ns all)%nat by lia. apply (left_over_less _ _ _ a).
    + intros x Hx. apply Ha. by left.
    + apply Ha. right. by left.
    + apply Hl. by left.
    + by apply Forall_inv in Hr.
Qed.


(** ** A contract whose function calls a library function, which calls another *)

Definition call_of (n : nat) : expression := Ex.FunctionCall Builtin [] (Ex.Function_ Builtin (Ty.Function_ [] []) n None) [].
Definition file_loc (n : nat) : Loc := File_ 0 n (S n).
Definition function_with (n : nat) (body : list St.Statement) : Function :=
  mkFunction (file_loc n) "f" None "f()" [] [] None true body SymTable.SymTable.new "f".
Definition caller (own : list nat) : Contract :=
  mkContract Builtin "C" (ContractTy_ Builtin) [] 0 own ((λ n, (n, usize_max)) <$> own) [] None [] true 0.
Definition calling_ns (body : list St.Statement) : Namespace :=
  set_contracts [caller [0%nat]] (set_functions
    [function_with 0 body; function_with 1 [St.Expression_ Builtin true (call_of 2)]; function_with 2 []; function_with 3 []]
    empty_ns).
Definition listed (r : comp (unit * Namespace)) : option (list nat) :=
  match r with Ret (_, ns) => (λ k, (all_functions k).*1) <$> head (contracts ns) | _ => None end.
Definition calls_one : list St.Statement := [St.If Builtin true (Ex.BoolLiteral Builtin true) [St.Expression_ Builtin true (call_of 1)] []].

Lemma calling_no_builtin b : no_builtin (calling_ns b).
Proof. intros [|[|[|[|n]]]] f; cbn; [intros [= <-]; done..|done]. Qed.

(** [for (; true; f1()) { }]: the call in the update expression is not visited. *)
Lemma for_update_not_visited :
  listed (add_external_functions 0 (calling_ns
    [St.For Builtin true [] (Some (Ex.BoolLiteral Builtin true)) (Some (call_of 1)) []])) = Some [0%nat].
Proof. vm_compute. reflexivity. Qed.
End ExternalFacts.
