(* ===== verification/Llvm.v ===== *)
(** What the IR generator (src/src/irgen/) builds: the types, values,
    instructions and functions of LLVM IR that it uses, and the calls of the
    inkwell builder as a state monad over the module that is built. *)
From S2P Require Import Prelude Ast.

Module Llvm.

(** * The part of LLVM IR that is used *)

(** Pointers are opaque (LLVM 15). *)
Inductive LTy : Set :=
  | LInt (width : nat)
  | LPtr
  | LVoid
  | LArray (n : Z) (t : LTy)
  | LStruct (ts : list LTy).
Definition I64 : LTy := LInt 64.
Definition BOOL : LTy := LInt 1.

(** A value: a constant, the null pointer, a global, a parameter, or the
    result of the instruction with a number. *)
Inductive LVal : Set :=
  | VConst (width : nat) (n : Z)
  | VNull
  | VGlobal (name : string)
  | VParam (i : nat) (t : LTy)
  | VInst (id : nat) (t : LTy).
Definition lty_of (v : LVal) : LTy :=
  match v with
  | VConst w _ => LInt w | VNull | VGlobal _ => LPtr | VParam _ t | VInst _ t => t
  end.
(** [IntValue::is_const] and the like *)
Definition is_const (v : LVal) : bool :=
  match v with VConst _ _ | VNull | VGlobal _ => true | VParam _ _ | VInst _ _ => false end.

Inductive BinOp : Set := BAdd | BSub | BMul | BAnd | BOr | BXor.
Inductive IntPredicate : Set := EQ | NE | UGT | UGE | ULT | ULE.
(** A block of a function. *)
Definition Block : Set := nat * nat.

(** The names of values are not modelled. *)
Inductive LInst : Set :=
  | IBin (op : BinOp) (a b : LVal)
  | ICmp (p : IntPredicate) (a b : LVal)
  | IZExt (a : LVal) (t : LTy)
  | ITrunc (a : LVal) (t : LTy)
  | IPtrToInt (a : LVal) (t : LTy)
  | IIntToPtr (a : LVal)
  | IAlloca (t : LTy)
  | ILoad (t : LTy) (p : LVal)
  | IStore (p v : LVal)
  | IGep (t : LTy) (p : LVal) (idx : list LVal)
  | IStructGep (t : LTy) (p : LVal) (i : nat)
  | ICall (f : string) (args : list LVal)
  | IPhi (t : LTy) (incoming : list (LVal * Block))
  | IBr (b : Block)
  | ICondBr (c : LVal) (yes no : Block)
  | ISwitch (v : LVal) (default_ : Block) (cases : list (LVal * Block))
  | IRet (v : option LVal)
  | IUnreachable.

Record LBlock : Set := mkBlock { b_name : string; b_insts : list (nat * LInst) }.
(** A function without blocks is declared only. *)
Record LFun : Set := mkFun { fn_name : string; fn_params : list LTy; fn_ret : LTy; fn_blocks : list LBlock }.

Definition is_terminator (i : LInst) : bool :=
  match i with IBr _ | ICondBr _ _ _ | ISwitch _ _ _ | IRet _ | IUnreachable => true | _ => false end.

(** * inkwell

    The builder folds an instruction on constants into a constant; a decimal
    string that is a number gives a constant; and a function whose name is
    taken gets another one. *)
Class Inkwell := {
  fold : LInst → option LVal;
  const_of_decimal : string → option Z;
  another_name : list string → string → string;
}.

(** The operands of an instruction that can be folded. *)
Definition fold_operands (i : LInst) : option (list LVal) :=
  match i with
  | IBin _ a b | ICmp _ a b => Some [a; b]
  | IZExt a _ | ITrunc a _ | IPtrToInt a _ | IIntToPtr a => Some [a]
  | IGep _ p idx => Some (p :: idx)
  | IStructGep _ p _ => Some [p]
  | _ => None
  end.
Definition foldable (i : LInst) : bool :=
  match fold_operands i with Some l => forallb is_const l | None => false end.

(** * The state of the generator *)

(** Where the builder inserts: at the end of a block, or before the
    instruction with a number. *)
Record Position : Set := mkPos { p_block : Block; p_before : option nat }.

(** The module, the builder, the loops around the statement (the innermost
    first), and the [Vartable] of the function, which the code passes along by
    a mutable reference. *)
(* [irgen/binary.rs | pub struct Binary<'a> | Binary] *)
Record Binary : Set := mkBinary {
  funs : list LFun;
  position : option Position;
  next_id : nat;
  loops : list (Block * Block);
  vars : gmap nat LVal;
}.
Definition with_funs (f : list LFun) (s : Binary) : Binary := mkBinary f (position s) (next_id s) (loops s) (vars s).
Definition with_position (p : option Position) (s : Binary) : Binary :=
  mkBinary (funs s) p (next_id s) (loops s) (vars s).
Definition with_next (n : nat) (s : Binary) : Binary := mkBinary (funs s) (position s) n (loops s) (vars s).
Definition with_loops (l : list (Block * Block)) (s : Binary) : Binary :=
  mkBinary (funs s) (position s) (next_id s) l (vars s).
Definition with_vars (v : gmap nat LVal) (s : Binary) : Binary :=
  mkBinary (funs s) (position s) (next_id s) (loops s) v.

Definition G (A : Type) : Type := Binary → comp (A * Binary).
#[export] Instance G_ret : MRet G := λ A a s, Ret (a, s).
#[export] Instance G_bind : MBind G := λ A B f m s,
  match m s with Ret (a, s) => f a s | Panic => Panic | OutOfFuel => OutOfFuel end.

Definition lift {A} (m : comp A) : G A := λ s, match m with Ret a => Ret (a, s) | Panic => Panic | OutOfFuel => OutOfFuel end.
Definition get : G Binary := λ s, Ret (s, s).
Definition modify (f : Binary → Binary) : G unit := λ s, Ret (tt, f s).
Definition get_some {A} (o : option A) : G A := lift (unwrap o).
Definition panic {A} : G A := λ _, Panic.

Fixpoint mapG {A B} (f : A → G B) (l : list A) : G (list B) :=
  match l with [] => mret [] | x :: l => y ← f x; r ← mapG f l; mret (y :: r) end.
(** [for x in l], with a state *)
Fixpoint foldG {A B} (f : A → B → G A) (a : A) (l : list B) : G A :=
  match l with [] => mret a | x :: l => a ← f a x; foldG f a l end.
Definition eachG {A} (f : A → G unit) (l : list A) : G unit := foldG (λ _, f) tt l.

(** * Modules, functions and blocks *)

Definition get_function (name : string) : G (option nat) := s ← get;
  mret (fst <$> list_find (λ f, fn_name f = name) (funs s)).
Definition upd_fun (f : nat) (g : LFun → LFun) : G unit := modify (λ s, with_funs (alter g f (funs s)) s).
Definition with_blocks (l : list LBlock) (f : LFun) : LFun := mkFun (fn_name f) (fn_params f) (fn_ret f) l.
Definition fun_of (f : nat) : G LFun := s ← get; get_some (funs s !! f).

Definition get_nth_param (f i : nat) : G (option LVal) := fn ← fun_of f; mret (VParam i <$> fn_params fn !! i).
Definition append_basic_block (f : nat) (name : string) : G Block :=
  fn ← fun_of f;
  _ ← upd_fun f (with_blocks (fn_blocks fn ++ [mkBlock name []]));
  mret (f, length (fn_blocks fn)).
Definition get_first_basic_block (f : nat) : G (option Block) :=
  fn ← fun_of f; mret (match fn_blocks fn with [] => None | _ => Some (f, 0%nat) end).

Definition position_at_end (b : Block) : G unit := modify (with_position (Some (mkPos b None))).
Definition get_insert_block : G (option Block) := s ← get; mret (p_block <$> position s).
Definition block_of (b : Block) : G LBlock := fn ← fun_of b.1; get_some (fn_blocks fn !! b.2).
(** The instruction with this number is the first of the block. *)
Definition get_first_instruction (b : Block) : G (option nat) :=
  bb ← block_of b; mret (fst <$> head (b_insts bb)).
Definition position_before (b : Block) (i : nat) : G unit := modify (with_position (Some (mkPos b (Some i)))).

(** * Instructions *)

Fixpoint insert_before (k : nat) (x : nat * LInst) (l : list (nat * LInst)) : list (nat * LInst) :=
  match l with [] => [x] | y :: l => if decide (y.1 = k) then x :: y :: l else y :: insert_before k x l end.
Definition upd_block (b : Block) (g : list (nat * LInst) → list (nat * LInst)) : G unit :=
  upd_fun b.1 (λ fn, with_blocks (alter (λ bb, mkBlock (b_name bb) (g (b_insts bb))) b.2 (fn_blocks fn)) fn).

(** A builder that was not positioned panics. *)
Definition emit (i : LInst) : G nat :=
  s ← get;
  p ← get_some (position s);
  let id := next_id s in
  _ ← upd_block (p_block p)
        (match p_before p with None => λ l, l ++ [(id, i)] | Some k => insert_before k (id, i) end);
  _ ← modify (λ s, with_next (S id) s);
  mret id.
Definition emit_ (i : LInst) : G unit := _ ← emit i; mret tt.

Section Builder.
Context {IK : Inkwell}.

Definition build (i : LInst) (t : LTy) : G LVal :=
  match (if foldable i then fold i else None) with
  | Some v => mret v
  | None => id ← emit i; mret (VInst id t)
  end.

(** [into_int_value], [into_pointer_value]: panics on another kind. *)
Definition into_int_value (v : LVal) : G LVal := match lty_of v with LInt _ => mret v | _ => panic end.
Definition into_pointer_value (v : LVal) : G LVal := match lty_of v with LPtr => mret v | _ => panic end.

Definition const_int (n : Z) : LVal := VConst 64 n.
Definition const_zero : LVal := VConst 64 0.

Definition build_int_add (a b : LVal) : G LVal := build (IBin BAdd a b) (lty_of a).
Definition build_int_sub (a b : LVal) : G LVal := build (IBin BSub a b) (lty_of a).
Definition build_int_mul (a b : LVal) : G LVal := build (IBin BMul a b) (lty_of a).
Definition build_and (a b : LVal) : G LVal := build (IBin BAnd a b) (lty_of a).
Definition build_or (a b : LVal) : G LVal := build (IBin BOr a b) (lty_of a).
Definition build_xor (a b : LVal) : G LVal := build (IBin BXor a b) (lty_of a).
Definition build_int_compare (p : IntPredicate) (a b : LVal) : G LVal := build (ICmp p a b) BOOL.
(** A conversion to the same type is the value itself. *)
Definition build_int_z_extend (a : LVal) (t : LTy) : G LVal :=
  match lty_of a, t with
  | LInt w, LInt w' => if decide (w = w') then mret a else build (IZExt a t) t
  | _, _ => build (IZExt a t) t
  end.
Definition build_int_truncate (a : LVal) (t : LTy) : G LVal :=
  match lty_of a, t with
  | LInt w, LInt w' => if decide (w = w') then mret a else build (ITrunc a t) t
  | _, _ => build (ITrunc a t) t
  end.
Definition build_ptr_to_int (a : LVal) (t : LTy) : G LVal := build (IPtrToInt a t) t.
Definition build_int_to_ptr (a : LVal) : G LVal := build (IIntToPtr a) LPtr.
Definition build_gep (t : LTy) (p : LVal) (idx : list LVal) : G LVal := build (IGep t p idx) LPtr.
(** [Err(())] when there is no such member. *)
Definition build_struct_gep (t : LTy) (p : LVal) (i : nat) : G LVal :=
  match t with
  | LStruct ts => if decide (i < length ts)%nat then build (IStructGep t p i) LPtr else panic
  | _ => panic
  end.

Definition builder_alloca (t : LTy) : G LVal := id ← emit (IAlloca t); mret (VInst id LPtr).
Definition build_load (t : LTy) (p : LVal) : G LVal := id ← emit (ILoad t p); mret (VInst id t).
Definition build_store (p v : LVal) : G unit := emit_ (IStore p v).
(** [try_as_basic_value().left()]: there is a value unless the function
    returns [void]. *)
Definition build_call (f : nat) (args : list LVal) : G (option LVal) :=
  fn ← fun_of f;
  id ← emit (ICall (fn_name fn) args);
  mret (match fn_ret fn with LVoid => None | t => Some (VInst id t) end).
Definition build_phi (t : LTy) : G nat := emit (IPhi t []).
Definition add_incoming (phi : nat) (l : list (LVal * Block)) : G unit :=
  modify (λ s, with_funs (map (λ fn, with_blocks (map (λ bb, mkBlock (b_name bb)
    (map (λ x, match x.2 with
               | IPhi t l' => if decide (x.1 = phi) then (x.1, IPhi t (l' ++ l)) else x
               | _ => x
               end) (b_insts bb))) (fn_blocks fn)) fn) (funs s)) s).
Definition build_unconditional_branch (b : Block) : G unit := emit_ (IBr b).
Definition build_conditional_branch (c : LVal) (yes no : Block) : G unit := emit_ (ICondBr c yes no).
Definition build_switch (v : LVal) (d : Block) (cases : list (LVal * Block)) : G unit := emit_ (ISwitch v d cases).
Definition build_return (v : option LVal) : G unit := emit_ (IRet v).
Definition build_unreachable : G unit := emit_ IUnreachable.

Definition add_function (name : string) (params : list LTy) (ret : LTy) : G nat :=
  s ← get;
  let names := map fn_name (funs s) in
  let name := if decide (name ∈ names) then another_name names name else name in
  _ ← modify (λ s, with_funs (funs s ++ [mkFun name params ret []]) s);
  mret (length (funs s)).
End Builder.
End Llvm.
