(* ===== verification/GenBinary.v ===== *)
(** The helpers of the IR generator (src/src/irgen/binary.rs): the LLVM types
    of the types of the language, literals, vectors on the heap, the tape, the
    Poseidon hash, loops, comparisons of memory and range checks. *)
From S2P Require Import Prelude BigIntSpec Ast Types Eval Llvm.
#[local] Open Scope Z_scope.

Module GenBinary.
Import Llvm.

(** [to_u64().unwrap()], [to_u32().unwrap()] *)
Definition to_u64 (z : Z) : comp Z := if decide (0 ≤ z < 2 ^ 64) then Ret z else Panic.
Definition to_u32 (z : Z) : comp Z := if decide (0 ≤ z < 2 ^ 32) then Ret z else Panic.

(* [irgen/binary.rs | pub const HEAP_ADDRESS_START | HEAP_ADDRESS_START] *)
Definition HEAP_ADDRESS_START : Z := FIELD_ORDER - 2 * (2 ^ 32 - 1).

Section Types_.
Context (ns : Namespace).

Definition behind_pointer (t : ty) : bool :=
  match deref_memory t with Ty.Struct _ | Ty.Array _ _ | Ty.String_ | Ty.DynamicBytes => true | _ => false end.
Definition field_behind_pointer (t : ty) : bool :=
  match deref_memory t with Ty.Array _ _ | Ty.DynamicBytes | Ty.String_ => true | _ => false end.
Definition array_dim (aty : LTy) (dim : ArrayLength) : comp LTy :=
  match dim with Fixed d => n ← to_u32 d; Ret (LArray n aty) | Dynamic => Ret LPtr | AnyFixed => Panic end.

(* [irgen/binary.rs | pub(crate) fn llvm_type | llvm_type] *)
Fixpoint llvm_type (fuel : nat) (t : ty) : comp LTy :=
  match fuel with O => OutOfFuel | S fuel =>
  let var_ty t := l ← llvm_type fuel t; Ret (if behind_pointer t then LPtr else l) in
  let field_ty t := l ← llvm_type fuel t; Ret (if field_behind_pointer t then LPtr else l) in
  match t with
  | Ty.Bool | Ty.Field => Ret I64
  | Ty.Uint b => if decide (b = 32) then Ret I64 else Panic
  | Ty.Hash | Ty.Contract _ | Ty.Address => Ret LPtr
  | Ty.Enum n => e ← get_enum ns n; llvm_type fuel (enum_ty e)
  | Ty.Array base_ty dims => aty ← field_ty base_ty; foldM array_dim aty dims
  | Ty.String_ | Ty.DynamicBytes => Ret LPtr
  | Ty.Mapping _ _ _ _ => llvm_type fuel (Ty.Uint 32)
  | Ty.Struct n => s ← get_struct ns n; l ← mapM_c (λ f, field_ty (p_ty f)) (fields s); Ret (LStruct l)
  | Ty.Ref r => _ ← llvm_type fuel r; Ret LPtr
  | Ty.StorageRef _ => llvm_type fuel (Ty.Uint 32)
  | Ty.Function_ params returns => _ ← mapM_c var_ty (params ++ returns); Ret LPtr
  | Ty.Slice t => _ ← llvm_type fuel t; Ret (LStruct [LPtr; I64])
  | Ty.UserType no => u ← get_user_type ns no; llvm_type fuel u
  | Ty.BufferPointer => Ret LPtr
  | _ => Panic
  end end.

Context (fuel : nat).
(* [irgen/binary.rs | pub(crate) fn llvm_var_ty | llvm_var_ty] *)
Definition llvm_var_ty (t : ty) : comp LTy := l ← llvm_type fuel t; Ret (if behind_pointer t then LPtr else l).
(* [irgen/binary.rs | pub(crate) fn llvm_field_ty | llvm_field_ty] *)
Definition llvm_field_ty (t : ty) : comp LTy := l ← llvm_type fuel t; Ret (if field_behind_pointer t then LPtr else l).
(** The parameters, and the type of the result: several results are returned
    through more parameters. *)
(* [irgen/binary.rs | pub(crate) fn function_type | function_type] *)
Definition function_type (params returns : list ty) : comp (list LTy * LTy) :=
  args ← mapM_c llvm_var_ty params;
  match returns with
  | [r] => r ← llvm_var_ty r; Ret (args, r)
  | _ => l ← mapM_c llvm_var_ty returns; Ret (args ++ l, LVoid)
  end.
End Types_.

Section Build.
Context {IK : Inkwell}.

(** [module.get_function(name).unwrap()] *)
Definition function_named (name : string) : G nat := f ← get_function name; get_some f.
Definition call (name : string) (args : list LVal) : G (option LVal) := f ← function_named name; build_call f args.
Definition call_ (name : string) (args : list LVal) : G unit := _ ← call name args; mret tt.
(** [try_as_basic_value().left().unwrap()] *)
Definition call_value (name : string) (args : list LVal) : G LVal := v ← call name args; get_some v.

(** [new]: the heap pointer is the global [heap_address]. *)
Definition heap_address : LVal := VGlobal "heap_address".
(* [irgen/binary.rs | pub fn new(context | new] *)
Definition new : Binary := mkBinary [] None 0 [] ∅.

(* [irgen/binary.rs | pub(crate) fn build_alloca<T | build_alloca] *)
Definition build_alloca (function : nat) (t : LTy) : G LVal :=
  entry ← get_first_basic_block function; entry ← get_some entry;
  current ← get_insert_block; current ← get_some current;
  first ← get_first_instruction entry;
  _ ← match first with Some i => position_before entry i | None => position_at_end entry end;
  res ← builder_alloca t;
  _ ← position_at_end current;
  mret res.

(* [irgen/binary.rs | pub(crate) fn vector_new | vector_new] *)
Definition vector_new (size : LVal) : G LVal := v ← call_value "vector_new" [size]; into_pointer_value v.
(* [irgen/binary.rs | pub(crate) fn heap_malloc | heap_malloc] *)
Definition heap_malloc (size : LVal) : G LVal := v ← call_value "heap_malloc" [size]; into_pointer_value v.
(* [irgen/binary.rs | pub(crate) fn vector_len | vector_len] *)
Definition vector_len (vector : LVal) : G LVal :=
  p ← into_pointer_value vector; l ← build_load I64 p; into_int_value l.
(* [irgen/binary.rs | pub(crate) fn vector_data | vector_data] *)
Definition vector_data (vector : LVal) : G LVal :=
  p ← into_pointer_value vector; build_gep I64 p [const_int 1].

(** The elements of a list, stored one after the other. *)
(* [irgen/binary.rs | 108-120 | address_literal] *)
Definition store_consts (p : LVal) (value : list Z) : G unit :=
  eachG (λ '(i, v),
    index_access ← build_gep I64 p [const_int (Z.of_nat i)];
    v ← lift (to_u64 v); build_store index_access (const_int v)) (imap pair value).
(* [irgen/binary.rs | pub(crate) fn address_literal | address_literal] *)
Definition address_literal (value : list Z) : G LVal :=
  p ← heap_malloc (const_int (Z.of_nat (length value))); _ ← store_consts p value; mret p.
(* [irgen/binary.rs | pub(crate) fn hash_literal | hash_literal] *)
Definition hash_literal (value : list Z) : G LVal :=
  p ← heap_malloc (const_int (Z.of_nat (length value))); _ ← store_consts p value; mret p.
(* [irgen/binary.rs | pub(crate) fn number_literal | number_literal] *)
Definition number_literal (t : ty) (n : Z) : G LVal :=
  let c := z ← get_some (const_of_decimal (pretty n)); mret (const_int z) in
  match t with
  | Ty.Uint b => if decide (b = 32) then c else panic
  | Ty.Field | Ty.Enum _ => c
  | _ => panic
  end.

(* [irgen/binary.rs | pub(crate) fn context_data_load | context_data_load] *)
Definition context_data_load (heap tape_index : LVal) : G unit := call_ "get_context_data" [heap; tape_index].
(* [irgen/binary.rs | pub(crate) fn tape_data_load | tape_data_load] *)
Definition tape_data_load (heap tape_index : LVal) : G unit := call_ "get_tape_data" [heap; tape_index].
(* [irgen/binary.rs | pub(crate) fn tape_data_store | tape_data_store] *)
Definition tape_data_store (heap length : LVal) : G unit := call_ "set_tape_data" [heap; length].
(** The selector, the length of the call data and the call data: 13 words lie
    behind the selector on the tape. *)
(* [irgen/binary.rs | pub(crate) fn contract_input | contract_input] *)
Definition contract_input : G (LVal * LVal * LVal) :=
  let selector_index := const_int 13 in
  selector_start_ptr ← heap_malloc selector_index;
  _ ← tape_data_load selector_start_ptr selector_index;
  function_selector ← build_load I64 selector_start_ptr;
  length_index ← build_int_add selector_index (const_int 1);
  length_start_ptr ← heap_malloc length_index;
  _ ← tape_data_load length_start_ptr length_index;
  input_length ← build_load I64 length_start_ptr;
  n ← into_int_value input_length;
  calldata_index ← build_int_add n length_index;
  data_start_ptr ← heap_malloc calldata_index;
  _ ← tape_data_load data_start_ptr calldata_index;
  s ← into_int_value function_selector;
  n ← into_int_value input_length;
  mret (s, n, data_start_ptr).

(* [irgen/binary.rs | pub fn memcpy | memcpy] *)
Definition memcpy (src dest len : LVal) : G unit := call_ "memcpy" [src; dest; len].
(** The comparisons by order are for words or for field elements. *)
(* [irgen/binary.rs | 779-803 | memcmp] *)
Definition memcmp_name (op : IntPredicate) (elem_ty : ty) : comp string :=
  let by_type (u f : string) : comp string :=
    match elem_ty with
    | Ty.Uint b => if decide (b = 32) then Ret u else Panic
    | Ty.Field => Ret f
    | _ => Panic
    end in
  match op with
  | EQ => Ret "memcmp_eq"
  | NE => Ret "memcmp_ne"
  | UGT => by_type "memcmp_ugt" "field_memcmp_ugt"
  | UGE => by_type "memcmp_uge" "field_memcmp_uge"
  | ULT => by_type "memcmp_ult" "field_memcmp_ult"
  | ULE => by_type "memcmp_ule" "field_memcmp_ule"
  end.
(* [irgen/binary.rs | pub fn memcmp | memcmp] *)
Definition memcmp (left right len : LVal) (op : IntPredicate) (elem_ty : ty) : G LVal :=
  name ← lift (memcmp_name op elem_ty); v ← call_value name [left; right; len]; into_int_value v.
(* [irgen/binary.rs | pub fn range_check | range_check] *)
Definition range_check (value : LVal) : G unit :=
  if is_const value then mret tt else call_ "builtin_range_check" [value].

(** Several sources are copied one behind the other; the hash has four words. *)
(* [irgen/binary.rs | pub(crate) fn poseidon_hash | poseidon_hash] *)
Definition poseidon_hash (hash_src : list (LVal * LVal)) : G LVal :=
  '(src_ptr, src_len) ←
    (if (1 <? length hash_src)%nat then
       src_len ← foldG (λ n '(_, len), build_int_add n len) const_zero hash_src;
       heap_src_ptr ← heap_malloc src_len;
       _ ← foldG (λ dest '(v, len),
             p ← into_pointer_value v; _ ← memcpy p dest len; build_gep I64 dest [len]) heap_src_ptr hash_src;
       mret (heap_src_ptr, src_len)
     else
       '(p, n) ← get_some (head hash_src); p ← into_pointer_value p; mret (p, n));
  return_heap_ptr ← heap_malloc (const_int 4);
  _ ← call_ "poseidon_hash" [src_ptr; return_heap_ptr; src_len];
  mret return_heap_ptr.

(** * Loops

    The closure gives the body of the loop; it gets the loop variable, and
    the data, of which it returns the next value. *)

(* [irgen/binary.rs | pub(crate) fn emit_static_loop_with_int<F> | emit_static_loop_with_int] *)
Definition emit_static_loop_with_int (function : nat) (from to_ data_ref : LVal) (insert_body : LVal → LVal → G LVal)
    : G unit :=
  body ← append_basic_block function "body";
  done ← append_basic_block function "done";
  let loop_ty := lty_of from in
  index_alloca ← build_alloca function loop_ty;
  _ ← build_store index_alloca from;
  data ← build_alloca function (lty_of data_ref);
  _ ← build_store data data_ref;
  _ ← build_unconditional_branch body;
  _ ← position_at_end body;
  index_value ← build_load loop_ty index_alloca;
  index_value ← into_int_value index_value;
  data_val ← build_load (lty_of data_ref) data;
  data_val ← insert_body index_value data_val;
  _ ← build_store data data_val;
  next_index ← build_int_add index_value (const_int 1);
  _ ← build_store index_alloca next_index;
  comp ← build_int_compare ULT next_index to_;
  _ ← build_conditional_branch comp body done;
  position_at_end done.

(** The head of a loop that tests before its body; the loop variable, its
    cell, and the blocks of the condition and behind the loop. *)
(* [irgen/binary.rs | 628-653 | emit_loop_cond_first] *)
Definition loop_head (function : nat) (from to_ : LVal) : G (LVal * LVal * Block * Block) :=
  cond ← append_basic_block function "cond";
  body ← append_basic_block function "body";
  done ← append_basic_block function "done";
  let loop_ty := lty_of from in
  index_alloca ← build_alloca function loop_ty;
  _ ← build_store index_alloca from;
  _ ← build_unconditional_branch cond;
  _ ← position_at_end cond;
  index_value ← build_load loop_ty index_alloca;
  index_value ← into_int_value index_value;
  comp ← build_int_compare ULT index_value to_;
  _ ← build_conditional_branch comp body done;
  _ ← position_at_end body;
  mret (index_value, index_alloca, cond, done).
(* [irgen/binary.rs | 657-666 | emit_loop_cond_first] *)
Definition loop_tail (head : LVal * LVal * Block * Block) : G unit :=
  let '(index_value, index_alloca, cond, done) := head in
  next_index ← build_int_add index_value (const_int 1);
  _ ← build_store index_alloca next_index;
  _ ← build_unconditional_branch cond;
  position_at_end done.
(* [irgen/binary.rs | pub fn emit_loop_cond_first<F> | emit_loop_cond_first] *)
Definition emit_loop_cond_first (function : nat) (from to_ : LVal) (insert_body : LVal → G unit) : G unit :=
  h ← loop_head function from to_;
  _ ← insert_body h.1.1.1;
  loop_tail h.
(** The cell of the data is made between the cell of the loop variable and the
    jump to the condition. *)
(* [irgen/binary.rs | pub fn emit_loop_cond_first_with_int<F> | emit_loop_cond_first_with_int] *)
Definition emit_loop_cond_first_with_int (function : nat) (from to_ data_ref : LVal)
    (insert_body : LVal → LVal → G LVal) : G unit :=
  cond ← append_basic_block function "cond";
  body ← append_basic_block function "body";
  done ← append_basic_block function "done";
  let loop_ty := lty_of from in
  index_alloca ← build_alloca function loop_ty;
  _ ← build_store index_alloca from;
  data ← build_alloca function (lty_of data_ref);
  _ ← build_store data data_ref;
  _ ← build_unconditional_branch cond;
  _ ← position_at_end cond;
  index_value ← build_load loop_ty index_alloca;
  index_value ← into_int_value index_value;
  comp ← build_int_compare ULT index_value to_;
  _ ← build_conditional_branch comp body done;
  _ ← position_at_end body;
  data_val ← build_load (lty_of data_ref) data;
  data_val ← insert_body index_value data_val;
  _ ← build_store data data_val;
  loop_tail (index_value, index_alloca, cond, done).

(** * Arrays *)

Section Arrays.
Context (ns : Namespace) (fuel : nat).
(** The value a variable of the type starts with (statements.rs). *)
Context (default_value : nat → ty → G (option LVal)).

(* [irgen/binary.rs | pub fn vector_zero_init | vector_zero_init] *)
Definition vector_zero_init (function : nat) (t : ty) (from to_ data_ref : LVal) : G unit :=
  emit_loop_cond_first function from to_ (λ index_value,
    l ← lift (llvm_var_ty ns fuel t);
    index_access ← build_gep l data_ref [index_value];
    e ← lift (elem_ty t);
    d ← default_value function e; d ← get_some d;
    build_store index_access d).

(* [irgen/binary.rs | pub(crate) fn alloca_dynamic_array | alloca_dynamic_array] *)
Definition alloca_dynamic_array (function : nat) (t : ty) (size : LVal) (init : option (list Z)) (zero_init : bool) : G LVal :=
  heap_start_ptr ← vector_new size;
  _ ← match init with
      | None =>
          if zero_init then data ← vector_data heap_start_ptr; vector_zero_init function t const_zero size data
          else mret tt
      | Some init =>
          data ← vector_data heap_start_ptr;
          eachG (λ '(i, item),
            index_access ← build_gep I64 data [const_int (Z.of_nat i)];
            build_store index_access (const_int item)) (imap pair init)
      end;
  mret heap_start_ptr.

(* [irgen/binary.rs | pub(crate) fn array_subscript | array_subscript] *)
Definition array_subscript (array_ty : ty) (array index : LVal) : G LVal :=
  let in_vector :=
    e ← lift (array_deref array_ty); l ← lift (llvm_var_ty ns fuel e);
    vector_ptr ← vector_data array; build_gep l vector_ptr [index] in
  match array_ty with
  | Ty.Array _ dim =>
      match last dim with
      | Some (Fixed _) =>
          l ← lift (llvm_type ns fuel array_ty);
          p ← into_pointer_value array; build_gep l p [const_zero; index]
      | _ => in_vector
      end
  | Ty.String_ | Ty.DynamicBytes => in_vector
  | _ => panic
  end.
End Arrays.
End Build.
End GenBinary.
