(* ===== verification/GenCore.v ===== *)
(** The library functions in LLVM IR (src/src/irgen/corelib.rs): the
    declarations of the prophets and builtins of the machine, and the bodies of
    the allocation, copying, comparison and arithmetic functions. *)
From S2P Require Import Prelude BigIntSpec Ast Types Llvm GenBinary.
#[local] Open Scope Z_scope.

Module GenCore.
Import Llvm GenBinary.

(* [irgen/corelib.rs | pub const TWO_POWER | TWO_POWER] *)
Definition TWO_POWER : Z := 2 ^ 32 - 1 + 1.

(* [irgen/corelib.rs | 9-26 | PROPHET_FUNCTIONS] *)
Definition PROPHET_FUNCTIONS : list string :=
  ["prophet_u32_sqrt"; "prophet_u32_div"; "prophet_u32_mod"; "prophet_u32_array_sort"; "prophet_split_field_high";
   "prophet_split_field_low"; "get_context_data"; "get_tape_data"; "set_tape_data"; "get_storage"; "set_storage";
   "poseidon_hash"; "contract_call"; "prophet_printf"].
(* [irgen/corelib.rs | 28-34 | BUILTIN_FUNCTIONS] *)
Definition BUILTIN_FUNCTIONS : list string := ["builtin_assert"; "builtin_range_check"; "builtin_check_ecdsa"].
(* [irgen/corelib.rs | 36-55 | CORE_LIB_FUNCTIONS] *)
Definition CORE_LIB_FUNCTIONS : list string :=
  ["heap_malloc"; "vector_new"; "split_field"; "memcpy"; "memcmp_eq"; "memcmp_ne"; "memcmp_ugt"; "memcmp_uge";
   "memcmp_ult"; "memcmp_ule"; "field_memcmp_ugt"; "field_memcmp_uge"; "field_memcmp_ule"; "field_memcmp_ult";
   "u32_div_mod"; "u32_power"].

(** The parameters and the result of a prophet. *)
(* [irgen/corelib.rs | 103-203 | declare_prophets] *)
Definition prophet_type (p : string) : option (list LTy * LTy) :=
  if decide (p = "prophet_u32_sqrt") then Some ([I64], I64)
  else if decide (p = "prophet_u32_div") then Some ([I64; I64], I64)
  else if decide (p = "prophet_u32_mod") then Some ([I64; I64], I64)
  else if decide (p = "prophet_split_field_low") then Some ([I64], I64)
  else if decide (p = "prophet_split_field_high") then Some ([I64], I64)
  else if decide (p = "get_context_data") then Some ([LPtr; I64], LVoid)
  else if decide (p = "get_tape_data") then Some ([LPtr; I64], LVoid)
  else if decide (p = "set_tape_data") then Some ([LPtr; I64], LVoid)
  else if decide (p = "prophet_u32_array_sort") then Some ([LPtr; I64], LPtr)
  else if decide (p = "get_storage") then Some ([LPtr; LPtr], LVoid)
  else if decide (p = "set_storage") then Some ([LPtr; LPtr], LVoid)
  else if decide (p = "poseidon_hash") then Some ([LPtr; LPtr; I64], LVoid)
  else if decide (p = "contract_call") then Some ([LPtr; I64], LVoid)
  else if decide (p = "prophet_printf") then Some ([I64; I64], LVoid)
  else None.
(* [irgen/corelib.rs | 209-229 | declare_builtins] *)
Definition builtin_type (p : string) : option (list LTy * LTy) :=
  if decide (p = "builtin_assert") then Some ([I64], LVoid)
  else if decide (p = "builtin_range_check") then Some ([I64], LVoid)
  else if decide (p = "builtin_check_ecdsa") then Some ([LPtr], I64)
  else None.

Section Core.
Context {IK : Inkwell}.

Definition declare (types : string → option (list LTy * LTy)) (p : string) : G unit :=
  match types p with Some (params, ret) => _ ← add_function p params ret; mret tt | None => mret tt end.
(* [irgen/corelib.rs | fn declare_prophets | declare_prophets] *)
Definition declare_prophets : G unit := eachG (declare prophet_type) PROPHET_FUNCTIONS.
(* [irgen/corelib.rs | fn declare_builtins | declare_builtins] *)
Definition declare_builtins : G unit := eachG (declare builtin_type) BUILTIN_FUNCTIONS.

(** * Parts of the bodies *)

Definition enter (function : nat) : G unit := b ← append_basic_block function "entry"; position_at_end b.
Definition param (function i : nat) : G LVal := p ← get_nth_param function i; get_some p.
Definition int_param (function i : nat) : G LVal := p ← param function i; into_int_value p.
Definition ptr_param (function i : nat) : G LVal := p ← param function i; into_pointer_value p.
(** A call of [builtin_assert] on a truth value. *)
Definition assert_that (equal : LVal) : G unit := e ← build_int_z_extend equal I64; call_ "builtin_assert" [e].
(** [build_call(.., "builtin_range_check")] without a look at the value *)
Definition check_range (v : LVal) : G unit := call_ "builtin_range_check" [v].

(** * Arithmetic *)

(* [irgen/corelib.rs | fn define_u32_sqrt | define_u32_sqrt] *)
Definition define_u32_sqrt (function : nat) : G unit :=
  _ ← enter function;
  value ← param function 0;
  root ← call_value "prophet_u32_sqrt" [value];
  root_int ← into_int_value root;
  _ ← range_check root_int;
  root_squared ← build_int_mul root_int root_int;
  v ← into_int_value value;
  equal ← build_int_compare EQ root_squared v;
  _ ← assert_that equal;
  build_return (Some root).

(* [irgen/corelib.rs | fn define_u32_div_mod | define_u32_div_mod] *)
Definition define_u32_div_mod (function : nat) : G unit :=
  _ ← enter function;
  dividend ← param function 0;
  divisor ← param function 1;
  quotient ← ptr_param function 2;
  remainder ← ptr_param function 3;
  remainder_ret ← call_value "prophet_u32_mod" [dividend; divisor];
  _ ← check_range remainder_ret;
  d ← into_int_value divisor;
  r ← into_int_value remainder_ret;
  r1 ← build_int_add r (const_int 1);
  right_minus_remainder_minus_one ← build_int_sub d r1;
  _ ← check_range right_minus_remainder_minus_one;
  quotient_ret ← call_value "prophet_u32_div" [dividend; divisor];
  _ ← check_range quotient;
  q ← into_int_value quotient_ret;
  product ← build_int_mul q d;
  sum ← build_int_add product r;
  n ← into_int_value dividend;
  equal ← build_int_compare EQ sum n;
  _ ← assert_that equal;
  _ ← build_store quotient quotient_ret;
  _ ← build_store remainder remainder_ret;
  build_return None.

(* [irgen/corelib.rs | fn define_u32_power | define_u32_power] *)
Definition define_u32_power (function : nat) : G unit :=
  _ ← enter function;
  loop_block ← append_basic_block function "loop";
  exit_block ← append_basic_block function "exit";
  base ← int_param function 0;
  exponent ← int_param function 1;
  _ ← build_unconditional_branch loop_block;
  _ ← position_at_end loop_block;
  counter_phi ← build_phi I64;
  entry ← get_first_basic_block function; entry ← get_some entry;
  _ ← add_incoming counter_phi [(const_zero, entry)];
  result_phi ← build_phi I64;
  entry ← get_first_basic_block function; entry ← get_some entry;
  _ ← add_incoming result_phi [(const_int 1, entry)];
  let counter_val := VInst counter_phi I64 in
  let result_val := VInst result_phi I64 in
  new_counter ← build_int_add counter_val (const_int 1);
  new_result ← build_int_mul result_val base;
  cond ← build_int_compare ULE new_counter exponent;
  _ ← build_conditional_branch cond loop_block exit_block;
  _ ← add_incoming counter_phi [(new_counter, loop_block)];
  _ ← add_incoming result_phi [(new_result, loop_block)];
  _ ← position_at_end exit_block;
  _ ← check_range result_val;
  build_return (Some result_val).

(* [irgen/corelib.rs | fn define_split_field | define_split_field] *)
Definition define_split_field (function : nat) : G unit :=
  _ ← enter function;
  field_input ← param function 0;
  high_output ← param function 1;
  low_output ← param function 2;
  field_high ← call_value "prophet_split_field_high" [field_input];
  _ ← check_range field_high;
  field_low ← call_value "prophet_split_field_low" [field_input];
  _ ← check_range field_low;
  h ← into_int_value field_high;
  high_value ← build_int_mul h (const_int TWO_POWER);
  l ← into_int_value field_low;
  result ← build_int_add high_value l;
  f ← into_int_value field_input;
  equal ← build_int_compare EQ f result;
  _ ← assert_that equal;
  high ← into_pointer_value high_output;
  _ ← build_store high field_high;
  low ← into_pointer_value low_output;
  _ ← build_store low field_low;
  build_return None.

(** * The heap *)

(* [irgen/corelib.rs | fn define_heap_malloc | define_heap_malloc] *)
Definition define_heap_malloc (function : nat) : G unit :=
  _ ← enter function;
  size ← int_param function 0;
  current_heap_address ← build_load I64 heap_address;
  current_heap_address ← into_int_value current_heap_address;
  updated_address ← build_int_add current_heap_address size;
  _ ← build_store heap_address updated_address;
  current_heap_address ← build_int_to_ptr current_heap_address;
  build_return (Some current_heap_address).

(* [irgen/corelib.rs | fn define_vector_new | define_vector_new] *)
Definition define_vector_new (function : nat) : G unit :=
  _ ← enter function;
  size ← int_param function 0;
  size_add_one ← build_int_add size (const_int 1);
  current_heap_address ← build_load I64 heap_address;
  current_heap_address ← into_int_value current_heap_address;
  updated_address ← build_int_add current_heap_address size_add_one;
  _ ← build_store heap_address updated_address;
  current_heap_address ← build_int_to_ptr current_heap_address;
  _ ← build_store current_heap_address size;
  build_return (Some current_heap_address).

(* [irgen/corelib.rs | fn define_memcpy | define_memcpy] *)
Definition define_memcpy (function : nat) : G unit :=
  _ ← enter function;
  src_ptr ← ptr_param function 0;
  dest_ptr ← ptr_param function 1;
  len ← int_param function 2;
  cond ← append_basic_block function "cond";
  body ← append_basic_block function "body";
  done ← append_basic_block function "done";
  index_alloca ← build_alloca function I64;
  _ ← build_store index_alloca const_zero;
  _ ← build_unconditional_branch cond;
  _ ← position_at_end cond;
  index_value ← build_load I64 index_alloca; index_value ← into_int_value index_value;
  comp ← build_int_compare ULT index_value len;
  _ ← build_conditional_branch comp body done;
  _ ← position_at_end body;
  src_access ← build_gep I64 src_ptr [index_value];
  src_value ← build_load I64 src_access;
  dest_access ← build_gep I64 dest_ptr [index_value];
  _ ← build_store dest_access src_value;
  next_index ← build_int_add index_value (const_int 1);
  _ ← build_store index_alloca next_index;
  _ ← build_unconditional_branch cond;
  _ ← position_at_end done;
  build_return None.

(* [irgen/corelib.rs | fn define_fields_concat | define_fields_concat] *)
Definition define_fields_concat (function : nat) : G unit :=
  _ ← enter function;
  left_value ← param function 0;
  right_value ← param function 1;
  left_len ← vector_len left_value;
  left_data ← vector_data right_value;
  right_len ← vector_len left_value;
  right_data ← vector_data right_value;
  new_len ← build_int_add left_len right_len;
  dest_fields ← vector_new new_len;
  new_fields_data ← vector_data dest_fields;
  _ ← memcpy left_data new_fields_data left_len;
  new_fields_data ← build_gep LPtr new_fields_data [left_len];
  _ ← memcpy right_data new_fields_data right_len;
  build_return (Some dest_fields).

(** The message, the key and the signature, copied into one region. *)
(* [irgen/corelib.rs | fn define_check_ecdsa | define_check_ecdsa] *)
Definition define_check_ecdsa (function : nat) : G unit :=
  _ ← enter function;
  msg ← ptr_param function 0;
  pubkey ← ptr_param function 1;
  sig ← ptr_param function 2;
  dest_origin ← heap_malloc (const_int 20);
  _ ← memcpy msg dest_origin (const_int 4);
  dest ← build_gep LPtr dest_origin [const_int 4];
  pubkey_data ← vector_data pubkey;
  _ ← memcpy pubkey_data dest (const_int 8);
  dest ← build_gep LPtr dest [const_int 8];
  sig_data ← vector_data sig;
  _ ← memcpy sig_data dest (const_int 8);
  result ← call_value "builtin_check_ecdsa" [dest_origin];
  build_return (Some result).

(** * Comparisons of memory *)

(** The loop of the comparisons: the loop variable in its cell, the two
    elements, and the blocks; the builder is in the body, behind the step of
    the loop variable. *)
Record Compare := mkCompare { c_cond : Block; c_body : Block; c_done : Block; c_left : LVal; c_right : LVal }.
(* [irgen/corelib.rs | 790-842 | define_mem_compare] *)
Definition compare_loop (function : nat) (left_ptr right_ptr len : LVal) : G Compare :=
  index_alloca ← build_alloca function I64;
  _ ← build_store index_alloca const_zero;
  cond ← append_basic_block function "cond";
  _ ← build_unconditional_branch cond;
  _ ← position_at_end cond;
  index_value ← build_load I64 index_alloca; index_value ← into_int_value index_value;
  loop_check ← build_int_compare ULT index_value len;
  body ← append_basic_block function "body";
  done ← append_basic_block function "done";
  _ ← build_conditional_branch loop_check body done;
  _ ← position_at_end body;
  left_elem_ptr ← build_gep I64 left_ptr [index_value];
  left_elem ← build_load I64 left_elem_ptr; left_elem ← into_int_value left_elem;
  right_elem_ptr ← build_gep I64 right_ptr [index_value];
  right_elem ← build_load I64 right_elem_ptr; right_elem ← into_int_value right_elem;
  next_index ← build_int_add index_value (const_int 1);
  _ ← build_store index_alloca next_index;
  mret (mkCompare cond body done left_elem right_elem).
(** The loop goes on while a test of the two elements holds; what the result
    is when the loop is over, and when the test fails. *)
Definition while_test (c : Compare) (op : IntPredicate) (l r : LVal) (over failed : Z) (failed_first : bool) : G nat :=
  compare ← build_int_compare op l r;
  _ ← build_conditional_branch compare (c_cond c) (c_done c);
  _ ← position_at_end (c_done c);
  phi_node ← build_phi I64;
  let o := (const_int over, c_cond c) in let f := (const_int failed, c_body c) in
  _ ← add_incoming phi_node (if failed_first then [f; o] else [o; f]);
  mret phi_node.
(* [irgen/corelib.rs | fn define_mem_compare | define_mem_compare] *)
Definition define_mem_compare (function : nat) (op : IntPredicate) : G unit :=
  _ ← enter function;
  left_ptr ← ptr_param function 0;
  right_ptr ← ptr_param function 1;
  len ← int_param function 2;
  c ← compare_loop function left_ptr right_ptr len;
  phi_node ←
    match op with
    | EQ | UGE => while_test c op (c_left c) (c_right c) 1 0 false
    | NE => while_test c EQ (c_left c) (c_right c) 0 1 true
    | UGT => while_test c UGE (c_right c) (c_left c) 0 1 true
    | ULT => while_test c UGE (c_left c) (c_right c) 0 1 true
    | ULE => while_test c UGE (c_right c) (c_left c) 1 0 false
    end;
  build_return (Some (VInst phi_node I64)).

(** The two halves of an element, by a call of [split_field]. *)
(* [irgen/corelib.rs | 960-978 | define_field_mem_compare] *)
Definition halves (function : nat) (elem : LVal) : G (LVal * LVal) :=
  high ← build_alloca function I64;
  low ← build_alloca function I64;
  _ ← call_ "split_field" [elem; high; low];
  high ← build_load I64 high; high ← into_int_value high;
  low ← build_load I64 low; low ← into_int_value low;
  mret (high, low).
(** Both halves are tested; the first test leads to the second. *)
Definition while_tests (cond body low_compare_block done : Block) (op : IntPredicate) (high low : LVal * LVal)
    (over failed : Z) (failed_first : bool) : G nat :=
  compare_high ← build_int_compare op high.1 high.2;
  _ ← build_conditional_branch compare_high low_compare_block done;
  _ ← position_at_end low_compare_block;
  compare_low ← build_int_compare op low.1 low.2;
  _ ← build_conditional_branch compare_low cond done;
  _ ← position_at_end done;
  phi_node ← build_phi I64;
  let o := [(const_int over, cond)] in
  let f := [(const_int failed, body); (const_int failed, low_compare_block)] in
  _ ← add_incoming phi_node (if failed_first then f ++ o else o ++ f);
  mret phi_node.
(* [irgen/corelib.rs | fn define_field_mem_compare | define_field_mem_compare] *)
Definition define_field_mem_compare (function : nat) (op : IntPredicate) : G unit :=
  _ ← enter function;
  left_ptr ← param function 0;
  right_ptr ← param function 1;
  len ← param function 2;
  index_alloca ← build_alloca function I64;
  _ ← build_store index_alloca const_zero;
  cond ← append_basic_block function "cond";
  _ ← build_unconditional_branch cond;
  _ ← position_at_end cond;
  index_value ← build_load I64 index_alloca; index_value ← into_int_value index_value;
  len ← into_int_value len;
  loop_check ← build_int_compare ULT index_value len;
  body ← append_basic_block function "body";
  low_compare_block ← append_basic_block function "low_compare_block";
  done ← append_basic_block function "done";
  _ ← build_conditional_branch loop_check body done;
  _ ← position_at_end body;
  left_ptr ← into_pointer_value left_ptr;
  left_elem_ptr ← build_gep I64 left_ptr [index_value];
  left_elem ← build_load I64 left_elem_ptr; left_elem ← into_int_value left_elem;
  right_ptr ← into_pointer_value right_ptr;
  right_elem_ptr ← build_gep I64 right_ptr [index_value];
  right_elem ← build_load I64 right_elem_ptr; right_elem ← into_int_value right_elem;
  '(left_high, left_low) ← halves function left_elem;
  '(right_high, right_low) ← halves function right_elem;
  next_index ← build_int_add index_value (const_int 1);
  _ ← build_store index_alloca next_index;
  let tests := while_tests cond body low_compare_block done UGE in
  phi_node ←
    match op with
    | UGE => tests (left_high, right_high) (left_low, right_low) 1 0 false
    | UGT => tests (right_high, left_high) (right_low, left_low) 0 1 true
    | ULT => tests (left_high, right_high) (left_low, right_low) 0 1 true
    | ULE => tests (right_high, left_high) (right_low, left_low) 1 0 false
    | _ => panic
    end;
  build_return (Some (VInst phi_node I64)).

(** * The module *)

(* [irgen/corelib.rs | 234-311 | define_core_lib] *)
Definition core_type (p : string) : option (list LTy * LTy) :=
  if decide (p = "heap_malloc") then Some ([I64], LPtr)
  else if decide (p = "vector_new") then Some ([I64], LPtr)
  else if decide (p = "memcpy") then Some ([LPtr; LPtr; I64], LVoid)
  else if decide (p = "split_field") then Some ([I64; LPtr; LPtr], LVoid)
  else if decide (p ∈ ["memcmp_eq"; "memcmp_ne"; "memcmp_ugt"; "memcmp_uge"; "memcmp_ult"; "memcmp_ule";
                       "field_memcmp_ugt"; "field_memcmp_uge"; "field_memcmp_ult"; "field_memcmp_ule"])
  then Some ([LPtr; LPtr; I64], I64)
  else if decide (p = "u32_div_mod") then Some ([I64; I64; LPtr; LPtr], LVoid)
  else if decide (p = "u32_power") then Some ([I64; I64], I64)
  else None.
(* [irgen/corelib.rs | 234-311 | define_core_lib] *)
Definition core_body (p : string) (func : nat) : G unit :=
  if decide (p = "heap_malloc") then define_heap_malloc func
  else if decide (p = "vector_new") then define_vector_new func
  else if decide (p = "memcpy") then define_memcpy func
  else if decide (p = "split_field") then define_split_field func
  else if decide (p = "memcmp_eq") then define_mem_compare func EQ
  else if decide (p = "memcmp_ne") then define_mem_compare func NE
  else if decide (p = "memcmp_ugt") then define_mem_compare func UGT
  else if decide (p = "memcmp_uge") then define_mem_compare func UGE
  else if decide (p = "memcmp_ult") then define_mem_compare func ULT
  else if decide (p = "memcmp_ule") then define_mem_compare func ULE
  else if decide (p = "field_memcmp_ugt") then define_field_mem_compare func UGT
  else if decide (p = "field_memcmp_uge") then define_field_mem_compare func UGE
  else if decide (p = "field_memcmp_ult") then define_field_mem_compare func ULT
  else if decide (p = "field_memcmp_ule") then define_field_mem_compare func ULE
  else if decide (p = "u32_div_mod") then define_u32_div_mod func
  else if decide (p = "u32_power") then define_u32_power func
  else panic.
(* [irgen/corelib.rs | fn define_core_lib | define_core_lib] *)
Definition define_core_lib : G unit :=
  eachG (λ p,
    match core_type p with
    | Some (params, ret) => func ← add_function p params ret; core_body p func
    | None => mret tt
    end) CORE_LIB_FUNCTIONS.

(** The functions of the library that the program calls. *)
(* [irgen/corelib.rs | 71-98 | gen_lib_functions] *)
Definition gen_called (p : string) : G unit :=
  f ← get_function p;
  match f with
  | Some _ => mret tt
  | None =>
      if decide (p = "u32_sqrt") then func ← add_function p [I64] I64; define_u32_sqrt func
      else if decide (p = "fields_concat") then func ← add_function p [LPtr; LPtr] LPtr; define_fields_concat func
      else if decide (p = "check_ecdsa") then func ← add_function p [LPtr; LPtr; LPtr] I64; define_check_ecdsa func
      else mret tt
  end.
(* [irgen/corelib.rs | pub fn gen_lib_functions | gen_lib_functions] *)
Definition gen_lib_functions (ns : Namespace) : G unit :=
  _ ← declare_builtins;
  _ ← declare_prophets;
  _ ← define_core_lib;
  eachG gen_called (called_lib_functions ns).
End Core.
End GenCore.
