(* ===== verification/LlvmSem.v ===== *)
(** The meaning of the LLVM IR of Llvm.v on the Ola machine: words are field
    elements, memory is word-addressed, and the builtins abort the run. *)
From S2P Require Import Prelude BigIntSpec Ast Types Eval Llvm GenBinary.
#[local] Open Scope Z_scope.

Module LlvmSem.
Import Llvm.

(** A run gives a result, is aborted by a check of a builtin, has no meaning,
    or is not finished with the fuel. *)
Inductive outcome (A : Type) : Type := Done (a : A) | Aborted | Stuck | NoFuel.
Arguments Done {_} _. Arguments Aborted {_}. Arguments Stuck {_}. Arguments NoFuel {_}.
#[export] Instance outcome_ret : MRet outcome := λ A a, Done a.
#[export] Instance outcome_bind : MBind outcome := λ A B f m,
  match m with Done a => f a | Aborted => Aborted | Stuck => Stuck | NoFuel => NoFuel end.
Definition defined {A} (o : option A) : outcome A := match o with Some a => Done a | None => Stuck end.

(** The memory, and the first free word of the stack. *)
Record mstate := mkState { mem : gmap Z Z; sp : Z }.
Definition with_mem (m : gmap Z Z) (s : mstate) : mstate := mkState m (sp s).
Definition with_sp (p : Z) (s : mstate) : mstate := mkState (mem s) p.

(** The results of the instructions of a call. *)
Definition env := nat → option Z.
Definition no_results : env := λ _, None.
Definition set_result (i : nat) (v : Z) (e : env) : env := λ j, if (j =? i)%nat then Some v else e j.

Definition fadd (x y : Z) : Z := (x + y) mod FIELD_ORDER.
Definition fsub (x y : Z) : Z := (x - y) mod FIELD_ORDER.
Definition fmul (x y : Z) : Z := (x * y) mod FIELD_ORDER.
Definition bin (op : BinOp) (x y : Z) : Z :=
  match op with
  | BAdd => fadd x y | BSub => fsub x y | BMul => fmul x y
  | BAnd => Z.land x y | BOr => Z.lor x y | BXor => Z.lxor x y
  end.
Definition holds (p : IntPredicate) (x y : Z) : bool :=
  match p with
  | EQ => x =? y | NE => negb (x =? y) | UGT => y <? x | UGE => y <=? x | ULT => x <? y | ULE => x <=? y
  end.

(** The words of a type. *)
Fixpoint words (t : LTy) : Z :=
  match t with
  | LInt _ | LPtr => 1 | LVoid => 0 | LArray n t => n * words t | LStruct ts => zsum (map words ts)
  end.
(** The offset of an element: the first index counts values of the type, the
    others go into arrays. *)
Fixpoint inside (t : LTy) (idx : list Z) : option Z :=
  match idx with
  | [] => Some 0
  | i :: idx => match t with LArray _ t => o ← inside t idx; Some (i * words t + o) | _ => None end
  end.
Definition gep_offset (t : LTy) (idx : list Z) : option Z :=
  match idx with [] => None | i :: idx => o ← inside t idx; Some (i * words t + o) end.

Inductive next := Jump (b : nat) | Return (v : option Z).

Section Run.
(** Where the globals are, what the functions without a body do, and the
    functions of the module. *)
Context (global : string → Z).
Context (external : string → list Z → mstate → outcome (option Z * mstate)).
Context (m : list LFun).

Definition value (args : list Z) (e : env) (v : LVal) : outcome Z :=
  match v with
  | VConst _ n => Done (n mod FIELD_ORDER)
  | VNull => Done 0
  | VGlobal name => Done (global name)
  | VParam i _ => defined (args !! i)
  | VInst i _ => defined (e i)
  end.
Fixpoint values (args : list Z) (e : env) (l : list LVal) : outcome (list Z) :=
  match l with [] => Done [] | v :: l => x ← value args e v; r ← values args e l; Done (x :: r) end.

(** What an instruction computes without memory or calls. *)
Definition compute (args : list Z) (e : env) (i : LInst) : option (outcome Z) :=
  match i with
  | IBin op a b => Some (x ← value args e a; y ← value args e b; Done (bin op x y))
  | ICmp p a b => Some (x ← value args e a; y ← value args e b; Done (Z.b2z (holds p x y)))
  | IZExt a _ | IPtrToInt a _ | IIntToPtr a => Some (value args e a)
  | ITrunc a _ => Some (x ← value args e a; Done (x mod 2))
  | IGep t p idx =>
      Some (x ← value args e p; l ← values args e idx; o ← defined (gep_offset t l); Done (fadd x o))
  | IStructGep (LStruct ts) p i => Some (x ← value args e p; Done (fadd x (zsum (map words (take i ts)))))
  | _ => None
  end.

Definition case_value (v : LVal) : option Z := match v with VConst _ n => Some (n mod FIELD_ORDER) | _ => None end.

Section Body.
Context (call : string → list Z → mstate → outcome (option Z * mstate)).
Context (args : list Z).
Fixpoint exec (l : list (nat * LInst)) (e : env) (s : mstate) : outcome (next * env * mstate) :=
  match l with
  | [] => Stuck
  | (id, i) :: l =>
      match compute args e i with
      | Some v => v ← v; exec l (set_result id v e) s
      | None =>
          match i with
          | IPhi _ _ => exec l e s
          | IAlloca t => exec l (set_result id (sp s) e) (with_sp (sp s + words t) s)
          | ILoad _ p => a ← value args e p; v ← defined (mem s !! a); exec l (set_result id v e) s
          | IStore p v => a ← value args e p; v ← value args e v; exec l e (with_mem (<[a := v]> (mem s)) s)
          | ICall f vs =>
              xs ← values args e vs;
              r ← call f xs s;
              exec l (match r.1 with Some v => set_result id v e | None => e end) r.2
          | IBr b => Done (Jump b.2, e, s)
          | ICondBr c yes no =>
              x ← value args e c; Done (Jump (if x =? 0 then no.2 else yes.2), e, s)
          | ISwitch v d cases =>
              x ← value args e v;
              Done (Jump (from_option (λ c, c.2.2) d.2
                (snd <$> list_find (λ c, case_value c.1 = Some x) cases)), e, s)
          | IRet None => Done (Return None, e, s)
          | IRet (Some v) => x ← value args e v; Done (Return (Some x), e, s)
          | _ => Stuck
          end
      end
  end.
Fixpoint from_block (prev : nat) (l : list (LVal * Block)) : option LVal :=
  match l with [] => None | (v, b) :: l => if (b.2 =? prev)%nat then Some v else from_block prev l end.
(** The phis of a block, for the block that control comes from. *)
Fixpoint enter_phis (prev : nat) (l : list (nat * LInst)) (e e' : env) : outcome env :=
  match l with
  | (id, IPhi _ incoming) :: l =>
      v ← defined (from_block prev incoming); v ← value args e v;
      enter_phis prev l e (set_result id v e')
  | _ => Done e'
  end.
End Body.

Definition find_fun (name : string) : option LFun := snd <$> list_find (λ f, fn_name f = name) m.

(** A call, with the way to run a body. *)
Definition call_with (body : LFun → list Z → mstate → outcome (option Z * mstate)) (name : string) (xs : list Z) (s : mstate)
    : outcome (option Z * mstate) :=
  if decide (name = "builtin_range_check") then
    match xs with [v] => if v <? 2 ^ 32 then Done (None, s) else Aborted | _ => Stuck end
  else if decide (name = "builtin_assert") then
    match xs with [v] => if v =? 1 then Done (None, s) else Aborted | _ => Stuck end
  else
    g ← defined (find_fun name);
    match fn_blocks g with
    | [] => external name xs s
    | _ => r ← body g xs s; Done (r.1, with_sp (sp s) r.2)
    end.
(** The blocks of a call, one after the other. *)
Fixpoint run (n : nat) (f : LFun) (args : list Z) (prev b : nat) (e : env) (s : mstate) : outcome (option Z * mstate) :=
  match n with O => NoFuel | S n =>
  bb ← defined (fn_blocks f !! b);
  e ← enter_phis args prev (b_insts bb) e e;
  '(next, e, s) ← exec (call_with (λ g xs s, run n g xs 0%nat 0%nat no_results s)) args (b_insts bb) e s;
  match next with Jump b' => run n f args b b' e s | Return v => Done (v, s) end
  end.
(** A call of a function of the module. *)
Definition call_fun (n : nat) (name : string) (args : list Z) (s : mstate) : outcome (option Z * mstate) :=
  call_with (λ g xs s, run n g xs 0%nat 0%nat no_results s) name args s.
End Run.
End LlvmSem.
