(* ===== verification/CoreFacts.v ===== *)
(** What the library functions in LLVM IR compute, for every answer of the
    prophets. *)
From S2P Require Import Prelude BigIntSpec Ast Types Eval Llvm GenBinary GenCore LlvmSem.
#[local] Open Scope Z_scope.

Module CoreFacts.
Import Llvm GenBinary GenCore LlvmSem.

Section Facts.
Context {IK : Inkwell}.

(** The program that calls every function of the library, and the functions of
    its module, computed by the generator. *)
Definition all_called : Namespace := set_called_lib_functions ["u32_sqrt"; "fields_concat"; "check_ecdsa"] empty_ns.
Definition library : list LFun :=
  Eval vm_compute in match gen_lib_functions all_called new with Ret (_, s) => funs s | _ => [] end.
Lemma library_generated : ∃ s, gen_lib_functions all_called new = Ret (tt, s) ∧ funs s = library.
Proof. eexists. split; vm_compute; reflexivity. Qed.

Context (global : string → Z).
Context (external : string → list Z → mstate → outcome (option Z * mstate)).
(** A module with the functions of the library. *)
Context (m : list LFun).
Context (Hlib : ∀ f, f ∈ library → find_fun m (fn_name f) = Some f).
#[local] Arguments fadd : simpl never.
#[local] Arguments fsub : simpl never.
#[local] Arguments fmul : simpl never.
#[local] Arguments Z.modulo : simpl never.
#[local] Arguments Z.ltb : simpl never.
#[local] Arguments Z.eqb : simpl never.
#[local] Arguments Z.leb : simpl never.
#[local] Arguments call_with : simpl never.
#[local] Arguments enter_phis : simpl nomatch.

Lemma one_mod : 1 mod FIELD_ORDER = 1. Proof. reflexivity. Qed.
Lemma zero_mod : 0 mod FIELD_ORDER = 0. Proof. reflexivity. Qed.
Lemma two32_mod : 4294967296 mod FIELD_ORDER = 2 ^ 32. Proof. reflexivity. Qed.

Lemma found name f : find_fun library name = Some f → find_fun m name = Some f.
Proof.
  unfold find_fun at 1. intros H. apply fmap_Some in H as ([i g] & Hf%list_find_Some & ->). destruct Hf as (Hl & Hn & _).
  cbn. rewrite <-Hn. apply Hlib. by eapply list_elem_of_lookup_2.
Qed.
#[local] Opaque library.


Section Calls.
Context (body : LFun → list Z → mstate → outcome (option Z * mstate)).
Abbreviation called := (call_with external m body).
Lemma call_range v s : called "builtin_range_check" [v] s = if v <? 2 ^ 32 then Done (None, s) else Aborted.
Proof. reflexivity. Qed.
Lemma call_assert v s : called "builtin_assert" [v] s = if v =? 1 then Done (None, s) else Aborted.
Proof. reflexivity. Qed.
Lemma call_declared name xs s f :
  find_fun library name = Some f → fn_blocks f = [] → name ≠ "builtin_range_check" → name ≠ "builtin_assert" →
  called name xs s = external name xs s.
Proof.
  intros Hf Hb H1 H2. unfold call_with. rewrite !decide_False by done. rewrite (found _ _ Hf). cbn. by rewrite Hb.
Qed.
Lemma call_defined name xs s f :
  find_fun library name = Some f → fn_blocks f ≠ [] → name ≠ "builtin_range_check" → name ≠ "builtin_assert" →
  called name xs s = (r ← body f xs s; Done (r.1, with_sp (sp s) r.2)).
Proof.
  intros Hf Hb H1 H2. unfold call_with. rewrite !decide_False by done. rewrite (found _ _ Hf). cbn. by destruct (fn_blocks f).
Qed.
End Calls.

(** What a prophet answers, without changing the memory. *)
Definition answers (name : string) (xs : list Z) (v : Z) : Prop := ∀ s, external name xs s = Done (Some v, s).

Definition bodies (n : nat) (g : LFun) (xs : list Z) (s : mstate) : outcome (option Z * mstate) :=
  run global external m n g xs 0%nat 0%nat no_results s.
Notation called n := (call_with external m (bodies n)).
(** A call runs the first block, a jump the block it leads to. *)
Lemma call_enters n name xs s f bb l :
  find_fun library name = Some f → fn_blocks f = bb :: l → name ≠ "builtin_range_check" → name ≠ "builtin_assert" →
  call_fun global external m (S n) name xs s =
    (r ← (e ← enter_phis global xs 0 (b_insts bb) no_results no_results;
          '(next, e, s) ← exec global (called n) xs (b_insts bb) e s;
          match next with Jump b' => run global external m n f xs 0 b' e s | Return v => Done (v, s) end);
     Done (r.1, with_sp (sp s) r.2)).
Proof.
  intros Hf Hb H1 H2. unfold call_fun. erewrite call_defined; [|done|by rewrite Hb|done..].
  cbn [run]. by rewrite Hb.
Qed.
Lemma b2z_one b : (Z.b2z b =? 1) = b. Proof. by destruct b. Qed.
Lemma b2z_zero b : (Z.b2z b =? 0) = negb b. Proof. by destruct b. Qed.
Lemma exec_cons call xs id i l e s :
  exec global call xs ((id, i) :: l) e s =
  match compute global xs e i with
  | Some v => v ← v; exec global call xs l (set_result id v e) s
  | None =>
      match i with
      | IPhi _ _ => exec global call xs l e s
      | IAlloca t => exec global call xs l (set_result id (sp s) e) (with_sp (sp s + words t) s)
      | ILoad _ p => a ← value global xs e p; v ← defined (mem s !! a); exec global call xs l (set_result id v e) s
      | IStore p v => a ← value global xs e p; v ← value global xs e v; exec global call xs l e (with_mem (<[a := v]> (mem s)) s)
      | ICall f vs =>
          ys ← values global xs e vs; r ← call f ys s;
          exec global call xs l (match r.1 with Some v => set_result id v e | None => e end) r.2
      | _ => exec global call xs ((id, i) :: l) e s
      end
  end.
Proof. destruct i; try reflexivity. by destruct t. Qed.

Ltac simp := cbn [bin holds compute value values defined mbind outcome_bind lookup list_lookup set_result Nat.eqb fst snd b_insts enter_phis from_block].
Ltac next := rewrite exec_cons; simp; rewrite ?zero_mod, ?one_mod, ?two32_mod.
Ltac ends := cbn [exec]; simp; rewrite ?b2z_zero; cbn [negb].
Ltac open n := erewrite (call_enters n) by (first [vm_compute; reflexivity|done]); simp.
Ltac prophet H := erewrite call_declared by (first [vm_compute; reflexivity|done]); rewrite H; simp.
Ltac check :=
  first [rewrite call_range|rewrite call_assert, b2z_one];
  match goal with |- context [mbind _ (if ?b then Done _ else Aborted)] => destruct b; simp; [|cbn [andb]; rewrite ?andb_false_r; reflexivity] end.


Lemma u32_div_mod_accepts n fuel d qp rp q r s :
  answers "prophet_u32_mod" [n; d] r → answers "prophet_u32_div" [n; d] q →
  call_fun global external m (S (S fuel)) "u32_div_mod" [n; d; qp; rp] s
  = if (r <? 2 ^ 32) && (fsub d (fadd r 1) <? 2 ^ 32) && (qp <? 2 ^ 32) && (fadd (fmul q d) r =? n)
    then Done (None, with_mem (<[rp := r]> (<[qp := q]> (mem s))) s) else Aborted.
Proof.
  intros Hr Hq. open (S fuel). next. prophet Hr. next. check. do 2 next. next. check. next. prophet Hq. next. check.
  do 5 next. check. do 2 next. ends. by destruct s.
Qed.

Lemma split_field_accepts v hp lp h l fuel s :
  answers "prophet_split_field_high" [v] h → answers "prophet_split_field_low" [v] l →
  call_fun global external m (S (S fuel)) "split_field" [v; hp; lp] s
  = if (h <? 2 ^ 32) && (l <? 2 ^ 32) && (v =? fadd (fmul h (2 ^ 32)) l)
    then Done (None, with_mem (<[lp := l]> (<[hp := h]> (mem s))) s) else Aborted.
Proof.
  intros Hh Hl. open (S fuel). next. prophet Hh. next. check. next. prophet Hl. next. check. do 5 next. check.
  do 2 next. ends. by destruct s.
Qed.

Lemma u32_sqrt_accepts v x fuel s :
  answers "prophet_u32_sqrt" [v] x →
  call_fun global external m (S (S fuel)) "u32_sqrt" [v] s
  = if (x <? 2 ^ 32) && (fmul x x =? v) then Done (Some x, s) else Aborted.
Proof.
  intros Hx. open (S fuel). next. prophet Hx. next. check. do 4 next. check. ends. by destruct s.
Qed.

(** ** The heap *)

Lemma heap_malloc_bumps size fuel s h :
  mem s !! global "heap_address" = Some h →
  call_fun global external m (S (S fuel)) "heap_malloc" [size] s
  = Done (Some h, with_mem (<[global "heap_address" := fadd h size]> (mem s)) s).
Proof.
  intros Hh. open (S fuel). next. rewrite Hh. simp. do 3 next. ends. by destruct s.
Qed.

Lemma vector_new_bumps size fuel s h :
  mem s !! global "heap_address" = Some h →
  call_fun global external m (S (S fuel)) "vector_new" [size] s
  = Done (Some h, with_mem (<[h := size]> (<[global "heap_address" := fadd h (fadd size 1)]> (mem s))) s).
Proof.
  intros Hh. open (S fuel). do 2 next. rewrite Hh. simp. do 4 next. ends. by destruct s.
Qed.

(** ** Powers *)

Definition power_ir : LFun := Eval vm_compute in default (mkFun "" [] LVoid []) (find_fun library "u32_power").

Lemma run_block n f xs prev b e s bb :
  fn_blocks f !! b = Some bb →
  run global external m (S n) f xs prev b e s =
    (e ← enter_phis global xs prev (b_insts bb) e e;
     '(next, e, s) ← exec global (called n) xs (b_insts bb) e s;
     match next with Jump b' => run global external m n f xs b b' e s | Return v => Done (v, s) end).
Proof. intros Hb. cbn [run]. by rewrite Hb. Qed.
Ltac block := erewrite run_block by reflexivity; simp.

Lemma power_loop b x k : ∀ n i v prev e s,
  i + Z.of_nat k = x → 0 ≤ i → x < 2 ^ 32 → v = b ^ i mod FIELD_ORDER → (k + 2 ≤ n)%nat →
  enter_phis global [b; x] prev (b_insts (default (mkBlock "" []) (fn_blocks power_ir !! 1%nat))) e e
    = Done (set_result 263 v (set_result 262 i e)) →
  run global external m n power_ir [b; x] prev 1 e s
  = if b ^ x mod FIELD_ORDER <? 2 ^ 32 then Done (Some (b ^ x mod FIELD_ORDER), s) else Aborted.
Proof.
  induction k as [|k IH]; intros n i v prev e s Hi Hi0 Hx -> Hn He; (destruct n as [|n]; [lia|]).
  all: erewrite run_block by reflexivity; cbn in He; cbn [b_insts]; rewrite He; simp; do 5 next.
  all: assert (Hadd : fadd i 1 = i + 1) by (unfold fadd, FIELD_ORDER; rewrite Z.mod_small; lia); rewrite Hadd.
  - rewrite (proj2 (Z.leb_gt (i + 1) x)) by lia. ends. destruct n as [|n]; [lia|]. block. next.
    replace i with x by lia. check. ends. done.
  - rewrite (proj2 (Z.leb_le (i + 1) x)) by lia. ends.
    apply (IH n (i + 1) (fmul (b ^ i mod FIELD_ORDER) b) 1%nat); [lia..| |lia|reflexivity].
    unfold fmul. rewrite Z.pow_add_r, Z.pow_1_r by lia. rewrite Zmult_mod_idemp_l. done.
Qed.

(** C19: For an exponent of 32 bits the loop of the power function comes to an
    end and returns the power of the base in the field when that has 32 bits,
    and is aborted when it has not. *)
Theorem u32_power_correct b x fuel s :
  0 ≤ x < 2 ^ 32 → (Z.to_nat x + 5 ≤ fuel)%nat →
  call_fun global external m fuel "u32_power" [b; x] s
  = if b ^ x mod FIELD_ORDER <? 2 ^ 32 then Done (Some (b ^ x mod FIELD_ORDER), s) else Aborted.
Proof.
  intros Hx Hf. destruct fuel as [|[|n]]; [lia..|]. open (S n). ends.
  rewrite (power_loop b x (Z.to_nat x) _ 0 1) by (try reflexivity; lia).
  destruct (_ <? _); [|done]. by destruct s.
Qed.

(** ** Copying *)

Definition memcpy_ir : LFun := Eval vm_compute in default (mkFun "" [] LVoid []) (find_fun library "memcpy").

Lemma word_address a i : 0 ≤ a → 0 ≤ i → a + i < FIELD_ORDER → fadd a (i * 1 + 0) = a + i.
Proof. intros. unfold fadd. rewrite Z.mod_small; lia. Qed.
Ltac gep_simp := cbn [gep_offset inside words]; simp; cbn [mbind option_bind]; simp.

Lemma memcpy_loop src dst len a (m0 : gmap Z Z) k : ∀ n i prev e s,
  i + Z.of_nat k = len → 0 ≤ i → 0 ≤ src → src + len < FIELD_ORDER → 0 ≤ dst → dst + len < FIELD_ORDER → len < FIELD_ORDER - 1 →
  (∀ j, 0 ≤ j < len → is_Some (m0 !! (src + j))) →
  ¬ (src ≤ a < src + len) → ¬ (dst ≤ a < dst + len) → ¬ (src < dst < src + len) →
  e 24%nat = Some a → mem s !! a = Some i →
  (∀ y, y ≠ a → mem s !! y = if decide (dst ≤ y < dst + i) then m0 !! (src + (y - dst)) else m0 !! y) →
  (2 * k + 2 ≤ n)%nat →
  ∃ m1, run global external m n memcpy_ir [src; dst; len] prev 1 e s = Done (None, with_mem m1 s)
    ∧ ∀ y, y ≠ a → m1 !! y = if decide (dst ≤ y < dst + len) then m0 !! (src + (y - dst)) else m0 !! y.
Proof.
  induction k as [|k IH]; intros n i prev e s Hi Hi0 Hs Hs' Hd Hd' Hl Hm Has Had Ho He Ha Hy Hn; (destruct n as [|n]; [lia|]).
  all: block; next; rewrite He; simp; rewrite Ha; simp; next.
  - rewrite (proj2 (Z.ltb_ge i len)) by lia. ends. destruct n as [|n]; [lia|]. block. ends.
    exists (mem s). split; [by destruct s|]. by replace len with i by lia.
  - rewrite (proj2 (Z.ltb_lt i len)) by lia. ends. destruct n as [|n]; [lia|]. block. next. gep_simp.
    rewrite word_address by lia. next.
    assert (Hv : mem s !! (src + i) = m0 !! (src + i)) by (rewrite Hy by lia; apply decide_False; lia).
    rewrite Hv. destruct (Hm i) as [v Hv0]; [lia|]. rewrite Hv0. simp. next. gep_simp. rewrite word_address by lia.
    next. next. next. rewrite He. simp. ends.
    assert (Hadd : fadd i 1 = i + 1) by (unfold fadd; rewrite Z.mod_small; lia). rewrite Hadd.
    match goal with |- context [run _ _ _ _ _ _ 2%nat 1%nat ?e' ?s'] => destruct (IH n (i + 1) 2%nat e' s') as (m1 & H1 & H2) end;
      try done; try lia.
    + cbn. by rewrite lookup_insert_eq.
    + intros y Hne. cbn. rewrite lookup_insert_ne by done. destruct (decide (y = dst + i)) as [->|Hyi].
      * rewrite lookup_insert_eq, decide_True by lia. rewrite <-Hv0. f_equal. lia.
      * rewrite lookup_insert_ne by done. rewrite Hy by done. repeat case_decide; try done; lia.
    + exists m1. split; [|done]. rewrite H1. done.
Qed.

(** ** Comparing *)

Definition compare_name (op : IntPredicate) : string :=
  match op with
  | EQ => "memcmp_eq" | NE => "memcmp_ne" | UGT => "memcmp_ugt" | UGE => "memcmp_uge" | ULT => "memcmp_ult" | ULE => "memcmp_ule"
  end.
Definition compare_ir (op : IntPredicate) : LFun :=
  Eval vm_compute in
  let ir n := default (mkFun "" [] LVoid []) (find_fun library n) in
  match op with
  | EQ => ir "memcmp_eq" | NE => ir "memcmp_ne" | UGT => ir "memcmp_ugt" | UGE => ir "memcmp_uge" | ULT => ir "memcmp_ult"
  | ULE => ir "memcmp_ule"
  end.
(** The number of the cell of the loop variable. *)
Definition cell (op : IntPredicate) : nat :=
  Eval vm_compute in
  match fn_blocks (compare_ir op) with mkBlock _ ((k, _) :: _) :: _ => k | _ => 0%nat end.
Definition compare_result (op : IntPredicate) (l r : list Z) : bool :=
  match op with
  | EQ | UGE | ULE => forallb (λ xy, holds op xy.1 xy.2) (zip l r)
  | NE | UGT | ULT => existsb (λ xy, holds op xy.1 xy.2) (zip l r)
  end.
(** A list in memory. *)
Definition reads (mm : gmap Z Z) (a : Z) (l : list Z) : Prop := ∀ i x, l !! i = Some x → mm !! (a + Z.of_nat i) = Some x.
Lemma reads_cons mm a x l : reads mm a (x :: l) → mm !! a = Some x ∧ reads mm (a + 1) l.
Proof.
  intros H. split; [rewrite <-(Z.add_0_r a); exact (H 0%nat x eq_refl)|]. intros i y Hy.
  replace (a + 1 + Z.of_nat i) with (a + Z.of_nat (S i)) by lia. by apply H.
Qed.
Lemma reads_insert mm a l k v : ¬ (a ≤ k < a + Z.of_nat (length l)) → reads mm a l → reads (<[k := v]> mm) a l.
Proof.
  intros Hk H i x Hx. rewrite lookup_insert_ne; [by apply H|]. apply lookup_lt_Some in Hx. lia.
Qed.
Lemma compare_result_cons op x y l r :
  compare_result op (x :: l) (y :: r) =
  match op with
  | EQ | UGE | ULE => holds op x y && compare_result op l r
  | NE | UGT | ULT => holds op x y || compare_result op l r
  end.
Proof. by destruct op. Qed.

Lemma compare_runs op left right len a : ∀ l r n i prev e s,
  length l = length r → i + Z.of_nat (length l) = len → 0 ≤ i → 0 ≤ left → left + len < FIELD_ORDER → 0 ≤ right →
  right + len < FIELD_ORDER → len < FIELD_ORDER - 1 → ¬ (left ≤ a < left + len) → ¬ (right ≤ a < right + len) →
  e (cell op) = Some a → mem s !! a = Some i → reads (mem s) (left + i) l → reads (mem s) (right + i) r →
  (2 * length l + 2 ≤ n)%nat →
  ∃ m1, run global external m n (compare_ir op) [left; right; len] prev 1 e s
        = Done (Some (Z.b2z (compare_result op l r)), with_mem m1 s)
    ∧ ∀ y, y ≠ a → m1 !! y = mem s !! y.
Proof.
  induction l as [|x l IH]; intros [|y r] n i prev e s Hlen Hi Hi0 Hl Hl' Hr Hr' Hlt Hal Har He Ha Hx Hy Hn; try done.
  - destruct n as [|[|n]]; [cbn in Hn; lia..|]. exists (mem s). split; [|done]. cbn in Hi.
    destruct op; cbn [compare_ir]; block; next; cbn [cell] in He; rewrite He; simp; rewrite Ha; simp; next;
      rewrite (proj2 (Z.ltb_ge i len)) by lia; ends; block; next; ends; by destruct s.
  - cbn [length] in *. destruct n as [|[|n]]; [lia..|]. apply reads_cons in Hx as [Hx0 Hx], Hy as [Hy0 Hy].
    assert (Hadd : fadd i 1 = i + 1) by (unfold fadd; rewrite Z.mod_small; lia).
    destruct op; cbn [compare_ir]; block; next; cbn [cell] in He; rewrite He; simp; rewrite Ha; simp; next;
      rewrite (proj2 (Z.ltb_lt i len)) by lia; ends; block; next; gep_simp; rewrite word_address by lia; next;
      rewrite Hx0; simp; next; gep_simp; rewrite word_address by lia; next; rewrite Hy0; simp; next; rewrite Hadd; next;
      rewrite He; simp; next; ends.
    all: match goal with |- context [negb ?t] => destruct t eqn:Ht; cbn [negb] end.
    all: match goal with
         | |- context [run _ _ _ _ _ _ 2%nat 1%nat ?e' ?s'] =>
             destruct (IH r n (i + 1) 2%nat e' s') as (m1 & H1 & H2);
               [lia..|exact He|cbn; by rewrite lookup_insert_eq
               |rewrite Z.add_assoc; apply reads_insert; [lia|done]|rewrite Z.add_assoc; apply reads_insert; [lia|done]|lia|];
             exists m1; split;
               [cbn [compare_ir] in H1; rewrite H1, compare_result_cons; cbn [holds]; rewrite ?Z.ltb_antisym, Ht; done
               |intros z Hz; rewrite H2 by done; cbn; by rewrite lookup_insert_ne by done]
         | |- _ =>
             destruct n as [|n]; [lia|]; block; next; ends; eexists; rewrite compare_result_cons; cbn [holds];
             rewrite ?Z.ltb_antisym, Ht; split; [reflexivity|intros z Hz; by rewrite lookup_insert_ne by done]
         end.
Qed.

(** C16: Each of the six comparisons of memory ends without changing the
    memory but for the cell of its loop variable: equal, greater-or-equal and
    less-or-equal answer whether all pairs of words are so related, the other
    three whether some pair is. *)
Theorem mem_compare_correct op left right l r fuel s :
  length l = length r → 0 ≤ left → left + Z.of_nat (length l) < FIELD_ORDER → 0 ≤ right →
  right + Z.of_nat (length l) < FIELD_ORDER →
  Z.of_nat (length l) < FIELD_ORDER - 1 → ¬ (left ≤ sp s < left + Z.of_nat (length l)) →
  ¬ (right ≤ sp s < right + Z.of_nat (length l)) → reads (mem s) left l → reads (mem s) right r →
  (2 * length l + 5 ≤ fuel)%nat →
  ∃ m1, call_fun global external m fuel (compare_name op) [left; right; Z.of_nat (length l)] s
        = Done (Some (Z.b2z (compare_result op l r)), with_mem m1 s)
    ∧ ∀ y, y ≠ sp s → m1 !! y = mem s !! y.
Proof.
  intros Hlen Hl Hl' Hr Hr' Hlt Hal Har Hx Hy Hf. destruct fuel as [|[|n]]; [lia..|].
  destruct op; cbn [compare_name]; open (S n); do 2 next; ends.
  all: match goal with
       | |- context [compare_result ?o ?l' ?r'] =>
           match goal with |- context [run _ _ _ _ _ ?xs 0%nat 1%nat ?e' ?s'] =>
             destruct (compare_runs o left right (Z.of_nat (length l')) (sp s) l' r' (S n) 0 0%nat e' s') as (m1 & H1 & H2);
             [lia..|reflexivity|cbn; by rewrite lookup_insert_eq
             |rewrite Z.add_0_r; apply reads_insert; [lia|done]|rewrite Z.add_0_r; apply reads_insert; [lia|done]|lia|]
           end
       end.
  all: exists m1; cbn [compare_ir] in H1; rewrite H1; split; [reflexivity|].
  all: intros y Hne; rewrite H2 by done; cbn; by rewrite lookup_insert_ne by done.
Qed.

(** C17: Copying ends, and afterwards every word of the destination is the
    word of the source it was copied from and every other word but the cell of
    the loop variable is unchanged, when the destination does not start inside
    the source and the free word of the stack is in neither. *)
Theorem memcpy_correct src dst len fuel s :
  0 ≤ len < FIELD_ORDER - 1 → 0 ≤ src → src + len < FIELD_ORDER → 0 ≤ dst → dst + len < FIELD_ORDER →
  (∀ j, 0 ≤ j < len → is_Some (mem s !! (src + j))) → ¬ (src ≤ sp s < src + len) → ¬ (dst ≤ sp s < dst + len) →
  ¬ (src < dst < src + len) → (2 * Z.to_nat len + 5 ≤ fuel)%nat →
  ∃ m1, call_fun global external m fuel "memcpy" [src; dst; len] s = Done (None, with_mem m1 s)
    ∧ ∀ y, y ≠ sp s → m1 !! y = if decide (dst ≤ y < dst + len) then mem s !! (src + (y - dst)) else mem s !! y.
Proof.
  intros Hlen Hs Hs' Hd Hd' Hm Has Had Ho Hf. destruct fuel as [|[|n]]; [lia..|]. open (S n). do 2 next. ends.
  match goal with |- context [run _ _ _ _ _ _ 0%nat 1%nat ?e' ?s'] =>
    destruct (memcpy_loop src dst len (sp s) (mem s) (Z.to_nat len) (S n) 0 0%nat e' s') as (m1 & H1 & H2) end;
    [lia..|done|done|done|done|reflexivity|cbn; by rewrite lookup_insert_eq| |lia|].
  - intros y Hy. cbn. rewrite lookup_insert_ne by done. by rewrite decide_False by lia.
  - exists m1. unfold memcpy_ir in H1. rewrite H1. by split.
Qed.

(** ** What the checks let through *)

Lemma Done_if {A} (b : bool) (P : Prop) `{!Decision P} (x : outcome A) y :
  (b = true ↔ P) → (if b then x else y) = if decide P then x else y.
Proof. intros H. case_decide as Hd; destruct b; try done; exfalso; naive_solver. Qed.
Lemma fadd_fmul h w l : fadd (fmul h w) l = (h * w + l) mod FIELD_ORDER.
Proof. unfold fadd, fmul. by rewrite Zplus_mod_idemp_l. Qed.

Definition halves_of (v h l : Z) : Prop :=
  (h = v / 2 ^ 32 ∧ l = v mod 2 ^ 32) ∨ (v < 2 ^ 32 - 1 ∧ h = 2 ^ 32 - 1 ∧ l = v + 1).
#[export] Instance halves_of_dec v h l : Decision (halves_of v h l) := _.
Lemma halves_accepted v h l :
  0 ≤ v < FIELD_ORDER → 0 ≤ h < FIELD_ORDER → 0 ≤ l < FIELD_ORDER →
  (h <? 2 ^ 32) && (l <? 2 ^ 32) && (v =? fadd (fmul h (2 ^ 32)) l) = true ↔ halves_of v h l.
Proof.
  intros Hv Hh Hl. rewrite fadd_fmul, !andb_true_iff, !Z.ltb_lt, Z.eqb_eq. unfold halves_of, FIELD_ORDER in *. split.
  - intros [[Hh' Hl'] E]. destruct (decide (h * 2 ^ 32 + l < 18446744069414584321)).
    + rewrite Z.mod_small in E by lia. left. rewrite E. split; Z.to_euclidean_division_equations; lia.
    + right. rewrite <-(Z.mod_add _ (-1)), Z.mod_small in E by lia. lia.
  - intros [[-> ->]|(Hlt & -> & ->)].
    + split; [split; Z.to_euclidean_division_equations; lia|]. rewrite Z.mod_small; Z.to_euclidean_division_equations; lia.
    + split; [lia|]. replace ((2 ^ 32 - 1) * 2 ^ 32 + (v + 1)) with (v + 1 * 18446744069414584321) by lia.
      rewrite Z.mod_add by lia. by rewrite Z.mod_small by lia.
Qed.

(** C15: For every answer of its prophets, the code that splits a field
    element returns and stores the answers exactly when they are the quotient
    and the remainder by 2^32, or, for an element below 2^32 - 1, the halves
    2^32 - 1 and the element plus one; for all other answers it is aborted. *)
Theorem split_field_answers v hp lp h l fuel s :
  0 ≤ v < FIELD_ORDER → 0 ≤ h < FIELD_ORDER → 0 ≤ l < FIELD_ORDER →
  answers "prophet_split_field_high" [v] h → answers "prophet_split_field_low" [v] l →
  call_fun global external m (S (S fuel)) "split_field" [v; hp; lp] s
  = if decide (halves_of v h l) then Done (None, with_mem (<[lp := l]> (<[hp := h]> (mem s))) s) else Aborted.
Proof.
  intros Hv Hh Hl H1 H2. rewrite (split_field_accepts v hp lp h l) by done. by apply Done_if, halves_accepted.
Qed.

(** C18: Whatever the prophet answers, the code for the square root returns it
    exactly when it has 32 bits and its square over the integers is the
    argument, and is aborted otherwise: no answer is accepted only because of
    the wrap-around of the field. *)
Theorem u32_sqrt_sound v x fuel s :
  0 ≤ v < FIELD_ORDER → 0 ≤ x < FIELD_ORDER → answers "prophet_u32_sqrt" [v] x →
  call_fun global external m (S (S fuel)) "u32_sqrt" [v] s
  = if decide (x < 2 ^ 32 ∧ x * x = v) then Done (Some x, s) else Aborted.
Proof.
  intros Hv Hx H. rewrite (u32_sqrt_accepts v x) by done. apply Done_if. rewrite andb_true_iff, Z.ltb_lt, Z.eqb_eq.
  unfold fmul. split; intros [H1 H2]; (split; [done|]).
  - rewrite Z.mod_small in H2; [done|]. unfold FIELD_ORDER in *. nia.
  - rewrite Z.mod_small; [done|]. lia.
Qed.

Lemma remainder_accepted d r :
  0 ≤ d < 2 ^ 32 → 0 ≤ r < FIELD_ORDER → (r <? 2 ^ 32) && (fsub d (fadd r 1) <? 2 ^ 32) = true ↔ r < d.
Proof.
  intros Hd Hr. rewrite andb_true_iff, !Z.ltb_lt. unfold fsub, fadd. rewrite Zminus_mod_idemp_r. unfold FIELD_ORDER in *.
  split.
  - intros [H1 H2]. destruct (decide (r < d)); [done|]. exfalso.
    rewrite <-(Z.mod_add _ 1), Z.mod_small in H2 by lia. lia.
  - intros H. split; [lia|]. rewrite Z.mod_small; lia.
Qed.
(** C20: The code for division checks the range of the address it stores the
    quotient at, not of the quotient: for every divisor of 32 bits that is
    prime to the order of the field and every remainder below it there is an
    answer of the division prophet with which the function returns and stores
    that remainder, whatever the dividend is. *)
Theorem any_remainder_is_accepted n d r qp rp fuel s :
  0 ≤ n < FIELD_ORDER → 0 < d < 2 ^ 32 → Z.gcd d FIELD_ORDER = 1 → 0 ≤ r < d → 0 ≤ qp < 2 ^ 32 →
  answers "prophet_u32_mod" [n; d] r →
  ∃ q, 0 ≤ q < FIELD_ORDER ∧
    (answers "prophet_u32_div" [n; d] q →
     call_fun global external m (S (S fuel)) "u32_div_mod" [n; d; qp; rp] s
     = Done (None, with_mem (<[rp := r]> (<[qp := q]> (mem s))) s)).
Proof.
  intros Hn Hd Hp Hr Hqp H1. destruct (Z.gcd_bezout _ _ _ Hp) as (u & v & Huv).
  exists ((n - r) * u mod FIELD_ORDER). split; [apply Z.mod_pos_bound; done|]. intros H2.
  rewrite (u32_div_mod_accepts n _ d qp rp _ r s H1 H2).
  rewrite (proj2 (remainder_accepted d r ltac:(lia) ltac:(unfold FIELD_ORDER; lia)) ltac:(lia)).
  rewrite (proj2 (Z.ltb_lt qp _)) by lia. rewrite (proj2 (Z.eqb_eq _ _)); [done|].
  rewrite fadd_fmul. rewrite <-Zplus_mod_idemp_l, Zmult_mod_idemp_l, Zplus_mod_idemp_l.
  replace ((n - r) * u * d + r) with (n + (- v * (n - r)) * FIELD_ORDER) by nia.
  rewrite Z.mod_add by done. by apply Z.mod_small.
Qed.
End Facts.

(** The comparisons by order go word by word: of these two, each is greater
    than the other. *)
Lemma order_is_not_lexicographic :
  compare_result UGT [2; 0] [1; 5] = true ∧ compare_result ULT [2; 0] [1; 5] = true ∧ compare_result UGE [2; 0] [1; 5] = false.
Proof. done. Qed.

(** ** Two runs *)

(** Prophets that split a field element as they should. *)
Definition honest (name : string) (xs : list Z) (s : mstate) : outcome (option Z * mstate) :=
  match xs with
  | [v] => Done (Some (if decide (name = "prophet_split_field_high") then v / 2 ^ 32 else v mod 2 ^ 32), s)
  | _ => Stuck
  end.
Definition nowhere (_ : string) : Z := 0.
Definition result_at (a : Z) (o : outcome (option Z * mstate)) : option (option Z * list (option Z)) :=
  match o with Done (v, s) => Some (v, map (λ i, mem s !! (a + i)) [0; 1; 2]) | _ => None end.

(** The concatenation of [[7]] and [[9]] is [[9; 9]]. *)
Lemma fields_concat_copies_right_twice :
  result_at 500 (call_fun nowhere honest library 20 "fields_concat" [100; 200]
    (mkState (list_to_map [(0, 500); (100, 1); (101, 7); (200, 1); (201, 9)]) 1000))
  = Some (Some 500, [Some 2; Some 9; Some 9]).
Proof. vm_compute. reflexivity. Qed.
(** [2 * 2^32] is not found to be greater than or equal to [2^32 + 5]. *)
Lemma field_comparison_by_halves :
  result_at 0 (call_fun nowhere honest library 20 "field_memcmp_uge" [100; 200; 1]
    (mkState (list_to_map [(100, 2 * 2 ^ 32); (200, 2 ^ 32 + 5)]) 1000))
  = Some (Some 0, [None; None; None]).
Proof. vm_compute. reflexivity. Qed.

(** ** Witnesses: the library itself, and prophets that answer from a table *)

Lemma library_has f : f ∈ library → find_fun library (fn_name f) = Some f.
Proof. revert f. apply Forall_forall. vm_compute. repeat constructor. Qed.
Definition oracle (l : list (string * Z)) (name : string) (xs : list Z) (s : mstate) : outcome (option Z * mstate) :=
  match list_find (λ x, x.1 = name) l with Some (_, (_, v)) => Done (Some v, s) | None => Stuck end.
Definition some_state : mstate := mkState (list_to_map [(100, 7); (101, 8); (200, 7); (201, 3)]) 1000.

(** 7 is split into 2^32 - 1 and 8. *)
Lemma split_field_answers_witness :
  let o := oracle [("prophet_split_field_high", 4294967295); ("prophet_split_field_low", 8)] in
  halves_of 7 4294967295 8 ∧ call_fun nowhere o library 2 "split_field" [7; 300; 301] some_state ≠ Aborted.
Proof.
  intros o. assert (H : halves_of 7 4294967295 8) by (right; split; [reflexivity|split; reflexivity]). split; [exact H|].
  rewrite (split_field_answers nowhere o library library_has 7 300 301 4294967295 8 0 some_state
    ltac:(split; vm_compute; congruence) ltac:(split; vm_compute; congruence) ltac:(split; vm_compute; congruence)
    (λ s, eq_refl) (λ s, eq_refl)).
  rewrite decide_True by exact H. discriminate.
Defined.
Lemma u32_sqrt_sound_witness :
  let o := oracle [("prophet_u32_sqrt", 3)] in
  call_fun nowhere o library 2 "u32_sqrt" [9] some_state = Done (Some 3, some_state).
Proof.
  intros o. rewrite (u32_sqrt_sound nowhere o library library_has 9 3 0 some_state
    ltac:(split; vm_compute; congruence) ltac:(split; vm_compute; congruence) (λ s, eq_refl)).
  rewrite decide_True by (split; reflexivity). reflexivity.
Defined.
(** 7 divided by 2 may leave 0. *)
Lemma any_remainder_is_accepted_witness :
  let o := oracle [("prophet_u32_mod", 0)] in
  answers o "prophet_u32_mod" [7; 2] 0 ∧ ∃ q, 0 ≤ q < FIELD_ORDER.
Proof.
  intros o. split; [exact (λ s, eq_refl)|].
  destruct (any_remainder_is_accepted nowhere o library library_has 7 2 0 300 301 0 some_state
    ltac:(split; vm_compute; congruence) ltac:(split; vm_compute; congruence) ltac:(vm_compute; reflexivity)
    ltac:(split; vm_compute; congruence) ltac:(split; vm_compute; congruence) (λ s, eq_refl)) as (q & Hq & _).
  exists q. exact Hq.
Defined.
Lemma u32_power_correct_witness :
  call_fun nowhere (oracle []) library 8 "u32_power" [5; 3] some_state = Done (Some 125, some_state).
Proof.
  rewrite (u32_power_correct nowhere (oracle []) library library_has 5 3 8 some_state
    ltac:(split; vm_compute; congruence) ltac:(vm_compute; lia)).
  reflexivity.
Defined.
Lemma mem_compare_correct_witness :
  reads (mem some_state) 100 [7; 8] ∧
  ∃ m1, call_fun nowhere (oracle []) library 9 "memcmp_eq" [100; 200; 2] some_state
    = Done (Some 0, with_mem m1 some_state).
Proof.
  assert (H1 : reads (mem some_state) 100 [7; 8]) by (intros [|[|i]] x Hx; cbn in Hx; simplify_eq; reflexivity).
  assert (H2 : reads (mem some_state) 200 [7; 3]) by (intros [|[|i]] x Hx; cbn in Hx; simplify_eq; reflexivity).
  split; [exact H1|].
  destruct (mem_compare_correct nowhere (oracle []) library library_has EQ 100 200 [7; 8] [7; 3] 9 some_state) as (m1 & H & _);
    try (vm_compute; congruence); try (cbn; lia); try done.
  exists m1. exact H.
Defined.
Lemma memcpy_correct_witness :
  ∃ m1, call_fun nowhere (oracle []) library 9 "memcpy" [100; 300; 2] some_state = Done (None, with_mem m1 some_state)
    ∧ m1 !! 301 = Some 8.
Proof.
  destruct (memcpy_correct nowhere (oracle []) library library_has 100 300 2 9 some_state) as (m1 & H & H1);
    try (vm_compute; congruence); try (cbn; lia); try (unfold FIELD_ORDER; lia).
  - intros j Hj. assert (j = 0 ∨ j = 1) as [-> | ->] by lia; eexists; reflexivity.
  - exists m1. split; [exact H|]. rewrite (H1 301 ltac:(vm_compute; congruence)). reflexivity.
Defined.
End CoreFacts.
