(* ===== verification/LinkedLayout.v ===== *)
(** The layout of a function: which blocks it has, in which order, and which
    instructions each block holds (codegen/function/layout/mod.rs for machine
    functions, codegen/core/ir/function/layout/mod.rs for IR functions).  Both
    are doubly linked lists whose nodes live in hash maps keyed by arena ids.
    The file models the maps as the code keeps them, gives each operation as
    the code performs it, and relates them to lists: [rep] says which list of
    blocks with their instructions a layout stands for, and one theorem per
    operation says what it does to that list. *)
From S2P Require Import Prelude.

Abbreviation BasicBlockId := nat.
Abbreviation InstructionId := nat.

(** * Lists, as seen from both ends *)
Section ListEnds.
Context {A : Type}.

(** What comes first in [l] followed by something whose first is [n]. *)
Definition head_or (l : list A) (n : option A) : option A :=
  match l with [] => n | x :: _ => Some x end.

Definition last_or (p : option A) (l : list A) : option A :=
  match last l with None => p | Some x => Some x end.

Lemma head_or_app l1 l2 n : head_or (l1 ++ l2) n = head_or l1 (head_or l2 n).
Proof. by destruct l1. Qed.

Lemma last_or_app p l1 l2 : last_or p (l1 ++ l2) = last_or (last_or p l1) l2.
Proof.
  unfold last_or. rewrite last_app. by destruct (last l2).
Qed.

Lemma last_or_cons p x l : last_or p (x :: l) = last_or (Some x) l.
Proof. apply (last_or_app p [x] l). Qed.

Lemma head_or_None l : head_or l None = head l.
Proof. by destruct l. Qed.

Lemma last_or_None l : last_or None l = last l.
Proof. unfold last_or. by destruct (last l). Qed.

Lemma last_not_in (l : list A) x : x ∉ l → last l ≠ Some x.
Proof. intros Hx Hl. apply Hx. by apply last_Some_elem_of. Qed.
End ListEnds.

Module Layout.

(* [codegen/function/layout/mod.rs | pub struct BasicBlockNode] *)
Record BasicBlockNode := {
  _prev : option BasicBlockId;
  next_block : option BasicBlockId;
  first_inst : option InstructionId;
  last_inst : option InstructionId;
}.

(* [codegen/function/layout/mod.rs | pub struct InstructionNode] *)
Record InstructionNode := {
  block : option BasicBlockId;
  prev : option InstructionId;
  next : option InstructionId;
}.

(* [codegen/function/layout/mod.rs | pub struct Layout] *)
Record Layout := {
  basic_blocks : gmap BasicBlockId BasicBlockNode;
  instructions : gmap InstructionId InstructionNode;
  first_block : option BasicBlockId;
  last_block : option BasicBlockId;
}.

(* [codegen/function/layout/mod.rs | impl<Inst: TargetInst> Default for Layout<Inst> >> fn default] *)
Definition new : Layout :=
  {| basic_blocks := ∅; instructions := ∅; first_block := None; last_block := None |}.

(** Assignments to one field. *)
Definition bset_prev p (n : BasicBlockNode) : BasicBlockNode :=
  {| _prev := p; next_block := next_block n; first_inst := first_inst n; last_inst := last_inst n |}.
Definition bset_next x (n : BasicBlockNode) : BasicBlockNode :=
  {| _prev := _prev n; next_block := x; first_inst := first_inst n; last_inst := last_inst n |}.
Definition bset_first x (n : BasicBlockNode) : BasicBlockNode :=
  {| _prev := _prev n; next_block := next_block n; first_inst := x; last_inst := last_inst n |}.
Definition bset_last x (n : BasicBlockNode) : BasicBlockNode :=
  {| _prev := _prev n; next_block := next_block n; first_inst := first_inst n; last_inst := x |}.
Definition iset_block b (n : InstructionNode) : InstructionNode :=
  {| block := b; prev := prev n; next := next n |}.
Definition iset_prev p (n : InstructionNode) : InstructionNode :=
  {| block := block n; prev := p; next := next n |}.
Definition iset_next x (n : InstructionNode) : InstructionNode :=
  {| block := block n; prev := prev n; next := x |}.

Definition with_blocks m (L : Layout) : Layout :=
  {| basic_blocks := m; instructions := instructions L;
     first_block := first_block L; last_block := last_block L |}.
Definition with_insts m (L : Layout) : Layout :=
  {| basic_blocks := basic_blocks L; instructions := m;
     first_block := first_block L; last_block := last_block L |}.

(** [self.basic_blocks[&b]], [self.instructions[&i]] *)
Definition block_at (L : Layout) (b : BasicBlockId) : comp BasicBlockNode :=
  unwrap (basic_blocks L !! b).
Definition inst_at (L : Layout) (i : InstructionId) : comp InstructionNode :=
  unwrap (instructions L !! i).

(** [map.get_mut(&k).unwrap().f = v] *)
Definition upd_block b (f : BasicBlockNode → BasicBlockNode) (L : Layout) : comp Layout :=
  n ← block_at L b; Ret (with_blocks (<[b := f n]> (basic_blocks L)) L).
Definition upd_inst i (f : InstructionNode → InstructionNode) (L : Layout) : comp Layout :=
  n ← inst_at L i; Ret (with_insts (<[i := f n]> (instructions L)) L).

(** [map.entry(i).or_insert(node).block = Some(b)] *)
Definition enter_inst i (node : InstructionNode) b (L : Layout) : Layout :=
  with_insts (<[i := iset_block (Some b) (default node (instructions L !! i))]> (instructions L)) L.

(* [codegen/function/layout/mod.rs | pub fn next_block_of] *)
Definition next_block_of (L : Layout) b : comp (option BasicBlockId) :=
  n ← block_at L b; Ret (next_block n).

(* [codegen/function/layout/mod.rs | pub fn append_block] *)
Definition append_block (L : Layout) (b : BasicBlockId) : comp Layout :=
  let node := {| _prev := last_block L; next_block := None; first_inst := None; last_inst := None |} in
  let L := with_blocks (<[b := default node (basic_blocks L !! b)]> (basic_blocks L)) L in
  L ← (match last_block L with
       | Some last_b =>
           L ← upd_block last_b (bset_next (Some b)) L;
           upd_block b (bset_prev (Some last_b)) L
       | None => Ret L
       end);
  Ret {| basic_blocks := basic_blocks L; instructions := instructions L;
         first_block := match first_block L with None => Some b | f => f end;
         last_block := Some b |}.

(* [codegen/function/layout/mod.rs | pub fn last_inst_of] *)
Definition last_inst_of (L : Layout) b : comp (option InstructionId) :=
  n ← block_at L b; Ret (last_inst n).

(* [codegen/function/layout/mod.rs | pub fn prev_inst_of] *)
Definition prev_inst_of (L : Layout) i : comp (option InstructionId) :=
  n ← inst_at L i; Ret (prev n).

(* [codegen/function/layout/mod.rs | pub fn next_inst_of] *)
Definition next_inst_of (L : Layout) i : comp (option InstructionId) :=
  n ← inst_at L i; Ret (next n).

(* [codegen/function/layout/mod.rs | pub fn insert_inst_at_start] *)
Definition insert_inst_at_start (L : Layout) (i : InstructionId) (b : BasicBlockId) : comp Layout :=
  let L := enter_inst i {| prev := None; next := None; block := Some b |} b L in
  bn ← block_at L b;
  L ← (match first_inst bn with
       | Some f =>
           L ← upd_inst f (iset_prev (Some i)) L;
           upd_inst i (iset_next (Some f)) L
       | None => Ret L
       end);
  L ← upd_block b (bset_first (Some i)) L;
  bn ← block_at L b;
  match last_inst bn with
  | None => upd_block b (bset_last (Some i)) L
  | Some _ => Ret L
  end.

(* [codegen/function/layout/mod.rs | pub fn insert_inst_before] *)
Definition insert_inst_before (L : Layout) (before i : InstructionId) (b : BasicBlockId) : comp Layout :=
  n ← inst_at L before;
  let L := enter_inst i {| prev := prev n; next := Some before; block := Some b |} b L in
  n ← inst_at L before;
  L ← (match prev n with
       | Some p => upd_inst p (iset_next (Some i)) L
       | None => Ret L
       end);
  L ← upd_inst before (iset_prev (Some i)) L;
  bn ← block_at L b;
  if decide (first_inst bn = Some before) then upd_block b (bset_first (Some i)) L
  else Ret L.

(* [codegen/function/layout/mod.rs | pub fn insert_inst_after] *)
Definition insert_inst_after (L : Layout) (after i : InstructionId) (b : BasicBlockId) : comp Layout :=
  n ← inst_at L after;
  let L := enter_inst i {| prev := Some after; next := next n; block := Some b |} b L in
  n ← inst_at L after;
  L ← (match next n with
       | Some x => upd_inst x (iset_prev (Some i)) L
       | None => Ret L
       end);
  upd_inst after (iset_next (Some i)) L.

(* [codegen/function/layout/mod.rs | pub fn append_inst] *)
Definition append_inst (L : Layout) (i : InstructionId) (b : BasicBlockId) : comp Layout :=
  bn ← block_at L b;
  let L := enter_inst i {| prev := last_inst bn; next := None; block := Some b |} b L in
  L ← (match last_inst bn with
       | Some l =>
           L ← upd_inst l (iset_next (Some i)) L;
           upd_inst i (iset_prev (Some l)) L
       | None => Ret L
       end);
  L ← upd_block b (bset_last (Some i)) L;
  bn ← block_at L b;
  match first_inst bn with
  | None => upd_block b (bset_first (Some i)) L
  | Some _ => Ret L
  end.

(** [get_mut(&k)?.f = v]: the [?] leaves the function with [None]. *)
Definition try_upd_block b f (L : Layout) : Layout * bool :=
  match basic_blocks L !! b with
  | Some n => (with_blocks (<[b := f n]> (basic_blocks L)) L, true)
  | None => (L, false)
  end.
Definition try_upd_inst i f (L : Layout) : Layout * bool :=
  match instructions L !! i with
  | Some n => (with_insts (<[i := f n]> (instructions L)) L, true)
  | None => (L, false)
  end.

(** The result says whether the code returned [Some(())]. *)
(* [codegen/function/layout/mod.rs | pub fn remove_inst] *)
Definition remove_inst (L : Layout) (i : InstructionId) : comp (Layout * bool) :=
  n ← inst_at L i;
  match block n with
  | None => Ret (L, false)
  | Some b =>
      let L := with_insts (<[i := {| block := None; prev := None; next := None |}]> (instructions L)) L in
      let '(L, ok) := match prev n with
                      | Some p => try_upd_inst p (iset_next (next n)) L
                      | None => try_upd_block b (bset_first (next n)) L
                      end in
      if ok then
        Ret (match next n with
             | Some x => try_upd_inst x (iset_prev (prev n)) L
             | None => try_upd_block b (bset_last (prev n)) L
             end)
      else Ret (L, false)
  end.

(** * Iteration: [next] of the iterators, and the list of what they yield. *)

(* [codegen/function/layout/mod.rs | 231-239 | BasicBlockIter::next] *)
Definition BasicBlockIter_next (L : Layout) (cur : option BasicBlockId)
  : comp (option (BasicBlockId * option BasicBlockId)) :=
  match cur with
  | None => Ret None
  | Some c => n ← block_at L c; Ret (Some (c, next_block n))
  end.

(* [codegen/function/layout/mod.rs | 241-253 | InstructionIter::next] *)
Definition InstructionIter_next (L : Layout) (b : BasicBlockId) (cur : option InstructionId)
  : comp (option (InstructionId * option InstructionId)) :=
  match cur with
  | None => Ret None
  | Some c =>
      bn ← block_at L b;
      if decide (Some c = last_inst bn) then Ret (Some (c, None))
      else n ← inst_at L c; Ret (Some (c, next n))
  end.

(** Everything an iterator yields from a state, [fuel] elements at most. *)
Fixpoint drain {S A} (step : option S → comp (option (A * option S))) (fuel : nat) (cur : option S)
  : comp (list A) :=
  r ← step cur;
  match r with
  | None => Ret []
  | Some (x, cur') =>
      match fuel with
      | 0%nat => OutOfFuel
      | Datatypes.S fuel => l ← drain step fuel cur'; Ret (x :: l)
      end
  end.

(* [codegen/function/layout/mod.rs | pub fn block_iter] *)
Definition block_iter (L : Layout) : comp (list BasicBlockId) :=
  drain (BasicBlockIter_next L) (size (basic_blocks L)) (first_block L).

(* [codegen/function/layout/mod.rs | pub fn inst_iter] *)
Definition inst_iter (L : Layout) (b : BasicBlockId) : comp (list InstructionId) :=
  bn ← block_at L b;
  drain (InstructionIter_next L b) (size (instructions L)) (first_inst bn).

End Layout.

(** * The layout as a list of lists *)
Module LayoutSpec.
Import Layout.

(** The blocks in order with their instructions in order, and the instructions
    that were removed and whose nodes are still in the map. *)
Record seq_layout := {
  order : list (BasicBlockId * list InstructionId);
  removed : gset InstructionId;
}.

Definition linked (A : seq_layout) : list InstructionId := concat (order A).*2.

Arguments linked : simpl never.

Definition on_block b (f : list InstructionId → list InstructionId)
    (l : list (BasicBlockId * list InstructionId)) :=
  map (λ '(b', is_), if decide (b' = b) then (b', f is_) else (b', is_)) l.

Fixpoint insts_of (l : list (BasicBlockId * list InstructionId)) b : option (list InstructionId) :=
  match l with
  | [] => None
  | (b', is_) :: l => if decide (b' = b) then Some is_ else insts_of l b
  end.

Fixpoint ins_before (x i : InstructionId) (l : list InstructionId) :=
  match l with
  | [] => []
  | y :: l => if decide (y = x) then i :: y :: l else y :: ins_before x i l
  end.

Fixpoint ins_after (x i : InstructionId) (l : list InstructionId) :=
  match l with
  | [] => []
  | y :: l => if decide (y = x) then y :: i :: l else y :: ins_after x i l
  end.

Definition del (i : InstructionId) (l : list InstructionId) := filter (λ j, j ≠ i) l.

(** The calls a client makes. *)
Inductive op :=
  | AppendBlock (b : BasicBlockId)
  | AppendInst (i : InstructionId) (b : BasicBlockId)
  | InsertAtStart (i : InstructionId) (b : BasicBlockId)
  | InsertBefore (x i : InstructionId) (b : BasicBlockId)
  | InsertAfter (x i : InstructionId) (b : BasicBlockId)
  | RemoveInst (i : InstructionId).

(** What each call means, where the client respects the contract: a block is
    appended once, an instruction is linked at most once, the instruction to
    insert next to is in the block, and one that was removed comes back at an
    end of a block only.  [insert_inst_after] has no meaning at the end of a
    block. *)
Definition spec_step (A : seq_layout) (o : op) : option seq_layout :=
  match o with
  | AppendBlock b =>
      if decide (b ∈ (order A).*1) then None
      else Some {| order := order A ++ [(b, [])]; removed := removed A |}
  | AppendInst i b =>
      if decide (i ∈ linked A ∨ b ∉ (order A).*1) then None
      else Some {| order := on_block b (λ l, l ++ [i]) (order A); removed := removed A ∖ {[i]} |}
  | InsertAtStart i b =>
      if decide (i ∈ linked A ∨ b ∉ (order A).*1) then None
      else Some {| order := on_block b (cons i) (order A); removed := removed A ∖ {[i]} |}
  | InsertBefore x i b =>
      if decide (i ∈ linked A ∨ i ∈ removed A) then None else
      l ← insts_of (order A) b;
      if decide (x ∈ l) then
        Some {| order := on_block b (ins_before x i) (order A); removed := removed A |}
      else None
  | InsertAfter x i b =>
      if decide (i ∈ linked A ∨ i ∈ removed A) then None else
      l ← insts_of (order A) b;
      if decide (x ∈ l ∧ last l ≠ Some x) then
        Some {| order := on_block b (ins_after x i) (order A); removed := removed A |}
      else None
  | RemoveInst i =>
      if decide (i ∈ linked A) then
        Some {| order := map (λ '(b, l), (b, del i l)) (order A); removed := {[i]} ∪ removed A |}
      else None
  end.

Definition step (L : Layout) (o : op) : comp Layout :=
  match o with
  | AppendBlock b => append_block L b
  | AppendInst i b => append_inst L i b
  | InsertAtStart i b => insert_inst_at_start L i b
  | InsertBefore x i b => insert_inst_before L x i b
  | InsertAfter x i b => insert_inst_after L x i b
  | RemoveInst i => '(L, ok) ← remove_inst L i; if (ok : bool) then Ret L else Panic
  end.

(** * The representation relation *)

Definition inode b p n : InstructionNode := {| block := Some b; prev := p; next := n |}.
Definition unode : InstructionNode := {| block := None; prev := None; next := None |}.

(** [l] linked in [m] from [p] to [n]. *)
Fixpoint ichain (m : gmap InstructionId InstructionNode) b p l n : Prop :=
  match l with
  | [] => True
  | x :: l => m !! x = Some (inode b p (head_or l n)) ∧ ichain m b (Some x) l n
  end.

Fixpoint bchain (m : gmap BasicBlockId BasicBlockNode) p (A : list (BasicBlockId * list InstructionId)) : Prop :=
  match A with
  | [] => True
  | (b, l) :: A =>
      m !! b = Some {| _prev := p; next_block := head (A.*1); first_inst := head l; last_inst := last l |}
      ∧ bchain m (Some b) A
  end.

Record rep (L : Layout) (A : seq_layout) : Prop := {
  rep_keys : NoDup (order A).*1;
  rep_linked : NoDup (linked A);
  rep_first : first_block L = head (order A).*1;
  rep_last : last_block L = last (order A).*1;
  rep_blocks : bchain (basic_blocks L) None (order A);
  rep_other_blocks : ∀ b, b ∉ (order A).*1 → basic_blocks L !! b = None;
  rep_insts : ∀ b l, (b, l) ∈ order A → ichain (instructions L) b None l None;
  rep_removed : ∀ i, i ∈ removed A → (i ∉ linked A) ∧ instructions L !! i = Some unode;
  rep_unknown : ∀ i, i ∉ linked A → i ∉ removed A → instructions L !! i = None;
}.

(** ** Chains *)

Lemma ichain_app m b p l1 l2 n :
  ichain m b p (l1 ++ l2) n ↔ ichain m b p l1 (head_or l2 n) ∧ ichain m b (last_or p l1) l2 n.
Proof.
  revert p. induction l1 as [|x l1 IH]; intros p; cbn [app ichain]; [naive_solver|].
  rewrite IH, head_or_app, last_or_cons. tauto.
Qed.

Lemma ichain_frame m m' b p l n :
  (∀ x, x ∈ l → m' !! x = m !! x) → ichain m b p l n → ichain m' b p l n.
Proof.
  revert p. induction l as [|x l IH]; cbn; intros p Hm; [done|].
  intros [Hx Hl]. rewrite Hm by (by left). split; [done|].
  apply IH; [|done]. intros; apply Hm. by right.
Qed.

Lemma ichain_insert m b p l n x v :
  x ∉ l → ichain m b p l n → ichain (<[x:=v]> m) b p l n.
Proof.
  intros Hx. apply ichain_frame. intros y Hy.
  apply lookup_insert_ne. set_solver.
Qed.

Lemma ichain_elem m b p l n x :
  ichain m b p l n → x ∈ l → ∃ v, m !! x = Some v.
Proof.
  revert p. induction l as [|y l IH]; cbn; intros p Hc Hx; [set_solver|].
  destruct Hc as [Hy Hc]. apply elem_of_cons in Hx as [->|Hx]; eauto.
Qed.

Lemma bchain_app m p A1 A2 :
  bchain m p (A1 ++ A2) →
  bchain m (last_or p A1.*1) A2.
Proof.
  revert p. induction A1 as [|[b l] A1 IH]; cbn; intros p; [done|].
  intros [_ H]. rewrite last_or_cons. by apply IH.
Qed.

Lemma bchain_lookup m A1 b l A2 :
  bchain m None (A1 ++ (b, l) :: A2) →
  m !! b = Some {| _prev := last (A1.*1); next_block := head (A2.*1);
                   first_inst := head l; last_inst := last l |}.
Proof. intros H. apply bchain_app in H. rewrite last_or_None in H. apply H. Qed.

(** Replacing the instructions of one block. *)
Lemma bchain_frame m m' p A :
  (∀ c, c ∈ A.*1 → m' !! c = m !! c) → bchain m p A → bchain m' p A.
Proof.
  revert p. induction A as [|[c k] A IH]; cbn; intros p Hm; [done|].
  intros [Hc HA]. rewrite Hm by (by left). split; [done|].
  apply IH; [|done]. intros; apply Hm. by right.
Qed.

Lemma bchain_update m m' p A1 b l l' A2 :
  b ∉ A1.*1 → b ∉ A2.*1 →
  (∀ c, c ≠ b → m' !! c = m !! c) →
  m' !! b = Some {| _prev := last_or p (A1.*1); next_block := head (A2.*1);
                    first_inst := head l'; last_inst := last l' |} →
  bchain m p (A1 ++ (b, l) :: A2) → bchain m' p (A1 ++ (b, l') :: A2).
Proof.
  intros H1 H2 Hm Hb. revert p Hb. induction A1 as [|[c k] A1 IH]; cbn; intros p Hb [Hc HA].
  - split; [done|]. eapply bchain_frame; [|done]. intros c ?. apply Hm. set_solver.
  - rewrite Hm by set_solver. split.
    + rewrite Hc. do 2 f_equal. by destruct A1 as [|[??]?].
    + apply IH; [set_solver| |done]. by rewrite last_or_cons in Hb.
Qed.

(** ** The lists *)

Lemma insts_of_split l b is_ :
  insts_of l b = Some is_ → ∃ A1 A2, l = A1 ++ (b, is_) :: A2.
Proof.
  induction l as [|[c k] l IH]; cbn; [done|]. case_decide.
  - intros [= ->]. subst. by exists [], l.
  - intros (A1 & A2 & ->)%IH. by exists ((c, k) :: A1), A2.
Qed.

Lemma key_split (l : list (BasicBlockId * list InstructionId)) b :
  b ∈ l.*1 → ∃ A1 is_ A2, l = A1 ++ (b, is_) :: A2.
Proof.
  intros ([c k] & -> & H)%list_elem_of_fmap.
  apply list_elem_of_split in H as (A1 & A2 & ->). by exists A1, k, A2.
Qed.

Lemma on_block_skip b f l : b ∉ l.*1 → on_block b f l = l.
Proof.
  induction l as [|[c k] l IH]; cbn; intros Hb; [done|].
  rewrite decide_False by set_solver. f_equal. apply IH. set_solver.
Qed.

Lemma on_block_split b f A1 l A2 :
  NoDup (A1 ++ (b, l) :: A2).*1 →
  on_block b f (A1 ++ (b, l) :: A2) = A1 ++ (b, f l) :: A2.
Proof.
  rewrite fmap_app; cbn. intros (Hn1 & Hd & Hn2)%NoDup_app.
  apply NoDup_cons in Hn2 as [Hb _].
  unfold on_block. rewrite map_app; cbn. rewrite decide_True by done.
  f_equal; [|f_equal]; [apply (on_block_skip b f)|by apply (on_block_skip b f)].
  intros H. apply (Hd _ H). by left.
Qed.

Lemma ins_before_split x i l1 l2 :
  x ∉ l1 → ins_before x i (l1 ++ x :: l2) = l1 ++ i :: x :: l2.
Proof.
  induction l1 as [|y l1 IH]; cbn; intros H.
  - by rewrite decide_True.
  - rewrite decide_False by set_solver. rewrite IH; set_solver.
Qed.

Lemma ins_after_split x i l1 l2 :
  x ∉ l1 → ins_after x i (l1 ++ x :: l2) = l1 ++ x :: i :: l2.
Proof.
  induction l1 as [|y l1 IH]; cbn; intros H.
  - by rewrite decide_True.
  - rewrite decide_False by set_solver. rewrite IH; set_solver.
Qed.

Lemma del_skip i l : i ∉ l → del i l = l.
Proof.
  induction l as [|y l IH]; intros H; [done|]. unfold del in *.
  rewrite filter_cons_True by set_solver. f_equal. apply IH. set_solver.
Qed.

Lemma del_split i l1 l2 : i ∉ l1 → i ∉ l2 → del i (l1 ++ i :: l2) = l1 ++ l2.
Proof.
  intros H1 H2. unfold del. rewrite filter_app, filter_cons_False by naive_solver.
  f_equal; by apply del_skip.
Qed.

Lemma in_block c k (A : list (BasicBlockId * list InstructionId)) x :
  (c, k) ∈ A → x ∈ k → x ∈ concat A.*2.
Proof.
  induction A as [|[d j] A IH]; cbn; [set_solver|].
  intros [[= <- <-]|H]%elem_of_cons Hx; set_solver.
Qed.

(** ** Changing one block keeps the representation *)

Arguments on_block : simpl never.
Arguments del : simpl never.

Lemma linked_split A1 b l A2 (R : gset InstructionId) :
  linked {| order := A1 ++ (b, l) :: A2; removed := R |} ≡ₚ l ++ concat (A1 ++ A2).*2.
Proof.
  unfold linked; cbn. rewrite !fmap_app, !concat_app; cbn. solve_Permutation.
Qed.

Lemma rep_update L L' A1 b l l' A2 R R' :
  rep L {| order := A1 ++ (b, l) :: A2; removed := R |} →
  first_block L' = first_block L → last_block L' = last_block L →
  (∀ c, c ≠ b → basic_blocks L' !! c = basic_blocks L !! c) →
  basic_blocks L' !! b = Some {| _prev := last (A1.*1); next_block := head (A2.*1);
                                 first_inst := head l'; last_inst := last l' |} →
  (∀ x, x ∉ l → x ∉ l' → instructions L' !! x = instructions L !! x) →
  ichain (instructions L') b None l' None →
  NoDup l' →
  (∀ x, x ∈ l' → x ∈ l ∨ x ∉ concat (A1 ++ A2).*2) →
  (∀ x, x ∈ R' → (x ∉ l') ∧ (x ∈ R ∨ x ∈ l) ∧ instructions L' !! x = Some unode) →
  (∀ x, x ∈ R ∨ x ∈ l → x ∈ R' ∨ x ∈ l') →
  rep L' {| order := A1 ++ (b, l') :: A2; removed := R' |}.
Proof.
  intros [Hk Hl Hf Hla Hb Hob Hi Hr Hu] Hf' Hla' Hbo Hbb Hio Hch Hnd Hnew HR' HR.
  assert (Hkeys : (A1 ++ (b, l') :: A2).*1 = (A1 ++ (b, l) :: A2).*1).
  { by rewrite !fmap_app. }
  rewrite linked_split in Hl. cbn in *.
  apply NoDup_app in Hl as (Hl1 & Hl2 & Hl3).
  assert (Hsep : ∀ x, x ∈ l ∨ x ∈ l' → x ∉ concat (A1 ++ A2).*2) by naive_solver.
  assert (Hin : ∀ S k x, x ∈ linked {| order := A1 ++ (b, k) :: A2; removed := S |}
                 ↔ x ∈ k ∨ x ∈ concat (A1 ++ A2).*2).
  { intros S k x. rewrite (linked_split A1 b k A2 S). set_solver. }
  rewrite fmap_app in Hk; cbn in Hk. apply NoDup_app in Hk as Hk2.
  destruct Hk2 as (_ & Hd1 & Hd2). apply NoDup_cons in Hd2 as [Hd2 _].
  assert (Hb1 : b ∉ A1.*1). { intros Hx. apply (Hd1 _ Hx). by left. }
  constructor; cbn; rewrite ?Hkeys.
  - by rewrite fmap_app.
  - rewrite linked_split. apply NoDup_app. naive_solver.
  - congruence.
  - congruence.
  - eapply bchain_update; [done|done|exact Hbo|by rewrite last_or_None|done].
  - intros c Hc. rewrite Hbo; [by apply Hob|].
    intros ->. apply Hc. rewrite fmap_app. set_solver.
  - intros c k [Hck|Hck]%elem_of_app.
    + eapply ichain_frame; [|apply Hi; set_solver]. intros x Hx.
      assert (x ∈ concat (A1 ++ A2).*2).
      { apply (in_block c k); set_solver. }
      apply Hio; naive_solver.
    + apply elem_of_cons in Hck as [[= -> ->]|Hck]; [done|].
      eapply ichain_frame; [|apply Hi; set_solver]. intros x Hx.
      assert (x ∈ concat (A1 ++ A2).*2).
      { apply (in_block c k); set_solver. }
      apply Hio; naive_solver.
  - intros x Hx. rewrite Hin. destruct (HR' _ Hx) as (Hx1 & Hx2 & Hx3).
    split; [|done]. intros [?|Hc]; [done|].
    destruct Hx2 as [Hx2|Hx2]; [|by apply (Hsep x); [left|]].
    destruct (Hr x Hx2) as [Hn _]. apply Hn, Hin. by right.
  - intros x Hx1 Hx2. rewrite Hin in Hx1.
    assert (x ∉ l') by (intros ?; apply Hx1; auto).
    assert (x ∉ l) by (intros Hxl; destruct (HR x (or_intror Hxl)); tauto).
    rewrite Hio by done. apply Hu; [rewrite Hin; tauto|].
    intros HxR. destruct (HR x (or_introl HxR)); tauto.
Qed.

Lemma rep_insert L L' A1 b l l' A2 R i :
  rep L {| order := A1 ++ (b, l) :: A2; removed := R |} →
  i ∉ linked {| order := A1 ++ (b, l) :: A2; removed := R |} →
  l' ≡ₚ i :: l →
  first_block L' = first_block L → last_block L' = last_block L →
  (∀ c, c ≠ b → basic_blocks L' !! c = basic_blocks L !! c) →
  basic_blocks L' !! b = Some {| _prev := last (A1.*1); next_block := head (A2.*1);
                                 first_inst := head l'; last_inst := last l' |} →
  (∀ x, x ∉ i :: l → instructions L' !! x = instructions L !! x) →
  ichain (instructions L') b None l' None →
  rep L' {| order := A1 ++ (b, l') :: A2; removed := R ∖ {[i]} |}.
Proof.
  intros HR Hi Hp Hf Hla Hbo Hbb Hio Hch.
  pose proof (rep_linked _ _ HR) as Hn. rewrite linked_split in Hn, Hi.
  assert (Hin : ∀ x, x ∈ l' ↔ x = i ∨ x ∈ l).
  { intros x. rewrite Hp. set_solver. }
  apply NoDup_app in Hn as (Hn & Hd & _).
  eapply (rep_update L); [exact HR|done..| |done| | | |].
  - intros x Hx1 Hx2. apply Hio. rewrite Hin in Hx2. set_solver.
  - rewrite Hp. apply NoDup_cons. set_solver.
  - intros x. rewrite Hin. set_solver.
  - intros x Hx. destruct (rep_removed _ _ HR x) as [Hx1 Hx2]; [cbn; set_solver|].
    rewrite linked_split in Hx1. rewrite Hin, Hio by set_solver. set_solver.
  - intros x. rewrite Hin. destruct (decide (x = i)); set_solver.
Qed.

(** ** Running the operations *)

Lemma upd_inst_Some i f L n :
  instructions L !! i = Some n →
  upd_inst i f L = Ret (with_insts (<[i := f n]> (instructions L)) L).
Proof. intros H. unfold upd_inst, inst_at. by rewrite H. Qed.

Lemma upd_block_Some b f L n :
  basic_blocks L !! b = Some n →
  upd_block b f L = Ret (with_blocks (<[b := f n]> (basic_blocks L)) L).
Proof. intros H. unfold upd_block, block_at. by rewrite H. Qed.

Lemma block_at_Some b L n : basic_blocks L !! b = Some n → block_at L b = Ret n.
Proof. intros H. unfold block_at. by rewrite H. Qed.

Lemma inst_at_Some i L n : instructions L !! i = Some n → inst_at L i = Ret n.
Proof. intros H. unfold inst_at. by rewrite H. Qed.

(** Lookups in maps that were just written to. *)
Ltac layout_lookup :=
  cbn;
  repeat (rewrite lookup_insert_eq || rewrite lookup_insert_ne by congruence);
  cbn; (reflexivity || eassumption).

Ltac layout_run :=
  repeat (cbn;
    match goal with
    | |- context [upd_inst ?i ?f ?L] => erewrite (upd_inst_Some i f L) by layout_lookup
    | |- context [upd_block ?b ?f ?L] => erewrite (upd_block_Some b f L) by layout_lookup
    | |- context [block_at ?L ?b] => erewrite (block_at_Some b L) by layout_lookup
    | |- context [inst_at ?L ?i] => erewrite (inst_at_Some i L) by layout_lookup
    end); cbn.

Ltac layout_frame :=
  intros; cbn; rewrite ?lookup_insert_ne by set_solver; done.

(** The node of an instruction that was just entered. *)
Ltac layout_new Hu :=
  cbn; repeat (rewrite lookup_insert_eq || rewrite lookup_insert_ne by congruence);
  cbn; (rewrite Hu || (destruct Hu as [Hu|Hu]; rewrite Hu)); reflexivity.

(** A chain away from what was written. *)
Ltac layout_chain :=
  repeat (apply ichain_insert; [set_solver|]); try assumption.

Lemma rep_block L A A1 b l A2 :
  rep L A → order A = A1 ++ (b, l) :: A2 →
  basic_blocks L !! b = Some {| _prev := last (A1.*1); next_block := head (A2.*1);
                                first_inst := head l; last_inst := last l |}
  ∧ ichain (instructions L) b None l None ∧ NoDup l
  ∧ (∀ x, x ∈ l → x ∈ linked A) ∧ (∀ x, x ∈ concat (A1 ++ A2).*2 → x ∈ linked A).
Proof.
  intros HR HA. destruct A as [o R]; cbn in HA; subst o.
  pose proof (rep_linked _ _ HR) as Hn. rewrite linked_split in Hn.
  apply NoDup_app in Hn as (Hn & _ & _).
  split_and!; [|apply (rep_insts _ _ HR); cbn; set_solver|done| |].
  - eapply bchain_lookup. apply (rep_blocks _ _ HR).
  - intros x Hx. rewrite linked_split. set_solver.
  - intros x Hx. rewrite linked_split. set_solver.
Qed.

(** An instruction that is not linked has no node, or an empty one. *)
Lemma rep_unlinked L A i :
  rep L A → i ∉ linked A →
  instructions L !! i = None ∨ instructions L !! i = Some unode.
Proof.
  intros HR Hi. destruct (decide (i ∈ removed A)) as [Hr|Hr].
  - right. by apply (rep_removed _ _ HR).
  - left. by apply (rep_unknown _ _ HR).
Qed.

Lemma append_inst_rep L A1 b l A2 R i :
  rep L {| order := A1 ++ (b, l) :: A2; removed := R |} →
  i ∉ linked {| order := A1 ++ (b, l) :: A2; removed := R |} →
  ∃ L', append_inst L i b = Ret L' ∧
        rep L' {| order := A1 ++ (b, l ++ [i]) :: A2; removed := R ∖ {[i]} |}.
Proof.
  intros HR Hi.
  destruct (rep_block _ _ _ _ _ _ HR eq_refl) as (Hb & Hch & Hnd & Hl & Ho).
  pose proof (rep_unlinked _ _ _ HR Hi) as Hu.
  assert (i ∉ l) by naive_solver.
  unfold append_inst, enter_inst.
  destruct (last l) as [y|] eqn:Hy.
  - apply last_Some in Hy as [l0 ->].
    apply ichain_app in Hch as [Hch0 Hy]; cbn in Hy; destruct Hy as [Hy _].
    assert (y ≠ i) by set_solver. apply NoDup_app in Hnd as (Hn1 & Hn2 & _).
    layout_run.
    destruct (head (l0 ++ [y])) as [z|] eqn:Hz; [|by destruct l0].
    eexists; split; [reflexivity|].
    eapply (rep_insert L); [done..|solve_Permutation|done|done|layout_frame| |layout_frame|].
    + cbn. rewrite lookup_insert_eq. unfold bset_last; cbn.
      by rewrite last_snoc, head_app, Hz.
    + rewrite <-app_assoc. apply ichain_app. split.
      * cbn. layout_chain.
      * cbn. split_and!; [layout_lookup|layout_new Hu|done].
  - apply last_None in Hy as ->. layout_run.
    eexists; split; [reflexivity|].
    eapply (rep_insert L); [done..|reflexivity|done|done|layout_frame| |layout_frame|].
    + cbn. by rewrite lookup_insert_eq.
    + cbn. split_and!; [layout_new Hu|done].
Qed.

Lemma insert_inst_at_start_rep L A1 b l A2 R i :
  rep L {| order := A1 ++ (b, l) :: A2; removed := R |} →
  i ∉ linked {| order := A1 ++ (b, l) :: A2; removed := R |} →
  ∃ L', insert_inst_at_start L i b = Ret L' ∧
        rep L' {| order := A1 ++ (b, i :: l) :: A2; removed := R ∖ {[i]} |}.
Proof.
  intros HR Hi.
  destruct (rep_block _ _ _ _ _ _ HR eq_refl) as (Hb & Hch & Hnd & Hl & Ho).
  pose proof (rep_unlinked _ _ _ HR Hi) as Hu.
  assert (i ∉ l) by naive_solver.
  unfold insert_inst_at_start, enter_inst.
  destruct l as [|y l].
  - layout_run. eexists; split; [reflexivity|].
    eapply (rep_insert L); [done..|reflexivity|done|done|layout_frame| |layout_frame|].
    + cbn. by rewrite lookup_insert_eq.
    + cbn. split_and!; [layout_new Hu|done].
  - destruct Hch as [Hy Hch]. apply NoDup_cons in Hnd as [Hn1 Hn2].
    assert (y ≠ i) by set_solver. layout_run.
    destruct (last (y :: l)) as [z|] eqn:Hz; [|by apply last_None in Hz].
    eexists; split; [reflexivity|].
    eapply (rep_insert L); [done..|reflexivity|done|done|layout_frame| |layout_frame|].
    + cbn -[last]. rewrite lookup_insert_eq, (last_cons i), Hz. reflexivity.
    + cbn [ichain]. split_and!; [layout_new Hu|layout_lookup|]. cbn. layout_chain.
Qed.

Lemma insert_inst_before_rep L A1 b l1 x l2 A2 R i :
  rep L {| order := A1 ++ (b, l1 ++ x :: l2) :: A2; removed := R |} →
  i ∉ linked {| order := A1 ++ (b, l1 ++ x :: l2) :: A2; removed := R |} → i ∉ R →
  ∃ L', insert_inst_before L x i b = Ret L' ∧
        rep L' {| order := A1 ++ (b, l1 ++ i :: x :: l2) :: A2; removed := R |}.
Proof.
  intros HR Hi HiR.
  destruct (rep_block _ _ _ _ _ _ HR eq_refl) as (Hb & Hch & Hnd & Hl & Ho).
  assert (Hu : instructions L !! i = None) by by apply (rep_unknown _ _ HR).
  assert (Hil : i ∉ l1 ++ x :: l2) by naive_solver.
  apply ichain_app in Hch as [Hch1 Hch2]; cbn in Hch2; destruct Hch2 as [Hx Hch2].
  replace R with (R ∖ {[i]}) by set_solver. replace (R ∖ {[i]}) with R in HR by set_solver.
  unfold insert_inst_before, enter_inst. assert (x ≠ i) by set_solver.
  destruct (last l1) as [y|] eqn:Hy.
  - apply last_Some in Hy as [l0 ->].
    apply ichain_app in Hch1 as [Hch0 Hy]; cbn in Hy; destruct Hy as [Hy _].
    rewrite last_or_app in Hx. cbn in Hx.
    apply NoDup_app in Hnd as (Hn1 & Hn2 & Hn3). apply NoDup_app in Hn1 as (Hn0 & Hn1 & _).
    apply NoDup_cons in Hn3 as [Hn3 Hn4].
    assert (y ≠ i) by set_solver. assert (y ≠ x) by set_solver.
    layout_run. rewrite decide_False; cycle 1.
    { destruct l0; cbn; intros [=]; set_solver. }
    eexists; split; [reflexivity|].
    eapply (rep_insert L); [done..|solve_Permutation|done|done|layout_frame| |layout_frame|].
    + cbn. rewrite Hb. do 2 f_equal; [by destruct l0|]. by rewrite !last_app.
    + rewrite <-app_assoc. apply ichain_app. split.
      * cbn. layout_chain.
      * cbn. split_and!; [layout_lookup|layout_new Hu|layout_lookup|layout_chain].
  - apply last_None in Hy as ->. cbn in *. apply NoDup_cons in Hnd as [Hn1 Hn2].
    layout_run. rewrite decide_True by done. layout_run.
    eexists; split; [reflexivity|].
    eapply (rep_insert L); [done..|reflexivity|done|done|layout_frame| |layout_frame|].
    + cbn. by rewrite lookup_insert_eq.
    + cbn. split_and!; [layout_new Hu|layout_lookup|layout_chain].
Qed.

Lemma insert_inst_after_rep L A1 b l1 x y l2 A2 R i :
  rep L {| order := A1 ++ (b, l1 ++ x :: y :: l2) :: A2; removed := R |} →
  i ∉ linked {| order := A1 ++ (b, l1 ++ x :: y :: l2) :: A2; removed := R |} → i ∉ R →
  ∃ L', insert_inst_after L x i b = Ret L' ∧
        rep L' {| order := A1 ++ (b, l1 ++ x :: i :: y :: l2) :: A2; removed := R |}.
Proof.
  intros HR Hi HiR.
  destruct (rep_block _ _ _ _ _ _ HR eq_refl) as (Hb & Hch & Hnd & Hl & Ho).
  assert (Hu : instructions L !! i = None) by by apply (rep_unknown _ _ HR).
  assert (Hil : i ∉ l1 ++ x :: y :: l2) by naive_solver.
  apply ichain_app in Hch as [Hch1 Hch2]; cbn in Hch2; destruct Hch2 as (Hx & Hy & Hch2).
  replace R with (R ∖ {[i]}) by set_solver. replace (R ∖ {[i]}) with R in HR by set_solver.
  apply NoDup_app in Hnd as (Hn1 & Hn2 & Hn3).
  apply NoDup_cons in Hn3 as [Hn3 Hn4]. apply NoDup_cons in Hn4 as [Hn4 Hn5].
  unfold insert_inst_after, enter_inst.
  assert (x ≠ i) by set_solver. assert (y ≠ i) by set_solver. assert (y ≠ x) by set_solver.
  layout_run. eexists; split; [reflexivity|].
  eapply (rep_insert L); [done..|solve_Permutation|done|done|layout_frame| |layout_frame|].
  - cbn. rewrite Hb. do 2 f_equal; [by destruct l1|]. by rewrite !last_app.
  - apply ichain_app. split.
    + cbn. layout_chain.
    + cbn. split_and!; [layout_lookup|layout_new Hu|layout_lookup|layout_chain].
Qed.

(** Taking [i] out of its chain, whatever its neighbours are. *)
Lemma rep_remove L L' A1 b l1 i l2 A2 R :
  rep L {| order := A1 ++ (b, l1 ++ i :: l2) :: A2; removed := R |} →
  first_block L' = first_block L → last_block L' = last_block L →
  (∀ c, c ≠ b → basic_blocks L' !! c = basic_blocks L !! c) →
  basic_blocks L' !! b = Some {| _prev := last (A1.*1); next_block := head (A2.*1);
                                 first_inst := head (l1 ++ l2); last_inst := last (l1 ++ l2) |} →
  (∀ x, x ∉ l1 ++ i :: l2 → instructions L' !! x = instructions L !! x) →
  instructions L' !! i = Some unode →
  ichain (instructions L') b None (l1 ++ l2) None →
  rep L' {| order := A1 ++ (b, l1 ++ l2) :: A2; removed := {[i]} ∪ R |}.
Proof.
  intros HR Hf Hla Hbo Hbb Hio Hii Hch.
  pose proof (rep_linked _ _ HR) as Hn. rewrite linked_split in Hn.
  apply NoDup_app in Hn as (Hn & Hd & _).
  assert (Hp : l1 ++ i :: l2 ≡ₚ i :: l1 ++ l2) by solve_Permutation.
  rewrite Hp in Hn. apply NoDup_cons in Hn as [Hn1 Hn2].
  eapply (rep_update L); [exact HR|done..| |done|done| | |].
  - intros x Hx _. by apply Hio.
  - intros x Hx. left. rewrite Hp. by right.
  - intros x [->%elem_of_singleton|Hx]%elem_of_union.
    + split_and!; [done|right; set_solver|done].
    + destruct (rep_removed _ _ HR x) as [Hx1 Hx2]; [done|].
      rewrite linked_split in Hx1. rewrite Hio by set_solver.
      split_and!; [set_solver|by left|done].
  - intros x Hx. rewrite Hp in Hx. set_solver.
Qed.

Lemma remove_inst_rep L A1 b l1 i l2 A2 R :
  rep L {| order := A1 ++ (b, l1 ++ i :: l2) :: A2; removed := R |} →
  ∃ L', remove_inst L i = Ret (L', true) ∧
        rep L' {| order := A1 ++ (b, l1 ++ l2) :: A2; removed := {[i]} ∪ R |}.
Proof.
  intros HR.
  destruct (rep_block _ _ _ _ _ _ HR eq_refl) as (Hb & Hch & Hnd & Hl & Ho).
  apply NoDup_app in Hnd as (Hn1 & Hn2 & Hn3). apply NoDup_cons in Hn3 as [Hn3 Hn4].
  apply ichain_app in Hch as [Hch1 Hch2]; cbn in Hch2; destruct Hch2 as [Hi Hch2].
  assert (i ∉ l1) by set_solver.
  unfold remove_inst, try_upd_inst, try_upd_block. rewrite (inst_at_Some _ _ _ Hi); cbn.
  destruct (last l1) as [p|] eqn:Hp.
  - apply last_Some in Hp as [l0 ->].
    apply ichain_app in Hch1 as [Hch0 Hp]; cbn in Hp; destruct Hp as [Hp _].
    apply NoDup_app in Hn1 as (Hn0 & Hn1 & _). assert (p ≠ i) by set_solver.
    assert (Hlast : last_or None (l0 ++ [p]) = Some p) by (rewrite last_or_app; done).
    rewrite Hlast. cbn. rewrite lookup_insert_ne, Hp by congruence. cbn.
    destruct l2 as [|x l2]; cbn.
    + rewrite Hb; cbn. eexists; split; [reflexivity|].
      eapply (rep_remove L); [exact HR|done|done|layout_frame| |layout_frame| |].
      * cbn -[head last]. rewrite lookup_insert_eq. unfold bset_last; cbn -[head last].
        rewrite app_nil_r, last_snoc. by destruct l0.
      * layout_lookup.
      * rewrite app_nil_r. apply ichain_app. split; [cbn; layout_chain|].
        cbn. split; [layout_lookup|done].
    + destruct Hch2 as [Hx Hch2]. apply NoDup_cons in Hn4 as [Hn4 Hn5].
      assert (x ≠ i) by set_solver. assert (p ≠ x) by set_solver.
      rewrite !lookup_insert_ne, Hx by congruence; cbn. eexists; split; [reflexivity|].
      eapply (rep_remove L); [exact HR|done|done|layout_frame| |layout_frame| |].
      * cbn -[head last]. rewrite Hb, !last_app. by destruct l0.
      * layout_lookup.
      * rewrite <-app_assoc. apply ichain_app. split; [cbn; layout_chain|].
        cbn. split_and!; [layout_lookup..|layout_chain].
  - apply last_None in Hp as ->. cbn in *. rewrite Hb; cbn.
    destruct l2 as [|x l2]; cbn.
    + rewrite lookup_insert_eq; cbn. eexists; split; [reflexivity|].
      eapply (rep_remove L _ A1 b [] i []); [exact HR|done|done|layout_frame| |layout_frame| |done].
      * cbn. by rewrite lookup_insert_eq.
      * layout_lookup.
    + destruct Hch2 as [Hx Hch2]. apply NoDup_cons in Hn4 as [Hn4 Hn5].
      assert (x ≠ i) by set_solver.
      rewrite lookup_insert_ne, Hx by congruence; cbn. eexists; split; [reflexivity|].
      eapply (rep_remove L _ A1 b [] i (x :: l2)); [exact HR|done|done|layout_frame| |layout_frame| |].
      * cbn. by rewrite lookup_insert_eq.
      * layout_lookup.
      * cbn. split_and!; [layout_lookup|layout_chain].
Qed.

Lemma bchain_snoc m m' p A b :
  NoDup (A.*1 ++ [b]) →
  (∀ c, c ≠ b → last A.*1 ≠ Some c → m' !! c = m !! c) →
  (∀ c n, last A.*1 = Some c → m !! c = Some n → m' !! c = Some (bset_next (Some b) n)) →
  m' !! b = Some {| _prev := last_or p A.*1; next_block := None;
                    first_inst := None; last_inst := None |} →
  bchain m p A → bchain m' p (A ++ [(b, [])]).
Proof.
  revert p. induction A as [|[c k] A IH]; intros p Hn Hm Hl Hb HA; [by cbn|].
  cbn in Hn. apply NoDup_cons in Hn as [Hn1 Hn2]. destruct HA as [Hc HA].
  cbn [app bchain]. destruct A as [|[d j] A].
  - cbn in *. split; [by rewrite (Hl c _ eq_refl Hc)|done].
  - split.
    + rewrite Hm, Hc; [done|set_solver|].
      intros Hlast. apply Hn1. apply elem_of_app. left. by apply (last_Some_elem_of ((d, j) :: A).*1).
    + apply IH; try done. by cbn in Hb; rewrite last_or_cons in Hb.
Qed.

Lemma append_block_rep L o R b :
  rep L {| order := o; removed := R |} → b ∉ o.*1 →
  ∃ L', append_block L b = Ret L' ∧ rep L' {| order := o ++ [(b, [])]; removed := R |}.
Proof.
  intros [Hk Hl Hf Hla Hb Hob Hi Hr Hu] Hbo. cbn in *.
  assert (Hnone : basic_blocks L !! b = None) by by apply Hob.
  assert (Hlk : ∀ S T, linked {| order := o ++ [(b, [])]; removed := S |} =
                       linked {| order := o; removed := T |}).
  { intros S T. unfold linked; cbn. rewrite fmap_app, concat_app; cbn. by rewrite app_nil_r. }
  assert (HnD : NoDup (o.*1 ++ [b])).
  { apply NoDup_app. split_and!; [done|set_solver|apply NoDup_singleton]. }
  unfold append_block. rewrite Hnone; cbn.
  assert (Hfin : ∀ m, bchain m None (o ++ [(b, [])]) →
    (∀ c, c ∉ o.*1 → c ≠ b → m !! c = None) →
    rep {| basic_blocks := m; instructions := instructions L;
           first_block := match first_block L with None => Some b | f => f end;
           last_block := Some b |} {| order := o ++ [(b, [])]; removed := R |}).
  { intros m Hm Hmo. constructor; cbn; rewrite ?fmap_app, ?(Hlk R R); try done.
    - rewrite Hf. by destruct o as [|[??]?].
    - cbn. by rewrite last_snoc.
    - intros c Hc. apply Hmo; set_solver.
    - intros c k [Hck|Hck]%elem_of_app; [by apply Hi|].
      apply list_elem_of_singleton in Hck. by injection Hck as -> ->. }
  destruct (last_block L) as [c|] eqn:Hc.
  - assert (Hcn : c ≠ b). { intros ->. apply Hbo. by apply last_Some_elem_of. }
    assert (∃ n, basic_blocks L !! c = Some n) as [n Hn].
    { symmetry in Hla. rewrite fmap_last in Hla. apply fmap_Some in Hla as ([c' k] & Hck & ->).
      apply last_Some in Hck as [o' ->]. cbn. eexists. by apply (bchain_lookup _ o' _ k []). }
    layout_run. eexists; split; [reflexivity|]. apply Hfin.
    + eapply bchain_snoc; [done| | | |exact Hb].
      * intros d ??. rewrite !lookup_insert_ne by congruence. done.
      * intros d n' Hd Hn'. rewrite <-Hla in Hd; injection Hd as <-.
        rewrite lookup_insert_ne, lookup_insert_eq by congruence. congruence.
      * rewrite lookup_insert_eq, last_or_None, <-Hla. done.
    + intros d Hd1 Hd2. assert (d ≠ c). { intros ->. apply Hd1. by apply last_Some_elem_of. }
      rewrite !lookup_insert_ne by congruence. by apply Hob.
  - cbn. eexists; split; [reflexivity|]. apply Hfin.
    + eapply bchain_snoc; [done| | | |exact Hb].
      * intros d ??. by rewrite !lookup_insert_ne by congruence.
      * intros d n' Hd. congruence.
      * by rewrite lookup_insert_eq, last_or_None, <-Hla.
    + intros d Hd1 Hd2. rewrite lookup_insert_ne by congruence. by apply Hob.
Qed.


(** ** Iteration *)

Lemma in_dom_size (m : gmap nat InstructionNode) (l : list nat) :
  NoDup l → (∀ x, x ∈ l → is_Some (m !! x)) → (length l ≤ size m)%nat.
Proof.
  intros Hn Hl. rewrite <-size_dom, <-(size_list_to_set (C := gset nat)) by done.
  apply subseteq_size. intros x Hx%elem_of_list_to_set. by apply elem_of_dom, Hl.
Qed.

(** Only the nodes before the last instruction are read. *)
Lemma inst_drain L b bn p l x fuel :
  basic_blocks L !! b = Some bn → last_inst bn = Some x →
  NoDup (l ++ [x]) → ichain (instructions L) b p l (Some x) → (length (l ++ [x]) ≤ fuel)%nat →
  drain (InstructionIter_next L b) fuel (head (l ++ [x])) = Ret (l ++ [x]).
Proof.
  intros Hb Hlast. revert p fuel. induction l as [|y l IH]; intros p fuel Hn Hc Hf.
  - destruct fuel as [|fuel]; [cbn in Hf; lia|]. cbn.
    rewrite (block_at_Some _ _ _ Hb). cbn. rewrite decide_True by done. by destruct fuel.
  - destruct fuel as [|fuel]; [cbn in Hf; lia|]. cbn.
    rewrite (block_at_Some _ _ _ Hb). cbn.
    apply NoDup_cons in Hn as [Hy Hn]. destruct Hc as [Hi Hc].
    rewrite decide_False by (rewrite Hlast; intros [=]; set_solver).
    rewrite (inst_at_Some _ _ _ Hi). cbn.
    replace (head_or l (Some x)) with (head (l ++ [x])) by (by destruct l).
    rewrite (IH (Some y)); [done|done|done|cbn in Hf; lia].
Qed.

Lemma rep_inst_iter L A b l :
  rep L A → insts_of (order A) b = Some l → inst_iter L b = Ret l.
Proof.
  intros HR (A1 & A2 & HA)%insts_of_split.
  destruct (rep_block _ _ _ _ _ _ HR HA) as (Hb & Hch & Hnd & _ & _).
  unfold inst_iter. rewrite (block_at_Some _ _ _ Hb). cbn.
  assert (Hsz : (length l ≤ size (instructions L))%nat).
  { apply in_dom_size; [done|]. intros x Hx. apply (ichain_elem _ _ _ _ _ _ Hch Hx). }
  destruct (last l) as [x|] eqn:Hx.
  - apply last_Some in Hx as [l0 ->]. apply ichain_app in Hch as [Hch _].
    by eapply (inst_drain _ _ _ None).
  - apply last_None in Hx as ->. by destruct (size _).
Qed.

Lemma block_drain L A p fuel :
  bchain (basic_blocks L) p A → (length A ≤ fuel)%nat →
  drain (BasicBlockIter_next L) fuel (head A.*1) = Ret A.*1.
Proof.
  revert p fuel. induction A as [|[b l] A IH]; intros p fuel Hc Hf; [by destruct fuel|].
  destruct fuel as [|fuel]; cbn in Hf; [lia|]. destruct Hc as [Hb Hc].
  cbn. rewrite (block_at_Some _ _ _ Hb). cbn. rewrite (IH (Some b)); [done|done|lia].
Qed.

Lemma bchain_dom m p A b : bchain m p A → b ∈ A.*1 → is_Some (m !! b).
Proof.
  revert p. induction A as [|[c k] A IH]; cbn; intros p Hc Hb; [set_solver|].
  destruct Hc as [Hk Hc]. apply elem_of_cons in Hb as [->|Hb]; eauto.
Qed.

Lemma rep_block_iter L A : rep L A → block_iter L = Ret (order A).*1.
Proof.
  intros HR. unfold block_iter. rewrite (rep_first _ _ HR).
  eapply block_drain; [apply (rep_blocks _ _ HR)|].
  rewrite <-(length_fmap fst), <-size_dom.
  rewrite <-(size_list_to_set (C := gset nat)) by apply (rep_keys _ _ HR).
  apply subseteq_size. intros x Hx%elem_of_list_to_set.
  apply elem_of_dom. eapply bchain_dom; [apply (rep_blocks _ _ HR)|done].
Qed.

(** ** The layout refines the list of lists *)

Lemma rep_new : rep new {| order := []; removed := ∅ |}.
Proof. constructor; cbn; try done; intros; set_solver || apply NoDup_nil_2 || idtac. Qed.

Lemma insts_of_linked A b l x :
  insts_of (order A) b = Some l → x ∈ l → x ∈ linked A.
Proof.
  intros (A1 & A2 & HA)%insts_of_split Hx. unfold linked. apply (in_block b l); [|done].
  rewrite HA. set_solver.
Qed.

Lemma linked_block A i :
  i ∈ linked A → ∃ A1 b l1 l2 A2, order A = A1 ++ (b, l1 ++ i :: l2) :: A2.
Proof.
  unfold linked. induction (order A) as [|[b l] o IH]; cbn; [set_solver|].
  intros [Hi|Hi]%elem_of_app.
  - apply list_elem_of_split in Hi as (l1 & l2 & ->). by exists [], b, l1, l2, o.
  - destruct (IH Hi) as (A1 & c & l1 & l2 & A2 & ->). by exists ((b, l) :: A1), c, l1, l2, A2.
Qed.

Lemma del_others i (A : list (BasicBlockId * list InstructionId)) :
  i ∉ concat A.*2 → map (λ '(b, l), (b, del i l)) A = A.
Proof.
  induction A as [|[b l] A IH]; cbn; intros Hi; [done|].
  rewrite del_skip, IH; [done|set_solver|set_solver].
Qed.

Lemma step_refines L A o A' :
  rep L A → spec_step A o = Some A' → ∃ L', step L o = Ret L' ∧ rep L' A'.
Proof.
  intros HR Ho. destruct A as [ord R]. pose proof (rep_keys _ _ HR) as Hk. cbn in Hk.
  destruct o as [b|i b|i b|x i b|x i b|i]; cbn in Ho; case_decide as Hd; try done.
  - injection Ho as <-. by apply append_block_rep.
  - apply Decidable.not_or in Hd as [Hi Hb]. apply dec_stable in Hb.
    apply key_split in Hb as (A1 & l & A2 & ->). rewrite on_block_split in Ho by done.
    injection Ho as <-. by apply append_inst_rep.
  - apply Decidable.not_or in Hd as [Hi Hb]. apply dec_stable in Hb.
    apply key_split in Hb as (A1 & l & A2 & ->). rewrite on_block_split in Ho by done.
    injection Ho as <-. by apply insert_inst_at_start_rep.
  - apply bind_Some in Ho as (l & Hl & Ho). case_decide as Hx; [|done]. injection Ho as <-.
    apply insts_of_split in Hl as (A1 & A2 & ->). rewrite on_block_split by done.
    apply Decidable.not_or in Hd as [Hi HiR]. apply list_elem_of_split in Hx as (l1 & l2 & ->).
    destruct (rep_block _ _ _ _ _ _ HR eq_refl) as (_ & _ & Hn & _).
    apply NoDup_app in Hn as (_ & Hn & _).
    rewrite ins_before_split by set_solver. by apply insert_inst_before_rep.
  - apply bind_Some in Ho as (l & Hl & Ho). case_decide as Hx; [|done]. injection Ho as <-.
    apply insts_of_split in Hl as (A1 & A2 & ->). rewrite on_block_split by done.
    apply Decidable.not_or in Hd as [Hi HiR]. destruct Hx as [Hx Hlast].
    apply list_elem_of_split in Hx as (l1 & l2 & ->).
    destruct (rep_block _ _ _ _ _ _ HR eq_refl) as (_ & _ & Hn & _).
    apply NoDup_app in Hn as (_ & Hn & _).
    rewrite ins_after_split by set_solver.
    destruct l2 as [|y l2]; [by rewrite last_snoc in Hlast|]. by apply insert_inst_after_rep.
  - injection Ho as <-. destruct (linked_block _ _ Hd) as (A1 & b & l1 & l2 & A2 & HA).
    cbn in HA. subst ord.
    destruct (rep_block _ _ _ _ _ _ HR eq_refl) as (_ & _ & Hn & _ & _).
    pose proof (rep_linked _ _ HR) as Hn2. rewrite linked_split in Hn2.
    apply NoDup_app in Hn as (_ & Hn & Hn'). apply NoDup_cons in Hn' as [Hn' _].
    apply NoDup_app in Hn2 as (_ & Hn2 & _).
    assert (Hi : i ∉ concat (A1 ++ A2).*2) by (apply Hn2; set_solver).
    rewrite fmap_app, concat_app in Hi.
    rewrite map_app; cbn. rewrite del_split, !del_others by set_solver.
    destruct (remove_inst_rep _ _ _ _ _ _ _ _ HR) as (L' & HL' & HR').
    cbn. rewrite HL'. cbn. eauto.
Qed.

Definition spec_run (A : seq_layout) (os : list op) : option seq_layout :=
  foldl (λ A o, A ← A; spec_step A o) (Some A) os.

Lemma run_refines (os : list op) (A : seq_layout) :
  spec_run {| order := []; removed := ∅ |} os = Some A → ∃ L, foldM step new os = Ret L ∧ rep L A.
Proof.
  generalize rep_new. unfold spec_run. generalize new {| order := []; removed := ∅ |}.
  induction os as [|o os IH]; cbn; intros L B HR HA; [naive_solver|].
  destruct (spec_step B o) as [B'|] eqn:HB.
  - destruct (step_refines _ _ _ _ HR HB) as (L' & -> & HR'). by apply (IH _ B').
  - exfalso. clear -HA. induction os as [|o os IH]; [done|]. by apply IH.
Qed.

(** C5: Any sequence of calls to the linked layout of a machine function that
    respects its contract (a block appended once, an instruction linked at
    most once, insertions next to an instruction of the block) runs without a
    panic, and the doubly linked maps then represent the list of lists that
    the abstract layout computes: the block and instruction iterators give
    exactly its blocks and instructions, in order. *)
Theorem layout_refines (os : list op) (A : seq_layout) :
  spec_run {| order := []; removed := ∅ |} os = Some A →
  ∃ L, foldM step new os = Ret L ∧ rep L A
    ∧ block_iter L = Ret (order A).*1
    ∧ ∀ b l, insts_of (order A) b = Some l → inst_iter L b = Ret l.
Proof.
  intros (L & HL & HR)%run_refines. exists L. split_and!; [done|done|by apply rep_block_iter|].
  intros b l Hl. by eapply rep_inst_iter.
Qed.

Lemma layout_refines_witness :
  let os := [AppendBlock 0; AppendBlock 1; AppendInst 0 0; AppendInst 1 1; InsertAtStart 2 1;
             InsertBefore 1 3 1; RemoveInst 2; InsertAfter 3 4 1; AppendInst 2 0]%nat in
  let A := {| order := [(0, [0; 2]); (1, [3; 4; 1])]%nat; removed := ∅ |} in
  spec_run {| order := []; removed := ∅ |} os = Some A
  ∧ ∃ L, foldM step new os = Ret L ∧ rep L A
    ∧ block_iter L = Ret (order A).*1
    ∧ ∀ b l, insts_of (order A) b = Some l → inst_iter L b = Ret l.
Proof. split; [vm_compute; reflexivity|]. apply layout_refines. vm_compute. reflexivity. Defined.

(** insert_inst_after on the last instruction of a block links the new
    instruction behind it but not into the block: the block's last instruction
    stays the old one and the iterator does not reach the new one. *)
Theorem insert_inst_after_end_is_lost L A b l x i :
  rep L A → insts_of (order A) b = Some (l ++ [x]) → i ∉ linked A → i ∉ removed A →
  ∃ L', insert_inst_after L x i b = Ret L' ∧ inst_iter L' b = Ret (l ++ [x])
    ∧ last_inst_of L' b = Ret (Some x) ∧ next_inst_of L' x = Ret (Some i).
Proof.
  intros HR (A1 & A2 & HA)%insts_of_split Hi HiR.
  destruct (rep_block _ _ _ _ _ _ HR HA) as (Hb & Hch & Hnd & Hl & _).
  assert (Hil : i ∉ l ++ [x]) by naive_solver. apply ichain_app in Hch as Hch2.
  destruct Hch2 as [Hch1 [Hx _]]. cbn in Hx.
  apply NoDup_app in Hnd as Hnd'. destruct Hnd' as (_ & Hxl & _).
  unfold insert_inst_after, enter_inst. assert (x ≠ i) by set_solver.
  layout_run. eexists; split; [reflexivity|]. split_and!.
  - unfold inst_iter. erewrite (block_at_Some b) by exact Hb. cbn.
    eapply (inst_drain _ _ _ None); [exact Hb|by rewrite last_snoc|done| |].
    + cbn. layout_chain.
    + apply in_dom_size; [done|]. intros y [Hy| ->%list_elem_of_singleton]%elem_of_app.
      * destruct (ichain_elem _ _ _ _ _ _ Hch1 Hy) as [v Hv].
        assert (y ≠ i) by set_solver. assert (y ≠ x) by set_solver.
        exists v. cbn. by rewrite !lookup_insert_ne by congruence.
      * cbn. rewrite lookup_insert_eq. eauto.
  - unfold last_inst_of. erewrite (block_at_Some b) by exact Hb. cbn. by rewrite last_snoc.
  - unfold next_inst_of. cbn. by erewrite inst_at_Some by (cbn; apply lookup_insert_eq).
Qed.

Lemma insert_inst_after_end_is_lost_witness :
  ∃ L, foldM step new [AppendBlock 0; AppendInst 0 0; AppendInst 1 0]%nat = Ret L
  ∧ ∃ L', insert_inst_after L 1 2 0 = Ret L' ∧ inst_iter L' 0 = Ret ([0] ++ [1])%nat
    ∧ last_inst_of L' 0 = Ret (Some 1%nat) ∧ next_inst_of L' 1 = Ret (Some 2%nat).
Proof.
  destruct (run_refines [AppendBlock 0; AppendInst 0 0; AppendInst 1 0]%nat
    {| order := [(0, [0; 1])]%nat; removed := ∅ |}) as (L & HL & HR); [vm_compute; reflexivity|].
  exists L. split; [exact HL|].
  eapply (insert_inst_after_end_is_lost L _ 0 [0]%nat 1 2 HR); [reflexivity| |].
  - unfold linked; cbn. set_solver.
  - cbn. set_solver.
Defined.

End LayoutSpec.

(** * The layout of IR functions

    The IR has its own copy of the layout, over the ids of IR blocks and
    instructions; its operations are the same code.  What it adds is an
    iterator that runs from both ends. *)
Module IrLayout.
Import Layout LayoutSpec.

(* [codegen/core/ir/function/layout/mod.rs | pub struct BasicBlockNode] *)
Definition BasicBlockNode := Layout.BasicBlockNode.
(* [codegen/core/ir/function/layout/mod.rs | pub struct InstructionNode] *)
Definition InstructionNode := Layout.InstructionNode.
(* [codegen/core/ir/function/layout/mod.rs | pub struct Layout] *)
Definition Layout := Layout.Layout.

(* [codegen/core/ir/function/layout/mod.rs | pub fn is_empty] *)
Definition is_empty (L : Layout) : bool := bool_decide (basic_blocks L = ∅).

(* [codegen/core/ir/function/layout/mod.rs | pub fn block_node] *)
Definition block_node (L : Layout) b : comp BasicBlockNode := block_at L b.

(* [codegen/core/ir/function/layout/mod.rs | pub fn get_entry_block] *)
Definition get_entry_block (L : Layout) : option BasicBlockId := first_block L.

(* [codegen/core/ir/function/layout/mod.rs | pub fn next_block_of] *)
Definition next_block_of (L : Layout) b : comp (option BasicBlockId) := Layout.next_block_of L b.

(* [codegen/core/ir/function/layout/mod.rs | pub fn append_block] *)
Definition append_block (L : Layout) b : comp Layout := Layout.append_block L b.

(* [codegen/core/ir/function/layout/mod.rs | pub fn append_inst] *)
Definition append_inst (L : Layout) i b : comp Layout := Layout.append_inst L i b.

(* [codegen/core/ir/function/layout/mod.rs | pub fn insert_inst_at_start] *)
Definition insert_inst_at_start (L : Layout) i b : comp Layout := Layout.insert_inst_at_start L i b.

(* [codegen/core/ir/function/layout/mod.rs | pub fn remove_inst] *)
Definition remove_inst (L : Layout) i : comp (Layout * bool) := Layout.remove_inst L i.

(* [codegen/core/ir/function/layout/mod.rs | pub fn block_iter] *)
Definition block_iter (L : Layout) : comp (list BasicBlockId) := Layout.block_iter L.

(* [codegen/core/ir/function/layout/mod.rs | pub struct InstructionIter] *)
Record InstructionIter := { iter_block : BasicBlockId; head : option InstructionId; tail : option InstructionId }.

(* [codegen/core/ir/function/layout/mod.rs | pub fn inst_iter] *)
Definition inst_iter (L : Layout) b : comp InstructionIter :=
  bn ← block_at L b;
  Ret {| iter_block := b; head := first_inst bn; tail := last_inst bn |}.

(* [codegen/core/ir/function/layout/mod.rs | 180-192 | InstructionIter::next] *)
Definition next (L : Layout) (it : InstructionIter) : comp (option (InstructionId * InstructionIter)) :=
  match head it with
  | None => Ret None
  | Some cur =>
      bn ← block_at L (iter_block it);
      if decide (Some cur = last_inst bn) then
        Ret (Some (cur, {| iter_block := iter_block it; head := None; tail := tail it |}))
      else
        n ← inst_at L cur;
        Ret (Some (cur, {| iter_block := iter_block it; head := Layout.next n; tail := tail it |}))
  end.

(* [codegen/core/ir/function/layout/mod.rs | 194-205 | InstructionIter::next_back] *)
Definition next_back (L : Layout) (it : InstructionIter) : comp (option (InstructionId * InstructionIter)) :=
  match tail it with
  | None => Ret None
  | Some cur =>
      if decide (head it = tail it) then
        Ret (Some (cur, {| iter_block := iter_block it; head := None; tail := None |}))
      else
        n ← inst_at L cur;
        Ret (Some (cur, {| iter_block := iter_block it; head := head it; tail := prev n |}))
  end.

(** [iter.collect()] and [iter.rev().collect()] *)
Fixpoint collect (step : InstructionIter → comp (option (InstructionId * InstructionIter)))
    (fuel : nat) (it : InstructionIter) : comp (list InstructionId) :=
  r ← step it;
  match r with
  | None => Ret []
  | Some (x, it) =>
      match fuel with
      | 0%nat => OutOfFuel
      | S fuel => l ← collect step fuel it; Ret (x :: l)
      end
  end.

Lemma collect_next L b h t fuel :
  collect (next L) fuel {| iter_block := b; head := h; tail := t |}
  = drain (InstructionIter_next L b) fuel h.
Proof.
  revert h. induction fuel as [|fuel IH]; intros [c|]; try done;
    cbn -[decide]; unfold next; cbn -[decide]; destruct (block_at L b) as [bn| |]; try done;
    cbn -[decide]; destruct (decide (Some c = last_inst bn)); cbn; rewrite ?IH; try done;
    destruct (inst_at L c); cbn; rewrite ?IH; done.
Qed.

Lemma collect_back L b x l fuel m :
  ichain (instructions L) b m (x :: l) None → NoDup (x :: l) →
  ∀ k, k `prefix_of` l → (length (x :: k) ≤ fuel)%nat →
  collect (next_back L) fuel {| iter_block := b; head := Some x; tail := last (x :: k) |}
  = Ret (reverse (x :: k)).
Proof.
  intros Hc Hn k. revert fuel. induction k as [|y k IH] using rev_ind; intros fuel [l' ->] Hf.
  - destruct fuel as [|fuel]; cbn in Hf; [lia|]. cbn. unfold next_back; cbn.
    rewrite decide_True by done. cbn. by destruct fuel.
  - destruct fuel as [|fuel]; cbn in Hf; [lia|]. rewrite length_app in Hf; cbn in Hf.
    change (x :: k ++ [y]) with ((x :: k) ++ [y]).
    rewrite last_snoc, reverse_app. cbn. unfold next_back; cbn.
    rewrite decide_False by (intros [=]; subst; apply NoDup_cons in Hn as [Hn _]; set_solver).
    rewrite <-app_assoc in Hc. change (x :: k ++ [y] ++ l') with ((x :: k) ++ y :: l') in Hc.
    apply ichain_app in Hc as [_ [Hy _]]. rewrite (inst_at_Some _ _ _ Hy). cbn.
    replace (last_or m (x :: k)) with (last (x :: k))
      by (unfold last_or; rewrite last_cons; by destruct (last k)).
    rewrite IH; [done| |cbn; lia]. exists (y :: l'). by rewrite <-app_assoc.
Qed.

(** The iterator of the IR layout, run from the front only, gives the
    instructions of a block in order, and run from the back only gives them in
    reverse. *)
Theorem inst_iter_both_ways L A b l :
  rep L A → insts_of (order A) b = Some l →
  ∃ it, inst_iter L b = Ret it
    ∧ collect (next L) (length l) it = Ret l
    ∧ collect (next_back L) (length l) it = Ret (reverse l).
Proof.
  intros HR (A1 & A2 & HA)%insts_of_split.
  destruct (rep_block _ _ _ _ _ _ HR HA) as (Hb & Hch & Hnd & _ & _).
  unfold inst_iter. rewrite (block_at_Some _ _ _ Hb). eexists; split; [reflexivity|].
  split; [rewrite collect_next|].
  - destruct (last l) as [x|] eqn:Hx.
    + apply last_Some in Hx as [l0 ->]. apply ichain_app in Hch as [Hch _].
      by eapply (inst_drain _ _ _ None).
    + by apply last_None in Hx as ->.
  - destruct l as [|x l]; [done|].
    by eapply (collect_back _ _ _ _ _ None).
Qed.

Lemma inst_iter_both_ways_witness :
  ∃ L it, foldM step new [AppendBlock 0; AppendInst 4 0; AppendInst 5 0; AppendInst 6 0]%nat = Ret L
    ∧ inst_iter L 0 = Ret it ∧ collect (next L) 3 it = Ret [4; 5; 6]%nat
    ∧ collect (next_back L) 3 it = Ret [6; 5; 4]%nat.
Proof.
  destruct (run_refines [AppendBlock 0; AppendInst 4 0; AppendInst 5 0; AppendInst 6 0]%nat
    {| order := [(0, [4; 5; 6])]%nat; removed := ∅ |}) as (L & HL & HR); [vm_compute; reflexivity|].
  destruct (inst_iter_both_ways L _ 0 [4; 5; 6]%nat HR) as (it & H1 & H2 & H3); [reflexivity|].
  exists L, it. exact (conj HL (conj H1 (conj H2 H3))).
Defined.

(** The IR iterator run from both ends repeats instructions: after one step
    from the back, the steps from the front still go on to the block's last
    instruction. *)
Theorem inst_iter_mixed_ends_repeat :
  ∃ L it it1 it2 it3,
    foldM step new [AppendBlock 0; AppendInst 0 0; AppendInst 1 0] = Ret L
    ∧ inst_iter L 0 = Ret it
    ∧ next_back L it = Ret (Some (1%nat, it1))
    ∧ next L it1 = Ret (Some (0%nat, it2))
    ∧ next L it2 = Ret (Some (1%nat, it3)).
Proof. do 5 eexists. split_and!; vm_compute; reflexivity. Qed.

End IrLayout.
