(* ===== verification/IrTypes.v ===== *)
(** The types of the IR (codegen/core/ir/types/mod.rs) and their sizes and
    alignments (codegen/core/ir/module/data_layout/mod.rs).  A [Type] is a
    pair of an arena id and an index; the compound types live in the arena of
    a [TypesBase], which interns pointer and array types, named structs and
    named types through hash maps. *)
From S2P Require Import Prelude.

Module IrTypes.

(* [codegen/core/ir/types/mod.rs | 13-14 | Type] *)
Record Type_ := mk { arena_of : nat; index_of : nat }.

#[global] Instance type_eq_dec : EqDecision Type_.
Proof. solve_decision. Defined.
#[global] Instance type_countable : Countable Type_.
Proof.
  apply (inj_countable' (λ t, (arena_of t, index_of t)) (λ p, mk p.1 p.2)). by intros [].
Defined.

(* [codegen/core/ir/types/mod.rs | 16-16] *)
Definition VOID := mk 0 0.
(* [codegen/core/ir/types/mod.rs | 17-17] *)
Definition I1 := mk 0 1.
(* [codegen/core/ir/types/mod.rs | 18-18] *)
Definition I8 := mk 0 2.
(* [codegen/core/ir/types/mod.rs | 19-19] *)
Definition I16 := mk 0 3.
(* [codegen/core/ir/types/mod.rs | 20-20] *)
Definition I32 := mk 0 4.
(* [codegen/core/ir/types/mod.rs | 21-21] *)
Definition I64 := mk 0 5.

(* [codegen/core/ir/module/name/mod.rs | pub enum Name] *)
Inductive Name := Name_ (s : string) | Number (n : nat).

#[global] Instance name_eq_dec : EqDecision Name.
Proof. solve_decision. Defined.
#[global] Instance name_countable : Countable Name.
Proof.
  apply (inj_countable' (λ n, match n with Name_ s => inl s | Number k => inr k end)
    (λ s, match s with inl s => Name_ s | inr k => Number k end)). by intros [].
Defined.

(* [codegen/core/ir/types/mod.rs | pub struct PointerType] *)
Record PointerType := { inner : Type_; addr_space : nat }.
(* [codegen/core/ir/types/mod.rs | pub struct ArrayType] *)
Record ArrayType := { elem : Type_; num_elements : nat }.
(* [codegen/core/ir/types/mod.rs | pub struct FunctionType] *)
Record FunctionType := { ret : Type_; params : list Type_; is_var_arg : bool }.
(* [codegen/core/ir/types/mod.rs | pub struct StructType] *)
Record StructType := { name : option Name; elems : list Type_; is_packed : bool }.

#[global] Instance pointer_eq_dec : EqDecision PointerType.
Proof. solve_decision. Defined.
#[global] Instance pointer_countable : Countable PointerType.
Proof.
  apply (inj_countable' (λ t, (inner t, addr_space t))
    (λ p, {| inner := p.1; addr_space := p.2 |})). by intros [].
Defined.
#[global] Instance array_eq_dec : EqDecision ArrayType.
Proof. solve_decision. Defined.
#[global] Instance array_countable : Countable ArrayType.
Proof.
  apply (inj_countable' (λ t, (elem t, num_elements t))
    (λ p, {| elem := p.1; num_elements := p.2 |})). by intros [].
Defined.

(* [codegen/core/ir/types/mod.rs | pub enum CompoundType] *)
Inductive CompoundType :=
  | Pointer (p : PointerType)
  | Array (a : ArrayType)
  | Function_ (f : FunctionType)
  | Struct_ (s : StructType)
  | Alias (t : Type_)
  | Metadata.

(* [codegen/core/ir/types/mod.rs | struct Caches] *)
Record Caches := {
  c_pointer : gmap PointerType Type_;
  c_array : gmap ArrayType Type_;
  c_named_struct : gmap string Type_;
  c_named_types : gmap Name Type_;
  c_metadata : Type_;
}.

(* [codegen/core/ir/types/mod.rs | pub struct TypesBase] *)
Record TypesBase := {
  arena_id : nat;
  id : nat;
  compound_types : list CompoundType;
  caches : Caches;
}.

(** [arena_id] comes from a global counter that starts at 1. *)
(* [codegen/core/ir/types/mod.rs | impl Default for TypesBase >> fn default] *)
Definition new (arena_id : nat) : TypesBase :=
  {| arena_id := arena_id; id := 1; compound_types := [Metadata];
     caches := {| c_pointer := ∅; c_array := ∅; c_named_struct := ∅; c_named_types := ∅;
                  c_metadata := mk arena_id 0 |} |}.

(* [codegen/core/ir/types/mod.rs | pub fn is_primitive] *)
Definition is_primitive (t : Type_) : bool := bool_decide (arena_of t = 0%nat).
(* [codegen/core/ir/types/mod.rs | pub fn is_integer] *)
Definition is_integer (t : Type_) : bool :=
  bool_decide (t = I1) || bool_decide (t = I8) || bool_decide (t = I16)
  || bool_decide (t = I32) || bool_decide (t = I64).

(** [self.compound_types[i]] panics out of range. *)
(* [codegen/core/ir/types/mod.rs | impl TypesBase >> pub fn get] *)
Definition get (tb : TypesBase) (t : Type_) : comp (option CompoundType) :=
  if is_primitive t then Ret None
  else c ← unwrap (compound_types tb !! index_of t); Ret (Some c).

(* [codegen/core/ir/types/mod.rs | impl TypesBase >> pub fn is_pointer] *)
Definition is_pointer (tb : TypesBase) (t : Type_) : comp bool :=
  c ← get tb t; Ret (match c with Some (Pointer _) => true | _ => false end).
(* [codegen/core/ir/types/mod.rs | impl TypesBase >> pub fn is_array] *)
Definition is_array (tb : TypesBase) (t : Type_) : comp bool :=
  c ← get tb t; Ret (match c with Some (Array _) => true | _ => false end).
(* [codegen/core/ir/types/mod.rs | impl TypesBase >> pub fn is_function] *)
Definition is_function (tb : TypesBase) (t : Type_) : comp bool :=
  c ← get tb t; Ret (match c with Some (Function_ _) => true | _ => false end).
(* [codegen/core/ir/types/mod.rs | impl TypesBase >> pub fn is_struct] *)
Definition is_struct (tb : TypesBase) (t : Type_) : comp bool :=
  if decide (arena_of t = arena_id tb) then
    c ← unwrap (compound_types tb !! index_of t);
    Ret (match c with Struct_ _ => true | _ => false end)
  else Ret false.

(** Replacing the arena or a cache. *)
Definition with_types l (tb : TypesBase) : TypesBase :=
  {| arena_id := arena_id tb; id := id tb; compound_types := l; caches := caches tb |}.
Definition with_caches c (tb : TypesBase) : TypesBase :=
  {| arena_id := arena_id tb; id := id tb; compound_types := compound_types tb; caches := c |}.
Definition cache_pointer p t (tb : TypesBase) : TypesBase :=
  with_caches {| c_pointer := <[p := t]> (c_pointer (caches tb)); c_array := c_array (caches tb);
                 c_named_struct := c_named_struct (caches tb);
                 c_named_types := c_named_types (caches tb); c_metadata := c_metadata (caches tb) |} tb.
Definition cache_array a t (tb : TypesBase) : TypesBase :=
  with_caches {| c_pointer := c_pointer (caches tb); c_array := <[a := t]> (c_array (caches tb));
                 c_named_struct := c_named_struct (caches tb);
                 c_named_types := c_named_types (caches tb); c_metadata := c_metadata (caches tb) |} tb.
Definition cache_struct s t (tb : TypesBase) : TypesBase :=
  with_caches {| c_pointer := c_pointer (caches tb); c_array := c_array (caches tb);
                 c_named_struct := <[s := t]> (c_named_struct (caches tb));
                 c_named_types := c_named_types (caches tb); c_metadata := c_metadata (caches tb) |} tb.
Definition cache_name n t (tb : TypesBase) : TypesBase :=
  with_caches {| c_pointer := c_pointer (caches tb); c_array := c_array (caches tb);
                 c_named_struct := c_named_struct (caches tb);
                 c_named_types := <[n := t]> (c_named_types (caches tb));
                 c_metadata := c_metadata (caches tb) |} tb.

(** Ids are [u32]: the arena holds fewer than 2^32 types. *)
(* [codegen/core/ir/types/mod.rs | pub fn new_type] *)
Definition new_type (tb : TypesBase) (c : CompoundType) : comp (TypesBase * Type_) :=
  _ ← u32 (Z.of_nat (id tb) + 1)%Z;
  Ret ({| arena_id := arena_id tb; id := S (id tb); compound_types := compound_types tb ++ [c];
          caches := caches tb |}, mk (arena_id tb) (id tb)).

(* [codegen/core/ir/types/mod.rs | pub fn empty_named_type] *)
Definition empty_named_type (tb : TypesBase) (n : Name) : comp (TypesBase * Type_) :=
  match c_named_types (caches tb) !! n with
  | Some t => Ret (tb, t)
  | None => '(tb, t) ← new_type tb (Alias VOID); Ret (cache_name n t tb, t)
  end.

(* [codegen/core/ir/types/mod.rs | pub fn pointer] *)
Definition pointer (tb : TypesBase) (p : PointerType) : comp (TypesBase * Type_) :=
  match c_pointer (caches tb) !! p with
  | Some t => Ret (tb, t)
  | None => '(tb, t) ← new_type tb (Pointer p); Ret (cache_pointer p t tb, t)
  end.

(* [codegen/core/ir/types/mod.rs | pub fn array] *)
Definition array (tb : TypesBase) (a : ArrayType) : comp (TypesBase * Type_) :=
  match c_array (caches tb) !! a with
  | Some t => Ret (tb, t)
  | None => '(tb, t) ← new_type tb (Array a); Ret (cache_array a t tb, t)
  end.

(* [codegen/core/ir/types/mod.rs | pub fn function] *)
Definition function (tb : TypesBase) (f : FunctionType) : comp (TypesBase * Type_) :=
  new_type tb (Function_ f).

(* [codegen/core/ir/types/mod.rs | pub fn empty_struct_named] *)
Definition empty_struct_named (tb : TypesBase) (n : string) (packed : bool) : comp (TypesBase * Type_) :=
  match c_named_struct (caches tb) !! n with
  | Some t => Ret (tb, t)
  | None =>
      '(tb, t) ← new_type tb (Struct_ {| name := Some (Name_ n); elems := []; is_packed := packed |});
      Ret (cache_struct n t tb, t)
  end.

(* [codegen/core/ir/types/mod.rs | pub fn anonymous_struct] *)
Definition anonymous_struct (tb : TypesBase) (es : list Type_) (packed : bool) : comp (TypesBase * Type_) :=
  new_type tb (Struct_ {| name := None; elems := es; is_packed := packed |}).

(* [codegen/core/ir/types/mod.rs | pub fn get_struct] *)
Definition get_struct (tb : TypesBase) (n : string) : option Type_ :=
  c_named_struct (caches tb) !! n.

(** [self.compound_types[i] = c] *)
Definition set_type (tb : TypesBase) (i : nat) (c : CompoundType) : comp TypesBase :=
  _ ← unwrap (compound_types tb !! i); Ret (with_types (<[i := c]> (compound_types tb)) tb).

(** [mem::take] leaves a default struct behind: no name, no element. *)
(* [codegen/core/ir/types/mod.rs | pub fn change_to_named_type] *)
Definition change_to_named_type (tb : TypesBase) (t : Type_) (n : Name) : comp TypesBase :=
  '(tb, named) ← empty_named_type tb n;
  c ← get tb t;
  match c with
  | Some (Struct_ s) =>
      tb ← set_type tb (index_of t) (Struct_ {| name := None; elems := []; is_packed := false |});
      let tb := match n with Name_ k => cache_struct k named tb | Number _ => tb end in
      set_type tb (index_of named)
        (Struct_ {| name := Some n; elems := elems s; is_packed := is_packed s |})
  | _ => set_type tb (index_of named) (Alias t)
  end.

(* [codegen/core/ir/types/mod.rs | pub fn element(] *)
Fixpoint element (fuel : nat) (tb : TypesBase) (t : Type_) : comp (option Type_) :=
  c ← get tb t;
  match c with
  | None => Ret None
  | Some (Pointer p) => Ret (Some (inner p))
  | Some (Array a) => Ret (Some (elem a))
  | Some (Alias t) => match fuel with 0 => OutOfFuel | S fuel => element fuel tb t end
  | Some _ => Ret None
  end.

(* [codegen/core/ir/types/mod.rs | pub fn element_at(] *)
Fixpoint element_at (fuel : nat) (tb : TypesBase) (t : Type_) (i : nat) : comp (option Type_) :=
  c ← get tb t;
  match c with
  | None => Ret None
  | Some (Pointer p) => Ret (Some (inner p))
  | Some (Array a) => Ret (Some (elem a))
  | Some (Struct_ s) => Ret (elems s !! i)
  | Some (Alias t) => match fuel with 0 => OutOfFuel | S fuel => element_at fuel tb t i end
  | Some _ => Ret None
  end.

(* [codegen/core/ir/types/mod.rs | pub fn element_at_(] *)
Fixpoint element_at_ (fuel : nat) (tb : TypesBase) (t : Type_) (indices : list nat) : comp (option Type_) :=
  match indices with
  | [] => Ret (Some t)
  | i :: indices =>
      r ← element_at fuel tb t i;
      match r with
      | Some t => element_at_ fuel tb t indices
      | None => Ret None
      end
  end.

(** ** Interning *)

(** [t] is a type of this arena whose definition satisfies [P]. *)
Definition holds (tb : TypesBase) (t : Type_) (P : CompoundType → Prop) : Prop :=
  arena_of t = arena_id tb ∧ ∃ c, compound_types tb !! index_of t = Some c ∧ P c.

(** A definition that may change. *)
Definition flexible (c : CompoundType) : Prop :=
  match c with Alias _ | Struct_ _ => True | _ => False end.

(** What the caches say about the arena: an entry of the pointer and array
    caches is the type it names, and the types that get their definition later
    are aliases or structs. *)
Record wf (tb : TypesBase) : Prop := {
  wf_arena : arena_id tb ≠ 0%nat;
  wf_id : id tb = length (compound_types tb);
  wf_pointer : ∀ p t, c_pointer (caches tb) !! p = Some t → holds tb t (λ c, c = Pointer p);
  wf_array : ∀ a t, c_array (caches tb) !! a = Some t → holds tb t (λ c, c = Array a);
  wf_named : ∀ n t, c_named_types (caches tb) !! n = Some t →
    holds tb t flexible;
}.

(** Pointer and array types keep their meaning. *)
Definition extends (tb tb' : TypesBase) : Prop :=
  arena_id tb' = arena_id tb
  ∧ (∀ i p, compound_types tb !! i = Some (Pointer p) → compound_types tb' !! i = Some (Pointer p))
  ∧ (∀ i a, compound_types tb !! i = Some (Array a) → compound_types tb' !! i = Some (Array a))
  ∧ (∀ p t, c_pointer (caches tb) !! p = Some t → c_pointer (caches tb') !! p = Some t)
  ∧ (∀ a t, c_array (caches tb) !! a = Some t → c_array (caches tb') !! a = Some t).

Lemma holds_grow tb tb' t P l :
  arena_id tb' = arena_id tb → compound_types tb' = compound_types tb ++ l →
  holds tb t P → holds tb' t P.
Proof.
  intros Ha Hl (Ht & c & Hc & HP). split; [congruence|]. exists c. split; [|done].
  rewrite Hl. by apply lookup_app_l_Some.
Qed.

Lemma holds_last tb c P : wf tb → P c →
  holds {| arena_id := arena_id tb; id := S (id tb); compound_types := compound_types tb ++ [c];
           caches := caches tb |} (mk (arena_id tb) (id tb)) P.
Proof.
  intros Hw HP. split; [done|]. exists c. split; [|done]. cbn.
  rewrite (wf_id _ Hw). apply list_lookup_middle. done.
Qed.

Lemma extends_refl tb : extends tb tb.
Proof. by split_and!. Qed.

Lemma extends_trans tb1 tb2 tb3 : extends tb1 tb2 → extends tb2 tb3 → extends tb1 tb3.
Proof. unfold extends. intros (?&?&?&?&?) (?&?&?&?&?). split_and!; [congruence|auto..]. Qed.

#[global] Instance extends_preorder : PreOrder extends.
Proof. split; [intros ?; apply extends_refl|intros ???; apply extends_trans]. Qed.

Lemma new_type_wf tb c tb' t :
  wf tb → new_type tb c = Ret (tb', t) →
  wf tb' ∧ extends tb tb' ∧ arena_of t = arena_id tb' ∧ caches tb' = caches tb
  ∧ compound_types tb' !! index_of t = Some c ∧ arena_of t ≠ 0%nat.
Proof.
  unfold new_type. intros Hw H. comp_inv. pose proof (wf_id _ Hw) as Hid. split_and!; cbn; try done.
  - constructor; cbn; [apply Hw|rewrite length_app; cbn; lia|..];
      intros ?? Hc; (eapply holds_grow; [|reflexivity|]; [done|]);
      by first [apply (wf_pointer _ Hw)|apply (wf_array _ Hw)|apply (wf_named _ Hw _ _ Hc)].
  - split_and!; cbn; try done; intros; by apply lookup_app_l_Some.
  - rewrite Hid. by apply list_lookup_middle.
  - apply Hw.
Qed.

(** Caching a new type. *)
Lemma cache_wf tb tb' :
  wf tb → arena_id tb' = arena_id tb → id tb' = id tb → compound_types tb' = compound_types tb →
  (∀ p t, c_pointer (caches tb') !! p = Some t →
     c_pointer (caches tb) !! p = Some t ∨ holds tb t (λ c, c = Pointer p)) →
  (∀ a t, c_array (caches tb') !! a = Some t →
     c_array (caches tb) !! a = Some t ∨ holds tb t (λ c, c = Array a)) →
  (∀ n t, c_named_types (caches tb') !! n = Some t →
     c_named_types (caches tb) !! n = Some t ∨ holds tb t flexible) →
  wf tb'.
Proof.
  intros [H1 H2 H3 H4 H5] Ha Hi Hc Hp Har Hn.
  assert (Hh : ∀ t P, holds tb t P → holds tb' t P).
  { unfold holds. by rewrite Ha, Hc. }
  constructor; [congruence|congruence|..]; intros k t Hk; apply Hh.
  - destruct (Hp _ _ Hk); auto.
  - destruct (Har _ _ Hk); auto.
  - destruct (Hn _ _ Hk) as [?|?]; eauto.
Qed.

Lemma insert_cases {K V} `{Countable K} (m : gmap K V) k v k' v' :
  <[k := v]> m !! k' = Some v' → (k' = k ∧ v' = v) ∨ m !! k' = Some v'.
Proof. rewrite lookup_insert_Some. naive_solver. Qed.

Ltac cached :=
  intros ?? [[-> ->]|?]%insert_cases; [right|by left];
  split; [done|eexists; split; [eassumption|done]].

Ltac keeps :=
  intros ?? ?; rewrite lookup_insert_ne; [done|congruence].

Lemma pointer_wf tb p tb' t :
  wf tb → pointer tb p = Ret (tb', t) →
  wf tb' ∧ extends tb tb' ∧ c_pointer (caches tb') !! p = Some t.
Proof.
  unfold pointer. intros Hw H. destruct (_ !! p) eqn:Hp; [comp_inv; by split_and!|].
  apply bind_Ret in H as ([tb1 t1] & H1 & H). cbn in H. comp_inv.
  apply new_type_wf in H1 as (Hw1 & He & Ha & Hc & Ht & _); [|done]. split_and!.
  - eapply (cache_wf tb1); cbn; try done; try (intros; by left). cached.
  - etrans; [done|]. split_and!; cbn; try done. rewrite Hc. intros q u Hq.
    rewrite lookup_insert_ne; [done|congruence].
  - cbn. apply lookup_insert_eq.
Qed.

Lemma array_wf tb a tb' t :
  wf tb → array tb a = Ret (tb', t) →
  wf tb' ∧ extends tb tb' ∧ c_array (caches tb') !! a = Some t.
Proof.
  unfold array. intros Hw H. destruct (_ !! a) eqn:Hp; [comp_inv; by split_and!|].
  apply bind_Ret in H as ([tb1 t1] & H1 & H). cbn in H. comp_inv.
  apply new_type_wf in H1 as (Hw1 & He & Ha & Hc & Ht & _); [|done]. split_and!.
  - eapply (cache_wf tb1); cbn; try done; try (intros; by left). cached.
  - etrans; [done|]. split_and!; cbn; try done. rewrite Hc. intros q u Hq.
    rewrite lookup_insert_ne; [done|congruence].
  - cbn. apply lookup_insert_eq.
Qed.

Lemma empty_named_type_wf tb n tb' t :
  wf tb → empty_named_type tb n = Ret (tb', t) →
  wf tb' ∧ extends tb tb' ∧ holds tb' t flexible.
Proof.
  unfold empty_named_type. intros Hw H. destruct (_ !! n) eqn:Hp.
  { comp_inv. split_and!; [done..|]. by eapply wf_named. }
  apply bind_Ret in H as ([tb1 t1] & H1 & H). cbn in H. comp_inv.
  apply new_type_wf in H1 as (Hw1 & He & Ha & Hc & Ht & _); [|done]. split_and!.
  - eapply (cache_wf tb1); cbn; try done; try (intros; by left). cached.
  - etrans; [done|]. by split_and!.
  - split; [done|]. eexists; split; [eassumption|done].
Qed.

Lemma cache_struct_wf tb n t : wf tb → wf (cache_struct n t tb).
Proof. intros Hw. eapply (cache_wf tb); cbn; try done; intros; by left. Qed.

Lemma cache_struct_extends tb n t : extends tb (cache_struct n t tb).
Proof. by split_and!. Qed.

Lemma empty_struct_named_wf tb n b tb' t :
  wf tb → empty_struct_named tb n b = Ret (tb', t) → wf tb' ∧ extends tb tb'.
Proof.
  unfold empty_struct_named. intros Hw H. destruct (_ !! n) eqn:Hp; [comp_inv; by split|].
  apply bind_Ret in H as ([tb1 t1] & H1 & H). cbn in H. comp_inv.
  apply new_type_wf in H1 as (Hw1 & He & _); [|done]. split; [by apply cache_struct_wf|].
  etrans; [done|]. apply cache_struct_extends.
Qed.

Lemma set_type_wf tb i c0 c tb' :
  wf tb → compound_types tb !! i = Some c0 → flexible c0 → flexible c →
  set_type tb i c = Ret tb' →
  wf tb' ∧ extends tb tb' ∧ (∀ t, holds tb t flexible → holds tb' t flexible).
Proof.
  intros Hw Hi H0 Hc H. unfold set_type in H. rewrite Hi in H. cbn in H. comp_inv.
  assert (Hk : ∀ t P, (∀ c, P c → ¬ flexible c) → holds tb t P →
    holds (with_types (<[i:=c]> (compound_types tb)) tb) t P).
  { intros t P HP (Ha & d & Hd & Hp). split; [done|]. exists d. split; [|done]. cbn.
    rewrite list_lookup_insert_ne; [done|]. intros ->. rewrite Hi in Hd.
    injection Hd as ->. by apply (HP d). }
  assert (Hf : ∀ t, holds tb t flexible →
    holds (with_types (<[i:=c]> (compound_types tb)) tb) t flexible).
  { intros t (Ha & d & Hd & Hp). split; [done|]. cbn.
    destruct (decide (i = index_of t)) as [->|Hne].
    - exists c. split; [|done]. apply list_lookup_insert_eq. by eapply lookup_lt_Some.
    - exists d. split; [|done]. by rewrite list_lookup_insert_ne. }
  split_and!; [|split_and!|done]; cbn; try done.
  - constructor; cbn; [apply Hw|rewrite length_insert; apply Hw|..]; intros k t Hkt.
    + apply Hk; [intros ? -> []|by apply (wf_pointer _ Hw)].
    + apply Hk; [intros ? -> []|by apply (wf_array _ Hw)].
    + apply Hf. by eapply wf_named.
  - intros j p Hj. rewrite list_lookup_insert_ne; [done|]. intros ->. by simplify_eq.
  - intros j p Hj. rewrite list_lookup_insert_ne; [done|]. intros ->. by simplify_eq.
Qed.

Lemma change_to_named_type_wf tb t n tb' :
  wf tb → change_to_named_type tb t n = Ret tb' → wf tb' ∧ extends tb tb'.
Proof.
  unfold change_to_named_type. intros Hw H.
  apply bind_Ret in H as ([tb1 named] & H1 & H). cbn in H.
  apply empty_named_type_wf in H1 as (Hw1 & He1 & Hn); [|done].
  apply bind_Ret in H as (c & Hc & H).
  destruct Hn as (Hna & d & Hd & Hdf).
  assert (Hset : set_type tb1 (index_of named) (Alias t) = Ret tb' → wf tb' ∧ extends tb tb').
  { intros Hs. eapply set_type_wf in Hs as (? & ? & _); [|done..]. split; [done|]. by etrans. }
  destruct c as [[]|]; auto. apply bind_Ret in H as (tb2 & H2 & H).
  assert (Hts : compound_types tb1 !! index_of t = Some (Struct_ s)).
  { unfold get in Hc. destruct (is_primitive t); [done|]. by comp_inv. }
  eapply set_type_wf in H2 as (Hw2 & He2 & Hk); [|done..].
  destruct (Hk named) as (_ & d' & Hd' & Hdf').
  { split; [done|eauto]. }
  assert (∃ tb3, wf tb3 ∧ extends tb2 tb3 ∧ compound_types tb3 !! index_of named = Some d'
    ∧ set_type tb3 (index_of named)
        (Struct_ {| name := Some n; elems := elems s; is_packed := is_packed s |}) = Ret tb')
    as (tb3 & Hw3 & He3 & Hd3 & H3).
  { destruct n as [k|k]; [exists (cache_struct k named tb2)|exists tb2]; split_and!; try done.
    - by apply cache_struct_wf. }
  eapply set_type_wf in H3 as (Hw4 & He4 & _); [|done..]. split; [done|].
  do 3 (etrans; [eassumption|]). done.
Qed.

(** The operations that build types. *)
Inductive op :=
  | OPointer (p : PointerType) | OArray (a : ArrayType) | OFunction (f : FunctionType)
  | ONamedType (n : Name) | OStructNamed (n : string) (packed : bool)
  | OAnonymousStruct (es : list Type_) (packed : bool) | OChangeToNamed (t : Type_) (n : Name).

Definition run (tb : TypesBase) (o : op) : comp TypesBase :=
  match o with
  | OPointer p => r ← pointer tb p; Ret r.1
  | OArray a => r ← array tb a; Ret r.1
  | OFunction f => r ← function tb f; Ret r.1
  | ONamedType n => r ← empty_named_type tb n; Ret r.1
  | OStructNamed n b => r ← empty_struct_named tb n b; Ret r.1
  | OAnonymousStruct es b => r ← anonymous_struct tb es b; Ret r.1
  | OChangeToNamed t n => change_to_named_type tb t n
  end.

Lemma run_new_type tb c tb' :
  wf tb → (r ← new_type tb c; Ret r.1) = Ret tb' → wf tb' ∧ extends tb tb'.
Proof.
  intros Hw H. apply bind_Ret in H as ([tb1 t1] & H1 & [= <-]).
  destruct (new_type_wf _ _ _ _ Hw H1) as (Hw' & He & _). exact (conj Hw' He).
Qed.

Lemma run_OFunction tb f : run tb (OFunction f) = (r ← new_type tb (Function_ f); Ret r.1).
Proof. reflexivity. Qed.
Lemma run_OAnonymousStruct tb es b :
  run tb (OAnonymousStruct es b)
  = (r ← new_type tb (Struct_ {| name := None; elems := es; is_packed := b |}); Ret r.1).
Proof. reflexivity. Qed.

Lemma run_wf tb o tb' : wf tb → run tb o = Ret tb' → wf tb' ∧ extends tb tb'.
Proof.
  intros Hw H. destruct o.
  - apply bind_Ret in H as ([tb1 t1] & H1 & [= <-]). apply pointer_wf in H1; naive_solver.
  - apply bind_Ret in H as ([tb1 t1] & H1 & [= <-]). apply array_wf in H1; naive_solver.
  - rewrite run_OFunction in H. exact (run_new_type _ _ _ Hw H).
  - apply bind_Ret in H as ([tb1 t1] & H1 & [= <-]). apply empty_named_type_wf in H1; naive_solver.
  - apply bind_Ret in H as ([tb1 t1] & H1 & [= <-]). by eapply empty_struct_named_wf.
  - rewrite run_OAnonymousStruct in H. exact (run_new_type _ _ _ Hw H).
  - exact (change_to_named_type_wf _ _ _ _ Hw H).
Qed.

Lemma runs_wf tb os tb' : wf tb → foldM run tb os = Ret tb' → wf tb' ∧ extends tb tb'.
Proof.
  intros Hw H. eapply (foldM_inv (λ u, wf u ∧ extends tb u)) in H; [done| |by split].
  intros u o v _ [Hu He] Hr. apply run_wf in Hr as [? ?]; [|done]. split; [done|by etrans].
Qed.

(** Pointer and array types are interned: after any sequence of type
    constructions, asking again for a pointer or array type gives the same
    type id, however many types were made in between, and the table holds that
    compound type under it. *)
Theorem pointer_and_array_interned a os tb :
  a ≠ 0%nat → foldM run (new a) os = Ret tb →
  (∀ p tb1 t, pointer tb p = Ret (tb1, t) →
     ∀ os' tb2, foldM run tb1 os' = Ret tb2 →
       pointer tb2 p = Ret (tb2, t) ∧ get tb2 t = Ret (Some (Pointer p)))
  ∧ (∀ r tb1 t, array tb r = Ret (tb1, t) →
     ∀ os' tb2, foldM run tb1 os' = Ret tb2 →
       array tb2 r = Ret (tb2, t) ∧ get tb2 t = Ret (Some (Array r))).
Proof.
  intros Ha Hrun. assert (Hw0 : wf (new a)) by (constructor; done).
  apply runs_wf in Hrun as [Hw _]; [|done].
  assert (Hget : ∀ tb t c, wf tb → holds tb t (λ d, d = c) → get tb t = Ret (Some c)).
  { intros u t c Hu (Hta & d & Hd & ->). unfold get, is_primitive.
    rewrite bool_decide_false, Hd; [done|]. rewrite Hta. apply Hu. }
  split; intros k tb1 t Hp os' tb2 Hos.
  - apply pointer_wf in Hp as (Hw1 & _ & Hc); [|done].
    apply runs_wf in Hos as [Hw2 (_ & _ & _ & He & _)]; [|done]. apply He in Hc.
    split; [unfold pointer; by rewrite Hc|]. apply Hget; [done|]. by apply wf_pointer.
  - apply array_wf in Hp as (Hw1 & _ & Hc); [|done].
    apply runs_wf in Hos as [Hw2 (_ & _ & _ & _ & He)]; [|done]. apply He in Hc.
    split; [unfold array; by rewrite Hc|]. apply Hget; [done|]. by apply wf_array.
Qed.

Lemma pointer_and_array_interned_witness :
  ∃ tb, foldM run (new 1) [OPointer {| inner := I64; addr_space := 0 |}] = Ret tb
  ∧ (∀ p tb1 t, pointer tb p = Ret (tb1, t) →
     ∀ os' tb2, foldM run tb1 os' = Ret tb2 →
       pointer tb2 p = Ret (tb2, t) ∧ get tb2 t = Ret (Some (Pointer p)))
  ∧ (∀ r tb1 t, array tb r = Ret (tb1, t) →
     ∀ os' tb2, foldM run tb1 os' = Ret tb2 →
       array tb2 r = Ret (tb2, t) ∧ get tb2 t = Ret (Some (Array r))).
Proof.
  eexists. split; [reflexivity|].
  by apply (pointer_and_array_interned 1 [OPointer {| inner := I64; addr_space := 0 |}]).
Defined.

End IrTypes.

(** * Sizes and alignments *)
Module DataLayout.
Import IrTypes.
Local Open Scope Z_scope.

(** [StructLayout(offsets, size, align)] *)
(* [codegen/core/ir/module/data_layout/mod.rs | 7-7 | StructLayout] *)
Record StructLayout := { sl_offsets : list Z; sl_size : Z; sl_align : Z }.

(** [offset % align] panics for an [align] of 0. *)
(* [codegen/core/ir/module/data_layout/mod.rs | fn is_aligned] *)
Definition is_aligned (align offset : Z) : comp bool :=
  if align =? 0 then Panic else Ret (offset mod align =? 0).

(* [codegen/core/ir/module/data_layout/mod.rs | fn align_to] *)
Definition align_to (offset align : Z) : comp Z :=
  _ ← usize (offset + align); _ ← usize (align - 1); Ret (align_up offset align).

(** The step both loops below share: round [offset] up when it is not aligned. *)
Definition rounded (offset align : Z) : comp Z :=
  b ← is_aligned align offset; if (b : bool) then Ret offset else align_to offset align.

Section Struct.
(** The sizes and alignments of the elements. *)
Context (size_of align_of : Type_ → comp Z).

Definition layout_step (packed : bool) (s : StructLayout) (e : Type_) : comp StructLayout :=
  elem_align ← (if packed then Ret 1 else align_of e);
  offset ← rounded (sl_size s) elem_align;
  size ← size_of e;
  next ← usize (offset + size);
  Ret {| sl_offsets := sl_offsets s ++ [offset]; sl_size := next;
         sl_align := Z.max (sl_align s) elem_align |}.

(* [codegen/core/ir/module/data_layout/mod.rs | impl StructLayout >> pub fn new | StructLayout::new] *)
Definition struct_layout (sty : StructType) : comp StructLayout :=
  s ← foldM (layout_step (is_packed sty)) {| sl_offsets := []; sl_size := 0; sl_align := 1 |} (elems sty);
  total ← rounded (sl_size s) (sl_align s);
  Ret {| sl_offsets := sl_offsets s; sl_size := total; sl_align := sl_align s |}.
End Struct.

(** Anything else is [todo!], a panic. *)
Definition primitive_size (t : Type_) : comp Z :=
  if decide (t = VOID) then Ret 0 else if decide (t = I1) then Ret 1
  else if decide (t = I8) then Ret 1 else if decide (t = I16) then Ret 2
  else if decide (t = I32 ∨ t = I64) then Ret 4 else Panic.

(* [codegen/core/ir/module/data_layout/mod.rs | pub fn get_size_of] *)
Fixpoint get_size_of (fuel : nat) (tb : TypesBase) (t : Type_) : comp Z :=
  c ← get tb t;
  match c with
  | None => primitive_size t
  | Some (Pointer _) => Ret 4
  | Some (Array a) =>
      match fuel with
      | O => OutOfFuel
      | S fuel => s ← get_size_of fuel tb (elem a); usize (s * Z.of_nat (num_elements a))
      end
  | Some (Struct_ s) =>
      match fuel with
      | O => OutOfFuel
      | S fuel => l ← struct_layout (get_size_of fuel tb) (get_align_of fuel tb) s; Ret (sl_size l)
      end
  | Some _ => Panic
  end
(* [codegen/core/ir/module/data_layout/mod.rs | pub fn get_align_of] *)
with get_align_of (fuel : nat) (tb : TypesBase) (t : Type_) : comp Z :=
  c ← get tb t;
  match c with
  | None => primitive_size t
  | Some (Pointer _) => Ret 4
  | Some (Array a) =>
      match fuel with O => OutOfFuel | S fuel => get_size_of fuel tb (elem a) end
  | Some (Struct_ s) =>
      match fuel with
      | O => OutOfFuel
      | S fuel => l ← struct_layout (get_size_of fuel tb) (get_align_of fuel tb) s; Ret (sl_align l)
      end
  | Some _ => Panic
  end.

(* [codegen/core/ir/module/data_layout/mod.rs | pub fn new_struct_layout_for] *)
Definition new_struct_layout_for (fuel : nat) (tb : TypesBase) (t : Type_) : comp (option StructLayout) :=
  c ← get tb t;
  match c with
  | Some (Struct_ s) => l ← struct_layout (get_size_of fuel tb) (get_align_of fuel tb) s; Ret (Some l)
  | _ => Ret None
  end.

(* [codegen/core/ir/module/data_layout/mod.rs | pub fn get_elem_offset] *)
Definition get_elem_offset (l : StructLayout) (i : nat) : option Z := sl_offsets l !! i.

(** ** Struct layouts *)

(** The fields of [l], of sizes [ss], lie one after the other below [top]. *)
Fixpoint separated (offs ss : list Z) (top : Z) : Prop :=
  match offs, ss with
  | [], [] => True
  | o :: offs, s :: ss => o + s ≤ default top (head offs) ∧ separated offs ss top
  | _, _ => False
  end.

Lemma separated_snoc offs ss o s top :
  separated offs ss o → o + s ≤ top → separated (offs ++ [o]) (ss ++ [s]) top.
Proof.
  revert ss. induction offs as [|x offs IH]; intros [|y ss]; cbn; try tauto.
  intros [Hx Hs] Hle. split; [|by apply IH]. by destruct offs.
Qed.

Lemma separated_mono offs ss top top' :
  separated offs ss top → top ≤ top' → separated offs ss top'.
Proof.
  revert ss. induction offs as [|x offs IH]; intros [|y ss]; cbn; try tauto.
  intros [Hx Hs] Hle. split; [|by eapply IH]. destruct offs; cbn in *; lia.
Qed.

Lemma dl_rounded_Ret o a r :
  rounded o a = Ret r → 0 ≤ o → 0 ≤ a → r = round_to o a ∧ 1 ≤ a ∧ o ≤ r.
Proof.
  unfold rounded, is_aligned, align_to. intros H Ho Ha.
  destruct (Z.eqb_spec a 0); cbn in H; [done|].
  pose proof (round_to_bounds o a Ho ltac:(lia)). unfold round_to in *.
  destruct (o mod a =? 0); cbn in H; comp_inv; split_and!; try done; lia.
Qed.

Definition pow2 (a : Z) : Prop := ∃ n, 0 ≤ n ∧ a = 2 ^ n.

Lemma pow2_pos a : pow2 a → 1 ≤ a.
Proof. intros (n & Hn & ->). pose proof (Z.pow_pos_nonneg 2 n). lia. Qed.

Lemma pow2_max a b : pow2 a → pow2 b → pow2 (Z.max a b) ∧ (a | Z.max a b) ∧ (b | Z.max a b).
Proof.
  intros (n & Hn & ->) (m & Hm & ->). destruct (Z.le_ge_cases n m) as [Hle|Hle].
  - rewrite Z.max_r by (apply Z.pow_le_mono_r; lia). split_and!; [by exists m| |done].
    exists (2 ^ (m - n)). rewrite <-Z.pow_add_r by lia. f_equal. lia.
  - rewrite Z.max_l by (apply Z.pow_le_mono_r; lia). split_and!; [by exists n|done|].
    exists (2 ^ (n - m)). rewrite <-Z.pow_add_r by lia. f_equal. lia.
Qed.

Lemma round_to_pow2_divide o a : pow2 a → (a | round_to o a).
Proof. intros (n & Hn & ->). by apply round_to_pow2. Qed.

Section Laws.
Context (size_of align_of : Type_ → comp Z).
Context (size_nonneg : ∀ e s, size_of e = Ret s → 0 ≤ s).

(** The layout so far: the sizes of the elements placed and their alignments. *)
Record placed (packed : bool) (es : list Type_) (s : StructLayout) : Prop := {
  placed_sizes : ∃ ss, Forall2 (λ e z, size_of e = Ret z) es ss ∧ separated (sl_offsets s) ss (sl_size s);
  placed_aligns : ∃ als,
    Forall2 (λ e a, (if packed then a = 1 else align_of e = Ret a) ∧ pow2 a) es als
    ∧ Forall2 (λ o a, (a | o) ∧ (a | sl_align s)) (sl_offsets s) als;
  placed_align : pow2 (sl_align s);
  placed_top : 0 ≤ sl_size s;
}.

Lemma layout_step_placed packed es e s s' :
  (packed = false → ∃ a, align_of e = Ret a ∧ pow2 a) →
  placed packed es s → layout_step size_of align_of packed s e = Ret s' →
  placed packed (es ++ [e]) s'.
Proof.
  intros Hal [(ss & Hss & Hsep) (als & Hals & Hoff) Ha Ht] H. unfold layout_step in H.
  apply bind_Ret in H as (a & Hea & H). apply bind_Ret in H as (o & Ho & H).
  apply bind_Ret in H as (z & Hz & H). apply bind_Ret in H as (top & Htop & H).
  apply usize_Ret in Htop as [-> Hrange]. injection H as <-.
  assert (pow2 a ∧ if packed then a = 1 else align_of e = Ret a) as [Hpa Hea'].
  { destruct packed; [injection Hea as <-; split; [by exists 0|done]|].
    destruct (Hal eq_refl) as (a' & Ha' & ?). rewrite Ha' in Hea; injection Hea as <-. by split. }
  pose proof (pow2_pos _ Hpa). pose proof (size_nonneg _ _ Hz).
  apply dl_rounded_Ret in Ho as (-> & _ & Hle); [|lia..].
  destruct (pow2_max _ _ Ha Hpa) as (Hm & Hm1 & Hm2).
  constructor; cbn; [| |done|lia].
  - exists (ss ++ [z]). split; [apply Forall2_app; [done|by constructor]|].
    apply separated_snoc; [|lia]. eapply separated_mono; [done|lia].
  - exists (als ++ [a]). split; [apply Forall2_app; [done|by constructor]|].
    apply Forall2_app; [|constructor; [|done]].
    + eapply Forall2_impl; [done|]. cbn. intros x y [? ?]. split; [done|]. by etrans.
    + split; [by apply round_to_pow2_divide|done].
Qed.

Lemma layout_steps_placed packed es s :
  (packed = false → ∀ e, e ∈ es → ∃ a, align_of e = Ret a ∧ pow2 a) →
  ∀ d s0, placed packed d s0 →
  foldM (layout_step size_of align_of packed) s0 es = Ret s →
  placed packed (d ++ es) s.
Proof.
  intros Hal. induction es as [|e es IH]; cbn; intros d s0 Hp H.
  - injection H as <-. by rewrite app_nil_r.
  - apply bind_Ret in H as (s1 & Hs1 & H). rewrite cons_middle, app_assoc.
    eapply IH; [|eapply layout_step_placed; [|exact Hp|exact Hs1]|exact H].
    + intros Hf x Hx. apply Hal; [done|]. by right.
    + intros Hf. apply Hal; [done|]. by left.
Qed.

Lemma struct_layout_ok sty l :
  (is_packed sty = false → ∀ e, e ∈ elems sty → ∃ a, align_of e = Ret a ∧ pow2 a) →
  struct_layout size_of align_of sty = Ret l →
  placed (is_packed sty) (elems sty) l ∧ (sl_align l | sl_size l).
Proof.
  intros Hal H. unfold struct_layout in H. apply bind_Ret in H as (s & Hs & H).
  apply bind_Ret in H as (tot & Htot & H). injection H as <-.
  eapply (layout_steps_placed _ _ _ Hal []) in Hs as [(ss & ? & ?) ? ? ?]; cycle 1.
  { constructor; cbn; [by exists []|by exists []|by exists 0|done]. }
  apply dl_rounded_Ret in Htot as (-> & ? & ?); [|done|by pose proof (pow2_pos _ placed_align0); lia].
  split; [|by apply round_to_pow2_divide]. constructor; cbn; [|done|done|lia].
  exists ss. split; [done|]. by eapply separated_mono.
Qed.
End Laws.

Lemma primitive_size_nonneg t s : primitive_size t = Ret s → 0 ≤ s.
Proof. unfold primitive_size. intros H. repeat case_decide; by simplify_eq. Qed.

Lemma struct_size_nonneg sz al sty l : struct_layout sz al sty = Ret l → 0 ≤ sl_size l.
Proof.
  unfold struct_layout. intros H. apply bind_Ret in H as (s & Hs & H).
  apply bind_Ret in H as (tot & Htot & [= <-]). cbn.
  eapply (foldM_inv (λ s, 0 ≤ sl_size s ∧ 1 ≤ sl_align s)) in Hs as [H1 H2]; [| |cbn; lia].
  { apply dl_rounded_Ret in Htot as (_ & _ & ?); lia. }
  intros u e v _ [Hu1 Hu2] Hv. unfold layout_step in Hv.
  apply bind_Ret in Hv as (? & _ & Hv). apply bind_Ret in Hv as (? & _ & Hv).
  apply bind_Ret in Hv as (? & _ & Hv). apply bind_Ret in Hv as (? & Hn & [= <-]).
  apply usize_Ret in Hn as [-> ?]. cbn. lia.
Qed.

Lemma get_size_of_nonneg fuel tb t s : get_size_of fuel tb t = Ret s → 0 ≤ s.
Proof.
  destruct fuel; cbn [get_size_of]; intros H; apply bind_Ret in H as (c & _ & H);
    destruct c as [[]|]; try done; try (by apply primitive_size_nonneg in H); try (injection H as <-; lia).
  - apply bind_Ret in H as (? & _ & H). by apply usize_Ret in H as [-> [? _]].
  - apply bind_Ret in H as (l & Hl & [= <-]). by eapply struct_size_nonneg.
Qed.

(** When the element alignments are powers of two, the data layout of an IR
    struct places the elements in order, without overlap, inside the struct's
    size; each offset is a multiple of the element's alignment (1 for a packed
    struct), which divides the struct's alignment. *)
Theorem struct_layout_fields fuel tb t sty l :
  get tb t = Ret (Some (Struct_ sty)) →
  (is_packed sty = false → ∀ e, e ∈ elems sty → ∃ a, get_align_of fuel tb e = Ret a ∧ pow2 a) →
  new_struct_layout_for fuel tb t = Ret (Some l) →
  ∃ ss als,
    Forall2 (λ e z, get_size_of fuel tb e = Ret z) (elems sty) ss
    ∧ Forall2 (λ e a, (if is_packed sty then a = 1 else get_align_of fuel tb e = Ret a) ∧ pow2 a)
        (elems sty) als
    ∧ separated (sl_offsets l) ss (sl_size l)
    ∧ Forall2 (λ o a, (a | o) ∧ (a | sl_align l)) (sl_offsets l) als
    ∧ (sl_align l | sl_size l) ∧ pow2 (sl_align l).
Proof.
  intros Ht Hal H. unfold new_struct_layout_for in H. rewrite Ht in H. cbn in H.
  apply bind_Ret in H as (l' & Hl & [= <-]).
  eapply struct_layout_ok in Hl as [[(ss & ? & ?) (als & ? & ?) ? _] ?]; [|apply get_size_of_nonneg|done].
  exists ss, als. by split_and!.
Qed.

(** A struct of a byte, an array of three byte triples (aligned to its element
    size, 3) and a word: the array does not start at a multiple of 3. *)
Definition triples : comp (TypesBase * Type_) :=
  '(tb, b3) ← array (new 1) {| elem := I8; num_elements := 3 |};
  '(tb, b33) ← array tb {| elem := b3; num_elements := 3 |};
  anonymous_struct tb [I32; b33] false.

(** The alignment of an array type is its element's size: for an array of
    three-byte structs it is 3, the mask arithmetic of the struct layout does
    not apply to it, and the array's offset in a struct is not a multiple of
    it. *)
Theorem array_align_not_power_of_two :
  ∃ tb t l a, triples = Ret (tb, t)
    ∧ new_struct_layout_for 3 tb t = Ret (Some l)
    ∧ get_align_of 3 tb (mk 1 2) = Ret a
    ∧ a = 3 ∧ get_elem_offset l 1 = Some 4 ∧ ¬ (a | 4).
Proof.
  do 4 eexists. split_and!; try (vm_compute; reflexivity).
  intros [k Hk]. lia.
Qed.

Lemma struct_layout_fields_witness :
  ∃ tb t l sty, anonymous_struct (new 1) [I8; I32; I16; I64] false = Ret (tb, t)
    ∧ new_struct_layout_for 2 tb t = Ret (Some l)
    ∧ sl_offsets l = [0; 4; 8; 12] ∧ sl_size l = 16
    ∧ ∃ ss als, Forall2 (λ e z, get_size_of 2 tb e = Ret z) (elems sty) ss
    ∧ Forall2 (λ e a, (if is_packed sty then a = 1 else get_align_of 2 tb e = Ret a) ∧ pow2 a)
        (elems sty) als
    ∧ separated (sl_offsets l) ss (sl_size l)
    ∧ Forall2 (λ o a, (a | o) ∧ (a | sl_align l)) (sl_offsets l) als
    ∧ (sl_align l | sl_size l) ∧ pow2 (sl_align l).
Proof.
  do 4 eexists. split; [reflexivity|]. split; [reflexivity|]. split; [reflexivity|]. split; [reflexivity|].
  eapply (struct_layout_fields 2 _ (mk 1 1)); [reflexivity| |reflexivity].
  intros _ e He.
  repeat (apply elem_of_cons in He as [->|He]; [eexists; split; [reflexivity|]|]);
    [by exists 0|by exists 2|by exists 1|by exists 2|by apply not_elem_of_nil in He].
Defined.

End DataLayout.
