(* ===== verification/IrValues.v ===== *)
(** Names, attributes, constants and values of the IR
    (codegen/core/ir/{module/{name,attributes,metadata},function/param_attrs,
    types,value,util}): the data, its printed form, and the escaping of names
    and strings with its round trip. *)
From Stdlib Require Import Ascii.
From Stdlib Require String.
From S2P Require Import Prelude LinkedLayout IrTypes.
#[local] Open Scope Z_scope.

(** * Escaping

    Rust strings are their UTF-8 bytes. *)
Module Escape.

Abbreviation bytes_of := Stdlib.Strings.String.list_ascii_of_string.
Abbreviation chars_to_string := Stdlib.Strings.String.string_of_list_ascii.

Definition byte_of (c : ascii) : N := N_of_ascii c.

(** [u8::is_ascii_control] *)
Definition is_ascii_control (c : ascii) : bool :=
  (byte_of c <? 32)%N || (byte_of c =? 127)%N.

(* [codegen/core/ir/util/mod.rs | fn hexify] *)
Definition hexify (b : N) : ascii :=
  if (b <=? 9)%N then ascii_of_N (byte_of "0" + b) else ascii_of_N (byte_of "a" + b - 10).

(* [codegen/core/ir/util/mod.rs | 39-45 | escape] *)
Definition escape_byte (c : ascii) : list ascii :=
  if is_ascii_control c then
    ["\"%char; hexify (N.shiftr (byte_of c) 4); hexify (N.land (byte_of c) 15)]
  else [c].

(* [codegen/core/ir/util/mod.rs | pub fn escape] *)
Definition escape (s : string) : string :=
  chars_to_string (concat (map escape_byte (bytes_of s))).

(** [char::to_digit(16)]: the value of a hexadecimal digit. *)
Definition hex_value (c : ascii) : option N :=
  let n := byte_of c in
  if ((byte_of "0" <=? n) && (n <=? byte_of "9"))%N then Some (n - byte_of "0")%N
  else if ((byte_of "a" <=? n) && (n <=? byte_of "f"))%N then Some (n - byte_of "a" + 10)%N
  else if ((byte_of "A" <=? n) && (n <=? byte_of "F"))%N then Some (n - byte_of "A" + 10)%N
  else None.

(** [s.push(char::from_u32(n))] for [n < 256]. *)
Definition push_char (n : N) : list ascii :=
  if (n <? 128)%N then [ascii_of_N n]
  else [ascii_of_N (N.lor 192 (N.shiftr n 6)); ascii_of_N (N.lor 128 (N.land n 63))].

(** [s.push(..)] before the rest of the string is pushed. *)
Definition push (l : list ascii) (r : option (list ascii)) : option (list ascii) := option_map (app l) r.

(** The queue, byte by byte: bytes of characters that are not ASCII are no
    backslash and no digit, so they are copied or refused as their character
    is. *)
(* [codegen/core/ir/util/mod.rs | pub fn unescape] *)
Fixpoint unescape_queue (queue : list ascii) : comp (option (list ascii)) :=
  match queue with
  | [] => Ret (Some [])
  | c :: queue =>
      if decide (c ≠ "\"%char) then
        r ← unescape_queue queue; Ret (push [c] r)
      else
        match queue with
        | [] => Ret None
        | d :: queue =>
            if decide (d = "\"%char) then
              r ← unescape_queue queue; Ret (push ["\"%char] r)
            else
              match hex_value d with
              | None => Ret None
              | Some h =>
                  match queue with
                  | [] => Panic
                  | cc :: queue =>
                      l ← unwrap (hex_value cc);
                      r ← unescape_queue queue; Ret (push (push_char (16 * h + l)) r)
                  end
              end
        end
  end.

Definition unescape (s : string) : comp (option string) :=
  r ← unescape_queue (bytes_of s); Ret (option_map chars_to_string r).

(** Every byte: what it escapes to reads back as the byte. *)
Lemma unescape_byte c rest :
  c ≠ "\"%char →
  unescape_queue (escape_byte c ++ rest) =
    (r ← unescape_queue rest; Ret (push [c] r)).
Proof.
  intros Hc. unfold escape_byte. destruct (is_ascii_control c) eqn:Hk.
  - destruct c as [[] [] [] [] [] [] [] []]; try discriminate Hk; reflexivity.
  - cbn. by rewrite decide_True.
Qed.

(** A string without a backslash, escaped for the assembly text and unescaped
    again, is the string itself: the unescaping never fails on it. *)
Theorem escape_roundtrip (s : string) :
  "\"%char ∉ bytes_of s → unescape (escape s) = Ret (Some s).
Proof.
  unfold unescape, escape. intros Hs. rewrite Stdlib.Strings.String.list_ascii_of_string_of_list_ascii.
  assert (unescape_queue (concat (map escape_byte (bytes_of s)))
          = Ret (Some (bytes_of s))) as ->.
  - induction (bytes_of s) as [|c l IH]; [done|]. cbn [map concat].
    rewrite unescape_byte by set_solver. rewrite IH by set_solver. done.
  - cbn. by rewrite Stdlib.Strings.String.string_of_list_ascii_of_string.
Qed.

Definition tab_del : string :=
  String (ascii_of_N 9) (String "x" (String (ascii_of_N 127) EmptyString)).

Lemma escape_roundtrip_witness :
  ("\"%char ∉ bytes_of tab_del) ∧ unescape (escape tab_del) = Ret (Some tab_del).
Proof.
  assert (H : "\"%char ∉ bytes_of tab_del).
  { apply (bool_decide_unpack _). vm_compute. exact I. }
  split; [exact H|]. exact (escape_roundtrip tab_del H).
Defined.

(** A backslash is not escaped: a string with one may not come back, or come
    back as another string. *)
Theorem escape_loses_backslash :
  unescape (escape "a\") = Ret None ∧ unescape (escape "\41") = Ret (Some "A")
  ∧ unescape (escape "\fn") = Panic.
Proof. split_and!; vm_compute; reflexivity. Qed.
End Escape.

(** * Text *)
Module Text.
Import Escape.

(** [s.trim_end_matches(p)] for a nonempty [p], on reversed bytes. *)
Fixpoint strip_rev (fuel : nat) (p s : list ascii) : list ascii :=
  match fuel with
  | O => s
  | S fuel => if decide (take (length p) s = p) then strip_rev fuel p (drop (length p) s) else s
  end.

Definition trim_end_matches (p s : string) : string :=
  let r := reverse (bytes_of s) in
  chars_to_string (reverse (strip_rev (length r) (reverse (bytes_of p)) r)).

(** [char::is_ascii_alphanumeric] *)
Definition is_alphanumeric (c : ascii) : bool :=
  let n := byte_of c in
  (((byte_of "0" <=? n) && (n <=? byte_of "9"))
   || ((byte_of "a" <=? n) && (n <=? byte_of "z"))
   || ((byte_of "A" <=? n) && (n <=? byte_of "Z")))%N.

Definition quote : string := String (ascii_of_N 34) EmptyString.

(* [codegen/core/ir/module/name/mod.rs | fn to_escaped] *)
Definition to_escaped (s : string) : string :=
  if existsb (λ c, negb (is_alphanumeric c || bool_decide (c = "."%char) || bool_decide (c = "_"%char)))
       (bytes_of s)
  then quote +:+ escape s +:+ quote
  else escape s.

(* [codegen/core/ir/module/name/mod.rs | impl fmt::Display for Name >> fn fmt] *)
Definition name_to_string (n : IrTypes.Name) : string :=
  match n with
  | IrTypes.Name_ s => to_escaped s
  | IrTypes.Number k => pretty k
  end.

(* [codegen/core/ir/module/name/mod.rs | pub fn as_string] *)
Definition as_string (n : IrTypes.Name) : comp string :=
  match n with IrTypes.Name_ s => Ret s | _ => Panic end.
(* [codegen/core/ir/module/name/mod.rs | pub fn as_number] *)
Definition as_number (n : IrTypes.Name) : comp nat :=
  match n with IrTypes.Number k => Ret k | _ => Panic end.
(* [codegen/core/ir/module/name/mod.rs | pub fn to_string] *)
Definition to_string (n : IrTypes.Name) : option string :=
  match n with IrTypes.Name_ s => Some s | _ => None end.

(** [fold] that puts [", "] between the strings. *)
Fixpoint commas (l : list string) : string :=
  match l with
  | [] => ""
  | [s] => s
  | s :: l => s +:+ ", " +:+ commas l
  end.

(* [codegen/core/ir/types/mod.rs | pub fn struct_definition_to_string] *)
Definition struct_definition_to_string (to_string : IrTypes.Type_ → comp string)
    (ty : IrTypes.StructType) : comp string :=
  es ← mapM_c to_string (IrTypes.elems ty);
  Ret ((if IrTypes.is_packed ty then "<" else "") +:+ "{ " +:+ commas es +:+ " }"
       +:+ (if IrTypes.is_packed ty then ">" else "")).

(* [codegen/core/ir/types/mod.rs | pub fn to_string(&self, ty: Type)] *)
Fixpoint type_to_string (fuel : nat) (tb : IrTypes.TypesBase) (t : IrTypes.Type_) : comp string :=
  match fuel with
  | O => OutOfFuel
  | S fuel =>
      let to_string := type_to_string fuel tb in
      if IrTypes.is_primitive t then
        if decide (t = IrTypes.VOID) then Ret "void"
        else if decide (t = IrTypes.I1) then Ret "i1"
        else if decide (t = IrTypes.I8) then Ret "i8"
        else if decide (t = IrTypes.I16) then Ret "i16"
        else if decide (t = IrTypes.I32) then Ret "i32"
        else if decide (t = IrTypes.I64) then Ret "i64"
        else Panic
      else
        o ← IrTypes.get tb t;
        c ← unwrap o;
        match c with
        | IrTypes.Pointer p =>
            s ← to_string (IrTypes.inner p);
            if decide (IrTypes.addr_space p = 0%nat) then Ret (s +:+ "*")
            else Ret (s +:+ " addrspace(" +:+ pretty (IrTypes.addr_space p) +:+ ")*")
        | IrTypes.Array a =>
            s ← to_string (IrTypes.elem a);
            Ret ("[" +:+ pretty (IrTypes.num_elements a) +:+ " x " +:+ s +:+ "]")
        | IrTypes.Function_ f =>
            r ← to_string (IrTypes.ret f);
            ps ← mapM_c to_string (IrTypes.params f);
            Ret (r +:+ " (" +:+ commas ps +:+
                 (if IrTypes.is_var_arg f then
                    if bool_decide (IrTypes.params f = []) then "..." else ", ..."
                  else "") +:+ ")")
        | IrTypes.Struct_ s =>
            match IrTypes.name s with
            | Some n => Ret ("%" +:+ name_to_string n)
            | None => struct_definition_to_string to_string s
            end
        | IrTypes.Metadata => Ret "metadata"
        | IrTypes.Alias t => to_string t
        end
  end.
End Text.

(** * Attributes, linkage and visibility *)
Module IrAttr.
Import Text IrTypes.

(* [codegen/core/ir/module/attributes/mod.rs | pub enum Attribute] *)
Inductive Attribute :=
  | AlignStack (n : Z)
  | AllocSize (elt_size : Z) (num_elts : option Z)
  | AlwaysInline
  | Builtin
  | Cold
  | Convergent
  | InaccessibleMemOnly
  | InaccessibleMemOrArgMemOnly
  | InlineHint
  | JumpTable
  | MinimizeSize
  | MustProgress
  | Naked
  | NoBuiltin
  | NoCFCheck
  | NoDuplicate
  | NoFree
  | NoImplicitFloat
  | NoInline
  | NonLazyBind
  | NoRedZone
  | NoReturn
  | NoRecurse
  | WillReturn
  | ReturnsTwice
  | NoSync
  | NoUnwind
  | OptForFuzzing
  | OptNone
  | OptSize
  | ReadNone
  | ReadOnly
  | WriteOnly
  | ArgMemOnly
  | SafeStack
  | SanitizeAddress
  | SanitizeMemory
  | SanitizeThread
  | SanitizeHWAddress
  | SanitizeMemTag
  | ShadowCallStack
  | SpeculativeLoadHardening
  | Speculatable
  | StackProtect
  | StackProtectReq
  | StackProtectStrong
  | StrictFP
  | UWTable
  | StringAttribute (kind value : string)
  | Ref (n : Z).

(** [todo!()] for the attributes that are not printed. *)
(* [codegen/core/ir/module/attributes/mod.rs | impl fmt::Debug for Attribute >> fn fmt] *)
Definition attribute_to_string (a : Attribute) : comp string :=
  match a with
  | AlwaysInline => Ret "alwaysinline"
  | Builtin => Ret "builtin"
  | Cold => Ret "cold"
  | Convergent => Ret "convergent"
  | InaccessibleMemOnly => Ret "inaccessiblememonly"
  | InaccessibleMemOrArgMemOnly => Ret "inaccessiblememorargmemonly"
  | InlineHint => Ret "inlinehint"
  | JumpTable => Ret "jumptable"
  | MinimizeSize => Ret "minimizesize"
  | MustProgress => Ret "mustprogress"
  | Naked => Ret "naked"
  | NoBuiltin => Ret "nobuiltin"
  | NoCFCheck => Ret "nocfcheck"
  | NoDuplicate => Ret "noduplicate"
  | NoFree => Ret "nofree"
  | NoImplicitFloat => Ret "noimplicitfloat"
  | NoInline => Ret "noinline"
  | NonLazyBind => Ret "nonlazybind"
  | NoRedZone => Ret "noredzone"
  | NoReturn => Ret "noreturn"
  | NoRecurse => Ret "norecurse"
  | WillReturn => Ret "willreturn"
  | ReturnsTwice => Ret "returnstwice"
  | NoSync => Ret "nosync"
  | NoUnwind => Ret "nounwind"
  | OptForFuzzing => Ret "optforfuzzing"
  | OptNone => Ret "optnone"
  | OptSize => Ret "optsize"
  | ReadNone => Ret "readnone"
  | ReadOnly => Ret "readonly"
  | WriteOnly => Ret "writeonly"
  | ArgMemOnly => Ret "argmemonly"
  | SafeStack => Ret "safestack"
  | SanitizeAddress => Ret "sanitizeaddress"
  | SanitizeMemory => Ret "sanitizememory"
  | SanitizeThread => Ret "sanitizethread"
  | SanitizeHWAddress => Ret "sanitizehwaddress"
  | SanitizeMemTag => Ret "sanitizememtag"
  | ShadowCallStack => Ret "shadowcallstack"
  | SpeculativeLoadHardening => Ret "speculativeloadhardening"
  | Speculatable => Ret "speculatable"
  | StackProtect => Ret "ssp"
  | StackProtectReq => Ret "sspreq"
  | StackProtectStrong => Ret "sspstrong"
  | StrictFP => Ret "strictfp"
  | UWTable => Ret "uwtable"
  | StringAttribute kind value =>
      Ret (quote +:+ kind +:+ quote
           +:+ (if bool_decide (value = "") then "" else "=" +:+ quote +:+ value +:+ quote))
  | Ref i => Ret ("#" +:+ pretty i)
  | _ => Panic
  end.
End IrAttr.

Module IrParamAttr.
Import Text IrTypes.

(* [codegen/core/ir/function/param_attrs/mod.rs | pub enum ParameterAttribute] *)
Inductive ParameterAttribute :=
  | ZeroExt
  | SignExt
  | InReg
  | ByVal
  | InAlloca
  | SRet (ty : option Type_)
  | Alignment (n : Z)
  | ReadOnly
  | NoAlias
  | NoCapture
  | NoFree
  | Nest
  | Returned
  | NonNull
  | NoUndef
  | Dereferenceable (n : Z)
  | DereferenceableOrNull (n : Z)
  | SwiftSelf
  | SwiftError
  | ImmArg
  | WriteOnly
  | StringAttribute (kind value : string)
  | Ref (n : Z)
  | UnknownAttribute.

(* [codegen/core/ir/function/param_attrs/mod.rs | pub fn to_string] *)
Definition param_attribute_to_string (fuel : nat) (tb : TypesBase) (a : ParameterAttribute) : comp string :=
  match a with
  | ZeroExt => Ret "zeroext"
  | SignExt => Ret "signext"
  | InReg => Ret "inreg"
  | ByVal => Ret "byval"
  | InAlloca => Ret "inalloca"
  | ReadOnly => Ret "readonly"
  | NoAlias => Ret "noalias"
  | NoCapture => Ret "nocapture"
  | NoFree => Ret "nofree"
  | Nest => Ret "nest"
  | Returned => Ret "returned"
  | NonNull => Ret "nonnull"
  | NoUndef => Ret "noundef"
  | SwiftSelf => Ret "swiftself"
  | SwiftError => Ret "swifterror"
  | ImmArg => Ret "immarg"
  | WriteOnly => Ret "writeonly"
  | SRet None => Ret "sret"
  | SRet (Some ty) => s ← type_to_string fuel tb ty; Ret ("sret(" +:+ s +:+ ")")
  | Alignment i => Ret ("align " +:+ pretty i)
  | Dereferenceable i => Ret ("dereferenceable(" +:+ pretty i +:+ ")")
  | DereferenceableOrNull i => Ret ("dereferenceableornull(" +:+ pretty i +:+ ")")
  | StringAttribute kind value =>
      Ret (quote +:+ kind +:+ quote +:+ "=" +:+ quote +:+ value +:+ quote)
  | Ref i => Ret ("#" +:+ pretty i)
  | UnknownAttribute => Ret ""
  end.
End IrParamAttr.

Module IrLinkage.
(* [codegen/core/ir/module/linkage/mod.rs | pub enum Linkage] *)
Inductive Linkage :=
  | Private
  | Internal
  | External
  | ExternalWeak
  | AvailableExternally
  | LinkOnceAny
  | LinkOnceODR
  | LinkOnceODRAutoHide
  | WeakAny
  | WeakODR
  | Common
  | Appending
  | DLLImport
  | DLLExport
  | Ghost
  | LinkerPrivate
  | LinkerPrivateWeak.
#[global] Instance linkage_eq_dec : EqDecision Linkage.
Proof. solve_decision. Defined.

(* [codegen/core/ir/module/linkage/mod.rs | pub fn is_internal] *)
Definition is_internal (l : Linkage) : bool := bool_decide (l = Internal).

(* [codegen/core/ir/module/linkage/mod.rs | impl fmt::Debug for Linkage >> fn fmt] *)
Definition linkage_to_string (l : Linkage) : string :=
  match l with
  | Private => "private"
  | Internal => "internal"
  | External => "external"
  | ExternalWeak => "externalweak"
  | AvailableExternally => "availableexternally"
  | LinkOnceAny => "linkonce_any"
  | LinkOnceODR => "linkonce_odr"
  | LinkOnceODRAutoHide => "linkonce_odrautohide"
  | WeakAny => "weakany"
  | WeakODR => "weakodr"
  | Common => "common"
  | Appending => "appending"
  | DLLImport => "dllimport"
  | DLLExport => "dllexport"
  | Ghost => "ghost"
  | LinkerPrivate => "linkerprivate"
  | LinkerPrivateWeak => "linkerprivateweak"
  end.

(* [codegen/core/ir/module/preemption_specifier/mod.rs | pub enum PreemptionSpecifier] *)
Inductive PreemptionSpecifier := DsoPreemptable | DsoLocal.
(* [codegen/core/ir/module/preemption_specifier/mod.rs | impl fmt::Debug >> fn fmt] *)
Definition preemption_to_string (p : PreemptionSpecifier) : string :=
  match p with DsoPreemptable => "dso_preemptable" | DsoLocal => "dso_local" end.

(* [codegen/core/ir/module/unnamed_addr/mod.rs | pub enum UnnamedAddr] *)
Inductive UnnamedAddr := Local_ | Global_.
(* [codegen/core/ir/module/unnamed_addr/mod.rs | impl fmt::Debug >> fn fmt] *)
Definition unnamed_addr_to_string (u : UnnamedAddr) : string :=
  match u with Local_ => "local_unnamed_addr" | Global_ => "unnamed_addr" end.

(* [codegen/core/ir/module/visibility/mod.rs | pub enum Visibility] *)
Inductive Visibility := Default | Hidden | Protected.
(* [codegen/core/ir/module/visibility/mod.rs | impl fmt::Debug >> fn fmt] *)
Definition visibility_to_string (v : Visibility) : string :=
  match v with Default => "default" | Hidden => "hidden" | Protected => "protected" end.
End IrLinkage.

(** * Constants *)
Module IrConst.
Import Text IrTypes.

(** Integers of a width are [Z] in the range of the width. *)
(* [codegen/core/ir/value/consts.rs | pub enum ConstantInt] *)
Inductive ConstantInt :=
  | Int1 (i : bool)
  | Int8 (i : Z)
  | Int32 (i : Z)
  | Int64 (i : Z).

#[global] Instance constant_int_eq_dec : EqDecision ConstantInt.
Proof. solve_decision. Defined.

(* [codegen/core/ir/value/consts.rs | 7-54 | ConstantValue, ConstantArray, ConstantStruct, ConstantExpr] *)
Inductive ConstantValue :=
  | Undef (ty : Type_)
  | AggregateZero (ty : Type_)
  | Null (ty : Type_)
  | Int (i : ConstantInt)
  | Array_ (a : ConstantArray)
  | Struct (s : ConstantStruct)
  | Expr (e : ConstantExpr)
  | GlobalRef (name : Name) (ty : Type_)
with ConstantArray :=
  | mkArray (ty elem_ty : Type_) (elems : list ConstantValue) (is_string : bool)
with ConstantStruct :=
  | mkStruct (ty : Type_) (elems_ty : list Type_) (elems : list ConstantValue) (is_packed : bool)
with ConstantExpr :=
  | GetElementPtr (inbounds : bool) (tys : list Type_) (args : list ConstantValue)
  | Bitcast (from to_ : Type_) (arg : ConstantValue).

(* [codegen/core/ir/value/consts.rs | pub fn as_int] *)
Definition as_int (c : ConstantValue) : option ConstantInt :=
  match c with Int i => Some i | _ => None end.
(* [codegen/core/ir/value/consts.rs | pub fn as_global_ref] *)
Definition as_global_ref (c : ConstantValue) : comp Name :=
  match c with GlobalRef n _ => Ret n | _ => Panic end.
(* [codegen/core/ir/value/consts.rs | pub fn as_array] *)
Definition as_array (c : ConstantValue) : comp ConstantArray :=
  match c with Array_ a => Ret a | _ => Panic end.
(* [codegen/core/ir/value/consts.rs | pub fn as_i8] *)
Definition as_i8 (i : ConstantInt) : comp Z := match i with Int8 i => Ret i | _ => Panic end.
(* [codegen/core/ir/value/consts.rs | pub fn as_i32] *)
Definition as_i32 (i : ConstantInt) : option Z := match i with Int32 i => Some i | _ => None end.

(** [i as usize]: sign extension to 64 bits. *)
(* [codegen/core/ir/value/consts.rs | pub fn cast_to_usize] *)
Definition cast_to_usize (i : ConstantInt) : Z :=
  match i with
  | Int1 i => Z.b2z i
  | Int8 i | Int32 i | Int64 i => i mod 2 ^ 64
  end.
(* [codegen/core/ir/value/consts.rs | pub fn cast_to_i64] *)
Definition cast_to_i64 (i : ConstantInt) : Z :=
  match i with
  | Int1 i => Z.b2z i
  | Int8 i | Int32 i | Int64 i => i
  end.
(* [codegen/core/ir/value/consts.rs | pub fn is_zero] *)
Definition is_zero (i : ConstantInt) : bool :=
  match i with
  | Int1 i => negb i
  | Int8 i | Int32 i | Int64 i => i =? 0
  end.

(* [codegen/core/ir/value/consts.rs | impl Typed for ConstantInt >> fn ty] *)
Definition int_ty (i : ConstantInt) : Type_ :=
  match i with Int1 _ => I1 | Int8 _ => I8 | Int32 _ => I32 | Int64 _ => I64 end.

(** [tys[0]] panics when there is none. *)
(* [codegen/core/ir/value/consts.rs | impl Typed for ConstantExpr >> fn ty] *)
Definition expr_ty (e : ConstantExpr) : comp Type_ :=
  match e with
  | GetElementPtr _ tys _ => unwrap (tys !! 0%nat)
  | Bitcast _ to_ _ => Ret to_
  end.

(* [codegen/core/ir/value/consts.rs | impl Typed for ConstantValue >> fn ty] *)
Definition ty_of (c : ConstantValue) : comp Type_ :=
  match c with
  | Undef ty | AggregateZero ty | Null ty => Ret ty
  | Int i => Ret (int_ty i)
  | Array_ (mkArray ty _ _ _) => Ret ty
  | Struct (mkStruct ty _ _ _) => Ret ty
  | Expr e => expr_ty e
  | GlobalRef _ ty => Ret ty
  end.

(* [codegen/core/ir/value/consts.rs | impl std::fmt::Display for ConstantInt >> fn fmt] *)
Definition int_to_string (i : ConstantInt) : string :=
  match i with
  | Int1 i => if i then "true" else "false"
  | Int8 i | Int32 i | Int64 i => pretty i
  end.
End IrConst.
