(* ===== verification/Ir.v ===== *)
(** IR instructions, the data of a function with its map of users, and
    functions (codegen/core/ir/function/{instruction,data,basic_block,mod,
    builder}, ir/value, ir/module): the operations, and the invariant that the
    map of users says exactly which instructions use which. *)
From S2P Require Import Prelude LinkedLayout IrTypes IrValues.
#[local] Open Scope Z_scope.
#[local] Arguments filter : simpl never.

Abbreviation ValueId := nat.

Module IrInst.
Import IrTypes IrConst IrAttr IrParamAttr.

(* [codegen/core/ir/value/arg.rs | pub struct ArgumentValue] *)
Record ArgumentValue := { nth : nat; arg_ty : Type_; arg_name : option Name }.
(* [codegen/core/ir/value/mod.rs | pub struct InlineAsm] *)
Record InlineAsm := { body : string; constraints : string; sideeffect : bool }.

(* [codegen/core/ir/value/mod.rs | pub enum Value] *)
Inductive Value :=
  | VInstruction (i : InstructionId)
  | VArgument (a : ArgumentValue)
  | VConstant (c : ConstantValue)
  | VInlineAsm (a : InlineAsm).

(* [codegen/core/ir/value/mod.rs | pub fn as_inst] *)
Definition as_inst (v : Value) : option InstructionId :=
  match v with VInstruction i => Some i | _ => None end.

(* [codegen/core/ir/module/metadata/mod.rs | pub enum Metadata] *)
Inductive Metadata_ :=
  | MString (s : string)
  | MName (n : Name)
  | MConst (c : ConstantValue)
  | MNode (l : list Metadata_) (is_distinct : bool).

(* [codegen/core/ir/function/instruction/mod.rs | pub enum Opcode] *)
Inductive Opcode :=
  | OAlloca | OPhi | OLoad | OStore | OInsertValue | OExtractValue
  | Add | Sub | Mul | SDiv | SRem | And | Or | Xor | Shl | AShr | LShr
  | OICmp | Sext | Zext | OBitcast | OTrunc | IntToPtr | PtrToInt | OGetElementPtr
  | OCall | OInvoke | OLandingPad | OResume | OBr | OCondBr | OSwitch | ORet
  | OUnreachable | OInvalid.

#[global] Instance opcode_eq_dec : EqDecision Opcode.
Proof. solve_decision. Defined.

(* [codegen/core/ir/function/instruction/mod.rs | pub enum ICmpCond] *)
Inductive ICmpCond := Eq | Ne | Ugt | Uge | Ult | Ule | Sgt | Sge | Slt | Sle.

#[global] Instance icmp_cond_eq_dec : EqDecision ICmpCond.
Proof. solve_decision. Defined.

(* [codegen/core/ir/function/instruction/mod.rs | pub struct Alloca] *)
Record Alloca := { alloca_tys : Type_ * Type_; alloca_num_elements : ConstantValue; alloca_align : Z }.
(* [codegen/core/ir/function/instruction/mod.rs | pub struct Phi] *)
Record Phi := { phi_ty : Type_; phi_args : list ValueId; phi_blocks : list BasicBlockId }.
(* [codegen/core/ir/function/instruction/mod.rs | pub struct Load] *)
Record Load := { load_tys : Type_ * Type_; load_addr : ValueId; load_align : Z }.
(* [codegen/core/ir/function/instruction/mod.rs | pub struct IntBinary] *)
Record IntBinary := { bin_ty : Type_; nsw : bool; nuw : bool; exact_ : bool; bin_args : ValueId * ValueId }.
(* [codegen/core/ir/function/instruction/mod.rs | pub struct Store] *)
Record Store := { store_tys : Type_ * Type_; store_args : ValueId * ValueId; store_align : Z }.
(* [codegen/core/ir/function/instruction/mod.rs | pub struct InsertValue] *)
Record InsertValue := { insert_tys : Type_ * Type_; insert_args : list ValueId }.
(* [codegen/core/ir/function/instruction/mod.rs | pub struct ExtractValue] *)
Record ExtractValue := { extract_ty : Type_; extract_args : list ValueId }.
(* [codegen/core/ir/function/instruction/mod.rs | pub struct ICmp] *)
Record ICmp := { icmp_ty : Type_; icmp_args : ValueId * ValueId; icmp_cond : ICmpCond }.
(* [codegen/core/ir/function/instruction/mod.rs | pub struct Cast] *)
Record Cast := { cast_tys : Type_ * Type_; cast_arg : ValueId }.
(* [codegen/core/ir/function/instruction/mod.rs | pub struct Trunc] *)
Record Trunc := { trunc_tys : Type_ * Type_; trunc_arg : ValueId }.
(* [codegen/core/ir/function/instruction/mod.rs | pub struct GetElementPtr] *)
Record GetElementPtr := { gep_inbounds : bool; gep_tys : list Type_; gep_args : list ValueId }.
(* [codegen/core/ir/function/instruction/mod.rs | pub struct Call] *)
Record Call := {
  call_args : list ValueId;
  call_tys : list Type_;
  call_param_attrs : list (list ParameterAttribute);
  call_ret_attrs : list ParameterAttribute;
  call_func_attrs : list Attribute;
}.
(* [codegen/core/ir/function/instruction/mod.rs | pub struct Invoke] *)
Record Invoke := {
  invoke_args : list ValueId;
  invoke_tys : list Type_;
  invoke_param_attrs : list (list ParameterAttribute);
  invoke_ret_attrs : list ParameterAttribute;
  invoke_func_attrs : list Attribute;
  invoke_blocks : list BasicBlockId;
}.
(* [codegen/core/ir/function/instruction/mod.rs | pub struct LandingPad] *)
Record LandingPad := { pad_ty : Type_; pad_catches : list (Type_ * ValueId); pad_cleanup : bool }.
(* [codegen/core/ir/function/instruction/mod.rs | pub struct Resume] *)
Record Resume := { resume_ty : Type_; resume_arg : ValueId }.
(* [codegen/core/ir/function/instruction/mod.rs | pub struct Br] *)
Record Br := { br_block : BasicBlockId }.
(* [codegen/core/ir/function/instruction/mod.rs | pub struct CondBr] *)
Record CondBr := { condbr_arg : ValueId; condbr_blocks : BasicBlockId * BasicBlockId }.
(* [codegen/core/ir/function/instruction/mod.rs | pub struct Switch] *)
Record Switch := { switch_tys : list Type_; switch_args : list ValueId; switch_blocks : list BasicBlockId }.
(* [codegen/core/ir/function/instruction/mod.rs | pub struct Ret] *)
Record Ret_ := { ret_ty : Type_; ret_val : option ValueId }.

(* [codegen/core/ir/function/instruction/mod.rs | pub enum Operand] *)
Inductive Operand :=
  | Alloca_ (x : Alloca) | Phi_ (x : Phi) | Load_ (x : Load) | IntBinary_ (x : IntBinary)
  | Store_ (x : Store) | InsertValue_ (x : InsertValue) | ExtractValue_ (x : ExtractValue)
  | ICmp_ (x : ICmp) | Cast_ (x : Cast) | Trunc_ (x : Trunc) | GetElementPtr_ (x : GetElementPtr)
  | Call_ (x : Call) | Invoke_ (x : Invoke) | LandingPad_ (x : LandingPad) | Resume_ (x : Resume)
  | Br_ (x : Br) | CondBr_ (x : CondBr) | Switch_ (x : Switch) | Return_ (x : Ret_)
  | Unreachable_ | Invalid_.

(* [codegen/core/ir/function/instruction/mod.rs | pub struct Instruction] *)
Record Instruction := {
  opcode : Opcode;
  operand : Operand;
  ty : Type_;
  dest : option Name;
  id : option InstructionId;
  parent : BasicBlockId;
  metadata : gmap string Metadata_;
}.

(* [codegen/core/ir/function/instruction/mod.rs | pub fn with_block] *)
Definition with_block (o : Opcode) (b : BasicBlockId) : Instruction :=
  {| opcode := o; operand := Invalid_; ty := VOID; dest := None; id := None; parent := b;
     metadata := ∅ |}.
(* [codegen/core/ir/function/instruction/mod.rs | pub fn with_operand] *)
Definition with_operand (o : Operand) (i : Instruction) : Instruction :=
  {| opcode := opcode i; operand := o; ty := ty i; dest := dest i; id := id i;
     parent := parent i; metadata := metadata i |}.
(* [codegen/core/ir/function/instruction/mod.rs | pub fn with_dest] *)
Definition with_dest (n : Name) (i : Instruction) : Instruction :=
  {| opcode := opcode i; operand := operand i; ty := ty i; dest := Some n; id := id i;
     parent := parent i; metadata := metadata i |}.
(* [codegen/core/ir/function/instruction/mod.rs | pub fn with_ty] *)
Definition with_ty (t : Type_) (i : Instruction) : Instruction :=
  {| opcode := opcode i; operand := operand i; ty := t; dest := dest i; id := id i;
     parent := parent i; metadata := metadata i |}.
(* [codegen/core/ir/function/instruction/mod.rs | pub fn with_metadata] *)
Definition with_metadata (m : gmap string Metadata_) (i : Instruction) : Instruction :=
  {| opcode := opcode i; operand := operand i; ty := ty i; dest := dest i; id := id i;
     parent := parent i; metadata := m |}.
Definition with_id (n : InstructionId) (i : Instruction) : Instruction :=
  {| opcode := opcode i; operand := operand i; ty := ty i; dest := dest i; id := Some n;
     parent := parent i; metadata := metadata i |}.

(** The type and the metadata of [other] are not taken. *)
(* [codegen/core/ir/function/instruction/mod.rs | pub fn replace] *)
Definition replace (i other : Instruction) : comp Instruction :=
  _ ← assert_c (bool_decide (opcode i = OInvalid));
  Ret {| opcode := opcode other; operand := operand other; ty := ty i; dest := dest other;
         id := id i; parent := parent other; metadata := metadata i |}.

(* [codegen/core/ir/function/instruction/mod.rs | pub fn is_terminator] *)
Definition is_terminator (o : Opcode) : bool :=
  match o with
  | ORet | OBr | OCondBr | OSwitch | OInvoke | OResume => true
  | _ => false
  end.
(* [codegen/core/ir/function/instruction/mod.rs | 350-372 | Opcode::is_load and the like] *)
Definition is_opcode (o o' : Opcode) : bool := bool_decide (o = o').
(* [codegen/core/ir/function/instruction/mod.rs | pub fn has_side_effects] *)
Definition has_side_effects (o : Opcode) : bool :=
  is_opcode OLoad o || is_opcode OStore o || is_opcode OAlloca o || is_opcode OPhi o
  || is_opcode OCall o || is_opcode OInvoke o || is_terminator o.

(* [codegen/core/ir/function/instruction/mod.rs | pub fn args] *)
Definition args (o : Operand) : list ValueId :=
  match o with
  | Alloca_ _ => []
  | Phi_ p => phi_args p
  | Return_ r => match ret_val r with None => [] | Some v => [v] end
  | Load_ l => [load_addr l]
  | Store_ s => [(store_args s).1; (store_args s).2]
  | InsertValue_ i => insert_args i
  | ExtractValue_ e => extract_args e
  | IntBinary_ b => [(bin_args b).1; (bin_args b).2]
  | ICmp_ c => [(icmp_args c).1; (icmp_args c).2]
  | Cast_ c => [cast_arg c]
  | Trunc_ t => [trunc_arg t]
  | GetElementPtr_ g => gep_args g
  | Call_ c => call_args c
  | Invoke_ c => invoke_args c
  | LandingPad_ _ => []
  | Resume_ r => [resume_arg r]
  | Br_ _ => []
  | CondBr_ c => [condbr_arg c]
  | Switch_ s => switch_args s
  | Unreachable_ | Invalid_ => []
  end.

(** The slice of mutable arguments, with [f] applied to each. *)
(* [codegen/core/ir/function/instruction/mod.rs | pub fn args_mut(&mut self) -> &mut [ValueId]] *)
Definition args_mut (f : ValueId → ValueId) (o : Operand) : Operand :=
  match o with
  | Phi_ p => Phi_ {| phi_ty := phi_ty p; phi_args := map f (phi_args p); phi_blocks := phi_blocks p |}
  | Return_ r => Return_ {| ret_ty := ret_ty r; ret_val := option_map f (ret_val r) |}
  | Load_ l =>
      Load_ {| load_tys := load_tys l; load_addr := f (load_addr l); load_align := load_align l |}
  | Store_ s =>
      Store_ {| store_tys := store_tys s; store_align := store_align s;
                store_args := (f (store_args s).1, f (store_args s).2) |}
  | InsertValue_ i => InsertValue_ {| insert_tys := insert_tys i; insert_args := map f (insert_args i) |}
  | ExtractValue_ e =>
      ExtractValue_ {| extract_ty := extract_ty e; extract_args := map f (extract_args e) |}
  | IntBinary_ b =>
      IntBinary_ {| bin_ty := bin_ty b; nsw := nsw b; nuw := nuw b; exact_ := exact_ b;
                    bin_args := (f (bin_args b).1, f (bin_args b).2) |}
  | ICmp_ c =>
      ICmp_ {| icmp_ty := icmp_ty c; icmp_cond := icmp_cond c;
               icmp_args := (f (icmp_args c).1, f (icmp_args c).2) |}
  | Cast_ c => Cast_ {| cast_tys := cast_tys c; cast_arg := f (cast_arg c) |}
  | Trunc_ t => Trunc_ {| trunc_tys := trunc_tys t; trunc_arg := f (trunc_arg t) |}
  | GetElementPtr_ g =>
      GetElementPtr_ {| gep_inbounds := gep_inbounds g; gep_tys := gep_tys g; gep_args := map f (gep_args g) |}
  | Call_ c =>
      Call_ {| call_args := map f (call_args c); call_tys := call_tys c;
               call_param_attrs := call_param_attrs c; call_ret_attrs := call_ret_attrs c;
               call_func_attrs := call_func_attrs c |}
  | Invoke_ c =>
      Invoke_ {| invoke_args := map f (invoke_args c); invoke_tys := invoke_tys c;
                 invoke_param_attrs := invoke_param_attrs c; invoke_ret_attrs := invoke_ret_attrs c;
                 invoke_func_attrs := invoke_func_attrs c; invoke_blocks := invoke_blocks c |}
  | Resume_ r => Resume_ {| resume_ty := resume_ty r; resume_arg := f (resume_arg r) |}
  | CondBr_ c => CondBr_ {| condbr_arg := f (condbr_arg c); condbr_blocks := condbr_blocks c |}
  | Switch_ s =>
      Switch_ {| switch_tys := switch_tys s; switch_args := map f (switch_args s);
                 switch_blocks := switch_blocks s |}
  | Alloca_ _ | LandingPad_ _ | Br_ _ | Unreachable_ | Invalid_ => o
  end.

Definition pair_list {A} (p : A * A) : list A := [p.1; p.2].

(* [codegen/core/ir/function/instruction/mod.rs | pub fn types] *)
Definition types (o : Operand) : list Type_ :=
  match o with
  | Alloca_ a => pair_list (alloca_tys a)
  | Phi_ p => [phi_ty p]
  | Return_ r => [ret_ty r]
  | Load_ l => pair_list (load_tys l)
  | Store_ _ => []
  | InsertValue_ i => pair_list (insert_tys i)
  | ExtractValue_ e => [extract_ty e]
  | IntBinary_ b => [bin_ty b]
  | ICmp_ c => [icmp_ty c]
  | Cast_ c => pair_list (cast_tys c)
  | Trunc_ t => pair_list (trunc_tys t)
  | GetElementPtr_ g => gep_tys g
  | Call_ c => call_tys c
  | Invoke_ c => invoke_tys c
  | LandingPad_ l => [pad_ty l]
  | Resume_ r => [resume_ty r]
  | Br_ _ | CondBr_ _ => []
  | Switch_ s => switch_tys s
  | Unreachable_ | Invalid_ => []
  end.

(** The blocks of a switch are not among them. *)
(* [codegen/core/ir/function/instruction/mod.rs | pub fn blocks(&self) -> &[BasicBlockId] {] *)
Definition blocks (o : Operand) : list BasicBlockId :=
  match o with
  | Phi_ p => phi_blocks p
  | Br_ b => [br_block b]
  | CondBr_ c => pair_list (condbr_blocks c)
  | Invoke_ c => invoke_blocks c
  | _ => []
  end.

(* [codegen/core/ir/function/instruction/mod.rs | pub fn call_result_ty] *)
Definition call_result_ty (o : Operand) : comp (option Type_) :=
  match o with
  | Call_ c => t ← unwrap (call_tys c !! 0%nat); Ret (Some t)
  | Invoke_ c => t ← unwrap (invoke_tys c !! 0%nat); Ret (Some t)
  | _ => Ret None
  end.

(* [codegen/core/ir/function/instruction/mod.rs | 499-504 | as_alloca, as_store, as_load, as_phi, as_condbr] *)
Definition as_alloca (o : Operand) : option Alloca := match o with Alloca_ x => Some x | _ => None end.
Definition as_store (o : Operand) : option Store := match o with Store_ x => Some x | _ => None end.
Definition as_load (o : Operand) : option Load := match o with Load_ x => Some x | _ => None end.
Definition as_phi (o : Operand) : option Phi := match o with Phi_ x => Some x | _ => None end.
Definition as_condbr (o : Operand) : option CondBr := match o with CondBr_ x => Some x | _ => None end.

(* [codegen/core/ir/function/instruction/mod.rs | impl Alloca >> pub fn ty] *)
Definition alloca_ty (a : Alloca) : Type_ := (alloca_tys a).1.
(* [codegen/core/ir/function/instruction/mod.rs | impl Store >> pub fn dst_val] *)
Definition dst_val (s : Store) : ValueId := (store_args s).2.
(* [codegen/core/ir/function/instruction/mod.rs | impl Store >> pub fn src_val] *)
Definition src_val (s : Store) : ValueId := (store_args s).1.

(** [v[0]] and [&v[1..]] *)
Definition first {A} (l : list A) : comp A := unwrap (l !! 0%nat).
Definition rest {A} (l : list A) : comp (list A) := match l with [] => Panic | _ :: l => Ret l end.

(* [codegen/core/ir/function/instruction/mod.rs | impl Switch >> pub fn cond(] *)
Definition cond (s : Switch) : comp ValueId := first (switch_args s).
(* [codegen/core/ir/function/instruction/mod.rs | impl Switch >> pub fn cond_ty] *)
Definition cond_ty (s : Switch) : comp Type_ := first (switch_tys s).
(* [codegen/core/ir/function/instruction/mod.rs | impl Switch >> pub fn default_block] *)
Definition default_block (s : Switch) : comp BasicBlockId := first (switch_blocks s).
(* [codegen/core/ir/function/instruction/mod.rs | impl Switch >> pub fn blocks] *)
Definition case_blocks (s : Switch) : comp (list BasicBlockId) := rest (switch_blocks s).
(* [codegen/core/ir/function/instruction/mod.rs | impl Switch >> pub fn cases(] *)
Definition cases (s : Switch) : comp (list ValueId) := rest (switch_args s).
(* [codegen/core/ir/function/instruction/mod.rs | impl Switch >> pub fn cases_tys] *)
Definition cases_tys (s : Switch) : comp (list Type_) := rest (switch_tys s).

Lemma args_args_mut f o : args (args_mut f o) = map f (args o).
Proof. destruct o as [| | | | | | | | | | | | | | | | | |[? []]| |]; done. Qed.

Lemma args_mut_blocks f o : blocks (args_mut f o) = blocks o.
Proof. by destruct o. Qed.
End IrInst.

(** * The data of a function *)
Module IrData.
Import IrInst IrConst.

(** The predecessors and successors are hash sets: the lists hold each element
    once, in the order the set iterates over them. *)
(* [codegen/core/ir/function/basic_block/mod.rs | pub struct BasicBlock] *)
Record BasicBlock := { bb_name : option IrTypes.Name; preds : list BasicBlockId; succs : list BasicBlockId }.

(** The arenas only grow, and an id is an index. *)
(* [codegen/core/ir/function/data/mod.rs | pub struct Data] *)
Record Data := {
  values : list Value;
  instructions : list Instruction;
  basic_blocks : list BasicBlock;
  users_map : gmap InstructionId (gset InstructionId);
}.

(* [codegen/core/ir/function/data/mod.rs | impl Default for Data >> fn default] *)
Definition new : Data :=
  {| values := []; instructions := []; basic_blocks := []; users_map := ∅ |}.

Definition with_values v (d : Data) : Data :=
  {| values := v; instructions := instructions d; basic_blocks := basic_blocks d; users_map := users_map d |}.
Definition with_instructions l (d : Data) : Data :=
  {| values := values d; instructions := l; basic_blocks := basic_blocks d; users_map := users_map d |}.
Definition with_blocks b (d : Data) : Data :=
  {| values := values d; instructions := instructions d; basic_blocks := b; users_map := users_map d |}.
Definition with_users u (d : Data) : Data :=
  {| values := values d; instructions := instructions d; basic_blocks := basic_blocks d; users_map := u |}.

(* [codegen/core/ir/function/data/mod.rs | pub fn inst_ref(] *)
Definition inst_ref (d : Data) (i : InstructionId) : comp Instruction := unwrap (instructions d !! i).
(* [codegen/core/ir/function/data/mod.rs | pub fn value_ref(] *)
Definition value_ref (d : Data) (v : ValueId) : comp Value := unwrap (values d !! v).
(* [codegen/core/ir/function/data/mod.rs | pub fn block_ref(] *)
Definition block_ref (d : Data) (b : BasicBlockId) : comp BasicBlock := unwrap (basic_blocks d !! b).
(* [codegen/core/ir/function/data/mod.rs | pub fn users_of] *)
Definition users_of (d : Data) (i : InstructionId) : comp (gset InstructionId) := unwrap (users_map d !! i).

(* [codegen/core/ir/function/data/mod.rs | pub fn create_block] *)
Definition create_block (d : Data) : Data * BasicBlockId :=
  (with_blocks (basic_blocks d ++ [{| bb_name := None; preds := []; succs := [] |}]) d,
   length (basic_blocks d)).

(* [codegen/core/ir/function/data/mod.rs | pub fn create_value] *)
Definition create_value (d : Data) (v : Value) : Data * ValueId :=
  (with_values (values d ++ [v]) d, length (values d)).

(** The instructions among the arguments of an operand: the
    [args().iter().filter_map(..)] that the data and the passes repeat. *)
(* [codegen/core/ir/function/data/mod.rs | 138-146 | validate_inst_uses] *)
Definition inst_args (d : Data) (o : Operand) : comp (list InstructionId) :=
  vs ← mapM_c (value_ref d) (args o);
  Ret (omap (M:=list) as_inst vs).

(** [users_map.entry(arg).or_insert_with(FxHashSet::default).insert(id)] *)
Definition add_user (i : InstructionId) (u : gmap InstructionId (gset InstructionId)) (arg : InstructionId) :=
  <[arg := {[i]} ∪ default ∅ (u !! arg)]> u.

(* [codegen/core/ir/function/data/mod.rs | pub fn validate_inst_uses] *)
Definition validate_inst_uses (d : Data) (i : InstructionId) : comp Data :=
  inst ← inst_ref d i;
  l ← inst_args d (operand inst);
  Ret (with_users (foldl (add_user i) (users_map d) l) d).

(* [codegen/core/ir/function/data/mod.rs | pub fn create_inst] *)
Definition create_inst (d : Data) (inst : Instruction) : comp (Data * InstructionId) :=
  let i := length (instructions d) in
  let d := with_instructions (instructions d ++ [with_id i inst]) d in
  let d := with_users (<[i := ∅]> (users_map d)) d in
  d ← validate_inst_uses d i;
  Ret (d, i).

(* [codegen/core/ir/function/data/mod.rs | pub fn replace_inst(] *)
Definition replace_inst (d : Data) (from : InstructionId) (to_ : Instruction) : comp Data :=
  inst ← inst_ref d from;
  inst ← replace inst to_;
  validate_inst_uses (with_instructions (<[from := inst]> (instructions d)) d) from.

Definition upd_block (d : Data) (b : BasicBlockId) (f : BasicBlock → BasicBlock) : comp Data :=
  bb ← block_ref d b; Ret (with_blocks (<[b := f bb]> (basic_blocks d)) d).

(** [HashSet::remove] and [HashSet::insert]; a new element comes anywhere in
    the order of iteration: here, at the end. *)
Definition set_remove (x : BasicBlockId) (l : list BasicBlockId) : list BasicBlockId :=
  filter (λ y, y ≠ x) l.
Definition set_insert (x : BasicBlockId) (l : list BasicBlockId) : list BasicBlockId :=
  if decide (x ∈ l) then l else l ++ [x].

(* [codegen/core/ir/function/data/mod.rs | pub fn remove_block_pred] *)
Definition remove_block_pred (d : Data) (b pred : BasicBlockId) : comp Data :=
  upd_block d b (λ bb, {| bb_name := bb_name bb; preds := set_remove pred (preds bb); succs := succs bb |}).
(* [codegen/core/ir/function/data/mod.rs | pub fn remove_block_succ] *)
Definition remove_block_succ (d : Data) (b succ : BasicBlockId) : comp Data :=
  upd_block d b (λ bb, {| bb_name := bb_name bb; preds := preds bb; succs := set_remove succ (succs bb) |}).

(** [Value::Instruction(i) if i == from] *)
Definition is_inst (d : Data) (from : InstructionId) (v : ValueId) : bool :=
  match values d !! v with Some (VInstruction i) => bool_decide (i = from) | _ => false end.

Definition subst_inst (d : Data) (from : InstructionId) (to_ v : ValueId) : ValueId :=
  if is_inst d from v then to_ else v.

(* [codegen/core/ir/function/data/mod.rs | pub fn replace_inst_arg] *)
Definition replace_inst_arg (d : Data) (inst_id from : InstructionId) (to_ : ValueId) : comp Data :=
  inst ← inst_ref d inst_id;
  _ ← mapM_c (value_ref d) (args (operand inst));
  let replaced := existsb (is_inst d from) (args (operand inst)) in
  let o := args_mut (subst_inst d from to_) (operand inst) in
  let d := with_instructions (<[inst_id := with_operand o inst]> (instructions d)) d in
  if negb replaced then Ret d
  else
    u ← match users_map d !! from with
        | None => Ret (users_map d)
        | Some us =>
            _ ← assert_c (bool_decide (inst_id ∈ us));
            Ret (<[from := us ∖ {[inst_id]}]> (users_map d))
        end;
    v ← value_ref d to_;
    match (v : Value) with
    | VInstruction to_ => Ret (with_users (add_user inst_id u to_) d)
    | _ => Ret (with_users u d)
    end.

Section Iteration.
(** The order in which a hash set of users is iterated over. *)
Context (users_order : gset InstructionId → list InstructionId).

(* [codegen/core/ir/function/data/mod.rs | pub fn replace_all_uses] *)
Definition replace_all_uses (d : Data) (inst_id : InstructionId) (to_ : ValueId) : comp Data :=
  us ← users_of d inst_id;
  foldM (λ d user, replace_inst_arg d user inst_id to_) d (users_order us).

(* [codegen/core/ir/function/data/mod.rs | pub fn only_one_user_of] *)
Definition only_one_user_of (d : Data) (i : InstructionId) : comp (option InstructionId) :=
  us ← users_of d i;
  if decide (size us ≠ 1%nat) then Ret None else Ret (head (users_order us)).
End Iteration.

Definition remove_user (i : InstructionId) (u : gmap InstructionId (gset InstructionId)) (arg : InstructionId) :=
  match u !! arg with
  | None => u
  | Some us => <[arg := us ∖ {[i]}]> u
  end.

(* [codegen/core/ir/function/data/mod.rs | pub fn remove_uses] *)
Definition remove_uses (d : Data) (i : InstructionId) : comp Data :=
  inst ← inst_ref d i;
  l ← inst_args d (operand inst);
  Ret (with_users (foldl (remove_user i) (users_map d) l) d).

(** ** The map of users says what the instructions say *)

(** [u] has an argument that is the value of [i]. *)
Definition uses (d : Data) (u i : InstructionId) : Prop :=
  ∃ inst v, instructions d !! u = Some inst ∧ v ∈ args (operand inst)
            ∧ values d !! v = Some (VInstruction i).

(** Ids in values and in operands are ids of the arenas. *)
Record closed (d : Data) : Prop := {
  closed_args : ∀ u inst v, instructions d !! u = Some inst → v ∈ args (operand inst) →
                is_Some (values d !! v);
  closed_values : ∀ v i, values d !! v = Some (VInstruction i) → (i < length (instructions d))%nat;
}.

(** The users recorded for an instruction are the instructions that use it,
    those whose uses were removed apart. *)
Record users_exact (d : Data) (removed : gset InstructionId) : Prop := {
  exact_closed : closed d;
  exact_dom : ∀ i, is_Some (users_map d !! i) ↔ (i < length (instructions d))%nat;
  exact_removed : ∀ i, i ∈ removed → (i < length (instructions d))%nat;
  exact_users : ∀ i us u, users_map d !! i = Some us → u ∈ us ↔ (u ∉ removed) ∧ uses d u i;
}.

Lemma inst_args_spec d o :
  (∀ v, v ∈ args o → is_Some (values d !! v)) →
  ∃ l, inst_args d o = Ret l ∧
    ∀ i, i ∈ l ↔ ∃ v, v ∈ args o ∧ values d !! v = Some (VInstruction i).
Proof.
  unfold inst_args. induction (args o) as [|v vs IH]; cbn [mapM_c]; intros Hv.
  - exists []. split; [done|]. set_solver.
  - destruct (Hv v) as [x Hx]; [by left|].
    destruct IH as (l & Hl & Hin); [intros; apply Hv; by right|].
    apply bind_Ret in Hl as (xs & Hxs & [= <-]).
    exists (omap as_inst (x :: xs)).
    assert (value_ref d v = Ret x) as -> by (unfold value_ref; by rewrite Hx).
    cbn [mbind comp_bind]. rewrite Hxs. cbn [mbind comp_bind]. split; [done|].
    intros i. destruct x as [j| | |]; cbn;
      rewrite ?elem_of_cons, Hin; setoid_rewrite elem_of_cons; naive_solver.
Qed.

Lemma add_users_lookup i l u j :
  foldl (add_user i) u l !! j
  = if decide (j ∈ l) then Some ({[i]} ∪ default ∅ (u !! j)) else u !! j.
Proof.
  revert u. induction l as [|a l IH]; intros u; cbn; [by rewrite decide_False by set_solver|].
  rewrite IH. unfold add_user. destruct (decide (j = a)) as [->|Hja].
  - rewrite lookup_insert_eq, (decide_True (P := a ∈ a :: l)) by set_solver.
    case_decide; [|done]. cbn. f_equal. set_solver.
  - rewrite lookup_insert_ne by done. apply decide_ext. set_solver.
Qed.

Lemma remove_users_lookup i l u j :
  foldl (remove_user i) u l !! j
  = if decide (j ∈ l) then option_map (λ us, us ∖ {[i]}) (u !! j) else u !! j.
Proof.
  revert u. induction l as [|a l IH]; intros u; cbn; [by rewrite decide_False by set_solver|].
  rewrite IH. unfold remove_user. destruct (u !! a) as [us|] eqn:Ha;
    (destruct (decide (j = a)) as [->|Hja];
     [rewrite ?lookup_insert_eq, ?Ha, (decide_True (P := a ∈ a :: l)) by set_solver;
      case_decide; cbn; [f_equal; set_solver|done]
     |rewrite ?lookup_insert_ne by done; apply decide_ext; set_solver]).
Qed.

Lemma users_exact_new : users_exact new ∅.
Proof.
  split; [split; cbn; intros *; rewrite ?lookup_nil; done| | |];
    cbn; intros *; rewrite ?lookup_empty; try done.
  split; [by intros []|lia].
Qed.

Lemma remove_uses_exact d R i :
  users_exact d R → (i < length (instructions d))%nat →
  ∃ u, remove_uses d i = Ret (with_users u d) ∧ users_exact (with_users u d) ({[i]} ∪ R).
Proof.
  intros [Hc Hd HR Hu] Hlt. pose proof Hlt as [inst Hi]%lookup_lt_is_Some_2. unfold remove_uses, inst_ref. rewrite Hi. cbn.
  destruct (inst_args_spec d (operand inst)) as (l & Hl & Hin);
    [intros v Hv; exact (closed_args _ Hc _ _ _ Hi Hv)|].
  rewrite Hl. cbn. eexists; split; [reflexivity|]. split; cbn.
  - destruct Hc. by split.
  - intros j. rewrite remove_users_lookup. case_decide; [|apply Hd].
    rewrite <-Hd. destruct (users_map d !! j); cbn; (split; intros []; eauto; discriminate).
  - intros j. set_solver.
  - intros j us u Hj. rewrite remove_users_lookup in Hj.
    assert (uses d i j ↔ j ∈ l) as Hij.
    { rewrite Hin. unfold uses. rewrite Hi. naive_solver. }
    change (uses _ u j) with (uses d u j).
    case_decide as Hjl.
    + destruct (users_map d !! j) as [us0|] eqn:Hj0; [|done]. injection Hj as <-.
      rewrite elem_of_difference, (Hu _ _ _ Hj0). set_solver.
    + rewrite (Hu _ _ _ Hj), not_elem_of_union, not_elem_of_singleton.
      destruct (decide (u = i)) as [->|]; naive_solver.
Qed.

(** Adding an instruction to the users of its arguments. *)
Lemma validate_inst_uses_spec d i inst :
  instructions d !! i = Some inst → (∀ v, v ∈ args (operand inst) → is_Some (values d !! v)) →
  ∃ l, validate_inst_uses d i = Ret (with_users (foldl (add_user i) (users_map d) l) d)
    ∧ ∀ j, j ∈ l ↔ uses d i j.
Proof.
  intros Hi Ha. unfold validate_inst_uses, inst_ref. rewrite Hi. cbn.
  destruct (inst_args_spec d (operand inst) Ha) as (l & Hl & Hin). rewrite Hl. cbn.
  exists l. split; [done|]. intros j. rewrite Hin. unfold uses. rewrite Hi. naive_solver.
Qed.

Lemma create_inst_exact d R inst :
  users_exact d R → (∀ v, v ∈ args (operand inst) → is_Some (values d !! v)) →
  let i := length (instructions d) in
  ∃ u, create_inst d inst = Ret (with_users u (with_instructions (instructions d ++ [with_id i inst]) d), i)
    ∧ users_exact (with_users u (with_instructions (instructions d ++ [with_id i inst]) d)) R.
Proof.
  intros [[Hca Hcv] Hd HR Hu] Ha i. unfold create_inst. fold i.
  set (d1 := with_users _ _).
  destruct (validate_inst_uses_spec d1 i (with_id i inst)) as (l & -> & Hl);
    [by apply list_lookup_middle|done|].
  cbn [mbind comp_bind]. eexists; split; [reflexivity|].
  assert (Hnew : ∀ u inst', (instructions d ++ [with_id i inst]) !! u = Some inst' →
            instructions d !! u = Some inst' ∨ u = i ∧ inst' = with_id i inst).
  { intros u inst' H. apply lookup_app_Some in H as [H|[H1 H2]]; [by left|right].
    apply list_lookup_singleton_Some in H2 as [H2 <-]. split; [unfold i; lia|done]. }
  assert (Hlen : length (instructions d ++ [with_id i inst]) = S i) by (rewrite length_app; cbn; lia).
  assert (Hself : ∀ u, ¬ uses d1 u i).
  { intros u (inst' & v & _ & _ & Hv%Hcv). unfold i in Hv. lia. }
  assert (Hold : ∀ u j, u ≠ i → uses d1 u j ↔ uses d u j).
  { intros u j Hui. split; intros (inst' & v & H1 & H2 & H3); exists inst', v; (split; [|done]).
    - by destruct (Hnew _ _ H1) as [?|[??]].
    - by apply lookup_app_l_Some. }
  split; cbn.
  - split; cbn.
    + intros u inst' v [H|[-> ->]]%Hnew Hv; [by eapply Hca|by apply Ha].
    + intros v j Hv%Hcv. rewrite Hlen. unfold i. lia.
  - intros j. rewrite add_users_lookup, Hlen. cbn. case_decide as Hj.
    + apply Hl in Hj. destruct Hj as (? & v & _ & _ & Hv%Hcv).
      split; intros; [unfold i; lia|by eexists].
    + destruct (decide (j = i)) as [->|Hji]; [rewrite lookup_insert_eq; split; intros; [lia|by eexists]|].
      rewrite lookup_insert_ne, Hd by done. unfold i in *. lia.
  - intros j Hj%HR. rewrite Hlen. unfold i. lia.
  - intros j us u Hj. rewrite add_users_lookup in Hj. change (uses _ u j) with (uses d1 u j).
    assert (i ∉ R) as HiR by (intros ?%HR; unfold i in *; lia). cbn in Hj.
    destruct (decide (j = i)) as [->|Hji].
    { rewrite decide_False, lookup_insert_eq in Hj by (by rewrite Hl). injection Hj as <-.
      split; [set_solver|intros [_ []%Hself]]. }
    rewrite lookup_insert_ne in Hj by done. specialize (Hl j).
    case_decide as Hjl.
    + destruct (users_map d !! j) as [us0|] eqn:Hj0; cbn in Hj; injection Hj as <-.
      2: { destruct Hl as [(?&v&_&_&Hv%Hcv%Hd) _]; [done|]. rewrite Hj0 in Hv. by destruct Hv. }
      rewrite elem_of_union, elem_of_singleton, (Hu _ _ _ Hj0).
      destruct (decide (u = i)) as [->|Hui]; [tauto|]. rewrite (Hold u j Hui). tauto.
    + rewrite (Hu _ _ _ Hj). destruct (decide (u = i)) as [->|Hui]; [|by rewrite Hold].
      split; [|tauto]. intros [_ (?&?&H1%lookup_lt_Some&_)]. unfold i in *. lia.
Qed.

Lemma is_inst_true d from v : is_inst d from v = true ↔ values d !! v = Some (VInstruction from).
Proof.
  unfold is_inst. destruct (values d !! v) as [[]|]; rewrite ?bool_decide_eq_true; naive_solver.
Qed.

(** [inst] with the uses of [from] replaced. *)
Definition replaced_inst (d : Data) (from : InstructionId) (to_ : ValueId) (inst : Instruction) :=
  with_operand (args_mut (subst_inst d from to_) (operand inst)) inst.

Definition replaced_at (d : Data) (u from : InstructionId) (to_ : ValueId) : Data :=
  with_instructions (alter (replaced_inst d from to_) u (instructions d)) d.

Lemma uses_replaced_at d u from to_ w j :
  uses (replaced_at d u from to_) w j ↔
  if decide (w = u) then (uses d u j ∧ j ≠ from) ∨ (uses d u from ∧ values d !! to_ = Some (VInstruction j))
  else uses d w j.
Proof.
  unfold uses, replaced_at; cbn. case_decide as Hw; [subst w|by rewrite list_lookup_alter_ne].
  rewrite list_lookup_alter_eq.
  destruct (instructions d !! u) as [inst|]; cbn; [|naive_solver].
  split.
  - intros (? & v & [= <-] & Hv & Hj). cbn in Hv. rewrite args_args_mut in Hv.
    apply list_elem_of_In, in_map_iff in Hv as (v0 & <- & Hv0%list_elem_of_In).
    unfold subst_inst in Hj. destruct (is_inst d from v0) eqn:Hi; [apply is_inst_true in Hi; eauto 10|].
    left. split; [by eauto|]. intros ->. apply is_inst_true in Hj. congruence.
  - assert (∀ v0, v0 ∈ args (operand inst) →
      subst_inst d from to_ v0 ∈ args (operand (replaced_inst d from to_ inst))) as Hin.
    { intros v0 Hv0%list_elem_of_In. cbn. rewrite args_args_mut. by apply list_elem_of_In, in_map. }
    unfold subst_inst in Hin.
    intros [[(? & v & [= <-] & Hv & Hj) Hne]|[(? & v & [= <-] & Hv & Hf) Hto]];
      eexists _, _; (split; [done|]); (split; [by apply Hin|]).
    + destruct (is_inst d from v) eqn:Hi; [|done]. apply is_inst_true in Hi. congruence.
    + apply is_inst_true in Hf. by rewrite Hf.
Qed.

Lemma existsb_uses d u inst from :
  instructions d !! u = Some inst →
  existsb (is_inst d from) (args (operand inst)) = true ↔ uses d u from.
Proof.
  intros Hi. rewrite existsb_exists. unfold uses. rewrite Hi.
  setoid_rewrite <-list_elem_of_In. setoid_rewrite is_inst_true. naive_solver.
Qed.

#[global] Instance uses_dec d u i : Decision (uses d u i).
Proof.
  destruct (instructions d !! u) as [inst|] eqn:Hi.
  - destruct (existsb (is_inst d i) (args (operand inst))) eqn:E; [left|right].
    + by apply (existsb_uses d u inst).
    + intros H%(existsb_uses d u inst i Hi). congruence.
  - right. intros (? & ? & ? & _). congruence.
Defined.

Lemma closed_replaced_at d u from to_ :
  closed d → is_Some (values d !! to_) → closed (replaced_at d u from to_).
Proof.
  intros [Ha Hv] Hto. split; unfold replaced_at; cbn.
  - intros w inst v Hw Hin. destruct (decide (w = u)) as [->|]; [|rewrite list_lookup_alter_ne in Hw by done; eauto].
    rewrite list_lookup_alter_eq in Hw. destruct (instructions d !! u) as [inst0|] eqn:Hu; [|done].
    injection Hw as <-. cbn in Hin. rewrite args_args_mut in Hin.
    apply list_elem_of_In, in_map_iff in Hin as (v0 & <- & Hv0%list_elem_of_In).
    unfold subst_inst. case_match; eauto.
  - intros v i. rewrite length_alter. apply Hv.
Qed.

(** The steps of [replace_inst_arg], as one equation. *)
Lemma replace_inst_arg_step d R u from to_ :
  users_exact d R → u ∉ R → (u < length (instructions d))%nat → is_Some (values d !! to_) →
  ∃ us, replace_inst_arg d u from to_ = Ret (with_users us (replaced_at d u from to_)) ∧
    (¬ uses d u from ∧ us = users_map d ∨
     uses d u from ∧ ∃ s, users_map d !! from = Some s ∧
       us = match values d !! to_ with
            | Some (VInstruction j) => add_user u (<[from := s ∖ {[u]}]> (users_map d)) j
            | _ => <[from := s ∖ {[u]}]> (users_map d)
            end).
Proof.
  intros [Hc Hd HR Hu] HuR [inst Hi]%lookup_lt_is_Some_2 [x Hx].
  unfold replace_inst_arg, inst_ref. rewrite Hi. cbn [unwrap mbind comp_bind].
  assert (∃ xs, mapM_c (value_ref d) (args (operand inst)) = Ret xs) as [xs ->].
  { assert (∀ v, v ∈ args (operand inst) → is_Some (values d !! v)) as Hv by (intros; by eapply closed_args).
    destruct (inst_args_spec d _ Hv) as (l & Hl & _). apply bind_Ret in Hl as (xs & Hxs & _). eauto. }
  cbn [mbind comp_bind].
  assert (Heq : <[u := replaced_inst d from to_ inst]> (instructions d)
                = alter (replaced_inst d from to_) u (instructions d)).
  { apply list_eq. intros k. destruct (decide (k = u)) as [->|].
    - rewrite list_lookup_insert_eq by (by eapply lookup_lt_Some). by rewrite list_lookup_alter_eq, Hi.
    - by rewrite list_lookup_insert_ne, list_lookup_alter_ne. }
  fold (replaced_inst d from to_ inst). rewrite Heq.
  destruct (existsb _ _) eqn:Hex; cbn [negb].
  - pose proof Hex as Hfrom. apply (existsb_uses d u inst from Hi) in Hfrom.
    assert (is_Some (users_map d !! from)) as [s Hs].
    { apply Hd. destruct Hfrom as (? & v & _ & _ & Hv). by eapply closed_values. }
    cbn [users_map with_instructions]. rewrite Hs.
    assert (u ∈ s) as Hus by (by apply (Hu _ _ _ Hs)).
    rewrite bool_decide_true by done. cbn [assert_c mbind comp_bind].
    unfold value_ref. cbn [values with_instructions]. rewrite Hx. cbn [unwrap mbind comp_bind].
    eexists. split; [|right; split; [done|exists s; split; [done|reflexivity]]].
    by destruct x.
  - exists (users_map d). split; [by destruct d|]. left. split; [|done].
    intros H%(existsb_uses d u inst from Hi). congruence.
Qed.

Lemma replace_inst_arg_exact d R u from to_ :
  users_exact d R → u ∉ R → (u < length (instructions d))%nat → is_Some (values d !! to_) →
  ∃ us, replace_inst_arg d u from to_ = Ret (with_users us (replaced_at d u from to_))
        ∧ users_exact (with_users us (replaced_at d u from to_)) R.
Proof.
  intros Hex HuR Hlt Hto.
  destruct (replace_inst_arg_step d R u from to_) as (us & Hstep & Hus); try done.
  exists us. split; [done|]. destruct Hex as [Hc Hd HR Hu].
  pose proof (closed_replaced_at d u from to_ Hc Hto) as [Hca Hcv].
  assert (Hlen : length (instructions (replaced_at d u from to_)) = length (instructions d))
    by apply length_alter.
  split; [by split|cbn in *|by intros i ?%HR; cbn in *; lia|]; cbn in Hlen.
  - intros i. rewrite Hlen, <-Hd.
    destruct Hus as [[_ ->]|(_ & s & Hs & ->)]; [done|].
    assert (∀ i, is_Some (<[from:=s ∖ {[u]}]> (users_map d) !! i) ↔ is_Some (users_map d !! i)) as H1.
    { intros k. destruct (decide (k = from)) as [->|];
        [rewrite lookup_insert_eq, Hs; split; by eexists|by rewrite lookup_insert_ne]. }
    destruct (values d !! to_) as [[t| | |]|] eqn:Ht; try apply H1.
    unfold add_user. destruct (decide (i = t)) as [->|];
      [rewrite lookup_insert_eq|by rewrite lookup_insert_ne].
    split; [|by eexists]. intros _. apply Hd. rewrite <-Hlen. eapply Hcv. exact Ht.
  - cbn. intros i si w Hi.
    change (uses _ w i) with (uses (replaced_at d u from to_) w i). rewrite uses_replaced_at.
    destruct Hus as [[Hn ->]|(Hy & s & Hs & ->)].
    { rewrite (Hu _ _ _ Hi). case_decide as Hw; [subst w|done].
      destruct (decide (i = from)) as [->|]; naive_solver. }
    assert (H1 : ∀ k sk, <[from:=s ∖ {[u]}]> (users_map d) !! k = Some sk →
                   w ∈ sk ↔ (w ∉ R) ∧ uses d w k ∧ ¬ (w = u ∧ k = from)).
    { intros k sk. destruct (decide (k = from)) as [->|].
      - rewrite lookup_insert_eq. intros [= <-]. rewrite elem_of_difference, (Hu _ _ _ Hs). set_solver.
      - rewrite lookup_insert_ne by done. intros Hk. rewrite (Hu _ _ _ Hk). naive_solver. }
    destruct (values d !! to_) as [[t| | |]|] eqn:Ht;
      try (rewrite (H1 _ _ Hi); case_decide; naive_solver).
    unfold add_user in Hi. destruct (decide (i = t)) as [->|].
    2: { rewrite lookup_insert_ne in Hi by done. rewrite (H1 _ _ Hi). case_decide; naive_solver. }
    rewrite lookup_insert_eq in Hi. injection Hi as <-.
    rewrite elem_of_union, elem_of_singleton.
    destruct (<[from:=s ∖ {[u]}]> (users_map d) !! t) as [st|] eqn:Hst.
    + cbn. rewrite (H1 _ _ Hst). case_decide as Hw; [subst w; naive_solver|naive_solver].
    + exfalso. assert (is_Some (users_map d !! t)) as [z Hz] by (apply Hd; rewrite <-Hlen; by eapply Hcv).
      destruct (decide (t = from)) as [->|];
        [by rewrite lookup_insert_eq in Hst|by rewrite lookup_insert_ne, Hz in Hst].
Qed.

Lemma args_mut_id f o : (∀ v, v ∈ args o → f v = v) → args_mut f o = o.
Proof.
  assert (∀ l : list ValueId, (∀ v, v ∈ l → f v = v) → map f l = l) as Hl.
  { induction l as [|x l IH]; intros H; cbn; [done|]. rewrite H, IH; set_solver. }
  intros H. destruct o as [[]|[]|[]|[? ? ? ? []]|[? [] ?]|[]|[]|[? [] ?]|[]|[]|[]|[]|[]|[]|[]|[]|[]|[]|[? []]| |];
    cbn in *; rewrite ?Hl by done; rewrite ?H by set_solver; try done.
Qed.

Lemma replaced_inst_id d u from to_ inst :
  instructions d !! u = Some inst → ¬ uses d u from → replaced_inst d from to_ inst = inst.
Proof.
  intros Hi Hn. unfold replaced_inst. rewrite args_mut_id; [by destruct inst|].
  intros v Hv. unfold subst_inst. destruct (is_inst d from v) eqn:E; [|done].
  apply is_inst_true in E. destruct Hn. by exists inst, v.
Qed.

Lemma replaced_inst_values d d' from to_ inst :
  values d' = values d → replaced_inst d' from to_ inst = replaced_inst d from to_ inst.
Proof. unfold replaced_inst, subst_inst, is_inst. by intros ->. Qed.

Section Uses.
Context (users_order : gset InstructionId → list InstructionId).
Context (users_order_perm : ∀ s, users_order s ≡ₚ elements s).

(** What replacing the uses of [from] by [to_] in the instructions [P] means. *)
Definition replaced_in (P : InstructionId → Prop) `{∀ u, Decision (P u)} (d d' : Data) from to_ : Prop :=
  values d' = values d ∧ basic_blocks d' = basic_blocks d ∧
  length (instructions d') = length (instructions d) ∧
  ∀ u, instructions d' !! u
       = (if decide (P u) then replaced_inst d from to_ else λ inst, inst) <$> instructions d !! u.

Lemma replace_in_users d R l from to_ :
  users_exact d R → is_Some (values d !! to_) → NoDup l →
  (∀ u, u ∈ l → (u ∉ R) ∧ (u < length (instructions d))%nat) →
  ∃ d', foldM (λ d user, replace_inst_arg d user from to_) d l = Ret d'
    ∧ users_exact d' R ∧ replaced_in (λ u, u ∈ l) d d' from to_.
Proof.
  revert d. induction l as [|u l IH]; intros d Hex Hto Hnd Hl.
  { exists d. split_and!; [done|done|]. unfold replaced_in. split_and!; try done. intros u. rewrite decide_False by set_solver.
    by destruct (instructions d !! u). }
  apply NoDup_cons in Hnd as [Hu Hnd]. destruct (Hl u) as [HuR Hlt]; [by left|].
  destruct (replace_inst_arg_exact d R u from to_ Hex HuR Hlt Hto) as (us & Hstep & Hex').
  cbn [foldM]. rewrite Hstep. cbn [mbind comp_bind].
  destruct (IH (with_users us (replaced_at d u from to_))) as (d' & -> & Hex'' & Hv & Hb & Hn & Hi);
    [done|done|done| |].
  { intros w Hw. cbn. rewrite length_alter. apply Hl. by right. }
  exists d'. split_and!; [done|done|]. cbn in *. rewrite length_alter in Hn. split_and!; try done.
  intros w. rewrite Hi. destruct (decide (w = u)) as [->|Hwu].
  - rewrite list_lookup_alter_eq, decide_False, decide_True by set_solver.
    by destruct (instructions d !! u).
  - rewrite list_lookup_alter_ne by done. erewrite (decide_ext (w ∈ l) (w ∈ u :: l)) by set_solver.
    case_decide; [|done]. destruct (instructions d !! w); [|done]. done.
Qed.

Lemma replace_all_uses_replaces d R from to_ :
  users_exact d R → (from < length (instructions d))%nat → is_Some (values d !! to_) →
  ∃ d', replace_all_uses users_order d from to_ = Ret d' ∧ users_exact d' R
    ∧ replaced_in (λ u, u ∉ R) d d' from to_
    ∧ (values d !! to_ ≠ Some (VInstruction from) → users_map d' !! from = Some ∅).
Proof.
  intros Hex Hlt Hto. pose proof Hex as [Hc Hd HR Hu].
  assert (is_Some (users_map d !! from)) as [s Hs] by by apply Hd.
  unfold replace_all_uses, users_of. rewrite Hs. cbn [unwrap mbind comp_bind].
  destruct (replace_in_users d R (users_order s) from to_) as (d' & Hd' & Hex' & Hv & Hb & Hn & Hi);
    [done|done|rewrite users_order_perm; apply NoDup_elements| |].
  { intros u. rewrite users_order_perm, elem_of_elements, (Hu _ _ _ Hs).
    intros [HuR (inst & _ & Hl%lookup_lt_Some & _)]. done. }
  exists d'. split_and!; [done|done| |].
  - split_and!; try done. intros u. rewrite Hi.
    destruct (instructions d !! u) as [inst|] eqn:Hiu; [|done]. cbn. f_equal.
    destruct (decide (u ∈ users_order s)) as [Hin|Hin];
      rewrite users_order_perm, elem_of_elements, (Hu _ _ _ Hs) in Hin.
    + by rewrite decide_True by apply Hin.
    + case_decide; [|done]. symmetry. apply (replaced_inst_id _ u); [done|]. naive_solver.
  - intros Hne. assert (is_Some (users_map d' !! from)) as [s' Hs'].
    { apply (exact_dom _ _ Hex'). by rewrite Hn. }
    rewrite Hs'. f_equal. apply set_eq. intros u.
    rewrite (exact_users _ _ Hex' _ _ u Hs'). split; [|set_solver].
    intros [HuR (inst & v & Hiu & Hvin & Hval)]. exfalso.
    rewrite Hi in Hiu. destruct (instructions d !! u) as [inst0|] eqn:Hi0; [|done].
    cbn in Hiu. rewrite Hv in Hval.
    rewrite decide_True in Hiu.
    2: { rewrite users_order_perm, elem_of_elements, (Hu _ _ _ Hs). split; [done|].
         destruct (decide (u ∈ users_order s)) as [Hin|Hin];
           [rewrite users_order_perm, elem_of_elements, (Hu _ _ _ Hs) in Hin; naive_solver|].
         rewrite ?decide_False in Hiu by done. injection Hiu as <-. by exists inst0, v. }
    injection Hiu as <-. cbn in Hvin. rewrite args_args_mut in Hvin.
    apply list_elem_of_In, in_map_iff in Hvin as (v0 & <- & _).
    unfold subst_inst in Hval. destruct (is_inst d from v0) eqn:E; [done|].
    apply is_inst_true in Hval. congruence.
Qed.

(** ** Reachable data: any sequence of operations from the empty data *)

Inductive op :=
  | CreateValue (v : Value)
  | CreateInst (inst : Instruction)
  | ReplaceInstArg (u from : InstructionId) (to_ : ValueId)
  | ReplaceAllUses (from : InstructionId) (to_ : ValueId)
  | RemoveUses (i : InstructionId).

Definition run_op (d : Data) (o : op) : comp Data :=
  match o with
  | CreateValue v => Ret (create_value d v).1
  | CreateInst inst => '(d, _) ← create_inst d inst; Ret d
  | ReplaceInstArg u from to_ => replace_inst_arg d u from to_
  | ReplaceAllUses from to_ => replace_all_uses users_order d from to_
  | RemoveUses i => remove_uses d i
  end.

(** Ids exist, and the arguments of a removed instruction stay. *)
Definition allowed (d : Data) (removed : gset InstructionId) (o : op) : Prop :=
  match o with
  | CreateValue (VInstruction i) => (i < length (instructions d))%nat
  | CreateValue _ => True
  | CreateInst inst => ∀ v, v ∈ args (operand inst) → is_Some (values d !! v)
  | ReplaceInstArg u from to_ =>
      (u ∉ removed) ∧ (u < length (instructions d))%nat ∧ is_Some (values d !! to_)
  | ReplaceAllUses from to_ => (from < length (instructions d))%nat ∧ is_Some (values d !! to_)
  | RemoveUses i => (i < length (instructions d))%nat
  end.

Definition removed_by (o : op) : gset InstructionId :=
  match o with RemoveUses i => {[i]} | _ => ∅ end.

Inductive reachable : Data → gset InstructionId → Prop :=
  | reachable_new : reachable new ∅
  | reachable_op d R o d' :
      reachable d R → allowed d R o → run_op d o = Ret d' → reachable d' (removed_by o ∪ R).

Lemma create_value_exact d R v :
  users_exact d R → allowed d R (CreateValue v) → users_exact (create_value d v).1 R.
Proof.
  intros [[Ha Hv] Hd HR Hu] Hok.
  assert (Hnew : ∀ k i, (values d ++ [v]) !! k = Some (VInstruction i) →
            values d !! k = Some (VInstruction i) ∨ k = length (values d) ∧ v = VInstruction i).
  { intros k i [H|[H1 H2]]%lookup_app_Some; [by left|right].
    apply list_lookup_singleton_Some in H2 as [? ->]. split; [lia|done]. }
  split; cbn; [split; cbn|done|done|].
  - intros u inst k Hi Hk. eapply Ha in Hk; [|done]. destruct Hk as [x Hk].
    exists x. by apply lookup_app_l_Some.
  - intros k i [H|[_ ->]]%Hnew; eauto.
  - intros i us u Hi. rewrite (Hu _ _ _ Hi). unfold uses; cbn.
    split; intros [HuR (inst & k & H1 & H2 & H3)]; (split; [done|]); exists inst, k; split_and!; try done.
    + by apply lookup_app_l_Some.
    + apply Hnew in H3 as [?|[-> _]]; [done|].
      destruct (Ha _ _ _ H1 H2) as [? Hk%lookup_lt_Some]. lia.
Qed.

Lemma run_op_exact d R o :
  users_exact d R → allowed d R o →
  ∃ d', run_op d o = Ret d' ∧ users_exact d' (removed_by o ∪ R).
Proof.
  intros Hex Hok. destruct o as [v|inst|u from to_|from to_|i]; cbn [run_op removed_by];
    rewrite ?(left_id_L ∅ (∪)).
  - eexists. split; [done|]. by apply create_value_exact.
  - destruct (create_inst_exact d R inst Hex Hok) as (us & -> & H'). eexists. by split.
  - destruct Hok as (H1 & H2 & H3).
    destruct (replace_inst_arg_exact d R u from to_ Hex H1 H2 H3) as (us & H & H'). eauto.
  - destruct Hok as (H1 & H2).
    destruct (replace_all_uses_replaces d R from to_ Hex H1 H2) as (d' & H & H' & _). eauto.
  - destruct (remove_uses_exact d R i Hex Hok) as (us & H & H'). eauto.
Qed.

Lemma reachable_exact d R : reachable d R → users_exact d R.
Proof.
  induction 1 as [|d R o d' _ IH Hok Hrun]; [apply users_exact_new|].
  destruct (run_op_exact d R o IH Hok) as (d'' & Hrun' & Hex). congruence.
Qed.


End Uses.

(** ** Witnesses: [%0 = alloca; %1 = load %0; %2 = add %1, %1; %3 = add %2, 7] *)

Definition int32 (z : Z) : Value := VConstant (Int (Int32 z)).
Definition an_alloca : Instruction :=
  with_operand (Alloca_ {| alloca_tys := (IrTypes.I32, IrTypes.I32); alloca_num_elements := Int (Int32 1);
                           alloca_align := 4 |}) (with_block OAlloca 0).
Definition a_load (addr : ValueId) : Instruction :=
  with_operand (Load_ {| load_tys := (IrTypes.I32, IrTypes.I32); load_addr := addr; load_align := 4 |})
    (with_block OLoad 0).
Definition an_int_binary (o : Opcode) (x y : ValueId) : Instruction :=
  with_operand (IntBinary_ {| bin_ty := IrTypes.I32; nsw := false; nuw := false; exact_ := false;
                              bin_args := (x, y) |}) (with_block o 0).

Definition some_ops : list op :=
  [CreateInst an_alloca; CreateValue (VInstruction 0); CreateInst (a_load 0); CreateValue (VInstruction 1);
   CreateInst (an_int_binary Add 1 1); CreateValue (VInstruction 2); CreateValue (int32 7);
   CreateInst (an_int_binary Add 2 3)].

Definition args_of_op (o : op) : list ValueId :=
  match o with CreateInst inst => args (operand inst) | _ => [] end.

(** The part of [allowed] that can be computed. *)
Definition allowedb (d : Data) (removed : gset InstructionId) (o : op) : bool :=
  match o with
  | CreateValue (VInstruction i) => bool_decide (i < length (instructions d))%nat
  | CreateValue _ => true
  | CreateInst inst => forallb (λ v, bool_decide (v < length (values d))%nat) (args (operand inst))
  | ReplaceInstArg u from to_ =>
      bool_decide (u ∉ removed) && bool_decide (u < length (instructions d))%nat
      && bool_decide (to_ < length (values d))%nat
  | ReplaceAllUses from to_ =>
      bool_decide (from < length (instructions d))%nat && bool_decide (to_ < length (values d))%nat
  | RemoveUses i => bool_decide (i < length (instructions d))%nat
  end.

Lemma allowedb_allowed d R o : allowedb d R o = true → allowed d R o.
Proof.
  destruct o as [[]|inst|u from to_|from to_|i]; cbn;
    rewrite ?andb_true_iff, ?bool_decide_eq_true, ?lookup_lt_is_Some; try tauto.
  rewrite forallb_forall. intros H v Hv%list_elem_of_In%H.
  apply bool_decide_eq_true in Hv. by apply lookup_lt_is_Some.
Qed.

(** Runs operations while they are allowed. *)
Fixpoint run_ops (d : Data) (R : gset InstructionId) (os : list op) : option (Data * gset InstructionId) :=
  match os with
  | [] => Some (d, R)
  | o :: os =>
      if allowedb d R o then
        match run_op elements d o with
        | Ret d => run_ops d (removed_by o ∪ R) os
        | _ => None
        end
      else None
  end.

Lemma run_ops_reachable d R os d' R' :
  reachable elements d R → run_ops d R os = Some (d', R') → reachable elements d' R'.
Proof.
  revert d R. induction os as [|o os IH]; cbn; intros d R HR H; [by simplify_eq|].
  destruct (allowedb d R o) eqn:Ho; [|done]. destruct (run_op elements d o) as [d1| |] eqn:Hd1; try done.
  eapply IH; [|exact H]. econstructor; [done|by apply allowedb_allowed|done].
Qed.

Definition some_data : Data := from_option fst new (run_ops new ∅ some_ops).

Lemma some_data_reachable : reachable elements some_data ∅.
Proof. apply (run_ops_reachable new ∅ some_ops); [constructor|vm_compute; reflexivity]. Qed.



(** ** Folding of constants *)

(** The value of an argument, when it is a 32-bit constant. *)
Definition const_i32 (v : Value) : option Z :=
  match v with VConstant (Int (Int32 x)) => Some x | _ => None end.

(** [x % y]: panics when [y] is zero, and on [i32::MIN % -1]. *)
Definition rem_i32 (x y : Z) : comp Z :=
  if y =? 0 then Panic
  else if (x =? - 2 ^ 31) && (y =? -1) then Panic else Ret (Z.rem x y).

(* [codegen/core/ir/function/instruction/mod.rs | 273-279 | fold_consts] *)
Definition fold_binary (o : Opcode) (x y : Z) : comp (option ConstantValue) :=
  match o with
  | Add => r ← i32 (x + y); Ret (Some (Int (Int32 r)))
  | Sub => r ← i32 (x - y); Ret (Some (Int (Int32 r)))
  | Mul => r ← i32 (x * y); Ret (Some (Int (Int32 r)))
  | SRem => r ← rem_i32 x y; Ret (Some (Int (Int32 r)))
  | _ => Ret None
  end.

(* [codegen/core/ir/function/instruction/mod.rs | 288-299 | fold_consts] *)
Definition fold_icmp (c : ICmpCond) (x y : Z) : bool :=
  match c with
  | Eq => x =? y
  | Ne => negb (x =? y)
  | Ugt | Sgt => y <? x
  | Uge | Sge => y <=? x
  | Ult | Slt => x <? y
  | Ule | Sle => x <=? y
  end.

(* [codegen/core/ir/function/instruction/mod.rs | pub fn fold_consts] *)
Definition fold_consts (d : Data) (i : Instruction) : comp (option ConstantValue) :=
  match operand i with
  | IntBinary_ b =>
      x ← value_ref d (bin_args b).1;
      y ← value_ref d (bin_args b).2;
      match const_i32 x, const_i32 y with
      | Some x, Some y => fold_binary (opcode i) x y
      | _, _ => Ret None
      end
  | ICmp_ c =>
      x ← value_ref d (icmp_args c).1;
      y ← value_ref d (icmp_args c).2;
      match const_i32 x, const_i32 y with
      | Some x, Some y => Ret (Some (Int (Int1 (fold_icmp (icmp_cond c) x y))))
      | _, _ => Ret None
      end
  | Cast_ c =>
      if bool_decide (opcode i = Sext) && bool_decide ((cast_tys c).1 = IrTypes.I32)
         && bool_decide ((cast_tys c).2 = IrTypes.I64)
      then
        x ← value_ref d (cast_arg c);
        Ret (option_map (λ x, Int (Int64 x)) (const_i32 x))
      else Ret None
  | _ => Ret None
  end.

(** The meaning of the comparisons and of the operations on 32-bit values
    given as signed integers. *)
Definition unsigned32 (x : Z) : Z := x mod 2 ^ 32.
Definition icmp_sem (c : ICmpCond) (x y : Z) : bool :=
  match c with
  | Eq => bool_decide (x = y)
  | Ne => bool_decide (x ≠ y)
  | Ugt => bool_decide (unsigned32 y < unsigned32 x)
  | Uge => bool_decide (unsigned32 y ≤ unsigned32 x)
  | Ult => bool_decide (unsigned32 x < unsigned32 y)
  | Ule => bool_decide (unsigned32 x ≤ unsigned32 y)
  | Sgt => bool_decide (y < x)
  | Sge => bool_decide (y ≤ x)
  | Slt => bool_decide (x < y)
  | Sle => bool_decide (x ≤ y)
  end.
Definition is_unsigned_cond (c : ICmpCond) : bool :=
  match c with Ugt | Uge | Ult | Ule => true | _ => false end.
(** Wraps to 32 bits, as a signed value. *)
Definition wrap32 (z : Z) : Z := (z + 2 ^ 31) mod 2 ^ 32 - 2 ^ 31.
Definition binary_sem (o : Opcode) (x y : Z) : option Z :=
  match o with
  | Add => Some (wrap32 (x + y))
  | Sub => Some (wrap32 (x - y))
  | Mul => Some (wrap32 (x * y))
  | SRem => if y =? 0 then None else Some (Z.rem x y)
  | _ => None
  end.

(** What an instruction computes from constant arguments. *)
Definition inst_sem (d : Data) (i : Instruction) (c : ConstantValue) : Prop :=
  match operand i with
  | IntBinary_ b => ∃ x y z,
      values d !! (bin_args b).1 = Some (int32 x) ∧ values d !! (bin_args b).2 = Some (int32 y)
      ∧ binary_sem (opcode i) x y = Some z ∧ c = Int (Int32 z)
  | ICmp_ p => ∃ x y,
      values d !! (icmp_args p).1 = Some (int32 x) ∧ values d !! (icmp_args p).2 = Some (int32 y)
      ∧ c = Int (Int1 (icmp_sem (icmp_cond p) x y))
  | Cast_ p => ∃ x, values d !! cast_arg p = Some (int32 x) ∧ c = Int (Int64 x)
  | _ => False
  end.

(** 32-bit constants are in range, and an unsigned comparison has no negative
    argument. *)
Definition foldable_args (d : Data) (i : Instruction) : Prop :=
  (∀ v x, values d !! v = Some (int32 x) → - 2 ^ 31 ≤ x < 2 ^ 31)
  ∧ match operand i with
    | ICmp_ p => is_unsigned_cond (icmp_cond p) = true →
        ∀ v x, v ∈ args (operand i) → values d !! v = Some (int32 x) → 0 ≤ x
    | _ => True
    end.

Lemma const_i32_Some v x : const_i32 v = Some x → v = int32 x.
Proof. destruct v as [| |[| | |[]| | | |]|]; cbn; naive_solver. Qed.

Lemma i32_Ret z z' : i32 z = Ret z' → z' = z ∧ - 2 ^ 31 ≤ z < 2 ^ 31.
Proof. unfold i32, in_i32. destruct (_ && _) eqn:E; [|done]. intros [= <-]. lia. Qed.

Lemma wrap32_in z : - 2 ^ 31 ≤ z < 2 ^ 31 → wrap32 z = z.
Proof. intros ?. unfold wrap32. rewrite Z.mod_small; lia. Qed.

Lemma fold_binary_sem o x y c :
  fold_binary o x y = Ret (Some c) → ∃ z, binary_sem o x y = Some z ∧ c = Int (Int32 z).
Proof.
  unfold fold_binary. destruct o; try done.
  1-3: intros (r & [-> Hr]%i32_Ret & [= <-])%bind_Ret; eexists; (split; [|done]); cbn; by rewrite wrap32_in.
  intros (r & Hr & [= <-])%bind_Ret. unfold rem_i32 in Hr. cbn.
  destruct (y =? 0); [done|]. destruct (_ && _); [done|]. injection Hr as <-. eauto.
Qed.

Lemma fold_icmp_sem c x y :
  - 2 ^ 31 ≤ x < 2 ^ 31 → - 2 ^ 31 ≤ y < 2 ^ 31 →
  (is_unsigned_cond c = true → 0 ≤ x ∧ 0 ≤ y) →
  fold_icmp c x y = icmp_sem c x y.
Proof.
  intros Hx Hy Hc. symmetry. destruct c; cbn; cbn in Hc;
    try (destruct (Hc eq_refl); unfold unsigned32; rewrite !Z.mod_small by lia);
    case_bool_decide; lia.
Qed.

(** C29: Constant folding of an IR instruction whose operands are 32-bit
    integers gives what the instruction computes by the semantics of the IR:
    the wrapped result of the arithmetic, or the truth of a signed or equality
    comparison. *)
Theorem fold_consts_correct d i c :
  foldable_args d i → fold_consts d i = Ret (Some c) → inst_sem d i c.
Proof.
  unfold foldable_args, fold_consts, inst_sem. intros [Hr Hc].
  destruct (operand i) as [| | |b| | | |p|p| | | | | | | | | | | |]; try done.
  - intros (x & Hx%unwrap_Ret & (y & Hy%unwrap_Ret & H)%bind_Ret)%bind_Ret.
    destruct (const_i32 x) as [x'|] eqn:Ex; [|done]. destruct (const_i32 y) as [y'|] eqn:Ey; [|done].
    apply const_i32_Some in Ex as ->. apply const_i32_Some in Ey as ->.
    apply fold_binary_sem in H as (z & Hz & ->). by exists x', y', z.
  - intros (x & Hx%unwrap_Ret & (y & Hy%unwrap_Ret & H)%bind_Ret)%bind_Ret.
    destruct (const_i32 x) as [x'|] eqn:Ex; [|done]. destruct (const_i32 y) as [y'|] eqn:Ey; [|done].
    apply const_i32_Some in Ex as ->. apply const_i32_Some in Ey as ->.
    injection H as <-. exists x', y'. split_and!; [done|done|]. do 2 f_equal.
    apply fold_icmp_sem; [by eapply Hr|by eapply Hr|]. intros Hu.
    split; [eapply (Hc Hu (icmp_args p).1)|eapply (Hc Hu (icmp_args p).2)]; try done; cbn; set_solver.
  - destruct (_ && _); [|done]. intros (x & Hx%unwrap_Ret & H)%bind_Ret.
    destruct (const_i32 x) as [x'|] eqn:Ex; [|done]. apply const_i32_Some in Ex as ->.
    cbn in H. injection H as <-. by exists x'.
Qed.

Definition an_icmp (c : ICmpCond) (x y : ValueId) : Instruction :=
  with_operand (ICmp_ {| icmp_ty := IrTypes.I32; icmp_args := (x, y); icmp_cond := c |}) (with_block OICmp 0).
Definition with_ints (l : list Z) : Data := with_values (map int32 l) new.

Lemma fold_consts_correct_witness :
  let d := with_ints [-5; 7] in
  foldable_args d (an_icmp Slt 0 1) ∧ fold_consts d (an_icmp Slt 0 1) = Ret (Some (Int (Int1 true)))
  ∧ inst_sem d (an_icmp Slt 0 1) (Int (Int1 true)).
Proof.
  assert (foldable_args (with_ints [-5; 7]) (an_icmp Slt 0 1)) as H.
  { split; [|done]. intros [|[|v]] x; cbn; [intros [= <-]; lia|intros [= <-]; lia|done]. }
  split; [exact H|]. split; [vm_compute; reflexivity|].
  apply (fold_consts_correct (with_ints [-5; 7]) (an_icmp Slt 0 1) _ H). vm_compute. reflexivity.
Defined.

(** Folding the unsigned comparison x > y of 32-bit constants with a negative
    x and a non-negative y gives false, while the unsigned comparison is true.
    *)
Theorem unsigned_comparison_folded_as_signed (x y : Z) :
  - 2 ^ 31 ≤ x < 0 → 0 ≤ y < 2 ^ 31 →
  fold_consts (with_ints [x; y]) (an_icmp Ugt 0 1) = Ret (Some (Int (Int1 false)))
  ∧ icmp_sem Ugt x y = true.
Proof.
  intros Hx Hy. split.
  - cbn. do 4 f_equal. lia.
  - cbn. apply bool_decide_eq_true. unfold unsigned32. rewrite (Z.mod_small y) by lia.
    replace (x mod 2 ^ 32) with (x + 2 ^ 32); [lia|]. symmetry. rewrite <-(Z.mod_small (x + 2 ^ 32) (2 ^ 32)) by lia.
    by rewrite Z.add_mod, Z_mod_same_full, Z.add_0_r, Zmod_mod by lia.
Qed.

Lemma unsigned_comparison_folded_as_signed_witness :
  fold_consts (with_ints [-1; 1]) (an_icmp Ugt 0 1) = Ret (Some (Int (Int1 false)))
  ∧ icmp_sem Ugt (-1) 1 = true.
Proof. apply (unsigned_comparison_folded_as_signed (-1) 1); lia. Defined.
End IrData.

(** * Functions *)
Module IrFunc.
Import IrTypes IrConst IrAttr IrParamAttr IrLinkage IrInst IrData.

(* [codegen/core/ir/function/mod.rs | pub struct Parameter] *)
Record Parameter_ := { param_name : Name; param_ty : Type_; param_attrs : list ParameterAttribute }.

(* [codegen/core/ir/function/mod.rs | pub struct Function] *)
Record Function := {
  fname : string;
  f_is_var_arg : bool;
  result_ty : Type_;
  f_params : list Parameter_;
  linkage : Linkage;
  preemption_specifier : PreemptionSpecifier;
  visibility : Visibility;
  unnamed_addr : option UnnamedAddr;
  func_attrs : list Attribute;
  ret_attrs : list ParameterAttribute;
  section : option string;
  personality : option (Type_ * ConstantValue);
  data : Data;
  layout : IrLayout.Layout;
  f_types : TypesBase;
}.

(* [codegen/core/ir/function/mod.rs | impl Function >> pub fn new] *)
Definition new (name : string) (rty : Type_) (ps : list Parameter_) (var_arg : bool) (tb : TypesBase) : Function :=
  {| fname := name; f_is_var_arg := var_arg; result_ty := rty; f_params := ps;
     linkage := Common; preemption_specifier := DsoLocal; visibility := Default;
     unnamed_addr := None; func_attrs := []; ret_attrs := []; section := None;
     personality := None; data := IrData.new; layout := Layout.new; f_types := tb |}.

(* [codegen/core/ir/function/mod.rs | impl Parameter >> pub fn new] *)
Definition new_parameter (ty : Type_) : Parameter_ :=
  {| param_name := Number 0; param_ty := ty; param_attrs := [] |}.

Definition with_data (d : Data) (f : Function) : Function :=
  {| fname := fname f; f_is_var_arg := f_is_var_arg f; result_ty := result_ty f; f_params := f_params f;
     linkage := linkage f; preemption_specifier := preemption_specifier f; visibility := visibility f;
     unnamed_addr := unnamed_addr f; func_attrs := func_attrs f; ret_attrs := ret_attrs f;
     section := section f; personality := personality f; data := d; layout := layout f;
     f_types := f_types f |}.
Definition with_layout (l : IrLayout.Layout) (f : Function) : Function :=
  {| fname := fname f; f_is_var_arg := f_is_var_arg f; result_ty := result_ty f; f_params := f_params f;
     linkage := linkage f; preemption_specifier := preemption_specifier f; visibility := visibility f;
     unnamed_addr := unnamed_addr f; func_attrs := func_attrs f; ret_attrs := ret_attrs f;
     section := section f; personality := personality f; data := data f; layout := l;
     f_types := f_types f |}.

(* [codegen/core/ir/function/mod.rs | pub fn is_prototype] *)
Definition is_prototype (f : Function) : bool := IrLayout.is_empty (layout f).

(** The flag says whether the call returned [Some(())]. *)
(* [codegen/core/ir/function/mod.rs | pub fn remove_inst] *)
Definition remove_inst (f : Function) (i : InstructionId) : comp (Function * bool) :=
  d ← remove_uses (data f) i;
  '(l, ok) ← IrLayout.remove_inst (layout f) i;
  Ret (with_layout l (with_data d f), ok).

(** [for inst in layout.inst_iter(b)] over a layout that does not change. *)
Definition insts_of (f : Function) (b : BasicBlockId) : comp (list InstructionId) :=
  it ← IrLayout.inst_iter (layout f) b;
  IrLayout.collect (IrLayout.next (layout f)) (size (Layout.instructions (layout f))) it.

(** The blocks in order, and in each the instructions in order. *)
Definition all_insts (f : Function) : comp (list (BasicBlockId * InstructionId)) :=
  bs ← IrLayout.block_iter (layout f);
  ls ← mapM_c (λ b, l ← insts_of f b; Ret (map (pair b) l)) bs;
  Ret (concat ls).

(** ** Builders *)

(* [codegen/core/ir/function/builder.rs | pub struct Builder] *)
Record Builder := { func : Function; is_inserted : gset BasicBlockId; cur_block : option BasicBlockId }.

(* [codegen/core/ir/function/builder.rs | pub fn new] *)
Definition new_builder (f : Function) : Builder :=
  {| func := f; is_inserted := ∅; cur_block := None |}.
(* [codegen/core/ir/function/builder.rs | pub fn create_block] *)
Definition builder_create_block (b : Builder) : Builder * BasicBlockId :=
  let '(d, id) := create_block (data (func b)) in
  ({| func := with_data d (func b); is_inserted := is_inserted b; cur_block := cur_block b |}, id).
(* [codegen/core/ir/function/builder.rs | pub fn ensure_inserted_block] *)
Definition ensure_inserted_block (b : Builder) (block : BasicBlockId) : comp Builder :=
  if decide (block ∈ is_inserted b) then Ret b
  else
    l ← IrLayout.append_block (layout (func b)) block;
    Ret {| func := with_layout l (func b); is_inserted := {[block]} ∪ is_inserted b;
           cur_block := cur_block b |}.
(* [codegen/core/ir/function/builder.rs | pub fn switch_to_block] *)
Definition switch_to_block (b : Builder) (block : BasicBlockId) : comp Builder :=
  ensure_inserted_block {| func := func b; is_inserted := is_inserted b; cur_block := Some block |} block.
(* [codegen/core/ir/function/builder.rs | pub fn value] *)
Definition builder_value (b : Builder) (v : Value) : Builder * ValueId :=
  let '(d, id) := create_value (data (func b)) v in
  ({| func := with_data d (func b); is_inserted := is_inserted b; cur_block := cur_block b |}, id).
(* [codegen/core/ir/function/instruction/builder.rs | pub fn ret] *)
Definition builder_ret (b : Builder) (val : ValueId) : comp (Builder * InstructionId) :=
  cur ← unwrap (cur_block b);
  let inst := with_operand (Return_ {| ret_ty := result_ty (func b); ret_val := Some val |})
                (with_block ORet cur) in
  '(d, i) ← create_inst (data (func b)) inst;
  l ← IrLayout.append_inst (layout (func b)) i cur;
  Ret ({| func := with_layout l (with_data d (func b)); is_inserted := is_inserted b;
          cur_block := cur_block b |}, i).

(** ** The blocks' predecessors and successors, from the terminators *)

(* [codegen/core/parser/assembly/function.rs | fn set_blocks_info] *)
Definition set_blocks_info (f : Function) : comp Data :=
  bs ← IrLayout.block_iter (layout f);
  foldM (λ d b,
    bn ← IrLayout.block_node (layout f) b;
    match Layout.last_inst bn with
    | None => Ret d
    | Some i =>
        br ← inst_ref d i;
        if is_terminator (opcode br) then
          foldM (λ d block,
            d ← upd_block d (parent br) (λ bb,
                  {| bb_name := bb_name bb; preds := preds bb; succs := set_insert block (succs bb) |});
            upd_block d block (λ bb,
                  {| bb_name := bb_name bb; preds := set_insert (parent br) (preds bb); succs := succs bb |}))
            d (blocks (operand br))
        else Ret d
    end) (data f) bs.

(** ** Functions of a module *)

(* [codegen/core/ir/module/mod.rs | 93-107 | create_function] *)
Definition create_function (fs : list Function) (name : string) (rty : Type_) (ps : list Parameter_)
    (var_arg : bool) (tb : TypesBase) : list Function * nat :=
  (fs ++ [new name rty ps var_arg tb], length fs).
(* [codegen/core/ir/module/mod.rs | pub fn find_function_by_name] *)
Definition find_function_by_name (fs : list Function) (name : string) : option nat :=
  fst <$> list_find (λ f, fname f = name) fs.
End IrFunc.
