(* ===== verification/Dce.v ===== *)
(** Dead code elimination on the IR (codegen/core/pass/transform/dce.rs): what
    it removes and keeps, that its work list runs out, when it returns, and an
    input on which it panics. *)
From S2P Require Import Prelude LinkedLayout IrTypes IrValues Ir.
#[local] Arguments filter : simpl never.

(** * Functions and their abstract layout *)
Module IrRep.
Import LayoutSpec IrInst IrData IrFunc.

(** A function whose layout is [A] and whose instructions [R] were removed:
    every instruction is laid out or removed, and carries its id. *)
Record func_ok (f : Function) (A : seq_layout) (R : gset InstructionId) : Prop := {
  ok_rep : rep (layout f) A;
  ok_users : users_exact (data f) R;
  ok_live : ∀ i, (i < length (instructions (data f)))%nat → i ∈ linked A ↔ i ∉ R;
  ok_linked : ∀ i, i ∈ linked A → (i < length (instructions (data f)))%nat;
  ok_ids : ∀ i inst, instructions (data f) !! i = Some inst → id inst = Some i;
}.

Lemma insts_of_rep f A b l :
  rep (layout f) A → LayoutSpec.insts_of (order A) b = Some l → IrFunc.insts_of f b = Ret l.
Proof.
  intros HR Hb. pose proof (rep_inst_iter _ _ _ _ HR Hb) as H.
  unfold IrFunc.insts_of, IrLayout.inst_iter. unfold Layout.inst_iter in H.
  apply bind_Ret in H as (bn & Hbn & H). rewrite Hbn. cbn [mbind comp_bind].
  by rewrite IrLayout.collect_next.
Qed.

Definition pairs (A : seq_layout) : list (BasicBlockId * InstructionId) :=
  concat (map (λ '(b, l), map (pair b) l) (order A)).

Lemma pairs_linked A : (pairs A).*2 = linked A.
Proof.
  unfold pairs, linked. induction (order A) as [|[b l] o IH]; [done|].
  cbn. rewrite fmap_app, IH. f_equal.
  induction l as [|x l IHl]; cbn; [done|]. by f_equal.
Qed.

Lemma insts_of_elem (o : list (BasicBlockId * list InstructionId)) b l :
  NoDup o.*1 → (b, l) ∈ o → LayoutSpec.insts_of o b = Some l.
Proof.
  induction o as [|[c k] o IH]; cbn; [set_solver|].
  intros [Hc Hn]%NoDup_cons [[= -> ->]|H]%elem_of_cons; [by rewrite decide_True|].
  rewrite decide_False; [by apply IH|]. intros ->. apply Hc. apply (list_elem_of_fmap_2 fst) in H. done.
Qed.

Lemma all_insts_rep f A : rep (layout f) A → all_insts f = Ret (pairs A).
Proof.
  intros HR. unfold all_insts, IrLayout.block_iter. rewrite (rep_block_iter _ _ HR).
  cbn [mbind comp_bind].
  assert (mapM_c (λ b, l ← IrFunc.insts_of f b; Ret (map (pair b) l)) (order A).*1
          = Ret (map (λ '(b, l), map (pair b) l) (order A))) as ->; [|done].
  apply mapM_c_Forall2.
  assert (Forall (λ p, LayoutSpec.insts_of (order A) p.1 = Some p.2) (order A)) as H.
  { apply Forall_forall. intros [b l] Hin. apply insts_of_elem; [apply HR|done]. }
  induction H as [|[b l] o Hb _ IH]; [constructor|]. cbn. constructor; [|done].
  apply (insts_of_rep _ _ _ _ HR) in Hb. cbn in Hb |- *. by rewrite Hb.
Qed.

(** Removing a laid-out instruction. *)
Definition without (i : InstructionId) (A : seq_layout) : seq_layout :=
  {| order := map (λ '(b, l), (b, del i l)) (order A); removed := {[i]} ∪ removed A |}.

Lemma linked_dropped i A : linked (without i A) = del i (linked A).
Proof.
  unfold linked, del; cbn. induction (order A) as [|[b l] o IH]; [done|].
  cbn. by rewrite IH, filter_app.
Qed.

Lemma linked_dropped_iff i j A : j ∈ linked (without i A) ↔ j ≠ i ∧ j ∈ linked A.
Proof. rewrite linked_dropped. unfold del. by rewrite list_elem_of_filter. Qed.

Lemma remove_inst_ok f A R i :
  func_ok f A R → i ∈ linked A →
  ∃ f', remove_inst f i = Ret (f', true) ∧ func_ok f' (without i A) ({[i]} ∪ R)
    ∧ instructions (data f') = instructions (data f) ∧ values (data f') = values (data f)
    ∧ basic_blocks (data f') = basic_blocks (data f).
Proof.
  intros [HR Hu Hlive Hlk Hids] Hi. pose proof (Hlk i Hi) as Hlt.
  destruct (remove_uses_exact _ _ _ Hu Hlt) as (us & Hus & Hu').
  destruct (step_refines (layout f) A (RemoveInst i) (without i A) HR) as (L & HL & HR').
  { cbn. by rewrite decide_True. }
  cbn in HL. apply bind_Ret in HL as ([L' ok] & HL & Hok). destruct ok; [|done]. injection Hok as ->.
  unfold remove_inst. rewrite Hus. cbn [mbind comp_bind]. unfold IrLayout.remove_inst. rewrite HL.
  eexists. split; [reflexivity|]. split; [|done]. split; cbn; try done.
  - intros j Hj. rewrite linked_dropped_iff, Hlive by done. set_solver.
  - intros j [_ Hj]%linked_dropped_iff. by apply Hlk.
Qed.

(** ** Concrete functions *)

Definition build (ds : list IrData.op) (ls : list LayoutSpec.op) : Function :=
  let f := IrFunc.new "f" IrTypes.VOID [] false (IrTypes.new 1) in
  let d := from_option fst IrData.new (run_ops IrData.new ∅ ds) in
  match foldM LayoutSpec.step Layout.new ls with
  | Ret L => with_layout L (with_data d f)
  | _ => with_data d f
  end.

Definition check_func (d : Data) (A : seq_layout) (R : gset InstructionId) : bool :=
  let n := length (instructions d) in
  forallb (λ i, bool_decide (i ∈ linked A ↔ i ∉ R)) (seq 0 n)
  && forallb (λ i, bool_decide (i < n)%nat) (linked A)
  && forallb (λ i, bool_decide ((inst ← instructions d !! i; id inst) = Some i)) (seq 0 n).

Lemma build_ok ds ls d R A :
  run_ops IrData.new ∅ ds = Some (d, R) →
  spec_run {| order := []; removed := ∅ |} ls = Some A →
  check_func d A R = true → func_ok (build ds ls) A R.
Proof.
  intros Hd (L & HL & HR)%run_refines Hc. unfold build. rewrite HL, Hd. cbn.
  unfold check_func in Hc. rewrite !andb_true_iff, !forallb_forall in Hc.
  setoid_rewrite bool_decide_eq_true in Hc. setoid_rewrite <-list_elem_of_In in Hc.
  destruct Hc as [[H1 H2] H3]. split; cbn; try done.
  - apply (reachable_exact elements); [done|]. eapply run_ops_reachable; [constructor|done].
  - intros i Hi. apply H1, elem_of_seq. lia.
  - intros i inst Hi. specialize (H3 i). rewrite Hi in H3. apply H3, elem_of_seq.
    apply lookup_lt_Some in Hi. lia.
Qed.
End IrRep.

(** * The pass *)
Module Dce.
Import LayoutSpec IrInst IrData IrFunc IrRep.

(* [codegen/core/pass/transform/dce.rs | 47-48 | check_if_elimination_possible] *)
Definition do_not_eliminate (o : Opcode) : bool :=
  match o with OAlloca | OStore | OCall => true | _ => is_terminator o end.

(** The lists are stacks, the top first. *)
(* [codegen/core/pass/transform/dce.rs | fn check_if_elimination_possible] *)
Definition check_if_elimination_possible (d : Data) (i : InstructionId)
    (elimination_list worklist : list InstructionId) : comp (list InstructionId * list InstructionId) :=
  users ← users_of d i;
  inst ← inst_ref d i;
  if do_not_eliminate (opcode inst) then Ret (elimination_list, worklist)
  else if decide (users = ∅) then
    self ← unwrap (id inst);
    l ← inst_args d (operand inst);
    Ret (self :: elimination_list, reverse l ++ worklist)
  else Ret (elimination_list, worklist).

(** [func.remove_inst(inst).unwrap()] *)
Definition eliminate_inst (f : Function) (i : InstructionId) : comp Function :=
  '(f, ok) ← remove_inst f i; if (ok : bool) then Ret f else Panic.

(* [codegen/core/pass/transform/dce.rs | 27-29 | run_on_function] *)
Definition eliminate (f : Function) (elimination_list : list InstructionId) : comp Function :=
  foldM eliminate_inst f elimination_list.

(* [codegen/core/pass/transform/dce.rs | 31-36 | run_on_function] *)
Fixpoint drain (fuel : nat) (f : Function) (worklist : list InstructionId) : comp Function :=
  match worklist with
  | [] => Ret f
  | i :: worklist =>
      match fuel with
      | O => OutOfFuel
      | S fuel =>
          '(el, worklist) ← check_if_elimination_possible (data f) i [] worklist;
          f ← eliminate f el;
          drain fuel f worklist
      end
  end.

Definition nargs (d : Data) (i : InstructionId) : nat :=
  match instructions d !! i with Some inst => length (args (operand inst)) | None => 0 end.

(** Every argument is pushed at most once. *)
Definition work_fuel (d : Data) : nat := sum_list_with (nargs d) (seq 0 (length (instructions d))).

(* [codegen/core/pass/transform/dce.rs | pub fn run_on_function] *)
Definition run_on_function (f : Function) : comp Function :=
  is_ ← all_insts f;
  '(el, worklist) ← foldM (λ '(el, wl) '(_, i), check_if_elimination_possible (data f) i el wl) ([], []) is_;
  f' ← eliminate f el;
  drain (work_fuel (data f)) f' worklist.

(* [codegen/core/pass/transform/dce.rs | pub fn run_on_module] *)
Definition run_on_module (fs : list Function) : comp (list Function) := mapM_c run_on_function fs.

(** * What is dead *)

Definition eligible (d : Data) (i : InstructionId) : Prop :=
  ∃ inst, instructions d !! i = Some inst ∧ do_not_eliminate (opcode inst) = false.

Definition unused (d : Data) (R : gset InstructionId) (i : InstructionId) : Prop :=
  ∀ u, u ∉ R → ¬ uses d u i.

(** Every instruction is an argument at most once, and of an instruction that
    is laid out when it is. *)
Record single_use (d : Data) (R : gset InstructionId) : Prop := {
  single_user : ∀ a u u', u ∉ R → u' ∉ R → uses d u a → uses d u' a → u = u';
  single_arg : ∀ u inst l, u ∉ R → instructions d !! u = Some inst →
    inst_args d (operand inst) = Ret l → NoDup l;
  single_scope : ∀ u a, u ∉ R → uses d u a → a ∉ R;
}.

(** The layout without the instructions [R]. *)
Definition keep (R : gset InstructionId) (o : list (BasicBlockId * list InstructionId)) :=
  map (λ '(b, l), (b, filter (λ i, i ∉ R) l)) o.

Section Invariant.
Context (f0 : Function) (A0 : seq_layout) (R0 : gset InstructionId).
Abbreviation d0 := (data f0).
Abbreviation single := (single_use d0 R0).

(** The state between two steps: [el] is to be eliminated, [work] and
    [pending] are to be looked at. *)
Record inv (f : Function) (A : seq_layout) (R : gset InstructionId)
    (el work pending : list InstructionId) : Prop := {
  inv_ok : func_ok f A R;
  inv_insts : instructions (data f) = instructions d0;
  inv_values : values (data f) = values d0;
  inv_blocks : basic_blocks (data f) = basic_blocks d0;
  inv_sub : R0 ⊆ R;
  inv_order : order A = keep R (order A0);
  inv_dead : ∀ i, i ∈ R → i ∉ R0 → eligible d0 i ∧ unused d0 R i;
  inv_el : NoDup el;
  inv_el_ok : ∀ i, i ∈ el → i ∈ linked A ∧ eligible d0 i ∧ unused d0 R i ∧ ∀ a, uses d0 i a → a ∈ work;
  inv_todo : ∀ i, i ∈ linked A → eligible d0 i → unused d0 R i → i ∈ el ∨ i ∈ work ∨ i ∈ pending;
  inv_work : ∀ i, i ∈ work → (i < length (instructions d0))%nat;
  inv_once : single → NoDup work ∧
    ∀ a, a ∈ work → a ∈ linked A ∧ (a ∉ el) ∧ ∀ u, u ∉ R → uses d0 u a → u ∈ el;
}.

Lemma uses_same f u i :
  instructions (data f) = instructions d0 → values (data f) = values d0 →
  uses (data f) u i ↔ uses d0 u i.
Proof. unfold uses. by intros -> ->. Qed.

Lemma inst_args_same f o :
  values (data f) = values d0 → inst_args (data f) o = inst_args d0 o.
Proof. unfold inst_args, value_ref. by intros ->. Qed.

(** The users in the map are empty when no live instruction uses it. *)
Lemma users_unused f A R el work pending i us :
  inv f A R el work pending → users_map (data f) !! i = Some us → us = ∅ ↔ unused d0 R i.
Proof.
  intros H Hi.
  assert (∀ u, u ∈ us ↔ (u ∉ R) ∧ uses d0 u i) as Hu.
  { intros u. rewrite <-(uses_same f) by apply H. by apply (ok_users _ _ _ (inv_ok _ _ _ _ _ _ H)). }
  split.
  - intros -> u HuR Huse. assert (u ∈ (∅ : gset InstructionId)) as []%elem_of_empty by by apply Hu.
  - intros Hn. apply set_eq. intros u. rewrite Hu. split; [|set_solver].
    intros [HuR Huse]. by destruct (Hn u HuR).
Qed.

Lemma length_omap_le {X Y} (g : X → option Y) (l : list X) : (length (omap (M:=list) g l) ≤ length l)%nat.
Proof. induction l as [|x l IH]; cbn; [done|]. destruct (g x); cbn; lia. Qed.

(** An instruction goes on the elimination list and its arguments on the work
    list. *)
Lemma push_inv f A R el work pending i l :
  inv f A R el work (i :: pending) → i ∈ linked A → i ∉ el → (single → i ∉ work) →
  eligible d0 i → unused d0 R i → (∀ a, uses d0 i a ↔ a ∈ l) → (single → NoDup l) →
  inv f A R (i :: el) (reverse l ++ work) pending.
Proof.
  intros [Hok Hins Hval Hbl Hsub Hord Hdead Hnd Helok Htodo Hwork Honce] Hi Hel Hwk He Hun Huse Hl.
  assert (HiR : i ∉ R) by (apply (ok_live _ _ _ Hok); [by apply (ok_linked _ _ _ Hok)|done]).
  split; try done.
  - by constructor.
  - intros j [->|Hj]%elem_of_cons.
    + split_and!; try done. intros a Ha%Huse. set_solver.
    + destruct (Helok j Hj) as (? & ? & ? & Ha). split_and!; try done. intros a Hja%Ha. set_solver.
  - intros j Hj Hje Hju. destruct (Htodo j Hj Hje Hju) as [?|[?|[->|?]%elem_of_cons]]; set_solver.
  - intros j. rewrite elem_of_app, elem_of_reverse, <-Huse. intros [(? & v & _ & _ & Hv)|Hj]; [|by apply Hwork].
    rewrite <-Hins. eapply closed_values; [apply (ok_users _ _ _ Hok)|by rewrite Hval].
  - intros Hs. destruct (Honce Hs) as [Hndw Hw]. specialize (Hl Hs). specialize (Hwk Hs).
    assert (Hlw : ∀ a, a ∈ l → a ∉ work).
    { intros a Ha%Huse Haw. destruct (Hw a Haw) as (_ & _ & Hau). by apply Hel, Hau. }
    split; [apply NoDup_app; split_and!; [by rewrite reverse_Permutation| |done];
            intros a; rewrite elem_of_reverse; apply Hlw|].
    intros a. rewrite elem_of_app, elem_of_reverse, <-Huse. intros [Ha|Ha].
    + assert (HaR : a ∉ R).
      { intros HaR. destruct (decide (a ∈ R0)) as [HaR0|HaR0].
        - eapply (single_scope _ _ Hs i a); [set_solver|done|done].
        - destruct (Hdead a HaR HaR0) as [_ Hau]. by apply (Hau i). }
      split_and!.
      * apply (ok_live _ _ _ Hok); [|done]. destruct Ha as (? & v & _ & _ & Hv).
        eapply closed_values; [apply (ok_users _ _ _ Hok)|by rewrite Hval].
      * intros [->|Hael]%elem_of_cons; [by apply (Hun i)|].
        destruct (Helok a Hael) as (_ & _ & Hau & _). by apply (Hau i).
      * intros u HuR Hua. rewrite (single_user _ _ Hs a u i); [by left|set_solver|set_solver|done|done].
    + destruct (Hw a Ha) as (H1 & H2 & H3). split_and!; [done| |intros; right; by apply H3].
      intros [->|?]%elem_of_cons; [by apply Hwk|done].
Qed.

(** One look at an instruction that is laid out. *)
Lemma check_step f A R el work pending i :
  inv f A R el work (i :: pending) → i ∈ linked A → i ∉ el → (single → unused d0 R i → i ∉ work) →
  yields single (check_if_elimination_possible (data f) i el work)
    (λ '(el', work'), inv f A R el' work' pending ∧ el ⊆ el' ∧ el' ⊆ i :: el
       ∧ (∀ a, a ∈ work' → a ∈ work ∨ i ∈ el' ∧ uses d0 i a)
       ∧ (length work' + sum_list_with (nargs d0) el ≤ length work + sum_list_with (nargs d0) el')%nat).
Proof.
  intros H Hi Hel Hwk. pose proof (ok_linked _ _ _ (inv_ok _ _ _ _ _ _ H) i Hi) as Hlt.
  pose proof (exact_dom _ _ (ok_users _ _ _ (inv_ok _ _ _ _ _ _ H)) i) as [_ [us Hus]]; [done|].
  pose proof Hlt as [inst Hinst]%lookup_lt_is_Some_2.
  pose proof Hinst as Hinst0. rewrite (inv_insts _ _ _ _ _ _ H) in Hinst0.
  unfold check_if_elimination_possible, users_of, inst_ref. rewrite Hus, Hinst. cbn [unwrap mbind comp_bind].
  assert (Hkeep : ¬ (eligible d0 i ∧ unused d0 R i) →
    inv f A R el work pending ∧ el ⊆ el ∧ el ⊆ i :: el
    ∧ (∀ a, a ∈ work → a ∈ work ∨ i ∈ el ∧ uses d0 i a)
    ∧ (length work + sum_list_with (nargs d0) el ≤ length work + sum_list_with (nargs d0) el)%nat).
  { intros Hn. split_and!; [|done|set_solver|by left|lia]. destruct H; split; try done.
    intros j Hj He Hun. destruct (inv_todo0 j Hj He Hun) as [?|[?|[->|?]%elem_of_cons]]; tauto. }
  destruct (do_not_eliminate (opcode inst)) eqn:Hdo.
  { apply Hkeep. intros [(? & Hx & Hy) _]. simplify_eq. congruence. }
  case_decide as Hemp; [|apply Hkeep; rewrite (users_unused _ _ _ _ _ _ _ _ H Hus) in Hemp; tauto].
  apply (users_unused _ _ _ _ _ _ _ _ H Hus) in Hemp.
  rewrite (ok_ids _ _ _ (inv_ok _ _ _ _ _ _ H) _ _ Hinst). cbn [unwrap mbind comp_bind].
  destruct (inst_args_spec (data f) (operand inst)) as (l & Hl & Hin).
  { intros v Hv. eapply closed_args; [apply (inv_ok _ _ _ _ _ _ H)|done|done]. }
  rewrite Hl. cbn [mbind comp_bind].
  assert (Huse : ∀ a, uses d0 i a ↔ a ∈ l).
  { intros a. rewrite Hin. unfold uses. rewrite (inv_values _ _ _ _ _ _ H), Hinst0. naive_solver. }
  cbn [yields]. split_and!; [|set_solver|done| |].
  - eapply push_inv; try done; [by auto| |].
    + by exists inst.
    + intros Hs. eapply (single_arg _ _ Hs i inst); [|done|by rewrite <-(inst_args_same f) by apply H].
      intros HiR. apply (inv_sub _ _ _ _ _ _ H) in HiR.
      by apply (ok_live _ _ _ (inv_ok _ _ _ _ _ _ H)) in Hi.
  - intros a. rewrite elem_of_app, elem_of_reverse, Huse. set_solver.
  - rewrite length_app, length_reverse. cbn. unfold nargs at 2. rewrite Hinst0.
    apply bind_Ret in Hl as (xs & Hxs%mapM_c_Forall2%Forall2_length & [= <-]).
    pose proof (length_omap_le as_inst xs). lia.
Qed.

Abbreviation weight l := (sum_list_with (nargs d0) l).

Lemma weight_del i l : NoDup l → i ∈ l → (weight (del i l) + nargs d0 i = weight l)%nat.
Proof.
  intros Hn (l1 & l2 & ->)%list_elem_of_split.
  apply NoDup_app in Hn as (_ & H1 & [H2 _]%NoDup_cons).
  rewrite del_split; [|intros H; apply (H1 i H); by left|done].
  rewrite !sum_list_with_app. cbn. lia.
Qed.

Lemma keep_without R i o :
  map (λ '(b, l), (b, del i l)) (keep R o) = keep ({[i]} ∪ R) o.
Proof.
  unfold keep. rewrite map_map. apply map_ext. intros [b l]. f_equal. unfold del.
  rewrite list_filter_filter. apply list_filter_iff. set_solver.
Qed.

Lemma eliminate_step f A R i el work pending :
  inv f A R (i :: el) work pending →
  ∃ f', eliminate_inst f i = Ret f' ∧ inv f' (without i A) ({[i]} ∪ R) el work pending.
Proof.
  intros [Hok Hins Hval Hbl Hsub Hord Hdead [Hiel Hnd]%NoDup_cons Helok Htodo Hwork Honce].
  destruct (Helok i) as (Hi & He & Hun & Ha); [by left|].
  destruct (remove_inst_ok f A R i Hok Hi) as (f' & Hf' & Hok' & Hins' & Hval' & Hbl').
  exists f'. unfold eliminate_inst. rewrite Hf'. split; [done|].
  assert (Hmono : ∀ j, unused d0 R j → unused d0 ({[i]} ∪ R) j).
  { intros j Hj u Hu. apply Hj. clear -Hu. set_solver. }
  split; [done|congruence|congruence|congruence|clear -Hsub; set_solver| | |done| | |done|].
  - cbn. by rewrite Hord, keep_without.
  - intros j [->%elem_of_singleton|Hj]%elem_of_union Hj0; [by auto|].
    destruct (Hdead j Hj Hj0). auto.
  - intros j Hj. destruct (Helok j) as (H1 & H2 & H3 & H4); [by right|].
    split_and!; auto. apply linked_dropped_iff. split; [by intros ->|done].
  - intros j [Hji Hj]%linked_dropped_iff Hje Hju.
    destruct (decide (uses d0 i j)) as [Hij|Hij]; [right; left; by apply Ha|].
    destruct (Htodo j Hj Hje) as [[->|?]%elem_of_cons|?]; [|done|by left|by right].
    intros u Hu Huj. destruct (decide (u = i)) as [->|Hui]; [done|]. apply (Hju u); [|done]. clear -Hu Hui. set_solver.
  - intros Hs. destruct (Honce Hs) as [Hndw Hw]. split; [done|]. intros a Haw.
    destruct (Hw a Haw) as (H1 & H2 & H3). split_and!.
    + apply linked_dropped_iff. split; [intros ->; apply H2; by left|done].
    + intros Hae. apply H2. by right.
    + intros u [Hui HuR]%not_elem_of_union Hua. rewrite not_elem_of_singleton in Hui.
      by destruct (proj1 (elem_of_cons _ _ _) (H3 u HuR Hua)).
Qed.

Lemma eliminate_all f A R el work pending :
  inv f A R el work pending →
  ∃ f' A' R', eliminate f el = Ret f' ∧ inv f' A' R' [] work pending
    ∧ (weight (linked A') + weight el = weight (linked A))%nat.
Proof.
  revert f A R. induction el as [|i el IH]; intros f A R H; [exists f, A, R; split_and!; [done|done|cbn; lia]|].
  destruct (eliminate_step _ _ _ _ _ _ _ H) as (f' & Hf' & H').
  destruct (IH _ _ _ H') as (f2 & A2 & R2 & Hf2 & H2 & Hw).
  exists f2, A2, R2. unfold eliminate. cbn [foldM]. rewrite Hf'. split_and!; [done|done|].
  rewrite linked_dropped in Hw. cbn.
  rewrite <-(weight_del i (linked A)); [lia| |].
  - apply (rep_linked _ _ (ok_rep _ _ _ (inv_ok _ _ _ _ _ _ H))).
  - apply (inv_el_ok _ _ _ _ _ _ H). by left.
Qed.

(** Eliminating an instruction that is already gone panics. *)
Lemma eliminate_again f A R i :
  func_ok f A R → (i < length (instructions (data f)))%nat → i ∉ linked A → eliminate_inst f i = Panic.
Proof.
  intros Hok Hlt Hi. unfold eliminate_inst, remove_inst.
  destruct (remove_uses_exact _ _ _ (ok_users _ _ _ Hok) Hlt) as (us & -> & _).
  cbn [mbind comp_bind]. unfold IrLayout.remove_inst, Layout.remove_inst, Layout.inst_at.
  destruct (decide (i ∈ removed A)) as [HiR|HiR].
  - by destruct (rep_removed _ _ (ok_rep _ _ _ Hok) i HiR) as [_ ->].
  - by rewrite (rep_unknown _ _ (ok_rep _ _ _ Hok) i Hi HiR).
Qed.

Lemma check_no_fuel d i el work : check_if_elimination_possible d i el work ≠ OutOfFuel.
Proof.
  unfold check_if_elimination_possible, users_of, inst_ref, inst_args.
  destruct (users_map d !! i); [|done]. destruct (instructions d !! i) as [inst|]; [|done]. cbn.
  destruct (do_not_eliminate _); [done|]. case_decide; [|done].
  destruct (id inst); [|done]. cbn. apply bind_no_fuel; [|done].
  apply bind_no_fuel; [|done]. induction (args (operand inst)) as [|v vs IH]; cbn; [done|].
  apply bind_no_fuel; [apply unwrap_no_fuel|]. intros. by apply bind_no_fuel.
Qed.

Lemma check_shape d i inst el work el' work' :
  instructions d !! i = Some inst → id inst = Some i →
  check_if_elimination_possible d i el work = Ret (el', work') →
  el' = el ∧ work' = work ∨ el' = i :: el.
Proof.
  unfold check_if_elimination_possible, inst_ref. intros -> Hid H.
  apply bind_Ret in H as (us & _ & H). cbn [unwrap mbind comp_bind] in H.
  destruct (do_not_eliminate _); [left; by simplify_eq|].
  case_decide; [|left; by simplify_eq]. rewrite Hid in H. cbn [unwrap mbind comp_bind] in H.
  apply bind_Ret in H as (l & _ & [= <- _]). by right.
Qed.

Lemma drain_ok fuel f A R work :
  inv f A R [] work [] → (length work + weight (linked A) ≤ fuel)%nat →
  yields single (drain fuel f work) (λ f', ∃ A' R', inv f' A' R' [] [] []).
Proof.
  revert f A R work. induction fuel as [|fuel IH]; intros f A R [|i work] H Hf; cbn in Hf;
    try lia; cbn [drain]; try (by exists A, R).
  assert (Hlt : (i < length (instructions (data f)))%nat).
  { rewrite (inv_insts _ _ _ _ _ _ H). apply (inv_work _ _ _ _ _ _ H). by left. }
  assert (Hshift : inv f A R [] work [i]).
  { destruct H; split; try done.
    - by intros j ?%elem_of_nil.
    - intros j Hj Hje Hju. destruct (inv_todo0 j Hj Hje Hju) as [?|[[->|?]%elem_of_cons|?]]; set_solver.
    - intros j Hj. apply inv_work0. by right.
    - intros Hs. destruct (inv_once0 Hs) as [[_ ?]%NoDup_cons Hw]. split; [done|].
      intros a Ha. apply Hw. by right. }
  destruct (decide (i ∈ linked A)) as [Hi|Hi].
  - eapply yields_bind.
    { eapply check_step; [exact Hshift|done|set_solver|]. intros Hs.
      by destruct (inv_once _ _ _ _ _ _ H Hs) as [[? _]%NoDup_cons _]. }
    intros [el' work'] (Hinv & _ & _ & _ & Hlen).
    destruct (eliminate_all _ _ _ _ _ _ Hinv) as (f' & A' & R' & -> & Hinv' & Hw).
    cbn [mbind comp_bind]. eapply IH; [exact Hinv'|]. cbn in Hlen. lia.
  - destruct (check_if_elimination_possible _ _ _ _) as [[el' work']| |] eqn:Hc;
      cbn [mbind comp_bind yields].
    2: { intros Hs. apply Hi. apply (inv_once _ _ _ _ _ _ H Hs). by left. }
    2: by apply check_no_fuel in Hc.
    pose proof Hlt as [inst Hinst]%lookup_lt_is_Some_2.
    destruct (check_shape _ _ _ _ _ _ _ Hinst (ok_ids _ _ _ (inv_ok _ _ _ _ _ _ H) _ _ Hinst) Hc)
      as [[-> ->]| ->].
    + cbn [eliminate foldM mbind comp_bind]. eapply (IH _ A R); [|lia].
      destruct Hshift; split; try done.
      intros j Hj Hje Hju. destruct (inv_todo0 j Hj Hje Hju) as [?|[?|?]]; set_solver.
    + unfold eliminate. cbn [foldM].
      rewrite (eliminate_again _ _ _ _ (inv_ok _ _ _ _ _ _ H) Hlt Hi). cbn.
      intros Hs. apply Hi. apply (inv_once _ _ _ _ _ _ H Hs). by left.
Qed.

Lemma scan_ok f A R (l : list (BasicBlockId * InstructionId)) el work :
  inv f A R el work l.*2 → NoDup l.*2 → (∀ i, i ∈ l.*2 → i ∈ linked A) →
  (∀ i, i ∈ l.*2 → i ∉ el) → (∀ a, a ∈ work → ∃ u, u ∈ el ∧ uses d0 u a) → (length work ≤ weight el)%nat →
  yields single
    (foldM (λ '(el, wl) '(_, i), check_if_elimination_possible (data f) i el wl) (el, work) l)
    (λ '(el', work'), inv f A R el' work' [] ∧ (length work' ≤ weight el')%nat).
Proof.
  revert el work. induction l as [|[b i] l IH]; intros el work H Hn Hl Hel Hpush Hlen; [done|].
  cbn [foldM]. cbn in Hl, Hel, Hn. apply NoDup_cons in Hn as [Hi Hn].
  eapply yields_bind.
  { apply (check_step f A R el work l.*2); [done|apply Hl; by left|apply Hel; by left|].
    intros _ Hun Hw. destruct (Hpush i Hw) as (u & Hu & Hui). apply (Hun u); [|done].
    pose proof (inv_ok _ _ _ _ _ _ H) as Hok.
    destruct (inv_el_ok _ _ _ _ _ _ H u Hu) as (Hlu & _).
    apply (ok_live _ _ _ Hok); [by apply (ok_linked _ _ _ Hok)|done]. }
  intros [el' work'] (H' & Hincl & Hsub & Hwork' & Hlen'). apply IH; [done|done| | | |lia].
  - intros j Hj. apply Hl. by right.
  - intros j Hj [->|?]%Hsub%elem_of_cons; [done|]. apply (Hel j); [by right|done].
  - intros a [Ha|[Hiel Hua]]%Hwork'; [|by eauto]. destruct (Hpush a Ha) as (u & Hu & Hua). eauto.
Qed.
End Invariant.

Lemma filter_keeps_all {X} (P : X → Prop) `{∀ x, Decision (P x)} (l : list X) : Forall P l → filter P l = l.
Proof. induction 1 as [|x l Hx _ IH]; [done|]. by rewrite filter_cons_True, IH. Qed.

Lemma keep_all R o : (∀ i, i ∈ concat o.*2 → i ∉ R) → keep R o = o.
Proof.
  induction o as [|[b l] o IH]; cbn; intros H; [done|]. unfold keep in *. cbn. f_equal.
  - f_equal. apply filter_keeps_all. apply Forall_forall. intros x Hx. apply H. set_solver.
  - apply IH. set_solver.
Qed.

Lemma inv_init f A R : func_ok f A R → inv f A R f A R [] [] (pairs A).*2.
Proof.
  intros Hok. split; try done; try set_solver.
  - rewrite keep_all; [done|]. intros i Hi.
    assert (i ∈ linked A) as Hl by done. by apply (ok_live _ _ _ Hok); [apply (ok_linked _ _ _ Hok)|].
  - constructor.
  - intros i Hi _ _. right. right. by rewrite pairs_linked.
  - intros _. split; [constructor|set_solver].
Qed.

(** Nothing is left to eliminate. *)
Lemma inv_done f0 A0 R0 f A R i :
  inv f0 A0 R0 f A R [] [] [] → i ∈ linked A → eligible (data f0) i →
  ∃ u, u ∈ linked A ∧ uses (data f0) u i.
Proof.
  intros H Hi He. pose proof (inv_ok _ _ _ _ _ _ _ _ _ H) as Hok.
  destruct (proj2 (exact_dom _ _ (ok_users _ _ _ Hok) i)) as [us Hus]; [by apply (ok_linked _ _ _ Hok)|].
  destruct (set_choose_or_empty us) as [[u Hu]|Hemp%leibniz_equiv].
  - apply (exact_users _ _ (ok_users _ _ _ Hok) i us u Hus) in Hu as [HuR Hu].
    exists u. pose proof Hu as (? & ? & Hl%lookup_lt_Some & _). split; [by apply (ok_live _ _ _ Hok)|].
    apply (uses_same f0 f); [apply H|apply H|done].
  - rewrite (users_unused _ _ _ _ _ _ _ _ _ _ _ H Hus) in Hemp.
    destruct (inv_todo _ _ _ _ _ _ _ _ _ H i Hi He Hemp) as [?|[?|?]]; set_solver.
Qed.

Lemma run_on_function_ok f A R :
  func_ok f A R →
  yields (single_use (data f) R) (run_on_function f) (λ f', ∃ A' R', inv f A R f' A' R' [] [] []).
Proof.
  intros Hok. unfold run_on_function. rewrite (all_insts_rep _ _ (ok_rep _ _ _ Hok)).
  cbn [mbind comp_bind]. eapply yields_bind.
  { apply (scan_ok f A R f A R (pairs A) [] []); [by apply inv_init| | | |set_solver|done];
      rewrite pairs_linked; [apply (rep_linked _ _ (ok_rep _ _ _ Hok))|done|set_solver]. }
  intros [el work] [Hinv Hlen].
  destruct (eliminate_all _ _ _ _ _ _ _ _ _ Hinv) as (f' & A' & R' & -> & Hinv' & Hw).
  cbn [mbind comp_bind]. eapply drain_ok; [exact Hinv'|].
  assert (sum_list_with (nargs (data f)) (linked A) ≤ work_fuel (data f))%nat; [|lia].
  unfold work_fuel.
  assert (linked A ⊆+ seq 0 (length (instructions (data f)))) as Hsub.
  { apply NoDup_submseteq; [apply (rep_linked _ _ (ok_rep _ _ _ Hok))|].
    intros i Hi%(ok_linked _ _ _ Hok). apply elem_of_seq. lia. }
  apply submseteq_Permutation in Hsub as [k ->]. rewrite sum_list_with_app. lia.
Qed.


(** [%0 = alloca; %1 = load %0; %2 = add %1, 7; %3 = sub %2, 7; ret] *)
Definition a_ret : Instruction :=
  with_operand (Return_ {| ret_ty := IrTypes.VOID; ret_val := None |}) (with_block ORet 0).
Definition chain_ops : list IrData.op :=
  [CreateInst an_alloca; CreateValue (VInstruction 0); CreateInst (a_load 0); CreateValue (VInstruction 1);
   CreateValue (int32 7); CreateInst (an_int_binary Add 1 2); CreateValue (VInstruction 2);
   CreateInst (an_int_binary Sub 3 2); CreateInst a_ret].
Definition in_order (n : nat) : list LayoutSpec.op := AppendBlock 0 :: map (λ i, AppendInst i 0) (seq 0 n).
Definition chain_func : Function := build chain_ops (in_order 5).

Lemma chain_func_ok : func_ok chain_func {| order := [(0, seq 0 5)]; removed := ∅ |} ∅.
Proof. eapply build_ok; vm_compute; reflexivity. Qed.


(** [%0 = alloca; %1 = load %0; %2 = add %1, %1; ret]: the sum is dead, and
    the load is on the work list twice. *)
Definition twice_ops : list IrData.op :=
  [CreateInst an_alloca; CreateValue (VInstruction 0); CreateInst (a_load 0); CreateValue (VInstruction 1);
   CreateInst (an_int_binary Add 1 1); CreateInst a_ret].
Definition twice_func : Function := build twice_ops (in_order 4).

(** Dead code elimination panics on a well-formed function in which an unused
    instruction uses another one twice (x * x): removing it removes the entry
    of the user twice and the second time finds the other instruction's users
    gone. *)
Theorem dce_panics_on_repeated_use :
  func_ok twice_func {| order := [(0, seq 0 4)]; removed := ∅ |} ∅ ∧ run_on_function twice_func = Panic.
Proof. split; [eapply build_ok; vm_compute; reflexivity|vm_compute; reflexivity]. Qed.
End Dce.

(** Constant propagation on the IR (codegen/core/pass/transform/sccp.rs). *)
Module Sccp.
Import LayoutSpec IrInst IrConst IrData IrFunc IrRep.

Section Pass.
Context (users_order : gset InstructionId → list InstructionId).

(** The arguments are integer constants; an operand without arguments passes. *)
Definition all_const_ints (d : Data) (o : Operand) : comp bool :=
  vs ← mapM_c (value_ref d) (args o);
  Ret (forallb (λ v, match v with VConstant (Int _) => true | _ => false end) vs).

(* [codegen/core/pass/transform/sccp.rs | fn is_foldable(] *)
Definition is_foldable (d : Data) (inst : Instruction) : comp bool :=
  match opcode inst with
  | Add | Sub | Mul | OICmp | Zext | Sext => all_const_ints d (operand inst)
  | _ => Ret false
  end.

(* [codegen/core/pass/transform/sccp.rs | fn is_foldable_condbr] *)
Definition is_foldable_condbr (d : Data) (inst : Instruction) : comp bool :=
  match opcode inst with
  | OCondBr => all_const_ints d (operand inst)
  | _ => Ret false
  end.

(** The two queues, in order. *)
(* [codegen/core/pass/transform/sccp.rs | 27-39 | run] *)
Definition collect_foldable (f : Function) : comp (list InstructionId * list InstructionId) :=
  is_ ← all_insts f;
  foldM (λ '(foldable, foldable_condbr) '(_, i),
    inst ← inst_ref (data f) i;
    b ← is_foldable (data f) inst;
    c ← is_foldable_condbr (data f) inst;
    Ret (if (b : bool) then foldable ++ [i] else foldable,
         if (c : bool) then foldable_condbr ++ [i] else foldable_condbr)) ([], []) is_.

(** A conditional branch on a constant becomes a branch to its first block. *)
(* [codegen/core/pass/transform/sccp.rs | 41-58 | run] *)
Definition fold_condbr (f : Function) (inst_id : InstructionId) : comp Function :=
  condbr ← inst_ref (data f) inst_id;
  let block := parent condbr in
  c ← unwrap (as_condbr (operand condbr));
  let '(dst, not_dst) := condbr_blocks c in
  let br := with_operand (Br_ {| br_block := dst |}) (with_block OBr block) in
  '(d, br) ← create_inst (data f) br;
  l ← IrLayout.append_inst (layout f) br block;
  '(f, _) ← remove_inst (with_layout l (with_data d f)) inst_id;
  d ← remove_block_succ (data f) block not_dst;
  d ← remove_block_pred d not_dst block;
  Ret (with_data d f).

(** The arguments whose block still has predecessors. *)
(* [codegen/core/pass/transform/sccp.rs | 119-128 | fold_phi] *)
Definition valid_args (d : Data) (p : Phi) : comp (list ValueId) :=
  foldM (λ acc '(b, a),
    bb ← block_ref d b;
    Ret (if decide (preds bb = []) then acc else acc ++ [a])) [] (zip (phi_blocks p) (phi_args p)).

(** One phi: its only valid argument replaces it. *)
(* [codegen/core/pass/transform/sccp.rs | 108-135 | fold_phi] *)
Definition fold_phi_inst (f : Function) (remove_list : list InstructionId) (i : InstructionId)
    : comp (Function * list InstructionId) :=
  inst ← inst_ref (data f) i;
  if decide (opcode inst ≠ OPhi) then Ret (f, remove_list)
  else
    p ← unwrap (as_phi (operand inst));
    vs ← valid_args (data f) p;
    match vs with
    | [a] =>
        d ← replace_all_uses users_order (data f) i a;
        Ret (with_data d f, remove_list ++ [i])
    | _ => Ret (f, remove_list)
    end.

(** [self.func.remove_inst(id);] *)
Definition discard (f : Function) (i : InstructionId) : comp Function :=
  '(f, _) ← remove_inst f i; Ret f.

(* [codegen/core/pass/transform/sccp.rs | fn fold_phi] *)
Definition fold_phi (f : Function) : comp Function :=
  is_ ← all_insts f;
  '(f, remove_list) ← foldM (λ '(f, rl) '(_, i), fold_phi_inst f rl i) (f, []) is_;
  foldM discard f remove_list.

(* [codegen/core/pass/transform/sccp.rs | 64-74 | run] *)
Definition fold_inst (st : Function * bool) (inst_id : InstructionId) : comp (Function * bool) :=
  let '(f, changed) := st in
  inst ← inst_ref (data f) inst_id;
  r ← fold_consts (data f) inst;
  match r with
  | None => Ret (f, changed)
  | Some c =>
      let '(d, v) := create_value (data f) (VConstant c) in
      d ← replace_all_uses users_order d inst_id v;
      f ← discard (with_data d f) inst_id;
      Ret (f, true)
  end.

(* [codegen/core/pass/transform/sccp.rs | pub fn run] *)
Fixpoint run (fuel : nat) (f : Function) : comp Function :=
  match fuel with
  | O => OutOfFuel
  | S fuel =>
      '(foldable, foldable_condbr) ← collect_foldable f;
      f ← foldM fold_condbr f foldable_condbr;
      let changed := bool_decide (foldable_condbr ≠ []) in
      f ← (if (changed : bool) then fold_phi f else Ret f);
      '(f, changed) ← foldM fold_inst (f, changed) foldable;
      if (changed : bool) then run fuel f else Ret f
  end.
End Pass.

(** [br i1 false, label 1, label 2; 1: ret; 2: ret] *)
Definition a_condbr (v : ValueId) (b : BasicBlockId) (t e : BasicBlockId) : Instruction :=
  with_operand (CondBr_ {| condbr_arg := v; condbr_blocks := (t, e) |}) (with_block OCondBr b).
Definition ret_at (b : BasicBlockId) : Instruction :=
  with_operand (Return_ {| ret_ty := IrTypes.VOID; ret_val := None |}) (with_block ORet b).

Definition with_edges (bs : list BasicBlock) (f : Function) : Function :=
  with_data (with_blocks bs (data f)) f.
Definition branch_func (cond : bool) : Function :=
  with_edges [{| bb_name := None; preds := []; succs := [1; 2] |};
              {| bb_name := None; preds := [0]; succs := [] |};
              {| bb_name := None; preds := [0]; succs := [] |}]
    (build [CreateValue (VConstant (Int (Int1 cond))); CreateInst (a_condbr 0 0 1 2);
            CreateInst (ret_at 1); CreateInst (ret_at 2)]
       [AppendBlock 0; AppendBlock 1; AppendBlock 2; AppendInst 0 0; AppendInst 1 1; AppendInst 2 2]).

(** The terminator of a block. *)
Definition terminator_of (f : Function) (b : BasicBlockId) : comp Operand :=
  l ← IrFunc.insts_of f b;
  i ← unwrap (last l);
  inst ← inst_ref (data f) i;
  Ret (operand inst).

(** Folding a conditional branch on the constant false makes it a jump to the
    block for true, and takes the edge to the block for false out of the
    function. *)
Theorem branch_on_false_folded_to_true_block :
  terminator_of (branch_func false) 0 = Ret (CondBr_ {| condbr_arg := 0; condbr_blocks := (1, 2) |})
  ∧ values (data (branch_func false)) !! 0 = Some (VConstant (Int (Int1 false)))
  ∧ ∃ f', run elements 2 (branch_func false) = Ret f'
      ∧ terminator_of f' 0 = Ret (Br_ {| br_block := 1 |})
      ∧ (bb ← block_ref (data f') 2; Ret (preds bb)) = Ret [].
Proof. split_and!; [vm_compute; reflexivity..|eexists; split_and!; vm_compute; reflexivity]. Qed.
End Sccp.
