(* ===== verification/DomTree.v ===== *)
(** Dominators of the IR (codegen/core/pass/analysis/dom_tree.rs): the
    numbering of the blocks by a depth-first search, the algorithm of Lengauer
    and Tarjan with path compression, the dominance frontier. *)
From S2P Require Import Prelude LinkedLayout IrTypes IrValues Ir.
#[local] Arguments filter : simpl never.

Module DomTree.
Import IrInst IrData IrFunc.

(** * The tables of the algorithm *)

(* [codegen/core/pass/analysis/dom_tree.rs | struct Context<'a | Context] *)
Record Context := mkContext {
  dfnum : gmap BasicBlockId nat;
  vertex : list BasicBlockId;
  semi : gmap BasicBlockId BasicBlockId;
  ancestor : gmap BasicBlockId BasicBlockId;
  idom : gmap BasicBlockId BasicBlockId;
  samedom : gmap BasicBlockId BasicBlockId;
  parent_of : gmap BasicBlockId BasicBlockId;
  best : gmap BasicBlockId BasicBlockId;
}.
(* [codegen/core/pass/analysis/dom_tree.rs | fn new(f: &'a F) | Context::new] *)
Definition new_context : Context := mkContext ∅ [] ∅ ∅ ∅ ∅ ∅ ∅.

Definition with_semi m c := mkContext (dfnum c) (vertex c) m (ancestor c) (idom c) (samedom c) (parent_of c) (best c).
Definition with_ancestor m c := mkContext (dfnum c) (vertex c) (semi c) m (idom c) (samedom c) (parent_of c) (best c).
Definition with_idom m c := mkContext (dfnum c) (vertex c) (semi c) (ancestor c) m (samedom c) (parent_of c) (best c).
Definition with_samedom m c := mkContext (dfnum c) (vertex c) (semi c) (ancestor c) (idom c) m (parent_of c) (best c).
Definition with_best m c := mkContext (dfnum c) (vertex c) (semi c) (ancestor c) (idom c) (samedom c) (parent_of c) m.

(** [Vec::insert] *)
Definition vec_insert {A} (n : nat) (a : A) (l : list A) : comp (list A) :=
  if (n <=? length l)%nat then Ret (take n l ++ a :: drop n l) else Panic.
(** [map[&k]] *)
Definition at_ {A} (m : gmap BasicBlockId A) (k : BasicBlockId) : comp A := unwrap (m !! k).

Section Function_.
(** The blocks, and the order in which a set of blocks is iterated over. *)
Context (d : Data).
Context (set_order : gset BasicBlockId → list BasicBlockId).

(* [codegen/core/pass/analysis/dom_tree.rs | fn number_by_dfs] *)
Fixpoint number_by_dfs (fuel : nat) (pred : option BasicBlockId) (node : BasicBlockId) (st : Context * nat)
    : comp (Context * nat) :=
  match fuel with O => OutOfFuel | S fuel =>
  let '(c, num) := st in
  match dfnum c !! node with
  | Some _ => Ret st
  | None =>
      v ← vec_insert num node (vertex c);
      let parents := match pred with Some p => <[node := p]> (parent_of c) | None => parent_of c end in
      let c := mkContext (<[node := num]> (dfnum c)) v (semi c) (ancestor c) (idom c) (samedom c) parents (best c) in
      bb ← block_ref d node;
      foldM (λ st succ, number_by_dfs fuel (Some node) succ st) (c, S num) (succs bb)
  end end.

(* [codegen/core/pass/analysis/dom_tree.rs | fn ancestor_with_lowest_semi] *)
Fixpoint ancestor_with_lowest_semi (fuel : nat) (node : BasicBlockId) (c : Context) : comp (BasicBlockId * Context) :=
  match fuel with O => OutOfFuel | S fuel =>
  a ← at_ (ancestor c) node;
  c ← match ancestor c !! a with
      | None => Ret c
      | Some _ =>
          '(b, c) ← ancestor_with_lowest_semi fuel a c;
          aa ← at_ (ancestor c) a;
          let c := with_ancestor (<[node := aa]> (ancestor c)) c in
          sb ← at_ (semi c) b; x ← at_ (dfnum c) sb;
          bn ← at_ (best c) node; sbn ← at_ (semi c) bn; y ← at_ (dfnum c) sbn;
          Ret (if (x <? y)%nat then with_best (<[node := b]> (best c)) c else c)
      end;
  b ← at_ (best c) node;
  Ret (b, c)
  end.

(* [codegen/core/pass/analysis/dom_tree.rs | fn link] *)
Definition link (pred node : BasicBlockId) (c : Context) : Context :=
  with_best (<[node := node]> (best c)) (with_ancestor (<[node := pred]> (ancestor c)) c).

(** The semidominator of a block: one predecessor. *)
(* [codegen/core/pass/analysis/dom_tree.rs | 159-174 | compute] *)
Definition semi_step (fuel : nat) (node : BasicBlockId) (st : BasicBlockId * Context) (v : BasicBlockId)
    : comp (BasicBlockId * Context) :=
  let '(s, c) := st in
  match dfnum c !! v with
  | None => Ret st
  | Some dv =>
      dn ← at_ (dfnum c) node;
      '(s', c) ← (if (dv <=? dn)%nat then Ret (v, c)
                  else '(n, c) ← ancestor_with_lowest_semi fuel v c; s' ← at_ (semi c) n; Ret (s', c));
      x ← at_ (dfnum c) s'; y ← at_ (dfnum c) s;
      Ret (if (x <? y)%nat then (s', c) else (s, c))
  end.
(** One block of the bucket of its parent. *)
(* [codegen/core/pass/analysis/dom_tree.rs | 184-191 | compute] *)
Definition bucket_step (fuel : nat) (pred : BasicBlockId) (c : Context) (v : BasicBlockId) : comp Context :=
  '(y, c) ← ancestor_with_lowest_semi fuel v c;
  sy ← at_ (semi c) y; sv ← at_ (semi c) v;
  Ret (if decide (sy = sv) then with_idom (<[v := pred]> (idom c)) c else with_samedom (<[v := y]> (samedom c)) c).
(* [codegen/core/pass/analysis/dom_tree.rs | 154-194 | compute] *)
Definition compute_step (fuel : nat) (st : Context * gmap BasicBlockId (gset BasicBlockId)) (i : nat)
    : comp (Context * gmap BasicBlockId (gset BasicBlockId)) :=
  let '(c, bucket) := st in
  node ← unwrap (vertex c !! i);
  pred ← at_ (parent_of c) node;
  bb ← block_ref d node;
  '(s, c) ← foldM (semi_step fuel node) (pred, c) (preds bb);
  let c := with_semi (<[node := s]> (semi c)) c in
  let bucket := <[s := {[node]} ∪ default ∅ (bucket !! s)]> bucket in
  let c := link pred node c in
  match bucket !! pred with
  | None => Ret (c, bucket)
  | Some set => c ← foldM (bucket_step fuel pred) c (set_order set); Ret (c, <[pred := ∅]> bucket)
  end.
(** The blocks whose dominator was put off. *)
(* [codegen/core/pass/analysis/dom_tree.rs | 196-200 | compute] *)
Definition samedom_step (c : Context) (n : BasicBlockId) : Context :=
  match samedom c !! n with Some s => with_idom (<[n := s]> (idom c)) c | None => c end.
(* [codegen/core/pass/analysis/dom_tree.rs | fn compute(mut self) | compute] *)
Definition compute (fuel : nat) (entry : BasicBlockId) : comp Context :=
  '(c, num) ← number_by_dfs fuel None entry (new_context, O);
  '(c, _) ← foldM (compute_step fuel) (c, ∅) (reverse (seq 1 (num - 1)));
  rest ← IrInst.rest (vertex c);
  Ret (foldl samedom_step c rest).

(** * The tree *)

(* [codegen/core/pass/analysis/dom_tree.rs | pub struct DominatorTree] *)
Record DominatorTree := mkTree {
  dom_children : gmap BasicBlockId (gset BasicBlockId);
  frontier : gmap BasicBlockId (gset BasicBlockId);
  level : gmap BasicBlockId nat;
  root : BasicBlockId;
}.

(** [for (&y, &x) in &ctx.idom] *)
(* [codegen/core/pass/analysis/dom_tree.rs | 35-38 | new] *)
Definition children_map (idom : gmap BasicBlockId BasicBlockId) : gmap BasicBlockId (gset BasicBlockId) :=
  map_fold (λ y x m, <[x := {[y]} ∪ default ∅ (m !! x)]> m) ∅ idom.
(* [codegen/core/pass/analysis/dom_tree.rs | fn leveling] *)
Fixpoint leveling (fuel : nat) (dom : gmap BasicBlockId (gset BasicBlockId)) (lv : gmap BasicBlockId nat)
    (cur : BasicBlockId) (cur_level : nat) : comp (gmap BasicBlockId nat) :=
  match fuel with O => OutOfFuel | S fuel =>
  let lv := <[cur := cur_level]> lv in
  match dom !! cur with
  | None => Ret lv
  | Some set => foldM (λ lv child, leveling fuel dom lv child (S cur_level)) lv (set_order set)
  end end.

(** The block is not immediately dominated by [x]. *)
Definition not_idom (c : Context) (x y : BasicBlockId) : bool := negb (bool_decide (idom c !! y = Some x)).
Definition children (dom : gmap BasicBlockId (gset BasicBlockId)) (x : BasicBlockId) : list BasicBlockId :=
  set_order (default ∅ (dom !! x)).
Definition add_frontier (x y : BasicBlockId) (fr : gmap BasicBlockId (gset BasicBlockId))
    : comp (gmap BasicBlockId (gset BasicBlockId)) :=
  s ← at_ fr x; Ret (<[x := {[y]} ∪ s]> fr).
(* [codegen/core/pass/analysis/dom_tree.rs | fn compute_dom_frontier_of] *)
Fixpoint compute_dom_frontier_of (fuel : nat) (c : Context) (dom : gmap BasicBlockId (gset BasicBlockId))
    (x : BasicBlockId) (fr : gmap BasicBlockId (gset BasicBlockId)) : comp (gmap BasicBlockId (gset BasicBlockId)) :=
  match fuel with O => OutOfFuel | S fuel =>
  match fr !! x with
  | Some _ => Ret fr
  | None =>
      bb ← block_ref d x;
      foldM (λ fr succ,
        fr ← (if not_idom c x succ then add_frontier x succ fr else Ret fr);
        foldM (λ fr child,
          fr ← compute_dom_frontier_of fuel c dom child fr;
          ys ← at_ fr child;
          foldM (λ fr y, if not_idom c x y then add_frontier x y fr else Ret fr) fr (set_order ys))
          fr (children dom x)) (<[x := ∅]> fr) (succs bb)
  end end.
(* [codegen/core/pass/analysis/dom_tree.rs | fn compute_dom_frontier< | compute_dom_frontier] *)
Definition compute_dom_frontier (fuel : nat) (c : Context) (dom : gmap BasicBlockId (gset BasicBlockId))
    (start : BasicBlockId) : comp (gmap BasicBlockId (gset BasicBlockId)) :=
  fr ← foldM (λ fr child, compute_dom_frontier_of fuel c dom child fr) ∅ (children dom start);
  compute_dom_frontier_of fuel c dom start fr.

(** The recursions go down the blocks. *)
Definition tree_fuel : nat := S (S (length (basic_blocks d))).
(* [codegen/core/pass/analysis/dom_tree.rs | pub fn new<F | DominatorTree::new] *)
Definition new_tree (blocks : list BasicBlockId) : comp DominatorTree :=
  entry ← unwrap (head blocks);
  c ← compute tree_fuel entry;
  let dom := children_map (idom c) in
  fr ← compute_dom_frontier tree_fuel c dom entry;
  lv ← leveling tree_fuel dom ∅ entry 0;
  Ret (mkTree dom fr lv entry).

(* [codegen/core/pass/analysis/dom_tree.rs | pub fn dominates] *)
Fixpoint dominates (fuel : nat) (t : DominatorTree) (x y : BasicBlockId) : comp bool :=
  match fuel with O => OutOfFuel | S fuel =>
  if decide (x = y) then Ret true
  else match dom_children t !! x with
       | None => Ret false
       | Some set =>
           if decide (y ∈ set) then Ret true
           else foldM (λ b child, if (b : bool) then Ret true else dominates fuel t child y) false (set_order set)
       end
  end.
(* [codegen/core/pass/analysis/dom_tree.rs | pub fn level_of] *)
Definition level_of (t : DominatorTree) (x : BasicBlockId) : option nat := level t !! x.
(* [codegen/core/pass/analysis/dom_tree.rs | pub fn children_of] *)
Definition children_of (t : DominatorTree) (x : BasicBlockId) : option (gset BasicBlockId) := dom_children t !! x.
(* [codegen/core/pass/analysis/dom_tree.rs | pub fn dominance_frontier_of] *)
Definition dominance_frontier_of (t : DominatorTree) (x : BasicBlockId) : option (gset BasicBlockId) := frontier t !! x.
End Function_.
End DomTree.

(** The numbering of the blocks that the dominator tree starts from, and a
    graph on which the tree is wrong. *)
Module DomFacts.
Import IrInst IrData IrFunc DomTree.

(** ** Paths *)

Definition edge (d : Data) (x y : BasicBlockId) : Prop := ∃ bb, basic_blocks d !! x = Some bb ∧ y ∈ succs bb.
Definition closed_graph (d : Data) : Prop := ∀ x y, edge d x y → (y < length (basic_blocks d))%nat.

(** The numbers are the positions in the list of blocks. *)
Record numbered (d : Data) (c : Context) (num : nat) : Prop := {
  n_len : num = length (vertex c);
  n_pos n i : dfnum c !! n = Some i ↔ vertex c !! i = Some n;
  n_range n : n ∈ vertex c → (n < length (basic_blocks d))%nat;
}.
Lemma numbered_nodup d c num : numbered d c num → NoDup (vertex c).
Proof.
  intros [_ H _]. apply NoDup_alt. intros i j n Hi Hj. apply (proj2 (H n i)) in Hi. apply (proj2 (H n j)) in Hj. congruence.
Qed.
Lemma numbered_bound d c num : numbered d c num → (length (vertex c) ≤ length (basic_blocks d))%nat.
Proof.
  intros Hn. pose proof (numbered_nodup _ _ _ Hn) as Hd. destruct Hn as [_ _ Hr].
  rewrite <-(length_seq (length (basic_blocks d)) 0). apply submseteq_length, NoDup_submseteq; [done|].
  intros n Hx%Hr. apply elem_of_seq. lia.
Qed.
Lemma numbered_elem d c num n : numbered d c num → n ∈ vertex c ↔ is_Some (dfnum c !! n).
Proof.
  intros [_ H _]. rewrite list_elem_of_lookup. split; intros [i Hi]; exists i; by apply H.
Qed.

(** [p] stands before [n]. *)
Definition before (p n : BasicBlockId) (l : list BasicBlockId) : Prop := ∃ l1 l2, l = l1 ++ n :: l2 ∧ p ∈ l1.
Lemma before_prefix p n l l' : l `prefix_of` l' → before p n l → before p n l'.
Proof. intros [k ->] (l1 & l2 & -> & Hp). exists l1, (l2 ++ k). split; [by rewrite <-app_assoc|done]. Qed.
Lemma before_end p n l l' : p ∈ l → n ∉ l → l `prefix_of` l' → n ∈ l' → before p n l'.
Proof.
  intros Hp Hn [k ->] [?|(k1 & k2 & -> & _)%list_elem_of_split_l]%elem_of_app; [done|].
  exists (l ++ k1), k2. split; [by rewrite app_assoc|]. apply elem_of_app. by left.
Qed.

Lemma prefix_elem {A} (l l' : list A) x : l `prefix_of` l' → x ∈ l → x ∈ l'.
Proof. intros [k ->] Hx. apply elem_of_app. by left. Qed.

(** What a search from some blocks adds: every new block is reached from them,
    its successors are numbered, and it has a parent unless it is one of them. *)
Record searched (d : Data) (starts : list BasicBlockId) (from : option BasicBlockId) (c c' : Context) : Prop := {
  s_grown : vertex c `prefix_of` vertex c';
  s_start n : n ∈ starts → n ∈ vertex c';
  s_reach n : n ∈ vertex c' → n ∉ vertex c → ∃ s, s ∈ starts ∧ rtc (edge d) s n;
  s_closed n m : n ∈ vertex c' → n ∉ vertex c → edge d n m → m ∈ vertex c';
  s_parents n : n ∈ vertex c → parent_of c' !! n = parent_of c !! n;
  s_parent n : n ∈ vertex c' → n ∉ vertex c →
    (n ∈ starts ∧ ∀ p, from = Some p → parent_of c' !! n = Some p)
    ∨ ∃ p, parent_of c' !! n = Some p ∧ before p n (vertex c') ∧ edge d p n;
}.
Lemma searched_nil d from c : searched d [] from c c.
Proof. split; try done. intros n Hn. by apply elem_of_nil in Hn. Qed.
Lemma searched_trans d s1 s2 from c1 c2 c3 :
  searched d s1 from c1 c2 → searched d s2 from c2 c3 → searched d (s1 ++ s2) from c1 c3.
Proof.
  intros [Hg Hs Hr Hc Hp Hq] [Hg' Hs' Hr' Hc' Hp' Hq'].
  assert (Hin : ∀ n, n ∈ vertex c2 → n ∈ vertex c3) by (intros n; by apply prefix_elem).
  assert (Hcase : ∀ n, n ∈ vertex c2 ∨ n ∉ vertex c2) by (intros n; destruct (decide (n ∈ vertex c2)); auto).
  split.
  - by etrans.
  - intros n [?|?]%elem_of_app; auto.
  - intros n H3 H1. destruct (Hcase n) as [H2|H2].
    + destruct (Hr n H2 H1) as (s & ? & ?). exists s. split; [|done]. apply elem_of_app. by left.
    + destruct (Hr' n H3 H2) as (s & ? & ?). exists s. split; [|done]. apply elem_of_app. by right.
  - intros n m H3 H1 He. destruct (Hcase n) as [H2|H2]; [by apply Hin, (Hc n)|by apply (Hc' n)].
  - intros n H1. rewrite Hp', Hp; [done|done|]. by apply (prefix_elem (vertex c1)).
  - intros n H3 H1. destruct (Hcase n) as [H2|H2].
    + rewrite (Hp' n H2). destruct (Hq n H2 H1) as [[? ?]|(p & ? & ? & ?)].
      * left. split; [|done]. apply elem_of_app. by left.
      * right. exists p. split_and!; try done. by eapply before_prefix.
    + destruct (Hq' n H3 H2) as [[? ?]|?]; [left|by right]. split; [|done]. apply elem_of_app. by right.
Qed.

(** ** The search *)

Definition entered (node : BasicBlockId) (from : option BasicBlockId) (num : nat) (c : Context) : Context :=
  mkContext (<[node := num]> (dfnum c)) (vertex c ++ [node]) (semi c) (ancestor c) (idom c) (samedom c)
    match from with Some p => <[node := p]> (parent_of c) | None => parent_of c end (best c).
Lemma entered_numbered d node from num c :
  numbered d c num → node ∉ vertex c → (node < length (basic_blocks d))%nat → numbered d (entered node from num c) (S num).
Proof.
  intros Hn Hno Hlt. pose proof Hn as [Hl Hp Hr]. split; cbn.
  - rewrite length_app. cbn. lia.
  - intros n i. destruct (decide (n = node)) as [->|Hne].
    + rewrite lookup_insert_eq. split.
      * intros [= <-]. rewrite Hl. by apply list_lookup_middle.
      * intros [Hi|[Hi H]]%lookup_app_Some; [destruct Hno; by eapply list_elem_of_lookup_2|].
        apply list_lookup_singleton_Some in H as [? _]. f_equal. lia.
    + rewrite lookup_insert_ne by done. rewrite Hp, lookup_app_Some. split; [by left|].
      intros [?|[_ [_ ?]%list_lookup_singleton_Some]]; [done|congruence].
  - intros n [?|Hx]%elem_of_app; [auto|]. by apply list_elem_of_singleton in Hx as ->.
Qed.
Lemma entered_searched d node from num c c' bb :
  basic_blocks d !! node = Some bb → node ∉ vertex c →
  searched d (succs bb) (Some node) (entered node from num c) c' → searched d [node] from c c'.
Proof.
  intros Hb Hno [Hg Hs Hr Hc Hp Hq]. cbn in *.
  assert (Hnode : node ∈ vertex c') by (eapply prefix_elem; [exact Hg|]; apply elem_of_app; right; by left).
  assert (Hnew : ∀ n, n ∉ vertex c → n = node ∨ n ∉ vertex c ++ [node]).
  { intros n Hn. destruct (decide (n = node)) as [->|Hne]; [by left|right]. intros [?|?%list_elem_of_singleton]%elem_of_app; done. }
  split.
  - etrans; [|exact Hg]. by exists [node].
  - by intros n ->%list_elem_of_singleton.
  - intros n Hn Hno'. exists node. split; [by left|]. destruct (Hnew n Hno') as [->|Hx]; [done|].
    destruct (Hr n Hn Hx) as (s & Hin & Hpath). eapply rtc_l; [|exact Hpath]. by exists bb.
  - intros n m Hn Hno' He. destruct (Hnew n Hno') as [->|Hx]; [|by apply (Hc n)].
    destruct He as (bb' & Hb' & Hm). apply Hs. congruence.
  - intros n Hn. rewrite Hp by (apply elem_of_app; by left). destruct from as [p|]; [|done].
    apply lookup_insert_ne. intros ->. done.
  - intros n Hn Hno'. destruct (Hnew n Hno') as [->|Hx].
    + left. split; [by left|]. intros p ->. rewrite Hp by (apply elem_of_app; right; by left). apply lookup_insert_eq.
    + right. destruct (Hq n Hn Hx) as [[Hin H]|?]; [|done]. exists node. split_and!; [by apply H| |by exists bb].
      apply (before_end _ _ (vertex c ++ [node])); try done. apply elem_of_app. right. by left.
Qed.

Lemma number_by_dfs_searched d fuel from node c num :
  closed_graph d → numbered d c num → (node < length (basic_blocks d))%nat →
  (length (basic_blocks d) < fuel + length (vertex c))%nat →
  ∃ c' num', number_by_dfs d fuel from node (c, num) = Ret (c', num') ∧ numbered d c' num' ∧ searched d [node] from c c'.
Proof.
  intros Hcl. revert from node c num. induction fuel as [|fuel IH]; intros from node c num Hn Hlt Hf.
  { pose proof (numbered_bound _ _ _ Hn). lia. }
  cbn [number_by_dfs]. destruct (dfnum c !! node) as [i|] eqn:Hi.
  { exists c, num. split; [done|]. split; [done|]. assert (node ∈ vertex c) by (apply (numbered_elem _ _ _ _ Hn); by exists i).
    split; try done. by intros n ->%list_elem_of_singleton. }
  assert (Hno : node ∉ vertex c) by (rewrite (numbered_elem _ _ _ _ Hn), Hi; by intros []).
  pose proof Hn as [Hl _ _]. unfold vec_insert. rewrite (proj2 (Nat.leb_le _ _)) by lia. cbn [mbind comp_bind].
  destruct (lookup_lt_is_Some_2 _ _ Hlt) as [bb Hb]. unfold block_ref. rewrite Hb. cbn [unwrap mbind comp_bind].
  rewrite take_ge, drop_ge by lia. change (mkContext _ _ _ _ _ _ _ _) with (entered node from num c).
  assert (H : ∀ l c1 num1, (∀ s, s ∈ l → edge d node s) → numbered d c1 num1 → (length (basic_blocks d) < fuel + length (vertex c1))%nat →
    ∃ c2 num2, foldM (λ st succ, number_by_dfs d fuel (Some node) succ st) (c1, num1) l = Ret (c2, num2)
      ∧ numbered d c2 num2 ∧ searched d l (Some node) c1 c2).
  { induction l as [|s l IHl]; intros c1 num1 He Hn1 Hf1; [exists c1, num1; split_and!; [done|done|apply searched_nil]|].
    cbn [foldM]. destruct (IH (Some node) s c1 num1 Hn1) as (c2 & num2 & -> & Hn2 & Hs2); [apply (Hcl node), He; by left|done|].
    cbn [mbind comp_bind]. destruct (IHl c2 num2) as (c3 & num3 & -> & Hn3 & Hs3).
    - intros x Hx. apply He. by right.
    - done.
    - pose proof (prefix_length _ _ (s_grown _ _ _ _ _ Hs2)). lia.
    - exists c3, num3. split_and!; [done|done|]. by apply (searched_trans d [s] l _ c1 c2). }
  destruct (H (succs bb) (entered node from num c) (S num)) as (c' & num' & Hfold & Hn' & Hs').
  - intros s Hs. by exists bb.
  - by apply entered_numbered.
  - cbn. rewrite length_app. cbn. lia.
  - exists c', num'. split_and!; [exact Hfold|done|]. by eapply entered_searched.
Qed.

(** C25: On a function whose edges stay inside its blocks, the numbering of
    the dominator tree computation comes to an end; it numbers exactly the
    blocks that can be reached from the entry, each once, the entry first; the
    numbers are the positions; and every other numbered block has an earlier
    one as its parent, with an edge from the parent to it. *)
Theorem depth_first_numbering d entry :
  closed_graph d → (entry < length (basic_blocks d))%nat →
  ∃ c, number_by_dfs d (tree_fuel d) None entry (new_context, 0%nat) = Ret (c, length (vertex c))
    ∧ NoDup (vertex c) ∧ (∀ n i, dfnum c !! n = Some i ↔ vertex c !! i = Some n)
    ∧ (∀ n, n ∈ vertex c ↔ rtc (edge d) entry n)
    ∧ ∀ n, n ∈ vertex c → n ≠ entry → ∃ p, parent_of c !! n = Some p ∧ before p n (vertex c) ∧ edge d p n.
Proof.
  intros Hcl Hlt. assert (Hn : numbered d new_context 0).
  { split; [done| |]; [|by intros n Hx%elem_of_nil]. intros n i. cbn. by rewrite lookup_empty. }
  destruct (number_by_dfs_searched d (tree_fuel d) None entry new_context 0 Hcl Hn Hlt) as (c & num & Hc & Hn' & Hs).
  { unfold tree_fuel. cbn. lia. }
  assert (Hno : ∀ n, n ∉ vertex new_context) by (intros n; apply not_elem_of_nil).
  exists c. pose proof Hn' as [Hl Hp Hr]. rewrite <-Hl. split_and!; [done|by eapply numbered_nodup|done| |].
  - intros n. split.
    + intros Hx. destruct (s_reach _ _ _ _ _ Hs n Hx (Hno n)) as (s & ->%list_elem_of_singleton & ?). done.
    + intros Hpath. assert (Hin : entry ∈ vertex c) by (apply (s_start _ _ _ _ _ Hs); by left).
      refine (rtc_ind_r (R := edge d) (λ x, x ∈ vertex c) entry _ _ _ Hpath); [done|]. intros x y _ He Hx.
      by apply (s_closed _ _ _ _ _ Hs x y Hx).
  - intros n Hx Hne. destruct (s_parent _ _ _ _ _ Hs n Hx (Hno n)) as [[->%list_elem_of_singleton _]|?]; done.
Qed.

(** ** A graph and its tree

    Block 0 leads to 2 and 3, block 2 to 3 and 1, block 3 to 1. *)
Definition block (ps ss : list BasicBlockId) : BasicBlock := {| bb_name := None; preds := ps; succs := ss |}.
Definition crossing : Data := with_blocks [block [] [2; 3]; block [2; 3] []; block [0] [3; 1]; block [0; 2] [1]]%nat IrData.new.

Lemma crossing_closed : closed_graph crossing.
Proof.
  intros x y (bb & Hb & Hy). do 4 (destruct x as [|x]; [injection Hb as <-; cbn in Hy |- *; set_unfold; lia|]). done.
Qed.
Lemma depth_first_numbering_witness :
  ∃ c, number_by_dfs crossing (tree_fuel crossing) None 0 (new_context, 0%nat) = Ret (c, length (vertex c))
    ∧ vertex c = [0; 2; 3; 1]%nat ∧ parent_of c !! 1%nat = Some 3%nat
    ∧ ∀ n, n ∈ vertex c ↔ rtc (edge crossing) 0 n.
Proof.
  destruct (depth_first_numbering crossing 0 crossing_closed ltac:(cbn; lia)) as (c & H & _ & _ & Hr & _).
  exists c. split; [exact H|].
  assert (Hc : vertex c = [0; 2; 3; 1]%nat ∧ parent_of c !! 1%nat = Some 3%nat).
  { vm_compute in H. injection H as <-. split; reflexivity. }
  split; [apply Hc|]. split; [apply Hc|exact Hr].
Defined.

(** The tree says that block 3 dominates block 1, which is also reached from
    block 0 through block 2: a dominator that was put off is taken to be the
    block it should be looked up at. *)
Definition crossing_tree : comp DominatorTree := new_tree crossing elements [0; 2; 3; 1]%nat.
Lemma put_off_dominator_is_wrong :
  (t ← crossing_tree; dominates elements 4 t 3 1) = Ret true
  ∧ edge crossing 0 2 ∧ edge crossing 2 1.
Proof.
  split; [vm_compute; reflexivity|]. split; [by eexists; split; [reflexivity|left]|].
  by eexists; split; [reflexivity|right; left].
Qed.
End DomFacts.
