(* ===== verification/Mem2Reg.v ===== *)
(** Promotion of memory to registers (codegen/core/pass/transform/mem2reg.rs):
    stack slots that are only loaded and stored become values and phis. *)
From S2P Require Import Prelude LinkedLayout IrTypes IrValues Ir Dce DomTree.
From stdpp Require Import sorting.
#[local] Arguments filter : simpl never.

Module Mem2Reg.
Import IrTypes IrInst IrData IrFunc DomTree.

(* [codegen/core/pass/transform/mem2reg.rs | pub struct Mem2Reg<'a> | Mem2Reg] *)
Record Mem2Reg := mkMem2Reg {
  m_func : Function; dom_tree : DominatorTree; inst_indexes : gmap InstructionId nat;
}.
Definition with_func (f : Function) (m : Mem2Reg) : Mem2Reg := mkMem2Reg f (dom_tree m) (inst_indexes m).
Definition with_indexes (x : gmap InstructionId nat) (m : Mem2Reg) : Mem2Reg := mkMem2Reg (m_func m) (dom_tree m) x.

Definition index_le (x y : InstructionId * nat) : Prop := (x.2 ≤ y.2)%nat.
#[export] Instance index_le_dec x y : Decision (index_le x y) := decide (x.2 ≤ y.2)%nat.

Section Pass.
Context (users_order : gset InstructionId → list InstructionId).
Context (set_order : gset BasicBlockId → list BasicBlockId).
(** The fuel of the loops over the blocks. *)
Context (fuel : nat).

Definition users (f : Function) (i : InstructionId) : comp (list InstructionId) :=
  us ← users_of (data f) i; Ret (users_order us).
Definition remove (f : Function) (i : InstructionId) : comp Function := '(f, _) ← remove_inst f i; Ret f.

(** * Which slots *)

(* [codegen/core/pass/transform/mem2reg.rs | fn is_promotable] *)
Definition is_promotable (f : Function) (alloca : Instruction) : comp bool :=
  alloca_id ← unwrap (id alloca);
  a ← unwrap (as_alloca (operand alloca));
  pointer ← is_pointer (f_types f) (alloca_ty a);
  if negb (is_primitive (alloca_ty a) || pointer) then Ret false
  else
    us ← users f alloca_id;
    foldM (λ ok user_id,
      if negb (ok : bool) then Ret false
      else
        user ← inst_ref (data f) user_id;
        if is_opcode OLoad (opcode user) then Ret true
        else if is_opcode OStore (opcode user) then
          s ← unwrap (as_store (operand user));
          v ← value_ref (data f) (dst_val s);
          Ret (bool_decide (as_inst v = Some alloca_id))
        else Ret false) true us.

(* [codegen/core/pass/transform/mem2reg.rs | fn is_stored_only_once] *)
Definition is_stored_only_once (f : Function) (alloca_id : InstructionId) : comp bool :=
  us ← users f alloca_id;
  n ← foldM (λ acc user_id, user ← inst_ref (data f) user_id;
               Ret (if is_opcode OStore (opcode user) then S acc else acc)) 0%nat us;
  Ret (n =? 1)%nat.

(* [codegen/core/pass/transform/mem2reg.rs | fn is_only_used_in_single_block] *)
Definition is_only_used_in_single_block (f : Function) (alloca_id : InstructionId) : comp bool :=
  us ← users f alloca_id;
  '(ok, _) ← foldM (λ '(ok, last) user_id,
    if negb (ok : bool) then Ret (false, last)
    else user ← inst_ref (data f) user_id;
         Ret (bool_decide (default (parent user) last = parent user), Some (parent user))) (true, None) us;
  Ret ok.

(** * The positions of memory instructions in their blocks *)

Definition is_interesting (o : Opcode) : bool := is_opcode OStore o || is_opcode OLoad o || is_opcode OAlloca o.
(* [codegen/core/pass/transform/mem2reg.rs | for (i, inst_id) in func.layout.inst_iter(inst.parent).enumerate() { | InstructionIndexes::get] *)
Definition fill_indexes (f : Function) (b : BasicBlockId) (x : gmap InstructionId nat) : comp (gmap InstructionId nat) :=
  l ← insts_of f b;
  foldM (λ x '(i, inst_id), inst ← inst_ref (data f) inst_id;
           Ret (if is_interesting (opcode inst) then <[inst_id := i]> x else x)) x (imap pair l).
(** The call after the table is filled must find the instruction: otherwise it
    calls itself again and again. *)
(* [codegen/core/pass/transform/mem2reg.rs | impl InstructionIndexes >> pub fn get | InstructionIndexes::get] *)
Fixpoint get_index (n : nat) (inst_id : InstructionId) (m : Mem2Reg) : comp (nat * Mem2Reg) :=
  match n with O => OutOfFuel | S n =>
  match inst_indexes m !! inst_id with
  | Some i => Ret (i, m)
  | None =>
      inst ← inst_ref (data (m_func m)) inst_id;
      x ← fill_indexes (m_func m) (parent inst) (inst_indexes m);
      get_index n inst_id (with_indexes x m)
  end end.
Definition index_of := get_index 2.

(** * Slots with one store *)

(** Every use of a load gets the stored value. *)
(* [codegen/core/pass/transform/mem2reg.rs | 146-151 | promote_single_store_alloca] *)
Definition forward (f : Function) (load_id : InstructionId) (src : ValueId) : comp Function :=
  f ← remove f load_id;
  us ← users f load_id;
  d ← foldM (λ d user_id, replace_inst_arg d user_id load_id src) (data f) us;
  Ret (with_data d f).

(** The store comes before the load on every path. *)
(* [codegen/core/pass/transform/mem2reg.rs | 128-139 | promote_single_store_alloca] *)
Definition store_reaches (store_id store_idx : nat) (m : Mem2Reg) (load_id : InstructionId) : comp (bool * Mem2Reg) :=
  load ← inst_ref (data (m_func m)) load_id;
  store ← inst_ref (data (m_func m)) store_id;
  if decide (parent load = parent store) then
    '(load_idx, m) ← index_of load_id m; Ret ((store_idx <? load_idx)%nat, m)
  else b ← dominates set_order fuel (dom_tree m) (parent store) (parent load); Ret (b, m).

(** The loads of the slot, and its store with what it stores. *)
(* [codegen/core/pass/transform/mem2reg.rs | 107-121 | promote_single_store_alloca] *)
Definition slot_user (f : Function) (st : option ValueId * option InstructionId * list InstructionId)
    (user_id : InstructionId) : comp (option ValueId * option InstructionId * list InstructionId) :=
  let '(src, store, loads) := st in
  user ← inst_ref (data f) user_id;
  if is_opcode OLoad (opcode user) then Ret (src, store, loads ++ [user_id])
  else if is_opcode OStore (opcode user) then
    s ← unwrap (as_store (operand user)); Ret (Some (src_val s), Some user_id, loads)
  else Panic.
Definition slot_users (f : Function) (alloca_id : InstructionId)
    : comp (option ValueId * option InstructionId * list InstructionId) :=
  us ← users f alloca_id; foldM (slot_user f) (None, None, []) us.
(** Those of the loads that can be replaced, and whether that is all. *)
(* [codegen/core/pass/transform/mem2reg.rs | 127-139 | promote_single_store_alloca] *)
Definition check_loads (store store_idx : nat) (m : Mem2Reg) (loads : list InstructionId)
    : comp (bool * list InstructionId * Mem2Reg) :=
  foldM (λ '(all, kept, m) load_id,
    '(valid, m) ← store_reaches store store_idx m load_id;
    Ret ((all && valid : bool), if (valid : bool) then kept ++ [load_id] else kept, m)) (true, [], m) loads.

(* [codegen/core/pass/transform/mem2reg.rs | fn promote_single_store_alloca] *)
Definition promote_single_store_alloca (alloca_id : InstructionId) (m : Mem2Reg) : comp Mem2Reg :=
  '(src, store, loads) ← slot_users (m_func m) alloca_id;
  src ← unwrap (src : option ValueId);
  store ← unwrap (store : option InstructionId);
  '(store_idx, m) ← index_of store m;
  '(remove_all_loads, loads, m) ← check_loads store store_idx m loads;
  f ← (if (remove_all_loads : bool) then f ← remove (m_func m) store; remove f alloca_id else Ret (m_func m));
  f ← foldM (λ f load_id, forward f load_id src) f loads;
  Ret (with_func f m).

(** * Slots used in one block *)

(** The last store before an index; the stores are sorted. *)
(* [codegen/core/pass/transform/mem2reg.rs | fn find_nearest_store] *)
Definition find_nearest_store (stores : list (InstructionId * nat)) (load_idx : nat) : option InstructionId :=
  fst <$> last (filter (λ s, (s.2 < load_idx)%nat) stores).

(** A load: replaced by what the last store before it stored. *)
(* [codegen/core/pass/transform/mem2reg.rs | 187-205 | promote_single_block_alloca] *)
Definition forward_nearest (stores : list (InstructionId * nat)) (st : bool * list InstructionId * Mem2Reg)
    (load_id : InstructionId) : comp (bool * list InstructionId * Mem2Reg) :=
  let '(all, to_remove, m) := st in
  '(load_idx, m) ← index_of load_id m;
  match find_nearest_store stores load_idx with
  | None => Ret (false, to_remove, m)
  | Some store_id =>
      store ← inst_ref (data (m_func m)) store_id;
      s ← unwrap (as_store (operand store));
      f ← forward (m_func m) load_id (src_val s);
      Ret (all, to_remove ++ [store_id], with_func f m)
  end.
(** [sort_by] on the indices *)
Definition sort_stores (l : list (InstructionId * nat)) : list (InstructionId * nat) := merge_sort index_le l.
(* [codegen/core/pass/transform/mem2reg.rs | fn promote_single_block_alloca] *)
Definition promote_single_block_alloca (alloca_id : InstructionId) (m : Mem2Reg) : comp Mem2Reg :=
  us ← users (m_func m) alloca_id;
  '(stores, loads, m) ← foldM (λ '(stores, loads, m) user_id,
    user ← inst_ref (data (m_func m)) user_id;
    if is_opcode OStore (opcode user) then '(i, m) ← index_of user_id m; Ret (stores ++ [(user_id, i)], loads, m)
    else if is_opcode OLoad (opcode user) then Ret (stores, loads ++ [user_id], m)
    else Panic) ([], [], m) us;
  '(remove_all_access, to_remove, m) ← foldM (forward_nearest (sort_stores stores)) (true, [], m) loads;
  f ← (if (remove_all_access : bool) then remove (m_func m) alloca_id else Ret (m_func m));
  f ← foldM remove f to_remove;
  Ret (with_func f m).

(** * Slots used in several blocks *)

(** The blocks in which the slot is live at the start; a stack is a list whose
    top comes first. *)
(* [codegen/core/pass/transform/mem2reg.rs | 235-246 | promote_multi_block_alloca] *)
Fixpoint livein_blocks (n : nat) (d : Data) (def_blocks worklist : list BasicBlockId) (live : gset BasicBlockId)
    : comp (gset BasicBlockId) :=
  match n with O => OutOfFuel | S n =>
  match worklist with
  | [] => Ret live
  | b :: worklist =>
      if decide (b ∈ live) then livein_blocks n d def_blocks worklist live
      else
        bb ← block_ref d b;
        livein_blocks n d def_blocks
          (foldl (λ w p, if decide (p ∈ def_blocks) then w else p :: w) worklist (preds bb)) ({[b]} ∪ live)
  end end.

(** A [BinaryHeap] gives an element of the highest level; which of several
    ones it gives is not specified: here, the one entered first. *)
(* [codegen/core/pass/transform/mem2reg.rs | struct BlockLevel] *)
Definition BlockLevel : Type := nat * BasicBlockId.
Fixpoint heap_pop (h : list BlockLevel) : option (BlockLevel * list BlockLevel) :=
  match h with
  | [] => None
  | x :: h =>
      match heap_pop h with
      | None => Some (x, [])
      | Some (y, r) => if (x.1 <? y.1)%nat then Some (y, x :: r) else Some (x, h)
      end
  end.

Record Placing := mkPlacing {
  p_func : Function;
  phi_to_alloca : gmap InstructionId InstructionId;
  added_phis : gmap BasicBlockId (list InstructionId);
  queue : list BlockLevel;
  visited_worklist : gset BasicBlockId;
  visited_queue : gset BasicBlockId;
}.
(** A phi at the start of a successor that is not further down the tree. *)
(* [codegen/core/pass/transform/mem2reg.rs | 262-300 | promote_multi_block_alloca] *)
Definition place_phi (t : DominatorTree) (alloca_id : InstructionId) (def_blocks : list BasicBlockId)
    (live : gset BasicBlockId) (root_level : nat) (st : Placing) (succ_id : BasicBlockId) : comp Placing :=
  succ_level ← unwrap (level_of t succ_id);
  if (root_level <? succ_level)%nat then Ret st
  else if decide (succ_id ∈ visited_queue st) then Ret st
  else
    let visited := {[succ_id]} ∪ visited_queue st in
    if decide (succ_id ∉ live) then
      Ret (mkPlacing (p_func st) (phi_to_alloca st) (added_phis st) (queue st) (visited_worklist st) visited)
    else
      let f := p_func st in
      alloca ← inst_ref (data f) alloca_id;
      a ← unwrap (as_alloca (operand alloca));
      let phi := with_operand (Phi_ {| phi_ty := alloca_ty a; phi_args := []; phi_blocks := [] |})
                   (with_block OPhi succ_id) in
      '(d, phi_id) ← create_inst (data f) phi;
      l ← IrLayout.insert_inst_at_start (layout f) phi_id succ_id;
      Ret (mkPlacing (with_layout l (with_data d f)) (<[phi_id := alloca_id]> (phi_to_alloca st))
             (<[succ_id := default [] (added_phis st !! succ_id) ++ [phi_id]]> (added_phis st))
             (if decide (succ_id ∈ def_blocks) then queue st else queue st ++ [(succ_level, succ_id)])
             (visited_worklist st) visited).

(** The blocks below a block of the queue. *)
(* [codegen/core/pass/transform/mem2reg.rs | 256-310 | promote_multi_block_alloca] *)
Fixpoint place_below (n : nat) (t : DominatorTree) (alloca_id : InstructionId) (def_blocks : list BasicBlockId)
    (live : gset BasicBlockId) (root_level : nat) (worklist : list BasicBlockId) (st : Placing) : comp Placing :=
  match n with O => OutOfFuel | S n =>
  match worklist with
  | [] => Ret st
  | b :: worklist =>
      bb ← block_ref (data (p_func st)) b;
      st ← foldM (place_phi t alloca_id def_blocks live root_level) st (succs bb);
      let '(worklist, visited) :=
        foldl (λ '(w, v) child, if decide (child ∈ v) then (w, v) else (child :: w, {[child]} ∪ v))
          (worklist, visited_worklist st) (set_order (default ∅ (children_of t b))) in
      place_below n t alloca_id def_blocks live root_level worklist
        (mkPlacing (p_func st) (phi_to_alloca st) (added_phis st) (queue st) visited (visited_queue st))
  end end.
(* [codegen/core/pass/transform/mem2reg.rs | 255-311 | promote_multi_block_alloca] *)
Fixpoint place_all (n : nat) (t : DominatorTree) (alloca_id : InstructionId) (def_blocks : list BasicBlockId)
    (live : gset BasicBlockId) (st : Placing) : comp Placing :=
  match n with O => OutOfFuel | S n =>
  match heap_pop (queue st) with
  | None => Ret st
  | Some ((root_level, root_block), queue) =>
      st ← place_below fuel t alloca_id def_blocks live root_level [root_block]
             (mkPlacing (p_func st) (phi_to_alloca st) (added_phis st) queue ({[root_block]} ∪ visited_worklist st)
                (visited_queue st));
      place_all n t alloca_id def_blocks live st
  end end.

(* [codegen/core/pass/transform/mem2reg.rs | fn promote_multi_block_alloca] *)
Definition promote_multi_block_alloca (t : DominatorTree)
    (st : Function * gmap InstructionId InstructionId * gmap BasicBlockId (list InstructionId)) (alloca_id : InstructionId)
    : comp (Function * gmap InstructionId InstructionId * gmap BasicBlockId (list InstructionId)) :=
  let '(f, phis, added) := st in
  us ← users f alloca_id;
  '(def_blocks, use_blocks) ← foldM (λ '(defs, uses) user_id,
    user ← inst_ref (data f) user_id;
    if is_opcode OStore (opcode user) then Ret (defs ++ [parent user], uses)
    else if is_opcode OLoad (opcode user) then Ret (defs, uses ++ [parent user])
    else Panic) ([], []) us;
  live ← livein_blocks fuel (data f) def_blocks (reverse use_blocks) ∅;
  q ← mapM_c (λ b, l ← unwrap (level_of t b); Ret (l, b)) def_blocks;
  st ← place_all fuel t alloca_id def_blocks live (mkPlacing f phis added q ∅ ∅);
  Ret (p_func st, phi_to_alloca st, added_phis st).

(** * Renaming *)

(* [codegen/core/pass/transform/mem2reg.rs | struct RenameData] *)
Record RenameData := mkRename {
  cur : BasicBlockId; pred : option BasicBlockId; incoming : gmap InstructionId ValueId;
}.
(** A phi of the block gets the value that comes along the edge. *)
(* [codegen/core/pass/transform/mem2reg.rs | 355-367 | rename_sub] *)
Definition enter_phi (phis : gmap InstructionId InstructionId) (pred : option BasicBlockId)
    (st : Function * gmap InstructionId ValueId) (phi_id : InstructionId) : comp (Function * gmap InstructionId ValueId) :=
  let '(f, incoming) := st in
  alloca_id ← unwrap (phis !! phi_id);
  value ← unwrap (incoming !! alloca_id);
  inst ← inst_ref (data f) phi_id;
  phi ← unwrap (as_phi (operand inst));
  pred ← unwrap pred;
  let o := Phi_ {| phi_ty := phi_ty phi; phi_args := phi_args phi ++ [value]; phi_blocks := phi_blocks phi ++ [pred] |} in
  let d := with_instructions (<[phi_id := with_operand o inst]> (instructions (data f))) (data f) in
  d ← validate_inst_uses d phi_id;
  let '(d, v) := create_value d (VInstruction phi_id) in
  Ret (with_data d f, <[alloca_id := v]> incoming).

(** A load or a store of a promoted slot; whether it is to be removed. *)
(* [codegen/core/pass/transform/mem2reg.rs | 375-403 | rename_sub] *)
Definition rename_inst (alloca_list : list InstructionId)
    (st : Function * gmap InstructionId ValueId * list InstructionId) (inst_id : InstructionId)
    : comp (Function * gmap InstructionId ValueId * list InstructionId) :=
  let '(f, incoming, removal) := st in
  inst ← inst_ref (data f) inst_id;
  let address :=
    if is_opcode OStore (opcode inst) then Some (s ← unwrap (as_store (operand inst)); Ret (dst_val s))
    else if is_opcode OLoad (opcode inst) then Some (l ← unwrap (as_load (operand inst)); Ret (load_addr l))
    else None in
  match address with
  | None => Ret st
  | Some address =>
      v ← address; v ← value_ref (data f) v;
      match as_inst v with
      | None => Ret st
      | Some alloca_id =>
          if decide (alloca_id ∉ alloca_list) then Ret st
          else if is_opcode OStore (opcode inst) then
            s ← unwrap (as_store (operand inst));
            Ret (f, <[alloca_id := src_val s]> incoming, removal ++ [inst_id])
          else
            f ← match incoming !! alloca_id with
                | Some val => d ← replace_all_uses users_order (data f) inst_id val; Ret (with_data d f)
                | None => Ret f
                end;
            Ret (f, incoming, removal ++ [inst_id])
      end
  end.

(** The blocks of a path, until one is visited again or has no successor;
    the other successors are put on the work list. *)
(* [codegen/core/pass/transform/mem2reg.rs | fn rename_sub] *)
Fixpoint rename_sub (n : nat) (alloca_list : list InstructionId) (phis : gmap InstructionId InstructionId)
    (added : gmap BasicBlockId (list InstructionId)) (st : Function * list RenameData * gset BasicBlockId)
    (x : RenameData) : comp (Function * list RenameData * gset BasicBlockId) :=
  match n with O => OutOfFuel | S n =>
  let '(f, worklist, visited) := st in
  '(f, incoming) ← foldM (enter_phi phis (pred x)) (f, incoming x) (default [] (added !! cur x));
  if decide (cur x ∈ visited) then Ret (f, worklist, visited)
  else
    l ← insts_of f (cur x);
    '(f, incoming, removal) ← foldM (rename_inst alloca_list) (f, incoming, []) l;
    f ← foldM remove f removal;
    bb ← block_ref (data f) (cur x);
    let visited := {[cur x]} ∪ visited in
    match succs bb with
    | [] => Ret (f, worklist, visited)
    | next :: others =>
        rename_sub n alloca_list phis added
          (f, foldl (λ w s, mkRename s (Some (cur x)) incoming :: w) worklist others, visited)
          (mkRename next (Some (cur x)) incoming)
    end
  end.
Fixpoint rename_loop (n : nat) (alloca_list : list InstructionId) (phis : gmap InstructionId InstructionId)
    (added : gmap BasicBlockId (list InstructionId)) (st : Function * list RenameData * gset BasicBlockId)
    : comp Function :=
  match n with O => OutOfFuel | S n =>
  let '(f, worklist, visited) := st in
  match worklist with
  | [] => Ret f
  | x :: worklist =>
      st ← rename_sub fuel alloca_list phis added (f, worklist, visited) x;
      rename_loop n alloca_list phis added st
  end end.
(* [codegen/core/pass/transform/mem2reg.rs | fn rename( | rename] *)
Definition rename (f : Function) (alloca_list : list InstructionId) (phis : gmap InstructionId InstructionId)
    (added : gmap BasicBlockId (list InstructionId)) : comp Function :=
  entry ← unwrap (Layout.first_block (layout f));
  f ← rename_loop fuel alloca_list phis added (f, [mkRename entry None ∅], ∅);
  foldM remove f alloca_list.

(** * The pass *)

(** The slots by the way they are promoted. *)
(* [codegen/core/pass/transform/mem2reg.rs | 51-84 | run] *)
Definition classify (f : Function) (st : list InstructionId * list InstructionId * list InstructionId)
    (x : BasicBlockId * InstructionId) : comp (list InstructionId * list InstructionId * list InstructionId) :=
  let '(single_store, single_block, multi_block) := st in
  let inst_id := x.2 in
  inst ← inst_ref (data f) inst_id;
  if negb (is_opcode OAlloca (opcode inst)) then Ret st
  else
    promotable ← is_promotable f inst;
    if negb (promotable : bool) then Ret st
    else
      alloca_id ← unwrap (id inst);
      once ← is_stored_only_once f alloca_id;
      single ← is_only_used_in_single_block f alloca_id;
      Ret (if (once : bool) then (single_store ++ [inst_id], single_block, multi_block)
           else if (single : bool) then (single_store, single_block ++ [inst_id], multi_block)
           else (single_store, single_block, multi_block ++ [inst_id])).

(* [codegen/core/pass/transform/mem2reg.rs | pub fn new(func | new] *)
Definition new (f : Function) : comp Mem2Reg :=
  bs ← IrLayout.block_iter (layout f); t ← new_tree (data f) set_order bs; Ret (mkMem2Reg f t ∅).
(* [codegen/core/pass/transform/mem2reg.rs | pub fn run(&mut self) | run] *)
Definition run (m : Mem2Reg) : comp Function :=
  l ← all_insts (m_func m);
  '(single_store, single_block, multi_block) ← foldM (classify (m_func m)) ([], [], []) l;
  m ← foldM (λ m i, promote_single_store_alloca i m) m single_store;
  m ← foldM (λ m i, promote_single_block_alloca i m) m single_block;
  '(f, phis, added) ← foldM (promote_multi_block_alloca (dom_tree m)) (m_func m, ∅, ∅) multi_block;
  f ← rename f multi_block phis added;
  Sccp.run users_order fuel f.
(* [codegen/core/pass/transform/mem2reg.rs | fn run_on] *)
Definition run_on (f : Function) : comp Function := m ← new f; run m.
End Pass.
End Mem2Reg.

(** What the promotion of a stack slot with one store does, and two slots whose
    promotion goes wrong. *)
Module Mem2RegFacts.
Import LayoutSpec IrInst IrData IrFunc IrRep Mem2Reg.

Lemma args_mut_ext f g o : (∀ v, f v = g v) → args_mut f o = args_mut g o.
Proof.
  intros H. assert (Hm : ∀ l, map f l = map g l) by (intros l; by apply map_ext).
  destruct o as [| | | | | | | | | | | | | | | | | |[? []]| |]; cbn; rewrite ?H, ?Hm; done.
Qed.
Lemma args_mut_comp f g o : args_mut f (args_mut g o) = args_mut (λ v, f (g v)) o.
Proof. destruct o as [| | | | | | | | | | | | | | | | | |[? []]| |]; cbn; rewrite ?map_map; done. Qed.

Section Promotion.
Context (users_order : gset InstructionId → list InstructionId).
Context (users_order_perm : ∀ s, users_order s ≡ₚ elements s).
Context (set_order : gset BasicBlockId → list BasicBlockId) (fuel : nat).

(** ** Forwarding *)

Lemma remove_ok f A R i :
  func_ok f A R → i ∈ linked A →
  ∃ f', remove f i = Ret f' ∧ func_ok f' (without i A) ({[i]} ∪ R)
    ∧ instructions (data f') = instructions (data f) ∧ values (data f') = values (data f).
Proof.
  intros Hf Hi. destruct (remove_inst_ok f A R i Hf Hi) as (f' & H & Hf' & Hin & Hv & _).
  exists f'. unfold remove. rewrite H. by split_and!.
Qed.
Lemma func_ok_data f A R d :
  func_ok f A R → users_exact d R → length (instructions d) = length (instructions (data f)) →
  (∀ i inst, instructions d !! i = Some inst → id inst = Some i) → func_ok (with_data d f) A R.
Proof. intros [Hr Hu Hl Hk Hid] Hd Hn Hi. split; cbn; rewrite ?Hn; done. Qed.
Lemma forward_ok f A R load src :
  func_ok f A R → load ∈ linked A → is_Some (values (data f) !! src) →
  ∃ f', forward users_order f load src = Ret f' ∧ func_ok f' (without load A) ({[load]} ∪ R)
    ∧ values (data f') = values (data f)
    ∧ ∀ u, u ∉ {[load]} ∪ R →
        instructions (data f') !! u = replaced_inst (data f) load src <$> instructions (data f) !! u.
Proof.
  intros Hf Hl Hs. destruct (remove_ok f A R load Hf Hl) as (f1 & H1 & Hf1 & Hin & Hv).
  pose proof (ok_users _ _ _ Hf1) as Hex. pose proof (ok_linked _ _ _ Hf load Hl) as Hlt.
  destruct (replace_all_uses_replaces users_order users_order_perm (data f1) _ load src Hex) as (d & Hd & Hex' & Hrep & _).
  { by rewrite Hin. }
  { by rewrite Hv. }
  unfold forward. rewrite H1. cbn [mbind comp_bind]. unfold replace_all_uses in Hd. unfold users.
  destruct (users_of (data f1) load) as [us| |]; [|done..]. cbn [mbind comp_bind] in Hd |- *. rewrite Hd. cbn [mbind comp_bind].
  destruct Hrep as (Hvd & _ & Hn & Hu). eexists. split; [reflexivity|].
  assert (Hsame : ∀ v, is_inst (data f1) load v = is_inst (data f) load v) by (intros v; unfold is_inst; by rewrite Hv).
  split; [|split; [cbn; congruence|]].
  - apply func_ok_data; try done. intros j inst. rewrite Hu. destruct (instructions (data f1) !! j) as [x|] eqn:Hx; [|done].
    cbn. intros [= <-]. assert (id x = Some j) by by eapply ok_ids. by case_decide.
  - intros u Hnot. cbn. rewrite Hu, decide_True, Hin by done. destruct (instructions (data f) !! u); [|done]. cbn. f_equal.
    unfold replaced_inst. f_equal.
    apply args_mut_ext. intros v. unfold subst_inst. by rewrite Hsame.
Qed.

(** Every use of a load among [loads] is a use of [src]. *)
Definition subst_loads (d : Data) (loads : list InstructionId) (src v : ValueId) : ValueId :=
  if existsb (λ l, is_inst d l v) loads then src else v.
Definition forwarded_inst (d : Data) (loads : list InstructionId) (src : ValueId) (inst : Instruction) : Instruction :=
  with_operand (args_mut (subst_loads d loads src) (operand inst)) inst.
Definition drop_insts (gone : list InstructionId) (l : list InstructionId) : list InstructionId := filter (λ j, j ∉ gone) l.

Lemma drop_insts_cons i gone l : drop_insts gone (del i l) = drop_insts (i :: gone) l.
Proof. unfold drop_insts, del. rewrite list_filter_filter. apply list_filter_iff. set_solver. Qed.
Lemma forwarded_none d src inst : forwarded_inst d [] src inst = inst.
Proof. unfold forwarded_inst. rewrite args_mut_id by done. by destruct inst. Qed.
Lemma drop_insts_nil l : drop_insts [] l = l.
Proof. unfold drop_insts. induction l as [|x l IH]; [done|]. rewrite filter_cons_True by apply not_elem_of_nil. by f_equal. Qed.

Lemma forward_all loads : ∀ f A R src,
  func_ok f A R → NoDup loads → (∀ l, l ∈ loads → l ∈ linked A) → is_Some (values (data f) !! src) →
  (∀ l, l ∈ loads → values (data f) !! src ≠ Some (VInstruction l)) →
  ∃ f' A', foldM (λ f l, forward users_order f l src) f loads = Ret f' ∧ func_ok f' A' (list_to_set loads ∪ R)
    ∧ linked A' = drop_insts loads (linked A)
    ∧ ∀ u, u ∈ linked A' → instructions (data f') !! u = forwarded_inst (data f) loads src <$> instructions (data f) !! u.
Proof.
  induction loads as [|l loads IH]; intros f A R src Hf Hnd Hl Hs Hne.
  { exists f, A. split; [done|]. split; [by replace (list_to_set [] ∪ R) with R by set_solver|]. split.
    - by rewrite drop_insts_nil.
    - intros u _. destruct (instructions (data f) !! u) as [x|]; [|done]. cbn. by rewrite forwarded_none. }
  apply NoDup_cons in Hnd as [Hnl Hnd]. cbn [foldM].
  destruct (forward_ok f A R l src Hf) as (f1 & -> & Hf1 & Hv & Hu); [apply Hl; by left|done|]. cbn [mbind comp_bind].
  destruct (IH f1 (without l A) ({[l]} ∪ R) src Hf1 Hnd) as (f' & A' & -> & Hf' & HA & Hu').
  - intros x Hx. apply linked_dropped_iff. split; [by intros ->|apply Hl; by right].
  - by rewrite Hv.
  - intros x Hx. rewrite Hv. apply Hne. by right.
  - exists f', A'. split; [done|]. split; [|split].
    + cbn. by replace ({[l]} ∪ list_to_set loads ∪ R) with (list_to_set loads ∪ ({[l]} ∪ R)) by set_solver.
    + rewrite HA, linked_dropped. apply drop_insts_cons.
    + intros u Hin. rewrite Hu' by done.
      assert (Hnot : u ∉ {[l]} ∪ R).
      { pose proof (ok_linked _ _ _ Hf' u Hin) as Hlt. apply (ok_live _ _ _ Hf' u Hlt) in Hin. set_solver. }
      rewrite (Hu u Hnot). destruct (instructions (data f) !! u) as [inst|]; [|done]. cbn. f_equal.
      unfold forwarded_inst, replaced_inst. cbn. rewrite args_mut_comp. unfold with_operand. cbn. f_equal.
      apply args_mut_ext. intros v. unfold subst_loads, subst_inst. cbn.
      assert (Hsame : ∀ x w, is_inst (data f1) x w = is_inst (data f) x w) by (intros x w; unfold is_inst; by rewrite Hv).
      destruct (is_inst (data f) l v) eqn:E; cbn.
      * assert (existsb (λ x, is_inst (data f1) x src) loads = false) as ->; [|done].
        apply not_true_is_false. rewrite existsb_exists. intros (x & Hx & Hi%is_inst_true). rewrite Hv in Hi.
        apply (Hne x); [right; by apply list_elem_of_In|done].
      * assert (existsb (λ x, is_inst (data f1) x v) loads = existsb (λ x, is_inst (data f) x v) loads) as ->; [|done].
        clear -Hsame. induction loads as [|x loads IH]; [done|]. cbn. by rewrite Hsame, IH.
Qed.

(** ** The slot *)

Lemma get_index_func n i : ∀ m k m', get_index n i m = Ret (k, m') → m_func m' = m_func m.
Proof.
  induction n as [|n IH]; intros m k m' H; [done|]. cbn [get_index] in H. destruct (inst_indexes m !! i) as [x|]; [by injection H as _ <-|].
  destruct (inst_ref _ i) as [inst| |]; cbn [mbind comp_bind] in H; try done.
  destruct (fill_indexes _ _ _) as [x| |]; cbn [mbind comp_bind] in H; try done. by apply IH in H.
Qed.
Lemma store_reaches_func store idx m l b m' : store_reaches set_order fuel store idx m l = Ret (b, m') → m_func m' = m_func m.
Proof.
  unfold store_reaches. destruct (inst_ref _ l) as [load| |]; cbn [mbind comp_bind]; try done.
  destruct (inst_ref _ store) as [st| |]; cbn [mbind comp_bind]; try done. case_decide.
  - destruct (index_of l m) as [[k m1]| |] eqn:E; cbn [mbind comp_bind]; try done. intros [= _ <-]. by eapply get_index_func.
  - destruct (DomTree.dominates _ _ _ _ _) as [x| |]; cbn [mbind comp_bind]; try done. by intros [= _ <-].
Qed.
Lemma check_loads_sound store idx m loads all kept m' :
  check_loads set_order fuel store idx m loads = Ret (all, kept, m') → m_func m' = m_func m ∧ kept `sublist_of` loads.
Proof.
  unfold check_loads. assert (H : ∀ l all0 kept0 m0 l0, kept0 `sublist_of` l0 →
    foldM (λ '(all, kept, m) load_id,
      '(valid, m) ← store_reaches set_order fuel store idx m load_id;
      Ret ((all && valid : bool), if (valid : bool) then kept ++ [load_id] else kept, m)) (all0, kept0, m0) l = Ret (all, kept, m') →
    m_func m' = m_func m0 ∧ kept `sublist_of` l0 ++ l).
  { induction l as [|x l IH]; intros all0 kept0 m0 l0 Hk H.
    { injection H as <- <- <-. by rewrite app_nil_r. }
    cbn [foldM] in H. destruct (store_reaches _ _ _ _ m0 x) as [[v m1]| |] eqn:E; cbn [mbind comp_bind] in H; try done.
    apply (IH _ _ _ (l0 ++ [x])) in H.
    - rewrite <-app_assoc in H. split; [|apply H]. rewrite <-(store_reaches_func _ _ _ _ _ _ E). apply H.
    - destruct v; [by apply sublist_app|]. etrans; [exact Hk|]. apply sublist_inserts_r. done. }
  apply (H loads true [] m []). apply sublist_nil.
Qed.

(** The users of a slot that is only loaded and stored. *)
Lemma slot_users_sound f A R i src store loads :
  func_ok f A R → slot_users users_order f i = Ret (src, store, loads) →
  NoDup loads ∧ (∀ l, l ∈ loads → l ∈ linked A ∧ ∃ inst, instructions (data f) !! l = Some inst ∧ opcode inst = OLoad)
  ∧ (∀ s, store = Some s → s ∈ linked A ∧ ∃ inst x, instructions (data f) !! s = Some inst ∧ opcode inst = OStore
       ∧ as_store (operand inst) = Some x ∧ src = Some (src_val x)).
Proof.
  intros Hf. unfold slot_users, users. destruct (users_of (data f) i) as [us| |] eqn:Hus; cbn [mbind comp_bind]; try done.
  unfold users_of in Hus. apply unwrap_Ret in Hus.
  assert (Hlive : ∀ u, u ∈ users_order us → u ∈ linked A).
  { intros u. rewrite users_order_perm, elem_of_elements, (exact_users _ _ (ok_users _ _ _ Hf) _ _ u Hus).
    intros [HuR (inst & _ & Hl%lookup_lt_Some & _)]. by apply (ok_live _ _ _ Hf u Hl). }
  assert (Hnd : NoDup (users_order us)) by (rewrite users_order_perm; apply NoDup_elements).
  revert Hlive Hnd. generalize (users_order us). clear us Hus. intros us Hlive Hnd.
  set (P := λ x, x ∈ linked A ∧ ∃ inst, instructions (data f) !! x = Some inst ∧ opcode inst = OLoad).
  set (Q := λ (src : option ValueId) store, ∀ s, store = Some s → s ∈ linked A ∧ ∃ inst x, instructions (data f) !! s = Some inst
    ∧ opcode inst = OStore ∧ as_store (operand inst) = Some x ∧ src = Some (src_val x)).
  assert (H : ∀ us l l0 src0 store0, (∀ u, u ∈ us → u ∈ linked A) → l `sublist_of` l0 → (∀ x, x ∈ l → P x) → Q src0 store0 →
    foldM (slot_user f) (src0, store0, l) us = Ret (src, store, loads) →
    loads `sublist_of` l0 ++ us ∧ (∀ x, x ∈ loads → P x) ∧ Q src store).
  { clear us Hlive Hnd. induction us as [|u us IH]; intros l l0 src0 store0 Hl Hsub HP HQ H.
    { injection H as <- <- <-. by rewrite app_nil_r. }
    cbn [foldM] in H. destruct (slot_user f (src0, store0, l) u) as [[[src1 store1] l1]| |] eqn:E; cbn [mbind comp_bind] in H; try done.
    unfold slot_user in E. destruct (inst_ref (data f) u) as [inst| |] eqn:Hu; cbn [mbind comp_bind] in E; try done.
    apply unwrap_Ret in Hu. assert (Hul : u ∈ linked A) by (apply Hl; by left).
    assert (Hl' : ∀ x, x ∈ us → x ∈ linked A) by (intros x Hx; apply Hl; by right).
    assert (Hopc : ∀ o, is_opcode o (opcode inst) = true → opcode inst = o) by (intros o Ho%bool_decide_eq_true; done).
    rewrite (cons_middle u l0 us), app_assoc.
    destruct (is_opcode OLoad (opcode inst)) eqn:Ho; [|destruct (is_opcode OStore (opcode inst)) eqn:Ho'; [|done]].
    - injection E as <- <- <-. apply (IH _ (l0 ++ [u])) in H; [done|done|by apply sublist_app| |done].
      intros x [Hx|Hx]%elem_of_app; [by apply HP|]. apply list_elem_of_singleton in Hx as ->. split; [done|]. exists inst. auto.
    - destruct (as_store (operand inst)) as [x|] eqn:Hx; cbn [unwrap mbind comp_bind] in E; [|done]. injection E as <- <- <-.
      apply (IH _ (l0 ++ [u])) in H; [done|done|by apply sublist_inserts_r|done|].
      intros s [= <-]. split; [done|]. exists inst, x. auto. }
  intros Hr. destruct (H us [] [] None None) as (H1 & H2 & H3); try done.
  { intros x Hx. by apply elem_of_nil in Hx. }
  split; [by eapply sublist_NoDup|]. by split.
Qed.

End Promotion.

(** ** Concrete functions: a tree of one block *)

Definition block_tree : DomTree.DominatorTree := DomTree.mkTree ∅ ∅ ∅ 0.
Definition on_one_block (f : Function) : Mem2Reg := mkMem2Reg f block_tree ∅.
Definition store_at (src dst : ValueId) : Instruction :=
  with_operand (Store_ {| store_tys := (IrTypes.I32, IrTypes.I32); store_args := (src, dst); store_align := 4 |})
    (with_block OStore 0).

(** [%0 = alloca; store 7, %0; %2 = load %0; %3 = add %2, %2; ret] *)
Definition stored_ops : list IrData.op :=
  [CreateInst an_alloca; CreateValue (VInstruction 0); CreateValue (int32 7); CreateInst (store_at 1 0);
   CreateInst (a_load 0); CreateValue (VInstruction 2); CreateInst (an_int_binary Add 2 2); CreateInst Dce.a_ret].
Definition stored_func : Function := build stored_ops (Dce.in_order 5).
Definition stored_layout : seq_layout := {| order := [(0%nat, seq 0 5)]; removed := ∅ |}.
Lemma stored_func_ok : func_ok stored_func stored_layout ∅.
Proof. eapply build_ok; vm_compute; reflexivity. Qed.


(** ** Slots used in one block that are promoted wrongly *)

Definition in_block (b : BasicBlockId) (inst : Instruction) : Instruction := with_operand (operand inst) (with_block (opcode inst) b).
Definition laid_after (f : Function) : comp (list InstructionId) :=
  m ← promote_single_block_alloca elements 0 (on_one_block f); all_insts (m_func m) ≫= λ l, Ret (map snd l).

(** [%0 = alloca; store 7, %0; %2 = load %0; store %2, %0; ret]: the slot is
    removed although the last store, which no load follows, stays and writes
    to it. *)
Definition last_store_ops : list IrData.op :=
  [CreateInst an_alloca; CreateValue (VInstruction 0); CreateValue (int32 7); CreateInst (store_at 1 0);
   CreateInst (a_load 0); CreateValue (VInstruction 2); CreateInst (store_at 2 0); CreateInst Dce.a_ret].
Definition last_store_func : Function := build last_store_ops (Dce.in_order 5).
Lemma store_to_removed_slot :
  func_ok last_store_func stored_layout ∅ ∧ all_insts last_store_func ≫= (λ l, Ret (map snd l)) = Ret [0; 1; 2; 3; 4]%nat
  ∧ laid_after last_store_func = Ret [3; 4]%nat.
Proof. split; [eapply build_ok; vm_compute; reflexivity|]. split; vm_compute; reflexivity. Qed.

(** [b0: %0 = alloca; br b1.  b1: %2 = load %0; store 7, %0; %4 = load %0;
    br b1]: the first load stays, and the store of the previous round, which it
    reads, is removed. *)
Definition round_ops : list IrData.op :=
  let br b := with_operand (Br_ {| br_block := 1%nat |}) (with_block OBr b) in
  [CreateInst an_alloca; CreateValue (VInstruction 0); CreateValue (int32 7); CreateInst (br 0%nat);
   CreateInst (in_block 1 (a_load 0)); CreateInst (in_block 1 (store_at 1 0));
   CreateInst (in_block 1 (a_load 0)); CreateInst (br 1%nat)].
Definition round_func : Function :=
  build round_ops ([AppendBlock 0; AppendBlock 1] ++ map (λ i, AppendInst i (if (i <? 2)%nat then 0 else 1)%nat) (seq 0 6)).
Lemma store_of_previous_round_removed :
  func_ok round_func {| order := [(0%nat, [0; 1]%nat); (1%nat, [2; 3; 4; 5]%nat)]; removed := ∅ |} ∅
  ∧ laid_after round_func = Ret [0; 1; 2; 5]%nat.
Proof. split; [eapply build_ok; vm_compute; reflexivity|vm_compute; reflexivity]. Qed.
End Mem2RegFacts.
