(* ===== verification/Machine.v ===== *)
(** Machine code before and during register allocation: registers and virtual
    registers (codegen/register/mod.rs, codegen/isa/ola/register/mod.rs),
    instructions and their operands (codegen/isa/ola/instruction/mod.rs,
    codegen/function/instruction/mod.rs), and the tables of a function that
    say which instructions use which virtual register
    (codegen/function/data/mod.rs). *)
From S2P Require Import Prelude LinkedLayout IrTypes.

Module Reg.

(** A register class and a number; a unit is a top-level register. *)
(* [codegen/register/mod.rs | 9-9 | Reg] *)
Record Reg := mk { rc : nat; num : nat }.
(* [codegen/register/mod.rs | 12-12 | RegUnit] *)
Record RegUnit := unit_ { uc : nat; unum : nat }.
(** A virtual register is a number. *)
Abbreviation VReg := nat.

#[global] Instance reg_eq_dec : EqDecision Reg.
Proof. solve_decision. Defined.
#[global] Instance reg_countable : Countable Reg.
Proof. apply (inj_countable' (λ r, (rc r, num r)) (λ p, mk p.1 p.2)). by intros []. Defined.
#[global] Instance unit_eq_dec : EqDecision RegUnit.
Proof. solve_decision. Defined.
#[global] Instance unit_countable : Countable RegUnit.
Proof. apply (inj_countable' (λ r, (uc r, unum r)) (λ p, unit_ p.1 p.2)). by intros []. Defined.

(* [codegen/isa/ola/register/mod.rs | pub enum GR] *)
Inductive GR := R0 | R1 | R2 | R3 | R4 | R5 | R6 | R7 | R8 | R9.

Definition gr_index (r : GR) : nat :=
  match r with R0 => 0 | R1 => 1 | R2 => 2 | R3 => 3 | R4 => 4 | R5 => 5
             | R6 => 6 | R7 => 7 | R8 => 8 | R9 => 9 end.

(** There is one register class, [RegClass::GR], number 0. *)
(* [codegen/isa/ola/register/mod.rs | impl From<GR> for Reg >> fn from | From<GR> for Reg] *)
Definition of_gr (r : GR) : Reg := mk 0 (gr_index r).
(* [codegen/isa/ola/register/mod.rs | impl From<GR> for RegUnit >> fn from | From<GR> for RegUnit] *)
Definition unit_of_gr (r : GR) : RegUnit := unit_ 0 (gr_index r).

(* [codegen/isa/ola/register/mod.rs | const ARG_REGS | ARG_REGS] *)
Definition ARG_REGS : list RegUnit := map unit_of_gr [R1; R2; R3].
(* [codegen/isa/ola/register/mod.rs | const STR_ARG_REGS | STR_ARG_REGS] *)
Definition STR_ARG_REGS : list RegUnit := map unit_of_gr [R1; R2; R3; R4; R5; R6].
(* [codegen/isa/ola/register/mod.rs | const CSR | CSR] *)
Definition CSR : list RegUnit := map unit_of_gr [R4; R5; R6; R7; R8].

(* [codegen/call_conv/mod.rs | pub enum CallConvKind] *)
Inductive CallConvKind := SystemV | AAPCS64.

(* [codegen/isa/ola/register/mod.rs | fn arg_reg_list] *)
Definition arg_reg_list (cc : CallConvKind) : list RegUnit :=
  match cc with SystemV => ARG_REGS | AAPCS64 => [] end.
(* [codegen/isa/ola/register/mod.rs | fn str_arg_reg_list] *)
Definition str_arg_reg_list (cc : CallConvKind) : list RegUnit :=
  match cc with SystemV => STR_ARG_REGS | AAPCS64 => [] end.
(* [codegen/isa/ola/register/mod.rs | fn to_reg_unit(r: Reg) -> RegUnit] *)
Definition to_reg_unit (r : Reg) : comp RegUnit :=
  match rc r with 0 => Ret (unit_ 0 (num r)) | _ => Panic end.
(* [codegen/isa/ola/register/mod.rs | fn is_csr] *)
Definition is_csr (u : RegUnit) : bool := bool_decide (u ∈ CSR).

(** [RegClass::for_type] knows scalars, pointers and arrays; any other type is
    a [todo!]. *)
(* [codegen/isa/ola/register/mod.rs | fn for_type] *)
Definition for_type (tb : IrTypes.TypesBase) (t : IrTypes.Type_) : comp unit :=
  if decide (t = IrTypes.VOID) then Ret tt
  else if IrTypes.is_integer t then Ret tt
  else p ← IrTypes.is_pointer tb t;
       if (p : bool) then Ret tt
       else a ← IrTypes.is_array tb t; if (a : bool) then Ret tt else Panic.
(* [codegen/isa/ola/register/mod.rs | fn gpr_list] *)
Definition gpr_list : list Reg := map of_gr [R1; R2; R3; R4].
(* [codegen/isa/ola/register/mod.rs | fn csr_list] *)
Definition csr_list : list Reg := map of_gr [R5; R6; R7; R8].
(* [codegen/isa/ola/register/mod.rs | fn apply_for] *)
Definition apply_for (u : RegUnit) : Reg := mk 0 (unum u).

(* [codegen/isa/ola/register/mod.rs | pub fn reg_to_str] *)
Definition reg_to_str (r : Reg) : comp string :=
  match rc r with
  | 0 => unwrap (["r0"; "r1"; "r2"; "r3"; "r4"; "r5"; "r6"; "r7"; "r8"; "r9"] !! num r)%string
  | _ => Panic
  end.

(* [codegen/register/mod.rs | pub struct VRegs] *)
Record VRegs := { vmap : gmap VReg IrTypes.Type_; cur : nat }.

(** The counter is a [u32]. *)
(* [codegen/register/mod.rs | pub fn add_vreg_data] *)
Definition add_vreg_data (vs : VRegs) (ty : IrTypes.Type_) : comp (VRegs * VReg) :=
  _ ← u32 (Z.of_nat (cur vs) + 1)%Z;
  Ret ({| vmap := <[cur vs := ty]> (vmap vs); cur := S (cur vs) |}, cur vs).
(* [codegen/register/mod.rs | pub fn type_for] *)
Definition type_for (vs : VRegs) (v : VReg) : comp IrTypes.Type_ := unwrap (vmap vs !! v).
(* [codegen/register/mod.rs | pub fn create_from] *)
Definition create_from (vs : VRegs) (v : VReg) : comp (VRegs * VReg) :=
  ty ← type_for vs v; add_vreg_data vs ty.
(* [codegen/register/mod.rs | pub fn change_ty] *)
Definition change_ty (vs : VRegs) (v : VReg) (ty : IrTypes.Type_) : comp VRegs :=
  _ ← unwrap (vmap vs !! v); Ret {| vmap := <[v := ty]> (vmap vs); cur := cur vs |}.

(** Every virtual register was handed out by the counter. *)
Definition vregs_ok (vs : VRegs) : Prop := ∀ v, is_Some (vmap vs !! v) → (v < cur vs)%nat.

(* [codegen/register/mod.rs | pub struct VRegUser ] *)
Record VRegUser := { inst_id : InstructionId; read : bool; write : bool }.
(** [VRegUsers] is its only field, [vreg_to_insts]. *)
Abbreviation VRegUsers := (gmap VReg (list VRegUser)).

(* [codegen/register/mod.rs | pub fn add_use] *)
Definition add_use (us : VRegUsers) (v : VReg) (i : InstructionId) (r w : bool) : VRegUsers :=
  <[v := default [] (us !! v) ++ [{| inst_id := i; read := r; write := w |}]]> us.
(* [codegen/register/mod.rs | pub fn get(&self, vreg] *)
Definition get_users (us : VRegUsers) (v : VReg) : comp (list VRegUser) := unwrap (us !! v).
(* [codegen/register/mod.rs | pub fn remove_use] *)
Definition remove_use (us : VRegUsers) (v : VReg) (i : InstructionId) : comp (VRegUsers * option VRegUser) :=
  l ← unwrap (us !! v);
  match list_find (λ u, inst_id u = i) l with
  | Some (idx, u) => Ret (<[v := delete idx l]> us, Some u)
  | None => Ret (us, None)
  end.

Arguments remove_use : simpl never.

End Reg.

Module Inst.
Import Reg.

(* [codegen/isa/ola/instruction/mod.rs | pub enum Opcode] *)
Inductive Opcode :=
  | ADDri | ADDrr | MULri | MULrr
  | ANDri | ANDrr | ORri | ORrr | XORri | XORrr
  | EQri | EQrr | ASSERTri | ASSERTrr
  | MOVri | MOVrr | MOV
  | JMPi | JMPr | CJMPi | CJMPr | CALL | SCCALL | RET | END_
  | SLOAD | SSTORE | POSEIDON
  | MLOADi | MLOADr | MSTOREi | MSTOREr
  | RANGECHECK | SIGCHECK | NOT | NEQ | GTE
  | PROPHET
  | Phi
  | TLOADri | TLOADrr | TSTOREi | TSTOREr.

#[global] Instance opcode_eq_dec : EqDecision Opcode.
Proof. solve_decision. Defined.

(* [codegen/isa/ola/instruction/mod.rs | pub enum OperandData] *)
Inductive OperandData :=
  | OReg (r : Reg)
  | OVReg (v : VReg)
  | Int8 (i : Z)
  | Int32 (i : Z)
  | Int64 (i : Z)
  | MemStart
  | OSlot (s : nat)
  | OBlock (b : BasicBlockId)
  | Label (s : string)
  | GlobalAddress (s : string)
  | ONone.

#[global] Instance operand_data_eq_dec : EqDecision OperandData.
Proof. solve_decision. Defined.

(* [codegen/isa/ola/instruction/mod.rs | pub struct Operand] *)
Record Operand := { data : OperandData; input : bool; output : bool; implicit : bool }.

#[global] Instance operand_eq_dec : EqDecision Operand.
Proof. solve_decision. Defined.

(* [codegen/isa/ola/instruction/mod.rs | pub struct InstructionData] *)
Record InstructionData := { opcode : Opcode; operands : list Operand }.

(* [codegen/isa/ola/instruction/mod.rs | pub fn new(data] *)
Definition op_new d := {| data := d; input := false; output := false; implicit := false |}.
(* [codegen/isa/ola/instruction/mod.rs | pub fn input(data] *)
Definition op_input d := {| data := d; input := true; output := false; implicit := false |}.
(* [codegen/isa/ola/instruction/mod.rs | pub fn output(data] *)
Definition op_output d := {| data := d; input := false; output := true; implicit := false |}.
(* [codegen/isa/ola/instruction/mod.rs | pub fn implicit_output(data] *)
Definition op_implicit_output d := {| data := d; input := false; output := true; implicit := true |}.
(* [codegen/isa/ola/instruction/mod.rs | pub fn input_output(data] *)
Definition op_input_output d := {| data := d; input := true; output := true; implicit := false |}.

Definition vreg_of (d : OperandData) : option VReg := match d with OVReg v => Some v | _ => None end.
Definition reg_of (d : OperandData) : option Reg := match d with OReg r => Some r | _ => None end.

(* [codegen/isa/ola/instruction/mod.rs | fn input_vregs(] *)
Definition input_vregs (i : InstructionData) : list VReg :=
  omap (λ o, if input o then vreg_of (data o) else None) (operands i).
(* [codegen/isa/ola/instruction/mod.rs | fn input_vregs_with_indexes(] *)
Definition input_vregs_with_indexes (i : InstructionData) : list (nat * VReg) :=
  omap id (imap (λ k o, v ← if input o then vreg_of (data o) else None; Some (k, v)) (operands i)).
(* [codegen/isa/ola/instruction/mod.rs | fn output_vregs(] *)
Definition output_vregs (i : InstructionData) : list VReg :=
  omap (λ o, if output o then vreg_of (data o) else None) (operands i).
(* [codegen/isa/ola/instruction/mod.rs | fn all_vregs(] *)
Definition all_vregs (i : InstructionData) : list VReg := omap (λ o, vreg_of (data o)) (operands i).
(* [codegen/isa/ola/instruction/mod.rs | fn input_regs(] *)
Definition input_regs (i : InstructionData) : list Reg :=
  omap (λ o, if input o then reg_of (data o) else None) (operands i).
(* [codegen/isa/ola/instruction/mod.rs | fn output_regs(] *)
Definition output_regs (i : InstructionData) : list Reg :=
  omap (λ o, if output o then reg_of (data o) else None) (operands i).
(* [codegen/isa/ola/instruction/mod.rs | fn all_regs(] *)
Definition all_regs (i : InstructionData) : list Reg := omap (λ o, reg_of (data o)) (operands i).

Definition map_data (f : OperandData → OperandData) (o : Operand) : Operand :=
  {| data := f (data o); input := input o; output := output o; implicit := implicit o |}.

Definition subst_vreg (v : VReg) (d' d : OperandData) : OperandData :=
  match d with OVReg u => if decide (u = v) then d' else d | _ => d end.

(* [codegen/isa/ola/instruction/mod.rs | fn rewrite(] *)
Definition rewrite (i : InstructionData) (v : VReg) (r : Reg) : InstructionData :=
  {| opcode := opcode i; operands := map (map_data (subst_vreg v (OReg r))) (operands i) |}.

(* [codegen/isa/ola/instruction/mod.rs | fn replace_vreg(] *)
Definition replace_vreg_data (i : InstructionData) (self_id : InstructionId) (us : VRegUsers)
    (from to_ : VReg) : comp (InstructionData * VRegUsers) :=
  '(us, u) ← remove_use us from self_id;
  u ← unwrap u;
  Ret ({| opcode := opcode i; operands := map (map_data (subst_vreg from (OVReg to_))) (operands i) |},
       add_use us to_ self_id (read u) (write u)).

(* [codegen/isa/ola/instruction/mod.rs | fn block_at(] *)
Definition block_at (i : InstructionData) (k : nat) : option BasicBlockId :=
  o ← operands i !! k; match data o with OBlock b => Some b | _ => None end.
(* [codegen/isa/ola/instruction/mod.rs | fn is_copy(] *)
Definition is_copy (i : InstructionData) : bool := bool_decide (opcode i = MOVri ∨ opcode i = MOVrr).
(* [codegen/isa/ola/instruction/mod.rs | fn is_call(] *)
Definition is_call (i : InstructionData) : bool := bool_decide (opcode i = CALL).
(* [codegen/isa/ola/instruction/mod.rs | fn is_phi(] *)
Definition is_phi (i : InstructionData) : bool := bool_decide (opcode i = Phi).

(* [codegen/isa/ola/instruction/mod.rs | pub fn as_reg] *)
Definition as_reg (d : OperandData) : comp Reg := unwrap (reg_of d).
(* [codegen/isa/ola/instruction/mod.rs | pub fn as_vreg] *)
Definition as_vreg (d : OperandData) : comp VReg := unwrap (vreg_of d).
(* [codegen/isa/ola/instruction/mod.rs | pub fn as_block] *)
Definition as_block (d : OperandData) : comp BasicBlockId :=
  match d with OBlock b => Ret b | _ => Panic end.
(* [codegen/isa/ola/instruction/mod.rs | pub fn sext_as_i64] *)
Definition sext_as_i64 (d : OperandData) : option Z :=
  match d with Int64 i | Int32 i | Int8 i => Some i | _ => None end.

(* [codegen/function/instruction/mod.rs | pub struct Instruction<] *)
Record Instruction := { iid : option InstructionId; idata : InstructionData; parent : BasicBlockId }.

(* [codegen/function/instruction/mod.rs | pub fn new(data] *)
Definition new (d : InstructionData) (parent : BasicBlockId) : Instruction :=
  {| iid := None; idata := d; parent := parent |}.

(* [codegen/function/instruction/mod.rs | pub fn replace_vreg(] *)
Definition replace_vreg (i : Instruction) (us : VRegUsers) (from to_ : VReg) : comp (Instruction * VRegUsers) :=
  match iid i with
  | Some self => '(d, us) ← replace_vreg_data (idata i) self us from to_;
                 Ret ({| iid := iid i; idata := d; parent := parent i |}, us)
  | None => Ret (i, us)
  end.

End Inst.

Module Data.
Import Reg Inst.

(** The predecessors and successors are hash sets: the lists hold each element
    once, in the order the set iterates over them. *)
(* [codegen/function/basic_block/mod.rs | pub struct BasicBlock] *)
Record BasicBlock := { preds : list BasicBlockId; succs : list BasicBlockId }.

(** The arenas only grow, and an id is an index. *)
(* [codegen/function/data/mod.rs | pub struct Data] *)
Record Data := {
  instructions : list Instruction;
  basic_blocks : list BasicBlock;
  vregs : VRegs;
  vreg_users : VRegUsers;
  used_csr : gset RegUnit;
}.

(* [codegen/function/data/mod.rs | impl<Inst: TargetInst> Default for Data<Inst> >> fn default] *)
Definition new : Data :=
  {| instructions := []; basic_blocks := []; vregs := {| vmap := ∅; cur := 0 |};
     vreg_users := ∅; used_csr := ∅ |}.

Definition with_instructions l (d : Data) : Data :=
  {| instructions := l; basic_blocks := basic_blocks d; vregs := vregs d;
     vreg_users := vreg_users d; used_csr := used_csr d |}.
Definition with_vregs v (d : Data) : Data :=
  {| instructions := instructions d; basic_blocks := basic_blocks d; vregs := v;
     vreg_users := vreg_users d; used_csr := used_csr d |}.
Definition with_users u (d : Data) : Data :=
  {| instructions := instructions d; basic_blocks := basic_blocks d; vregs := vregs d;
     vreg_users := u; used_csr := used_csr d |}.

(* [codegen/function/data/mod.rs | pub fn create_block] *)
Definition create_block (d : Data) : Data * BasicBlockId :=
  ({| instructions := instructions d;
      basic_blocks := basic_blocks d ++ [{| preds := []; succs := [] |}];
      vregs := vregs d; vreg_users := vreg_users d; used_csr := used_csr d |},
   length (basic_blocks d)).

(** [m.entry(v).or_insert(ReadWrite(false, false))], then one flag is set. *)
Definition mark (set : bool * bool → bool * bool) (m : gmap VReg (bool * bool)) (v : VReg) :=
  <[v := set (default (false, false) (m !! v))]> m.

Definition read_write (i : InstructionData) : gmap VReg (bool * bool) :=
  foldl (mark (λ p, (p.1, true)))
    (foldl (mark (λ p, (true, p.2))) ∅ (input_vregs i)) (output_vregs i).

(* [codegen/function/data/mod.rs | pub fn create_inst] *)
Definition create_inst (d : Data) (i : Instruction) : Data * InstructionId :=
  let id := length (instructions d) in
  let i := {| iid := Some id; idata := idata i; parent := parent i |} in
  let us := foldl (λ us '(v, (r, w)), add_use us v id r w) (vreg_users d)
                  (map_to_list (read_write (idata i))) in
  (with_users us (with_instructions (instructions d ++ [i]) d), id).

(* [codegen/function/data/mod.rs | pub fn inst_ref(] *)
Definition inst_ref (d : Data) (id : InstructionId) : comp Instruction := unwrap (instructions d !! id).
(* [codegen/function/data/mod.rs | pub fn block_ref(] *)
Definition block_ref (d : Data) (b : BasicBlockId) : comp BasicBlock := unwrap (basic_blocks d !! b).

(** [*self.inst_ref_mut(id) = i] *)
Definition set_inst (d : Data) (id : InstructionId) (i : Instruction) : Data :=
  with_instructions (<[id := i]> (instructions d)) d.

(** [self.instructions[id].replace_vreg(&mut self.vreg_users, from, to)] *)
Definition replace_vreg_at (d : Data) (id : InstructionId) (from to_ : VReg) : comp Data :=
  i ← inst_ref d id;
  '(i, us) ← replace_vreg i (vreg_users d) from to_;
  Ret (with_users us (set_inst d id i)).

(** ** The table of users says what the instructions say *)

(** What the table should hold about [v] and the instruction [id]. *)
Definition expected (d : Data) (v : VReg) (id : InstructionId) : list VRegUser :=
  match instructions d !! id with
  | None => []
  | Some i =>
      let r := bool_decide (v ∈ input_vregs (idata i)) in
      let w := bool_decide (v ∈ output_vregs (idata i)) in
      if r || w then [{| inst_id := id; read := r; write := w |}] else []
  end.

Definition recorded (us : VRegUsers) (v : VReg) (id : InstructionId) : list VRegUser :=
  filter (λ u, inst_id u = id) (default [] (us !! v)).

Record users_ok (d : Data) : Prop := {
  users_recorded : ∀ v id, recorded (vreg_users d) v id = expected d v id;
  users_ids : ∀ id i, instructions d !! id = Some i → iid i = Some id;
}.

Lemma recorded_add_use us v i r w v' id :
  recorded (add_use us v i r w) v' id
  = recorded us v' id ++ (if decide (v' = v ∧ id = i) then [{| inst_id := i; read := r; write := w |}] else []).
Proof.
  unfold recorded, add_use. destruct (decide (v' = v)) as [->|Hne].
  - rewrite lookup_insert_eq. cbn. rewrite filter_app. f_equal.
    destruct (decide (id = i)) as [->|Hi].
    + rewrite filter_cons_True by done. by rewrite decide_True.
    + rewrite filter_cons_False by (cbn; congruence). by rewrite decide_False by naive_solver.
  - rewrite lookup_insert_ne by congruence. rewrite decide_False by naive_solver. by rewrite app_nil_r.
Qed.

Lemma mark_lookup f l m v :
  (∀ p, f (f p) = f p) →
  foldl (mark f) m l !! v
  = if decide (v ∈ l) then Some (f (default (false, false) (m !! v))) else m !! v.
Proof.
  intros Hf. revert m. induction l as [|u l IH]; intros m; cbn [foldl].
  { by rewrite decide_False by set_solver. }
  rewrite IH. unfold mark. destruct (decide (u = v)) as [->|Hne].
  - rewrite lookup_insert_eq; cbn. rewrite (decide_True (P := v ∈ v :: l)) by set_solver.
    rewrite Hf. by case_decide.
  - rewrite lookup_insert_ne by done.
    destruct (decide (v ∈ l)); [rewrite decide_True by set_solver|rewrite decide_False by set_solver]; done.
Qed.

Lemma read_write_lookup i v :
  read_write i !! v =
  let r := bool_decide (v ∈ input_vregs i) in
  let w := bool_decide (v ∈ output_vregs i) in
  if r || w then Some (r, w) else None.
Proof.
  unfold read_write. rewrite !mark_lookup by done. rewrite lookup_empty. cbn.
  repeat case_decide; repeat case_bool_decide; try done.
Qed.

Lemma recorded_add_uses l us id v j :
  NoDup l.*1 → 
  recorded (foldl (λ us '(v, (r, w)), add_use us v id r w) us l) v j
  = recorded us v j ++ match (list_to_map l : gmap VReg (bool * bool)) !! v with
                       | Some (r, w) => if decide (j = id) then [{| inst_id := id; read := r; write := w |}] else []
                       | None => [] end.
Proof.
  revert us. induction l as [|[u [r w]] l IH]; intros us Hn; cbn [foldl].
  { cbn. by rewrite lookup_empty, app_nil_r. }
  cbn in Hn. apply NoDup_cons in Hn as [Hu Hn]. rewrite IH by done.
  rewrite recorded_add_use, <-app_assoc, list_to_map_cons. f_equal.
  destruct (decide (u = v)) as [->|Hne].
  - rewrite lookup_insert_eq, not_elem_of_list_to_map_1 by done. rewrite app_nil_r.
    destruct (decide (j = id)); [by rewrite decide_True|by rewrite decide_False by naive_solver].
  - rewrite lookup_insert_ne by done. by rewrite decide_False by naive_solver.
Qed.

Lemma create_inst_users d i d' id :
  users_ok d → create_inst d i = (d', id) → users_ok d' ∧ inst_ref d' id
    = Ret {| iid := Some id; idata := idata i; parent := parent i |}.
Proof.
  intros [Hr Hi] H. injection H as <- <-. split; cycle 1.
  { unfold inst_ref; cbn. by rewrite list_lookup_middle. }
  constructor; cbn.
  - intros v j. rewrite recorded_add_uses by apply NoDup_fst_map_to_list.
    rewrite list_to_map_to_list, Hr, read_write_lookup. unfold expected; cbn.
    destruct (decide (j = length (instructions d))) as [->|Hne].
    + rewrite lookup_ge_None_2 by lia. rewrite list_lookup_middle by done. cbn.
      by destruct (_ || _).
    + assert (Hl : (instructions d ++ [{| iid := Some (length (instructions d)); idata := idata i;
        parent := parent i |}]) !! j = instructions d !! j).
      { destruct (decide (j < length (instructions d))%nat).
        - by rewrite lookup_app_l.
        - rewrite !lookup_ge_None_2; rewrite ?length_app; cbn; lia || done. }
      rewrite Hl. destruct (_ || _); by rewrite app_nil_r.
  - intros j k [Hk|[Hlen Hk]]%lookup_app_Some; [by apply Hi|].
    destruct (j - length (instructions d))%nat eqn:E; cbn in Hk; [|done].
    injection Hk as <-. cbn. f_equal. lia.
Qed.

Lemma remove_use_recorded us v id u :
  recorded us v id = [u] →
  ∃ us', remove_use us v id = Ret (us', Some u)
    ∧ ∀ v' j, recorded us' v' j = if decide (v' = v ∧ j = id) then [] else recorded us v' j.
Proof.
  intros Hu. destruct (us !! v) as [l|] eqn:Hl; [|unfold recorded in Hu; by rewrite Hl in Hu].
  unfold recorded in Hu. rewrite Hl in Hu. cbn in Hu. unfold remove_use. rewrite Hl. cbn.
  destruct (list_find _ l) as [[k u']|] eqn:Hf.
  - apply list_find_Some in Hf as (Hk & Hid & Hbefore).
    apply list_elem_of_split_length in Hk as (l1 & l2 & -> & ->).
    rewrite filter_app, filter_cons_True in Hu by done.
    assert (H1 : filter (λ u, inst_id u = id) l1 = []).
    { destruct (filter _ l1) as [|x k] eqn:E; [done|]. exfalso.
      assert (x ∈ filter (λ u, inst_id u = id) l1) as [Hx Hin]%list_elem_of_filter by (rewrite E; by left).
      apply list_elem_of_lookup in Hin as [m Hm]. pose proof (lookup_lt_Some _ _ _ Hm).
      eapply (Hbefore m); [|done|done]. by apply lookup_app_l_Some. }
    rewrite H1 in Hu. cbn in Hu. injection Hu as -> H2. eexists; split; [reflexivity|].
    intros v' j. unfold recorded. rewrite delete_middle.
    destruct (decide (v' = v)) as [->|Hne]; [|rewrite lookup_insert_ne, decide_False by naive_solver; done].
    rewrite lookup_insert_eq, Hl. cbn. rewrite !filter_app.
    destruct (decide (j = id)) as [->|Hj].
    + rewrite decide_True by done. by rewrite H1, H2.
    + rewrite decide_False by naive_solver. by rewrite filter_cons_False by congruence.
  - exfalso. apply list_find_None in Hf. rewrite Forall_forall in Hf.
    assert (u ∈ filter (λ u, inst_id u = id) l) as [Hx Hin]%list_elem_of_filter by (rewrite Hu; by left).
    by apply (Hf u).
Qed.

(** The virtual registers that a selection of the operands holds. *)
Lemma selected_subst (f : Operand → bool) from to_ (os : list Operand) v :
  (∀ s o, f (map_data s o) = f o) →
  to_ ∉ omap (λ o, vreg_of (data o)) os →
  to_ ≠ from →
  v ∈ omap (λ o, if f o then vreg_of (data o) else None) (map (map_data (subst_vreg from (OVReg to_))) os)
  ↔ (v ≠ from ∧ v ∈ omap (λ o, if f o then vreg_of (data o) else None) os)
    ∨ (v = to_ ∧ from ∈ omap (λ o, if f o then vreg_of (data o) else None) os).
Proof.
  intros Hf Hto Hne. rewrite !list_elem_of_omap. setoid_rewrite list_elem_of_omap in Hto.
  split.
  - intros (o' & (o & -> & Ho)%list_elem_of_fmap & Hv). rewrite Hf in Hv.
    destruct (f o) eqn:Hfo; [|done]. cbn in Hv.
    destruct (data o) as [|u| | | | | | | | |] eqn:Hd; cbn in Hv; try done.
    case_decide; cbn in Hv; injection Hv as <-; subst.
    + right. split; [done|]. exists o. by rewrite Hfo, Hd.
    + left. split; [done|]. exists o. by rewrite Hfo, Hd.
  - intros [[Hvf (o & Ho & Hv)]|[-> (o & Ho & Hv)]]; destruct (f o) eqn:Hfo; try done;
      destruct (data o) as [|u| | | | | | | | |] eqn:Hd; try done; cbn in Hv; injection Hv as ->;
      (exists (map_data (subst_vreg from (OVReg to_)) o);
       split; [apply list_elem_of_fmap; by exists o|]); rewrite Hf, Hfo; cbn; rewrite Hd; cbn.
    + by rewrite decide_False.
    + by rewrite decide_True.
Qed.

Lemma selected_subst_b (f : Operand → bool) from to_ (os : list Operand) v :
  (∀ s o, f (map_data s o) = f o) →
  to_ ∉ omap (λ o, vreg_of (data o)) os →
  to_ ≠ from →
  bool_decide (v ∈ omap (λ o, if f o then vreg_of (data o) else None)
                     (map (map_data (subst_vreg from (OVReg to_))) os))
  = if decide (v = from) then false
    else bool_decide ((if decide (v = to_) then from else v)
                        ∈ omap (λ o, if f o then vreg_of (data o) else None) os).
Proof.
  intros Hf Hto Hne. rewrite (bool_decide_ext _ _ (selected_subst f from to_ os v Hf Hto Hne)).
  assert (to_ ∉ omap (λ o, if f o then vreg_of (data o) else None) os).
  { intros (o & Ho & Hv)%list_elem_of_omap. apply Hto, list_elem_of_omap.
    exists o. split; [done|]. by destruct (f o). }
  destruct (decide (v = from)) as [->|]; [apply bool_decide_false; naive_solver|].
  apply bool_decide_ext. destruct (decide (v = to_)) as [->|]; tauto.
Qed.

(** Renaming one virtual register of an instruction to one it does not use. *)
Lemma replace_vreg_at_users d id i from to_ :
  users_ok d → instructions d !! id = Some i →
  from ∈ input_vregs (idata i) ∨ from ∈ output_vregs (idata i) →
  to_ ∉ all_vregs (idata i) →
  ∃ d', replace_vreg_at d id from to_ = Ret d' ∧ users_ok d'
    ∧ instructions d' = <[id := {| iid := Some id; parent := parent i;
        idata := {| opcode := opcode (idata i);
                    operands := map (map_data (subst_vreg from (OVReg to_))) (operands (idata i)) |} |}]>
        (instructions d)
    ∧ vregs d' = vregs d.
Proof.
  intros [Hr Hi] Hl Hfrom Hto.
  assert (Hne : to_ ≠ from).
  { intros ->. apply Hto. unfold all_vregs, input_vregs, output_vregs in *.
    rewrite !list_elem_of_omap in *. destruct Hfrom as [(o & Ho & Hv)|(o & Ho & Hv)];
      exists o; (split; [done|]); destruct (_ o); done. }
  assert (Hrec : recorded (vreg_users d) from id =
    [{| inst_id := id; read := bool_decide (from ∈ input_vregs (idata i));
        write := bool_decide (from ∈ output_vregs (idata i)) |}]).
  { rewrite Hr. unfold expected. rewrite Hl. destruct Hfrom as [H|H].
    - by rewrite (bool_decide_true (from ∈ input_vregs _)).
    - rewrite (bool_decide_true (from ∈ output_vregs _)) by done. by rewrite orb_true_r. }
  apply remove_use_recorded in Hrec as (us' & Hus & Hrec).
  unfold replace_vreg_at, inst_ref. rewrite Hl. cbn. unfold replace_vreg. rewrite (Hi _ _ Hl). cbn.
  unfold replace_vreg_data. rewrite Hus. cbn. eexists; split; [reflexivity|]. split; [|done].
  pose proof (lookup_lt_Some _ _ _ Hl) as Hlt. constructor; cbn.
  - intros v j. rewrite recorded_add_use, Hrec, Hr. unfold expected; cbn.
    destruct (decide (j = id)) as [->|Hj]; cycle 1.
    { rewrite list_lookup_insert_ne by done. rewrite !decide_False by naive_solver. by rewrite app_nil_r. }
    rewrite list_lookup_insert_eq by done. rewrite Hl. cbn.
    unfold input_vregs, output_vregs in *; cbn.
    rewrite !selected_subst_b by done.
    destruct (decide (v = from)) as [->|Hvf].
    + rewrite decide_True by done. by rewrite decide_False by naive_solver.
    + rewrite (decide_False (P := v = from ∧ _)) by naive_solver.
      destruct (decide (v = to_)) as [->|Hvt].
      * rewrite decide_True by done.
        assert (∀ f : Operand → bool, to_ ∉ omap (λ o, if f o then vreg_of (data o) else None) (operands (idata i))) as Hn.
        { intros f (o & Ho & Hv)%list_elem_of_omap. apply Hto, list_elem_of_omap.
          exists o. split; [done|]. by destruct (f o). }
        rewrite (bool_decide_false _ (Hn input)), (bool_decide_false _ (Hn output)). cbn.
        destruct Hfrom as [Hfr|Hfr]; rewrite (bool_decide_true _ Hfr); [done|by rewrite orb_true_r].
      * rewrite decide_False by naive_solver. by rewrite app_nil_r.
  - intros j k Hk. destruct (decide (j = id)) as [->|Hj].
    + rewrite list_lookup_insert_eq in Hk by done. by injection Hk as <-.
    + rewrite list_lookup_insert_ne in Hk by done. by apply Hi.
Qed.

End Data.
