(* ===== verification/MFunction.v ===== *)
(** Machine functions: the stack slots of a function
    (codegen/function/slot/mod.rs), the function record
    (codegen/function/mod.rs) and the instructions that move a virtual register
    to and from a slot (codegen/isa/ola/instruction/mod.rs). *)
From S2P Require Import Prelude LinkedLayout IrTypes Machine.

Module Slots.
Local Open Scope Z_scope.

(* [codegen/function/slot/mod.rs | pub struct Slot ] *)
Record Slot := {
  size : Z;
  ty : IrTypes.Type_;
  num_elements : Z;
  align : Z;
  offset : Z;
}.

(* [codegen/function/slot/mod.rs | pub struct Slots] *)
Record Slots := { arena : list Slot; aligned_size : Z }.

(* [codegen/function/slot/mod.rs | pub fn new(isa] *)
Definition new : Slots := {| arena := []; aligned_size := 0 |}.

(* [codegen/function/slot/mod.rs | pub fn add_slot] *)
Definition add_slot (ss : Slots) (ty : IrTypes.Type_) (size align : Z) : Slots * nat :=
  ({| arena := arena ss ++ [{| size := size; ty := ty; num_elements := 0; align := align; offset := 0 |}];
      aligned_size := 0 |}, length (arena ss)).

(* [codegen/function/slot/mod.rs | pub fn get(&self] *)
Definition get (ss : Slots) (id : nat) : comp Slot := unwrap (arena ss !! id).

(* [codegen/function/slot/mod.rs | pub fn unaligned_size] *)
Definition unaligned_size (ss : Slots) : comp Z := foldM (λ t s, u32 (t + size s)) 0 (arena ss).

(* [codegen/function/slot/mod.rs | fn is_aligned] *)
Definition is_aligned (align offset : Z) : comp bool :=
  if align =? 0 then Panic else Ret (offset mod align =? 0).

(* [codegen/function/slot/mod.rs | fn align_to] *)
Definition align_to (offset align : Z) : comp Z :=
  _ ← u32 (offset + align); _ ← u32 (align - 1); Ret (align_up offset align).

Definition rounded (offset align : Z) : comp Z :=
  b ← is_aligned align offset; if (b : bool) then Ret offset else align_to offset align.

(** One slot: [(offset, align)] so far and the slots already placed. *)
(* [codegen/function/slot/mod.rs | 66-73 | ensure_computed_offsets] *)
Definition place (st : Z * Z * list Slot) (s : Slot) : comp (Z * Z * list Slot) :=
  let '(off, al, done_) := st in
  off ← rounded off (align s);
  off ← u32 (off + size s);
  Ret (off, Z.max al (align s),
       done_ ++ [{| size := size s; ty := ty s; num_elements := num_elements s;
                    align := align s; offset := off |}]).

(** Nothing writes [aligned_size] but with 0, so the offsets are computed each time. *)
(* [codegen/function/slot/mod.rs | pub fn ensure_computed_offsets] *)
Definition ensure_computed_offsets (ss : Slots) : comp (Slots * Z) :=
  if negb (aligned_size ss =? 0) then Ret (ss, aligned_size ss)
  else
    '(off, al, slots) ← foldM place (0, 1, []) (arena ss);
    off ← rounded off al;
    Ret ({| arena := slots; aligned_size := aligned_size ss |}, off).

(** ** Where the slots are: [s] occupies [offset s - size s, offset s). *)
Definition base (s : Slot) : Z := offset s - size s.

Definition pow2 := IrTypes.DataLayout.pow2.

(** The slots placed so far are below [top], in order, and aligned. *)
Record stacked (ss : list Slot) (top : Z) : Prop := {
  stacked_order : ∀ i j s t, (i < j)%nat → ss !! i = Some s → ss !! j = Some t → offset s ≤ base t;
  stacked_in : ∀ s, s ∈ ss → 0 ≤ base s ∧ offset s ≤ top;
  stacked_aligned : ∀ s, s ∈ ss → pow2 (align s) → (align s | base s);
}.

Lemma rounded_Ret o a r :
  rounded o a = Ret r → 0 ≤ o → 0 ≤ a →
  r = round_to o a ∧ 1 ≤ a ∧ o ≤ r ∧ r ≤ o + a - 1.
Proof.
  unfold rounded, is_aligned, align_to. intros H Ho Ha.
  destruct (Z.eqb_spec a 0); cbn in H; [done|].
  pose proof (round_to_bounds o a Ho ltac:(lia)). unfold round_to in *.
  destruct (o mod a =? 0); cbn in H; comp_inv; split_and!; try done; lia.
Qed.

Lemma stacked_snoc ss top s :
  stacked ss top → top ≤ base s → 0 ≤ base s → (pow2 (align s) → (align s | base s)) → 0 ≤ size s →
  stacked (ss ++ [s]) (offset s).
Proof.
  intros [Ho Hi Ha] Ht Hb Hal Hs. constructor.
  - intros i j u v Hij Hu Hv. apply lookup_app_Some in Hv as [Hv|[Hlen Hv]].
    + rewrite lookup_app_l in Hu; [by eapply Ho|]. apply lookup_lt_Some in Hv. lia.
    + destruct (j - length ss)%nat eqn:E; cbn in Hv; [|done]. injection Hv as <-.
      rewrite lookup_app_l in Hu by lia. apply list_elem_of_lookup_2 in Hu.
      destruct (Hi _ Hu). lia.
  - intros u [Hu|Hu]%elem_of_app.
    + destruct (Hi _ Hu). unfold base in *. lia.
    + apply list_elem_of_singleton in Hu as ->. lia.
  - intros u [Hu|Hu]%elem_of_app; [by apply Ha|]. by apply list_elem_of_singleton in Hu as ->.
Qed.

Definition valid (s : Slot) : Prop := 0 ≤ size s ∧ 0 ≤ align s.

(** What placing does to a slot: only the offset changes. *)
Definition same_slot (s t : Slot) : Prop :=
  size s = size t ∧ ty s = ty t ∧ num_elements s = num_elements t ∧ align s = align t.

Lemma place_stacked l off al ss off' al' ss' :
  Forall valid l → stacked ss off → 0 ≤ off → 1 ≤ al →
  foldM place (off, al, ss) l = Ret (off', al', ss') →
  ∃ placed, ss' = ss ++ placed ∧ Forall2 same_slot l placed ∧ stacked ss' off' ∧ 0 ≤ off' ∧ 1 ≤ al'.
Proof.
  revert off al ss. induction l as [|s l IH]; cbn [foldM]; intros off al ss Hv Hst Ho Hal H.
  - injection H as <- <- <-. exists []. rewrite app_nil_r. by split_and!.
  - apply Forall_cons in Hv as [[Hs Ha] Hv].
    apply bind_Ret in H as ([[o a] k] & Hp & H). unfold place in Hp.
    apply bind_Ret in Hp as (r & Hr & Hp). apply bind_Ret in Hp as (n & Hn & Hp).
    apply u32_Ret in Hn as [-> Hn]. injection Hp as <- <- <-.
    apply rounded_Ret in Hr as (-> & Ha1 & Hle & _); [|done..].
    eapply IH in H as (placed & -> & Hf & ? & ? & ?); [|done| |lia|lia].
    + eexists (_ :: placed). split; [by rewrite <-app_assoc|]. split_and!; [|done..].
      constructor; [by split_and!|done].
    + set (s' := {| size := size s; ty := ty s; num_elements := num_elements s; align := align s;
                    offset := round_to off (align s) + size s |}).
      change (round_to off (align s) + size s) with (offset s').
      assert (Hb : base s' = round_to off (align s)) by (unfold base; cbn; lia).
      apply (stacked_snoc _ off); rewrite ?Hb; cbn; [done|lia|lia| |lia].
      intros (m & Hm & ->). by apply round_to_pow2.
Qed.

Lemma slots_placed (ss ss' : Slots) (total : Z) :
  aligned_size ss = 0 → Forall valid (arena ss) →
  ensure_computed_offsets ss = Ret (ss', total) →
  Forall2 same_slot (arena ss) (arena ss')
  ∧ (∀ i j s t, (i < j)%nat → arena ss' !! i = Some s → arena ss' !! j = Some t → offset s ≤ base t)
  ∧ (∀ s, s ∈ arena ss' → 0 ≤ base s ∧ offset s ≤ total ∧ (pow2 (align s) → (align s | base s)))
  ∧ ensure_computed_offsets ss' = Ret (ss', total).
Proof.
  intros Hz Hv H. unfold ensure_computed_offsets in H. rewrite Hz in H. cbn [negb Z.eqb] in H.
  apply bind_Ret in H as ([[o a] k] & Hp & H). apply bind_Ret in H as (tot & Ht & [= <- <-]).
  pose proof Hp as Hp'.
  apply place_stacked in Hp as (placed & -> & Hf & [Ho Hi Ha] & ? & ?); [|done| |lia|lia]; cycle 1.
  { constructor; [intros ???? _ Hx; by rewrite lookup_nil in Hx|set_solver|set_solver]. }
  pose proof Ht as Ht'. apply rounded_Ret in Ht as (-> & _ & ? & _); [|lia..]. cbn in *.
  split_and!; [done|done| |].
  - intros s Hs. destruct (Hi s Hs). split_and!; [done|lia|by apply Ha].
  - unfold ensure_computed_offsets; cbn.
    assert (Hagain : ∀ l l' st, Forall2 same_slot l l' → foldM place st l' = foldM place st l).
    { clear. intros l l' st Hf. revert st. induction Hf as [|s t l l' (E1 & E2 & E3 & E4) _ IH]; intros st; [done|].
      cbn [foldM]. replace (place st t) with (place st s); [destruct (place st s); cbn; auto|].
      unfold place. destruct st as [[? ?] ?]. by rewrite E1, E2, E3, E4. }
    rewrite (Hagain _ _ _ Hf), Hp'. cbn. by rewrite Ht'.
Qed.

Lemma total_nonneg ss ss' total :
  aligned_size ss = 0 → Forall valid (arena ss) →
  ensure_computed_offsets ss = Ret (ss', total) → 0 ≤ total.
Proof.
  intros Hz Hv H. unfold ensure_computed_offsets in H. rewrite Hz in H. cbn [negb Z.eqb] in H.
  apply bind_Ret in H as ([[o a] k] & Hp & H). apply bind_Ret in H as (tot & Ht & [= <- <-]).
  apply place_stacked in Hp as (placed & -> & _ & _ & ? & ?); [|done| |lia|lia]; cycle 1.
  { constructor; [intros ???? _ Hx; by rewrite lookup_nil in Hx|set_solver|set_solver]. }
  apply rounded_Ret in Ht as (-> & _ & ? & _); lia.
Qed.

(** Computing the slot offsets changes nothing of the slots but the offsets;
    the slots then occupy disjoint intervals in order inside the total size,
    each aligned to its alignment when that is a power of two, and computing
    them again gives the same result. *)
Theorem slots_do_not_overlap (ss ss' : Slots) (total : Z) :
  aligned_size ss = 0 → Forall valid (arena ss) →
  ensure_computed_offsets ss = Ret (ss', total) →
  Forall2 same_slot (arena ss) (arena ss')
  ∧ (∀ i j s t, (i < j)%nat → arena ss' !! i = Some s → arena ss' !! j = Some t → offset s ≤ base t)
  ∧ (∀ s, s ∈ arena ss' → 0 ≤ base s ∧ offset s ≤ total ∧ (pow2 (align s) → (align s | base s)))
  ∧ ensure_computed_offsets ss' = Ret (ss', total).
Proof. apply slots_placed. Qed.

Lemma slots_do_not_overlap_witness :
  let ss := fst (add_slot (fst (add_slot (fst (add_slot new IrTypes.I8 1 1)) IrTypes.I64 4 4)) IrTypes.I16 2 2) in
  ∃ ss' total, ensure_computed_offsets ss = Ret (ss', total)
  ∧ map offset (arena ss') = [1; 8; 10] ∧ total = 12
  ∧ Forall2 same_slot (arena ss) (arena ss')
  ∧ (∀ i j s t, (i < j)%nat → arena ss' !! i = Some s → arena ss' !! j = Some t → offset s ≤ base t)
  ∧ (∀ s, s ∈ arena ss' → 0 ≤ base s ∧ offset s ≤ total ∧ (pow2 (align s) → (align s | base s)))
  ∧ ensure_computed_offsets ss' = Ret (ss', total).
Proof.
  do 2 eexists. split; [reflexivity|]. split; [reflexivity|]. split; [reflexivity|].
  eapply slots_do_not_overlap; [reflexivity| |reflexivity]. repeat constructor; done.
Defined.

End Slots.

Module Func.
Import Reg Inst Data.
Local Open Scope Z_scope.

(** [ir] and [isa] are shared references that the passes only read; the ISA's
    data layout is [IrTypes.DataLayout]. *)
(* [codegen/function/mod.rs | pub struct Function] *)
Record Function := {
  fdata : Data.Data;
  layout : Layout.Layout;
  slots : Slots.Slots;
  types : IrTypes.TypesBase;
  is_declaration : bool;
  call_conv : CallConvKind;
}.

Definition with_data d (f : Function) : Function :=
  {| fdata := d; layout := layout f; slots := slots f; types := types f;
     is_declaration := is_declaration f; call_conv := call_conv f |}.
Definition with_layout l (f : Function) : Function :=
  {| fdata := fdata f; layout := l; slots := slots f; types := types f;
     is_declaration := is_declaration f; call_conv := call_conv f |}.
Definition with_slots s (f : Function) : Function :=
  {| fdata := fdata f; layout := layout f; slots := s; types := types f;
     is_declaration := is_declaration f; call_conv := call_conv f |}.

(* [codegen/function/mod.rs | pub fn remove_inst] *)
Definition remove_inst (f : Function) (i : InstructionId) : comp Function :=
  r ← Layout.remove_inst (layout f) i; Ret (with_layout r.1 f).

(** The instruction with its id, in the order the loops
    [for block_id in function.layout.block_iter() { for inst_id in function.layout.inst_iter(block_id) .. }]
    visit them. *)
Definition insts_of_block (f : Function) (b : BasicBlockId) : comp (list (InstructionId * Instruction)) :=
  is_ ← Layout.inst_iter (layout f) b;
  mapM_c (λ i, inst ← inst_ref (fdata f) i; Ret (i, inst)) is_.

Definition all_insts (f : Function) : comp (list (BasicBlockId * InstructionId * Instruction)) :=
  bs ← Layout.block_iter (layout f);
  ls ← mapM_c (λ b, l ← insts_of_block f b; Ret (map (λ p, (b, p.1, p.2)) l)) bs;
  Ret (concat ls).

(** Types of a function are finite: sizes need no more fuel than there are types. *)
Definition size_fuel (f : Function) : nat := length (IrTypes.compound_types (types f)).

(* [codegen/isa/ola/instruction/mod.rs | fn store_vreg_to_slot] *)
Definition store_vreg_to_slot (f : Function) (v : VReg) (slot : nat) (b : BasicBlockId) : comp Instruction :=
  ty ← type_for (vregs (fdata f)) v;
  sz ← IrTypes.DataLayout.get_size_of (size_fuel f) (types f) ty;
  _ ← assert_c (sz =? 4);
  Ret (Inst.new {| opcode := MSTOREr;
    operands := [op_new MemStart; op_new ONone; op_new (OSlot slot); op_new ONone;
                 op_input ONone; op_input ONone; op_new ONone; op_input (OVReg v)] |} b).

(** The assertion admits 8 as well, which [unreachable!] then refuses. *)
(* [codegen/isa/ola/instruction/mod.rs | fn load_from_slot] *)
Definition load_from_slot (f : Function) (v : VReg) (slot : nat) (b : BasicBlockId) : comp Instruction :=
  ty ← type_for (vregs (fdata f)) v;
  sz ← IrTypes.DataLayout.get_size_of (size_fuel f) (types f) ty;
  _ ← assert_c ((sz =? 4) || (sz =? 8));
  opc ← (if sz =? 4 then Ret MLOADr else Panic);
  Ret (Inst.new {| opcode := opc;
    operands := [op_output (OVReg v); op_new MemStart; op_new ONone; op_new (OSlot slot); op_new ONone;
                 op_input ONone; op_input ONone; op_new ONone] |} b).

(** ** A function from its blocks, for the examples

    The instructions are numbered in the order of the blocks; each block comes
    with its predecessors. *)
Definition number (blocks : list (list InstructionData)) : list (list InstructionId) :=
  imap (λ b l, seq (length (concat (take b blocks))) (length l)) blocks.

Definition build_ops (blocks : list (list InstructionData)) : list LayoutSpec.op :=
  map LayoutSpec.AppendBlock (seq 0 (length blocks))
  ++ concat (imap (λ b l, map (λ i, LayoutSpec.AppendInst i b) l) (number blocks)).

Definition vreg_count (blocks : list (list InstructionData)) : nat :=
  max_list (map S (concat (map (λ l, concat (map all_vregs l)) blocks))).

Definition build (preds_ : list (list BasicBlockId)) (blocks : list (list InstructionData)) : Function :=
  let d := foldl (λ d i, fst (create_inst d i)) Data.new
    (concat (imap (λ b l, map (λ i, Inst.new i b) l) blocks)) in
  {| fdata := {| instructions := instructions d;
                 basic_blocks := map (λ l, {| preds := l; succs := [] |}) preds_;
                 vregs := {| vmap := list_to_map (map (λ v, (v, IrTypes.I64)) (seq 0 (vreg_count blocks)));
                             cur := vreg_count blocks |};
                 vreg_users := vreg_users d; used_csr := used_csr d |};
     layout := match foldM LayoutSpec.step Layout.new (build_ops blocks) with
               | Ret L => L | _ => Layout.new end;
     slots := Slots.new; types := IrTypes.new 1; is_declaration := false; call_conv := SystemV |}.

Definition built (blocks : list (list InstructionData)) : LayoutSpec.seq_layout :=
  {| LayoutSpec.order := imap (λ b l, (b, l)) (number blocks); LayoutSpec.removed := ∅ |}.

Lemma build_rep preds_ blocks :
  LayoutSpec.spec_run {| LayoutSpec.order := []; LayoutSpec.removed := ∅ |} (build_ops blocks) = Some (built blocks) →
  LayoutSpec.rep (layout (build preds_ blocks)) (built blocks).
Proof. intros H. destruct (LayoutSpec.run_refines _ _ H) as (L & HL & HR). cbn. by rewrite HL. Qed.

End Func.
