(* ===== verification/Liveness.v ===== *)
(** Liveness of registers (codegen/pass/liveness.rs): which registers are live
    into and out of each block, the program points of the instructions, and the
    live ranges built from both.  [analyze_function] is modelled whole, with
    the maps the code keeps; hash maps are [gmap]s, and the sets the code
    iterates over only feed updates of distinct keys. *)
From Stdlib Require Import Sorted.
From S2P Require Import Prelude LinkedLayout IrTypes Machine MFunction.

Module Points.
Local Open Scope Z_scope.

(** A block number and an index in the block, both [u32]. *)
(* [codegen/pass/liveness.rs | 44-45 | ProgramPoint] *)
Record ProgramPoint := pp { blk : Z; idx : Z }.

#[global] Instance pp_eq_dec : EqDecision ProgramPoint.
Proof. solve_decision. Defined.

(* [codegen/pass/liveness.rs | const STEP | STEP] *)
Definition STEP : Z := 16.

(* [codegen/pass/liveness.rs | impl PartialOrd for ProgramPoint >> fn partial_cmp | ProgramPoint::partial_cmp] *)
Definition cmp (a b : ProgramPoint) : comparison :=
  if blk a <? blk b then Lt else if blk b <? blk a then Gt
  else if idx a <? idx b then Lt else if idx a =? idx b then Eq else Gt.

Definition ltb (a b : ProgramPoint) : bool := match cmp a b with Lt => true | _ => false end.
Definition leb (a b : ProgramPoint) : bool := match cmp a b with Gt => false | _ => true end.

(** The order the comparison decides. *)
Definition lt (a b : ProgramPoint) : Prop := blk a < blk b ∨ (blk a = blk b ∧ idx a < idx b).

Lemma cmp_spec a b : CompareSpec (a = b) (lt a b) (lt b a) (cmp a b).
Proof.
  destruct a as [a1 a2], b as [b1 b2]. unfold cmp, lt; cbn.
  destruct (Z.ltb_spec a1 b1); [constructor; lia|].
  destruct (Z.ltb_spec b1 a1); [constructor; lia|].
  destruct (Z.ltb_spec a2 b2); [constructor; lia|].
  destruct (Z.eqb_spec a2 b2); constructor; [f_equal; lia|lia].
Qed.

Lemma ltb_lt a b : ltb a b = true ↔ lt a b.
Proof.
  unfold ltb. destruct (cmp_spec a b); unfold lt in *; subst; split; intros; try done; lia.
Qed.

Lemma leb_le a b : leb a b = true ↔ ¬ lt b a.
Proof.
  unfold leb. destruct (cmp_spec a b); unfold lt in *; subst; split; intros; try done; try lia.
Qed.

#[global] Instance lt_strict : StrictOrder lt.
Proof. split; [intros [] H|intros [] [] []]; unfold lt in *; cbn in *; lia. Qed.

(** The sum is computed in [u32]. *)
(* [codegen/pass/liveness.rs | pub fn between] *)
Definition between (prev next : ProgramPoint) : comp (option ProgramPoint) :=
  if negb (blk prev =? blk next) then Ret None
  else if idx next <? idx prev then Ret None
  else if idx next - idx prev <=? 1 then Ret None
  else s ← u32 (idx next + idx prev); Ret (Some (pp (blk prev) (s / 2))).

(* [codegen/pass/liveness.rs | pub struct LiveSegment] *)
Record LiveSegment := { start : ProgramPoint; end_ : ProgramPoint }.

(** [LiveRange(pub Vec<LiveSegment>)]; the segments are meant to be sorted by [start]. *)
Abbreviation LiveRange := (list LiveSegment).

(* [codegen/pass/liveness.rs | pub fn new_point] *)
Definition new_point (p : ProgramPoint) : LiveSegment := {| start := p; end_ := p |}.

(* [codegen/pass/liveness.rs | impl LiveSegment >> pub fn interfere | LiveSegment::interfere] *)
Definition seg_interfere (a b : LiveSegment) : bool := ltb (start a) (end_ b) && ltb (start b) (end_ a).

(* [codegen/pass/liveness.rs | pub fn interfere(&self, other: &Self) -> bool | LiveRange::interfere] *)
Definition interfere (a b : LiveRange) : bool := existsb (λ x, existsb (seg_interfere x) b) a.

(* [codegen/pass/liveness.rs | pub fn interfere_with_segment] *)
Definition interfere_with_segment (a : LiveRange) (s : LiveSegment) : bool :=
  existsb (λ x, seg_interfere x s) a.

(* [codegen/pass/liveness.rs | pub fn first_seg] *)
Definition first_seg (a : LiveRange) : option LiveSegment := a !! 0%nat.

(** [u32] arithmetic: a segment that ends before it starts panics. *)
(* [codegen/pass/liveness.rs | pub fn weight] *)
Definition weight (a : LiveRange) : comp Z :=
  foldM (λ acc s,
    d1 ← u32 (idx (end_ s) - idx (start s));
    d0 ← u32 (blk (end_ s) - blk (start s));
    d0 ← u32 (d0 + 10);
    m ← u32 (d1 * d0);
    u32 (acc + m)) 0 a.

(** [sort_by] is stable. *)
Fixpoint insert_seg (s : LiveSegment) (l : LiveRange) : LiveRange :=
  match l with
  | [] => [s]
  | t :: l => if leb (start s) (start t) then s :: t :: l else t :: insert_seg s l
  end.
Definition sort_segs (l : LiveRange) : LiveRange := foldr insert_seg [] l.

(* [codegen/pass/liveness.rs | pub fn merge] *)
Definition merge (a b : LiveRange) : LiveRange := sort_segs (a ++ b).

(** ** Facts about points and ranges *)

Lemma between_Some a b p :
  between a b = Ret (Some p) → lt a p ∧ lt p b.
Proof.
  unfold between. destruct (Z.eqb_spec (blk a) (blk b)) as [Hb|]; cbn; [|done].
  destruct (Z.ltb_spec (idx b) (idx a)); [done|].
  destruct (Z.leb_spec (idx b - idx a) 1); [done|].
  intros (s & Hs & [= <-])%bind_Ret. apply u32_Ret in Hs as [-> ?]. unfold lt; cbn.
  pose proof (Z.div_mod (idx b + idx a) 2). pose proof (Z.mod_pos_bound (idx b + idx a) 2). lia.
Qed.

Lemma insert_seg_perm s l : insert_seg s l ≡ₚ s :: l.
Proof.
  induction l as [|t l IH]; cbn; [done|]. destruct (leb _ _); [done|].
  rewrite IH. constructor.
Qed.

Lemma merge_perm a b : merge a b ≡ₚ a ++ b.
Proof.
  unfold merge, sort_segs. induction (a ++ b) as [|s l IH]; cbn; [done|].
  by rewrite insert_seg_perm, IH.
Qed.

Lemma interfere_true a b :
  interfere a b = true ↔ ∃ x y, x ∈ a ∧ y ∈ b ∧ seg_interfere x y = true.
Proof.
  unfold interfere. rewrite existsb_exists. split.
  - intros (x & Hx & (y & Hy & H)%existsb_exists). exists x, y. by rewrite !list_elem_of_In.
  - intros (x & y & Hx & Hy & H). exists x. split; [by apply list_elem_of_In|].
    apply existsb_exists. exists y. by rewrite <-list_elem_of_In.
Qed.

Lemma interfere_false a b :
  interfere a b = false ↔ ∀ x y, x ∈ a → y ∈ b → seg_interfere x y = false.
Proof.
  rewrite <-not_true_iff_false, interfere_true. split.
  - intros H x y Hx Hy. apply not_true_is_false. intros Hi. apply H. eauto.
  - intros H (x & y & Hx & Hy & Hi). rewrite H in Hi; done.
Qed.

Lemma seg_interfere_comm x y : seg_interfere x y = seg_interfere y x.
Proof. unfold seg_interfere. apply andb_comm. Qed.

Lemma interfere_comm a b : interfere a b = interfere b a.
Proof.
  apply eq_true_iff_eq. rewrite !interfere_true. split; intros (x & y & Hx & Hy & H);
    exists y, x; by rewrite seg_interfere_comm.
Qed.

(** Whether ranges interfere depends on their segments only. *)
#[global] Instance interfere_proper : Proper ((≡ₚ) ==> (≡ₚ) ==> eq) interfere.
Proof.
  intros a a' Ha b b' Hb. apply eq_true_iff_eq. rewrite !interfere_true.
  by setoid_rewrite Ha; setoid_rewrite Hb.
Qed.

Lemma merge_interfere a b c : interfere (merge a b) c = interfere a c || interfere b c.
Proof.
  rewrite merge_perm. apply eq_true_iff_eq. rewrite orb_true_iff, !interfere_true.
  setoid_rewrite elem_of_app. naive_solver.
Qed.

(** Merging sorts: the first segment starts first. *)
Definition sorted_segs (l : LiveRange) : Prop := StronglySorted (λ s t, ¬ lt (start t) (start s)) l.

Lemma insert_seg_sorted s l : sorted_segs l → sorted_segs (insert_seg s l).
Proof.
  unfold sorted_segs. induction l as [|t l IH]; cbn; intros Hl.
  { repeat constructor. }
  apply StronglySorted_inv in Hl as [Hl Ht]. destruct (leb _ _) eqn:E.
  - apply leb_le in E. constructor; [by constructor|]. constructor; [done|].
    eapply Forall_impl; [exact Ht|]. cbn. intros u Hu Hlt.
    apply Hu. destruct (cmp_spec (start t) (start s)) as [He|H|H]; [by rewrite He| |by etrans].
    exfalso. by apply E.
  - constructor; [by apply IH|]. rewrite Forall_forall. intros u Hu.
    rewrite insert_seg_perm in Hu. apply elem_of_cons in Hu as [->|Hu].
    + intros Hlt. assert (leb (start s) (start t) = true) by (apply leb_le; intros H; 
        eapply (irreflexivity lt); by etrans). congruence.
    + rewrite Forall_forall in Ht. by apply Ht.
Qed.

Lemma merge_sorted a b : sorted_segs (merge a b).
Proof.
  unfold merge, sort_segs. induction (a ++ b); cbn; [constructor|]. by apply insert_seg_sorted.
Qed.

End Points.

Module Liveness.
Import Reg Inst Data Func Points.

(* [codegen/pass/liveness.rs | enum Reg] *)
Inductive lreg := Phys (u : RegUnit) | Virt (v : VReg).

#[global] Instance lreg_eq_dec : EqDecision lreg.
Proof. solve_decision. Defined.
#[global] Instance lreg_countable : Countable lreg.
Proof.
  apply (inj_countable' (λ r, match r with Phys u => inl u | Virt v => inr v end)
    (λ s, match s with inl u => Phys u | inr v => Virt v end)). by intros [].
Defined.

(* [codegen/pass/liveness.rs | pub struct BlockData] *)
Record BlockData := { def : gset lreg; live_in : gset lreg; live_out : gset lreg }.

(* [codegen/pass/liveness.rs | impl BlockData >> pub fn new | BlockData::new] *)
Definition block_new : BlockData := {| def := ∅; live_in := ∅; live_out := ∅ |}.

Definition blocks_data := gmap BasicBlockId BlockData.

(* [codegen/pass/liveness.rs | pub struct Liveness] *)
Record Liveness := {
  block_data : gmap BasicBlockId BlockData;
  vreg_lrs_map : gmap VReg LiveRange;
  reg_lrs_map : gmap RegUnit LiveRange;
  inst_to_pp : gmap InstructionId ProgramPoint;
}.

(* [codegen/pass/liveness.rs | impl<T: TargetIsa> Default for Liveness<T> >> fn default] *)
Definition new : Liveness :=
  {| block_data := ∅; vreg_lrs_map := ∅; reg_lrs_map := ∅; inst_to_pp := ∅ |}.

(** [for block_id in func.layout.block_iter()], with the instructions of the block. *)
Definition for_blocks {S} (f : Function)
    (body : S → BasicBlockId → list (InstructionId * Instruction) → comp S) (s : S) : comp S :=
  bs ← Layout.block_iter (layout f);
  foldM (λ s b, is_ ← insts_of_block f b; body s b is_) s bs.

(** [map.entry(b).or_insert_with(BlockData::new)] *)
Definition getd (bd : gmap BasicBlockId BlockData) (b : BasicBlockId) : BlockData :=
  default block_new (bd !! b).

Definition add_def r (d : BlockData) : BlockData :=
  {| def := {[r]} ∪ def d; live_in := live_in d; live_out := live_out d |}.
Definition add_in r (d : BlockData) : BlockData :=
  {| def := def d; live_in := {[r]} ∪ live_in d; live_out := live_out d |}.
Definition add_out r (d : BlockData) : BlockData :=
  {| def := def d; live_in := live_in d; live_out := {[r]} ∪ live_out d |}.

(* [codegen/pass/liveness.rs | fn set_def_on_inst] *)
Definition set_def_on_inst (bd : gmap BasicBlockId BlockData) (i : Instruction) (b : BasicBlockId)
  : comp (gmap BasicBlockId BlockData) :=
  let bd := foldl (λ bd v, <[b := add_def (Virt v) (getd bd b)]> bd) bd (output_vregs (idata i)) in
  foldM (λ bd r, u ← to_reg_unit r; Ret (<[b := add_def (Phys u) (getd bd b)]> bd)) bd
    (output_regs (idata i)).

(* [codegen/pass/liveness.rs | fn set_def(] *)
Definition set_def (f : Function) (bd : gmap BasicBlockId BlockData) : comp (gmap BasicBlockId BlockData) :=
  for_blocks f (λ bd b is_,
    foldM (λ bd '(_, i), set_def_on_inst bd i b) (<[b := getd bd b]> bd) is_) bd.

(** The walk up the predecessors: it stops at a block that defines the
    register, or where it is live-in already. *)
(* [codegen/pass/liveness.rs | fn propagate_reg] *)
Fixpoint propagate_reg (fuel : nat) (bs : list BasicBlock) (bd : gmap BasicBlockId BlockData)
    (input : lreg) (b : BasicBlockId) (phi_pred : option BasicBlockId)
  : comp (gmap BasicBlockId BlockData) :=
  d ← unwrap (bd !! b);
  if decide (input ∈ def d) then Ret bd
  else if decide (input ∈ live_in d) then Ret bd
  else
    let bd := <[b := add_in input d]> bd in
    blk ← unwrap (bs !! b);
    match fuel with
    | O => OutOfFuel
    | S fuel =>
        foldM (λ bd p,
          if match phi_pred with Some q => bool_decide (p ≠ q) | None => false end then Ret bd
          else
            dp ← unwrap (bd !! p);
            if decide (input ∈ live_out dp) then Ret bd
            else propagate_reg fuel bs (<[p := add_out input dp]> bd) input p None)
          bd (preds blk)
    end.

(* [codegen/pass/liveness.rs | fn visit_inst] *)
Definition visit_inst (f : Function) (bd : gmap BasicBlockId BlockData) (i : Instruction) (b : BasicBlockId)
  : comp (gmap BasicBlockId BlockData) :=
  let bs := basic_blocks (fdata f) in
  bd ← foldM (λ bd '(k, v),
         propagate_reg (size bd) bs bd (Virt v) b
           (if is_phi (idata i) then block_at (idata i) (S k) else None))
         bd (input_vregs_with_indexes (idata i));
  foldM (λ bd r, u ← to_reg_unit r; propagate_reg (size bd) bs bd (Phys u) b None)
    bd (input_regs (idata i)).

(* [codegen/pass/liveness.rs | fn visit(] *)
Definition visit (f : Function) (bd : gmap BasicBlockId BlockData) : comp (gmap BasicBlockId BlockData) :=
  for_blocks f (λ bd b is_, foldM (λ bd '(_, i), visit_inst f bd i b) bd is_) bd.

(** The first half of [analyze_function]. *)
Definition live_in_out (f : Function) : comp (gmap BasicBlockId BlockData) :=
  bd ← set_def f ∅; visit f bd.

(** ** What liveness means

    A register is live into a block when a path from its start, through blocks
    that do not define it, reaches a block that uses it and does not define
    it.  (A block that both defines and uses a register is taken to define it
    first, as it does in SSA form.) *)

(** The blocks of a function with their instructions. *)
Definition program := list (BasicBlockId * list (InstructionId * Instruction)).

Definition view (f : Function) : comp program :=
  bs ← Layout.block_iter (layout f); mapM_c (λ b, l ← insts_of_block f b; Ret (b, l)) bs.

Definition phys_of (r : Reg) : option lreg :=
  match to_reg_unit r with Ret u => Some (Phys u) | _ => None end.
Definition defs (i : InstructionData) : list lreg :=
  (Virt <$> output_vregs i) ++ omap phys_of (output_regs i).
Definition uses (i : InstructionData) : list lreg :=
  (Virt <$> input_vregs i) ++ omap phys_of (input_regs i).

Definition defines (p : program) (b : BasicBlockId) (r : lreg) : Prop :=
  ∃ l id i, (b, l) ∈ p ∧ (id, i) ∈ l ∧ r ∈ defs (idata i).
Definition uses_in (p : program) (b : BasicBlockId) (r : lreg) : Prop :=
  ∃ l id i, (b, l) ∈ p ∧ (id, i) ∈ l ∧ r ∈ uses (idata i).

Definition pred_of (bs : list BasicBlock) (q b : BasicBlockId) : Prop :=
  ∃ blk, bs !! b = Some blk ∧ q ∈ preds blk.

Inductive live (p : program) (bs : list BasicBlock) (r : lreg) : BasicBlockId → Prop :=
  | live_use b : uses_in p b r → ¬ defines p b r → live p bs r b
  | live_flow b s : pred_of bs b s → live p bs r s → ¬ defines p b r → live p bs r b.

(** Functions the analysis is for: the predecessor sets name blocks of the
    layout, and the only register class is 0. *)
Record func_ok (f : Function) (p : program) : Prop := {
  ok_view : view f = Ret p;
  ok_blocks : NoDup p.*1;
  ok_preds : ∀ b, b ∈ p.*1 → ∃ blk, basic_blocks (fdata f) !! b = Some blk
    ∧ ∀ q, q ∈ preds blk → q ∈ p.*1;
  ok_regs : ∀ b l id i r, (b, l) ∈ p → (id, i) ∈ l → r ∈ all_regs (idata i) → rc r = 0%nat;
}.

Definition no_phi (p : program) : Prop :=
  ∀ b l id i, (b, l) ∈ p → (id, i) ∈ l → is_phi (idata i) = false.

(** ** The walk, in terms of what it adds *)

Definition In bd b r := r ∈ live_in (getd bd b).
Definition Out bd b r := r ∈ live_out (getd bd b).
Definition Def bd b r := r ∈ def (getd bd b).

Record grows (bd bd' : gmap BasicBlockId BlockData) : Prop := {
  grows_dom : dom bd' = dom bd;
  grows_def : ∀ b, def (getd bd' b) = def (getd bd b);
  grows_in : ∀ b r, In bd b r → In bd' b r;
  grows_out : ∀ b r, Out bd b r → Out bd' b r;
}.

#[global] Instance grows_preorder : PreOrder grows.
Proof.
  split; [by intros ?; split|]. intros a b c [] []. split; [congruence|congruence|eauto..].
Qed.

(** What is new in [bd'] is propagated as far as it goes. *)
Record closed_new (bs : list BasicBlock) (bd bd' : gmap BasicBlockId BlockData) : Prop := {
  new_in : ∀ b q r, In bd' b r → ¬ In bd b r → pred_of bs q b → Out bd' q r;
  new_out : ∀ q r, Out bd' q r → ¬ Out bd q r → Def bd' q r ∨ In bd' q r;
}.

Lemma closed_new_refl bs bd : closed_new bs bd bd.
Proof. by split; intros. Qed.

Lemma Def_grows bd bd' b r : grows bd bd' → Def bd' b r ↔ Def bd b r.
Proof. intros []. unfold Def. by rewrite grows_def0. Qed.

#[global] Instance In_dec bd b r : Decision (In bd b r).
Proof. unfold In. apply _. Defined.
#[global] Instance Out_dec bd b r : Decision (Out bd b r).
Proof. unfold Out. apply _. Defined.

Lemma closed_new_trans bs bd1 bd2 bd3 :
  grows bd2 bd3 → closed_new bs bd1 bd2 → closed_new bs bd2 bd3 → closed_new bs bd1 bd3.
Proof.
  intros Hg [Hi1 Ho1] [Hi2 Ho2]. split.
  - intros b q r H3 H1 Hq. destruct (decide (In bd2 b r)) as [H2|H2]; [|by eapply Hi2].
    apply (grows_out _ _ Hg). by eapply Hi1.
  - intros q r H3 H1. destruct (decide (Out bd2 q r)) as [H2|H2]; [|by apply Ho2].
    destruct (Ho1 q r H2 H1); [left; by apply (Def_grows bd2)|right; by apply (grows_in _ _ Hg)].
Qed.

Lemma getd_insert bd b d c : getd (<[b := d]> bd) c = if decide (c = b) then d else getd bd c.
Proof.
  unfold getd. case_decide as H; [subst; by rewrite lookup_insert_eq|by rewrite lookup_insert_ne].
Qed.

Lemma getd_Some bd b d : bd !! b = Some d → getd bd b = d.
Proof. unfold getd. by intros ->. Qed.

Lemma grows_add_in bd b d r : bd !! b = Some d → grows bd (<[b := add_in r d]> bd).
Proof.
  intros H. pose proof (getd_Some _ _ _ H) as Hd. split.
  - rewrite dom_insert_L. apply elem_of_dom_2 in H. set_solver.
  - intros c. rewrite getd_insert. case_decide; subst; done.
  - intros c s. unfold In. rewrite getd_insert. case_decide; subst; [cbn; set_solver|done].
  - intros c s. unfold Out. rewrite getd_insert. case_decide; subst; done.
Qed.

Lemma grows_add_out bd b d r : bd !! b = Some d → grows bd (<[b := add_out r d]> bd).
Proof.
  intros H. pose proof (getd_Some _ _ _ H) as Hd. split.
  - rewrite dom_insert_L. apply elem_of_dom_2 in H. set_solver.
  - intros c. rewrite getd_insert. case_decide; subst; done.
  - intros c s. unfold In. rewrite getd_insert. case_decide; subst; done.
  - intros c s. unfold Out. rewrite getd_insert. case_decide; subst; [cbn; set_solver|done].
Qed.

Lemma In_add_in bd b d r c s :
  bd !! b = Some d → In (<[b := add_in r d]> bd) c s ↔ (c = b ∧ s = r) ∨ In bd c s.
Proof.
  intros H. pose proof (getd_Some _ _ _ H). unfold In. rewrite getd_insert.
  case_decide; subst; cbn; [set_solver|naive_solver].
Qed.

Lemma Out_add_out bd b d r c s :
  bd !! b = Some d → Out (<[b := add_out r d]> bd) c s ↔ (c = b ∧ s = r) ∨ Out bd c s.
Proof.
  intros H. pose proof (getd_Some _ _ _ H). unfold Out. rewrite getd_insert.
  case_decide; subst; cbn; [set_solver|naive_solver].
Qed.

Lemma Out_add_in bd b d r c s :
  bd !! b = Some d → Out (<[b := add_in r d]> bd) c s ↔ Out bd c s.
Proof.
  intros H. pose proof (getd_Some _ _ _ H). unfold Out. rewrite getd_insert.
  by case_decide; subst.
Qed.

Lemma In_add_out bd b d r c s :
  bd !! b = Some d → In (<[b := add_out r d]> bd) c s ↔ In bd c s.
Proof.
  intros H. pose proof (getd_Some _ _ _ H). unfold In. rewrite getd_insert.
  by case_decide; subst.
Qed.

(** The blocks the register is not live into yet: the walk's measure. *)
Definition missing (bd : gmap BasicBlockId BlockData) (r : lreg) : gset BasicBlockId :=
  filter (λ b, ¬ In bd b r) (dom bd).

Lemma missing_grows bd bd' r : grows bd bd' → (size (missing bd' r) ≤ size (missing bd r))%nat.
Proof.
  intros [Hd _ Hi _]. apply subseteq_size. unfold missing. rewrite Hd. set_solver.
Qed.

Lemma missing_size bd r : (size (missing bd r) ≤ size bd)%nat.
Proof. rewrite <-size_dom. apply subseteq_size. unfold missing. set_solver. Qed.

Lemma missing_add_in bd b d r :
  bd !! b = Some d → ¬ In bd b r →
  (size (missing (<[b := add_in r d]> bd) r) < size (missing bd r))%nat.
Proof.
  intros H Hb. apply subset_size. pose proof (grows_add_in _ _ _ r H) as Hg. split.
  - unfold missing. rewrite (grows_dom _ _ Hg). pose proof (grows_in _ _ Hg). set_solver.
  - intros Hs. assert (Hin : b ∈ missing bd r).
    { unfold missing. apply elem_of_filter. split; [done|]. by eapply elem_of_dom_2. }
    apply Hs in Hin. apply elem_of_filter in Hin as [Hin _]. apply Hin, In_add_in; auto.
Qed.

(** The predecessor sets only name blocks the analysis knows. *)
Definition preds_ok (bs : list BasicBlock) (bd : gmap BasicBlockId BlockData) : Prop :=
  ∀ b, b ∈ dom bd → ∃ blk, bs !! b = Some blk ∧ ∀ q, q ∈ preds blk → q ∈ dom bd.

Lemma preds_ok_grows bs bd bd' : grows bd bd' → preds_ok bs bd → preds_ok bs bd'.
Proof. intros [Hd _ _ _] H. unfold preds_ok. by rewrite Hd. Qed.

Lemma propagate_reg_ok fuel bs bd r b :
  preds_ok bs bd → b ∈ dom bd → (size (missing bd r) ≤ fuel)%nat →
  ∃ bd', propagate_reg fuel bs bd r b None = Ret bd' ∧ grows bd bd'
    ∧ closed_new bs bd bd' ∧ (Def bd b r ∨ In bd' b r).
Proof.
  revert bd b. induction fuel as [|fuel IH]; intros bd b Hok Hb Hf;
    apply elem_of_dom in Hb as [d Hd]; pose proof (getd_Some _ _ _ Hd) as Hdd;
    (destruct (decide (r ∈ def d)) as [Hdef|Hdef];
     [exists bd; cbn; rewrite Hd; cbn; rewrite decide_True by done;
      split_and!; [done|done|apply closed_new_refl|left; unfold Def; by rewrite Hdd]|]);
    (destruct (decide (r ∈ live_in d)) as [Hin|Hin];
     [exists bd; cbn; rewrite Hd; cbn; rewrite decide_False, decide_True by done;
      split_and!; [done|done|apply closed_new_refl|right; unfold In; by rewrite Hdd]|]);
    assert (Hnin : ¬ In bd b r) by (unfold In; by rewrite Hdd);
    pose proof (missing_add_in _ _ _ _ Hd Hnin) as Hm; [lia|].
  cbn. rewrite Hd. cbn. rewrite !decide_False by done.
  destruct (Hok b) as (blk & Hblk & Hpreds); [by eapply elem_of_dom_2|]. rewrite Hblk. cbn.
  pose proof (grows_add_in _ _ _ r Hd) as Hg1. set (bd1 := <[b:=add_in r d]> bd) in *.
  (* the loop over the predecessors *)
  assert (Hloop : ∀ ps bd2, (∀ q, q ∈ ps → q ∈ dom bd) → grows bd1 bd2 → closed_new bs bd1 bd2 →
    ∃ bd3, foldM (λ bd p,
          dp ← unwrap (bd !! p);
          if decide (r ∈ live_out dp) then Ret bd
          else propagate_reg fuel bs (<[p := add_out r dp]> bd) r p None) bd2 ps = Ret bd3
      ∧ grows bd1 bd3 ∧ closed_new bs bd1 bd3 ∧ (∀ q, Out bd2 q r → Out bd3 q r)
      ∧ ∀ q, q ∈ ps → Out bd3 q r).
  { induction ps as [|q ps IHps]; intros bd2 Hps Hg Hc; [exists bd2; set_solver|]. cbn.
    assert (q ∈ dom bd2) as [dq Hq]%elem_of_dom.
    { rewrite (grows_dom _ _ Hg), (grows_dom _ _ Hg1). apply Hps. by left. }
    rewrite Hq. cbn. pose proof (getd_Some _ _ _ Hq) as Hdq.
    destruct (decide (r ∈ live_out dq)) as [Ho|Ho]; cbn.
    - destruct (IHps bd2) as (bd3 & -> & ? & ? & Hk & ?); [set_solver|done|done|].
      exists bd3. split_and!; try done. intros c [->|Hc']%elem_of_cons; [|auto].
      apply Hk. unfold Out. by rewrite Hdq.
    - pose proof (grows_add_out _ _ _ r Hq) as Hg2. set (bd2' := <[q:=add_out r dq]> bd2) in *.
      destruct (IH bd2' q) as (bd4 & -> & Hg4 & Hc4 & Hq4).
      { eapply preds_ok_grows; [|done]. etrans; [exact Hg1|]. by etrans. }
      { rewrite (grows_dom _ _ Hg2). by eapply elem_of_dom_2. }
      { pose proof (missing_grows bd1 bd2' r (transitivity Hg Hg2)). lia. }
      assert (Hg24 : grows bd2 bd4) by by etrans.
      assert (Hc24 : closed_new bs bd2 bd4).
      { destruct Hc4 as [Hi4 Ho4]. split.
        - intros c p s H4 H2 Hp. eapply Hi4; [done| |done]. unfold bd2'. by rewrite In_add_out.
        - intros p s H4 H2. destruct (decide (p = q ∧ s = r)) as [[-> ->]|Hne].
          + destruct Hq4; [left; by apply (Def_grows bd2')|by right].
          + apply Ho4; [done|]. unfold bd2'. rewrite Out_add_out by done. tauto. }
      cbn. destruct (IHps bd4) as (bd3 & -> & ? & ? & Hk & ?); [set_solver|by etrans| |].
      { by eapply closed_new_trans. }
      exists bd3. split_and!; try done.
      + intros c Hc'. by apply Hk, (grows_out _ _ Hg24).
      + intros c [->|Hc']%elem_of_cons; [|auto]. apply Hk, (grows_out _ _ Hg4), Out_add_out; auto. }
  destruct (Hloop (preds blk) bd1) as (bd3 & Hrun & Hg3 & [Hi3 Ho3] & _ & Hps);
    [done|done|apply closed_new_refl|].
  exists bd3. rewrite Hrun. assert (Hg : grows bd bd3) by by etrans. split_and!; [done|done| |].
  - split.
    + intros c q s H3 H Hq. destruct (decide (c = b ∧ s = r)) as [[-> ->]|Hne].
      * apply Hps. destruct Hq as (blk' & Hblk' & Hq). by simplify_eq.
      * eapply Hi3; [done| |done]. unfold bd1. rewrite In_add_in by done. tauto.
    + intros q s H3 H. apply Ho3; [done|]. unfold bd1. by rewrite Out_add_in.
  - right. apply (grows_in _ _ Hg3), In_add_in; auto.
Qed.

(** ** Everything the walk adds is justified *)

Record justified (bs : list BasicBlock) (L : BasicBlockId → lreg → Prop)
    (bd : gmap BasicBlockId BlockData) : Prop := {
  just_in : ∀ b r, In bd b r → L b r;
  just_out : ∀ q r, Out bd q r → ∃ s, pred_of bs q s ∧ L s r;
}.

Lemma propagate_reg_just fuel bs (L : BasicBlockId → lreg → Prop) bd0 bd r b phi bd' :
  (∀ q s, pred_of bs q s → L s r → ¬ Def bd0 q r → L q r) →
  grows bd0 bd → justified bs L bd → (¬ Def bd0 b r → L b r) →
  propagate_reg fuel bs bd r b phi = Ret bd' →
  grows bd0 bd' ∧ justified bs L bd'.
Proof.
  intros HL. revert bd b phi bd'. induction fuel as [|fuel IH]; intros bd b phi bd' Hg Hj Hb H; cbn in H;
    apply bind_Ret in H as (d & Hd%unwrap_Ret & H); pose proof (getd_Some _ _ _ Hd) as Hdd;
    (destruct (decide (r ∈ def d)) as [|Hdef]; [by injection H as <-|]);
    (destruct (decide (r ∈ live_in d)) as [|Hin]; [by injection H as <-|]);
    apply bind_Ret in H as (blk & Hblk%unwrap_Ret & H); [done|].
  assert (HLb : L b r).
  { apply Hb. rewrite <-(Def_grows _ _ _ _ Hg). unfold Def. by rewrite Hdd. }
  eapply (foldM_inv (λ u, grows bd0 u ∧ justified bs L u)) in H; [done| |].
  - intros u q v Hq [Hgu Hju] Hv.
    destruct (match phi with Some _ => _ | None => _ end); [by injection Hv as <-|].
    apply bind_Ret in Hv as (dq & Hdq%unwrap_Ret & Hv).
    case_decide; [by injection Hv as <-|].
    eapply IH in Hv; [done| | |].
    + etrans; [exact Hgu|]. by apply grows_add_out.
    + destruct Hju as [Hi Ho]. split.
      * intros c s. rewrite In_add_out by done. apply Hi.
      * intros c s. rewrite Out_add_out by done. intros [[-> ->]|Hc]; [|by apply Ho].
        exists b. split; [by exists blk|done].
    + intros Hnd. apply (HL q b); [by exists blk|done|done].
  - split; [etrans; [exact Hg|]; by apply grows_add_in|]. destruct Hj as [Hi Ho]. split.
    + intros c s. rewrite In_add_in by done. intros [[-> ->]|Hc]; [done|by apply Hi].
    + intros c s. rewrite Out_add_in by done. apply Ho.
Qed.

(** ** The definitions of the blocks *)

Lemma for_blocks_view {S} (f : Function) body (s : S) p :
  view f = Ret p → for_blocks f body s = foldM (λ s '(b, l), body s b l) s p.
Proof.
  unfold view, for_blocks. intros H. apply bind_Ret in H as (bs & -> & H). cbn.
  revert s p H. induction bs as [|b bs IH]; intros s p H; cbn in H; [by injection H as <-|].
  apply bind_Ret in H as ([b' l] & Hl & H). apply bind_Ret in Hl as (l' & Hl & [= -> ->]).
  apply bind_Ret in H as (p' & Hp & [= <-]). cbn. rewrite Hl. cbn.
  destruct (body s b' l); cbn; [|done..]. by apply IH.
Qed.

(** [bd'] has the same live sets as [bd], and one block gained definitions. *)
Record defined (b : BasicBlockId) (P : lreg → Prop) (bd bd' : gmap BasicBlockId BlockData) : Prop := {
  defined_dom : dom bd' = dom bd ∪ {[b]};
  defined_def : ∀ c r, Def bd' c r ↔ Def bd c r ∨ (c = b ∧ P r);
  defined_in : ∀ c r, In bd' c r ↔ In bd c r;
  defined_out : ∀ c r, Out bd' c r ↔ Out bd c r;
}.

Lemma defined_trans b P Q bd1 bd2 bd3 :
  defined b P bd1 bd2 → defined b Q bd2 bd3 → defined b (λ r, P r ∨ Q r) bd1 bd3.
Proof.
  intros [H1 H2 H3 H4] [K1 K2 K3 K4]. split.
  - set_solver.
  - intros c r. rewrite K2, H2. tauto.
  - intros c r. by rewrite K3, H3.
  - intros c r. by rewrite K4, H4.
Qed.

Lemma defined_iff b P Q bd bd' : (∀ r, P r ↔ Q r) → defined b P bd bd' → defined b Q bd bd'.
Proof. intros HPQ [H1 H2 H3 H4]. split; [done| |done|done]. intros c r. rewrite H2, HPQ. tauto. Qed.

Lemma defined_entry b bd : defined b (λ _, False) bd (<[b := getd bd b]> bd).
Proof.
  split.
  - rewrite dom_insert_L. set_solver.
  - intros c r. unfold Def. rewrite getd_insert. case_decide; subst; tauto.
  - intros c r. unfold In. rewrite getd_insert. by case_decide; subst.
  - intros c r. unfold Out. rewrite getd_insert. by case_decide; subst.
Qed.

Lemma defined_add b r bd : defined b (λ s, s = r) bd (<[b := add_def r (getd bd b)]> bd).
Proof.
  split.
  - rewrite dom_insert_L. set_solver.
  - intros c s. unfold Def. rewrite getd_insert. case_decide; subst; cbn; [set_solver|naive_solver].
  - intros c s. unfold In. rewrite getd_insert. by case_decide; subst.
  - intros c s. unfold Out. rewrite getd_insert. by case_decide; subst.
Qed.

Lemma defined_refl b bd : b ∈ dom bd → defined b (λ _, False) bd bd.
Proof. intros H. split; [set_solver|tauto..]. Qed.

Lemma defined_in_dom b P bd bd' : defined b P bd bd' → b ∈ dom bd'.
Proof. intros [-> _ _ _]. set_solver. Qed.

(** Folding a step that adds [g x] over a list adds [g] of its elements. *)
Lemma defined_fold {A} b (g : A → option lreg)
    (step : gmap BasicBlockId BlockData → A → comp (gmap BasicBlockId BlockData)) (l : list A) bd :
  (∀ x bd, x ∈ l → ∃ bd', step bd x = Ret bd' ∧ defined b (λ r, g x = Some r) bd bd') →
  b ∈ dom bd →
  ∃ bd', foldM step bd l = Ret bd' ∧ defined b (λ r, r ∈ omap g l) bd bd'.
Proof.
  revert bd. induction l as [|x l IH]; intros bd Hs Hb; cbn.
  { exists bd. split; [done|]. eapply defined_iff; [|by apply defined_refl]. set_solver. }
  destruct (Hs x bd) as (bd1 & -> & H1); [by left|]. cbn.
  destruct (IH bd1) as (bd2 & -> & H2).
  { intros; apply Hs. by right. } { by eapply defined_in_dom. }
  exists bd2. split; [done|]. eapply defined_iff; [|by eapply defined_trans].
  intros r. cbn. destruct (g x); [|naive_solver]. rewrite elem_of_cons. naive_solver.
Qed.

Lemma set_def_on_inst_ok bd i b :
  (∀ r, r ∈ all_regs (idata i) → rc r = 0%nat) → b ∈ dom bd →
  ∃ bd', set_def_on_inst bd i b = Ret bd' ∧ defined b (λ r, r ∈ defs (idata i)) bd bd'.
Proof.
  intros Hr Hb. unfold set_def_on_inst.
  assert (Hv : ∀ vs bd, foldl (λ bd v, <[b := add_def (Virt v) (getd bd b)]> bd) bd vs
    = match foldM (λ bd v, Ret (<[b := add_def (Virt v) (getd bd b)]> bd)) bd vs with Ret x => x | _ => bd end).
  { induction vs as [|v vs IH]; intros u; [done|]. cbn. rewrite IH.
    destruct (foldM _ _ vs) eqn:E; [done|..]; exfalso; revert E;
      clear; generalize (<[b:=add_def (Virt v) (getd u b)]> u);
      induction vs; intros; cbn in *; eauto; discriminate. }
  rewrite Hv.
  destruct (defined_fold b (λ v, Some (Virt v))
    (λ bd v, Ret (<[b := add_def (Virt v) (getd bd b)]> bd)) (output_vregs (idata i)) bd)
    as (bd1 & -> & H1); [|done|].
  { intros v u _. eexists; split; [done|]. eapply defined_iff; [|apply defined_add]. naive_solver. }
  destruct (defined_fold b phys_of
    (λ bd r, u ← to_reg_unit r; Ret (<[b := add_def (Phys u) (getd bd b)]> bd))
    (output_regs (idata i)) bd1) as (bd2 & -> & H2); [|by eapply defined_in_dom|].
  { intros r u Hin. assert (Hrc : rc r = 0%nat).
    { apply Hr. unfold output_regs, all_regs in *. apply list_elem_of_omap in Hin as (o & Ho & Hs).
      apply list_elem_of_omap. exists o. split; [done|]. by destruct (output o). }
    unfold phys_of, to_reg_unit. rewrite Hrc. cbn. eexists; split; [done|].
    eapply defined_iff; [|apply defined_add]. naive_solver. }
  exists bd2. split; [done|]. eapply defined_iff; [|by eapply defined_trans].
  intros r. cbn. unfold defs. rewrite elem_of_app.
  replace (omap (λ v, Some (Virt v)) (output_vregs (idata i))) with (Virt <$> output_vregs (idata i)); [done|].
  clear. induction (output_vregs (idata i)) as [|v l IHl]; [done|].
  change (Virt v :: (Virt <$> l) = Virt v :: omap (λ v, Some (Virt v)) l). by rewrite IHl.
Qed.

Lemma defines_cons b l p c r :
  defines ((b, l) :: p) c r
  ↔ (c = b ∧ ∃ id i, (id, i) ∈ l ∧ r ∈ defs (idata i)) ∨ defines p c r.
Proof.
  unfold defines. split.
  - intros (l' & id & i & [[= -> ->]|H]%elem_of_cons & Hi & Hr); [left|right]; eauto 10.
  - intros [[-> (id & i & Hi & Hr)]|(l' & id & i & H & Hi & Hr)].
    + exists l, id, i. split_and!; [by left|done..].
    + exists l', id, i. split_and!; [by right|done..].
Qed.

Lemma set_def_ok f p :
  func_ok f p →
  ∃ bd, set_def f ∅ = Ret bd ∧ dom bd = list_to_set p.*1
    ∧ (∀ b r, Def bd b r ↔ defines p b r)
    ∧ (∀ b r, ¬ In bd b r) ∧ (∀ b r, ¬ Out bd b r).
Proof.
  intros Hok. unfold set_def. rewrite (for_blocks_view _ _ _ _ (ok_view _ _ Hok)).
  pose proof (ok_regs _ _ Hok) as Hregs. clear Hok.
  assert (Hgen : ∀ p' bd0, (∀ x, x ∈ p' → x ∈ p) →
    ∃ bd, foldM (λ s '(b, l), foldM (λ bd '(_, i), set_def_on_inst bd i b) (<[b:=getd s b]> s) l) bd0 p' = Ret bd
      ∧ dom bd = dom bd0 ∪ list_to_set p'.*1
      ∧ (∀ b r, Def bd b r ↔ Def bd0 b r ∨ defines p' b r)
      ∧ (∀ b r, In bd b r ↔ In bd0 b r) ∧ (∀ b r, Out bd b r ↔ Out bd0 b r)).
  { induction p' as [|[b l] p' IH]; intros bd0 Hsub; cbn.
    { exists bd0. split_and!; [done|by rewrite (right_id_L ∅ (∪))| |done|done].
      intros b r. split; [by left|]. intros [?|(? & ? & ? & H & _)]; [done|set_solver]. }
    assert (Hblock : ∃ bd1, foldM (λ bd '(_, i), set_def_on_inst bd i b) (<[b:=getd bd0 b]> bd0) l = Ret bd1
      ∧ defined b (λ r, ∃ id i, (id, i) ∈ l ∧ r ∈ defs (idata i)) bd0 bd1).
    { assert (Hl : ∀ id i r, (id, i) ∈ l → r ∈ all_regs (idata i) → rc r = 0%nat).
      { intros id i r Hi. eapply Hregs; [|done]. apply Hsub. by left. }
      clear IH Hsub. pose proof (defined_entry b bd0) as Hd. revert Hd.
      generalize (<[b:=getd bd0 b]> bd0) as u. 
      assert (Hin : ∀ u Q, defined b Q bd0 u →
        ∃ bd1, foldM (λ bd '(_, i), set_def_on_inst bd i b) u l = Ret bd1
          ∧ defined b (λ r, Q r ∨ ∃ id i, (id, i) ∈ l ∧ r ∈ defs (idata i)) bd0 bd1).
      { induction l as [|[id i] l IHl]; intros u Q Hd; cbn.
        { exists u. split; [done|]. eapply defined_iff; [|exact Hd]. set_solver. }
        destruct (set_def_on_inst_ok u i b) as (u1 & -> & H1).
        { intros r. eapply Hl. by left. } { by eapply defined_in_dom. }
        cbn. destruct (IHl) with (u := u1) (Q := λ r, Q r ∨ r ∈ defs (idata i)) as (u2 & -> & H2).
        { intros ??? Hx. eapply Hl. by right. } { by eapply defined_trans. }
        exists u2. split; [done|]. eapply defined_iff; [|exact H2]. intros r. cbn.
        setoid_rewrite elem_of_cons. naive_solver. }
      intros u Hd. destruct (Hin u _ Hd) as (bd1 & -> & H1). exists bd1. split; [done|].
      eapply defined_iff; [|exact H1]. naive_solver. }
    destruct Hblock as (bd1 & -> & [H1 H2 H3 H4]). cbn.
    destruct (IH bd1) as (bd2 & -> & K1 & K2 & K3 & K4); [intros; apply Hsub; by right|].
    exists bd2. split_and!; [done|by rewrite K1, H1, (assoc_L (∪))| | |].
    - intros c r. rewrite K2, H2, defines_cons. tauto.
    - intros c r. by rewrite K3.
    - intros c r. by rewrite K4. }
  destruct (Hgen p ∅) as (bd & -> & Hd & H1 & H2 & H3); [done|].
  exists bd. split_and!; [done|by rewrite Hd, dom_empty_L, (left_id_L ∅ (∪))| | |].
  - intros b r. rewrite H1. unfold Def, getd. rewrite lookup_empty. cbn. set_solver.
  - intros b r. rewrite H2. unfold In, getd. rewrite lookup_empty. cbn. set_solver.
  - intros b r. rewrite H3. unfold Out, getd. rewrite lookup_empty. cbn. set_solver.
Qed.

(** ** Visiting the uses *)

Lemma with_indexes_snd i : (input_vregs_with_indexes i).*2 = input_vregs i.
Proof.
  unfold input_vregs_with_indexes, input_vregs.
  assert (H : ∀ (os : list Operand) (g : nat → nat),
    (omap id (imap (λ k o, v ← if input o then vreg_of (data o) else None; Some (g k, v)) os)).*2
    = omap (λ o, if input o then vreg_of (data o) else None) os).
  { induction os as [|o os IH]; intros g; [done|]. rewrite imap_cons. cbn.
    destruct (if input o then _ else _); cbn; [f_equal|]; apply (IH (g ∘ S)). }
  apply (H _ (λ k, k)).
Qed.

Section Visit.
Context (bs : list BasicBlock) (L : BasicBlockId → lreg → Prop) (bd0 : gmap BasicBlockId BlockData).
Context (HL : ∀ q s r, pred_of bs q s → L s r → ¬ Def bd0 q r → L q r).
Context (Hpreds : preds_ok bs bd0).

(** The state of the visit: everything so far is closed and justified. *)
Definition visiting (bd : gmap BasicBlockId BlockData) : Prop :=
  grows bd0 bd ∧ closed_new bs bd0 bd ∧ justified bs L bd.

Definition seen (bd : gmap BasicBlockId BlockData) (b : BasicBlockId) (r : lreg) : Prop :=
  Def bd0 b r ∨ In bd b r.

Lemma seen_grows bd bd' b r : grows bd bd' → seen bd b r → seen bd' b r.
Proof. intros [_ _ H _] [?|?]; [by left|right; auto]. Qed.

Lemma visit_reg bd b r :
  visiting bd → b ∈ dom bd0 → (¬ Def bd0 b r → L b r) →
  ∃ bd', propagate_reg (size bd) bs bd r b None = Ret bd' ∧ visiting bd'
    ∧ grows bd bd' ∧ seen bd' b r.
Proof.
  intros (Hg & Hc & Hj) Hb Hl.
  destruct (propagate_reg_ok (size bd) bs bd r b) as (bd' & Hrun & Hg' & Hc' & Hs).
  { by eapply preds_ok_grows. } { by rewrite (grows_dom _ _ Hg). } { apply missing_size. }
  exists bd'. split_and!; [done| |done|].
  - split_and!; [by etrans|by eapply closed_new_trans|].
    eapply (propagate_reg_just _ _ L bd0); [|exact Hg|done|exact Hl|exact Hrun].
    intros q s. apply HL.
  - destruct Hs; [left; by apply (Def_grows _ _ _ _ Hg)|by right].
Qed.

(** Any loop whose body visits one register of block [b]. *)
Lemma visit_loop {A} b (g : A → option lreg)
    (step : gmap BasicBlockId BlockData → A → comp (gmap BasicBlockId BlockData)) (l : list A) bd :
  (∀ x bd, x ∈ l → ∃ r, g x = Some r ∧ step bd x = propagate_reg (size bd) bs bd r b None
     ∧ (¬ Def bd0 b r → L b r)) →
  b ∈ dom bd0 → visiting bd →
  ∃ bd', foldM step bd l = Ret bd' ∧ visiting bd' ∧ grows bd bd'
    ∧ ∀ r, r ∈ omap g l → seen bd' b r.
Proof.
  intros Hs Hb. revert bd Hs. induction l as [|x l IH]; intros bd Hs Hv; cbn.
  { exists bd. split_and!; [done|done|done|]. intros r Hr. by apply not_elem_of_nil in Hr. }
  destruct (Hs x bd) as (r & Hgx & -> & Hr); [by left|].
  destruct (visit_reg bd b r) as (bd1 & -> & Hv1 & Hg1 & Hs1); [done..|]. cbn.
  destruct (IH bd1) as (bd2 & -> & Hv2 & Hg2 & Hs2); [intros; apply Hs; by right|done|].
  exists bd2. split_and!; [done|done|by etrans|].
  rewrite Hgx. intros s [->|Hin]%elem_of_cons; [by eapply seen_grows|by apply Hs2].
Qed.

Lemma visit_inst_ok f bd i b :
  basic_blocks (fdata f) = bs → is_phi (idata i) = false →
  (∀ r, r ∈ all_regs (idata i) → rc r = 0%nat) →
  (∀ r, r ∈ uses (idata i) → ¬ Def bd0 b r → L b r) →
  b ∈ dom bd0 → visiting bd →
  ∃ bd', visit_inst f bd i b = Ret bd' ∧ visiting bd' ∧ grows bd bd'
    ∧ ∀ r, r ∈ uses (idata i) → seen bd' b r.
Proof.
  intros Hbs Hphi Hrc Hu Hb Hv. unfold visit_inst. rewrite Hbs, Hphi.
  destruct (visit_loop b (λ '(_, v), Some (Virt v))
    (λ bd '(k, v), propagate_reg (size bd) bs bd (Virt v) b None)
    (input_vregs_with_indexes (idata i)) bd) as (bd1 & -> & Hv1 & Hg1 & Hs1); [|done|done|].
  { intros [k v] u Hin. eexists; split_and!; [done|done|]. apply Hu. unfold uses.
    apply elem_of_app. left. apply list_elem_of_fmap_2. rewrite <-with_indexes_snd.
    by apply (list_elem_of_fmap_2 snd) in Hin. }
  cbn. destruct (visit_loop b phys_of
    (λ bd r, u ← to_reg_unit r; propagate_reg (size bd) bs bd (Phys u) b None)
    (input_regs (idata i)) bd1) as (bd2 & -> & Hv2 & Hg2 & Hs2); [|done|done|].
  { intros r u Hin. assert (Hr : rc r = 0%nat).
    { apply Hrc. unfold input_regs, all_regs in *. apply list_elem_of_omap in Hin as (o & Ho & Hs).
      apply list_elem_of_omap. exists o. split; [done|]. by destruct (input o). }
    exists (Phys (unit_ 0 (num r))). unfold phys_of, to_reg_unit. rewrite Hr. split_and!; [done|done|].
    apply Hu. unfold uses. apply elem_of_app. right. apply list_elem_of_omap. exists r.
    split; [done|]. unfold phys_of, to_reg_unit. by rewrite Hr. }
  exists bd2. split_and!; [done|done|by etrans|]. intros r Hr. unfold uses in Hr.
  apply elem_of_app in Hr as [Hr|Hr]; [|by apply Hs2].
  eapply seen_grows; [exact Hg2|]. apply Hs1.
  apply list_elem_of_fmap in Hr as (v & -> & Hr). rewrite <-with_indexes_snd in Hr.
  apply list_elem_of_fmap in Hr as ([k v'] & -> & Hr). apply list_elem_of_omap. by exists (k, v').
Qed.

Lemma visit_block_ok f b (l : list (InstructionId * Instruction)) bd :
  basic_blocks (fdata f) = bs →
  (∀ id i, (id, i) ∈ l → is_phi (idata i) = false
     ∧ (∀ r, r ∈ all_regs (idata i) → rc r = 0%nat)
     ∧ (∀ r, r ∈ uses (idata i) → ¬ Def bd0 b r → L b r)) →
  b ∈ dom bd0 → visiting bd →
  ∃ bd', foldM (λ bd '(_, i), visit_inst f bd i b) bd l = Ret bd' ∧ visiting bd' ∧ grows bd bd'
    ∧ ∀ id i r, (id, i) ∈ l → r ∈ uses (idata i) → seen bd' b r.
Proof.
  intros Hbs Hl Hb. revert bd Hl. induction l as [|[id i] l IH]; intros bd Hl Hv; cbn.
  { exists bd. split_and!; [done|done|done|]. intros ? ? ? H. by apply not_elem_of_nil in H. }
  destruct (Hl id i) as (? & ? & ?); [by left|].
  destruct (visit_inst_ok f bd i b) as (bd1 & -> & Hv1 & Hg1 & Hs1); [done..|]. cbn.
  destruct (IH bd1) as (bd2 & -> & Hv2 & Hg2 & Hs2); [intros; eapply Hl; by right|done|].
  exists bd2. split_and!; [done|done|by etrans|].
  intros id' i' r [[= -> ->]|Hin]%elem_of_cons Hr; [|by eapply Hs2].
  eapply seen_grows; [exact Hg2|]. by apply Hs1.
Qed.

Lemma visit_blocks_ok f (p : program) bd :
  basic_blocks (fdata f) = bs →
  (∀ b l, (b, l) ∈ p → b ∈ dom bd0 ∧ ∀ id i, (id, i) ∈ l → is_phi (idata i) = false
     ∧ (∀ r, r ∈ all_regs (idata i) → rc r = 0%nat)
     ∧ (∀ r, r ∈ uses (idata i) → ¬ Def bd0 b r → L b r)) →
  visiting bd →
  ∃ bd', foldM (λ s '(b, l), foldM (λ bd '(_, i), visit_inst f bd i b) s l) bd p = Ret bd'
    ∧ visiting bd' ∧ grows bd bd' ∧ ∀ b r, uses_in p b r → seen bd' b r.
Proof.
  intros Hbs Hp. revert bd Hp. induction p as [|[b l] p IH]; intros bd Hp Hv; cbn.
  { exists bd. split_and!; [done|done|done|].
    intros b r (? & ? & ? & H & _). by apply not_elem_of_nil in H. }
  destruct (Hp b l) as [Hb Hl]; [by left|].
  destruct (visit_block_ok f b l bd) as (bd1 & -> & Hv1 & Hg1 & Hs1); [done..|]. cbn.
  destruct (IH bd1) as (bd2 & -> & Hv2 & Hg2 & Hs2); [intros; eapply Hp; by right|done|].
  exists bd2. split_and!; [done|done|by etrans|].
  intros c r (l' & id & i & [[= -> ->]|Hin]%elem_of_cons & Hi & Hr).
  - eapply seen_grows; [exact Hg2|]. by eapply Hs1.
  - apply Hs2. by exists l', id, i.
Qed.
End Visit.

Lemma live_sets_are_liveness_aux (f : Function) (p : program) :
  func_ok f p → no_phi p →
  ∃ bd, live_in_out f = Ret bd
    ∧ ∀ b, b ∈ p.*1 → ∃ d, bd !! b = Some d
      ∧ ∀ r, (r ∈ def d ↔ defines p b r)
           ∧ (r ∈ live_in d ↔ live p (basic_blocks (fdata f)) r b)
           ∧ (r ∈ live_out d ↔ ∃ s, pred_of (basic_blocks (fdata f)) b s
                                  ∧ live p (basic_blocks (fdata f)) r s).
Proof.
  intros Hok Hphi. set (bs := basic_blocks (fdata f)).
  destruct (set_def_ok f p Hok) as (bd0 & Hd0 & Hdom & Hdef & Hin0 & Hout0).
  unfold live_in_out. rewrite Hd0. cbn. unfold visit. rewrite (for_blocks_view _ _ _ _ (ok_view _ _ Hok)).
  set (L := λ b r, live p bs r b).
  assert (Hdomb : ∀ b, b ∈ dom bd0 ↔ b ∈ p.*1) by (intros b; rewrite Hdom; apply elem_of_list_to_set).
  destruct (visit_blocks_ok bs L bd0) with (f := f) (p := p) (bd := bd0)
    as (bd & Hrun & (Hg & [Hci Hco] & [Hji Hjo]) & _ & Hs).
  { intros q s r Hq Hl Hnd. eapply live_flow; [done|done|]. by rewrite <-Hdef. }
  { intros b Hb%Hdomb. destruct (ok_preds _ _ Hok b Hb) as (blk & Hblk & Hq).
    exists blk. split; [done|]. intros q Hqq. apply Hdomb. auto. }
  { done. }
  { intros b l Hbl. split; [apply Hdomb; by apply (list_elem_of_fmap_2 fst) in Hbl|].
    intros id i Hi. split_and!; [by eapply Hphi|intros r; by eapply (ok_regs _ _ Hok)|].
    intros r Hr Hnd. apply live_use; [by exists l, id, i|by rewrite <-Hdef]. }
  { split_and!; [done|apply closed_new_refl|]. split; intros ? ? H;
      [by destruct (Hin0 _ _ H)|by destruct (Hout0 _ _ H)]. }
  exists bd. split; [done|]. intros b Hb.
  assert (Hlive : ∀ c r, live p bs r c → In bd c r).
  { intros c r Hl. induction Hl as [c Hu Hnd|c s Hq Hl IH Hnd].
    - destruct (Hs c r Hu) as [Hd|?]; [|done]. exfalso. by apply Hnd, Hdef.
    - destruct (Hco c r) as [Hd|?]; [by eapply Hci|apply Hout0| |done].
      exfalso. apply Hnd, Hdef. by apply (Def_grows _ _ _ _ Hg). }
  assert (b ∈ dom bd) as [d Hd]%elem_of_dom by (rewrite (grows_dom _ _ Hg); by apply Hdomb).
  exists d. split; [done|]. intros r. rewrite <-(getd_Some _ _ _ Hd). split_and!.
  - rewrite <-Hdef. by apply (Def_grows bd0).
  - split; [apply Hji|apply Hlive].
  - split; [apply Hjo|]. intros (s & Hq & Hl). eapply Hci; [by apply Hlive|apply Hin0|done].
Qed.

(** ** The conditions, as a check *)

Definition func_ok_b (f : Function) (p : program) : bool :=
  bool_decide (NoDup p.*1)
  && forallb (λ b, match basic_blocks (fdata f) !! b with
                   | Some blk => forallb (λ q, bool_decide (q ∈ p.*1)) (preds blk)
                   | None => false end) p.*1
  && forallb (λ x : _ * list (InstructionId * Instruction),
       forallb (λ y, forallb (λ r, bool_decide (rc r = 0%nat)) (all_regs (idata y.2))) x.2) p.

Definition no_phi_b (p : program) : bool :=
  forallb (λ x : _ * list (InstructionId * Instruction), forallb (λ y, negb (is_phi (idata y.2))) x.2) p.

Lemma func_ok_check f p : view f = Ret p → func_ok_b f p = true → func_ok f p.
Proof.
  intros Hv [[Hn Hp]%andb_true_iff Hr]%andb_true_iff. constructor; [done|by eapply bool_decide_eq_true_1| |].
  - intros b Hb. rewrite forallb_forall in Hp. specialize (Hp b). rewrite <-list_elem_of_In in Hp.
    specialize (Hp Hb). destruct (_ !! b) as [blk|]; [|done]. exists blk. split; [done|].
    intros q Hq. rewrite forallb_forall in Hp. specialize (Hp q). rewrite <-list_elem_of_In in Hp.
    eapply bool_decide_eq_true_1. by apply Hp.
  - intros b l id i r Hl Hi Hin. rewrite forallb_forall in Hr. specialize (Hr (b, l)).
    rewrite <-list_elem_of_In in Hr. specialize (Hr Hl). rewrite forallb_forall in Hr.
    specialize (Hr (id, i)). rewrite <-list_elem_of_In in Hr. specialize (Hr Hi).
    rewrite forallb_forall in Hr. specialize (Hr r). rewrite <-list_elem_of_In in Hr.
    eapply bool_decide_eq_true_1. by apply Hr.
Qed.

Lemma no_phi_check p : no_phi_b p = true → no_phi p.
Proof.
  intros H b l id i Hl Hi. unfold no_phi_b in H. rewrite forallb_forall in H. specialize (H (b, l)).
  rewrite <-list_elem_of_In in H. specialize (H Hl). rewrite forallb_forall in H.
  specialize (H (id, i)). rewrite <-list_elem_of_In in H. specialize (H Hi). cbn in H.
  by destruct (is_phi (idata i)).
Qed.

(** A loop that counts down without a phi. *)
Definition countdown : Function :=
  build [[]; [0; 1]; [1]]%nat
    [[{| opcode := MOVri; operands := [op_output (OVReg 0); op_new (Int32 7)] |};
      {| opcode := JMPi; operands := [op_new (OBlock 1)] |}];
     [{| opcode := SSTORE; operands := [op_input (OVReg 0); op_input (OReg (of_gr R1))] |};
      {| opcode := CJMPi; operands := [op_input (OVReg 0); op_new (OBlock 1)] |}];
     [{| opcode := MOVrr; operands := [op_output (OVReg 1); op_input (OVReg 0)] |};
      {| opcode := RET; operands := [] |}]]%nat.

Definition countdown_view : program := match view countdown with Ret p => p | _ => [] end.

Lemma countdown_ok : func_ok countdown countdown_view ∧ no_phi countdown_view.
Proof.
  split; [|apply no_phi_check; vm_compute; reflexivity].
  apply func_ok_check; vm_compute; reflexivity.
Qed.

(** C6: On a well-formed function without phi instructions, the liveness
    analysis returns, and for every block its def, live-in and live-out sets
    are exactly the registers defined in the block, live at its start and live
    at its end, liveness being defined by paths through blocks that do not
    define the register. *)
Theorem live_sets_are_liveness (f : Function) (p : program) :
  func_ok f p → no_phi p →
  ∃ bd, live_in_out f = Ret bd
    ∧ ∀ b, b ∈ p.*1 → ∃ d, bd !! b = Some d
      ∧ ∀ r, (r ∈ def d ↔ defines p b r)
           ∧ (r ∈ live_in d ↔ live p (basic_blocks (fdata f)) r b)
           ∧ (r ∈ live_out d ↔ ∃ s, pred_of (basic_blocks (fdata f)) b s
                                  ∧ live p (basic_blocks (fdata f)) r s).
Proof. apply live_sets_are_liveness_aux. Qed.

Lemma live_sets_are_liveness_witness :
  let f := countdown in let p := countdown_view in
  ∃ bd, live_in_out f = Ret bd
    ∧ ∀ b, b ∈ p.*1 → ∃ d, bd !! b = Some d
      ∧ ∀ r, (r ∈ def d ↔ defines p b r)
           ∧ (r ∈ live_in d ↔ live p (basic_blocks (fdata f)) r b)
           ∧ (r ∈ live_out d ↔ ∃ s, pred_of (basic_blocks (fdata f)) b s
                                  ∧ live p (basic_blocks (fdata f)) r s).
Proof. apply live_sets_are_liveness; apply countdown_ok. Defined.

(** ** Phi instructions

    A loop whose header compares its counter with the value the counter starts
    from.  The phi makes [propagate_reg] enter the start value in the header's
    live-in set and follow one predecessor only; the comparison then finds it
    there and stops. *)
Definition counting_loop : Function :=
  let i k d b := {| iid := Some k; idata := d; parent := b |} in
  {| fdata :=
    {| instructions :=
         [i 0 {| opcode := MOVri; operands := [op_output (OVReg 0); op_new (Int32 7)] |} 0;
          i 1 {| opcode := JMPi; operands := [op_new (OBlock 1)] |} 0;
          i 2 {| opcode := Phi; operands := [op_output (OVReg 1); op_input (OVReg 0); op_new (OBlock 0);
                                             op_input (OVReg 2); op_new (OBlock 2)] |} 1;
          i 3 {| opcode := GTE; operands := [op_output (OVReg 3); op_input (OVReg 0); op_input (OVReg 1)] |} 1;
          i 4 {| opcode := CJMPi; operands := [op_input (OVReg 3); op_new (OBlock 2)] |} 1;
          i 5 {| opcode := ADDri; operands := [op_output (OVReg 2); op_input (OVReg 1); op_new (Int32 1)] |} 2;
          i 6 {| opcode := JMPi; operands := [op_new (OBlock 1)] |} 2]%nat;
       basic_blocks := [{| preds := []; succs := [1] |}; {| preds := [0; 2]; succs := [2] |};
                        {| preds := [1]; succs := [1] |}]%nat;
       vregs := {| vmap := ∅; cur := 4 |}; vreg_users := ∅; used_csr := ∅ |};
    layout :=
      match foldM LayoutSpec.step Layout.new
        [LayoutSpec.AppendBlock 0; LayoutSpec.AppendBlock 1; LayoutSpec.AppendBlock 2;
         LayoutSpec.AppendInst 0 0; LayoutSpec.AppendInst 1 0; LayoutSpec.AppendInst 2 1;
         LayoutSpec.AppendInst 3 1; LayoutSpec.AppendInst 4 1; LayoutSpec.AppendInst 5 2;
         LayoutSpec.AppendInst 6 2]%nat with Ret L => L | _ => Layout.new end;
    slots := Slots.new; types := IrTypes.new 1; is_declaration := false; call_conv := SystemV |}.

Definition mentions (sel : InstructionData → list lreg) (p : program) b r : bool :=
  existsb (λ '(b', l), bool_decide (b' = b) && existsb (λ '(_, i), bool_decide (r ∈ sel (idata i))) l) p.

Lemma mentions_spec sel p b r :
  mentions sel p b r = true ↔ ∃ l id i, (b, l) ∈ p ∧ (id, i) ∈ l ∧ r ∈ sel (idata i).
Proof.
  unfold mentions. rewrite existsb_exists. split.
  - intros ([b' l] & Hl & [Hb%bool_decide_eq_true Hi]%andb_true_iff). subst b'.
    apply existsb_exists in Hi as ([id i] & Hi & Hr%bool_decide_eq_true).
    apply list_elem_of_In in Hl, Hi. by exists l, id, i.
  - intros (l & id & i & Hl & Hi & Hr). exists (b, l). split; [by apply list_elem_of_In|].
    rewrite bool_decide_true by done. apply existsb_exists. exists (id, i).
    split; [by apply list_elem_of_In|by apply bool_decide_true].
Qed.

Lemma not_mentioned sel p b r :
  mentions sel p b r = false → ¬ ∃ l id i, (b, l) ∈ p ∧ (id, i) ∈ l ∧ r ∈ sel (idata i).
Proof. intros H. rewrite <-mentions_spec. congruence. Qed.

(** In a counting loop whose header compares with the loop's start value, that
    value is live around the loop, but the analysis does not put it into the
    live sets of the loop body: the phi's use entered it in the header's live-
    in set and followed one predecessor only. *)
Theorem phi_use_cuts_liveness :
  ∃ p bd d, view counting_loop = Ret p ∧ live_in_out counting_loop = Ret bd
    ∧ bd !! 2%nat = Some d
    ∧ live p (basic_blocks (fdata counting_loop)) (Virt 0) 2
    ∧ (Virt 0 ∉ live_out d) ∧ (Virt 0 ∉ live_in d).
Proof.
  assert (Hrun : (bd ← live_in_out counting_loop; d ← unwrap (bd !! 2%nat);
    Ret (bool_decide (Virt 0 ∈ live_out d), bool_decide (Virt 0 ∈ live_in d))) = Ret (false, false))
    by (vm_compute; reflexivity).
  assert (Hview : (p ← view counting_loop;
    Ret (mentions uses p 1 (Virt 0), mentions defs p 1 (Virt 0), mentions defs p 2 (Virt 0)))
    = Ret (true, false, false)) by (vm_compute; reflexivity).
  apply bind_Ret in Hrun as (bd & Hbd & Hrun). apply bind_Ret in Hrun as (d & Hd%unwrap_Ret & [= Ho Hi]).
  apply bind_Ret in Hview as (p & Hp & [= Hu H1 H2]).
  apply bool_decide_eq_false in Ho, Hi. exists p, bd, d.
  split; [exact Hp|]. split; [exact Hbd|]. split; [exact Hd|]. split; [|exact (conj Ho Hi)].
  eapply (live_flow _ _ _ _ 1%nat).
  - exists {| preds := [0; 2]%nat; succs := [2%nat] |}.
    split; [vm_compute; reflexivity|right; left].
  - apply live_use; [by apply (mentions_spec uses)|exact (not_mentioned defs _ _ _ H1)].
  - exact (not_mentioned defs _ _ _ H2).
Qed.

End Liveness.
