(* ===== verification/LiveRanges.v ===== *)
(** Program points and live ranges (the second half of
    codegen/pass/liveness.rs): numbering the instructions of a function,
    building the live ranges of its registers from the live sets, and the
    operations register allocation performs on them. *)
From Stdlib Require Import Sorted.
From S2P Require Import Prelude LinkedLayout IrTypes Machine MFunction Liveness.

Module Ranges.
Import Reg Inst Data Func Points Liveness.
Local Open Scope Z_scope.

Definition with_block_data m (l : Liveness) : Liveness :=
  {| block_data := m; vreg_lrs_map := vreg_lrs_map l; reg_lrs_map := reg_lrs_map l;
     inst_to_pp := inst_to_pp l |}.
Definition with_vreg_lrs m (l : Liveness) : Liveness :=
  {| block_data := block_data l; vreg_lrs_map := m; reg_lrs_map := reg_lrs_map l;
     inst_to_pp := inst_to_pp l |}.
Definition with_reg_lrs m (l : Liveness) : Liveness :=
  {| block_data := block_data l; vreg_lrs_map := vreg_lrs_map l; reg_lrs_map := m;
     inst_to_pp := inst_to_pp l |}.
Definition with_pps m (l : Liveness) : Liveness :=
  {| block_data := block_data l; vreg_lrs_map := vreg_lrs_map l; reg_lrs_map := reg_lrs_map l;
     inst_to_pp := m |}.

(** ** Numbering one block *)

(** The local maps of the loop body, and the points given so far. *)
Record local := {
  inst_num : Z;
  local_v : gmap VReg LiveSegment;
  local_r : gmap RegUnit LiveRange;
  points : gmap InstructionId ProgramPoint;
}.

Definition seg (a b : ProgramPoint) : LiveSegment := {| start := a; end_ := b |}.

(** [local_vreg_lr_map.entry(v).or_insert_with(|| [s, s]).end = e] *)
Definition touch (s e : ProgramPoint) (m : gmap VReg LiveSegment) (v : VReg) : gmap VReg LiveSegment :=
  <[v := seg (start (default (seg s s) (m !! v))) e]> m.

(** [local_reg_lr_map.entry(u).or_insert_with(empty).0.push([p, p])] *)
Definition push_point (p : ProgramPoint) (m : gmap RegUnit LiveRange) (r : Reg) : comp (gmap RegUnit LiveRange) :=
  u ← to_reg_unit r; Ret (<[u := default [] (m !! u) ++ [seg p p]]> m).

(* [codegen/pass/liveness.rs | 272-321 | compute_program_points] *)
Definition number_inst (bn : Z) (st : local) (x : InstructionId * Instruction) : comp local :=
  let '(id, i) := x in
  let p := pp bn (inst_num st) in
  let lv := foldl (touch (pp bn 0) p) (local_v st) (input_vregs (idata i)) in
  lr ← foldM (push_point p) (local_r st) (input_regs (idata i));
  let lv := foldl (touch p p) lv (output_vregs (idata i)) in
  lr ← foldM (push_point p) lr (output_regs (idata i));
  n ← u32 (inst_num st + STEP);
  Ret {| inst_num := n; local_v := lv; local_r := lr; points := <[id := p]> (points st) |}.

(* [codegen/pass/liveness.rs | 247-268 | compute_program_points] *)
Definition enter_live_in (bn : Z) (st : local) (r : lreg) : local :=
  let s := seg (pp bn 0) (pp bn 0) in
  match r with
  | Virt v => {| inst_num := inst_num st; local_v := <[v := s]> (local_v st);
                 local_r := local_r st; points := points st |}
  | Phys u => {| inst_num := inst_num st; local_v := local_v st;
                 local_r := <[u := [s]]> (local_r st); points := points st |}
  end.

(** [last_mut().unwrap().end = e] *)
Definition set_last_end (e : ProgramPoint) (l : LiveRange) : comp LiveRange :=
  s ← unwrap (last l); Ret (but_last l ++ [seg (start s) e]).

Definition leave_live_out (bn : Z) (st : local) (r : lreg) : comp local :=
  let e := pp bn (inst_num st) in
  match r with
  | Virt v =>
      s ← unwrap (local_v st !! v);
      Ret {| inst_num := inst_num st; local_v := <[v := seg (start s) e]> (local_v st);
             local_r := local_r st; points := points st |}
  | Phys u =>
      l ← unwrap (local_r st !! u);
      l ← set_last_end e l;
      Ret {| inst_num := inst_num st; local_v := local_v st;
             local_r := <[u := l]> (local_r st); points := points st |}
  end.

Definition number_block (bn : Z) (d : BlockData) (pps : gmap InstructionId ProgramPoint)
    (insts : list (InstructionId * Instruction)) : comp local :=
  let st := foldl (enter_live_in bn)
              {| inst_num := 0; local_v := ∅; local_r := ∅; points := pps |} (elements (live_in d)) in
  st ← foldM (number_inst bn)
         {| inst_num := inst_num st + STEP; local_v := local_v st; local_r := local_r st;
            points := points st |} insts;
  foldM (leave_live_out bn) st (elements (live_out d)).

(** The local ranges are appended to the global ones. *)
Definition merge_block (l : Liveness) (st : local) : Liveness :=
  let vs := foldl (λ m '(v, s), <[v := default [] (m !! v) ++ [s]]> m) (vreg_lrs_map l)
              (map_to_list (local_v st)) in
  let rs := foldl (λ m '(u, r), <[u := default [] (m !! u) ++ r]> m) (reg_lrs_map l)
              (map_to_list (local_r st)) in
  {| block_data := block_data l; vreg_lrs_map := vs; reg_lrs_map := rs; inst_to_pp := points st |}.

(** [block_num as u32] truncates. *)
(* [codegen/pass/liveness.rs | 240-345 | compute_program_points] *)
Definition number_step (bnl : Z * Liveness) (b : BasicBlockId)
    (insts : list (InstructionId * Instruction)) : comp (Z * Liveness) :=
  let '(bn, l) := bnl in
  d ← unwrap (block_data l !! b);
  st ← number_block (bn mod 2 ^ 32) d (inst_to_pp l) insts;
  Ret (bn + 1, merge_block l st).

(* [codegen/pass/liveness.rs | pub fn compute_program_points] *)
Definition compute_program_points (f : Function) (l : Liveness) : comp Liveness :=
  r ← for_blocks f number_step (0, l); Ret r.2.

(* [codegen/pass/liveness.rs | pub fn analyze_function] *)
Definition analyze_function (f : Function) : comp Liveness :=
  bd ← live_in_out f; compute_program_points f (with_block_data bd new).

(** ** The range of one virtual register, from its users

    The [continue]s: a user that writes is not looked at as a reader. *)
Definition scan_user (pps : gmap InstructionId ProgramPoint)
    (acc : option ProgramPoint * option ProgramPoint) (u : VRegUser)
  : comp (option ProgramPoint * option ProgramPoint) :=
  let '(def_pp, use_pp) := acc in
  p ← unwrap (pps !! inst_id u);
  if write u then
    Ret (Some (match def_pp with None => p | Some d => if ltb p d then p else d end), use_pp)
  else if read u then
    Ret (def_pp, Some (match use_pp with None => p | Some q => if ltb q p then p else q end))
  else Ret (def_pp, use_pp).

(* [codegen/pass/liveness.rs | pub fn compute_live_ranges] *)
Definition compute_live_ranges (f : Function) (v : VReg) (l : Liveness) : comp Liveness :=
  users ← get_users (vreg_users (fdata f)) v;
  '(def_pp, use_pp) ← foldM (scan_user (inst_to_pp l)) (None, None) users;
  s ← unwrap def_pp; e ← unwrap use_pp;
  Ret (with_vreg_lrs (<[v := [seg s e]]> (vreg_lrs_map l)) l).

(* [codegen/pass/liveness.rs | pub fn vreg_range] *)
Definition vreg_range (l : Liveness) (v : VReg) : option LiveRange := vreg_lrs_map l !! v.

(* [codegen/pass/liveness.rs | pub fn interfere(&self, reg: RegUnit | Liveness::interfere] *)
Definition reg_interfere (l : Liveness) (u : RegUnit) (v : VReg) : comp bool :=
  match reg_lrs_map l !! u with
  | None => Ret false
  | Some r => x ← unwrap (vreg_lrs_map l !! v); Ret (Points.interfere x r)
  end.

(* [codegen/pass/liveness.rs | pub fn assign] *)
Definition assign (l : Liveness) (u : RegUnit) (v : VReg) : comp Liveness :=
  x ← unwrap (vreg_lrs_map l !! v);
  Ret (with_reg_lrs (<[u := merge (default [] (reg_lrs_map l !! u)) x]> (reg_lrs_map l)) l).

(* [codegen/pass/liveness.rs | fn remove_vreg_from_block_data] *)
Definition remove_vreg_from_block_data (v : VReg) (l : Liveness) : Liveness :=
  with_block_data ((λ d, {| def := def d; live_in := live_in d ∖ {[Virt v]};
                            live_out := live_out d ∖ {[Virt v]} |}) <$> block_data l) l.

(* [codegen/pass/liveness.rs | fn remove_vreg_live_ranges] *)
Definition remove_vreg_live_ranges (v : VReg) (l : Liveness) : Liveness :=
  with_vreg_lrs (delete v (vreg_lrs_map l)) l.

(* [codegen/pass/liveness.rs | pub fn remove_vreg(] *)
Definition remove_vreg (l : Liveness) (v : VReg) : Liveness :=
  remove_vreg_from_block_data v (remove_vreg_live_ranges v l).

(** ** Renumbering

    Points of the block of [from] at or after it move to
    [base + (point - from) * STEP]; the arithmetic is [u32], and every point of
    the maps is moved or the program panics. *)
Definition move_point (from : ProgramPoint) (base : Z) (p : ProgramPoint) : ProgramPoint :=
  if (blk p =? blk from) && (idx from <=? idx p)
  then pp (blk p) (base + (idx p - idx from) * STEP) else p.

Definition move_seg from base (s : LiveSegment) : LiveSegment :=
  seg (move_point from base (start s)) (move_point from base (end_ s)).

Definition points_of (l : Liveness) : list ProgramPoint :=
  (map_to_list (inst_to_pp l)).*2
  ++ concat (map (λ r, concat (map (λ s, [start s; end_ s]) r))
       ((map_to_list (reg_lrs_map l)).*2 ++ (map_to_list (vreg_lrs_map l)).*2)).

(* [codegen/pass/liveness.rs | pub fn recompute_program_points_after] *)
Definition recompute_program_points_after (l : Liveness) (from : ProgramPoint) (add_one_more_step : bool)
  : comp Liveness :=
  base ← u32 (idx from + (if add_one_more_step then 1 else 0) * STEP);
  _ ← assert_c (forallb (λ p, in_u32 (idx (move_point from base p))) (points_of l));
  Ret {| block_data := block_data l;
         vreg_lrs_map := map (move_seg from base) <$> vreg_lrs_map l;
         reg_lrs_map := map (move_seg from base) <$> reg_lrs_map l;
         inst_to_pp := move_point from base <$> inst_to_pp l |}.

(** Renumbering keeps the order of any two points. *)
Lemma move_point_lt from base a b :
  idx from ≤ base → lt (move_point from base a) (move_point from base b) ↔ lt a b.
Proof.
  intros Hb. unfold move_point, lt, STEP.
  destruct (Z.eqb_spec (blk a) (blk from)), (Z.leb_spec (idx from) (idx a)),
    (Z.eqb_spec (blk b) (blk from)), (Z.leb_spec (idx from) (idx b)); cbn; lia.
Qed.

Lemma move_seg_interfere from base x y :
  idx from ≤ base →
  seg_interfere (move_seg from base x) (move_seg from base y) = seg_interfere x y.
Proof.
  intros Hb. unfold seg_interfere, move_seg; cbn.
  f_equal; apply eq_true_iff_eq; rewrite !ltb_lt; by apply move_point_lt.
Qed.

Lemma move_range_interfere from base x y :
  idx from ≤ base →
  interfere (map (move_seg from base) x) (map (move_seg from base) y) = interfere x y.
Proof.
  intros Hb. apply eq_true_iff_eq. rewrite !interfere_true. split.
  - intros (a & b & (a' & -> & Ha)%list_elem_of_fmap & (b' & -> & Hb')%list_elem_of_fmap & H).
    exists a', b'. by rewrite move_seg_interfere in H.
  - intros (a & b & Ha & Hb' & H). exists (move_seg from base a), (move_seg from base b).
    rewrite move_seg_interfere by done. split_and!; [by apply list_elem_of_fmap_2..|done].
Qed.

(** ** What the numbering of a block establishes *)

(** [i] reads or writes [v]. *)
Definition mentions_v (i : Instruction) (v : VReg) : Prop :=
  v ∈ input_vregs (idata i) ∨ v ∈ output_vregs (idata i).

(** The point of the [j]-th instruction of a block. *)
Definition point_at (bn : Z) (j : nat) : ProgramPoint := pp bn (STEP * (Z.of_nat j + 1)).

(** [s] is a segment of block [bn] that holds the points in [l] where [v] is
    mentioned, and starts at the block's entry when [v] is live into it. *)
Record covers (bn : Z) (d : BlockData) (l : list (InstructionId * Instruction)) (v : VReg)
    (s : LiveSegment) : Prop := {
  cov_start : blk (start s) = bn;
  cov_end : blk (end_ s) = bn;
  cov_range : 0 ≤ idx (start s) ≤ idx (end_ s);
  cov_in : Virt v ∈ live_in d → idx (start s) = 0;
  cov_top : idx (end_ s) ≤ STEP * (Z.of_nat (length l) + 1);
  cov_inst : ∀ j id i, l !! j = Some (id, i) → mentions_v i v →
    idx (start s) ≤ idx (point_at bn j) ≤ idx (end_ s);
}.

Record numbered (bn : Z) (d : BlockData) (l : list (InstructionId * Instruction)) (st : local) : Prop := {
  nb_num : inst_num st = STEP * (Z.of_nat (length l) + 1);
  nb_has : ∀ v, is_Some (local_v st !! v) ↔ Virt v ∈ live_in d ∨ ∃ id i, (id, i) ∈ l ∧ mentions_v i v;
  nb_seg : ∀ v s, local_v st !! v = Some s → covers bn d l v s;
  nb_reg : ∀ u, Phys u ∈ live_in d ∨ (∃ id i, (id, i) ∈ l ∧ Phys u ∈ uses (idata i) ++ defs (idata i)) →
    ∃ r s, local_r st !! u = Some (r ++ [s]);
}.

Lemma touch_fold s e m vs v :
  foldl (touch s e) m vs !! v
  = if decide (v ∈ vs) then Some (seg (start (default (seg s s) (m !! v))) e) else m !! v.
Proof.
  revert m. induction vs as [|w vs IH]; intros m; cbn [foldl].
  { by rewrite decide_False by set_solver. }
  rewrite IH. unfold touch. destruct (decide (w = v)) as [->|Hne].
  - rewrite lookup_insert_eq. cbn. rewrite (decide_True (P := v ∈ v :: vs)) by (by left).
    by case_decide.
  - rewrite lookup_insert_ne by done.
    destruct (decide (v ∈ vs)); [rewrite decide_True by (by right)|rewrite decide_False by set_solver]; done.
Qed.

Lemma push_points p m rs :
  (∀ r, r ∈ rs → rc r = 0%nat) →
  ∃ m', foldM (push_point p) m rs = Ret m'
    ∧ (∀ u, Phys u ∈ omap phys_of rs → ∃ r s, m' !! u = Some (r ++ [s]))
    ∧ (∀ u r s, m !! u = Some (r ++ [s]) → ∃ r' s', m' !! u = Some (r' ++ [s'])).
Proof.
  revert m. induction rs as [|r rs IH]; intros m Hrc; cbn [foldM].
  { exists m. split_and!; [done| |eauto]. intros u Hu. by apply not_elem_of_nil in Hu. }
  assert (Hr : rc r = 0%nat) by (apply Hrc; by left).
  assert (Hstep : push_point p m r = Ret (<[unit_ 0 (num r):=default [] (m !! unit_ 0 (num r)) ++ [seg p p]]> m)).
  { unfold push_point, to_reg_unit. by rewrite Hr. }
  rewrite Hstep. cbn [mbind comp_bind].
  destruct (IH (<[unit_ 0 (num r):=default [] (m !! unit_ 0 (num r)) ++ [seg p p]]> m))
    as (m' & -> & H1 & H2); [intros; apply Hrc; by right|].
  assert (Hphys : phys_of r = Some (Phys (unit_ 0 (num r)))) by (unfold phys_of, to_reg_unit; by rewrite Hr).
  exists m'. split_and!; [done| |].
  - intros u. cbn. rewrite Hphys. intros [[= ->]|Hu]%elem_of_cons; [|by apply H1].
    eapply H2. apply lookup_insert_eq.
  - intros u l s Hu. destruct (decide (unit_ 0 (num r) = u)) as [<-|Hne].
    + eapply H2. by rewrite lookup_insert_eq.
    + eapply H2. by rewrite lookup_insert_ne.
Qed.

Lemma number_inst_numbered bn d l st id i :
  numbered bn d l st →
  (∀ r, r ∈ all_regs (idata i) → rc r = 0%nat) →
  STEP * (Z.of_nat (length l) + 2) ≤ u32_max →
  ∃ st', number_inst bn st (id, i) = Ret st' ∧ numbered bn d (l ++ [(id, i)]) st'
    ∧ points st' = <[id := point_at bn (length l)]> (points st).
Proof.
  intros [Hn Hh Hs Hr] Hrc Hmax. unfold number_inst.
  set (p := pp bn (inst_num st)).
  assert (Hregs : ∀ f : Operand → bool, ∀ r,
    r ∈ omap (λ o, if f o then reg_of (data o) else None) (operands (idata i)) → rc r = 0%nat).
  { intros g r Hin. apply Hrc. unfold all_regs. apply list_elem_of_omap in Hin as (o & Ho & Hso).
    apply list_elem_of_omap. exists o. split; [done|]. by destruct (g o). }
  destruct (push_points p (local_r st) (input_regs (idata i))) as (lr1 & -> & Ha1 & Ha2); [apply (Hregs input)|].
  cbn. destruct (push_points p lr1 (output_regs (idata i))) as (lr2 & -> & Hb1 & Hb2); [apply (Hregs output)|].
  cbn. rewrite u32_in by (rewrite Hn; unfold STEP in *; lia). cbn.
  eexists; split; [reflexivity|]. split; [|unfold p, point_at; by rewrite Hn].
  assert (Hp : p = point_at bn (length l)) by (unfold p, point_at; by rewrite Hn).
  assert (Hmen : ∀ v, (∃ id' i', (id', i') ∈ l ++ [(id, i)] ∧ mentions_v i' v)
    ↔ (∃ id' i', (id', i') ∈ l ∧ mentions_v i' v) ∨ mentions_v i v).
  { intros v. setoid_rewrite elem_of_app. setoid_rewrite list_elem_of_singleton. naive_solver. }
  assert (Hlook : ∀ v, foldl (touch p p) (foldl (touch (pp bn 0) p) (local_v st) (input_vregs (idata i)))
      (output_vregs (idata i)) !! v
    = if decide (v ∈ input_vregs (idata i)) then Some (seg (start (default (seg (pp bn 0) (pp bn 0)) (local_v st !! v))) p)
      else if decide (v ∈ output_vregs (idata i)) then Some (seg (start (default (seg p p) (local_v st !! v))) p)
      else local_v st !! v).
  { intros v. rewrite !touch_fold. by repeat case_decide. }
  constructor; cbn.
  - rewrite Hn, length_app. cbn. unfold STEP. lia.
  - intros v. rewrite Hmen, (assoc or), <-Hh, Hlook. unfold mentions_v.
    repeat case_decide; split; intros; try (by eauto); try tauto.
  - intros v s. rewrite Hlook. intros Hv.
    assert (Hgrow : ∀ a, covers bn d l v a → mentions_v i v → covers bn d (l ++ [(id, i)]) v (seg (start a) p)).
    { intros a [C1 C2 C3 C4 C5 C6] _. rewrite Hp. constructor; cbn; try done.
      - unfold STEP in *. lia.
      - rewrite length_app. cbn. unfold STEP. lia.
      - intros j id' i' Hj Hm'. apply lookup_app_Some in Hj as [Hj|[Hj1 Hj2]].
        + pose proof (lookup_lt_Some _ _ _ Hj). destruct (C6 _ _ _ Hj Hm') as [? _]. cbn in *.
          unfold STEP in *. lia.
        + destruct (j - length l)%nat eqn:E; cbn in Hj2; [|done].
          replace j with (length l) by lia. unfold STEP in *. lia. }
    assert (Hnew : ∀ k, 0 ≤ k ≤ idx p → local_v st !! v = None → mentions_v i v →
      covers bn d (l ++ [(id, i)]) v (seg (pp bn k) p)).
    { intros k Hk Hnone Hm. rewrite Hp in *. cbn in Hk.
      assert (Hno : ¬ (Virt v ∈ live_in d ∨ ∃ id' i', (id', i') ∈ l ∧ mentions_v i' v)).
      { rewrite <-Hh, Hnone. by intros [??]. }
      constructor; cbn; try done.
      - tauto.
      - rewrite length_app. cbn. unfold STEP. lia.
      - intros j id' i' Hj Hm'. apply lookup_app_Some in Hj as [Hj|[Hj1 Hj2]].
        + exfalso. apply Hno. right. exists id', i'. split; [by eapply list_elem_of_lookup_2|done].
        + destruct (j - length l)%nat eqn:E; cbn in Hj2; [|done].
          replace j with (length l) by lia. unfold STEP in *. lia. }
    assert (Hidx : 0 ≤ idx p) by (rewrite Hp; cbn; unfold STEP; lia).
    repeat case_decide; [injection Hv as <-|injection Hv as <-|].
    + destruct (local_v st !! v) as [a|] eqn:Ea; cbn.
      * apply Hgrow; [by apply Hs|by left].
      * apply Hnew; [lia|done|by left].
    + destruct (local_v st !! v) as [a|] eqn:Ea; cbn.
      * apply Hgrow; [by apply Hs|by right].
      * apply (Hnew (idx p)); [lia|done|by right].
    + destruct (Hs _ _ Hv) as [C1 C2 C3 C4 C5 C6]. constructor; try done.
      * rewrite length_app. cbn. unfold STEP in *. lia.
      * intros j id' i' Hj Hm'. apply lookup_app_Some in Hj as [Hj|[Hj1 Hj2]]; [by eapply C6|].
        destruct (j - length l)%nat; cbn in Hj2; [|done]. injection Hj2 as <- <-.
        by destruct Hm'.
  - intros u Hu.
    assert (Hold : (∃ r s, lr1 !! u = Some (r ++ [s])) → ∃ r s, lr2 !! u = Some (r ++ [s])).
    { intros (r & s & Hl). by eapply Hb2. }
    destruct Hu as [Hu|(id' & i' & Hin & Hu)].
    + destruct (Hr u) as (r & s & Hl); [by left|]. apply Hold. by eapply Ha2.
    + apply elem_of_app in Hin as [Hin|Hin].
      * destruct (Hr u) as (r & s & Hl); [right; by exists id', i'|]. apply Hold. by eapply Ha2.
      * apply list_elem_of_singleton in Hin. injection Hin as -> ->.
        unfold uses, defs in Hu. rewrite !elem_of_app in Hu.
        destruct Hu as [[Hu|Hu]|[Hu|Hu]].
        -- by apply list_elem_of_fmap in Hu as (? & ? & _).
        -- apply Hold. by apply Ha1.
        -- by apply list_elem_of_fmap in Hu as (? & ? & _).
        -- by apply Hb1.
Qed.

Lemma enter_live_in_fold bn rs st :
  let st' := foldl (enter_live_in bn) st rs in
  inst_num st' = inst_num st ∧ points st' = points st
  ∧ (∀ v, local_v st' !! v = if decide (Virt v ∈ rs) then Some (seg (pp bn 0) (pp bn 0)) else local_v st !! v)
  ∧ (∀ u, Phys u ∈ rs ∨ local_r st !! u = Some [seg (pp bn 0) (pp bn 0)] →
       local_r st' !! u = Some [seg (pp bn 0) (pp bn 0)]).
Proof.
  revert st. induction rs as [|r rs IH]; intros st; cbn [foldl].
  { split_and!; [done|done| |].
    - intros v. by rewrite decide_False by (apply not_elem_of_nil).
    - intros u [H|H]; [by apply not_elem_of_nil in H|done]. }
  destruct (IH (enter_live_in bn st r)) as (H1 & H2 & H3 & H4). split_and!.
  - rewrite H1. by destruct r.
  - rewrite H2. by destruct r.
  - intros v. rewrite H3. destruct (decide (Virt v ∈ rs)) as [Hin|Hin].
    { by rewrite decide_True by (by right). }
    destruct r as [u|w]; cbn.
    + rewrite decide_False; [done|]. by intros [[=]|?]%elem_of_cons.
    + destruct (decide (v = w)) as [->|Hne].
      * by rewrite lookup_insert_eq, decide_True by (by left).
      * rewrite lookup_insert_ne, decide_False by (done || (by intros [[=]|?]%elem_of_cons)). done.
  - intros u Hu. apply H4. destruct Hu as [[Hr|Hr]%elem_of_cons|Hu]; [right|by left|right].
    + subst r. cbn. apply lookup_insert_eq.
    + destruct r as [u'|w]; cbn; [|done]. destruct (decide (u' = u)) as [->|Hne].
      * apply lookup_insert_eq.
      * by rewrite lookup_insert_ne.
Qed.

Lemma number_insts_numbered bn d l l' st :
  numbered bn d l st →
  (∀ id i r, (id, i) ∈ l' → r ∈ all_regs (idata i) → rc r = 0%nat) →
  NoDup (l ++ l').*1 →
  (∀ j id i, l !! j = Some (id, i) → points st !! id = Some (point_at bn j)) →
  STEP * (Z.of_nat (length (l ++ l')) + 1) ≤ u32_max →
  ∃ st', foldM (number_inst bn) st l' = Ret st' ∧ numbered bn d (l ++ l') st'
    ∧ (∀ j id i, (l ++ l') !! j = Some (id, i) → points st' !! id = Some (point_at bn j))
    ∧ (∀ id, id ∉ l'.*1 → points st' !! id = points st !! id).
Proof.
  revert l st. induction l' as [|[id i] l' IH]; intros l st Hn Hrc Hnd Hpts Hmax.
  { rewrite app_nil_r. exists st. by split_and!. }
  cbn [foldM]. destruct (number_inst_numbered bn d l st id i) as (st1 & -> & Hn1 & Hp1).
  { done. } { intros r. eapply Hrc. by left. }
  { rewrite length_app in Hmax. cbn in Hmax. unfold STEP in *. lia. }
  cbn [mbind comp_bind]. rewrite (cons_middle (id, i)), (app_assoc l) in Hnd, Hmax |- *.
  assert (Hfresh : ∀ j id' i', l !! j = Some (id', i') → id' ≠ id).
  { intros j id' i' Hj ->. rewrite <-app_assoc, fmap_app in Hnd. cbn in Hnd.
    apply NoDup_app in Hnd as (_ & Hd & _). apply (Hd id); [|by left].
    apply list_elem_of_lookup_2 in Hj. by apply (list_elem_of_fmap_2 fst) in Hj. }
  destruct (IH (l ++ [(id, i)]) st1) as (st2 & -> & Hn2 & Hp2 & Ho2); [done| |done| |done|].
  { intros ? ? ? H. eapply Hrc. by right. }
  { intros j id' i' Hj. rewrite Hp1. apply lookup_app_Some in Hj as [Hj|[Hj1 Hj2]].
    - rewrite lookup_insert_ne; [by eapply Hpts|]. intros <-. by eapply Hfresh.
    - destruct (j - length l)%nat eqn:E; cbn in Hj2; [|done]. injection Hj2 as <- <-.
      rewrite lookup_insert_eq. do 2 f_equal. lia. }
  exists st2. split_and!; [done|done|done|]. intros id' Hid'. cbn in Hid'.
  rewrite Ho2, Hp1, lookup_insert_ne; [done| |].
  - intros <-. apply Hid'. by left.
  - intros H. apply Hid'. by right.
Qed.

(** What is kept of a block once its number is done. *)
Record block_numbered (bn : Z) (d : BlockData) (l : list (InstructionId * Instruction))
    (pps : gmap InstructionId ProgramPoint) (st : local) : Prop := {
  bk_has : ∀ v, is_Some (local_v st !! v) ↔ Virt v ∈ live_in d ∨ ∃ id i, (id, i) ∈ l ∧ mentions_v i v;
  bk_seg : ∀ v s, local_v st !! v = Some s → covers bn d l v s
    ∧ (Virt v ∈ live_out d → idx (end_ s) = STEP * (Z.of_nat (length l) + 1));
  bk_points : ∀ j id i, l !! j = Some (id, i) → points st !! id = Some (point_at bn j);
  bk_other : ∀ id, id ∉ l.*1 → points st !! id = pps !! id;
}.

Lemma leave_fold bn rs st :
  (∀ v, Virt v ∈ rs → is_Some (local_v st !! v)) →
  (∀ u, Phys u ∈ rs → ∃ r s, local_r st !! u = Some (r ++ [s])) →
  ∃ st', foldM (leave_live_out bn) st rs = Ret st' ∧ points st' = points st
    ∧ ∀ v, local_v st' !! v = if decide (Virt v ∈ rs)
        then (λ s, seg (start s) (pp bn (inst_num st))) <$> local_v st !! v else local_v st !! v.
Proof.
  revert st. induction rs as [|r rs IH]; intros st Hv Hp; cbn [foldM].
  { exists st. split_and!; [done|done|]. intros v. by rewrite decide_False by apply not_elem_of_nil. }
  destruct r as [u|w].
  - destruct (Hp u) as (r & s & Hr); [by left|].
    assert (Hstep : leave_live_out bn st (Phys u) = Ret {| inst_num := inst_num st;
      local_v := local_v st; points := points st;
      local_r := <[u := r ++ [seg (start s) (pp bn (inst_num st))]]> (local_r st) |}).
    { unfold leave_live_out, set_last_end. rewrite Hr. cbn. by rewrite last_snoc, but_last_snoc. }
    rewrite Hstep. cbn [mbind comp_bind].
    edestruct IH as (st' & -> & H1 & H2); [intros v Hin; apply Hv; by right| |].
    { intros u' Hin. cbn. destruct (decide (u = u')) as [->|Hne].
      - rewrite lookup_insert_eq. eauto.
      - rewrite lookup_insert_ne by done. apply Hp. by right. }
    exists st'. split_and!; [done|by rewrite H1|]. intros v. rewrite H2. cbn.
    destruct (decide (Virt v ∈ rs)) as [Hin|Hin]; [by rewrite decide_True by (by right)|].
    rewrite decide_False; [done|]. by intros [[=]|?]%elem_of_cons.
  - destruct (Hv w) as [s Hs]; [by left|].
    assert (Hstep : leave_live_out bn st (Virt w) = Ret {| inst_num := inst_num st;
      local_v := <[w := seg (start s) (pp bn (inst_num st))]> (local_v st); points := points st;
      local_r := local_r st |}).
    { unfold leave_live_out. by rewrite Hs. }
    rewrite Hstep. cbn [mbind comp_bind].
    edestruct IH as (st' & -> & H1 & H2); [| |].
    { intros v Hin. cbn. destruct (decide (w = v)) as [->|Hne].
      - rewrite lookup_insert_eq. eauto.
      - rewrite lookup_insert_ne by done. apply Hv. by right. }
    { intros u Hin. apply Hp. by right. }
    exists st'. split_and!; [done|by rewrite H1|]. intros v. rewrite H2. cbn.
    destruct (decide (w = v)) as [->|Hne].
    + rewrite lookup_insert_eq, Hs, (decide_True (P := Virt v ∈ Virt v :: rs)) by (by left). by case_decide.
    + rewrite lookup_insert_ne by done. destruct (decide (Virt v ∈ rs)).
      * by rewrite decide_True by (by right).
      * rewrite decide_False; [done|]. intros [[=]|?]%elem_of_cons; congruence.
Qed.

Lemma number_block_ok bn d l pps :
  (∀ id i r, (id, i) ∈ l → r ∈ all_regs (idata i) → rc r = 0%nat) →
  NoDup l.*1 →
  STEP * (Z.of_nat (length l) + 1) ≤ u32_max →
  (∀ r, r ∈ live_out d → r ∈ live_in d ∨ ∃ id i, (id, i) ∈ l ∧ r ∈ defs (idata i)) →
  ∃ st, number_block bn d pps l = Ret st ∧ block_numbered bn d l pps st.
Proof.
  intros Hrc Hnd Hmax Hout. unfold number_block.
  pose proof (enter_live_in_fold bn (elements (live_in d))
    {| inst_num := 0; local_v := ∅; local_r := ∅; points := pps |}) as He.
  cbv zeta in He. destruct He as (H1 & H2 & H3 & H4).
  set (st0 := foldl (enter_live_in bn) _ _) in *. cbn in H1, H2, H3, H4.
  destruct (number_insts_numbered bn d [] l
    {| inst_num := inst_num st0 + STEP; local_v := local_v st0; local_r := local_r st0;
       points := points st0 |}) as (st1 & -> & [Hn Hh Hs Hr] & Hp & Ho); [|done..|]; [|cbn [app] in *].
  { constructor; cbn.
    - rewrite H1. done.
    - intros v. rewrite H3, lookup_empty. split.
      + case_decide as Hin; [|by intros [??]]. intros _. left. by apply elem_of_elements.
      + intros [Hin|(? & ? & Hin & _)]; [|by apply not_elem_of_nil in Hin].
        rewrite decide_True; [eauto|by apply elem_of_elements].
    - intros v s. rewrite H3, lookup_empty. case_decide as Hin; [|done]. intros [= <-].
      constructor; cbn; try done; try (unfold STEP; lia).
    - intros u [Hin|(? & ? & Hin & _)]; [|by apply not_elem_of_nil in Hin].
      exists [], (seg (pp bn 0) (pp bn 0)). apply H4. left. by apply elem_of_elements. }
  cbn. destruct (leave_fold bn (elements (live_out d)) st1) as (st2 & -> & K1 & K2).
  { intros v Hv%elem_of_elements. apply Hh. destruct (Hout _ Hv) as [?|(id & i & Hin & Hd)]; [by left|].
    right. exists id, i. split; [done|]. right. unfold defs in Hd.
    apply elem_of_app in Hd as [Hd|Hd]; [by apply list_elem_of_fmap in Hd as (? & [= ->] & ?)|].
    apply list_elem_of_omap in Hd as (r & _ & Hd). unfold phys_of in Hd. by destruct (to_reg_unit r). }
  { intros u Hu%elem_of_elements. apply Hr. destruct (Hout _ Hu) as [?|(id & i & Hin & Hd)]; [by left|].
    right. exists id, i. split; [done|]. apply elem_of_app. by right. }
  exists st2. split; [done|]. constructor.
  - intros v. rewrite <-Hh, K2. case_decide; [|done]. by rewrite fmap_is_Some.
  - intros v s Hvs. rewrite K2 in Hvs. rewrite Hn in Hvs. case_decide as Hin.
    + apply fmap_Some in Hvs as (a & Ha & ->). destruct (Hs _ _ Ha) as [C1 C2 C3 C4 C5 C6].
      split; [|done]. constructor; cbn; [done|done|lia|done|lia|].
      intros j id i Hj Hm. destruct (C6 _ _ _ Hj Hm). cbn in *. lia.
    + split; [by apply Hs|]. intros Hin'. exfalso. by apply Hin, elem_of_elements.
  - intros j id i Hj. rewrite K1. by eapply Hp.
  - intros id Hid. rewrite K1, Ho by done. by rewrite H2.
Qed.

(** ** The whole function *)

Lemma elem_of_concat_snd {A B} (l : list (A * list B)) a k x :
  (a, k) ∈ l → x ∈ k → x ∈ concat l.*2.
Proof.
  induction l as [|[c j] l IH]; cbn; intros H Hx; [by apply not_elem_of_nil in H|].
  apply elem_of_app. apply elem_of_cons in H as [[= <- <-]|H]; auto.
Qed.

Lemma NoDup_fst_unique {A B} (l : list (A * B)) a b c :
  NoDup l.*1 → (a, b) ∈ l → (a, c) ∈ l → b = c.
Proof.
  intros Hn Hb Hc. apply list_elem_of_lookup in Hb as [i Hi], Hc as [j Hj].
  assert (i = j) as ->; [|congruence].
  eapply (NoDup_lookup l.*1); [done|by rewrite list_lookup_fmap, Hi|by rewrite list_lookup_fmap, Hj].
Qed.

Lemma append_fold (l : list (VReg * LiveSegment)) (m : gmap VReg LiveRange) v :
  NoDup l.*1 →
  foldl (λ m '(v, s), <[v := default [] (m !! v) ++ [s]]> m) m l !! v
  = match (list_to_map l : gmap VReg LiveSegment) !! v with
    | Some s => Some (default [] (m !! v) ++ [s])
    | None => m !! v
    end.
Proof.
  revert m. induction l as [|[w s] l IH]; intros m Hn; cbn [foldl].
  { by rewrite list_to_map_nil, lookup_empty. }
  cbn in Hn. apply NoDup_cons in Hn as [Hw Hn]. rewrite IH, list_to_map_cons by done.
  destruct (decide (w = v)) as [->|Hne].
  - rewrite !lookup_insert_eq, not_elem_of_list_to_map_1 by done. done.
  - rewrite !lookup_insert_ne by done. done.
Qed.

Lemma merge_block_lookup l st v :
  vreg_lrs_map (merge_block l st) !! v
  = match local_v st !! v with
    | Some s => Some (default [] (vreg_lrs_map l !! v) ++ [s])
    | None => vreg_lrs_map l !! v
    end.
Proof.
  unfold merge_block; cbn. rewrite append_fold by apply NoDup_fst_map_to_list.
  by rewrite list_to_map_to_list.
Qed.

(** The segments a vreg got from the blocks numbered so far. *)
Definition range_of (l : Liveness) (v : VReg) : LiveRange := default [] (vreg_lrs_map l !! v).

(** [s] is what the [k]-th block [(b, insts)] contributes to the range of [v]. *)
Definition contributes (l : Liveness) (k : nat) (b : BasicBlockId)
    (insts : list (InstructionId * Instruction)) (v : VReg) (s : LiveSegment) : Prop :=
  ∃ d, block_data l !! b = Some d ∧ covers (Z.of_nat k) d insts v s
    ∧ (Virt v ∈ live_out d → idx (end_ s) = STEP * (Z.of_nat (length insts) + 1)).

Record ranges_ok (p : program) (l : Liveness) : Prop := {
  rg_points : ∀ k b insts j id i, p !! k = Some (b, insts) → insts !! j = Some (id, i) →
    inst_to_pp l !! id = Some (point_at (Z.of_nat k) j);
  rg_covered : ∀ k b insts d v, p !! k = Some (b, insts) → block_data l !! b = Some d →
    Virt v ∈ live_in d ∨ (∃ id i, (id, i) ∈ insts ∧ mentions_v i v) →
    ∃ s, s ∈ range_of l v ∧ contributes l k b insts v s;
  rg_from : ∀ v s, s ∈ range_of l v → ∃ k b insts, p !! k = Some (b, insts) ∧ contributes l k b insts v s;
  rg_sorted : ∀ v, StronglySorted (λ s t, blk (start s) < blk (start t)) (range_of l v);
}.

(** Nothing is numbered twice, and the numbers fit. *)
Record countable_program (p : program) : Prop := {
  cp_ids : NoDup (concat p.*2).*1;
  cp_insts : ∀ b insts, (b, insts) ∈ p → STEP * (Z.of_nat (length insts) + 1) ≤ u32_max;
  cp_blocks : Z.of_nat (length p) ≤ 2 ^ 32;
}.

Lemma StronglySorted_snoc {A} (R : A → A → Prop) l x :
  StronglySorted R l → (∀ y, y ∈ l → R y x) → StronglySorted R (l ++ [x]).
Proof.
  induction 1 as [|y l Hs IH Hf]; intros H; cbn; [repeat constructor|].
  constructor; [apply IH; intros; apply H; by right|].
  apply Forall_app. split; [done|]. constructor; [apply H; by left|constructor].
Qed.

Lemma number_step_ok p b insts l :
  ranges_ok p l → countable_program (p ++ [(b, insts)]) →
  (∀ id i r, (id, i) ∈ insts → r ∈ all_regs (idata i) → rc r = 0%nat) →
  (∃ d, block_data l !! b = Some d
     ∧ ∀ r, r ∈ live_out d → r ∈ live_in d ∨ ∃ id i, (id, i) ∈ insts ∧ r ∈ defs (idata i)) →
  ∃ l', number_step (Z.of_nat (length p), l) b insts = Ret (Z.of_nat (length (p ++ [(b, insts)])), l')
    ∧ ranges_ok (p ++ [(b, insts)]) l' ∧ block_data l' = block_data l.
Proof.
  intros [Hpt Hcov Hfrom Hsort] [Hids Hlen Hblocks] Hrc (d & Hd & Hout).
  rewrite fmap_app, concat_app, fmap_app in Hids. cbn in Hids. rewrite app_nil_r in Hids.
  apply NoDup_app in Hids as (_ & Hdisj & Hnd).
  rewrite length_app in Hblocks. cbn in Hblocks.
  assert (Hmod : Z.of_nat (length p) mod 2 ^ 32 = Z.of_nat (length p)) by (apply Z.mod_small; lia).
  destruct (number_block_ok (Z.of_nat (length p)) d insts (inst_to_pp l))
    as (st & Hst & [Hh Hs Hp Ho]); [done..|apply (Hlen b); set_solver|done|].
  unfold number_step. rewrite Hd. cbn [unwrap mbind comp_bind]. rewrite Hmod, Hst. cbn [mbind comp_bind].
  exists (merge_block l st). split; [|split; [|done]].
  { do 2 f_equal. rewrite length_app. cbn. lia. }
  assert (Hrange : ∀ v, range_of (merge_block l st) v
    = range_of l v ++ match local_v st !! v with Some s => [s] | None => [] end).
  { intros v. unfold range_of. rewrite merge_block_lookup. destruct (local_v st !! v); cbn; [done|].
    by rewrite app_nil_r. }
  assert (Hlast : ∀ v s, local_v st !! v = Some s → contributes (merge_block l st) (length p) b insts v s).
  { intros v s Hvs. exists d. split; [done|]. by apply Hs. }
  constructor.
  - intros k c is_ j id i Hk Hj. apply lookup_app_Some in Hk as [Hk|[Hk1 Hk2]].
    + cbn. rewrite Ho; [by eapply Hpt|]. intros Hin. eapply Hdisj; [|exact Hin].
      apply list_elem_of_lookup_2 in Hk, Hj. apply list_elem_of_fmap. exists (id, i).
      split; [done|by eapply elem_of_concat_snd].
    + destruct (k - length p)%nat eqn:E; cbn in Hk2; [|done]. injection Hk2 as -> ->.
      replace k with (length p) by lia. cbn. by eapply Hp.
  - intros k c is_ d' v Hk Hd' Hv. apply lookup_app_Some in Hk as [Hk|[Hk1 Hk2]].
    + destruct (Hcov _ _ _ _ _ Hk Hd' Hv) as (s & Hin & Hc). exists s. rewrite Hrange.
      split; [apply elem_of_app; by left|done].
    + destruct (k - length p)%nat eqn:E; cbn in Hk2; [|done]. injection Hk2 as -> ->.
      cbn in Hd'. rewrite Hd in Hd'. injection Hd' as <-.
      destruct (proj2 (Hh v) Hv) as [s Hvs]. exists s. rewrite Hrange, Hvs.
      split; [apply elem_of_app; right; by left|]. replace k with (length p) by lia. by apply Hlast.
  - intros v s. rewrite Hrange. intros [Hin|Hin]%elem_of_app.
    + destruct (Hfrom v s Hin) as (k & c & is_ & Hk & Hc). exists k, c, is_.
      split; [by apply lookup_app_l_Some|done].
    + destruct (local_v st !! v) as [t|] eqn:Et; [|by apply not_elem_of_nil in Hin].
      apply list_elem_of_singleton in Hin as ->. exists (length p), b, insts.
      split; [by apply list_lookup_middle|by apply Hlast].
  - intros v. rewrite Hrange. destruct (local_v st !! v) as [t|] eqn:Et; [|by rewrite app_nil_r].
    apply StronglySorted_snoc; [done|]. intros s Hin.
    destruct (Hfrom v s Hin) as (k & c & is_ & Hk & d' & _ & [C1 _ _ _ _ _] & _).
    destruct (Hlast _ _ Et) as (d'' & _ & [D1 _ _ _ _ _] & _). rewrite C1, D1.
    apply lookup_lt_Some in Hk. lia.
Qed.

Lemma countable_prefix p q : countable_program (p ++ q) → countable_program p.
Proof.
  intros [H1 H2 H3]. split.
  - rewrite fmap_app, concat_app, fmap_app in H1. by apply NoDup_app in H1 as (? & _ & _).
  - intros b insts Hin. apply (H2 b). apply elem_of_app. by left.
  - rewrite length_app in H3. lia.
Qed.

Lemma number_steps_ok p q l :
  ranges_ok p l → countable_program (p ++ q) →
  (∀ b insts, (b, insts) ∈ q →
     (∀ id i r, (id, i) ∈ insts → r ∈ all_regs (idata i) → rc r = 0%nat)
     ∧ ∃ d, block_data l !! b = Some d
        ∧ ∀ r, r ∈ live_out d → r ∈ live_in d ∨ ∃ id i, (id, i) ∈ insts ∧ r ∈ defs (idata i)) →
  ∃ l', foldM (λ s '(b, insts), number_step s b insts) (Z.of_nat (length p), l) q
      = Ret (Z.of_nat (length (p ++ q)), l')
    ∧ ranges_ok (p ++ q) l' ∧ block_data l' = block_data l.
Proof.
  revert p l. induction q as [|[b insts] q IH]; intros p l Hr Hc Hq; cbn [foldM].
  { rewrite app_nil_r. by exists l. }
  rewrite (cons_middle (b, insts)), app_assoc in Hc |- *.
  destruct (Hq b insts) as [Hrc Hd]; [by left|].
  destruct (number_step_ok p b insts l) as (l1 & -> & Hr1 & Hb1); [done|by eapply countable_prefix|done|done|].
  cbn [mbind comp_bind].
  destruct (IH (p ++ [(b, insts)]) l1) as (l2 & -> & Hr2 & Hb2); [done|done| |].
  { rewrite Hb1. intros c is_ Hin. apply Hq. by right. }
  exists l2. split_and!; [done|done|congruence].
Qed.

(** C11: On a well-formed function without phi instructions that is small
    enough for 32-bit program points, analyze_function returns; every
    instruction gets the point of its position, each virtual register's range
    has at most one segment per block in block order, and the segment in a
    block where the register is live or mentioned covers every mention,
    reaches back to the block's start when the register is live in and forward
    to its end when it is live out. *)
Theorem analyze_function_covers (f : Function) (p : program) :
  func_ok f p → no_phi p → countable_program p →
  ∃ l, analyze_function f = Ret l
    ∧ (∀ k b insts j id i, p !! k = Some (b, insts) → insts !! j = Some (id, i) →
         inst_to_pp l !! id = Some (point_at (Z.of_nat k) j))
    ∧ (∀ v, StronglySorted (λ s t, blk (start s) < blk (start t)) (range_of l v))
    ∧ ∀ k b insts v, p !! k = Some (b, insts) →
        let bs := basic_blocks (fdata f) in
        live p bs (Virt v) b ∨ (∃ id i, (id, i) ∈ insts ∧ mentions_v i v) →
        ∃ s, s ∈ range_of l v
          ∧ blk (start s) = Z.of_nat k ∧ blk (end_ s) = Z.of_nat k
          ∧ (live p bs (Virt v) b → idx (start s) = 0)
          ∧ ((∃ c, pred_of bs b c ∧ live p bs (Virt v) c) →
               idx (end_ s) = STEP * (Z.of_nat (length insts) + 1))
          ∧ ∀ j id i, insts !! j = Some (id, i) → mentions_v i v →
              idx (start s) ≤ STEP * (Z.of_nat j + 1) ≤ idx (end_ s).
Proof.
  intros Hok Hphi Hc. destruct (live_sets_are_liveness_aux f p Hok Hphi) as (bd & Hbd & Hspec).
  unfold analyze_function, compute_program_points. rewrite Hbd. cbn [mbind comp_bind].
  rewrite (for_blocks_view _ _ _ _ (ok_view _ _ Hok)).
  destruct (number_steps_ok [] p (with_block_data bd new)) as (l & Hl & [Hpt Hcov _ Hsort] & Hb).
  { constructor; cbn; intros; try done; try (by rewrite lookup_nil in *).
    - unfold range_of in *; cbn in *. by rewrite lookup_empty in *; apply not_elem_of_nil in H.
    - unfold range_of; cbn. rewrite lookup_empty. constructor. }
  { done. }
  { intros b insts Hin. split; [intros id i r; by eapply (ok_regs _ _ Hok)|].
    destruct (Hspec b) as (d & Hd & Hr); [by apply (list_elem_of_fmap_2 fst) in Hin|].
    exists d. split; [done|]. intros r Ho. destruct (Hr r) as (Hdef & Hi & Hou).
    destruct (decide (r ∈ def d)) as [Hdd|Hnd].
    - right. apply Hdef in Hdd as (l' & id & i & Hl' & Hii & Hrr).
      assert (l' = insts) as -> by (eapply (NoDup_fst_unique p); [apply (ok_blocks _ _ Hok)|done|done]).
      by exists id, i.
    - left. apply Hi. apply Hou in Ho as (c & Hpc & Hlc). eapply live_flow; [done|done|]. by rewrite <-Hdef. }
  exists l. change (Z.of_nat (length (@nil (BasicBlockId * list (InstructionId * Instruction))))) with 0 in Hl.
  cbn [app] in Hl. rewrite Hl. cbn. split_and!; [done|done|done|].
  intros k b insts v Hk Hv.
  destruct (Hspec b) as (d & Hd & Hr).
  { apply list_elem_of_lookup_2 in Hk. by apply (list_elem_of_fmap_2 fst) in Hk. }
  assert (Hdl : block_data l !! b = Some d) by by rewrite Hb.
  destruct (Hr (Virt v)) as (_ & Hi & Ho). rewrite <-Hi in Hv.
  destruct (Hcov _ _ _ _ _ Hk Hdl Hv) as (s & Hs & d' & Hd' & [C1 C2 C3 C4 C5 C6] & Hend).
  rewrite Hdl in Hd'. injection Hd' as <-. exists s. rewrite <-Hi, <-Ho. by split_and!.
Qed.

Definition countable_b (p : program) : bool :=
  bool_decide (NoDup (concat p.*2).*1)
  && forallb (λ x : _ * list (InstructionId * Instruction), STEP * (Z.of_nat (length x.2) + 1) <=? u32_max) p
  && (Z.of_nat (length p) <=? 2 ^ 32).

Lemma countable_check p : countable_b p = true → countable_program p.
Proof.
  intros [[Hn Hi]%andb_true_iff Hb]%andb_true_iff. constructor.
  - by eapply bool_decide_eq_true_1.
  - intros b insts Hin. rewrite forallb_forall in Hi. specialize (Hi (b, insts)).
    rewrite <-list_elem_of_In in Hi. by apply Z.leb_le, Hi.
  - by apply Z.leb_le.
Qed.

Lemma analyze_function_covers_witness :
  let f := countdown in let p := countdown_view in
  ∃ l, analyze_function f = Ret l
    ∧ (∀ k b insts j id i, p !! k = Some (b, insts) → insts !! j = Some (id, i) →
         inst_to_pp l !! id = Some (point_at (Z.of_nat k) j))
    ∧ (∀ v, StronglySorted (λ s t, blk (start s) < blk (start t)) (range_of l v))
    ∧ ∀ k b insts v, p !! k = Some (b, insts) →
        let bs := basic_blocks (fdata f) in
        live p bs (Virt v) b ∨ (∃ id i, (id, i) ∈ insts ∧ mentions_v i v) →
        ∃ s, s ∈ range_of l v
          ∧ blk (start s) = Z.of_nat k ∧ blk (end_ s) = Z.of_nat k
          ∧ (live p bs (Virt v) b → idx (start s) = 0)
          ∧ ((∃ c, pred_of bs b c ∧ live p bs (Virt v) c) →
               idx (end_ s) = STEP * (Z.of_nat (length insts) + 1))
          ∧ ∀ j id i, insts !! j = Some (id, i) → mentions_v i v →
              idx (start s) ≤ STEP * (Z.of_nat j + 1) ≤ idx (end_ s).
Proof.
  apply analyze_function_covers; [apply countdown_ok|apply countdown_ok|].
  apply countable_check. vm_compute. reflexivity.
Defined.

End Ranges.
