(* ===== verification/Spiller.v ===== *)
(** Spilling a virtual register to a stack slot (codegen/pass/spiller.rs):
    every definition is followed by a store from a new virtual register, every
    use is preceded by a load into one, and the new instructions get program
    points between those of their neighbours. *)
From Stdlib Require Import Sorted.
From S2P Require Import Prelude LinkedLayout IrTypes Machine MFunction Liveness LiveRanges.

Module Spiller.
Import Reg Inst Data Func Points Liveness Ranges.
Local Open Scope Z_scope.

(** The spiller borrows the function and its liveness. *)
Definition state : Type := Function * Liveness.

Definition pp_of (l : Liveness) (i : InstructionId) : comp ProgramPoint := unwrap (inst_to_pp l !! i).

Definition set_pp (i : InstructionId) (p : ProgramPoint) (l : Liveness) : Liveness :=
  with_pps (<[i := p]> (inst_to_pp l)) l.

(** The function calls itself after making room; [fuel] bounds the calls. *)
(* [codegen/pass/spiller.rs | fn insert_inst_after] *)
Fixpoint insert_inst_after (fuel : nat) (st : state) (after inst : InstructionId) (block : BasicBlockId)
  : comp state :=
  let '(f, l) := st in
  after_pp ← pp_of l after;
  next ← Layout.next_inst_of (layout f) after;
  match next with
  | None => Ret (f, l)
  | Some next_after =>
      next_after_pp ← pp_of l next_after;
      p ← between after_pp next_after_pp;
      match p with
      | Some inst_pp =>
          L ← Layout.insert_inst_after (layout f) after inst block;
          Ret (with_layout L f, set_pp inst inst_pp l)
      | None =>
          l ← recompute_program_points_after l after_pp false;
          match fuel with
          | O => OutOfFuel
          | S fuel => insert_inst_after fuel (f, l) after inst block
          end
      end
  end.

(* [codegen/pass/spiller.rs | fn insert_inst_before] *)
Fixpoint insert_inst_before (fuel : nat) (st : state) (before inst : InstructionId) (block : BasicBlockId)
  : comp state :=
  let '(f, l) := st in
  before_pp ← pp_of l before;
  prev ← Layout.prev_inst_of (layout f) before;
  '(l, prev_before_pp) ←
    (match prev with
     | Some prev_before => p ← pp_of l prev_before; Ret (l, p)
     | None =>
         l ← recompute_program_points_after l before_pp true;
         _ ← assert_c (0 <? idx before_pp);
         Ret (l, pp (blk before_pp) 0)
     end);
  p ← between prev_before_pp before_pp;
  match p with
  | Some inst_pp =>
      L ← Layout.insert_inst_before (layout f) before inst block;
      Ret (with_layout L f, set_pp inst inst_pp l)
  | None =>
      l ← recompute_program_points_after l before_pp false;
      match fuel with
      | O => OutOfFuel
      | S fuel => insert_inst_before fuel (f, l) before inst block
      end
  end.

(** The definitions by descending program point, latest first.  Two
    elements at least are compared, so one that has no point panics then. *)
Fixpoint insert_desc (x : InstructionId * ProgramPoint) (l : list (InstructionId * ProgramPoint)) :=
  match l with
  | [] => [x]
  | y :: l => if leb (y.2) (x.2) then x :: y :: l else y :: insert_desc x l
  end.

(* [codegen/pass/spiller.rs | 55-58 | insert_spill] *)
Definition sort_desc (l : Liveness) (ids : list InstructionId) : comp (list InstructionId) :=
  match ids with
  | [] | [_] => Ret ids
  | _ => ps ← mapM_c (λ i, p ← pp_of l i; Ret (i, p)) ids;
         Ret (foldr insert_desc [] ps).*1
  end.

(** [dedup_by(|a, b| prev_inst_of a == Some b)]: [b] is the last element
    kept, [a] the one after it, which goes when the test holds. *)
Fixpoint dedup_from (L : Layout.Layout) (kept : InstructionId) (ids : list InstructionId) : comp (list InstructionId) :=
  match ids with
  | [] => Ret [kept]
  | a :: ids =>
      p ← Layout.prev_inst_of L a;
      if decide (p = Some kept) then dedup_from L kept ids
      else r ← dedup_from L a ids; Ret (kept :: r)
  end.

(* [codegen/pass/spiller.rs | 59-64 | insert_spill] *)
Definition dedup (L : Layout.Layout) (ids : list InstructionId) : comp (list InstructionId) :=
  match ids with [] => Ret [] | i :: ids => dedup_from L i ids end.

Section Spill.
(** How many times the retries above may recurse. *)
Context (fuel : nat).

(** [create_from], then [replace_vreg] in the instruction [id]. *)
Definition fresh_for (f : Function) (vreg : VReg) (id : InstructionId)
  : comp (Function * VReg * BasicBlockId) :=
  '(vs, new_vreg) ← create_from (vregs (fdata f)) vreg;
  let d := with_vregs vs (fdata f) in
  i ← inst_ref d id;
  d ← replace_vreg_at d id vreg new_vreg;
  Ret (with_data d f, new_vreg, parent i).

Definition spill_def (vreg : VReg) (slot : nat) (acc : state * list VReg) (def_id : InstructionId)
  : comp (state * list VReg) :=
  let '(f, l, new_vregs) := acc in
  '(f, new_vreg, def_block) ← fresh_for f vreg def_id;
  inst ← store_vreg_to_slot f new_vreg slot def_block;
  let '(d, id) := create_inst (fdata f) inst in
  st ← insert_inst_after fuel (with_data d f, l) def_id id def_block;
  Ret (st, new_vregs ++ [new_vreg]).

(* [codegen/pass/spiller.rs | fn insert_spill] *)
Definition insert_spill (st : state) (vreg : VReg) (slot : nat) (new_vregs : list VReg)
  : comp (state * list VReg) :=
  let '(f, l) := st in
  users ← get_users (vreg_users (fdata f)) vreg;
  let defs := omap (λ u, if write u then Some (inst_id u) else None) users in
  defs ← sort_desc l defs;
  defs ← dedup (layout f) defs;
  foldM (spill_def vreg slot) (f, l, new_vregs) defs.

Definition reload_use (vreg : VReg) (slot : nat) (acc : state * list VReg) (use_id : InstructionId)
  : comp (state * list VReg) :=
  let '(f, l, new_vregs) := acc in
  '(f, new_vreg, use_block) ← fresh_for f vreg use_id;
  inst ← load_from_slot f new_vreg slot use_block;
  let '(d, id) := create_inst (fdata f) inst in
  st ← insert_inst_before fuel (with_data d f, l) use_id id use_block;
  Ret (st, new_vregs ++ [new_vreg]).

(* [codegen/pass/spiller.rs | fn insert_reload] *)
Definition insert_reload (st : state) (vreg : VReg) (slot : nat) (new_vregs : list VReg)
  : comp (state * list VReg) :=
  let '(f, l) := st in
  users ← get_users (vreg_users (fdata f)) vreg;
  let uses := omap (λ u, if read u then Some (inst_id u) else None) users in
  foldM (reload_use vreg slot) (f, l, new_vregs) uses.

(** [sz as u32] truncates. *)
(* [codegen/pass/spiller.rs | pub fn spill] *)
Definition spill (st : state) (vreg : VReg) (new_vregs : list VReg) : comp (state * list VReg) :=
  let '(f, l) := st in
  ty ← type_for (vregs (fdata f)) vreg;
  sz ← IrTypes.DataLayout.get_size_of (size_fuel f) (types f) ty;
  align ← IrTypes.DataLayout.get_align_of (size_fuel f) (types f) ty;
  let '(ss, slot) := Slots.add_slot (slots f) ty (sz mod 2 ^ 32) (align mod 2 ^ 32) in
  let f := with_slots ss f in
  '(st, new_vregs) ← insert_spill (f, l) vreg slot new_vregs;
  '(f, l, new_vregs) ← insert_reload st vreg slot new_vregs;
  l ← foldM (λ l v, compute_live_ranges f v l) l new_vregs;
  Ret (f, remove_vreg l vreg, new_vregs).
End Spill.

(** ** What spilling does to the live ranges of other registers

    [l'] is [l] with every segment moved by a map that keeps interference;
    the registers in [except] may have any range. *)
Definition moved (except : VReg → Prop) (l l' : Liveness) : Prop :=
  ∃ g : LiveSegment → LiveSegment,
    (∀ x y, seg_interfere (g x) (g y) = seg_interfere x y)
    ∧ (∀ v, ¬ except v → vreg_lrs_map l' !! v = map g <$> vreg_lrs_map l !! v)
    ∧ (∀ u, reg_lrs_map l' !! u = map g <$> reg_lrs_map l !! u).

Lemma moved_refl E l : moved E l l.
Proof.
  exists id. split_and!; [done|..]; intros.
  - destruct (_ !! _); cbn; [by rewrite map_id|done].
  - destruct (_ !! _); cbn; [by rewrite map_id|done].
Qed.

Lemma moved_trans E l1 l2 l3 : moved E l1 l2 → moved E l2 l3 → moved E l1 l3.
Proof.
  intros (g & Hg & Hv & Hr) (h & Hh & Kv & Kr). exists (h ∘ g). split_and!.
  - intros x y. cbn. by rewrite Hh, Hg.
  - intros v Hn. rewrite Kv, Hv by done. destruct (_ !! _); cbn; [by rewrite map_map|done].
  - intros u. rewrite Kr, Hr. destruct (_ !! _); cbn; [by rewrite map_map|done].
Qed.

Lemma moved_weaken (E E' : VReg → Prop) l l' : (∀ v, E v → E' v) → moved E l l' → moved E' l l'.
Proof. intros HE (g & Hg & Hv & Hr). exists g. split_and!; [done| |done]. intros v Hn. apply Hv. auto. Qed.

Lemma moved_interfere E l l' v w x y :
  moved E l l' → ¬ E v → ¬ E w →
  vreg_lrs_map l !! v = Some x → vreg_lrs_map l !! w = Some y →
  ∃ x' y', vreg_lrs_map l' !! v = Some x' ∧ vreg_lrs_map l' !! w = Some y'
    ∧ Points.interfere x' y' = Points.interfere x y.
Proof.
  intros (g & Hg & Hv & _) Ev Ew Hx Hy. exists (map g x), (map g y).
  rewrite !Hv, Hx, Hy by done. split_and!; [done|done|].
  apply eq_true_iff_eq. rewrite !interfere_true. split.
  - intros (a & b & (a' & -> & Ha)%list_elem_of_fmap & (b' & -> & Hb)%list_elem_of_fmap & H).
    exists a', b'. by rewrite Hg in H.
  - intros (a & b & Ha & Hb & H). exists (g a), (g b). rewrite Hg.
    split_and!; [by apply list_elem_of_fmap_2..|done].
Qed.

Lemma recompute_moved E l from b l' :
  recompute_program_points_after l from b = Ret l' → moved E l l'.
Proof.
  unfold recompute_program_points_after. intros H. apply bind_Ret in H as (base & Hb & H).
  apply bind_Ret in H as (? & _ & [= <-]). apply u32_Ret in Hb as [Hb _].
  exists (move_seg from base). split_and!; cbn.
  - intros s t. apply move_seg_interfere. unfold STEP in *. destruct b; lia.
  - intros v _. apply lookup_fmap.
  - intros u. apply lookup_fmap.
Qed.

Lemma set_pp_moved E i p l : moved E l (set_pp i p l).
Proof. exact (moved_refl E l). Qed.

Lemma insert_inst_after_moved E fuel st a i b st' :
  insert_inst_after fuel st a i b = Ret st' →
  moved E st.2 st'.2 ∧ vregs (fdata st'.1) = vregs (fdata st.1).
Proof.
  revert st. induction fuel as [|fuel IH]; intros [f l] H; cbn [insert_inst_after] in H;
    apply bind_Ret in H as (p & _ & H); apply bind_Ret in H as (n & _ & H);
    (destruct n as [n|]; [|injection H as <-; by split; [apply moved_refl|]]);
    apply bind_Ret in H as (q & _ & H); apply bind_Ret in H as (m & _ & H);
    (destruct m as [m|]; [apply bind_Ret in H as (L & _ & [= <-]);
       split; [apply set_pp_moved|done]|]);
    apply bind_Ret in H as (l1 & Hl & H); [done|].
  apply IH in H as [H1 H2]. split; [|done]. cbn in *.
  eapply moved_trans; [|exact H1]. by eapply recompute_moved.
Qed.

Lemma insert_inst_before_moved E fuel st a i b st' :
  insert_inst_before fuel st a i b = Ret st' →
  moved E st.2 st'.2 ∧ vregs (fdata st'.1) = vregs (fdata st.1).
Proof.
  revert st. induction fuel as [|fuel IH]; intros [f l] H; cbn [insert_inst_before] in H;
    apply bind_Ret in H as (p & _ & H); apply bind_Ret in H as (n & _ & H);
    apply bind_Ret in H as ([l1 q] & Hl1 & H);
    assert (Hm : moved E l l1) by (destruct n as [n|];
      [apply bind_Ret in Hl1 as (? & _ & [= <- _]); apply moved_refl|
       apply bind_Ret in Hl1 as (l2 & Hl2 & Hl1); apply bind_Ret in Hl1 as (? & _ & [= <- _]);
       by eapply recompute_moved]);
    apply bind_Ret in H as (m & _ & H);
    (destruct m as [m|]; [apply bind_Ret in H as (L & _ & [= <-]); split; [exact Hm|done]|]);
    apply bind_Ret in H as (l2 & Hl2 & H); [done|].
  apply IH in H as [H1 H2]. split; [|done]. cbn in *.
  eapply moved_trans; [exact Hm|]. eapply moved_trans; [by eapply recompute_moved|exact H1].
Qed.

(** ** New virtual registers are new *)

Definition cur_of (st : state) : nat := cur (vregs (fdata st.1)).

(** A step of the spill: the ranges move, the counter grows, and what was
    handed out is between the old and the new counter. *)
Record advances (E : VReg → Prop) (acc acc' : state * list VReg) : Prop := {
  adv_moved : moved E acc.1.2 acc'.1.2;
  adv_cur : (cur_of acc.1 ≤ cur_of acc'.1)%nat;
  adv_new : ∃ news, acc'.2 = acc.2 ++ news ∧ NoDup news
    ∧ ∀ v, v ∈ news → (cur_of acc.1 ≤ v < cur_of acc'.1)%nat;
}.

Lemma advances_refl E acc : advances E acc acc.
Proof.
  split; [apply moved_refl|done|]. exists []. rewrite app_nil_r.
  split_and!; [done|constructor|]. intros v Hv. by apply not_elem_of_nil in Hv.
Qed.

Lemma advances_trans E a b c : advances E a b → advances E b c → advances E a c.
Proof.
  intros [H1 H2 (n1 & H3 & H4 & H5)] [K1 K2 (n2 & K3 & K4 & K5)]. split.
  - by eapply moved_trans.
  - lia.
  - exists (n1 ++ n2). rewrite K3, H3, app_assoc. split_and!; [done| |].
    + apply NoDup_app. split_and!; [done| |done]. intros v Hv Hv'.
      specialize (H5 v Hv). specialize (K5 v Hv'). lia.
    + intros v [Hv|Hv]%elem_of_app; [specialize (H5 v Hv)|specialize (K5 v Hv)]; lia.
Qed.

Lemma fresh_for_spec f v id f' n b :
  fresh_for f v id = Ret (f', n, b) →
  n = cur (vregs (fdata f)) ∧ cur (vregs (fdata f')) = S (cur (vregs (fdata f))).
Proof.
  unfold fresh_for. intros H. apply bind_Ret in H as ([vs n'] & Hc & H).
  apply bind_Ret in H as (i & _ & H). apply bind_Ret in H as (d & Hd & [= <- <- <-]).
  unfold create_from, add_vreg_data in Hc. apply bind_Ret in Hc as (ty & _ & Hc).
  apply bind_Ret in Hc as (? & _ & [= <- <-]).
  unfold replace_vreg_at in Hd. apply bind_Ret in Hd as (? & _ & Hd).
  apply bind_Ret in Hd as ([? ?] & _ & [= <-]). done.
Qed.

Lemma spill_def_advances E fuel v slot acc id acc' :
  spill_def fuel v slot acc id = Ret acc' → advances E acc acc'.
Proof.
  destruct acc as [[f l] news]. unfold spill_def. intros H.
  apply bind_Ret in H as ([[f1 n] b] & Hf & H). apply fresh_for_spec in Hf as [-> Hcur].
  apply bind_Ret in H as (inst & _ & H).
  destruct (create_inst (fdata f1) inst) as [d k] eqn:Hc. injection Hc as <- <-.
  apply bind_Ret in H as (st & Hst & [= <-]).
  apply (insert_inst_after_moved E) in Hst as [Hm Hv]. cbn in Hm, Hv.
  split; unfold cur_of; cbn; rewrite ?Hv, ?Hcur; [done|lia|].
  eexists. split_and!; [done|apply NoDup_singleton|].
  intros w ->%list_elem_of_singleton. lia.
Qed.

Lemma reload_use_advances E fuel v slot acc id acc' :
  reload_use fuel v slot acc id = Ret acc' → advances E acc acc'.
Proof.
  destruct acc as [[f l] news]. unfold reload_use. intros H.
  apply bind_Ret in H as ([[f1 n] b] & Hf & H). apply fresh_for_spec in Hf as [-> Hcur].
  apply bind_Ret in H as (inst & _ & H).
  destruct (create_inst (fdata f1) inst) as [d k] eqn:Hc. injection Hc as <- <-.
  apply bind_Ret in H as (st & Hst & [= <-]).
  apply (insert_inst_before_moved E) in Hst as [Hm Hv]. cbn in Hm, Hv.
  split; unfold cur_of; cbn; rewrite ?Hv, ?Hcur; [done|lia|].
  eexists. split_and!; [done|apply NoDup_singleton|].
  intros w ->%list_elem_of_singleton. lia.
Qed.

Lemma compute_live_ranges_moved E f v l l' :
  compute_live_ranges f v l = Ret l' → E v → moved E l l'.
Proof.
  unfold compute_live_ranges. intros H Hv. apply bind_Ret in H as (us & _ & H).
  apply bind_Ret in H as ([a b] & _ & H). apply bind_Ret in H as (s & _ & H).
  apply bind_Ret in H as (e & _ & [= <-]).
  exists id. split_and!; [done|..]; cbn.
  - intros w Hw. rewrite lookup_insert_ne by (intros ->; done).
    destruct (_ !! _); cbn; [by rewrite map_id|done].
  - intros u. destruct (_ !! _); cbn; [by rewrite map_id|done].
Qed.

(** The effect of [spill] on everything but the registers it replaces. *)
Lemma spill_advances fuel st v st' news :
  spill fuel st v [] = Ret (st', news) →
  moved (λ w, w = v ∨ w ∈ news) st.2 st'.2
  ∧ (cur_of st ≤ cur_of st')%nat ∧ NoDup news
  ∧ ∀ w, w ∈ news → (cur_of st ≤ w < cur_of st')%nat.
Proof.
  destruct st as [f l]. unfold spill. intros H.
  apply bind_Ret in H as (ty & _ & H). apply bind_Ret in H as (sz & _ & H).
  apply bind_Ret in H as (al & _ & H).
  destruct (Slots.add_slot _ _ _ _) as [ss slot].
  apply bind_Ret in H as ([[f1 l1] n1] & H1 & H). apply bind_Ret in H as ([[f2 l2] n2] & H2 & H).
  apply bind_Ret in H as (l3 & H3 & [= <- <-]).
  set (E := λ w : VReg, w = v ∨ w ∈ n2).
  assert (A1 : advances E (with_slots ss f, l, []) (f1, l1, n1)).
  { unfold insert_spill in H1. apply bind_Ret in H1 as (us & _ & H1).
    apply bind_Ret in H1 as (ds & _ & H1). apply bind_Ret in H1 as (ds' & _ & H1).
    eapply (foldM_inv (advances E (with_slots ss f, l, []))); [|apply advances_refl|exact H1].
    intros a b c _ Ha Hc. eapply advances_trans; [exact Ha|]. by eapply spill_def_advances. }
  assert (A2 : advances E (f1, l1, n1) (f2, l2, n2)).
  { unfold insert_reload in H2. apply bind_Ret in H2 as (us & _ & H2).
    eapply (foldM_inv (advances E (f1, l1, n1))); [|apply advances_refl|exact H2].
    intros a b c _ Ha Hc. eapply advances_trans; [exact Ha|]. by eapply reload_use_advances. }
  pose proof (advances_trans _ _ _ _ A1 A2) as [Hm Hcur (news & Hn & Hnd & Hr)].
  cbn in *. subst n2.
  assert (M3 : moved E l2 l3).
  { eapply (foldM_inv (moved E l2)); [|apply moved_refl|exact H3].
    intros a w b Hw Ha Hb. eapply moved_trans; [exact Ha|].
    eapply compute_live_ranges_moved; [exact Hb|exact (or_intror Hw)]. }
  split_and!; [|done|done|done].
  eapply moved_trans; [exact Hm|]. eapply moved_trans; [exact M3|].
  exists id. split_and!; [done|..]; cbn.
  - intros w Hw. rewrite lookup_delete_ne by (intros ->; apply Hw; by left).
    destruct (_ !! _); cbn; [by rewrite map_id|done].
  - intros u. destruct (_ !! _); cbn; [by rewrite map_id|done].
Qed.

(** ** Making room *)

Lemma between_fails a b :
  between a b = Ret None → blk a = blk b → idx b ≤ idx a + 1.
Proof.
  unfold between. intros H Hb. rewrite (proj2 (Z.eqb_eq _ _) Hb) in H. cbn in H.
  destruct (Z.ltb_spec (idx b) (idx a)); [lia|].
  destruct (Z.leb_spec (idx b - idx a) 1); [lia|].
  by apply bind_Ret in H as (? & _ & ?).
Qed.

Lemma between_no_fuel a b : between a b ≠ OutOfFuel.
Proof.
  unfold between. repeat case_match; try done.
  apply bind_no_fuel; [apply u32_no_fuel|done].
Qed.

Lemma recompute_no_fuel l p b : recompute_program_points_after l p b ≠ OutOfFuel.
Proof.
  apply bind_no_fuel; [apply u32_no_fuel|]. intros base _.
  apply bind_no_fuel; [|done]. unfold assert_c. by destruct (forallb _ _).
Qed.

Lemma recompute_points l from b l' i p :
  recompute_program_points_after l from b = Ret l' → inst_to_pp l !! i = Some p →
  inst_to_pp l' !! i = Some (move_point from (idx from + (if b then 1 else 0) * STEP) p).
Proof.
  intros H Hp. apply bind_Ret in H as (base & [-> _]%u32_Ret & H).
  apply bind_Ret in H as (? & _ & [= <-]). cbn. by rewrite lookup_fmap, Hp.
Qed.

Lemma move_point_self from : move_point from (idx from + 0 * STEP) from = from.
Proof.
  unfold move_point. rewrite Z.eqb_refl, Z.leb_refl. cbn. destruct from as [b i]. cbn. f_equal. lia.
Qed.

Lemma upd_inst_no_fuel i g L : Layout.upd_inst i g L ≠ OutOfFuel.
Proof. apply bind_no_fuel; [apply unwrap_no_fuel|by intros]. Qed.

Lemma layout_insert_no_fuel L a i b : Layout.insert_inst_after L a i b ≠ OutOfFuel.
Proof.
  unfold Layout.insert_inst_after, Layout.inst_at.
  do 2 (apply bind_no_fuel; [apply unwrap_no_fuel|intros ? _]).
  apply bind_no_fuel; [case_match; [apply upd_inst_no_fuel|done]|]. intros ? _. apply upd_inst_no_fuel.
Qed.

(** Inserting a spill store after an instruction that has a later successor in
    the block needs at most one renumbering of the program points, whatever
    the gap, and gives the new instruction a point strictly between its
    neighbours. *)
Theorem insert_inst_after_terminates fuel f l after inst block next p q :
  Layout.next_inst_of (layout f) after = Ret (Some next) →
  inst_to_pp l !! after = Some p → inst_to_pp l !! next = Some q →
  blk p = blk q → idx p < idx q →
  insert_inst_after (S fuel) (f, l) after inst block ≠ OutOfFuel
  ∧ ∀ f' l', insert_inst_after (S fuel) (f, l) after inst block = Ret (f', l') →
      inst ≠ after → inst ≠ next →
      ∃ p' m q', inst_to_pp l' !! after = Some p' ∧ inst_to_pp l' !! inst = Some m
        ∧ inst_to_pp l' !! next = Some q' ∧ lt p' m ∧ lt m q'.
Proof.
  intros Hn Hp Hq Hb Hlt.
  assert (Hbase : ∀ fuel l p q, inst_to_pp l !! after = Some p → inst_to_pp l !! next = Some q →
    (between p q ≠ Ret None ∨ (blk p = blk q ∧ idx p < idx q ∧ ∃ k, fuel = S k)) →
    insert_inst_after fuel (f, l) after inst block ≠ OutOfFuel
    ∧ ∀ f' l', insert_inst_after fuel (f, l) after inst block = Ret (f', l') →
      inst ≠ after → inst ≠ next →
      ∃ p' m q', inst_to_pp l' !! after = Some p' ∧ inst_to_pp l' !! inst = Some m
        ∧ inst_to_pp l' !! next = Some q' ∧ lt p' m ∧ lt m q').
  { clear fuel l p q Hp Hq Hb Hlt. induction fuel as [|fuel IH]; intros l p q Hp Hq Hor;
      cbn [insert_inst_after]; unfold pp_of; rewrite Hp, Hn; cbn [mbind comp_bind unwrap];
      rewrite Hq; cbn [mbind comp_bind unwrap]; destruct (between p q) as [[m|]| |] eqn:Hm;
      cbn [mbind comp_bind]; try (exfalso; by eapply between_no_fuel); try done.
    1,3: split; [apply bind_no_fuel; [apply layout_insert_no_fuel|done]|];
      intros f' l' H Hia Hin; apply bind_Ret in H as (L & _ & [= <- <-]);
      exists p, m, q; apply between_Some in Hm as [? ?]; cbn;
      by rewrite lookup_insert_eq, !lookup_insert_ne by done.
    - destruct Hor as [?|(_ & _ & k & ?)]; [done|discriminate].
    - destruct Hor as [?|(Hb & Hlt & _)]; [done|].
      destruct (recompute_program_points_after l p false) as [l1| |] eqn:Hr; cbn;
        [|done|by apply recompute_no_fuel in Hr].
      assert (Hp1 : inst_to_pp l1 !! after = Some p).
      { rewrite (recompute_points _ _ _ _ _ _ Hr Hp). f_equal. apply move_point_self. }
      assert (Hq1 : inst_to_pp l1 !! next = Some (pp (blk q) (idx p + (idx q - idx p) * STEP))).
      { rewrite (recompute_points _ _ _ _ _ _ Hr Hq). f_equal. unfold move_point.
        rewrite (proj2 (Z.eqb_eq _ _) (eq_sym Hb)).
        destruct (Z.leb_spec (idx p) (idx q)); [|lia]. cbn. f_equal. lia. }
      apply (IH l1 _ _ Hp1 Hq1). left. intros Hbad.
      apply between_fails in Hbad; [|done]. cbn in Hbad. unfold STEP in *. lia. }
  apply (Hbase _ _ _ _ Hp Hq). right. split_and!; [done|done|eauto].
Qed.

(** Inserting a reload before an instruction whose predecessor's program point
    is directly below its own never returns: renumbering moves neither of the
    two points, and the recursive call meets the same situation. *)
Theorem insert_inst_before_never_returns fuel f l before inst block prev p q st :
  Layout.prev_inst_of (layout f) before = Ret (Some prev) →
  inst_to_pp l !! prev = Some p → inst_to_pp l !! before = Some q →
  blk p = blk q → idx p < idx q ≤ idx p + 1 →
  insert_inst_before fuel (f, l) before inst block ≠ Ret st.
Proof.
  intros Hprev Hp Hq Hb Hlt.
  assert (Hbet : between p q = Ret None).
  { unfold between. rewrite (proj2 (Z.eqb_eq _ _) Hb). cbn.
    destruct (Z.ltb_spec (idx q) (idx p)); [lia|]. destruct (Z.leb_spec (idx q - idx p) 1); [done|lia]. }
  revert l Hp Hq. induction fuel as [|fuel IH]; intros l Hp Hq; cbn [insert_inst_before];
    unfold pp_of; rewrite Hq, Hprev; cbn [mbind comp_bind unwrap]; rewrite Hp;
    cbn [mbind comp_bind unwrap]; rewrite Hbet; cbn [mbind comp_bind];
    destruct (recompute_program_points_after l q false) as [l1| |] eqn:Hr; cbn; try done.
  apply IH.
  - rewrite (recompute_points _ _ _ _ _ _ Hr Hp). f_equal. unfold move_point.
    destruct (Z.leb_spec (idx q) (idx p)); [lia|]. by rewrite andb_false_r.
  - rewrite (recompute_points _ _ _ _ _ _ Hr Hq). f_equal. apply move_point_self.
Qed.

(** ** The filter on definitions keeps everything *)

Definition descending (l : list (InstructionId * ProgramPoint)) : Prop :=
  StronglySorted (λ x y, ¬ lt x.2 y.2) l.

Lemma insert_desc_perm x l : insert_desc x l ≡ₚ x :: l.
Proof.
  induction l as [|y l IH]; cbn; [done|]. destruct (leb _ _); [done|]. rewrite IH. constructor.
Qed.

Lemma insert_desc_sorted x l : descending l → descending (insert_desc x l).
Proof.
  unfold descending. induction l as [|y l IH]; cbn; intros Hl; [repeat constructor|].
  apply StronglySorted_inv in Hl as [Hl Hy]. destruct (leb _ _) eqn:E.
  - apply leb_le in E. constructor; [by constructor|]. constructor; [done|].
    eapply Forall_impl; [exact Hy|]. cbn. intros z Hz Hlt.
    destruct (cmp_spec (x.2) (y.2)) as [Heq|H|H]; [|done|].
    + apply Hz. by rewrite <-Heq.
    + apply Hz. by etrans.
  - constructor; [by apply IH|]. rewrite Forall_forall. intros z Hz.
    rewrite insert_desc_perm in Hz. apply elem_of_cons in Hz as [->|Hz].
    + intros Hlt. assert (leb (y.2) (x.2) = true).
      { apply leb_le. intros H. eapply (irreflexivity lt). by etrans. } congruence.
    + rewrite Forall_forall in Hy. by apply Hy.
Qed.

Lemma sort_desc_sorted (ps : list (InstructionId * ProgramPoint)) :
  descending (foldr insert_desc [] ps) ∧ foldr insert_desc [] ps ≡ₚ ps.
Proof.
  induction ps as [|p ps [IH1 IH2]]; cbn; [by split; [constructor|]|].
  split; [by apply insert_desc_sorted|]. by rewrite insert_desc_perm, IH2.
Qed.

Lemma dedup_from_all (L : Layout.Layout) (pps : gmap InstructionId ProgramPoint) k kp ids r :
  (∀ a b, Layout.prev_inst_of L a = Ret (Some b) →
     ∃ p q, pps !! a = Some p ∧ pps !! b = Some q ∧ lt q p) →
  descending ((k, kp) :: ids) → (∀ x, x ∈ (k, kp) :: ids → pps !! x.1 = Some x.2) →
  dedup_from L k ids.*1 = Ret r → r = k :: ids.*1.
Proof.
  intros HL. revert k kp r. induction ids as [|[a ap] ids IH]; intros k kp r Hd Hp H; cbn in H.
  { by injection H as <-. }
  apply bind_Ret in H as (p & Hpr & H). case_decide as Heq.
  - exfalso. subst p. destruct (HL _ _ Hpr) as (p & q & Ha & Hk & Hlt).
    pose proof (Hp (a, ap)) as Hpa. pose proof (Hp (k, kp)) as Hpk. cbn in Hpa, Hpk.
    rewrite Ha in Hpa. rewrite Hk in Hpk.
    injection (Hpa ltac:(by right; left)) as ->. injection (Hpk ltac:(by left)) as ->.
    apply StronglySorted_inv in Hd as [_ Hd]. apply Forall_cons in Hd as [Hd _]. cbn in Hd.
    by apply Hd in Hlt.
  - apply bind_Ret in H as (r' & Hr & [= <-]). f_equal.
    apply StronglySorted_inv in Hd as [Hd _]. eapply IH; [exact Hd| |exact Hr].
    intros x Hx. apply Hp. by right.
Qed.

(** The deduplication of the definitions to spill never removes one: the
    definitions are sorted by descending program point, and the test compares
    in the other direction. *)
Theorem dedup_removes_nothing (L : Layout.Layout) l ids ds ds' :
  (∀ a b, Layout.prev_inst_of L a = Ret (Some b) →
     ∃ p q, inst_to_pp l !! a = Some p ∧ inst_to_pp l !! b = Some q ∧ lt q p) →
  sort_desc l ids = Ret ds → dedup L ds = Ret ds' → ds' = ds.
Proof.
  intros HL Hs Hd. destruct ids as [|i [|j ids]].
  - injection Hs as <-. by injection Hd as <-.
  - injection Hs as <-. by injection Hd as <-.
  - unfold sort_desc in Hs. apply bind_Ret in Hs as (ps & Hps%mapM_c_Forall2 & [= <-]).
    destruct (sort_desc_sorted ps) as [Hsorted Hperm].
    assert (Hpp : ∀ x, x ∈ ps → inst_to_pp l !! x.1 = Some x.2).
    { intros x Hx. apply list_elem_of_lookup in Hx as [n Hn].
      apply (Forall2_lookup_r _ _ _ _ _ Hps) in Hn as (k & _ & Hk).
      apply bind_Ret in Hk as (p & Hp%unwrap_Ret & [= <-]). done. }
    destruct (foldr insert_desc [] ps) as [|[k kp] rest] eqn:E; [by injection Hd as <-|].
    eapply (dedup_from_all L (inst_to_pp l) k kp rest); [exact HL|exact Hsorted| |exact Hd].
    intros x Hx. apply Hpp. by rewrite <-Hperm.
Qed.

(** ** Examples: two instructions at adjacent points *)

Definition two_returns : Function :=
  build [[]] [[{| opcode := RET; operands := [] |}; {| opcode := RET; operands := [] |}]].

Definition tight : Liveness :=
  {| block_data := ∅; vreg_lrs_map := ∅; reg_lrs_map := ∅;
     inst_to_pp := <[0%nat := pp 0 16]> (<[1%nat := pp 0 17]> ∅) |}.

Lemma insert_inst_after_terminates_witness :
  insert_inst_after 1 (two_returns, tight) 0 2 0 ≠ OutOfFuel
  ∧ ∀ f' l', insert_inst_after 1 (two_returns, tight) 0 2 0 = Ret (f', l') →
      2%nat ≠ 0%nat → 2%nat ≠ 1%nat →
      ∃ p' m q', inst_to_pp l' !! 0%nat = Some p' ∧ inst_to_pp l' !! 2%nat = Some m
        ∧ inst_to_pp l' !! 1%nat = Some q' ∧ lt p' m ∧ lt m q'.
Proof.
  apply (insert_inst_after_terminates 0 two_returns tight 0 2 0 1 (pp 0 16) (pp 0 17));
    [vm_compute; reflexivity|reflexivity|reflexivity|reflexivity|cbn; lia].
Defined.

Lemma insert_inst_before_never_returns_witness :
  Layout.prev_inst_of (layout two_returns) 1 = Ret (Some 0%nat)
  ∧ ∀ fuel st, insert_inst_before fuel (two_returns, tight) 1 2 0 ≠ Ret st.
Proof.
  split; [vm_compute; reflexivity|]. intros fuel st.
  apply (insert_inst_before_never_returns fuel two_returns tight 1 2 0 0 (pp 0 16) (pp 0 17));
    [vm_compute; reflexivity|reflexivity|reflexivity|reflexivity|cbn; lia].
Defined.

Lemma dedup_removes_nothing_witness :
  sort_desc tight [0; 1]%nat = Ret [1; 0]%nat
  ∧ ∀ ds', dedup (layout two_returns) [1; 0]%nat = Ret ds' → ds' = [1; 0]%nat.
Proof.
  split; [vm_compute; reflexivity|]. intros ds'. apply (dedup_removes_nothing (layout two_returns) tight [0; 1]%nat);
    [|vm_compute; reflexivity].
  intros a b Hab. destruct a as [|[|a]].
  - vm_compute in Hab. discriminate.
  - assert (Hb : Layout.prev_inst_of (layout two_returns) 1 = Ret (Some 0%nat)) by (vm_compute; reflexivity).
    rewrite Hb in Hab. injection Hab as <-.
    exists (pp 0 17), (pp 0 16). split_and!; [reflexivity|reflexivity|]. right; cbn; lia.
  - exfalso. unfold Layout.prev_inst_of, Layout.inst_at in Hab.
    assert (Hn : Layout.instructions (layout two_returns) !! S (S a) = None); [|by rewrite Hn in Hab].
    refine (LayoutSpec.rep_unknown _ _ (build_rep [[]] _ _) _ _ _).
    + vm_compute. reflexivity.
    + intros Hin. assert (Hin' : S (S a) ∈ [0; 1]%nat) by exact Hin.
      rewrite !elem_of_cons, elem_of_nil in Hin'. lia.
    + intros Hin. by apply not_elem_of_empty in Hin.
Defined.

End Spiller.
