(* ===== verification/RegAlloc.v ===== *)
(** Linear-scan register allocation (codegen/pass/regalloc.rs).  The pass runs
    over a work list of virtual registers; each gets the first register its
    live range does not interfere with, or is spilled, and then the new
    virtual registers join the list. *)
From Stdlib Require Import Sorted.
From S2P Require Import Prelude LinkedLayout IrTypes Machine MFunction Liveness LiveRanges Spiller.

Module RegAlloc.
Import Reg Inst Data Func Points Liveness Ranges Spiller.
Local Open Scope Z_scope.

Arguments spill : simpl never.

(** A hash set is a finite set and the order the iterator happens to use. *)
Class SetOrder := {
  iter_set : gset VReg → list VReg;
  iter_set_perm : ∀ s, iter_set s ≡ₚ elements s;
}.

#[global] Instance elements_order : SetOrder :=
  {| iter_set := elements; iter_set_perm := λ s, reflexivity (elements s) |}.

(** The registers a copy moves [vreg] into, looked for through copies of
    copies.  Each call visits an instruction at most once. *)
(* [codegen/pass/regalloc.rs | pub fn find_preferred_registers] *)
Fixpoint find_preferred_registers (fuel : nat) (f : Function) (vreg : VReg) (visited : gset InstructionId)
  : comp (list Reg * gset InstructionId) :=
  match fuel with
  | O => OutOfFuel
  | S fuel =>
      users ← get_users (vreg_users (fdata f)) vreg;
      foldM (λ '(list_, visited) user,
        inst ← inst_ref (fdata f) (inst_id user);
        if decide (inst_id user ∈ visited) then Ret (list_, visited)
        else
          let visited := {[inst_id user]} ∪ visited in
          if write user then Ret (list_, visited)
          else if is_copy (idata inst) then
            match output_regs (idata inst) with
            | r :: _ => Ret (r :: list_, visited)
            | [] =>
                match output_vregs (idata inst) with
                | dst :: _ =>
                    '(more, visited) ← find_preferred_registers fuel f dst visited;
                    Ret (list_ ++ more, visited)
                | [] => Ret (list_, visited)
                end
            end
          else Ret (list_, visited)) ([], visited) users
  end.

(** Every instruction can be visited once on the way down. *)
Definition preferred_fuel (f : Function) : nat := S (length (instructions (fdata f))).

Section Order.
Context {ord : SetOrder}.

(* [codegen/pass/regalloc.rs | pub fn collect_preferred_registers] *)
Definition collect_preferred_registers (f : Function) (vregs : gset VReg) : comp (gmap VReg (list Reg)) :=
  foldM (λ m v,
    '(rs, _) ← find_preferred_registers (preferred_fuel f) f v ∅;
    Ret (match rs with [] => m | _ => <[v := rs]> m end)) ∅ (iter_set vregs).

(* [codegen/pass/regalloc.rs | pub fn collect_vregs_alive_around_call] *)
Definition collect_vregs_alive_around_call (f : Function) (l : Liveness) (vregs : gset VReg)
  : comp (list VReg) :=
  for_blocks f (λ out _ insts,
    foldM (λ out '(id, inst),
      if is_call (idata inst) then
        p ← pp_of l id;
        foldM (λ out v,
          x ← unwrap (vreg_lrs_map l !! v);
          Ret (if interfere_with_segment x (new_point p) then out ++ [v] else out))
          out (iter_set vregs)
      else Ret out) out insts) [].

(** The first block decides: the loop over blocks leaves after one round. *)
(* [codegen/pass/regalloc.rs | 71-82 | run_on_function] *)
Definition call_in_first_block (f : Function) : comp bool :=
  match Layout.first_block (layout f) with
  | None => Ret false
  | Some b => is_ ← insts_of_block f b; Ret (existsb (λ p, is_call (idata p.2)) is_)
  end.

(** The registers to try for [vreg], in order. *)
(* [codegen/pass/regalloc.rs | 64-89 | run_on_function] *)
Definition availables (f : Function) (preferred : gmap VReg (list Reg)) (spill_regs : gset VReg) (vreg : VReg)
  : comp (list Reg) :=
  ty ← type_for (vregs (fdata f)) vreg;
  _ ← for_type (types f) ty;
  c ← call_in_first_block f;
  let av := if (c : bool) then csr_list else gpr_list ++ csr_list in
  let av := if decide (vreg ∈ spill_regs) then av else but_last av in
  Ret (default [] (preferred !! vreg) ++ av).

(** [for reg in availables]: the first that does not interfere. *)
(* [codegen/pass/regalloc.rs | 91-100 | run_on_function] *)
Fixpoint first_free (l : Liveness) (vreg : VReg) (rs : list Reg) : comp (option (Reg * RegUnit)) :=
  match rs with
  | [] => Ret None
  | r :: rs =>
      u ← to_reg_unit r;
      b ← reg_interfere l u vreg;
      if (b : bool) then first_free l vreg rs else Ret (Some (r, u))
  end.

Record alloc := {
  func : Function;
  live_ : Liveness;
  assigned : gmap VReg Reg;
  spill_regs : gset VReg;
  worklist : list VReg;
}.

(** One round of the loop, for the register popped from the work list. *)
(* [codegen/pass/regalloc.rs | 63-111 | run_on_function] *)
Definition alloc_step (fuel : nat) (preferred : gmap VReg (list Reg)) (vreg : VReg) (st : alloc) : comp alloc :=
  av ← availables (func st) preferred (spill_regs st) vreg;
  r ← first_free (live_ st) vreg av;
  match r with
  | Some (reg, u) =>
      l ← assign (live_ st) u vreg;
      Ret {| func := func st; live_ := l; assigned := <[vreg := reg]> (assigned st);
             spill_regs := spill_regs st; worklist := worklist st |}
  | None =>
      '(f, l, news) ← spill fuel (func st, live_ st) vreg [];
      Ret {| func := f; live_ := l; assigned := assigned st;
             spill_regs := list_to_set news ∪ spill_regs st; worklist := worklist st ++ news |}
  end.

(** [while let Some(vreg) = worklist.pop_front()] *)
(* [codegen/pass/regalloc.rs | 63-111 | run_on_function] *)
Fixpoint alloc_loop (fuel : nat) (preferred : gmap VReg (list Reg)) (st : alloc) : comp alloc :=
  match worklist st with
  | [] => Ret st
  | v :: rest =>
      match fuel with
      | O => OutOfFuel
      | S fuel' =>
          st ← alloc_step fuel preferred v
                 {| func := func st; live_ := live_ st; assigned := assigned st;
                    spill_regs := spill_regs st; worklist := rest |};
          alloc_loop fuel' preferred st
      end
  end.

(** Work list order: by the start of the first segment, then by weight. *)
Definition sort_key (l : Liveness) (v : VReg) : comp (ProgramPoint * Z) :=
  x ← unwrap (vreg_range l v);
  s ← unwrap (first_seg x);
  w ← weight x;
  Ret (start s, w).

Definition key_leb (a b : ProgramPoint * Z) : bool :=
  match cmp a.1 b.1 with Lt => true | Gt => false | Eq => a.2 <=? b.2 end.

Fixpoint insert_key (x : VReg * (ProgramPoint * Z)) (l : list (VReg * (ProgramPoint * Z))) :=
  match l with
  | [] => [x]
  | y :: l => if key_leb x.2 y.2 then x :: y :: l else y :: insert_key x l
  end.

(** A list of one element is not compared with anything. *)
Definition sort_worklist (l : Liveness) (vs : list VReg) : comp (list VReg) :=
  match vs with
  | [] | [_] => Ret vs
  | _ => ks ← mapM_c (λ v, k ← sort_key l v; Ret (v, k)) vs; Ret (foldr insert_key [] ks).*1
  end.

(** The registers of the instructions of the layout. *)
Definition collect_all_vregs (f : Function) : comp (gset VReg) :=
  for_blocks f (λ s _ insts, Ret (foldl (λ s '(_, i), list_to_set (all_vregs (idata i)) ∪ s) s insts)) ∅.

(** [inst.data.rewrite(vreg, reg)] for the registers of one instruction. *)
Definition rewrite_inst (assigned : gmap VReg Reg) (i : InstructionData) : InstructionData * list Reg :=
  foldl (λ '(i, used) v,
    match assigned !! v with Some r => (rewrite i v r, used ++ [r]) | None => (i, used) end)
    (i, []) (all_vregs i).

Definition rewrite_step (assigned : gmap VReg Reg) (acc : Function * gset Reg) (id : InstructionId)
  : comp (Function * gset Reg) :=
  let '(f, used) := acc in
  i ← inst_ref (fdata f) id;
  let '(d, rs) := rewrite_inst assigned (idata i) in
  Ret (with_data (set_inst (fdata f) id {| iid := iid i; idata := d; parent := parent i |}) f,
       list_to_set rs ∪ used).

Definition rewrite_all (assigned : gmap VReg Reg) (f : Function) : comp (Function * gset Reg) :=
  bs ← Layout.block_iter (layout f);
  ids ← mapM_c (Layout.inst_iter (layout f)) bs;
  foldM (rewrite_step assigned) (f, ∅) (concat ids).

Definition with_used_csr (us : gset RegUnit) (f : Function) : Function :=
  let d := fdata f in
  with_data {| instructions := instructions d; basic_blocks := basic_blocks d; vregs := vregs d;
               vreg_users := vreg_users d; used_csr := us |} f.

(** Everything before the loop: liveness, and spilling around calls. *)
(* [codegen/pass/regalloc.rs | 25-62 | run_on_function] *)
Definition alloc_start (fuel : nat) (f : Function) : comp (gmap VReg (list Reg) * alloc) :=
  l ← analyze_function f;
  all ← collect_all_vregs f;
  around ← collect_vregs_alive_around_call f l all;
  '(f, l, all) ← foldM (λ '(f, l, all) v,
      '(f, l, news) ← spill fuel (f, l) v [];
      Ret (f, l, list_to_set news ∪ (all ∖ {[v]}))) (f, l, all) around;
  preferred ← collect_preferred_registers f all;
  wl ← sort_worklist l (iter_set all);
  Ret (preferred, {| func := f; live_ := l; assigned := ∅; spill_regs := ∅; worklist := wl |}).

(* [codegen/pass/regalloc.rs | pub fn run_on_function] *)
Definition run_on_function (fuel : nat) (f : Function) : comp Function :=
  '(preferred, st) ← alloc_start fuel f;
  st ← alloc_loop fuel preferred st;
  '(f, used) ← rewrite_all (assigned st) (func st);
  us ← mapM_c to_reg_unit (elements used);
  Ret (with_used_csr (list_to_set (filter (λ u, is_csr u) us)) f).

(** ** Registers that share a unit do not interfere *)

(** The range of an assigned register is part of the range of its unit. *)
Definition recorded_in (l : Liveness) (v : VReg) (r : Reg) : Prop :=
  ∃ u x y, to_reg_unit r = Ret u ∧ vreg_lrs_map l !! v = Some x ∧ reg_lrs_map l !! u = Some y
    ∧ ∀ s, s ∈ x → s ∈ y.

Definition no_clash (l : Liveness) (a : gmap VReg Reg) : Prop :=
  ∀ v w r r' u x y, v ≠ w → a !! v = Some r → a !! w = Some r' →
    to_reg_unit r = Ret u → to_reg_unit r' = Ret u →
    vreg_lrs_map l !! v = Some x → vreg_lrs_map l !! w = Some y →
    Points.interfere x y = false.

Record alloc_ok (st : alloc) : Prop := {
  ok_recorded : ∀ v r, assigned st !! v = Some r → recorded_in (live_ st) v r;
  ok_clash : no_clash (live_ st) (assigned st);
  ok_worklist : NoDup (worklist st);
  ok_unassigned : ∀ v, v ∈ worklist st → assigned st !! v = None;
  ok_below : ∀ v, v ∈ worklist st ∨ is_Some (assigned st !! v) → (v < cur (vregs (fdata (func st))))%nat;
}.

Lemma first_free_spec l v rs r u :
  first_free l v rs = Ret (Some (r, u)) → to_reg_unit r = Ret u ∧ reg_interfere l u v = Ret false.
Proof.
  induction rs as [|r' rs IH]; cbn; intros H; [done|].
  apply bind_Ret in H as (u' & Hu & H). apply bind_Ret in H as (b & Hb & H).
  destruct b; [by apply IH|]. by injection H as -> ->.
Qed.

(** Giving [v] a register its range is free in. *)
Lemma assign_ok f l a sp wl v r u l' :
  alloc_ok {| func := f; live_ := l; assigned := a; spill_regs := sp; worklist := v :: wl |} →
  to_reg_unit r = Ret u → reg_interfere l u v = Ret false → assign l u v = Ret l' →
  alloc_ok {| func := f; live_ := l'; assigned := <[v := r]> a; spill_regs := sp; worklist := wl |}.
Proof.
  intros [Hr Hc Hw Hu Hb] Hru Hfree Ha. cbn in *.
  apply NoDup_cons in Hw as [Hv Hw]. unfold assign in Ha. apply bind_Ret in Ha as (x & Hx%unwrap_Ret & [= <-]).
  set (y0 := default [] (reg_lrs_map l !! u)) in *.
  assert (Hfree' : Points.interfere x y0 = false).
  { unfold reg_interfere in Hfree. unfold y0. destruct (reg_lrs_map l !! u); cbn.
    - rewrite Hx in Hfree. by injection Hfree.
    - apply interfere_false. intros ? ? _ H'. by apply not_elem_of_nil in H'. }
  assert (Hold : ∀ w rw, a !! w = Some rw → w ≠ v).
  { intros w rw Hwr ->. rewrite Hu in Hwr by (by left). done. }
  (* an assigned register in the unit of [v] does not interfere with [v] *)
  assert (Hdis : ∀ w rw z, a !! w = Some rw → to_reg_unit rw = Ret u → vreg_lrs_map l !! w = Some z →
    Points.interfere x z = false).
  { intros w rw z Hwr Hwu Hz. destruct (Hr _ _ Hwr) as (u' & z' & y & Hu' & Hz' & Hy & Hsub).
    rewrite Hwu in Hu'. injection Hu' as <-. rewrite Hz in Hz'. injection Hz' as <-.
    rewrite interfere_false in Hfree' |- *. intros s t Hs Ht. apply Hfree'; [done|].
    unfold y0. rewrite Hy. cbn. by apply Hsub. }
  constructor; cbn; [| |done| |].
  - intros w rw. destruct (decide (v = w)) as [<-|Hne].
    + rewrite lookup_insert_eq. intros [= <-]. exists u, x, (merge y0 x). cbn.
      rewrite lookup_insert_eq. split_and!; try done. intros s Hs. rewrite merge_perm. set_solver.
    + rewrite lookup_insert_ne by done. intros Hwr.
      destruct (Hr _ _ Hwr) as (u' & z & y & Hu' & Hz & Hy & Hsub). destruct (decide (u = u')) as [<-|Hnu].
      * exists u, z, (merge y0 x). cbn. rewrite lookup_insert_eq. split_and!; try done.
        intros s Hs. rewrite merge_perm. unfold y0. rewrite Hy. cbn. apply elem_of_app. left. by apply Hsub.
      * exists u', z, y. cbn. by rewrite lookup_insert_ne.
  - intros v1 v2 r1 r2 u' x1 x2 Hne H1 H2 Hu1 Hu2 Hx1 Hx2. cbn in Hx1, Hx2.
    destruct (decide (v = v1)) as [<-|Hn1], (decide (v = v2)) as [<-|Hn2]; [done|..].
    + rewrite lookup_insert_eq in H1. rewrite lookup_insert_ne in H2 by done. simplify_eq.
      rewrite Hru in Hu1. injection Hu1 as ->. by eapply Hdis.
    + rewrite lookup_insert_eq in H2. rewrite lookup_insert_ne in H1 by done. simplify_eq.
      rewrite Hru in Hu2. injection Hu2 as ->. rewrite interfere_comm. by eapply Hdis.
    + rewrite lookup_insert_ne in H1, H2 by done. by eapply (Hc v1 v2).
  - intros w Hwl. rewrite lookup_insert_ne by (by intros ->). apply Hu. by right.
  - intros w [Hwl|[rw Hwr]]; apply Hb; [left; by right|].
    destruct (decide (v = w)) as [->|Hne]; [left; by left|right].
    rewrite lookup_insert_ne in Hwr by done. eauto.
Qed.

(** Spilling [v] moves the other ranges without making any two of them meet. *)
Lemma spill_ok fuel f l a sp sp' wl v f' l' news :
  alloc_ok {| func := f; live_ := l; assigned := a; spill_regs := sp; worklist := v :: wl |} →
  spill fuel (f, l) v [] = Ret (f', l', news) →
  alloc_ok {| func := f'; live_ := l'; assigned := a; spill_regs := sp'; worklist := wl ++ news |}.
Proof.
  intros [Hr Hc Hw Hu Hb] Hs. cbn in *.
  apply spill_advances in Hs as (Hm & Hcur & Hnd & Hnew). unfold cur_of in *. cbn in *.
  apply NoDup_cons in Hw as [Hv Hw].
  assert (Hkeep : ∀ w r, a !! w = Some r → ¬ (w = v ∨ w ∈ news)).
  { intros w r Hwr [->|Hin]; [by rewrite Hu in Hwr by (by left)|].
    specialize (Hnew _ Hin). assert (w < cur (vregs (fdata f)))%nat by (apply Hb; right; eauto). lia. }
  constructor; cbn.
  - intros w r Hwr. destruct (Hr _ _ Hwr) as (u & x & y & Hru & Hx & Hy & Hsub).
    destruct Hm as (g & _ & Hgv & Hgr). exists u, (map g x), (map g y).
    rewrite Hgv, Hgr, Hx, Hy by (by eapply Hkeep). split_and!; try done.
    intros s (t & -> & Ht)%list_elem_of_fmap. by apply list_elem_of_fmap_2, Hsub.
  - intros v1 v2 r1 r2 u x1 x2 Hne H1 H2 Hu1 Hu2 Hx1 Hx2.
    destruct (Hr _ _ H1) as (u1 & y1 & z1 & _ & Hy1 & _). destruct (Hr _ _ H2) as (u2 & y2 & z2 & _ & Hy2 & _).
    destruct (moved_interfere _ _ _ v1 v2 y1 y2 Hm) as (y1' & y2' & E1 & E2 & Hi);
      [by eapply Hkeep|by eapply Hkeep|done|done|].
    rewrite E1 in Hx1. rewrite E2 in Hx2. injection Hx1 as <-. injection Hx2 as <-. rewrite Hi.
    by eapply (Hc v1 v2).
  - apply NoDup_app. split_and!; [done| |done]. intros w Hwl Hin. specialize (Hnew _ Hin).
    assert (w < cur (vregs (fdata f)))%nat by (apply Hb; left; by right). lia.
  - intros w [Hwl|Hin]%elem_of_app; [apply Hu; by right|].
    destruct (a !! w) eqn:E; [|done]. exfalso. eapply Hkeep; [exact E|by right].
  - intros w [[Hwl|Hin]%elem_of_app|Hsome].
    + assert (w < cur (vregs (fdata f)))%nat by (apply Hb; left; by right). lia.
    + apply Hnew in Hin. lia.
    + assert (w < cur (vregs (fdata f)))%nat by (apply Hb; by right). lia.
Qed.

Lemma alloc_step_ok fuel preferred f l a sp v wl st' :
  alloc_ok {| func := f; live_ := l; assigned := a; spill_regs := sp; worklist := v :: wl |} →
  alloc_step fuel preferred v
    {| func := f; live_ := l; assigned := a; spill_regs := sp; worklist := wl |} = Ret st' →
  alloc_ok st'.
Proof.
  intros Hok H. unfold alloc_step in H. cbn in H. apply bind_Ret in H as (av & _ & H).
  apply bind_Ret in H as (r & Hr & H). destruct r as [[r u]|].
  - apply first_free_spec in Hr as [Hu Hi]. apply bind_Ret in H as (l' & Hl & [= <-]).
    by eapply assign_ok.
  - apply bind_Ret in H as ([[f' l'] news] & Hs & [= <-]). by eapply spill_ok.
Qed.

Lemma alloc_loop_ok fuel preferred st st' :
  alloc_ok st → alloc_loop fuel preferred st = Ret st' → alloc_ok st' ∧ worklist st' = [].
Proof.
  revert st. induction fuel as [|fuel IH]; intros [f l a sp wl] Hok H; cbn in H;
    (destruct wl as [|v wl]; [by injection H as <-|]); [done|].
  apply bind_Ret in H as (st1 & Hst & H). apply (IH st1); [|done]. by eapply alloc_step_ok.
Qed.

Lemma insert_key_perm x l : insert_key x l ≡ₚ x :: l.
Proof.
  induction l as [|y l IH]; cbn; [done|]. destruct (key_leb _ _); [done|]. rewrite IH. constructor.
Qed.

Lemma sort_worklist_perm l vs ws : sort_worklist l vs = Ret ws → ws ≡ₚ vs.
Proof.
  intros H. destruct vs as [|v [|w vs]]; [by injection H as <-..|].
  unfold sort_worklist in H. apply bind_Ret in H as (ks & Hks%mapM_c_Forall2 & [= <-]).
  assert (Hp : foldr insert_key [] ks ≡ₚ ks).
  { clear. induction ks as [|k ks IH]; cbn; [done|]. by rewrite insert_key_perm, IH. }
  rewrite Hp. apply reflexive_eq. clear Hp. induction Hks as [|a [b k] vs' ks' Hk _ IH]; [done|].
  apply bind_Ret in Hk as (? & _ & [= <- <-]). cbn. by f_equal.
Qed.

Lemma alloc_start_ok fuel f preferred st :
  (∀ all, collect_all_vregs f = Ret all → ∀ v, v ∈ all → (v < cur (vregs (fdata f)))%nat) →
  alloc_start fuel f = Ret (preferred, st) → alloc_ok st.
Proof.
  intros Hall H. unfold alloc_start in H. apply bind_Ret in H as (l & _ & H).
  apply bind_Ret in H as (all & Ha & H). apply bind_Ret in H as (around & _ & H).
  apply bind_Ret in H as ([[f1 l1] all1] & Hf & H). apply bind_Ret in H as (pr & _ & H).
  apply bind_Ret in H as (wl & Hwl & [= <- <-]). apply sort_worklist_perm in Hwl.
  assert (Hb : ∀ v, v ∈ all1 → (v < cur (vregs (fdata f1)))%nat).
  { refine (foldM_inv (λ acc : Function * Liveness * gset VReg,
      ∀ v, v ∈ acc.2 → (v < cur (vregs (fdata acc.1.1)))%nat) _ _ _ (f1, l1, all1) _ _ Hf); [|by apply Hall].
    intros [[f2 l2] a2] v [[f3 l3] a3] _ Hi Hs. cbn in *.
    apply bind_Ret in Hs as ([[f4 l4] news] & Hs & [= <- <- <-]).
    apply spill_advances in Hs as (_ & Hcur & _ & Hnew). unfold cur_of in *. cbn in *.
    intros w [Hw|Hw]%elem_of_union; [apply elem_of_list_to_set, Hnew in Hw; lia|].
    apply elem_of_difference in Hw as [Hw _]. apply Hi in Hw. lia. }
  constructor; cbn.
  - intros v r H. by rewrite lookup_empty in H.
  - intros v w r r' u x y _ H. by rewrite lookup_empty in H.
  - rewrite Hwl, iter_set_perm. apply NoDup_elements.
  - intros v _. apply lookup_empty.
  - intros v [Hv|[? H]]; [|by rewrite lookup_empty in H].
    rewrite Hwl, iter_set_perm in Hv. by apply Hb, elem_of_elements.
Qed.

(** C12: When the linear scan has emptied its work list, with any number of
    spills on the way, two different virtual registers that were given
    registers of the same unit have live ranges that do not interfere. *)
Theorem allocation_sound (fuel : nat) (f : Function) preferred st st' :
  (∀ all, collect_all_vregs f = Ret all → ∀ v, v ∈ all → (v < cur (vregs (fdata f)))%nat) →
  alloc_start fuel f = Ret (preferred, st) →
  alloc_loop fuel preferred st = Ret st' →
  worklist st' = []
  ∧ ∀ v w r r' u, v ≠ w → assigned st' !! v = Some r → assigned st' !! w = Some r' →
      to_reg_unit r = Ret u → to_reg_unit r' = Ret u →
      ∃ x y, vreg_lrs_map (live_ st') !! v = Some x ∧ vreg_lrs_map (live_ st') !! w = Some y
        ∧ Points.interfere x y = false.
Proof.
  intros Hall Hs Hl. apply alloc_start_ok in Hs; [|done].
  apply alloc_loop_ok in Hl as [[Hr Hc _ _ _] Hw]; [|done]. split; [done|].
  intros v w r r' u Hne Hv Hwr Hu Hu'.
  destruct (Hr _ _ Hv) as (? & x & ? & _ & Hx & _). destruct (Hr _ _ Hwr) as (? & y & ? & _ & Hy & _).
  exists x, y. split_and!; [done|done|]. by eapply (Hc v w).
Qed.

End Order.

(** The countdown loop, with its two registers. *)
Lemma allocation_sound_witness :
  ∃ st', (r ← alloc_start 5 countdown; alloc_loop 5 r.1 r.2) = Ret st'
  ∧ is_Some (assigned st' !! 0%nat) ∧ is_Some (assigned st' !! 1%nat)
  ∧ worklist st' = []
  ∧ ∀ v w r r' u, v ≠ w → assigned st' !! v = Some r → assigned st' !! w = Some r' →
      to_reg_unit r = Ret u → to_reg_unit r' = Ret u →
      ∃ x y, vreg_lrs_map (live_ st') !! v = Some x ∧ vreg_lrs_map (live_ st') !! w = Some y
        ∧ Points.interfere x y = false.
Proof.
  assert (Hrun : (r ← alloc_start 5 countdown; st ← alloc_loop 5 r.1 r.2;
      Ret (bool_decide (is_Some (assigned st !! 0%nat)), bool_decide (is_Some (assigned st !! 1%nat))))
    = Ret (true, true)) by (vm_compute; reflexivity).
  apply bind_Ret in Hrun as ([preferred st] & Hs & Hrun). cbn [fst snd] in Hrun.
  apply bind_Ret in Hrun as (st' & Hl & [= H0%bool_decide_eq_true_1 H1%bool_decide_eq_true_1]).
  exists st'. rewrite Hs. cbn [mbind comp_bind fst snd].
  split; [exact Hl|]. split; [exact H0|]. split; [exact H1|].
  apply (allocation_sound 5 countdown preferred st st'); [|exact Hs|exact Hl].
  intros all Hall v Hv.
  assert (Hc : (all ← collect_all_vregs countdown;
      Ret (forallb (λ v, bool_decide (v < cur (vregs (fdata countdown)))%nat) (elements all))) = Ret true)
    by (vm_compute; reflexivity).
  rewrite Hall in Hc. cbn [mbind comp_bind] in Hc. injection Hc as Hc. rewrite forallb_forall in Hc.
  eapply bool_decide_eq_true_1. apply Hc. by apply list_elem_of_In, elem_of_elements.
Defined.

End RegAlloc.
