(* ===== verification/OlaPasses.v ===== *)
(** The passes that run on Ola machine code after register allocation
    (codegen/isa/ola/pass/): phi elimination, the two removals of moves and
    additions that do nothing, slot elimination, and the prologue and
    epilogue. *)
From S2P Require Import Prelude LinkedLayout IrTypes Machine MFunction Liveness.

Module Passes.
Import Reg Inst Data Func Liveness.
Local Open Scope Z_scope.

(** [for block .. for inst .. if test { worklist.push(inst_id) }] *)
Definition collect (f : Function) (test : InstructionData → comp bool) : comp (list InstructionId) :=
  for_blocks f (λ acc _ insts,
    foldM (λ acc '(id, i), b ← test (idata i); Ret (if (b : bool) then acc ++ [id] else acc)) acc insts) [].

(** [operands[i].data]: panics out of range. *)
Definition data_at (i : InstructionData) (k : nat) : comp OperandData :=
  o ← unwrap (operands i !! k); Ret (data o).

(** ** simple_reg_coalescing *)

(** A move whose two registers are the same. *)
(* [codegen/isa/ola/pass/simple_reg_coalescing.rs | 22-30 | run_on_function] *)
Definition is_self_move (i : InstructionData) : comp bool :=
  if decide (opcode i = MOVrr) then
    a ← data_at i 0; a ← as_reg a; a ← to_reg_unit a;
    b ← data_at i 1; b ← as_reg b; b ← to_reg_unit b;
    Ret (bool_decide (a = b))
  else Ret false.

Module SimpleRegCoalescing.
(* [codegen/isa/ola/pass/simple_reg_coalescing.rs | pub fn run_on_function] *)
Definition run_on_function (f : Function) : comp Function :=
  worklist ← collect f is_self_move; foldM Func.remove_inst f worklist.
End SimpleRegCoalescing.

(** ** add_peephole *)

Inductive peephole := Keep | Dead | Replace.

(** [add r x 0]: dead when [x] is [r], a move when [x] is an immediate.  Any
    other operand is a [todo!]. *)
(* [codegen/isa/ola/pass/add_peephole.rs | 26-50 | run_on_function] *)
Definition classify (i : InstructionData) : comp peephole :=
  if decide (opcode i = ADDrr ∨ opcode i = ADDri) then
    d ← data_at i 2;
    if decide (default 1 (sext_as_i64 d) = 0) then
      s ← data_at i 1;
      match s with
      | Int32 _ | Int64 _ => Ret Replace
      | OReg r => d ← data_at i 0; r0 ← as_reg d; Ret (if decide (r = r0) then Dead else Keep)
      | OVReg r => d ← data_at i 0; r0 ← as_vreg d; Ret (if decide (r = r0) then Dead else Keep)
      | _ => Panic
      end
    else Ret Keep
  else Ret Keep.

Definition is_dead (i : InstructionData) : comp bool :=
  c ← classify i; Ret (match c with Dead => true | _ => false end).
Definition is_replaced (i : InstructionData) : comp bool :=
  c ← classify i; Ret (match c with Replace => true | _ => false end).

(* [codegen/isa/ola/pass/add_peephole.rs | 61-65 | run_on_function] *)
Definition to_move (f : Function) (id : InstructionId) : comp Function :=
  i ← inst_ref (fdata f) id;
  Ret (with_data (set_inst (fdata f) id
    {| iid := iid i; parent := parent i;
       idata := {| opcode := MOVri; operands := but_last (operands (idata i)) |} |}) f).

Module AddPeephole.
(* [codegen/isa/ola/pass/add_peephole.rs | pub fn run_on_function] *)
Definition run_on_function (f : Function) : comp Function :=
  dead_list ← collect f is_dead;
  replace_list ← collect f is_replaced;
  f ← foldM Func.remove_inst f dead_list;
  foldM to_move f replace_list.
End AddPeephole.

(** ** eliminate_phi *)

Abbreviation phi_args := (list (OperandData * BasicBlockId)).

(** The pairs of a phi, [(0..len - 1).step_by(2)] over the operands after the
    output; an odd value without a block panics. *)
Fixpoint phi_pairs (os : list Operand) : comp phi_args :=
  match os with
  | [] => Ret []
  | [_] => Panic
  | v :: b :: os => b ← as_block (data b); r ← phi_pairs os; Ret ((data v, b) :: r)
  end.

(* [codegen/isa/ola/pass/eliminate_phi.rs | 24-38 | run_on_function] *)
Definition add_phi (acc : list InstructionId * gmap Reg phi_args) (x : InstructionId * Instruction)
  : comp (list InstructionId * gmap Reg phi_args) :=
  let '(worklist, m) := acc in
  let '(id, i) := x in
  if is_phi (idata i) then
    d ← data_at (idata i) 0;
    output ← as_reg d;
    ps ← phi_pairs (drop 1 (operands (idata i)));
    Ret (worklist ++ [id],
         match ps with [] => m | _ => <[output := default [] (m !! output) ++ ps]> m end)
  else Ret (worklist, m).

Definition copy_inst (output : Reg) (arg : OperandData) (b : BasicBlockId) : comp Instruction :=
  match arg with
  | Int32 _ | Int64 _ =>
      Ret (Inst.new {| opcode := MOVri; operands := [op_output (OReg output); op_new arg] |} b)
  | OReg _ =>
      Ret (Inst.new {| opcode := MOVrr; operands := [op_output (OReg output); op_input arg] |} b)
  | _ => Panic
  end.

(* [codegen/isa/ola/pass/eliminate_phi.rs | 43-74 | run_on_function] *)
Definition insert_copy (output : Reg) (f : Function) (ab : OperandData * BasicBlockId) : comp Function :=
  let '(arg, b) := ab in
  t ← Layout.last_inst_of (layout f) b;
  maybe_term ← unwrap t;
  copy ← copy_inst output arg b;
  let '(d, id) := create_inst (fdata f) copy in
  L ← Layout.insert_inst_before (layout f) maybe_term id b;
  Ret (with_layout L (with_data d f)).

Module EliminatePhi.
(** The map is a hash map: [order] lists its entries as the iterator gives
    them. *)
(* [codegen/isa/ola/pass/eliminate_phi.rs | pub fn run_on_function] *)
Definition run_on_function (order : gmap Reg phi_args → list (Reg * phi_args)) (f : Function) : comp Function :=
  '(worklist, m) ← for_blocks f (λ acc _ insts, foldM add_phi acc insts) ([], ∅);
  f ← foldM (λ f '(output, args), foldM (insert_copy output) f args) f (order m);
  foldM Func.remove_inst f worklist.
End EliminatePhi.

(** ** eliminate_slot *)

(** Values of [i32] and [u32 as i32]. *)
Definition as_i32 (z : Z) : Z := (z + 2 ^ 31) mod 2 ^ 32 - 2 ^ 31.

Definition neg_if_pos (z : Z) : Z := if 0 <? z then - z else z.

(** The word of a slot, relative to the frame pointer, for [add r fp slot]. *)
(* [codegen/isa/ola/pass/eliminate_slot.rs | 60-71 | run_on_function] *)
Definition slot_word_add (call : bool) (off : Z) : comp Z :=
  let size := Z.quot (as_i32 off) 4 in
  size ← (if call then n ← i32 (- size); i32 (n - 2) else Ret size);
  Ret (neg_if_pos size).

(** The word of a memory operand with a slot and an immediate of 32 bits. *)
(* [codegen/isa/ola/pass/eliminate_slot.rs | 87-130 | run_on_function] *)
Definition slot_word_mem (call : bool) (imm off : Z) : comp Z :=
  n ← i32 (- imm); n ← i32 (n - as_i32 off);
  let size := Z.quot n 4 in
  size ← (if call then i32 (size - 2) else Ret size);
  Ret (neg_if_pos size).

Definition fp : OperandData := OReg (of_gr R9).

Definition set_data (k : nat) (d : OperandData) (os : list Operand) : list Operand :=
  alter (map_data (λ _, d)) k os.

(** The six operands after a [MemStart], from index [k]. *)
(* [codegen/isa/ola/pass/eliminate_slot.rs | 84-176 | run_on_function] *)
Definition rewrite_mem (slots : Slots.Slots) (call : bool) (os : list Operand) (k : nat) : comp (list Operand) :=
  _ ← unwrap (os !! (k + 5)%nat);
  m1 ← unwrap (os !! (k + 1)%nat);
  m2 ← unwrap (os !! (k + 2)%nat);
  match data m1, data m2 with
  | OSlot s, ONone =>
      slot ← Slots.get slots s;
      size ← slot_word_mem call 0 (Slots.offset slot);
      Ret (set_data (k + 3) fp (set_data (k + 2) (Int32 size) (set_data (k + 1) ONone os)))
  | OSlot s, Int32 imm =>
      slot ← Slots.get slots s;
      size ← slot_word_mem call imm (Slots.offset slot);
      Ret (set_data (k + 3) fp (set_data (k + 2) (Int32 size) (set_data (k + 1) ONone os)))
  | OSlot s, Int64 imm =>
      slot ← Slots.get slots s;
      let size := Z.quot (imm - Slots.offset slot) 4 in
      let size := neg_if_pos (if call then size - 2 else size) in
      Ret (set_data (k + 3) fp (set_data (k + 2) (Int64 size) (set_data (k + 1) ONone os)))
  | OSlot _, OReg r =>
      Ret (set_data (k + 3) fp (set_data (k + 2) (OReg r) (set_data (k + 1) ONone os)))
  | _, _ => Panic
  end.

(** [while i < len]: the operands are as many as before, so [len] rounds do. *)
Fixpoint rewrite_mems (slots : Slots.Slots) (call : bool) (fuel : nat) (os : list Operand) (i : nat)
  : comp (list Operand) :=
  match os !! i with
  | None => Ret os
  | Some o =>
      match fuel with
      | O => OutOfFuel
      | S fuel =>
          match data o with
          | MemStart => os ← rewrite_mem slots call os (S i); rewrite_mems slots call fuel os (S i + 6)
          | _ => rewrite_mems slots call fuel os (S i)
          end
      end
  end.

Definition has_slot (i : InstructionData) : comp bool :=
  Ret (existsb (λ o, match data o with OSlot _ => true | _ => false end) (operands i)).

Definition rewrite_slots (slots : Slots.Slots) (call : bool) (i : InstructionData) : comp InstructionData :=
  let len := length (operands i) in
  let go := os ← rewrite_mems slots call len (operands i) 0; Ret {| opcode := opcode i; operands := os |} in
  if decide (opcode i = ADDri) then
    d ← data_at i (len - 1);
    match d with
    | OSlot s =>
        slot ← Slots.get slots s;
        size ← slot_word_add call (Slots.offset slot);
        Ret {| opcode := opcode i; operands := set_data (len - 1) (Int32 size) (operands i) |}
    | _ => go
    end
  else go.

Definition rewrite_slot_inst (call : bool) (f : Function) (id : InstructionId) : comp Function :=
  i ← inst_ref (fdata f) id;
  d ← rewrite_slots (slots f) call (idata i);
  Ret (with_data (set_inst (fdata f) id {| iid := iid i; parent := parent i; idata := d |}) f).

Definition has_call (f : Function) : comp bool :=
  for_blocks f (λ c _ insts, Ret (c || existsb (λ p, is_call (idata p.2)) insts)) false.

Module EliminateSlot.
(** The work list is popped from its end. *)
(* [codegen/isa/ola/pass/eliminate_slot.rs | pub fn run_on_function] *)
Definition run_on_function (f : Function) : comp Function :=
  worklist ← collect f has_slot;
  call ← has_call f;
  let add ss := fst (Slots.add_slot ss IrTypes.I32 4 4) in
  let ss := if (call : bool) then add (add (slots f)) else slots f in
  '(ss, _) ← Slots.ensure_computed_offsets ss;
  foldM (rewrite_slot_inst call) (with_slots ss f) (reverse worklist).
End EliminateSlot.

(** ** pro_epi_inserter *)

(* [codegen/isa/ola/pass/pro_epi_inserter.rs | fn roundup] *)
Definition roundup (n align : Z) : comp Z :=
  m ← i32 (n + align); m ← i32 (m - 1); a ← i32 (align - 1); Ret (Z.land m (Z.lnot a)).

(** The words the frame pointer moves by. *)
(* [codegen/isa/ola/pass/pro_epi_inserter.rs | 27-43 | run_on_function] *)
Definition frame_adj (slot_size : Z) (num_csr : nat) : comp Z :=
  let num_saved := 1 + Z.of_nat num_csr in
  n ← u32 (slot_size + num_saved); n ← u32 (n + 1);
  r ← roundup (as_i32 n) 1;
  m ← u32 (num_saved + 1);
  d ← i32 (r - as_i32 m);
  Ret (Z.quot d 4).

Definition at_start (i : InstructionData) (entry : BasicBlockId) (f : Function) : comp Function :=
  let '(d, id) := create_inst (fdata f) (Inst.new i entry) in
  L ← Layout.insert_inst_at_start (layout f) id entry;
  Ret (with_layout L (with_data d f)).

Definition add_fp (out : Operand) (n : Z) : InstructionData :=
  {| opcode := ADDri; operands := [out; op_input_output fp; op_input (Int32 n)] |}.

Definition returns (f : Function) : comp (list (BasicBlockId * InstructionId)) :=
  for_blocks f (λ acc b insts,
    Ret (acc ++ omap (λ p, if decide (opcode (idata p.2) = RET) then Some (b, p.1) else None) insts)) [].

Definition before_return (adj : Z) (f : Function) (x : BasicBlockId * InstructionId) : comp Function :=
  let '(b, ret_id) := x in
  if 0 <? adj then
    let '(d, id) := create_inst (fdata f) (Inst.new (add_fp (op_output fp) (- adj)) b) in
    L ← Layout.insert_inst_before (layout f) ret_id id b;
    Ret (with_layout L (with_data d f))
  else Ret f.

Module ProEpiInserter.
(** [used_csr] only gives its number of elements. *)
(* [codegen/isa/ola/pass/pro_epi_inserter.rs | pub fn run_on_function] *)
Definition run_on_function (f : Function) : comp Function :=
  if is_declaration f then Ret f
  else
    '(ss, slot_size) ← Slots.ensure_computed_offsets (slots f);
    let f := with_slots ss f in
    adj ← frame_adj slot_size (size (used_csr (fdata f)));
    entry ← unwrap (Layout.first_block (layout f));
    call ← has_call f;
    f ← (if (call : bool) then
           at_start {| opcode := MSTOREr; operands := [op_output fp; op_input fp] |} entry f
         else Ret f);
    f ← (if 0 <? adj then at_start (add_fp (op_input_output fp) adj) entry f else Ret f);
    epilogues ← returns f;
    foldM (before_return adj) f epilogues.
End ProEpiInserter.

End Passes.
