(* ===== verification/PassFacts.v ===== *)
(** What the machine passes of [OlaPasses] do to the code of a function: each
    pass is specified as a map on the blocks' instructions, and its loops over
    work lists and the linked layout are shown to compute that map.  Then the
    order of the copies that replace phis, and the words of the frame. *)
From S2P Require Import Prelude LinkedLayout IrTypes Machine MFunction Liveness OlaPasses.

Module PassFacts.
Import Reg Inst Data Func Liveness Passes LayoutSpec.

#[local] Arguments filter : simpl never.

(** ** The code of a function *)

(** The blocks in order with the data of their instructions. *)
Definition code (f : Function) : comp (list (BasicBlockId * list InstructionData)) :=
  bs ← Layout.block_iter (layout f);
  mapM_c (λ b, l ← insts_of_block f b; Ret (b, map (λ p, idata p.2) l)) bs.

Definition text (d : Data) (id : InstructionId) : option InstructionData :=
  idata <$> instructions d !! id.

Definition code_of (d : Data) (A : seq_layout) : list (BasicBlockId * list InstructionData) :=
  map (λ '(b, l), (b, omap (text d) l)) (order A).

(** The layout of [f] is the list of lists [A], over instructions that exist. *)
Record func_rep (f : Function) (A : seq_layout) : Prop := {
  fr_rep : rep (layout f) A;
  fr_data : ∀ id, id ∈ linked A ∨ id ∈ removed A → is_Some (instructions (fdata f) !! id);
}.

(** Every instruction in the layout. *)
Definition each_inst (f : Function) (A : seq_layout) (P : InstructionData → Prop) : Prop :=
  ∀ id i, id ∈ linked A → text (fdata f) id = Some i → P i.

(** For the examples. *)
Definition func_ok_b (f : Function) (A : seq_layout) : bool :=
  bool_decide (removed A = ∅)
  && forallb (λ id, match instructions (fdata f) !! id with Some _ => true | None => false end) (linked A).

Lemma built_func_rep preds blocks :
  spec_run {| order := []; removed := ∅ |} (build_ops blocks) = Some (built blocks) →
  func_ok_b (build preds blocks) (built blocks) = true →
  func_rep (build preds blocks) (built blocks).
Proof.
  intros Hr [_ Hf]%andb_true_iff. split; [by apply build_rep|].
  intros id [Hid|Hid]; [|set_solver].
  rewrite forallb_forall in Hf. specialize (Hf id). rewrite <-list_elem_of_In in Hf.
  specialize (Hf Hid). destruct (_ !! id); [eauto|done].
Qed.

(** A condition on the code, as a check. *)
Lemma each_inst_b f A (P : InstructionData → Prop) `{∀ i, Decision (P i)} :
  forallb (λ id, match text (fdata f) id with Some i => bool_decide (P i) | None => true end) (linked A) = true →
  each_inst f A P.
Proof.
  intros Hf id i Hid Hi. rewrite forallb_forall in Hf. specialize (Hf id).
  rewrite <-list_elem_of_In, Hi in Hf. eapply bool_decide_eq_true_1. by apply Hf.
Qed.

(** ** What each pass is to do *)

(** A move of a register to itself. *)
Definition self_move (i : InstructionData) : bool :=
  bool_decide (opcode i = MOVrr)
  && match operands i with
     | a :: b :: _ => bool_decide (data a = data b)
     | _ => false
     end.

(** Moves between physical registers, as they are after allocation. *)
Definition allocated (i : InstructionData) : Prop :=
  opcode i = MOVrr → ∃ a b os r s, operands i = a :: b :: os
    ∧ data a = OReg r ∧ data b = OReg s ∧ rc r = 0 ∧ rc s = 0.

(** [add r r 0] goes, [add r imm 0] becomes [mov r imm]. *)
Definition peephole_of (i : InstructionData) : option InstructionData :=
  match operands i with
  | a :: b :: c :: _ =>
      if bool_decide (opcode i = ADDrr ∨ opcode i = ADDri)
         && bool_decide (sext_as_i64 (data c) = Some 0%Z)
      then match data b with
           | OReg _ | OVReg _ => if decide (data a = data b) then None else Some i
           | Int32 _ | Int64 _ => Some {| opcode := MOVri; operands := but_last (operands i) |}
           | _ => Some i
           end
      else Some i
  | _ => Some i
  end.

(** ** Blocks, instructions and work lists *)

Definition visited (f : Function) (l : list InstructionId) : list (InstructionId * Instruction) :=
  omap (λ id, (id,.) <$> instructions (fdata f) !! id) l.

Lemma insts_of_keys (o : list (BasicBlockId * list InstructionId)) b l :
  NoDup o.*1 → (b, l) ∈ o → insts_of o b = Some l.
Proof.
  induction o as [|[c k] o IH]; cbn; [set_solver|].
  intros [Hc Hn]%NoDup_cons [[= -> ->]|Hin]%elem_of_cons; [by rewrite decide_True|].
  rewrite decide_False; [auto|]. intros ->. apply Hc, list_elem_of_fmap. by exists (b, l).
Qed.

Lemma linked_of A b l id : (b, l) ∈ order A → id ∈ l → id ∈ linked A.
Proof. intros H Hid. unfold linked. by apply (in_block b l). Qed.

Lemma visit_all f (l : list InstructionId) :
  (∀ id, id ∈ l → is_Some (instructions (fdata f) !! id)) →
  mapM_c (λ i, inst ← inst_ref (fdata f) i; Ret (i, inst)) l = Ret (visited f l).
Proof.
  unfold visited, inst_ref. induction l as [|id l IH]; cbn; intros H; [done|].
  destruct (H id) as [i Hi]; [by left|]. rewrite Hi. cbn. rewrite IH; [done|].
  intros j Hj. apply H. by right.
Qed.

Lemma insts_of_block_rep f A b l :
  func_rep f A → (b, l) ∈ order A → insts_of_block f b = Ret (visited f l).
Proof.
  intros [HR Hd] Hb. unfold insts_of_block.
  rewrite (rep_inst_iter _ _ _ l HR) by (apply insts_of_keys; [apply (rep_keys _ _ HR)|done]).
  cbn. apply visit_all. intros id Hid. apply Hd. left. by eapply linked_of.
Qed.

Lemma map_idata_visited f l : map (λ p, idata p.2) (visited f l) = omap (text (fdata f)) l.
Proof.
  unfold visited, text. induction l as [|id l IH]; cbn; [done|].
  destruct (instructions (fdata f) !! id); cbn; by rewrite IH.
Qed.

Lemma code_rep f A : func_rep f A → code f = Ret (code_of (fdata f) A).
Proof.
  intros H. unfold code, code_of. rewrite (rep_block_iter _ _ (fr_rep _ _ H)). cbn.
  assert (Hi : ∀ b l, (b, l) ∈ order A → insts_of_block f b = Ret (visited f l))
    by (intros; by eapply insts_of_block_rep).
  revert Hi. induction (order A) as [|[b l] o IH]; cbn; intros Hi; [done|].
  rewrite (Hi b l) by (by left). cbn. rewrite IH; [|intros; apply Hi; by right].
  cbn. by rewrite map_idata_visited.
Qed.

Lemma for_blocks_rep {S} f A (body : S → _ → _ → comp S) s :
  func_rep f A →
  for_blocks f body s = foldM (λ s '(b, l), body s b (visited f l)) s (order A).
Proof.
  intros H. unfold for_blocks. rewrite (rep_block_iter _ _ (fr_rep _ _ H)). cbn.
  assert (Hi : ∀ b l, (b, l) ∈ order A → insts_of_block f b = Ret (visited f l))
    by (intros; by eapply insts_of_block_rep).
  revert s Hi. induction (order A) as [|[b l] o IH]; cbn; intros s Hi; [done|].
  rewrite (Hi b l) by (by left). cbn. destruct (body s b (visited f l)); cbn; [|done..].
  apply IH. intros; apply Hi; by right.
Qed.

(** An effectless fold over the blocks is a fold over the linked instructions. *)
Lemma for_insts_rep {S} f A (step : S → InstructionId * Instruction → comp S) s :
  func_rep f A →
  for_blocks f (λ s _ l, foldM step s l) s = foldM step s (visited f (linked A)).
Proof.
  intros H. rewrite (for_blocks_rep _ A) by done. unfold linked, visited. revert s.
  induction (order A) as [|[b l] o IH]; cbn; intros s; [done|].
  rewrite omap_app, foldM_app. destruct (foldM step s _); cbn; auto.
Qed.

Lemma filter_all {X} (P : X → Prop) `{∀ x, Decision (P x)} (l : list X) : (∀ x, x ∈ l → P x) → filter P l = l.
Proof.
  induction l as [|x l IH]; intros Hp; [done|]. rewrite filter_cons_True by (apply Hp; by left).
  rewrite IH; [done|]. intros; apply Hp; by right.
Qed.

Lemma filter_ext_in {X} (P Q : X → Prop) `{∀ x, Decision (P x)} `{∀ x, Decision (Q x)} (l : list X) :
  (∀ x, x ∈ l → P x ↔ Q x) → filter P l = filter Q l.
Proof.
  induction l as [|x l IH]; intros Hp; [done|]. rewrite !filter_cons.
  rewrite IH by (intros; apply Hp; by right). apply decide_ext, Hp. by left.
Qed.

(** Whether a test that returns says yes. *)
Definition says (test : InstructionData → comp bool) (i : InstructionData) : bool :=
  match test i with Ret b => b | _ => false end.

Definition hit (d : Data) (test : InstructionData → bool) (id : InstructionId) : bool :=
  match text d id with Some i => test i | None => false end.

Lemma collect_ok f A (test : InstructionData → comp bool) :
  func_rep f A →
  each_inst f A (λ i, ∃ b, test i = Ret b) →
  collect f test = Ret (filter (λ id, hit (fdata f) (says test) id) (linked A)).
Proof.
  intros H Ht. unfold collect. rewrite (for_insts_rep _ A) by done.
  enough (Hg : ∀ acc, foldM (λ acc '(id, i), b ← test (idata i);
      Ret (if (b : bool) then acc ++ [id] else acc)) acc (visited f (linked A))
    = Ret (acc ++ filter (λ id, hit (fdata f) (says test) id) (linked A))) by apply (Hg []).
  unfold each_inst in Ht. assert (Hd : ∀ id, id ∈ linked A → is_Some (instructions (fdata f) !! id))
    by (intros; apply (fr_data _ _ H); auto).
  unfold hit, visited, text in *. induction (linked A) as [|id l IH]; intros acc.
  { cbn. by rewrite app_nil_r. }
  rewrite filter_cons. destruct (Hd id) as [i Hi]; [by left|]. cbn. rewrite Hi. cbn.
  destruct (Ht id (idata i)) as [b Hb]; [by left|by rewrite Hi|].
  assert (Hs : says test (idata i) = b) by (unfold says; by rewrite Hb). rewrite Hb. cbn.
  etrans; [apply IH; [intros; eapply Ht; [by right|done]|intros; apply Hd; by right]|].
  case_decide as Hc; rewrite Hs in Hc; destruct b; cbn; try done. by rewrite <-app_assoc.
Qed.

(** Removing the instructions of a work list. *)
Definition without (wl : list InstructionId) (A : seq_layout) : seq_layout :=
  {| order := map (λ '(b, l), (b, filter (λ id, id ∉ wl) l)) (order A);
     removed := list_to_set wl ∪ removed A |}.

Lemma linked_without wl A : linked (without wl A) = filter (λ id, id ∉ wl) (linked A).
Proof.
  unfold linked, without; cbn. induction (order A) as [|[b l] o IH]; cbn; [done|].
  by rewrite filter_app, IH.
Qed.

Lemma without_nil A : without [] A = A.
Proof.
  destruct A as [o R]. unfold without; cbn. f_equal; [|set_solver].
  induction o as [|[b l] o IH]; cbn; [done|]. rewrite IH. do 2 f_equal.
  apply filter_all. intros. apply not_elem_of_nil.
Qed.

Definition removing (i : InstructionId) (A : seq_layout) : seq_layout :=
  {| order := map (λ '(b, l), (b, del i l)) (order A); removed := {[i]} ∪ removed A |}.

Lemma linked_removing i A : linked (removing i A) = del i (linked A).
Proof.
  unfold linked, del; cbn. induction (order A) as [|[b l] o IH]; cbn; [done|].
  rewrite filter_app. by rewrite <-IH.
Qed.

Lemma without_cons i wl A : without (i :: wl) A = without wl (removing i A).
Proof.
  destruct A as [o R]. unfold without, removing, del; cbn. f_equal; [|set_solver].
  induction o as [|[b l] o IH]; cbn; [done|]. rewrite IH. do 2 f_equal.
  rewrite list_filter_filter. apply list_filter_iff. set_solver.
Qed.

Definition same_but_layout (f f' : Function) : Prop :=
  fdata f' = fdata f ∧ slots f' = slots f ∧ types f' = types f
  ∧ is_declaration f' = is_declaration f ∧ call_conv f' = call_conv f.

Lemma remove_all_ok f A wl :
  func_rep f A → NoDup wl → (∀ id, id ∈ wl → id ∈ linked A) →
  ∃ f', foldM Func.remove_inst f wl = Ret f' ∧ same_but_layout f f' ∧ func_rep f' (without wl A).
Proof.
  revert f A. induction wl as [|i wl IH]; intros f A H Hn Hl; cbn [foldM].
  { exists f. rewrite without_nil. by repeat split; try apply H. }
  apply NoDup_cons in Hn as [Hi Hn].
  assert (Hi' : i ∈ linked A) by (apply Hl; by left).
  destruct (step_refines (layout f) A (RemoveInst i) (removing i A) (fr_rep _ _ H)) as (L & HL & HR).
  { cbn. by rewrite decide_True. }
  assert (Hr : Func.remove_inst f i = Ret (with_layout L f)).
  { unfold Func.remove_inst. cbn in HL.
    destruct (Layout.remove_inst (layout f) i) as [[L' []]| |]; cbn in HL; try done.
    by injection HL as ->. }
  rewrite Hr, without_cons. cbn.
  destruct (IH (with_layout L f) (removing i A)) as (f' & -> & Hs & Hw); [|done| |].
  - split; [done|]. cbn. intros j Hj. apply (fr_data _ _ H).
    rewrite linked_removing in Hj. unfold del in Hj. rewrite list_elem_of_filter in Hj. set_solver.
  - intros id Hid. rewrite linked_removing. apply list_elem_of_filter.
    split; [by intros ->|apply Hl; by right].
  - exists f'. split_and!; [done| |done]. unfold same_but_layout in *. by cbn in Hs.
Qed.

(** What is left of the code. *)
Lemma code_without d A wl (test : InstructionData → bool) :
  (∀ id, id ∈ linked A → id ∈ wl ↔ hit d test id) →
  code_of d (without wl A)
  = map (λ '(b, l), (b, filter (λ i, test i = false) l)) (code_of d A).
Proof.
  intros Hwl. unfold code_of, without; cbn. rewrite !map_map. apply map_ext_in.
  intros [b l] Hb%list_elem_of_In. f_equal.
  assert (Hl : ∀ id, id ∈ l → id ∈ linked A) by (intros; by eapply linked_of).
  revert Hl. clear Hb. induction l as [|id l IH]; intros Hl; [done|].
  assert (IH' := IH (λ j Hj, Hl j (list_elem_of_further j id l Hj))). clear IH.
  specialize (Hwl id (Hl id (list_elem_of_here id l))). unfold hit in Hwl.
  rewrite filter_cons. cbn. destruct (text d id) as [i|] eqn:Hi; cbn.
  - rewrite (filter_cons _ i). destruct (test i) eqn:Ht.
    + rewrite decide_False by (rewrite Hwl; naive_solver). by rewrite decide_False.
    + rewrite decide_True by (rewrite Hwl; naive_solver). cbn. by rewrite Hi, IH', decide_True.
  - rewrite decide_True by (rewrite Hwl; naive_solver). cbn. by rewrite Hi.
Qed.

(** A pass that only removes the instructions a test picks. *)
Lemma remove_pass f A (test : InstructionData → comp bool) :
  func_rep f A → each_inst f A (λ i, ∃ b, test i = Ret b) →
  ∃ f', (wl ← collect f test; foldM Func.remove_inst f wl) = Ret f'
    ∧ same_but_layout f f'
    ∧ code f' = Ret (map (λ '(b, l), (b, filter (λ i, says test i = false) l)) (code_of (fdata f) A))
    ∧ func_rep f' (without (filter (λ id, hit (fdata f) (says test) id) (linked A)) A).
Proof.
  intros H Ht. rewrite (collect_ok _ A) by done. cbn.
  destruct (remove_all_ok f A (filter (λ id, hit (fdata f) (says test) id) (linked A)))
    as (f' & -> & Hs & Hr).
  - done.
  - apply NoDup_filter, (rep_linked _ _ (fr_rep _ _ H)).
  - intros id Hid. by apply list_elem_of_filter in Hid as [_ Hid].
  - exists f'. split_and!; [done|done| |done].
    rewrite (code_rep _ _ Hr). destruct Hs as [-> _].
    erewrite code_without; [done|]. intros id Hid. rewrite list_elem_of_filter. naive_solver.
Qed.

(** ** Coalescing *)

Lemma is_self_move_ok i : allocated i → is_self_move i = Ret (self_move i).
Proof.
  unfold allocated, is_self_move, self_move. intros Ha. case_decide as Hop.
  - destruct (Ha Hop) as (a & b & os & r & s & Hos & Hda & Hdb & Hr & Hs).
    rewrite (bool_decide_true (opcode i = MOVrr)) by done. cbn [andb].
    unfold data_at, as_reg, to_reg_unit. rewrite Hos. cbn. rewrite Hda, Hdb. cbn.
    rewrite Hr, Hs. cbn. f_equal. apply bool_decide_ext. destruct r, s; cbn in *; subst.
    naive_solver.
  - by rewrite bool_decide_false.
Qed.

(** On allocated code the register coalescing pass returns and removes exactly
    the moves of a register to itself; the other instructions keep their data
    and order, and slots, types and flags of the function are untouched. *)
Theorem coalescing_removes_self_moves f A :
  func_rep f A → each_inst f A allocated →
  ∃ f', SimpleRegCoalescing.run_on_function f = Ret f' ∧ same_but_layout f f'
    ∧ code f' = Ret (map (λ '(b, l), (b, filter (λ i, self_move i = false) l)) (code_of (fdata f) A)).
Proof.
  intros H Ha. destruct (remove_pass f A is_self_move) as (f' & Hrun & Hs & Hc & _); [done| |].
  { intros id i Hid Hi. eexists. by eapply is_self_move_ok, Ha. }
  exists f'. split_and!; [done|done|]. rewrite Hc. f_equal. unfold code_of. rewrite !map_map.
  apply map_ext_in. intros [b l] Hb%list_elem_of_In. f_equal. apply filter_ext_in.
  intros i (id & Hid & Hi)%list_elem_of_omap. unfold says.
  rewrite is_self_move_ok; [done|]. apply (Ha id); [by eapply linked_of|done].
Qed.

Lemma coalescing_removes_self_moves_witness :
  let code_ := [[{| opcode := MOVrr; operands := [op_output (OReg (of_gr R1)); op_input (OReg (of_gr R2))] |};
                 {| opcode := MOVrr; operands := [op_output (OReg (of_gr R1)); op_input (OReg (of_gr R1))] |};
                 {| opcode := RET; operands := [] |}]] in
  ∃ f', SimpleRegCoalescing.run_on_function (build [[]] code_) = Ret f'
    ∧ same_but_layout (build [[]] code_) f'
    ∧ code f' = Ret (map (λ '(b, l), (b, filter (λ i, self_move i = false) l))
                         (code_of (fdata (build [[]] code_)) (built code_))).
Proof.
  intros code_. apply coalescing_removes_self_moves.
  - apply built_func_rep; vm_compute; reflexivity.
  - intros id i Hid Hi.
    assert (Hin : id ∈ [0; 1; 2]%nat) by exact Hid. rewrite !elem_of_cons, elem_of_nil in Hin.
    destruct Hin as [->|[->|[->|[]]]]; vm_compute in Hi; injection Hi as <-; intros Hop; try done;
      do 5 eexists; repeat split; reflexivity.
Defined.

(** ** The peephole pass *)

(** Additions of zero have their operands where the pass looks for them. *)
Definition readable (i : InstructionData) : Prop := ∃ k, classify i = Ret k.

Lemma classify_spec i k :
  classify i = Ret k →
  peephole_of i = match k with
                  | Dead => None
                  | Keep => Some i
                  | Replace => Some {| opcode := MOVri; operands := but_last (operands i) |}
                  end.
Proof.
  unfold classify, peephole_of. case_decide as Hop.
  - rewrite (bool_decide_true (_ ∨ _)) by done. cbn [andb]. unfold data_at.
    destruct (operands i) as [|a [|b [|c os]]]; cbn; try done.
    intros H. destruct (sext_as_i64 (data c)) as [z|] eqn:Hz; cbn in H; cycle 1.
    { injection H as <-. by rewrite bool_decide_false. }
    case_decide as H0; cycle 1.
    { injection H as <-. by rewrite bool_decide_false by congruence. }
    subst z. rewrite bool_decide_true by done.
    destruct (data b) eqn:Hb; cbn in H; try done; try (by injection H as <-).
    + unfold as_reg in H. destruct (data a); cbn in H; try done. injection H as <-.
      repeat case_decide; congruence.
    + unfold as_vreg in H. destruct (data a); cbn in H; try done. injection H as <-.
      repeat case_decide; congruence.
  - intros [= <-]. rewrite bool_decide_false by done. by destruct (operands i) as [|? [|? []]].
Qed.

(** Rewriting the instructions of a work list in place. *)
Definition put (f : Function) (id : InstructionId) (i : Instruction) (d : InstructionData) : Function :=
  with_data (set_inst (fdata f) id {| iid := iid i; parent := parent i; idata := d |}) f.

Lemma text_put f id i d j :
  instructions (fdata f) !! id = Some i →
  text (fdata (put f id i d)) j = if decide (j = id) then Some d else text (fdata f) j.
Proof.
  intros Hi. unfold text; cbn. case_decide as Hj; [subst j|].
  - rewrite list_lookup_insert_eq; [done|]. by apply lookup_lt_Some in Hi.
  - by rewrite list_lookup_insert_ne by congruence.
Qed.

Lemma rewrite_all_ok (st : Function → InstructionId → comp Function) (g : InstructionData → InstructionData)
    (P : InstructionData → Prop) ss f wl :
  (∀ f id i, slots f = ss → instructions (fdata f) !! id = Some i → P (idata i) →
    st f id = Ret (put f id i (g (idata i)))) →
  slots f = ss → NoDup wl → (∀ id, id ∈ wl → ∃ i, text (fdata f) id = Some i ∧ P i) →
  ∃ f', foldM st f wl = Ret f' ∧ layout f' = layout f ∧ slots f' = ss
    ∧ ∀ id, text (fdata f') id = if decide (id ∈ wl) then g <$> text (fdata f) id else text (fdata f) id.
Proof.
  intros Hst. revert f. induction wl as [|id wl IH]; intros f Hss Hn Hwl; cbn [foldM].
  { exists f. split_and!; [done..|]. intros id. by rewrite decide_False by apply not_elem_of_nil. }
  apply NoDup_cons in Hn as [Hid Hn].
  destruct (Hwl id) as (d & Hd & HP); [by left|].
  pose proof Hd as Hd'. unfold text in Hd'. apply fmap_Some in Hd' as (i & Hi & ->).
  rewrite (Hst f id i) by done. cbn.
  destruct (IH (put f id i (g (idata i)))) as (f' & -> & Hl & Hs & Ht); [done|done| |].
  - intros j Hj. rewrite (text_put f id i) by done.
    rewrite decide_False by (by intros ->). apply Hwl. by right.
  - exists f'. split_and!; [done..|]. intros j. rewrite Ht, (text_put f id i) by done.
    destruct (decide (j = id)) as [->|Hne].
    + rewrite decide_False, decide_True by (done || by left). by rewrite Hd.
    + destruct (decide (j ∈ wl)); [rewrite decide_True by (by right)|rewrite decide_False by set_solver]; done.
Qed.

Lemma func_rep_text f f' A :
  func_rep f A → layout f' = layout f →
  (∀ id, is_Some (text (fdata f) id) → is_Some (text (fdata f') id)) → func_rep f' A.
Proof.
  intros [HR Hd] Hl Ht. split; [by rewrite Hl|]. intros id Hid.
  apply Hd in Hid as [i Hi]. destruct (Ht id) as [d Hdd]; [unfold text; rewrite Hi; eauto|].
  unfold text in Hdd. apply fmap_Some in Hdd as (j & -> & _). eauto.
Qed.

Lemma to_move_put f id i :
  instructions (fdata f) !! id = Some i →
  to_move f id = Ret (put f id i {| opcode := MOVri; operands := but_last (operands (idata i)) |}).
Proof. intros Hi. unfold to_move, inst_ref. by rewrite Hi. Qed.

Lemma hit_classify f A id :
  func_rep f A → each_inst f A readable → id ∈ linked A →
  ∃ i k, text (fdata f) id = Some i ∧ classify i = Ret k
    ∧ (hit (fdata f) (says is_dead) id ↔ k = Dead)
    ∧ (hit (fdata f) (says is_replaced) id ↔ k = Replace).
Proof.
  intros H Hc Hid. destruct (fr_data _ _ H id) as [i Hi]; [auto|].
  assert (Ht : text (fdata f) id = Some (idata i)) by (unfold text; by rewrite Hi).
  destruct (Hc id _ Hid Ht) as [k Hk]. exists (idata i), k.
  unfold hit, says, is_dead, is_replaced. rewrite Ht, Hk. cbn. by destruct k.
Qed.

(** The peephole pass returns, and the code it leaves is that of the function
    with every addition of zero to its own output register removed, every
    addition of zero to an immediate turned into a move of the immediate, and
    everything else unchanged and in order. *)
Theorem peephole_removes_additions_of_zero f A :
  func_rep f A → each_inst f A readable →
  ∃ f', AddPeephole.run_on_function f = Ret f' ∧ slots f' = slots f
    ∧ code f' = Ret (map (λ '(b, l), (b, omap peephole_of l)) (code_of (fdata f) A)).
Proof.
  intros H Hc. unfold AddPeephole.run_on_function.
  assert (Hd : each_inst f A (λ i, ∃ b, is_dead i = Ret b)).
  { intros id i Hid Hi. destruct (Hc id i Hid Hi) as [k Hk]. unfold is_dead. rewrite Hk. eauto. }
  assert (Hp : each_inst f A (λ i, ∃ b, is_replaced i = Ret b)).
  { intros id i Hid Hi. destruct (Hc id i Hid Hi) as [k Hk]. unfold is_replaced. rewrite Hk. eauto. }
  rewrite !(collect_ok _ A) by done. cbn.
  set (dead := filter (λ id, hit (fdata f) (says is_dead) id) (linked A)).
  set (repl := filter (λ id, hit (fdata f) (says is_replaced) id) (linked A)).
  pose proof (rep_linked _ _ (fr_rep _ _ H)) as Hn.
  destruct (remove_all_ok f A dead) as (f1 & -> & Hs1 & Hr1);
    [done|by apply NoDup_filter|by intros id [_ ?]%list_elem_of_filter|]. cbn.
  destruct Hs1 as (Hf1 & Hsl & _).
  destruct (rewrite_all_ok to_move (λ i, {| opcode := MOVri; operands := but_last (operands i) |})
      (λ _, True) (slots f) f1 repl) as (f2 & -> & Hl2 & Hs2 & Ht2).
  { intros g id i _ Hi _. by apply to_move_put. }
  { done. }
  { by apply NoDup_filter. }
  { intros id [_ Hid]%list_elem_of_filter. destruct (fr_data _ _ H id) as [i Hi]; [auto|].
    exists (idata i). unfold text. by rewrite Hf1, Hi. }
  exists f2. split_and!; [done|done|].
  rewrite (code_rep f2 (without dead A)); cycle 1.
  { apply (func_rep_text f1); [done..|]. intros id Hid. rewrite Ht2.
    case_decide; [by apply fmap_is_Some|done]. }
  f_equal. unfold code_of, without; cbn. rewrite !map_map. apply map_ext_in.
  intros [b l] Hb%list_elem_of_In. f_equal.
  assert (Hl : ∀ id, id ∈ l → id ∈ linked A) by (intros; by eapply linked_of).
  clear Hb. induction l as [|id l IH]; [done|].
  assert (IH' := IH (λ j Hj, Hl j (list_elem_of_further j id l Hj))). clear IH.
  assert (Hid : id ∈ linked A) by (apply Hl; by left).
  destruct (hit_classify f A id H Hc Hid) as (i & k & Hi & Hk & Hdead & Hrepl).
  apply classify_spec in Hk. cbn. rewrite Hi. cbn. rewrite Hk.
  rewrite filter_cons. destruct k; cbn.
  - rewrite decide_True; cbn. 2: { intros [Hx _]%list_elem_of_filter. naive_solver. }
    rewrite Ht2, decide_False, Hf1, Hi by (intros [Hx _]%list_elem_of_filter; naive_solver).
    by rewrite IH'.
  - rewrite decide_False; [done|]. intros Hx. apply Hx, list_elem_of_filter. naive_solver.
  - rewrite decide_True; cbn. 2: { intros [Hx _]%list_elem_of_filter. naive_solver. }
    rewrite Ht2, decide_True, Hf1, Hi by (apply list_elem_of_filter; naive_solver).
    cbn. by rewrite IH'.
Qed.

(** ** Phi elimination *)

(** The copy for one argument of a phi. *)
Definition move_of (r : Reg) (a : OperandData) : InstructionData :=
  match a with
  | OReg _ => {| opcode := MOVrr; operands := [op_output (OReg r); op_input a] |}
  | _ => {| opcode := MOVri; operands := [op_output (OReg r); op_new a] |}
  end.

Definition copyable (a : OperandData) : Prop :=
  match a with Int32 _ | Int64 _ | OReg _ => True | _ => False end.

(** The output and the arguments of a phi whose operands are well formed. *)
Definition phi_of (i : InstructionData) : option (Reg * phi_args) :=
  if is_phi i then
    match operands i with
    | o :: os =>
        match reg_of (data o), phi_pairs os with Some r, Ret ps => Some (r, ps) | _, _ => None end
    | [] => None
    end
  else None.

Definition phi_map (l : list InstructionData) : gmap Reg phi_args :=
  foldl (λ m '(r, ps), match ps with [] => m | _ => <[r := default [] (m !! r) ++ ps]> m end) ∅ (omap phi_of l).

Definition flat (l : list (Reg * phi_args)) : list (Reg * OperandData * BasicBlockId) :=
  concat (map (λ '(r, ps), map (λ '(a, b), (r, a, b)) ps) l).

(** The copies that belong into [b]. *)
Definition copies (b : BasicBlockId) (ms : list (Reg * OperandData * BasicBlockId)) : list InstructionData :=
  omap (λ '(r, a, c), if decide (c = b) then Some (move_of r a) else None) ms.

(** New instructions just before the last one. *)
Definition insert_last {X} (news l : list X) : list X :=
  match last l with Some t => but_last l ++ news ++ [t] | None => l end.

Lemma insert_last_snoc {X} (news l : list X) t : insert_last news (l ++ [t]) = l ++ news ++ [t].
Proof. unfold insert_last. by rewrite last_snoc, but_last_snoc. Qed.

Lemma insert_last_app {X} (xs ys l : list X) :
  insert_last (xs ++ ys) l = insert_last ys (insert_last xs l).
Proof.
  destruct l as [|t l _] using rev_ind; [done|].
  rewrite !insert_last_snoc, (app_assoc l xs), insert_last_snoc. by rewrite <-!app_assoc.
Qed.

Lemma insert_last_nil {X} (l : list X) : insert_last [] l = l.
Proof. destruct l as [|t l _] using rev_ind; [done|]. by rewrite insert_last_snoc. Qed.

Lemma create_inst_text d i d' id :
  create_inst d i = (d', id) →
  id = length (instructions d) ∧ text d' id = Some (idata i)
  ∧ ∀ j, j ≠ id → text d' j = text d j.
Proof.
  intros [= <- <-]. unfold text; cbn. split_and!; [done|by rewrite list_lookup_middle|].
  intros j Hj. f_equal. destruct (decide (j < length (instructions d))) as [Hlt|Hge].
  - by rewrite lookup_app_l.
  - rewrite !lookup_ge_None_2; [done|lia|]. rewrite length_app; cbn. lia.
Qed.

Definition inserting (t i : InstructionId) (b : BasicBlockId) (A : seq_layout) : seq_layout :=
  {| order := on_block b (ins_before t i) (order A); removed := removed A |}.

Lemma fresh f A : func_rep f A →
  (length (instructions (fdata f)) ∉ linked A) ∧ (length (instructions (fdata f)) ∉ removed A).
Proof.
  intros H. split; intros Hid; destruct (fr_data _ _ H (length (instructions (fdata f)))) as [i Hi];
    auto; apply lookup_lt_Some in Hi; lia.
Qed.

Lemma linked_inserting A t i b j :
  j ∈ linked (inserting t i b A) → j = i ∨ j ∈ linked A.
Proof.
  unfold linked, inserting, on_block; cbn. induction (order A) as [|[c l] o IH]; cbn; [set_solver|].
  assert (Hins : ∀ k, j ∈ ins_before t i k → j = i ∨ j ∈ k).
  { induction k as [|x k IHk]; cbn; [set_solver|]. case_decide; set_solver. }
  case_decide; cbn; rewrite !elem_of_app; naive_solver.
Qed.

Lemma insert_copy_ok f A r a b l t :
  func_rep f A → (b, l ++ [t]) ∈ order A → copyable a →
  ∃ f', insert_copy r f (a, b) = Ret f' ∧ slots f' = slots f
    ∧ func_rep f' (inserting t (length (instructions (fdata f))) b A)
    ∧ text (fdata f') (length (instructions (fdata f))) = Some (move_of r a)
    ∧ ∀ j, j ≠ length (instructions (fdata f)) → text (fdata f') j = text (fdata f) j.
Proof.
  intros H Hb Ha. pose proof (fresh _ _ H) as [Hf1 Hf2].
  assert (Hi : insts_of (order A) b = Some (l ++ [t]))
    by (apply insts_of_keys; [apply (rep_keys _ _ (fr_rep _ _ H))|done]).
  destruct (step_refines (layout f) A (InsertBefore t (length (instructions (fdata f))) b)
    (inserting t (length (instructions (fdata f))) b A) (fr_rep _ _ H)) as (L & HL & HR).
  { cbn. rewrite decide_False by tauto. rewrite Hi. cbn. rewrite decide_True by set_solver. done. }
  assert (Hlast : Layout.last_inst_of (layout f) b = Ret (Some t)).
  { apply insts_of_split in Hi as (A1 & A2 & HA).
    destruct (rep_block _ _ _ _ _ _ (fr_rep _ _ H) HA) as (Hbb & _).
    unfold Layout.last_inst_of. erewrite block_at_Some by exact Hbb. cbn. by rewrite last_snoc. }
  assert (Hcopy : ∃ c, copy_inst r a b = Ret c ∧ idata c = move_of r a)
    by (destruct a; try done; eexists; (split; [reflexivity|done])).
  destruct Hcopy as (c & Hc & Hcd). unfold insert_copy. rewrite Hlast. cbn [mbind comp_bind unwrap].
  rewrite Hc. cbn [mbind comp_bind].
  destruct (create_inst (fdata f) c) as [d' id] eqn:Hcr.
  pose proof (create_inst_text _ _ _ _ Hcr) as (Hid & Ht & Hother). subst id. cbn in HL.
  rewrite HL. cbn [mbind comp_bind]. eexists. split; [reflexivity|]. cbn.
  split_and!; [done| |by rewrite Ht, Hcd|done].
  split; [done|]. cbn. intros j Hj.
  assert (Hj' : j = length (instructions (fdata f)) ∨ (j ∈ linked A ∨ j ∈ removed A)).
  { destruct Hj as [Hj|Hj]; [|auto]. apply linked_inserting in Hj. tauto. }
  assert (Hs : is_Some (text d' j)).
  { destruct (decide (j = length (instructions (fdata f)))) as [->|Hne]; [by rewrite Ht|].
    rewrite Hother by done. unfold text. apply fmap_is_Some, (fr_data _ _ H). tauto. }
  unfold text in Hs. by apply fmap_is_Some in Hs.
Qed.

Lemma same_key {X Y} (o : list (X * Y)) b l l' : NoDup o.*1 → (b, l) ∈ o → (b, l') ∈ o → l = l'.
Proof.
  induction o as [|[c k] o IH]; cbn; [set_solver|]. intros [Hc Hn]%NoDup_cons Hl Hl'.
  apply elem_of_cons in Hl as [Hl|Hl]; apply elem_of_cons in Hl' as [Hl'|Hl']; simplify_eq; auto.
  - exfalso. apply Hc, list_elem_of_fmap. by exists (c, l').
  - exfalso. apply Hc, list_elem_of_fmap. by exists (c, l).
Qed.

Lemma omap_ext_in {X Y} (g h : X → option Y) (l : list X) :
  (∀ x, x ∈ l → g x = h x) → omap g l = omap h l.
Proof.
  induction l as [|x l IH]; cbn; intros Hx; [done|]. rewrite (Hx x) by (by left).
  by rewrite IH by (intros; apply Hx; by right).
Qed.

Definition insert_at (b : BasicBlockId) {X} (news : list X) : BasicBlockId * list X → BasicBlockId * list X :=
  λ '(c, k), (c, if decide (c = b) then insert_last news k else k).

Lemma code_inserting f f' A b l t x :
  func_rep f A → (b, l ++ [t]) ∈ order A →
  text (fdata f') (length (instructions (fdata f))) = Some x →
  (∀ j, j ≠ length (instructions (fdata f)) → text (fdata f') j = text (fdata f) j) →
  code_of (fdata f') (inserting t (length (instructions (fdata f))) b A)
  = map (insert_at b [x]) (code_of (fdata f) A).
Proof.
  intros H Hb Hx Ho. destruct (fresh _ _ H) as [Hf _]. unfold code_of, inserting, on_block; cbn.
  rewrite !map_map. apply map_ext_in. intros [c k] Hk%list_elem_of_In. cbn.
  assert (Hk' : ∀ j, j ∈ k → text (fdata f') j = text (fdata f) j).
  { intros j Hj. apply Ho. intros ->. by apply Hf, (linked_of _ c k). }
  destruct (decide (c = b)) as [->|Hc]; [|by rewrite (omap_ext_in _ _ _ Hk')].
  pose proof (same_key _ _ _ _ (rep_keys _ _ (fr_rep _ _ H)) Hk Hb) as ->.
  pose proof (rep_linked _ _ (fr_rep _ _ H)) as Hn.
  assert (Htl : t ∉ l).
  { assert (Hi : insts_of (order A) b = Some (l ++ [t]))
      by (apply insts_of_keys; [apply (rep_keys _ _ (fr_rep _ _ H))|done]).
    apply insts_of_split in Hi as (A1 & A2 & HA).
    destruct (rep_block _ _ _ _ _ _ (fr_rep _ _ H) HA) as (_ & _ & Hnd & _).
    apply NoDup_app in Hnd. set_solver. }
  destruct (fr_data _ _ H t) as [i Hi]; [left; apply (linked_of _ b (l ++ [t])); [done|set_solver]|].
  assert (Ht : text (fdata f) t = Some (idata i)) by (unfold text; by rewrite Hi).
  rewrite ins_before_split by done. rewrite !omap_app. cbn.
  rewrite Hx, (Hk' t), Ht by set_solver. rewrite insert_last_snoc. cbn.
  by rewrite (omap_ext_in _ (text (fdata f)) l) by (intros; apply Hk'; set_solver).
Qed.

Definition targets (A : seq_layout) (b : BasicBlockId) : Prop := ∃ l t, (b, l ++ [t]) ∈ order A.

Lemma targets_inserting A t i b c :
  NoDup (order A).*1 → targets A c → targets (inserting t i b A) c.
Proof.
  intros Hk (l & u & H). unfold targets, inserting, on_block; cbn.
  assert (Hin : (if decide (c = b) then (c, ins_before t i (l ++ [u])) else (c, l ++ [u]))
    ∈ map (λ '(b', is_), if decide (b' = b) then (b', ins_before t i is_) else (b', is_)) (order A)).
  { apply list_elem_of_fmap. by exists (c, l ++ [u]). }
  case_decide; [|eauto].
  assert (He : ∃ l' u', ins_before t i (l ++ [u]) = l' ++ [u']).
  { destruct (exists_last (l := ins_before t i (l ++ [u]))) as (l' & u' & E); [|eauto].
    destruct l; cbn; case_decide; done. }
  destruct He as (l' & u' & He). rewrite He in Hin. eauto.
Qed.

(** The loop over the moves, in the order given. *)
Lemma insert_copies_ok ms (wl : list InstructionId) f A :
  func_rep f A → (∀ id, id ∈ wl → id ∈ linked A) →
  (∀ id, id ∈ linked A → id ∈ wl ↔ hit (fdata f) is_phi id) →
  Forall (λ '(r, a, b), copyable a ∧ targets A b) ms →
  ∃ f' A', foldM (λ f '(r, a, b), insert_copy r f (a, b)) f ms = Ret f'
    ∧ slots f' = slots f ∧ func_rep f' A'
    ∧ (∀ id, id ∈ wl → id ∈ linked A')
    ∧ (∀ id, id ∈ linked A' → id ∈ wl ↔ hit (fdata f') is_phi id)
    ∧ code_of (fdata f') A'
      = map (λ '(b, l), (b, insert_last (copies b ms) l)) (code_of (fdata f) A).
Proof.
  revert f A. induction ms as [|[[r a] b] ms IH]; intros f A H Hwl Hhit Hms; cbn [foldM].
  { exists f, A. split_and!; [done..|]. rewrite <-(map_id (code_of _ _)) at 1.
    apply map_ext. intros [b l]. unfold copies; cbn. by rewrite insert_last_nil. }
  apply Forall_cons in Hms as [[Ha (l & t & Hb)] Hms].
  destruct (insert_copy_ok f A r a b l t) as (f1 & -> & Hs1 & Hr1 & Hx & Ho); [done..|].
  cbn [mbind comp_bind].
  pose proof (fresh _ _ H) as [Hf _].
  pose proof (code_inserting _ _ _ _ _ _ _ H Hb Hx Ho) as Hc1.
  set (A1 := inserting t (length (instructions (fdata f))) b A) in *.
  assert (Hsub : ∀ id, id ∈ linked A → id ∈ linked A1).
  { intros id (B1 & c & l1 & l2 & B2 & HA)%linked_block.
    apply (linked_of _ c (if decide (c = b) then ins_before t (length (instructions (fdata f))) (l1 ++ id :: l2)
                          else l1 ++ id :: l2)).
    - unfold A1, inserting, on_block; cbn. apply list_elem_of_fmap. exists (c, l1 ++ id :: l2).
      split; [by case_decide|]. rewrite HA. set_solver.
    - assert (Hin : id ∈ l1 ++ id :: l2) by set_solver. revert Hin. case_decide; [|done].
      generalize (l1 ++ id :: l2). induction l0 as [|y k IHk]; cbn; [done|]. case_decide; set_solver. }
  destruct (IH f1 A1) as (f' & A' & -> & Hs & Hr & Hwl' & Hhit' & Hc); [done|auto| | |].
  - intros id Hid. unfold hit. apply linked_inserting in Hid as [->|Hid].
    + rewrite Hx. split; [|by destruct a]. intros Hid. by apply Hwl, Hf in Hid.
    + rewrite Ho by (by intros ->). by apply Hhit.
  - eapply Forall_impl; [exact Hms|]. intros [[r' a'] b'] [? ?]. split; [done|].
    apply targets_inserting; [apply (rep_keys _ _ (fr_rep _ _ H))|done].
  - exists f', A'. split_and!; [done|by rewrite Hs|done..|].
    rewrite Hc, Hc1, map_map. apply map_ext. intros [c k]. unfold insert_at, copies; cbn.
    f_equal. destruct (decide (c = b)) as [->|Hne].
    + rewrite decide_True by done. by rewrite <-insert_last_app.
    + by rewrite decide_False by congruence.
Qed.

Lemma foldM_flat {S} (h : Reg → S → OperandData * BasicBlockId → comp S) (l : list (Reg * phi_args)) (s : S) :
  foldM (λ s '(r, ps), foldM (h r) s ps) s l = foldM (λ s '(r, a, b), h r s (a, b)) s (flat l).
Proof.
  unfold flat. revert s. induction l as [|[r ps] l IH]; intros s; [done|].
  cbn [map concat foldM]. rewrite foldM_app.
  assert (Hps : ∀ s, foldM (λ s '(r, a, b), h r s (a, b)) s (map (λ '(a, b), (r, a, b)) ps) = foldM (h r) s ps).
  { clear. induction ps as [|[a b] ps IHp]; cbn; intros s; [done|]. destruct (h r s (a, b)); cbn; auto. }
  rewrite Hps. destruct (foldM (h r) s ps); cbn; auto.
Qed.

Definition phi_ok (A : seq_layout) (i : InstructionData) : Prop :=
  is_phi i = true → ∃ r ps, phi_of i = Some (r, ps) ∧ Forall (λ '(a, b), copyable a ∧ targets A b) ps.

Definition add_args (m : gmap Reg phi_args) (x : Reg * phi_args) : gmap Reg phi_args :=
  let '(r, ps) := x in match ps with [] => m | _ => <[r := default [] (m !! r) ++ ps]> m end.

Lemma add_phi_ok wl m id i r ps :
  phi_of (idata i) = Some (r, ps) →
  add_phi (wl, m) (id, i) = Ret (wl ++ [id], add_args m (r, ps)).
Proof.
  unfold phi_of, add_phi. destruct (is_phi (idata i)) eqn:Hp; [|done].
  unfold data_at, as_reg. destruct (operands (idata i)) as [|o os] eqn:Ho; [done|]. cbn [lookup list_lookup unwrap mbind comp_bind].
  destruct (reg_of (data o)) as [r'|]; [|done]. cbn. rewrite drop_0.
  destruct (phi_pairs os) as [ps'| |]; try done.
  intros [= -> ->]. done.
Qed.

Lemma phis_collected f A :
  func_rep f A → each_inst f A (phi_ok A) →
  for_blocks f (λ acc _ insts, foldM add_phi acc insts) ([], ∅)
  = Ret (filter (λ id, hit (fdata f) is_phi id) (linked A), phi_map (omap (text (fdata f)) (linked A))).
Proof.
  intros H Hp. rewrite (for_insts_rep _ A) by done. unfold phi_map. fold add_args.
  enough (Hg : ∀ wl m, foldM add_phi (wl, m) (visited f (linked A))
    = Ret (wl ++ filter (λ id, hit (fdata f) is_phi id) (linked A),
           foldl add_args m (omap phi_of (omap (text (fdata f)) (linked A))))) by apply (Hg []).
  unfold each_inst in Hp.
  assert (Hd : ∀ id, id ∈ linked A → is_Some (instructions (fdata f) !! id))
    by (intros; apply (fr_data _ _ H); auto).
  unfold visited. induction (linked A) as [|id l IH]; intros wl m.
  { cbn. by rewrite app_nil_r. }
  rewrite filter_cons. destruct (Hd id) as [i Hi]; [by left|].
  assert (Ht : text (fdata f) id = Some (idata i)) by (unfold text; by rewrite Hi).
  assert (Hh : hit (fdata f) is_phi id = is_phi (idata i)) by (unfold hit; by rewrite Ht).
  cbn. rewrite Hi, Ht. cbn.
  assert (IH' := λ a b, IH (λ j d Hj, Hp j d (list_elem_of_further j id l Hj))
    (λ j Hj, Hd j (list_elem_of_further j id l Hj)) a b). clear IH.
  destruct (is_phi (idata i)) eqn:Hphi.
  - destruct (Hp id (idata i)) as (r & ps & Hps & _); [by left|done|done|].
    rewrite Hps. cbn. pose proof (add_phi_ok wl m id i r ps Hps) as Ha. cbn in Ha. rewrite Hphi in Ha.
    rewrite Ha. cbn. rewrite IH', decide_True by (by rewrite Hh). by rewrite <-app_assoc.
  - unfold phi_of. rewrite Hphi. cbn. rewrite IH', decide_False; [done|]. rewrite Hh. tauto.
Qed.

(** The moves are those of the phis. *)
Lemma phi_map_args l r a b :
  (a, b) ∈ default [] (phi_map l !! r) ↔ ∃ i ps, i ∈ l ∧ phi_of i = Some (r, ps) ∧ (a, b) ∈ ps.
Proof.
  unfold phi_map. fold add_args.
  enough (Hg : ∀ m, (a, b) ∈ default [] (foldl add_args m (omap phi_of l) !! r)
    ↔ (a, b) ∈ default [] (m !! r) ∨ ∃ i ps, i ∈ l ∧ phi_of i = Some (r, ps) ∧ (a, b) ∈ ps).
  { rewrite Hg, lookup_empty. cbn. set_solver. }
  induction l as [|i l IH]; intros m; cbn; [set_solver|].
  setoid_rewrite elem_of_cons. destruct (phi_of i) as [[r' ps]|] eqn:Hi; cbn; rewrite IH; cycle 1.
  { split; [naive_solver|]. intros [?|(j & ps & [->|?] & ? & ?)]; [by left|congruence|right; eauto]. }
  assert (Hm : (a, b) ∈ default [] (add_args m (r', ps) !! r)
    ↔ (a, b) ∈ default [] (m !! r) ∨ (r' = r ∧ (a, b) ∈ ps)).
  { unfold add_args. destruct ps as [|p ps]; [set_solver|]. destruct (decide (r' = r)) as [->|Hne].
    - rewrite lookup_insert_eq. cbn [default from_option id]. rewrite elem_of_app. tauto.
    - rewrite lookup_insert_ne by done. tauto. }
  rewrite Hm. split.
  - intros [[?|[-> ?]]|(j & qs & ? & ? & ?)]; [by left|right; eauto 6|right; eauto 7].
  - intros [?|(j & qs & [->|?] & Hj & ?)]; [by left; left| |right; eauto].
    rewrite Hi in Hj. injection Hj as -> ->. by left; right.
Qed.

Lemma flat_moves (order : gmap Reg phi_args → list (Reg * phi_args)) (m : gmap Reg phi_args) r a b :
  order m ≡ₚ map_to_list m → (r, a, b) ∈ flat (order m) ↔ (a, b) ∈ default [] (m !! r).
Proof.
  intros Hp. unfold flat. rewrite list_elem_of_In, in_concat. split.
  - intros (k & Hk & Hin). apply in_map_iff in Hk as ([r' ps] & <- & Hr).
    apply in_map_iff in Hin as ([a' b'] & [= -> -> ->] & Hin).
    apply list_elem_of_In in Hr. rewrite Hp in Hr. apply elem_of_map_to_list in Hr. rewrite Hr.
    by apply list_elem_of_In.
  - destruct (m !! r) as [ps|] eqn:Hr; cbn; [|set_solver]. intros Hin.
    exists (map (λ '(a, b), (r, a, b)) ps). split; apply in_map_iff.
    + exists (r, ps). split; [done|]. apply list_elem_of_In. rewrite Hp. by apply elem_of_map_to_list.
    + exists (a, b). split; [done|]. by apply list_elem_of_In.
Qed.

(** ** What the copies compute

    A phi takes, on the edge from [b], the value that its argument for [b] has
    at the end of [b]: all the phis of a block at once.  The copies run one
    after the other. *)
Section Copies.
Context {V : Type} (imm : Z → V).

Definition value (e : Reg → V) (a : OperandData) : option V :=
  match a with OReg r => Some (e r) | Int32 z | Int64 z => Some (imm z) | _ => None end.

(** [MOVri] and [MOVrr]. *)
Definition exec1 (e : Reg → V) (i : InstructionData) : Reg → V :=
  match operands i with
  | [o; s] =>
      match reg_of (data o), value e (data s) with
      | Some r, Some v => λ r', if decide (r' = r) then v else e r'
      | _, _ => e
      end
  | _ => e
  end.

Definition exec (e : Reg → V) (l : list InstructionData) : Reg → V := foldl exec1 e l.

Lemma exec1_move_of e r a v r' :
  value e a = Some v → exec1 e (move_of r a) r' = if decide (r' = r) then v else e r'.
Proof. by destruct a; try done; intros [= <-]. Qed.

(** On the edge from [b] each register is written once, and no copy reads a
    register that another one writes. *)
Definition conflict_free (b : BasicBlockId) (ms : list (Reg * OperandData * BasicBlockId)) : Prop :=
  ∀ i j r a s c, ms !! i = Some (r, a, b) → ms !! j = Some (s, c, b) → i ≠ j → r ≠ s ∧ a ≠ OReg s.

Lemma conflict_free_tail b m ms : conflict_free b (m :: ms) → conflict_free b ms.
Proof. intros H i j r a s c Hi Hj Hne. apply (H (S i) (S j) r a s c); [done|done|lia]. Qed.

Lemma value_copyable e a : copyable a → ∃ v, value e a = Some v.
Proof. destruct a; try done; cbn; eauto. Qed.

Lemma exec_others b ms e r :
  (∀ s c, (s, c, b) ∈ ms → r ≠ s) → exec e (copies b ms) r = e r.
Proof.
  unfold exec, copies. revert e. induction ms as [|[[s c] b'] ms IH]; intros e Hr; [done|].
  assert (Hr' : ∀ s c, (s, c, b) ∈ ms → r ≠ s) by (intros ?? Hin; eapply Hr; by right).
  cbn. destruct (decide (b' = b)) as [->|]; cbn; [|by apply IH].
  rewrite IH by done. destruct (value e c) as [v|] eqn:Hv.
  - rewrite (exec1_move_of e s c v) by done. rewrite decide_False; [done|]. apply (Hr s c). by left.
  - by destruct c.
Qed.

Lemma exec_copies b ms : ∀ e r a,
  conflict_free b ms → Forall (λ '(_, a, _), copyable a) ms → (r, a, b) ∈ ms →
  Some (exec e (copies b ms) r) = value e a.
Proof.
  induction ms as [|[[s c] b'] ms IH]; intros e r a Hcf Hc Hin; [by apply elem_of_nil in Hin|].
  apply Forall_cons in Hc as [Hc Hcs]. pose proof (conflict_free_tail _ _ _ Hcf) as Hcf'.
  destruct (value_copyable e c Hc) as [v Hv]. apply elem_of_cons in Hin as [Heq|Hin].
  - injection Heq as -> -> <-. unfold copies, exec; cbn. rewrite decide_True by done. cbn.
    fold (copies b ms) (exec (exec1 e (move_of s c)) (copies b ms)).
    rewrite exec_others.
    + rewrite (exec1_move_of e s c v) by done. by rewrite decide_True.
    + intros u d [k Hk]%list_elem_of_lookup. by eapply (Hcf 0%nat (S k)).
  - unfold copies, exec; cbn. destruct (decide (b' = b)) as [->|Hne]; cbn; [|by apply IH].
    fold (copies b ms) (exec (exec1 e (move_of s c)) (copies b ms)).
    rewrite (IH _ r a) by done. apply list_elem_of_lookup in Hin as [k Hk].
    destruct a as [u| | | | | | | | | |]; cbn; try done. rewrite (exec1_move_of e s c v) by done.
    rewrite decide_False; [done|]. intros ->.
    by edestruct (Hcf (S k) 0%nat) as [_ Hx].
Qed.
End Copies.

(** C14: On a function whose phis have register outputs and arguments from
    non-empty blocks, phi elimination returns for every iteration order of its
    hash map: all phis are gone, each block has just before its last
    instruction one copy for every phi argument that names it and is otherwise
    unchanged; and where the copies of an edge do not conflict, running them
    gives every phi output the value its argument had before. *)
Theorem eliminate_phi_places_copies f A (order : gmap Reg phi_args → list (Reg * phi_args)) :
  func_rep f A → each_inst f A (phi_ok A) → (∀ m, order m ≡ₚ map_to_list m) →
  ∃ f' ms, EliminatePhi.run_on_function order f = Ret f' ∧ slots f' = slots f
    ∧ (∀ r a b, (r, a, b) ∈ ms ↔ ∃ id i ps, id ∈ linked A ∧ text (fdata f) id = Some i
         ∧ phi_of i = Some (r, ps) ∧ (a, b) ∈ ps)
    ∧ code f' = Ret (map (λ '(b, l), (b, filter (λ i, is_phi i = false) (insert_last (copies b ms) l)))
                         (code_of (fdata f) A))
    ∧ (∀ b, conflict_free b ms → ∀ (V : Type) (imm : Z → V) e r a, (r, a, b) ∈ ms →
         Some (exec imm e (copies b ms) r) = value imm e a).
Proof.
  intros H Hp Ho. unfold EliminatePhi.run_on_function. rewrite (phis_collected _ A) by done.
  cbn [mbind comp_bind]. rewrite foldM_flat.
  set (wl := filter (λ id, hit (fdata f) is_phi id) (linked A)).
  set (m := phi_map (omap (text (fdata f)) (linked A))).
  assert (Hms : ∀ r a b, (r, a, b) ∈ flat (order m) ↔ ∃ id i ps, id ∈ linked A
    ∧ text (fdata f) id = Some i ∧ phi_of i = Some (r, ps) ∧ (a, b) ∈ ps).
  { intros r a b. rewrite (flat_moves order) by done. unfold m. rewrite phi_map_args.
    setoid_rewrite list_elem_of_omap. naive_solver. }
  assert (Hok : Forall (λ '(r, a, b), copyable a ∧ targets A b) (flat (order m))).
  { apply Forall_forall. intros [[r a] b] Hin.
    apply Hms in Hin as (id & i & ps & Hid & Hi & Hps & Hab).
    destruct (Hp id i Hid Hi) as (r' & ps' & Hps' & Hall).
    - unfold phi_of in Hps. by destruct (is_phi i).
    - rewrite Hps in Hps'. injection Hps' as <- <-. rewrite Forall_forall in Hall. by apply (Hall (a, b)). }
  destruct (insert_copies_ok (flat (order m)) wl f A) as (f1 & A1 & -> & Hs1 & Hr1 & Hwl1 & Hhit1 & Hc1).
  { done. }
  { by intros id [_ ?]%list_elem_of_filter. }
  { intros id Hid. unfold wl. rewrite list_elem_of_filter. naive_solver. }
  { done. }
  cbn [mbind comp_bind].
  destruct (remove_all_ok f1 A1 wl) as (f2 & -> & (Hf2 & Hs2 & _) & Hr2);
    [done|by apply NoDup_filter, (rep_linked _ _ (fr_rep _ _ H))|done|].
  exists f2, (flat (order m)). split_and!; [done|congruence|done| |].
  - rewrite (code_rep _ _ Hr2), Hf2, (code_without _ A1 wl is_phi), Hc1, map_map by done.
    f_equal. apply map_ext. by intros [b l].
  - intros b Hcf V imm e r a Hin. apply exec_copies; [done| |done].
    eapply Forall_impl; [exact Hok|]. by intros [[r' a'] b'] [? _].
Qed.

Lemma peephole_removes_additions_of_zero_witness :
  let r := OReg (of_gr R1) in
  let code_ := [[{| opcode := ADDri; operands := [op_output r; op_input (Int32 7); op_new (Int32 0)] |};
                 {| opcode := ADDri; operands := [op_output r; op_input r; op_new (Int32 0)] |};
                 {| opcode := ADDri; operands := [op_output r; op_input r; op_new (Int32 1)] |}]] in
  ∃ f', AddPeephole.run_on_function (build [[]] code_) = Ret f' ∧ slots f' = Slots.new
    ∧ code f' = Ret [(0%nat,
        [{| opcode := MOVri; operands := [op_output r; op_input (Int32 7)] |};
         {| opcode := ADDri; operands := [op_output r; op_input r; op_new (Int32 1)] |}])].
Proof.
  intros r code_. apply (peephole_removes_additions_of_zero (build [[]] code_) (built code_)).
  - apply built_func_rep; vm_compute; reflexivity.
  - intros id i Hid Hi.
    assert (Hin : id ∈ [0; 1; 2]%nat) by exact Hid. rewrite !elem_of_cons, elem_of_nil in Hin.
    destruct Hin as [->|[->|[->|[]]]]; vm_compute in Hi; injection Hi as <-;
      eexists; vm_compute; reflexivity.
Defined.

(** The arguments of a phi, as its operands. *)
Definition phi (r : GR) (args : list (OperandData * BasicBlockId)) : InstructionData :=
  {| opcode := Phi;
     operands := op_output (OReg (of_gr r))
       :: concat (map (λ '(a, b), [op_input a; op_new (OBlock b)]) args) |}.
Definition jmp (b : BasicBlockId) : InstructionData :=
  {| opcode := JMPr; operands := [op_new (OBlock b)] |}.
Definition cjmp (r : GR) (b : BasicBlockId) : InstructionData :=
  {| opcode := CJMPr; operands := [op_input (OReg (of_gr r)); op_new (OBlock b)] |}.

(** Two blocks that meet, each with its own value. *)
Definition join : list (list InstructionData) :=
  [[cjmp R1 1; jmp 2]; [jmp 3]; [jmp 3];
   [phi R5 [(Int32 100, 1); (OReg (of_gr R6), 2)]; {| opcode := RET; operands := [] |}]]%nat.
Definition join_moves : list (Reg * OperandData * BasicBlockId) :=
  [(of_gr R5, Int32 100, 1%nat); (of_gr R5, OReg (of_gr R6), 2%nat)].

Lemma eliminate_phi_places_copies_witness :
  let f := build [[]; [0]; [0]; [1; 2]]%nat join in
  ∃ f' ms, EliminatePhi.run_on_function map_to_list f = Ret f' ∧ slots f' = slots f
    ∧ (∀ r a b, (r, a, b) ∈ ms ↔ ∃ id i ps, id ∈ linked (built join) ∧ text (fdata f) id = Some i
         ∧ phi_of i = Some (r, ps) ∧ (a, b) ∈ ps)
    ∧ code f' = Ret (map (λ '(b, l), (b, filter (λ i, is_phi i = false) (insert_last (copies b ms) l)))
                         (code_of (fdata f) (built join)))
    ∧ (∀ b, conflict_free b ms → ∀ (V : Type) (imm : Z → V) e r a, (r, a, b) ∈ ms →
         Some (exec imm e (copies b ms) r) = value imm e a).
Proof.
  intros f. apply eliminate_phi_places_copies.
  - apply built_func_rep; vm_compute; reflexivity.
  - intros id i Hid Hi Hphi. change (id ∈ [0; 1; 2; 3; 4; 5]%nat) in Hid.
    rewrite !elem_of_cons, elem_of_nil in Hid.
    repeat destruct Hid as [->|Hid]; try done; vm_compute in Hi; injection Hi as <-; try done.
    do 2 eexists. split; [vm_compute; reflexivity|]. repeat constructor; try done.
    + exists [], 2%nat. change (order (built join)) with [(0, [0; 1]); (1, [2]); (2, [3]); (3, [4; 5])]%nat.
      right; left.
    + exists [], 3%nat. change (order (built join)) with [(0, [0; 1]); (1, [2]); (2, [3]); (3, [4; 5])]%nat.
      do 2 right; left.
  - done.
Defined.

(** A loop that exchanges two registers, and one whose back edge is the
    conditional jump of a block. *)
Definition swap_loop : Function :=
  build [[]; [0; 1]]%nat
    [[jmp 1]; [phi R5 [(Int32 1, 0); (OReg (of_gr R6), 1)]; phi R6 [(Int32 2, 0); (OReg (of_gr R5), 1)]; jmp 1]]%nat.

Definition critical_edge : Function :=
  build [[]; [0]; [0; 1]]%nat
    [[cjmp R1 2; jmp 1]; [jmp 2]; [phi R5 [(Int32 1, 0); (Int32 2, 1)]; {| opcode := RET; operands := [] |}]]%nat.

(** On a loop whose phis exchange two registers, whichever order the pass
    takes the phis in, the copies it places run one after the other and leave
    both registers with the same value. *)
Theorem phi_swap_is_lost (order : gmap Reg phi_args → list (Reg * phi_args)) :
  order = map_to_list ∨ order = (λ m, reverse (map_to_list m)) →
  ∃ f' l r s, EliminatePhi.run_on_function order swap_loop = Ret f'
    ∧ code f' = Ret [(0%nat, l); (1%nat, [move_of r (OReg s); move_of s (OReg r); jmp 1])]
    ∧ (r, s) ∈ [(of_gr R5, of_gr R6); (of_gr R6, of_gr R5)]
    ∧ ∀ (V : Type) (imm : Z → V) e, exec imm e [move_of r (OReg s); move_of s (OReg r); jmp 1] r = e s
        ∧ exec imm e [move_of r (OReg s); move_of s (OReg r); jmp 1] s = e s.
Proof.
  intros [->| ->].
  - eexists _, _, (of_gr R6), (of_gr R5). split_and!; [vm_compute; reflexivity..|right; left|done].
  - eexists _, _, (of_gr R5), (of_gr R6). split_and!; [vm_compute; reflexivity..|left|done].
Qed.

Lemma phi_swap_is_lost_witness :
  ∃ f' l r s, EliminatePhi.run_on_function map_to_list swap_loop = Ret f'
    ∧ code f' = Ret [(0%nat, l); (1%nat, [move_of r (OReg s); move_of s (OReg r); jmp 1])]
    ∧ (r, s) ∈ [(of_gr R5, of_gr R6); (of_gr R6, of_gr R5)]
    ∧ ∀ (V : Type) (imm : Z → V) e, exec imm e [move_of r (OReg s); move_of s (OReg r); jmp 1] r = e s
        ∧ exec imm e [move_of r (OReg s); move_of s (OReg r); jmp 1] s = e s.
Proof. apply phi_swap_is_lost. by left. Defined.

(** For a phi whose predecessor ends in a conditional jump to the phi's block
    followed by a jump elsewhere, the pass places the copy between the two
    jumps, where the edge to the phi's block does not pass. *)
Theorem phi_copy_follows_the_jump :
  ∃ f' l, EliminatePhi.run_on_function map_to_list critical_edge = Ret f'
    ∧ code f' = Ret ((0%nat, [cjmp R1 2; move_of (of_gr R5) (Int32 1); jmp 1]) :: l).
Proof. do 2 eexists. split; vm_compute; reflexivity. Qed.

End PassFacts.

(** The frame that slot elimination and the prologue agree on: the words that
    [EliminateSlot] gives to the slots, against the number of words by which
    [ProEpiInserter] moves the frame pointer. *)
Module Frame.
Import Slots Passes.
Local Open Scope Z_scope.

(** The slots as [EliminateSlot.run_on_function] lays them out: a function
    with a call has two more, at the end. *)
Definition frame_slots (call : bool) (ss : Slots.Slots) : Slots.Slots :=
  let add ss := fst (add_slot ss IrTypes.I32 4 4) in if call then add (add ss) else ss.

(** Slots of whole words. *)
Definition word_slot (s : Slot) : Prop := 0 ≤ size s ∧ (4 | size s) ∧ align s = 4.

(** The words of a slot whose address is [w]. *)
Definition in_words (w : Z) (s : Slot) (k : Z) : Prop := w ≤ k < w + size s / 4.

Lemma as_i32_small z : 0 ≤ z < 2 ^ 31 → as_i32 z = z.
Proof. intros H. unfold as_i32. rewrite Z.mod_small; lia. Qed.

Lemma i32_in z : - 2 ^ 31 ≤ z < 2 ^ 31 → i32 z = Ret z.
Proof.
  intros H. unfold i32, in_i32. rewrite (proj2 (Z.leb_le _ _)), (proj2 (Z.ltb_lt _ _)) by lia. done.
Qed.

(** Both rewritings give a slot the same word. *)
Lemma slot_words call k :
  0 ≤ 4 * k < 2 ^ 31 - 16 →
  let w := - k - (if call : bool then 2 else 0) in
  slot_word_add call (4 * k) = Ret w ∧ slot_word_mem call 0 (4 * k) = Ret w.
Proof.
  intros Hk. unfold slot_word_add, slot_word_mem, neg_if_pos. rewrite as_i32_small by lia.
  replace (Z.quot (4 * k) 4) with k by (rewrite Z.mul_comm, Z.quot_mul; lia).
  rewrite (i32_in (- 0)) by lia. cbn [mbind comp_bind].
  rewrite (i32_in (- 0 - 4 * k)) by lia. cbn [mbind comp_bind].
  replace (Z.quot (- 0 - 4 * k) 4) with (- k)
    by (replace (- 0 - 4 * k) with ((- k) * 4) by lia; rewrite Z.quot_mul; lia).
  destruct call; cbn [mbind comp_bind].
  - rewrite !(i32_in (- k)) by lia. cbn [mbind comp_bind]. rewrite !(i32_in (- k - 2)) by lia.
    cbn [mbind comp_bind]. rewrite (proj2 (Z.ltb_ge _ _)) by lia. done.
  - rewrite (proj2 (Z.ltb_ge _ (- k))) by lia. rewrite Z.sub_0_r.
    destruct (Z.ltb_spec 0 k); [done|]. by assert (k = 0) as -> by lia.
Qed.

Lemma roundup_1 n : 0 ≤ n < 2 ^ 31 - 1 → roundup n 1 = Ret n.
Proof.
  intros Hn. unfold roundup. rewrite (i32_in (n + 1)) by lia. cbn [mbind comp_bind].
  rewrite (i32_in (n + 1 - 1)) by lia. cbn [mbind comp_bind]. rewrite (i32_in (1 - 1)) by lia.
  cbn [mbind comp_bind]. f_equal. replace (n + 1 - 1) with n by lia. apply Z.land_m1_r.
Qed.

Lemma frame_adj_words size_ n :
  0 ≤ size_ → size_ + Z.of_nat n + 3 < 2 ^ 31 → frame_adj size_ n = Ret (size_ / 4).
Proof.
  intros Hs Hn. unfold frame_adj. set (c := 1 + Z.of_nat n).
  assert (Hc : 1 ≤ c) by lia. assert (Hcn : size_ + c + 2 < 2 ^ 31) by lia.
  rewrite (u32_in (size_ + c)) by (unfold u32_max; lia). cbn [mbind comp_bind].
  rewrite (u32_in (size_ + c + 1)) by (unfold u32_max; lia). cbn [mbind comp_bind].
  rewrite (as_i32_small (size_ + c + 1)) by lia. rewrite roundup_1 by lia. cbn [mbind comp_bind].
  rewrite (u32_in (c + 1)) by (unfold u32_max; lia). cbn [mbind comp_bind].
  rewrite (as_i32_small (c + 1)) by lia.
  rewrite i32_in by lia. cbn [mbind comp_bind]. f_equal.
  rewrite Z.quot_div_nonneg by lia. f_equal. lia.
Qed.

Lemma frame_slots_arena call ss :
  ∃ extra, arena (frame_slots call ss) = arena ss ++ extra
    ∧ length extra = (if call then 2 else 0)%nat
    ∧ Forall (λ s, size s = 4 ∧ align s = 4) extra.
Proof.
  destruct call; cbn.
  - eexists. rewrite <-app_assoc. split_and!; [done|done|]. by repeat constructor.
  - exists []. rewrite app_nil_r. by split_and!.
Qed.

(** C40: For stack slots of whole words, slot elimination and the prologue
    agree on the frame: every slot gets the same address from both rewritings,
    all its words lie inside the words by which the prologue moves the frame
    pointer (below the two words reserved when the function calls), and no two
    slots share a word. *)
Theorem slot_words_in_frame call ss ss' total n :
  aligned_size ss = 0 → Forall word_slot (arena ss) →
  ensure_computed_offsets (frame_slots call ss) = Ret (ss', total) →
  total + Z.of_nat n + 16 < 2 ^ 31 →
  ∃ adj, frame_adj total n = Ret adj
  ∧ ∀ i s, (i < length (arena ss))%nat → arena ss' !! i = Some s →
      ∃ w, slot_word_add call (offset s) = Ret w ∧ slot_word_mem call 0 (offset s) = Ret w
        ∧ (∀ k, in_words w s k → - adj ≤ k < (if call then - 2 else 0))
        ∧ ∀ j t w', (j < length (arena ss))%nat → i ≠ j → arena ss' !! j = Some t →
            slot_word_add call (offset t) = Ret w' → ∀ k, ¬ (in_words w s k ∧ in_words w' t k).
Proof.
  intros Hz Hws Hrun Htot. set (fs := frame_slots call ss) in *.
  destruct (frame_slots_arena call ss) as (extra & Hext & Hlen & Hex). fold fs in Hext.
  assert (Hz' : aligned_size fs = 0) by (unfold fs; destruct call; done).
  assert (Hv : Forall valid (arena fs)).
  { rewrite Hext. apply Forall_app; split; [eapply Forall_impl; [exact Hws|]|eapply Forall_impl; [exact Hex|]];
      unfold valid, word_slot; cbn; intros; lia. }
  destruct (slots_placed fs ss' total Hz' Hv Hrun) as (Hsame & Hord & Hin & _).
  assert (Hw : ∀ i s, arena ss' !! i = Some s → ∃ t, arena fs !! i = Some t ∧ same_slot t s).
  { intros i s Hi. by eapply Forall2_lookup_r in Hi. }
  assert (Hquad : ∀ i s, (i < length (arena ss))%nat → arena ss' !! i = Some s →
    ∃ b m, base s = 4 * b ∧ size s = 4 * m ∧ offset s = 4 * (b + m) ∧ 0 ≤ b ∧ 0 ≤ m
      ∧ 4 * (b + m) + (if call then 8 else 0) ≤ total).
  { intros i s Hi Hs. destruct (Hw i s Hs) as (t & Ht & (E1 & _ & _ & E4)).
    rewrite Hext, lookup_app_l in Ht by done. rewrite Forall_lookup in Hws.
    destruct (Hws i t Ht) as (Hsz & [m Hm] & Hal).
    pose proof (list_elem_of_lookup_2 _ _ _ Hs) as Hel.
    destruct (Hin s Hel) as (Hb & Ho & Hd).
    destruct Hd as [b Hb4]; [rewrite <-E4, Hal; by exists 2|]. rewrite <-E4, Hal in Hb4.
    exists b, m. unfold base in *. rewrite <-E1. split_and!; try lia.
    destruct call; [|lia]. cbn in Hlen.
    assert (Hl' : length (arena ss') = (length (arena ss) + 2)%nat)
      by (rewrite <-(Forall2_length _ _ _ Hsame), Hext, length_app; lia).
    set (n0 := length (arena ss)) in *.
    destruct (arena ss' !! n0) as [u|] eqn:Hu; [|apply lookup_ge_None_1 in Hu; lia].
    destruct (arena ss' !! S n0) as [u'|] eqn:Hu'; [|apply lookup_ge_None_1 in Hu'; lia].
    pose proof (Hord i n0 s u ltac:(lia) Hs Hu).
    pose proof (Hord n0 (S n0) u u' ltac:(lia) Hu Hu').
    pose proof (list_elem_of_lookup_2 _ _ _ Hu') as Hel'. destruct (Hin u' Hel') as (_ & Ho' & _).
    assert (Hfour : ∀ k v, (n0 ≤ k)%nat → arena ss' !! k = Some v → size v = 4).
    { intros k v Hk Hkv. destruct (Hw k v Hkv) as (t' & Ht' & (<- & _)).
      rewrite Hext, lookup_app_r in Ht' by done. rewrite Forall_lookup in Hex. by apply (Hex _ _ Ht'). }
    pose proof (Hfour n0 u ltac:(lia) Hu). pose proof (Hfour (S n0) u' ltac:(lia) Hu').
    unfold base in *. lia. }
  assert (H0 : 0 ≤ total) by (by eapply (total_nonneg fs)).
  exists (total / 4). split; [apply frame_adj_words; lia|].
  intros i s Hi Hs. destruct (Hquad i s Hi Hs) as (b & m & Hb & Hm & Ho & Hb0 & Hm0 & Hle).
  destruct (slot_words call (b + m)) as [Ha Hmem]; [destruct call; lia|]. rewrite <-Ho in Ha, Hmem.
  eexists. split; [exact Ha|]. split; [exact Hmem|]. unfold in_words. rewrite Hm.
  rewrite (Z.mul_comm 4 m), Z.div_mul by lia. pose proof (Z.div_mod total 4). pose proof (Z.mod_pos_bound total 4).
  split; [destruct call; lia|].
  intros j t w' Hj Hne Ht Hw' k. destruct (Hquad j t Hj Ht) as (b' & m' & Hb' & Hm' & Ho' & Hb0' & Hm0' & Hle').
  destruct (slot_words call (b' + m')) as [Ha' _]; [destruct call; lia|]. rewrite <-Ho', Hw' in Ha'.
  injection Ha' as ->. rewrite Hm'. rewrite (Z.mul_comm 4 m'), Z.div_mul by lia.
  assert (offset s ≤ base t ∨ offset t ≤ base s) as Hsep.
  { destruct (decide (i < j)%nat); [left; by eapply (Hord i j)|right; eapply (Hord j i); [lia|done..]]. }
  destruct call; lia.
Qed.

Lemma slot_words_in_frame_witness :
  let ss := fst (add_slot (fst (add_slot Slots.new IrTypes.I64 4 4)) IrTypes.I64 12 4) in
  ∃ ss' total adj, ensure_computed_offsets (frame_slots true ss) = Ret (ss', total)
  ∧ frame_adj total 3 = Ret adj ∧ adj = 6
  ∧ ∀ i s, (i < 2)%nat → arena ss' !! i = Some s →
      ∃ w, slot_word_add true (offset s) = Ret w ∧ slot_word_mem true 0 (offset s) = Ret w
        ∧ (∀ k, in_words w s k → - adj ≤ k < - 2)
        ∧ ∀ j t w', (j < 2)%nat → i ≠ j → arena ss' !! j = Some t →
            slot_word_add true (offset t) = Ret w' → ∀ k, ¬ (in_words w s k ∧ in_words w' t k).
Proof.
  intros ss. destruct (slot_words_in_frame true ss
    {| arena := map (λ '(sz, ty, o), {| size := sz; ty := ty; num_elements := 0; align := 4; offset := o |})
         [(4, IrTypes.I64, 4); (12, IrTypes.I64, 16); (4, IrTypes.I32, 20); (4, IrTypes.I32, 24)];
       aligned_size := 0 |} 24 3) as (adj & Ha & H).
  - reflexivity.
  - repeat constructor; cbn; try lia; [by exists 1|by exists 3].
  - vm_compute. reflexivity.
  - cbn. lia.
  - do 2 eexists. exists adj. split; [vm_compute; reflexivity|]. split; [exact Ha|].
    split; [by vm_compute in Ha; injection Ha as <-|exact H].
Defined.

(** ** A slot with an immediate

    The address of word [i] of a slot whose word is [w] is [w + i]; with a
    32-bit immediate the pass computes another one. *)

(** Slot elimination does not add a 32-bit immediate to a slot's address:
    immediates below four are rounded away, and byte offsets of words move the
    address down, out of the slot. *)
Theorem slot_plus_imm32_is_not_added (s : Slot) k i :
  offset s = 4 * k → 0 ≤ 4 * k < 2 ^ 30 → 0 < i < 4 →
  slot_word_mem false 0 (offset s) = Ret (- k)
  ∧ slot_word_mem false i (offset s) = Ret (- k)
  ∧ ∃ w, slot_word_mem false (4 * i) (offset s) = Ret w ∧ ¬ in_words (- k) s w.
Proof.
  intros Hs Hk Hi. rewrite Hs.
  assert (H : ∀ z, 0 ≤ z < 2 ^ 30 → slot_word_mem false z (4 * k) = Ret (- ((4 * k + z) / 4))).
  { intros z Hz. unfold slot_word_mem, neg_if_pos. rewrite as_i32_small by lia.
    rewrite (i32_in (- z)) by lia. cbn [mbind comp_bind].
    rewrite (i32_in (- z - 4 * k)) by lia. cbn [mbind comp_bind].
    replace (- z - 4 * k) with (- (4 * k + z)) by lia.
    rewrite Z.quot_opp_l, Z.quot_div_nonneg by lia.
    rewrite (proj2 (Z.ltb_ge _ _)); [done|]. pose proof (Z.div_pos (4 * k + z) 4). lia. }
  split_and!; [| |exists (- k - i); split; [|unfold in_words; lia]]; rewrite H by lia; do 2 f_equal.
  - rewrite Z.add_0_r, (Z.mul_comm 4 k), Z.div_mul; lia.
  - rewrite (Z.mul_comm 4 k), Z.div_add_l, Z.div_small by lia. lia.
  - replace (4 * k + 4 * i) with ((k + i) * 4) by lia. rewrite Z.div_mul by lia. lia.
Qed.

Lemma slot_plus_imm32_is_not_added_witness :
  let s := {| size := 12; ty := IrTypes.I64; num_elements := 0; align := 4; offset := 20 |} in
  slot_word_mem false 0 (offset s) = Ret (- 5)
  ∧ slot_word_mem false 2 (offset s) = Ret (- 5)
  ∧ ∃ w, slot_word_mem false (4 * 2) (offset s) = Ret w ∧ ¬ in_words (- 5) s w.
Proof. intros s. apply (slot_plus_imm32_is_not_added s 5 2); cbn; lia. Defined.

End Frame.
