(* ===== verification/LowerCtx.v ===== *)
(** Instruction selection for Ola, the context (codegen/lower/mod.rs and the
    helpers of codegen/isa/ola/lower/mod.rs): the state that lowering threads,
    the monad it runs in, and the operands of values and constants.  Lowering
    an instruction lowers the instructions it uses first; [rec] stands for
    that call in the helpers. *)
From S2P Require Import Prelude LinkedLayout IrTypes IrValues Machine MFunction Ir.
#[local] Open Scope Z_scope.

Module Lowering.
Import Reg Inst.

(* [codegen/lower/mod.rs | pub struct LoweringContext] *)
Record Ctx := {
  ir_data : IrData.Data;
  mach_data : Data.Data;
  slots : Slots.Slots;
  inst_id_to_slot_id : gmap nat nat;
  arg_idx_to_vreg : gmap nat (list VReg);
  inst_seq : list Inst.Instruction;
  types : IrTypes.TypesBase;
  inst_id_to_vreg : gmap nat (list VReg);
  merged_inst : gset nat;
  block_map : gmap nat nat;
  call_conv : CallConvKind;
  cur_block : nat;
}.

Definition set_mach_data x (c : Ctx) : Ctx :=
  {| ir_data := ir_data c; mach_data := x; slots := slots c; inst_id_to_slot_id := inst_id_to_slot_id c;
     arg_idx_to_vreg := arg_idx_to_vreg c; inst_seq := inst_seq c; types := types c;
     inst_id_to_vreg := inst_id_to_vreg c; merged_inst := merged_inst c; block_map := block_map c;
     call_conv := call_conv c; cur_block := cur_block c |}.
Definition set_slots x y (c : Ctx) : Ctx :=
  {| ir_data := ir_data c; mach_data := mach_data c; slots := x; inst_id_to_slot_id := y;
     arg_idx_to_vreg := arg_idx_to_vreg c; inst_seq := inst_seq c; types := types c;
     inst_id_to_vreg := inst_id_to_vreg c; merged_inst := merged_inst c; block_map := block_map c;
     call_conv := call_conv c; cur_block := cur_block c |}.
Definition set_arg_idx_to_vreg x (c : Ctx) : Ctx :=
  {| ir_data := ir_data c; mach_data := mach_data c; slots := slots c; inst_id_to_slot_id := inst_id_to_slot_id c;
     arg_idx_to_vreg := x; inst_seq := inst_seq c; types := types c;
     inst_id_to_vreg := inst_id_to_vreg c; merged_inst := merged_inst c; block_map := block_map c;
     call_conv := call_conv c; cur_block := cur_block c |}.
Definition set_inst_seq x (c : Ctx) : Ctx :=
  {| ir_data := ir_data c; mach_data := mach_data c; slots := slots c; inst_id_to_slot_id := inst_id_to_slot_id c;
     arg_idx_to_vreg := arg_idx_to_vreg c; inst_seq := x; types := types c;
     inst_id_to_vreg := inst_id_to_vreg c; merged_inst := merged_inst c; block_map := block_map c;
     call_conv := call_conv c; cur_block := cur_block c |}.
Definition set_types x (c : Ctx) : Ctx :=
  {| ir_data := ir_data c; mach_data := mach_data c; slots := slots c; inst_id_to_slot_id := inst_id_to_slot_id c;
     arg_idx_to_vreg := arg_idx_to_vreg c; inst_seq := inst_seq c; types := x;
     inst_id_to_vreg := inst_id_to_vreg c; merged_inst := merged_inst c; block_map := block_map c;
     call_conv := call_conv c; cur_block := cur_block c |}.
Definition set_inst_id_to_vreg x (c : Ctx) : Ctx :=
  {| ir_data := ir_data c; mach_data := mach_data c; slots := slots c; inst_id_to_slot_id := inst_id_to_slot_id c;
     arg_idx_to_vreg := arg_idx_to_vreg c; inst_seq := inst_seq c; types := types c;
     inst_id_to_vreg := x; merged_inst := merged_inst c; block_map := block_map c;
     call_conv := call_conv c; cur_block := cur_block c |}.
Definition set_merged_inst x (c : Ctx) : Ctx :=
  {| ir_data := ir_data c; mach_data := mach_data c; slots := slots c; inst_id_to_slot_id := inst_id_to_slot_id c;
     arg_idx_to_vreg := arg_idx_to_vreg c; inst_seq := inst_seq c; types := types c;
     inst_id_to_vreg := inst_id_to_vreg c; merged_inst := x; block_map := block_map c;
     call_conv := call_conv c; cur_block := cur_block c |}.

(** ** The monad: a context, panics, and [Err] as [None].  Every [Err] of the
    lowering is a [LoweringError::Todo]; it aborts the compilation. *)
Definition M (A : Type) : Type := Ctx → comp (option (A * Ctx)).

#[export] Instance M_ret : MRet M := λ A a c, Ret (Some (a, c)).
#[export] Instance M_bind : MBind M := λ A B f m c,
  match m c with
  | Ret (Some (a, c)) => f a c
  | Ret None => Ret None
  | Panic => Panic
  | OutOfFuel => OutOfFuel
  end.

Definition todo {A} : M A := λ c, Ret None.
Definition panic {A} : M A := λ c, Panic.
Definition lift {A} (m : comp A) : M A := λ c, a ← m; Ret (Some (a, c)).
Definition gets {A} (f : Ctx → A) : M A := λ c, Ret (Some (f c, c)).
Definition modify (f : Ctx → Ctx) : M unit := λ c, Ret (Some (tt, f c)).
Definition assert_ (b : bool) : M unit := lift (assert_c b).
Definition nth {A} (l : list A) (i : nat) : M A := lift (unwrap (l !! i)).

Fixpoint for_each {A} (l : list A) (f : A → M unit) : M unit :=
  match l with
  | [] => mret tt
  | a :: l => _ ← f a; for_each l f
  end.
Fixpoint map_each {A B} (l : list A) (f : A → M B) : M (list B) :=
  match l with
  | [] => mret []
  | a :: l => b ← f a; bs ← map_each l f; mret (b :: bs)
  end.

(** ** Small steps on the context *)

(* [codegen/lower/mod.rs | pub fn set_output_for_inst] *)
Definition set_output_for_inst (i : nat) (vs : list VReg) : M unit :=
  modify (λ c, set_inst_id_to_vreg (<[i := vs]> (inst_id_to_vreg c)) c).
(* [codegen/lower/mod.rs | pub fn mark_as_merged] *)
Definition mark_as_merged (i : nat) : M unit :=
  modify (λ c, set_merged_inst ({[i]} ∪ merged_inst c) c).
(* [codegen/lower/mod.rs | pub fn is_merged] *)
Definition is_merged (i : nat) : M bool := gets (λ c, bool_decide (i ∈ merged_inst c)).

(** [ctx.block_map[&b]] *)
Definition mach_block (b : nat) : M nat := m ← gets block_map; lift (unwrap (m !! b)).

(** [ctx.inst_seq.push(MachInstruction::new(InstructionData { opcode, operands }, ctx.block_map[&ctx.cur_block]))] *)
Definition push (o : Inst.Opcode) (ops : list Inst.Operand) : M unit :=
  cur ← gets cur_block;
  b ← mach_block cur;
  modify (λ c, set_inst_seq (inst_seq c ++ [Inst.new {| opcode := o; operands := ops |} b]) c).

(** [ctx.mach_data.vregs.add_vreg_data(ty)] *)
Definition add_vreg (ty : IrTypes.Type_) : M VReg :=
  d ← gets mach_data;
  '(vs, v) ← lift (add_vreg_data (Data.vregs d) ty);
  _ ← modify (set_mach_data (Data.with_vregs vs d));
  mret v.

Definition value_ref (v : ValueId) : M IrInst.Value := d ← gets ir_data; lift (IrData.value_ref d v).
Definition inst_ref (i : nat) : M IrInst.Instruction := d ← gets ir_data; lift (IrData.inst_ref d i).

(** Questions about types, whose table is finite. *)
Definition with_types {A} (f : IrTypes.TypesBase → comp A) : M A := tb ← gets types; lift (f tb).
Definition type_fuel (tb : IrTypes.TypesBase) : nat := length (IrTypes.compound_types tb).
Definition get_size_of (ty : IrTypes.Type_) : M Z :=
  with_types (λ tb, IrTypes.DataLayout.get_size_of (type_fuel tb) tb ty).
(** [get_size_of(..) / 4] *)
Definition words_of (ty : IrTypes.Type_) : M nat := s ← get_size_of ty; mret (Z.to_nat (s / 4)).
(** [ctx.types.base().element(ty).unwrap()] *)
Definition element (ty : IrTypes.Type_) : M IrTypes.Type_ :=
  o ← with_types (λ tb, IrTypes.element (type_fuel tb) tb ty); lift (unwrap o).
Definition is_pointer (ty : IrTypes.Type_) : M bool := with_types (λ tb, IrTypes.is_pointer tb ty).
Definition is_array (ty : IrTypes.Type_) : M bool := with_types (λ tb, IrTypes.is_array tb ty).
(** [ctx.types.base_mut().pointer(ty)] *)
Definition pointer_to (ty : IrTypes.Type_) : M IrTypes.Type_ :=
  tb ← gets types;
  '(tb, t) ← lift (IrTypes.pointer tb {| IrTypes.inner := ty; IrTypes.addr_space := 0 |});
  _ ← modify (set_types tb);
  mret t.

(** [args[i].apply(&RegClass::for_type(types, ty))] *)
Definition arg_reg (regs : list RegUnit) (i : nat) (ty : IrTypes.Type_) : M Reg :=
  u ← nth regs i;
  _ ← with_types (λ tb, for_type tb ty);
  mret (apply_for u).

(** ** Outputs of instructions *)
Section Helpers.
Context (rec : IrInst.Instruction → M unit).

(* [codegen/isa/ola/lower/mod.rs | fn new_empty_inst_output] *)
Definition new_empty_inst_output (ty : IrTypes.Type_) (i : nat) : M (list VReg) :=
  m ← gets inst_id_to_vreg;
  match m !! i with
  | Some vs => mret vs
  | None =>
      v ← add_vreg ty;
      _ ← set_output_for_inst i [v];
      mret [v]
  end.

(* [codegen/isa/ola/lower/mod.rs | fn get_inst_output] *)
Definition get_inst_output (ty : IrTypes.Type_) (i : nat) : M (list VReg) :=
  m ← gets inst_id_to_vreg;
  match m !! i with
  | Some vs => mret vs
  | None =>
      inst ← inst_ref i;
      cur ← gets cur_block;
      if decide (IrInst.parent inst ≠ cur ∧ IrInst.opcode inst ≠ IrInst.OAlloca) then
        new_empty_inst_output ty i
      else
        _ ← rec inst;
        new_empty_inst_output ty i
  end.

(* [codegen/isa/ola/lower/mod.rs | fn new_empty_str_inst_output] *)
Definition new_empty_str_inst_output (ty : IrTypes.Type_) (i : nat) : M (list VReg) :=
  m ← gets inst_id_to_vreg;
  let vregs := default [] (m !! i) in
  sz ← words_of ty;
  if decide (length vregs = sz) then mret vregs
  else
    e_ty ← element ty;
    new ← map_each (seq 0 sz) (λ _, add_vreg e_ty);
    _ ← set_output_for_inst i (vregs ++ new);
    mret (vregs ++ new).

(* [codegen/isa/ola/lower/mod.rs | fn get_str_inst_output] *)
Definition get_str_inst_output (ty : IrTypes.Type_) (i : nat) : M (list VReg) :=
  sz ← words_of ty;
  m ← gets inst_id_to_vreg;
  let known := match m !! i with
               | Some vs => if decide (length vs = sz) then Some vs else None
               | None => None
               end in
  match known with
  | Some vs => mret vs
  | None =>
      inst ← inst_ref i;
      cur ← gets cur_block;
      if decide (IrInst.parent inst ≠ cur) then new_empty_str_inst_output ty i
      else
        _ ← rec inst;
        new_empty_str_inst_output ty i
  end.

(** [MLOADr dst, [R9 + label]]: the address of a global. *)
(* [codegen/isa/ola/lower/mod.rs | 288-303 | get_operand_for_const] *)
Definition load_label (dst : VReg) (label : string) : M unit :=
  push MLOADr [op_output (OVReg dst); op_new MemStart; op_new (Label label); op_new ONone; op_new ONone;
               op_input (OReg (of_gr R9)); op_input ONone; op_new ONone].

Definition is_zero_int (c : IrConst.ConstantValue) : bool :=
  match c with IrConst.Int i => IrConst.is_zero i | _ => false end.

(* [codegen/isa/ola/lower/mod.rs | fn get_operand_for_const(] *)
Fixpoint get_operand_for_const (ty : IrTypes.Type_) (konst : IrConst.ConstantValue) : M OperandData :=
  match konst with
  | IrConst.Int (IrConst.Int32 i) => mret (Int32 i)
  | IrConst.Int (IrConst.Int64 i) => mret (Int64 i)
  | IrConst.Expr (IrConst.GetElementPtr _ _ args) =>
      p ← is_pointer ty;
      _ ← assert_ p;
      base ← nth args 0;
      match base with
      | IrConst.GlobalRef name _ =>
          _ ← assert_ (forallb is_zero_int (drop 1 args));
          s ← lift (Text.as_string name);
          dst ← add_vreg ty;
          _ ← load_label dst s;
          mret (OVReg dst)
      | _ => panic
      end
  | IrConst.Expr (IrConst.Bitcast from to_ arg) =>
      p ← is_pointer from;
      _ ← assert_ p;
      q ← is_pointer to_;
      _ ← assert_ q;
      get_operand_for_const to_ arg
  | IrConst.GlobalRef name ty =>
      p ← is_pointer ty;
      _ ← assert_ p;
      addr ← add_vreg ty;
      s ← lift (unwrap (Text.to_string name));
      _ ← load_label addr s;
      mret (OVReg addr)
  | IrConst.Null ty =>
      p ← is_pointer ty;
      _ ← assert_ p;
      addr ← add_vreg ty;
      _ ← push MOVri [op_output (OVReg addr); op_new (Int32 0)];
      mret (OVReg addr)
  | _ => panic
  end.

(** [ctx.arg_idx_to_vreg[&a.nth]] *)
Definition arg_vregs (n : nat) : M (list VReg) := m ← gets arg_idx_to_vreg; lift (unwrap (m !! n)).

(* [codegen/isa/ola/lower/mod.rs | fn get_operand_for_val(] *)
Definition get_operand_for_val (ty : IrTypes.Type_) (val : ValueId) : M OperandData :=
  x ← value_ref val;
  match x with
  | IrInst.VInstruction i => vs ← get_inst_output ty i; v ← nth vs 0; mret (OVReg v)
  | IrInst.VArgument a => vs ← arg_vregs (IrInst.nth a); v ← nth vs 0; mret (OVReg v)
  | IrInst.VConstant konst => get_operand_for_const ty konst
  | IrInst.VInlineAsm _ => todo
  end.

(* [codegen/isa/ola/lower/mod.rs | 417-422 | get_operands_for_const] *)
Definition elem_operand (e : IrConst.ConstantValue) : M OperandData :=
  match e with
  | IrConst.Int (IrConst.Int32 i) => mret (Int32 i)
  | IrConst.Int (IrConst.Int64 i) => mret (Int64 i)
  | IrConst.Undef _ => mret (Int32 0)
  | _ => panic
  end.

(* [codegen/isa/ola/lower/mod.rs | fn get_operands_for_const(] *)
Definition get_operands_for_const (konst : IrConst.ConstantValue) : M (list OperandData) :=
  match konst with
  | IrConst.Array_ (IrConst.mkArray _ _ elems _) => map_each elems elem_operand
  | IrConst.AggregateZero ty | IrConst.Undef ty => sz ← words_of ty; mret (replicate sz (Int32 0))
  | _ => panic
  end.

(* [codegen/isa/ola/lower/mod.rs | fn get_operands_for_val(] *)
Definition get_operands_for_val (ty : IrTypes.Type_) (val : ValueId) : M (list OperandData) :=
  x ← value_ref val;
  match x with
  | IrInst.VInstruction i =>
      vregs_src ← get_str_inst_output ty i;
      sz ← words_of ty;
      map_each (seq 0 sz) (λ idx, v ← nth vregs_src idx; mret (OVReg v))
  | IrInst.VArgument a => vs ← arg_vregs (IrInst.nth a); mret (map OVReg vs)
  | IrInst.VConstant konst => get_operands_for_const konst
  | IrInst.VInlineAsm _ => todo
  end.

(* [codegen/isa/ola/lower/mod.rs | fn get_vreg_for_val(] *)
Definition get_vreg_for_val (ty : IrTypes.Type_) (val : ValueId) : M VReg :=
  x ← get_operand_for_val ty val;
  match x with
  | Int64 i =>
      output ← add_vreg ty;
      _ ← push MOVri [op_output (OVReg output); op_new (Int64 i)];
      mret output
  | OVReg v => mret v
  | _ => todo
  end.
End Helpers.
End Lowering.
