(* ===== verification/LowerInst.v ===== *)
(** Instruction selection for Ola, one definition per IR instruction
    (codegen/isa/ola/lower/{bin,phi,alloca,br,zext,extractv,insertv,call}.rs).
    The operands are evaluated, and the machine instructions pushed, in the
    order of the code. *)
From S2P Require Import Prelude LinkedLayout IrTypes IrValues Machine MFunction Ir LowerCtx.
#[local] Open Scope Z_scope.

Module LowerInst.
Import Reg Inst Lowering.
Import IrInst(ICmpCond, Eq, Ne, Ugt, Uge, Ult, Ule, Sgt, Sge, Slt, Sle).

Section Lower.
Context (rec : IrInst.Instruction → M unit).

(** ** Binary operations *)

Definition r7 : OperandData := OReg (of_gr R7).

(** [r7 = not rhs; r7 = r7 + 1] *)
(* [codegen/isa/ola/lower/bin.rs | 29-54 | lower_bin] *)
Definition negate_into_r7 (rhs : OperandData) : M unit :=
  _ ← push NOT [op_output r7; op_input rhs];
  push ADDri [op_output r7; op_input r7; op_input (Int64 1)].

(** The opcode with an immediate, and with a register. *)
(* [codegen/isa/ola/lower/bin.rs | 62-114 | lower_bin] *)
Definition opcode_ri (op : IrInst.Opcode) : option Opcode :=
  match op with
  | IrInst.Sub | IrInst.Add => Some ADDri
  | IrInst.And => Some ANDri
  | IrInst.Or => Some ORri
  | IrInst.Xor => Some XORri
  | IrInst.Mul => Some MULri
  | _ => None
  end.
(* [codegen/isa/ola/lower/bin.rs | 121-173 | lower_bin] *)
Definition opcode_rr (op : IrInst.Opcode) : option Opcode :=
  match op with
  | IrInst.Sub | IrInst.Add => Some ADDrr
  | IrInst.And => Some ANDrr
  | IrInst.Or => Some ORrr
  | IrInst.Xor => Some XORrr
  | IrInst.Mul => Some MULrr
  | _ => None
  end.

(** Once both operands are there. *)
(* [codegen/isa/ola/lower/bin.rs | 27-179 | lower_bin] *)
Definition bin_inst (i : nat) (op : IrInst.Opcode) (ty : IrTypes.Type_) (lhs : VReg) (rhs : OperandData) : M unit :=
  output ← new_empty_inst_output ty i;
  sel ← match rhs with
        | Int64 _ => mret opcode_ri
        | OVReg _ => mret opcode_rr
        | _ => todo
        end;
  _ ← (if decide (op = IrInst.Sub) then negate_into_r7 rhs else mret tt);
  match sel op with
  | None => todo
  | Some o =>
      out ← nth output 0;
      push o [op_input_output (OVReg out); op_input (OVReg lhs);
              op_input (if decide (op = IrInst.Sub) then r7 else rhs)]
  end.

(* [codegen/isa/ola/lower/bin.rs | pub fn lower_bin] *)
Definition lower_bin (i : nat) (op : IrInst.Opcode) (ty : IrTypes.Type_) (args : ValueId * ValueId) : M unit :=
  lhs ← get_vreg_for_val rec ty args.1;
  rhs ← get_operand_for_val rec ty args.2;
  bin_inst i op ty lhs rhs.

(* [codegen/isa/ola/lower/bin.rs | pub fn lower_itp] *)
Definition lower_itp (i : nat) (tys : IrTypes.Type_ * IrTypes.Type_) (arg : ValueId) : M unit :=
  val ← get_operand_for_val rec tys.1 arg;
  output ← new_empty_inst_output tys.2 i;
  out ← nth output 0;
  push MOVrr [op_output (OVReg out); op_input val].

(** ** Phi and alloca *)

(* [codegen/isa/ola/lower/phi.rs | pub fn lower_phi] *)
Definition lower_phi (i : nat) (ty : IrTypes.Type_) (args : list ValueId) (blocks : list nat) : M unit :=
  output ← new_empty_inst_output ty i;
  out ← nth output 0;
  ops ← map_each (zip args blocks) (λ '(arg, block),
          x ← get_operand_for_val rec ty arg;
          b ← mach_block block;
          mret [op_input x; op_new (OBlock b)]);
  push Phi (op_output (OVReg out) :: concat ops).

(** The sizes and alignments are [as u32]. *)
Definition as_u32 (z : Z) : Z := z mod 2 ^ 32.

(* [codegen/isa/ola/lower/alloca.rs | pub fn lower_alloca] *)
Definition lower_alloca (i : nat) (ty : IrTypes.Type_) : M unit :=
  m ← gets inst_id_to_slot_id;
  match m !! i with
  | Some slot =>
      t ← pointer_to ty;
      addr ← add_vreg t;
      _ ← push ADDri [op_output (OVReg addr); op_new (OReg (of_gr R9)); op_new (OSlot slot)];
      set_output_for_inst i [addr]
  | None =>
      sz ← get_size_of ty;
      align ← with_types (λ tb, IrTypes.DataLayout.get_align_of (type_fuel tb) tb ty);
      ss ← gets slots;
      let '(ss, slot) := Slots.add_slot ss ty (as_u32 sz) (as_u32 align) in
      modify (set_slots ss (<[i := slot]> m))
  end.

(** ** Branches *)

(* [codegen/isa/ola/lower/br.rs | pub fn lower_br] *)
Definition lower_br (block : nat) : M unit :=
  b ← mach_block block;
  push JMPr [op_new (OBlock b)].

(** [out = lhs cond rhs] for a constant: the [op_new]s of [lhs] are as in the
    code. *)
(* [codegen/isa/ola/lower/br.rs | 92-205 | lower_condbr] *)
Definition compare_imm (ty : IrTypes.Type_) (icmp : nat) (cond : ICmpCond) (out lhs : VReg) (rhs : Z) : M unit :=
  match cond with
  | Eq => push EQri [op_output (OVReg out); op_input (OVReg lhs); op_new (Int64 rhs)]
  | Ne => push NEQ [op_output (OVReg out); op_input (OVReg lhs); op_new (Int64 rhs)]
  | Sge | Uge => push GTE [op_output (OVReg out); op_input (OVReg lhs); op_new (Int64 rhs)]
  | Sle | Ule =>
      _ ← push MOVri [op_output r7; op_input (Int64 rhs)];
      push GTE [op_output (OVReg out); op_input r7; op_new (OVReg lhs)]
  | Slt | Ult | Sgt | Ugt =>
      let lt := bool_decide (cond = Slt ∨ cond = Ult) in
      _ ← (if lt then push MOVri [op_output (OVReg out); op_new (Int64 rhs)] else mret tt);
      _ ← (if lt then push GTE [op_output (OVReg out); op_input (OVReg out); op_new (OVReg lhs)]
           else push GTE [op_output (OVReg out); op_new (OVReg lhs); op_new (Int64 rhs)]);
      output2 ← add_vreg ty;
      _ ← set_output_for_inst icmp [output2];
      _ ← push NEQ [op_output (OVReg output2); op_input (OVReg lhs); op_input (Int64 rhs)];
      push ANDrr [op_output (OVReg out); op_input_output (OVReg out); op_input (OVReg output2)]
  end.

(** [out = lhs cond rhs] for a register. *)
(* [codegen/isa/ola/lower/br.rs | 218-349 | lower_condbr] *)
Definition compare_reg (ty : IrTypes.Type_) (icmp : nat) (cond : ICmpCond) (out lhs : VReg) (rhs : OperandData) : M unit :=
  match cond with
  | Eq => push EQrr [op_output (OVReg out); op_input (OVReg lhs); op_input rhs]
  | Ne => push NEQ [op_output (OVReg out); op_input (OVReg lhs); op_input rhs]
  | Sge | Uge => push GTE [op_output (OVReg out); op_input (OVReg lhs); op_input rhs]
  | Sle | Ule => push GTE [op_output (OVReg out); op_input rhs; op_input (OVReg lhs)]
  | Sgt | Ugt | Slt | Ult =>
      _ ← (if bool_decide (cond = Sgt ∨ cond = Ugt)
           then push GTE [op_output (OVReg out); op_input (OVReg lhs); op_input rhs]
           else push GTE [op_output (OVReg out); op_input rhs; op_input (OVReg lhs)]);
      output2 ← add_vreg ty;
      _ ← set_output_for_inst icmp [output2];
      _ ← push NEQ [op_output (OVReg output2); op_input (OVReg lhs); op_input rhs];
      push ANDrr [op_output (OVReg out); op_input_output (OVReg out); op_input (OVReg output2)]
  end.

(** The comparison that a conditional branch or a zero extension merges: the
    register that holds its result. *)
(* [codegen/isa/ola/lower/br.rs | 86-352 | lower_condbr] *)
Definition lower_icmp (icmp : nat) (c : IrInst.ICmp) : M VReg :=
  let ty := IrInst.icmp_ty c in
  _ ← mark_as_merged icmp;
  lhs ← get_vreg_for_val rec ty (IrInst.icmp_args c).1;
  rhs ← value_ref (IrInst.icmp_args c).2;
  output ← new_empty_inst_output ty icmp;
  out ← nth output 0;
  _ ← match rhs with
      | IrInst.VConstant (IrConst.Int (IrConst.Int64 k)) =>
          compare_imm ty icmp (IrInst.icmp_cond c) out lhs k
      | IrInst.VConstant (IrConst.Null _) =>
          push EQrr [op_input (OVReg lhs); op_new (Int32 0)]
      | IrInst.VArgument _ | IrInst.VInstruction _ =>
          _ ← assert_ (bool_decide (ty = IrTypes.I32) || bool_decide (ty = IrTypes.I64));
          rhs_reg ← get_operand_for_val rec ty (IrInst.icmp_args c).2;
          compare_reg ty icmp (IrInst.icmp_cond c) out lhs rhs_reg
      | _ => todo
      end;
  mret out.

(* [codegen/isa/ola/lower/br.rs | 68-82 | lower_condbr] *)
Definition is_icmp (val : IrInst.Value) : M (option (nat * IrInst.ICmp)) :=
  match val with
  | IrInst.VInstruction i =>
      inst ← inst_ref i;
      mret (match IrInst.operand inst with IrInst.ICmp_ c => Some (i, c) | _ => None end)
  | _ => mret None
  end.

(* [codegen/isa/ola/lower/br.rs | fn is_cast] *)
Definition is_cast (val : IrInst.Value) : M (option (nat * IrTypes.Type_ * ValueId)) :=
  match val with
  | IrInst.VInstruction i =>
      inst ← inst_ref i;
      mret (match IrInst.operand inst with
            | IrInst.Cast_ c => Some (i, (IrInst.cast_tys c).2, IrInst.cast_arg c)
            | _ => None
            end)
  | _ => mret None
  end.

(** [cjmp out, blocks[0]; jmp blocks[1]] *)
(* [codegen/isa/ola/lower/br.rs | 354-372 | lower_condbr] *)
Definition jump_on (out : VReg) (blocks : nat * nat) : M unit :=
  b0 ← mach_block blocks.1;
  _ ← push CJMPr [op_input (OVReg out); op_new (OBlock b0)];
  b1 ← mach_block blocks.2;
  push JMPr [op_new (OBlock b1)].

(* [codegen/isa/ola/lower/br.rs | pub fn lower_condbr] *)
Definition lower_condbr (arg : ValueId) (blocks : nat * nat) : M unit :=
  a ← value_ref arg;
  ic ← is_icmp a;
  match ic with
  | Some (icmp, c) =>
      out ← lower_icmp icmp c;
      jump_on out blocks
  | None =>
      ca ← is_cast a;
      match ca with
      | Some (trunc, ty, x) =>
          _ ← mark_as_merged trunc;
          lhs ← get_vreg_for_val rec ty x;
          output ← new_empty_inst_output ty trunc;
          out ← nth output 0;
          _ ← push MOVrr [op_output (OVReg out); op_input (OVReg lhs)];
          jump_on out blocks
      | None => todo
      end
  end.

(* [codegen/isa/ola/lower/br.rs | pub fn lower_switch] *)
Definition lower_switch (tys : list IrTypes.Type_) (args : list ValueId) (blocks : list nat) : M unit :=
  t0 ← nth tys 0;
  a0 ← nth args 0;
  src ← get_operand_for_val rec t0 a0;
  _ ← for_each (imap pair (drop 1 args)) (λ '(idx, dst),
        t ← nth tys idx;
        dest ← get_operand_for_val rec t dst;
        _ ← push EQri [op_output (OReg (of_gr R8)); op_input src; op_input dest];
        block ← nth blocks (S idx);
        b ← mach_block block;
        push CJMPr [op_input (OReg (of_gr R8)); op_new (OBlock b)]);
  block ← nth blocks 0;
  b ← mach_block block;
  push JMPr [op_new (OBlock b)].

(** ** Zero extension of a comparison *)

(* [codegen/isa/ola/lower/zext.rs | 52-318 | lower_zext] *)
Definition zext_icmp (icmp : nat) (c : IrInst.ICmp) : M VReg := lower_icmp icmp c.

(* [codegen/isa/ola/lower/zext.rs | pub fn lower_zext] *)
Definition lower_zext (self_id : nat) (tys : IrTypes.Type_ * IrTypes.Type_) (arg : ValueId) : M unit :=
  _ ← assert_ (bool_decide (tys.1 = IrTypes.I1));
  _ ← assert_ (bool_decide (tys.2 = IrTypes.I32));
  a ← value_ref arg;
  ic ← is_icmp a;
  match ic with
  | Some (icmp, c) =>
      out ← zext_icmp icmp c;
      output_zext ← new_empty_inst_output tys.2 self_id;
      oz ← nth output_zext 0;
      push MOVrr [op_output (OVReg oz); op_input (OVReg out)]
  | None => todo
  end.

(** ** Aggregates *)

Definition as_index (d : OperandData) : M nat :=
  match d with
  | Int32 i | Int64 i => mret (Z.to_nat (i mod 2 ^ 64))
  | _ => todo
  end.

(** [MOVri] for immediates, [o] for registers. *)
Definition move_opcode (o : Opcode) (d : OperandData) : M Opcode :=
  match d with
  | Int32 _ | Int64 _ => mret MOVri
  | OVReg _ => mret o
  | _ => todo
  end.

(* [codegen/isa/ola/lower/extractv.rs | pub fn lower_extractvalue] *)
Definition lower_extractvalue (i : nat) (ty : IrTypes.Type_) (args : list ValueId) : M unit :=
  a0 ← nth args 0;
  value ← get_operands_for_val rec ty a0;
  elm_ty ← element ty;
  a1 ← nth args 1;
  op_idx ← get_operand_for_val rec elm_ty a1;
  idx ← as_index op_idx;
  output ← new_empty_inst_output elm_ty i;
  x ← nth value idx;
  o ← move_opcode MOVrr x;
  out ← nth output 0;
  push o [op_output (OVReg out); op_input x].

(* [codegen/isa/ola/lower/insertv.rs | pub fn lower_insertvalue] *)
Definition lower_insertvalue (i : nat) (tys : IrTypes.Type_ * IrTypes.Type_) (args : list ValueId) : M unit :=
  a0 ← nth args 0;
  value ← get_operands_for_val rec tys.1 a0;
  a1 ← nth args 1;
  op_value ← get_operand_for_val rec tys.2 a1;
  elm_ty ← element tys.1;
  a2 ← nth args 2;
  op_idx ← get_operand_for_val rec elm_ty a2;
  idx ← as_index op_idx;
  output ← new_empty_str_inst_output tys.1 i;
  sz ← words_of tys.1;
  for_each (seq 0 sz) (λ ist_idx,
    input ← (if decide (ist_idx = idx) then mret op_value else nth value ist_idx);
    o ← move_opcode (if decide (ist_idx = idx) then MOV else MOVrr) input;
    out ← nth output ist_idx;
    push o [op_output (OVReg out); op_input input]).
End Lower.
End LowerInst.
