(* ===== verification/LowerCall.v ===== *)
(** Instruction selection for Ola: arguments, calls and returns
    (codegen/isa/ola/lower/{mod,call}.rs). *)
From S2P Require Import Prelude LinkedLayout IrTypes IrValues Machine MFunction Ir LowerCtx LowerInst.
#[local] Open Scope Z_scope.

Module LowerCall.
Import Reg Inst Lowering LowerInst.

Section Lower.
Context (rec : IrInst.Instruction → M unit).

(** ** Parameters *)

(** [ty.is_integer() || ty.is_pointer(types) || ty.is_array(types)] *)
Definition passable (ty : IrTypes.Type_) : M unit :=
  if IrTypes.is_integer ty then mret tt
  else p ← is_pointer ty;
       if (p : bool) then mret tt else a ← is_array ty; assert_ a.

(** One parameter; the number of registers used so far. *)
(* [codegen/isa/ola/lower/mod.rs | 69-103 | copy_args_to_vregs] *)
Definition copy_arg (args : list RegUnit) (gpr_used : nat) (para_idx : nat) (ty : IrTypes.Type_) : M nat :=
  _ ← passable ty;
  a ← is_array ty;
  if (a : bool) then
    sz ← words_of ty;
    e_ty ← element ty;
    outputs ← map_each (seq 0 sz) (λ k,
      reg ← arg_reg args (gpr_used + k)%nat e_ty;
      output ← add_vreg e_ty;
      _ ← push MOVrr [op_output (OVReg output); op_input (OReg reg)];
      mret output);
    _ ← modify (λ c, set_arg_idx_to_vreg (<[para_idx := outputs]> (arg_idx_to_vreg c)) c);
    mret (gpr_used + sz)%nat
  else
    reg ← arg_reg args gpr_used ty;
    output ← add_vreg ty;
    _ ← assert_ (bool_decide (S gpr_used ≤ 8)%nat);
    _ ← push MOVrr [op_output (OVReg output); op_input (OReg reg)];
    _ ← modify (λ c, set_arg_idx_to_vreg (<[para_idx := [output]]> (arg_idx_to_vreg c)) c);
    mret (S gpr_used).

Fixpoint copy_args (args : list RegUnit) (gpr_used para_idx : nat) (params : list IrTypes.Type_) : M unit :=
  match params with
  | [] => mret tt
  | ty :: params =>
      gpr_used ← copy_arg args gpr_used para_idx ty;
      copy_args args gpr_used (S para_idx) params
  end.

(* [codegen/isa/ola/lower/mod.rs | fn copy_args_to_vregs] *)
Definition copy_args_to_vregs (params : list IrFunc.Parameter_) : M unit :=
  cc ← gets call_conv;
  copy_args (str_arg_reg_list cc) 0 0 (map IrFunc.param_ty params).

(** ** Arguments *)

(** [gpr_used -= 1] on a [usize] *)
Definition pred_usize (n : nat) : M nat := match n with O => panic | S n => mret n end.

(* [codegen/isa/ola/lower/call.rs | 380-402 | pass_args_to_regs] *)
Definition argument_opcode (arg : OperandData) : M Opcode :=
  match arg with
  | Int32 _ | Int64 _ => mret MOVri
  | OReg _ => mret MOVrr
  | OVReg v =>
      d ← gets mach_data;
      ty ← lift (type_for (Data.vregs d) v);
      sz ← get_size_of ty;
      if (sz =? 4) || (sz =? 8) then mret MOVrr else todo
  | _ => todo
  end.

(** One argument, from the last one; the number of registers. *)
(* [codegen/isa/ola/lower/call.rs | 320-410 | pass_args_to_regs] *)
Definition pass_arg (gpru : list RegUnit) (gpr_used : nat) (ty : IrTypes.Type_) (arg0 : ValueId) : M nat :=
  _ ← passable ty;
  a ← is_array ty;
  if (a : bool) then
    sz ← words_of ty;
    e_ty ← element ty;
    arg ← get_operands_for_val rec ty arg0;
    _ ← for_each (seq 0 sz) (λ idx,
      reg ← arg_reg gpru (gpr_used + idx)%nat e_ty;
      x ← nth arg idx;
      o ← match x with
          | Int32 _ | Int64 _ => mret MOVri
          | OReg _ | OVReg _ => mret MOVrr
          | _ => todo
          end;
      push o [op_output (OReg reg); op_input x]);
    mret (gpr_used + sz)%nat
  else
    arg ← get_operand_for_val rec ty arg0;
    gpr_used ← pred_usize gpr_used;
    out ← arg_reg gpru gpr_used ty;
    o ← argument_opcode arg;
    _ ← push o [op_output (OReg out); op_input arg];
    mret gpr_used.

Fixpoint pass_args (gpru : list RegUnit) (gpr_used : nat) (l : list (IrTypes.Type_ * ValueId)) : M unit :=
  match l with
  | [] => mret tt
  | (ty, arg) :: l =>
      gpr_used ← pass_arg gpru gpr_used ty arg;
      pass_args gpru gpr_used l
  end.

(** [tys.iter().rev().zip(args.iter().rev())] *)
(* [codegen/isa/ola/lower/call.rs | fn pass_args_to_regs] *)
Definition pass_args_to_regs (tys : list IrTypes.Type_) (args : list ValueId) : M unit :=
  cc ← gets call_conv;
  pass_args (str_arg_reg_list cc) (length args) (zip (reverse tys) (reverse args)).

(** ** Calls *)

(** [ctx.types.get(tys[0])] when it is a function type, its result. *)
(* [codegen/isa/ola/lower/call.rs | 258-264 | lower_call] *)
Definition call_result (ty : IrTypes.Type_) : M IrTypes.Type_ :=
  o ← with_types (λ tb, IrTypes.get tb ty);
  mret (match o with Some (IrTypes.Function_ f) => IrTypes.ret f | _ => ty end).

(** The first four registers hold a result. *)
Definition result_regs : list Reg := map of_gr [R0; R1; R2; R3].

(** A call of a function of the program, or of a prophet. *)
(* [codegen/isa/ola/lower/call.rs | 253-306 | lower_call] *)
Definition lower_program_call (i : nat) (name : string) (tys : list IrTypes.Type_) (args : list ValueId) : M unit :=
  let o := if String.prefix "prophet" name then PROPHET else CALL in
  t0 ← nth tys 0;
  result_ty ← call_result t0;
  _ ← pass_args_to_regs (drop 1 tys) (drop 1 args);
  sz ← words_of result_ty;
  '(output, regs, outs) ←
    (if decide (1 < sz)%nat then
       output ← new_empty_str_inst_output result_ty i;
       outs ← map_each (seq 0 sz) (λ idx, r ← nth result_regs idx; mret (op_implicit_output (OReg r)));
       mret (output, result_regs, outs)
     else
       output ← new_empty_inst_output result_ty i;
       mret (output, [of_gr R0], [op_implicit_output (OReg (of_gr R0))]));
  _ ← push o (outs ++ [op_new (Label name)]);
  d ← gets ir_data;
  users ← lift (IrData.users_of d i);
  if decide (users = ∅) then mret tt
  else
    for_each (seq 0 sz) (λ idx,
      out ← nth output idx;
      r ← nth regs idx;
      push MOVrr [op_output (OVReg out); op_input (OReg r)]).

(** Calls that are instructions of the machine.  The branches on
    [set_storage], [get_storage] and [poseidon_hash] further down in the code
    are not reached. *)
(* [codegen/isa/ola/lower/call.rs | 43-189 | lower_call] *)
Definition lower_builtin (i : nat) (name : string) (tys : list IrTypes.Type_) (args : list ValueId) : option (M unit) :=
  let vreg_at k := t ← nth tys k; a ← nth args k; get_vreg_for_val rec t a in
  let operand_at k := t ← nth tys k; a ← nth args k; get_operand_for_val rec t a in
  if String.prefix "builtin" name then
    Some (if decide (name = "builtin_assert") then
            arg ← operand_at 1%nat; push ASSERTri [op_input arg]
          else if decide (name = "builtin_range_check") then
            arg ← operand_at 1%nat; push RANGECHECK [op_input arg]
          else if decide (name = "builtin_check_ecdsa") then
            src ← operand_at 1%nat;
            t0 ← nth tys 0;
            output ← new_empty_inst_output t0 i;
            out ← nth output 0;
            push SIGCHECK [op_output (OVReg out); op_input src]
          else panic)
  else if decide (name = "contract_call") then
    Some (addr ← vreg_at 1%nat; flag ← operand_at 2%nat; push SCCALL [op_input (OVReg addr); op_input flag])
  else if decide (name = "get_storage") then
    Some (src ← vreg_at 1%nat; dst ← operand_at 2%nat; push SLOAD [op_input (OVReg src); op_output dst])
  else if decide (name = "set_storage") then
    Some (src ← vreg_at 1%nat; dst ← operand_at 2%nat; push SSTORE [op_input (OVReg src); op_output dst])
  else if decide (name = "poseidon_hash") then
    Some (src ← vreg_at 1%nat; dst ← vreg_at 2%nat; len ← operand_at 3%nat;
          push POSEIDON [op_output (OVReg dst); op_input (OVReg src); op_input len])
  else if decide (name = "get_context_data" ∨ name = "get_tape_data") then
    Some (let flag_imm := if decide (name = "get_tape_data") then 1 else 0 in
          t1 ← nth tys 1;
          addr ← add_vreg t1;
          _ ← push MOVri [op_output (OVReg addr); op_new (Int32 flag_imm)];
          dest ← vreg_at 1%nat;
          idx ← operand_at 2%nat;
          push TLOADri [op_input (OVReg dest); op_input (OVReg addr); op_input idx])
  else if decide (name = "set_tape_data") then
    Some (src ← vreg_at 1%nat; len ← operand_at 2%nat; push TSTOREr [op_input (OVReg src); op_input len])
  else None.

(* [codegen/isa/ola/lower/call.rs | pub fn lower_call] *)
Definition lower_call (i : nat) (tys : list IrTypes.Type_) (args : list ValueId) : M unit :=
  callee ← nth args 0;
  v ← value_ref callee;
  match v with
  | IrInst.VConstant (IrConst.GlobalRef (IrTypes.Name_ name) _) =>
      match lower_builtin i name tys args with
      | Some m => m
      | None => lower_program_call i name tys args
      end
  | _ => todo
  end.

(** ** Returns *)

(* [codegen/isa/ola/lower/call.rs | 459-509 | lower_return] *)
Definition lower_return_value (ty : IrTypes.Type_) (value : ValueId) : M unit :=
  sz ← words_of ty;
  if decide (1 < sz)%nat then
    values ← get_operands_for_val rec ty value;
    v0 ← nth values 0;
    o ← move_opcode MOVrr v0;
    for_each (seq 0 sz) (λ idx,
      r ← nth result_regs idx;
      x ← nth values idx;
      push o [op_output (OReg r); op_input x])
  else
    v ← get_vreg_for_val rec ty value;
    s ← get_size_of ty;
    _ ← (if IrTypes.is_integer ty then mret tt else p ← is_pointer ty; assert_ p);
    if (s =? 4) || (s =? 8) then push MOVrr [op_output (OReg (of_gr R0)); op_input (OVReg v)]
    else panic.

(* [codegen/isa/ola/lower/call.rs | pub fn lower_return] *)
Definition lower_return (arg : option (IrTypes.Type_ * ValueId)) : M unit :=
  _ ← match arg with
      | Some (ty, value) => lower_return_value ty value
      | None => mret tt
      end;
  push RET [].
End Lower.
End LowerCall.
