(* ===== verification/LowerMem.v ===== *)
(** Instruction selection for Ola: addresses, loads and stores
    (codegen/isa/ola/lower/{gep,load,store}.rs). *)
From S2P Require Import Prelude LinkedLayout IrTypes IrValues Machine MFunction Ir LowerCtx LowerInst.
#[local] Open Scope Z_scope.

Module LowerMem.
Import Reg Inst Lowering LowerInst.

(** [i64] arithmetic, [as i32], and division of integers. *)
Definition i64 (z : Z) : M Z := lift (if (- 2 ^ 63 <=? z) && (z <? 2 ^ 63) then Ret z else Panic).
Definition i32_ (z : Z) : M Z := lift (i32 z).
Definition as_i32 (z : Z) : Z := IrData.wrap32 z.
Definition div4 (z : Z) : Z := Z.quot z 4.

(** The seven operands of a memory access. *)
Definition mem7 (a slot off base idx mul : OperandData) : list Operand :=
  [op_new MemStart; op_new a; op_new slot; op_new off; op_input base; op_input idx; op_new mul].

Section Lower.
Context (rec : IrInst.Instruction → M unit).

(** The constant an index is, if it is one of the width. *)
Definition const64 (v : IrInst.Value) : option Z :=
  match v with IrInst.VConstant (IrConst.Int (IrConst.Int64 i)) => Some i | _ => None end.
Definition const32 (v : IrInst.Value) : option Z :=
  match v with IrInst.VConstant (IrConst.Int (IrConst.Int32 i)) => Some i | _ => None end.

(** [if let Some(p) = inst_id_to_slot_id.get(base_ptr) { slot } else { base }]:
    the slot operand, and the base operand. *)
Definition slot_or_base (base_ptr : nat) (ty : IrTypes.Type_) (val : ValueId) : M (OperandData * OperandData) :=
  m ← gets inst_id_to_slot_id;
  match m !! base_ptr with
  | Some p => mret (OSlot p, ONone)
  | None => x ← get_operand_for_val rec ty val; mret (ONone, x)
  end.

(** ** Addresses *)

(** One index: its factor, if it adds something, and the type below. *)
(* [codegen/isa/ola/lower/gep.rs | 34-59 | lower_gep] *)
Definition gep_index (cur_ty : IrTypes.Type_) (idx : OperandData)
    : M (list (Z * OperandData) * IrTypes.Type_) :=
  s ← with_types (λ tb, IrTypes.is_struct tb cur_ty);
  if (s : bool) then
    l ← with_types (λ tb, IrTypes.DataLayout.new_struct_layout_for (type_fuel tb) tb cur_ty);
    l ← lift (unwrap l);
    k ← lift (unwrap (sext_as_i64 idx));
    let k := Z.to_nat (k mod 2 ^ 64) in
    offset ← lift (unwrap (IrTypes.DataLayout.get_elem_offset l k));
    t ← with_types (λ tb, IrTypes.element_at (type_fuel tb) tb cur_ty k);
    t ← lift (unwrap t);
    mret (if decide (offset = 0) then [] else [(1, Int64 offset)], t)
  else
    sz ← get_size_of cur_ty;
    match sext_as_i64 idx with
    | Some k =>
        if decide (k = 0) then mret ([], cur_ty)
        else p ← i64 (sz * k); mret ([(1, Int64 p)], cur_ty)
    | None => mret ([(sz, idx)], cur_ty)
    end.

Fixpoint gep_indices (cur_ty : IrTypes.Type_) (l : list (ValueId * IrTypes.Type_))
    : M (list (Z * OperandData) * IrTypes.Type_) :=
  match l with
  | [] => mret ([], cur_ty)
  | (arg, arg_ty) :: l =>
      idx ← get_operand_for_val rec arg_ty arg;
      '(i, cur_ty) ← gep_index cur_ty idx;
      '(is_, cur_ty) ← gep_indices cur_ty l;
      mret (i ++ is_, cur_ty)
  end.

(** The immediate of the simple case, [None] when it is not simple. *)
(* [codegen/isa/ola/lower/gep.rs | 74-92 | lower_gep] *)
Definition gep_simple (indices : list (Z * OperandData)) : M (option OperandData) :=
  match indices with
  | [] => mret (Some (Int32 0))
  | [(m, x)] =>
      match sext_as_i64 x with
      | Some imm => if decide (m = 1) then mret (Some (Int64 (div4 imm))) else panic
      | None => if decide (m = 1 ∨ m = 2 ∨ m = 4 ∨ m = 8) then mret (Some x) else mret None
      end
  | _ => mret None
  end.

(* [codegen/isa/ola/lower/gep.rs | 120-160 | lower_gep] *)
Definition gep_general (ty : IrTypes.Type_) (out : VReg) (mem_slot mem_rbase : OperandData)
    (indices : list (Z * OperandData)) : M unit :=
  _ ← push MLOADr (op_output (OVReg out) :: mem7 ONone mem_slot ONone mem_rbase ONone ONone);
  for_each indices (λ '(mul, idx),
    mul_output ← add_vreg ty;
    _ ← push MULrr [op_output (OVReg mul_output); op_input idx; op_new (Int64 mul)];
    push ADDrr [op_output (OVReg out); op_input (OVReg mul_output)]).

(* [codegen/isa/ola/lower/gep.rs | pub fn lower_gep] *)
Definition lower_gep (self_id : nat) (gep : IrInst.GetElementPtr) : M unit :=
  a0 ← nth (IrInst.gep_args gep) 0;
  v0 ← value_ref a0;
  m ← gets inst_id_to_slot_id;
  base ← match (match v0 with IrInst.VInstruction i => m !! i | _ => None end) with
         | Some slot => mret (OSlot slot)
         | None => t1 ← nth (IrInst.gep_tys gep) 1; get_operand_for_val rec t1 a0
         end;
  t1 ← nth (IrInst.gep_tys gep) 1;
  '(indices, cur_ty) ←
    gep_indices t1 (zip (drop 1 (IrInst.gep_args gep)) (drop 2 (IrInst.gep_tys gep)));
  let '(mem_slot, mem_rbase) := match base with OSlot _ => (base, ONone) | _ => (ONone, base) end in
  simple ← gep_simple indices;
  ty ← pointer_to cur_ty;
  output ← new_empty_inst_output ty self_id;
  out ← nth output 0;
  match simple with
  | Some mem_imm => push ADDrr [op_output (OVReg out); op_input mem_rbase; op_input mem_imm]
  | None => gep_general ty out mem_slot mem_rbase indices
  end.

(** ** Loads *)

(** [-12884901885], where the address of the heap is kept. *)
Definition heap_address_cell : Z := -12884901885.

(** What a load or a store goes through. *)
Inductive place :=
  | AtSlot (slot : nat)
  | AtVRegs (vs : list VReg)
  | AtGlobal (name : IrTypes.Name).

(* [codegen/isa/ola/lower/load.rs | 61-105 | lower_load] *)
Definition load_mem (src_ty : IrTypes.Type_) (p : place) : M (list Operand) :=
  match p with
  | AtSlot slot => mret (mem7 ONone (OSlot slot) ONone ONone ONone ONone)
  | AtGlobal gbl =>
      s ← lift (Text.as_string gbl);
      _ ← assert_ (bool_decide (s = "heap_address"));
      output ← add_vreg src_ty;
      _ ← push MOVri [op_output (OVReg output); op_new (Int64 heap_address_cell)];
      mret (mem7 (OVReg output) ONone ONone ONone ONone ONone)
  | AtVRegs vs => v ← nth vs 0; mret (mem7 ONone ONone ONone (OVReg v) ONone ONone)
  end.

(** [mem[3] = ..] *)
Definition set_offset (mem : list Operand) (d : OperandData) : list Operand := <[3%nat := op_new d]> mem.

(** A value of several words is loaded word by word. *)
(* [codegen/isa/ola/lower/load.rs | 107-129 | lower_load] *)
Definition load_words (i : nat) (src_ty : IrTypes.Type_) (mem : list Operand) : M unit :=
  sz ← words_of src_ty;
  output ← (if decide (1 < sz)%nat then new_empty_str_inst_output src_ty i
            else new_empty_inst_output src_ty i);
  for_each (seq 0 sz) (λ idx,
    out ← nth output idx;
    let off := if decide (sz = 1%nat) then ONone else Int64 (-4 * Z.of_nat idx + 12) in
    push MLOADr (op_output (OVReg out) :: set_offset mem off)).

(** The memory operands of a [getelementptr] that is loaded from. *)
(* [codegen/isa/ola/lower/load.rs | 157-378 | lower_load_gep] *)
Definition load_gep_mem (gep : IrInst.Instruction) : M (list Operand) :=
  let tys := IrInst.types (IrInst.operand gep) in
  let args := IrInst.args (IrInst.operand gep) in
  vals ← map_each args value_ref;
  match vals with
  | [IrInst.VInstruction base_ptr; k] =>
      match k, const64 k with
      | _, Some idx0 =>
          base_ty ← nth tys 0;
          s ← get_size_of base_ty;
          p ← i64 (idx0 * s);
          t1 ← nth tys 1; a0 ← nth args 0;
          '(slot, base) ← slot_or_base base_ptr t1 a0;
          mret (mem7 ONone slot (Int32 (as_i32 (div4 p))) base ONone ONone)
      | IrInst.VInstruction idx1, _ =>
          t1 ← nth tys 1; a0 ← nth args 0;
          '(slot, base) ← slot_or_base base_ptr t1 a0;
          idx1_ty ← nth tys 2;
          vs ← get_inst_output rec idx1_ty idx1;
          v ← nth vs 0;
          mret (mem7 ONone slot (Int32 0) base (OVReg v) ONone)
      | _, _ => panic
      end
  | [IrInst.VArgument a; k] =>
      vs ← arg_vregs (IrInst.nth a);
      match k, const64 k with
      | _, Some idx0 =>
          v ← nth vs 0;
          mret (mem7 ONone ONone (Int32 (as_i32 idx0)) (OVReg v) ONone ONone)
      | IrInst.VInstruction idx1, _ =>
          idx1_ty ← nth tys 2;
          is_ ← get_inst_output rec idx1_ty idx1;
          v ← nth vs 0; w ← nth is_ 0;
          mret (mem7 ONone ONone (Int32 0) (OVReg v) (OVReg w) ONone)
      | _, _ => panic
      end
  | [IrInst.VArgument a; k0; k1] =>
      match const64 k0, const64 k1 with
      | Some idx0, Some idx1 =>
          vs ← arg_vregs (IrInst.nth a);
          base_ty ← nth tys 0;
          s0 ← get_size_of base_ty;
          t3 ← nth tys 3;
          s1 ← get_size_of t3;
          p0 ← i64 (idx0 * s0); p1 ← i64 (idx1 * s1); offset ← i64 (p0 + p1);
          v ← nth vs 0;
          mret (mem7 ONone ONone (Int32 (as_i32 offset)) (OVReg v) ONone ONone)
      | _, _ => panic
      end
  | [IrInst.VInstruction base_ptr; k0; k1] =>
      match const64 k0, const64 k1, const32 k0, const32 k1, k1 with
      | Some idx0, Some idx1, _, _, _ =>
          t1 ← nth tys 1; a0 ← nth args 0;
          '(slot, base) ← slot_or_base base_ptr t1 a0;
          base_ty ← nth tys 0;
          s0 ← get_size_of base_ty;
          t3 ← nth tys 3;
          s1 ← get_size_of t3;
          p0 ← i64 (idx0 * s0); p1 ← i64 (idx1 * s1); offset ← i64 (p0 + p1);
          mret (mem7 ONone slot (Int32 (div4 (as_i32 offset))) base ONone ONone)
      | _, _, Some idx0, Some idx1, _ =>
          m ← gets inst_id_to_slot_id;
          p ← lift (unwrap (m !! base_ptr));
          base_ty ← nth tys 0;
          s0 ← get_size_of base_ty;
          t ← element base_ty;
          s1 ← get_size_of t;
          p0 ← i32_ (idx0 * as_i32 s0); p1 ← i32_ (idx1 * as_i32 s1); offset ← i32_ (p0 + p1);
          n ← i32_ (- offset);
          mret (mem7 ONone (OSlot p) (Int32 n) ONone ONone ONone)
      | Some idx0, _, _, _, IrInst.VInstruction idx1 =>
          t1 ← nth tys 1; a0 ← nth args 0;
          '(slot, base) ← slot_or_base base_ptr t1 a0;
          base_ty ← nth tys 0;
          s0 ← get_size_of base_ty;
          offset ← i64 (idx0 * s0);
          idx1_ty ← nth tys 3;
          vs ← get_inst_output rec idx1_ty idx1;
          t ← element base_ty;
          mul ← get_size_of t;
          _ ← assert_ ((mul =? 1) || (mul =? 2) || (mul =? 4) || (mul =? 8));
          n ← i64 (- offset);
          v ← nth vs 0;
          mret (mem7 ONone slot (Int32 (as_i32 n)) base (OVReg v) ONone)
      | _, _, _, _, _ => panic
      end
  | _ => panic
  end.

(* [codegen/isa/ola/lower/load.rs | fn lower_load_gep] *)
Definition lower_load_gep (i : nat) (ty : IrTypes.Type_) (gep_id : nat) : M unit :=
  gep ← inst_ref gep_id;
  mem ← load_gep_mem gep;
  output ← new_empty_inst_output ty i;
  out ← nth output 0;
  push MLOADr (op_output (OVReg out) :: mem).

(* [codegen/isa/ola/lower/load.rs | pub fn lower_load] *)
Definition lower_load (i : nat) (tys : IrTypes.Type_ * IrTypes.Type_) (addr : ValueId) : M unit :=
  v ← value_ref addr;
  match v with
  | IrInst.VInstruction addr_id =>
      m ← gets inst_id_to_slot_id;
      match m !! addr_id with
      | Some slot => mem ← load_mem tys.1 (AtSlot slot); load_words i tys.1 mem
      | None =>
          a ← inst_ref addr_id;
          if decide (IrInst.opcode a = IrInst.OGetElementPtr) then lower_load_gep i tys.1 addr_id
          else
            vs ← get_inst_output rec tys.2 addr_id;
            mem ← load_mem tys.1 (AtVRegs vs); load_words i tys.1 mem
      end
  | IrInst.VConstant (IrConst.GlobalRef name _) =>
      mem ← load_mem tys.1 (AtGlobal name); load_words i tys.1 mem
  | IrInst.VArgument a =>
      vs ← arg_vregs (IrInst.nth a);
      mem ← load_mem tys.1 (AtVRegs vs); load_words i tys.1 mem
  | _ => todo
  end.

(** ** Stores *)

(** [ADDri addr, R9, slot]: the address of a slot. *)
Definition slot_address (addr : VReg) (slot : nat) : M unit :=
  push ADDri [op_output (OVReg addr); op_new (OReg (of_gr R9)); op_new (OSlot slot)].

(** The registers with the value to store. *)
(* [codegen/isa/ola/lower/store.rs | 64-176 | lower_store] *)
Definition store_source (ty : IrTypes.Type_) (src : ValueId) : M (list VReg) :=
  sz ← words_of ty;
  v ← value_ref src;
  match v with
  | IrInst.VConstant c =>
      if decide (1 < sz)%nat then
        elm_ty ← element ty;
        ops ← get_operands_for_const c;
        map_each (seq 0 sz) (λ idx,
          addr ← add_vreg elm_ty;
          x ← nth ops idx;
          _ ← push MOVri [op_output (OVReg addr); op_new x];
          mret addr)
      else
        addr ← add_vreg ty;
        _ ← match c with
            | IrConst.Int (IrConst.Int32 k) => push MOVri [op_output (OVReg addr); op_new (Int32 k)]
            | IrConst.Int (IrConst.Int64 k) => push MOVri [op_output (OVReg addr); op_new (Int64 k)]
            | _ => todo
            end;
        mret [addr]
  | IrInst.VInstruction i =>
      p ← is_pointer ty;
      if (p : bool) then
        addr ← add_vreg ty;
        inst ← inst_ref i;
        if decide (IrInst.opcode inst = IrInst.OAlloca) then
          m ← gets inst_id_to_slot_id;
          slot ← lift (unwrap (m !! i));
          _ ← slot_address addr slot;
          mret [addr]
        else get_inst_output rec ty i
      else get_inst_output rec ty i
  | IrInst.VArgument a => arg_vregs (IrInst.nth a)
  | IrInst.VInlineAsm _ => todo
  end.

(** A slot takes the words in reverse; an address in a register takes the
    first word only. *)
(* [codegen/isa/ola/lower/store.rs | 178-277 | lower_store] *)
Definition store_to (ty : IrTypes.Type_) (p : place) (vreg : list VReg) : M unit :=
  match p with
  | AtGlobal gbl =>
      s ← lift (Text.as_string gbl);
      _ ← assert_ (bool_decide (s = "heap_address"));
      output ← add_vreg ty;
      _ ← push MOVri [op_output (OVReg output); op_new (Int64 heap_address_cell)];
      v ← nth vreg 0;
      push MSTOREr (mem7 ONone ONone ONone (OVReg output) ONone ONone ++ [op_input (OVReg v)])
  | AtSlot slot =>
      sz ← words_of ty;
      for_each (seq 0 sz) (λ idx,
        v ← nth vreg (sz - idx - 1)%nat;
        push MSTOREr (mem7 ONone (OSlot slot) (Int64 (4 * Z.of_nat idx)) ONone ONone ONone
                      ++ [op_input (OVReg v)]))
  | AtVRegs dst =>
      d ← nth dst 0;
      v ← nth vreg 0;
      push MSTOREr (mem7 ONone ONone ONone (OVReg d) ONone ONone ++ [op_input (OVReg v)])
  end.

(** The memory operands of a [getelementptr] that is stored to. *)
(* [codegen/isa/ola/lower/store.rs | 301-484 | lower_store_gep] *)
Definition store_gep_mem (gep : IrInst.Instruction) : M (list Operand) :=
  let tys := IrInst.types (IrInst.operand gep) in
  let args := IrInst.args (IrInst.operand gep) in
  vals ← map_each args value_ref;
  match vals with
  | [IrInst.VInstruction base_ptr; k0; k1] =>
      match const64 k0, const64 k1, const32 k0, const32 k1, k1 with
      | Some idx0, Some idx1, _, _, _ =>
          base_ty ← nth tys 0;
          s0 ← get_size_of base_ty;
          p0 ← i64 (idx0 * s0);
          t3 ← nth tys 3;
          s1 ← get_size_of t3;
          p1 ← i64 (idx1 * s1);
          offset ← i64 (p0 - div4 p1);
          t1 ← nth tys 1; a0 ← nth args 0;
          '(slot, base) ← slot_or_base base_ptr t1 a0;
          offset ← match slot with OSlot _ => mret offset | _ => i64 (- offset) end;
          mret (mem7 ONone slot (Int32 (as_i32 offset)) base ONone ONone)
      | _, _, Some idx0, Some idx1, _ =>
          m ← gets inst_id_to_slot_id;
          p ← lift (unwrap (m !! base_ptr));
          base_ty ← nth tys 0;
          s0 ← get_size_of base_ty;
          t ← element base_ty;
          s1 ← get_size_of t;
          p0 ← i32_ (idx0 * as_i32 s0); p1 ← i32_ (idx1 * as_i32 s1); offset ← i32_ (p0 + p1);
          n ← i32_ (- offset);
          mret (mem7 ONone (OSlot p) (Int32 n) ONone ONone ONone)
      | Some idx0, _, _, _, IrInst.VInstruction idx1 =>
          t1 ← nth tys 1; a0 ← nth args 0;
          '(slot, base) ← slot_or_base base_ptr t1 a0;
          base_ty ← nth tys 0;
          s0 ← get_size_of base_ty;
          offset ← i64 (idx0 * s0);
          idx1_ty ← nth tys 3;
          _ ← assert_ (bool_decide (idx1_ty = IrTypes.I64));
          vs ← get_inst_output rec idx1_ty idx1;
          t ← element base_ty;
          mul ← get_size_of t;
          _ ← assert_ (mul =? 4);
          n ← i64 (- offset);
          v ← nth vs 0;
          mret (mem7 ONone slot (Int32 (as_i32 n)) base (OVReg v) (Int32 (as_i32 mul)))
      | _, _, _, _, _ => todo
      end
  | [IrInst.VInstruction base_ptr; k] =>
      match k, const64 k with
      | _, Some idx0 =>
          base_ty ← nth tys 0;
          s ← get_size_of base_ty;
          n ← i64 (- idx0);
          p ← i64 (n * s);
          t1 ← nth tys 1; a0 ← nth args 0;
          '(slot, base) ← slot_or_base base_ptr t1 a0;
          offset ← match slot with OSlot _ => mret (div4 p) | _ => i64 (- div4 p) end;
          mret (mem7 ONone slot (Int32 (as_i32 offset)) base ONone ONone)
      | IrInst.VInstruction idx, _ =>
          t1 ← nth tys 1;
          vs ← get_inst_output rec t1 idx;
          a0 ← nth args 0;
          '(slot, base) ← slot_or_base base_ptr t1 a0;
          v ← nth vs 0;
          mret (mem7 ONone slot ONone base (OVReg v) ONone)
      | _, _ => todo
      end
  | [IrInst.VArgument a; IrInst.VInstruction idx1] =>
      vs ← arg_vregs (IrInst.nth a);
      idx1_ty ← nth tys 2;
      is_ ← get_inst_output rec idx1_ty idx1;
      v ← nth vs 0; w ← nth is_ 0;
      mret (mem7 ONone ONone (Int32 0) (OVReg v) (OVReg w) ONone)
  | _ => todo
  end.

(** [MOVri addr, k; MSTOREr mem, addr] *)
Definition store_imm (ty : IrTypes.Type_) (mem : list Operand) (k : OperandData) : M unit :=
  addr ← add_vreg ty;
  _ ← push MOVri [op_output (OVReg addr); op_new k];
  push MSTOREr (mem ++ [op_input (OVReg addr)]).

(** Only the first register of the source is stored. *)
(* [codegen/isa/ola/lower/store.rs | 488-623 | lower_store_gep] *)
Definition store_gep_source (ty : IrTypes.Type_) (mem : list Operand) (src : ValueId) : M unit :=
  v ← value_ref src;
  match v with
  | IrInst.VConstant (IrConst.Int (IrConst.Int32 k)) => store_imm ty mem (Int32 k)
  | IrInst.VConstant (IrConst.Int (IrConst.Int64 k)) => store_imm ty mem (Int64 k)
  | IrInst.VConstant (IrConst.Null _) => store_imm ty mem (Int64 0)
  | IrInst.VArgument a =>
      vs ← arg_vregs (IrInst.nth a);
      v ← nth vs 0;
      push MSTOREr (mem ++ [op_input (OVReg v)])
  | IrInst.VInstruction i =>
      addr ← add_vreg ty;
      vs ← get_inst_output rec ty i;
      inst ← inst_ref i;
      vs ← (if decide (IrInst.opcode inst = IrInst.OAlloca) then
              m ← gets inst_id_to_slot_id;
              slot ← lift (unwrap (m !! i));
              _ ← slot_address addr slot;
              mret [addr]
            else mret vs);
      v ← nth vs 0;
      push MSTOREr (mem ++ [op_input (OVReg v)])
  | _ => todo
  end.

(* [codegen/isa/ola/lower/store.rs | fn lower_store_gep] *)
Definition lower_store_gep (ty : IrTypes.Type_) (src : ValueId) (gep_id : nat) : M unit :=
  gep ← inst_ref gep_id;
  mem ← store_gep_mem gep;
  store_gep_source ty mem src.

(* [codegen/isa/ola/lower/store.rs | pub fn lower_store] *)
Definition lower_store (tys : IrTypes.Type_ * IrTypes.Type_) (args : ValueId * ValueId) : M unit :=
  v ← value_ref args.2;
  match v with
  | IrInst.VInstruction i =>
      m ← gets inst_id_to_slot_id;
      match m !! i with
      | Some slot => vreg ← store_source tys.1 args.1; store_to tys.1 (AtSlot slot) vreg
      | None =>
          inst ← inst_ref i;
          if decide (IrInst.opcode inst = IrInst.OGetElementPtr) then lower_store_gep tys.1 args.1 i
          else
            dst ← get_inst_output rec tys.2 i;
            vreg ← store_source tys.1 args.1;
            store_to tys.1 (AtVRegs dst) vreg
      end
  | IrInst.VConstant (IrConst.GlobalRef name _) =>
      vreg ← store_source tys.1 args.1; store_to tys.1 (AtGlobal name) vreg
  | IrInst.VArgument a =>
      dst ← arg_vregs (IrInst.nth a);
      vreg ← store_source tys.1 args.1;
      store_to tys.1 (AtVRegs dst) vreg
  | _ => todo
  end.
End Lower.
End LowerMem.
