(* ===== verification/Lower.v ===== *)
(** Instruction selection: the dispatcher over IR instructions
    (codegen/isa/ola/lower/mod.rs), the compilation of a function block by
    block (codegen/lower/mod.rs). *)
From S2P Require Import Prelude LinkedLayout IrTypes IrValues Machine MFunction Ir.
From S2P Require Import LowerCtx LowerInst LowerCall LowerMem.
#[local] Open Scope Z_scope.

Module Lower.
Import Reg Inst Lowering LowerInst LowerCall LowerMem.
Import IrInst(Alloca_, Phi_, Load_, Store_, GetElementPtr_, InsertValue_, ExtractValue_,
              IntBinary_, Cast_, Br_, CondBr_, Switch_, Call_, Return_, OAlloca, OPhi).

(** [inst.id.unwrap()] *)
Definition id_of (inst : IrInst.Instruction) : M nat := lift (unwrap (IrInst.id inst)).

(** The instructions that [inst] uses are lowered by a call one level down. *)
(* [codegen/isa/ola/lower/mod.rs | fn lower(ctx: &mut LoweringContext<Ola>, inst: &IrInstruction) -> Result<()> {
   >> fn lower] *)
Fixpoint lower (fuel : nat) (inst : IrInst.Instruction) : M unit :=
  match fuel with
  | O => λ _, OutOfFuel
  | S fuel =>
      let rec := lower fuel in
      match IrInst.operand inst with
      | Alloca_ a => i ← id_of inst; lower_alloca i (IrInst.alloca_tys a).1
      | Phi_ p => i ← id_of inst; lower_phi rec i (IrInst.phi_ty p) (IrInst.phi_args p) (IrInst.phi_blocks p)
      | Load_ l => i ← id_of inst; lower_load rec i (IrInst.load_tys l) (IrInst.load_addr l)
      | Store_ s => lower_store rec (IrInst.store_tys s) (IrInst.store_args s)
      | GetElementPtr_ g => i ← id_of inst; lower_gep rec i g
      | InsertValue_ x => i ← id_of inst; lower_insertvalue rec i (IrInst.insert_tys x) (IrInst.insert_args x)
      | ExtractValue_ x => i ← id_of inst; lower_extractvalue rec i (IrInst.extract_ty x) (IrInst.extract_args x)
      | IntBinary_ b =>
          i ← id_of inst; lower_bin rec i (IrInst.opcode inst) (IrInst.bin_ty b) (IrInst.bin_args b)
      | Cast_ c =>
          if decide (IrInst.opcode inst = IrInst.IntToPtr ∨ IrInst.opcode inst = IrInst.PtrToInt) then
            i ← id_of inst; lower_itp rec i (IrInst.cast_tys c) (IrInst.cast_arg c)
          else if decide (IrInst.opcode inst = IrInst.Zext) then
            i ← id_of inst; lower_zext rec i (IrInst.cast_tys c) (IrInst.cast_arg c)
          else todo
      | Br_ b => lower_br (IrInst.br_block b)
      | CondBr_ c => lower_condbr rec (IrInst.condbr_arg c) (IrInst.condbr_blocks c)
      | Switch_ s =>
          _ ← id_of inst; lower_switch rec (IrInst.switch_tys s) (IrInst.switch_args s) (IrInst.switch_blocks s)
      | Call_ c => i ← id_of inst; lower_call rec i (IrInst.call_tys c) (IrInst.call_args c)
      | Return_ r =>
          match IrInst.ret_val r with
          | None => lower_return rec None
          | Some v => lower_return rec (Some (IrInst.ret_ty r, v))
          end
      | _ => todo
      end
  end.

(** ** Functions *)

(** An instruction lowers only instructions of its function, each of which has
    its output once it was lowered. *)
Definition lower_fuel (f : IrFunc.Function) : nat := S (length (IrData.instructions (IrFunc.data f))).

(** [for block_id in function.layout.block_iter()]: a machine block per block. *)
(* [codegen/lower/mod.rs | 94-99 | compile_function] *)
Definition create_blocks (bs : list nat) (d : Data.Data) (L : Layout.Layout) (bm : gmap nat nat)
    : comp (Data.Data * Layout.Layout * gmap nat nat) :=
  foldM (λ '(d, L, bm) b,
    let '(d, nb) := Data.create_block d in
    L ← Layout.append_block L nb;
    Ret (d, L, <[b := nb]> bm)) (d, L, bm) bs.

(** The sets of [block], in the order the sets of the IR's block iterate. *)
(* [codegen/lower/mod.rs | 101-112 | compile_function] *)
Definition link_block (ird : IrData.Data) (bm : gmap nat nat) (d : Data.Data) (b : nat) : comp Data.Data :=
  nb ← unwrap (bm !! b);
  block ← IrData.block_ref ird b;
  new_block ← unwrap (Data.basic_blocks d !! nb);
  ps ← foldM (λ l p, x ← unwrap (bm !! p); Ret (IrData.set_insert x l)) (Data.preds new_block) (IrData.preds block);
  ss ← foldM (λ l s, x ← unwrap (bm !! s); Ret (IrData.set_insert x l)) (Data.succs new_block) (IrData.succs block);
  Ret {| Data.instructions := Data.instructions d;
         Data.basic_blocks := <[nb := {| Data.preds := ps; Data.succs := ss |}]> (Data.basic_blocks d);
         Data.vregs := Data.vregs d; Data.vreg_users := Data.vreg_users d; Data.used_csr := Data.used_csr d |}.

(** The leading allocas and phis of a block. *)
(* [codegen/lower/mod.rs | 145-168 | compile_function] *)
Fixpoint lower_heads (fuel : nat) (is_ : list nat) : M unit :=
  match is_ with
  | [] => mret tt
  | i :: is_ =>
      inst ← inst_ref i;
      if decide (IrInst.opcode inst ≠ OAlloca ∧ IrInst.opcode inst ≠ OPhi) then mret tt
      else _ ← lower fuel inst; lower_heads fuel is_
  end.

(** An instruction that is lowered where it is used. *)
(* [codegen/lower/mod.rs | 176-182 | compile_function] *)
Definition skipped (block_id i : nat) (inst : IrInst.Instruction) : M bool :=
  d ← gets ir_data;
  us ← lift (IrData.users_of d i);
  users ← lift (mapM_c (IrData.inst_ref d) (elements us));
  let all_users_in_one_block := forallb (λ u, bool_decide (IrInst.parent u = block_id)) users in
  mret (negb (IrInst.has_side_effects (IrInst.opcode inst)) && all_users_in_one_block).

(* [codegen/lower/mod.rs | 170-203 | compile_function] *)
Definition lower_body (fuel : nat) (block_id : nat) (i : nat) : M unit :=
  inst ← inst_ref i;
  if decide (IrInst.opcode inst = OAlloca ∨ IrInst.opcode inst = OPhi) then mret tt
  else
    skip ← skipped block_id i inst;
    if (skip : bool) then mret tt else lower fuel inst.

(** The instructions selected for a block. *)
(* [codegen/lower/mod.rs | 119-204 | compile_function] *)
Definition lower_block (f : IrFunc.Function) (entry : bool) (b : nat) (insts : list nat) : M unit :=
  let fuel := lower_fuel f in
  _ ← (if entry then copy_args_to_vregs (IrFunc.f_params f) else mret tt);
  _ ← lower_heads fuel insts;
  for_each insts (lower_body fuel b).

(** [for mach_inst in inst_seq { .. }] *)
(* [codegen/lower/mod.rs | 205-208 | compile_function] *)
Definition append_insts (bm : gmap nat nat) (b : nat) (l : list Inst.Instruction)
    (d : Data.Data) (L : Layout.Layout) : comp (Data.Data * Layout.Layout) :=
  foldM (λ '(d, L) inst,
    let '(d, id) := Data.create_inst d inst in
    nb ← unwrap (bm !! b);
    L ← Layout.append_inst L id nb;
    Ret (d, L)) (d, L) l.

(** The context at the start of a block: everything but [inst_seq] and
    [cur_block] stays from block to block. *)
Definition at_block (c : Ctx) (b : nat) : Ctx :=
  {| ir_data := ir_data c; mach_data := mach_data c; slots := slots c; inst_id_to_slot_id := inst_id_to_slot_id c;
     arg_idx_to_vreg := arg_idx_to_vreg c; inst_seq := []; types := types c;
     inst_id_to_vreg := inst_id_to_vreg c; merged_inst := merged_inst c; block_map := block_map c;
     call_conv := call_conv c; cur_block := b |}.

(** One block: [None] is an error, which ends the compilation. *)
(* [codegen/lower/mod.rs | 118-210 | compile_function] *)
Definition compile_block (f : IrFunc.Function) (acc : option (Ctx * Layout.Layout)) (ib : nat * nat)
    : comp (option (Ctx * Layout.Layout)) :=
  match acc with
  | None => Ret None
  | Some (c, L) =>
      insts ← IrFunc.insts_of f ib.2;
      r ← lower_block f (bool_decide (ib.1 = 0%nat)) ib.2 insts (at_block c ib.2);
      match r with
      | None => Ret None
      | Some (_, c) =>
          '(d, L) ← append_insts (block_map c) ib.2 (inst_seq c) (mach_data c) L;
          Ret (Some (set_mach_data d c, L))
      end
  end.

(* [codegen/lower/mod.rs | pub fn compile_function] *)
Definition compile_function (f : IrFunc.Function) : comp (option Func.Function) :=
  bs ← IrLayout.block_iter (IrFunc.layout f);
  '(d, L, bm) ← create_blocks bs Data.new Layout.new ∅;
  d ← foldM (link_block (IrFunc.data f) bm) d bs;
  let c := {| ir_data := IrFunc.data f; mach_data := d; slots := Slots.new; inst_id_to_slot_id := ∅;
              arg_idx_to_vreg := ∅; inst_seq := []; types := IrFunc.f_types f; inst_id_to_vreg := ∅;
              merged_inst := ∅; block_map := bm; call_conv := SystemV; cur_block := 0 |} in
  r ← foldM (compile_block f) (Some (c, L)) (imap pair bs);
  match r with
  | None => Ret None
  | Some (c, L) =>
      Ret (Some {| Func.fdata := mach_data c; Func.layout := L; Func.slots := slots c;
                   Func.types := types c; Func.is_declaration := IrFunc.is_prototype f;
                   Func.call_conv := call_conv c |})
  end.
End Lower.
