(* ===== verification/Asm.v ===== *)
(** The back end as one function (codegen/lower/mod.rs, compile_module, with
    the passes of codegen/isa/ola/mod.rs): every function of an IR module is
    lowered, then each machine pass runs over all of them. *)
From S2P Require Import Prelude LinkedLayout IrTypes Ir Machine MFunction RegAlloc OlaPasses LowerCtx.
From S2P Require Import Lower.

Module Pipeline.
Import Reg Inst.

(* [codegen/module/mod.rs | pub struct Module] *)
Record MachModule := { m_ir : list IrFunc.Function; functions : list Func.Function; m_types : IrTypes.TypesBase }.

(** The handle to the table of types is shared: what one function adds, the
    later ones see. *)
Definition with_f_types (tb : IrTypes.TypesBase) (f : IrFunc.Function) : IrFunc.Function :=
  {| IrFunc.fname := IrFunc.fname f; IrFunc.f_is_var_arg := IrFunc.f_is_var_arg f;
     IrFunc.result_ty := IrFunc.result_ty f; IrFunc.f_params := IrFunc.f_params f;
     IrFunc.linkage := IrFunc.linkage f; IrFunc.preemption_specifier := IrFunc.preemption_specifier f;
     IrFunc.visibility := IrFunc.visibility f; IrFunc.unnamed_addr := IrFunc.unnamed_addr f;
     IrFunc.func_attrs := IrFunc.func_attrs f; IrFunc.ret_attrs := IrFunc.ret_attrs f;
     IrFunc.section := IrFunc.section f; IrFunc.personality := IrFunc.personality f;
     IrFunc.data := IrFunc.data f; IrFunc.layout := IrFunc.layout f; IrFunc.f_types := tb |}.
Definition with_types (tb : IrTypes.TypesBase) (f : Func.Function) : Func.Function :=
  {| Func.fdata := Func.fdata f; Func.layout := Func.layout f; Func.slots := Func.slots f;
     Func.types := tb; Func.is_declaration := Func.is_declaration f; Func.call_conv := Func.call_conv f |}.

(** [for (_, func) in &mut module.functions { run_on_function(func); }] *)
(* [codegen/isa/ola/pass/eliminate_phi.rs | pub fn run_on_module] *)
Definition run_on_module (pass : Func.Function → comp Func.Function) (m : MachModule) : comp MachModule :=
  fs ← mapM_c pass (functions m);
  Ret {| m_ir := m_ir m; functions := fs; m_types := m_types m |}.

(** [fuel] bounds the spiller and the allocation loop; [order] gives the
    entries of a hash map as its iterator does. *)
(* [codegen/isa/ola/mod.rs | fn module_passes] *)
Definition module_passes (fuel : nat)
    (order : gmap Reg Passes.phi_args → list (Reg * Passes.phi_args)) : list (MachModule → comp MachModule) :=
  map run_on_module
    [RegAlloc.run_on_function fuel;
     Passes.EliminatePhi.run_on_function order;
     Passes.AddPeephole.run_on_function;
     Passes.SimpleRegCoalescing.run_on_function;
     Passes.AddPeephole.run_on_function;
     Passes.EliminateSlot.run_on_function;
     Passes.ProEpiInserter.run_on_function].

(** [functions.alloc(compile_function(isa, function)?)] for each function. *)
(* [codegen/lower/mod.rs | 59-63 | compile_module] *)
Fixpoint compile_functions (tb : IrTypes.TypesBase) (fs : list IrFunc.Function)
    : comp (option (list Func.Function * IrTypes.TypesBase)) :=
  match fs with
  | [] => Ret (Some ([], tb))
  | f :: fs =>
      o ← Lower.compile_function (with_f_types tb f);
      match o with
      | None => Ret None
      | Some mf =>
          r ← compile_functions (Func.types mf) fs;
          Ret (match r with Some (mfs, tb) => Some (mf :: mfs, tb) | None => None end)
      end
  end.

(* [codegen/lower/mod.rs | pub fn compile_module] *)
Definition compile_module (fuel : nat) (order : gmap Reg Passes.phi_args → list (Reg * Passes.phi_args))
    (tb : IrTypes.TypesBase) (fs : list IrFunc.Function) : comp (option MachModule) :=
  r ← compile_functions tb fs;
  match r with
  | None => Ret None
  | Some (mfs, tb) =>
      let m := {| m_ir := fs; functions := map (with_types tb) mfs; m_types := tb |} in
      m ← foldM (λ m pass, pass m) m (module_passes fuel order);
      Ret (Some m)
  end.
End Pipeline.

(** The text of a compiled module (codegen/isa/ola/asm/mod.rs): functions,
    blocks and instructions with their operands, and the prophets the code
    calls, each with its program and the registers it reads and writes. *)
#[local] Open Scope Z_scope.
Module Asm.
Import Reg Inst Data Func.
#[local] Open Scope string_scope.

(** ** Prophets *)

(* [codegen/isa/ola/asm/mod.rs | pub struct Input] *)
Record Input := { i_name : string; i_length : Z; i_is_ref : bool; i_is_input_output : bool }.
(* [codegen/isa/ola/asm/mod.rs | pub struct Output] *)
Record Output := { o_name : string; o_length : Z; o_is_ref : bool; o_is_input_output : bool }.
(* [codegen/isa/ola/asm/mod.rs | pub struct Prophet] *)
Record Prophet := { p_label : string; p_code : string; inputs : list Input; outputs : list Output }.
(* [codegen/isa/ola/asm/mod.rs | pub struct AsmProgram] *)
Record AsmProgram := { program : string; prophets : list Prophet }.

(* [codegen/isa/ola/asm/mod.rs | 45-49 | SQRT] *)
Definition SQRT : string := "%{
    entry() {
        cid.y = sqrt(cid.x);
    }
%}".
(* [codegen/isa/ola/asm/mod.rs | 51-58 | DIV] *)
Definition DIV : string := "%{
    function div(felt x, felt y) -> felt {
        return x / y;
    }
    entry() {
        cid.q = div(cid.x, cid.y);
    }
%}".
(* [codegen/isa/ola/asm/mod.rs | 60-67 | MOD] *)
Definition MOD : string := "%{
    function mod(felt x, felt y) -> felt {
        return x % y;
    }
    entry() {
        cid.r = mod(cid.x, cid.y);
    }
%}".
(* [codegen/isa/ola/asm/mod.rs | 69-76 | DIV_MOD] *)
Definition DIV_MOD : string := "%{
    entry() {
        (cid.q, cid.r) = divmod(cid.x, cid.y);
    }
    function divmod(felt x, felt y) -> (felt, felt) {
        return (x / y, x % y);
    }
%}".
(* [codegen/isa/ola/asm/mod.rs | 78-95 | ARR_SORT] *)
Definition ARR_SORT : string := "%{
    entry() {
        cid.arrOut = sort(cid.arrIn, cid.len);
    }
    function sort(felt[] arr, felt len) -> felt[] {
        felt n = len;
        for (felt i = 0; i < n - 1; i++) {
            for (felt j = 0; j < n - i - 1; j++) {
                if (arr[j] > arr[j + 1]) {
                    felt temp = arr[j];
                    arr[j] = arr[j + 1];
                    arr[j + 1] = temp;
                }
            }
        }
        return arr;
    }
%}".
(* [codegen/isa/ola/asm/mod.rs | 97-101 | MALLOC] *)
Definition MALLOC : string := "%{
    entry() {
        cid.addr = malloc(cid.len);
    }
%}".
(* [codegen/isa/ola/asm/mod.rs | 103-107 | PRINTF] *)
Definition PRINTF : string := "%{
    entry() {
        printf(cid.base, cid.flag);
    }
%}".
(* [codegen/isa/ola/asm/mod.rs | 109-116 | SPLITHI] *)
Definition SPLITHI : string := "%{
    function split_hi(felt in) -> felt {
        return in / 4294967296;
    }
    entry() {
        cid.out = split_hi(cid.in);
    }
%}".
(* [codegen/isa/ola/asm/mod.rs | 118-125 | SPLITLO] *)
Definition SPLITLO : string := "%{
    function split_lo(felt in) -> felt {
        return in % 4294967296;
    }
    entry() {
        cid.out = split_lo(cid.in);
    }
%}".

(** One word, by value or by reference. *)
Definition in_ (is_ref : bool) (name : string) : Input :=
  {| i_name := name; i_length := 1; i_is_ref := is_ref; i_is_input_output := false |}.
Definition out_ (is_ref : bool) (name : string) : Output :=
  {| o_name := name; o_length := 1; o_is_ref := is_ref; o_is_input_output := false |}.

(* [codegen/isa/ola/asm/mod.rs | pub fn from_prophet] *)
Definition from_prophet (name : string) (fn_idx pht_idx : nat) : comp Prophet :=
  let mk code is_ os :=
    Ret {| p_label := ".PROPHET" +:+ pretty fn_idx +:+ "_" +:+ pretty pht_idx; p_code := code;
           inputs := is_; outputs := os |} in
  if decide (name = "prophet_u32_sqrt") then
    mk SQRT [in_ false "cid.x"] [out_ false "cid.y"]
  else if decide (name = "prophet_u32_div") then
    mk DIV [in_ false "cid.x"; in_ false "cid.y"] [out_ false "cid.q"]
  else if decide (name = "prophet_u32_mod") then
    mk MOD [in_ false "cid.x"; in_ false "cid.y"] [out_ false "cid.r"]
  else if decide (name = "prophet_div_mod") then
    mk DIV_MOD [in_ false "cid.x"; in_ false "cid.y"] [out_ false "cid.q"; out_ false "cid.r"]
  else if decide (name = "prophet_u32_array_sort") then
    mk ARR_SORT [in_ true "cid.arrIn"; in_ true "cid.len"] [out_ true "cid.arrOut"]
  else if decide (name = "vector_new") then
    mk MALLOC [in_ false "cid.len"] [out_ false "cid.addr"]
  else if decide (name = "prophet_printf") then
    mk PRINTF [in_ false "cid.base"; in_ false "cid.flag"] []
  else if decide (name = "prophet_split_field_high") then
    mk SPLITHI [in_ false "cid.in"] [out_ false "cid.out"]
  else if decide (name = "prophet_split_field_low") then
    mk SPLITLO [in_ false "cid.in"] [out_ false "cid.out"]
  else Panic.

(** ** Opcodes and operands *)

(* [codegen/isa/ola/asm/mod.rs | impl fmt::Display for Opcode >> fn fmt] *)
Definition opcode_str (o : Opcode) : comp string :=
  match o with
  | ADDri | ADDrr => Ret "add"
  | MULri | MULrr => Ret "mul"
  | ANDri | ANDrr => Ret "and"
  | ORri | ORrr => Ret "or"
  | XORri | XORrr => Ret "xor"
  | MOVri | MOVrr | MOV => Ret "mov"
  | JMPi | JMPr => Ret "jmp"
  | CJMPi | CJMPr => Ret "cjmp"
  | CALL => Ret "call"
  | SCCALL => Ret "sccall"
  | RET => Ret "ret"
  | Phi => Ret "PHI"
  | SSTORE => Ret "sstore"
  | SLOAD => Ret "sload"
  | POSEIDON => Ret "poseidon"
  | PROPHET => Ret "prophet"
  | MLOADi | MLOADr => Ret "mload"
  | MSTOREi | MSTOREr => Ret "mstore"
  | NOT => Ret "not"
  | GTE => Ret "gte"
  | NEQ => Ret "neq"
  | EQri | EQrr => Ret "eq"
  | RANGECHECK => Ret "range"
  | SIGCHECK => Ret "sigcheck"
  | ASSERTri | ASSERTrr => Ret "assert"
  | TLOADri | TLOADrr => Ret "tload"
  | TSTOREi | TSTOREr => Ret "tstore"
  | _ => Panic
  end.

(** [immediate as usize] *)
Definition as_usize (z : Z) : Z := z mod 2 ^ 64.

(* [codegen/isa/ola/asm/mod.rs | fn negative_as_field] *)
Definition negative_as_field (immediate : Z) : comp bool :=
  let imm := as_usize immediate in
  _ ← assert_c (imm <? 0xffffffffffffffff)%Z;
  Ret (0x7fffffffffffffff <? imm)%Z.

Section Print.
(** How [{:?}] prints the id of a slot: the arena's library does it. *)
Context (slot_debug : nat → string).

(* [codegen/isa/ola/asm/mod.rs | fn write_operand] *)
Definition write_operand (op : OperandData) (fn_idx : nat) : comp string :=
  match op with
  | OReg r => reg_to_str r
  | OVReg v => Ret ("%" +:+ pretty v)
  | OSlot s => Ret (slot_debug s)
  | Int8 i | Int32 i => Ret (pretty i)
  | Int64 i => neg ← negative_as_field i; Ret (if (neg : bool) then pretty (as_usize i) else pretty i)
  | OBlock b => Ret (".LBL" +:+ pretty fn_idx +:+ "_" +:+ pretty b)
  | Label name => Ret name
  | MemStart => Ret ""
  | GlobalAddress name => Ret ("offset " +:+ name)
  | ONone => Ret "none"
  end.

(** The sign and the number. *)
Definition signed (z : Z) : string := (if (z <? 0)%Z then "" else "+") +:+ pretty z.

(** [args[k].data] *)
Definition arg_data (args : list Operand) (k : nat) : comp OperandData := o ← unwrap (args !! k); Ret (data o).

(** The six operands after [MemStart]. *)
(* [codegen/isa/ola/asm/mod.rs | fn mem_op] *)
Definition mem_op (args : list Operand) : comp string :=
  a1 ← arg_data args 1;
  _ ← assert_c (bool_decide (a1 = ONone));
  a0 ← arg_data args 0;
  a2 ← arg_data args 2;
  a3 ← arg_data args 3;
  a4 ← arg_data args 4;
  a5 ← arg_data args 5;
  match a0, a2, a3, a4, a5 with
  | Label name, ONone, ONone, ONone, ONone => Ret ("[" +:+ name +:+ "]")
  | ONone, Int32 imm, OReg reg, ONone, ONone
  | ONone, Int64 imm, OReg reg, ONone, ONone =>
      r ← reg_to_str reg;
      Ret (if decide (imm = 0) then "[" +:+ r +:+ "]" else "[" +:+ r +:+ "," +:+ signed imm +:+ "]")
  | ONone, Int32 imm, OReg reg1, OReg reg2, Int32 shift =>
      r1 ← reg_to_str reg1;
      if decide (imm = 0) then
        r2 ← reg_to_str reg2; Ret ("[" +:+ r1 +:+ "," +:+ r2 +:+ "," +:+ signed shift +:+ "]")
      else if decide (shift = 0) then Ret ("[" +:+ r1 +:+ "," +:+ signed imm +:+ "]")
      else
        r2 ← reg_to_str reg2;
        Ret ("[" +:+ r1 +:+ "," +:+ signed imm +:+ "," +:+ r2 +:+ "," +:+ signed shift +:+ "]")
  | ONone, ONone, OReg reg1, ONone, ONone => r1 ← reg_to_str reg1; Ret ("[" +:+ r1 +:+ "]")
  | ONone, ONone, OReg reg1, OReg reg2, Int32 mul
  | ONone, ONone, OReg reg1, OReg reg2, Int64 mul =>
      r1 ← reg_to_str reg1;
      if decide (mul = 0) then Ret ("[" +:+ r1 +:+ "]")
      else r2 ← reg_to_str reg2; Ret ("[" +:+ r1 +:+ "," +:+ r2 +:+ "," +:+ signed mul +:+ "]")
  | ONone, ONone, OReg reg1, OReg reg2, ONone =>
      r1 ← reg_to_str reg1; r2 ← reg_to_str reg2; Ret ("[" +:+ r1 +:+ "," +:+ r2 +:+ "]")
  | Label lbl, ONone, OReg reg1, ONone, ONone =>
      r1 ← reg_to_str reg1; Ret ("[" +:+ r1 +:+ " + " +:+ lbl +:+ "]")
  | ONone, Int32 imm, OReg reg1, OReg reg2, ONone =>
      r1 ← reg_to_str reg1;
      r2 ← reg_to_str reg2;
      Ret (if decide (imm = 0) then "[" +:+ r1 +:+ "," +:+ r2 +:+ "]"
           else "[" +:+ r1 +:+ "," +:+ r2 +:+ "," +:+ signed imm +:+ "]")
  | OReg reg, ONone, ONone, ONone, ONone => r ← reg_to_str reg; Ret ("[" +:+ r +:+ "]")
  | _, _, _, _, _ => Panic
  end.

(** [operands[i..i + 6]] *)
Definition slice6 {A} (l : list A) (i : nat) : comp (list A) :=
  if decide (i + 6 ≤ length l)%nat then Ret (take 6 (drop i l)) else Panic.

(** [while i < operands.len()] from [i]; an operand is visited at most once. *)
(* [codegen/isa/ola/asm/mod.rs | 408-431 | print_function] *)
Fixpoint print_operands (fuel : nat) (fn_idx : nat) (os : list Operand) (i : nat) : comp string :=
  match os !! i with
  | None => Ret ""
  | Some operand =>
      match fuel with
      | O => OutOfFuel
      | S fuel =>
          if implicit operand then print_operands fuel fn_idx os (S i)
          else
            '(s, i) ← (if decide (data operand = MemStart) then
                         args ← slice6 os (S i);
                         s ← mem_op args;
                         Ret (s, (i + 6)%nat)
                       else
                         s ← write_operand (data operand) fn_idx;
                         Ret (s, i));
            rest ← print_operands fuel fn_idx os (S i);
            Ret (s +:+ (if decide (i < length os - 1)%nat then " " else "") +:+ rest)
      end
  end.

Definition newline : string := "
".

(** [mstore r9 r9], which the prologue wrote before slots had addresses. *)
(* [codegen/isa/ola/asm/mod.rs | 377-384 | print_function] *)
Definition stores_fp (i : InstructionData) : comp bool :=
  if decide (opcode i = MSTOREr) then
    o0 ← arg_data (operands i) 0;
    if decide (o0 = OReg (mk 0 9)) then
      o1 ← arg_data (operands i) 1;
      Ret (bool_decide (o1 = OReg (mk 0 9)))
    else Ret false
  else Ret false.

(** One instruction: the text, and the prophets so far. *)
(* [codegen/isa/ola/asm/mod.rs | 375-433 | print_function] *)
Definition print_inst (name : string) (fn_idx : nat) (acc : string * nat * list Prophet) (i : InstructionData)
    : comp (string * nat * list Prophet) :=
  let '(code, prophet_index, ps) := acc in
  fp ← stores_fp i;
  if (fp : bool) then Ret (code +:+ "  mstore [r9,-2] r9" +:+ newline, prophet_index, ps)
  else if decide (opcode i = PROPHET) then
    o ← arg_data (operands i) 1;
    callee ← write_operand o fn_idx;
    code ← (if decide (callee = "prophet_printf") then Ret (code +:+ ".PROPHET" +:+ pretty fn_idx +:+ "_" +:+ pretty prophet_index +:+ ":" +:+ newline)
            else
              _ ← assert_c (bool_decide (length (operands i) = 2%nat));
              Ret (code +:+ ".PROPHET" +:+ pretty fn_idx +:+ "_" +:+ pretty prophet_index +:+ ":" +:+ newline
                   +:+ "  mov r0 psp" +:+ newline +:+ "  mload r0 [r0]" +:+ newline));
    p ← from_prophet callee fn_idx prophet_index;
    Ret (code, S prophet_index, (ps ++ [p])%list)
  else
    head ← (if decide (opcode i = RET) then
              Ret (if decide (name = "main" ∨ name = "call") then "  end" else "  ret")
            else o ← opcode_str (opcode i); Ret ("  " +:+ o +:+ " "));
    ops ← print_operands (length (operands i)) fn_idx (operands i) 0;
    Ret (code +:+ head +:+ ops +:+ newline, prophet_index, ps).

(** [name] is the name of the IR function. *)
(* [codegen/isa/ola/asm/mod.rs | pub fn print_function] *)
Definition print_function (name : string) (f : Func.Function) (fn_idx : nat) (ps : list Prophet)
    : comp (string * list Prophet) :=
  if is_declaration f then Ret ("", ps)
  else
    blocks ← Layout.block_iter (layout f);
    '(code, _, ps) ← foldM (λ '(code, k, ps) block,
        last ← Layout.last_inst_of (layout f) block;
        insts ← insts_of_block f block;
        let code := code +:+ ".LBL" +:+ pretty fn_idx +:+ "_" +:+ pretty block +:+ ":" +:+ newline
                    +:+ (match last with Some _ => "" | None => "  ret" +:+ newline end) in
        foldM (print_inst name fn_idx) (code, k, ps) (map (λ p, idata p.2) insts))
      (name +:+ ":" +:+ newline, 0%nat, ps) blocks;
    Ret (code, ps).

(** The functions of the module in order, each with its IR name. *)
(* [codegen/isa/ola/asm/mod.rs | pub fn print(f] *)
Definition print (m : Pipeline.MachModule) : comp AsmProgram :=
  '(program, ps, _) ← foldM (λ '(program, ps, i) '(ir, func),
      '(s, ps) ← print_function (IrFunc.fname ir) func i ps;
      Ret (program +:+ s, ps, S i))
    ("", [], 0%nat) (zip (Pipeline.m_ir m) (Pipeline.functions m));
  Ret {| program := program; prophets := ps |}.
End Print.
End Asm.
