(* ===== verification/LowerFacts.v ===== *)
(** What instruction selection keeps: whatever IR it is given, the code that it
    selects mentions only virtual registers, slots and blocks that exist, its
    instructions carry the block they are for, and the machine function is left
    alone but for new registers and slots.  A triple [ok] states this of one
    action; the tactic [ok_steps] follows the code of an action. *)
From S2P Require Import Prelude LinkedLayout IrTypes IrValues Machine MFunction Ir.
From S2P Require Import LowerCtx LowerInst LowerCall LowerMem Lower.

Module LowerFacts.
Import Reg Inst Lowering LowerInst LowerCall LowerMem Lower.

(** How many virtual registers and slots there are. *)
Definition bound : Type := nat * nat.
Definition below (n n' : bound) : Prop := (n.1 ≤ n'.1)%nat ∧ (n.2 ≤ n'.2)%nat.
Definition bound_of (c : Ctx) : bound := (cur (Data.vregs (mach_data c)), length (Slots.arena (slots c))).

#[export] Instance below_preorder : PreOrder below.
Proof. split; unfold below; [intros ?; lia|intros ???; lia]. Qed.

Section Facts.
(** The number of blocks of the machine function. *)
Context (nb : nat).

Definition operand_ok (n : bound) (d : OperandData) : Prop :=
  match d with
  | OVReg v => (v < n.1)%nat
  | OSlot s => (s < n.2)%nat
  | OBlock b => (b < nb)%nat
  | _ => True
  end.
Definition operands_ok (n : bound) (os : list Operand) : Prop := Forall (λ o, operand_ok n (Inst.data o)) os.
Definition vregs_in (n : bound) (vs : list VReg) : Prop := Forall (λ v, (v < n.1)%nat) vs.

Lemma operand_ok_mono n n' d : below n n' → operand_ok n d → operand_ok n' d.
Proof. unfold below. destruct d; cbn; lia || done. Qed.
Lemma operands_ok_mono n n' os : below n n' → operands_ok n os → operands_ok n' os.
Proof. intros Hb H. eapply Forall_impl; [exact H|]. intros o. by apply operand_ok_mono. Qed.
Lemma vregs_in_mono n n' vs : below n n' → vregs_in n vs → vregs_in n' vs.
Proof. intros Hb H. eapply Forall_impl; [exact H|]. unfold below in Hb. cbn. lia. Qed.

(** An instruction selected for the block [b]. *)
Definition inst_ok (n : bound) (b : nat) (i : Inst.Instruction) : Prop :=
  Inst.parent i = b ∧ operands_ok n (operands (idata i)).

Record ctx_ok (c : Ctx) : Prop := {
  c_vregs : ∀ v, (v < (bound_of c).1)%nat ↔ is_Some (vmap (Data.vregs (mach_data c)) !! v);
  c_outputs : ∀ i vs, inst_id_to_vreg c !! i = Some vs → vregs_in (bound_of c) vs;
  c_args : ∀ i vs, arg_idx_to_vreg c !! i = Some vs → vregs_in (bound_of c) vs;
  c_slots : ∀ i s, inst_id_to_slot_id c !! i = Some s → (s < (bound_of c).2)%nat;
  c_blocks : ∀ b x, block_map c !! b = Some x → (x < nb)%nat;
  c_code : ∀ b, block_map c !! cur_block c = Some b → Forall (inst_ok (bound_of c) b) (inst_seq c);
  c_block : inst_seq c ≠ [] → is_Some (block_map c !! cur_block c);
}.

(** What a step leaves alone. *)
Record same_frame (c c' : Ctx) : Prop := {
  s_ir : ir_data c' = ir_data c;
  s_insts : Data.instructions (mach_data c') = Data.instructions (mach_data c);
  s_blocks : Data.basic_blocks (mach_data c') = Data.basic_blocks (mach_data c);
  s_users : Data.vreg_users (mach_data c') = Data.vreg_users (mach_data c);
  s_map : block_map c' = block_map c;
  s_cc : call_conv c' = call_conv c;
  s_cur : cur_block c' = cur_block c;
}.

#[local] Instance same_frame_preorder : PreOrder same_frame.
Proof. split; [by split|]. intros x y z [] []. split; congruence. Qed.

(** From a context with at least [n], [m] keeps the invariant and its result
    is as [Q] says. *)
Definition ok {A} (n : bound) (m : M A) (Q : bound → A → Prop) : Prop :=
  ∀ c a c', ctx_ok c → below n (bound_of c) → m c = Ret (Some (a, c')) →
    ctx_ok c' ∧ same_frame c c' ∧ below (bound_of c) (bound_of c') ∧ Q (bound_of c') a.

Lemma ok_bind {A B} n (m : M A) (f : A → M B) Q R :
  ok n m Q → (∀ n' a, below n n' → Q n' a → ok n' (f a) R) → ok n (m ≫= f) R.
Proof.
  intros Hm Hf c b c' Hc Hn H. unfold mbind, M_bind in H.
  destruct (m c) as [[[a c1]|]| |] eqn:E; try done.
  destruct (Hm _ _ _ Hc Hn E) as (Hc1 & Hs1 & Hn1 & Ha).
  destruct (Hf (bound_of c1) a) with (c := c1) (a := b) (c' := c') as (Hc2 & Hs2 & Hn2 & Hb);
    [by etrans|done|done|done|done|]. split_and!; [done|by etrans|by etrans|done].
Qed.

Lemma ok_ret {A} n (a : A) Q : (∀ n', below n n' → Q n' a) → ok n (mret a) Q.
Proof. intros HQ c ? ? Hc Hn [= <- <-]. split_and!; [done|done|done|by apply HQ]. Qed.

Lemma ok_weaken {A} n (m : M A) (Q Q' : bound → A → Prop) :
  ok n m Q → (∀ n' a, below n n' → Q n' a → Q' n' a) → ok n m Q'.
Proof.
  intros Hm HQ c a c' Hc Hn H. destruct (Hm _ _ _ Hc Hn H) as (? & ? & ? & ?).
  split_and!; try done. apply HQ; [by etrans|done].
Qed.

Lemma ok_todo {A} n Q : ok n (@todo A) Q.
Proof. by intros c a c' _ _ [=]. Qed.
Lemma ok_panic {A} n Q : ok n (@panic A) Q.
Proof. by intros c a c' _ _ [=]. Qed.

Lemma ok_lift {A} n (m : comp A) : ok n (lift m) (λ _ a, m = Ret a).
Proof.
  intros c a c' Hc Hn H. unfold lift in H. apply bind_Ret in H as (x & Hx & [= -> ->]).
  by split_and!.
Qed.
Lemma ok_gets {A} n (f : Ctx → A) : ok n (gets f) (λ _ _, True).
Proof. intros c a c' Hc Hn [= <- <-]. by split_and!. Qed.
Lemma ok_outputs n : ok n (gets inst_id_to_vreg) (λ n m, ∀ i vs, m !! i = Some vs → vregs_in n vs).
Proof. intros c a c' Hc Hn [= <- <-]. split_and!; [done..|]. by apply c_outputs. Qed.
Lemma ok_slot_ids n : ok n (gets inst_id_to_slot_id) (λ n m, ∀ i s, m !! i = Some s → (s < n.2)%nat).
Proof. intros c a c' Hc Hn [= <- <-]. split_and!; [done..|]. by apply c_slots. Qed.
Lemma ok_assert n b : ok n (assert_ b) (λ _ _, b = true).
Proof. eapply ok_weaken; [apply ok_lift|]. by destruct b. Qed.
Lemma ok_nth {A} n (l : list A) i : ok n (nth l i) (λ _ a, l !! i = Some a).
Proof. eapply ok_weaken; [apply ok_lift|]. intros n' a _ H. by apply unwrap_Ret. Qed.

Lemma ok_for_each {A} n (l : list A) f :
  (∀ n' a, below n n' → a ∈ l → ok n' (f a) (λ _ _, True)) → ok n (for_each l f) (λ _ _, True).
Proof.
  revert n. induction l as [|a l IH]; intros n Hf; cbn; [by apply ok_ret|].
  eapply ok_bind; [apply Hf; [done|by left]|]. intros n' [] Hn _. apply IH.
  intros n'' b Hn'' Hb. apply Hf; [by etrans|by right].
Qed.

Lemma ok_map_each {A B} n (l : list A) (f : A → M B) (Q : bound → B → Prop) :
  (∀ n n' b, below n n' → Q n b → Q n' b) →
  (∀ n' a, below n n' → a ∈ l → ok n' (f a) Q) → ok n (map_each l f) (λ n, Forall (Q n)).
Proof.
  intros HQ. revert n. induction l as [|a l IH]; intros n Hf; cbn; [apply ok_ret; constructor|].
  eapply ok_bind; [apply Hf; [done|by left]|]. intros n1 b Hn1 Hb.
  eapply ok_bind; [apply IH; intros n2 a' Hn2 Ha'; apply Hf; [by etrans|by right]|].
  intros n2 bs Hn2 Hbs. apply ok_ret. intros n3 Hn3.
  constructor; [eapply HQ; [|exact Hb]; by etrans|]. eapply Forall_impl; [exact Hbs|]. intros x. by apply HQ.
Qed.

Lemma inst_ok_mono n n' b i : below n n' → inst_ok n b i → inst_ok n' b i.
Proof. intros Hn [? ?]. split; [done|]. by eapply operands_ok_mono. Qed.

Lemma insts_ok_mono n n' b l : below n n' → Forall (inst_ok n b) l → Forall (inst_ok n' b) l.
Proof. intros Hn H. eapply Forall_impl; [exact H|]. intros i. by apply inst_ok_mono. Qed.

(** ** The primitive steps *)

Lemma ok_mach_block n b : ok n (mach_block b) (λ _ x, (x < nb)%nat).
Proof.
  intros c x c' Hc Hn H. unfold mach_block, mbind, M_bind, gets, lift in H. cbn in H.
  destruct (block_map c !! b) as [y|] eqn:Hb; [|done]. injection H as -> <-.
  split_and!; [done..|]. by eapply c_blocks.
Qed.

Lemma ok_push n o ops : operands_ok n ops → ok n (push o ops) (λ _ _, True).
Proof.
  intros Hops c [] c' Hc Hn H. unfold push, mach_block, mbind, M_bind, gets, lift, modify in H. cbn in H.
  destruct (block_map c !! cur_block c) as [b|] eqn:Hb; [|done]. injection H as <-.
  split_and!; [|done|done|done]. destruct Hc; split; cbn; try done.
  intros b' Hb'. simplify_eq. apply Forall_app. split; [by apply c_code0|].
  constructor; [|constructor]. split; [done|]. eapply operands_ok_mono; [|exact Hops]. done.
Qed.

Lemma ok_add_vreg n ty : ok n (add_vreg ty) (λ n v, (v < n.1)%nat).
Proof.
  intros c v c' Hc Hn H. unfold add_vreg, mbind, M_bind, gets, lift, modify in H. cbn in H.
  unfold add_vreg_data in H. destruct (u32 _); [|done..]. cbn in H. injection H as <- <-.
  pose proof (c_vregs _ Hc) as Hv. unfold bound_of in *. destruct Hc; cbn in *.
  split_and!; [|done|split; cbn; lia|cbn; lia]. split; cbn; try done.
  - intros v. rewrite lookup_insert_is_Some, <-Hv. lia.
  - intros i vs Hi%c_outputs0. eapply vregs_in_mono; [|exact Hi]. split; cbn; lia.
  - intros i vs Hi%c_args0. eapply vregs_in_mono; [|exact Hi]. split; cbn; lia.
  - intros b Hb%c_code0. eapply insts_ok_mono; [|exact Hb]. split; cbn; lia.
Qed.

Lemma ok_set_output n i vs : vregs_in n vs → ok n (set_output_for_inst i vs) (λ _ _, True).
Proof.
  intros Hvs c [] c' Hc Hn [= <-]. split_and!; [|done|done|done]. destruct Hc; split; cbn; try done.
  intros j ws. rewrite lookup_insert_Some. intros [[_ <-]|[_ Hj]]; [by eapply vregs_in_mono|by eapply c_outputs0].
Qed.

Lemma ok_mark n i : ok n (mark_as_merged i) (λ _ _, True).
Proof. intros c [] c' Hc Hn [= <-]. split_and!; [|done|done|done]. by destruct Hc; split. Qed.

Lemma ok_set_types n tb : ok n (modify (set_types tb)) (λ _ _, True).
Proof. intros c [] c' Hc Hn [= <-]. split_and!; [|done|done|done]. by destruct Hc; split. Qed.

Lemma ok_set_args n k vs :
  vregs_in n vs → ok n (modify (λ c, set_arg_idx_to_vreg (<[k := vs]> (arg_idx_to_vreg c)) c)) (λ _ _, True).
Proof.
  intros Hvs c [] c' Hc Hn [= <-]. split_and!; [|done|done|done]. destruct Hc; split; cbn; try done.
  intros j ws. rewrite lookup_insert_Some. intros [[_ <-]|[_ Hj]]; [by eapply vregs_in_mono|by eapply c_args0].
Qed.


Lemma ok_add_slot n i ty size_ align_ (m : gmap nat nat) :
  (∀ j s, m !! j = Some s → (s < n.2)%nat) →
  ok n (ss ← gets slots;
        let '(ss, slot) := Slots.add_slot ss ty size_ align_ in
        modify (set_slots ss (<[i := slot]> m))) (λ _ _, True).
Proof.
  intros Hm c [] c' Hc [Hn1 Hn2] [= <-]. unfold bound_of in *.
  destruct Hc; cbn in *. rewrite length_app; cbn.
  split_and!; [|done|split; cbn; lia|done]. split; cbn; try done; rewrite ?length_app; cbn.
  - intros j s. rewrite lookup_insert_Some. intros [[_ <-]|[_ Hj%Hm]]; lia.
  - intros b Hb%c_code0. eapply insts_ok_mono; [|exact Hb]. split; cbn; rewrite ?length_app; cbn; lia.
Qed.

Lemma default_vregs n (o : option (list VReg)) :
  (∀ vs, o = Some vs → vregs_in n vs) → vregs_in n (default [] o).
Proof. intros Ho. destruct o; [by apply Ho|constructor]. Qed.

Lemma vregs_in_app n l k : vregs_in n l → vregs_in n k → vregs_in n (l ++ k).
Proof. intros. by apply Forall_app. Qed.

Lemma ok_vregs {A} n (l : list A) (f : A → M VReg) :
  (∀ n' a, below n n' → a ∈ l → ok n' (f a) (λ n v, (v < n.1)%nat)) →
  ok n (map_each l f) (λ n vs, vregs_in n vs).
Proof. apply ok_map_each. intros n1 n2 v [] ?. lia. Qed.

Lemma ok_operands {A} n (l : list A) (f : A → M OperandData) :
  (∀ n' a, below n n' → a ∈ l → ok n' (f a) operand_ok) →
  ok n (map_each l f) (λ n, Forall (operand_ok n)).
Proof. apply ok_map_each. intros n1 n2 v. apply operand_ok_mono. Qed.

Lemma ok_operand_lists {A} n (l : list A) (f : A → M (list Operand)) :
  (∀ n' a, below n n' → a ∈ l → ok n' (f a) operands_ok) →
  ok n (map_each l f) (λ n, Forall (operands_ok n)).
Proof. apply ok_map_each. intros n1 n2 v. apply operands_ok_mono. Qed.

Lemma ok_operand_list {A} n (l : list A) (f : A → M Operand) :
  (∀ n' a, below n n' → a ∈ l → ok n' (f a) (λ n o, operand_ok n (Inst.data o))) →
  ok n (map_each l f) operands_ok.
Proof. apply ok_map_each. intros n1 n2 v. apply operand_ok_mono. Qed.

Lemma operands_cons n o os : operand_ok n (Inst.data o) → operands_ok n os → operands_ok n (o :: os).
Proof. by constructor. Qed.

Lemma operands_app n os os' : operands_ok n os → operands_ok n os' → operands_ok n (os ++ os').
Proof. intros. by apply Forall_app. Qed.

(** The indices of an address. *)
Definition indices_ok (n : bound) (l : list (Z * OperandData)) : Prop := Forall (λ p, operand_ok n p.2) l.

Lemma indices_cons n z d l : operand_ok n d → indices_ok n l → indices_ok n ((z, d) :: l).
Proof. by constructor. Qed.
Lemma indices_app n l k : indices_ok n l → indices_ok n k → indices_ok n (l ++ k).
Proof. intros. by apply Forall_app. Qed.
Lemma indices_mono n n' l : below n n' → indices_ok n l → indices_ok n' l.
Proof. intros Hn H. eapply Forall_impl; [exact H|]. intros d. by apply operand_ok_mono. Qed.

Lemma indices_elem n l p : indices_ok n l → p ∈ l → operand_ok n p.2.
Proof. intros H Hp. by apply (proj1 (Forall_forall _ _) H p). Qed.

Lemma operands_mem7 n a slot off base idx mul :
  operand_ok n a → operand_ok n slot → operand_ok n off → operand_ok n base → operand_ok n idx →
  operand_ok n mul → operands_ok n (mem7 a slot off base idx mul).
Proof. intros. repeat (apply Forall_cons; split); try done. Qed.

Lemma operands_offset n mem d :
  operands_ok n mem → operand_ok n d → operands_ok n (set_offset mem d).
Proof. intros. by apply Forall_insert. Qed.

Definition place_ok (n : bound) (p : place) : Prop :=
  match p with AtSlot s => (s < n.2)%nat | AtVRegs vs => vregs_in n vs | AtGlobal _ => True end.

Lemma ok_map_any {A B} n (l : list A) (f : A → M B) :
  (∀ n' a, below n n' → a ∈ l → ok n' (f a) (λ _ _, True)) → ok n (map_each l f) (λ _ _, True).
Proof. intros Hf. eapply ok_weaken; [by eapply (ok_map_each n l f (λ _ _, True))|done]. Qed.

Lemma operands_concat n n' ls : below n n' → Forall (operands_ok n) ls → operands_ok n' (concat ls).
Proof.
  intros Hn H. induction H as [|l ls Hl _ IH]; [constructor|]. apply Forall_app.
  split; [by eapply operands_ok_mono|done].
Qed.

Lemma operand_list_mono n n' l : below n n' → Forall (operand_ok n) l → Forall (operand_ok n') l.
Proof. intros Hn H. eapply Forall_impl; [exact H|]. intros d. by apply operand_ok_mono. Qed.

Lemma vregs_operands n vs : vregs_in n vs → Forall (operand_ok n) (map OVReg vs).
Proof. intros H. apply Forall_map. eapply Forall_impl; [exact H|done]. Qed.

End Facts.

(** ** Automation *)

Create HintDb low.
#[export] Hint Resolve ok_todo ok_panic ok_lift ok_outputs ok_slot_ids ok_assert ok_nth ok_mach_block
  ok_add_vreg ok_mark ok_set_types : low.

(** Facts about the bounds, for [lia]. *)
Ltac ok_facts :=
  repeat match goal with
  | H : below _ _ |- _ => destruct H
  | H : _ ∧ _ |- _ => destruct H
  | H : context [(_, _).1] |- _ => progress cbn [fst snd] in H
  | H : context [(_, _).2] |- _ => progress cbn [fst snd] in H
  | x : unit |- _ => destruct x
  | H : indices_ok ?nb ?n ?l, H' : ?p ∈ ?l |- _ =>
      apply (indices_elem nb n l p H) in H'; destruct p; cbn [snd] in H'
  | H : unwrap _ = Ret _ |- _ => apply unwrap_Ret in H
  | H : place_ok _ (AtSlot _) |- _ => red in H
  | H : place_ok _ (AtVRegs _) |- _ => red in H
  | H : operand_ok _ _ (default _ (Some _)) |- _ => cbn in H
  | H : ∀ i vs, ?m !! i = Some vs → @?P i vs, H' : ?m !! _ = Some ?vs |- _ =>
      lazymatch goal with
      | _ : vregs_in _ vs |- _ => fail
      | _ : (vs < _)%nat |- _ => fail
      | _ => let F := fresh in pose proof (H _ _ H') as F; cbv beta in F
      end
  | H : vregs_in ?n ?l, H' : ?l !! ?k = Some ?v |- _ =>
      lazymatch goal with
      | _ : (v < n.1)%nat |- _ => fail
      | _ => assert (v < n.1)%nat by exact (Forall_lookup_1 _ _ _ _ H H')
      end
  | H : Forall ?P ?l, H' : ?l !! ?k = Some ?v |- _ =>
      lazymatch P with
      | operand_ok ?nb ?n =>
        lazymatch goal with
        | _ : operand_ok _ n v |- _ => fail
        | _ => assert (operand_ok nb n v) by exact (Forall_lookup_1 _ _ _ _ H H')
        end
      end
  end.

(** What registers, operands and lists of them must satisfy. *)
Ltac ok_side :=
  ok_facts;
  solve [ repeat first
    [ exact I
    | progress (intros; cbv beta in *; ok_facts)
    | progress cbv beta
    | match goal with
      | |- context [fst (_, _)] => progress cbn [fst snd]
      | |- _ ∧ _ => cbn [fst snd]; split
      | |- below _ _ => split; lia
      | |- (_ < _)%nat => cbn in *; lia
      | |- operands_ok _ _ (_ ++ _) => apply operands_app
      | |- operands_ok _ _ (_ :: _) => apply operands_cons
      | |- operands_ok _ _ [] => constructor
      | |- vregs_in _ (_ :: _) => constructor
      | |- vregs_in _ [] => constructor
      | |- operands_ok _ _ (mem7 _ _ _ _ _ _) => apply operands_mem7
      | |- operands_ok _ _ (set_offset _ _) => apply operands_offset
      | |- place_ok _ (AtSlot _) => red
      | |- place_ok _ (AtVRegs _) => red
      | |- indices_ok _ _ (match ?x with _ => _ end) => destruct x
      | |- indices_ok _ _ (_ :: _) => apply indices_cons
      | |- indices_ok _ _ (_ ++ _) => apply indices_app
      | |- indices_ok _ _ [] => constructor
      | H : indices_ok _ ?n ?l |- indices_ok _ _ ?l => eapply indices_mono; [|exact H]
      | |- Forall _ (map OVReg _) => apply vregs_operands
      | |- Forall _ (replicate _ _) => apply Forall_replicate
      | |- vregs_in _ (_ ++ _) => apply vregs_in_app
      | |- Forall _ (_ :: _) => constructor
      | |- Forall _ [] => constructor
      | |- operand_ok _ _ (Inst.data _) => cbn [Inst.data op_new op_input op_output op_input_output op_implicit_output]
      | |- operand_ok _ _ (OVReg _) => red
      | |- operand_ok _ _ (OSlot _) => red
      | |- operand_ok _ _ (OBlock _) => red
      | |- operand_ok _ _ (match ?x with _ => _ end) => destruct x
      | |- operand_ok _ _ (_ _) => exact I
      | |- operand_ok _ _ ONone => exact I
      | H : Forall (operand_ok _ ?n) ?l |- Forall (operand_ok _ _) ?l => eapply operand_list_mono; [|exact H]
      | H : operand_ok _ ?n ?d |- operand_ok _ _ ?d => eapply operand_ok_mono; [|exact H]
      | H : vregs_in ?n ?l |- vregs_in _ ?l => eapply vregs_in_mono; [|exact H]
      | H : Forall (operands_ok _ ?n) ?l |- operands_ok _ _ (concat ?l) => eapply operands_concat; [|exact H]
      | H : operands_ok _ ?n ?l |- operands_ok _ _ ?l => eapply operands_ok_mono; [|exact H]
      end ] ].

Ltac ok_split :=
  match goal with
  | |- ok _ _ (match (match ?x with _ => _ end) with _ => _ end) _ => destruct x eqn:?; simplify_eq
  | |- ok _ _ (match ?x with _ => _ end) _ => destruct x eqn:?; simplify_eq
  | |- ok _ _ (let _ := _ in _) _ => cbv zeta
  end.

Ltac ok_call :=
  first [ solve [eauto with low]
        | apply ok_push; ok_side | apply ok_set_output; ok_side | apply ok_set_args; ok_side ].

(** What the result of an inner block should satisfy, by its type. *)
Ltac ok_inner tac :=
  let with_post Q := (eapply (ok_bind _ _ _ _ Q); [solve [tac ()]|intros ? ? ?; intros; cbv beta in *]) in
  match goal with
  | |- ok ?nb _ (mbind (A:=?A) _ _) _ =>
      lazymatch A with
      | OperandData => with_post (operand_ok nb)
      | (OperandData * OperandData)%type => with_post (λ n p, operand_ok nb n p.1 ∧ operand_ok nb n p.2)
      | list OperandData => with_post (λ n, Forall (operand_ok nb n))
      | (list (Z * OperandData) * IrTypes.Type_)%type =>
          with_post (λ n (p : list (Z * OperandData) * IrTypes.Type_), indices_ok nb n p.1)
      | (list nat * list Reg * list Operand)%type =>
          with_post (λ n (p : list nat * list Reg * list Operand), vregs_in n p.1.1 ∧ operands_ok nb n p.2)
      | list (list Operand) => with_post (λ n, Forall (operands_ok nb n))
      | list Operand => with_post (operands_ok nb)
      | list nat => with_post vregs_in
      | nat => first [with_post (λ (n : bound) (v : nat), (v < n.1)%nat)
                     | with_post (λ (_ : bound) (_ : nat), True)]
      | _ => with_post (λ (_ : bound) (_ : A), True)
      end
  end.

(** Follows the code: calls by their triples, in the order they happen. *)
Ltac ok_step :=
  ok_facts;
  match goal with
  | |- ok _ _ (mret _) _ => apply ok_ret; ok_side
  | |- ok _ _ (mbind _ (gets slots)) _ => apply ok_add_slot; ok_side
  | |- ok _ _ panic _ => apply ok_panic
  | |- ok _ _ todo _ => apply ok_todo
  | |- ok _ _ (for_each _ _) _ => apply ok_for_each; intros
  | |- ok _ _ (map_each _ _) (λ n, Forall (operand_ok _ n)) => apply ok_operands; intros
  | |- ok _ _ (map_each _ _) (λ n vs, vregs_in n vs) => apply ok_vregs; intros
  | |- ok _ _ (map_each _ _) (λ n, Forall (operands_ok _ n)) => apply ok_operand_lists; intros
  | |- ok _ _ (map_each _ _) (operands_ok _) => apply ok_operand_list; intros
  | |- ok _ _ (map_each _ _) (λ _ _, True) => apply ok_map_any; intros
  | |- ok _ _ (map_each _ _) vregs_in => apply ok_vregs; intros
  | |- ok _ _ (mbind _ _) _ => eapply ok_bind; [ok_call|intros ? ? ?; intros; cbv beta in *]
  | |- ok _ _ (mbind _ _) _ => eapply ok_bind; [apply ok_gets|intros ? ? ? _]
  | |- ok _ _ (mbind _ _) _ => ok_inner ltac:(fun _ => repeat ok_step)
  | |- ok _ _ _ _ => ok_split
  | |- ok _ _ _ _ => eapply ok_weaken; [ok_call|ok_side]
  end.
Ltac ok_steps := repeat ok_step.

Section Lowering.
Context (nb : nat) (rec : IrInst.Instruction → M unit).
Context (rec_ok : ∀ n inst, ok nb n (rec inst) (λ _ _, True)).
#[local] Hint Resolve rec_ok : low.

Lemma ok_with_types {A} n (f : IrTypes.TypesBase → comp A) : ok nb n (with_types f) (λ _ _, True).
Proof. unfold with_types. ok_steps. Qed.
Lemma ok_value_ref n v : ok nb n (value_ref v) (λ _ _, True).
Proof. unfold value_ref. ok_steps. Qed.
Lemma ok_inst_ref n v : ok nb n (inst_ref v) (λ _ _, True).
Proof. unfold inst_ref. ok_steps. Qed.
#[local] Hint Resolve ok_with_types ok_value_ref ok_inst_ref : low.


Lemma ok_get_size_of n ty : ok nb n (get_size_of ty) (λ _ _, True).
Proof. apply ok_with_types. Qed.
Lemma ok_is_pointer n ty : ok nb n (is_pointer ty) (λ _ _, True).
Proof. apply ok_with_types. Qed.
Lemma ok_is_array n ty : ok nb n (is_array ty) (λ _ _, True).
Proof. apply ok_with_types. Qed.
#[local] Hint Resolve ok_get_size_of ok_is_pointer ok_is_array : low.
Lemma ok_words_of n ty : ok nb n (words_of ty) (λ _ _, True).
Proof. unfold words_of. ok_steps. Qed.
Lemma ok_element n ty : ok nb n (element ty) (λ _ _, True).
Proof. unfold element. ok_steps. Qed.
Lemma ok_pointer_to n ty : ok nb n (pointer_to ty) (λ _ _, True).
Proof. unfold pointer_to. ok_steps. Qed.
Lemma ok_arg_reg n regs i ty : ok nb n (arg_reg regs i ty) (λ _ _, True).
Proof. unfold arg_reg. ok_steps. Qed.
#[local] Hint Resolve ok_words_of ok_element ok_pointer_to ok_arg_reg : low.

Lemma ok_new_empty_inst_output n ty i : ok nb n (new_empty_inst_output ty i) (λ n vs, vregs_in n vs).
Proof. unfold new_empty_inst_output. ok_steps. Qed.
#[local] Hint Resolve ok_new_empty_inst_output : low.
Lemma ok_get_inst_output n ty i : ok nb n (get_inst_output rec ty i) (λ n vs, vregs_in n vs).
Proof. unfold get_inst_output. ok_steps. Qed.
#[local] Hint Resolve ok_get_inst_output : low.





Lemma ok_new_empty_str_inst_output n ty i :
  ok nb n (new_empty_str_inst_output ty i) (λ n vs, vregs_in n vs).
Proof.
  unfold new_empty_str_inst_output. eapply ok_bind; [eauto with low|]. intros n1 m Hn1 Hm.
  pose proof (default_vregs n1 (m !! i) (Hm i)). cbv zeta. ok_steps.
Qed.
#[local] Hint Resolve ok_new_empty_str_inst_output : low.
Lemma ok_get_str_inst_output n ty i : ok nb n (get_str_inst_output rec ty i) (λ n vs, vregs_in n vs).
Proof. unfold get_str_inst_output. ok_steps. Qed.
#[local] Hint Resolve ok_get_str_inst_output : low.

Lemma ok_load_label n v s : (v < n.1)%nat → ok nb n (load_label v s) (λ _ _, True).
Proof. intros Hv. unfold load_label. ok_steps. Qed.

#[local] Hint Extern 1 (ok _ _ (load_label _ _) _) => apply ok_load_label; ok_side : low.


Lemma ok_get_operand_for_const n ty k : ok nb n (get_operand_for_const ty k) (operand_ok nb).
Proof.
  revert n ty. revert k. fix IH 1. intros k n t; destruct k as [| | |[]| | |[|? ? arg]|]; cbn [get_operand_for_const]; ok_steps.
Qed.
#[local] Hint Resolve ok_get_operand_for_const : low.

Lemma ok_arg_vregs n k : ok nb n (arg_vregs k) (λ n vs, vregs_in n vs).
Proof.
  intros c vs c' Hc Hn H. unfold arg_vregs, mbind, M_bind, gets, lift in H. cbn in H.
  destruct (arg_idx_to_vreg c !! k) as [l|] eqn:Hk; [|done]. injection H as <- <-.
  split_and!; [done..|]. by eapply c_args.
Qed.
#[local] Hint Resolve ok_arg_vregs : low.
Lemma ok_get_operand_for_val n ty v : ok nb n (get_operand_for_val rec ty v) (operand_ok nb).
Proof. unfold get_operand_for_val. ok_steps. Qed.
#[local] Hint Resolve ok_get_operand_for_val : low.
Lemma ok_elem_operand n e : ok nb n (elem_operand e) (operand_ok nb).
Proof. unfold elem_operand. ok_steps. Qed.
Lemma ok_get_operands_for_const n k : ok nb n (get_operands_for_const k) (λ n, Forall (operand_ok nb n)).
Proof.
  unfold get_operands_for_const.
  ok_steps; apply ok_elem_operand.
Qed.
#[local] Hint Resolve ok_get_operands_for_const : low.
Lemma ok_get_operands_for_val n ty v : ok nb n (get_operands_for_val rec ty v) (λ n, Forall (operand_ok nb n)).
Proof. unfold get_operands_for_val. ok_steps. Qed.
#[local] Hint Resolve ok_get_operands_for_val : low.
Lemma ok_get_vreg_for_val n ty v : ok nb n (get_vreg_for_val rec ty v) (λ n v, (v < n.1)%nat).
Proof. unfold get_vreg_for_val. ok_steps. Qed.
#[local] Hint Resolve ok_get_vreg_for_val : low.

(** ** Instructions *)

Lemma ok_negate n rhs : operand_ok nb n rhs → ok nb n (negate_into_r7 rhs) (λ _ _, True).
Proof. intros. unfold negate_into_r7. ok_steps. Qed.
#[local] Hint Extern 1 (ok _ _ (negate_into_r7 _) _) => apply ok_negate; ok_side : low.
Lemma ok_bin_inst n i op ty lhs rhs :
  (lhs < n.1)%nat → operand_ok nb n rhs → ok nb n (bin_inst i op ty lhs rhs) (λ _ _, True).
Proof. intros. unfold bin_inst. ok_steps. Qed.
#[local] Hint Extern 1 (ok _ _ (bin_inst _ _ _ _ _) _) => apply ok_bin_inst; ok_side : low.
Lemma ok_lower_bin n i op ty args : ok nb n (lower_bin rec i op ty args) (λ _ _, True).
Proof. unfold lower_bin. ok_steps. Qed.
Lemma ok_lower_itp n i tys arg : ok nb n (lower_itp rec i tys arg) (λ _ _, True).
Proof. unfold lower_itp. ok_steps. Qed.
Lemma ok_lower_alloca n i ty : ok nb n (lower_alloca i ty) (λ _ _, True).
Proof. unfold lower_alloca. ok_steps. Qed.
Lemma ok_lower_phi n i ty args blocks : ok nb n (lower_phi rec i ty args blocks) (λ _ _, True).
Proof. unfold lower_phi. ok_steps. Qed.

Lemma ok_lower_br n b : ok nb n (lower_br b) (λ _ _, True).
Proof. unfold lower_br. ok_steps. Qed.

Lemma ok_compare_imm n ty i c out lhs k : (out < n.1)%nat → (lhs < n.1)%nat → ok nb n (compare_imm ty i c out lhs k) (λ _ _, True).
Proof. intros. unfold compare_imm. ok_steps. Qed.

#[local] Hint Extern 1 (ok _ _ (compare_imm _ _ _ _ _ _) _) => apply ok_compare_imm; ok_side : low.

Lemma ok_compare_reg n ty i c out lhs r : (out < n.1)%nat → (lhs < n.1)%nat → operand_ok nb n r → ok nb n (compare_reg ty i c out lhs r) (λ _ _, True).
Proof. intros. unfold compare_reg. ok_steps. Qed.

#[local] Hint Extern 1 (ok _ _ (compare_reg _ _ _ _ _ _) _) => apply ok_compare_reg; ok_side : low.

Lemma ok_lower_icmp n i c : ok nb n (lower_icmp rec i c) (λ n v, (v < n.1)%nat).
Proof. unfold lower_icmp. ok_steps. Qed.

#[local] Hint Resolve ok_lower_icmp : low.

Lemma ok_is_icmp n v : ok nb n (is_icmp v) (λ _ _, True).
Proof. unfold is_icmp. ok_steps. Qed.

#[local] Hint Resolve ok_is_icmp : low.

Lemma ok_is_cast n v : ok nb n (is_cast v) (λ _ _, True).
Proof. unfold is_cast. ok_steps. Qed.

#[local] Hint Resolve ok_is_cast : low.

Lemma ok_jump_on n out bs : (out < n.1)%nat → ok nb n (jump_on out bs) (λ _ _, True).
Proof. intros. unfold jump_on. ok_steps. Qed.

#[local] Hint Extern 1 (ok _ _ (jump_on _ _) _) => apply ok_jump_on; ok_side : low.

Lemma ok_lower_condbr n arg bs : ok nb n (lower_condbr rec arg bs) (λ _ _, True).
Proof. unfold lower_condbr. ok_steps. Qed.

Lemma ok_lower_switch n tys args bs : ok nb n (lower_switch rec tys args bs) (λ _ _, True).
Proof. unfold lower_switch. ok_steps. Qed.

Lemma ok_lower_zext n i tys arg : ok nb n (lower_zext rec i tys arg) (λ _ _, True).
Proof. unfold lower_zext, zext_icmp. ok_steps. Qed.

Lemma ok_as_index n d : ok nb n (as_index d) (λ _ _, True).
Proof. unfold as_index. ok_steps. Qed.

#[local] Hint Resolve ok_as_index : low.

Lemma ok_move_opcode n o d : ok nb n (move_opcode o d) (λ _ _, True).
Proof. unfold move_opcode. ok_steps. Qed.

#[local] Hint Resolve ok_move_opcode : low.

Lemma ok_lower_extractvalue n i ty args : ok nb n (lower_extractvalue rec i ty args) (λ _ _, True).
Proof. unfold lower_extractvalue. ok_steps. Qed.

Lemma ok_lower_insertvalue n i tys args : ok nb n (lower_insertvalue rec i tys args) (λ _ _, True).
Proof. unfold lower_insertvalue. ok_steps. Qed.


(** ** Calls *)

Lemma ok_passable n ty : ok nb n (passable ty) (λ _ _, True).
Proof. unfold passable. ok_steps. Qed.

#[local] Hint Resolve ok_passable : low.

Lemma ok_copy_arg n regs g k ty : ok nb n (copy_arg regs g k ty) (λ _ _, True).
Proof. unfold copy_arg. ok_steps. Qed.

#[local] Hint Resolve ok_copy_arg : low.

Lemma ok_copy_args n regs g k ps : ok nb n (copy_args regs g k ps) (λ _ _, True).
Proof. revert n g k. induction ps as [|ty ps IH]; intros n g k; cbn [copy_args]; ok_steps. Qed.

#[local] Hint Resolve ok_copy_args : low.

Lemma ok_copy_args_to_vregs n ps : ok nb n (copy_args_to_vregs ps) (λ _ _, True).
Proof. unfold copy_args_to_vregs. ok_steps. Qed.

Lemma ok_pred_usize n k : ok nb n (pred_usize k) (λ _ _, True).
Proof. unfold pred_usize. ok_steps. Qed.

#[local] Hint Resolve ok_pred_usize : low.

Lemma ok_argument_opcode n d : ok nb n (argument_opcode d) (λ _ _, True).
Proof. unfold argument_opcode. ok_steps. Qed.

#[local] Hint Resolve ok_argument_opcode : low.

Lemma ok_pass_arg n regs g ty v : ok nb n (pass_arg rec regs g ty v) (λ _ _, True).
Proof. unfold pass_arg. ok_steps. Qed.

#[local] Hint Resolve ok_pass_arg : low.

Lemma ok_pass_args n regs g l : ok nb n (pass_args rec regs g l) (λ _ _, True).
Proof. revert n g. induction l as [|[ty v] l IH]; intros n g; cbn [pass_args]; ok_steps. Qed.

#[local] Hint Resolve ok_pass_args : low.

Lemma ok_pass_args_to_regs n tys args : ok nb n (pass_args_to_regs rec tys args) (λ _ _, True).
Proof. unfold pass_args_to_regs. ok_steps. Qed.

#[local] Hint Resolve ok_pass_args_to_regs : low.

Lemma ok_call_result n ty : ok nb n (call_result ty) (λ _ _, True).
Proof. unfold call_result. ok_steps. Qed.

#[local] Hint Resolve ok_call_result : low.

Lemma ok_lower_program_call n i name tys args : ok nb n (lower_program_call rec i name tys args) (λ _ _, True).
Proof. unfold lower_program_call. ok_steps. Qed.

#[local] Hint Resolve ok_lower_program_call : low.

Lemma ok_lower_builtin n i name tys args m :
  lower_builtin rec i name tys args = Some m → ok nb n m (λ _ _, True).
Proof. unfold lower_builtin. intros H. repeat case_decide; repeat case_match; simplify_eq; ok_steps. Qed.

Lemma ok_lower_call n i tys args : ok nb n (lower_call rec i tys args) (λ _ _, True).
Proof. unfold lower_call. ok_steps. by eapply ok_lower_builtin. Qed.

Lemma ok_lower_return_value n ty v : ok nb n (lower_return_value rec ty v) (λ _ _, True).
Proof. unfold lower_return_value. ok_steps. Qed.

#[local] Hint Resolve ok_lower_return_value : low.

Lemma ok_lower_return n o : ok nb n (lower_return rec o) (λ _ _, True).
Proof. unfold lower_return. ok_steps. Qed.

(** ** Memory *)

Lemma ok_i64 n z : ok nb n (i64 z) (λ _ _, True).
Proof. unfold i64. ok_steps. Qed.

#[local] Hint Resolve ok_i64 : low.

Lemma ok_i32_ n z : ok nb n (i32_ z) (λ _ _, True).
Proof. unfold i32_. ok_steps. Qed.

#[local] Hint Resolve ok_i32_ : low.

Lemma ok_slot_or_base n i ty v : ok nb n (slot_or_base rec i ty v) (λ n p, operand_ok nb n p.1 ∧ operand_ok nb n p.2).
Proof. unfold slot_or_base. ok_steps. Qed.

#[local] Hint Resolve ok_slot_or_base : low.

Lemma ok_gep_index n t d : operand_ok nb n d → ok nb n (gep_index t d) (λ n p, indices_ok nb n p.1).
Proof. intros. unfold gep_index. ok_steps. Qed.

#[local] Hint Extern 1 (ok _ _ (gep_index _ _) _) => apply ok_gep_index; ok_side : low.

Lemma ok_gep_indices n t l : ok nb n (gep_indices rec t l) (λ n p, indices_ok nb n p.1).
Proof. revert n t. induction l as [|[v ty] l IH]; intros n t; cbn [gep_indices]; ok_steps. Qed.

#[local] Hint Resolve ok_gep_indices : low.

Lemma ok_gep_simple n l :
  indices_ok nb n l → ok nb n (gep_simple l) (λ n o, operand_ok nb n (default ONone o)).
Proof.
  intros H. unfold gep_simple. destruct l as [|[m x] [|]]; [ok_steps| |ok_steps].
  assert (operand_ok nb n x) by exact (indices_elem _ _ _ (m, x) H ltac:(by left)). ok_steps.
Qed.

#[local] Hint Extern 1 (ok _ _ (gep_simple _) _) => apply ok_gep_simple; ok_side : low.

Lemma ok_gep_general n ty out a b l : (out < n.1)%nat → operand_ok nb n a → operand_ok nb n b → indices_ok nb n l → ok nb n (gep_general ty out a b l) (λ _ _, True).
Proof. intros. unfold gep_general. ok_steps. Qed.

#[local] Hint Extern 1 (ok _ _ (gep_general _ _ _ _ _) _) => apply ok_gep_general; ok_side : low.

Lemma ok_lower_gep n i g : ok nb n (lower_gep rec i g) (λ _ _, True).
Proof. unfold lower_gep. ok_steps. Qed.

Lemma ok_load_mem n ty p : place_ok n p → ok nb n (load_mem ty p) (operands_ok nb).
Proof. intros. unfold load_mem. ok_steps. Qed.

#[local] Hint Extern 1 (ok _ _ (load_mem _ _) _) => apply ok_load_mem; ok_side : low.

Lemma ok_load_words n i ty mem : operands_ok nb n mem → ok nb n (load_words i ty mem) (λ _ _, True).
Proof. intros. unfold load_words. ok_steps. Qed.

#[local] Hint Extern 1 (ok _ _ (load_words _ _ _) _) => apply ok_load_words; ok_side : low.

Lemma ok_load_gep_mem n g : ok nb n (load_gep_mem rec g) (operands_ok nb).
Proof. unfold load_gep_mem. ok_steps. Qed.

#[local] Hint Resolve ok_load_gep_mem : low.

Lemma ok_lower_load_gep n i ty g : ok nb n (lower_load_gep rec i ty g) (λ _ _, True).
Proof. unfold lower_load_gep. ok_steps. Qed.

#[local] Hint Resolve ok_lower_load_gep : low.

Lemma ok_lower_load n i tys v : ok nb n (lower_load rec i tys v) (λ _ _, True).
Proof. unfold lower_load. ok_steps. Qed.

Lemma ok_slot_address n v s : (v < n.1)%nat → (s < n.2)%nat → ok nb n (slot_address v s) (λ _ _, True).
Proof. intros. unfold slot_address. ok_steps. Qed.

#[local] Hint Extern 1 (ok _ _ (slot_address _ _) _) => apply ok_slot_address; ok_side : low.

Lemma ok_store_source n ty v : ok nb n (store_source rec ty v) (λ n vs, vregs_in n vs).
Proof. unfold store_source. ok_steps. Qed.

#[local] Hint Resolve ok_store_source : low.

Lemma ok_store_to n ty p vs : place_ok n p → vregs_in n vs → ok nb n (store_to ty p vs) (λ _ _, True).
Proof. intros. unfold store_to. ok_steps. Qed.

#[local] Hint Extern 1 (ok _ _ (store_to _ _ _) _) => apply ok_store_to; ok_side : low.

Lemma ok_store_gep_mem n g : ok nb n (store_gep_mem rec g) (operands_ok nb).
Proof. unfold store_gep_mem. ok_steps. Qed.

#[local] Hint Resolve ok_store_gep_mem : low.

Lemma ok_store_imm n ty mem k : operands_ok nb n mem → operand_ok nb n k → ok nb n (store_imm ty mem k) (λ _ _, True).
Proof. intros. unfold store_imm. ok_steps. Qed.

#[local] Hint Extern 1 (ok _ _ (store_imm _ _ _) _) => apply ok_store_imm; ok_side : low.

Lemma ok_store_gep_source n ty mem v : operands_ok nb n mem → ok nb n (store_gep_source rec ty mem v) (λ _ _, True).
Proof. intros. unfold store_gep_source. ok_steps. Qed.

#[local] Hint Extern 1 (ok _ _ (store_gep_source _ _ _ _) _) => apply ok_store_gep_source; ok_side : low.

Lemma ok_lower_store_gep n ty v g : ok nb n (lower_store_gep rec ty v g) (λ _ _, True).
Proof. unfold lower_store_gep. ok_steps. Qed.

#[local] Hint Resolve ok_lower_store_gep : low.

Lemma ok_lower_store n tys args : ok nb n (lower_store rec tys args) (λ _ _, True).
Proof. unfold lower_store. ok_steps. Qed.

End Lowering.

#[local] Hint Resolve ok_lower_alloca ok_lower_phi ok_lower_load ok_lower_store ok_lower_gep ok_lower_insertvalue
  ok_lower_extractvalue ok_lower_bin ok_lower_itp ok_lower_zext ok_lower_br ok_lower_condbr ok_lower_switch
  ok_lower_call ok_lower_return : low.

(** ** The dispatcher, and a block *)

Lemma ok_lower nb fuel n inst : ok nb n (lower fuel inst) (λ _ _, True).
Proof.
  revert n inst. induction fuel as [|fuel IH]; intros n inst; [by intros c a c' _ _ [=]|].
  cbn [lower]. cbv zeta. unfold id_of. ok_steps.
Qed.
#[local] Hint Resolve ok_lower ok_inst_ref ok_copy_args_to_vregs : low.

Lemma ok_lower_heads nb fuel n l : ok nb n (lower_heads fuel l) (λ _ _, True).
Proof. revert n. induction l as [|i l IH]; intros n; cbn [lower_heads]; ok_steps. Qed.

Lemma ok_skipped nb n b i inst : ok nb n (skipped b i inst) (λ _ _, True).
Proof. unfold skipped. ok_steps. Qed.
#[local] Hint Resolve ok_lower_heads ok_skipped : low.

Lemma ok_lower_body nb fuel n b i : ok nb n (lower_body fuel b i) (λ _ _, True).
Proof. unfold lower_body. ok_steps. Qed.
#[local] Hint Resolve ok_lower_body : low.

Lemma ok_lower_block nb n f entry b l : ok nb n (lower_block f entry b l) (λ _ _, True).
Proof. unfold lower_block. ok_steps. Qed.
End LowerFacts.
