(* ===== verification/CompileFacts.v ===== *)
(** The machine function that a function compiles to: one block per block in
    the same order, with the edges of the IR, the instructions of each block in
    its own list, the table of users exact, and operands that exist. *)
From S2P Require Import Prelude LinkedLayout IrTypes IrValues Machine MFunction Ir.
From S2P Require Import LowerCtx LowerInst LowerCall LowerMem Lower LowerFacts.

Module CompileFacts.
Import Reg Inst LayoutSpec Lowering Lower LowerFacts.

(** [bm] maps the blocks [bs] to their positions. *)
Definition numbers (bs : list nat) (bm : gmap nat nat) : Prop := ∀ b k, bm !! b = Some k ↔ bs !! k = Some b.

Lemma numbers_snoc bs bm b :
  b ∉ bs → numbers bs bm → numbers (bs ++ [b]) (<[b := length bs]> bm).
Proof.
  intros Hb Hn c k. rewrite lookup_insert_Some, (Hn c k), lookup_snoc_Some. split.
  - intros [[-> ->]|[Hne Hk]]; [by right|left]. split; [by eapply lookup_lt_Some|done].
  - intros [[_ Hk]|[-> ->]]; [right|by left]. split; [|done]. intros ->. apply Hb. by eapply list_elem_of_lookup_2.
Qed.

(** [n] blocks in order, all of them empty. *)
Definition empty_blocks (n : nat) : seq_layout := {| order := map (λ k, (k, [])) (seq 0 n); removed := ∅ |}.

Lemma empty_blocks_keys n : (order (empty_blocks n)).*1 = seq 0 n.
Proof. cbn. induction (seq 0 n) as [|x l IH]; cbn; [done|]. by rewrite <-IH at 2. Qed.

Lemma empty_blocks_linked n : linked (empty_blocks n) = [].
Proof. unfold linked; cbn. by induction (seq 0 n). Qed.

Lemma create_blocks_spec bs d L bm :
  NoDup bs → create_blocks bs Data.new Layout.new ∅ = Ret (d, L, bm) →
  rep L (empty_blocks (length bs)) ∧ numbers bs bm
  ∧ d = {| Data.instructions := []; Data.basic_blocks := replicate (length bs) {| Data.preds := []; Data.succs := [] |};
           Data.vregs := Data.vregs Data.new; Data.vreg_users := ∅; Data.used_csr := ∅ |}.
Proof.
  revert d L bm. induction bs as [|b bs IH] using rev_ind; intros d L bm Hn H.
  { injection H as <- <- <-. split_and!; [by apply rep_new| |done]. intros b k. by rewrite lookup_empty. }
  apply NoDup_app in Hn as (Hn & Hb & _). unfold create_blocks in H. rewrite foldM_app in H.
  apply bind_Ret in H as ([[d1 L1] bm1] & H1 & H). destruct (IH _ _ _ Hn H1) as (HR & Hm & ->).
  cbn [foldM Data.create_block Data.basic_blocks] in H.
  destruct (step_refines L1 _ (AppendBlock (length bs)) (empty_blocks (S (length bs))) HR) as (L' & HL & HR').
  { cbn. rewrite decide_False.
    - f_equal. unfold empty_blocks. f_equal. rewrite seq_S, map_app. done.
    - fold (empty_blocks (length bs)). change (map _ _) with (order (empty_blocks (length bs))).
      rewrite empty_blocks_keys. rewrite elem_of_seq. lia. }
  change (Layout.append_block L1 (length bs) = Ret L') in HL.
  rewrite length_replicate, HL in H. cbn in H. injection H as <- <- <-.
  rewrite length_app, Nat.add_1_r; cbn [length]. split_and!; [done| |].
  - apply numbers_snoc; [|done]. intros Hin. apply (Hb b Hin). by left.
  - f_equal. cbn. by rewrite replicate_cons_app.
Qed.

(** ** Edges *)

Lemma map_set_elem (bm : gmap nat nat) ps l l' x :
  foldM (λ l p, x ← unwrap (bm !! p); Ret (IrData.set_insert x l)) l ps = Ret l' →
  x ∈ l' ↔ x ∈ l ∨ ∃ p, p ∈ ps ∧ bm !! p = Some x.
Proof.
  revert l. induction ps as [|p ps IH]; intros l H; cbn in H.
  - injection H as <-. set_solver.
  - apply bind_Ret in H as (l1 & H1 & H). apply bind_Ret in H1 as (y & Hy%unwrap_Ret & [= <-]).
    rewrite (IH _ H). unfold IrData.set_insert. case_decide; set_solver.
Qed.

(** The machine block at [k] has the edges of the IR block [bs !! k]: those
    of [ps] that lead to a block [bs !! x]. *)
Definition image (bs ps : list nat) (l : list nat) : Prop := ∀ x, x ∈ l ↔ ∃ p, p ∈ ps ∧ bs !! x = Some p.

Definition sound (ird : IrData.Data) (bs : list nat) (d : Data.Data) : Prop :=
  length (Data.basic_blocks d) = length bs ∧
  ∀ k mb, Data.basic_blocks d !! k = Some mb → ∀ b, bs !! k = Some b →
    mb = {| Data.preds := []; Data.succs := [] |} ∨
    ∃ bb, IrData.basic_blocks ird !! b = Some bb
      ∧ image bs (IrData.preds bb) (Data.preds mb) ∧ image bs (IrData.succs bb) (Data.succs mb).

Definition edges_of (ird : IrData.Data) (bs : list nat) (d : Data.Data) (b : nat) : Prop :=
  ∃ k mb bb, bs !! k = Some b ∧ Data.basic_blocks d !! k = Some mb ∧ IrData.basic_blocks ird !! b = Some bb
    ∧ image bs (IrData.preds bb) (Data.preds mb) ∧ image bs (IrData.succs bb) (Data.succs mb).

Lemma image_union bs bm ps l l' :
  numbers bs bm → (l = [] ∨ image bs ps l) →
  foldM (λ l p, x ← unwrap (bm !! p); Ret (IrData.set_insert x l)) l ps = Ret l' → image bs ps l'.
Proof.
  intros Hn Hl H x. rewrite (map_set_elem _ _ _ _ x H). setoid_rewrite (Hn _ x).
  destruct Hl as [-> |Hl]; [set_solver|]. rewrite (Hl x). tauto.
Qed.

Lemma link_block_spec ird bs bm d b d' :
  numbers bs bm → NoDup bs → sound ird bs d → link_block ird bm d b = Ret d' →
  sound ird bs d' ∧ edges_of ird bs d' b ∧ (∀ c, edges_of ird bs d c → edges_of ird bs d' c)
  ∧ d' = {| Data.instructions := Data.instructions d; Data.basic_blocks := Data.basic_blocks d';
            Data.vregs := Data.vregs d; Data.vreg_users := Data.vreg_users d; Data.used_csr := Data.used_csr d |}.
Proof.
  intros Hn Hnd [Hlen Hs] H. unfold link_block in H.
  apply bind_Ret in H as (k & Hk%unwrap_Ret & H).
  apply (proj1 (Hn b k)) in Hk. apply bind_Ret in H as (bb & Hbb%unwrap_Ret & H).
  apply bind_Ret in H as (mb & Hmb%unwrap_Ret & H). apply bind_Ret in H as (ps & Hps & H).
  apply bind_Ret in H as (ss & Hss & [= <-]).
  pose proof (lookup_lt_Some _ _ _ Hmb) as Hlt.
  assert (image bs (IrData.preds bb) ps ∧ image bs (IrData.succs bb) ss) as [Hp Hq].
  { destruct (Hs k mb Hmb b Hk) as [-> |(bb' & Hbb' & ? & ?)].
    - split; eapply image_union; eauto.
    - simplify_eq. split; eapply image_union; eauto. }
  split_and!; [split; cbn| | |done].
  - by rewrite length_insert.
  - intros j mj [(-> & <- & _)|[Hne Hj]]%list_lookup_insert_Some c Hc; [|by eapply Hs].
    simplify_eq. right. by exists bb.
  - exists k. eexists _, bb. cbn. by rewrite list_lookup_insert_eq by done.
  - intros c (j & mj & bj & Hj & Hmj & Hbj & H1 & H2). destruct (decide (j = k)) as [->|Hne].
    + simplify_eq. exists k. eexists _, bb. cbn. by rewrite list_lookup_insert_eq by done.
    + exists j, mj, bj. cbn. by rewrite list_lookup_insert_ne by done.
Qed.

Lemma link_blocks_spec ird bs bm l d d' :
  numbers bs bm → NoDup bs → sound ird bs d → foldM (link_block ird bm) d l = Ret d' →
  (∀ b, b ∈ l → edges_of ird bs d' b) ∧ length (Data.basic_blocks d') = length bs
  ∧ d' = {| Data.instructions := Data.instructions d; Data.basic_blocks := Data.basic_blocks d';
            Data.vregs := Data.vregs d; Data.vreg_users := Data.vreg_users d; Data.used_csr := Data.used_csr d |}.
Proof.
  intros Hn Hnd Hs H.
  set (P x := sound ird bs x ∧ x = {| Data.instructions := Data.instructions d; Data.basic_blocks := Data.basic_blocks x;
    Data.vregs := Data.vregs d; Data.vreg_users := Data.vreg_users d; Data.used_csr := Data.used_csr d |}).
  destruct (foldM_each P (λ b x, edges_of ird bs x b) (link_block ird bm) l d d') as ([[? _] ?] & ? & _); [| |exact H|done].
  - intros a b a' _ [Ha Hd] Hb. destruct (link_block_spec _ _ _ _ _ _ Hn Hnd Ha Hb) as (? & ? & ? & Ha').
    split_and!; [|done|done]. split; [done|]. rewrite Ha', Hd. done.
  - split; [done|]. by destruct d.
Qed.

(** ** Instructions *)

(** What the function is while its blocks are compiled: [B] is its layout. *)
Record built (nb : nat) (c : Ctx) (L : Layout.Layout) (B : seq_layout) : Prop := {
  b_rep : rep L B;
  b_keys : (order B).*1 = seq 0 nb;
  b_removed : removed B = ∅;
  b_users : Data.users_ok (mach_data c);
  b_linked : ∀ i, i ∈ linked B ↔ (i < length (Data.instructions (mach_data c)))%nat;
  b_code : ∀ b l i, (b, l) ∈ order B → i ∈ l →
    ∃ inst, Data.instructions (mach_data c) !! i = Some inst ∧ inst_ok nb (bound_of c) b inst;
}.

Definition append_one (b i : nat) (B : seq_layout) : seq_layout :=
  {| order := on_block b (λ l, l ++ [i]) (order B); removed := removed B ∖ {[i]} |}.

Lemma on_block_keys b f (o : list (nat * list nat)) : (on_block b f o).*1 = o.*1.
Proof. unfold on_block. induction o as [|[c l] o IH]; cbn; [done|]. rewrite <-IH. by case_decide. Qed.

Lemma append_one_linked b i B j :
  b ∈ (order B).*1 → j ∈ linked (append_one b i B) ↔ j ∈ linked B ∨ j = i.
Proof.
  unfold linked; cbn. unfold on_block. induction (order B) as [|[c l] o IH]; cbn; [set_solver|].
  case_decide as Hc; cbn; rewrite !elem_of_app.
  - subst. intros _. rewrite list_elem_of_singleton. destruct (decide (b ∈ o.*1)) as [Hb|Hb].
    + rewrite IH by done. tauto.
    + assert (map (λ '(b', is_), if decide (b' = b) then (b', is_ ++ [i]) else (b', is_)) o = o) as ->; [|tauto].
      clear -Hb. induction o as [|[c l] o IH]; cbn in *; [done|]. apply not_elem_of_cons in Hb as [Hc Hb].
      rewrite decide_False by done. by rewrite IH.
  - rewrite elem_of_cons. intros [->|Hb]; [done|]. rewrite IH by done. tauto.
Qed.

Lemma append_one_entry b i B c l j :
  (c, l) ∈ order (append_one b i B) → j ∈ l → (∃ l', (c, l') ∈ order B ∧ j ∈ l') ∨ c = b ∧ j = i.
Proof.
  cbn. unfold on_block. intros ([c' l'] & Heq & Hin)%list_elem_of_fmap Hj.
  case_decide; simplify_eq; [|by eauto].
  apply elem_of_app in Hj as [Hj|Hj]; [by eauto|]. right. set_solver.
Qed.

(** One instruction is created and appended. *)
Lemma append_step nb c L B k inst :
  built nb c L B → (k < nb)%nat → inst_ok nb (bound_of c) k inst →
  ∃ L', Layout.append_inst L (length (Data.instructions (mach_data c))) k = Ret L'
    ∧ built nb (set_mach_data (Data.create_inst (mach_data c) inst).1 c) L'
        (append_one k (length (Data.instructions (mach_data c))) B).
Proof.
  intros [HR Hk Hrm Hu Hlk Hcode] Hlt [Hpar Hops]. set (i := length (Data.instructions (mach_data c))).
  assert (HkB : k ∈ (order B).*1) by (rewrite Hk, elem_of_seq; lia).
  assert (Hi : i ∉ linked B) by (rewrite Hlk; unfold i; lia).
  destruct (step_refines L B (AppendInst i k) (append_one k i B) HR) as (L' & HL & HR').
  { cbn. rewrite decide_False; [done|]. tauto. }
  exists L'. split; [exact HL|].
  destruct (Data.create_inst (mach_data c) inst) as [d' i'] eqn:Hc.
  destruct (Data.create_inst_users _ _ _ _ Hu Hc) as [Hu' _].
  injection Hc as <- <-. split; cbn; try done.
  - by rewrite on_block_keys.
  - rewrite Hrm. set_solver.
  - intros j. fold (append_one k i B). rewrite append_one_linked, Hlk, length_app by done. cbn. unfold i. lia.
  - intros c' l j Hin Hj. destruct (append_one_entry _ _ _ _ _ _ Hin Hj) as [(l' & Hin' & Hj')|[-> ->]].
    + destruct (Hcode _ _ _ Hin' Hj') as (x & Hx & Hok). exists x. split; [|done].
      rewrite lookup_app_l; [done|]. by eapply lookup_lt_Some.
    + eexists. split; [by apply list_lookup_middle|]. by split.
Qed.

(** Only the instructions and their users change. *)
Definition same_but_insts (d d' : Data.Data) : Prop :=
  Data.basic_blocks d' = Data.basic_blocks d ∧ Data.vregs d' = Data.vregs d.

Lemma append_insts_built nb c L B b k l d' L' :
  built nb c L B → block_map c !! b = Some k → (k < nb)%nat → Forall (inst_ok nb (bound_of c) k) l →
  append_insts (block_map c) b l (mach_data c) L = Ret (d', L') →
  (∃ B', built nb (set_mach_data d' c) L' B') ∧ same_but_insts (mach_data c) d'.
Proof.
  intros HB Hb Hlt Hl. revert c L B HB Hb Hl. induction l as [|inst l IH]; intros c L B HB Hb Hl H; cbn in H.
  { injection H as <- <-. split; [|done]. exists B. by destruct c. }
  apply Forall_cons in Hl as [Hinst Hl]. apply bind_Ret in H as ([d1 L1] & H1 & H).
  destruct (append_step _ _ _ _ _ _ HB Hlt Hinst) as (L2 & HL2 & HB2).
  cbn in H1. rewrite Hb in H1. cbn in H1. rewrite HL2 in H1. cbn in H1. injection H1 as <- <-.
  destruct (IH (set_mach_data (Data.create_inst (mach_data c) inst).1 c) _ _ HB2 Hb Hl H) as [HB' HS].
  split; [exact HB'|exact HS].
Qed.

Lemma ctx_ok_at_block nb c b : ctx_ok nb c → ctx_ok nb (at_block c b).
Proof. intros []. by split. Qed.

(** Between blocks: the invariant of the context, and what was compiled. *)
Record between (nb : nat) (c0 c : Ctx) (L : Layout.Layout) : Prop := {
  w_ok : ctx_ok nb (at_block c 0);
  w_built : ∃ B, built nb c L B;
  w_frame : block_map c = block_map c0 ∧ call_conv c = call_conv c0
            ∧ Data.basic_blocks (mach_data c) = Data.basic_blocks (mach_data c0);
}.

Lemma built_mono nb c c' L B :
  built nb c L B → Data.instructions (mach_data c') = Data.instructions (mach_data c) →
  Data.vreg_users (mach_data c') = Data.vreg_users (mach_data c) → below (bound_of c) (bound_of c') →
  built nb c' L B.
Proof.
  intros [HR Hk Hrm [Hu1 Hu2] Hlk Hcode] Hi Hus Hb. split; try done.
  - split; [|by rewrite Hi]. intros v id. specialize (Hu1 v id). unfold Data.expected, Data.recorded in *.
    by rewrite Hi, Hus.
  - by rewrite Hi.
  - intros b l i Hin Hil. destruct (Hcode _ _ _ Hin Hil) as (x & Hx & Hok). exists x.
    rewrite Hi. split; [done|]. by eapply inst_ok_mono.
Qed.

Lemma compile_block_between nb f c0 c L k b r :
  between nb c0 c L → (∀ x, block_map c0 !! b = Some x → (x < nb)%nat) →
  compile_block f (Some (c, L)) (k, b) = Ret r →
  match r with Some (c', L') => between nb c0 c' L' | None => True end.
Proof.
  intros [Hok [B HB] (Hbm & Hcc & Hbb)] Hx H. cbn in H.
  apply bind_Ret in H as (insts & _ & H). apply bind_Ret in H as (o & Hlow & H).
  destruct o as [[[] c1]|]; [|by injection H as <-].
  apply bind_Ret in H as ([d' L'] & Happ & [= <-]).
  destruct (ok_lower_block nb (bound_of c) f _ b insts _ _ _ (ctx_ok_at_block _ _ b Hok) (reflexivity _) Hlow)
    as (Hok1 & HS & Hbelow & _).
  assert (HB1 : built nb c1 L B).
  { eapply built_mono; [exact HB|apply HS|apply HS|exact Hbelow]. }
  assert (Hbm1 : block_map c1 = block_map c0) by (rewrite <-Hbm; apply HS).
  assert (Hcur : cur_block c1 = b) by apply HS.
  assert ((∃ B', built nb (set_mach_data d' c1) L' B') ∧ same_but_insts (mach_data c1) d') as [HB' [Hbb' Hv']].
  { destruct (inst_seq c1) as [|i l] eqn:Hseq.
    - injection Happ as <- <-. split; [|done]. exists B. by destruct c1.
    - destruct (c_block _ _ Hok1) as [k' Hk']; [by rewrite Hseq|]. rewrite Hcur in Hk'.
      eapply append_insts_built; [exact HB1|exact Hk'|apply Hx; by rewrite <-Hbm1| |exact Happ].
      rewrite <-Hseq. apply (c_code _ _ Hok1). by rewrite Hcur. }
  split.
  - assert (Hb : bound_of (at_block (set_mach_data d' c1) 0) = bound_of c1) by (unfold bound_of; cbn; by rewrite Hv').
    destruct Hok1. split; rewrite ?Hb; cbn in *; rewrite ?Hv'; done.
  - exact HB'.
  - cbn. split_and!; [done| |].
    + rewrite <-Hcc. apply HS.
    + rewrite Hbb', <-Hbb. apply HS.
Qed.

Lemma compile_blocks_between nb f c0 c L bs o :
  between nb c0 c L → (∀ b x, block_map c0 !! b = Some x → (x < nb)%nat) →
  foldM (compile_block f) (Some (c, L)) bs = Ret o →
  match o with Some (c', L') => between nb c0 c' L' | None => True end.
Proof.
  intros H Hx. apply (foldM_inv (λ o, match o with Some (c', L') => between nb c0 c' L' | None => True end)); [|done].
  intros [[c1 L1]|] [k b] o' _ H1 Ho; [|by injection Ho as <-].
  eapply compile_block_between; [exact H1|apply Hx|exact Ho].
Qed.

(** ** The theorem *)

(** An operand refers to what the function has. *)
Definition operand_exists (f : Func.Function) (d : OperandData) : Prop :=
  match d with
  | OVReg v => is_Some (vmap (Data.vregs (Func.fdata f)) !! v)
  | OSlot s => is_Some (Slots.arena (Func.slots f) !! s)
  | OBlock b => is_Some (Data.basic_blocks (Func.fdata f) !! b)
  | _ => True
  end.

(** The machine function [mf] laid out as [B] is well formed, and has the
    blocks of [f], laid out as [A], in the same order with the same edges. *)
Record compiled (f : IrFunc.Function) (A : seq_layout) (mf : Func.Function) (B : seq_layout) : Prop := {
  m_rep : rep (Func.layout mf) B;
  m_blocks : (order B).*1 = seq 0 (length (order A));
  m_all : length (Data.basic_blocks (Func.fdata mf)) = length (order A);
  m_edges : ∀ b, b ∈ (order A).*1 → edges_of (IrFunc.data f) (order A).*1 (Func.fdata mf) b;
  m_users : Data.users_ok (Func.fdata mf);
  m_linked : ∀ i, i ∈ linked B ↔ (i < length (Data.instructions (Func.fdata mf)))%nat;
  m_code : ∀ b l i, (b, l) ∈ order B → i ∈ l →
    ∃ inst, Data.instructions (Func.fdata mf) !! i = Some inst ∧ Inst.parent inst = b
      ∧ Forall (λ o, operand_exists mf (Inst.data o)) (operands (idata inst));
}.

(** C10: Whatever instruction selection compiles a laid-out IR function to is
    a well-formed machine function: its layout represents one list of blocks
    in the IR's order with the IR's edges, every instruction of the arena is
    linked exactly once, into the block it names as its parent, the table of
    users is exact, and every virtual register, slot and block that an operand
    mentions exists. *)
Theorem compile_function_wellformed f A mf :
  rep (IrFunc.layout f) A → compile_function f = Ret (Some mf) → ∃ B, compiled f A mf B.
Proof.
  intros HA H. unfold compile_function, IrLayout.block_iter in H. rewrite (rep_block_iter _ _ HA) in H.
  cbn [mbind comp_bind] in H. set (bs := (order A).*1) in *. pose proof (rep_keys _ _ HA) as Hnd.
  assert (Hlen : length bs = length (order A)) by (unfold bs; apply length_fmap).
  apply bind_Ret in H as ([[d L] bm] & H1 & H).
  destruct (create_blocks_spec _ _ _ _ Hnd H1) as (HR & Hbm & ->).
  apply bind_Ret in H as (d2 & H2 & H). apply bind_Ret in H as (o & H3 & H).
  edestruct (link_blocks_spec (IrFunc.data f) bs bm bs) as (Hedges & Hlen2 & Hd2); [exact Hbm|exact Hnd| |exact H2|].
  { split; cbn; [apply length_replicate|]. intros k mb [-> _]%lookup_replicate_1 b Hb. by left. }
  destruct o as [[c' L']|]; [|done]. injection H as <-. cbn in Hd2.
  match type of H3 with foldM _ (Some (?c, _)) _ = _ =>
    eapply (compile_blocks_between (length bs) f c) in H3 end.
  - destruct H3 as [Hok [B HB] (_ & _ & Hbb)]. exists B. destruct HB as [HRB Hk _ Hu Hlk Hcode].
    assert (Hblk : length (Data.basic_blocks (mach_data c')) = length (order A)).
    { rewrite Hbb, <-Hlen. exact Hlen2. }
    split; cbn; try done.
    + by rewrite <-Hlen.
    + intros b Hb. destruct (Hedges b Hb) as (k & mb & bb & He). exists k, mb, bb. by rewrite Hbb.
    + intros b l i Hin Hi. destruct (Hcode _ _ _ Hin Hi) as (inst & Hinst & Hp & Hops).
      exists inst. split_and!; [done|done|]. eapply Forall_impl; [exact Hops|]. intros [[]]; cbn; try done.
      * apply (c_vregs _ _ Hok).
      * apply lookup_lt_is_Some_2.
      * intros Hb. apply lookup_lt_is_Some_2. by rewrite Hblk, <-Hlen.
  - split; cbn; [|eexists|].
    + rewrite Hd2. split; cbn; try done; [split; [lia|]; by intros [x Hx]|].
      intros b x Hbx%Hbm. by eapply lookup_lt_Some.
    + rewrite Hd2. split; cbn; [exact HR|apply empty_blocks_keys|done| | |].
      * split; [|done]. intros v i. done.
      * intros i. rewrite empty_blocks_linked. split; [by intros ?%elem_of_nil|lia].
      * intros b l i (k & [= -> ->] & _)%list_elem_of_fmap Hi. by apply elem_of_nil in Hi.
    + done.
  - cbn. intros b x Hbx%Hbm. by eapply lookup_lt_Some.
Qed.

(** ** An example: [if a > b then a - b else 7] *)

Definition in_block (b : nat) (i : IrInst.Instruction) : IrInst.Instruction :=
  {| IrInst.opcode := IrInst.opcode i; IrInst.operand := IrInst.operand i; IrInst.ty := IrInst.ty i;
     IrInst.dest := IrInst.dest i; IrInst.id := IrInst.id i; IrInst.parent := b;
     IrInst.metadata := IrInst.metadata i |}.
Definition arg64 (k : nat) : IrInst.Value :=
  IrInst.VArgument {| IrInst.nth := k; IrInst.arg_ty := IrTypes.I64; IrInst.arg_name := None |}.
Definition int64 (z : Z) : IrInst.Value := IrInst.VConstant (IrConst.Int (IrConst.Int64 z)).
Definition binary64 (o : IrInst.Opcode) (x y : ValueId) : IrInst.Instruction :=
  IrInst.with_operand (IrInst.IntBinary_ {| IrInst.bin_ty := IrTypes.I64; IrInst.nsw := false; IrInst.nuw := false;
    IrInst.exact_ := false; IrInst.bin_args := (x, y) |}) (IrInst.with_block o 0).
Definition icmp64 (c : IrInst.ICmpCond) (x y : ValueId) : IrInst.Instruction :=
  IrInst.with_operand (IrInst.ICmp_ {| IrInst.icmp_ty := IrTypes.I64; IrInst.icmp_args := (x, y); IrInst.icmp_cond := c |})
    (IrInst.with_block IrInst.OICmp 0).
Definition condbr (v : ValueId) (b1 b2 : nat) : IrInst.Instruction :=
  IrInst.with_operand (IrInst.CondBr_ {| IrInst.condbr_arg := v; IrInst.condbr_blocks := (b1, b2) |})
    (IrInst.with_block IrInst.OCondBr 0).
Definition ret64 (v : ValueId) : IrInst.Instruction :=
  IrInst.with_operand (IrInst.Return_ {| IrInst.ret_ty := IrTypes.I64; IrInst.ret_val := Some v |})
    (IrInst.with_block IrInst.ORet 0).

Definition sample_layout : list LayoutSpec.op :=
  [AppendBlock 0; AppendBlock 1; AppendBlock 2; AppendInst 0 0; AppendInst 1 0; AppendInst 2 1; AppendInst 3 1;
   AppendInst 4 2].
Definition sample_ops : list IrData.op :=
  [IrData.CreateValue (arg64 0); IrData.CreateValue (arg64 1); IrData.CreateInst (icmp64 IrInst.Sgt 0 1);
   IrData.CreateValue (IrInst.VInstruction 0); IrData.CreateInst (condbr 2 1 2);
   IrData.CreateInst (in_block 1 (binary64 IrInst.Sub 0 1)); IrData.CreateValue (IrInst.VInstruction 2);
   IrData.CreateInst (in_block 1 (ret64 3)); IrData.CreateValue (int64 7); IrData.CreateInst (in_block 2 (ret64 4))].

(** The edges are those of the terminators. *)
Definition sample (name : string) : IrFunc.Function :=
  let f := IrFunc.new name IrTypes.I64 [IrFunc.new_parameter IrTypes.I64; IrFunc.new_parameter IrTypes.I64] false
             (IrTypes.new 1) in
  let bb := {| IrData.bb_name := None; IrData.preds := []; IrData.succs := [] |} in
  let d := from_option fst IrData.new (IrData.run_ops IrData.new ∅ sample_ops) in
  match foldM LayoutSpec.step Layout.new sample_layout with
  | Ret L => let f := IrFunc.with_layout L (IrFunc.with_data (IrData.with_blocks [bb; bb; bb] d) f) in
             match IrFunc.set_blocks_info f with Ret d => IrFunc.with_data d f | _ => f end
  | _ => f
  end.

Definition sample_blocks : seq_layout := {| order := [(0, [0; 1]); (1, [2; 3]); (2, [4])]; removed := ∅ |}.

Lemma sample_rep name : rep (IrFunc.layout (sample name)) sample_blocks.
Proof.
  destruct (run_refines sample_layout sample_blocks) as (L & HL & HR); [by vm_compute|].
  unfold sample. rewrite HL. by case_match.
Qed.

Lemma compile_function_wellformed_witness :
  ∃ mf B, compile_function (sample "max") = Ret (Some mf) ∧ rep (IrFunc.layout (sample "max")) sample_blocks
    ∧ compiled (sample "max") sample_blocks mf B.
Proof.
  destruct (compile_function (sample "max")) as [[mf|]| |] eqn:H; [|exfalso; vm_compute in H; discriminate H..].
  destruct (compile_function_wellformed _ _ _ (sample_rep "max") H) as [B HB].
  exists mf, B. split; [reflexivity|]. split; [apply sample_rep|exact HB].
Defined.
End CompileFacts.
