(* ===== verification/LowerSem.v ===== *)
(** The code selected for integer expressions and for conditional branches
    computes what the IR means, on any machine whose instructions behave as
    documented (docs/ola-compiler/compiler-backend.md and the comment at the
    top of codegen/isa/ola/lower/br.rs).  The machine is not part of the
    repository: its field and bit operations are parameters. *)
From S2P Require Import Prelude LinkedLayout IrTypes IrValues Machine MFunction Ir.
From S2P Require Import LowerCtx LowerInst LowerCall LowerMem Lower LowerFacts CompileFacts.
From stdpp Require Import functions.
#[local] Open Scope Z_scope.

Module LowerSem.
Import Reg Inst Lowering LowerInst Lower LowerFacts.

(** ** The machine *)

(** Words are the numbers below a prime [order]; additions and multiplications
    are modulo it. *)
Class Vm := { order : Z; w_not : Z → Z; w_and : Z → Z → Z; w_or : Z → Z → Z; w_xor : Z → Z → Z }.

(** [not] is the complement, and [and] of two truth values is their
    conjunction. *)
Class VmLaws (vm : Vm) : Prop := {
  order_big : 2 < order;
  not_complement x : (w_not x + x + 1) mod order = 0;
  and_truth (a b : bool) : w_and (Z.b2z a) (Z.b2z b) = Z.b2z (a && b);
}.

Record state := { vr : VReg → Z; pr : Reg → Z }.
Inductive outcome := Next (st : state) | Jump (b : nat) | Stuck.

Section Machine.
Context `{vm : Vm}.

Definition read (st : state) (d : OperandData) : Z :=
  match d with
  | OVReg v => vr st v
  | OReg r => pr st r
  | Int8 i | Int32 i | Int64 i => i mod order
  | _ => 0
  end.
Definition write (st : state) (d : OperandData) (w : Z) : outcome :=
  match d with
  | OVReg v => Next {| vr := <[v := w]> (vr st); pr := pr st |}
  | OReg r => Next {| vr := vr st; pr := <[r := w]> (pr st) |}
  | _ => Stuck
  end.

Definition binary (o : Opcode) : option (Z → Z → Z) :=
  match o with
  | ADDri | ADDrr => Some (λ x y, (x + y) mod order)
  | MULri | MULrr => Some (λ x y, (x * y) mod order)
  | ANDri | ANDrr => Some w_and
  | ORri | ORrr => Some w_or
  | XORri | XORrr => Some w_xor
  | EQri | EQrr => Some (λ x y, Z.b2z (x =? y))
  | NEQ => Some (λ x y, Z.b2z (negb (x =? y)))
  | GTE => Some (λ x y, Z.b2z (y <=? x))
  | _ => None
  end.

Definition exec (i : InstructionData) (st : state) : outcome :=
  match opcode i, map Inst.data (operands i) with
  | NOT, [d; a] => write st d (w_not (read st a))
  | (MOVri | MOVrr | MOV), [d; a] => write st d (read st a)
  | CJMPr, [c; OBlock b] => if read st c =? 0 then Next st else Jump b
  | JMPr, [OBlock b] => Jump b
  | o, [d; a; b] => match binary o with Some f => write st d (f (read st a) (read st b)) | None => Stuck end
  | _, _ => Stuck
  end.

Fixpoint run (l : list Inst.Instruction) (st : state) : outcome :=
  match l with
  | [] => Next st
  | i :: l => match exec (idata i) st with Next st => run l st | o => o end
  end.

Lemma run_app l k st : run (l ++ k) st = match run l st with Next st => run k st | o => o end.
Proof.
  revert st. induction l as [|i l IH]; intros st; cbn; [done|]. by destruct (exec (idata i) st).
Qed.

(** ** What IR values mean *)

Context (d : IrData.Data) (cur_b : nat) (nargs : nat) (arg : nat → Z).

Definition binary_ir (o : IrInst.Opcode) : option (Z → Z → Z) :=
  match o with
  | IrInst.Add => Some (λ x y, (x + y) mod order)
  | IrInst.Sub => Some (λ x y, (x - y) mod order)
  | IrInst.Mul => Some (λ x y, (x * y) mod order)
  | IrInst.And => Some w_and
  | IrInst.Or => Some w_or
  | IrInst.Xor => Some w_xor
  | _ => None
  end.

(** [evals n x w]: the expression [x], of size [n], has the value [w].  It is
    made of constants, arguments and binary operations of the block. *)
Inductive evals : nat → IrInst.Value → Z → Prop :=
  | ev_const k : evals 1 (IrInst.VConstant (IrConst.Int (IrConst.Int64 k))) (k mod order)
  | ev_arg a : (IrInst.nth a < nargs)%nat → evals 0 (IrInst.VArgument a) (arg (IrInst.nth a))
  | ev_binary i inst b f x y n m u w :
      IrData.instructions d !! i = Some inst → IrInst.id inst = Some i → IrInst.parent inst = cur_b →
      IrInst.operand inst = IrInst.IntBinary_ b → binary_ir (IrInst.opcode inst) = Some f →
      IrData.values d !! (IrInst.bin_args b).1 = Some x → IrData.values d !! (IrInst.bin_args b).2 = Some y →
      evals n x u → evals m y w → evals (S (n + m)) (IrInst.VInstruction i) (f u w).

Lemma evals_det n x w n' w' : evals n x w → evals n' x w' → n = n' ∧ w = w'.
Proof.
  intros H. revert n' w'.
  induction H as [| |i inst b f x y n m u w Hi Hid Hp Ho Hf Hx Hy _ IH1 _ IH2]; intros n' w' H';
    inversion H' as [| |i' inst' b' f' x' y' n1 m1 u1 w1 Hi' Hid' Hp' Ho' Hf' Hx' Hy' H1 H2]; simplify_eq; try done.
  assert (b' = b) as -> by congruence. simplify_eq.
  destruct (IH1 _ _ H1) as [-> ->], (IH2 _ _ H2) as [-> ->]. by split.
Qed.

(** ** Contexts that agree with a state *)

Context (nb : nat).

(** The registers of the arguments, and of the expressions lowered so far,
    hold their values. *)
Record agrees (c : Ctx) (st : state) : Prop := {
  a_ok : ctx_ok nb c;
  a_ir : ir_data c = d;
  a_cur : cur_block c = cur_b;
  a_block : is_Some (block_map c !! cur_block c);
  a_given : ∀ k, (k < nargs)%nat → is_Some (arg_idx_to_vreg c !! k);
  a_args : ∀ k vs, arg_idx_to_vreg c !! k = Some vs → ∃ v, vs !! 0%nat = Some v ∧ vr st v = arg k;
  a_insts : ∀ i vs n w, inst_id_to_vreg c !! i = Some vs → evals n (IrInst.VInstruction i) w →
    ∃ v, vs !! 0%nat = Some v ∧ vr st v = w;
}.
Definition ncur (c : Ctx) : nat := cur (Data.vregs (mach_data c)).

(** What an action does that selects code for expressions of size at most [n]
    and takes at most [k] registers. *)
Record selects (k n : nat) (c : Ctx) (st : state) (c' : Ctx) (st' : state) : Prop := {
  x_code : ∃ l, inst_seq c' = inst_seq c ++ l ∧ run l st = Next st';
  x_agrees : agrees c' st';
  x_kept : ∀ v, (v < ncur c)%nat → vr st' v = vr st v;
  x_new : (ncur c ≤ ncur c' ≤ ncur c + k)%nat;
  x_args : arg_idx_to_vreg c' = arg_idx_to_vreg c;
  x_map : block_map c' = block_map c;
  x_types : types c' = types c;
  x_regs : ∀ r, r ≠ of_gr R7 → pr st' r = pr st r;
  x_seen : ∀ i, is_Some (inst_id_to_vreg c' !! i) →
    is_Some (inst_id_to_vreg c !! i) ∨ ∃ m w, (m ≤ n)%nat ∧ evals m (IrInst.VInstruction i) w;
}.

Lemma selects_refl n c st : agrees c st → selects 0 n c st c st.
Proof. intros H. split; try done; [exists []; by rewrite app_nil_r|lia|by left]. Qed.

Lemma selects_mono k k' n n' c st c' st' :
  (k ≤ k')%nat → (n ≤ n')%nat → selects k n c st c' st' → selects k' n' c st c' st'.
Proof.
  intros Hk Hn [H1 H2 H3 H4 H5 Hb Ht Hp H6]. split; try done; [lia|].
  intros i [Hi|(m & w & Hm & He)]%H6; [by left|]. right. exists m, w. split; [lia|done].
Qed.

Lemma selects_trans k m n c st c1 st1 c2 st2 :
  selects k n c st c1 st1 → selects m n c1 st1 c2 st2 → selects (k + m) n c st c2 st2.
Proof.
  intros [(l1 & H1 & R1) A1 K1 N1 G1 B1 T1 P1 S1] [(l2 & H2 & R2) A2 K2 N2 G2 B2 T2 P2 S2]. split; try done.
  - exists (l1 ++ l2). split; [by rewrite H2, H1, app_assoc|]. by rewrite run_app, R1.
  - intros v Hv. rewrite K2, K1 by lia. done.
  - lia.
  - congruence.
  - congruence.
  - congruence.
  - intros r Hr. by rewrite P2, P1.
  - intros i [Hi|?]%S2; [by apply S1|by right].
Qed.

(** ** The primitive actions, as equations *)

Definition with_vreg (ty : IrTypes.Type_) (c : Ctx) : Ctx :=
  set_mach_data (Data.with_vregs {| vmap := <[ncur c := ty]> (vmap (Data.vregs (mach_data c))); cur := S (ncur c) |}
    (mach_data c)) c.
Definition with_inst (o : Opcode) (ops : list Operand) (b : nat) (c : Ctx) : Ctx :=
  set_inst_seq (inst_seq c ++ [Inst.new {| opcode := o; operands := ops |} b]) c.
Definition with_output (i : nat) (vs : list VReg) (c : Ctx) : Ctx :=
  set_inst_id_to_vreg (<[i := vs]> (inst_id_to_vreg c)) c.

Lemma bind_eq {A B} (m : M A) (f : A → M B) c a c' :
  m c = Ret (Some (a, c')) → (m ≫= f) c = f a c'.
Proof. intros H. unfold mbind, M_bind. by rewrite H. Qed.

Lemma push_eq o ops b c :
  block_map c !! cur_block c = Some b → push o ops c = Ret (Some (tt, with_inst o ops b c)).
Proof. intros H. unfold push, mach_block, mbind, M_bind, gets, lift, modify. cbn. by rewrite H. Qed.

Lemma add_vreg_eq ty c :
  Z.of_nat (ncur c) < u32_max → add_vreg ty c = Ret (Some (ncur c, with_vreg ty c)).
Proof.
  intros H. unfold add_vreg, mbind, M_bind, gets, lift, modify, add_vreg_data. cbn.
  unfold ncur in H. rewrite u32_in by lia. done.
Qed.

Lemma new_output_eq ty i c :
  inst_id_to_vreg c !! i = None → Z.of_nat (ncur c) < u32_max →
  new_empty_inst_output ty i c = Ret (Some ([ncur c], with_output i [ncur c] (with_vreg ty c))).
Proof.
  intros Hi H. unfold new_empty_inst_output. erewrite bind_eq by done. rewrite Hi.
  erewrite bind_eq by (by apply add_vreg_eq). done.
Qed.

Lemma old_output_eq ty i vs c :
  inst_id_to_vreg c !! i = Some vs → new_empty_inst_output ty i c = Ret (Some (vs, c)).
Proof. intros Hi. unfold new_empty_inst_output. erewrite bind_eq by done. by rewrite Hi. Qed.

Lemma value_ref_eq v x c : IrData.values (ir_data c) !! v = Some x → value_ref v c = Ret (Some (x, c)).
Proof. intros H. unfold value_ref, IrData.value_ref, lift, gets, mbind, M_bind. by rewrite H. Qed.
Lemma inst_ref_eq i x c : IrData.instructions (ir_data c) !! i = Some x → inst_ref i c = Ret (Some (x, c)).
Proof. intros H. unfold inst_ref, IrData.inst_ref, lift, gets, mbind, M_bind. by rewrite H. Qed.
Lemma nth_eq {A} (l : list A) k x c : l !! k = Some x → nth l k c = Ret (Some (x, c)).
Proof. intros H. unfold nth, lift. by rewrite H. Qed.

(** A fresh register written with the value of [i]. *)
Lemma selects_fresh i w n c st c' l st' :
  agrees c st → ctx_ok nb c' → inst_seq c' = inst_seq c ++ l → run l st = Next st' →
  vr st' = <[ncur c := w]> (vr st) → evals n (IrInst.VInstruction i) w →
  ir_data c' = ir_data c → cur_block c' = cur_block c → block_map c' = block_map c →
  arg_idx_to_vreg c' = arg_idx_to_vreg c → types c' = types c → (∀ r, r ≠ of_gr R7 → pr st' r = pr st r) →
  ncur c' = S (ncur c) →
  inst_id_to_vreg c' = <[i := [ncur c]]> (inst_id_to_vreg c) → selects 1 n c st c' st'.
Proof.
  intros [Hok Hir Hcur Hblk Hgiven Hargs Hins] Hok' Hl Hrun Hvr He Hir' Hcur' Hbm Ha Hty Hpr Hn Ho.
  assert (Hold : ∀ v, (v < ncur c)%nat → vr st' v = vr st v).
  { intros v Hv. rewrite Hvr, fn_lookup_insert_ne by lia. done. }
  split; [by exists l| |exact Hold|lia|done|done|done|exact Hpr|].
  - split; [done|congruence|congruence|by rewrite Hbm, Hcur'|by rewrite Ha| |].
    + intros k vs. rewrite Ha. intros Hk. destruct (Hargs _ _ Hk) as (v & Hv & <-). exists v. split; [done|].
      apply Hold. exact (Forall_lookup_1 _ _ _ _ (c_args _ _ Hok _ _ Hk) Hv).
    + intros j vs m x. rewrite Ho, lookup_insert_Some. intros [[-> <-]|[Hne Hj]] Hx.
      * destruct (evals_det _ _ _ _ _ He Hx) as [_ ->]. exists (ncur c). split; [done|].
        by rewrite Hvr, fn_lookup_insert.
      * destruct (Hins _ _ _ _ Hj Hx) as (v & Hv & <-). exists v. split; [done|]. apply Hold.
        exact (Forall_lookup_1 _ _ _ _ (c_outputs _ _ Hok _ _ Hj) Hv).
  - intros j. rewrite Ho, lookup_insert_is_Some. intros [<-|[_ Hj]]; [right|by left]. by exists n, w.
Qed.

(** ** Binary instructions *)

(** An operand that a binary instruction takes. *)
Definition ready (c : Ctx) (x : OperandData) : Prop :=
  (∃ k, x = Int64 k) ∨ ∃ v, x = OVReg v ∧ (v < ncur c)%nat.

Lemma read_ready c st st' x :
  ready c x → (∀ v, (v < ncur c)%nat → vr st' v = vr st v) → read st' x = read st x.
Proof. intros [[k ->]|(v & -> & Hv)] H; cbn; [done|by apply H]. Qed.

Lemma opcodes_agree op f :
  binary_ir op = Some f → op ≠ IrInst.Sub →
  (∃ o, opcode_ri op = Some o ∧ binary o = Some f ∧ o ≠ NOT) ∧ (∃ o, opcode_rr op = Some o ∧ binary o = Some f ∧ o ≠ NOT).
Proof. intros H Hs. destruct op; cbn in *; simplify_eq; split; eexists; split_and!; done. Qed.

Lemma exec_binary o f out x y st :
  binary o = Some f →
  exec {| opcode := o; operands := [op_input_output (OVReg out); op_input x; op_input y] |} st
  = Next {| vr := <[out := f (read st x) (read st y)]> (vr st); pr := pr st |}.
Proof. intros H. unfold exec; cbn. by destruct o; cbn in *; simplify_eq. Qed.

Context {laws : VmLaws vm}.

Lemma sub_by_not x y : (x + (w_not y + 1) mod order) mod order = (x - y) mod order.
Proof.
  pose proof order_big. pose proof (not_complement y) as Hy.
  rewrite Z.add_mod_idemp_r by lia.
  replace (x + (w_not y + 1)) with ((x - y) + (w_not y + y + 1)) by lia.
  rewrite <-Z.add_mod_idemp_r, Hy, Z.add_0_r by lia. done.
Qed.

Definition opcode_for (rhs : OperandData) (op : IrInst.Opcode) : option Opcode :=
  match rhs with Int64 _ => opcode_ri op | _ => opcode_rr op end.

(** The register that [bin_inst] allocates, and the code it pushes. *)
Definition bin_output (i : nat) (ty : IrTypes.Type_) (c : Ctx) : Ctx := with_output i [ncur c] (with_vreg ty c).
Definition bin_code (op : IrInst.Opcode) (o : Opcode) (out lhs : VReg) (rhs : OperandData) (b : nat) : list Inst.Instruction :=
  map (λ x, Inst.new x b)
    (if decide (op = IrInst.Sub)
     then [{| opcode := NOT; operands := [op_output r7; op_input rhs] |};
           {| opcode := ADDri; operands := [op_output r7; op_input r7; op_input (Int64 1)] |};
           {| opcode := o; operands := [op_input_output (OVReg out); op_input (OVReg lhs); op_input r7] |}]
     else [{| opcode := o; operands := [op_input_output (OVReg out); op_input (OVReg lhs); op_input rhs] |}]).

Lemma bin_inst_eq i op ty lhs rhs o b c :
  inst_id_to_vreg c !! i = None → Z.of_nat (ncur c) < u32_max → block_map c !! cur_block c = Some b →
  ready c rhs → opcode_for rhs op = Some o →
  bin_inst i op ty lhs rhs c
  = Ret (Some (tt, set_inst_seq (inst_seq c ++ bin_code op o (ncur c) lhs rhs b) (bin_output i ty c))).
Proof.
  intros Hi Hmax Hb Hr Ho. unfold bin_inst. erewrite bind_eq by (by apply new_output_eq).
  fold (bin_output i ty c). set (c1 := bin_output i ty c).
  assert (Hb1 : block_map c1 !! cur_block c1 = Some b) by done.
  assert ((match rhs with Int64 _ => mret opcode_ri | OVReg _ => mret opcode_rr | _ => todo end) c1
          = Ret (Some (match rhs with Int64 _ => opcode_ri | _ => opcode_rr end, c1))) as Hsel.
  { by destruct Hr as [[k ->]|(v & -> & _)]. }
  erewrite bind_eq by exact Hsel. unfold bin_code. destruct (decide (op = IrInst.Sub)) as [->|Hsub].
  - unfold negate_into_r7. erewrite bind_eq; [|erewrite bind_eq by (by apply push_eq); by apply push_eq].
    assert (Ho' : (match rhs with Int64 _ => opcode_ri | _ => opcode_rr end) IrInst.Sub = Some o).
    { by destruct Hr as [[k ->]|(v & -> & _)]. }
    rewrite Ho'. erewrite bind_eq by (by apply nth_eq). erewrite push_eq by done.
    unfold with_inst. cbn. by rewrite <-!app_assoc.
  - erewrite bind_eq by done.
    assert (Ho' : (match rhs with Int64 _ => opcode_ri | _ => opcode_rr end) op = Some o).
    { by destruct Hr as [[k ->]|(v & -> & _)]. }
    rewrite Ho'. erewrite bind_eq by (by apply nth_eq). by erewrite push_eq by done.
Qed.

Lemma bin_code_run op o f out lhs rhs b c st :
  binary_ir op = Some f → opcode_for rhs op = Some o → ready c rhs →
  ∃ st', run (bin_code op o out lhs rhs b) st = Next st' ∧ vr st' = <[out := f (vr st lhs) (read st rhs)]> (vr st)
    ∧ ∀ r, r ≠ of_gr R7 → pr st' r = pr st r.
Proof.
  intros Hf Ho Hr. unfold bin_code. destruct (decide (op = IrInst.Sub)) as [->|Hsub].
  - cbn in Hf. injection Hf as <-.
    assert (Hb : binary o = Some (λ x y, (x + y) mod order)).
    { destruct Hr as [[k ->]|(v & -> & _)]; cbn in Ho; by simplify_eq. }
    cbn [map run idata Inst.new].
    change (exec {| opcode := NOT; operands := [op_output r7; op_input rhs] |} st)
      with (write st r7 (w_not (read st rhs))). cbn [write r7].
    set (st1 := {| vr := vr st; pr := _ |}).
    change (exec {| opcode := ADDri; operands := [op_output r7; op_input r7; op_input (Int64 1)] |} st1)
      with (write st1 r7 ((read st1 r7 + read st1 (Int64 1)) mod order)). cbn [write r7].
    rewrite (exec_binary o _ _ _ _ _ Hb). eexists. split; [reflexivity|]. cbn. split.
    + rewrite !fn_lookup_insert. f_equal.
      pose proof order_big. rewrite (Z.mod_small 1) by lia. apply sub_by_not.
    + intros q Hq. by rewrite !fn_lookup_insert_ne by done.
  - destruct (opcodes_agree op f Hf Hsub) as [(o1 & H1 & B1 & _) (o2 & H2 & B2 & _)].
    assert (Hb : binary o = Some f).
    { destruct Hr as [[k ->]|(v & -> & _)]; cbn in Ho; by simplify_eq. }
    cbn [map run idata Inst.new]. rewrite (exec_binary o _ _ _ _ _ Hb). eexists. by split_and!.
Qed.

Lemma bin_inst_selects i op ty lhs rhs f n c st :
  agrees c st → inst_id_to_vreg c !! i = None → Z.of_nat (ncur c) < u32_max →
  binary_ir op = Some f → (lhs < ncur c)%nat → ready c rhs →
  evals n (IrInst.VInstruction i) (f (vr st lhs) (read st rhs)) →
  ∃ c' st', bin_inst i op ty lhs rhs c = Ret (Some (tt, c')) ∧ selects 1 n c st c' st'
    ∧ inst_id_to_vreg c' !! i = Some [ncur c].
Proof.
  intros HA Hi Hmax Hf Hl Hr He. destruct (a_block _ _ HA) as [b Hb].
  assert (∃ o, opcode_for rhs op = Some o) as [o Ho].
  { destruct Hr as [[k ->]|(v & -> & _)]; destruct op; cbn in *; simplify_eq; by eexists. }
  pose proof (bin_inst_eq i op ty lhs rhs o b c Hi Hmax Hb Hr Ho) as Heq.
  destruct (bin_code_run op o f (ncur c) lhs rhs b c st Hf Ho Hr) as (st' & Hrun & Hvr & Hpr).
  eexists _, st'. split; [exact Heq|].
  assert (operand_ok nb (bound_of c) rhs) as Hrok by by destruct Hr as [[k ->]|(v & -> & Hv)].
  destruct (ok_bin_inst nb (bound_of c) i op ty lhs rhs Hl Hrok c tt _ (a_ok _ _ HA) (reflexivity _) Heq) as [Hok _].
  split; [|cbn; by rewrite lookup_insert_eq].
  by eapply (selects_fresh i _ n).
Qed.

(** ** Expressions *)

Lemma ok_load_const n ty k :
  ok nb n (output ← add_vreg ty; _ ← push MOVri [op_output (OVReg output); op_new (Int64 k)]; mret output)
    (λ _ _, True).
Proof. ok_steps. Qed.

(** A constant in a fresh register. *)
Lemma load_const_selects ty k c st :
  agrees c st → Z.of_nat (ncur c) < u32_max →
  ∃ c' st', (output ← add_vreg ty; _ ← push MOVri [op_output (OVReg output); op_new (Int64 k)]; mret output) c
            = Ret (Some (ncur c, c'))
    ∧ selects 1 1 c st c' st' ∧ (ncur c < ncur c')%nat ∧ vr st' (ncur c) = k mod order.
Proof.
  intros HA Hmax. destruct (a_block _ _ HA) as [b Hb]. pose proof HA as [Hok Hir Hcur Hblk Hgiven Hargs Hins].
  eexists (with_inst MOVri _ b (with_vreg ty c)), {| vr := <[ncur c := k mod order]> (vr st); pr := pr st |}.
  assert (Heq : (output ← add_vreg ty; _ ← push MOVri [op_output (OVReg output); op_new (Int64 k)]; mret output) c
    = Ret (Some (ncur c, with_inst MOVri [op_output (OVReg (ncur c)); op_new (Int64 k)] b (with_vreg ty c)))).
  { erewrite bind_eq by (by apply add_vreg_eq). by erewrite bind_eq by (by apply push_eq). }
  split; [exact Heq|]. cbn. rewrite fn_lookup_insert. split; [|split; [lia|done]].
  assert (Hold : ∀ v, (v < ncur c)%nat → (<[ncur c := k mod order]> (vr st)) v = vr st v).
  { intros v Hv. rewrite fn_lookup_insert_ne by lia. done. }
  split; cbn; [|split; cbn; try done| exact Hold|lia|done|done|done|done|by left].
  - by eexists.
  - apply (ok_load_const (bound_of c) ty k c _ _ Hok (reflexivity _) Heq).
  - intros j vs Hj. destruct (Hargs _ _ Hj) as (v & Hv & <-). exists v. split; [done|].
    apply Hold. exact (Forall_lookup_1 _ _ _ _ (c_args _ _ Hok _ _ Hj) Hv).
  - intros j vs m x Hj Hx. destruct (Hins _ _ _ _ Hj Hx) as (v & Hv & <-). exists v. split; [done|].
    apply Hold. exact (Forall_lookup_1 _ _ _ _ (c_outputs _ _ Hok _ _ Hj) Hv).
Qed.

(** What lowering a value of size [n] promises; [fuel] is enough for it.  The
    register is a new one, or one that held the value already. *)
Definition known (c : Ctx) (r : VReg) : Prop :=
  (∃ i vs n w, inst_id_to_vreg c !! i = Some vs ∧ vs !! 0%nat = Some r ∧ evals n (IrInst.VInstruction i) w)
  ∨ ∃ k vs, arg_idx_to_vreg c !! k = Some vs ∧ vs !! 0%nat = Some r.
Definition operand_done (fuel n : nat) (x : IrInst.Value) (w : Z) : Prop :=
  ∀ ty v c st, IrData.values d !! v = Some x → agrees c st → Z.of_nat (ncur c + n) ≤ u32_max →
  ∃ o c' st', get_operand_for_val (lower fuel) ty v c = Ret (Some (o, c')) ∧ selects n n c st c' st'
    ∧ ready c' o ∧ read st' o = w ∧ ((∃ k, x = IrInst.VConstant k) ∨ ∃ r, o = OVReg r ∧ ((ncur c ≤ r)%nat ∨ known c r)).
Definition vreg_done (fuel n : nat) (x : IrInst.Value) (w : Z) : Prop :=
  ∀ ty v c st, IrData.values d !! v = Some x → agrees c st → Z.of_nat (ncur c + n) ≤ u32_max →
  ∃ r c' st', get_vreg_for_val (lower fuel) ty v c = Ret (Some (r, c')) ∧ selects n n c st c' st'
    ∧ (r < ncur c')%nat ∧ vr st' r = w.

Lemma const_done fuel k :
  operand_done fuel 1 (IrInst.VConstant (IrConst.Int (IrConst.Int64 k))) (k mod order)
  ∧ vreg_done fuel 1 (IrInst.VConstant (IrConst.Int (IrConst.Int64 k))) (k mod order).
Proof.
  split; intros ty v c st Hv HA Hmax; pose proof Hv as Hx; rewrite <-(a_ir _ _ HA) in Hx.
  - exists (Int64 k), c, st. unfold get_operand_for_val. erewrite bind_eq by (by apply value_ref_eq).
    split_and!; [done| |left; by eexists|done|left; by eexists].
    eapply (selects_mono 0 _ 1); [lia|lia|by apply selects_refl].
  - destruct (load_const_selects ty k c st HA) as (c' & st' & Heq & HS & Hlt & Hw); [lia|].
    exists (ncur c), c', st'. unfold get_vreg_for_val, get_operand_for_val.
    erewrite bind_eq; [|by erewrite bind_eq by (by apply value_ref_eq)]. by split_and!.
Qed.

(** A register operand serves as a register. *)
Lemma operand_vreg fuel n x w :
  operand_done fuel n x w → (∀ k, x ≠ IrInst.VConstant k) → vreg_done fuel n x w.
Proof.
  intros H Hx ty v c st Hv HA Hmax.
  destruct (H ty v c st Hv HA Hmax) as (o & c' & st' & Heq & HS & Hr & Hw & [[k ->]|(r & -> & _)]); [by destruct (Hx k)|].
  exists r, c', st'. unfold get_vreg_for_val. erewrite bind_eq by exact Heq. split_and!; try done.
  by destruct Hr as [[? [=]]|(? & [= ->] & ?)].
Qed.

Lemma arg_done fuel a :
  (IrInst.nth a < nargs)%nat → operand_done fuel 0 (IrInst.VArgument a) (arg (IrInst.nth a)).
Proof.
  intros Ha ty v c st Hv HA Hmax. pose proof Hv as Hx. rewrite <-(a_ir _ _ HA) in Hx.
  destruct (a_given _ _ HA _ Ha) as [vs Hvs]. destruct (a_args _ _ HA _ _ Hvs) as (r & Hr & Hw).
  exists (OVReg r), c, st. unfold get_operand_for_val. erewrite bind_eq by (by apply value_ref_eq).
  unfold arg_vregs. erewrite bind_eq; [|erewrite bind_eq by done; unfold lift; by rewrite Hvs].
  erewrite bind_eq by (by apply nth_eq). split_and!; [done|by apply selects_refl| |done|right; eexists; split; [done|]; right; right; by eexists _, _].
  right. exists r. split; [done|]. exact (Forall_lookup_1 _ _ _ _ (c_args _ _ (a_ok _ _ HA) _ _ Hvs) Hr).
Qed.

Lemma lower_binary_eq fuel inst i b c :
  IrInst.id inst = Some i → IrInst.operand inst = IrInst.IntBinary_ b →
  lower (S fuel) inst c = lower_bin (lower fuel) i (IrInst.opcode inst) (IrInst.bin_ty b) (IrInst.bin_args b) c.
Proof.
  intros Hid Ho. cbn [lower]. cbv zeta. rewrite Ho. unfold id_of.
  by erewrite bind_eq by (unfold lift; by rewrite Hid).
Qed.

(** An instruction of the block that has no register yet is lowered. *)
Lemma get_inst_output_eq rec ty i inst c c' vs :
  inst_id_to_vreg c !! i = None → IrData.instructions (ir_data c) !! i = Some inst →
  IrInst.parent inst = cur_block c → rec inst c = Ret (Some (tt, c')) → inst_id_to_vreg c' !! i = Some vs →
  get_inst_output rec ty i c = Ret (Some (vs, c')).
Proof.
  intros Hn Hi Hp Hrec Hvs. unfold get_inst_output. erewrite bind_eq by done. rewrite Hn.
  erewrite bind_eq by (by apply inst_ref_eq). erewrite bind_eq by done.
  rewrite decide_False by naive_solver. erewrite bind_eq by exact Hrec. by apply old_output_eq.
Qed.

Lemma evals_done n x w :
  evals n x w → ∀ fuel, (n ≤ fuel)%nat → operand_done fuel n x w ∧ vreg_done fuel n x w.
Proof.
  induction 1 as [k|a Ha|i inst b f x y n m u w Hi Hid Hp Ho Hf Hx Hy E1 IH1 E2 IH2]; intros fuel Hfuel.
  - apply const_done.
  - assert (operand_done fuel 0 (IrInst.VArgument a) (arg (IrInst.nth a))) as H by by apply arg_done.
    split; [done|]. by apply operand_vreg.
  - assert (operand_done fuel (S (n + m)) (IrInst.VInstruction i) (f u w)) as H; [|split; [done|by apply operand_vreg]].
    intros ty v c st Hv HA Hmax. pose proof Hv as Hv'. rewrite <-(a_ir _ _ HA) in Hv'.
    unfold get_operand_for_val. erewrite bind_eq by (by apply value_ref_eq).
    assert (He : evals (S (n + m)) (IrInst.VInstruction i) (f u w)) by by eapply ev_binary.
    destruct (inst_id_to_vreg c !! i) as [vs|] eqn:Hrec.
    + destruct (a_insts _ _ HA _ _ _ _ Hrec He) as (r & Hr & Hw).
      exists (OVReg r), c, st. unfold get_inst_output.
      erewrite bind_eq; [|erewrite bind_eq by done; by rewrite Hrec].
      erewrite bind_eq by (by apply nth_eq). split_and!; [done| | |done|right; eexists; split; [done|]; right; left; by eexists _, _, _, _].
      * eapply (selects_mono 0 _ (S (n + m))); [lia|lia|by apply selects_refl].
      * right. exists r. split; [done|]. exact (Forall_lookup_1 _ _ _ _ (c_outputs _ _ (a_ok _ _ HA) _ _ Hrec) Hr).
    + destruct fuel as [|fuel]; [lia|].
      destruct (proj2 (IH1 fuel ltac:(lia)) (IrInst.bin_ty b) _ c st Hx HA ltac:(lia))
        as (r & c1 & st1 & Eq1 & S1 & Hr & Hw1).
      destruct (proj1 (IH2 fuel ltac:(lia)) (IrInst.bin_ty b) _ c1 st1 Hy (x_agrees _ _ _ _ _ _ S1))
        as (o & c2 & st2 & Eq2 & S2 & Ho2 & Hw2 & _).
      { pose proof (x_new _ _ _ _ _ _ S1). lia. }
      assert (HS : selects (n + m) (n + m) c st c2 st2).
      { eapply selects_trans; (eapply selects_mono; [..|eassumption]); lia. }
      pose proof (x_new _ _ _ _ _ _ S1). pose proof (x_new _ _ _ _ _ _ S2). pose proof (x_new _ _ _ _ _ _ HS).
      assert (Hw1' : vr st2 r = u) by by rewrite (x_kept _ _ _ _ _ _ S2) by lia.
      assert (Hnone : inst_id_to_vreg c2 !! i = None).
      { apply eq_None_not_Some. intros [[? Hs]|(k & z & Hk & Hz)]%(x_seen _ _ _ _ _ _ HS); [congruence|].
        destruct (evals_det _ _ _ _ _ He Hz) as [<- _]. lia. }
      destruct (bin_inst_selects i (IrInst.opcode inst) (IrInst.bin_ty b) r o f (S (n + m)) c2 st2)
        as (c3 & st3 & Eq3 & S3 & Hout); [apply S2|done|lia|done|lia|done|by rewrite Hw1', Hw2|].
      exists (OVReg (ncur c2)), c3, st3.
      assert (Eq : get_inst_output (lower (S fuel)) ty i c = Ret (Some ([ncur c2], c3))).
      { eapply get_inst_output_eq; [done|by rewrite (a_ir _ _ HA)|by rewrite (a_cur _ _ HA)| |exact Hout].
        erewrite lower_binary_eq by done. unfold lower_bin.
        erewrite bind_eq by exact Eq1. by erewrite bind_eq by exact Eq2. }
      erewrite bind_eq by exact Eq. split_and!; [done| | | |right; eexists; split; [done|]; left; lia].
      * eapply (selects_mono (n + m + 1) _ (S (n + m))); [lia|lia|].
        eapply selects_trans; [|exact S3]. eapply selects_mono; [..|exact HS]; lia.
      * right. exists (ncur c2). split; [done|].
        exact (Forall_lookup_1 _ _ 0%nat _ (c_outputs _ _ (a_ok _ _ (x_agrees _ _ _ _ _ _ S3)) _ _ Hout) eq_refl).
      * destruct (a_insts _ _ (x_agrees _ _ _ _ _ _ S3) _ _ _ _ Hout He) as (? & [= <-] & ?). done.
Qed.

(** ** Comparisons *)

Definition compare (cond : IrInst.ICmpCond) (x y : Z) : bool :=
  match cond with
  | IrInst.Eq => x =? y
  | IrInst.Ne => negb (x =? y)
  | IrInst.Ugt | IrInst.Sgt => y <? x
  | IrInst.Uge | IrInst.Sge => y <=? x
  | IrInst.Ult | IrInst.Slt => x <? y
  | IrInst.Ule | IrInst.Sle => x <=? y
  end.

(** [m] pushes code that puts [b] in [out], and stays in the block. *)
Definition puts (m : M unit) (c : Ctx) (st : state) (out : VReg) (t : bool) : Prop :=
  ∃ c' l st', m c = Ret (Some (tt, c')) ∧ inst_seq c' = inst_seq c ++ l ∧ run l st = Next st'
    ∧ vr st' out = Z.b2z t ∧ block_map c' = block_map c ∧ cur_block c' = cur_block c.

Lemma puts_one o ops c st out t :
  is_Some (block_map c !! cur_block c) →
  (∃ p, exec {| opcode := o; operands := ops |} st = Next {| vr := <[out := Z.b2z t]> (vr st); pr := p |}) →
  puts (push o ops) c st out t.
Proof.
  intros [b Hb] [p He]. eexists _, _, _. split; [by apply push_eq|].
  split; [done|]. cbn [run idata Inst.new]. rewrite He. split; [done|]. cbn. by rewrite fn_lookup_insert.
Qed.

(** After a step that leaves [out] to the next ones. *)
Lemma puts_bind {A} (m : M A) (f : A → M unit) c st a c1 l st1 out t :
  m c = Ret (Some (a, c1)) → inst_seq c1 = inst_seq c ++ l → run l st = Next st1 →
  block_map c1 = block_map c → cur_block c1 = cur_block c →
  puts (f a) c1 st1 out t → puts (m ≫= f) c st out t.
Proof.
  intros Hm Hl Hr Hb Hc (c' & k & st' & Hf & Hk & Hr' & Ho & Hb' & Hc').
  exists c', (l ++ k), st'. erewrite bind_eq by exact Hm. split_and!; [done| |by rewrite run_app, Hr|done|congruence..].
  by rewrite Hk, Hl, app_assoc.
Qed.

(** The second half of a strict comparison: [out] holds [g] already. *)
Lemma puts_strict ty icmp out lhs rhs c st (g : bool) :
  is_Some (block_map c !! cur_block c) → Z.of_nat (ncur c) < u32_max →
  (out < ncur c)%nat → (lhs < ncur c)%nat → ready c rhs → vr st out = Z.b2z g →
  puts (output2 ← add_vreg ty;
        _ ← set_output_for_inst icmp [output2];
        _ ← push NEQ [op_output (OVReg output2); op_input (OVReg lhs); op_input rhs];
        push ANDrr [op_output (OVReg out); op_input_output (OVReg out); op_input (OVReg output2)])
    c st out (g && negb (vr st lhs =? read st rhs)).
Proof.
  intros [b Hb] Hmax Ho Hl Hr Hg.
  eapply (puts_bind _ _ _ _ _ _ []); [by apply add_vreg_eq|by rewrite app_nil_r|done|done|done|].
  eapply (puts_bind _ _ _ _ _ _ []); [done|by rewrite app_nil_r|done|done|done|].
  eapply puts_bind; [by apply push_eq|done|done|done|done|].
  apply puts_one; [by eexists|]. eexists. unfold exec, binary. cbn [opcode operands map Inst.data write read
    op_output op_input op_input_output].
  cbn. rewrite fn_lookup_insert, fn_lookup_insert_ne, Hg, and_truth by lia. done.
Qed.

Lemma gt_bool x y : (y <? x) = (y <=? x) && negb (x =? y).
Proof. destruct (Z.ltb_spec y x), (Z.leb_spec y x), (Z.eqb_spec x y); cbn; lia || done. Qed.
Lemma lt_bool x y : (x <? y) = (x <=? y) && negb (x =? y).
Proof. rewrite gt_bool, Z.eqb_sym. done. Qed.

(** A first instruction that puts [g] in [out], then the strict part. *)
Lemma strict_puts o ops ty icmp out lhs rhs c st (g : bool) p :
  is_Some (block_map c !! cur_block c) → Z.of_nat (ncur c) < u32_max →
  (out < ncur c)%nat → (lhs < ncur c)%nat → lhs ≠ out → ready c rhs → rhs ≠ OVReg out →
  exec {| opcode := o; operands := ops |} st = Next {| vr := <[out := Z.b2z g]> (vr st); pr := p |} →
  puts (_ ← push o ops;
        output2 ← add_vreg ty;
        _ ← set_output_for_inst icmp [output2];
        _ ← push NEQ [op_output (OVReg output2); op_input (OVReg lhs); op_input rhs];
        push ANDrr [op_output (OVReg out); op_input_output (OVReg out); op_input (OVReg output2)])
    c st out (g && negb (vr st lhs =? read st rhs)).
Proof.
  intros [b Hb] Hmax Ho Hl Hlo Hr Hro He.
  eapply puts_bind; [by apply push_eq|done|cbn [run idata Inst.new]; by rewrite He|done|done|].
  set (st1 := {| vr := _; pr := _ |}).
  assert (Hl1 : vr st1 lhs = vr st lhs) by (cbn; by rewrite fn_lookup_insert_ne).
  assert (Hr1 : read st1 rhs = read st rhs).
  { destruct Hr as [[k ->]|(v & -> & Hv)]; [done|]. cbn. rewrite fn_lookup_insert_ne; [done|]. congruence. }
  rewrite <-Hl1, <-Hr1. apply puts_strict; [by eexists|done..|]. cbn. by rewrite fn_lookup_insert.
Qed.

Lemma compare_reg_puts ty icmp cond out lhs v c st :
  is_Some (block_map c !! cur_block c) → Z.of_nat (ncur c) < u32_max →
  (out < ncur c)%nat → (lhs < ncur c)%nat → (v < ncur c)%nat → lhs ≠ out → v ≠ out →
  puts (compare_reg ty icmp cond out lhs (OVReg v)) c st out (compare cond (vr st lhs) (vr st v)).
Proof.
  intros Hb Hmax Ho Hl Hv Hlo Hvo.
  assert (ready c (OVReg v)) by (right; by exists v). assert (OVReg v ≠ OVReg out) by congruence.
  destruct cond; cbn [compare_reg compare];
    try (apply puts_one; [done|]; by eexists); case_bool_decide; try naive_solver;
    first [rewrite lt_bool; by eapply strict_puts | rewrite gt_bool; by eapply strict_puts].
Qed.

Lemma compare_imm_puts ty icmp cond out lhs k c st :
  is_Some (block_map c !! cur_block c) → Z.of_nat (ncur c) < u32_max →
  (out < ncur c)%nat → (lhs < ncur c)%nat → lhs ≠ out →
  puts (compare_imm ty icmp cond out lhs k) c st out (compare cond (vr st lhs) (k mod order)).
Proof.
  intros Hb Hmax Ho Hl Hlo.
  assert (ready c (Int64 k)) by (left; by exists k).
  destruct cond; cbn [compare_imm compare];
    try (apply puts_one; [done|]; by eexists).
  all: destruct Hb as [b Hb]; cbv zeta; try (case_bool_decide; try naive_solver).
  1, 4: rewrite gt_bool; eapply (puts_bind _ _ _ _ _ _ []); [done|by rewrite app_nil_r|done|done|done|];
    by eapply strict_puts.
  2, 4: eapply puts_bind; [by apply push_eq|done|done|done|done|]; apply puts_one; [by eexists|];
    eexists; cbn; by rewrite fn_lookup_insert.
  all: rewrite lt_bool, <-(fn_lookup_insert_ne (vr st) out lhs (k mod order)) by done.
  all: eapply puts_bind; [by apply push_eq|done|done|done|done|].
  all: match goal with |- puts ?m ?c1 ?s ?o _ =>
    change (puts m c1 s o ((vr s lhs <=? k mod order) && negb (vr s lhs =? read s (Int64 k)))) end.
  all: eapply strict_puts; try done; cbn; by rewrite fn_lookup_insert.
Qed.

(** ** Conditional branches *)

Lemma agrees_merged i c st : agrees c st → agrees (set_merged_inst ({[i]} ∪ merged_inst c) c) st.
Proof.
  intros [Hok]. split; try done. by apply (ok_mark nb (bound_of c) i c tt _ Hok (reflexivity _) eq_refl).
Qed.

(** An output for an instruction that is no expression. *)
Lemma agrees_output i ty c st :
  agrees c st → inst_id_to_vreg c !! i = None → Z.of_nat (ncur c) < u32_max →
  (∀ n w, ¬ evals n (IrInst.VInstruction i) w) → agrees (bin_output i ty c) st.
Proof.
  intros [Hok Hir Hcur Hblk Hgiven Hargs Hins] Hi Hmax Hno. split; try done.
  - apply (ok_new_empty_inst_output nb (bound_of c) ty i c [ncur c]); [done|done|by apply new_output_eq].
  - intros j vs n w. cbn. rewrite lookup_insert_Some. intros [[-> _]|[_ Hj]] He; [by destruct (Hno n w)|].
    by apply (Hins j vs n w).
Qed.

Lemma icmp_no_expression i inst cmp n w :
  IrData.instructions d !! i = Some inst → IrInst.operand inst = IrInst.ICmp_ cmp →
  ¬ evals n (IrInst.VInstruction i) w.
Proof. intros Hi Ho He. inversion He; simplify_eq. congruence. Qed.

Definition comparable (cmp : IrInst.ICmp) (y : IrInst.Value) : Prop :=
  (∃ k, y = IrInst.VConstant k) ∨ IrInst.icmp_ty cmp = IrTypes.I32 ∨ IrInst.icmp_ty cmp = IrTypes.I64.

(** The comparison [i] with operands [x] and [y] of values [u] and [w]. *)
Record comparison (i : nat) (cmp : IrInst.ICmp) (n m : nat) (u w : Z) : Prop := {
  k_inst : ∃ inst, IrData.instructions d !! i = Some inst ∧ IrInst.operand inst = IrInst.ICmp_ cmp;
  k_lhs : ∃ x, IrData.values d !! (IrInst.icmp_args cmp).1 = Some x ∧ evals n x u;
  k_rhs : ∃ y, IrData.values d !! (IrInst.icmp_args cmp).2 = Some y ∧ evals m y w ∧ comparable cmp y;
}.

(** The comparison proper, once the left operand is in [lhs] and [out] is the
    register for the result. *)
Definition rhs_code (rec : IrInst.Instruction → M unit) (i : nat) (cmp : IrInst.ICmp) (out lhs : VReg)
    (rhs : IrInst.Value) : M unit :=
  match rhs with
  | IrInst.VConstant (IrConst.Int (IrConst.Int64 k)) =>
      compare_imm (IrInst.icmp_ty cmp) i (IrInst.icmp_cond cmp) out lhs k
  | IrInst.VConstant (IrConst.Null _) => push EQrr [op_input (OVReg lhs); op_new (Int32 0)]
  | IrInst.VArgument _ | IrInst.VInstruction _ =>
      _ ← assert_ (bool_decide (IrInst.icmp_ty cmp = IrTypes.I32) || bool_decide (IrInst.icmp_ty cmp = IrTypes.I64));
      rhs_reg ← get_operand_for_val rec (IrInst.icmp_ty cmp) (IrInst.icmp_args cmp).2;
      compare_reg (IrInst.icmp_ty cmp) i (IrInst.icmp_cond cmp) out lhs rhs_reg
  | _ => todo
  end.

Lemma rhs_puts fuel i cmp m lhs out y w c st :
  IrData.values d !! (IrInst.icmp_args cmp).2 = Some y → evals m y w → comparable cmp y → (m ≤ fuel)%nat →
  agrees c st → (lhs < out)%nat → (out < ncur c)%nat → Z.of_nat (ncur c + m + 1) ≤ u32_max →
  (∀ j vs k z, inst_id_to_vreg c !! j = Some vs → evals k (IrInst.VInstruction j) z →
     ∀ r, vs !! 0%nat = Some r → (r < out)%nat) →
  (∀ j vs, arg_idx_to_vreg c !! j = Some vs → ∀ r, vs !! 0%nat = Some r → (r < out)%nat) →
  puts (rhs_code (lower fuel) i cmp out lhs y) c st out (compare (IrInst.icmp_cond cmp) (vr st lhs) w).
Proof.
  intros Hy Ey Hcmp Hm HA Hlo Ho Hmax Hi Ha.
  assert (Hreg : (∀ k, y ≠ IrInst.VConstant k) → puts (
      _ ← assert_ (bool_decide (IrInst.icmp_ty cmp = IrTypes.I32) || bool_decide (IrInst.icmp_ty cmp = IrTypes.I64));
      rhs_reg ← get_operand_for_val (lower fuel) (IrInst.icmp_ty cmp) (IrInst.icmp_args cmp).2;
      compare_reg (IrInst.icmp_ty cmp) i (IrInst.icmp_cond cmp) out lhs rhs_reg) c st out
      (compare (IrInst.icmp_cond cmp) (vr st lhs) w)).
  { intros Hk. eapply (puts_bind _ _ _ _ _ _ []); [|by rewrite app_nil_r|done|done|done|].
    { unfold assert_, lift. destruct Hcmp as [[k ->]|[->| ->]]; [by destruct (Hk k)|done|done]. }
    destruct (proj1 (evals_done _ _ _ Ey fuel Hm) (IrInst.icmp_ty cmp) _ c st Hy HA)
      as (o & c1 & st1 & Eq & HS & Hr & Hw & [[k ->]|(r & -> & Hnew)]); [lia|by destruct (Hk k)|].
    pose proof (x_new _ _ _ _ _ _ HS) as Hn. destruct (x_code _ _ _ _ _ _ HS) as (l & Hl & Hrun).
    pose proof (x_agrees _ _ _ _ _ _ HS) as HA1.
    eapply puts_bind; [exact Eq|exact Hl|exact Hrun|apply HS|by rewrite (a_cur _ _ HA1), (a_cur _ _ HA)|].
    rewrite <-(x_kept _ _ _ _ _ _ HS lhs) by lia. rewrite <-Hw. cbn [read].
    assert (r < ncur c1)%nat by (destruct Hr as [[? [=]]|(? & [= ->] & ?)]; done).
    assert (r ≠ out).
    { destruct Hnew as [?|[(j & vs & k & z & Hj & Hr0 & Hz)|(j & vs & Hj & Hr0)]]; [lia|..].
      - specialize (Hi _ _ _ _ Hj Hz _ Hr0). lia.
      - specialize (Ha _ _ Hj _ Hr0). lia. }
    apply compare_reg_puts; [exact (a_block _ _ HA1)|lia..|done]. }
  inversion Ey; subst; cbn [rhs_code]; try (apply Hreg; intros; done).
  apply compare_imm_puts; [exact (a_block _ _ HA)|lia..].
Qed.

Lemma lower_icmp_puts fuel i cmp n m u w c st :
  comparison i cmp n m u w → (n ≤ fuel)%nat → (m ≤ fuel)%nat → agrees c st →
  inst_id_to_vreg c !! i = None → Z.of_nat (ncur c + n + m + 2) ≤ u32_max →
  ∃ out c' l st', lower_icmp (lower fuel) i cmp c = Ret (Some (out, c')) ∧ inst_seq c' = inst_seq c ++ l
    ∧ run l st = Next st' ∧ vr st' out = Z.b2z (compare (IrInst.icmp_cond cmp) u w)
    ∧ block_map c' = block_map c ∧ cur_block c' = cur_block c.
Proof.
  intros [(inst & Hi & Ho) (x & Hx & Ex) (y & Hy & Ey & Hcmp)] Hn Hm HA Hnone Hmax.
  unfold lower_icmp. cbv zeta. erewrite bind_eq by done.
  set (c0 := set_merged_inst _ c). pose proof (agrees_merged i c st HA) as HA0. fold c0 in HA0.
  assert (Hmax0 : Z.of_nat (ncur c0 + n) ≤ u32_max) by (change (ncur c0) with (ncur c); lia).
  destruct (proj2 (evals_done _ _ _ Ex fuel Hn) (IrInst.icmp_ty cmp) _ c0 st Hx HA0 Hmax0)
    as (lhs & c1 & st1 & Eq1 & S1 & Hl & Hu).
  erewrite bind_eq by exact Eq1.
  pose proof (x_agrees _ _ _ _ _ _ S1) as HA1. pose proof (x_new _ _ _ _ _ _ S1) as Hn1.
  change (ncur c0) with (ncur c) in Hn1.
  pose proof Hy as Hy'. rewrite <-(a_ir _ _ HA1) in Hy'. erewrite bind_eq by (by apply value_ref_eq).
  assert (Hno : ∀ k z, ¬ evals k (IrInst.VInstruction i) z) by (intros; by eapply icmp_no_expression).
  assert (Hnone1 : inst_id_to_vreg c1 !! i = None).
  { apply eq_None_not_Some. intros [[? Hs]|(k & z & _ & Hz)]%(x_seen _ _ _ _ _ _ S1); [|by eapply Hno].
    change (inst_id_to_vreg c0) with (inst_id_to_vreg c) in Hs. congruence. }
  erewrite bind_eq by (apply new_output_eq; [done|lia]). erewrite bind_eq by (by apply nth_eq).
  fold (bin_output i (IrInst.icmp_ty cmp) c1). set (c2 := bin_output i (IrInst.icmp_ty cmp) c1).
  assert (HA2 : agrees c2 st1) by (apply agrees_output; [done|done|lia|done]).
  destruct (x_code _ _ _ _ _ _ S1) as (l1 & Hl1 & Hr1). change (inst_seq c0) with (inst_seq c) in Hl1.
  pose proof (x_map _ _ _ _ _ _ S1) as Hbm1. change (block_map c0) with (block_map c) in Hbm1.
  assert (Hcur1 : cur_block c1 = cur_block c) by by rewrite (a_cur _ _ HA1), (a_cur _ _ HA).
  assert (Hn2 : ncur c2 = S (ncur c1)) by done.
  destruct (rhs_puts fuel i cmp m lhs (ncur c1) y w c2 st1) as (c3 & l3 & st3 & Eq3 & Hl3 & Hr3 & Ho3 & Hb3 & Hc3);
    try done; try lia.
  { intros j vs k z Hj Hz. cbn in Hj. rewrite lookup_insert_Some in Hj. destruct Hj as [[-> _]|[_ Hj]]; [by destruct (Hno k z)|].
    intros r Hr. exact (Forall_lookup_1 _ _ _ _ (c_outputs _ _ (a_ok _ _ HA1) _ _ Hj) Hr). }
  { intros j vs Hj r Hr. exact (Forall_lookup_1 _ _ _ _ (c_args _ _ (a_ok _ _ HA1) _ _ Hj) Hr). }
  exists (ncur c1), c3, (l1 ++ l3), st3. erewrite bind_eq by exact Eq3. split_and!; [done| | | |by rewrite Hb3|by rewrite Hc3].
  - by rewrite Hl3, app_assoc, <-Hl1.
  - by rewrite run_app, Hr1.
  - by rewrite Ho3, Hu.
Qed.

(** C8: On any machine that behaves as the backend's documentation says,
    lowering an expression of the block made of 64-bit constants, arguments
    and additions, subtractions, multiplications and bitwise operations
    succeeds when the vreg counter has room, and running the code it appends
    leaves the value of the expression in the register it returns, changing no
    register that was in use, and records only values it computed. *)
Theorem lower_expression_correct fuel n x w ty v c st :
  evals n x w → (n ≤ fuel)%nat → IrData.values d !! v = Some x → agrees c st →
  Z.of_nat (ncur c + n) ≤ u32_max →
  ∃ r c' st', get_vreg_for_val (lower fuel) ty v c = Ret (Some (r, c')) ∧ selects n n c st c' st' ∧ vr st' r = w.
Proof.
  intros He Hn Hv HA Hmax.
  destruct (proj2 (evals_done _ _ _ He fuel Hn) ty v c st Hv HA Hmax) as (r & c' & st' & ? & ? & _ & ?).
  by exists r, c', st'.
Qed.

End Machine.

(** ** Witnesses *)

(** The field of the machine, with its bit operations. *)
#[export] Instance ola_vm : Vm :=
  let p := 2 ^ 64 - 2 ^ 32 + 1 in
  {| order := p; w_not x := (- x - 1) mod p; w_and x y := Z.land x y mod p;
     w_or x y := Z.lor x y mod p; w_xor x y := Z.lxor x y mod p |}.
#[export] Instance ola_vm_laws : VmLaws ola_vm.
Proof.
  split; [done| |by intros [] []]. intros x. unfold w_not, order; cbn [ola_vm].
  rewrite <-Z.add_assoc, Z.add_mod_idemp_l by done. by replace (- x - 1 + (x + 1)) with 0 by lia.
Qed.

(** Block [b] of [CompileFacts.sample], the two arguments in the first two registers. *)
Definition sample_ctx (b : nat) : Ctx :=
  {| ir_data := IrFunc.data (CompileFacts.sample "max");
     mach_data := Data.with_vregs {| vmap := <[1%nat := IrTypes.I64]> (<[0%nat := IrTypes.I64]> ∅); cur := 2 |} Data.new;
     slots := Slots.new; inst_id_to_slot_id := ∅;
     arg_idx_to_vreg := <[1%nat := [1%nat]]> (<[0%nat := [0%nat]]> ∅); inst_seq := []; types := IrTypes.new 1;
     inst_id_to_vreg := ∅; merged_inst := ∅;
     block_map := <[0%nat := 0%nat]> (<[1%nat := 1%nat]> (<[2%nat := 2%nat]> ∅)); call_conv := SystemV; cur_block := b |}.
Definition sample_args (k : nat) : Z := match k with 0%nat => 10 | _ => 3 end.
Definition sample_state : state := {| vr := sample_args; pr := λ _, 0 |}.

Lemma sample_ctx_ok b : ctx_ok 3 (sample_ctx b).
Proof.
  split; cbn; try done.
  - intros v. rewrite !lookup_insert_is_Some, lookup_empty.
    split; [|intros [<-|[_ [<-|[_ [? [=]]]]]]; lia].
    intros Hv. destruct v as [|[|v]]; [right; split; [done|by left]|by left|lia].
  - intros i vs. rewrite !lookup_insert_Some, lookup_empty.
    intros [[_ <-]|[_ [[_ <-]|[_ [=]]]]]; (constructor; [cbn; lia|constructor]).
  - intros j x. rewrite !lookup_insert_Some, lookup_empty.
    intros [[_ <-]|[_ [[_ <-]|[_ [[_ <-]|[_ [=]]]]]]]; lia.
Qed.

Lemma sample_agrees b :
  (b < 3)%nat → agrees (IrFunc.data (CompileFacts.sample "max")) b 2 sample_args 3 (sample_ctx b) sample_state.
Proof.
  intros Hb. split; [apply sample_ctx_ok|done|done| | | |done].
  - destruct b as [|[|[|]]]; [by eexists..|lia].
  - intros [|[|k]] Hk; [by eexists..|lia].
  - cbn. intros k vs. rewrite !lookup_insert_Some, lookup_empty.
    intros [[<- <-]|[_ [[<- <-]|[_ [=]]]]]; by eexists.
Qed.

Lemma lower_expression_correct_witness :
  ∃ r c' st', get_vreg_for_val (lower 1) IrTypes.I64 3 (sample_ctx 1) = Ret (Some (r, c')) ∧ vr st' r = 7.
Proof.
  destruct (lower_expression_correct (IrFunc.data (CompileFacts.sample "max")) 1 2 sample_args 3
    1 (S (0 + 0)) (IrInst.VInstruction 2) ((10 - 3) mod order) IrTypes.I64 3 (sample_ctx 1) sample_state)
    as (r & c' & st' & H & _ & Hw).
  - eapply (ev_binary _ _ 2 sample_args 2 _ _ (λ x y, (x - y) mod order) _ _ 0 0 10 3); try reflexivity.
    + exact (ev_arg _ _ 2 sample_args {| IrInst.nth := 0; IrInst.arg_ty := IrTypes.I64; IrInst.arg_name := None |} ltac:(cbn; lia)).
    + exact (ev_arg _ _ 2 sample_args {| IrInst.nth := 1; IrInst.arg_ty := IrTypes.I64; IrInst.arg_name := None |} ltac:(cbn; lia)).
  - done.
  - reflexivity.
  - apply sample_agrees; lia.
  - done.
  - exists r, c', st'. split; [exact H|]. rewrite Hw. vm_compute. reflexivity.
Defined.

End LowerSem.
