(* ===== verification/LowerCallFacts.v ===== *)
(** Arguments across a call: the registers that the caller's code fills are
    those the callee's first instructions read, when every argument is a
    scalar; an array argument is passed one register too far. *)
From S2P Require Import Prelude LinkedLayout IrTypes IrValues Machine MFunction Ir.
From S2P Require Import LowerCtx LowerInst LowerCall LowerMem Lower LowerFacts CompileFacts LowerSem.
From stdpp Require Import functions.
#[local] Open Scope Z_scope.

Module LowerCallFacts.
Import Reg Inst Lowering LowerInst LowerCall Lower LowerFacts LowerSem.

(** ** Inverting actions *)

Lemma inv_bind {A B} (m : M A) (f : A → M B) c b c' :
  (m ≫= f) c = Ret (Some (b, c')) → ∃ a c1, m c = Ret (Some (a, c1)) ∧ f a c1 = Ret (Some (b, c')).
Proof. unfold mbind, M_bind. destruct (m c) as [[[a c1]|]| |]; naive_solver. Qed.

Lemma inv_gets {A} (f : Ctx → A) c a c' : gets f c = Ret (Some (a, c')) → a = f c ∧ c' = c.
Proof. by intros [= <- <-]. Qed.
Lemma inv_lift {A} (m : comp A) c a c' : lift m c = Ret (Some (a, c')) → m = Ret a ∧ c' = c.
Proof. unfold lift. destruct m; naive_solver. Qed.
Lemma inv_ret {A} (x : A) c a c' : (mret x : M A) c = Ret (Some (a, c')) → a = x ∧ c' = c.
Proof. by intros [= <- <-]. Qed.
Lemma inv_with_types {A} (f : IrTypes.TypesBase → comp A) c a c' :
  with_types f c = Ret (Some (a, c')) → f (types c) = Ret a ∧ c' = c.
Proof. intros (tb & c1 & [-> ->]%inv_gets & [H ->]%inv_lift)%inv_bind. done. Qed.
Lemma inv_nth {A} (l : list A) k c a c' : nth l k c = Ret (Some (a, c')) → l !! k = Some a ∧ c' = c.
Proof. intros [H%unwrap_Ret ->]%inv_lift. done. Qed.
Lemma inv_assert b c a c' : assert_ b c = Ret (Some (a, c')) → b = true ∧ c' = c.
Proof. intros [H ->]%inv_lift. by destruct b. Qed.

(** The actions that only look. *)
Ltac m_inv :=
  repeat match goal with
  | H : mbind _ _ _ = Ret (Some _) |- _ => apply inv_bind in H as (? & ? & ? & ?)
  | H : gets _ _ = Ret (Some _) |- _ => apply inv_gets in H as [? ?]; subst
  | H : lift _ _ = Ret (Some _) |- _ => apply inv_lift in H as [? ?]; subst
  | H : mret _ _ = Ret (Some _) |- _ => apply inv_ret in H as [? ?]; subst
  | H : with_types _ _ = Ret (Some _) |- _ => apply inv_with_types in H as [? ?]; subst
  | H : nth _ _ _ = Ret (Some _) |- _ => apply inv_nth in H as [? ?]; subst
  | H : assert_ _ _ = Ret (Some _) |- _ => apply inv_assert in H as [? ?]; subst
  | H : todo _ = Ret (Some _) |- _ => discriminate H
  | H : panic _ = Ret (Some _) |- _ => discriminate H
  end.

Lemma inv_passable ty c a c' : passable ty c = Ret (Some (a, c')) → c' = c.
Proof.
  unfold passable, is_pointer, is_array. intros H.
  repeat (case_match; m_inv); try done; m_inv; repeat (case_match; m_inv); done.
Qed.
Lemma inv_arg_reg regs k ty c r c' :
  arg_reg regs k ty c = Ret (Some (r, c')) → c' = c ∧ ∃ u, regs !! k = Some u ∧ r = apply_for u.
Proof. unfold arg_reg. intros H. m_inv. eauto. Qed.
Lemma inv_push o ops c a c' :
  push o ops c = Ret (Some (a, c')) → ∃ b, block_map c !! cur_block c = Some b ∧ c' = with_inst o ops b c.
Proof.
  unfold push, mach_block, mbind, M_bind, gets, lift, modify. cbn.
  destruct (block_map c !! cur_block c) as [b|]; [|done]. intros [= _ <-]. by exists b.
Qed.
Lemma inv_add_vreg ty c v c' : add_vreg ty c = Ret (Some (v, c')) → v = ncur c ∧ c' = with_vreg ty c.
Proof.
  unfold add_vreg, mbind, M_bind, gets, lift, modify, add_vreg_data. cbn.
  destruct (u32 _); [|done..]. cbn. by intros [= <- <-].
Qed.

Section Calls.
Context {vm : Vm} {laws : VmLaws vm}.
Context (d : IrData.Data) (cur_b nargs : nat) (arg : nat → Z) (nb : nat).

Definition scalar (tb : IrTypes.TypesBase) (ty : IrTypes.Type_) : Prop := IrTypes.is_array tb ty = Ret false.

Lemma agrees_push o ops b c st st' :
  agrees d cur_b nargs arg nb c st → block_map c !! cur_block c = Some b →
  operands_ok nb (bound_of c) ops → vr st' = vr st → agrees d cur_b nargs arg nb (with_inst o ops b c) st'.
Proof.
  intros HA Hb Hops Hvr. pose proof HA as [Hok]. split; try done.
  - apply (ok_push nb (bound_of c) o ops Hops c tt _ Hok (reflexivity _)). by apply push_eq.
  - by rewrite Hvr.
  - by rewrite Hvr.
Qed.

Lemma inv_argument_opcode o c opc c' :
  argument_opcode o c = Ret (Some (opc, c')) → c' = c ∧ (opc = MOVri ∨ opc = MOVrr).
Proof.
  unfold argument_opcode, get_size_of. intros H. destruct o; m_inv; eauto.
  case_match; m_inv; eauto.
Qed.

(** A scalar argument [v] of value [w] is put in the register before [g]. *)
Lemma pass_arg_scalar fuel regs g ty v x n w c st g' c' :
  scalar (types c) ty → IrData.values d !! v = Some x → evals d cur_b nargs arg n x w → (n ≤ fuel)%nat →
  agrees d cur_b nargs arg nb c st → Z.of_nat (ncur c + n) ≤ u32_max →
  pass_arg (lower fuel) regs (S g) ty v c = Ret (Some (g', c')) →
  g' = g ∧ ∃ u l st', regs !! g = Some u ∧ inst_seq c' = inst_seq c ++ l ∧ run l st = Next st'
    ∧ agrees d cur_b nargs arg nb c' st' ∧ types c' = types c ∧ (ncur c' ≤ ncur c + n)%nat
    ∧ pr st' (apply_for u) = w ∧ ∀ r, r ≠ of_gr R7 → r ≠ apply_for u → pr st' r = pr st r.
Proof.
  intros Hs Hv He Hn HA Hmax H. unfold pass_arg in H.
  apply inv_bind in H as (? & ? & ->%inv_passable & H).
  apply inv_bind in H as (b & ? & [Hb ->]%inv_with_types & H). rewrite Hs in Hb. injection Hb as <-.
  destruct (proj1 (evals_done _ _ _ _ _ _ _ _ He fuel Hn) ty v c st Hv HA Hmax)
    as (o & c1 & st1 & Eq & HS & Hr & Hw & _).
  apply inv_bind in H as (o' & c1' & Eq' & H). rewrite Eq in Eq'. injection Eq' as <- <-.
  apply inv_bind in H as (g1 & ? & H1 & H). cbn in H1. apply inv_ret in H1 as [-> ->].
  apply inv_bind in H as (r & ? & (-> & u & Hu & ->)%inv_arg_reg & H).
  apply inv_bind in H as (opc & ? & [-> Hopc]%inv_argument_opcode & H).
  apply inv_bind in H as ([] & ? & (b & Hb & ->)%inv_push & [-> ->]%inv_ret).
  split; [done|]. destruct (x_code _ _ _ _ _ _ _ _ _ _ _ HS) as (l & Hl & Hrun).
  pose proof (x_agrees _ _ _ _ _ _ _ _ _ _ _ HS) as HA1.
  eexists u, _, {| vr := vr st1; pr := <[apply_for u := w]> (pr st1) |}. split_and!; [done| | | | | | |].
  - cbn. by rewrite Hl, <-app_assoc.
  - rewrite run_app, Hrun. cbn [run idata Inst.new]. by destruct Hopc as [->| ->]; cbn; rewrite Hw.
  - eapply agrees_push; [exact HA1|done| |done].
    apply operands_cons; [done|]. apply operands_cons; [|constructor]. by destruct Hr as [[k ->]|(r & -> & Hr)].
  - apply (x_types _ _ _ _ _ _ _ _ _ _ _ HS).
  - cbn. pose proof (x_new _ _ _ _ _ _ _ _ _ _ _ HS). unfold ncur in *. cbn. lia.
  - cbn. by rewrite fn_lookup_insert.
  - cbn. intros r H7 Hr'. rewrite fn_lookup_insert_ne by done. by apply (x_regs _ _ _ _ _ _ _ _ _ _ _ HS).
Qed.


(** The registers of a list of arguments, the last one first: the [j]-th from the end in [regs !! j]. *)
Definition filled (regs : list RegUnit) (st : state) (ws : list Z) : Prop :=
  ∀ j w, reverse ws !! j = Some w → ∃ u, regs !! j = Some u ∧ pr st (apply_for u) = w.

(** Registers that are different, and none of them [R7]. *)
Definition distinct (regs : list RegUnit) : Prop :=
  (∀ j k u v, regs !! j = Some u → regs !! k = Some v → apply_for u = apply_for v → j = k)
  ∧ ∀ j u, regs !! j = Some u → apply_for u ≠ of_gr R7.

(** The arguments are scalars, expressions of the values [ws] and of total
    size at most [k]. *)
Definition arguments (fuel : nat) (tb : IrTypes.TypesBase) (l : list (IrTypes.Type_ * ValueId)) (ws : list Z) (k : nat) : Prop :=
  ∃ ns, Forall2 (λ p w, scalar tb p.1 ∧ ∃ x, IrData.values d !! p.2 = Some x ∧ evals d cur_b nargs arg w.1 x w.2
                        ∧ (w.1 ≤ fuel)%nat) l (zip ns ws) ∧ length ns = length ws ∧ (sum_list ns ≤ k)%nat.

Lemma pass_args_scalars fuel regs l ws k c st c' :
  distinct regs → arguments fuel (types c) l ws k → agrees d cur_b nargs arg nb c st → Z.of_nat (ncur c + k) ≤ u32_max →
  pass_args (lower fuel) regs (length l) l c = Ret (Some (tt, c')) →
  ∃ cd st', inst_seq c' = inst_seq c ++ cd ∧ run cd st = Next st' ∧ filled regs st' ws
    ∧ ∀ r, r ≠ of_gr R7 → (∀ j u, (j < length l)%nat → regs !! j = Some u → r ≠ apply_for u) → pr st' r = pr st r.
Proof.
  intros Hd (ns & Hall & Hlen & Hk). revert ns ws k c st Hall Hlen Hk.
  induction l as [|[ty v] l IH]; intros ns ws k c st Hall Hlen Hk HA Hmax H; cbn in H.
  { injection H as <-. exists [], st. split_and!; [by rewrite app_nil_r|done| |done].
    inversion Hall as [Hz|]. destruct ns, ws; done. }
  destruct ns as [|n ns], ws as [|w ws]; try (inversion Hall; done). cbn [zip zip_with] in Hall.
  inversion Hall as [|? ? ? ? (Hs & x & Hx & He & Hn) Hall']; subst. clear Hall. rename Hall' into Hall. cbn [fst snd] in *.
  apply inv_bind in H as (g' & c1 & H1 & H). cbn [length] in H1, Hlen.
  change (n + sum_list ns ≤ k)%nat in Hk.
  destruct (pass_arg_scalar fuel regs (length l) ty v x n w c st g' c1 Hs Hx He Hn HA)
    as (-> & u & cd & st1 & Hu & Hcd & Hrun & HA1 & Hty & Hcur & Hw & Hkeep); [lia|exact H1|].
  rewrite <-Hty in Hall.
  destruct (IH ns ws (k - n)%nat c1 st1 Hall) as (cd' & st' & Hcd' & Hrun' & Hfill & Hkeep'); [lia|lia|done|lia|exact H|].
  assert (Hlw : length ws = length l).
  { apply Forall2_length in Hall. rewrite length_zip in Hall. lia. }
  exists (cd ++ cd'), st'. split_and!; [by rewrite Hcd', Hcd, app_assoc|by rewrite run_app, Hrun| |].
  - intros j z. rewrite reverse_cons, lookup_snoc_Some, length_reverse. intros [[Hj Hz]|[-> <-]]; [by apply Hfill|].
    exists u. rewrite Hlw. split; [done|]. rewrite Hkeep'; [done|by apply (proj2 Hd (length l))|].
    intros i u' Hi Hu' Heq. pose proof (proj1 Hd _ _ _ _ Hu Hu' Heq). lia.
  - intros r Hr Hne. rewrite Hkeep'; [|done|intros i u' Hi Hu'; apply (Hne i); [cbn; lia|done]].
    apply Hkeep; [done|]. apply (Hne (length l)); [cbn; lia|done].
Qed.

(** ** The callee *)

(** One scalar parameter: its register is the next one. *)
Lemma copy_arg_scalar regs g k ty c st g' c' :
  scalar (types c) ty → copy_arg regs g k ty c = Ret (Some (g', c')) →
  g' = S g ∧ ∃ u cd st', regs !! g = Some u ∧ inst_seq c' = inst_seq c ++ cd ∧ run cd st = Next st'
    ∧ types c' = types c ∧ ncur c' = S (ncur c)
    ∧ arg_idx_to_vreg c' = <[k := [ncur c]]> (arg_idx_to_vreg c)
    ∧ vr st' = <[ncur c := pr st (apply_for u)]> (vr st) ∧ pr st' = pr st.
Proof.
  intros Hs H. unfold copy_arg in H.
  apply inv_bind in H as (? & ? & ->%inv_passable & H).
  apply inv_bind in H as (b & ? & [Hb ->]%inv_with_types & H). rewrite Hs in Hb. injection Hb as <-.
  apply inv_bind in H as (r & ? & (-> & u & Hu & ->)%inv_arg_reg & H).
  apply inv_bind in H as (v & c1 & [-> ->]%inv_add_vreg & H).
  apply inv_bind in H as (? & ? & [_ ->]%inv_assert & H).
  apply inv_bind in H as ([] & ? & (b & Hb & ->)%inv_push & H).
  apply inv_bind in H as ([] & c2 & H2 & [-> ->]%inv_ret). injection H2 as <-.
  split; [done|]. eexists u, _, _. by split_and!.
Qed.

Lemma copy_args_scalars regs g k tys c st c' :
  Forall (scalar (types c)) tys → copy_args regs g k tys c = Ret (Some (tt, c')) →
  ∃ cd st', inst_seq c' = inst_seq c ++ cd ∧ run cd st = Next st' ∧ pr st' = pr st
    ∧ (∀ v, (v < ncur c)%nat → vr st' v = vr st v)
    ∧ (∀ j, (j < k)%nat → arg_idx_to_vreg c' !! j = arg_idx_to_vreg c !! j)
    ∧ ∀ j, (j < length tys)%nat → ∃ u v, regs !! (g + j)%nat = Some u ∧ arg_idx_to_vreg c' !! (k + j)%nat = Some [v]
        ∧ vr st' v = pr st (apply_for u).
Proof.
  revert g k c st. induction tys as [|ty tys IH]; intros g k c st Hs H; cbn in H.
  { injection H as <-. exists [], st. split_and!; try done; [by rewrite app_nil_r|]. cbn. lia. }
  inversion Hs as [|? ? Hty Hs']; subst. clear Hs. rename Hs' into Hs. apply inv_bind in H as (g' & c1 & H1 & H).
  destruct (copy_arg_scalar regs g k ty c st g' c1 Hty H1)
    as (-> & u & cd & st1 & Hu & Hcd & Hrun & Ht & Hn & Ha & Hvr & Hpr).
  rewrite <-Ht in Hs.
  destruct (IH (S g) (S k) c1 st1 Hs H) as (cd' & st' & Hcd' & Hrun' & Hpr' & Hold & Hkeep & Hargs).
  exists (cd ++ cd'), st'. split_and!.
  - by rewrite Hcd', Hcd, app_assoc.
  - by rewrite run_app, Hrun.
  - by rewrite Hpr'.
  - intros v Hv. rewrite Hold, Hvr, fn_lookup_insert_ne by lia. done.
  - intros j Hj. rewrite Hkeep, Ha, lookup_insert_ne by lia. done.
  - intros [|j] Hj; cbn in Hj.
    + exists u, (ncur c). rewrite !Nat.add_0_r. split; [done|].
      rewrite Hkeep, Ha, lookup_insert_eq, Hold, Hvr, fn_lookup_insert by lia. done.
    + destruct (Hargs j) as (u' & v' & Hu' & Hv' & Hw'); [lia|]. exists u', v'.
      rewrite !Nat.add_succ_r. cbn in Hu', Hv'. by rewrite Hw', Hpr.
Qed.

Lemma str_arg_regs_distinct cc : distinct (str_arg_reg_list cc).
Proof.
  split.
  - intros j k u v. destruct cc; do 6 (destruct j as [|j]; [do 6 (destruct k as [|k]; [by intros [= <-] [= <-]|]); done|]); done.
  - intros j u. destruct cc; do 6 (destruct j as [|j]; [by intros [= <-]|]); done.
Qed.

Lemma zip_reverse {A B} (l : list A) (k : list B) :
  length l = length k → zip (reverse l) (reverse k) = reverse (zip l k).
Proof.
  revert k. induction l as [|a l IH]; intros [|b k] H; try done. rewrite !reverse_cons. cbn [zip_with].
  rewrite reverse_cons, zip_with_app.
  - by rewrite IH by (cbn in H; lia).
  - rewrite !length_reverse. cbn in H. lia.
Qed.

Lemma sum_list_reverse (l : list nat) : sum_list (reverse l) = sum_list l.
Proof.
  by rewrite reverse_Permutation.
Qed.

Lemma arguments_reverse fuel tb l ws k :
  arguments fuel tb l ws k → arguments fuel tb (reverse l) (reverse ws) k.
Proof.
  intros (ns & Hall & Hlen & Hk). exists (reverse ns). split_and!.
  - rewrite zip_reverse by done. by apply Forall2_reverse.
  - by rewrite !length_reverse.
  - by rewrite sum_list_reverse.
Qed.

(** C13: Across a call with scalar arguments that are expressions of the
    block, running the caller's argument code and then the callee's first
    instructions leaves the value of each argument in the callee's register
    for that parameter: the two sides number the argument registers alike. *)
Theorem scalar_arguments_arrive fuel tys args ws k c st c1 ps c2 c3 :
  length tys = length args → arguments fuel (types c) (zip tys args) ws k →
  agrees d cur_b nargs arg nb c st → Z.of_nat (ncur c + k) ≤ u32_max →
  map IrFunc.param_ty ps = tys → types c2 = types c → call_conv c2 = call_conv c →
  pass_args_to_regs (lower fuel) tys args c = Ret (Some (tt, c1)) →
  copy_args_to_vregs ps c2 = Ret (Some (tt, c3)) →
  ∃ caller st1, inst_seq c1 = inst_seq c ++ caller ∧ run caller st = Next st1 ∧
  ∃ callee, inst_seq c3 = inst_seq c2 ++ callee ∧ ∀ st2, pr st2 = pr st1 →
  ∃ st3, run callee st2 = Next st3
    ∧ ∀ j w, ws !! j = Some w → ∃ v, arg_idx_to_vreg c3 !! j = Some [v] ∧ vr st3 v = w.
Proof.
  intros Hlen Hargs HA Hmax Hps Hty Hcc Hcall Hcopy.
  unfold pass_args_to_regs in Hcall. apply inv_bind in Hcall as (cc & ? & [-> ->]%inv_gets & Hcall).
  unfold copy_args_to_vregs in Hcopy. apply inv_bind in Hcopy as (cc & ? & [-> ->]%inv_gets & Hcopy).
  rewrite zip_reverse in Hcall by done.
  assert (length args = length (reverse (zip tys args))) as Hl by (rewrite length_reverse, length_zip; lia).
  rewrite Hl in Hcall.
  destruct (pass_args_scalars fuel _ _ _ k c st c1 (str_arg_regs_distinct _) (arguments_reverse _ _ _ _ _ Hargs) HA Hmax Hcall)
    as (caller & st1 & H1 & R1 & Hfill & _).
  exists caller, st1. split_and!; [done|done|]. rewrite Hps, Hcc in Hcopy.
  assert (Hs : Forall (scalar (types c2)) tys).
  { rewrite Hty. destruct Hargs as (ns & Hall & _). clear -Hall Hlen. revert tys args ws Hlen Hall.
    induction ns as [|n ns IH]; intros [|t tys] [|v args] [|w ws] Hlen Hall; try done; inversion Hall; subst.
    constructor; [naive_solver|]. eapply IH; [|done]. cbn in Hlen. lia. }
  destruct (copy_args_scalars _ _ _ _ c2 st1 c3 Hs Hcopy) as (callee & _ & H3 & _).
  exists callee. split; [done|]. intros st2 Hpr.
  destruct (copy_args_scalars _ _ _ _ c2 st2 c3 Hs Hcopy) as (callee' & st3 & H3' & R3 & _ & _ & _ & Hv).
  rewrite H3 in H3'. apply app_inv_head in H3' as <-. exists st3. split; [done|].
  intros j w Hj. assert (Hjl : (j < length tys)%nat).
  { destruct Hargs as (ns & Hall & Hln & _). apply Forall2_length in Hall. rewrite !length_zip in Hall.
    apply lookup_lt_Some in Hj. lia. }
  destruct (Hv j Hjl) as (u & v & Hu & Hv1 & Hv2). cbn in Hu, Hv1.
  exists v. split; [done|]. rewrite Hv2, Hpr.
  destruct (Hfill j w) as (u' & Hu' & Hw); [by rewrite reverse_involutive|]. rewrite Hu in Hu'. by injection Hu' as <-.
Qed.
End Calls.

(** ** Witness: [f(b, a)] called from the sample, with [a = 10] and [b = 3] *)

Definition two_params : list IrFunc.Parameter_ := [IrFunc.new_parameter IrTypes.I64; IrFunc.new_parameter IrTypes.I64].
Definition callee_ctx : Ctx :=
  {| ir_data := IrData.new; mach_data := Data.new; slots := Slots.new; inst_id_to_slot_id := ∅; arg_idx_to_vreg := ∅;
     inst_seq := []; types := IrTypes.new 1; inst_id_to_vreg := ∅; merged_inst := ∅; block_map := {[0%nat := 0%nat]};
     call_conv := SystemV; cur_block := 0 |}.

Lemma scalar_arguments_arrive_witness :
  ∃ c1 c3 caller callee st1 st3,
    pass_args_to_regs (lower 1) [IrTypes.I64; IrTypes.I64] [1; 0]%nat (sample_ctx 0) = Ret (Some (tt, c1))
    ∧ copy_args_to_vregs two_params callee_ctx = Ret (Some (tt, c3))
    ∧ inst_seq c1 = caller ∧ run caller sample_state = Next st1 ∧ inst_seq c3 = callee ∧ run callee st1 = Next st3
    ∧ ∃ v, arg_idx_to_vreg c3 !! 0%nat = Some [v] ∧ vr st3 v = 3.
Proof.
  destruct (pass_args_to_regs (lower 1) [IrTypes.I64; IrTypes.I64] [1; 0]%nat (sample_ctx 0)) as [[[[] c1]|]| |] eqn:E1;
    [|exfalso; vm_compute in E1; discriminate E1..].
  destruct (copy_args_to_vregs two_params callee_ctx) as [[[[] c3]|]| |] eqn:E3;
    [|exfalso; vm_compute in E3; discriminate E3..].
  destruct (scalar_arguments_arrive (IrFunc.data (CompileFacts.sample "max")) 0 2 sample_args 3 1
    [IrTypes.I64; IrTypes.I64] [1; 0]%nat [3; 10] 0 (sample_ctx 0) sample_state c1 two_params callee_ctx c3)
    as (caller & st1 & H1 & R1 & callee & H3 & Hcallee).
  - reflexivity.
  - exists [0; 0]%nat. split; [|split; [reflexivity|cbn; lia]].
    repeat constructor; try reflexivity; eexists; (split; [reflexivity|split; [|cbn; lia]]).
    + exact (ev_arg _ _ 2 sample_args {| IrInst.nth := 1; IrInst.arg_ty := IrTypes.I64; IrInst.arg_name := None |} ltac:(cbn; lia)).
    + exact (ev_arg _ _ 2 sample_args {| IrInst.nth := 0; IrInst.arg_ty := IrTypes.I64; IrInst.arg_name := None |} ltac:(cbn; lia)).
  - apply sample_agrees. lia.
  - done.
  - reflexivity.
  - reflexivity.
  - reflexivity.
  - exact E1.
  - exact E3.
  - destruct (Hcallee st1 eq_refl) as (st3 & R3 & Hv). destruct (Hv 0%nat 3 eq_refl) as (v & Hv1 & Hv2).
    exists c1, c3, caller, callee, st1, st3. split; [reflexivity|]. split; [reflexivity|].
    split; [exact H1|]. split; [exact R1|]. split; [exact H3|]. split; [exact R3|]. exists v. split; [exact Hv1|exact Hv2].
Defined.
End LowerCallFacts.
