(* ===== verification/LowerMemFacts.v ===== *)
(** Values of several words through a stack slot: the store
    (codegen/isa/ola/lower/store.rs) puts the last word at offset 0, the load
    (load.rs) looks for the first word at offset 12.  They agree on values of
    one and of four words. *)
From S2P Require Import Prelude LinkedLayout IrTypes IrValues Machine MFunction Ir.
From S2P Require Import LowerCtx LowerInst LowerCall LowerMem Lower LowerFacts CompileFacts LowerSem LowerCallFacts.
From stdpp Require Import functions.
#[local] Open Scope Z_scope.

Module LowerMemFacts.
Import Reg Inst Lowering LowerInst LowerMem LowerFacts LowerSem LowerCallFacts.

(** ** Registers and slots *)

(** The words of each slot by their offset. *)
Record store := { regs : VReg → Z; cells : nat * Z → Z }.

(** The offset that an operand stands for. *)
Definition offset_of (d : OperandData) : option Z :=
  match d with ONone => Some 0 | Int64 o | Int32 o => Some o | _ => None end.

Definition step (i : InstructionData) (st : store) : option store :=
  match opcode i, map Inst.data (operands i) with
  | MSTOREr, [MemStart; ONone; OSlot s; off; ONone; ONone; ONone; OVReg v] =>
      o ← offset_of off; Some {| regs := regs st; cells := <[(s, o) := regs st v]> (cells st) |}
  | MLOADr, [OVReg out; MemStart; ONone; OSlot s; off; ONone; ONone; ONone] =>
      o ← offset_of off; Some {| regs := <[out := cells st (s, o)]> (regs st); cells := cells st |}
  | _, _ => None
  end.

Fixpoint steps (l : list Inst.Instruction) (st : store) : option store :=
  match l with [] => Some st | i :: l => st ← step (idata i) st; steps l st end.

(** ** Loops that push one instruction per element *)

Definition pushed (l : list Inst.Instruction) (c : Ctx) : Ctx := set_inst_seq (inst_seq c ++ l) c.

Lemma for_each_pushes {A} (R : A → Inst.Instruction → Prop) (l : list A) f c c' :
  (∀ a c c', a ∈ l → f a c = Ret (Some (tt, c')) → ∃ i, R a i ∧ c' = pushed [i] c) →
  for_each l f c = Ret (Some (tt, c')) → ∃ is_, Forall2 R l is_ ∧ c' = pushed is_ c.
Proof.
  revert c. induction l as [|a l IH]; intros c Hf H.
  - injection H as <-. exists []. split; [constructor|]. unfold pushed. rewrite app_nil_r. by destruct c.
  - apply inv_bind in H as ([] & c1 & H1 & H). destruct (Hf a c c1) as (i & Hi & ->); [by left|done|].
    destruct (IH (pushed [i] c)) as (is_ & His & ->); [intros; eapply Hf; [by right|done]|done|].
    exists (i :: is_). split; [by constructor|]. unfold pushed. cbn. by rewrite <-app_assoc.
Qed.

Definition store_inst (s : nat) (off : OperandData) (v : VReg) (b : nat) : Inst.Instruction :=
  Inst.new {| opcode := MSTOREr; operands := mem7 ONone (OSlot s) off ONone ONone ONone ++ [op_input (OVReg v)] |} b.
Definition load_inst (s : nat) (off : OperandData) (out : VReg) (b : nat) : Inst.Instruction :=
  Inst.new {| opcode := MLOADr; operands := op_output (OVReg out) :: mem7 ONone (OSlot s) off ONone ONone ONone |} b.

(** What is stored: the word [sz - 1 - idx] at offset [4 * idx]. *)
Lemma run_stores s sz (vs : list VReg) l is_ st :
  NoDup l → Forall2 (λ idx i, ∃ v b, vs !! (sz - idx - 1)%nat = Some v ∧ i = store_inst s (Int64 (4 * Z.of_nat idx)) v b) l is_ →
  ∃ st', steps is_ st = Some st' ∧ regs st' = regs st
    ∧ (∀ idx v, idx ∈ l → vs !! (sz - idx - 1)%nat = Some v → cells st' (s, 4 * Z.of_nat idx) = regs st v)
    ∧ ∀ x, (∀ idx, idx ∈ l → x ≠ (s, 4 * Z.of_nat idx)) → cells st' x = cells st x.
Proof.
  intros Hn H. revert st. induction H as [|idx i l is_ (v & b & Hv & ->) _ IH]; intros st.
  { exists st. split_and!; try done. by intros ? ? ?%elem_of_nil. }
  apply list.NoDup_cons in Hn as [Hidx Hn]. cbn [steps store_inst idata Inst.new]. cbn.
  destruct (IH Hn {| regs := regs st; cells := <[(s, 4 * Z.of_nat idx) := regs st v]> (cells st) |})
    as (st' & -> & Hr & Hin & Hout). exists st'. split_and!; [done|done| |].
  - intros j w [->|Hj]%elem_of_cons Hw; [|by apply Hin]. simplify_eq.
    rewrite Hout; [by cbn; rewrite fn_lookup_insert|]. intros k Hk [= Heq]. by assert (idx = k) as -> by lia.
  - intros x Hx. rewrite Hout by (intros k Hk; apply Hx; by right). cbn.
    rewrite fn_lookup_insert_ne; [done|]. intros <-. by apply (Hx idx); [left|].
Qed.

Lemma run_loads s (off : nat → OperandData) (o : nat → Z) (outs : list VReg) l is_ st :
  (∀ idx, offset_of (off idx) = Some (o idx)) → NoDup l →
  (∀ j k v, outs !! j = Some v → outs !! k = Some v → j = k) →
  Forall2 (λ idx i, ∃ out b, outs !! idx = Some out ∧ i = load_inst s (off idx) out b) l is_ →
  ∃ st', steps is_ st = Some st' ∧ cells st' = cells st
    ∧ (∀ idx out, idx ∈ l → outs !! idx = Some out → regs st' out = cells st (s, o idx))
    ∧ ∀ v, (∀ idx, idx ∈ l → outs !! idx ≠ Some v) → regs st' v = regs st v.
Proof.
  intros Ho Hn Hinj H. revert st. induction H as [|idx i l is_ (out & b & Hout & ->) _ IH]; intros st.
  { exists st. split_and!; try done. by intros ? ? ?%elem_of_nil. }
  apply list.NoDup_cons in Hn as [Hidx Hn]. cbn [steps load_inst idata Inst.new]. cbn. rewrite Ho. cbn.
  destruct (IH Hn {| regs := <[out := cells st (s, o idx)]> (regs st); cells := cells st |})
    as (st' & -> & Hc & Hin & Hkeep). exists st'. split_and!; [done|done| |].
  - intros j w [->|Hj]%elem_of_cons Hw; [|by apply Hin]. simplify_eq.
    rewrite Hkeep; [by cbn; rewrite fn_lookup_insert|]. intros k Hk Hk'. by rewrite (Hinj _ _ _ Hout Hk') in Hidx.
  - intros v Hv. rewrite Hkeep by (intros k Hk; apply Hv; by right). cbn.
    rewrite fn_lookup_insert_ne; [done|]. intros <-. by apply (Hv idx); [left|].
Qed.
(** ** The code of a store and of a load *)

Definition slot_mem (s : nat) : list Operand := mem7 ONone (OSlot s) ONone ONone ONone ONone.
(** The offset that a load of [sz] words gives to the word [idx]. *)
Definition load_offset (sz idx : nat) : OperandData :=
  if decide (sz = 1%nat) then ONone else Int64 (-4 * Z.of_nat idx + 12).
Definition load_at (sz idx : nat) : Z := if decide (sz = 1%nat) then 0 else 12 - 4 * Z.of_nat idx.

Lemma load_offset_of sz idx : offset_of (load_offset sz idx) = Some (load_at sz idx).
Proof. unfold load_offset, load_at. case_decide; [done|]. cbn. f_equal. lia. Qed.

Definition size_is (c : Ctx) (ty : IrTypes.Type_) (size : Z) : Prop := get_size_of ty c = Ret (Some (size, c)).

Lemma inv_words_of ty c sz c' size :
  size_is c ty size → words_of ty c = Ret (Some (sz, c')) → c' = c ∧ sz = Z.to_nat (size / 4).
Proof.
  intros Hs H. unfold words_of in H. apply inv_bind in H as (z & c1 & H1 & [-> ->]%inv_ret).
  rewrite Hs in H1. by injection H1 as <- <-.
Qed.

Lemma store_code ty s (vs : list VReg) c c' size :
  size_is c ty size → store_to ty (AtSlot s) vs c = Ret (Some (tt, c')) →
  ∃ is_, c' = pushed is_ c ∧ Forall2 (λ idx i, ∃ v b, vs !! (Z.to_nat (size / 4) - idx - 1)%nat = Some v
    ∧ i = store_inst s (Int64 (4 * Z.of_nat idx)) v b) (seq 0 (Z.to_nat (size / 4))) is_.
Proof.
  intros Hs H. cbn [store_to] in H. apply inv_bind in H as (sz & ? & [-> ->]%(inv_words_of _ _ _ _ _ Hs) & H).
  apply (for_each_pushes (λ idx i, ∃ v b, vs !! (Z.to_nat (size / 4) - idx - 1)%nat = Some v
    ∧ i = store_inst s (Int64 (4 * Z.of_nat idx)) v b)) in H as (is_ & His & ->); [by eauto|].
  intros idx c1 c2 _ H1. apply inv_bind in H1 as (v & ? & [Hv ->]%inv_nth & (b & _ & ->)%inv_push).
  eauto 10.
Qed.

(** Registers that were not there, each once. *)
Definition fresh (c : Ctx) (outs : list VReg) (n : nat) : Prop := outs = seq (ncur c) n.

Lemma inv_add_vregs ty (l : list nat) c (vs : list VReg) c' :
  map_each l (λ _, add_vreg ty) c = Ret (Some (vs, c')) →
  fresh c vs (length l) ∧ inst_seq c' = inst_seq c ∧ ncur c' = (ncur c + length l)%nat.
Proof.
  unfold fresh. revert c vs c'. induction l as [|a l IH]; intros c vs c' H.
  { apply inv_ret in H as [-> ->]. cbn. split_and!; [done|done|lia]. }
  apply inv_bind in H as (v & c1 & [-> ->]%inv_add_vreg & H).
  apply inv_bind in H as (vs' & c2 & (Hv & Hi & Hn)%IH & [-> ->]%inv_ret).
  rewrite Hv. split_and!; [done|done|]. rewrite Hn. cbn. unfold ncur. cbn. lia.
Qed.

Lemma output_registers i ty c (outs : list VReg) c' size sz :
  size_is c ty size → sz = Z.to_nat (size / 4) → sz ≠ 0%nat → inst_id_to_vreg c !! i = None →
  (if decide (1 < sz)%nat then new_empty_str_inst_output ty i else new_empty_inst_output ty i) c
    = Ret (Some (outs, c')) →
  fresh c outs sz ∧ inst_seq c' = inst_seq c ∧ inst_id_to_vreg c' !! i = Some outs.
Proof.
  intros Hs Hsz H0 Hi H. unfold fresh. case_decide as H1.
  - unfold new_empty_str_inst_output in H. apply inv_bind in H as (m & ? & [-> ->]%inv_gets & H). rewrite Hi in H.
    apply inv_bind in H as (sz' & ? & [-> ->]%(inv_words_of _ _ _ _ _ Hs) & H). rewrite <-Hsz in H.
    rewrite decide_False in H by (cbn; lia).
    apply inv_bind in H as (e & c1 & He & H).
    assert (c1 = c) as -> by (unfold element in He; by m_inv).
    apply inv_bind in H as (new & c2 & (Hn & Hc & _)%inv_add_vregs & H).
    apply inv_bind in H as ([] & c3 & [= <-] & [-> ->]%inv_ret).
    rewrite length_seq in Hn. cbn. split_and!; [done|done|]. by rewrite lookup_insert_eq.
  - assert (sz = 1%nat) as -> by lia.
    unfold new_empty_inst_output in H. apply inv_bind in H as (m & ? & [-> ->]%inv_gets & H). rewrite Hi in H.
    apply inv_bind in H as (v & c1 & [-> ->]%inv_add_vreg & H).
    apply inv_bind in H as ([] & c3 & [= <-] & [-> ->]%inv_ret).
    cbn. split_and!; [done|done|]. by rewrite lookup_insert_eq.
Qed.

Lemma load_code ty i s c c' size sz :
  size_is c ty size → sz = Z.to_nat (size / 4) → sz ≠ 0%nat → inst_id_to_vreg c !! i = None →
  load_words i ty (slot_mem s) c = Ret (Some (tt, c')) →
  ∃ (outs : list VReg) is_, fresh c outs sz ∧ inst_id_to_vreg c' !! i = Some outs
    ∧ inst_seq c' = inst_seq c ++ is_
    ∧ Forall2 (λ idx x, ∃ out b, outs !! idx = Some out ∧ x = load_inst s (load_offset sz idx) out b) (seq 0 sz) is_.
Proof.
  intros Hs Hsz H0 Hi H. unfold load_words in H.
  apply inv_bind in H as (sz' & ? & [-> ->]%(inv_words_of _ _ _ _ _ Hs) & H). rewrite <-Hsz in H.
  apply inv_bind in H as (outs & c1 & Ho & H).
  destruct (output_registers _ _ _ _ _ _ _ Hs Hsz H0 Hi Ho) as (Hf & Hc & Hout).
  apply (for_each_pushes (λ idx x, ∃ out b, outs !! idx = Some out ∧ x = load_inst s (load_offset sz idx) out b))
    in H as (is_ & His & ->).
  - exists outs, is_. split_and!; [done|done| |done]. cbn. by rewrite Hc.
  - intros idx c2 c3 _ H1. apply inv_bind in H1 as (v & ? & [Hv ->]%inv_nth & (b & _ & ->)%inv_push). eauto 10.
Qed.

(** ** Through the slot *)

Lemma seq_inj n m j k (v : VReg) : seq n m !! j = Some v → seq n m !! k = Some v → j = k.
Proof. intros [-> _]%lookup_seq [? _]%lookup_seq. lia. Qed.

(** What becomes of the word [k] of the value that is loaded: the word
    [k + sz - 4] of the value that was stored (the word itself when there is
    one), if there is such a word, and what the memory held before otherwise. *)
Lemma through_slot ty s i (vs : list VReg) c c1 c2 c3 size sz :
  size_is c ty size → size_is c2 ty size → sz = Z.to_nat (size / 4) → sz ≠ 0%nat → inst_id_to_vreg c2 !! i = None →
  store_to ty (AtSlot s) vs c = Ret (Some (tt, c1)) → load_words i ty (slot_mem s) c2 = Ret (Some (tt, c3)) →
  ∃ writer reader (outs : list VReg), inst_seq c1 = inst_seq c ++ writer ∧ inst_seq c3 = inst_seq c2 ++ reader
    ∧ inst_id_to_vreg c3 !! i = Some outs ∧ length outs = sz
    ∧ ∀ st, ∃ st1, steps writer st = Some st1 ∧ ∀ st2, cells st2 = cells st1 →
      ∃ st3, steps reader st2 = Some st3 ∧ ∀ k out, outs !! k = Some out →
        (∀ j v, load_at sz k = 4 * Z.of_nat j → (j < sz)%nat → vs !! (sz - j - 1)%nat = Some v → regs st3 out = regs st v)
        ∧ ((∀ j, (j < sz)%nat → load_at sz k ≠ 4 * Z.of_nat j) → regs st3 out = cells st (s, load_at sz k)).
Proof.
  intros Hs Hs2 Hsz H0 Hi H1 H3. destruct (store_code _ _ _ _ _ _ Hs H1) as (writer & -> & Hw). rewrite <-Hsz in Hw.
  destruct (load_code _ _ _ _ _ _ _ Hs2 Hsz H0 Hi H3) as (outs & reader & Hf & Ho & Hr & Hl).
  unfold fresh in Hf. exists writer, reader, outs. split_and!; [done|done|done|by rewrite Hf, length_seq|].
  intros st. destruct (run_stores _ _ _ _ _ st (NoDup_seq _ _) Hw) as (st1 & E1 & _ & Hin & Hout).
  exists st1. split; [done|]. intros st2 Hc.
  assert (Hinj : ∀ j k v, outs !! j = Some v → outs !! k = Some v → j = k).
  { rewrite Hf. apply seq_inj. }
  destruct (run_loads _ _ (load_at sz) _ _ _ st2 (load_offset_of sz) (NoDup_seq _ _) Hinj Hl) as (st3 & E3 & _ & Hin3 & _).
  exists st3. split; [done|]. intros k out Hk.
  assert (Hks : (k < sz)%nat) by (apply lookup_lt_Some in Hk; by rewrite Hf, length_seq in Hk).
  rewrite (Hin3 k out); [|apply elem_of_seq; lia|done]. rewrite Hc. split.
  - intros j v -> Hj Hv. apply Hin; [apply elem_of_seq; lia|done].
  - intros Hno. apply Hout. intros j [_ Hj]%elem_of_seq [= Heq]. by apply (Hno j).
Qed.

(** C28: A value of one or of four words that is stored to a stack slot and
    loaded from it again comes back word for word, in the registers recorded
    as the load's output, whatever ran in between without touching the slots.
    *)
Theorem aggregate_round_trip ty s i (vs : list VReg) c c1 c2 c3 size :
  size_is c ty size → size_is c2 ty size → size / 4 = 1 ∨ size / 4 = 4 → inst_id_to_vreg c2 !! i = None →
  store_to ty (AtSlot s) vs c = Ret (Some (tt, c1)) → load_words i ty (slot_mem s) c2 = Ret (Some (tt, c3)) →
  ∃ writer reader (outs : list VReg), inst_seq c1 = inst_seq c ++ writer ∧ inst_seq c3 = inst_seq c2 ++ reader
    ∧ inst_id_to_vreg c3 !! i = Some outs
    ∧ ∀ st, ∃ st1, steps writer st = Some st1 ∧ ∀ st2, cells st2 = cells st1 →
      ∃ st3, steps reader st2 = Some st3
        ∧ ∀ k v, (Z.of_nat k < size / 4) → vs !! k = Some v → ∃ out, outs !! k = Some out ∧ regs st3 out = regs st v.
Proof.
  intros Hs Hs2 Hsz Hi H1 H3.
  destruct (through_slot _ _ _ _ _ _ _ _ _ _ Hs Hs2 eq_refl ltac:(lia) Hi H1 H3)
    as (writer & reader & outs & Hw & Hr & Ho & Hlen & Hall).
  exists writer, reader, outs. split_and!; [done..|]. intros st. destruct (Hall st) as (st1 & E1 & Hall1).
  exists st1. split; [done|]. intros st2 Hc. destruct (Hall1 st2 Hc) as (st3 & E3 & Hval).
  exists st3. split; [done|]. intros k v Hk Hv.
  destruct (lookup_lt_is_Some_2 outs k) as [out Hout]; [rewrite Hlen; lia|]. exists out. split; [done|].
  destruct (Hval k out Hout) as [Hv1 _]. apply (Hv1 (Z.to_nat (size / 4) - 1 - k)%nat); [|lia|].
  - unfold load_at. case_decide; lia.
  - rewrite <-Hv. f_equal. lia.
Qed.

(** A value of two words that is stored to a stack slot and loaded again does
    not come back: the words are stored at offsets 0 and 4 and both registers
    are loaded from offsets 8 and 12, which hold what was in memory before. *)
Theorem short_aggregate_is_lost ty s i (vs : list VReg) c c1 c2 c3 size :
  size_is c ty size → size_is c2 ty size → 1 < size / 4 ≤ 2 → inst_id_to_vreg c2 !! i = None →
  store_to ty (AtSlot s) vs c = Ret (Some (tt, c1)) → load_words i ty (slot_mem s) c2 = Ret (Some (tt, c3)) →
  ∃ writer reader (outs : list VReg), inst_seq c1 = inst_seq c ++ writer ∧ inst_seq c3 = inst_seq c2 ++ reader
    ∧ inst_id_to_vreg c3 !! i = Some outs
    ∧ ∀ st, ∃ st1, steps writer st = Some st1 ∧ ∃ st3, steps reader st1 = Some st3
        ∧ ∀ k out, outs !! k = Some out → regs st3 out = cells st (s, 12 - 4 * Z.of_nat k).
Proof.
  intros Hs Hs2 Hsz Hi H1 H3.
  destruct (through_slot _ _ _ _ _ _ _ _ _ _ Hs Hs2 eq_refl ltac:(lia) Hi H1 H3)
    as (writer & reader & outs & Hw & Hr & Ho & Hlen & Hall).
  exists writer, reader, outs. split_and!; [done..|]. intros st. destruct (Hall st) as (st1 & E1 & Hall1).
  exists st1. split; [done|]. destruct (Hall1 st1 eq_refl) as (st3 & E3 & Hval). exists st3. split; [done|].
  intros k out Hout. destruct (Hval k out Hout) as [_ Hv]. apply lookup_lt_Some in Hout as Hk.
  unfold load_at in Hv. rewrite decide_False in Hv by lia. apply Hv. lia.
Qed.

(** ** Witnesses: arrays of integers of 64 bits *)

(** A context whose types have the array of [n] integers. *)
Definition array_ctx (n : nat) : Ctx :=
  match IrTypes.array (IrTypes.new 1) {| IrTypes.elem := IrTypes.I64; IrTypes.num_elements := n |} with
  | Ret (tb, _) => set_types tb (sample_ctx 0)
  | _ => sample_ctx 0
  end.
Definition array_ty (n : nat) : IrTypes.Type_ :=
  match IrTypes.array (IrTypes.new 1) {| IrTypes.elem := IrTypes.I64; IrTypes.num_elements := n |} with
  | Ret (_, t) => t
  | _ => IrTypes.VOID
  end.

Lemma aggregate_round_trip_witness :
  ∃ c1 c3 writer reader st1 st3 out, let vs := [10; 11; 12; 13]%nat in
    store_to (array_ty 4) (AtSlot 0) vs (array_ctx 4) = Ret (Some (tt, c1))
    ∧ load_words 9 (array_ty 4) (slot_mem 0) (array_ctx 4) = Ret (Some (tt, c3))
    ∧ inst_seq c1 = writer ∧ inst_seq c3 = reader
    ∧ steps writer {| regs := Z.of_nat; cells := λ _, 0 |} = Some st1 ∧ steps reader st1 = Some st3 ∧ regs st3 out = 11.
Proof.
  destruct (store_to (array_ty 4) (AtSlot 0) [10; 11; 12; 13]%nat (array_ctx 4)) as [[[[] c1]|]| |] eqn:E1;
    [|exfalso; vm_compute in E1; discriminate E1..].
  destruct (load_words 9 (array_ty 4) (slot_mem 0) (array_ctx 4)) as [[[[] c3]|]| |] eqn:E3;
    [|exfalso; vm_compute in E3; discriminate E3..].
  destruct (aggregate_round_trip (array_ty 4) 0 9 [10; 11; 12; 13]%nat (array_ctx 4) c1 (array_ctx 4) c3 16)
    as (writer & reader & outs & Hw & Hr & Ho & Hall); [reflexivity|reflexivity|by right|reflexivity|exact E1|exact E3|].
  destruct (Hall {| regs := Z.of_nat; cells := λ _, 0 |}) as (st1 & R1 & H1).
  destruct (H1 st1 eq_refl) as (st3 & R3 & Hv). destruct (Hv 1%nat 11%nat) as (out & _ & H11); [reflexivity|reflexivity|].
  exists c1, c3, writer, reader, st1, st3, out. split_and!; [done|done|exact Hw|exact Hr|exact R1|exact R3|exact H11].
Defined.

Lemma short_aggregate_is_lost_witness :
  ∃ c1 c3 writer reader st1 st3 out, let vs := [10; 11]%nat in
    store_to (array_ty 2) (AtSlot 0) vs (array_ctx 2) = Ret (Some (tt, c1))
    ∧ load_words 9 (array_ty 2) (slot_mem 0) (array_ctx 2) = Ret (Some (tt, c3))
    ∧ inst_seq c1 = writer ∧ inst_seq c3 = reader
    ∧ steps writer {| regs := Z.of_nat; cells := λ _, 0 |} = Some st1 ∧ steps reader st1 = Some st3 ∧ regs st3 out = 0.
Proof.
  destruct (store_to (array_ty 2) (AtSlot 0) [10; 11]%nat (array_ctx 2)) as [[[[] c1]|]| |] eqn:E1;
    [|exfalso; vm_compute in E1; discriminate E1..].
  destruct (load_words 9 (array_ty 2) (slot_mem 0) (array_ctx 2)) as [[[[] c3]|]| |] eqn:E3;
    [|exfalso; vm_compute in E3; discriminate E3..].
  destruct (short_aggregate_is_lost (array_ty 2) 0 9 [10; 11]%nat (array_ctx 2) c1 (array_ctx 2) c3 8)
    as (writer & reader & outs & Hw & Hr & Ho & Hall); [reflexivity|reflexivity|done|reflexivity|exact E1|exact E3|].
  destruct (Hall {| regs := Z.of_nat; cells := λ _, 0 |}) as (st1 & R1 & st3 & R3 & Hv).
  destruct outs as [|out outs]; [exfalso; vm_compute in E3; injection E3 as <-; vm_compute in Ho; discriminate Ho|].
  exists c1, c3, writer, reader, st1, st3, out. split_and!; [done|done|exact Hw|exact Hr|exact R1|exact R3|].
  exact (Hv 0%nat out eq_refl).
Defined.
End LowerMemFacts.
